(* ===== verification/_CoqProject ===== *)
-Q . S2P
Prelude.v
InternalKey.v
Block.v
IndexBlock.v
Checksum.v
Bloom.v
Order.v
RangeTombstone.v
TombstoneLog.v
WalCodec.v
Seal.v
WalFrame.v
WalStamp.v
WalV1.v
WalReplay.v
WalLog.v
WalGate.v
Manifest.v
Version.v
ReadPath.v
CommitWalk.v
CommitCheck.v
CommitSlots.v
CommitRuns.v
CommitAppends.v
CommitVerdicts.v
Stripes.v
Compaction.v
Picking.v
DeletionPick.v
Claims.v
VersionSet.v
ManifestLife.v
