(* ===== verification/Prelude.v ===== *)
(** * Regolith: a verification of the storage engine

    Regolith is an embedded key-value store in Rust: an LSM tree with a
    write-ahead log, a manifest, range deletions, merge operators and sealed
    (encrypted) files. This library models the parts that decide what is stored
    and what is read back, and proves what they promise. Paths are those of
    [src/src].

    ** The parts

    A write, a transaction or the reservation of counter values takes a slot of
    the commit pipeline: a transaction is checked against what landed since it
    read, its appends are numbered, and the slot takes the next sequences. What it
    writes is encoded as a group of operations, framed as a log record, appended to
    the log and put in a memtable, and published. A memtable that is full is
    flushed to a table, tables are merged down the levels, and every change of the
    set of tables is a batch of the manifest. A read walks memtables and tables
    from the newest to the oldest. An open replays the manifest and the log.

    ** Files of the development

    - [Prelude]: byte strings, machine-width integers, the outcome monad
      ([Ok], [Err], [Panic], [OutOfFuel]), slices, binary search, tactics.
    - [InternalKey]: [engine/internal_key.rs], [engine/lookup_key.rs] and the
      sequence stamp of [engine/block/stamp.rs]: user key, inverted sequence,
      value type, and their order.
    - [Block]: [engine/block.rs]: data blocks with prefix compression and
      restarts, the builder, the scan and the seek.
    - [IndexBlock]: [engine/index_block.rs]. [Checksum]: [engine/checksum.rs].
    - [Bloom]: [engine/bloom.rs], [engine/filter_block.rs],
      [engine/prefix_call.rs].
    - [Order]: the order of byte strings, stable sorting and dedup.
    - [RangeTombstone]: [engine/range_tombstone.rs]: the indexed set, clipping,
      coalescing and the block of a table.
    - [TombstoneLog]: [engine/memtable/tombstones.rs], alone and with threads.
    - [WalCodec], [WalFrame], [WalStamp], [WalV1], [WalReplay]: the operations of
      a group, record frames, stamps, format 1, and the replay of a log with the
      rule that judges its end ([engine/wal.rs], [engine/wal_frame.rs],
      [engine/wal_v1.rs], [engine/wal_replay.rs], [engine/wal_seal.rs]).
    - [Seal]: [engine/seal.rs]: sealed frames and the keyring.
    - [WalLog]: [engine/wal_log.rs] and the writers of [engine/wal.rs], and the
      log as the commit pipeline drives it: places, writes in any order, syncs,
      rollbacks, cuts, the latch and CLOSE, over a file that a crash may change.
    - [WalGate]: [engine/wal_gate.rs] and the waker of
      [engine/io/atomic_waker.rs], one atomic access per step.
    - [Manifest]: the records and batches of [engine/manifest.rs],
      [engine/manifest/sealed.rs], [engine/manifest/tail.rs].
    - [Version]: versions, edits and replay of [engine/manifest.rs], and
      [engine/manifest/legacy_overlap.rs].
    - [ReadPath]: the point reads of [engine/mod.rs] and
      [engine/source_walk.rs] with the walks over one source's entries.
    - [CommitWalk], [CommitCheck]: the probes of a view and the checks of a
      transaction, of [engine/commit/] ([terminator.rs], [read_rules.rs],
      [early.rs], [range_rule.rs], [txn.rs], [write_check.rs], [replaced.rs],
      [content.rs], [write_free.rs]).
    - [CommitSlots]: what a slot decides and leaves ([pipeline.rs],
      [allocate.rs], [counters.rs], [append.rs], [ordered.rs] of
      [engine/commit/]), as functions and as one step relation with
      publications, sealed memtables, installed tables, rollbacks and the latch.
      [CommitRuns], [CommitAppends], [CommitVerdicts]: its runs.
    - [Stripes], [Compaction]: what a compaction keeps of a key
      ([engine/compaction/stripes.rs], [engine/compaction/retire.rs]) and a whole
      pass over its inputs ([engine/compaction.rs]).
    - [Picking], [DeletionPick], [Claims]: which tables a pass takes and where
      its outputs go ([engine/compaction.rs], [engine/compaction/deletion.rs]),
      and the claims that keep passes apart ([engine/compaction/claims.rs]).
    - [VersionSet]: [VersionSet] of [engine/manifest.rs]: create, open, apply,
      rewrite. [ManifestLife]: its life under power cuts.

    ** What is shown

    - Formats: every codec reads back what it wrote, and decoders of untrusted
      bytes return, in bounds, without a panic (a 32-bit target's exception is
      stated). Keys compare in their encoded form as they do decoded.
    - Searches: the binary searches of blocks, index, levels and tombstone sets
      find exactly what a linear walk would; filters never rule out a key that is
      there, for a prefix extractor that keeps its contract, which the provided
      query of the trait does not by itself ensure.
    - The log: replay of any bytes is one rule; unless a cut failed and the
      database latched, the file of a written log is the records of the commits
      not rolled back and replays to these; a crash that keeps what the host
      synced, and of the rest any records whole or not at all, leaves a log that
      opens to a prefix of them with every synced one; damage before a later proof
      of sync is refused.
    - The gate: no write lands in a log below a sync or above a cut, and a parked
      sync or rollback is woken, in every interleaving.
    - Tombstones of a memtable: readers see every range deletion that was in the
      log when they began, whatever appends and rebuilds run beside them.
    - The manifest: replay restores the version the edits led to; what a power
      cut leaves opens, to the last durable version or a later one; a read-only
      open of any bytes returns, but for a length that wraps on a 32-bit target. A
      batch an open read may still be lost: the open does not sync it.
    - Reads: the walk over memtables, L0 and levels reads what the set of all
      writes says.
    - Compactions: a pass without a filter, with a merge operator that keeps the
      documented laws, changes nothing a reader at a live snapshot, or past the
      writes it read, reads of a key, unless a write of it shares its sequence with
      a range tombstone over it, whose deletion the pass can undo; the pickers
      never leave an older version of a key above a newer one, also with runs
      installed beside a pass, and return only free tables; two passes never hold
      one table. A universal merge that carries a range tombstone can repeat for
      ever.
    - Commits: a transaction that commits would read, in the view it commits on,
      what it read, although it was checked at an earlier horizon and flushes,
      compactions and rolled-back slots came between; the values of a counter are
      handed out once and in order, and the entries of a commit-ordered log keep
      their positions without a hole, through log failures; every slot gets a
      verdict and one that is refused leaves no trace; a rollback leaves the
      published reads.

    ** Bounds and fuel

    Loops over bytes recurse on a fuel that is at least the number of bytes left,
    and each file proves that it does not run out ([OutOfFuel] never shows).
    Integers are [Z] with the wrap or the check of the source written out at the
    width it has there; [usize] is a class with a 32-bit and a 64-bit instance.
    Hashes, ciphers and random bytes are parameters, with their documented laws
    as hypotheses, and each such theorem has a witness with a toy instance.
    [ManifestLife] uses the law of excluded middle for one case distinction.

    ** What is not modelled

    The skip list and arena (raw pointers under a weak memory model); the ring
    through which threads help each other decide and publish slots (the slots
    themselves are decided one after the other here, as the ring orders them);
    the buffers and locks of transactions; iterators; flushes and the pools that
    run compactions; compression and the footer of tables; input and output,
    whose promises appear as the crash models of the log and the manifest (a
    power cut undoes no cut of the log); caches, options, statistics and
    call-backs, which decide no stored bytes. The steps of [WalGate] and [TombstoneLog] are
    sequentially consistent: the release and acquire orderings the sources
    argue for in their comments are taken at their word. *)

From stdpp Require Export base tactics list numbers option.
From coqutil Require Export Byte Word.LittleEndianList.
From Stdlib Require Export ZArith Lia Sorted Permutation.
From Stdlib Require String.
Export String.StringSyntax.

Export ListNotations.
#[global] Open Scope Z_scope.

(** ** Scopes, tactics and databases *)

Declare Scope rego_scope.
Delimit Scope rego_scope with rego.

Create HintDb rego discriminated.

(** Bytes are the 256-element type of the standard library, so a byte string
    needs no side condition saying its elements fit in eight bits. *)
Abbreviation byte := Init.Byte.byte.
Abbreviation bytes := (list byte).

#[export] Instance byte_eq_dec : EqDecision byte := Byte.byte_eq_dec.

(** ** Lengths

    A Rust length is a [usize]; every length and offset of the development is
    a [Z], so that a length field read from a file is never turned into a
    unary number before it has been compared with what the file holds. *)
Definition len {A} (l : list A) : Z := Z.of_nat (length l).

Lemma len_nil {A} : len (@nil A) = 0.
Proof. reflexivity. Qed.
Lemma len_cons {A} (x : A) l : len (x :: l) = 1 + len l.
Proof. unfold len. rewrite length_cons. lia. Qed.
Lemma len_app {A} (l k : list A) : len (l ++ k) = len l + len k.
Proof. unfold len. rewrite length_app. lia. Qed.
Lemma len_nonneg {A} (l : list A) : 0 <= len l.
Proof. unfold len. lia. Qed.
Lemma len_rev {A} (l : list A) : len (rev l) = len l.
Proof. unfold len. rewrite length_rev. reflexivity. Qed.
Lemma len_map {A B} (f : A -> B) l : len (map f l) = len l.
Proof. unfold len. rewrite length_map. reflexivity. Qed.
Lemma len_replicate {A} n (x : A) : len (replicate n x) = Z.of_nat n.
Proof. unfold len. rewrite length_replicate. reflexivity. Qed.
Lemma len_zero {A} (l : list A) : len l = 0 -> l = [].
Proof. unfold len. destruct l; [done|]. rewrite length_cons. lia. Qed.

#[export] Hint Rewrite @len_nil @len_cons @len_app @len_rev @len_map @len_replicate : len.


Ltac len_norm := autorewrite with len in *.

(** Arithmetic on lengths: normalise every [len], recall that the opaque ones
    are not negative, and call [lia]. *)
Ltac len_nonneg_all :=
  repeat match goal with
  | |- context [len ?l] =>
      lazymatch goal with
      | _ : 0 <= len l |- _ => fail
      | _ => pose proof (len_nonneg l)
      end
  | _ : context [len ?l] |- _ =>
      lazymatch goal with
      | _ : 0 <= len l |- _ => fail
      | _ => pose proof (len_nonneg l)
      end
  end.
Ltac llia := len_norm; len_nonneg_all; lia.

(** A byte string literal, Rust's [b"..."]. *)
Definition str (s : String.string) : bytes := String.list_byte_of_string s.
#[global] Arguments str _%_string_scope.

(** ** Slices

    [slice l a b] is Rust's [l.get(a..b)]: the elements from [a] up to [b], or
    [None] when the range is not inside the list. *)
Definition slice {A} (l : list A) (a b : Z) : option (list A) :=
  if (0 <=? a) && (a <=? b) && (b <=? len l)
  then Some (take (Z.to_nat (b - a)) (drop (Z.to_nat a) l))
  else None.

(** [dropz] and [takez] are [&l[a..]] and [&l[..a]] once the code has checked
    that [a] is in range. *)
Definition dropz {A} (a : Z) (l : list A) : list A := drop (Z.to_nat a) l.
Definition takez {A} (a : Z) (l : list A) : list A := take (Z.to_nat a) l.

Lemma len_takez {A} a (l : list A) : 0 <= a <= len l -> len (takez a l) = a.
Proof. unfold takez, len. rewrite length_take. lia. Qed.
Lemma len_dropz {A} a (l : list A) : 0 <= a <= len l -> len (dropz a l) = len l - a.
Proof. unfold dropz, len. rewrite length_drop. lia. Qed.
Lemma takez_dropz {A} a (l : list A) : takez a l ++ dropz a l = l.
Proof. apply take_drop. Qed.
Lemma takez_app {A} a (l k : list A) : a = len l -> takez a (l ++ k) = l.
Proof. intros ->. unfold takez, len. rewrite Nat2Z.id. apply take_app_length. Qed.
Lemma dropz_app {A} a (l k : list A) : a = len l -> dropz a (l ++ k) = k.
Proof. intros ->. unfold dropz, len. rewrite Nat2Z.id. apply drop_app_length. Qed.
Lemma takez_0 {A} (l : list A) : takez 0 l = [].
Proof. reflexivity. Qed.
Lemma dropz_0 {A} (l : list A) : dropz 0 l = l.
Proof. reflexivity. Qed.
Lemma takez_all {A} a (l : list A) : len l <= a -> takez a l = l.
Proof. unfold takez, len. intros. apply take_ge. lia. Qed.
Lemma dropz_dropz {A} a b (l : list A) :
  0 <= a -> 0 <= b -> dropz a (dropz b l) = dropz (a + b) l.
Proof. unfold dropz. intros. rewrite drop_drop. f_equal. lia. Qed.
Lemma takez_app_le {A} a (l k : list A) : 0 <= a <= len l -> takez a (l ++ k) = takez a l.
Proof. unfold takez, len. intros. apply take_app_le. lia. Qed.
Lemma dropz_app_le {A} a (l k : list A) : 0 <= a <= len l -> dropz a (l ++ k) = dropz a l ++ k.
Proof. unfold dropz, len. intros. apply drop_app_le. lia. Qed.

(** The list is the prefix before [a], the slice, and the rest. *)
Lemma slice_Some {A} (l : list A) a b s :
  slice l a b = Some s <->
  0 <= a <= b /\ b <= len l /\ exists p q, l = p ++ s ++ q /\ len p = a /\ len s = b - a.
Proof.
  unfold slice. split.
  - destruct (_ && _) eqn:E; [|done]. intros [= <-].
    apply andb_prop in E as [[E1 E2]%andb_prop E3]. split_and!; try lia.
    exists (takez a l), (dropz (b - a) (dropz a l)).
    fold (dropz a l) (takez (b - a) (dropz a l)). rewrite !takez_dropz.
    rewrite !len_takez by (rewrite ?len_dropz; lia). done.
  - intros (Ha & Hb & p & q & -> & Hp & Hs).
    rewrite !len_app in *.
    replace (_ && _) with true by (symmetry; rewrite !andb_true_iff; llia).
    fold (dropz a (p ++ s ++ q)) (takez (b - a) (dropz a (p ++ s ++ q))).
    rewrite dropz_app by lia. by rewrite takez_app by lia.
Qed.

Lemma slice_app {A} (p s q : list A) a b :
  a = len p -> b = a + len s -> slice (p ++ s ++ q) a b = Some s.
Proof.
  intros -> ->. apply slice_Some. len_norm. split_and!; try llia.
  exists p, q. split_and!; [done..|lia].
Qed.

Lemma slice_at {A} (l p s q : list A) a b :
  l = p ++ s ++ q -> a = len p -> b = a + len s -> slice l a b = Some s.
Proof. intros ->. apply slice_app. Qed.

Lemma slice_app_head {A} (s q : list A) b : b = len s -> slice (s ++ q) 0 b = Some s.
Proof. intros ->. apply (slice_app [] s q); [done|lia]. Qed.

Lemma slice_full {A} (s : list A) b : b = len s -> slice s 0 b = Some s.
Proof. intros ->. rewrite <- (app_nil_r s) at 1. by apply slice_app_head. Qed.

Lemma slice_len {A} (l : list A) a b s : slice l a b = Some s -> len s = b - a.
Proof. intros (_ & _ & p & q & _ & _ & H)%slice_Some. done. Qed.

Lemma slice_None {A} (l : list A) a b :
  slice l a b = None <-> ~ (0 <= a <= b /\ b <= len l).
Proof.
  unfold slice. destruct (_ && _) eqn:E.
  - split; [done|]. rewrite !andb_true_iff in E. intros []. lia.
  - split; [|done]. rewrite !andb_false_iff in E. lia.
Qed.

Lemma slice_takez {A} (l : list A) n a b s :
  slice l a b = Some s -> b <= n -> slice (takez n l) a b = Some s.
Proof.
  intros (Ha & Hb & p & q & -> & Hp & Hs)%slice_Some Hn.
  destruct (Z.le_ge_cases (len (p ++ s ++ q)) n).
  { rewrite takez_all by done. apply slice_app; lia. }
  rewrite <- (takez_dropz (n - len p - len s) q).
  assert (takez n (p ++ s ++ takez (n - len p - len s) q ++ dropz (n - len p - len s) q) =
    p ++ s ++ takez (n - len p - len s) q) as ->.
  { rewrite (app_assoc s), (app_assoc p). apply takez_app.
    rewrite !len_app, len_takez by (rewrite !len_app in *; llia). lia. }
  apply slice_app; lia.
Qed.

Lemma slice_prefix {A} (l k : list A) a b s :
  slice l a b = Some s -> slice (l ++ k) a b = Some s.
Proof.
  rewrite !slice_Some. intros (H1 & H2 & p & q & -> & Hp & Hs).
  split_and!; [lia..|llia|]. exists p, (q ++ k). by rewrite <- !app_assoc.
Qed.

(** One element, Rust's [l.get(i)]. *)
Definition getz {A} (l : list A) (i : Z) : option A :=
  if 0 <=? i then l !! Z.to_nat i else None.

Lemma getz_map {A B} (f : A -> B) l i : getz (map f l) i = f <$> getz l i.
Proof. unfold getz. destruct (_ <=? _); [|done]. apply list_lookup_fmap. Qed.

Lemma getz_app_mid {A} (p : list A) x q i : i = len p -> getz (p ++ x :: q) i = Some x.
Proof.
  intros ->. unfold getz, len. destruct (Z.leb_spec 0 (Z.of_nat (length p))); [|lia].
  rewrite Nat2Z.id. by apply list_lookup_middle.
Qed.
Lemma getz_Some_lt {A} (l : list A) i x : getz l i = Some x -> 0 <= i < len l.
Proof.
  unfold getz, len. destruct (Z.leb_spec 0 i); [|done].
  intros ?%lookup_lt_Some. lia.
Qed.
Lemma getz_is_Some {A} (l : list A) i : 0 <= i < len l -> is_Some (getz l i).
Proof.
  unfold getz, len. intros. destruct (Z.leb_spec 0 i); [|lia].
  apply lookup_lt_is_Some. lia.
Qed.

(** ** Outcomes

    What a call of the Rust code comes to: a value, an [io::Error], a panic
    (an index out of range, an [expect] that fails), or, for the models of
    loops, a loop that ran out of the fuel it was given. *)
Inductive error_kind := UnexpectedEof | InvalidData | InvalidInput | WouldBlock | OtherError.

#[export] Instance error_kind_eq_dec : EqDecision error_kind.
Proof. solve_decision. Defined.

(** An error carries its kind, its message and the numbers formatted into it. *)
Record error := mkError {
  ekind : error_kind;
  emsg : String.string;
  eargs : list Z;
}.

Arguments mkError ekind emsg%_string_scope eargs.

Definition invalid_data (msg : String.string) : error := mkError InvalidData msg [].
Arguments invalid_data msg%_string_scope.

Inductive outcome (A : Type) :=
| Ok (a : A)
| Err (e : error)
| Panic
| OutOfFuel.
Arguments Ok {A} a.
Arguments Err {A} e.
Arguments Panic {A}.
Arguments OutOfFuel {A}.

#[export] Instance outcome_ret : MRet outcome := fun A a => Ok a.
#[export] Instance outcome_bind : MBind outcome := fun A B f m =>
  match m with
  | Ok a => f a
  | Err e => Err e
  | Panic => Panic
  | OutOfFuel => OutOfFuel
  end.

(** [o.ok_or(e)?] and [o.expect(..)]. *)
Definition ok_or {A} (o : option A) (e : error) : outcome A :=
  match o with Some a => Ok a | None => Err e end.
Definition expect {A} (o : option A) : outcome A :=
  match o with Some a => Ok a | None => Panic end.

(** A refusal: the call returned an error, it did not panic or run out. *)
Definition is_err {A} (m : outcome A) : bool :=
  match m with Err _ => true | _ => false end.
Definition is_ok {A} (m : outcome A) : bool :=
  match m with Ok _ => true | _ => false end.

(** The call came back: neither a panic nor a loop out of fuel. *)
Definition returns {A} (m : outcome A) : Prop :=
  match m with Ok _ | Err _ => True | _ => False end.

Lemma bind_Ok {A B} (m : outcome A) (f : A -> outcome B) b :
  m ≫= f = Ok b <-> exists a, m = Ok a /\ f a = Ok b.
Proof.
  split.
  - destruct m; intros H; [eauto|discriminate..].
  - by intros (a & -> & H).
Qed.
Lemma Ok_inj {A} (a b : A) : Ok a = Ok b -> a = b.
Proof. congruence. Qed.
Lemma ok_or_Ok {A} (o : option A) e a : ok_or o e = Ok a <-> o = Some a.
Proof. destruct o; simpl; naive_solver. Qed.
Lemma expect_Ok {A} (o : option A) a : expect o = Ok a <-> o = Some a.
Proof. destruct o; simpl; naive_solver. Qed.
Lemma returns_Ok {A} (a : A) : returns (Ok a).
Proof. exact I. Qed.
Lemma returns_Err {A} e : returns (@Err A e).
Proof. exact I. Qed.
Lemma returns_bind {A B} (m : outcome A) (f : A -> outcome B) :
  returns m -> (forall a, m = Ok a -> returns (f a)) -> returns (m ≫= f).
Proof. destruct m; simpl; auto; done. Qed.
Lemma returns_ok_or {A} (o : option A) e : returns (ok_or o e).
Proof. by destruct o. Qed.
#[export] Hint Resolve returns_Ok returns_Err returns_bind returns_ok_or : rego.

(** Split a hypothesis saying that a monadic computation returned [Ok]. *)
Ltac ok_inv :=
  repeat match goal with
  | H : _ ≫= _ = Ok _ |- _ => apply bind_Ok in H as (? & ? & ?)
  | H : ok_or _ _ = Ok _ |- _ => apply ok_or_Ok in H
  | H : expect _ = Ok _ |- _ => apply expect_Ok in H
  | H : Ok _ = Ok _ |- _ => injection H as H
  | H : (if ?b then Err _ else _) = Ok _ |- _ => destruct b eqn:?; [discriminate H|]
  | H : (if ?b then _ else Err _) = Ok _ |- _ => destruct b eqn:?; [|discriminate H]
  end.

(** Run the code under the goal past the tests arithmetic decides. *)
Ltac ztest :=
  match goal with
  | |- context [?a <? ?b] =>
      first [destruct (Z.ltb_spec a b); [exfalso; llia|] | destruct (Z.ltb_spec a b); [|exfalso; llia]]
  | |- context [?a <=? ?b] =>
      first [destruct (Z.leb_spec a b); [exfalso; llia|] | destruct (Z.leb_spec a b); [|exfalso; llia]]
  | |- context [?a =? ?b] =>
      first [destruct (Z.eqb_spec a b); [exfalso; llia|] | destruct (Z.eqb_spec a b); [|exfalso; llia]]
  end.
Ltac run := cbn [mbind mret outcome_bind outcome_ret ok_or expect andb orb negb].
Ltac zrun := repeat (progress run || ztest).

(** An equation whose sides the virtual machine evaluates to the same value. *)
Ltac computed := lazymatch goal with |- _ = ?v => vm_cast_no_check (eq_refl v) end.

(** Boolean tests to arithmetic. *)
Ltac btests :=
  repeat match goal with
  | H : (_ <? _) = true |- _ => apply Z.ltb_lt in H
  | H : (_ <? _) = false |- _ => apply Z.ltb_ge in H
  | H : (_ <=? _) = true |- _ => apply Z.leb_le in H
  | H : (_ <=? _) = false |- _ => apply Z.leb_gt in H
  | H : (_ =? _) = true |- _ => apply Z.eqb_eq in H
  | H : (_ =? _) = false |- _ => apply Z.eqb_neq in H
  | H : negb _ = true |- _ => apply negb_true_iff in H
  | H : negb _ = false |- _ => apply negb_false_iff in H
  | H : (_ && _) = true |- _ => apply andb_prop in H as [? ?]
  | H : (_ || _) = false |- _ => apply orb_false_elim in H as [? ?]
  end.

(** ** Machine integers *)

Definition U8_MAX : Z := 2 ^ 8 - 1.
Definition U16_MAX : Z := 2 ^ 16 - 1.
Definition U32_MAX : Z := 2 ^ 32 - 1.
Definition U64_MAX : Z := 2 ^ 64 - 1.

Definition is_u16 (z : Z) : Prop := 0 <= z < 2 ^ 16.
Definition is_u32 (z : Z) : Prop := 0 <= z < 2 ^ 32.
Definition is_u64 (z : Z) : Prop := 0 <= z < 2 ^ 64.

(** [as u32], [as u64] on a wider integer. *)
Definition as_u32 (z : Z) : Z := z mod 2 ^ 32.
Definition as_u64 (z : Z) : Z := z mod 2 ^ 64.

(** [!z] on a [u64]. *)
Definition u64_not (z : Z) : Z := Z.lnot z mod 2 ^ 64.

(** Or-ing a shifted number onto bits it does not reach adds it. *)
Lemma lor_shiftl_add a b n :
  0 <= n -> 0 <= a < 2 ^ n -> Z.lor a (Z.shiftl b n) = a + b * 2 ^ n.
Proof.
  intros Hn Ha. rewrite <- Z.shiftl_mul_pow2 by done.
  assert (Hl : Z.land a (b ≪ n) = 0).
  { apply Z.bits_inj'. intros i Hi. rewrite Z.land_spec, Z.bits_0.
    destruct (Z.lt_ge_cases i n).
    - by rewrite Z.shiftl_spec_low, andb_false_r.
    - destruct (Z.eq_dec a 0) as [->|]; [by rewrite Z.bits_0|].
      rewrite (Z.bits_above_log2 a i); [done|lia|].
      apply Z.log2_lt_pow2; [lia|]. apply Z.lt_le_trans with (2 ^ n); [lia|].
      apply Z.pow_le_mono_r; lia. }
  pose proof (Z.add_lor_land a (b ≪ n)). lia.
Qed.

Lemma as_u32_small z : is_u32 z -> as_u32 z = z.
Proof. apply Z.mod_small. Qed.
Lemma as_u64_small z : is_u64 z -> as_u64 z = z.
Proof. apply Z.mod_small. Qed.
Lemma u64_not_eq z : is_u64 z -> u64_not z = 2 ^ 64 - 1 - z.
Proof.
  unfold u64_not, is_u64. intros. unfold Z.lnot.
  rewrite <- (Z.mod_add _ 1) by lia. rewrite Z.mod_small; lia.
Qed.
Lemma u64_not_range z : is_u64 (u64_not z).
Proof. apply Z.mod_pos_bound. lia. Qed.
Lemma u64_not_involutive z : is_u64 z -> u64_not (u64_not z) = z.
Proof.
  intros H. rewrite (u64_not_eq (u64_not z)) by apply u64_not_range.
  rewrite u64_not_eq by done. lia.
Qed.

(** The pointer width of the build: regolith runs on 64-bit hosts and on
    32-bit WebAssembly, so [usize] is one of the two widths. *)
Class Target := {
  usize_bits : Z;
  usize_bits_ok : usize_bits = 32 \/ usize_bits = 64;
}.
Definition usize_max `{Target} : Z := 2 ^ usize_bits - 1.
Definition isize_max `{Target} : Z := 2 ^ (usize_bits - 1) - 1.

Definition target64 : Target := {| usize_bits := 64; usize_bits_ok := or_intror eq_refl |}.
Definition target32 : Target := {| usize_bits := 32; usize_bits_ok := or_introl eq_refl |}.

Lemma usize_max_range `{Target} : 2 ^ 32 - 1 <= usize_max <= 2 ^ 64 - 1.
Proof. unfold usize_max. destruct usize_bits_ok as [-> | ->]; lia. Qed.
Lemma isize_max_eq `{Target} : usize_max = 2 * isize_max + 1.
Proof. unfold usize_max, isize_max. destruct usize_bits_ok as [-> | ->]; lia. Qed.

(** [a.checked_add(b)] and [a.saturating_add(b)] on [usize]. *)
Definition checked_add `{Target} (a b : Z) : option Z :=
  if a + b <=? usize_max then Some (a + b) else None.
Definition saturating_add `{Target} (a b : Z) : Z := Z.min (a + b) usize_max.

(** Plain [usize] arithmetic of a release build wraps around. *)
Definition usize_wrap `{Target} (z : Z) : Z := z mod 2 ^ usize_bits.
Definition uadd `{Target} (a b : Z) : Z := usize_wrap (a + b).

Lemma usize_wrap_small `{Target} z : 0 <= z <= usize_max -> usize_wrap z = z.
Proof. intros Hz. unfold usize_wrap, usize_max in *. apply Z.mod_small. lia. Qed.
Lemma uadd_small `{Target} a b : 0 <= a + b <= usize_max -> uadd a b = a + b.
Proof. apply usize_wrap_small. Qed.
Lemma usize_wrap_range `{Target} z : 0 <= usize_wrap z <= usize_max.
Proof.
  unfold usize_wrap, usize_max. pose proof (Z.mod_pos_bound z (2 ^ usize_bits)).
  assert (0 < 2 ^ usize_bits) by (destruct usize_bits_ok as [-> | ->]; done). lia.
Qed.

Lemma checked_add_Some `{Target} a b c :
  checked_add a b = Some c <-> c = a + b /\ a + b <= usize_max.
Proof. unfold checked_add. destruct (Z.leb_spec (a + b) usize_max); naive_solver lia. Qed.

(** ** Integers in bytes *)

Definition to_le (n : nat) (z : Z) : bytes := le_split n z.
Definition from_le (l : bytes) : Z := le_combine l.
Definition to_be (n : nat) (z : Z) : bytes := rev (le_split n z).
Definition from_be (l : bytes) : Z := le_combine (rev l).

Lemma len_to_le n z : len (to_le n z) = Z.of_nat n.
Proof. unfold len, to_le. by rewrite length_le_split. Qed.
Lemma len_to_be n z : len (to_be n z) = Z.of_nat n.
Proof. unfold to_be. rewrite len_rev. apply len_to_le. Qed.
#[export] Hint Rewrite len_to_le len_to_be : len.

Lemma from_to_le n z : 0 <= z < 2 ^ (Z.of_nat n * 8) -> from_le (to_le n z) = z.
Proof. intros. unfold from_le, to_le. rewrite le_combine_split. by apply Z.mod_small. Qed.
Lemma from_to_be n z : 0 <= z < 2 ^ (Z.of_nat n * 8) -> from_be (to_be n z) = z.
Proof. intros. unfold from_be, to_be. rewrite rev_involutive. by apply from_to_le. Qed.
Lemma from_le_mod n z : from_le (to_le n z) = z mod 2 ^ (Z.of_nat n * 8).
Proof. apply le_combine_split. Qed.
Lemma to_from_le n l : len l = Z.of_nat n -> to_le n (from_le l) = l.
Proof. intros. apply split_le_combine'. unfold len in *. lia. Qed.
Lemma from_le_range l n : len l = Z.of_nat n -> 0 <= from_le l < 2 ^ (Z.of_nat n * 8).
Proof. intros <-. rewrite Z.mul_comm. apply le_combine_bound. Qed.
Lemma from_be_range l n : len l = Z.of_nat n -> 0 <= from_be l < 2 ^ (Z.of_nat n * 8).
Proof. intros. apply from_le_range. by rewrite len_rev. Qed.
Lemma to_le_inj n a b :
  0 <= a < 2 ^ (Z.of_nat n * 8) -> 0 <= b < 2 ^ (Z.of_nat n * 8) ->
  to_le n a = to_le n b -> a = b.
Proof. intros Ha Hb H%(f_equal from_le). by rewrite !from_to_le in H. Qed.

Lemma from_to_u16 z : is_u16 z -> from_le (to_le 2 z) = z.
Proof. apply (from_to_le 2). Qed.
Lemma from_to_u32 z : is_u32 z -> from_le (to_le 4 z) = z.
Proof. apply (from_to_le 4). Qed.
Lemma from_to_u64 z : is_u64 z -> from_le (to_le 8 z) = z.
Proof. apply (from_to_le 8). Qed.
#[export] Hint Rewrite from_to_u16 from_to_u32 from_to_u64 using done : codec.

(** ** Order of byte strings: [<[u8] as Ord>::cmp] *)

Definition byte_cmp (a b : byte) : comparison := Z.compare (byte.unsigned a) (byte.unsigned b).

Fixpoint bytes_cmp (a b : bytes) : comparison :=
  match a, b with
  | [], [] => Eq
  | [], _ :: _ => Lt
  | _ :: _, [] => Gt
  | x :: a', y :: b' =>
      match byte_cmp x y with
      | Eq => bytes_cmp a' b'
      | c => c
      end
  end.

Definition bytes_ltb (a b : bytes) : bool := match bytes_cmp a b with Lt => true | _ => false end.
Definition bytes_leb (a b : bytes) : bool := match bytes_cmp a b with Gt => false | _ => true end.
Definition bytes_eqb (a b : bytes) : bool := bool_decide (a = b).

(** A three-way comparison that is a total order on the values [P] holds of. *)
Class TotalCmpOn {A} (P : A -> Prop) (cmp : A -> A -> comparison) : Prop := {
  cmp_eq : forall a b, P a -> P b -> cmp a b = Eq <-> a = b;
  cmp_opp : forall a b, P a -> P b -> cmp b a = CompOpp (cmp a b);
  cmp_trans : forall a b c, P a -> P b -> P c ->
    cmp a b = Lt -> cmp b c = Lt -> cmp a c = Lt;
}.

Lemma byte_cmp_eq a b : byte_cmp a b = Eq <-> a = b.
Proof.
  unfold byte_cmp. rewrite Z.compare_eq_iff. split; [apply byte.unsigned_inj|congruence].
Qed.
Lemma byte_cmp_opp a b : byte_cmp b a = CompOpp (byte_cmp a b).
Proof. apply Z.compare_antisym. Qed.

Lemma bytes_cmp_eq a b : bytes_cmp a b = Eq <-> a = b.
Proof.
  revert b. induction a as [|x a IH]; intros [|y b]; simpl; try done.
  destruct (byte_cmp x y) eqn:E.
  - apply byte_cmp_eq in E as ->. rewrite IH. naive_solver.
  - split; [done|]. intros [= -> ->]. by rewrite (proj2 (byte_cmp_eq y y) eq_refl) in E.
  - split; [done|]. intros [= -> ->]. by rewrite (proj2 (byte_cmp_eq y y) eq_refl) in E.
Qed.
Lemma bytes_cmp_refl a : bytes_cmp a a = Eq.
Proof. by apply bytes_cmp_eq. Qed.
Lemma bytes_cmp_opp a b : bytes_cmp b a = CompOpp (bytes_cmp a b).
Proof.
  revert b. induction a as [|x a IH]; intros [|y b]; simpl; try done.
  rewrite (byte_cmp_opp x y). destruct (byte_cmp x y); simpl; auto.
Qed.
Lemma bytes_cmp_lt_trans a b c :
  bytes_cmp a b = Lt -> bytes_cmp b c = Lt -> bytes_cmp a c = Lt.
Proof.
  revert b c. induction a as [|x a IH]; intros [|y b] [|z c]; simpl; try done.
  unfold byte_cmp.
  destruct (Z.compare_spec (byte.unsigned x) (byte.unsigned y)) as [E1|E1|E1];
    destruct (Z.compare_spec (byte.unsigned y) (byte.unsigned z)) as [E2|E2|E2];
    destruct (Z.compare_spec (byte.unsigned x) (byte.unsigned z)) as [E3|E3|E3];
    try done; try lia; eauto.
Qed.

#[export] Instance bytes_cmp_total : TotalCmpOn (fun _ => True) bytes_cmp.
Proof.
  split; intros; [apply bytes_cmp_eq|apply bytes_cmp_opp|by eapply bytes_cmp_lt_trans].
Qed.

(** Comparing strings with a common prefix, and strings of equal length
    followed by anything. *)
Lemma bytes_cmp_app p a b : bytes_cmp (p ++ a) (p ++ b) = bytes_cmp a b.
Proof.
  induction p as [|x p IH]; simpl; [done|].
  by rewrite (proj2 (byte_cmp_eq x x) eq_refl).
Qed.
Lemma bytes_cmp_app_same a b x y :
  len a = len b ->
  bytes_cmp (a ++ x) (b ++ y) = match bytes_cmp a b with Eq => bytes_cmp x y | c => c end.
Proof.
  revert b. induction a as [|p a IH]; intros [|q b] Hl; try (exfalso; llia); [done|].
  simpl. destruct (byte_cmp p q); try done. apply IH. llia.
Qed.

(** Big-endian bytes of equal width compare as the numbers do. *)
Lemma le_split_S n z : le_split (S n) z = byte.of_Z z :: le_split n (z ≫ 8).
Proof. reflexivity. Qed.

Lemma bytes_cmp_snoc a b x y :
  len a = len b ->
  bytes_cmp (a ++ [x]) (b ++ [y]) = match bytes_cmp a b with Eq => byte_cmp x y | c => c end.
Proof.
  intros. rewrite bytes_cmp_app_same by done. destruct (bytes_cmp a b); try done.
  simpl. by destruct (byte_cmp x y).
Qed.

Lemma Z_compare_divmod a b k : 0 < k ->
  Z.compare a b =
  match Z.compare (a / k) (b / k) with Eq => Z.compare (a mod k) (b mod k) | c => c end.
Proof.
  intros Hk.
  pose proof (Z.div_mod a k ltac:(lia)). pose proof (Z.div_mod b k ltac:(lia)).
  pose proof (Z.mod_pos_bound a k Hk). pose proof (Z.mod_pos_bound b k Hk).
  destruct (Z.compare_spec (a / k) (b / k)).
  - destruct (Z.compare_spec (a mod k) (b mod k));
      [apply Z.compare_eq_iff|apply Z.compare_lt_iff|apply Z.compare_gt_iff]; nia.
  - apply Z.compare_lt_iff. nia.
  - apply Z.compare_gt_iff. nia.
Qed.

Lemma to_be_cmp n a b :
  0 <= a < 2 ^ (Z.of_nat n * 8) -> 0 <= b < 2 ^ (Z.of_nat n * 8) ->
  bytes_cmp (to_be n a) (to_be n b) = Z.compare a b.
Proof.
  revert a b. induction n as [|n IH]; intros a b Ha Hb.
  - replace a with 0 by lia. replace b with 0 by lia. done.
  - unfold to_be. rewrite !le_split_S. simpl rev.
    rewrite Nat2Z.inj_succ, Z.mul_succ_l, Z.pow_add_r in * by lia.
    rewrite bytes_cmp_snoc by (by rewrite !len_rev, !(len_to_le n)).
    fold (to_be n (a ≫ 8)) (to_be n (b ≫ 8)).
    rewrite (Z_compare_divmod a b (2 ^ 8)) by lia.
    rewrite !Z.shiftr_div_pow2 by lia.
    rewrite IH by (split; [apply Z.div_pos|apply Z.div_lt_upper_bound]; lia).
    destruct (_ ?= _) eqn:E; [|done..].
    unfold byte_cmp. by rewrite !byte.unsigned_of_Z.
Qed.

(** ** Binary search

    The loop every sorted table of the engine is searched with: narrow
    [[left, right)] to the first index that is not [below] the target. *)
Fixpoint bsearch (fuel : nat) (below : Z -> bool) (left right : Z) : Z :=
  match fuel with
  | O => left
  | S fuel =>
      if left <? right then
        let mid := left + (right - left) / 2 in
        if below mid then bsearch fuel below (mid + 1) right
        else bsearch fuel below left mid
      else left
  end.

(** [bsearch] with fuel for every halving of the range. *)
Definition partition_index (n : Z) (below : Z -> bool) : Z :=
  bsearch (Z.to_nat n) below 0 n.

(** [slice::partition_point]. *)
Definition partition_point {A} (p : A -> bool) (l : list A) : Z :=
  partition_index (len l) (fun i => match getz l i with Some x => p x | None => false end).

Lemma bsearch_spec fuel below lo hi left right :
  lo <= left <= right -> right <= hi -> (Z.to_nat (right - left) <= fuel)%nat ->
  (forall i j, lo <= i <= j -> j < hi -> below j = true -> below i = true) ->
  (forall i, lo <= i < left -> below i = true) ->
  (forall i, right <= i < hi -> below i = false) ->
  let r := bsearch fuel below left right in
  left <= r <= right /\ (forall i, lo <= i < r -> below i = true) /\
  (forall i, r <= i < hi -> below i = false).
Proof.
  revert left right. induction fuel as [|fuel IH]; intros left right Hlr Hrh Hf Hmono Hlo Hhi;
    cbn [bsearch].
  - assert (left = right) as -> by lia. split_and!; auto; lia.
  - destruct (Z.ltb_spec left right) as [Hlt|Hge]; [|assert (left = right) as -> by lia;
      split_and!; auto; lia].
    pose proof (Z.div_mod (right - left) 2 ltac:(lia)).
    pose proof (Z.mod_pos_bound (right - left) 2 ltac:(lia)).
    set (mid := left + (right - left) / 2) in *.
    assert (left <= mid < right) by lia.
    destruct (below mid) eqn:Em.
    + destruct (IH (mid + 1) right) as (Hr1 & Hr2 & Hr3); try lia; auto.
      { intros i Hi. apply (Hmono i mid); [lia..|done]. }
      split_and!; auto; lia.
    + destruct (IH left mid) as (Hr1 & Hr2 & Hr3); try lia; auto.
      { intros i Hi. destruct (below i) eqn:Ei; [|done].
        rewrite (Hmono mid i) in Em; [done|lia..|done]. }
      split_and!; auto; lia.
Qed.

Lemma bsearch_range fuel below left right :
  left <= right -> left <= bsearch fuel below left right <= right.
Proof.
  revert left right. induction fuel as [|fuel IH]; intros left right Hlr; cbn [bsearch]; [lia|].
  destruct (Z.ltb_spec left right) as [Hlt|]; [|lia].
  pose proof (Z.div_mod (right - left) 2 ltac:(lia)).
  pose proof (Z.mod_pos_bound (right - left) 2 ltac:(lia)).
  set (mid := left + (right - left) / 2) in *.
  destruct (below mid); [specialize (IH (mid + 1) right)|specialize (IH left mid)]; lia.
Qed.

Lemma partition_index_spec n below :
  0 <= n ->
  (forall i j, 0 <= i <= j -> j < n -> below j = true -> below i = true) ->
  let r := partition_index n below in
  0 <= r <= n /\ (forall i, 0 <= i < r -> below i = true) /\
  (forall i, r <= i < n -> below i = false).
Proof. intros Hn Hm. apply bsearch_spec; auto; lia. Qed.

(** ** Sorted lists *)

Lemma sorted_getz {A} (R : A -> A -> Prop) l i j x y :
  StronglySorted R l -> getz l i = Some x -> getz l j = Some y -> i < j -> R x y.
Proof.
  unfold getz. intros Hs. destruct (Z.leb_spec 0 i), (Z.leb_spec 0 j); try done.
  intros Hi Hj Hij. assert (Hn : (Z.to_nat i < Z.to_nat j)%nat) by lia.
  revert Hi Hj Hn. generalize (Z.to_nat i) (Z.to_nat j).
  induction Hs as [|a l Hs IH Hall]; intros [|n] [|m]; simpl; try done; try lia.
  - intros [= ->] Hm _. rewrite List.Forall_forall in Hall.
    apply Hall, list_elem_of_In, list_elem_of_lookup. eauto.
  - intros Hn Hm Hnm. apply (IH n m); [done..|lia].
Qed.

Lemma sorted_app {A} (R : A -> A -> Prop) l k :
  StronglySorted R (l ++ k) <->
  StronglySorted R l /\ StronglySorted R k /\ (forall x y, In x l -> In y k -> R x y).
Proof.
  induction l as [|a l IH]; simpl; [repeat split; intuition constructor|]. split.
  - intros [(H1 & H2 & H3)%IH Hall]%StronglySorted_inv. apply Forall_app in Hall as [Ha Hk].
    rewrite List.Forall_forall in Hk. split_and!; [by constructor|done|].
    intros x y [->|Hx]; auto.
  - intros (H1 & H2 & H3). apply StronglySorted_inv in H1 as [H1 Ha].
    constructor; [apply IH; auto|]. apply Forall_app. split; [done|].
    apply List.Forall_forall. auto.
Qed.

Lemma getz_In {A} (l : list A) i x : getz l i = Some x -> In x l.
Proof.
  unfold getz. destruct (_ <=? _); [|done]. intros Hl.
  apply list_elem_of_In, list_elem_of_lookup. eauto.
Qed.

Lemma partition_point_spec {A} (p : A -> bool) l :
  (forall i j x y, i < j -> getz l i = Some x -> getz l j = Some y -> p y = true -> p x = true) ->
  let r := partition_point p l in
  0 <= r <= len l /\
  (forall i x, getz l i = Some x -> i < r -> p x = true) /\
  (forall i x, getz l i = Some x -> r <= i -> p x = false).
Proof.
  intros Hm. unfold partition_point.
  destruct (partition_index_spec (len l)
    (fun i => match getz l i with Some x => p x | None => false end)) as (Hr & Hlo & Hhi).
  - apply len_nonneg.
  - intros i j Hij Hj Hp. destruct (Z.eq_dec i j) as [->|]; [done|].
    destruct (getz_is_Some l i) as [x Hx]; [lia|]. destruct (getz_is_Some l j) as [y Hy]; [lia|].
    rewrite Hx, Hy in *. apply (Hm i j x y); auto; lia.
  - split_and!; [lia..| |]; intros i x Hx Hi; pose proof (getz_Some_lt _ _ _ Hx).
    + specialize (Hlo i ltac:(lia)). by rewrite Hx in Hlo.
    + specialize (Hhi i ltac:(lia)). by rewrite Hx in Hhi.
Qed.

Lemma bsearch_ext fuel f g left right :
  (forall i, f i = g i) -> bsearch fuel f left right = bsearch fuel g left right.
Proof.
  intros E. revert left right. induction fuel as [|fuel IH]; intros left right; [done|].
  cbn [bsearch]. rewrite E. destruct (_ <? _); [|done]. by destruct (g _).
Qed.

Lemma partition_point_ext {A} (p q : A -> bool) l :
  (forall x, p x = q x) -> partition_point p l = partition_point q l.
Proof. intros E. apply bsearch_ext. intros i. by destruct (getz l i). Qed.

Lemma In_getz {A} (l : list A) x : In x l -> exists i, getz l i = Some x.
Proof.
  intros Hx. apply list_elem_of_In, list_elem_of_lookup in Hx as [n Hn].
  exists (Z.of_nat n). unfold getz. destruct (Z.leb_spec 0 (Z.of_nat n)); [|lia].
  by rewrite Nat2Z.id.
Qed.

Lemma Forall_map_iff {A B} (P : B -> Prop) (f : A -> B) l :
  Forall P (map f l) <-> Forall (fun x => P (f x)) l.
Proof.
  induction l as [|a l IH]; simpl; [split; constructor|].
  split; intros H; constructor;
    try (by inversion H); apply IH; by inversion H.
Qed.

Lemma sorted_map {A B} (f : A -> B) (R : B -> B -> Prop) l :
  StronglySorted R (map f l) <-> StronglySorted (fun x y => R (f x) (f y)) l.
Proof.
  induction l as [|a l IH]; simpl; [split; constructor|].
  split; intros [Hs Hall]%StronglySorted_inv; constructor; try (by apply IH).
  - rewrite List.Forall_forall in *. intros x Hx. by apply Hall, in_map.
  - rewrite List.Forall_forall in *. intros y (x & <- & Hx)%in_map_iff. auto.
Qed.
