(* ===== verification/InternalKey.v ===== *)
(** * Internal keys, the lookup key of a read, and the stamp of an ingested block

    Models [src/src/engine/internal_key.rs], [src/src/engine/lookup_key.rs] and
    [src/src/engine/block/stamp.rs].

    An internal key is [user_key || !seq (8 bytes, big endian) || value_type].
    The module shows that the encoding round-trips, that the comparator is the
    order (user key ascending, sequence descending, value type ascending) and a
    total order on internal keys, that the comparator on a split key is the one
    on the joined key, and that a forward seek to the lookup key of a snapshot
    finds the newest version the snapshot sees. *)

From S2P Require Import Prelude.

(** ** Constants and the encoding *)

Definition VALUE_TYPE_VALUE : byte := Byte.x01.
Definition VALUE_TYPE_DELETION : byte := Byte.x00.
Definition VALUE_TYPE_MERGE : byte := Byte.x02.

(** Size of the trailing [(seq, value_type)] suffix of an internal key. *)
Definition INTERNAL_KEY_SUFFIX_LEN : Z := 9.

Inductive WriteKind := WkPut | WkDelete | WkRangeDelete | WkMerge.

Definition write_kind (value_type : byte) : WriteKind :=
  if bool_decide (value_type = VALUE_TYPE_DELETION) then WkDelete
  else if bool_decide (value_type = VALUE_TYPE_MERGE) then WkMerge
  else WkPut.

Definition encode_internal_key (user_key : bytes) (seq : Z) (value_type : byte) : bytes :=
  user_key ++ to_be 8 (u64_not seq) ++ [value_type].

(** [decode_internal_key] indexes the trailer directly: on a key shorter than
    the trailer the index underflows and the call panics. *)
Definition decode_internal_key (internal_key : bytes) : outcome (bytes * Z * byte) :=
  let n := len internal_key in
  value_type ← expect (getz internal_key (n - 1));
  seq_bytes ← expect (slice internal_key (n - 9) (n - 1));
  user_key ← expect (slice internal_key 0 (n - 9));
  mret (user_key, u64_not (from_be seq_bytes), value_type).

Definition user_key_of (internal_key : bytes) : outcome bytes :=
  expect (slice internal_key 0 (len internal_key - INTERNAL_KEY_SUFFIX_LEN)).

(** ** Comparison *)

(** Lexicographic comparison of [a] against [b1 ++ b2], which is not built. *)
Definition raw_cmp_split (a b1 b2 : bytes) : comparison :=
  let head := Z.min (len a) (len b1) in
  match bytes_cmp (takez head a) (takez head b1) with
  | Eq =>
      if head <? len b1 then Lt
      else
        let rest := dropz head a in
        let tail := Z.min (len rest) (len b2) in
        match bytes_cmp (takez tail rest) (takez tail b2) with
        | Eq => Z.compare (len a) (len b1 + len b2)
        | ord => ord
        end
  | ord => ord
  end.

Definition compare_internal_split (a b_user_key b_trailer : bytes) : comparison :=
  if len a <? INTERNAL_KEY_SUFFIX_LEN then raw_cmp_split a b_user_key b_trailer
  else
    let a_uk := takez (len a - INTERNAL_KEY_SUFFIX_LEN) a in
    match bytes_cmp a_uk b_user_key with
    | Eq => bytes_cmp (dropz (len a_uk) a) b_trailer
    | ord => ord
    end.

Definition compare_internal_keys (a b : bytes) : comparison :=
  if len b <? INTERNAL_KEY_SUFFIX_LEN then bytes_cmp a b
  else
    let split := len b - INTERNAL_KEY_SUFFIX_LEN in
    compare_internal_split a (takez split b) (dropz split b).

(** A key every decoder of the engine accepts. *)
Definition valid_internal_key (k : bytes) : Prop := INTERNAL_KEY_SUFFIX_LEN <= len k.

(** ** Stamps ([block/stamp.rs])

    A block of an ingested table is read at one sequence: the eight [!seq]
    bytes of every key are replaced by the stamp. *)
Module Stamp.

(** Put [stamp] in place of the sequence of [key]; the new key and the bytes
    it replaced. A key shorter than the trailer panics. *)
Definition swap (key stamp : bytes) : outcome (bytes * bytes) :=
  let n := len key in
  replaced ← expect (slice key (n - INTERNAL_KEY_SUFFIX_LEN) (n - 1));
  mret (takez (n - INTERNAL_KEY_SUFFIX_LEN) key ++ stamp ++ dropz (n - 1) key, replaced).

(** How the stored key, read with [stamp], orders against [target]. *)
Definition compare (key : bytes) (stamp : option bytes) (target : bytes) : outcome comparison :=
  match stamp with
  | None => mret (compare_internal_keys key target)
  | Some stamp =>
      let n := len key in
      user ← expect (slice key 0 (n - INTERNAL_KEY_SUFFIX_LEN));
      value_type ← expect (getz key (n - 1));
      mret (CompOpp (compare_internal_split target user (stamp ++ [value_type])))
  end.

Definition read_into (key stamp : bytes) : outcome bytes :=
  r ← swap key stamp; mret r.1.

End Stamp.

(** The key a reader sees for the stored key [k] under a stamp. *)
Definition read_key (stamp : option bytes) (k : bytes) : bytes :=
  match stamp with
  | None => k
  | Some s => takez (len k - INTERNAL_KEY_SUFFIX_LEN) k ++ s ++ dropz (len k - 1) k
  end.

(** A stamp is absent, or the [!seq] bytes of some sequence. *)
Definition stamp_wf (stamp : option bytes) : Prop :=
  stamp = None \/ exists seq, stamp = Some (to_be 8 (u64_not seq)).

(** ** The lookup key ([lookup_key.rs]) *)

Definition INLINE_KEY_CAP : Z := 128.

(** A buffer that lives on the stack until it does not fit. [inline] holds all
    128 bytes of the array; only the first [ib_len] of them count. *)
Record InlineBuf := mkInlineBuf {
  inline : bytes;
  spill : bytes;
  ib_len : Z;
  spilled : bool;
}.

Module InlineBuf.

Definition new : InlineBuf := mkInlineBuf (replicate 128 Byte.x00) [] 0 false.

Definition clear (b : InlineBuf) : InlineBuf :=
  mkInlineBuf (inline b) (if spilled b then [] else spill b) 0 (spilled b).

(** The length of a [Vec] is at most [isize::MAX], so the sum the code checks
    for overflow cannot overflow; the check is kept as the code has it. *)
Definition extend_from_slice `{Target} (b : InlineBuf) (more : bytes) : InlineBuf :=
  if spilled b then
    let spill' := spill b ++ more in
    mkInlineBuf (inline b) spill' (len spill') true
  else
    let fits :=
      match checked_add (ib_len b) (len more) with
      | Some e => e <=? INLINE_KEY_CAP
      | None => false
      end in
    if fits then
      let e := ib_len b + len more in
      mkInlineBuf (takez (ib_len b) (inline b) ++ more ++ dropz e (inline b)) (spill b) e false
    else
      let spill' := takez (ib_len b) (inline b) ++ more in
      mkInlineBuf (inline b) spill' (len spill') true.

Definition as_slice (b : InlineBuf) : bytes :=
  if spilled b then spill b else takez (ib_len b) (inline b).

(** Exactly one of the two storages is live, and [ib_len] is its length. *)
Definition invariant (b : InlineBuf) : Prop :=
  len (inline b) = INLINE_KEY_CAP /\ 0 <= ib_len b /\
  if spilled b then ib_len b = len (spill b) else ib_len b <= INLINE_KEY_CAP.

End InlineBuf.

Record LookupKey := mkLookupKey {
  lk_buf : InlineBuf;
  user_end : Z;
  snapshot_seq : Z;
}.

Module LookupKey.

Definition finish_trailer `{Target} (lk : LookupKey) (seq : Z) : LookupKey :=
  let e := ib_len (lk_buf lk) in
  let b := InlineBuf.extend_from_slice (lk_buf lk) (to_be 8 (u64_not seq)) in
  mkLookupKey (InlineBuf.extend_from_slice b [VALUE_TYPE_DELETION]) e seq.

Definition reset `{Target} (lk : LookupKey) (cf_id : Z) (user_key : bytes) (seq : Z) : LookupKey :=
  let b := InlineBuf.clear (lk_buf lk) in
  let b := InlineBuf.extend_from_slice b (to_be 4 cf_id) in
  let b := InlineBuf.extend_from_slice b user_key in
  finish_trailer (mkLookupKey b (user_end lk) (snapshot_seq lk)) seq.

Definition reset_prefixed `{Target} (lk : LookupKey) (prefixed : bytes) (seq : Z) : LookupKey :=
  let b := InlineBuf.clear (lk_buf lk) in
  let b := InlineBuf.extend_from_slice b prefixed in
  finish_trailer (mkLookupKey b (user_end lk) (snapshot_seq lk)) seq.

Definition new `{Target} (cf_id : Z) (user_key : bytes) (seq : Z) : LookupKey :=
  reset (mkLookupKey InlineBuf.new 0 seq) cf_id user_key seq.

Definition from_prefixed `{Target} (prefixed : bytes) (seq : Z) : LookupKey :=
  reset_prefixed (mkLookupKey InlineBuf.new 0 seq) prefixed seq.

Definition prefixed_user_key (lk : LookupKey) : bytes :=
  takez (user_end lk) (InlineBuf.as_slice (lk_buf lk)).

Definition internal (lk : LookupKey) : bytes := InlineBuf.as_slice (lk_buf lk).

End LookupKey.

(** ** The order, and a forward seek *)

(** The order internal keys are meant to have: user keys ascending, then the
    newest sequence first, then the value type. *)
Definition internal_order (k1 : bytes) (s1 : Z) (t1 : byte) (k2 : bytes) (s2 : Z) (t2 : byte)
  : comparison :=
  match bytes_cmp k1 k2 with
  | Eq => match Z.compare s2 s1 with Eq => byte_cmp t1 t2 | c => c end
  | c => c
  end.

(** A stored version: user key, sequence, value type. *)
Definition version : Type := bytes * Z * byte.
Definition version_key (v : version) : bytes := encode_internal_key v.1.1 v.1.2 v.2.

(** The first stored key at or after [target], the positioning step every
    sorted source answers a point read with. *)
Definition seek (target : bytes) (versions : list version) : option version :=
  List.find (fun v => match compare_internal_keys (version_key v) target with
                      | Lt => false
                      | _ => true
                      end) versions.

Definition versions_sorted (versions : list version) : Prop :=
  StronglySorted (fun a b => compare_internal_keys (version_key a) (version_key b) = Lt) versions.

(** A version of [uk] a snapshot at [snap] may read. *)
Definition visible (uk : bytes) (snap : Z) (v : version) : Prop := v.1.1 = uk /\ v.1.2 <= snap.

(** ** Lemmas on the encoding *)

Ltac ik_lia := unfold valid_internal_key in *; len_norm; unfold INTERNAL_KEY_SUFFIX_LEN in *; llia.

Lemma len_encode_internal_key k s t :
  len (encode_internal_key k s t) = len k + INTERNAL_KEY_SUFFIX_LEN.
Proof. unfold encode_internal_key, INTERNAL_KEY_SUFFIX_LEN. llia. Qed.
#[export] Hint Rewrite len_encode_internal_key : len.

Lemma encode_valid k s t : valid_internal_key (encode_internal_key k s t).
Proof. unfold valid_internal_key. llia. Qed.
#[export] Hint Resolve encode_valid : rego.

(** The user key and the trailer of an encoding. *)
Lemma encode_takez k s t n :
  n = len (encode_internal_key k s t) - INTERNAL_KEY_SUFFIX_LEN ->
  takez n (encode_internal_key k s t) = k.
Proof. intros ->. apply takez_app. llia. Qed.

Lemma encode_dropz k s t n :
  n = len k -> dropz n (encode_internal_key k s t) = to_be 8 (u64_not s) ++ [t].
Proof. intros ->. by apply dropz_app. Qed.

(** Every key as long as the trailer is the encoding of something. *)
Lemma valid_is_encoded k :
  valid_internal_key k ->
  exists uk s t, is_u64 s /\ k = encode_internal_key uk s t.
Proof.
  unfold valid_internal_key, INTERNAL_KEY_SUFFIX_LEN. intros Hk.
  set (n := len k - 9).
  destruct (dropz n k) as [|x tl] eqn:E using rev_ind.
  { apply (f_equal len) in E. rewrite len_dropz in E; unfold n in *; llia. }
  clear IHtl. assert (Hl : len tl = 8).
  { apply (f_equal len) in E. rewrite len_dropz in E; unfold n in *; llia. }
  exists (takez n k), (u64_not (from_be tl)), x.
  split; [apply u64_not_range|]. unfold encode_internal_key.
  pose proof (from_be_range tl 8 Hl).
  rewrite u64_not_involutive by done. unfold from_be, to_be.
  fold (from_le (rev tl)) (to_le 8 (from_le (rev tl))).
  rewrite to_from_le by (by rewrite len_rev). rewrite rev_involutive, <- E.
  by rewrite takez_dropz.
Qed.

Lemma u64_not_cmp a b :
  is_u64 a -> is_u64 b -> Z.compare (u64_not a) (u64_not b) = Z.compare b a.
Proof.
  intros Ha Hb. rewrite !u64_not_eq by done.
  destruct (Z.compare_spec b a); [apply Z.compare_eq_iff|apply Z.compare_lt_iff|
    apply Z.compare_gt_iff]; lia.
Qed.

(** ** Lemmas on the comparators *)

Lemma trailer_cmp s1 t1 s2 t2 :
  is_u64 s1 -> is_u64 s2 ->
  bytes_cmp (to_be 8 (u64_not s1) ++ [t1]) (to_be 8 (u64_not s2) ++ [t2]) =
  match Z.compare s2 s1 with Eq => byte_cmp t1 t2 | c => c end.
Proof.
  intros H1 H2. rewrite bytes_cmp_snoc by llia.
  rewrite to_be_cmp by apply u64_not_range. by rewrite u64_not_cmp.
Qed.

Lemma compare_split_encoded k1 s1 t1 uk tr :
  compare_internal_split (encode_internal_key k1 s1 t1) uk tr =
  match bytes_cmp k1 uk with
  | Eq => bytes_cmp (to_be 8 (u64_not s1) ++ [t1]) tr
  | c => c
  end.
Proof.
  unfold compare_internal_split.
  destruct (Z.ltb_spec (len (encode_internal_key k1 s1 t1)) INTERNAL_KEY_SUFFIX_LEN); [llia|].
  rewrite encode_takez by done. by rewrite encode_dropz.
Qed.

Lemma compare_keys_split a uk tr :
  len tr = INTERNAL_KEY_SUFFIX_LEN ->
  compare_internal_keys a (uk ++ tr) = compare_internal_split a uk tr.
Proof.
  intros Ht. unfold compare_internal_keys.
  destruct (Z.ltb_spec (len (uk ++ tr)) INTERNAL_KEY_SUFFIX_LEN); [llia|].
  rewrite takez_app, dropz_app by llia. done.
Qed.

Lemma compare_encoded k1 s1 t1 k2 s2 t2 :
  is_u64 s1 -> is_u64 s2 ->
  compare_internal_keys (encode_internal_key k1 s1 t1) (encode_internal_key k2 s2 t2) =
  internal_order k1 s1 t1 k2 s2 t2.
Proof.
  intros H1 H2. unfold encode_internal_key at 2.
  rewrite compare_keys_split by (unfold INTERNAL_KEY_SUFFIX_LEN; llia).
  rewrite compare_split_encoded. unfold internal_order. by rewrite trailer_cmp.
Qed.

Lemma internal_order_opp k1 s1 t1 k2 s2 t2 :
  internal_order k2 s2 t2 k1 s1 t1 = CompOpp (internal_order k1 s1 t1 k2 s2 t2).
Proof.
  unfold internal_order. rewrite (bytes_cmp_opp k1 k2).
  destruct (bytes_cmp k1 k2); simpl; try done.
  rewrite (Z.compare_antisym s2 s1). destruct (s2 ?= s1); simpl; try done.
  apply byte_cmp_opp.
Qed.

Lemma internal_order_eq k1 s1 t1 k2 s2 t2 :
  internal_order k1 s1 t1 k2 s2 t2 = Eq <-> k1 = k2 /\ s1 = s2 /\ t1 = t2.
Proof.
  unfold internal_order. destruct (bytes_cmp k1 k2) eqn:E1.
  - apply bytes_cmp_eq in E1 as ->. destruct (Z.compare_spec s2 s1) as [->|?|?].
    + rewrite byte_cmp_eq. naive_solver.
    + split; [done|]. lia.
    + split; [done|]. lia.
  - split; [done|]. intros (-> & _). by rewrite bytes_cmp_refl in E1.
  - split; [done|]. intros (-> & _). by rewrite bytes_cmp_refl in E1.
Qed.

Lemma internal_order_trans k1 s1 t1 k2 s2 t2 k3 s3 t3 :
  internal_order k1 s1 t1 k2 s2 t2 = Lt -> internal_order k2 s2 t2 k3 s3 t3 = Lt ->
  internal_order k1 s1 t1 k3 s3 t3 = Lt.
Proof.
  unfold internal_order. intros H1 H2.
  destruct (bytes_cmp k1 k2) eqn:E1; [|clear H1|done].
  - apply bytes_cmp_eq in E1 as ->. destruct (bytes_cmp k2 k3); try done.
    unfold byte_cmp in *.
    destruct (Z.compare_spec s2 s1), (Z.compare_spec s3 s2), (Z.compare_spec s3 s1);
      try done; try lia. rewrite Z.compare_lt_iff in *. lia.
  - destruct (bytes_cmp k2 k3) eqn:E2; [|clear H2|done].
    + apply bytes_cmp_eq in E2 as ->. by rewrite E1.
    + by rewrite (bytes_cmp_lt_trans _ _ _ E1 E2).
Qed.

#[export] Instance compare_internal_keys_total :
  TotalCmpOn valid_internal_key compare_internal_keys.
Proof.
  split.
  - intros a b (k1 & s1 & t1 & H1 & ->)%valid_is_encoded (k2 & s2 & t2 & H2 & ->)%valid_is_encoded.
    rewrite compare_encoded by done. rewrite internal_order_eq. split; [naive_solver|].
    intros E. assert (Hc : compare_internal_keys (encode_internal_key k1 s1 t1)
      (encode_internal_key k2 s2 t2) = Eq); [|by rewrite compare_encoded, internal_order_eq in Hc].
    rewrite <- E, compare_encoded by done. by apply internal_order_eq.
  - intros a b (k1 & s1 & t1 & H1 & ->)%valid_is_encoded (k2 & s2 & t2 & H2 & ->)%valid_is_encoded.
    rewrite !compare_encoded by done. apply internal_order_opp.
  - intros a b c (k1 & s1 & t1 & H1 & ->)%valid_is_encoded
      (k2 & s2 & t2 & H2 & ->)%valid_is_encoded (k3 & s3 & t3 & H3 & ->)%valid_is_encoded.
    rewrite !compare_encoded by done. apply internal_order_trans.
Qed.

Lemma decode_encoded user_key seq value_type :
  is_u64 seq ->
  decode_internal_key (encode_internal_key user_key seq value_type) =
  Ok (user_key, seq, value_type).
Proof.
  intros Hseq. unfold decode_internal_key. set (k := encode_internal_key user_key seq value_type).
  assert (Hk : len k = len user_key + 9) by (unfold k; ik_lia).
  assert (Hv : getz k (len k - 1) = Some value_type).
  { unfold k, encode_internal_key. rewrite app_assoc. apply getz_app_mid. llia. }
  assert (Hs : slice k (len k - 9) (len k - 1) = Some (to_be 8 (u64_not seq))).
  { apply slice_app; llia. }
  assert (Hu : slice k 0 (len k - 9) = Some user_key) by (apply slice_app_head; lia).
  rewrite Hv, Hs, Hu. simpl. rewrite from_to_be by apply u64_not_range.
  by rewrite u64_not_involutive.
Qed.

(** ** Raw comparison of a split key *)

Lemma bytes_cmp_split_at n a b :
  0 <= n <= len a -> n <= len b ->
  bytes_cmp a b =
  match bytes_cmp (takez n a) (takez n b) with
  | Eq => bytes_cmp (dropz n a) (dropz n b)
  | c => c
  end.
Proof.
  intros Ha Hb. rewrite <- (takez_dropz n a) at 1. rewrite <- (takez_dropz n b) at 1.
  apply bytes_cmp_app_same. by rewrite !len_takez by lia.
Qed.

Lemma bytes_cmp_nil a b :
  a = [] \/ b = [] -> bytes_cmp a b = Z.compare (len a) (len b).
Proof.
  intros H. destruct a as [|x a], b as [|y b]; [done..|naive_solver].
Qed.

Lemma raw_cmp_split_spec a b1 b2 : raw_cmp_split a b1 b2 = bytes_cmp a (b1 ++ b2).
Proof.
  unfold raw_cmp_split. set (h := Z.min (len a) (len b1)).
  assert (Hh : 0 <= h <= len a /\ h <= len b1) by (unfold h; llia).
  rewrite (bytes_cmp_split_at h a (b1 ++ b2)) by llia.
  rewrite takez_app_le by lia.
  destruct (bytes_cmp (takez h a) (takez h b1)); try done.
  rewrite dropz_app_le by lia.
  destruct (Z.ltb_spec h (len b1)) as [Hlt|Hge].
  - rewrite bytes_cmp_nil; [symmetry; apply Z.compare_lt_iff|left].
    + rewrite len_app, !len_dropz by lia. unfold h in *. llia.
    + apply len_zero. rewrite len_dropz by lia. unfold h in *. lia.
  - assert (Hb : dropz h b1 = []) by (apply len_zero; rewrite len_dropz; lia).
    rewrite Hb. simpl app. set (rest := dropz h a).
    assert (Hrest : len rest = len a - len b1) by (unfold rest; rewrite len_dropz; unfold h in *; lia).
    set (tl := Z.min (len rest) (len b2)).
    assert (Htl : 0 <= tl <= len rest /\ tl <= len b2) by (unfold tl; llia).
    rewrite (bytes_cmp_split_at tl rest b2) by lia.
    destruct (bytes_cmp (takez tl rest) (takez tl b2)); try done.
    rewrite bytes_cmp_nil.
    + rewrite !len_dropz by lia.
      destruct (Z.compare_spec (len a) (len b1 + len b2)); symmetry;
        [apply Z.compare_eq_iff|apply Z.compare_lt_iff|apply Z.compare_gt_iff]; lia.
    + destruct (Z.le_ge_cases (len rest) (len b2)); [left|right];
        apply len_zero; rewrite len_dropz; unfold tl in *; lia.
Qed.

(** ** The inline buffer refines an append-only byte string *)

Module InlineBufFacts.
Import InlineBuf.

Lemma new_invariant : invariant new.
Proof. unfold invariant, new, INLINE_KEY_CAP. simpl. split; [done|lia]. Qed.

Lemma clear_spec b : invariant b -> invariant (clear b) /\ as_slice (clear b) = [].
Proof.
  intros (Hi & Hl & Hs). unfold invariant, clear, as_slice, INLINE_KEY_CAP in *. simpl.
  destruct (spilled b); simpl; split; try done; split_and!; auto; try done; lia.
Qed.

Lemma as_slice_len b : invariant b -> len (as_slice b) = ib_len b.
Proof.
  intros (Hi & Hl & Hs). unfold as_slice. destruct (spilled b); [done|].
  rewrite len_takez; lia.
Qed.

Lemma extend_spec `{Target} b more :
  invariant b ->
  invariant (extend_from_slice b more) /\
  as_slice (extend_from_slice b more) = as_slice b ++ more.
Proof.
  intros Hinv. pose proof (as_slice_len b Hinv) as Hlen. destruct Hinv as (Hi & Hl & Hs).
  unfold extend_from_slice, invariant, as_slice in *. destruct (spilled b) eqn:Esp; simpl.
  { split; [split_and!|]; try done. llia. }
  set (fits := match checked_add _ _ with Some e => _ | None => _ end).
  destruct fits eqn:Ef; simpl.
  - assert (ib_len b + len more <= INLINE_KEY_CAP).
    { unfold fits, checked_add in Ef. destruct (_ <=? usize_max); [|done]. by apply Z.leb_le. }
    assert (Ht : len (takez (ib_len b) (inline b)) = ib_len b) by (rewrite len_takez; lia).
    split; [split_and!|].
    + rewrite !len_app, Ht, len_dropz by llia. lia.
    + llia.
    + lia.
    + rewrite app_assoc, takez_app by llia. done.
  - split; [split_and!|]; try done. llia.
Qed.

End InlineBufFacts.

Module LookupKeyFacts.
Import InlineBuf InlineBufFacts LookupKey.

Lemma finish_trailer_spec `{Target} lk p seq :
  invariant (lk_buf lk) -> as_slice (lk_buf lk) = p ->
  let lk' := finish_trailer lk seq in
  invariant (lk_buf lk') /\ internal lk' = encode_internal_key p seq VALUE_TYPE_DELETION /\
  prefixed_user_key lk' = p /\ snapshot_seq lk' = seq.
Proof.
  intros Hinv Hp. simpl.
  destruct (extend_spec _ (to_be 8 (u64_not seq)) Hinv) as [Hi1 Hs1].
  destruct (extend_spec _ [VALUE_TYPE_DELETION] Hi1) as [Hi2 Hs2].
  assert (Hint : internal (finish_trailer lk seq) = encode_internal_key p seq VALUE_TYPE_DELETION).
  { unfold internal, finish_trailer, encode_internal_key. simpl.
    by rewrite Hs2, Hs1, Hp, <- app_assoc. }
  split_and!; try done.
  unfold prefixed_user_key. fold (internal (finish_trailer lk seq)). rewrite Hint.
  apply takez_app. simpl. by rewrite <- (as_slice_len _ Hinv), Hp.
Qed.

Lemma reset_prefixed_spec `{Target} lk p seq :
  invariant (lk_buf lk) ->
  let lk' := reset_prefixed lk p seq in
  invariant (lk_buf lk') /\ internal lk' = encode_internal_key p seq VALUE_TYPE_DELETION /\
  prefixed_user_key lk' = p /\ snapshot_seq lk' = seq.
Proof.
  intros Hinv. destruct (clear_spec _ Hinv) as [Hc1 Hc2].
  destruct (extend_spec _ p Hc1) as [He1 He2].
  apply finish_trailer_spec; [done|]. simpl. by rewrite He2, Hc2.
Qed.

Lemma reset_spec `{Target} lk cf uk seq :
  invariant (lk_buf lk) ->
  let lk' := reset lk cf uk seq in
  invariant (lk_buf lk') /\
  internal lk' = encode_internal_key (to_be 4 cf ++ uk) seq VALUE_TYPE_DELETION /\
  prefixed_user_key lk' = to_be 4 cf ++ uk /\ snapshot_seq lk' = seq.
Proof.
  intros Hinv. destruct (clear_spec _ Hinv) as [Hc1 Hc2].
  destruct (extend_spec _ (to_be 4 cf) Hc1) as [He1 He2].
  destruct (extend_spec _ uk He1) as [Hu1 Hu2].
  apply finish_trailer_spec; [done|]. simpl. by rewrite Hu2, He2, Hc2.
Qed.

End LookupKeyFacts.

(** ** The properties *)

(** An internal key decodes to exactly the user key, the sequence and the
    value type it was encoded from, for every user key and every [u64]
    sequence. *)
Theorem internal_key_roundtrip (user_key : bytes) (seq : Z) (value_type : byte)
  (Hseq : is_u64 seq) :
  decode_internal_key (encode_internal_key user_key seq value_type) =
  Ok (user_key, seq, value_type).
Proof. by apply decode_encoded. Qed.

Lemma internal_key_roundtrip_witness :
  is_u64 42 /\
  decode_internal_key (encode_internal_key [Byte.x61] 42 VALUE_TYPE_VALUE) =
  Ok ([Byte.x61], 42, VALUE_TYPE_VALUE).
Proof.
  assert (H : is_u64 42) by (unfold is_u64; lia).
  split; [exact H|exact (internal_key_roundtrip [Byte.x61] 42 VALUE_TYPE_VALUE H)].
Defined.

(** The comparator orders encoded internal keys by user key ascending,
    then by sequence descending, then by value type, whatever the lengths of
    the two user keys. *)
Theorem compare_internal_keys_order (k1 k2 : bytes) (s1 s2 : Z) (t1 t2 : byte)
  (H1 : is_u64 s1) (H2 : is_u64 s2) :
  compare_internal_keys (encode_internal_key k1 s1 t1) (encode_internal_key k2 s2 t2) =
  match bytes_cmp k1 k2 with
  | Eq => match Z.compare s2 s1 with Eq => byte_cmp t1 t2 | c => c end
  | c => c
  end.
Proof. by apply compare_encoded. Qed.

Lemma compare_internal_keys_order_witness :
  (is_u64 5 /\ is_u64 10) /\
  compare_internal_keys (encode_internal_key [Byte.x61; Byte.x62] 5 Byte.x01)
    (encode_internal_key [Byte.x61; Byte.x62] 10 Byte.x01) = Gt.
Proof.
  assert (H : is_u64 5 /\ is_u64 10) by (unfold is_u64; lia).
  split; [exact H|].
  exact (compare_internal_keys_order [Byte.x61; Byte.x62] [Byte.x61; Byte.x62] 5 10
    Byte.x01 Byte.x01 (proj1 H) (proj2 H)).
Defined.

(** On keys that carry a trailer the comparator is a total order: it says
    [Eq] of equal keys only, swapping its arguments reverses it, and it is
    transitive. *)
Theorem compare_internal_keys_total_order (a b c : bytes)
  (Ha : valid_internal_key a) (Hb : valid_internal_key b) (Hc : valid_internal_key c) :
  (compare_internal_keys a b = Eq <-> a = b) /\
  compare_internal_keys b a = CompOpp (compare_internal_keys a b) /\
  (compare_internal_keys a b = Lt -> compare_internal_keys b c = Lt ->
   compare_internal_keys a c = Lt).
Proof.
  split_and!; [by apply cmp_eq|by apply cmp_opp|by apply cmp_trans].
Qed.

Lemma compare_internal_keys_total_order_witness :
  let a := encode_internal_key [] 7 Byte.x01 in
  let b := encode_internal_key [Byte.x61] 9 Byte.x01 in
  let c := encode_internal_key [Byte.x61; Byte.x00] 3 Byte.x01 in
  (valid_internal_key a /\ valid_internal_key b /\ valid_internal_key c) /\
  compare_internal_keys a c = Lt.
Proof.
  intros a b c. split; [split_and!; apply encode_valid|].
  apply (proj2 (proj2 (compare_internal_keys_total_order a b c (encode_valid _ _ _)
    (encode_valid _ _ _) (encode_valid _ _ _)))); vm_compute; reflexivity.
Defined.

(** The comparator the memtable inserts with, whose right-hand key is still
    in two pieces, agrees with the comparator on the joined key for every
    left-hand key, and for a left-hand key too short to carry a trailer it is
    the raw order of the bytes. *)
Theorem compare_internal_split_agrees (a uk trailer : bytes)
  (Ht : len trailer = INTERNAL_KEY_SUFFIX_LEN) :
  compare_internal_split a uk trailer = compare_internal_keys a (uk ++ trailer) /\
  (len a < INTERNAL_KEY_SUFFIX_LEN ->
   compare_internal_split a uk trailer = bytes_cmp a (uk ++ trailer)).
Proof.
  split; [by rewrite compare_keys_split|]. intros Ha. unfold compare_internal_split.
  destruct (Z.ltb_spec (len a) INTERNAL_KEY_SUFFIX_LEN); [|lia].
  apply raw_cmp_split_spec.
Qed.

Lemma compare_internal_split_agrees_witness :
  len (to_be 8 (u64_not 3) ++ [Byte.x01]) = INTERNAL_KEY_SUFFIX_LEN /\
  compare_internal_split [Byte.x61] [Byte.x61] (to_be 8 (u64_not 3) ++ [Byte.x01]) =
  compare_internal_keys [Byte.x61] (encode_internal_key [Byte.x61] 3 Byte.x01).
Proof.
  split; [reflexivity|].
  exact (proj1 (compare_internal_split_agrees [Byte.x61] [Byte.x61]
    (to_be 8 (u64_not 3) ++ [Byte.x01]) eq_refl)).
Defined.

(** A lookup key, built fresh or re-pointed in a buffer that may already
    have spilled to the heap, holds exactly the encoding of the column-family
    prefixed user key at the snapshot with the deletion type, its first part is
    that prefixed key, and the buffer's storage invariant holds again. *)
Theorem lookup_key_encodes `{Target} (lk : LookupKey) (cf_id : Z) (user_key : bytes) (seq : Z)
  (Hinv : InlineBuf.invariant (lk_buf lk)) :
  let lk' := LookupKey.reset lk cf_id user_key seq in
  InlineBuf.invariant (lk_buf lk') /\
  LookupKey.internal lk' =
    encode_internal_key (to_be 4 cf_id ++ user_key) seq VALUE_TYPE_DELETION /\
  LookupKey.prefixed_user_key lk' = to_be 4 cf_id ++ user_key /\
  LookupKey.internal (LookupKey.new cf_id user_key seq) = LookupKey.internal lk'.
Proof.
  destruct (LookupKeyFacts.reset_spec lk cf_id user_key seq Hinv) as (? & Hint & ? & _).
  cbn zeta. split_and!; [done..|]. rewrite Hint.
  apply (LookupKeyFacts.reset_spec (mkLookupKey InlineBuf.new 0 seq) cf_id user_key seq
    InlineBufFacts.new_invariant).
Qed.

Lemma lookup_key_encodes_witness :
  let lk := @LookupKey.new target64 1 (replicate 130 Byte.x61) 5 in
  InlineBuf.invariant (lk_buf lk) /\
  LookupKey.prefixed_user_key (@LookupKey.reset target64 lk 2 [Byte.x62] 9) =
    to_be 4 2 ++ [Byte.x62].
Proof.
  intros lk.
  assert (Hinv : InlineBuf.invariant (lk_buf lk)).
  { split_and!; vm_compute; congruence. }
  split; [exact Hinv|].
  exact (proj1 (proj2 (proj2 (@lookup_key_encodes target64 lk 2 [Byte.x62] 9 Hinv)))).
Defined.

Lemma compare_keys_opp_any a target :
  valid_internal_key a ->
  CompOpp (compare_internal_keys target a) = compare_internal_keys a target.
Proof.
  intros Ha. destruct (Z.lt_ge_cases (len target) INTERNAL_KEY_SUFFIX_LEN) as [Hs|Hv].
  - unfold compare_internal_keys at 2.
    destruct (Z.ltb_spec (len target) INTERNAL_KEY_SUFFIX_LEN); [|lia].
    unfold compare_internal_keys. destruct (Z.ltb_spec (len a) INTERNAL_KEY_SUFFIX_LEN); [ik_lia|].
    unfold compare_internal_split.
    destruct (Z.ltb_spec (len target) INTERNAL_KEY_SUFFIX_LEN); [|lia].
    rewrite raw_cmp_split_spec, takez_dropz. by rewrite <- bytes_cmp_opp.
  - symmetry. by apply cmp_opp.
Qed.

Lemma swap_encoded uk x y t :
  Stamp.swap (encode_internal_key uk x t) (to_be 8 (u64_not y)) =
  Ok (encode_internal_key uk y t, to_be 8 (u64_not x)).
Proof.
  unfold Stamp.swap.
  assert (Hs : slice (encode_internal_key uk x t)
    (len (encode_internal_key uk x t) - INTERNAL_KEY_SUFFIX_LEN)
    (len (encode_internal_key uk x t) - 1) = Some (to_be 8 (u64_not x))).
  { apply slice_app; ik_lia. }
  rewrite Hs. cbn. unfold mret, outcome_ret. do 2 f_equal.
  rewrite encode_takez by done. unfold encode_internal_key. do 2 f_equal.
  rewrite app_assoc, dropz_app by ik_lia. done.
Qed.

Lemma compare_stamped uk x seq t target :
  Stamp.compare (encode_internal_key uk x t) (Some (to_be 8 (u64_not seq))) target =
  Ok (compare_internal_keys (encode_internal_key uk seq t) target).
Proof.
  unfold Stamp.compare. set (k := encode_internal_key uk x t).
  assert (Hu : slice k 0 (len k - INTERNAL_KEY_SUFFIX_LEN) = Some uk).
  { apply slice_app_head. unfold k. ik_lia. }
  assert (Hv : getz k (len k - 1) = Some t).
  { unfold k, encode_internal_key. rewrite app_assoc. apply getz_app_mid. ik_lia. }
  rewrite Hu, Hv. cbn. unfold mret, outcome_ret. f_equal.
  rewrite <- compare_keys_split by ik_lia.
  apply (compare_keys_opp_any (encode_internal_key uk seq t)). apply encode_valid.
Qed.

(** A key stored at any sequence and read with the stamp of [seq] is byte
    for byte the key written at [seq], compares with every target as that key
    does without being copied, and putting the replaced bytes back restores the
    stored key. *)
Theorem stamped_key_reads_as_written (uk : bytes) (stored seq : Z) (t : byte) (target : bytes) :
  let stamp := to_be 8 (u64_not seq) in
  let stored_key := encode_internal_key uk stored t in
  let written := encode_internal_key uk seq t in
  Stamp.read_into stored_key stamp = Ok written /\
  Stamp.compare stored_key (Some stamp) target = Ok (compare_internal_keys written target) /\
  exists replaced, Stamp.swap stored_key stamp = Ok (written, replaced) /\
    Stamp.swap written replaced = Ok (stored_key, stamp).
Proof.
  cbn zeta. split_and!.
  - unfold Stamp.read_into. by rewrite swap_encoded.
  - apply compare_stamped.
  - exists (to_be 8 (u64_not stored)). by rewrite !swap_encoded.
Qed.

Lemma read_key_encoded seq uk x t :
  read_key (Some (to_be 8 (u64_not seq))) (encode_internal_key uk x t) =
  encode_internal_key uk seq t.
Proof.
  unfold read_key. rewrite encode_takez by done. unfold encode_internal_key. do 2 f_equal.
  rewrite app_assoc, dropz_app by ik_lia. done.
Qed.

Lemma compare_read stamp k target :
  stamp_wf stamp -> valid_internal_key k ->
  Stamp.compare k stamp target = Ok (compare_internal_keys (read_key stamp k) target).
Proof.
  intros [->|[seq ->]] Hk; [done|]. apply valid_is_encoded in Hk as (uk & x & t & _ & ->).
  by rewrite compare_stamped, read_key_encoded.
Qed.

Lemma read_key_valid stamp k :
  stamp_wf stamp -> valid_internal_key k -> valid_internal_key (read_key stamp k).
Proof.
  intros [->|[seq ->]] Hk; [done|]. apply valid_is_encoded in Hk as (uk & x & t & _ & ->).
  rewrite read_key_encoded. apply encode_valid.
Qed.

(** A key without a whole trailer never decodes: [decode_internal_key]
    panics on it, and on no other key. *)
Theorem decode_internal_key_panics (k : bytes) :
  decode_internal_key k = Panic <-> ~ valid_internal_key k.
Proof.
  split.
  - intros H (uk & s & t & Hs & ->)%valid_is_encoded. by rewrite decode_encoded in H.
  - unfold valid_internal_key. intros H. unfold decode_internal_key.
    destruct (getz k (len k - 1)); [|done]. cbn.
    assert (slice k (len k - 9) (len k - 1) = None) as ->; [|done].
    apply slice_None. unfold INTERNAL_KEY_SUFFIX_LEN in H. lia.
Qed.

(** ** A forward seek *)

Lemma compare_probe v uk snap :
  is_u64 v.1.2 -> is_u64 snap ->
  compare_internal_keys (version_key v) (encode_internal_key uk snap VALUE_TYPE_DELETION) <> Lt <->
  bytes_cmp v.1.1 uk = Gt \/ (v.1.1 = uk /\ v.1.2 <= snap).
Proof.
  intros Hv Hs. unfold version_key. rewrite compare_encoded by done. unfold internal_order.
  destruct (bytes_cmp v.1.1 uk) eqn:E.
  - apply bytes_cmp_eq in E. destruct (Z.compare_spec snap v.1.2).
    + split; [intros; right; split; [done|lia]|]. intros _. unfold byte_cmp. intros Hl.
      rewrite Z.compare_lt_iff in Hl. pose proof (byte.unsigned_range v.2).
      change (byte.unsigned VALUE_TYPE_DELETION) with 0 in Hl. lia.
    + split; [done|]. intros [?|[_ ?]]; [done|lia].
    + split; [intros; right; split; [done|lia]|done].
  - split; [done|]. intros [?|[? _]]; [done|]. apply bytes_cmp_eq in H. congruence.
  - split; [by left|done].
Qed.

Lemma seek_spec versions uk snap :
  versions_sorted versions -> Forall (fun v => is_u64 v.1.2) versions -> is_u64 snap ->
  match seek (encode_internal_key uk snap VALUE_TYPE_DELETION) versions with
  | Some v =>
      (v.1.1 = uk -> In v versions /\ visible uk snap v /\
        forall w, In w versions -> visible uk snap w -> w.1.2 <= v.1.2) /\
      (v.1.1 <> uk -> forall w, In w versions -> ~ visible uk snap w)
  | None => forall w, In w versions -> ~ visible uk snap w
  end.
Proof.
  intros Hsort Hu64 Hsnap. induction Hsort as [|v l Hl IH Hall]; [by intros w []|].
  inversion_clear Hu64 as [|? ? Hv Hu64']. cbn [seek List.find].
  pose proof (compare_probe v uk snap Hv Hsnap) as Hprobe. set (probe := encode_internal_key _ _ _) in *.
  fold (seek probe l). destruct (compare_internal_keys (version_key v) probe) eqn:Ec.
  2:{ specialize (IH Hu64').
      assert (Hnv : ~ visible uk snap v) by (intros Hvis; apply (proj2 Hprobe); [right; exact Hvis|done]).
      destruct (seek probe l) as [v'|].
      - destruct IH as [IH1 IH2]. split.
        + intros E. destruct (IH1 E) as (Hin & Hvis & Hmax). split_and!; [by right|done|].
          intros w [<-|Hw] Hwv; [done|auto].
        + intros E w [<-|Hw]; [done|auto].
      - intros w [<-|Hw]; auto. }
  all: rewrite List.Forall_forall in Hall, Hu64'; destruct (proj1 Hprobe ltac:(congruence)) as [Hgt|[Heq Hle]].
  all: split; [intros E|intros E w Hw [Hwk Hws]].
  all: try (subst uk; rewrite bytes_cmp_refl in Hgt; discriminate).
  all: try done.
  all: try (split_and!; [by left|by split|]; intros w [<-|Hw] [Hwk Hws]; [lia|];
       specialize (Hall w Hw); unfold version_key in Hall;
       rewrite compare_encoded in Hall by auto; unfold internal_order in Hall;
       rewrite E, Hwk, bytes_cmp_refl in Hall; destruct (Z.compare_spec w.1.2 v.1.2); [lia..|done]).
  all: destruct Hw as [<-|Hw]; [congruence|];
       specialize (Hall w Hw); unfold version_key in Hall;
       rewrite compare_encoded in Hall by auto; unfold internal_order in Hall;
       rewrite Hwk, Hgt in Hall; discriminate.
Qed.

(** Seeking the lookup key of a snapshot in any sorted run of versions
    lands on the newest version of the user key the snapshot sees; when the
    seek lands on another key, or on none, the run holds no version the
    snapshot sees. *)
Theorem lookup_finds_newest_visible `{Target} (versions : list version) (cf_id : Z)
  (user_key : bytes) (snap : Z)
  (Hsort : versions_sorted versions) (Hseqs : Forall (fun v => is_u64 v.1.2) versions)
  (Hsnap : is_u64 snap) :
  let prefixed := to_be 4 cf_id ++ user_key in
  match seek (LookupKey.internal (LookupKey.new cf_id user_key snap)) versions with
  | Some v =>
      (v.1.1 = prefixed -> In v versions /\ visible prefixed snap v /\
        forall w, In w versions -> visible prefixed snap w -> w.1.2 <= v.1.2) /\
      (v.1.1 <> prefixed -> forall w, In w versions -> ~ visible prefixed snap w)
  | None => forall w, In w versions -> ~ visible prefixed snap w
  end.
Proof.
  cbn zeta.
  destruct (LookupKeyFacts.reset_spec (mkLookupKey InlineBuf.new 0 snap) cf_id user_key snap
    InlineBufFacts.new_invariant) as (_ & Hint & _).
  unfold LookupKey.new. rewrite Hint. by apply seek_spec.
Qed.

Lemma lookup_finds_newest_visible_witness :
  let k := to_be 4 1 ++ [Byte.x6b] in
  let vs := [(k, 10, Byte.x01); (k, 5, Byte.x01); (k, 3, Byte.x00)] in
  (versions_sorted vs /\ Forall (fun v : version => is_u64 v.1.2) vs /\ is_u64 7) /\
  (forall w, In w vs -> visible k 7 w -> w.1.2 <= 5).
Proof.
  intros k vs.
  assert (Hs : versions_sorted vs).
  { repeat constructor. }
  assert (Hu : Forall (fun v : version => is_u64 v.1.2) vs).
  { unfold is_u64. repeat constructor; simpl; lia. }
  assert (H7 : is_u64 7) by (unfold is_u64; lia).
  split; [split_and!; assumption|].
  exact (proj2 (proj2 (proj1 (@lookup_finds_newest_visible target64 vs 1 [Byte.x6b] 7 Hs Hu H7)
    eq_refl))).
Defined.
