(* ===== verification/Block.v ===== *)
(** * SSTable data blocks

    Models [src/src/engine/block.rs]: the prefix-compressed entries of a data
    block, its restart points, the builder that writes one, the validation a
    block passes before anything reads it, and the scan that every point read
    and every iterator positions itself with.

    Shown here: varints round-trip; a block the builder wrote decodes and holds
    exactly the entries added; a block that decodes is never a source of
    panics, whatever its bytes; and a scan from a target visits exactly the
    entries at or after the target, although it starts at a restart point found
    by binary search. *)

From S2P Require Import Prelude InternalKey.

Definition RESTART_INTERVAL : Z := 16.

(** Offset and size of a block within an SSTable file. *)
Record BlockHandle := mkHandle { h_offset : Z; h_size : Z }.

(** A decoded data block. [stamp] holds the eight [!seq] bytes the entries of
    an ingested table read with. *)
Record Block := mkBlock {
  data : bytes;
  restarts : list Z;
  entries_end : Z;
  stamp : option bytes;
}.

(** ** Varints *)

(** [while value >= 0x80], on a [u64]: at most ten bytes. *)
Fixpoint encode_varint_loop (fuel : nat) (value : Z) : bytes :=
  match fuel with
  | O => []
  | S fuel =>
      if 128 <=? value
      then byte.of_Z (Z.lor (value mod 256) 128) :: encode_varint_loop fuel (Z.shiftr value 7)
      else [byte.of_Z value]
  end.
Definition encode_varint (value : Z) : bytes := encode_varint_loop 10 value.

Fixpoint read_varint_loop `{Target} (fuel : nat) (buf : bytes) (i result offset : Z)
  : outcome (Z * Z) :=
  match fuel with
  | O => Err (invalid_data "unterminated block entry varint")
  | S fuel =>
      match getz buf offset with
      | None => Err (invalid_data "unterminated block entry varint")
      | Some byte =>
          let b := byte.unsigned byte in
          if (i =? 9) && (1 <? b)
          then Err (invalid_data "block entry varint overflows u64")
          else
            let result := Z.lor result (Z.shiftl (Z.land b 127) (i * 7)) in
            if Z.land b 128 =? 0
            then if result <=? usize_max then Ok (result, offset + 1)
                 else Err (invalid_data "block entry varint overflows usize")
            else read_varint_loop fuel buf (i + 1) result (offset + 1)
      end
  end.

(** The value and the offset one past its last byte. *)
Definition read_varint `{Target} (buf : bytes) (offset : Z) : outcome (Z * Z) :=
  read_varint_loop 10 buf 0 0 offset.

(** ** Entries *)

Record EntryHeader := mkEntryHeader {
  shared : Z;
  unshared : Z;
  value_len : Z;
  key_offset : Z;
  consumed : Z;
}.

Definition decode_entry_header `{Target} (buf : bytes) (pos : Z) : outcome EntryHeader :=
  if len buf <=? pos then Err (invalid_data "block entry offset is outside entry data")
  else
    '(shared, offset) ← read_varint buf pos;
    '(unshared, offset) ← read_varint buf offset;
    '(value_len, offset) ← read_varint buf offset;
    key_end ← ok_or (checked_add offset unshared)
                    (invalid_data "block entry key length overflows");
    if len buf <? key_end then Err (invalid_data "block entry key extends past block")
    else
      value_end ← ok_or (checked_add key_end value_len)
                        (invalid_data "block entry value length overflows");
      if len buf <? value_end then Err (invalid_data "block entry value extends past block")
      else Ok (mkEntryHeader shared unshared value_len offset (value_end - pos)).

(** The key and the bytes consumed of the entry at [pos], checked. *)
Definition decode_block_entry_checked `{Target} (buf : bytes) (pos : Z) (prev_key : bytes)
  : outcome (bytes * Z) :=
  header ← decode_entry_header buf pos;
  if len prev_key <? shared header
  then Err (invalid_data "block entry shared prefix exceeds previous key")
  else
    key_len ← ok_or (checked_add (shared header) (unshared header))
                    (invalid_data "block entry key length overflows");
    suffix ← expect (slice buf (key_offset header) (key_offset header + unshared header));
    Ok (takez (shared header) prev_key ++ suffix, consumed header).

(** The reader's decoder: the header was validated at decode, so a failure here
    is an [expect] or an [assert] that fires. Returns the reconstructed key,
    the bytes consumed, and the value's offset and length. *)
Definition decode_entry_at `{Target} (buf : bytes) (pos : Z) (prev_key : bytes)
  : outcome (bytes * Z * Z * Z) :=
  match decode_entry_header buf pos with
  | Ok header =>
      if len prev_key <? shared header then Panic
      else
        let key_end := key_offset header + unshared header in
        suffix ← expect (slice buf (key_offset header) key_end);
        Ok (takez (shared header) prev_key ++ suffix, consumed header, key_end, value_len header)
  | _ => Panic
  end.

Definition encoded_entry_size `{Target} (buf : bytes) (pos : Z) : outcome Z :=
  match decode_entry_header buf pos with
  | Ok header => Ok (consumed header)
  | _ => Panic
  end.

(** ** Validation *)

(** The first loop of [validate_restarts_and_entries]: the offset of every
    entry. Each entry consumes at least one byte, so one unit of fuel per byte
    and one for the exit test is enough. *)
Fixpoint validate_entries `{Target} (fuel : nat) (buf : bytes) (require_internal_keys : bool)
  (pos : Z) (prev_key : bytes) : outcome (list Z) :=
  match fuel with
  | O => OutOfFuel
  | S fuel =>
      if pos <? len buf then
        '(key, consumed) ← decode_block_entry_checked buf pos prev_key;
        if require_internal_keys && (len key <? INTERNAL_KEY_SUFFIX_LEN)
        then Err (invalid_data "block entry key is shorter than the internal-key trailer")
        else
          offsets ← validate_entries fuel buf require_internal_keys (pos + consumed) key;
          Ok (pos :: offsets)
      else Ok []
  end.

(** [entry_offsets.binary_search(&x).is_ok()]. *)
Definition binary_search_ok (l : list Z) (x : Z) : bool :=
  match getz l (partition_point (fun y => y <? x) l) with
  | Some y => y =? x
  | None => false
  end.

(** The second loop; [previous] is [None] for the first restart. *)
Fixpoint validate_restarts `{Target} (buf : bytes) (entry_offsets : list Z)
  (previous : option Z) (rs : list Z) : outcome unit :=
  match rs with
  | [] => Ok ()
  | restart :: rs =>
      if match previous with Some p => restart <=? p | None => false end
      then Err (invalid_data "block restart offsets are not strictly increasing")
      else if len buf =? 0 then
        if negb (restart =? 0)
        then Err (invalid_data "empty block restart offset must be zero")
        else validate_restarts buf entry_offsets (Some restart) rs
      else if negb (binary_search_ok entry_offsets restart)
      then Err (invalid_data "block restart offset is not an entry boundary")
      else
        header ← decode_entry_header buf restart;
        if negb (shared header =? 0)
        then Err (invalid_data "block restart entry must not share a key prefix")
        else validate_restarts buf entry_offsets (Some restart) rs
  end.

Definition validate_restarts_and_entries `{Target} (buf : bytes) (rs : list Z)
  (require_internal_keys : bool) : outcome unit :=
  entry_offsets ← validate_entries (S (length buf)) buf require_internal_keys 0 [];
  if bool_decide (head rs = Some 0) then validate_restarts buf entry_offsets None rs
  else Err (invalid_data "block first restart offset must be zero").

(** The restart array: [n] little-endian [u32]s. *)
Fixpoint read_restarts (n : nat) (l : bytes) : list Z :=
  match n with
  | O => []
  | S n => from_le (takez 4 l) :: read_restarts n (dropz 4 l)
  end.

Definition checked_mul `{Target} (a b : Z) : option Z :=
  if a * b <=? usize_max then Some (a * b) else None.

Definition decode_inner `{Target} (raw : bytes) (require_internal_keys : bool) : outcome Block :=
  if len raw <? 4 then Err (invalid_data "block too small")
  else
    let num_restarts := from_le (dropz (len raw - 4) raw) in
    if num_restarts =? 0 then Err (invalid_data "block has no restart points")
    else
      restart_bytes ← ok_or (checked_mul num_restarts 4)
                            (invalid_data "block restart array size overflows");
      if len raw - 4 <? restart_bytes
      then Err (invalid_data "block restart array exceeds block length")
      else
        let entries_end := len raw - 4 - restart_bytes in
        let rs := read_restarts (Z.to_nat num_restarts) (dropz entries_end raw) in
        _ ← validate_restarts_and_entries (takez entries_end raw) rs require_internal_keys;
        Ok (mkBlock raw rs entries_end None).

Definition decode_data_block `{Target} (raw : bytes) : outcome Block := decode_inner raw true.

Definition stamped (b : Block) (seq : Z) : Block :=
  mkBlock (data b) (restarts b) (entries_end b) (Some (to_be 8 (u64_not seq))).

Definition entry_data (b : Block) : bytes := takez (entries_end b) (data b).

(** A value handle can never widen into the restart array. *)
Definition entry_bytes `{Target} (b : Block) (offset vlen : Z) : option bytes :=
  match checked_add offset vlen with
  | None => None
  | Some e => if entries_end b <? e then None else slice (data b) offset e
  end.

(** ** Reading *)

(** The probe of [restart_start_for]: whether the key at restart [mid] is below
    [target]. A restart entry shares no prefix, so its unshared bytes are the
    whole key. *)
Definition restart_below `{Target} (b : Block) (target : bytes) (mid : Z) : outcome bool :=
  restart_pos ← expect (getz (restarts b) mid);
  match decode_entry_header (entry_data b) restart_pos with
  | Ok header =>
      key ← expect (slice (entry_data b) (key_offset header)
                          (key_offset header + unshared header));
      ord ← Stamp.compare key (stamp b) target;
      Ok (match ord with Lt => true | _ => false end)
  | _ => Panic
  end.

Fixpoint restart_search `{Target} (fuel : nat) (b : Block) (target : bytes) (left right : Z)
  : outcome Z :=
  match fuel with
  | O => OutOfFuel
  | S fuel =>
      if left <? right then
        let mid := left + (right - left) / 2 in
        below ← restart_below b target mid;
        if below : bool then restart_search fuel b target (mid + 1) right
        else restart_search fuel b target left mid
      else Ok left
  end.

Definition restart_start_for `{Target} (b : Block) (target : bytes) : outcome Z :=
  if len (entry_data b) =? 0 then Ok 0
  else
    left ← restart_search (S (length (restarts b))) b target 0 (len (restarts b));
    if 0 <? left then expect (getz (restarts b) (left - 1)) else Ok 0.

Section Scan.
Context `{Target} {St R : Type}.
(** The caller's closure: its captured state, the key, the value's offset and
    length; [Some] breaks the scan. *)
Variable f : St -> bytes -> Z -> Z -> St * option R.

(** The loop of [walk_from]. The stamp, when there is one, is put in the key
    buffer for the call of [f] and taken out again before the next key is
    reconstructed from it. *)
Fixpoint walk_loop (fuel : nat) (buf : bytes) (stamp : option bytes) (target : bytes)
  (pos : Z) (key_buf : bytes) (below_target : bool) (st : St) : outcome (St * option R) :=
  match fuel with
  | O => OutOfFuel
  | S fuel =>
      if pos <? len buf then
        '(key_buf, consumed, value_offset, value_len) ← decode_entry_at buf pos key_buf;
        let pos := pos + consumed in
        ord ← (if below_target : bool then Stamp.compare key_buf stamp target else Ok Eq);
        match ord with
        | Lt => walk_loop fuel buf stamp target pos key_buf true st
        | _ =>
            match stamp with
            | None =>
                match f st key_buf value_offset value_len with
                | (st, Some r) => Ok (st, Some r)
                | (st, None) => walk_loop fuel buf stamp target pos key_buf false st
                end
            | Some s =>
                '(key_buf, stored) ← Stamp.swap key_buf s;
                match f st key_buf value_offset value_len with
                | (st, Some r) => Ok (st, Some r)
                | (st, None) =>
                    '(key_buf, _) ← Stamp.swap key_buf stored;
                    walk_loop fuel buf stamp target pos key_buf false st
                end
            end
        end
      else Ok (st, None)
  end.

Definition scan_from (b : Block) (target : bytes) (st : St) : outcome (St * option R) :=
  let buf := entry_data b in
  pos ← restart_start_for b target;
  walk_loop (S (length buf)) buf (stamp b) target pos [] true st.

End Scan.

(** ** Building *)

Record BlockBuilder := mkBuilder {
  bb_buffer : bytes;
  bb_restarts : list Z;
  entry_count : Z;
  last_key : bytes;
  restart_interval : Z;
}.

Module BlockBuilder.

Definition new (restart_interval : Z) : BlockBuilder :=
  mkBuilder [] [0] 0 [] restart_interval.

(** [usize::is_multiple_of]: zero is a multiple of zero. *)
Definition is_multiple_of (a b : Z) : bool := if b =? 0 then a =? 0 else a mod b =? 0.

(** [zip, take_while equal, count]. *)
Fixpoint shared_prefix (a b : bytes) : Z :=
  match a, b with
  | x :: a, y :: b => if bool_decide (x = y) then 1 + shared_prefix a b else 0
  | _, _ => 0
  end.

Definition add (b : BlockBuilder) (key value : bytes) : BlockBuilder :=
  let restart := is_multiple_of (entry_count b) (restart_interval b) && (0 <? entry_count b) in
  let rs := if restart then bb_restarts b ++ [as_u32 (len (bb_buffer b))] else bb_restarts b in
  let shared := if restart then 0 else shared_prefix (last_key b) key in
  let unshared := len key - shared in
  mkBuilder
    (bb_buffer b ++ encode_varint shared ++ encode_varint unshared ++
     encode_varint (len value) ++ dropz shared key ++ value)
    rs (entry_count b + 1) key (restart_interval b).

Definition finish (b : BlockBuilder) : bytes :=
  bb_buffer b ++ List.concat (map (to_le 4) (bb_restarts b)) ++ to_le 4 (len (bb_restarts b)).

Definition estimated_size (b : BlockBuilder) : Z :=
  len (bb_buffer b) + len (bb_restarts b) * 4 + 4.

Definition is_empty (b : BlockBuilder) : bool := entry_count b =? 0.

(** The block an SSTable writer emits for a run of entries. *)
Definition add_all (b : BlockBuilder) (kvs : list (bytes * bytes)) : BlockBuilder :=
  fold_left (fun b kv => add b kv.1 kv.2) kvs b.

End BlockBuilder.

(** ** What a block holds *)

(** One entry: its reconstructed key, its value's offset and length. *)
Definition entry : Type := bytes * Z * Z.

(** [Entries buf pos prev es]: walking [buf] from [pos] with [prev] in the key
    buffer decodes the entries [es], each with the offset it starts at, and ends
    at the end of the buffer. *)
Inductive Entries `{Target} (buf : bytes) : Z -> bytes -> list (Z * entry) -> Prop :=
| Entries_end pos prev : len buf <= pos -> Entries buf pos prev []
| Entries_step pos prev key c vo vl es :
    0 <= pos < len buf -> 0 < c ->
    decode_entry_at buf pos prev = Ok (key, c, vo, vl) ->
    Entries buf (pos + c) key es ->
    Entries buf pos prev ((pos, (key, vo, vl)) :: es).

(** The key and the value bytes an entry stands for. *)
Definition entry_kv (buf : bytes) (e : Z * entry) : bytes * option bytes :=
  let '(_, (key, vo, vl)) := e in (key, slice buf vo (vo + vl)).

Definition entry_key (e : Z * entry) : bytes := e.2.1.1.

(** Calling [f] on each entry in turn, with the key a reader sees, until it
    breaks: what a scan means. *)
Fixpoint visit {St R} (f : St -> bytes -> Z -> Z -> St * option R) (stamp : option bytes)
  (st : St) (es : list (Z * entry)) : St * option R :=
  match es with
  | [] => (st, None)
  | (_, (key, vo, vl)) :: es =>
      match f st (read_key stamp key) vo vl with
      | (st, Some r) => (st, Some r)
      | (st, None) => visit f stamp st es
      end
  end.

(** Whether an entry, as read, is at or after [target]. *)
Definition at_or_after (stamp : option bytes) (target : bytes) (e : Z * entry) : bool :=
  match compare_internal_keys (read_key stamp (entry_key e)) target with
  | Lt => false
  | _ => true
  end.

(** The entries left once those below [target] at the front are skipped. *)
Fixpoint from_target (stamp : option bytes) (target : bytes) (es : list (Z * entry))
  : list (Z * entry) :=
  match es with
  | [] => []
  | e :: es' => if at_or_after stamp target e then es else from_target stamp target es'
  end.

Definition entries_sorted (stamp : option bytes) (es : list (Z * entry)) : Prop :=
  StronglySorted (fun a b => compare_internal_keys (read_key stamp (entry_key a))
                               (read_key stamp (entry_key b)) = Lt) es.

(** What a validated block guarantees its readers. *)
Record block_ok `{Target} (b : Block) (es : list (Z * entry)) : Prop := {
  ok_entries : Entries (entry_data b) 0 [] es;
  ok_keys : Forall (fun e => valid_internal_key (entry_key e)) es;
  ok_stamp : stamp_wf (stamp b);
  ok_restarts : es <> [] ->
    StronglySorted Z.lt (restarts b) /\ head (restarts b) = Some 0 /\
    Forall (fun r => In r (map fst es) /\
      exists h, decode_entry_header (entry_data b) r = Ok h /\ shared h = 0) (restarts b);
}.

(** ** Varints round-trip *)

Lemma continuation_byte v :
  byte.unsigned (byte.of_Z (Z.lor (v mod 256) 128)) = Z.lor (v mod 256) 128.
Proof.
  rewrite byte.unsigned_of_Z. unfold byte.wrap.
  rewrite <- Z.land_ones, Z.land_lor_distr_l by lia. rewrite Z.land_ones by lia.
  change (2 ^ 8) with 256. rewrite Z.mod_mod by lia. done.
Qed.

Lemma continuation_payload v : Z.land (Z.lor (v mod 256) 128) 127 = v mod 128.
Proof.
  change 256 with (2 ^ 8). change 128 with (2 ^ 7) at 2. change 127 with (Z.ones 7).
  rewrite Z.land_lor_distr_l. change (Z.land (2 ^ 7) (Z.ones 7)) with 0.
  rewrite Z.lor_0_r, <- (Z.land_ones v 8), <- Z.land_assoc by lia.
  change (Z.land (Z.ones 8) (Z.ones 7)) with (Z.ones 7). apply Z.land_ones. lia.
Qed.

Lemma continuation_flag v : (Z.land (Z.lor (v mod 256) 128) 128 =? 0) = false.
Proof.
  apply Z.eqb_neq. intros E. apply (f_equal (fun z => Z.testbit z 7)) in E.
  rewrite Z.land_spec, Z.lor_spec in E. change (Z.testbit 128 7) with true in E.
  rewrite orb_true_r in E. done.
Qed.

Lemma final_byte v : 0 <= v < 128 ->
  byte.unsigned (byte.of_Z v) = v /\ Z.land v 127 = v /\ (Z.land v 128 =? 0) = true.
Proof.
  intros Hv. split_and!.
  - rewrite byte.unsigned_of_Z. unfold byte.wrap. apply Z.mod_small. lia.
  - change 127 with (Z.ones 7). rewrite Z.land_ones by lia. apply Z.mod_small. lia.
  - apply Z.eqb_eq. apply Z.bits_inj'. intros i Hi. rewrite Z.land_spec, Z.bits_0.
    destruct (Z.eq_dec i 7) as [->|].
    + rewrite Z.testbit_odd, Z.shiftr_div_pow2, Z.div_small by lia. done.
    + change 128 with (2 ^ 7). rewrite Z.pow2_bits_false by lia. apply andb_false_r.
Qed.

Lemma read_varint_loop_spec `{Target} n pre post v i acc :
  Z.of_nat n = 10 - i -> 0 <= i -> (1 <= n)%nat ->
  0 <= v < 2 ^ (64 - i * 7) -> 0 <= acc < 2 ^ (i * 7) ->
  acc + v * 2 ^ (i * 7) <= usize_max ->
  read_varint_loop n (pre ++ encode_varint_loop n v ++ post) i acc (len pre) =
  Ok (acc + v * 2 ^ (i * 7), len pre + len (encode_varint_loop n v)).
Proof.
  revert pre v i acc. induction n as [|n IH]; intros pre v i acc Hn Hi H1 Hv Hacc Hmax; [lia|].
  cbn [encode_varint_loop read_varint_loop].
  destruct (Z.leb_spec 128 v) as [Hbig|Hsmall].
  - assert (Hi9 : i < 9).
    { destruct (Z.lt_ge_cases i 9); [done|]. replace i with 9 in Hv by lia. simpl in Hv. lia. }
    cbn [app]. rewrite getz_app_mid by done. cbn zeta.
    rewrite continuation_byte, continuation_payload, continuation_flag.
    destruct (Z.eqb_spec i 9); [lia|]. cbn [andb].
    rewrite lor_shiftl_add by lia. rewrite Z.shiftr_div_pow2 by lia. change (2 ^ 7) with 128.
    assert (Hp : 2 ^ ((i + 1) * 7) = 128 * 2 ^ (i * 7)).
    { replace ((i + 1) * 7) with (7 + i * 7) by lia. rewrite Z.pow_add_r by lia. done. }
    pose proof (Z.div_mod v 128 ltac:(lia)) as Hdm.
    pose proof (Z.mod_pos_bound v 128 ltac:(lia)).
    assert (Hv' : 2 ^ (64 - i * 7) = 128 * 2 ^ (64 - (i + 1) * 7)).
    { replace (64 - i * 7) with (7 + (64 - (i + 1) * 7)) by lia. rewrite Z.pow_add_r by lia. done. }
    assert (Hsum : acc + v mod 128 * 2 ^ (i * 7) + v / 128 * 2 ^ ((i + 1) * 7) =
      acc + v * 2 ^ (i * 7)) by (rewrite Hp; nia).
    set (x := byte.of_Z (Z.lor (v mod 256) 128)).
    assert (Hlp : len (pre ++ [x]) = len pre + 1) by llia.
    specialize (IH (pre ++ [x]) (v / 128) (i + 1) (acc + v mod 128 * 2 ^ (i * 7))).
    rewrite <- app_assoc, Hlp, Hsum in IH. cbn [app] in IH.
    rewrite len_cons, IH; try lia.
    + f_equal. f_equal. lia.
    + rewrite Hp. nia.
  - destruct (final_byte v ltac:(lia)) as (E1 & E2 & E3).
    cbn [app]. rewrite getz_app_mid by done. cbn zeta. rewrite E1, E2, E3.
    assert ((i =? 9) && (1 <? v) = false) as ->.
    { apply andb_false_iff. destruct (Z.eqb_spec i 9) as [->|]; [right|by left].
      simpl in Hv. apply Z.ltb_ge. lia. }
    rewrite lor_shiftl_add by lia. destruct (Z.leb_spec (acc + v * 2 ^ (i * 7)) usize_max); [|lia].
    by rewrite len_cons, len_nil.
Qed.

Lemma read_varint_encoded `{Target} pre v post off :
  off = len pre -> 0 <= v <= usize_max ->
  read_varint (pre ++ encode_varint v ++ post) off = Ok (v, off + len (encode_varint v)).
Proof.
  intros -> Hv. unfold read_varint, encode_varint. pose proof usize_max_range.
  rewrite read_varint_loop_spec; try done; try lia.
  f_equal. f_equal. lia.
Qed.

(** ** Headers *)

Lemma encode_varint_len v : 1 <= len (encode_varint v) <= 10.
Proof.
  unfold encode_varint. change 10 with (Z.of_nat 10). assert (Hn : (1 <= 10)%nat) by lia.
  revert v Hn. generalize 10%nat. induction n as [|n IH]; intros v Hn; [lia|].
  cbn [encode_varint_loop]. destruct (128 <=? v); [|llia].
  destruct n; [simpl; llia|]. specialize (IH (Z.shiftr v 7) ltac:(lia)). rewrite len_cons. lia.
Qed.

Lemma read_varint_loop_Ok `{Target} n buf i acc off v off' :
  0 <= i -> 0 <= acc -> 0 <= off -> read_varint_loop n buf i acc off = Ok (v, off') ->
  0 <= v <= usize_max /\ off < off' <= len buf.
Proof.
  revert i acc off. induction n as [|n IH]; intros i acc off Hi Hacc Hoff; [done|].
  cbn [read_varint_loop]. destruct (getz buf off) as [b|] eqn:Eg; [|done].
  apply getz_Some_lt in Eg. cbn zeta. destruct (_ && _); [done|].
  set (acc' := Z.lor _ _). assert (0 <= acc').
  { apply Z.lor_nonneg. split; [done|]. apply Z.shiftl_nonneg, Z.land_nonneg. right. lia. }
  destruct (_ =? 0).
  - destruct (Z.leb_spec acc' usize_max); [|done]. intros [= <- <-]. lia.
  - intros E. apply IH in E; lia.
Qed.

Lemma read_varint_Ok `{Target} buf off v off' :
  0 <= off -> read_varint buf off = Ok (v, off') ->
  0 <= v <= usize_max /\ off < off' <= len buf.
Proof. intros Hoff E. by apply (read_varint_loop_Ok 10 buf 0 0 off). Qed.

Lemma read_varint_loop_returns `{Target} n buf i acc off :
  returns (read_varint_loop n buf i acc off).
Proof.
  revert i acc off. induction n as [|n IH]; intros i acc off; [done|]. cbn [read_varint_loop].
  destruct (getz buf off); [|done]. cbn zeta. repeat case_match; try done; apply IH.
Qed.

Lemma read_varint_returns `{Target} buf off : returns (read_varint buf off).
Proof. apply read_varint_loop_returns. Qed.

Lemma header_Ok `{Target} buf pos h :
  0 <= pos -> decode_entry_header buf pos = Ok h ->
  pos < key_offset h /\ 0 <= shared h /\ 0 <= unshared h /\ 0 <= value_len h /\
  key_offset h + unshared h + value_len h <= len buf /\
  consumed h = key_offset h + unshared h + value_len h - pos.
Proof.
  intros Hpos. unfold decode_entry_header. destruct (Z.leb_spec (len buf) pos); [done|].
  intros E. apply bind_Ok in E as ([s o1] & E1 & E). apply bind_Ok in E as ([u o2] & E2 & E).
  apply bind_Ok in E as ([v o3] & E3 & E). ok_inv. btests.
  apply read_varint_Ok in E1 as [? ?]; [|lia]. apply read_varint_Ok in E2 as [? ?]; [|lia].
  apply read_varint_Ok in E3 as [? ?]; [|lia].
  repeat match goal with H : checked_add _ _ = Some _ |- _ => apply checked_add_Some in H as [-> ?] end.
  subst h. simpl. lia.
Qed.

Lemma header_returns `{Target} buf pos : returns (decode_entry_header buf pos).
Proof.
  unfold decode_entry_header. destruct (_ <=? _); [done|].
  apply returns_bind; [apply read_varint_returns|intros [s o1] _].
  apply returns_bind; [apply read_varint_returns|intros [u o2] _].
  apply returns_bind; [apply read_varint_returns|intros [v o3] _].
  apply returns_bind; [apply returns_ok_or|intros ke _]. destruct (_ <? _); [done|].
  apply returns_bind; [apply returns_ok_or|intros ve _]. by destruct (_ <? _).
Qed.

(** The key suffix of a decoded header is inside the buffer. *)
Lemma header_suffix `{Target} buf pos h :
  0 <= pos -> decode_entry_header buf pos = Ok h ->
  exists suffix, slice buf (key_offset h) (key_offset h + unshared h) = Some suffix.
Proof.
  intros Hpos Hh. apply header_Ok in Hh; [|done].
  destruct (slice _ _ _) eqn:E; [eauto|]. apply slice_None in E. lia.
Qed.

Lemma decode_entry_at_Ok `{Target} buf pos prev h suffix :
  decode_entry_header buf pos = Ok h -> shared h <= len prev ->
  slice buf (key_offset h) (key_offset h + unshared h) = Some suffix ->
  decode_entry_at buf pos prev =
  Ok (takez (shared h) prev ++ suffix, consumed h, key_offset h + unshared h, value_len h).
Proof.
  intros Hh Hs Hx. unfold decode_entry_at. rewrite Hh.
  destruct (Z.ltb_spec (len prev) (shared h)); [lia|]. by rewrite Hx.
Qed.

Lemma decode_entry_at_inv `{Target} buf pos prev key c vo vl :
  0 <= pos -> decode_entry_at buf pos prev = Ok (key, c, vo, vl) ->
  exists h suffix, decode_entry_header buf pos = Ok h /\ shared h <= len prev /\
    slice buf (key_offset h) (key_offset h + unshared h) = Some suffix /\
    key = takez (shared h) prev ++ suffix /\ c = consumed h /\ 0 < c /\
    vo = key_offset h + unshared h /\ vl = value_len h /\ pos < vo /\ 0 <= vl /\ vo + vl <= len buf.
Proof.
  intros Hpos. unfold decode_entry_at. destruct (decode_entry_header buf pos) as [h| | |] eqn:Hh; try done.
  destruct (Z.ltb_spec (len prev) (shared h)); [done|].
  destruct (header_suffix _ _ _ Hpos Hh) as [suffix Hx]. rewrite Hx. intros [= <- <- <- <-].
  destruct (header_Ok _ _ _ Hpos Hh) as (? & ? & ? & ? & ? & ?).
  exists h, suffix. split_and!; try done; lia.
Qed.

Lemma checked_decodes `{Target} buf pos prev key c :
  0 <= pos -> decode_block_entry_checked buf pos prev = Ok (key, c) ->
  exists vo vl, decode_entry_at buf pos prev = Ok (key, c, vo, vl) /\ 0 < c.
Proof.
  intros Hpos. unfold decode_block_entry_checked. intros (h & Hh & E)%bind_Ok.
  destruct (Z.ltb_spec (len prev) (shared h)); [done|]. apply bind_Ok in E as (kl & _ & E).
  destruct (header_suffix _ _ _ Hpos Hh) as [suffix Hx]. rewrite Hx in E. injection E as <- <-.
  eexists _, _. split; [by apply decode_entry_at_Ok|].
  pose proof (header_Ok _ _ _ Hpos Hh). lia.
Qed.

Lemma checked_returns `{Target} buf pos prev :
  0 <= pos -> returns (decode_block_entry_checked buf pos prev).
Proof.
  intros Hpos. apply returns_bind; [apply header_returns|]. intros h Hh.
  destruct (_ <? _); [done|]. apply returns_bind; [apply returns_ok_or|]. intros _ _.
  destruct (header_suffix _ _ _ Hpos Hh) as [suffix ->]. done.
Qed.

(** ** Validation *)

Lemma validate_entries_spec `{Target} fuel buf req pos prev offs :
  0 <= pos -> validate_entries fuel buf req pos prev = Ok offs ->
  exists es, Entries buf pos prev es /\ map fst es = offs /\
    (req = true -> Forall (fun e => valid_internal_key (entry_key e)) es).
Proof.
  revert pos prev offs. induction fuel as [|fuel IH]; intros pos prev offs Hpos; [done|].
  cbn [validate_entries]. destruct (Z.ltb_spec pos (len buf)) as [Hlt|Hge].
  - intros ([key c] & Hc & E)%bind_Ok.
    destruct (checked_decodes _ _ _ _ _ Hpos Hc) as (vo & vl & Hd & Hc0).
    destruct (req && _) eqn:Ereq; [done|]. apply bind_Ok in E as (offs' & E & [= <-]).
    apply IH in E as (es & Hes & <- & Hreq); [|lia].
    exists ((pos, (key, vo, vl)) :: es). split_and!; [by econstructor|done|].
    intros ->. constructor; [|auto]. apply Z.ltb_ge in Ereq. exact Ereq.
  - intros [= <-]. exists []. split_and!; [by constructor|done|by constructor].
Qed.

Lemma validate_entries_returns `{Target} fuel buf req pos prev :
  0 <= pos <= len buf -> len buf - pos < Z.of_nat fuel ->
  returns (validate_entries fuel buf req pos prev).
Proof.
  revert pos prev. induction fuel as [|fuel IH]; intros pos prev Hpos Hf; [lia|].
  cbn [validate_entries]. destruct (Z.ltb_spec pos (len buf)); [|done].
  apply returns_bind; [apply checked_returns; lia|]. intros [key c] Hc.
  apply checked_decodes in Hc as (vo & vl & Hd & Hc0); [|lia].
  apply decode_entry_at_inv in Hd as (h & sfx & Hh & _ & _ & _ & -> & _); [|lia].
  apply header_Ok in Hh; [|lia]. destruct (_ && _); [done|].
  apply returns_bind; [apply IH; lia|done].
Qed.

Lemma Entries_offsets `{Target} buf pos prev es :
  Entries buf pos prev es -> StronglySorted Z.lt (map fst es) /\
  Forall (fun p => pos <= p < len buf) (map fst es).
Proof.
  induction 1 as [|pos prev key c vo vl es Hpos Hc Hd Hes [IH1 IH2]]; [repeat constructor|].
  simpl. split.
  - constructor; [done|]. eapply List.Forall_impl; [|exact IH2]. simpl. lia.
  - constructor; [lia|]. eapply List.Forall_impl; [|exact IH2]. simpl. lia.
Qed.

Lemma binary_search_ok_In l x :
  StronglySorted Z.lt l -> binary_search_ok l x = true -> In x l.
Proof.
  intros _. unfold binary_search_ok. destruct (getz l _) as [y|] eqn:E; [|done].
  intros ->%Z.eqb_eq. unfold getz in E. destruct (_ <=? _); [|done].
  apply list_elem_of_In, list_elem_of_lookup. eauto.
Qed.

Lemma validate_restarts_spec `{Target} buf offs prev rs :
  len buf <> 0 -> StronglySorted Z.lt offs -> validate_restarts buf offs prev rs = Ok () ->
  StronglySorted Z.lt rs /\ (forall p, prev = Some p -> Forall (fun r => p < r) rs) /\
  Forall (fun r => In r offs /\ exists h, decode_entry_header buf r = Ok h /\ shared h = 0) rs.
Proof.
  intros Hne Hs. revert prev. induction rs as [|r rs IH]; intros prev; cbn [validate_restarts].
  { repeat constructor. }
  destruct (match prev with Some p => r <=? p | None => false end) eqn:Ep; [done|].
  destruct (Z.eqb_spec (len buf) 0); [done|].
  destruct (binary_search_ok offs r) eqn:Eb; [|done]. cbn [negb].
  intros (h & Hh & E)%bind_Ok. destruct (Z.eqb_spec (shared h) 0); [|done]. cbn [negb] in E.
  apply IH in E as (IH1 & IH2 & IH3). specialize (IH2 r eq_refl).
  split_and!.
  - by constructor.
  - intros p ->. apply Z.leb_gt in Ep. constructor; [done|].
    eapply List.Forall_impl; [|exact IH2]. simpl. lia.
  - constructor; [|done]. split; [by apply binary_search_ok_In|eauto].
Qed.

Lemma validate_restarts_returns `{Target} buf offs prev rs :
  returns (validate_restarts buf offs prev rs).
Proof.
  revert prev. induction rs as [|r rs IH]; intros prev; cbn [validate_restarts]; [done|].
  repeat case_match; try done; try apply IH.
  all: apply returns_bind; [apply header_returns|]; intros h _; destruct (shared h =? 0); [apply IH|done].
Qed.

Lemma decode_inner_returns `{Target} raw req : returns (decode_inner raw req).
Proof.
  unfold decode_inner. destruct (Z.ltb_spec (len raw) 4); [done|]. cbn zeta.
  set (nr := from_le _). assert (0 <= nr).
  { apply (from_le_range (dropz (len raw - 4) raw) 4). rewrite len_dropz; lia. }
  destruct (nr =? 0); [done|]. apply returns_bind; [apply returns_ok_or|]. intros rb Hrb.
  apply ok_or_Ok in Hrb. unfold checked_mul in Hrb. destruct (_ <=? usize_max); [|done].
  injection Hrb as <-. destruct (Z.ltb_spec (len raw - 4) (nr * 4)); [done|].
  apply returns_bind; [|done]. apply returns_bind; [|intros offs _].
  - set (buf := takez _ _). pose proof (len_nonneg buf).
    apply validate_entries_returns; unfold len in *; lia.
  - destruct (bool_decide _); [apply validate_restarts_returns|done].
Qed.

Lemma decode_block_ok `{Target} raw b :
  decode_data_block raw = Ok b -> exists es, block_ok b es /\ stamp b = None /\ data b = raw.
Proof.
  unfold decode_data_block, decode_inner. destruct (_ <? 4); [done|]. cbn zeta.
  destruct (_ =? 0); [done|]. intros (rb & _ & E)%bind_Ok. destruct (_ <? rb); [done|].
  apply bind_Ok in E as ([] & Hv & [= <-]).
  apply bind_Ok in Hv as (offs & Hoffs & Hr).
  destruct (bool_decide _) eqn:Eh; [|done]. apply bool_decide_eq_true in Eh.
  apply validate_entries_spec in Hoffs as (es & Hes & <- & Hk); [|done].
  exists es. split; [|done]. destruct (Entries_offsets _ _ _ _ Hes) as [Hso _].
  split; simpl; auto; [by left|]. intros Hne.
  apply validate_restarts_spec in Hr as (H1 & _ & H3); [auto| |done].
  intros Hlen. destruct Hes; [done|]. lia.
Qed.

Lemma stamped_block_ok `{Target} b es seq : block_ok b es -> block_ok (stamped b seq) es.
Proof. intros []. split; auto. right. by exists seq. Qed.

(** ** Walking *)

Lemma swap_read s key :
  stamp_wf (Some s) -> valid_internal_key key ->
  exists stored, Stamp.swap key s = Ok (read_key (Some s) key, stored) /\
    Stamp.swap (read_key (Some s) key) stored = Ok (key, s).
Proof.
  intros [?|[seq [= ->]]] Hk; [done|]. apply valid_is_encoded in Hk as (uk & x & t & _ & ->).
  exists (to_be 8 (u64_not x)). by rewrite read_key_encoded, !swap_encoded.
Qed.

Section Walk.
Context `{Target} {St R : Type} (f : St -> bytes -> Z -> Z -> St * option R).
Context (buf : bytes) (stamp : option bytes) (target : bytes) (Hstamp : stamp_wf stamp).

Lemma walk_visits fuel pos prev es st :
  Entries buf pos prev es -> Forall (fun e => valid_internal_key (entry_key e)) es ->
  0 <= pos -> 0 < Z.of_nat fuel -> len buf - pos < Z.of_nat fuel ->
  walk_loop f fuel buf stamp target pos prev false st = Ok (visit f stamp st es).
Proof.
  intros Hes. revert fuel st.
  induction Hes as [pos prev Hp|pos prev key c vo vl es Hp Hc Hd Hes IH];
    intros [|fuel] st Hk Hpos Hf0 Hf; try lia; cbn [walk_loop].
  { destruct (Z.ltb_spec pos (len buf)); [lia|done]. }
  destruct (Z.ltb_spec pos (len buf)); [|lia]. rewrite Hd. cbn [mbind outcome_bind visit].
  inversion_clear Hk as [|? ? Hk1 Hk2]. unfold entry_key in Hk1. simpl in Hk1.
  destruct stamp as [s|].
  - destruct (swap_read s key Hstamp Hk1) as (stored & Hsw & Hback). rewrite Hsw. cbn [mbind outcome_bind].
    destruct (f st _ vo vl) as [st' [r|]]; [done|]. rewrite Hback. cbn [mbind outcome_bind]. apply IH; auto; lia.
  - destruct (f st key vo vl) as [st' [r|]] eqn:Ef; cbn [read_key]; rewrite Ef; [done|]. apply IH; auto; lia.
Qed.

Lemma walk_skips fuel pos prev es st :
  Entries buf pos prev es -> Forall (fun e => valid_internal_key (entry_key e)) es ->
  valid_internal_key target ->
  0 <= pos -> 0 < Z.of_nat fuel -> len buf - pos < Z.of_nat fuel ->
  walk_loop f fuel buf stamp target pos prev true st =
  Ok (visit f stamp st (from_target stamp target es)).
Proof.
  intros Hes Hk Ht. revert Hk fuel st.
  induction Hes as [pos prev Hp|pos prev key c vo vl es Hp Hc Hd Hes IH];
    intros Hk [|fuel] st Hpos Hf0 Hf; try lia; cbn [walk_loop].
  { destruct (Z.ltb_spec pos (len buf)); [lia|done]. }
  destruct (Z.ltb_spec pos (len buf)); [|lia]. rewrite Hd. cbn [mbind outcome_bind].
  pose proof Hk as Hkall. inversion_clear Hk as [|? ? Hk1 Hk2]. unfold entry_key in Hk1.
  simpl in Hk1. rewrite compare_read by done. cbn [from_target].
  destruct (at_or_after stamp target (pos, (key, vo, vl))) eqn:Ea.
  - rewrite <- (walk_visits (S fuel) pos prev ((pos, (key, vo, vl)) :: es) st);
      [|by apply (Entries_step buf pos prev key c)|done|lia..].
    cbn [walk_loop]. destruct (Z.ltb_spec pos (len buf)); [|lia]. rewrite Hd.
    cbn [mbind outcome_bind]. unfold at_or_after, entry_key in Ea. simpl in Ea.
    by destruct (compare_internal_keys (read_key stamp key) target).
  - unfold at_or_after, entry_key in Ea. simpl in Ea.
    destruct (compare_internal_keys (read_key stamp key) target); try done.
    apply IH; auto; lia.
Qed.

End Walk.

(** ** Restart points *)

Lemma Entries_from_restart `{Target} buf pos prev es r h :
  Entries buf pos prev es -> In r (map fst es) ->
  decode_entry_header buf r = Ok h -> shared h = 0 ->
  exists es1 e es2, es = es1 ++ (r, e) :: es2 /\ Entries buf r [] ((r, e) :: es2).
Proof.
  intros Hes Hin Hh Hsh. induction Hes as [|pos prev key c vo vl es Hp Hc Hd Hes IH]; [done|].
  destruct Hin as [<-|Hin].
  - simpl in Hh. exists [], (key, vo, vl), es. split; [done|].
    destruct (decode_entry_at_inv _ _ _ _ _ _ _ (proj1 Hp) Hd)
      as (h' & sfx & Hh' & _ & Hx & -> & -> & _ & -> & -> & _).
    rewrite Hh in Hh'. injection Hh' as <-. rewrite Hsh in *. rewrite takez_0 in *. simpl in *.
    apply (Entries_step buf pos [] sfx (consumed h)); auto.
    rewrite (decode_entry_at_Ok _ _ _ h sfx); auto; [by rewrite Hsh|]. rewrite Hsh. done.
  - destruct (IH Hin) as (es1 & e & es2 & -> & Hes2).
    by exists ((pos, (key, vo, vl)) :: es1), e, es2.
Qed.

Lemma sorted_by_both {A} (R1 R2 : A -> A -> Prop) l x y :
  StronglySorted R1 l -> StronglySorted R2 l -> In x l -> In y l ->
  (forall a b, R1 a b -> R1 b a -> False) -> R1 x y -> R2 x y.
Proof.
  intros H1 H2 Hx Hy Hanti Hxy. revert Hx Hy H2.
  induction H1 as [|a l H1 IH Hall]; intros Hx Hy H2; [done|].
  inversion_clear H2 as [|? ? H2' Hall2]. rewrite List.Forall_forall in Hall, Hall2.
  destruct Hx as [->|Hx], Hy as [->|Hy]; eauto; exfalso; eauto.
Qed.

Lemma at_or_after_mono stamp target a b :
  stamp_wf stamp -> valid_internal_key target ->
  valid_internal_key (entry_key a) -> valid_internal_key (entry_key b) ->
  compare_internal_keys (read_key stamp (entry_key a)) (read_key stamp (entry_key b)) = Lt ->
  at_or_after stamp target b = false -> at_or_after stamp target a = false.
Proof.
  intros Hs Ht Ha Hb Hlt. unfold at_or_after.
  destruct (compare_internal_keys (read_key stamp (entry_key b)) target) eqn:E; try done.
  intros _. rewrite (cmp_trans _ (read_key stamp (entry_key b)) target);
    eauto using read_key_valid.
Qed.

Lemma from_target_filter stamp target es :
  stamp_wf stamp -> valid_internal_key target ->
  Forall (fun e => valid_internal_key (entry_key e)) es -> entries_sorted stamp es ->
  from_target stamp target es = List.filter (at_or_after stamp target) es.
Proof.
  intros Hst Ht Hk Hs. induction Hs as [|e es Hs IH Hall]; [done|].
  inversion_clear Hk as [|? ? He Hes]. simpl.
  destruct (at_or_after stamp target e) eqn:Ea; [|auto].
  f_equal. symmetry. apply List.forallb_filter_id, forallb_forall. intros x Hx.
  rewrite List.Forall_forall in Hall, Hes. destruct (at_or_after stamp target x) eqn:Ex; [done|].
  rewrite (at_or_after_mono stamp target e x) in Ea; auto.
Qed.

Section Restarts.
Context `{Target} (b : Block) (es : list (Z * entry)) (target : bytes).
Context (Hok : block_ok b es) (Hne : es <> []) (Ht : valid_internal_key target).
(** The entry a restart offset starts, and what probing it answers. *)
Lemma restart_probe i r :
  getz (restarts b) i = Some r ->
  exists es1 e es2, es = es1 ++ (r, e) :: es2 /\ Entries (entry_data b) r [] ((r, e) :: es2) /\
    restart_below b target i = Ok (negb (at_or_after (stamp b) target (r, e))).
Proof.
  intros Hr. destruct (ok_restarts _ _ Hok Hne) as (_ & _ & Hall).
  rewrite List.Forall_forall in Hall.
  assert (Hin : In r (restarts b)).
  { unfold getz in Hr. destruct (_ <=? _); [|done].
    apply list_elem_of_In, list_elem_of_lookup. eauto. }
  destruct (Hall r Hin) as (Hfst & h & Hh & Hsh).
  destruct (Entries_from_restart _ _ _ _ _ _ (ok_entries _ _ Hok) Hfst Hh Hsh)
    as (es1 & e & es2 & -> & Hes2).
  exists es1, e, es2. split_and!; [done..|].
  unfold restart_below. rewrite Hr. cbn [expect mbind outcome_bind]. rewrite Hh.
  inversion Hes2 as [|? ? key c vo vl ? Hp Hc Hd Htl E1]; subst.
  destruct (decode_entry_at_inv _ _ _ _ _ _ _ (proj1 Hp) Hd)
    as (h' & sfx & Hh' & _ & Hx & -> & _).
  rewrite Hh in Hh'. injection Hh' as <-. rewrite Hx, Hsh, takez_0 in *.
  cbn [expect mbind outcome_bind app].
  pose proof (ok_keys _ _ Hok) as Hk. rewrite List.Forall_forall in Hk.
  specialize (Hk _ (in_elt _ _ _)). unfold entry_key in Hk. simpl in Hk.
  rewrite compare_read; [|apply (ok_stamp _ _ Hok)|done]. cbn [mbind outcome_bind].
  unfold at_or_after, entry_key. simpl.
  by destruct (compare_internal_keys (read_key (stamp b) sfx) target).
Qed.

Definition probe_answer (i : Z) : bool :=
  match restart_below b target i with Ok x => x | _ => false end.

Lemma restart_search_bsearch fuel fuel' left right :
  0 <= left -> right <= len (restarts b) -> 0 < Z.of_nat fuel -> right - left < Z.of_nat fuel ->
  (Z.to_nat (right - left) <= fuel')%nat ->
  restart_search fuel b target left right = Ok (bsearch fuel' probe_answer left right).
Proof.
  revert fuel' left right. induction fuel as [|fuel IH]; intros fuel' left right Hl Hr H0 Hf Hf';
    [lia|].
  cbn [restart_search]. destruct (Z.ltb_spec left right) as [Hlt|Hge].
  2:{ destruct fuel'; cbn [bsearch]; [done|]. by destruct (Z.ltb_spec left right); [lia|]. }
  destruct fuel' as [|fuel']; [lia|]. cbn [bsearch].
  destruct (Z.ltb_spec left right); [|lia]. cbn zeta.
  pose proof (Z.div_mod (right - left) 2 ltac:(lia)).
  pose proof (Z.mod_pos_bound (right - left) 2 ltac:(lia)).
  set (mid := left + (right - left) / 2) in *.
  destruct (getz_is_Some (restarts b) mid) as [r Hr']; [lia|].
  destruct (restart_probe mid r Hr') as (es1 & e & es2 & _ & _ & Hb).
  assert (probe_answer mid = negb (at_or_after (stamp b) target (r, e))) as ->
    by (unfold probe_answer; by rewrite Hb).
  rewrite Hb. cbn [mbind outcome_bind]. destruct (negb _); apply IH; lia.
Qed.

Lemma in_es es1 e es2 : es = es1 ++ e :: es2 -> In e es.
Proof. intros ->. apply in_elt. Qed.

Lemma probe_answer_mono i j :
  entries_sorted (stamp b) es -> 0 <= i <= j -> j < len (restarts b) -> probe_answer j = true -> probe_answer i = true.
Proof.
  intros Hsorted Hij Hj. destruct (Z.eq_dec i j) as [->|]; [done|].
  destruct (getz_is_Some (restarts b) i) as [ri Hri]; [lia|].
  destruct (getz_is_Some (restarts b) j) as [rj Hrj]; [lia|].
  destruct (restart_probe i ri Hri) as (? & ei & ? & Ei & _ & Hbi).
  destruct (restart_probe j rj Hrj) as (? & ej & ? & Ej & _ & Hbj).
  apply in_es in Ei, Ej. unfold probe_answer. rewrite Hbi, Hbj, !negb_true_iff.
  destruct (ok_restarts _ _ Hok Hne) as (Hrs & _).
  assert (Hlt : ri < rj).
  { apply (sorted_getz Z.lt (restarts b) i j); [done..|lia]. }
  pose proof (ok_keys _ _ Hok) as Hk. rewrite List.Forall_forall in Hk.
  apply at_or_after_mono; auto; [apply (ok_stamp _ _ Hok)|].
  apply (sorted_by_both (fun a b => a.1 < b.1)
    (fun a b' => compare_internal_keys (read_key (stamp b) (entry_key a))
                  (read_key (stamp b) (entry_key b')) = Lt) es); auto; [|simpl; lia].
  destruct (Entries_offsets _ _ _ _ (ok_entries _ _ Hok)) as [Hoffs _].
  clear - Hoffs. induction es as [|x l IH]; [constructor|]. simpl in Hoffs.
  inversion_clear Hoffs as [|? ? H1 H2]. constructor; [auto|]. by rewrite Forall_map in H2.
Qed.

(** The start of the walk: a suffix of the entries, and in a sorted block
    everything before it is below the target. *)
Lemma restart_start_spec :
  exists es1 es2 pos, es = es1 ++ es2 /\ restart_start_for b target = Ok pos /\ 0 <= pos /\
    Entries (entry_data b) pos [] es2 /\
    (entries_sorted (stamp b) es -> Forall (fun e => at_or_after (stamp b) target e = false) es1).
Proof.
  pose proof (ok_entries _ _ Hok) as Hes.
  assert (Hlen : 0 < len (entry_data b)) by (destruct Hes; [done|lia]).
  unfold restart_start_for. destruct (Z.eqb_spec (len (entry_data b)) 0); [lia|].
  rewrite (restart_search_bsearch _ (Z.to_nat (len (restarts b)))); try (unfold len in *; lia).
  cbn [mbind outcome_bind].
  pose proof (bsearch_range (Z.to_nat (len (restarts b))) probe_answer 0 (len (restarts b))
    (len_nonneg _)) as Hr.
  pose proof (fun Hs => partition_index_spec (len (restarts b)) probe_answer (len_nonneg _)
    (fun i j => probe_answer_mono i j Hs)) as Hbelow.
  unfold partition_index in Hbelow. set (left := bsearch _ _ _ _) in *.
  destruct (Z.ltb_spec 0 left) as [Hpos|Hz]; [|exists [], es, 0; split_and!; auto; lia].
  destruct (getz_is_Some (restarts b) (left - 1)) as [r Hr']; [lia|].
  rewrite Hr'. cbn [expect].
  destruct (restart_probe _ _ Hr') as (es1 & e & es2 & Ees & Hes2 & Hb).
  exists es1, ((r, e) :: es2), r. split_and!; auto; [inversion Hes2; subst; lia|].
  intros Hs. destruct (Hbelow Hs) as (_ & Hbl & _). specialize (Hbl (left - 1) ltac:(lia)).
  unfold probe_answer in Hbl. rewrite Hb, negb_true_iff in Hbl.
  unfold entries_sorted in Hs. rewrite Ees in Hs. apply sorted_app in Hs as (_ & _ & Hs).
  pose proof (ok_keys _ _ Hok) as Hk. rewrite List.Forall_forall in Hk.
  apply List.Forall_forall. intros x Hx.
  apply (at_or_after_mono _ _ x (r, e)); auto; [apply (ok_stamp _ _ Hok)|..].
  - apply Hk. rewrite Ees. apply in_or_app. by left.
  - apply Hk. rewrite Ees. apply in_elt.
  - apply Hs; [done|by left].
Qed.

End Restarts.

(** Every scan of a validated block walks a suffix of its entries to the end;
    over sorted keys it visits exactly those at or after the target. *)
Lemma scan_from_visits `{Target} {St R} (f : St -> bytes -> Z -> Z -> St * option R) b es target st :
  block_ok b es -> valid_internal_key target ->
  exists es1 es2, es = es1 ++ es2 /\
    scan_from f b target st = Ok (visit f (stamp b) st (from_target (stamp b) target es2)) /\
    (entries_sorted (stamp b) es ->
     from_target (stamp b) target es2 = List.filter (at_or_after (stamp b) target) es).
Proof.
  intros Hok Ht. pose proof (len_nonneg (entry_data b)).
  pose proof (ok_entries _ _ Hok) as Hes. pose proof (ok_keys _ _ Hok) as Hk.
  destruct (decide (es = [])) as [->|Hne].
  { exists [], []. split_and!; try done. unfold scan_from, restart_start_for.
    inversion Hes. destruct (Z.eqb_spec (len (entry_data b)) 0); [|lia].
    cbn [mbind outcome_bind walk_loop]. by destruct (Z.ltb_spec 0 (len (entry_data b))); [lia|]. }
  destruct (restart_start_spec b es target Hok Hne Ht) as (es1 & es2 & pos & E & Hp & Hpos & He2 & Hs).
  exists es1, es2. split; [done|]. rewrite E in Hk. apply Forall_app in Hk as [_ Hk2]. split.
  - unfold scan_from. rewrite Hp. cbn [mbind outcome_bind].
    apply walk_skips; auto; [apply (ok_stamp _ _ Hok)|unfold len in *; lia..].
  - intros Hso. specialize (Hs Hso). rewrite E in *. unfold entries_sorted in Hso.
    apply sorted_app in Hso as (_ & Hso & _).
    rewrite from_target_filter, List.filter_app; auto; [|apply (ok_stamp _ _ Hok)].
    clear - Hs. induction Hs as [|x l Hx _ IH]; [done|]. simpl. by rewrite Hx.
Qed.

(** ** The builder *)

Lemma shared_prefix_range a b :
  0 <= BlockBuilder.shared_prefix a b <= len a /\ BlockBuilder.shared_prefix a b <= len b.
Proof.
  revert b. induction a as [|x a IH]; intros [|y b]; simpl; try llia.
  destruct (bool_decide _); [specialize (IH b)|]; llia.
Qed.

Lemma shared_prefix_take a b :
  takez (BlockBuilder.shared_prefix a b) a = takez (BlockBuilder.shared_prefix a b) b.
Proof.
  revert b. induction a as [|x a IH]; intros [|y b]; try done; simpl.
  destruct (bool_decide_reflect (x = y)) as [->|]; [|done].
  specialize (IH b). pose proof (shared_prefix_range a b). unfold takez in *.
  replace (Z.to_nat (1 + _)) with (S (Z.to_nat (BlockBuilder.shared_prefix a b))) by lia.
  simpl. by rewrite IH.
Qed.

Lemma read_varint_loop_app `{Target} n buf ext i acc offset r :
  read_varint_loop n buf i acc offset = Ok r -> read_varint_loop n (buf ++ ext) i acc offset = Ok r.
Proof.
  revert i acc offset. induction n as [|n IH]; intros i acc offset; [done|].
  cbn [read_varint_loop].
  destruct (getz buf offset) as [x|] eqn:E; [|done].
  assert (getz (buf ++ ext) offset = Some x) as ->.
  { unfold getz in *. destruct (0 <=? offset); [|done]. by apply lookup_app_l_Some. }
  repeat case_match; auto; done.
Qed.

Lemma read_varint_app `{Target} buf ext offset r :
  read_varint buf offset = Ok r -> read_varint (buf ++ ext) offset = Ok r.
Proof. apply read_varint_loop_app. Qed.

Lemma header_app `{Target} buf ext pos h :
  decode_entry_header buf pos = Ok h -> decode_entry_header (buf ++ ext) pos = Ok h.
Proof.
  unfold decode_entry_header. destruct (Z.leb_spec (len buf) pos); [done|].
  intros ([s o1] & Hs & ([u o2] & Hu & ([v o3] & Hw & (ke & Hke & E)%bind_Ok)%bind_Ok)%bind_Ok)%bind_Ok.
  destruct (Z.ltb_spec (len buf) ke); [done|]. apply bind_Ok in E as (ve & Hve & E).
  destruct (Z.ltb_spec (len buf) ve); [done|].
  pose proof (len_nonneg ext). destruct (Z.leb_spec (len (buf ++ ext)) pos); [llia|].
  rewrite (read_varint_app _ _ _ _ Hs). cbn [mbind outcome_bind].
  rewrite (read_varint_app _ _ _ _ Hu). cbn [mbind outcome_bind].
  rewrite (read_varint_app _ _ _ _ Hw). cbn [mbind outcome_bind].
  rewrite Hke. cbn [mbind outcome_bind]. destruct (Z.ltb_spec (len (buf ++ ext)) ke); [llia|].
  rewrite Hve. cbn [mbind outcome_bind]. by destruct (Z.ltb_spec (len (buf ++ ext)) ve); [llia|].
Qed.

Lemma decode_entry_at_app `{Target} buf ext pos prev r :
  0 <= pos -> decode_entry_at buf pos prev = Ok r -> decode_entry_at (buf ++ ext) pos prev = Ok r.
Proof.
  intros Hpos. destruct r as [[[key c] vo] vl]. intros Hd.
  apply decode_entry_at_inv in Hd as (h & sfx & Hh & Hs & Hx & -> & -> & _ & -> & -> & _); [|done].
  apply decode_entry_at_Ok; [by apply header_app|done|by apply slice_prefix].
Qed.

Definition end_key (prev : bytes) (es : list (Z * entry)) : bytes :=
  List.last (map entry_key es) prev.

Lemma last_indep {A} (l : list A) x y a : List.last (a :: l) x = List.last (a :: l) y.
Proof. revert a. induction l as [|b l IH]; intros a; [done|]. apply (IH b). Qed.

Lemma Entries_snoc `{Target} buf ext pos prev es key c vo vl :
  Entries buf pos prev es -> pos <= len buf -> 0 <= pos -> c = len ext -> 0 < c ->
  decode_entry_at (buf ++ ext) (len buf) (end_key prev es) = Ok (key, c, vo, vl) ->
  Entries (buf ++ ext) pos prev (es ++ [(len buf, (key, vo, vl))]).
Proof.
  intros Hes. induction Hes as [pos prev Hp|pos prev k' c' vo' vl' es Hp Hc Hd Hes IH];
    intros Hle H0 Ec Hc0 Hn.
  - assert (pos = len buf) as -> by lia. simpl. apply (Entries_step _ _ _ _ c); auto; [llia|].
    apply Entries_end. llia.
  - simpl. apply (Entries_step _ _ _ _ c'); auto; [llia|by apply decode_entry_at_app|].
    apply IH; auto; try lia.
    + apply decode_entry_at_inv in Hd as (h & ? & Hh & _ & _ & _ & -> & _); [|done].
      apply header_Ok in Hh; [|done]. lia.
    + unfold end_key in *. destruct es as [|e es]; [done|].
      cbn [map] in *. by rewrite (last_indep _ k' prev).
Qed.

Lemma header_encoded `{Target} pre s u v k value pos :
  pos = len pre -> 0 <= s <= usize_max -> u = len k -> v = len value ->
  let ext := encode_varint s ++ encode_varint u ++ encode_varint v ++ k ++ value in
  len (pre ++ ext) <= usize_max ->
  exists ko, decode_entry_header (pre ++ ext) pos = Ok (mkEntryHeader s u v ko (len ext)) /\
    ko = len pre + len (encode_varint s) + len (encode_varint u) + len (encode_varint v) /\
    0 < len ext.
Proof.
  intros -> Hs -> -> ext Hlen. pose proof (encode_varint_len s). eexists.
  split_and!; [|done|unfold ext; llia].
  unfold decode_entry_header. destruct (Z.leb_spec (len (pre ++ ext)) (len pre)).
  { unfold ext in *. llia. }
  unfold ext in *. rewrite read_varint_encoded by done. cbn [mbind outcome_bind].
  replace (pre ++ encode_varint s ++ encode_varint (len k) ++ encode_varint (len value) ++ k ++ value)
    with ((pre ++ encode_varint s) ++ encode_varint (len k) ++ (encode_varint (len value) ++ k ++ value))
    by by rewrite <- !app_assoc.
  rewrite read_varint_encoded by llia. cbn [mbind outcome_bind].
  rewrite (app_assoc _ (encode_varint (len k))).
  rewrite read_varint_encoded by llia. cbn [mbind outcome_bind].
  rewrite <- !app_assoc. unfold checked_add. zrun. f_equal. f_equal. llia.
Qed.

(** The builder's invariant: its buffer holds the entries added, and every
    restart is the offset of an entry that shares no prefix. *)
Record builder_ok `{Target} (b : BlockBuilder) (kvs : list (bytes * bytes))
  (es : list (Z * entry)) : Prop := {
  bo_entries : Entries (bb_buffer b) 0 [] es;
  bo_kvs : map (entry_kv (bb_buffer b)) es = map (fun kv => (kv.1, Some kv.2)) kvs;
  bo_count : entry_count b = len es;
  bo_last : last_key b = end_key [] es;
  bo_sorted : StronglySorted Z.lt (bb_restarts b);
  bo_head : head (bb_restarts b) = Some 0;
  bo_empty : es = [] -> bb_restarts b = [0];
  bo_restarts : es <> [] ->
    Forall (fun r => In r (map fst es) /\
      exists h, decode_entry_header (bb_buffer b) r = Ok h /\ shared h = 0) (bb_restarts b);
}.

(** The parts of one [add]: the entry it appends. *)
Lemma add_entry `{Target} b key value :
  let b' := BlockBuilder.add b key value in
  len (bb_buffer b') <= usize_max -> len key <= usize_max ->
  exists ext ko sh,
    bb_buffer b' = bb_buffer b ++ ext /\ 0 < len ext /\ 0 <= sh <= len (last_key b) /\
    takez sh (last_key b) ++ dropz sh key = key /\
    decode_entry_header (bb_buffer b') (len (bb_buffer b)) =
      Ok (mkEntryHeader sh (len key - sh) (len value) ko (len ext)) /\
    slice (bb_buffer b') ko (ko + (len key - sh)) = Some (dropz sh key) /\
    slice (bb_buffer b') (ko + (len key - sh)) (ko + (len key - sh) + len value) = Some value /\
    (bb_restarts b' = bb_restarts b ++ [as_u32 (len (bb_buffer b))] /\ 0 < entry_count b /\ sh = 0 \/
     bb_restarts b' = bb_restarts b).
Proof.
  unfold BlockBuilder.add. cbn zeta.
  set (rst := BlockBuilder.is_multiple_of _ _ && _).
  set (sh := if rst then 0 else _). cbn [bb_buffer bb_restarts]. intros Hlen Hk.
  pose proof (shared_prefix_range (last_key b) key) as [Hsp1 Hsp2].
  pose proof (shared_prefix_take (last_key b) key) as Hspt.
  pose proof (len_nonneg (last_key b)). pose proof (len_nonneg key).
  assert (Hsh : 0 <= sh <= len (last_key b) /\ sh <= len key) by (unfold sh; destruct rst; lia).
  assert (Htk : takez sh (last_key b) ++ dropz sh key = key).
  { unfold sh in *. destruct rst; [by rewrite takez_0, dropz_0|]. rewrite Hspt. apply takez_dropz. }
  assert (Hdz : len key - sh = len (dropz sh key)) by (rewrite len_dropz; lia).
  eexists _. destruct (header_encoded (bb_buffer b) sh (len key - sh) (len value) (dropz sh key) value
    (len (bb_buffer b))) as (ko & Hh & Hko & Hpos); auto; [lia|].
  exists ko, sh. split_and!; try done; try lia; try exact Hh.
  - eapply (slice_at _ (bb_buffer b ++ encode_varint sh ++ encode_varint (len key - sh) ++
      encode_varint (len value)) _ value); [by rewrite <- !app_assoc|llia..].
  - eapply (slice_at _ (bb_buffer b ++ encode_varint sh ++ encode_varint (len key - sh) ++
      encode_varint (len value) ++ dropz sh key) _ []); [|llia..].
    by rewrite app_nil_r, <- !app_assoc.
  - unfold sh, rst in *. destruct (BlockBuilder.is_multiple_of _ _); [|by right].
    cbn [andb] in *. destruct (Z.ltb_spec 0 (entry_count b)); [left; auto|by right].
Qed.

Lemma entry_kv_app buf ext es (kvs : list (bytes * bytes)) :
  map (entry_kv buf) es = map (fun kv => (kv.1, Some kv.2)) kvs ->
  map (entry_kv (buf ++ ext)) es = map (fun kv => (kv.1, Some kv.2)) kvs.
Proof.
  revert kvs. induction es as [|[p [[k vo] vl]] es IH]; intros [|[k' v] kvs]; simpl; try done.
  intros [= -> Hv E]. rewrite (slice_prefix _ _ _ _ _ Hv). f_equal. auto.
Qed.

Lemma new_builder_ok `{Target} ri : builder_ok (BlockBuilder.new ri) [] [].
Proof. split; simpl; try done; [by apply Entries_end|repeat constructor]. Qed.

(** Appending an entry leaves every restart the offset of an entry that shares
    no prefix. *)
Lemma restarts_extended `{Target} b kvs es ext sh e u v ko buf c :
  builder_ok b kvs es -> buf = bb_buffer b ++ ext -> 0 <= sh <= len (last_key b) ->
  decode_entry_header buf (len (bb_buffer b)) = Ok (mkEntryHeader sh u v ko c) ->
  Forall (fun r => In r (map fst (es ++ [(len (bb_buffer b), e)])) /\
    exists h, decode_entry_header buf r = Ok h /\ shared h = 0) (bb_restarts b).
Proof.
  intros Hb -> Hsh Hh. destruct (decide (es = [])) as [->|Hne].
  - rewrite (bo_empty _ _ _ Hb eq_refl). constructor; [|done].
    pose proof (bo_entries _ _ _ Hb) as He. inversion He as [? ? Hz|]; subst.
    pose proof (len_nonneg (bb_buffer b)). replace (len (bb_buffer b)) with 0 in * by lia.
    split; [by left|]. eexists. split; [exact Hh|]. simpl.
    rewrite (bo_last _ _ _ Hb) in Hsh. unfold end_key in Hsh. simpl in Hsh. llia.
  - eapply List.Forall_impl; [|exact (bo_restarts _ _ _ Hb Hne)]. intros r (Hin & h & Hd' & Hs).
    split; [rewrite map_app; apply in_or_app; by left|]. exists h. split; [|done].
    by apply header_app.
Qed.

Lemma add_builder_ok `{Target} b kvs es key value :
  builder_ok b kvs es -> len key <= usize_max ->
  len (bb_buffer (BlockBuilder.add b key value)) <= U32_MAX ->
  exists e, builder_ok (BlockBuilder.add b key value) (kvs ++ [(key, value)]) (es ++ [e]).
Proof.
  intros Hb Hk Hlen. pose proof usize_max_range. unfold U32_MAX in Hlen.
  destruct (add_entry b key value) as (ext & ko & sh & Ebuf & Hext & Hsh & Hkey & Hh & Hsl & Hv & Hr);
    [lia|done|].
  set (b' := BlockBuilder.add b key value) in *.
  pose proof (Entries_offsets _ _ _ _ (bo_entries _ _ _ Hb)) as [_ Hoffs].
  assert (Hd : decode_entry_at (bb_buffer b') (len (bb_buffer b)) (end_key [] es) =
    Ok (key, len ext, ko + (len key - sh), len value)).
  { rewrite <- (bo_last _ _ _ Hb). erewrite decode_entry_at_Ok; [|exact Hh|simpl; lia|exact Hsl].
    simpl. by rewrite Hkey. }
  exists (len (bb_buffer b), (key, ko + (len key - sh), len value)).
  pose proof (fun e => restarts_extended b kvs es ext sh e _ _ _ _ _ Hb Ebuf Hsh Hh) as Hall.
  pose proof (as_u32_small (len (bb_buffer b))) as Has. unfold is_u32 in Has.
  pose proof (len_nonneg (bb_buffer b)). rewrite Has in Hr by (rewrite Ebuf in Hlen; llia).
  split.
  - rewrite Ebuf. eapply Entries_snoc; eauto; [apply (bo_entries _ _ _ Hb)|lia..|].
    by rewrite <- Ebuf.
  - rewrite !map_app. cbn [map entry_kv]. rewrite Hv. f_equal. rewrite Ebuf.
    apply entry_kv_app, (bo_kvs _ _ _ Hb).
  - simpl. rewrite (bo_count _ _ _ Hb). llia.
  - unfold end_key. rewrite map_app. simpl. by rewrite last_last.
  - destruct Hr as [(-> & Hc & _)| ->]; [|apply (bo_sorted _ _ _ Hb)].
    apply sorted_app. split_and!; [apply (bo_sorted _ _ _ Hb)|repeat constructor|].
    intros x y Hx [<-|[]]. rewrite (bo_count _ _ _ Hb) in Hc.
    assert (Hne : es <> []) by (intros ->; unfold len in Hc; simpl in Hc; lia).
    pose proof (bo_restarts _ _ _ Hb Hne) as Hrs. rewrite List.Forall_forall in Hrs, Hoffs.
    destruct (Hrs x Hx) as [Hin _]. apply Hoffs in Hin. lia.
  - pose proof (bo_head _ _ _ Hb). destruct Hr as [(-> & _)| ->]; [|done].
    destruct (bb_restarts b); done.
  - intros E. by destruct es.
  - intros _. destruct Hr as [(-> & _ & ->)| ->]; [|apply Hall]. apply Forall_app. split; [apply Hall|].
    constructor; [|done]. split; [rewrite map_app; apply in_or_app; right; by left|].
    eexists. split; [exact Hh|done].
Qed.

Lemma add_all_ok `{Target} ri kvs :
  Forall (fun kv => len kv.1 <= usize_max) kvs ->
  len (bb_buffer (BlockBuilder.add_all (BlockBuilder.new ri) kvs)) <= U32_MAX ->
  exists es, builder_ok (BlockBuilder.add_all (BlockBuilder.new ri) kvs) kvs es.
Proof.
  induction kvs as [|[k v] kvs IH] using rev_ind; intros Hk Hlen.
  { exists []. apply new_builder_ok. }
  apply Forall_app in Hk as [Hk Hkv]. inversion_clear Hkv as [|? ? Hk1 _]. simpl in Hk1.
  unfold BlockBuilder.add_all in *. rewrite fold_left_app in *. simpl in Hlen |- *.
  set (b := fold_left _ kvs _) in *.
  destruct IH as [es Hes]; [done|rewrite len_app in Hlen; llia|].
  destruct (add_builder_ok b kvs es k v Hes Hk1 Hlen) as [e He]. by exists (es ++ [e]).
Qed.

Lemma checked_complete `{Target} buf pos prev key c vo vl :
  0 <= pos -> len key <= usize_max -> decode_entry_at buf pos prev = Ok (key, c, vo, vl) ->
  decode_block_entry_checked buf pos prev = Ok (key, c).
Proof.
  intros Hpos Hk Hd.
  apply decode_entry_at_inv in Hd as (h & sfx & Hh & Hs & Hx & -> & -> & _); [|done].
  pose proof (header_Ok _ _ _ Hpos Hh). pose proof (slice_len _ _ _ _ Hx).
  unfold decode_block_entry_checked. rewrite Hh. run. ztest. unfold checked_add.
  rewrite len_app, len_takez in Hk by lia. ztest. run. by rewrite Hx.
Qed.

Lemma validate_entries_complete `{Target} fuel buf req pos prev es :
  Entries buf pos prev es ->
  Forall (fun e => valid_internal_key (entry_key e) /\ len (entry_key e) <= usize_max) es ->
  0 <= pos -> 0 < Z.of_nat fuel -> len buf - pos < Z.of_nat fuel ->
  validate_entries fuel buf req pos prev = Ok (map fst es).
Proof.
  intros Hes. revert fuel. induction Hes as [pos prev Hp|pos prev key c vo vl es Hp Hc Hd Hes IH];
    intros [|fuel] Hk Hpos Hf0 Hf; try lia; cbn [validate_entries]; ztest; [done|].
  inversion_clear Hk as [|? ? [Hv Hl] Hk']. unfold entry_key in Hv, Hl. simpl in Hv, Hl.
  rewrite (checked_complete _ _ _ key c vo vl) by (done || lia). run.
  unfold valid_internal_key in Hv. destruct (Z.ltb_spec (len key) INTERNAL_KEY_SUFFIX_LEN); [lia|].
  rewrite andb_false_r. rewrite IH by (done || lia). done.
Qed.

Lemma binary_search_complete l x :
  StronglySorted Z.lt l -> In x l -> binary_search_ok l x = true.
Proof.
  intros Hs Hin. apply In_getz in Hin as [i Hi]. unfold binary_search_ok.
  destruct (partition_point_spec (fun y => y <? x) l) as (Hr & Hlo & Hhi).
  { intros a c y z Hac Hy Hz. pose proof (sorted_getz Z.lt _ _ _ _ _ Hs Hy Hz Hac). lia. }
  set (r := partition_point _ l) in *.
  assert (r = i) as ->; [|rewrite Hi; apply Z.eqb_refl].
  destruct (Z.lt_trichotomy r i) as [Hlt|[->|Hgt]]; [|done|].
  - pose proof (getz_Some_lt _ _ _ Hi). destruct (getz_is_Some l r) as [y Hy]; [lia|].
    pose proof (sorted_getz Z.lt _ _ _ _ _ Hs Hy Hi Hlt). specialize (Hhi r y Hy ltac:(lia)).
    simpl in Hhi. lia.
  - specialize (Hlo i x Hi Hgt). simpl in Hlo. lia.
Qed.

Lemma validate_restarts_complete `{Target} buf offs prev rs :
  len buf <> 0 -> StronglySorted Z.lt offs -> StronglySorted Z.lt rs ->
  (forall p, prev = Some p -> Forall (fun r => p < r) rs) ->
  Forall (fun r => In r offs /\ exists h, decode_entry_header buf r = Ok h /\ shared h = 0) rs ->
  validate_restarts buf offs prev rs = Ok ().
Proof.
  intros Hne Hso Hs. revert prev. induction Hs as [|r rs Hs IH Hall]; intros prev Hp Hr; [done|].
  cbn [validate_restarts]. pose proof (Forall_inv Hr) as (Hin & h & Hh & Hsh).
  apply Forall_inv_tail in Hr as Hr'.
  assert (match prev with Some p => r <=? p | None => false end = false) as ->.
  { destruct prev as [p|]; [|done]. specialize (Hp p eq_refl). inversion_clear Hp. lia. }
  ztest. rewrite (binary_search_complete offs r Hso Hin). run. rewrite Hh. run. rewrite Hsh. ztest. run.
  apply IH; [|done]. by intros p [= <-].
Qed.

Lemma read_restarts_encoded rs post :
  Forall is_u32 rs -> read_restarts (length rs) (List.concat (map (to_le 4) rs) ++ post) = rs.
Proof.
  induction rs as [|r rs IH]; intros Hr; [done|]. inversion_clear Hr. cbn [map List.concat length read_restarts].
  rewrite <- app_assoc, takez_app, dropz_app by llia. rewrite from_to_u32 by done.
  f_equal. auto.
Qed.

Lemma len_concat_le4 rs : len (List.concat (map (to_le 4) rs)) = len rs * 4.
Proof. induction rs as [|r rs IH]; [done|]. simpl. llia. Qed.

Lemma restarts_are_u32 `{Target} b kvs es :
  builder_ok b kvs es -> len (bb_buffer b) <= U32_MAX -> Forall is_u32 (bb_restarts b).
Proof.
  intros Hb Hlen. unfold U32_MAX in Hlen. destruct (decide (es = [])) as [->|Hne].
  { rewrite (bo_empty _ _ _ Hb eq_refl). repeat constructor; done. }
  pose proof (Entries_offsets _ _ _ _ (bo_entries _ _ _ Hb)) as [_ Hoffs].
  rewrite List.Forall_forall in Hoffs.
  eapply List.Forall_impl; [|exact (bo_restarts _ _ _ Hb Hne)]. intros r [Hin%Hoffs _].
  unfold is_u32. lia.
Qed.

Lemma validate_complete `{Target} b kvs es :
  builder_ok b kvs es ->
  Forall (fun e => valid_internal_key (entry_key e) /\ len (entry_key e) <= usize_max) es ->
  validate_restarts_and_entries (bb_buffer b) (bb_restarts b) true = Ok ().
Proof.
  intros Hb Hk. pose proof (bo_entries _ _ _ Hb) as He.
  unfold validate_restarts_and_entries.
  rewrite (validate_entries_complete _ _ _ _ _ es); [|try done; unfold len; lia..].
  run. rewrite bool_decide_eq_true_2 by apply (bo_head _ _ _ Hb).
  destruct (decide (es = [])) as [->|Hne].
  - rewrite (bo_empty _ _ _ Hb eq_refl). inversion He. pose proof (len_nonneg (bb_buffer b)).
    cbn [validate_restarts]. by zrun.
  - apply validate_restarts_complete; try done.
    + destruct He; [done|lia].
    + by apply Entries_offsets in He as [? _].
    + apply (bo_sorted _ _ _ Hb).
    + apply (bo_restarts _ _ _ Hb Hne).
Qed.

(** The block a reader decodes from what a builder finished. *)
Definition built_block (b : BlockBuilder) : Block :=
  mkBlock (BlockBuilder.finish b) (bb_restarts b) (len (bb_buffer b)) None.

Lemma finish_decodes `{Target} b kvs es :
  builder_ok b kvs es ->
  Forall (fun e => valid_internal_key (entry_key e) /\ len (entry_key e) <= usize_max) es ->
  len (BlockBuilder.finish b) <= U32_MAX ->
  decode_data_block (BlockBuilder.finish b) = Ok (built_block b) /\ block_ok (built_block b) es.
Proof.
  intros Hb Hk Hlen. pose proof usize_max_range. unfold U32_MAX in Hlen.
  pose proof (bo_head _ _ _ Hb) as Hhd.
  assert (Hr1 : 1 <= len (bb_restarts b)) by (destruct (bb_restarts b); [done|llia]).
  pose proof (validate_complete b kvs es Hb Hk) as Hv.
  unfold built_block, BlockBuilder.finish in *. pose proof (len_concat_le4 (bb_restarts b)) as Hc.
  set (tail := List.concat _) in *.
  assert (Hu : is_u32 (len (bb_restarts b))) by (unfold is_u32; llia).
  assert (Hu' : Forall is_u32 (bb_restarts b))
    by (eapply restarts_are_u32; [exact Hb|unfold U32_MAX; llia]).
  split; [|split; cbn [stamp restarts]].
  - unfold decode_data_block, decode_inner. ztest. cbn zeta.
    rewrite (app_assoc (bb_buffer b)), (dropz_app _ (bb_buffer b ++ tail)) by llia.
    rewrite from_to_u32 by done. ztest. unfold checked_mul. ztest. run. ztest.
    rewrite <- app_assoc.
    replace (len (bb_buffer b ++ tail ++ to_le 4 (len (bb_restarts b))) - 4 - len (bb_restarts b) * 4)
      with (len (bb_buffer b)) by llia.
    rewrite takez_app, dropz_app by done.
    replace (Z.to_nat (len (bb_restarts b))) with (length (bb_restarts b)) by (unfold len; lia).
    unfold tail. rewrite read_restarts_encoded by done. rewrite Hv. done.
  - unfold entry_data. cbn [data entries_end]. rewrite takez_app by done. apply (bo_entries _ _ _ Hb).
  - eapply List.Forall_impl; [|exact Hk]. by intros ? [].
  - by left.
  - intros Hne. unfold entry_data. cbn [data entries_end]. rewrite takez_app by done.
    split_and!; [apply (bo_sorted _ _ _ Hb)|done|apply (bo_restarts _ _ _ Hb Hne)].
Qed.

(** A caller that collects every entry it is shown, with the value bytes its
    handle names. *)
Definition collect `{Target} (b : Block) (acc : list (bytes * option bytes))
  (key : bytes) (value_offset value_len : Z)
  : list (bytes * option bytes) * option unit :=
  (acc ++ [(key, entry_bytes b value_offset value_len)], None).

Lemma entry_bytes_built `{Target} b vo vl v :
  len (bb_buffer b) <= usize_max -> slice (bb_buffer b) vo (vo + vl) = Some v ->
  entry_bytes (built_block b) vo vl = Some v.
Proof.
  intros Hlen Hs. pose proof Hs as (? & ? & _)%slice_Some.
  unfold entry_bytes, checked_add. ztest. cbn [entries_end data built_block]. ztest.
  by apply slice_prefix.
Qed.

Lemma visit_collect `{Target} b es kvs acc :
  len (bb_buffer b) <= usize_max ->
  map (entry_kv (bb_buffer b)) es = map (fun kv => (kv.1, Some kv.2)) kvs ->
  visit (collect (built_block b)) None acc es =
  (acc ++ map (fun kv => (kv.1, Some kv.2)) kvs, None).
Proof.
  intros Hlen. revert kvs acc. induction es as [|[p [[k vo] vl]] es IH]; intros [|[k' v] kvs] acc;
    simpl; try done; [by rewrite app_nil_r|].
  intros [= -> Hv E]. rewrite (entry_bytes_built _ _ _ v Hlen Hv), (IH kvs) by done.
  by rewrite <- app_assoc.
Qed.

(** Entries and key-value pairs that match keep matching when both are filtered
    by key, and one is sorted when the other is. *)
Lemma matching_filter buf es (kvs : list (bytes * bytes)) target :
  map (entry_kv buf) es = map (fun kv => (kv.1, Some kv.2)) kvs ->
  map (entry_kv buf) (List.filter (at_or_after None target) es) =
  map (fun kv => (kv.1, Some kv.2)) (List.filter (fun kv =>
    match compare_internal_keys kv.1 target with Lt => false | _ => true end) kvs).
Proof.
  revert kvs. induction es as [|[p [[k vo] vl]] es IH]; intros [|[k' v] kvs]; simpl; try done.
  intros [= -> Hv E]. specialize (IH kvs E). unfold at_or_after at 1, entry_key. simpl.
  destruct (compare_internal_keys k' target); simpl; rewrite ?Hv; by f_equal.
Qed.

Lemma matching_keys buf es (kvs : list (bytes * bytes)) :
  map (entry_kv buf) es = map (fun kv => (kv.1, Some kv.2)) kvs ->
  map entry_key es = map fst kvs.
Proof.
  revert kvs. induction es as [|[p [[k vo] vl]] es IH]; intros [|[k' v] kvs]; simpl; try done.
  intros [= -> Hv E]. unfold entry_key at 1. simpl. f_equal. auto.
Qed.

(** ** Properties *)

(** A varint reads back as the value it was written from, wherever it sits
    in a buffer, and the reader stops one past its last byte. *)
Theorem varint_roundtrip `{Target} pre v post :
  0 <= v <= usize_max ->
  read_varint (pre ++ encode_varint v ++ post) (len pre) =
  Ok (v, len pre + len (encode_varint v)) /\ 1 <= len (encode_varint v) <= 10.
Proof. intros Hv. split; [by apply read_varint_encoded|apply encode_varint_len]. Qed.

Lemma varint_roundtrip_witness :
  read_varint (H := target64) (str "ab" ++ encode_varint (2 ^ 64 - 1) ++ str "c") 2 =
  Ok (2 ^ 64 - 1, 12).
Proof.
  destruct (@varint_roundtrip target64 (str "ab") (2 ^ 64 - 1) (str "c")) as [E _];
    [split; vm_compute; congruence|].
  etransitivity; [exact E|]. reflexivity.
Defined.

(** C32: what a builder is given comes back. Internal keys added in order, in
    a block of any restart interval whose image fits a [u32] offset, decode
    without error, and a scan from any target is shown exactly the entries at
    or after the target, in order, each with its own key and value bytes. *)
Theorem built_block_scans_back `{Target} ri kvs target :
  Forall (fun kv => valid_internal_key kv.1 /\ len kv.1 <= usize_max) kvs ->
  StronglySorted (fun a b => compare_internal_keys a.1 b.1 = Lt) kvs ->
  valid_internal_key target ->
  let raw := BlockBuilder.finish (BlockBuilder.add_all (BlockBuilder.new ri) kvs) in
  len raw <= U32_MAX ->
  exists b, decode_data_block raw = Ok b /\
    scan_from (collect b) b target [] =
    Ok (map (fun kv => (kv.1, Some kv.2)) (List.filter (fun kv =>
          match compare_internal_keys kv.1 target with Lt => false | _ => true end) kvs), None).
Proof.
  intros Hk Hs Ht raw Hlen. pose proof usize_max_range.
  assert (Hbuf : len (bb_buffer (BlockBuilder.add_all (BlockBuilder.new ri) kvs)) <= U32_MAX)
    by (unfold raw, BlockBuilder.finish in Hlen; rewrite len_app in Hlen; llia).
  destruct (add_all_ok ri kvs) as [es Hb]; [|done|].
  { eapply List.Forall_impl; [|exact Hk]. by intros ? []. }
  pose proof (matching_keys _ _ _ (bo_kvs _ _ _ Hb)) as Hkeys.
  destruct (finish_decodes _ kvs es Hb) as [Hd Hok]; [|done|].
  { rewrite <- (Forall_map_iff (fun k => valid_internal_key k /\ len k <= usize_max) entry_key).
    by rewrite Hkeys, Forall_map_iff. }
  exists (built_block (BlockBuilder.add_all (BlockBuilder.new ri) kvs)). split; [exact Hd|].
  destruct (scan_from_visits (collect (built_block (BlockBuilder.add_all (BlockBuilder.new ri) kvs)))
    _ es target [] Hok Ht) as (es1 & es2 & _ & -> & ->).
  - cbn [stamp built_block]. f_equal. unfold U32_MAX in *.
    eapply (visit_collect _ _ _ []); [lia|]. apply matching_filter, (bo_kvs _ _ _ Hb).
  - unfold entries_sorted. cbn [stamp built_block read_key].
    by rewrite <- (sorted_map entry_key (fun a b => compare_internal_keys a b = Lt)), Hkeys, sorted_map.
Qed.

Definition sample_kvs : list (bytes * bytes) :=
  [(encode_internal_key (str "apple") 9 VALUE_TYPE_VALUE, str "red");
   (encode_internal_key (str "apple") 4 VALUE_TYPE_VALUE, str "green");
   (encode_internal_key (str "apricot") 7 VALUE_TYPE_VALUE, str "orange");
   (encode_internal_key (str "banana") 2 VALUE_TYPE_DELETION, [])].

Definition sample_raw : bytes :=
  BlockBuilder.finish (BlockBuilder.add_all (BlockBuilder.new 2) sample_kvs).
Definition sample_target : bytes := encode_internal_key (str "apple") 5 VALUE_TYPE_VALUE.

Lemma built_block_scans_back_witness :
  exists b, decode_data_block (H := target64) sample_raw = Ok b /\
    scan_from (H := target64) (collect (H := target64) b) b sample_target [] =
    Ok (map (fun kv => (kv.1, Some kv.2)) (tail sample_kvs), None).
Proof.
  destruct (@built_block_scans_back target64 2 sample_kvs sample_target) as (b & Hd & Hs).
  - repeat constructor; vm_compute; congruence.
  - repeat constructor; vm_compute; reflexivity.
  - vm_compute. congruence.
  - vm_compute. congruence.
  - exists b. split; [exact Hd|]. etransitivity; [exact Hs|]. vm_compute. reflexivity.
Defined.

(** On any block that decodes, whatever bytes it came from and whether or
    not it is stamped with a sequence number, a scan over entries in key order
    calls the closure on exactly the entries at or after the target, with the
    keys a reader of the stamped table sees, until the closure breaks; the
    binary search over the restart points skips nothing. *)
Theorem scan_visits_from_target `{Target} {St R} (f : St -> bytes -> Z -> Z -> St * option R)
  raw b0 b seq :
  decode_data_block raw = Ok b0 -> b = b0 \/ b = stamped b0 seq ->
  exists es, Entries (entry_data b) 0 [] es /\
    (entries_sorted (stamp b) es -> forall target st, valid_internal_key target ->
     scan_from f b target st =
     Ok (visit f (stamp b) st (List.filter (at_or_after (stamp b) target) es))).
Proof.
  intros (es & Hok0 & _)%decode_block_ok Hb.
  assert (Hok : block_ok b es) by (destruct Hb; subst; auto using stamped_block_ok).
  exists es. split; [apply (ok_entries _ _ Hok)|]. intros Hs target st Ht.
  destruct (scan_from_visits f b es target st Hok Ht) as (es1 & es2 & _ & -> & E).
  by rewrite E.
Qed.

Lemma scan_visits_from_target_witness :
  exists b es, decode_data_block (H := target64) sample_raw = Ok b /\
    Entries (H := target64) (entry_data b) 0 [] es /\
    (entries_sorted (stamp b) es ->
     scan_from (H := target64) (fun n _ _ _ => (n + 1, @None unit)) b sample_target 0 =
     Ok (visit (fun n _ _ _ => (n + 1, None)) (stamp b) 0
           (List.filter (at_or_after (stamp b) sample_target) es))).
Proof.
  destruct (decode_data_block (H := target64) sample_raw) as [b| | |] eqn:E;
    try (vm_compute in E; discriminate E).
  destruct (@scan_visits_from_target target64 Z unit (fun n _ _ _ => (n + 1, None))
    sample_raw b b 0 E (or_introl eq_refl)) as (es & He & Hs).
  exists b, es. split_and!; [done..|]. intros Ho. apply Hs; [done|]. vm_compute. congruence.
Defined.

(** C33: no input makes a block's reader panic or loop. Decoding arbitrary
    bytes returns a block or an error, and a block that decoded, stamped or
    not, sorted or not, answers every scan. *)
Theorem block_reader_never_panics `{Target} {St R} (f : St -> bytes -> Z -> Z -> St * option R)
  raw target st seq :
  valid_internal_key target ->
  returns (decode_data_block raw) /\
  forall b, decode_data_block raw = Ok b ->
    (exists r, scan_from f b target st = Ok r) /\
    (exists r, scan_from f (stamped b seq) target st = Ok r).
Proof.
  intros Ht. split; [apply decode_inner_returns|].
  intros b (es & Hok & _)%decode_block_ok. pose proof (stamped_block_ok _ _ seq Hok) as Hok'.
  destruct (scan_from_visits f b es target st Hok Ht) as (? & ? & _ & -> & _).
  destruct (scan_from_visits f (stamped b seq) es target st Hok' Ht) as (? & ? & _ & -> & _).
  eauto.
Qed.

Lemma block_reader_never_panics_witness :
  exists r, scan_from (H := target64) (fun n _ _ _ => (n + 1, @None unit))
    (mkBlock sample_raw [0; 30] 73 None) sample_target 0 = Ok r.
Proof.
  destruct (@block_reader_never_panics target64 Z unit (fun n _ _ _ => (n + 1, None))
    sample_raw sample_target 0 0) as [_ Hb]; [vm_compute; congruence|].
  refine (proj1 (Hb _ _)). vm_compute. reflexivity.
Defined.

(** The builder's running size is the size of the image it will finish
    with, so a table writer that flushes on it cuts blocks where it means to. *)
Theorem estimated_size_exact b :
  BlockBuilder.estimated_size b = len (BlockBuilder.finish b).
Proof.
  unfold BlockBuilder.estimated_size, BlockBuilder.finish. rewrite !len_app, len_concat_le4. llia.
Qed.
