(* ===== verification/IndexBlock.v ===== *)
(** * SSTable index blocks

    Models [src/src/engine/index_block.rs] and the encoder of
    [src/src/engine/sstable.rs] that writes what it reads: a count, then for
    each data block its last internal key and its handle.

    Shown here: what the encoder writes decodes to the same keys and handles;
    decoding never panics and keeps every key inside the block; a seek names the
    first block that can hold the target; and the size estimate of a key range
    charges exactly the blocks whose key span meets the range. *)

From S2P Require Import Prelude InternalKey Block.

(** One index entry: where its key lives in the blob, and the block it names. *)
Record IndexSlot := mkSlot {
  slot_key_offset : Z;
  slot_key_len : Z;
  slot_handle : BlockHandle;
}.

Record IndexBlock := mkIndex { blob : bytes; slots : list IndexSlot }.

(** [read_u32] and [read_u64], which this file and [sstable.rs] have with their
    own wording of an overflow: the value and the position past it. *)
Definition read_uint `{Target} (n : nat) (overflow : String.string) (data : bytes) (pos : Z)
  (field : String.string) : outcome (Z * Z) :=
  end_ ← ok_or (checked_add pos (Z.of_nat n)) (invalid_data (String.append field overflow));
  if len data <? end_ then Err (invalid_data (String.append field " is truncated"))
  else
    raw ← expect (slice data pos end_);
    Ok (from_le raw, end_).
Arguments read_uint {_} n%_nat_scope overflow%_string_scope data pos field%_string_scope.

Definition read_u32 `{Target} (data : bytes) (pos : Z) (field : String.string) :=
  read_uint 4 " overflows" data pos field.
Definition read_u64 `{Target} (data : bytes) (pos : Z) (field : String.string) :=
  read_uint 8 " overflows" data pos field.
Arguments read_u32 {_} data pos field%_string_scope.
Arguments read_u64 {_} data pos field%_string_scope.

Module IndexBlock.

(** The body of the decode loop: one slot and the position past it. *)
Definition decode_slot `{Target} (blob : bytes) (pos : Z) : outcome (IndexSlot * Z) :=
  '(key_len, pos) ← read_u32 blob pos "index key length";
  let key_offset := pos in
  key_end ← ok_or (checked_add pos key_len) (invalid_data "index key length overflows");
  if len blob <? key_end then Err (invalid_data "index key is truncated")
  else
    '(offset, pos) ← read_u64 blob key_end "index block offset";
    '(size, pos) ← read_u64 blob pos "index block size";
    Ok (mkSlot (as_u32 key_offset) (as_u32 key_len) (mkHandle offset size), pos).

Fixpoint decode_slots `{Target} (n : nat) (blob : bytes) (pos : Z)
  : outcome (list IndexSlot * Z) :=
  match n with
  | O => Ok ([], pos)
  | S n =>
      '(slot, pos) ← decode_slot blob pos;
      '(rest, pos) ← decode_slots n blob pos;
      Ok (slot :: rest, pos)
  end.

Definition decode `{Target} (blob : bytes) : outcome IndexBlock :=
  if len blob <? 4 then Err (invalid_data "index block too short")
  else if U32_MAX <? len blob then Err (invalid_data "index block is too large to address")
  else
    num_raw ← expect (slice blob 0 4);
    let num_entries := from_le num_raw in
    '(slots, pos) ← decode_slots (Z.to_nat num_entries) blob 4;
    if negb (pos =? len blob) then Err (invalid_data "index block has trailing bytes")
    else Ok (mkIndex blob slots).

(** The bytes of a slot's key, and the empty key the reader falls back to. *)
Definition slot_key (blob : bytes) (slot : IndexSlot) : bytes :=
  default [] (slice blob (slot_key_offset slot) (slot_key_offset slot + slot_key_len slot)).

Definition partition_by (below : bytes -> bool) (b : IndexBlock) : Z :=
  partition_point (fun slot => below (slot_key (blob b) slot)) (slots b).

Definition is_lt (c : comparison) : bool := match c with Lt => true | _ => false end.

Definition seek (b : IndexBlock) (target : bytes) : Z :=
  partition_by (fun key => is_lt (compare_internal_keys key target)) b.

Definition seek_split (b : IndexBlock) (user_key trailer : bytes) : Z :=
  partition_by (fun key => is_lt (compare_internal_split key user_key trailer)) b.

Definition handle (b : IndexBlock) (i : Z) : option BlockHandle :=
  slot_handle <$> getz (slots b) i.

(** [Iterator::sum] on [u64], which wraps in a release build. *)
Definition sum_u64 (l : list Z) : Z := fold_left (fun acc x => as_u64 (acc + x)) l 0.

Definition approximate_size_in_range (b : IndexBlock) (lo_probe hi_probe : bytes) : outcome Z :=
  if bool_decide (slots b = []) then Ok 0
  else
    let first := seek b lo_probe in
    let last := seek b hi_probe in
    let end_idx := Z.min last (len (slots b) - 1) in
    if end_idx <? first then Ok 0
    else
      range ← expect (slice (slots b) first (end_idx + 1));
      Ok (sum_u64 (map (fun slot => h_size (slot_handle slot)) range)).

End IndexBlock.

(** ** Writing *)

Definition encode_index_entry (e : bytes * BlockHandle) : bytes :=
  to_le 4 (as_u32 (len e.1)) ++ e.1 ++ to_le 8 (h_offset e.2) ++ to_le 8 (h_size e.2).

Definition encode_index_block (entries : list (bytes * BlockHandle)) : bytes :=
  to_le 4 (as_u32 (len entries)) ++ List.concat (map encode_index_entry entries).

Definition encoded_index_block_size (entries : list (bytes * BlockHandle)) : Z :=
  4 + fold_right Z.add 0 (map (fun e => 4 + len e.1 + 16) entries).

(** ** What an index block holds *)

(** The entry a slot stands for. *)
Definition slot_entry (blob : bytes) (slot : IndexSlot) : bytes * BlockHandle :=
  (IndexBlock.slot_key blob slot, slot_handle slot).

Definition handle_wf (h : BlockHandle) : Prop := is_u64 (h_offset h) /\ is_u64 (h_size h).

Definition keys (b : IndexBlock) : list bytes := map (IndexBlock.slot_key (blob b)) (slots b).

(** Keys in index order: the last keys of successive blocks. *)
Definition keys_sorted (b : IndexBlock) : Prop :=
  Forall valid_internal_key (keys b) /\
  StronglySorted (fun x y => compare_internal_keys x y = Lt) (keys b).

(** Whether the block of entry [i], whose keys lie above the previous entry's
    key and up to its own, can hold a key between the two probes. *)
Definition meets (b : IndexBlock) (lo hi : bytes) (i : Z) : bool :=
  match getz (keys b) i with
  | Some key =>
      negb (IndexBlock.is_lt (compare_internal_keys key lo)) &&
      match getz (keys b) (i - 1) with
      | Some prev => IndexBlock.is_lt (compare_internal_keys prev hi)
      | None => true
      end
  | None => false
  end.

(** The elements of a list whose position satisfies [P]. *)
Fixpoint select {A} (P : Z -> bool) (i : Z) (l : list A) : list A :=
  match l with
  | [] => []
  | x :: l => if P i then x :: select P (i + 1) l else select P (i + 1) l
  end.

(** ** Decoding *)

Lemma read_uint_Ok `{Target} n o data pos field v pos' :
  0 <= pos -> read_uint n o data pos field = Ok (v, pos') ->
  pos' = pos + Z.of_nat n /\ pos' <= len data /\ 0 <= v < 2 ^ (Z.of_nat n * 8).
Proof.
  intros Hpos. unfold read_uint. intros (e & He%ok_or_Ok%checked_add_Some & E)%bind_Ok.
  destruct (Z.ltb_spec (len data) e); [done|].
  apply bind_Ok in E as (raw & Hr%expect_Ok%slice_len & [= <- <-]).
  pose proof (from_le_range raw n ltac:(lia)). lia.
Qed.

Lemma read_uint_returns `{Target} n o data pos field :
  0 <= pos -> returns (read_uint n o data pos field).
Proof.
  intros Hpos. unfold read_uint. apply returns_bind; [apply returns_ok_or|].
  intros e He%ok_or_Ok%checked_add_Some. destruct (Z.ltb_spec (len data) e); [done|].
  destruct (slice data pos e) eqn:E; [done|]. apply slice_None in E. lia.
Qed.

Lemma read_uint_encoded `{Target} n o pre v post field pos :
  pos = len pre -> 0 <= v < 2 ^ (Z.of_nat n * 8) -> pos + Z.of_nat n <= usize_max ->
  read_uint n o (pre ++ to_le n v ++ post) pos field = Ok (v, pos + Z.of_nat n).
Proof.
  intros -> Hv Hm. unfold read_uint, checked_add. zrun.
  rewrite (slice_app pre (to_le n v) post) by llia. run. by rewrite from_to_le.
Qed.

Lemma decode_slot_Ok `{Target} blob pos slot pos' :
  0 <= pos -> len blob <= U32_MAX -> IndexBlock.decode_slot blob pos = Ok (slot, pos') ->
  pos < pos' <= len blob /\
  is_Some (slice blob (slot_key_offset slot) (slot_key_offset slot + slot_key_len slot)) /\
  handle_wf (slot_handle slot).
Proof.
  intros Hpos Hlen. unfold IndexBlock.decode_slot, U32_MAX in *.
  intros ([kl p1] & Hkl & E)%bind_Ok. apply read_uint_Ok in Hkl as (-> & ? & ?); [|done].
  apply bind_Ok in E as (ke & Hke%ok_or_Ok%checked_add_Some & E).
  destruct (Z.ltb_spec (len blob) ke); [done|].
  apply bind_Ok in E as ([o p2] & Ho & E). apply read_uint_Ok in Ho as (-> & ? & ?); [|lia].
  apply bind_Ok in E as ([s p3] & Hs & [= <- <-]). apply read_uint_Ok in Hs as (-> & ? & ?); [|lia].
  cbn [slot_key_offset slot_key_len slot_handle]. rewrite !as_u32_small by (unfold is_u32; lia).
  split_and!; [lia..| |split; cbn [h_offset h_size]; unfold is_u64; lia].
  destruct (slice blob _ _) eqn:E; [done|]. apply slice_None in E. lia.
Qed.

Lemma decode_slot_returns `{Target} blob pos :
  0 <= pos -> returns (IndexBlock.decode_slot blob pos).
Proof.
  intros Hpos. apply returns_bind; [by apply read_uint_returns|].
  intros [kl p1] Hk. apply read_uint_Ok in Hk as (-> & ? & ?); [|done].
  apply returns_bind; [apply returns_ok_or|]. intros ke Hke%ok_or_Ok%checked_add_Some.
  destruct (_ <? _); [done|]. apply returns_bind; [apply read_uint_returns; lia|].
  intros [o p2] Ho. apply read_uint_Ok in Ho as (-> & ? & ?); [|lia].
  apply returns_bind; [apply read_uint_returns; lia|]. by intros [].
Qed.

Lemma decode_slots_Ok `{Target} n blob pos ss pos' :
  0 <= pos -> len blob <= U32_MAX -> IndexBlock.decode_slots n blob pos = Ok (ss, pos') ->
  length ss = n /\ Forall (fun slot =>
    is_Some (slice blob (slot_key_offset slot) (slot_key_offset slot + slot_key_len slot)) /\
    handle_wf (slot_handle slot)) ss.
Proof.
  revert pos ss. induction n as [|n IH]; intros pos ss Hpos Hlen; cbn [IndexBlock.decode_slots].
  { by intros [= <- <-]. }
  intros ([slot p1] & Hs & E)%bind_Ok. apply decode_slot_Ok in Hs as (? & Hin & Hh); [|done..].
  apply bind_Ok in E as ([rest p2] & Hr & [= <- <-]). apply IH in Hr as [Hl Hall]; [|lia|done].
  simpl. split; [by rewrite Hl|by constructor].
Qed.

Lemma decode_slots_returns `{Target} n blob pos :
  0 <= pos -> len blob <= U32_MAX -> returns (IndexBlock.decode_slots n blob pos).
Proof.
  revert pos. induction n as [|n IH]; intros pos Hpos Hlen; cbn [IndexBlock.decode_slots]; [done|].
  apply returns_bind; [by apply decode_slot_returns|]. intros [slot p1] Hs.
  apply decode_slot_Ok in Hs as (? & _); [|done..].
  apply returns_bind; [apply IH; lia|]. by intros [].
Qed.

Lemma slot_encoded `{Target} pre e post pos :
  pos = len pre -> is_u32 (len e.1) -> handle_wf e.2 ->
  let blob := pre ++ encode_index_entry e ++ post in
  len blob <= U32_MAX ->
  exists slot, IndexBlock.decode_slot blob pos = Ok (slot, pos + len (encode_index_entry e)) /\
    slot_entry blob slot = e.
Proof.
  destruct e as [key [off sz]]. intros -> Hk [Ho Hs] blob Hlen.
  cbn [fst snd h_offset h_size] in Hk, Ho, Hs. pose proof usize_max_range.
  unfold U32_MAX in *. unfold blob, encode_index_entry in *. cbn [fst snd h_offset h_size] in *.
  rewrite as_u32_small in * by done. rewrite <- !app_assoc in *.
  assert (Hbl : len pre + 4 + len key + 16 + len post <= 2 ^ 32 - 1) by llia. clear blob.
  unfold is_u32, is_u64 in *. eexists. split.
  - unfold IndexBlock.decode_slot, read_u32, read_u64. rewrite read_uint_encoded by llia. run.
    unfold checked_add. zrun.
    rewrite (app_assoc pre), (app_assoc _ key). rewrite read_uint_encoded by llia. run.
    rewrite (app_assoc _ (to_le 8 off)). rewrite read_uint_encoded by llia. run.
    f_equal. f_equal. llia.
  - unfold slot_entry, IndexBlock.slot_key. cbn [slot_key_offset slot_key_len slot_handle].
    rewrite !as_u32_small by (unfold is_u32; llia). rewrite (app_assoc pre).
    by rewrite slice_app by llia.
Qed.

Lemma slots_encoded `{Target} pre es pos :
  pos = len pre -> Forall (fun e => is_u32 (len e.1) /\ handle_wf e.2) es ->
  let blob := pre ++ List.concat (map encode_index_entry es) in
  len blob <= U32_MAX ->
  exists ss, IndexBlock.decode_slots (length es) blob pos = Ok (ss, len blob) /\
    map (slot_entry blob) ss = es.
Proof.
  revert pre pos. induction es as [|e es IH]; intros pre pos -> Hes blob Hlen;
    cbn [length IndexBlock.decode_slots].
  { exists []. unfold blob. simpl. by rewrite app_nil_r. }
  inversion_clear Hes as [|? ? [Hk Hh] Hes']. unfold blob in *. cbn [map List.concat] in *.
  destruct (slot_encoded pre e (List.concat (map encode_index_entry es)) (len pre))
    as (slot & -> & Hslot); [done..|]. run.
  rewrite app_assoc in *.
  destruct (IH (pre ++ encode_index_entry e) (len pre + len (encode_index_entry e)))
    as (ss & -> & Hss); [llia|done..|]. run.
  exists (slot :: ss). split; [done|]. cbn [map]. by rewrite Hslot, Hss.
Qed.

Lemma entry_size e : len (encode_index_entry e) = 4 + len e.1 + 16.
Proof. unfold encode_index_entry. llia. Qed.

Lemma entries_size es :
  len (List.concat (map encode_index_entry es)) =
  fold_right Z.add 0 (map (fun e => 4 + len e.1 + 16) es).
Proof.
  induction es as [|e es IH]; [done|]. cbn [map List.concat fold_right].
  rewrite len_app, entry_size, IH. done.
Qed.

Lemma entries_bound es :
  len es <= len (List.concat (map encode_index_entry es)) /\
  Forall (fun e => len e.1 <= len (List.concat (map encode_index_entry es))) es.
Proof.
  induction es as [|e es [IH1 IH2]]; [by split|]. cbn [map List.concat].
  rewrite len_app, len_cons, entry_size. split; [llia|]. constructor; [llia|].
  eapply List.Forall_impl; [|exact IH2]. intros e' He'. cbv beta in *. llia.
Qed.

Lemma encode_decodes `{Target} es :
  Forall (fun e => handle_wf e.2) es -> len (encode_index_block es) <= U32_MAX ->
  exists b, IndexBlock.decode (encode_index_block es) = Ok b /\
    blob b = encode_index_block es /\ map (slot_entry (blob b)) (slots b) = es.
Proof.
  intros Hes Hlen. pose proof usize_max_range.
  destruct (entries_bound es) as [Hn Hk].
  assert (Hes' : Forall (fun e => is_u32 (len e.1) /\ handle_wf e.2) es).
  { rewrite List.Forall_forall in *. intros e He. split; [|auto]. specialize (Hk e He).
    unfold encode_index_block, U32_MAX in Hlen. unfold is_u32. llia. }
  destruct (slots_encoded (to_le 4 (as_u32 (len es))) es 4) as (ss & Hd & Hss); [done..|].
  fold (encode_index_block es) in Hd, Hss. exists (mkIndex (encode_index_block es) ss).
  split_and!; [|done..]. unfold IndexBlock.decode. unfold encode_index_block, U32_MAX in Hlen.
  assert (len (encode_index_block es) =
    4 + len (List.concat (map encode_index_entry es))) as Hl by (unfold encode_index_block; llia).
  unfold U32_MAX. pose proof (len_nonneg es). pose proof Hlen as Hlen'. rewrite len_app, len_to_le in Hlen'.
  repeat ztest.
  assert (slice (encode_index_block es) 0 4 = Some (to_le 4 (as_u32 (len es)))) as ->
    by (apply slice_app_head; llia). run.
  rewrite from_to_u32 by (unfold is_u32, as_u32; apply Z.mod_pos_bound; lia).
  rewrite as_u32_small by (unfold is_u32; lia).
  replace (Z.to_nat (len es)) with (length es) by (unfold len; lia).
  rewrite Hd. run. by rewrite Z.eqb_refl.
Qed.

Lemma index_decode_returns `{Target} raw : returns (IndexBlock.decode raw).
Proof.
  unfold IndexBlock.decode. destruct (Z.ltb_spec (len raw) 4); [done|].
  destruct (Z.ltb_spec U32_MAX (len raw)); [done|].
  destruct (slice raw 0 4) eqn:E; [|apply slice_None in E; lia]. run.
  apply returns_bind; [by apply decode_slots_returns|]. intros [ss pos] _. by destruct (negb _).
Qed.

Lemma index_decode_Ok `{Target} raw b :
  IndexBlock.decode raw = Ok b -> blob b = raw /\ len raw <= U32_MAX /\
  Forall (fun slot =>
    is_Some (slice raw (slot_key_offset slot) (slot_key_offset slot + slot_key_len slot)) /\
    handle_wf (slot_handle slot)) (slots b).
Proof.
  unfold IndexBlock.decode. destruct (_ <? 4); [done|]. destruct (Z.ltb_spec U32_MAX (len raw)); [done|].
  intros (nr & _ & E)%bind_Ok. apply bind_Ok in E as ([ss pos] & Hs & E).
  destruct (negb _); [done|]. injection E as <-. cbn [blob slots].
  apply decode_slots_Ok in Hs as [_ Hall]; [|done..]. done.
Qed.

(** ** Seeking *)

Section Seek.
Context (b : IndexBlock) (Hs : keys_sorted b).

Lemma seek_boundary target i key :
  valid_internal_key target -> getz (keys b) i = Some key ->
  IndexBlock.is_lt (compare_internal_keys key target) = (i <? IndexBlock.seek b target) /\
  0 <= IndexBlock.seek b target <= len (slots b).
Proof.
  intros Ht Hi. destruct Hs as [Hv Hso]. rewrite List.Forall_forall in Hv.
  unfold IndexBlock.seek, IndexBlock.partition_by. unfold keys in Hi. rewrite getz_map in Hi.
  destruct (getz (slots b) i) as [slot|] eqn:Eslot; [|done]. injection Hi as <-.
  destruct (partition_point_spec (fun slot => IndexBlock.is_lt
    (compare_internal_keys (IndexBlock.slot_key (blob b) slot) target)) (slots b)) as (Hr & Hlo & Hhi).
  - intros i' j x y Hij Hx Hy Hp.
    assert (Hxy : compare_internal_keys (IndexBlock.slot_key (blob b) x)
      (IndexBlock.slot_key (blob b) y) = Lt).
    { eapply (sorted_getz _ (keys b) i' j _ _ Hso); unfold keys; rewrite ?getz_map, ?Hx, ?Hy; done. }
    unfold IndexBlock.is_lt in *.
    destruct (compare_internal_keys (IndexBlock.slot_key _ y) target) eqn:E; try done.
    rewrite (cmp_trans (IndexBlock.slot_key (blob b) x) (IndexBlock.slot_key (blob b) y) target);
      auto; apply Hv, in_map; by eapply getz_In.
  - split; [|done]. set (r := partition_point _ _) in *.
    destruct (Z.ltb_spec i r); [by eapply Hlo|by eapply Hhi].
Qed.

End Seek.

Lemma select_app {A} P i (l k : list A) :
  select P i (l ++ k) = select P i l ++ select P (i + len l) k.
Proof.
  revert i. induction l as [|x l IH]; intros i; simpl.
  - f_equal. llia.
  - rewrite IH. replace (i + 1 + len l) with (i + len (x :: l)) by llia. by destruct (P i).
Qed.

Lemma select_all {A} P i (l : list A) v :
  (forall j, i <= j < i + len l -> P j = v) -> select P i l = if v then l else [].
Proof.
  revert i. induction l as [|x l IH]; intros i HP; simpl; [by destruct v|].
  rewrite HP by llia. rewrite (IH (i + 1)); [by destruct v|]. intros j Hj. apply HP. llia.
Qed.

Lemma select_slice {A} P (l : list A) a e s :
  slice l a e = Some s ->
  (forall j, 0 <= j < len l -> P j = (a <=? j) && (j <? e)) -> select P 0 l = s.
Proof.
  intros (Ha & He & p & q & -> & Hp & Hs)%slice_Some HP. rewrite !select_app.
  rewrite (select_all P 0 p false), (select_all P (0 + len p) s true),
    (select_all P (0 + len p + len s) q false); [apply app_nil_r|..]; intros j Hj; rewrite HP by llia.
  - apply andb_false_intro2, Z.ltb_ge. lia.
  - apply andb_true_intro. split; [apply Z.leb_le|apply Z.ltb_lt]; lia.
  - apply andb_false_intro1, Z.leb_gt. lia.
Qed.

(** ** Properties *)

(** C34: an index block encodes and decodes to itself. What the table writer
    encodes, of any entries whose image a [u32] can address, decodes to the
    same keys and handles in the same order, and the writer's size formula is
    the size of the image. *)
Theorem index_block_roundtrip `{Target} es :
  Forall (fun e => handle_wf e.2) es -> encoded_index_block_size es <= U32_MAX ->
  exists b, IndexBlock.decode (encode_index_block es) = Ok b /\
    map (slot_entry (blob b)) (slots b) = es /\
    len (blob b) = encoded_index_block_size es.
Proof.
  intros Hes Hlen.
  assert (Hsz : len (encode_index_block es) = encoded_index_block_size es).
  { unfold encode_index_block, encoded_index_block_size. rewrite <- entries_size. llia. }
  destruct (encode_decodes es Hes) as (b & Hd & Hb & Hm); [lia|].
  exists b. by rewrite Hb in *.
Qed.

Definition sample_index : list (bytes * BlockHandle) :=
  [(encode_internal_key (str "aaa") 1 VALUE_TYPE_VALUE, mkHandle 0 10);
   (encode_internal_key (str "mmm") 2 VALUE_TYPE_VALUE, mkHandle 10 20);
   (encode_internal_key (str "zzz") 3 VALUE_TYPE_VALUE, mkHandle 30 30)].

Lemma index_block_roundtrip_witness :
  exists b, IndexBlock.decode (H := target64) (encode_index_block sample_index) = Ok b /\
    map (slot_entry (blob b)) (slots b) = sample_index.
Proof.
  destruct (@index_block_roundtrip target64 sample_index) as (b & Hd & Hm & _).
  - repeat constructor; vm_compute; congruence.
  - vm_compute. congruence.
  - eauto.
Defined.

(** No bytes make the index decoder panic, and whatever decodes has every
    key inside the block, so the empty key a search would fall back to is
    never used. *)
Theorem index_decode_total_and_in_bounds `{Target} raw :
  returns (IndexBlock.decode raw) /\
  forall b, IndexBlock.decode raw = Ok b ->
    Forall (fun slot => slice (blob b) (slot_key_offset slot)
                          (slot_key_offset slot + slot_key_len slot) =
                        Some (IndexBlock.slot_key (blob b) slot)) (slots b).
Proof.
  split; [apply index_decode_returns|]. intros b (Hb & _ & Hall)%index_decode_Ok.
  eapply List.Forall_impl; [|exact Hall]. intros slot [[k Hk] _]. cbv beta.
  rewrite Hb. unfold IndexBlock.slot_key. by rewrite Hk.
Qed.

(** A seek names the first entry whose key is at or after the target, the
    only block that can hold it: every earlier key is below the target and
    every later one is not; and the search that takes the target in two pieces
    answers the same. *)
Theorem index_seek_first_at_or_after b uk trailer i key :
  keys_sorted b -> len trailer = INTERNAL_KEY_SUFFIX_LEN ->
  getz (keys b) i = Some key ->
  0 <= IndexBlock.seek b (uk ++ trailer) <= len (slots b) /\
  (i < IndexBlock.seek b (uk ++ trailer) <-> compare_internal_keys key (uk ++ trailer) = Lt) /\
  IndexBlock.seek_split b uk trailer = IndexBlock.seek b (uk ++ trailer).
Proof.
  intros Hs Ht Hi.
  destruct (seek_boundary b Hs (uk ++ trailer) i key) as [Hb Hr];
    [unfold valid_internal_key; llia|done|]. split; [done|]. split; [split|].
  - intros Hlt. apply Z.ltb_lt in Hlt. rewrite <- Hb in Hlt. unfold IndexBlock.is_lt in Hlt.
    by destruct (compare_internal_keys key (uk ++ trailer)).
  - intros E. rewrite E in Hb. symmetry in Hb. by apply Z.ltb_lt in Hb.
  - apply partition_point_ext. intros slot. by rewrite compare_keys_split.
Qed.

Definition sample_block : IndexBlock :=
  mkIndex (encode_index_block sample_index)
    [mkSlot 8 12 (mkHandle 0 10); mkSlot 40 12 (mkHandle 10 20); mkSlot 72 12 (mkHandle 30 30)].

Lemma sample_sorted : keys_sorted sample_block.
Proof. split; repeat constructor; vm_compute; congruence. Qed.

Lemma index_seek_first_at_or_after_witness :
  1 < IndexBlock.seek sample_block (encode_internal_key (str "nnn") 9 VALUE_TYPE_VALUE) <->
  compare_internal_keys (encode_internal_key (str "mmm") 2 VALUE_TYPE_VALUE)
    (encode_internal_key (str "nnn") 9 VALUE_TYPE_VALUE) = Lt.
Proof.
  refine (proj1 (proj2 (index_seek_first_at_or_after sample_block (str "nnn")
    (to_be 8 (u64_not 9) ++ [VALUE_TYPE_VALUE]) 1 _ sample_sorted _ _))); vm_compute; reflexivity.
Defined.

(** The size estimate of a key range adds up, as [u64] arithmetic, exactly
    the blocks that can hold a key between the probes: those whose own last key
    is not below the low probe and whose predecessor's last key is below the
    high one. *)
Theorem approximate_size_charges_overlaps b lo hi :
  keys_sorted b -> valid_internal_key lo -> valid_internal_key hi ->
  IndexBlock.approximate_size_in_range b lo hi =
  Ok (IndexBlock.sum_u64 (map (fun slot => h_size (slot_handle slot))
        (select (meets b lo hi) 0 (slots b)))).
Proof.
  intros Hs Hlo Hhi. unfold IndexBlock.approximate_size_in_range.
  destruct (bool_decide_reflect (slots b = [])) as [->|Hne]; [done|].
  set (first := IndexBlock.seek b lo). set (last := IndexBlock.seek b hi).
  set (e := Z.min last (len (slots b) - 1)).
  assert (Hlk : len (keys b) = len (slots b)) by (unfold keys; llia).
  assert (Hn : 0 < len (slots b)) by (destruct (slots b); [done|llia]).
  assert (Hf : 0 <= first <= len (slots b) /\ 0 <= last <= len (slots b)).
  { destruct (getz_is_Some (keys b) 0) as [k Hk]; [lia|].
    split; eapply (seek_boundary b Hs); eauto. }
  assert (HP : forall j, 0 <= j < len (slots b) ->
    meets b lo hi j = (first <=? j) && (j <? e + 1)).
  { intros j Hj. unfold meets. destruct (getz_is_Some (keys b) j) as [k Hk]; [lia|]. rewrite Hk.
    destruct (seek_boundary b Hs lo j k Hlo Hk) as [-> _]. rewrite <- Z.leb_antisym. f_equal.
    destruct (Z.eq_dec j 0) as [->|Hj0].
    - unfold getz. simpl. symmetry. apply Z.ltb_lt. lia.
    - destruct (getz_is_Some (keys b) (j - 1)) as [p Hp]; [lia|]. rewrite Hp.
      destruct (seek_boundary b Hs hi (j - 1) p Hhi Hp) as [-> _]. fold last.
      destruct (Z.ltb_spec (j - 1) last), (Z.ltb_spec j (e + 1)); lia. }
  destruct (Z.ltb_spec e first) as [Hlt|Hge].
  - rewrite (select_all _ 0 _ false); [done|]. intros j Hj. rewrite HP by lia.
    destruct (Z.leb_spec first j), (Z.ltb_spec j (e + 1)); try done; lia.
  - destruct (slice (slots b) first (e + 1)) as [range|] eqn:Er.
    + run. by rewrite (select_slice _ _ first (e + 1) range).
    + apply slice_None in Er. lia.
Qed.

Lemma approximate_size_charges_overlaps_witness :
  IndexBlock.approximate_size_in_range sample_block
    (encode_internal_key (str "b") U64_MAX VALUE_TYPE_VALUE)
    (encode_internal_key (str "n") U64_MAX VALUE_TYPE_VALUE) = Ok 50.
Proof.
  etransitivity.
  - apply (approximate_size_charges_overlaps sample_block); [exact sample_sorted|..];
      vm_compute; congruence.
  - vm_compute. reflexivity.
Defined.
