(* ===== verification/Checksum.v ===== *)
(** * Checksums

    Models [src/src/engine/checksum.rs]: the domain-separated, length-framed
    checksums of everything the engine writes. XXH3 itself is a third-party
    crate, so it is a class: its one-shot and streaming functions are the
    fields of [Xxh3], and what the code relies on of them (a stream hashes as
    its bytes in one piece) is [Xxh3Laws].

    Shown here: the stack-buffer fast path and the streaming path hash the same
    bytes; those bytes determine the domain and the parts, so no two different
    inputs of the checksum families meet before the hash; and the streamed
    payload and file checksums do not depend on how the bytes were cut. *)

From S2P Require Import Prelude.

(** The functions of the [xxhash_rust::xxh3] crate the engine calls. *)
Class Xxh3 := {
  xxh3_64 : bytes -> Z;
  xxh3_64_with_seed : bytes -> Z -> Z;
  xxh3_state : Type;
  xxh3_new : xxh3_state;
  xxh3_with_seed : Z -> xxh3_state;
  xxh3_update : xxh3_state -> bytes -> xxh3_state;
  xxh3_digest : xxh3_state -> Z;
  xxh3_128 : bytes -> Z;
  xxh3_digest128 : xxh3_state -> Z;
}.

(** The crate's documented behaviour: a digest is the hash of the bytes
    streamed, and a hash is a [u64]. *)
Class Xxh3Laws (X : Xxh3) : Prop := {
  xxh3_64_u64 : forall l, is_u64 (xxh3_64 l);
  xxh3_seeded_u64 : forall l seed, is_u64 (xxh3_64_with_seed l seed);
  xxh3_stream : forall pieces,
    xxh3_digest (fold_left xxh3_update pieces xxh3_new) = xxh3_64 (List.concat pieces);
  xxh3_stream_seeded : forall seed pieces,
    xxh3_digest (fold_left xxh3_update pieces (xxh3_with_seed seed)) =
    xxh3_64_with_seed (List.concat pieces) seed;
  xxh3_stream128 : forall pieces,
    xxh3_digest128 (fold_left xxh3_update pieces xxh3_new) = xxh3_128 (List.concat pieces);
}.

(** ** Domains and seeds *)

Definition WAL_RECORD_DOMAIN : bytes := str "regolith/wal-record/v2".
Definition WAL_STAMP_DOMAIN : bytes := str "regolith/wal-stamp/v1".
Definition MANIFEST_RECORD_DOMAIN : bytes := str "regolith/manifest-record/v2".
Definition SST_BLOCK_DOMAIN : bytes := str "regolith/sst-block/v2".
Definition SST_META_DOMAIN : bytes := str "regolith/sst-meta/v1".
Definition BACKUP_MANIFEST_DOMAIN : bytes := str "regolith/backup-manifest/v2".
Definition BACKUP_SHARED_FILE_DOMAIN : bytes := str "regolith/backup-shared-file/v2".
Definition OPFS_SLOT_HEADER_DOMAIN : bytes := str "regolith/opfs-slot-header/v1".
Definition WAL_STAMP_V2_DOMAIN : bytes := str "regolith/wal-stamp/v2".

(** The domains [u64_parts] is called with. *)
Definition parts_domains : list bytes :=
  [WAL_RECORD_DOMAIN; WAL_STAMP_DOMAIN; MANIFEST_RECORD_DOMAIN; SST_BLOCK_DOMAIN;
   SST_META_DOMAIN; BACKUP_MANIFEST_DOMAIN; OPFS_SLOT_HEADER_DOMAIN; WAL_STAMP_V2_DOMAIN].

Definition WAL_GROUP_PAYLOAD_SEED : Z := 0x7265676F77616C32.
Definition WAL_GROUP_HEADER_SEED : Z := 0x7265676F2D686472.

Definition META_KIND_INDEX : byte := Byte.x01.
Definition META_KIND_INDEX_LEAF : byte := Byte.x02.
Definition META_KIND_BLOOM : byte := Byte.x03.
Definition META_KIND_RANGE_TOMBSTONE : byte := Byte.x04.
Definition META_KIND_FOOTER : byte := Byte.x05.

(** ** Hashing parts *)

Definition ONE_SHOT_MAX : Z := 512.

(** [put]: copy [bs] into the stack buffer at [at]; a range outside the buffer
    would panic. *)
Definition put (st : bytes * Z) (bs : bytes) : outcome (bytes * Z) :=
  let '(input, at_) := st in
  if at_ + len bs <=? len input
  then Ok (takez at_ input ++ bs ++ dropz (at_ + len bs) input, at_ + len bs)
  else Panic.

Fixpoint put_all (st : bytes * Z) (pieces : list bytes) : outcome (bytes * Z) :=
  match pieces with
  | [] => Ok st
  | p :: pieces => st ← put st p; put_all st pieces
  end.

(** The pieces hashed: the domain, then each part behind its length. *)
Definition framed (domain : bytes) (parts : list bytes) : list bytes :=
  domain :: flat_map (fun part => [to_le 8 (len part); part]) parts.

Section Checksum.
Context `{X : Xxh3}.

Definition new_hasher (domain : bytes) : xxh3_state := xxh3_update xxh3_new domain.

Definition u64_parts (domain : bytes) (parts : list bytes) : outcome Z :=
  let total := fold_left (fun n part => n + 8 + len part) parts (len domain) in
  if total <=? ONE_SHOT_MAX then
    '(input, _) ← put_all (replicate 512 Byte.x00, 0) (framed domain parts);
    whole ← expect (slice input 0 total);
    Ok (xxh3_64 whole)
  else
    let hasher := fold_left (fun h part => xxh3_update (xxh3_update h (to_le 8 (len part))) part)
                    parts (new_hasher domain) in
    Ok (xxh3_digest hasher).

Definition u32_parts (domain : bytes) (parts : list bytes) : outcome Z :=
  h ← u64_parts domain parts; Ok (as_u32 h).

(** ** The checksum families *)

Definition wal_record (n : Z) (record_type : byte) (data : bytes) : outcome Z :=
  u32_parts WAL_RECORD_DOMAIN [to_le 4 n; [record_type]; data].

Definition wal_stamp (magic : bytes) (format reserved : Z) : outcome Z :=
  u32_parts WAL_STAMP_DOMAIN [magic; to_le 2 format; to_le 2 reserved].

Definition wal_stamp_v2 (fields : bytes) : outcome Z := u32_parts WAL_STAMP_V2_DOMAIN [fields].

Definition wal_group_payload (payload : bytes) : Z :=
  as_u32 (xxh3_64_with_seed payload WAL_GROUP_PAYLOAD_SEED).

(** [wal_group_header_input]. *)
Definition wal_group_header_input (nonce offset : Z) (fields : bytes) : bytes :=
  to_le 8 nonce ++ to_le 8 offset ++ fields.

Definition wal_group_header (nonce offset : Z) (fields : bytes) : Z :=
  as_u32 (xxh3_64_with_seed (wal_group_header_input nonce offset fields) WAL_GROUP_HEADER_SEED).

Definition manifest_record (n : Z) (data : bytes) : outcome Z :=
  u32_parts MANIFEST_RECORD_DOMAIN [to_le 4 n; data].

Definition sst_block (compression_type : byte) (payload : bytes) : outcome Z :=
  u32_parts SST_BLOCK_DOMAIN [[compression_type]; payload].

Definition sst_meta (kind : byte) (payload : bytes) : outcome Z :=
  u32_parts SST_META_DOMAIN [[kind]; payload].

Definition sst_footer (fields : bytes) (magic : Z) : outcome Z :=
  u64_parts SST_META_DOMAIN [[META_KIND_FOOTER]; fields; to_le 8 magic].

Definition opfs_slot_header (fixed path : bytes) : outcome Z :=
  u32_parts OPFS_SLOT_HEADER_DOMAIN [fixed; path].

Definition backup_manifest (body : bytes) : outcome Z := u64_parts BACKUP_MANIFEST_DOMAIN [body].

(** ** Streaming *)

(** [WalGroupPayloadHasher]. *)
Definition WalGroupPayloadHasher : Type := xxh3_state.
Definition payload_hasher_new : WalGroupPayloadHasher := xxh3_with_seed WAL_GROUP_PAYLOAD_SEED.
Definition payload_hasher_update (h : WalGroupPayloadHasher) (piece : bytes)
  : WalGroupPayloadHasher := xxh3_update h piece.
Definition payload_hasher_finish (h : WalGroupPayloadHasher) : Z := as_u32 (xxh3_digest h).

(** The loop of [backup_shared_file] over a reader, given as what its
    successive [read] calls answer: an empty read is the end of the file. *)
Fixpoint hash_reads (h : xxh3_state) (reads : list (outcome bytes)) : outcome Z :=
  match reads with
  | [] => Ok (xxh3_digest128 h)
  | r :: reads =>
      buf ← r;
      if len buf =? 0 then Ok (xxh3_digest128 h) else hash_reads (xxh3_update h buf) reads
  end.

Definition backup_shared_file (reads : list (outcome bytes)) : outcome Z :=
  hash_reads (new_hasher BACKUP_SHARED_FILE_DOMAIN) reads.

End Checksum.

(** ** The bytes hashed *)

Lemma put_all_spec pre rest pieces :
  len (List.concat pieces) <= len rest ->
  put_all (pre ++ rest, len pre) pieces =
  Ok (pre ++ List.concat pieces ++ dropz (len (List.concat pieces)) rest,
      len pre + len (List.concat pieces)).
Proof.
  revert pre rest. induction pieces as [|p pieces IH]; intros pre rest Hlen; cbn [put_all List.concat].
  { by rewrite dropz_0, Z.add_0_r. }
  cbn [List.concat] in Hlen. rewrite len_app in Hlen. pose proof (len_nonneg (List.concat pieces)).
  pose proof (len_nonneg p). unfold put at 1. rewrite len_app. ztest. run.
  rewrite takez_app by done.
  assert (dropz (len pre + len p) (pre ++ rest) = dropz (len p) rest) as ->.
  { rewrite Z.add_comm, <- dropz_dropz by llia. by rewrite dropz_app. }
  rewrite app_assoc. rewrite <- len_app at 1. rewrite IH by (rewrite len_dropz; lia).
  rewrite dropz_dropz by llia. rewrite <- !app_assoc. f_equal. f_equal; [|llia].
  rewrite len_app. do 4 f_equal. lia.
Qed.

Lemma total_spec parts n :
  fold_left (fun n part => n + 8 + len part) parts n =
  n + len (List.concat (flat_map (fun part : bytes => [to_le 8 (len part); part]) parts)).
Proof.
  revert n. induction parts as [|p parts IH]; intros n; [simpl; llia|].
  cbn [fold_left flat_map app List.concat]. rewrite IH. llia.
Qed.

Lemma stream_spec `{Xxh3} parts h :
  fold_left (fun h part => xxh3_update (xxh3_update h (to_le 8 (len part))) part) parts h =
  fold_left xxh3_update (flat_map (fun part : bytes => [to_le 8 (len part); part]) parts) h.
Proof. revert h. induction parts as [|p parts IH]; intros h; [done|]. apply IH. Qed.

Lemma u64_parts_eq `{Xxh3Laws} domain parts :
  u64_parts domain parts = Ok (xxh3_64 (List.concat (framed domain parts))).
Proof.
  unfold u64_parts. rewrite total_spec.
  assert (Hl : len domain + len (List.concat (flat_map (fun part : bytes =>
    [to_le 8 (len part); part]) parts)) = len (List.concat (framed domain parts))).
  { unfold framed. cbn [List.concat]. by rewrite len_app. }
  rewrite Hl. destruct (Z.leb_spec (len (List.concat (framed domain parts))) ONE_SHOT_MAX) as [Hle|Hgt].
  - pose proof (put_all_spec [] (replicate 512 Byte.x00) (framed domain parts)) as Hp.
    rewrite len_replicate in Hp. cbn [app] in Hp. change (len []) with 0 in Hp.
    rewrite Hp by (unfold ONE_SHOT_MAX in Hle; lia). run. by rewrite slice_app_head.
  - rewrite stream_spec. unfold new_hasher.
    change (fold_left xxh3_update ?l (xxh3_update xxh3_new domain)) with
      (fold_left xxh3_update (domain :: l) xxh3_new).
    by rewrite xxh3_stream.
Qed.

(** ** The framing is injective *)

Lemma app_eq_len {A} (a b x y : list A) : a ++ x = b ++ y -> len a = len b -> a = b /\ x = y.
Proof. intros E Hl. apply app_inj_1; [unfold len in Hl; lia|done]. Qed.

Lemma frames_inj (ps qs : list bytes) :
  Forall (fun p => is_u64 (len p)) ps -> Forall (fun q => is_u64 (len q)) qs ->
  List.concat (flat_map (fun part : bytes => [to_le 8 (len part); part]) ps) =
  List.concat (flat_map (fun part : bytes => [to_le 8 (len part); part]) qs) -> ps = qs.
Proof.
  intros Hps. revert qs. induction Hps as [|p ps Hp Hps IH]; intros qs Hqs E.
  - destruct qs as [|q qs]; [done|]. apply (f_equal len) in E. cbn [flat_map app List.concat] in E. llia.
  - destruct qs as [|q qs].
    { apply (f_equal len) in E. cbn [flat_map app List.concat] in E. llia. }
    inversion_clear Hqs as [|? ? Hq Hqs']. cbn [flat_map app List.concat] in E.
    apply app_eq_len in E as [El E]; [|llia].
    apply to_le_inj in El; [|by unfold is_u64 in *..].
    apply app_eq_len in E as [-> E]; [|done]. f_equal. auto.
Qed.

(** No domain is a prefix of another. *)
Lemma domains_prefix_free d1 d2 x y :
  In d1 parts_domains -> In d2 parts_domains -> d1 ++ x = d2 ++ y -> d1 = d2.
Proof.
  intros H1 H2 E.
  assert (Hf : forallb (fun a => forallb (fun b =>
    bool_decide (a = b) || negb (bool_decide (takez (len a) b = takez (len b) a)))
    parts_domains) parts_domains = true) by (vm_compute; reflexivity).
  rewrite forallb_forall in Hf. specialize (Hf _ H1). rewrite forallb_forall in Hf.
  specialize (Hf _ H2). apply orb_true_iff in Hf as [Hf|Hf]; [by apply bool_decide_eq_true in Hf|].
  apply negb_true_iff, bool_decide_eq_false in Hf. contradict Hf.
  apply (f_equal (takez (Z.min (len d1) (len d2)))) in E.
  destruct (Z.le_ge_cases (len d1) (len d2)).
  - rewrite Z.min_l in E by done. rewrite takez_app, takez_app_le in E by llia.
    rewrite (takez_all (len d2) d1) by done. by symmetry.
  - rewrite Z.min_r in E by done. rewrite takez_app_le, takez_app in E by llia.
    rewrite (takez_all (len d1) d2) by lia. by symmetry.
Qed.

(** A hash to instantiate the class with: a multiplicative one over the bytes
    streamed so far. *)
Definition poly_hash (seed : Z) (l : bytes) : Z :=
  fold_left (fun acc b => (acc * 0x9E3779B97F4A7C15 + byte.unsigned b + 1) mod 2 ^ 64) l
    (seed mod 2 ^ 64).

Lemma poly_hash_u64 seed l : is_u64 (poly_hash seed l).
Proof.
  unfold poly_hash. assert (Hs : is_u64 (seed mod 2 ^ 64)) by (apply Z.mod_pos_bound; lia).
  revert Hs. generalize (seed mod 2 ^ 64). induction l as [|b l IH]; intros acc Hacc; [done|].
  apply IH. apply Z.mod_pos_bound. lia.
Qed.

Definition toy_xxh3 : Xxh3 := {|
  xxh3_64 l := poly_hash 0 l;
  xxh3_64_with_seed l seed := poly_hash seed l;
  xxh3_state := Z * bytes;
  xxh3_new := (0, []);
  xxh3_with_seed seed := (seed, []);
  xxh3_update st l := (st.1, st.2 ++ l);
  xxh3_digest st := poly_hash st.1 st.2;
  xxh3_128 l := from_le l;
  xxh3_digest128 st := from_le st.2;
|}.

Lemma toy_stream pieces (st : Z * bytes) :
  fold_left (@xxh3_update toy_xxh3) pieces st = (st.1, st.2 ++ List.concat pieces).
Proof.
  revert st. induction pieces as [|p pieces IH]; intros [s l]; simpl; [by rewrite app_nil_r|].
  rewrite IH. simpl. by rewrite <- app_assoc.
Qed.

Lemma toy_xxh3_laws : Xxh3Laws toy_xxh3.
Proof.
  split; simpl.
  - intros l. apply poly_hash_u64.
  - intros l seed. apply poly_hash_u64.
  - intros pieces. by rewrite toy_stream.
  - intros seed pieces. by rewrite toy_stream.
  - intros pieces. by rewrite toy_stream.
Qed.

(** ** Properties *)

(** The checksum of a domain and its parts is the hash of the domain then
    each part behind its length, whichever path computes it: the copy into a
    512-byte stack buffer, which never overruns, or the streaming hasher. *)
Theorem checksum_paths_agree `{Xxh3Laws} domain parts :
  u64_parts domain parts = Ok (xxh3_64 (List.concat (framed domain parts))) /\
  u32_parts domain parts = Ok (as_u32 (xxh3_64 (List.concat (framed domain parts)))).
Proof. unfold u32_parts. by rewrite u64_parts_eq. Qed.

Lemma checksum_paths_agree_witness :
  u64_parts (X := toy_xxh3) [Byte.x07] [[Byte.x02]] = Ok (poly_hash 0 [Byte.x07; Byte.x01; Byte.x00;
    Byte.x00; Byte.x00; Byte.x00; Byte.x00; Byte.x00; Byte.x00; Byte.x02]).
Proof.
  etransitivity; [apply (proj1 (@checksum_paths_agree toy_xxh3 toy_xxh3_laws [Byte.x07] [[Byte.x02]]))|].
  vm_compute. reflexivity.
Defined.

(** The bytes a checksum hashes determine what was checksummed. Two calls
    that hash the same bytes are of the same family and over the same parts, so
    a region can pass as another kind of region, or a record as one of another
    length, only through a collision of the hash itself. *)
Theorem checksum_input_determines_parts d1 d2 ps qs :
  In d1 parts_domains -> In d2 parts_domains ->
  Forall (fun p => is_u64 (len p)) ps -> Forall (fun q => is_u64 (len q)) qs ->
  List.concat (framed d1 ps) = List.concat (framed d2 qs) -> d1 = d2 /\ ps = qs.
Proof.
  intros H1 H2 Hps Hqs E. unfold framed in E. cbn [List.concat] in E.
  pose proof (domains_prefix_free _ _ _ _ H1 H2 E) as ->. split; [done|].
  apply app_inv_head in E. by apply frames_inj.
Qed.

Lemma checksum_input_determines_parts_witness :
  SST_META_DOMAIN = SST_META_DOMAIN /\ [[META_KIND_BLOOM]; str "x"] = [[Byte.x03]; str "x"].
Proof.
  apply (checksum_input_determines_parts SST_META_DOMAIN SST_META_DOMAIN
    [[META_KIND_BLOOM]; str "x"] [[Byte.x03]; str "x"]).
  - vm_compute. tauto.
  - vm_compute. tauto.
  - repeat constructor; vm_compute; congruence.
  - repeat constructor; vm_compute; congruence.
  - reflexivity.
Defined.

(** The streamed checksums do not depend on how the bytes arrive. The
    payload hasher fed any pieces gives the check of the whole payload, and a
    file's checksum is a function of its bytes alone, however its reads are
    cut; a failed read is the error reported. *)
Theorem streamed_checksums_ignore_cuts `{Xxh3Laws} pieces reads rest e :
  payload_hasher_finish (fold_left payload_hasher_update pieces payload_hasher_new) =
    wal_group_payload (List.concat pieces) /\
  (Forall (fun r => len r <> 0) reads ->
   backup_shared_file (map Ok reads ++ [Ok []]) =
     Ok (xxh3_128 (BACKUP_SHARED_FILE_DOMAIN ++ List.concat reads)) /\
   backup_shared_file (map Ok reads ++ Err e :: rest) = Err e).
Proof.
  split.
  - unfold payload_hasher_finish, payload_hasher_update, payload_hasher_new.
    by rewrite xxh3_stream_seeded.
  - intros Hr. unfold backup_shared_file.
    assert (Hgen : forall h tail, hash_reads h (map Ok reads ++ tail) =
      hash_reads (fold_left xxh3_update reads h) tail).
    { induction Hr as [|r rs Hr Hrs IH]; intros h tail; [done|]. cbn [map app hash_reads fold_left].
      run. destruct (Z.eqb_spec (len r) 0); [done|]. apply IH. }
    rewrite !Hgen. split; [|done]. cbn [hash_reads]. run. change (len [] =? 0) with true. cbv iota.
    unfold new_hasher.
    change (fold_left xxh3_update reads (xxh3_update xxh3_new BACKUP_SHARED_FILE_DOMAIN)) with
      (fold_left xxh3_update (BACKUP_SHARED_FILE_DOMAIN :: reads) xxh3_new).
    by rewrite xxh3_stream128.
Qed.

Lemma streamed_checksums_ignore_cuts_witness :
  payload_hasher_finish (X := toy_xxh3) (fold_left (@payload_hasher_update toy_xxh3)
    [str "ab"; str "c"] (@payload_hasher_new toy_xxh3)) =
  wal_group_payload (X := toy_xxh3) (str "abc").
Proof.
  exact (proj1 (@streamed_checksums_ignore_cuts toy_xxh3 toy_xxh3_laws [str "ab"; str "c"] [] []
    (invalid_data "read failed"))).
Defined.
