(* ===== verification/Bloom.v ===== *)
(** * Bloom filters

    Models [src/src/engine/bloom.rs], [src/src/engine/prefix_call.rs] and
    [src/src/engine/filter_block.rs]: the Bloom filter of an SSTable, the prefix
    entries a caller's extractor contributes, and the filter region both are
    stored in, together with the part of [SsTableWriter::add] and [finish]
    ([src/src/engine/sstable.rs]) that feeds them. The hash is a parameter
    ([Xxh3]), and so is the caller's extractor ([PrefixExtractor]).

    Shown here: no key that was added is ever ruled out, at any filter size and
    hash count; the region decodes to the filters that were encoded, and decoding
    never panics; and a table that holds a key with the sought prefix is never
    skipped by a prefix seek, whatever extractor built the table. *)

From Stdlib Require Import Floats.SpecFloat.
From S2P Require Import Prelude Block Checksum.

(** ** The filter *)

Record BloomFilter := mkBloom { bits : bytes; num_hashes : Z }.

(** The [i]-th probe: [(h1.wrapping_add(h2.wrapping_mul(i))) as usize % num_bits]. *)
Definition bit_pos (h num_bits i : Z) : Z :=
  let h1 := as_u32 h in
  let h2 := as_u32 (Z.shiftr h 32) in
  as_u32 (h1 + as_u32 (h2 * i)) mod num_bits.

Definition mask (pos : Z) : Z := Z.shiftl 1 (pos mod 8).

Section Filter.
Context `{Target} `{X : Xxh3}.

(** [for i in 0..self.num_hashes], from [i] on. *)
Fixpoint probe_loop (n : nat) (bits : bytes) (h num_bits i : Z) : outcome bool :=
  match n with
  | O => Ok true
  | S n =>
      let pos := bit_pos h num_bits i in
      b ← expect (getz bits (pos / 8));
      if Z.land (byte.unsigned b) (mask pos) =? 0 then Ok false
      else probe_loop n bits h num_bits (i + 1)
  end.

Definition may_contain (f : BloomFilter) (key : bytes) : outcome bool :=
  if len (bits f) =? 0 then Ok true
  else
    let num_bits := usize_wrap (len (bits f) * 8) in
    if num_bits =? 0 then Panic
    else probe_loop (Z.to_nat (num_hashes f)) (bits f) (xxh3_64 key) num_bits 0.

(** ** Building *)

Record BloomFilterBuilder := mkBloomBuilder { bloom_keys : list bytes; bits_per_key : Z }.

Definition bloom_builder_new (bits_per_key : Z) : BloomFilterBuilder := mkBloomBuilder [] bits_per_key.

Definition add_key (b : BloomFilterBuilder) (key : bytes) : BloomFilterBuilder :=
  mkBloomBuilder (bloom_keys b ++ [key]) (bits_per_key b).

(** [bits_per_key as f64 * 0.69], in IEEE double arithmetic: the literal is the
    double nearest to 0.69. *)
Definition f64_069 : spec_float := S754_finite false 6214967485771284 (-53).
Definition f64_of_usize (n : Z) : spec_float := binary_normalize 53 1024 n 0 false.

(** [as u32] on a double: truncates towards zero and saturates. *)
Definition f64_as_u32 (x : spec_float) : Z :=
  match x with
  | S754_finite false m e => Z.min (Z.shiftl (Z.pos m) e) U32_MAX
  | S754_infinity false => U32_MAX
  | _ => 0
  end.

Definition optimal_hashes (bits_per_key : Z) : Z :=
  f64_as_u32 (SFmul 53 1024 (f64_of_usize bits_per_key) f64_069).

(** [bits[pos / 8] |= 1 << (pos % 8)]. *)
Definition set_bit (bits : bytes) (pos : Z) : outcome bytes :=
  b ← expect (getz bits (pos / 8));
  Ok (<[Z.to_nat (pos / 8) := byte.of_Z (Z.lor (byte.unsigned b) (mask pos))]> bits).

Fixpoint set_loop (n : nat) (bits : bytes) (h num_bits i : Z) : outcome bytes :=
  match n with
  | O => Ok bits
  | S n =>
      bits ← set_bit bits (bit_pos h num_bits i);
      set_loop n bits h num_bits (i + 1)
  end.

Fixpoint set_keys (keys : list bytes) (num_hashes : Z) (bits : bytes) (num_bits : Z)
  : outcome bytes :=
  match keys with
  | [] => Ok bits
  | key :: keys =>
      bits ← set_loop (Z.to_nat num_hashes) bits (xxh3_64 key) num_bits 0;
      set_keys keys num_hashes bits num_bits
  end.

Definition div_ceil (a b : Z) : Z := (a + b - 1) / b.

Definition build (b : BloomFilterBuilder) : outcome BloomFilter :=
  if bool_decide (bloom_keys b = []) then Ok (mkBloom [] 0)
  else
    let num_bits := Z.max (usize_wrap (len (bloom_keys b) * bits_per_key b)) 64 in
    let num_bytes := div_ceil num_bits 8 in
    let num_bits := usize_wrap (num_bytes * 8) in
    let num_hashes := Z.max (optimal_hashes (bits_per_key b)) 1 in
    let num_hashes := Z.min num_hashes 30 in
    if num_bits =? 0 then Panic
    else
      bits ← set_keys (bloom_keys b) num_hashes (replicate (Z.to_nat num_bytes) Byte.x00) num_bits;
      Ok (mkBloom bits num_hashes).

End Filter.

Definition encode_bloom_block (bloom : BloomFilter) : bytes :=
  to_le 4 (num_hashes bloom) ++ bits bloom.

Definition decode_bloom_block (data : bytes) : BloomFilter :=
  if len data <? 4 then mkBloom [] 0
  else mkBloom (dropz 4 data) (from_le (takez 4 data)).

(** ** Prefix entries *)

Definition CF_PREFIX_LEN : Z := 4.
Definition META_CF_ID : Z := 0.

Definition prefix_key (cf_id : Z) (key : bytes) : bytes := to_be 4 cf_id ++ key.

(** A caller's [PrefixExtractor]. *)
Record PrefixExtractor := mkExtractor {
  extract : bytes -> option bytes;
  extract_query : bytes -> option bytes;
  name : bytes;
}.

(** The trait's provided [extract_query]. *)
Definition default_extract_query (extract : bytes -> option bytes) (prefix : bytes) : option bytes :=
  match extract prefix with
  | Some extracted => if bool_decide (extracted = prefix) then Some extracted else None
  | None => None
  end.

(** [FixedLengthPrefix(n)]; the name is made once per width elsewhere. *)
Definition fixed_extract (n : Z) (key : bytes) : option bytes :=
  if n <=? len key then Some (takez n key) else None.
Definition FixedLengthPrefix (n : Z) (name : bytes) : PrefixExtractor :=
  mkExtractor (fixed_extract n) (fixed_extract n) name.

Inductive PrefixForm := EngineKey | CallerKey | Named.

#[export] Instance PrefixForm_eq_dec : EqDecision PrefixForm.
Proof. solve_decision. Defined.

Definition tag (form : PrefixForm) : Z :=
  match form with EngineKey => 0 | CallerKey => 1 | Named => 2 end.

Definition from_tag (t : Z) : option PrefixForm :=
  if t =? 0 then Some EngineKey
  else if t =? 1 then Some CallerKey
  else if t =? 2 then Some Named
  else None.

(** An engine key's family id and the caller's key. *)
Definition callers (prefixed : bytes) : option (bytes * bytes) :=
  if len prefixed <? CF_PREFIX_LEN then None
  else
    let family := takez CF_PREFIX_LEN prefixed in
    if from_be family =? META_CF_ID then None else Some (family, dropz CF_PREFIX_LEN prefixed).

(** The bloom entry for an engine key; [None] is the [false] with an empty
    buffer. *)
Definition entry (form : PrefixForm) (extractor : PrefixExtractor) (prefixed : bytes)
  : option bytes :=
  match form with
  | CallerKey | Named =>
      match callers prefixed with
      | None => None
      | Some (family, key) =>
          match extract extractor key with
          | None => None
          | Some prefix => Some (family ++ prefix)
          end
      end
  | EngineKey => extract extractor prefixed
  end.

Record PrefixProbe := mkProbe { probe_name : bytes; caller_key : option bytes }.

Definition probe_new (extractor : PrefixExtractor) (prefixed : bytes) : PrefixProbe :=
  mkProbe (name extractor)
    (match callers prefixed with
     | None => None
     | Some (family, prefix) =>
         match extract_query extractor prefix with
         | None => None
         | Some extracted => Some (family ++ extracted)
         end
     end).

Definition key_for (probe : PrefixProbe) (built_by : bytes) : option bytes :=
  if bool_decide (built_by = probe_name probe) then caller_key probe else None.

(** ** The filter region *)

Definition PREFIX_LEN_HEADER : Z := 8.
Definition PREFIX_FORM_SHIFT : Z := 56.
Definition PREFIX_LEN_MASK : Z := Z.shiftl 1 PREFIX_FORM_SHIFT - 1.
Definition MIN_BLOOM_BLOCK : Z := 4.

Definition prefix_header (form : PrefixForm) (prefix_len : Z) : outcome bytes :=
  if PREFIX_LEN_MASK <? prefix_len
  then Err (invalid_data "prefix bloom is too large to record")
  else
    let form := if prefix_len =? 0 then 0 else tag form in
    Ok (to_le 8 (Z.lor (Z.shiftl form PREFIX_FORM_SHIFT) prefix_len)).

Definition prefix_section (form : PrefixForm) (name bloom : bytes) : bytes :=
  if negb (bool_decide (form = Named)) || (len bloom =? 0) then bloom
  else encode_varint (len name) ++ name ++ bloom.

Record FilterBlock := mkFilter { user : BloomFilter; prefix : option (bytes * BloomFilter) }.

(** The prefix filter of a section in the named form. *)
Definition decode_named `{Target} (section : bytes) : outcome (bytes * BloomFilter) :=
  '(name_len, at_) ← match read_varint section 0 with
                     | Err _ => Err (invalid_data "prefix bloom name length is malformed")
                     | r => r
                     end;
  name ← ok_or (match checked_add at_ name_len with
                | Some end_ => slice section at_ end_
                | None => None
                end) (invalid_data "prefix bloom name exceeds its section");
  bloom ← expect (slice section (at_ + len name) (len section));
  if len bloom <? MIN_BLOOM_BLOCK then Err (invalid_data "prefix bloom block too short")
  else Ok (name, decode_bloom_block bloom).

Definition filter_decode `{Target} (region : bytes) : outcome FilterBlock :=
  if len region <? PREFIX_LEN_HEADER
  then Err (invalid_data "bloom region too short for prefix-bloom length header")
  else
    let header := from_le (takez PREFIX_LEN_HEADER region) in
    let form := from_tag (Z.land (Z.shiftr header PREFIX_FORM_SHIFT) 255) in
    let prefix_len := Z.land header PREFIX_LEN_MASK in
    if usize_max <? prefix_len
    then Err (invalid_data "prefix bloom length is too large to address")
    else
      user_offset ← ok_or (checked_add PREFIX_LEN_HEADER prefix_len)
                          (invalid_data "prefix bloom length overflows");
      if len region <? user_offset
      then Err (invalid_data "prefix bloom length exceeds bloom region")
      else if (0 <? prefix_len) && (prefix_len <? MIN_BLOOM_BLOCK)
      then Err (invalid_data "prefix bloom block too short")
      else if len region - user_offset <? MIN_BLOOM_BLOCK
      then Err (invalid_data "user bloom block too short")
      else
        section ← expect (slice region PREFIX_LEN_HEADER user_offset);
        prefix ← match (if 0 <? prefix_len then form else None) with
                 | Some Named => p ← decode_named section; Ok (Some p)
                 | _ => Ok None
                 end;
        Ok (mkFilter (decode_bloom_block (dropz user_offset region)) prefix).

Definition filter_may_contain `{Target} `{Xxh3} (f : FilterBlock) (user_key : bytes) : outcome bool :=
  may_contain (user f) user_key.

Definition may_have_prefix `{Target} `{Xxh3} (f : FilterBlock) (probe : PrefixProbe) : outcome bool :=
  match prefix f with
  | Some (built_by, filter) =>
      match key_for probe built_by with
      | None => Ok true
      | Some key => may_contain filter key
      end
  | None => Ok true
  end.

(** ** Feeding the filters *)

(** The fields of [SsTableWriter] that [add] and [finish] build the filter
    region from. *)
Record FilterWriter := mkFilterWriter {
  fw_bloom : BloomFilterBuilder;
  fw_prefix : option (PrefixExtractor * BloomFilterBuilder);
  fw_form : PrefixForm;
  last_bloom_user_key : bytes;
  last_prefix : option bytes;
}.

Definition filter_writer_new (bits_per_key : Z) (extractor : option PrefixExtractor)
  (form : PrefixForm) : FilterWriter :=
  mkFilterWriter (bloom_builder_new bits_per_key)
    ((fun e => (e, bloom_builder_new bits_per_key)) <$> extractor) form [] None.

(** The [if first_of_key] branch of [SsTableWriter::add]. *)
Definition feed (w : FilterWriter) (user_key : bytes) : FilterWriter :=
  if bool_decide (user_key = last_bloom_user_key w) then w
  else
    let bloom := add_key (fw_bloom w) user_key in
    match fw_prefix w with
    | Some (extractor, builder) =>
        match entry (fw_form w) extractor user_key with
        | Some e =>
            if bool_decide (last_prefix w = Some e)
            then mkFilterWriter bloom (fw_prefix w) (fw_form w) user_key (last_prefix w)
            else mkFilterWriter bloom (Some (extractor, add_key builder e)) (fw_form w) user_key
                   (Some e)
        | None => mkFilterWriter bloom (fw_prefix w) (fw_form w) user_key (last_prefix w)
        end
    | None => mkFilterWriter bloom None (fw_form w) user_key (last_prefix w)
    end.

(** The bloom region [SsTableWriter::finish] writes. *)
Definition finish_region `{Target} `{Xxh3} (w : FilterWriter) : outcome bytes :=
  prefix_data ← match fw_prefix w with
                | Some (extractor, builder) =>
                    f ← build builder;
                    Ok (prefix_section (fw_form w) (name extractor) (encode_bloom_block f))
                | None => Ok []
                end;
  user_bloom ← build (fw_bloom w);
  header ← prefix_header (fw_form w) (len prefix_data);
  Ok (header ++ prefix_data ++ encode_bloom_block user_bloom).

(** ** Bits *)

(** Whether bit [pos] of the array is set. *)
Definition test_bit (bits : bytes) (pos : Z) : bool :=
  match getz bits (pos / 8) with
  | Some b => Z.testbit (byte.unsigned b) (pos mod 8)
  | None => false
  end.

Lemma land_mask z pos : (Z.land z (mask pos) =? 0) = negb (Z.testbit z (pos mod 8)).
Proof.
  unfold mask. pose proof (Z.mod_pos_bound pos 8 ltac:(lia)) as Hm.
  set (k := pos mod 8) in *. rewrite Z.shiftl_1_l.
  destruct (Z.testbit z k) eqn:E; simpl.
  - apply Z.eqb_neq. intros H0. apply (f_equal (fun y => Z.testbit y k)) in H0.
    rewrite Z.land_spec, E, Z.pow2_bits_true, Z.bits_0 in H0 by lia. done.
  - apply Z.eqb_eq, Z.bits_inj'. intros i Hi. rewrite Z.land_spec, Z.bits_0, Z.pow2_bits_eqb by lia.
    destruct (Z.eqb_spec k i) as [<-|]; [by rewrite E|apply andb_false_r].
Qed.

Lemma lor_mask_byte b pos :
  byte.unsigned (byte.of_Z (Z.lor (byte.unsigned b) (mask pos))) = Z.lor (byte.unsigned b) (mask pos).
Proof.
  rewrite byte.unsigned_of_Z. unfold byte.wrap, mask.
  pose proof (Z.mod_pos_bound pos 8 ltac:(lia)) as Hm. rewrite Z.shiftl_1_l.
  rewrite <- Z.land_ones, Z.land_lor_distr_l, !Z.land_ones by lia.
  rewrite (Z.mod_small (byte.unsigned b)) by apply byte.unsigned_range.
  rewrite Z.mod_small; [done|]. split; [apply Z.pow_nonneg; lia|apply Z.pow_lt_mono_r; lia].
Qed.

Lemma getz_insert {A} (l : list A) i j x :
  0 <= i < len l -> getz (<[Z.to_nat i := x]> l) j = if j =? i then Some x else getz l j.
Proof.
  intros Hi. unfold getz. destruct (Z.leb_spec 0 j) as [Hj|Hj]; [|by destruct (Z.eqb_spec j i); [lia|]].
  destruct (Z.eqb_spec j i) as [->|Hne].
  - apply list_lookup_insert_eq. unfold len in Hi. lia.
  - apply list_lookup_insert_ne. lia.
Qed.

(** Setting a bit sets that bit and no other. *)
Lemma set_bit_spec bits pos :
  0 <= pos < len bits * 8 ->
  exists bits', set_bit bits pos = Ok bits' /\ len bits' = len bits /\
    forall q, 0 <= q -> test_bit bits' q = test_bit bits q || (q =? pos).
Proof.
  intros Hp. pose proof (Z.div_mod pos 8 ltac:(lia)). pose proof (Z.mod_pos_bound pos 8 ltac:(lia)).
  assert (Hi : 0 <= pos / 8 < len bits) by lia. destruct (getz_is_Some _ _ Hi) as [b Hb].
  unfold set_bit. rewrite Hb. run. eexists. split; [done|]. split.
  { unfold len. by rewrite length_insert. }
  intros q Hq. unfold test_bit. rewrite getz_insert by done.
  pose proof (Z.div_mod q 8 ltac:(lia)). pose proof (Z.mod_pos_bound q 8 ltac:(lia)).
  destruct (Z.eqb_spec (q / 8) (pos / 8)) as [E|Hne].
  - rewrite E, Hb, lor_mask_byte, Z.lor_spec. f_equal. unfold mask.
    rewrite Z.shiftl_1_l, Z.pow2_bits_eqb by lia.
    destruct (Z.eqb_spec (pos mod 8) (q mod 8)), (Z.eqb_spec q pos); try done; lia.
  - destruct (Z.eqb_spec q pos) as [->|]; [done|]. by rewrite orb_false_r.
Qed.

(** ** What the filter answers *)

Section Negatives.
Context `{Target} `{X : Xxh3}.

(** Bit [q] is one of the [nh] bits of the hash [h]. *)
Definition sets (h nb nh q : Z) : bool :=
  existsb (fun j => q =? bit_pos h nb (Z.of_nat j)) (seq 0 (Z.to_nat nh)).

(** Every bit of [key] is a bit of one of [keys]: the key is one of them, or they
    make it a false positive. *)
Definition covered (keys : list bytes) (nb nh : Z) (key : bytes) : bool :=
  forallb (fun i => existsb (fun k => sets (xxh3_64 k) nb nh (bit_pos (xxh3_64 key) nb (Z.of_nat i))) keys)
    (seq 0 (Z.to_nat nh)).

Lemma bit_pos_range h nb i : 0 < nb -> 0 <= bit_pos h nb i < nb.
Proof. intros. by apply Z.mod_pos_bound. Qed.

Lemma existsb_seq_S (f : nat -> bool) n : existsb f (seq 0 (S n)) = f 0%nat || existsb (fun j => f (S j)) (seq 0 n).
Proof. cbn [seq existsb]. f_equal. rewrite <- seq_shift. generalize (seq 0 n). intros l. induction l as [|x l IH]; [done|]. cbn. by rewrite IH. Qed.

Lemma forallb_seq_S (f : nat -> bool) n : forallb f (seq 0 (S n)) = f 0%nat && forallb (fun j => f (S j)) (seq 0 n).
Proof. cbn [seq forallb]. f_equal. rewrite <- seq_shift. generalize (seq 0 n). intros l. induction l as [|x l IH]; [done|]. cbn. by rewrite IH. Qed.

Lemma existsb_same {B} (f g : B -> bool) l : (forall x, f x = g x) -> existsb f l = existsb g l.
Proof. intros E. induction l as [|x l IH]; [done|]. cbn. by rewrite E, IH. Qed.

Lemma forallb_same {B} (f g : B -> bool) l : (forall x, f x = g x) -> forallb f l = forallb g l.
Proof. intros E. induction l as [|x l IH]; [done|]. cbn. by rewrite E, IH. Qed.

Lemma set_loop_spec n bits h nb i :
  0 < nb <= len bits * 8 ->
  exists bits', set_loop n bits h nb i = Ok bits' /\ len bits' = len bits /\
    forall q, 0 <= q -> test_bit bits' q = test_bit bits q || existsb (fun j => q =? bit_pos h nb (i + Z.of_nat j)) (seq 0 n).
Proof.
  revert bits i. induction n as [|n IH]; intros bits i Hnb; cbn [set_loop].
  { exists bits. split_and!; auto. intros q _. by rewrite orb_false_r. }
  pose proof (bit_pos_range h nb i ltac:(lia)) as Hr.
  destruct (set_bit_spec bits (bit_pos h nb i)) as (b1 & -> & Hl & Hb); [lia|]. run.
  destruct (IH b1 (i + 1)) as (b2 & -> & Hl2 & Hset); [lia..|].
  exists b2. split_and!; [done|lia|]. intros q Hq. rewrite Hset, Hb, existsb_seq_S, <- orb_assoc by done.
  rewrite Z.add_0_r. do 2 f_equal. apply existsb_same. intros j. do 2 f_equal. lia.
Qed.

Lemma set_keys_spec keys nh bits nb :
  0 < nb <= len bits * 8 ->
  exists bits', set_keys keys nh bits nb = Ok bits' /\ len bits' = len bits /\
    forall q, 0 <= q -> test_bit bits' q = test_bit bits q || existsb (fun k => sets (xxh3_64 k) nb nh q) keys.
Proof.
  intros Hnb. revert bits Hnb. induction keys as [|k keys IH]; intros bits Hnb; cbn [set_keys].
  { exists bits. split_and!; auto. intros q _. by rewrite orb_false_r. }
  destruct (set_loop_spec (Z.to_nat nh) bits (xxh3_64 k) nb 0) as (b1 & -> & Hl & Hs); [lia..|].
  run. destruct (IH b1) as (b2 & -> & Hl2 & Hs2); [lia|].
  exists b2. split_and!; [done|lia|]. intros q Hq. rewrite Hs2, Hs, <- orb_assoc by done. done.
Qed.

Lemma probe_loop_spec n bits h nb i :
  0 < nb <= len bits * 8 ->
  probe_loop n bits h nb i = Ok (forallb (fun j => test_bit bits (bit_pos h nb (i + Z.of_nat j))) (seq 0 n)).
Proof.
  intros Hnb. revert i. induction n as [|n IH]; intros i; cbn [probe_loop]; [done|].
  pose proof (bit_pos_range h nb i ltac:(lia)) as Hr.
  pose proof (Z.div_mod (bit_pos h nb i) 8 ltac:(lia)).
  pose proof (Z.mod_pos_bound (bit_pos h nb i) 8 ltac:(lia)).
  destruct (getz_is_Some bits (bit_pos h nb i / 8)) as [b Hb]; [lia|]. rewrite Hb. run.
  rewrite land_mask, forallb_seq_S, Z.add_0_r. unfold test_bit at 1. rewrite Hb.
  destruct (Z.testbit (byte.unsigned b) (bit_pos h nb i mod 8)); cbn [negb andb]; [|done].
  rewrite IH. f_equal. apply forallb_same. intros j. do 2 f_equal. lia.
Qed.

Lemma covered_set keys keys' nb nh key : (forall k, In k keys <-> In k keys') -> covered keys nb nh key = covered keys' nb nh key.
Proof.
  intros E. unfold covered. apply forallb_same. intros i. apply eq_true_iff_eq. rewrite !existsb_exists.
  split; intros (k & Hk & ?); exists k; (split; [by apply E|done]).
Qed.

Lemma covered_member keys nb nh key : In key keys -> covered keys nb nh key = true.
Proof.
  intros Hin. unfold covered. apply forallb_forall. intros i Hi. apply existsb_exists. exists key. split; [done|].
  unfold sets. apply existsb_exists. exists i. split; [done|apply Z.eqb_refl].
Qed.

Lemma isize_positive : 2 ^ 31 - 1 <= isize_max.
Proof. unfold isize_max. destruct usize_bits_ok as [-> | ->]; done. Qed.

(** A filter whose array is no longer than an allocation can be never panics. *)
Lemma may_contain_total f key : len (bits f) * 8 <= usize_max -> exists r, may_contain f key = Ok r.
Proof.
  intros Hl. unfold may_contain. destruct (Z.eqb_spec (len (bits f)) 0); [eauto|].
  pose proof (len_nonneg (bits f)). rewrite usize_wrap_small by lia. ztest.
  rewrite probe_loop_spec by lia. eauto.
Qed.

Lemma test_bit_zeros n q : test_bit (replicate n Byte.x00) q = false.
Proof.
  unfold test_bit, getz. destruct (0 <=? q / 8); [|done]. destruct (replicate n Byte.x00 !! _) as [b|] eqn:E; [|done].
  apply lookup_replicate in E as [-> _]. apply Z.bits_0.
Qed.

(** A filter built of some keys answers yes for exactly the keys whose bits are
    theirs. *)
Lemma build_answers b :
  0 <= bits_per_key b -> len (bloom_keys b) * bits_per_key b <= isize_max -> bloom_keys b <> [] ->
  exists f, build b = Ok f /\ len (bits f) * 8 <= usize_max /\ 1 <= num_hashes f <= 30 /\
    forall key, may_contain f key = Ok (covered (bloom_keys b) (len (bits f) * 8) (num_hashes f) key).
Proof.
  intros Hbpk Hsz Hne. unfold build. pose proof (len_nonneg (bloom_keys b)).
  pose proof isize_max_eq. pose proof isize_positive. rewrite bool_decide_eq_false_2 by done.
  rewrite (usize_wrap_small (_ * bits_per_key b)) by lia.
  set (nb0 := Z.max _ 64). set (nbytes := div_ceil nb0 8).
  assert (Hnb : nb0 <= nbytes * 8 <= nb0 + 7).
  { unfold nbytes, div_ceil. pose proof (Z.div_mod (nb0 + 8 - 1) 8 ltac:(lia)).
    pose proof (Z.mod_pos_bound (nb0 + 8 - 1) 8 ltac:(lia)). lia. }
  rewrite (usize_wrap_small (nbytes * 8)) by lia. ztest.
  set (nh := Z.min _ 30).
  set (zeros := replicate _ _). assert (Hz : len zeros = nbytes) by (unfold zeros; llia).
  destruct (set_keys_spec (bloom_keys b) nh zeros (nbytes * 8)) as (bs & -> & Hl & Hs); [lia..|].
  run. exists (mkBloom bs nh). cbn [bits num_hashes]. split_and!; [done|lia..|].
  intros key. unfold may_contain. cbn [bits num_hashes]. rewrite Hl, Hz.
  rewrite usize_wrap_small by lia. repeat ztest. rewrite probe_loop_spec by lia. f_equal.
  apply forallb_same. intros i. cbn [Z.add]. rewrite Hs by (apply (bit_pos_range _ (nbytes * 8)); lia).
  unfold zeros. by rewrite test_bit_zeros.
Qed.

Lemma build_spec b :
  0 <= bits_per_key b -> len (bloom_keys b) * bits_per_key b <= isize_max ->
  exists f, build b = Ok f /\ len (bits f) * 8 <= usize_max /\ 0 <= num_hashes f <= 30 /\
    forall key, In key (bloom_keys b) -> may_contain f key = Ok true.
Proof.
  intros Hbpk Hsz. destruct (decide (bloom_keys b = [])) as [E|Hne].
  - exists (mkBloom [] 0). unfold build. rewrite bool_decide_eq_true_2, E by done. split_and!; try done.
    pose proof isize_max_eq. pose proof isize_positive. cbn. llia.
  - destruct (build_answers b Hbpk Hsz Hne) as (f & -> & Hl & Hn & Hk). exists f. split_and!; try done; [lia|lia|].
    intros key Hin. by rewrite Hk, covered_member.
Qed.

Lemma decode_encode_bloom f :
  is_u32 (num_hashes f) -> decode_bloom_block (encode_bloom_block f) = f.
Proof.
  intros Hn. unfold decode_bloom_block, encode_bloom_block. ztest.
  rewrite dropz_app, takez_app, from_to_u32 by (done || llia). by destruct f.
Qed.

End Negatives.

(** ** The region round-trips *)

Lemma header_value f n :
  0 <= f < 256 -> 0 <= n <= PREFIX_LEN_MASK ->
  let h := Z.lor (Z.shiftl f PREFIX_FORM_SHIFT) n in
  is_u64 h /\ Z.land (Z.shiftr h PREFIX_FORM_SHIFT) 255 = f /\ Z.land h PREFIX_LEN_MASK = n.
Proof.
  intros Hf Hn h. unfold PREFIX_LEN_MASK in *. change (Z.shiftl 1 PREFIX_FORM_SHIFT) with (2 ^ 56) in *.
  assert (Hh : h = n + f * 2 ^ 56).
  { unfold h, PREFIX_FORM_SHIFT. rewrite Z.lor_comm. apply lor_shiftl_add; lia. }
  rewrite Hh. unfold PREFIX_FORM_SHIFT. split_and!; [unfold is_u64; lia..| |].
  - change 255 with (Z.ones 8). rewrite Z.land_ones, Z.shiftr_div_pow2 by lia.
    rewrite Z.div_add, Z.div_small, Z.mod_small by lia. lia.
  - change (2 ^ 56 - 1) with (Z.ones 56). rewrite Z.land_ones, Z_mod_plus_full by lia.
    apply Z.mod_small. lia.
Qed.

Lemma decode_named_section `{Target} nm f :
  len (prefix_section Named nm (encode_bloom_block f)) <= usize_max -> is_u32 (num_hashes f) ->
  decode_named (prefix_section Named nm (encode_bloom_block f)) = Ok (nm, f).
Proof.
  intros Hl Hf. set (bloom := encode_bloom_block f) in *.
  assert (Hb : 4 <= len bloom) by (unfold bloom, encode_bloom_block; llia).
  unfold prefix_section in *. revert Hl. cbn [bool_decide decide_rel negb orb]. ztest. intros Hl.
  change (negb (bool_decide (Named = Named)) || false) with false in *. cbv iota in *.
  unfold decode_named.
  pose proof (read_varint_encoded [] (len nm) (nm ++ bloom) 0 eq_refl) as Hv. cbn [app] in Hv.
  rewrite Hv by llia. run. rewrite Z.add_0_l. unfold checked_add. ztest.
  rewrite slice_app by done. run.
  rewrite (slice_at _ (encode_varint (len nm) ++ nm) bloom []); [|by rewrite app_nil_r, <- app_assoc|llia..].
  run. unfold MIN_BLOOM_BLOCK. ztest. unfold bloom. by rewrite decode_encode_bloom.
Qed.

Lemma region_decodes `{Target} form header section fu p :
  prefix_header form (len section) = Ok header -> is_u32 (num_hashes fu) ->
  (len section = 0 \/ 4 <= len section) ->
  len (header ++ section ++ encode_bloom_block fu) <= usize_max ->
  match (if 0 <? len section then Some form else None) with
  | Some Named => p ← decode_named section; Ok (Some p)
  | _ => Ok None
  end = Ok p ->
  filter_decode (header ++ section ++ encode_bloom_block fu) = Ok (mkFilter fu p).
Proof.
  unfold prefix_header. destruct (Z.ltb_spec PREFIX_LEN_MASK (len section)) as [|Hmask]; [done|].
  intros [= <-] Hf Hs Hlen Hp. pose proof (len_nonneg section).
  assert (Hul : 4 <= len (encode_bloom_block fu)) by (unfold encode_bloom_block; llia).
  set (ub := encode_bloom_block fu) in *.
  set (tg := if len section =? 0 then 0 else tag form) in *.
  assert (Htg : 0 <= tg < 256) by (unfold tg; destruct (_ =? _), form; simpl; lia).
  destruct (header_value tg (len section) Htg ltac:(lia)) as (Hu & Hform & Hplen).
  unfold filter_decode, PREFIX_LEN_HEADER. ztest.
  rewrite takez_app by llia. rewrite from_to_u64 by done. rewrite Hform, Hplen.
  ztest. unfold checked_add. ztest. run. ztest.
  assert ((0 <? len section) && (len section <? MIN_BLOOM_BLOCK) = false) as ->.
  { unfold MIN_BLOOM_BLOCK. destruct (Z.ltb_spec 0 (len section)), (Z.ltb_spec (len section) 4);
      try done; lia. }
  unfold MIN_BLOOM_BLOCK. ztest. rewrite slice_app by llia. run.
  assert (Hff : (if 0 <? len section then from_tag tg else None) =
                (if 0 <? len section then Some form else None)).
  { unfold tg. destruct (Z.ltb_spec 0 (len section)); [|done]. ztest. by destruct form. }
  rewrite Hff, Hp. run. rewrite app_assoc, dropz_app by llia. unfold ub.
  by rewrite decode_encode_bloom.
Qed.

Lemma decode_named_returns `{Target} section : returns (decode_named section).
Proof.
  apply returns_bind.
  { pose proof (read_varint_returns section 0). by destruct (read_varint section 0). }
  intros [n at_] Hv. destruct (read_varint section 0) as [[n' at']| | |] eqn:E; try done.
  injection Hv as -> ->. apply read_varint_Ok in E as [? ?]; [|done].
  apply returns_bind; [apply returns_ok_or|]. intros nm Hn%ok_or_Ok. unfold checked_add in Hn.
  destruct (_ <=? usize_max); [|done]. pose proof (slice_len _ _ _ _ Hn).
  apply slice_Some in Hn as (? & ? & _).
  destruct (slice section (at_ + len nm) (len section)) eqn:Es; [|apply slice_None in Es; lia].
  run. by destruct (_ <? _).
Qed.

Lemma filter_decode_returns `{Target} region : returns (filter_decode region).
Proof.
  unfold filter_decode, PREFIX_LEN_HEADER. destruct (Z.ltb_spec (len region) 8); [done|].
  cbn zeta. set (pl := Z.land (from_le _) PREFIX_LEN_MASK).
  assert (0 <= pl) by (apply Z.land_nonneg; right; vm_compute; discriminate).
  destruct (_ <? pl); [done|]. apply returns_bind; [apply returns_ok_or|].
  intros uo Huo%ok_or_Ok%checked_add_Some. destruct (Z.ltb_spec (len region) uo); [done|].
  destruct (_ && _); [done|]. destruct (_ <? _); [done|].
  destruct (slice region 8 uo) eqn:Es; [|apply slice_None in Es; lia]. run.
  apply returns_bind; [|done]. destruct (if 0 <? pl then _ else None) as [[]|]; try done.
  apply returns_bind; [apply decode_named_returns|done].
Qed.

(** ** Feeding *)

Definition feed_all (w : FilterWriter) (user_keys : list bytes) : FilterWriter :=
  fold_left feed user_keys w.

(** What the writer has in its builders after some keys. *)
Record fed (w : FilterWriter) (bpk : Z) (e : option PrefixExtractor) (form : PrefixForm)
  (ks : list bytes) : Prop := {
  fed_bpk : bits_per_key (fw_bloom w) = bpk;
  fed_form : fw_form w = form;
  fed_len : len (bloom_keys (fw_bloom w)) <= len ks;
  fed_keys : forall k, In k ks -> k <> [] -> In k (bloom_keys (fw_bloom w));
  fed_last : last_bloom_user_key w = [] \/ In (last_bloom_user_key w) ks;
  fed_prefix : match fw_prefix w with
    | None => e = None
    | Some (e', b) =>
        e = Some e' /\ bits_per_key b = bpk /\ len (bloom_keys b) <= len ks /\
        (forall p, In p (bloom_keys b) -> exists k, In k ks /\ entry form e' k = Some p) /\
        (forall p, last_prefix w = Some p -> In p (bloom_keys b)) /\
        (forall k p, In k ks -> k <> [] -> entry form e' k = Some p -> In p (bloom_keys b))
    end;
}.

Lemma feed_fed w bpk e form ks k : fed w bpk e form ks -> fed (feed w k) bpk e form (ks ++ [k]).
Proof.
  intros [Hb Hf Hl Hk Hla Hp]. unfold feed.
  assert (Hin : forall P : bytes -> Prop, (forall x, In x ks -> P x) -> P k ->
    forall x, In x (ks ++ [k]) -> P x).
  { intros P Hks Hkk x [Hx|[<-|[]]]%in_app_or; auto. }
  destruct (bool_decide_reflect (k = last_bloom_user_key w)) as [->|Hne].
  - split; auto; [llia|..].
    + intros x. apply (Hin (fun x => x <> [] -> In x (bloom_keys (fw_bloom w)))); [auto|].
      intros Hx. destruct Hla; [done|auto].
    + destruct Hla as [|Hla]; [by left|right; apply in_or_app; by left].
    + destruct (fw_prefix w) as [[e' b]|]; [|done].
      destruct Hp as (He & Hb' & Hl' & Hof & Hlp & Hpk).
      split_and!; auto; [llia|intros p Hp; destruct (Hof p Hp) as (x & Hx & ?); exists x; split; [apply in_or_app; by left|done]|].
      intros x p. apply (Hin (fun x => x <> [] -> entry form e' x = Some p -> In p (bloom_keys b)));
        [intros y Hy; by apply Hpk|].
      intros Hx. destruct Hla; [done|]. by apply Hpk.
  - assert (Hbk : forall x, In x (ks ++ [k]) -> x <> [] -> In x (bloom_keys (fw_bloom w) ++ [k])).
    { intros x Hx Hx0. apply in_or_app. apply in_app_or in Hx as [Hx|Hx]; [left; auto|by right]. }
    assert (Hlk : In k (ks ++ [k])) by (apply in_or_app; right; by left).
    destruct (fw_prefix w) as [[e' b]|] eqn:Ep.
    2:{ split; simpl; auto; llia. }
    destruct Hp as (He & Hb' & Hl' & Hof & Hlp & Hpk).
    assert (Hof' : forall p, In p (bloom_keys b) -> exists x, In x (ks ++ [k]) /\ entry form e' x = Some p).
    { intros p Hp. destruct (Hof p Hp) as (x & Hx & ?). exists x. split; [apply in_or_app; by left|done]. }
    destruct (entry (fw_form w) e' k) as [p|] eqn:Ee; [destruct (bool_decide_reflect (last_prefix w = Some p))|];
      (split; simpl; auto; [llia|]); rewrite ?Ep; split_and!; auto; try llia; rewrite Hf in Ee.
    + intros x q. apply (Hin (fun x => x <> [] -> entry form e' x = Some q -> In q (bloom_keys b)));
        [intros y Hy; by apply Hpk|]. intros _ E. rewrite Ee in E. injection E as <-. auto.
    + intros q [Hq|[<-|[]]]%in_app_or; [auto|]. exists k. done.
    + intros q [= <-]. apply in_or_app. right. by left.
    + intros x q Hx Hx0 E. apply in_or_app. apply in_app_or in Hx as [Hx|[<-|[]]]; [left; eauto|].
      right. left. congruence.
    + intros x q. apply (Hin (fun x => x <> [] -> entry form e' x = Some q -> In q (bloom_keys b)));
        [intros y Hy; by apply Hpk|]. intros _ E. congruence.
Qed.

Lemma feed_all_fed bpk e form ks :
  fed (feed_all (filter_writer_new bpk e form) ks) bpk e form ks.
Proof.
  induction ks as [|k ks IH] using rev_ind.
  - split; simpl; auto; [done|]. destruct e; simpl; [|done]. split_and!; auto; try done.
  - unfold feed_all. rewrite fold_left_app. by apply feed_fed.
Qed.

(** ** Never skipping *)

(** The contract of the trait: what [extract_query] returns for a prefix is safe
    to probe, that is, it is what [extract] carves out of every key with that
    prefix. *)
Definition extractor_sound (e : PrefixExtractor) : Prop :=
  forall p s q, extract_query e p = Some q -> extract e (p ++ s) = Some q.

Lemma callers_app p s family pre :
  callers p = Some (family, pre) -> callers (p ++ s) = Some (family, pre ++ s).
Proof.
  unfold callers, CF_PREFIX_LEN. destruct (Z.ltb_spec (len p) 4); [done|]. cbn zeta.
  pose proof (len_nonneg s). ztest. rewrite takez_app_le, dropz_app_le by lia.
  destruct (_ =? META_CF_ID); [done|]. by intros [= <- <-].
Qed.

Lemma callers_prefix cf key : is_u32 cf -> cf <> META_CF_ID -> callers (prefix_key cf key) = Some (to_be 4 cf, key).
Proof.
  intros Hcf Hm. unfold callers, prefix_key, CF_PREFIX_LEN. pose proof (len_nonneg key).
  pose proof (len_to_be 4 cf). rewrite len_app. ztest. rewrite takez_app, dropz_app by done.
  rewrite from_to_be by (unfold is_u32, U32_MAX in Hcf; lia). by destruct (Z.eqb_spec cf META_CF_ID).
Qed.

(** The probe of a seek is the entry of every key the seek is for. *)
Lemma probe_is_entry form e p s q :
  form <> EngineKey -> extractor_sound e -> caller_key (probe_new e p) = Some q ->
  entry form e (p ++ s) = Some q.
Proof.
  intros Hf Hs. unfold probe_new. cbn [caller_key].
  destruct (callers p) as [[family pre]|] eqn:Ec; [|done].
  destruct (extract_query e pre) as [x|] eqn:Eq; [|done]. intros [= <-].
  unfold entry. rewrite (callers_app _ s _ _ Ec), (Hs _ s _ Eq). by destruct form.
Qed.

Section NeverSkips.
Context `{Target} `{X : Xxh3}.
Context (bpk : Z) (e : option PrefixExtractor) (form : PrefixForm) (ks : list bytes).
Context (Hbpk : 0 <= bpk) (Hsz : len ks * bpk <= isize_max).

Let w := feed_all (filter_writer_new bpk e form) ks.

Lemma build_fed b :
  bits_per_key b = bpk -> len (bloom_keys b) <= len ks ->
  exists f, build b = Ok f /\ len (bits f) * 8 <= usize_max /\ is_u32 (num_hashes f) /\
    forall key, In key (bloom_keys b) -> may_contain f key = Ok true.
Proof.
  intros Hb Hl. pose proof (len_nonneg (bloom_keys b)).
  destruct (build_spec b) as (f & Hf & Hlen & Hn & Hk); [lia|nia|].
  exists f. split_and!; auto; unfold is_u32; lia.
Qed.

Lemma section_len nm f :
  4 <= len (prefix_section form nm (encode_bloom_block f)).
Proof.
  assert (4 <= len (encode_bloom_block f)) by (unfold encode_bloom_block; llia).
  unfold prefix_section. destruct (_ || _); llia.
Qed.

Lemma finish_region_returns : returns (finish_region w).
Proof.
  destruct (feed_all_fed bpk e form ks : fed w bpk e form ks) as [Hb Hf Hl _ _ Hp].
  unfold finish_region. apply returns_bind.
  { destruct (fw_prefix w) as [[e' b]|]; [|done]. destruct Hp as (_ & Hb' & Hl' & _).
    destruct (build_fed b) as (f & -> & _); done. }
  intros pd _. destruct (build_fed (fw_bloom w)) as (f & -> & _); [done..|]. run.
  apply returns_bind; [|done]. unfold prefix_header. by destruct (_ <? _).
Qed.

Lemma filters_never_rule_out_aux region :
  finish_region w = Ok region -> len region <= usize_max ->
  exists fb, filter_decode region = Ok fb /\
    (forall k, In k ks -> k <> [] -> filter_may_contain fb k = Ok true) /\
    (forall run p s, extractor_sound run -> (forall b, e = Some b -> name b = name run -> b = run) ->
       In (p ++ s) ks -> p ++ s <> [] -> may_have_prefix fb (probe_new run p) = Ok true).
Proof.
  destruct (feed_all_fed bpk e form ks : fed w bpk e form ks) as [Hb Hf Hl Hk _ Hp].
  destruct (build_fed (fw_bloom w)) as (fu & Hfu & Hful & Hfun & Hfuk); [done..|].
  unfold finish_region. intros (pd & Hpd & E)%bind_Ok. rewrite Hfu in E. cbn [mbind outcome_bind] in E.
  apply bind_Ok in E as (header & Hh & [= <-]). intros Hlen. rewrite Hf in Hh, Hpd.
  assert (Huser : forall fb, user fb = fu -> forall k, In k ks -> k <> [] ->
    filter_may_contain fb k = Ok true).
  { intros fb E k Hin Hne. unfold filter_may_contain. rewrite E. auto. }
  destruct (fw_prefix w) as [[e' b]|].
  2:{ injection Hpd as <-. exists (mkFilter fu None).
      split; [apply (region_decodes form); auto; by left|]. split; [by apply Huser|done]. }
  destruct Hp as (He & Hb' & Hl' & _ & _ & Hpk).
  destruct (build_fed b) as (fp & Hfp & Hfpl & Hfpn & Hfpk); [done..|]. rewrite Hfp in Hpd.
  injection Hpd as <-. pose proof (section_len (name e') fp) as Hs4.
  exists (mkFilter fu (match form with Named => Some (name e', fp) | _ => None end)).
  split; [|split; [by apply Huser|]].
  - apply (region_decodes form); auto. ztest. destruct form; try done.
    rewrite decode_named_section; [done| |done]. pose proof (len_nonneg header).
    pose proof (len_nonneg (encode_bloom_block fu)). rewrite !len_app in Hlen. lia.
  - intros run p s Hsound Hname Hin Hne. unfold may_have_prefix. cbn [prefix].
    destruct form eqn:Eform; try done. unfold key_for.
    destruct (bool_decide_reflect (name e' = probe_name (probe_new run p))) as [En|]; [|done].
    rewrite (Hname e' He En) in *.
    destruct (caller_key (probe_new run p)) as [q|] eqn:Eq; [|done].
    apply Hfpk. apply (Hpk (p ++ s)); auto. by apply probe_is_entry.
Qed.

(** The prefix filter a [Named] table decodes to answers by the bits of the
    prefixes the table's keys were indexed under. *)
Lemma prefix_filter_answers ex region :
  e = Some ex -> form = Named -> finish_region w = Ok region -> len region <= usize_max -> omap (entry Named ex) ks <> [] ->
  exists fb fp, filter_decode region = Ok fb /\ prefix fb = Some (name ex, fp) /\ 1 <= num_hashes fp <= 30 /\
    forall key, may_contain fp key = Ok (covered (omap (entry Named ex) ks) (len (bits fp) * 8) (num_hashes fp) key).
Proof.
  intros Ee Ef. destruct (feed_all_fed bpk e form ks : fed w bpk e form ks) as [Hb Hf Hl _ _ Hp]. rewrite Ee, Ef in Hp.
  destruct (build_fed (fw_bloom w)) as (fu & Hfu & Hful & Hfun & _); [done..|].
  unfold finish_region. intros (pd & Hpd & E)%bind_Ok. rewrite Hfu in E. cbn [mbind outcome_bind] in E.
  apply bind_Ok in E as (header & Hh & [= <-]). intros Hlen Hne. rewrite Hf, Ef in Hh, Hpd.
  destruct (fw_prefix w) as [[e' b]|]; [|done]. destruct Hp as ([= <-] & Hb' & Hl' & Hof & _ & Hpk).
  assert (Hset : forall p, In p (bloom_keys b) <-> In p (omap (entry Named ex) ks)).
  { intros p. rewrite <- !list_elem_of_In, list_elem_of_omap. split.
    - intros Hp%list_elem_of_In. destruct (Hof p Hp) as (k & Hk%list_elem_of_In & ?). eauto.
    - intros (k & Hk%list_elem_of_In & Ek). apply list_elem_of_In, (Hpk k); [done| |done]. by intros ->. }
  destruct (build_answers b) as (fp & Hfp & Hfpl & Hfpn & Hfpk); [lia|pose proof (len_nonneg (bloom_keys b)); nia| |].
  { intros E. destruct (omap _ ks) as [|p l] eqn:Eo; [done|]. pose proof (proj2 (Hset p) ltac:(by left)) as Hp. by rewrite E in Hp. }
  rewrite Hfp in Hpd. injection Hpd as <-. pose proof (section_len (name ex) fp) as Hs4. rewrite Ef in Hs4.
  exists (mkFilter fu (Some (name ex, fp))), fp. split_and!; try done; [|lia|lia|].
  - apply (region_decodes Named); auto. ztest. rewrite decode_named_section; [done| |unfold is_u32; lia].
    pose proof (len_nonneg header). pose proof (len_nonneg (encode_bloom_block fu)). rewrite !len_app in Hlen. lia.
  - intros key. rewrite Hfpk. f_equal. by apply covered_set.
Qed.

End NeverSkips.

(** ** Properties *)

(** C31: a table's filters never hide a key it holds. Over every list of user
    keys given to the writer, any filter density, any extractor and any form:
    the region it writes decodes; the user-key filter answers "maybe" for each
    of the keys; and a prefix seek run under any extractor that keeps the
    trait's contract is never told to skip a table that holds a key with the
    sought prefix, also when the table was built by another extractor. *)
Theorem filters_never_rule_out `{Target} `{Xxh3} bpk e form ks :
  0 <= bpk -> len ks * bpk <= isize_max ->
  let w := feed_all (filter_writer_new bpk e form) ks in
  returns (finish_region w) /\
  forall region, finish_region w = Ok region -> len region <= usize_max ->
  exists fb, filter_decode region = Ok fb /\
    (forall k, In k ks -> k <> [] -> filter_may_contain fb k = Ok true) /\
    (forall run p s, extractor_sound run -> (forall b, e = Some b -> name b = name run -> b = run) ->
       In (p ++ s) ks -> p ++ s <> [] -> may_have_prefix fb (probe_new run p) = Ok true).
Proof.
  intros Hbpk Hsz w. split; [by apply finish_region_returns|].
  intros region Hr Hl. by apply (filters_never_rule_out_aux bpk e form ks).
Qed.

Definition sample_user_keys : list bytes :=
  [prefix_key 1 (str "user:alice"); prefix_key 1 (str "user:bob"); prefix_key 2 (str "x")].
Definition sample_extractor : PrefixExtractor := FixedLengthPrefix 4 (str "FixedLengthPrefix(4)").

Lemma filters_never_rule_out_witness :
  exists region fb,
    finish_region (H := target64) (H0 := toy_xxh3)
      (feed_all (filter_writer_new 10 (Some sample_extractor) Named) sample_user_keys) = Ok region /\
    filter_decode (H := target64) region = Ok fb /\
    filter_may_contain (H := target64) (H0 := toy_xxh3) fb (prefix_key 1 (str "user:bob")) = Ok true.
Proof.
  destruct (@filters_never_rule_out target64 toy_xxh3 10 (Some sample_extractor) Named
    sample_user_keys) as [_ Hf]; [lia|vm_compute; congruence|].
  destruct (finish_region (H := target64) (H0 := toy_xxh3) (feed_all
    (filter_writer_new 10 (Some sample_extractor) Named) sample_user_keys)) as [region| | |] eqn:E;
    try (vm_compute in E; discriminate E).
  destruct (Hf region eq_refl) as (fb & Hd & Hk & _).
  { vm_compute in E. injection E as <-. vm_compute. congruence. }
  exists region, fb. refine (conj eq_refl (conj Hd _)). apply Hk; [vm_compute; tauto|discriminate].
Defined.

(** A Bloom filter has no false negatives. Whatever the keys and the bits
    per key, the builder returns a filter of between one and thirty hashes (none
    for no keys) that survives being written and read back and answers "maybe"
    for every key added. *)
Theorem bloom_no_false_negatives `{Target} `{Xxh3} b :
  0 <= bits_per_key b -> len (bloom_keys b) * bits_per_key b <= isize_max ->
  exists f, build b = Ok f /\ 0 <= num_hashes f <= 30 /\
    forall key, In key (bloom_keys b) ->
      may_contain (decode_bloom_block (encode_bloom_block f)) key = Ok true.
Proof.
  intros Hb Hs. destruct (build_spec b Hb Hs) as (f & Hf & _ & Hn & Hk).
  exists f. split_and!; [done|lia..|]. intros key Hin.
  rewrite decode_encode_bloom by (unfold is_u32; lia). auto.
Qed.

Lemma bloom_no_false_negatives_witness :
  exists f, build (H := target64) (X := toy_xxh3) (mkBloomBuilder [str "a"; str "b"] 10) = Ok f /\
    may_contain (H := target64) (X := toy_xxh3) (decode_bloom_block (encode_bloom_block f)) (str "b") =
    Ok true.
Proof.
  destruct (@bloom_no_false_negatives target64 toy_xxh3 (mkBloomBuilder [str "a"; str "b"] 10))
    as (f & Hf & _ & Hk); [vm_compute; congruence..|].
  exists f. split; [exact Hf|]. apply Hk. vm_compute. tauto.
Defined.

(** No bytes make the filter region's decoder panic: it returns a pair of
    filters or an error. *)
Theorem filter_decode_total `{Target} region : returns (filter_decode region).
Proof. apply filter_decode_returns. Qed.

(** The fixed-width extractor keeps the contract prefix seeks rely on, at
    every width: what it probes for a prefix is what it indexed for every key
    with that prefix. *)
Theorem fixed_length_prefix_sound n nm : extractor_sound (FixedLengthPrefix n nm).
Proof.
  intros p s q. cbn [extract_query extract FixedLengthPrefix]. unfold fixed_extract.
  destruct (Z.leb_spec n (len p)); [|done]. intros [= <-]. pose proof (len_nonneg s). ztest.
  destruct (Z.lt_ge_cases n 0).
  - f_equal. unfold takez. by replace (Z.to_nat n) with 0%nat by lia.
  - by rewrite takez_app_le.
Qed.

(** The part of a path up to and including its last slash: its width depends on
    the key. *)
Fixpoint through_last_slash (key : bytes) : option bytes :=
  match key with
  | [] => None
  | c :: key =>
      match through_last_slash key with
      | Some p => Some (c :: p)
      | None => if bool_decide (c = Byte.x2f) then Some [c] else None
      end
  end.

Definition slash_extractor : PrefixExtractor :=
  mkExtractor through_last_slash (default_extract_query through_last_slash) (str "dir").

(** C35: the provided [extract_query] does not keep the contract for every
    extractor. Take any extractor that uses it and any directory-like prefix [d] it
    answers an exact query for, and any table whose keys all begin with [d] but are
    carved to other prefixes. Then the extractor breaks the contract; the table's
    filter, whatever the hash, the density and the target, is not asked for a prefix
    any of its keys was indexed under; and its answer is whether their bits happen
    to cover that prefix's. So a seek for [d] skips the table that holds its keys
    unless the filter gives a false positive. *)
Theorem default_extract_query_can_skip `{Target} `{Xxh3} ex bpk cf d names region :
  extract_query ex = default_extract_query (extract ex) -> extract ex d = Some d -> names <> [] ->
  (forall n, In n names -> exists p, extract ex (d ++ n) = Some p /\ p <> d) ->
  is_u32 cf -> cf <> META_CF_ID -> 0 <= bpk -> len names * bpk <= isize_max ->
  let ks := map (fun n => prefix_key cf (d ++ n)) names in
  let indexed := omap (entry Named ex) ks in
  finish_region (feed_all (filter_writer_new bpk (Some ex) Named) ks) = Ok region -> len region <= usize_max ->
  ~ extractor_sound ex /\ ~ In (prefix_key cf d) indexed /\
  exists fb fp, filter_decode region = Ok fb /\ prefix fb = Some (name ex, fp) /\ 1 <= num_hashes fp <= 30 /\
    may_have_prefix fb (probe_new ex (prefix_key cf d)) =
      Ok (covered indexed (len (bits fp) * 8) (num_hashes fp) (prefix_key cf d)).
Proof.
  intros Hq Hd Hne Hn Hcf Hmeta Hbpk Hsz ks indexed Hr Hl.
  assert (Hent : forall n, In n names -> exists p, entry Named ex (prefix_key cf (d ++ n)) = Some (prefix_key cf p) /\ p <> d).
  { intros n Hin. destruct (Hn n Hin) as (p & Ep & Hp). exists p. split; [|done]. unfold entry. by rewrite callers_prefix, Ep. }
  split_and!.
  - intros Hs. destruct names as [|n names]; [done|]. destruct (Hn n) as (p & Ep & Hp); [by left|].
    specialize (Hs d n d). rewrite Hq in Hs. unfold default_extract_query in Hs.
    rewrite Hd, bool_decide_eq_true_2 in Hs by done. rewrite (Hs eq_refl) in Ep. by injection Ep as <-.
  - unfold indexed. rewrite <- list_elem_of_In, list_elem_of_omap. intros (k & Hk%list_elem_of_In & Ek).
    apply in_map_iff in Hk as (n & <- & Hin). destruct (Hent n Hin) as (p & Ep & Hp). rewrite Ep in Ek.
    apply Hp. assert (E : prefix_key cf p = prefix_key cf d) by congruence. by apply app_inv_head in E.
  - destruct (prefix_filter_answers bpk (Some ex) Named ks Hbpk) with (ex := ex) (region := region)
      as (fb & fp & Hdec & Hpre & Hh & Ha); try done.
    { unfold ks, len in *. by rewrite length_map. }
    { destruct names as [|n names]; [done|]. destruct (Hent n ltac:(by left)) as (p & Ep & _). unfold ks. cbn [map omap list_omap].
      by rewrite Ep. }
    exists fb, fp. split_and!; try done; [lia..|]. unfold may_have_prefix, key_for, probe_new. rewrite Hpre.
    cbn [probe_name caller_key]. rewrite bool_decide_eq_true_2, callers_prefix by done. rewrite Hq. unfold default_extract_query.
    rewrite Hd, bool_decide_eq_true_2 by done. apply Ha.
Qed.

(** A table that holds [a/b/c], and a seek for [a/]. *)
Definition skipped_keys : list bytes := [prefix_key 1 (str "a/b/c")].
Definition skipped_region : bytes := Eval vm_compute in
  match finish_region (H := target64) (H0 := toy_xxh3) (feed_all (filter_writer_new 10 (Some slash_extractor) Named) skipped_keys) with
  | Ok region => region | _ => [] end.

Lemma default_extract_query_can_skip_witness :
  ~ extractor_sound slash_extractor /\
  exists fb b, filter_decode (H := target64) skipped_region = Ok fb /\
    may_have_prefix (H := target64) (H0 := toy_xxh3) fb (probe_new slash_extractor (prefix_key 1 (str "a/"))) = Ok b.
Proof.
  destruct (@default_extract_query_can_skip target64 toy_xxh3 slash_extractor 10 1 (str "a/") [str "b/c"] skipped_region)
    as (Hs & _ & fb & fp & Hd & _ & _ & Ha); [reflexivity|reflexivity|discriminate| |unfold is_u32, U32_MAX; lia|discriminate|lia| | | |].
  - intros n [<-|[]]. exists (str "a/b/"). split; [reflexivity|discriminate].
  - apply Z.leb_le. computed.
  - computed.
  - apply Z.leb_le. computed.
  - split; [exact Hs|]. exists fb. eexists. split; [exact Hd|exact Ha].
Defined.
