(* ===== verification/Order.v ===== *)
(** * Byte order and stable sorting

    What the components that keep sorted collections share: the order of byte
    strings as relations with their laws, Rust's stable [sort_by] and
    [dedup_by], and the facts about them that hold for any comparison that is
    a total preorder. *)

From S2P Require Import Prelude.

(** ** Byte strings in order *)

Definition bytes_lt (a b : bytes) : Prop := bytes_cmp a b = Lt.
Definition bytes_le (a b : bytes) : Prop := bytes_cmp a b <> Gt.

Lemma bytes_ltb_spec a b : reflect (bytes_lt a b) (bytes_ltb a b).
Proof. unfold bytes_lt, bytes_ltb. destruct (bytes_cmp a b); constructor; congruence. Qed.
Lemma bytes_leb_spec a b : reflect (bytes_le a b) (bytes_leb a b).
Proof. unfold bytes_le, bytes_leb. destruct (bytes_cmp a b); constructor; congruence. Qed.

Lemma bytes_lt_trans a b c : bytes_lt a b -> bytes_lt b c -> bytes_lt a c.
Proof. apply bytes_cmp_lt_trans. Qed.
Lemma bytes_lt_irrefl a : ~ bytes_lt a a.
Proof. unfold bytes_lt. by rewrite bytes_cmp_refl. Qed.
Lemma bytes_le_refl a : bytes_le a a.
Proof. unfold bytes_le. by rewrite bytes_cmp_refl. Qed.
Lemma bytes_le_cases a b : bytes_le a b <-> bytes_lt a b \/ a = b.
Proof.
  unfold bytes_le, bytes_lt. rewrite <- bytes_cmp_eq. destruct (bytes_cmp a b); naive_solver.
Qed.
Lemma bytes_lt_le a b : bytes_lt a b -> bytes_le a b.
Proof. rewrite bytes_le_cases. by left. Qed.
Lemma bytes_not_le a b : ~ bytes_le a b <-> bytes_lt b a.
Proof.
  unfold bytes_le, bytes_lt. rewrite (bytes_cmp_opp a b).
  destruct (bytes_cmp a b); simpl; split; try congruence; intros Hn; exfalso; by apply Hn.
Qed.
Lemma bytes_not_lt a b : ~ bytes_lt a b <-> bytes_le b a.
Proof.
  unfold bytes_le, bytes_lt. rewrite (bytes_cmp_opp a b). destruct (bytes_cmp a b); simpl; naive_solver.
Qed.
Lemma bytes_le_trans a b c : bytes_le a b -> bytes_le b c -> bytes_le a c.
Proof.
  rewrite !bytes_le_cases. intros [H1| ->] [H2| ->]; auto. left. by eapply bytes_lt_trans.
Qed.
Lemma bytes_le_lt_trans a b c : bytes_le a b -> bytes_lt b c -> bytes_lt a c.
Proof. rewrite bytes_le_cases. intros [H1| ->] H2; [by eapply bytes_lt_trans|done]. Qed.
Lemma bytes_lt_le_trans a b c : bytes_lt a b -> bytes_le b c -> bytes_lt a c.
Proof. rewrite bytes_le_cases. intros H1 [H2| ->]; [by eapply bytes_lt_trans|done]. Qed.
Lemma bytes_le_antisym a b : bytes_le a b -> bytes_le b a -> a = b.
Proof.
  rewrite !bytes_le_cases. intros [H1|] [H2|]; auto. by destruct (bytes_lt_irrefl a (bytes_lt_trans _ _ _ H1 H2)).
Qed.
Lemma bytes_le_total a b : bytes_le a b \/ bytes_lt b a.
Proof. destruct (bytes_leb_spec a b); [by left|right; by apply bytes_not_le]. Qed.

(** Case analysis on byte comparisons, as relations. *)
Ltac bcase :=
  match goal with
  | |- context [bytes_ltb ?a ?b] => destruct (bytes_ltb_spec a b)
  | |- context [bytes_leb ?a ?b] => destruct (bytes_leb_spec a b)
  end.

(** Close a contradiction or a chain of byte comparisons: push the negations in,
    close the hypotheses under transitivity. *)
Ltac border_norm :=
  repeat match goal with
  | H : ~ bytes_le _ _ |- _ => apply bytes_not_le in H
  | H : ~ bytes_lt _ _ |- _ => apply bytes_not_lt in H
  | |- ~ bytes_le _ _ => apply bytes_not_le
  | |- ~ bytes_lt _ _ => apply bytes_not_lt
  end.
Ltac border_known P := match goal with H : P |- _ => idtac end.
Ltac border_add P proof := tryif border_known P then fail else assert P by exact proof.
Ltac border_step :=
  match goal with
  | H : bytes_lt ?a ?a |- _ => exfalso; exact (bytes_lt_irrefl a H)
  | H1 : bytes_lt ?a ?b, H2 : bytes_lt ?b ?c |- _ => border_add (bytes_lt a c) (bytes_lt_trans a b c H1 H2)
  | H1 : bytes_lt ?a ?b, H2 : bytes_le ?b ?c |- _ => border_add (bytes_lt a c) (bytes_lt_le_trans a b c H1 H2)
  | H1 : bytes_le ?a ?b, H2 : bytes_lt ?b ?c |- _ => border_add (bytes_lt a c) (bytes_le_lt_trans a b c H1 H2)
  | H1 : bytes_le ?a ?b, H2 : bytes_le ?b ?c |- _ => border_add (bytes_le a c) (bytes_le_trans a b c H1 H2)
  end.
Ltac border :=
  border_norm;
  lazymatch goal with
  | |- bytes_lt ?a ?b => destruct (bytes_ltb_spec a b); [assumption|exfalso]
  | |- bytes_le ?a ?b => destruct (bytes_leb_spec a b); [assumption|exfalso]
  | |- _ => idtac
  end; border_norm; repeat border_step.

(** ** Stable sorting *)

Section Sort.
Context {A : Type} (cmp : A -> A -> comparison).

(** [x] precedes every element of the list in the input, so it goes before the
    elements it is equal to. *)
Fixpoint insert_by (x : A) (l : list A) : list A :=
  match l with
  | [] => [x]
  | y :: l' => match cmp x y with Gt => y :: insert_by x l' | _ => x :: l end
  end.

(** [slice::sort_by]. A stable sort has one result, so how it is computed does
    not show. *)
Definition sort_by (l : list A) : list A := fold_right insert_by [] l.

Definition sorted_by (l : list A) : Prop := StronglySorted (fun x y => cmp x y <> Gt) l.

(** A total preorder. *)
Class PreorderCmp : Prop := {
  pre_total : forall x y, cmp x y = Gt -> cmp y x <> Gt;
  pre_trans : forall x y z, cmp x y <> Gt -> cmp y z <> Gt -> cmp x z <> Gt;
}.

Lemma insert_by_perm x l : Permutation (insert_by x l) (x :: l).
Proof.
  induction l as [|y l IH]; simpl; [done|]. destruct (cmp x y); try done.
  rewrite IH. apply perm_swap.
Qed.

Lemma sort_by_perm l : Permutation (sort_by l) l.
Proof. induction l as [|x l IH]; simpl; [done|]. by rewrite insert_by_perm, IH. Qed.

Lemma sort_by_In l x : In x (sort_by l) <-> In x l.
Proof. rewrite <- !list_elem_of_In. by rewrite sort_by_perm. Qed.

Lemma insert_by_sorted `{PreorderCmp} x l : sorted_by l -> sorted_by (insert_by x l).
Proof.
  unfold sorted_by. induction l as [|y l IH]; simpl; [by repeat constructor|].
  intros [Hs Hall]%StronglySorted_inv. rewrite List.Forall_forall in Hall.
  assert (Hle : cmp x y <> Gt -> StronglySorted (fun x y => cmp x y <> Gt) (x :: y :: l)).
  { intros Hxy. constructor; [by constructor; [|apply List.Forall_forall]|]. constructor; [done|].
    apply List.Forall_forall. intros z Hz. by apply (pre_trans x y z); auto. }
  destruct (cmp x y) eqn:E; try (apply Hle; discriminate).
  constructor; [auto|]. apply List.Forall_forall. intros z Hz.
  apply list_elem_of_In in Hz. rewrite insert_by_perm in Hz. apply list_elem_of_In in Hz.
  destruct Hz as [<-|Hz]; [by apply pre_total|auto].
Qed.

Lemma sort_by_sorted `{PreorderCmp} l : sorted_by (sort_by l).
Proof.
  induction l as [|x l IH]; simpl; [constructor|]. by apply insert_by_sorted.
Qed.

(** [x] follows every element of the list in the input, so it goes after the
    elements it is equal to. *)
Fixpoint insert_last (x : A) (l : list A) : list A :=
  match l with
  | [] => [x]
  | y :: l' => match cmp x y with Lt => x :: l | _ => y :: insert_last x l' end
  end.

(** The two directions of a comparison agree. *)
Class OppCmp : Prop := cmp_opp : forall x y, cmp y x = CompOpp (cmp x y).

Lemma insert_by_last `{PreorderCmp} `{OppCmp} a x s :
  insert_by a (insert_last x s) = insert_last x (insert_by a s).
Proof.
  assert (Ht : forall x y z, cmp x y <> Gt -> cmp y z <> Gt -> cmp x z <> Gt) by apply pre_trans.
  induction s as [|y s IH]; cbn [insert_by insert_last].
  - rewrite (cmp_opp a x). by destruct (cmp a x).
  - specialize (Ht a y x) as H1. specialize (Ht y x a) as H2. specialize (Ht x y a) as H3.
    specialize (Ht a x y) as H4. specialize (Ht y a x) as H5. specialize (Ht x a y) as H6.
    rewrite ?(cmp_opp a y), ?(cmp_opp x y), ?(cmp_opp a x) in *.
    destruct (cmp x y) eqn:Exy, (cmp a y) eqn:Eay; cbn [insert_by insert_last];
      rewrite ?Exy, ?Eay, ?(cmp_opp a x); try (by rewrite IH);
      destruct (cmp a x) eqn:Eax; cbn [CompOpp insert_by insert_last] in *; rewrite ?Exy, ?Eay;
      try done; exfalso; naive_solver.
Qed.

Lemma sort_by_snoc `{PreorderCmp} `{OppCmp} l x : sort_by (l ++ [x]) = insert_last x (sort_by l).
Proof. induction l as [|a l IH]; [done|]. cbn. unfold sort_by in *. rewrite IH. apply insert_by_last. Qed.

Lemma sort_by_sorted_id l : sorted_by l -> sort_by l = l.
Proof.
  unfold sorted_by. induction 1 as [|x l Hs IH Hall]; [done|]. cbn. fold (sort_by l). rewrite IH.
  destruct l as [|y l]; [done|]. cbn. apply List.Forall_inv in Hall as Hxy. by destruct (cmp x y).
Qed.

Lemma insert_by_head x l : Forall (fun y => cmp x y <> Gt) l -> insert_by x l = x :: l.
Proof. destruct 1 as [|y l Hxy _]; [done|]. cbn. by destruct (cmp x y). Qed.

Lemma filter_insert_by `{PreorderCmp} p x s : sorted_by s ->
  List.filter p (insert_by x s) = if p x then insert_by x (List.filter p s) else List.filter p s.
Proof.
  induction s as [|y s IH]; intros Hs; [cbn; by destruct (p x)|].
  apply StronglySorted_inv in Hs as [Hs Hall]. specialize (IH Hs).
  assert (Hle : cmp x y <> Gt -> insert_by x (List.filter p (y :: s)) = x :: List.filter p (y :: s)).
  { intros Hxy. apply insert_by_head. rewrite List.Forall_forall in *. intros z [Hz _]%filter_In.
    destruct Hz as [<-|Hz]; [done|]. apply (pre_trans x y z); auto. }
  cbn [insert_by]. destruct (cmp x y) eqn:E;
    try (change (List.filter p (x :: y :: s)) with
           (if p x then x :: List.filter p (y :: s) else List.filter p (y :: s));
         destruct (p x); [by rewrite Hle|done]).
  cbn [List.filter]. destruct (p y) eqn:Ey; rewrite IH; destruct (p x); cbn; rewrite ?E; done.
Qed.

Lemma filter_sort_by `{PreorderCmp} p l : List.filter p (sort_by l) = sort_by (List.filter p l).
Proof.
  induction l as [|x l IH]; [done|]. change (sort_by (x :: l)) with (insert_by x (sort_by l)).
  rewrite filter_insert_by by apply sort_by_sorted. rewrite IH. cbn [List.filter]. by destruct (p x).
Qed.

Lemma map_sort_by f l : (forall x y, cmp (f x) (f y) = cmp x y) -> map f (sort_by l) = sort_by (map f l).
Proof.
  intros Hf. induction l as [|x l IH]; [done|]. change (sort_by (x :: l)) with (insert_by x (sort_by l)).
  cbn [map]. change (sort_by (f x :: map f l)) with (insert_by (f x) (sort_by (map f l))). rewrite <- IH.
  clear IH. induction (sort_by l) as [|y s IH]; [done|]. cbn. rewrite Hf. destruct (cmp x y); cbn; by rewrite ?IH.
Qed.

(** Inserting at the point where [y <= x] stops holding. *)
Lemma insert_last_at `{OppCmp} x s r : 0 <= r <= len s ->
  (forall i y, getz s i = Some y -> i < r -> cmp y x <> Gt) ->
  (forall i y, getz s i = Some y -> r <= i -> cmp y x = Gt) ->
  insert_last x s = takez r s ++ x :: dropz r s.
Proof.
  revert r. induction s as [|y s IH]; intros r Hr Hlo Hhi.
  - assert (r = 0) as -> by (change (len (@nil A)) with 0 in Hr; lia). done.
  - assert (Hg : forall i z, 0 <= i -> getz s i = Some z -> getz (y :: s) (i + 1) = Some z).
    { intros i z Hi. unfold getz. destruct (Z.leb_spec 0 i), (Z.leb_spec 0 (i + 1)); try lia.
      replace (Z.to_nat (i + 1)) with (S (Z.to_nat i)) by lia. done. }
    destruct (Z.eq_dec r 0) as [->|Hne]; cbn [insert_last].
    + pose proof (Hhi 0 y eq_refl ltac:(lia)) as Hy. rewrite (cmp_opp y x), Hy. done.
    + pose proof (Hlo 0 y eq_refl ltac:(lia)) as Hy. rewrite (cmp_opp y x).
      unfold takez, dropz. replace (Z.to_nat r) with (S (Z.to_nat (r - 1))) by lia. cbn [take drop app].
      fold (takez (r - 1) s) (dropz (r - 1) s). rewrite <- IH; [by destruct (cmp y x)|..].
      * rewrite len_cons in Hr. lia.
      * intros i z Hz Hi. pose proof (getz_Some_lt _ _ _ Hz). apply (Hlo (i + 1)); [apply Hg; [lia|done]|lia].
      * intros i z Hz Hi. pose proof (getz_Some_lt _ _ _ Hz). apply (Hhi (i + 1)); [apply Hg; [lia|done]|lia].
Qed.

Lemma insert_last_partition `{PreorderCmp} `{OppCmp} (below : A -> bool) x s :
  (forall y, below y = true <-> cmp y x <> Gt) -> sorted_by s ->
  insert_last x s = takez (partition_point below s) s ++ x :: dropz (partition_point below s) s.
Proof.
  intros Hb Hs. destruct (partition_point_spec below s) as (Hr & Hlo & Hhi).
  - intros i j y z Hij Hy Hz Hp. apply Hb. apply Hb in Hp. apply (pre_trans y z x); [|done].
    by apply (sorted_getz _ _ _ _ _ _ Hs Hy Hz).
  - apply insert_last_at; [done|..].
    + intros i y Hy Hi. apply Hb. by apply (Hlo i).
    + intros i y Hy Hi. specialize (Hhi i y Hy Hi). destruct (cmp y x) eqn:E; [..|done];
        exfalso; assert (below y = true) by (apply Hb; congruence); congruence.
Qed.

End Sort.

(** [Vec::dedup_by]: an element is dropped when it is [same] as the last one
    kept. *)
Fixpoint dedup_from {A} (same : A -> A -> bool) (prev : A) (l : list A) : list A :=
  match l with
  | [] => []
  | x :: l => if same x prev then dedup_from same prev l else x :: dedup_from same x l
  end.

Definition dedup_by {A} (same : A -> A -> bool) (l : list A) : list A :=
  match l with
  | [] => []
  | x :: l => x :: dedup_from same x l
  end.

Lemma dedup_from_In {A} (same : A -> A -> bool) prev l x :
  (forall a b, same a b = true -> a = b) ->
  In x (prev :: dedup_from same prev l) <-> In x (prev :: l).
Proof.
  intros Hs. revert prev. induction l as [|y l IH]; intros prev; [done|]. cbn [dedup_from].
  destruct (same y prev) eqn:E; [apply Hs in E as ->; rewrite IH; simpl; tauto|].
  specialize (IH y). simpl in *. tauto.
Qed.

Lemma dedup_by_In {A} (same : A -> A -> bool) l x :
  (forall a b, same a b = true -> a = b) -> In x (dedup_by same l) <-> In x l.
Proof. intros Hs. destruct l as [|y l]; [done|]. by apply dedup_from_In. Qed.

Lemma dedup_from_sublist {A} (same : A -> A -> bool) prev l : dedup_from same prev l `sublist_of` l.
Proof.
  revert prev. induction l as [|y l IH]; intros prev; simpl; [constructor|].
  destruct (same y prev); by constructor.
Qed.

Lemma sublist_sorted {A} (R : A -> A -> Prop) l k :
  l `sublist_of` k -> StronglySorted R k -> StronglySorted R l.
Proof.
  induction 1 as [|x l k Hl IH|x l k Hl IH]; intros Hs; [done|..];
    apply StronglySorted_inv in Hs as [Hs Hall]; [|auto].
  constructor; [auto|]. rewrite List.Forall_forall in *. intros y Hy. apply Hall.
  apply list_elem_of_In. apply list_elem_of_In in Hy. by eapply elem_of_sublist.
Qed.

Lemma dedup_by_sorted {A} (same : A -> A -> bool) (R : A -> A -> Prop) l :
  StronglySorted R l -> StronglySorted R (dedup_by same l).
Proof.
  destruct l as [|x l]; [done|]. apply sublist_sorted. simpl. constructor. apply dedup_from_sublist.
Qed.
