(* ===== verification/RangeTombstone.v ===== *)
(** * Range tombstones

    Models [src/src/engine/range_tombstone.rs] and the tombstone block of
    [src/src/engine/sstable.rs]: deletions of every key of [[start, end)], the
    sorted set with its prefix maximum of ends, and the searches over it.

    Shown here: the indexed searches answer what a scan of every tombstone
    would, for any input list, inverted and empty ranges included, and never
    index out of range; clipping to a table's bounds and joining touching pieces
    change no deletion; a table's key range takes in everything it deletes; and
    the block a table stores them in round-trips and never panics a reader. *)

From S2P Require Import Prelude Order IndexBlock.

Record RangeTombstone := mkTomb { start : bytes; end_ : bytes; seq : Z }.

#[export] Instance RangeTombstone_eq_dec : EqDecision RangeTombstone.
Proof. solve_decision. Defined.

(** Half-open: [start <= user_key < end]. *)
Definition covers (rt : RangeTombstone) (user_key : bytes) : bool :=
  bytes_leb (start rt) user_key && bytes_ltb user_key (end_ rt).

Definition overlaps (rt : RangeTombstone) (s e : bytes) : bool :=
  bytes_ltb (start rt) e && bytes_ltb s (end_ rt).

Definition clip_to (rt : RangeTombstone) (s e : bytes) : option RangeTombstone :=
  if negb (overlaps rt s e) then None
  else
    let clipped_start := if bytes_ltb (start rt) s then s else start rt in
    let clipped_end := if bytes_ltb e (end_ rt) then e else end_ rt in
    if bytes_ltb clipped_start clipped_end
    then Some (mkTomb clipped_start clipped_end (seq rt)) else None.

(** ** Sorting *)

Definition then_with (a b : comparison) : comparison := match a with Eq => b | _ => a end.

(** By start, then end, then newest sequence first. *)
Definition tomb_cmp (a b : RangeTombstone) : comparison :=
  then_with (bytes_cmp (start a) (start b))
    (then_with (bytes_cmp (end_ a) (end_ b)) (Z.compare (seq b) (seq a))).

Definition same_tomb (a b : RangeTombstone) : bool :=
  bool_decide (start a = start b) && bool_decide (end_ a = end_ b) && (seq a =? seq b).

Definition sort_dedup_tombstones (l : list RangeTombstone) : list RangeTombstone :=
  dedup_by same_tomb (sort_by tomb_cmp l).

(** The running maximum of the ends. *)
Fixpoint prefix_max_from (max_end : option bytes) (l : list RangeTombstone) : list bytes :=
  match l with
  | [] => []
  | rt :: l =>
      let m := match max_end with
               | None => end_ rt
               | Some current => if bytes_ltb current (end_ rt) then end_ rt else current
               end in
      m :: prefix_max_from (Some m) l
  end.
Definition build_prefix_max_end (l : list RangeTombstone) : list bytes := prefix_max_from None l.

(** ** The indexed set *)

Record RangeTombstoneSet := mkSet { tombstones : list RangeTombstone; prefix_max_end : list bytes }.

Definition from_vec (l : list RangeTombstone) : RangeTombstoneSet :=
  let sorted := sort_dedup_tombstones l in mkSet sorted (build_prefix_max_end sorted).

(** The [while idx > 0] loop of [max_covering_seq]. *)
Fixpoint max_covering_loop (s : RangeTombstoneSet) (idx : nat) (user_key : bytes)
  (snapshot_seq best : Z) : outcome Z :=
  match idx with
  | O => Ok best
  | S idx =>
      m ← expect (prefix_max_end s !! idx);
      if bytes_leb m user_key then Ok best
      else
        rt ← expect (tombstones s !! idx);
        let best := if (seq rt <=? snapshot_seq) && covers rt user_key && (best <? seq rt)
                    then seq rt else best in
        max_covering_loop s idx user_key snapshot_seq best
  end.

Definition max_covering_seq (s : RangeTombstoneSet) (user_key : bytes) (snapshot_seq : Z)
  : outcome Z :=
  if bool_decide (tombstones s = []) then Ok 0
  else
    let idx := partition_point (fun rt => bytes_leb (start rt) user_key) (tombstones s) in
    max_covering_loop s (Z.to_nat idx) user_key snapshot_seq 0.

Fixpoint covers_whole_loop (s : RangeTombstoneSet) (idx : nat) (last : bytes) : outcome bool :=
  match idx with
  | O => Ok false
  | S idx =>
      m ← expect (prefix_max_end s !! idx);
      if bytes_leb m last then Ok false
      else
        rt ← expect (tombstones s !! idx);
        if bytes_ltb last (end_ rt) then Ok true else covers_whole_loop s idx last
  end.

Definition covers_whole (s : RangeTombstoneSet) (first last : bytes) : outcome bool :=
  let idx := partition_point (fun rt => bytes_leb (start rt) first) (tombstones s) in
  covers_whole_loop s (Z.to_nat idx) last.

Fixpoint clipped_loop (s : RangeTombstoneSet) (idx : nat) (a e : bytes)
  (result : list RangeTombstone) : outcome (list RangeTombstone) :=
  match idx with
  | O => Ok result
  | S idx =>
      m ← expect (prefix_max_end s !! idx);
      if bytes_leb m a then Ok result
      else
        rt ← expect (tombstones s !! idx);
        let result := match clip_to rt a e with Some c => result ++ [c] | None => result end in
        clipped_loop s idx a e result
  end.

Definition clipped_overlaps (s : RangeTombstoneSet) (a e : bytes) : outcome (list RangeTombstone) :=
  if bytes_leb e a then Ok []
  else
    let idx := partition_point (fun rt => bytes_ltb (start rt) e) (tombstones s) in
    result ← clipped_loop s (Z.to_nat idx) a e [];
    Ok (sort_dedup_tombstones result).

(** ** Keys and joins *)

Definition exclusive_successor (key : bytes) : bytes := key ++ [Byte.x00].

Definition widen (range : option (bytes * bytes)) (rt : RangeTombstone) : option (bytes * bytes) :=
  match range with
  | None => Some (start rt, end_ rt)
  | Some (smallest, largest) =>
      Some (if bytes_ltb (start rt) smallest then start rt else smallest,
            if bytes_ltb largest (end_ rt) then end_ rt else largest)
  end.

Definition table_key_range (points : option (bytes * bytes)) (l : list RangeTombstone)
  : option (bytes * bytes) := fold_left widen l points.

(** [tombstones.sort_by_key(|t| t.seq)]. *)
Definition seq_cmp (a b : RangeTombstone) : comparison := Z.compare (seq a) (seq b).

(** The joining loop; [last] is [joined.last_mut()], the pieces before it are
    already final. *)
Fixpoint join_from (last : RangeTombstone) (l : list RangeTombstone) : list RangeTombstone :=
  match l with
  | [] => [last]
  | t :: l =>
      if (seq last =? seq t) && bytes_leb (start t) (end_ last)
      then join_from (mkTomb (start last)
                        (if bytes_ltb (end_ last) (end_ t) then end_ t else end_ last) (seq last)) l
      else last :: join_from t l
  end.

Definition coalesced (l : list RangeTombstone) : list RangeTombstone :=
  match sort_by seq_cmp (sort_dedup_tombstones l) with
  | [] => []
  | t :: l => join_from t l
  end.

(** ** The tombstone block of a table *)

Definition encode_tombstone (rt : RangeTombstone) : bytes :=
  to_le 4 (as_u32 (len (start rt))) ++ start rt ++
  to_le 4 (as_u32 (len (end_ rt))) ++ end_ rt ++ to_le 8 (seq rt).

Definition encode_range_tombstone_block (l : list RangeTombstone) : bytes :=
  to_le 4 (as_u32 (len l)) ++ List.concat (map encode_tombstone l).

(** The readers of [sstable.rs]. *)
Definition sst_read_u32 `{Target} (data : bytes) (pos : Z) (field : String.string) :=
  read_uint 4 " offset overflows" data pos field.
Definition sst_read_u64 `{Target} (data : bytes) (pos : Z) (field : String.string) :=
  read_uint 8 " offset overflows" data pos field.
Arguments sst_read_u32 {_} data pos field%_string_scope.
Arguments sst_read_u64 {_} data pos field%_string_scope.

Definition read_bytes `{Target} (data : bytes) (pos n : Z) (field : String.string)
  : outcome (bytes * Z) :=
  e ← ok_or (checked_add pos n) (invalid_data (String.append field " length overflows"));
  if len data <? e then Err (invalid_data (String.append field " is truncated"))
  else
    raw ← expect (slice data pos e);
    Ok (raw, e).
Arguments read_bytes {_} data pos n field%_string_scope.

Definition decode_tombstone `{Target} (data : bytes) (pos : Z) : outcome (RangeTombstone * Z) :=
  '(start_len, pos) ← sst_read_u32 data pos "range tombstone start length";
  '(start, pos) ← read_bytes data pos start_len "range tombstone start";
  '(end_len, pos) ← sst_read_u32 data pos "range tombstone end length";
  '(end_, pos) ← read_bytes data pos end_len "range tombstone end";
  '(seq, pos) ← sst_read_u64 data pos "range tombstone seq";
  Ok (mkTomb start end_ seq, pos).

Fixpoint decode_tombstones `{Target} (n : nat) (data : bytes) (pos : Z)
  : outcome (list RangeTombstone * Z) :=
  match n with
  | O => Ok ([], pos)
  | S n =>
      '(rt, pos) ← decode_tombstone data pos;
      '(rest, pos) ← decode_tombstones n data pos;
      Ok (rt :: rest, pos)
  end.

Definition decode_range_tombstone_block `{Target} (data : bytes) : outcome (list RangeTombstone) :=
  if len data =? 0 then Ok []
  else if len data <? 4 then Err (invalid_data "range tombstone block too short")
  else
    raw ← expect (slice data 0 4);
    '(out, pos) ← decode_tombstones (Z.to_nat (from_le raw)) data 4;
    if negb (pos =? len data) then Err (invalid_data "range tombstone block has trailing bytes")
    else Ok out.

(** ** What a list of tombstones deletes *)

(** The newest visible deletion of a key, by looking at every tombstone. *)
Fixpoint newest_covering (l : list RangeTombstone) (user_key : bytes) (snapshot_seq : Z) : Z :=
  match l with
  | [] => 0
  | rt :: l =>
      if (seq rt <=? snapshot_seq) && covers rt user_key
      then Z.max (seq rt) (newest_covering l user_key snapshot_seq)
      else newest_covering l user_key snapshot_seq
  end.

(** Whether the list deletes [user_key] at sequence [q]. *)
Definition deletes (l : list RangeTombstone) (user_key : bytes) (q : Z) : Prop :=
  exists rt, In rt l /\ seq rt = q /\ covers rt user_key = true.

(** ** The order of the set *)

Lemma tomb_cmp_le a b :
  tomb_cmp a b <> Gt <->
  bytes_lt (start a) (start b) \/
  start a = start b /\ (bytes_lt (end_ a) (end_ b) \/ end_ a = end_ b /\ seq b <= seq a).
Proof.
  unfold tomb_cmp, then_with, bytes_lt. rewrite <- !bytes_cmp_eq.
  destruct (bytes_cmp (start a) (start b)); [|naive_solver..].
  destruct (bytes_cmp (end_ a) (end_ b)); [|naive_solver..].
  rewrite Z.compare_le_iff. naive_solver.
Qed.

#[export] Instance tomb_cmp_preorder : PreorderCmp tomb_cmp.
Proof.
  split.
  - intros x y E. unfold tomb_cmp, then_with in *.
    rewrite (bytes_cmp_opp (start x)), (bytes_cmp_opp (end_ x)), (Z.compare_antisym (seq y)).
    destruct (bytes_cmp (start x) (start y)), (bytes_cmp (end_ x) (end_ y)),
      (seq y ?= seq x); simpl in *; congruence.
  - intros x y z. rewrite !tomb_cmp_le.
    intros [H1|(E1 & H1)] [H2|(E2 & H2)].
    + left. by eapply bytes_lt_trans.
    + left. by rewrite <- E2.
    + left. by rewrite E1.
    + right. split; [congruence|]. destruct H1 as [H1|[E1' H1]], H2 as [H2|[E2' H2]].
      * left. by eapply bytes_lt_trans.
      * left. by rewrite <- E2'.
      * left. by rewrite E1'.
      * right. split; [congruence|lia].
Qed.

#[export] Instance seq_cmp_preorder : PreorderCmp seq_cmp.
Proof.
  split; unfold seq_cmp.
  - intros x y. rewrite Z.compare_gt_iff, Z.compare_le_iff. lia.
  - intros x y z. rewrite !Z.compare_le_iff. lia.
Qed.

Lemma same_tomb_eq a b : same_tomb a b = true -> a = b.
Proof.
  unfold same_tomb. rewrite !andb_true_iff, !bool_decide_eq_true, Z.eqb_eq.
  destruct a, b; simpl. intros [[-> ->] ->]. done.
Qed.

Lemma sort_dedup_In l rt : In rt (sort_dedup_tombstones l) <-> In rt l.
Proof.
  unfold sort_dedup_tombstones. rewrite dedup_by_In by apply same_tomb_eq. apply sort_by_In.
Qed.

Lemma sort_dedup_sorted l : sorted_by tomb_cmp (sort_dedup_tombstones l).
Proof. apply dedup_by_sorted. apply (sort_by_sorted tomb_cmp). Qed.

Lemma sorted_starts l :
  sorted_by tomb_cmp l -> StronglySorted (fun a b => bytes_le (start a) (start b)) l.
Proof.
  induction 1 as [|a l Hs IH Hall]; constructor; [done|].
  eapply List.Forall_impl; [|exact Hall]. intros b Hb%tomb_cmp_le. apply bytes_le_cases. naive_solver.
Qed.

(** The tombstones past the search's starting point begin after its bound. *)
Lemma starts_partition l (p : RangeTombstone -> bool) rt :
  StronglySorted (fun a b => bytes_le (start a) (start b)) l ->
  (forall a b, bytes_le (start a) (start b) -> p b = true -> p a = true) ->
  In rt l -> p rt = true -> In rt (take (Z.to_nat (partition_point p l)) l).
Proof.
  intros Hs Hm Hin Hp. destruct (partition_point_spec p l) as (Hr & _ & Hhi).
  { intros i j x y Hij Hx Hy. apply Hm. by apply (sorted_getz _ l i j x y Hs). }
  apply In_getz in Hin as [i Hi]. pose proof (getz_Some_lt _ _ _ Hi).
  destruct (Z.lt_ge_cases i (partition_point p l)) as [Hlt|Hge].
  - apply list_elem_of_In, list_elem_of_lookup. exists (Z.to_nat i).
    rewrite lookup_take_lt by lia. unfold getz in Hi. by destruct (0 <=? i).
  - rewrite (Hhi i rt Hi Hge) in Hp. done.
Qed.

Lemma partition_point_bound {A} (p : A -> bool) l : (Z.to_nat (partition_point p l) <= length l)%nat.
Proof.
  pose proof (bsearch_range (Z.to_nat (len l))
    (fun i => match getz l i with Some x => p x | None => false end) 0 (len l) (len_nonneg _)).
  unfold partition_point, partition_index, len in *. lia.
Qed.

(** ** The prefix maximum *)

Lemma prefix_max_length o l : length (prefix_max_from o l) = length l.
Proof. revert o. induction l as [|rt l IH]; intros o; simpl; [done|]. by rewrite IH. Qed.

Lemma prefix_max_bounds o l i m :
  prefix_max_from o l !! i = Some m ->
  (forall b, o = Some b -> bytes_le b m) /\ (forall rt, In rt (take (S i) l) -> bytes_le (end_ rt) m).
Proof.
  revert o i. induction l as [|rt l IH]; intros o i; [done|]. cbn [prefix_max_from].
  set (m0 := match o with Some _ => _ | None => _ end).
  assert (H0 : (forall b, o = Some b -> bytes_le b m0) /\ bytes_le (end_ rt) m0).
  { unfold m0. destruct o as [c|]; [|split; [done|apply bytes_le_refl]].
    destruct (bytes_ltb_spec c (end_ rt)) as [Hlt|Hge]; split; try apply bytes_le_refl.
    - intros b [= ->]. by apply bytes_lt_le.
    - intros b [= ->]. apply bytes_le_refl.
    - by apply bytes_not_lt. }
  destruct H0 as [Ho Hrt]. destruct i as [|i]; simpl.
  - intros [= <-]. split; [done|]. intros x [<-|[]]; done.
  - intros Hi. apply IH in Hi as [Hb Hall]. specialize (Hb m0 eq_refl).
    split; [intros b E; eapply bytes_le_trans; eauto|].
    intros x [<-|Hx]; [by eapply bytes_le_trans|auto].
Qed.

(** ** The reference scan *)

Lemma newest_nonneg l k snap : 0 <= newest_covering l k snap.
Proof. induction l as [|rt l IH]; simpl; [done|]. destruct (_ && _); lia. Qed.

Lemma newest_app l rt k snap :
  newest_covering (l ++ [rt]) k snap =
  Z.max (newest_covering [rt] k snap) (newest_covering l k snap).
Proof.
  induction l as [|x l IH]; cbn [newest_covering app].
  - destruct (_ && _); lia.
  - rewrite IH. cbn [newest_covering]. pose proof (newest_nonneg l k snap).
    destruct ((seq x <=? snap) && _), ((seq rt <=? snap) && _); lia.
Qed.

Lemma newest_join l l' k snap :
  newest_covering (l ++ l') k snap = Z.max (newest_covering l k snap) (newest_covering l' k snap).
Proof.
  induction l as [|x l IH]; cbn [newest_covering app].
  - pose proof (newest_nonneg l' k snap). lia.
  - rewrite IH. destruct (_ && _); lia.
Qed.

Lemma newest_none l k snap : (forall x, In x l -> covers x k = false) -> newest_covering l k snap = 0.
Proof.
  induction l as [|x l IH]; intros Hl; simpl; [done|]. rewrite Hl by (by left).
  rewrite andb_false_r. apply IH. intros y Hy. apply Hl. by right.
Qed.

Lemma newest_bound l k snap m :
  newest_covering l k snap <= m <->
  0 <= m /\ forall x, In x l -> seq x <= snap -> covers x k = true -> seq x <= m.
Proof.
  induction l as [|x l IH]; simpl; [naive_solver|].
  pose proof (newest_nonneg l k snap).
  destruct (Z.leb_spec (seq x) snap), (covers x k) eqn:Ec; simpl.
  1: rewrite Z.max_lub_iff, IH.
  2-4: rewrite IH.
  all: split; [intros Hm; split; [tauto|]; intros y [<-|Hy]|]; try tauto; try lia; try congruence;
    try (intros; split_and!; [..|tauto]; naive_solver).
  all: try naive_solver.
  all: destruct Hm; auto.
Qed.

Lemma newest_attained l k snap : newest_covering l k snap = 0 \/
  exists x, In x l /\ covers x k = true /\ seq x <= snap /\ seq x = newest_covering l k snap.
Proof.
  induction l as [|x l IH]; cbn [newest_covering]; [by left|]. destruct (_ && _) eqn:E.
  - apply andb_true_iff in E as [E1 E2]. apply Z.leb_le in E1.
    destruct (Z.max_spec (seq x) (newest_covering l k snap)) as [[_ ->]|[_ ->]].
    + destruct IH as [IH|(y & Hy & H)]; [by left|]. right. exists y. by split; [right|].
    + right. exists x. split; [by left|done].
  - destruct IH as [IH|(y & Hy & H)]; [by left|]. right. exists y. by split; [right|].
Qed.

Lemma newest_ext l1 l2 k snap :
  (forall x, In x l1 -> covers x k = true -> In x l2) ->
  (forall x, In x l2 -> covers x k = true -> In x l1) ->
  newest_covering l1 k snap = newest_covering l2 k snap.
Proof.
  intros H12 H21. apply Z.le_antisymm; apply newest_bound; (split; [apply newest_nonneg|]);
    intros x Hin Hs Hc; (eapply newest_bound; [reflexivity|..]); eauto.
Qed.

Lemma existsb_false {A} (f : A -> bool) l : (forall x, In x l -> f x = false) -> existsb f l = false.
Proof.
  induction l as [|x l IH]; intros Hl; simpl; [done|]. rewrite Hl by (by left).
  apply IH. intros y Hy. apply Hl. by right.
Qed.

Section Walk.
Context (s : RangeTombstoneSet) (Hpme : prefix_max_end s = build_prefix_max_end (tombstones s)).

(** At every index the walk visits, the two tables answer, and the prefix
    maximum bounds the ends of every tombstone up to there. *)
Lemma walk_tables i :
  (S i <= length (tombstones s))%nat ->
  exists rt m, tombstones s !! i = Some rt /\ prefix_max_end s !! i = Some m /\
    take (S i) (tombstones s) = take i (tombstones s) ++ [rt] /\
    forall x, In x (take (S i) (tombstones s)) -> bytes_le (end_ x) m.
Proof.
  intros Hi. destruct (lookup_lt_is_Some_2 (tombstones s) i) as [rt Hrt]; [lia|].
  destruct (lookup_lt_is_Some_2 (prefix_max_end s) i) as [m Hm].
  { rewrite Hpme. unfold build_prefix_max_end. rewrite prefix_max_length. lia. }
  exists rt, m. split_and!; auto; [by apply take_S_r|].
  rewrite Hpme in Hm. by apply prefix_max_bounds in Hm as [_ ?].
Qed.

Lemma max_covering_loop_spec n k snap best :
  (n <= length (tombstones s))%nat -> 0 <= best ->
  max_covering_loop s n k snap best =
  Ok (Z.max best (newest_covering (take n (tombstones s)) k snap)).
Proof.
  revert best. induction n as [|n IH]; intros best Hn Hb; cbn [max_covering_loop].
  { simpl. f_equal. lia. }
  destruct (walk_tables n Hn) as (rt & m & Hrt & Hm & Htake & Hends).
  rewrite Hm, Hrt, Htake. run. rewrite newest_app.
  destruct (bytes_leb_spec m k) as [Hle|Hgt].
  - rewrite <- newest_app, <- Htake, newest_none; [f_equal; lia|].
    intros x Hx. unfold covers. specialize (Hends x Hx).
    destruct (bytes_ltb_spec k (end_ x)); [|apply andb_false_r]. exfalso. border.
  - rewrite IH by (try lia; destruct (_ && _ && (best <? seq rt)) eqn:E; btests; lia).
    cbn [newest_covering]. f_equal. pose proof (newest_nonneg (take n (tombstones s)) k snap).
    destruct (seq rt <=? snap), (covers rt k), (Z.ltb_spec best (seq rt)); simpl; lia.
Qed.

Lemma covers_whole_loop_spec n last :
  (n <= length (tombstones s))%nat ->
  covers_whole_loop s n last =
  Ok (existsb (fun rt => bytes_ltb last (end_ rt)) (take n (tombstones s))).
Proof.
  induction n as [|n IH]; intros Hn; cbn [covers_whole_loop]; [done|].
  destruct (walk_tables n Hn) as (rt & m & Hrt & Hm & Htake & Hends).
  rewrite Hm, Hrt. run. destruct (bytes_leb_spec m last) as [Hle|Hgt].
  - symmetry. f_equal. apply existsb_false. intros x Hx. specialize (Hends x Hx).
    destruct (bytes_ltb_spec last (end_ x)); [|done]. exfalso. border.
  - rewrite Htake, existsb_app, IH by lia. simpl.
    destruct (bytes_ltb last (end_ rt)); [by rewrite orb_true_r|by rewrite !orb_false_r].
Qed.

(** The pieces the clipping walk collects. *)
Definition clips (l : list RangeTombstone) (a e : bytes) : list RangeTombstone :=
  omap (fun rt => clip_to rt a e) l.

Lemma clipped_loop_spec n a e acc :
  (n <= length (tombstones s))%nat ->
  exists r, clipped_loop s n a e acc = Ok (acc ++ r) /\
    forall x, In x r <-> In x (clips (take n (tombstones s)) a e).
Proof.
  revert acc. induction n as [|n IH]; intros acc Hn; cbn [clipped_loop].
  { exists []. rewrite app_nil_r. done. }
  destruct (walk_tables n Hn) as (rt & m & Hrt & Hm & Htake & Hends).
  rewrite Hm, Hrt. run. destruct (bytes_leb_spec m a) as [Hle|Hgt].
  - exists []. rewrite app_nil_r. split; [done|]. intros x. split; [done|]. intros Hx. exfalso.
    apply list_elem_of_In, list_elem_of_omap in Hx as (rt' & Hin & Hc).
    apply list_elem_of_In, Hends in Hin. unfold clip_to, overlaps in Hc.
    destruct (bytes_ltb_spec a (end_ rt')); [border|by rewrite andb_false_r in Hc].
  - destruct (IH (match clip_to rt a e with Some c => acc ++ [c] | None => acc end)) as (r & -> & Hr);
      [lia|].
    unfold clips in *. rewrite Htake, omap_app. simpl.
    destruct (clip_to rt a e) as [c|]; simpl.
    + exists (c :: r). rewrite <- app_assoc. split; [done|]. intros x. rewrite in_app_iff. simpl.
      rewrite Hr. tauto.
    + exists r. split; [done|]. intros x. rewrite in_app_iff, Hr. simpl. tauto.
Qed.

End Walk.

(** ** Clipping *)

Lemma clip_to_Some rt a e c :
  clip_to rt a e = Some c ->
  seq c = seq rt /\
  forall k, covers c k = true <-> covers rt k = true /\ bytes_le a k /\ bytes_lt k e.
Proof.
  unfold clip_to, overlaps.
  destruct (bytes_ltb_spec (start rt) e), (bytes_ltb_spec a (end_ rt)); try done. cbn [negb andb].
  destruct (bytes_ltb_spec (start rt) a), (bytes_ltb_spec e (end_ rt)); bcase; try done;
    intros [= <-]; (split; [done|]); intros k; unfold covers; cbn [start end_];
    repeat bcase; simpl; split; intros Hx; try done; try (by split_and!; border); try (by exfalso; border);
    exfalso; destruct Hx as (Hx1 & Hx2 & Hx3); by border.
Qed.

Lemma clip_to_None rt a e k :
  clip_to rt a e = None -> covers rt k = true -> bytes_le a k -> bytes_lt k e -> False.
Proof.
  unfold clip_to, overlaps, covers.
  destruct (bytes_leb_spec (start rt) k), (bytes_ltb_spec k (end_ rt)); try done.
  intros E _ Ha He. revert E.
  destruct (bytes_ltb_spec (start rt) e), (bytes_ltb_spec a (end_ rt)); cbn [negb andb];
    try (intros _; by border).
  destruct (bytes_ltb_spec (start rt) a), (bytes_ltb_spec e (end_ rt)); bcase; try done; intros _; border.
Qed.

Lemma clips_delete l a e k q :
  deletes (clips l a e) k q <-> deletes l k q /\ bytes_le a k /\ bytes_lt k e.
Proof.
  unfold deletes, clips. split.
  - intros (c & Hin & <- & Hc). apply list_elem_of_In, list_elem_of_omap in Hin as (rt & Hin & Hclip).
    apply list_elem_of_In in Hin. apply clip_to_Some in Hclip as [-> Hcov]. apply Hcov in Hc. naive_solver.
  - intros ((rt & Hin & <- & Hc) & Ha & He). destruct (clip_to rt a e) as [c|] eqn:E.
    + exists c. destruct (clip_to_Some _ _ _ _ E) as [Hs Hcov]. split_and!; [|done|by apply Hcov].
      apply list_elem_of_In, list_elem_of_omap. exists rt. by rewrite list_elem_of_In.
    + by destruct (clip_to_None _ _ _ _ E Hc Ha He).
Qed.

Lemma deletes_ext l1 l2 k q :
  (forall x, In x l1 -> covers x k = true -> In x l2) ->
  (forall x, In x l2 -> covers x k = true -> In x l1) -> deletes l1 k q <-> deletes l2 k q.
Proof. unfold deletes. naive_solver. Qed.

(** ** Joining *)

(** A tombstone that starts where another of its sequence still reaches adds to
    it exactly its own keys. *)
Lemma join_covers last t k :
  bytes_le (start last) (start t) -> bytes_le (start t) (end_ last) ->
  covers (mkTomb (start last) (if bytes_ltb (end_ last) (end_ t) then end_ t else end_ last)
            (seq last)) k = covers last k || covers t k.
Proof.
  intros Hs Ht. unfold covers. cbn [start end_]. destruct (bytes_ltb_spec (end_ last) (end_ t));
    repeat bcase; simpl; try done; exfalso; border.
Qed.

Definition by_seq_then_start (a b : RangeTombstone) : Prop :=
  seq a < seq b \/ seq a = seq b /\ bytes_le (start a) (start b).

Lemma join_from_deletes last l k q :
  StronglySorted by_seq_then_start (last :: l) ->
  deletes (join_from last l) k q <-> deletes (last :: l) k q.
Proof.
  revert last. induction l as [|t l IH]; intros last Hs; [done|]. cbn [join_from].
  apply StronglySorted_inv in Hs as [Hs Hall]. pose proof (Forall_inv Hall) as Hlt.
  apply Forall_inv_tail in Hall. apply StronglySorted_inv in Hs as [Hs Hallt].
  destruct (Z.eqb_spec (seq last) (seq t)) as [Eq|]; [destruct (bytes_leb_spec (start t) (end_ last))|];
    cbn [andb]; cycle 1.
  1-2: unfold deletes in *; specialize (IH t (SSorted_cons t Hs Hallt)); simpl in *; naive_solver.
  rewrite IH by (by constructor). destruct Hlt as [|[_ Hlt]]; [lia|].
  pose proof (join_covers last t k Hlt ltac:(done)) as Hj. unfold deletes. split.
  - intros (x & [<-|Hin] & Hq & Hc); [|exists x; simpl; tauto].
    rewrite Hj in Hc. cbn [seq] in Hq. apply orb_true_iff in Hc as [Hc|Hc];
      [exists last|exists t]; simpl; split_and!; auto; congruence.
  - intros (x & [<-|[<-|Hin]] & Hq & Hc); [..|exists x; simpl; tauto]; eexists; (split; [by left|]);
      rewrite Hj, Hc; cbn [seq]; split; try done; [congruence|apply orb_true_r].
Qed.

(** Sorting by sequence, stably, leaves each sequence's tombstones in start
    order. *)
Lemma insert_by_seq x l :
  StronglySorted by_seq_then_start l ->
  (forall y, In y l -> bytes_le (start x) (start y)) ->
  StronglySorted by_seq_then_start (insert_by seq_cmp x l).
Proof.
  induction l as [|y l IH]; intros Hs Hx; simpl; [by repeat constructor|].
  apply StronglySorted_inv in Hs as [Hs Hall]. rewrite List.Forall_forall in Hall.
  assert (Hle : seq x <= seq y -> StronglySorted by_seq_then_start (x :: y :: l)).
  { intros Hxy. constructor; [by constructor; [|apply List.Forall_forall]|]. apply List.Forall_forall.
    intros z Hz. specialize (Hx z Hz). unfold by_seq_then_start. destruct Hz as [<-|Hz].
    - destruct (Z.eq_dec (seq x) (seq y)); [by right|left; lia].
    - specialize (Hall z Hz). unfold by_seq_then_start in Hall.
      destruct (Z.eq_dec (seq x) (seq z)); [by right|left; lia]. }
  unfold seq_cmp at 1. destruct (Z.compare_spec (seq x) (seq y)); try (apply Hle; lia).
  constructor; [apply IH; [done|intros z Hz; apply Hx; by right]|].
  apply List.Forall_forall. intros z Hz. apply list_elem_of_In in Hz. rewrite insert_by_perm in Hz.
  apply list_elem_of_In in Hz as [<-|Hz]; [left; lia|auto].
Qed.

Lemma sort_by_seq l :
  StronglySorted (fun a b => bytes_le (start a) (start b)) l ->
  StronglySorted by_seq_then_start (sort_by seq_cmp l).
Proof.
  induction 1 as [|x l Hs IH Hall]; simpl; [constructor|]. apply insert_by_seq; [done|].
  intros y Hy. rewrite List.Forall_forall in Hall. apply Hall. by apply (sort_by_In seq_cmp).
Qed.

(** ** The block *)

Definition tomb_wf (rt : RangeTombstone) : Prop :=
  is_u32 (len (start rt)) /\ is_u32 (len (end_ rt)) /\ is_u64 (seq rt).

Lemma read_bytes_Ok `{Target} data pos n field raw pos' :
  0 <= pos -> 0 <= n -> read_bytes data pos n field = Ok (raw, pos') ->
  pos' = pos + n /\ pos' <= len data.
Proof.
  intros Hpos Hn. unfold read_bytes. intros (e & He%ok_or_Ok%checked_add_Some & E)%bind_Ok.
  destruct (Z.ltb_spec (len data) e); [done|]. apply bind_Ok in E as (r & _ & [= <- <-]). lia.
Qed.

Lemma read_bytes_returns `{Target} data pos n field :
  0 <= pos -> 0 <= n -> returns (read_bytes data pos n field).
Proof.
  intros Hpos Hn. unfold read_bytes. apply returns_bind; [apply returns_ok_or|].
  intros e He%ok_or_Ok%checked_add_Some. destruct (Z.ltb_spec (len data) e); [done|].
  destruct (slice data pos e) eqn:E; [done|]. apply slice_None in E. lia.
Qed.

Lemma read_bytes_encoded `{Target} pre raw post pos n field :
  pos = len pre -> n = len raw -> pos + n <= usize_max ->
  read_bytes (pre ++ raw ++ post) pos n field = Ok (raw, pos + n).
Proof.
  intros -> -> Hm. unfold read_bytes, checked_add. zrun. by rewrite slice_app.
Qed.

Lemma decode_tombstone_Ok `{Target} data pos rt pos' :
  0 <= pos -> decode_tombstone data pos = Ok (rt, pos') -> pos < pos' <= len data.
Proof.
  intros Hpos. unfold decode_tombstone. intros ([sl p1] & Hr1 & E)%bind_Ok.
  apply read_uint_Ok in Hr1 as (-> & ? & ?); [|done]. apply bind_Ok in E as ([st p2] & Hr2 & E).
  apply read_bytes_Ok in Hr2 as (-> & ?); [|lia..]. apply bind_Ok in E as ([el p3] & Hr3 & E).
  apply read_uint_Ok in Hr3 as (-> & ? & ?); [|lia]. apply bind_Ok in E as ([en p4] & Hr4 & E).
  apply read_bytes_Ok in Hr4 as (-> & ?); [|lia..]. apply bind_Ok in E as ([q p5] & Hr5 & [= <- <-]).
  apply read_uint_Ok in Hr5 as (-> & ? & ?); lia.
Qed.

Lemma decode_tombstone_returns `{Target} data pos : 0 <= pos -> returns (decode_tombstone data pos).
Proof.
  intros Hpos. apply returns_bind; [by apply read_uint_returns|]. intros [sl p1] Hr1.
  apply read_uint_Ok in Hr1 as (-> & ? & ?); [|done].
  apply returns_bind; [apply read_bytes_returns; lia|]. intros [st p2] Hr2.
  apply read_bytes_Ok in Hr2 as (-> & ?); [|lia..].
  apply returns_bind; [apply read_uint_returns; lia|]. intros [el p3] Hr3.
  apply read_uint_Ok in Hr3 as (-> & ? & ?); [|lia].
  apply returns_bind; [apply read_bytes_returns; lia|]. intros [en p4] Hr4.
  apply read_bytes_Ok in Hr4 as (-> & ?); [|lia..].
  apply returns_bind; [apply read_uint_returns; lia|]. by intros [].
Qed.

Lemma decode_tombstones_returns `{Target} n data pos :
  0 <= pos -> returns (decode_tombstones n data pos).
Proof.
  revert pos. induction n as [|n IH]; intros pos Hpos; cbn [decode_tombstones]; [done|].
  apply returns_bind; [by apply decode_tombstone_returns|]. intros [rt p] Hd.
  apply decode_tombstone_Ok in Hd; [|done]. apply returns_bind; [apply IH; lia|]. by intros [].
Qed.

Lemma tombstone_encoded `{Target} pre rt post pos :
  pos = len pre -> tomb_wf rt -> len (pre ++ encode_tombstone rt ++ post) <= usize_max ->
  decode_tombstone (pre ++ encode_tombstone rt ++ post) pos =
  Ok (rt, pos + len (encode_tombstone rt)).
Proof.
  destruct rt as [s e q]. intros -> (Hs & He & Hq) Hlen. unfold encode_tombstone, tomb_wf in *.
  cbn [start end_ seq] in *. rewrite !as_u32_small in * by done. rewrite <- !app_assoc in *.
  assert (Hbl : len pre + 4 + len s + 4 + len e + 8 + len post <= usize_max) by llia.
  unfold is_u32, is_u64 in *. unfold decode_tombstone, sst_read_u32, sst_read_u64.
  rewrite read_uint_encoded by llia. run.
  rewrite (app_assoc pre), read_bytes_encoded by llia. run.
  rewrite (app_assoc _ s), read_uint_encoded by llia. run.
  rewrite (app_assoc _ (to_le 4 (len e))), read_bytes_encoded by llia. run.
  rewrite (app_assoc _ e), read_uint_encoded by llia. run. f_equal. f_equal. llia.
Qed.

Lemma tombstones_encoded `{Target} pre l :
  Forall tomb_wf l -> len (pre ++ List.concat (map encode_tombstone l)) <= usize_max ->
  decode_tombstones (length l) (pre ++ List.concat (map encode_tombstone l)) (len pre) =
  Ok (l, len (pre ++ List.concat (map encode_tombstone l))).
Proof.
  revert pre. induction l as [|rt l IH]; intros pre Hl Hlen; cbn [length decode_tombstones map List.concat].
  { by rewrite app_nil_r. }
  inversion_clear Hl. cbn [map List.concat] in Hlen.
  rewrite tombstone_encoded by done. run. rewrite app_assoc, <- len_app in *.
  rewrite IH by done. done.
Qed.

(** ** Properties *)

Lemma max_covering_newest l k snap :
  max_covering_seq (from_vec l) k snap = Ok (newest_covering l k snap).
Proof.
  unfold max_covering_seq. cbn [tombstones from_vec].
  assert (Hext : newest_covering (sort_dedup_tombstones l) k snap = newest_covering l k snap).
  { apply newest_ext; intros x Hx _; by apply sort_dedup_In. }
  destruct (bool_decide_reflect (sort_dedup_tombstones l = [])) as [E|Hne].
  { rewrite <- Hext, E. done. }
  rewrite (max_covering_loop_spec (from_vec l) eq_refl); [|apply partition_point_bound|done].
  cbn [tombstones from_vec]. rewrite Z.max_r by apply newest_nonneg. rewrite <- Hext. f_equal.
  apply newest_ext; intros x Hx Hc.
  - apply list_elem_of_In in Hx. apply list_elem_of_In.
    eapply elem_of_sublist; [exact Hx|apply sublist_take].
  - apply starts_partition; auto; [apply sorted_starts, sort_dedup_sorted|..].
    + intros a b Hab. do 2 bcase; try done. intros _. exfalso. border.
    + unfold covers in Hc. by apply andb_true_iff in Hc as [? _].
Qed.

(** The indexed search for a key's newest deletion is right. On the set
    built from any tombstones, in any order, duplicated, empty or inverted, it
    answers what looking at every one of them would: the greatest sequence that
    covers the key and is visible at the snapshot, and zero when there is none. *)
Theorem max_covering_seq_correct l k snap :
  max_covering_seq (from_vec l) k snap = Ok (newest_covering l k snap).
Proof. exact (max_covering_newest l k snap). Qed.

(** A table is skipped for being wholly deleted exactly when one tombstone
    of the set covers its first key through its last. *)
Theorem covers_whole_correct l first last :
  covers_whole (from_vec l) first last =
  Ok (existsb (fun rt => bytes_leb (start rt) first && bytes_ltb last (end_ rt)) l).
Proof.
  unfold covers_whole.
  rewrite (covers_whole_loop_spec (from_vec l) eq_refl) by apply partition_point_bound.
  cbn [tombstones from_vec]. f_equal. apply eq_true_iff_eq. rewrite !existsb_exists.
  destruct (partition_point_spec (fun rt => bytes_leb (start rt) first) (sort_dedup_tombstones l))
    as (_ & Hlo & _).
  { intros i j x y Hij Hx Hy.
    pose proof (sorted_getz _ _ i j x y (sorted_starts _ (sort_dedup_sorted l)) Hx Hy Hij).
    cbv beta in *. do 2 bcase; try done. intros _. exfalso. border. }
  split.
  - intros (x & Hx & Hl). exists x. apply list_elem_of_In, list_elem_of_lookup in Hx as [n Hn].
    apply lookup_take_Some in Hn as [Hn Hlt]. split.
    + apply sort_dedup_In, list_elem_of_In, list_elem_of_lookup. eauto.
    + rewrite Hl, andb_true_r. apply (Hlo (Z.of_nat n)); [|lia].
      unfold getz. destruct (Z.leb_spec 0 (Z.of_nat n)); [|lia]. by rewrite Nat2Z.id.
  - intros (x & Hx & [Hs Hl]%andb_true_iff). exists x. split; [|done].
    apply starts_partition; [apply sorted_starts, sort_dedup_sorted| |by apply sort_dedup_In|done].
    intros a b Hab. do 2 bcase; try done. intros _. exfalso. border.
Qed.

Lemma clipped_overlaps_deletes l a e :
  exists r, clipped_overlaps (from_vec l) a e = Ok r /\
    forall k q, deletes r k q <-> deletes l k q /\ bytes_le a k /\ bytes_lt k e.
Proof.
  unfold clipped_overlaps. destruct (bytes_leb_spec e a) as [Hea|Hae].
  { exists []. split; [done|]. intros k q. split; [by intros (? & [] & _)|].
    intros (_ & Ha & He). exfalso. border. }
  destruct (clipped_loop_spec (from_vec l) eq_refl _ a e [] (partition_point_bound
    (fun rt => bytes_ltb (start rt) e) (tombstones (from_vec l)))) as (r & -> & Hr). run.
  exists (sort_dedup_tombstones r). split; [done|]. intros k q.
  rewrite (deletes_ext _ (clips (take (Z.to_nat (partition_point (fun rt => bytes_ltb (start rt) e)
    (tombstones (from_vec l)))) (tombstones (from_vec l))) a e));
    [|intros x Hx _; apply Hr; by apply sort_dedup_In
     |intros x Hx _; apply sort_dedup_In; by apply Hr].
  rewrite clips_delete. cbn [tombstones from_vec].
  assert (Hk : bytes_lt k e -> deletes (take (Z.to_nat (partition_point
    (fun rt => bytes_ltb (start rt) e) (sort_dedup_tombstones l))) (sort_dedup_tombstones l)) k q <->
    deletes l k q); [|tauto].
  intros Hke. apply deletes_ext; intros x Hx Hc.
  - apply sort_dedup_In, list_elem_of_In. apply list_elem_of_In in Hx.
    eapply elem_of_sublist; [exact Hx|apply sublist_take].
  - apply starts_partition; [apply sorted_starts, sort_dedup_sorted| |by apply sort_dedup_In|].
    + intros b c Hbc. do 2 bcase; try done. intros _. exfalso. border.
    + unfold covers in Hc. revert Hc. do 3 bcase; try done. intros _. exfalso. border.
Qed.

(** Clipping tombstones to a table's key range keeps exactly the deletions
    that fall inside it: the same keys at the same sequences, and nothing
    outside. *)
Theorem clipped_overlaps_exact l a e :
  exists r, clipped_overlaps (from_vec l) a e = Ok r /\
    forall k q, deletes r k q <-> deletes l k q /\ bytes_le a k /\ bytes_lt k e.
Proof. exact (clipped_overlaps_deletes l a e). Qed.

(** Joining the pieces a compaction cut a deletion into changes nothing it
    deletes: every key is deleted at the same sequences before and after. *)
Theorem coalesced_deletes_the_same l k q : deletes (coalesced l) k q <-> deletes l k q.
Proof.
  unfold coalesced.
  pose proof (sort_by_seq _ (sorted_starts _ (sort_dedup_sorted l))) as Hs.
  rewrite <- (deletes_ext (sort_by seq_cmp (sort_dedup_tombstones l)) l);
    [|intros x Hx _; apply sort_by_In in Hx; by apply sort_dedup_In
     |intros x Hx _; apply sort_by_In; by apply sort_dedup_In].
  destruct (sort_by seq_cmp (sort_dedup_tombstones l)) as [|t r]; [done|].
  by apply join_from_deletes.
Qed.

Lemma widen_spec range rt :
  exists lo hi, widen range rt = Some (lo, hi) /\ bytes_le lo (start rt) /\ bytes_le (end_ rt) hi /\
    (forall a b, range = Some (a, b) -> bytes_le lo a /\ bytes_le b hi) /\
    (lo = start rt \/ exists b, range = Some (lo, b)) /\ (hi = end_ rt \/ exists a, range = Some (a, hi)).
Proof.
  destruct range as [[a b]|]; simpl.
  - eexists _, _. split; [done|]. destruct (bytes_ltb_spec (start rt) a), (bytes_ltb_spec b (end_ rt));
      split_and!; try apply bytes_le_refl; try (by apply bytes_not_lt); eauto;
      intros ? ? [= <- <-]; split; try apply bytes_le_refl; by apply bytes_lt_le.
  - eexists _, _. split; [done|]. split_and!; try apply bytes_le_refl; auto; done.
Qed.

Lemma table_key_range_spec points l :
  match table_key_range points l with
  | None => points = None /\ l = []
  | Some (lo, hi) =>
      (forall a b, points = Some (a, b) -> bytes_le lo a /\ bytes_le b hi) /\
      (forall rt, In rt l -> bytes_le lo (start rt) /\ bytes_le (end_ rt) hi) /\
      ((exists b, points = Some (lo, b)) \/ exists rt, In rt l /\ lo = start rt) /\
      ((exists a, points = Some (a, hi)) \/ exists rt, In rt l /\ hi = end_ rt)
  end.
Proof.
  induction l as [|rt l IH] using rev_ind; unfold table_key_range in *; simpl.
  - destruct points as [[a b]|]; [|done]. split_and!; eauto; try done.
    intros ? ? [= <- <-]. split; apply bytes_le_refl.
  - rewrite fold_left_app. simpl.
    destruct (widen_spec (fold_left widen l points) rt) as (lo & hi & -> & Hs & He & Hr & Hlo & Hhi).
    destruct (fold_left widen l points) as [[lo' hi']|].
    + destruct IH as (Hp & Hl & Hlo' & Hhi'). destruct (Hr lo' hi' eq_refl) as [Hr1 Hr2].
      split_and!.
      * intros a b Hab. destruct (Hp a b Hab). split; by eapply bytes_le_trans.
      * intros x [Hx|[<-|[]]]%in_app_or; [|done]. destruct (Hl x Hx). split; by eapply bytes_le_trans.
      * destruct Hlo as [->|[b [= <- <-]]]; [right; exists rt; rewrite in_app_iff; simpl; tauto|].
        destruct Hlo' as [?|(x & Hx & ->)]; [by left|right; exists x; rewrite in_app_iff; tauto].
      * destruct Hhi as [->|[b [= <- <-]]]; [right; exists rt; rewrite in_app_iff; simpl; tauto|].
        destruct Hhi' as [?|(x & Hx & ->)]; [by left|right; exists x; rewrite in_app_iff; tauto].
    + destruct IH as [-> ->]. simpl. destruct Hlo as [->|[? ?]]; [|done]. destruct Hhi as [->|[? ?]]; [|done].
      split_and!; eauto; try done. intros x [<-|[]]. done.
Qed.

(** A table's recorded key range takes in its point keys and every key any
    of its tombstones deletes, and is no wider: its ends are ends of a point
    range or of a tombstone. It has none only when it holds neither. *)
Theorem table_key_range_contains points l :
  match table_key_range points l with
  | None => points = None /\ l = []
  | Some (lo, hi) =>
      (forall a b, points = Some (a, b) -> bytes_le lo a /\ bytes_le b hi) /\
      (forall rt k, In rt l -> covers rt k = true -> bytes_le lo k /\ bytes_lt k hi) /\
      ((exists b, points = Some (lo, b)) \/ exists rt, In rt l /\ lo = start rt) /\
      ((exists a, points = Some (a, hi)) \/ exists rt, In rt l /\ hi = end_ rt)
  end.
Proof.
  pose proof (table_key_range_spec points l) as Hs.
  destruct (table_key_range points l) as [[lo hi]|]; [|done].
  destruct Hs as (Hp & Hl & Hlo & Hhi). split_and!; auto. intros rt k Hin. destruct (Hl rt Hin).
  unfold covers. do 2 bcase; try done. intros _. split; border.
Qed.

(** The range from a key to its exclusive successor deletes that key and no
    other, of any length. *)
Theorem exclusive_successor_covers_one key q k :
  covers (mkTomb key (exclusive_successor key) q) k = bool_decide (k = key).
Proof.
  unfold covers, exclusive_successor. cbn [start end_].
  assert (Hgap : forall a b, bytes_le a b -> bytes_lt b (a ++ [Byte.x00]) -> b = a).
  { clear. unfold bytes_le, bytes_lt.
    induction a as [|x a IH]; intros [|y b]; try done; cbn [bytes_cmp app].
    - intros _. destruct (byte_cmp y Byte.x00) eqn:E; try done.
      + by destruct b.
      + unfold byte_cmp in E. rewrite Z.compare_lt_iff in E. pose proof (byte.unsigned_range y).
        change (byte.unsigned Byte.x00) with 0 in E. lia.
    - rewrite (byte_cmp_opp x y). destruct (byte_cmp x y) eqn:E; simpl; try done.
      apply byte_cmp_eq in E as ->. intros H1 H2. f_equal. by apply IH. }
  destruct (bool_decide_reflect (k = key)) as [->|Hne].
  - destruct (bytes_leb_spec key key) as [|Hn]; [|by destruct Hn; apply bytes_le_refl].
    simpl. destruct (bytes_ltb_spec key (key ++ [Byte.x00])) as [|Hn]; [done|].
    exfalso. apply Hn. unfold bytes_lt. rewrite <- (app_nil_r key) at 1. by rewrite bytes_cmp_app.
  - do 2 bcase; try done. exfalso. apply Hne. auto.
Qed.

(** The tombstone block a table stores decodes to the tombstones encoded,
    and no bytes make the decoder panic. *)
Theorem tombstone_block_roundtrip `{Target} l :
  Forall tomb_wf l -> is_u32 (len l) -> len (encode_range_tombstone_block l) <= usize_max ->
  decode_range_tombstone_block (encode_range_tombstone_block l) = Ok l /\
  forall data, returns (decode_range_tombstone_block data).
Proof.
  intros Hl Hn Hlen. split.
  - unfold decode_range_tombstone_block, encode_range_tombstone_block in *. repeat ztest.
    rewrite slice_app_head by llia. run. rewrite as_u32_small, from_to_u32 by done.
    replace (Z.to_nat (len l)) with (length l) by (unfold len; lia).
    rewrite as_u32_small in Hlen by done.
    pose proof (tombstones_encoded (to_le 4 (len l)) l Hl Hlen) as Ht.
    rewrite len_to_le in Ht. change (Z.of_nat 4) with 4 in Ht. rewrite Ht. run.
    by rewrite Z.eqb_refl.
  - intros data. unfold decode_range_tombstone_block. destruct (_ =? 0); [done|].
    destruct (Z.ltb_spec (len data) 4); [done|].
    destruct (slice data 0 4) eqn:E; [|apply slice_None in E; lia]. run.
    apply returns_bind; [by apply decode_tombstones_returns|]. intros [out pos] _. by destruct (negb _).
Qed.

Definition sample_tombs : list RangeTombstone :=
  [mkTomb (str "b") (str "f") 9; mkTomb (str "a") (str "c") 12].

Lemma tombstone_block_roundtrip_witness :
  decode_range_tombstone_block (H := target64) (encode_range_tombstone_block sample_tombs) =
  Ok sample_tombs.
Proof.
  refine (proj1 (@tombstone_block_roundtrip target64 sample_tombs _ _ _)).
  - repeat constructor; vm_compute; congruence.
  - split; vm_compute; congruence.
  - vm_compute. congruence.
Defined.
