(* ===== verification/TombstoneLog.v ===== *)
(** * The range tombstones of a memtable

    Models [src/src/engine/memtable/tombstones.rs]: a log of tombstones any
    number of threads append to, and a sorted view of its first positions that
    one thread at a time rebuilds. The positions of the log are a list of slots,
    empty until the append that claimed one marks it ready; [locate] gives the
    segment and offset a position is stored at. The byte count is left out.

    The operations come twice: whole, as one thread alone runs them, and as
    steps of threads that interleave, one atomic access per step. The
    look for a duplicate before an append has no effect of its own, so a step
    may append any tombstone.

    Shown here: the view covers only ready positions, whatever the interleaving
    (T1 to T4 of the module's documentation); a search through the view and the
    positions past it finds what a walk of every tombstone would; and each
    position has a slot of its own. *)

From stdpp Require Import sets sorting relations.
From S2P Require Import Prelude Order RangeTombstone.

(** ** Where a position is stored *)

Definition FIRST_SEGMENT : Z := 8.
Definition SEGMENTS : Z := 30.
Definition REBUILD : nat := 16.
Definition u32_max : Z := 2 ^ 32 - 1.

(** [usize::BITS - 1 - bucket.leading_zeros()] of a bucket that is not zero. *)
Definition leading_zeros (bits n : Z) : Z := bits - 1 - Z.log2 n.
Definition locate (bits position : Z) : Z * Z :=
  let bucket := position / FIRST_SEGMENT + 1 in
  let segment := bits - 1 - leading_zeros bits bucket in
  let start := FIRST_SEGMENT * (Z.shiftl 1 segment - 1) in
  (segment, position - start).
Definition segment_len (segment : Z) : Z := Z.shiftl FIRST_SEGMENT segment.

(** ** The log *)

Record TombstoneIndex := mkIndex { covered : nat; order : list nat; reach : list nat }.

Record TombstoneLog := mkLog {
  slots : list (option RangeTombstone);
  index : option TombstoneIndex;
  rebuilding : bool;
}.

Definition log_new : TombstoneLog := mkLog [] None false.
Definition log_len (l : TombstoneLog) : nat := length (slots l).
Definition get (l : TombstoneLog) (position : nat) : option RangeTombstone := mjoin (slots l !! position).
Definition NEVER : RangeTombstone := mkTomb [] [] 0.
Definition indexed (l : TombstoneLog) (position : nat) : RangeTombstone := default NEVER (get l position).

(** The walk from the end of [holds]. *)
Fixpoint holds_below (l : TombstoneLog) (n : nat) (t : RangeTombstone) : bool :=
  match n with
  | O => false
  | S n =>
      match get l n with
      | None => holds_below l n t
      | Some held => if seq held <? seq t then false else if same_tomb held t then true else holds_below l n t
      end
  end.
Definition holds (l : TombstoneLog) (t : RangeTombstone) : bool := holds_below l (log_len l) t.

(** The add on [claimed], and the rest of an append. *)
Definition claim (l : TombstoneLog) : TombstoneLog := mkLog (slots l ++ [None]) (index l) (rebuilding l).
Definition fill (l : TombstoneLog) (position : nat) (t : RangeTombstone) : TombstoneLog :=
  mkLog (<[position := Some t]> (slots l)) (index l) (rebuilding l).
Definition append (l : TombstoneLog) (t : RangeTombstone) : TombstoneLog := fill (claim l) (log_len l) t.

(** ** The view *)

(** The loops over two peekable iterators: the left one first when it is not
    greater. *)
Fixpoint merge_by {A} (cmp : A -> A -> comparison) (a : list A) : list A -> list A :=
  fix go (b : list A) : list A :=
    match a, b with
    | [], _ => b
    | _, [] => a
    | x :: a', y :: b' => match cmp x y with Gt => y :: go b' | _ => x :: merge_by cmp a' b end
    end.

Fixpoint build_reach (ind : nat -> RangeTombstone) (last : option nat) (order : list nat) : list nat :=
  match order with
  | [] => []
  | position :: order =>
      let farthest :=
        match last with
        | Some prev => if bytes_leb (end_ (ind position)) (end_ (ind prev)) then prev else position
        | None => position
        end in
      farthest :: build_reach ind (Some farthest) order
  end.

(** The first of [n] positions that is not ready. *)
Fixpoint first_unready (l : TombstoneLog) (from n : nat) : nat :=
  match n with
  | O => from
  | S n => match get l from with None => from | Some _ => first_unready l (S from) n end
  end.

Definition by_listing (l : TombstoneLog) (a b : nat) : comparison := tomb_cmp (indexed l a) (indexed l b).

(** What [rebuild] publishes over the positions it found ready. *)
Definition build_index (l : TombstoneLog) (cov : nat) (old_order : list nat) (published : nat)
  : option TombstoneIndex :=
  if (published - cov <? REBUILD)%nat then None
  else if (u32_max <? Z.of_nat published) || (u32_max <? Z.of_nat cov) then None
  else
    let fresh := sort_by (by_listing l) (List.seq cov (published - cov)) in
    let order := merge_by (by_listing l) old_order fresh in
    Some (mkIndex published order (build_reach (indexed l) None order)).

Definition index_view (l : TombstoneLog) : nat * list nat :=
  match index l with Some i => (covered i, order i) | None => (O, []) end.
Definition store_index (l : TombstoneLog) (i : option TombstoneIndex) : TombstoneLog :=
  match i with Some _ => mkLog (slots l) i (rebuilding l) | None => l end.
Definition set_rebuilding (l : TombstoneLog) (b : bool) : TombstoneLog := mkLog (slots l) (index l) b.

Definition rebuild (l : TombstoneLog) : TombstoneLog :=
  let '(cov, old_order) := index_view l in
  let published := first_unready l cov (log_len l - cov) in
  store_index l (build_index l cov old_order published).

Definition maybe_rebuild (l : TombstoneLog) : TombstoneLog :=
  if (log_len l - (index_view l).1 <? REBUILD)%nat then l
  else if rebuilding l then l
  else set_rebuilding (rebuild (set_rebuilding l true)) false.

Definition push (l : TombstoneLog) (t : RangeTombstone) : TombstoneLog :=
  if holds l t then l else maybe_rebuild (append l t).

Definition ready (l : TombstoneLog) : list RangeTombstone := omap (get l) (List.seq 0 (log_len l)).

(** [binary_search_by] of a sorted vector finds an equal element when there is
    one. *)
Definition extend (l : TombstoneLog) (batch : list RangeTombstone) : TombstoneLog :=
  let batch := dedup_by same_tomb (sort_by tomb_cmp batch) in
  let existing := sort_by tomb_cmp (ready l) in
  let batch :=
    if (log_len l =? 0)%nat then batch
    else List.filter (fun t => negb (existsb (fun held => match tomb_cmp held t with Eq => true | _ => false end) existing))
           batch in
  maybe_rebuild (fold_left append batch l).

(** ** Reads *)

(** A read gets the view it loaded, the tombstones at the positions of the view,
    and the ones it found past the view. *)
Section Reads.
Context (ind : nat -> RangeTombstone) (idx : option TombstoneIndex) (tail : list RangeTombstone).

Fixpoint covering_walk (i : TombstoneIndex) (j : nat) (user_key : bytes) (snapshot_seq best : Z) : outcome Z :=
  match j with
  | O => Ok best
  | S j =>
      r ← expect (reach i !! j);
      if bytes_leb (end_ (ind r)) user_key then Ok best
      else
        o ← expect (order i !! j);
        let t := ind o in
        covering_walk i j user_key snapshot_seq
          (if (seq t <=? snapshot_seq) && covers t user_key then Z.max best (seq t) else best)
  end.

Definition covering_read (user_key : bytes) (snapshot_seq : Z) : outcome Z :=
  best ← match idx with
         | None => Ok 0
         | Some i =>
             covering_walk i (Z.to_nat (partition_point (fun p => bytes_leb (start (ind p)) user_key) (order i)))
               user_key snapshot_seq 0
         end;
  Ok (fold_left (fun best t => if (seq t <=? snapshot_seq) && covers t user_key then Z.max best (seq t) else best)
        tail best).

Definition newer_overlap (lo hi : bytes) (floor ceil : Z) (t : RangeTombstone) : bool :=
  (floor <? seq t) && (seq t <=? ceil) && overlaps t lo hi.

Definition overlap_read (lo hi : bytes) (floor ceil : Z) : option RangeTombstone :=
  let found := match idx with None => None | Some i => List.find (newer_overlap lo hi floor ceil) (map ind (order i)) end in
  fold_left (fun found t =>
    if newer_overlap lo hi floor ceil t &&
       match found with None => true | Some best => match tomb_cmp t best with Lt => true | _ => false end end
    then Some t else found) tail found.

Definition sorted_read : list RangeTombstone :=
  let indexed := match idx with None => [] | Some i => map ind (order i) end in
  dedup_by same_tomb (merge_by tomb_cmp indexed (sort_by tomb_cmp tail)).

End Reads.

Definition tail_of (l : TombstoneLog) : list RangeTombstone :=
  let cov := (index_view l).1 in omap (get l) (List.seq cov (log_len l - cov)).

Definition covering_seq (l : TombstoneLog) : bytes -> Z -> outcome Z := covering_read (indexed l) (index l) (tail_of l).
Definition first_newer_overlap (l : TombstoneLog) : bytes -> bytes -> Z -> Z -> option RangeTombstone :=
  overlap_read (indexed l) (index l) (tail_of l).
Definition any (l : TombstoneLog) (pred : RangeTombstone -> bool) : bool := existsb pred (ready l).
Definition to_sorted_vec (l : TombstoneLog) : list RangeTombstone := sorted_read (indexed l) (index l) (tail_of l).

(** ** Threads *)

(** Where a thread is: before an append, between its claim and its slot, in
    [maybe_rebuild] and in [rebuild]. *)
Inductive pc :=
| Idle
| Fill (position : nat) (t : RangeTombstone)
| Check
| Compare (cov : nat)
| Swap
| Load
| Count (cov : nat) (old_order : list nat)
| Scan (cov : nat) (old_order : list nat) (n at_ : nat)
| Build (cov : nat) (old_order : list nat) (published : nat)
| Unlock.

Definition state : Type := TombstoneLog * list pc.

Inductive step : state -> state -> Prop :=
| step_claim l ps i t : ps !! i = Some Idle ->
    step (l, ps) (claim l, <[i := Fill (log_len l) t]> ps)
| step_fill l ps i p t next : ps !! i = Some (Fill p t) -> next = Idle \/ next = Check ->
    step (l, ps) (fill l p t, <[i := next]> ps)
| step_check l ps i : ps !! i = Some Check ->
    step (l, ps) (l, <[i := Compare (index_view l).1]> ps)
| step_few l ps i cov : ps !! i = Some (Compare cov) -> (log_len l - cov < REBUILD)%nat ->
    step (l, ps) (l, <[i := Idle]> ps)
| step_many l ps i cov : ps !! i = Some (Compare cov) -> (REBUILD <= log_len l - cov)%nat ->
    step (l, ps) (l, <[i := Swap]> ps)
| step_busy l ps i : ps !! i = Some Swap -> rebuilding l = true ->
    step (l, ps) (l, <[i := Idle]> ps)
| step_swap l ps i : ps !! i = Some Swap -> rebuilding l = false ->
    step (l, ps) (set_rebuilding l true, <[i := Load]> ps)
| step_load l ps i : ps !! i = Some Load ->
    step (l, ps) (l, <[i := Count (index_view l).1 (index_view l).2]> ps)
| step_count l ps i cov old : ps !! i = Some (Count cov old) ->
    step (l, ps) (l, <[i := Scan cov old (log_len l) cov]> ps)
| step_ready l ps i cov old n a : ps !! i = Some (Scan cov old n a) -> (a < n)%nat -> is_Some (get l a) ->
    step (l, ps) (l, <[i := Scan cov old n (S a)]> ps)
| step_stop l ps i cov old n a : ps !! i = Some (Scan cov old n a) -> (n <= a)%nat \/ get l a = None ->
    step (l, ps) (l, <[i := Build cov old a]> ps)
| step_build l ps i cov old p : ps !! i = Some (Build cov old p) ->
    step (l, ps) (store_index l (build_index l cov old p), <[i := Unlock]> ps)
| step_unlock l ps i : ps !! i = Some Unlock ->
    step (l, ps) (set_rebuilding l false, <[i := Idle]> ps).

Definition steps : state -> state -> Prop := rtc step.
Definition start_state (n : nat) : state := (log_new, replicate n Idle).

(** ** Order *)

Lemma tomb_cmp_eq a b : tomb_cmp a b = Eq <-> a = b.
Proof.
  unfold tomb_cmp, then_with. destruct a as [s e q], b as [s' e' q']. cbn. split.
  - destruct (bytes_cmp s s') eqn:E1; try done. destruct (bytes_cmp e e') eqn:E2; try done.
    intros E3. apply bytes_cmp_eq in E1, E2. apply Z.compare_eq in E3. by subst.
  - intros [= -> -> ->]. by rewrite !bytes_cmp_refl, Z.compare_refl.
Qed.

Lemma merge_by_perm {A} (cmp : A -> A -> comparison) a b : Permutation (merge_by cmp a b) (a ++ b).
Proof.
  revert b. induction a as [|x a IHa]; intros b; [by destruct b|]. induction b as [|y b IHb]; cbn [merge_by].
  { by rewrite app_nil_r. }
  destruct (cmp x y); cbn [app]; try (by rewrite IHa). rewrite IHb. apply (Permutation_middle (x :: a) b y).
Qed.

Lemma merge_by_sorted {A} (cmp : A -> A -> comparison) `{PreorderCmp A cmp} a b :
  sorted_by cmp a -> sorted_by cmp b -> sorted_by cmp (merge_by cmp a b).
Proof.
  revert b. induction a as [|x a IHa]; intros b Ha Hb; [by destruct b|].
  pose proof Ha as Ha0. apply StronglySorted_inv in Ha as [Ha Hx].
  induction b as [|y b IHb]; cbn [merge_by]; [done|].
  pose proof Hb as Hb0. apply StronglySorted_inv in Hb as [Hb Hy].
  assert (Hle : cmp x y <> Gt -> sorted_by cmp (x :: merge_by cmp a (y :: b))).
  { intros Hxy. constructor; [by apply IHa|]. apply Forall_forall. intros z.
    rewrite merge_by_perm, in_app_iff. rewrite Forall_forall in Hx, Hy.
    intros [Hz|[<-|Hz]]; [by apply Hx|done|]. apply (pre_trans cmp x y z); [done|by apply Hy]. }
  destruct (cmp x y) eqn:E; try (apply Hle; congruence).
  constructor; [by apply IHb|]. apply Forall_forall. intros z.
  rewrite (merge_by_perm cmp (x :: a) b), in_app_iff. rewrite Forall_forall in Hx, Hy.
  pose proof (pre_total cmp x y E) as Hyx.
  intros [[<-|Hz]|Hz]; [done| |by apply Hy]. apply (pre_trans cmp y x z); [done|by apply Hx].
Qed.

Lemma by_listing_preorder l : PreorderCmp (by_listing l).
Proof.
  split; unfold by_listing.
  - intros x y. apply (pre_total tomb_cmp).
  - intros x y z. apply (pre_trans tomb_cmp).
Qed.

(** ** What a view says *)

Definition reach_ok (ind : nat -> RangeTombstone) (order reach : list nat) : Prop :=
  length reach = length order /\
  forall j r, reach !! j = Some r ->
    r ∈ take (S j) order /\ forall o, o ∈ take (S j) order -> bytes_le (end_ (ind o)) (end_ (ind r)).

(** The positions of a view and the order it lists them in. *)
Definition view_ok (l : TombstoneLog) (cov : nat) (order : list nat) : Prop :=
  (cov <= log_len l)%nat /\ (forall p, (p < cov)%nat -> is_Some (get l p)) /\
  order ≡ₚ List.seq 0 cov /\ sorted_by tomb_cmp (map (indexed l) order).

Definition index_ok (l : TombstoneLog) (i : TombstoneIndex) : Prop :=
  view_ok l (covered i) (order i) /\ reach_ok (indexed l) (order i) (reach i).

(** Slots are filled and added, never changed or removed. *)
Definition log_le (l l' : TombstoneLog) : Prop :=
  (log_len l <= log_len l')%nat /\ forall p t, get l p = Some t -> get l' p = Some t.

#[export] Instance log_le_preorder : PreOrder log_le.
Proof.
  split; [by intros l; split|]. intros a b c [H1 H2] [H3 H4]. split; [lia|]. intros p t Hp. by apply H4, H2.
Qed.

Lemma build_reach_length ind last order : length (build_reach ind last order) = length order.
Proof. revert last. induction order as [|p order IH]; intros last; [done|]. cbn. by rewrite IH. Qed.

Lemma build_reach_spec ind last order j r : build_reach ind last order !! j = Some r ->
  (r ∈ take (S j) order \/ last = Some r) /\
  (forall prev, last = Some prev -> bytes_le (end_ (ind prev)) (end_ (ind r))) /\
  forall o, o ∈ take (S j) order -> bytes_le (end_ (ind o)) (end_ (ind r)).
Proof.
  revert last j. induction order as [|p order IH]; intros last j; [done|]. cbn [build_reach].
  set (f := match last with Some _ => _ | None => _ end).
  assert (Hf : (f = p \/ last = Some f) /\ (forall prev, last = Some prev -> bytes_le (end_ (ind prev)) (end_ (ind f))) /\
               bytes_le (end_ (ind p)) (end_ (ind f))).
  { unfold f. destruct last as [prev|]; [|split_and!; [by left|done|apply bytes_le_refl]].
    destruct (bytes_leb_spec (end_ (ind p)) (end_ (ind prev))) as [Hle|Hgt].
    - split_and!; [by right| |done]. intros q [= ->]. apply bytes_le_refl.
    - split_and!; [by left| |apply bytes_le_refl]. intros q [= ->]. by apply bytes_lt_le, bytes_not_le. }
  destruct Hf as (Hin & Hprev & Hp). destruct j as [|j]; cbn [lookup list_lookup take].
  - intros [= <-]. split_and!; [|done|].
    + destruct Hin as [->|Hin]; [left; set_solver|by right].
    + intros o Ho. apply list_elem_of_singleton in Ho as ->. done.
  - intros Hj. apply IH in Hj as (H1 & H2 & H3). specialize (H2 f eq_refl). split_and!.
    + destruct H1 as [H1|[= <-]]; [left; set_solver|]. destruct Hin as [->|Hin]; [left; set_solver|by right].
    + intros prev E. apply (bytes_le_trans _ (end_ (ind f))); [by apply Hprev|done].
    + intros o Ho. apply elem_of_cons in Ho as [->|Ho]; [by apply (bytes_le_trans _ (end_ (ind f)))|by apply H3].
Qed.

Lemma build_reach_ok ind order : reach_ok ind order (build_reach ind None order).
Proof.
  split; [apply build_reach_length|]. intros j r Hj. apply build_reach_spec in Hj as ([H1|H1] & _ & H3); [|done].
  by split.
Qed.

Lemma view_indexed l l' cov order : log_le l l' -> view_ok l cov order ->
  forall p, p ∈ order -> indexed l' p = indexed l p.
Proof.
  intros [_ Hg] (_ & Hr & Hp & _) p Hin. rewrite Hp in Hin. apply list_elem_of_In, in_seq in Hin.
  destruct (Hr p) as [t Ht]; [lia|]. unfold indexed. by rewrite Ht, (Hg p t Ht).
Qed.

Lemma view_ok_mono l l' cov order : log_le l l' -> view_ok l cov order -> view_ok l' cov order.
Proof.
  intros Hle Hv. pose proof (view_indexed _ _ _ _ Hle Hv) as He. destruct Hle as [Hlen Hg], Hv as (H1 & H2 & H3 & H4).
  split_and!; [lia| |done|].
  - intros p Hp. destruct (H2 p Hp) as [t Ht]. exists t. by apply Hg.
  - rewrite (map_ext_in _ (indexed l)); [done|]. intros p Hp. apply He. by apply list_elem_of_In.
Qed.

Lemma index_ok_mono l l' i : log_le l l' -> index_ok l i -> index_ok l' i.
Proof.
  intros Hle [Hv [Hl Hr]]. pose proof (view_indexed _ _ _ _ Hle Hv) as He. split; [by eapply view_ok_mono|].
  split; [done|]. intros j r Hj. destruct (Hr j r Hj) as [Hin Hle']. split; [done|].
  assert (Hsub : forall p, p ∈ take (S j) (order i) -> p ∈ order i).
  { intros p Hp. eapply elem_of_sublist; [exact Hp|apply sublist_take]. }
  intros o Ho. rewrite !He by auto. by apply Hle'.
Qed.

Lemma build_index_spec l cov old p i : view_ok l cov old -> (cov <= p <= log_len l)%nat ->
  (forall q, (cov <= q < p)%nat -> is_Some (get l q)) -> build_index l cov old p = Some i ->
  index_ok l i /\ covered i = p.
Proof.
  intros (H1 & H2 & H3 & H4) Hp Hr. unfold build_index. destruct (_ <? REBUILD)%nat; [done|]. destruct (_ || _); [done|].
  intros [= <-]. split; [|done]. split; [|apply build_reach_ok]. cbn [covered order]. split_and!.
  - lia.
  - intros q Hq. destruct (Nat.lt_ge_cases q cov); [by apply H2|]. apply Hr. lia.
  - rewrite merge_by_perm, sort_by_perm, H3. rewrite <- seq_app. by replace (cov + (p - cov))%nat with p by lia.
  - unfold sorted_by in *. rewrite sorted_map in *. pose proof (by_listing_preorder l).
    apply (merge_by_sorted (by_listing l)); [exact H4|by apply sort_by_sorted].
Qed.

(** ** The invariant of the threads *)

(** The thread that set [rebuilding]. *)
Definition holder (c : pc) : bool :=
  match c with Load | Count _ _ | Scan _ _ _ _ | Build _ _ _ | Unlock => true | _ => false end.

(** What a thread knows. *)
Definition pc_ok (l : TombstoneLog) (c : pc) : Prop :=
  match c with
  | Fill p _ => slots l !! p = Some None
  | Compare cov => (cov <= (index_view l).1)%nat
  | Count cov old => index_view l = (cov, old)
  | Scan cov old n a =>
      index_view l = (cov, old) /\ (cov <= a <= n)%nat /\ (n <= log_len l)%nat /\
      forall q, (cov <= q < a)%nat -> is_Some (get l q)
  | Build cov old p =>
      index_view l = (cov, old) /\ (cov <= p <= log_len l)%nat /\ forall q, (cov <= q < p)%nat -> is_Some (get l q)
  | _ => True
  end.

Record inv (s : state) : Prop := {
  i_index : forall i, index s.1 = Some i -> index_ok s.1 i;
  i_pc : forall k c, s.2 !! k = Some c -> pc_ok s.1 c;
  i_fill : forall j k p t u, s.2 !! j = Some (Fill p t) -> s.2 !! k = Some (Fill p u) -> j = k;
  i_owner : forall p, slots s.1 !! p = Some None -> exists k t, s.2 !! k = Some (Fill p t);
  i_hold : forall j k c d, s.2 !! j = Some c -> s.2 !! k = Some d -> holder c = true -> holder d = true -> j = k;
  i_flag : forall k c, s.2 !! k = Some c -> holder c = true -> rebuilding s.1 = true;
}.

Lemma inv_start n : inv (start_state n).
Proof.
  assert (H : forall k c, replicate n Idle !! k = Some c -> c = Idle) by (intros k c [? _]%lookup_replicate; done).
  split; cbn [start_state fst snd]; try done.
  - intros k c Hc. by rewrite (H k c Hc).
  - intros j k p t u Hj. by apply H in Hj.
  - intros j k c d Hj _. by rewrite (H j c Hj).
  - intros k c Hc. by rewrite (H k c Hc).
Qed.

Lemma view_ok_index s : inv s -> view_ok s.1 (index_view s.1).1 (index_view s.1).2.
Proof.
  intros [Hi _ _ _ _ _]. unfold index_view. destruct (index s.1) as [i|]; [by apply Hi|].
  cbn [fst snd]. split_and!; [lia|intros p Hp; lia|done|constructor].
Qed.

(** One thread moves and the log grows; the others know what they knew. *)
Lemma inv_move l l' ps k c c' : inv (l, ps) -> ps !! k = Some c -> pc_ok l' c' ->
  (forall i, index l' = Some i -> index_ok l' i) ->
  (forall j d, j <> k -> ps !! j = Some d -> pc_ok l' d) ->
  (forall p t j u, c' = Fill p t -> ps !! j <> Some (Fill p u)) ->
  (forall p, slots l' !! p = Some None ->
     (exists t, c' = Fill p t) \/ slots l !! p = Some None /\ forall t, c <> Fill p t) ->
  (holder c' = true -> holder c = true \/ rebuilding l = false) ->
  (holder c' = true -> rebuilding l' = true) ->
  (rebuilding l = true -> rebuilding l' = true \/ holder c = true) ->
  inv (l', <[k := c']> ps).
Proof.
  intros [Hi Hp Hf Ho Hh Hg] Hk Hc' Hi' Hp' Hf' Ho' Hh' Hn' Hg'. cbn [fst snd] in *.
  assert (Hlook : forall j d, <[k := c']> ps !! j = Some d -> j = k /\ d = c' \/ j <> k /\ ps !! j = Some d).
  { intros j d Hj. destruct (decide (j = k)) as [->|Hne].
    - rewrite list_lookup_insert_eq in Hj by (by eapply lookup_lt_Some). left. by simplify_eq.
    - rewrite list_lookup_insert_ne in Hj by done. by right. }
  split; cbn [fst snd]; [done|..].
  - intros j d Hj. apply Hlook in Hj as [[-> ->]|[Hne Hj]]; [done|]. by eapply Hp'.
  - intros i j p t u Ht Hu. apply Hlook in Ht as [[-> Ht]|[Hi1 Ht]], Hu as [[-> Hu]|[Hj1 Hu]]; [done|..|by eapply Hf].
    + by destruct (Hf' p t j u (eq_sym Ht)).
    + by destruct (Hf' p u i t (eq_sym Hu)).
  - intros p Hpn. destruct (Ho' p Hpn) as [[t ->]|[Hold Hne]].
    + exists k, t. apply list_lookup_insert_eq. by eapply lookup_lt_Some.
    + destruct (Ho p Hold) as (j & t & Hj). exists j, t. rewrite list_lookup_insert_ne; [done|].
      intros ->. rewrite Hk in Hj. simplify_eq. by eapply Hne.
  - intros i j a b Ha Hb Hha Hhb. apply Hlook in Ha as [[-> ->]|[Hi1 Ha]], Hb as [[-> ->]|[Hj1 Hb]]; [done|..|by eapply Hh].
    + destruct (Hh' Hha) as [Hc|Hc]; [by eapply Hh|]. by rewrite (Hg j b Hb Hhb) in Hc.
    + destruct (Hh' Hhb) as [Hc|Hc]; [by eapply Hh|]. by rewrite (Hg i a Ha Hha) in Hc.
  - intros j d Hj Hd. apply Hlook in Hj as [[-> ->]|[Hne Hj]]; [by apply Hn'|].
    destruct (Hg' (Hg j d Hj Hd)) as [H|H]; [done|]. by destruct (Hne (Hh j k d c Hj Hk Hd H)).
Qed.

(** A thread that touches neither slots nor the flag. *)
Lemma inv_same l ps k c c' : inv (l, ps) -> ps !! k = Some c -> pc_ok l c' ->
  (forall p t, c <> Fill p t) -> (forall p t, c' <> Fill p t) -> (holder c' = true -> holder c = true) ->
  inv (l, <[k := c']> ps).
Proof.
  intros Hinv Hk Hc' Hnf Hnf' Hh. pose proof Hinv as [Hi Hp Hf Ho Hhh Hg]. cbn [fst snd] in *.
  apply (inv_move l l ps k c c'); try done; eauto.
  intros p t j u ->. by destruct (Hnf' p t).
Qed.

Lemma get_fill l p t q u : get (fill l p t) q = Some u <-> (q = p /\ (q < log_len l)%nat /\ u = t) \/ (q <> p /\ get l q = Some u).
Proof.
  unfold get, fill, log_len. cbn [slots]. destruct (decide (q = p)) as [->|Hne].
  - destruct (decide (p < length (slots l))%nat) as [Hlt|Hge].
    + rewrite list_lookup_insert_eq by done. cbn. naive_solver.
    + rewrite list_insert_ge by lia. rewrite lookup_ge_None_2 by lia. cbn. naive_solver lia.
  - rewrite list_lookup_insert_ne by done. naive_solver.
Qed.

Lemma claim_le l : log_le l (claim l).
Proof.
  unfold log_le, log_len, get, claim. cbn [slots]. rewrite length_app. split; [lia|]. intros p t Hp.
  destruct (slots l !! p) as [o|] eqn:E; [|done]. by rewrite (lookup_app_l_Some _ _ _ _ E).
Qed.

Lemma fill_le l p t : slots l !! p = Some None -> log_le l (fill l p t).
Proof.
  intros Hn. split; [unfold log_len, fill; cbn; by rewrite length_insert|]. intros q u Hq. apply get_fill. right.
  split; [|done]. intros ->. unfold get in Hq. by rewrite Hn in Hq.
Qed.

(** What a thread knows that rests only on filled slots and the view. *)
Lemma pc_ok_grow l l' c : log_le l l' -> index_view l' = index_view l ->
  (forall p t, c = Fill p t -> slots l' !! p = Some None) -> pc_ok l c -> pc_ok l' c.
Proof.
  intros [Hl Hg] Hv Hf. assert (Hr : forall p, is_Some (get l p) -> is_Some (get l' p)).
  { intros p [t Ht]. exists t. by apply Hg. }
  destruct c; cbn [pc_ok]; rewrite ?Hv; try done; [by intros _; eapply Hf|..].
  - intros (H1 & H2 & H3 & H4). split_and!; [done|lia|lia|lia|auto].
  - intros (H1 & H2 & H3). split_and!; [done|lia|lia|auto].
Qed.

Lemma inv_claim l ps k t : inv (l, ps) -> ps !! k = Some Idle -> inv (claim l, <[k := Fill (log_len l) t]> ps).
Proof.
  intros Hinv Hk. pose proof Hinv as [Hi Hp Hf Ho Hh Hg]. cbn [fst snd] in *.
  assert (Hnew : slots (claim l) !! log_len l = Some None) by (cbn; by rewrite lookup_app_r, Nat.sub_diag).
  apply (inv_move l (claim l) ps k Idle); try done; eauto.
  - intros i Hi'. apply (index_ok_mono l); [apply claim_le|by apply Hi].
  - intros j d Hne Hj. apply (pc_ok_grow l); [apply claim_le|done| |by eapply Hp].
    intros p u ->. apply Hp in Hj. cbn in *. by rewrite (lookup_app_l_Some _ _ _ _ Hj).
  - intros p u j w [= <- <-] Hj. apply Hp, lookup_lt_Some in Hj. unfold log_len in Hj. lia.
  - intros p Hn. cbn in Hn. apply lookup_app_Some in Hn as [Hn|[Hge Hn]]; [by right|left]. exists t.
    apply list_lookup_singleton_Some in Hn as [E _]. f_equal. unfold log_len. lia.
Qed.

Lemma inv_fill l ps k p t next : inv (l, ps) -> ps !! k = Some (Fill p t) -> next = Idle \/ next = Check ->
  inv (fill l p t, <[k := next]> ps).
Proof.
  intros Hinv Hk Hnext. pose proof Hinv as [Hi Hp Hf Ho Hh Hg]. cbn [fst snd] in *.
  pose proof (fill_le l p t (Hp k _ Hk)) as Hle.
  apply (inv_move l (fill l p t) ps k (Fill p t)); try done; eauto.
  - by destruct Hnext as [->| ->].
  - intros i Hi'. apply (index_ok_mono l); [done|by apply Hi].
  - intros j d Hne Hj. apply (pc_ok_grow l); [done|done| |by eapply Hp].
    intros q u ->. cbn. rewrite list_lookup_insert_ne; [by apply (Hp j _ Hj)|]. intros <-. by destruct (Hne (Hf j k p u t Hj Hk)).
  - intros q u j w ->. by destruct Hnext.
  - intros q Hq. right. cbn in Hq. destruct (decide (q = p)) as [->|Hne].
    + apply Hp, lookup_lt_Some in Hk. rewrite list_lookup_insert_eq in Hq by done. done.
    + rewrite list_lookup_insert_ne in Hq by done. split; [done|]. by intros u [= -> ->].
  - by destruct Hnext as [->| ->].
  - by destruct Hnext as [->| ->].
Qed.

Lemma store_index_le l i : log_le l (store_index l i) /\ rebuilding (store_index l i) = rebuilding l /\
  slots (store_index l i) = slots l.
Proof. by destruct i. Qed.

Lemma inv_build l ps k cov old p : inv (l, ps) -> ps !! k = Some (Build cov old p) ->
  inv (store_index l (build_index l cov old p), <[k := Unlock]> ps) /\
  ((index_view l).1 <= (index_view (store_index l (build_index l cov old p))).1)%nat.
Proof.
  intros Hinv Hk. pose proof (view_ok_index _ Hinv) as Hv. pose proof Hinv as [Hi Hp Hf Ho Hh Hg]. cbn [fst snd] in *.
  destruct (Hp k _ Hk) as (E & Hb & Hr). rewrite E in Hv. cbn [fst snd] in Hv.
  assert (Hbi : forall i, build_index l cov old p = Some i -> index_ok l i /\ covered i = p).
  { intros i. by apply build_index_spec. }
  set (l' := store_index l (build_index l cov old p)).
  assert (Hcov : ((index_view l).1 <= (index_view l').1)%nat).
  { unfold l'. destruct (build_index l cov old p) as [i|] eqn:Eb; [|done]. destruct (Hbi i eq_refl) as [_ <-].
    rewrite E. cbn. lia. }
  split; [|done]. destruct (store_index_le l (build_index l cov old p)) as (Hle & Hfl & Hsl). fold l' in Hle, Hfl, Hsl.
  apply (inv_move l l' ps k (Build cov old p)); try done; eauto.
  - intros i Hi'. apply (index_ok_mono l); [done|]. unfold l' in Hi'.
    destruct (build_index l cov old p) as [i'|]; [|by apply Hi]. cbn in Hi'. simplify_eq. by apply Hbi.
  - intros j d Hne Hj. pose proof (Hp j d Hj) as Hd. destruct d; try done; cbn [pc_ok] in *; try (by rewrite Hsl);
      try (by destruct (Hne (Hh j k _ _ Hj Hk eq_refl eq_refl))). lia.
  - intros q Hq. right. rewrite Hsl in Hq. by split.
Qed.

Lemma log_inv_step s s' : step s s' -> inv s ->
  inv s' /\ log_le s.1 s'.1 /\ ((index_view s.1).1 <= (index_view s'.1).1)%nat.
Proof.
  intros Hs Hinv. pose proof Hinv as [Hi Hp Hf Ho Hh Hg].
  pose proof (view_ok_index _ Hinv) as Hv. destruct Hs as
    [l ps i t Hk|l ps i p t next Hk Hn|l ps i Hk|l ps i cov Hk Hc|l ps i cov Hk Hc|l ps i Hk Hr|l ps i Hk Hr|l ps i Hk|
     l ps i cov old Hk|l ps i cov old n a Hk Ha Hg'|l ps i cov old n a Hk Ha|l ps i cov old p Hk|l ps i Hk]; cbn [fst snd] in *.
  - split; [by apply inv_claim|]. split; [apply claim_le|done].
  - split; [by apply (inv_fill l ps i p t)|]. split; [by apply fill_le, (Hp i _ Hk)|done].
  - split; [|done]. apply (inv_same l ps i Check); try done. cbn. lia.
  - split; [|done]. by apply (inv_same l ps i (Compare cov)).
  - split; [|done]. by apply (inv_same l ps i (Compare cov)).
  - split; [|done]. by apply (inv_same l ps i Swap).
  - split; [|done]. apply (inv_move l _ ps i Swap); try done; eauto.
  - split; [|done]. apply (inv_same l ps i Load); try done. cbn. by destruct (index_view l).
  - split; [|done]. apply (inv_same l ps i (Count cov old)); try done. apply Hp in Hk. cbn in *. rewrite Hk in Hv.
    destruct Hv as (Hlen & _). cbn in Hlen. split_and!; [done|lia|lia|lia|lia].
  - split; [|done]. apply (inv_same l ps i (Scan cov old n a)); try done. apply Hp in Hk. cbn in *.
    destruct Hk as (H1 & H2 & H3 & H4). split_and!; [done|lia|lia|lia|]. intros q Hq.
    destruct (decide (q = a)) as [->|]; [done|apply H4; lia].
  - split; [|done]. apply (inv_same l ps i (Scan cov old n a)); try done. apply Hp in Hk. cbn in *.
    destruct Hk as (H1 & H2 & H3 & H4). split_and!; [done|lia|lia|done].
  - destruct (inv_build l ps i cov old p Hinv Hk) as [H1 H2]. split; [done|]. split; [|done].
    by apply store_index_le.
  - split; [|done]. apply (inv_move l _ ps i Unlock); try done; eauto.
Qed.

Lemma log_inv_steps s s' : steps s s' -> inv s ->
  inv s' /\ log_le s.1 s'.1 /\ ((index_view s.1).1 <= (index_view s'.1).1)%nat.
Proof.
  induction 1 as [s|s s1 s' Hs _ IH]; intros Hinv; [done|]. destruct (log_inv_step _ _ Hs Hinv) as (H1 & H2 & H3).
  destruct (IH H1) as (H4 & H5 & H6). split; [done|]. split; [by transitivity s1.1|lia].
Qed.

(** ** Searches *)

Lemma fold_covering tail k snap best : 0 <= best ->
  fold_left (fun best t => if (seq t <=? snap) && covers t k then Z.max best (seq t) else best) tail best =
  Z.max best (newest_covering tail k snap).
Proof.
  revert best. induction tail as [|t tail IH]; intros best Hb; cbn [fold_left newest_covering]; [lia|].
  pose proof (newest_nonneg tail k snap). destruct (_ && _); rewrite IH by lia; lia.
Qed.

Section View.
Context (ind : nat -> RangeTombstone) (i : TombstoneIndex).
Hypothesis Hreach : reach_ok ind (order i) (reach i).
Hypothesis Hsorted : sorted_by tomb_cmp (map ind (order i)).

Lemma covering_walk_spec j k snap best : (j <= length (order i))%nat -> 0 <= best ->
  covering_walk ind i j k snap best = Ok (Z.max best (newest_covering (map ind (take j (order i))) k snap)).
Proof using Hreach.
  destruct Hreach as [Hlen Hr]. revert best. induction j as [|j IH]; intros best Hj Hb; cbn [covering_walk].
  { rewrite firstn_O. cbn [map newest_covering]. f_equal. lia. }
  destruct (lookup_lt_is_Some_2 (reach i) j) as [r Er]; [lia|].
  destruct (lookup_lt_is_Some_2 (order i) j) as [o Eo]; [lia|].
  rewrite Er, Eo. run. destruct (Hr j r Er) as [_ Hends].
  destruct (bytes_leb_spec (end_ (ind r)) k) as [Hle|Hgt].
  - rewrite newest_none; [f_equal; lia|]. intros x Hx. apply in_map_iff in Hx as (p & <- & Hp).
    apply list_elem_of_In in Hp. specialize (Hends p Hp). unfold covers.
    destruct (bytes_ltb_spec k (end_ (ind p))); [|apply andb_false_r]. exfalso. border.
  - rewrite IH by (try lia; destruct (_ && _); lia). rewrite (take_S_r _ _ _ Eo), map_app, newest_join. cbn [map newest_covering].
    pose proof (newest_nonneg (map ind (take j (order i))) k snap). f_equal. destruct (_ && _); lia.
Qed.

Lemma covering_view k snap :
  covering_walk ind i (Z.to_nat (partition_point (fun p => bytes_leb (start (ind p)) k) (order i))) k snap 0 =
  Ok (newest_covering (map ind (order i)) k snap).
Proof using Hreach Hsorted.
  rewrite covering_walk_spec; [|apply partition_point_bound|done]. rewrite Z.max_r by apply newest_nonneg. f_equal.
  apply newest_ext; intros x Hx Hc.
  - apply in_map_iff in Hx as (p & <- & Hp). apply in_map, list_elem_of_In.
    apply list_elem_of_In in Hp. eapply elem_of_sublist; [exact Hp|apply sublist_take].
  - apply in_map_iff in Hx as (p & <- & Hp). apply in_map. apply In_getz in Hp as [n Hn].
    pose proof (getz_Some_lt _ _ _ Hn). apply sorted_starts in Hsorted. rewrite sorted_map in Hsorted.
    destruct (partition_point_spec (fun p => bytes_leb (start (ind p)) k) (order i)) as (Hr & _ & Hhi).
    { intros a b x y Hab Hx Hy. pose proof (sorted_getz _ _ _ _ _ _ Hsorted Hx Hy Hab) as Hle. cbn in Hle.
      do 2 bcase; try done. intros _. exfalso. border. }
    destruct (Z.lt_ge_cases n (partition_point (fun p => bytes_leb (start (ind p)) k) (order i))) as [Hlt|Hge].
    + apply list_elem_of_In, list_elem_of_lookup. exists (Z.to_nat n). rewrite lookup_take_lt by lia.
      unfold getz in Hn. by destruct (0 <=? n).
    + specialize (Hhi n p Hn Hge). unfold covers in Hc. apply andb_true_iff in Hc as [Hc _]. congruence.
Qed.

End View.

(** The positions of the view and the ones past it are all there are. *)
Lemma omap_indexed l ps : (forall p, In p ps -> is_Some (get l p)) -> omap (get l) ps = map (indexed l) ps.
Proof.
  induction ps as [|p ps IH]; intros H; [done|]. cbn. destruct (H p) as [t Ht]; [by left|].
  unfold indexed at 1. rewrite Ht. cbn. f_equal. apply IH. intros q Hq. apply H. by right.
Qed.

Lemma ready_split l cov order : view_ok l cov order ->
  ready l ≡ₚ map (indexed l) order ++ omap (get l) (List.seq cov (log_len l - cov)).
Proof.
  intros (H1 & H2 & H3 & _). unfold ready. replace (log_len l) with (cov + (log_len l - cov))%nat at 1 by lia.
  rewrite seq_app, omap_app, omap_indexed. 2:{ intros p Hp. apply in_seq in Hp. apply H2. lia. }
  by rewrite H3.
Qed.

Definition indexed_list (l : TombstoneLog) : list RangeTombstone :=
  match index l with None => [] | Some i => map (indexed l) (order i) end.

Lemma ready_parts s : inv s ->
  ready s.1 ≡ₚ indexed_list s.1 ++ tail_of s.1 /\ sorted_by tomb_cmp (indexed_list s.1).
Proof.
  intros Hinv. pose proof (view_ok_index s Hinv) as Hv. split.
  - rewrite (ready_split _ _ _ Hv). unfold indexed_list, tail_of, index_view. by destruct (index s.1).
  - destruct Hv as (_ & _ & _ & Hs). unfold indexed_list, index_view in *. by destruct (index s.1).
Qed.

Lemma newest_perm a b k snap : a ≡ₚ b -> newest_covering a k snap = newest_covering b k snap.
Proof. intros E. apply newest_ext; intros x Hx _; [by rewrite <- E|by rewrite E]. Qed.

Lemma covering_seq_ready s k snap : inv s -> covering_seq s.1 k snap = Ok (newest_covering (ready s.1) k snap).
Proof.
  intros Hinv. destruct (ready_parts s Hinv) as [Hp Hs]. rewrite (newest_perm _ _ k snap Hp), newest_join.
  unfold covering_seq, covering_read, indexed_list in *. destruct (index s.1) as [i|] eqn:Ei.
  - destruct (i_index _ Hinv i Ei) as [_ Hr]. rewrite covering_view by done. run.
    by rewrite fold_covering by apply newest_nonneg.
  - run. rewrite fold_covering by done. done.
Qed.

#[export] Instance tomb_le_antisymm : AntiSymm (=) (fun a b => tomb_cmp a b <> Gt).
Proof.
  intros a b H1 H2. apply tomb_cmp_eq. destruct (tomb_cmp a b) eqn:E; [done| |done].
  apply tomb_cmp_le in H2. unfold tomb_cmp, then_with in E. destruct H2 as [H2|[E1 [H2|[E2 H2]]]].
  - unfold bytes_lt in H2. by rewrite bytes_cmp_opp, H2 in E.
  - unfold bytes_lt in H2. by rewrite E1, bytes_cmp_refl, bytes_cmp_opp, H2 in E.
  - rewrite E1, E2, !bytes_cmp_refl in E. rewrite Z.compare_lt_iff in E. exfalso. lia.
Qed.

Lemma sorted_perm_eq a b : sorted_by tomb_cmp a -> sorted_by tomb_cmp b -> a ≡ₚ b -> a = b.
Proof. apply (StronglySorted_unique (fun a b => tomb_cmp a b <> Gt)). Qed.

Lemma sort_by_of_perm a b : a ≡ₚ b -> sort_by tomb_cmp a = sort_by tomb_cmp b.
Proof.
  intros E. apply sorted_perm_eq; [apply (sort_by_sorted tomb_cmp)|apply (sort_by_sorted tomb_cmp)|].
  by rewrite !sort_by_perm.
Qed.

Lemma to_sorted_vec_ready s : inv s -> to_sorted_vec s.1 = sort_dedup_tombstones (ready s.1).
Proof.
  intros Hinv. destruct (ready_parts s Hinv) as [Hp Hs]. unfold to_sorted_vec, sorted_read, sort_dedup_tombstones.
  fold (indexed_list s.1). f_equal. apply sorted_perm_eq.
  - apply (merge_by_sorted tomb_cmp); [done|apply (sort_by_sorted tomb_cmp)].
  - apply (sort_by_sorted tomb_cmp).
  - by rewrite merge_by_perm, !sort_by_perm, Hp.
Qed.

(** The first of a list in listing order with a property. *)
Definition first_of (p : RangeTombstone -> bool) (l : list RangeTombstone) (o : option RangeTombstone) : Prop :=
  match o with
  | None => forall y, In y l -> p y = false
  | Some x => In x l /\ p x = true /\ forall y, In y l -> p y = true -> tomb_cmp x y <> Gt
  end.

Lemma first_of_find p l : sorted_by tomb_cmp l -> first_of p l (List.find p l).
Proof.
  induction 1 as [|x l Hl IH Hx]; [by intros y []|]. cbn [List.find]. destruct (p x) eqn:Ex.
  - split; [by left|]. split; [done|]. intros y [<-|Hy] _.
    + by rewrite (proj2 (tomb_cmp_eq x x) eq_refl).
    + rewrite List.Forall_forall in Hx. by apply Hx.
  - destruct (List.find p l) as [y|]; cbn in *.
    + destruct IH as (H1 & H2 & H3). split; [by right|]. split; [done|]. intros z [<-|Hz] Hp; [congruence|auto].
    + intros y [<-|Hy]; auto.
Qed.

Lemma first_of_unique p a b o o' : (forall x, In x a <-> In x b) -> first_of p a o -> first_of p b o' -> o = o'.
Proof.
  intros E H H'. destruct o as [x|], o' as [y|]; cbn in *; try done.
  - destruct H as (H1 & H2 & H3), H' as (H4 & H5 & H6). f_equal.
    apply (anti_symm (fun a b => tomb_cmp a b <> Gt)); [apply H3; [by apply E|done]|apply H6; [by apply E|done]].
  - destruct H as (H1 & H2 & H3). apply E in H1. by rewrite (H' x H1) in H2.
  - destruct H' as (H1 & H2 & H3). apply E in H1. by rewrite (H y H1) in H2.
Qed.

Lemma first_of_fold p tail l o : first_of p l o ->
  first_of p (l ++ tail) (fold_left (fun found t =>
    if p t && match found with None => true | Some best => match tomb_cmp t best with Lt => true | _ => false end end
    then Some t else found) tail o).
Proof.
  revert l o. induction tail as [|t tail IH]; intros l o H; cbn [fold_left]; [by rewrite app_nil_r|].
  replace (l ++ t :: tail) with ((l ++ [t]) ++ tail) by (by rewrite <- app_assoc). apply IH. clear IH.
  destruct (p t) eqn:Et; cbn [andb]; destruct o as [x|]; cbn [first_of] in *.
  - destruct H as (H1 & H2 & H3). destruct (tomb_cmp t x) eqn:E; cbn.
    + split; [apply in_app_iff; tauto|]. split; [done|]. intros y [Hy|[<-|[]]]%in_app_iff Hp; [auto|].
      apply tomb_cmp_eq in E as ->. by rewrite (proj2 (tomb_cmp_eq x x) eq_refl).
    + split; [apply in_app_iff; cbn; tauto|]. split; [done|]. intros y [Hy|[<-|[]]]%in_app_iff Hp.
      * apply (pre_trans tomb_cmp t x y); [congruence|auto].
      * by rewrite (proj2 (tomb_cmp_eq t t) eq_refl).
    + split; [apply in_app_iff; tauto|]. split; [done|]. intros y [Hy|[<-|[]]]%in_app_iff Hp; [auto|].
      by apply (pre_total tomb_cmp).
  - split; [apply in_app_iff; cbn; tauto|]. split; [done|]. intros y [Hy|[<-|[]]]%in_app_iff Hp.
    + by rewrite (H y Hy) in Hp.
    + by rewrite (proj2 (tomb_cmp_eq t t) eq_refl).
  - destruct H as (H1 & H2 & H3). split; [apply in_app_iff; tauto|]. split; [done|].
    intros y [Hy|[<-|[]]]%in_app_iff Hp; [auto|congruence].
  - intros y [Hy|[<-|[]]]%in_app_iff; auto.
Qed.

Lemma first_newer_overlap_ready s lo hi floor ceil : inv s ->
  first_newer_overlap s.1 lo hi floor ceil =
  List.find (newer_overlap lo hi floor ceil) (sort_by tomb_cmp (ready s.1)).
Proof.
  intros Hinv. destruct (ready_parts s Hinv) as [Hp Hs].
  apply (first_of_unique (newer_overlap lo hi floor ceil) (indexed_list s.1 ++ tail_of s.1) (sort_by tomb_cmp (ready s.1))).
  - intros x. by rewrite <- !list_elem_of_In, sort_by_perm, Hp.
  - apply first_of_fold. unfold indexed_list in *. destruct (index s.1) as [i|]; [by apply first_of_find|by intros y []].
  - apply first_of_find, (sort_by_sorted tomb_cmp).
Qed.

(** ** One thread alone *)

Lemma inv_alone l : inv (l, []) <-> (forall i, index l = Some i -> index_ok l i) /\ forall p, slots l !! p <> Some None.
Proof.
  split.
  - intros [Hi _ _ Ho _ _]. split; [done|]. intros p Hp. by destruct (Ho p Hp) as (k & t & Hk).
  - intros [Hi Hn]. split; cbn [fst snd]; try done. intros p Hp. by destruct (Hn p).
Qed.

Lemma first_unready_spec l from n : let r := first_unready l from n in
  (from <= r <= from + n)%nat /\ forall q, (from <= q < r)%nat -> is_Some (get l q).
Proof.
  revert from. induction n as [|n IH]; intros from; cbn [first_unready]; [split; [lia|intros q Hq; lia]|].
  destruct (get l from) as [t|] eqn:E; [|split; [lia|intros q Hq; lia]].
  destruct (IH (S from)) as [H1 H2]. split; [lia|]. intros q Hq.
  destruct (decide (q = from)) as [->|]; [by rewrite E|apply H2; lia].
Qed.

Lemma ready_slots l l' : slots l = slots l' -> ready l = ready l'.
Proof. intros E. unfold ready, log_len, get. by rewrite E. Qed.

Lemma maybe_rebuild_inv l : inv (l, []) -> inv (maybe_rebuild l, []) /\ slots (maybe_rebuild l) = slots l.
Proof.
  intros Hinv. pose proof (view_ok_index _ Hinv) as Hv. cbn [fst] in Hv. apply inv_alone in Hinv as [Hi Hn].
  assert (Hl : inv (l, [])) by by apply inv_alone.
  unfold maybe_rebuild. destruct (_ <? REBUILD)%nat; [done|]. destruct (rebuilding l); [done|]. unfold rebuild.
  change (index_view (set_rebuilding l true)) with (index_view l). destruct (index_view l) as [cov old]. cbn [fst snd] in Hv.
  change (log_len (set_rebuilding l true)) with (log_len l).
  destruct (first_unready_spec (set_rebuilding l true) cov (log_len l - cov)) as [Hf1 Hf2].
  set (p := first_unready _ cov _) in *.
  destruct (build_index (set_rebuilding l true) cov old p) as [i|] eqn:Eb; (split; [|done]); apply inv_alone; [|done].
  apply build_index_spec in Eb as [Hok _]; [|exact Hv| |done].
  - split; [|done]. by intros i' [= <-].
  - destruct Hv as (Hv & _). change (log_len (set_rebuilding l true)) with (log_len l). lia.
Qed.

Lemma append_slots l t : slots (append l t) = slots l ++ [Some t].
Proof.
  unfold append, fill, claim, log_len. cbn [slots]. rewrite insert_app_r_alt, Nat.sub_diag by lia. done.
Qed.

Lemma append_inv l t : inv (l, []) -> inv (append l t, []).
Proof.
  intros [Hi Hn]%inv_alone. apply inv_alone. split.
  - intros i Hi'. apply (index_ok_mono l); [|by apply Hi]. unfold append. etrans; [apply claim_le|].
    apply fill_le. cbn. by rewrite lookup_app_r, Nat.sub_diag.
  - intros p Hp. rewrite append_slots in Hp. apply lookup_app_Some in Hp as [Hp|[_ Hp]]; [by destruct (Hn p)|].
    by apply list_lookup_singleton_Some in Hp as [_ Hp].
Qed.

Lemma ready_append l t : ready (append l t) = ready l ++ [t].
Proof.
  unfold ready, log_len. rewrite append_slots, length_app. cbn [length]. rewrite Nat.add_1_r, seq_S, omap_app.
  assert (Hg : forall p, (p < length (slots l))%nat -> get (append l t) p = get l p).
  { intros p Hp. unfold get. rewrite append_slots. by rewrite lookup_app_l. }
  f_equal.
  - clear - Hg. assert (H : forall p, In p (List.seq 0 (length (slots l))) -> get (append l t) p = get l p).
    { intros p Hp%in_seq. apply Hg. lia. }
    revert H. induction (List.seq 0 (length (slots l))) as [|p ps IH]; intros H; [done|]. cbn. rewrite H by (by left).
    rewrite IH; [done|]. intros q Hq. apply H. by right.
  - cbn. unfold get. rewrite append_slots, lookup_app_r, Nat.sub_diag by lia. done.
Qed.

Lemma holds_below_true l n t : holds_below l n t = true -> exists p, (p < n)%nat /\ get l p = Some t.
Proof.
  induction n as [|n IH]; [done|]. cbn [holds_below]. destruct (get l n) as [held|] eqn:E.
  - destruct (_ <? _); [done|]. destruct (same_tomb held t) eqn:Es.
    + intros _. exists n. split; [lia|]. apply same_tomb_eq in Es. by subst.
    + intros H. destruct (IH H) as (p & Hp & Hg). exists p. split; [lia|done].
  - intros H. destruct (IH H) as (p & Hp & Hg). exists p. split; [lia|done].
Qed.

Lemma ready_In l t : In t (ready l) <-> exists p, (p < log_len l)%nat /\ get l p = Some t.
Proof.
  unfold ready. rewrite <- list_elem_of_In, list_elem_of_omap. split.
  - intros (p & Hp%list_elem_of_In%in_seq & Hg). exists p. split; [lia|done].
  - intros (p & Hp & Hg). exists p. split; [|done]. apply list_elem_of_In, in_seq. lia.
Qed.

Lemma push_spec l t : inv (l, []) ->
  inv (push l t, []) /\ forall x, In x (ready (push l t)) <-> x = t \/ In x (ready l).
Proof.
  intros Hinv. unfold push. destruct (holds l t) eqn:Eh.
  - split; [done|]. apply holds_below_true in Eh. apply ready_In in Eh. naive_solver.
  - destruct (maybe_rebuild_inv _ (append_inv l t Hinv)) as [H1 H2]. split; [done|]. intros x.
    rewrite (ready_slots _ _ H2), ready_append, in_app_iff. cbn. naive_solver.
Qed.

Lemma appends_spec ts l : inv (l, []) ->
  inv (fold_left append ts l, []) /\ ready (fold_left append ts l) = ready l ++ ts.
Proof.
  revert l. induction ts as [|t ts IH]; intros l Hinv; [split; [done|by rewrite app_nil_r]|]. cbn [fold_left].
  destruct (IH _ (append_inv l t Hinv)) as [H1 H2]. split; [done|]. by rewrite H2, ready_append, <- app_assoc.
Qed.

Lemma log_extend_spec l batch : inv (l, []) ->
  inv (extend l batch, []) /\ forall x, In x (ready (extend l batch)) <-> In x batch \/ In x (ready l).
Proof.
  intros Hinv. unfold extend. set (sorted := dedup_by _ _). set (fresh := if (_ =? 0)%nat then _ else _).
  destruct (appends_spec fresh l Hinv) as [H1 H2]. destruct (maybe_rebuild_inv _ H1) as [H3 H4]. split; [done|].
  intros x. rewrite (ready_slots _ _ H4), H2, in_app_iff.
  assert (Hs : In x sorted <-> In x batch) by apply sort_dedup_In. rewrite <- Hs. unfold fresh.
  destruct (log_len l =? 0)%nat; [tauto|]. rewrite filter_In.
  destruct (existsb _ (sort_by tomb_cmp (ready l))) eqn:E; cbn [negb]; [|naive_solver].
  apply existsb_exists in E as (held & Hh & E). apply sort_by_In in Hh.
  destruct (tomb_cmp held x) eqn:Ec; [|done..]. apply tomb_cmp_eq in Ec as ->. naive_solver.
Qed.

(** What callers of a memtable do to its log. *)
Inductive log_op := Push (t : RangeTombstone) | Extend (batch : list RangeTombstone).
Definition run_op (l : TombstoneLog) (o : log_op) : TombstoneLog :=
  match o with Push t => push l t | Extend batch => extend l batch end.
Definition given (o : log_op) : list RangeTombstone := match o with Push t => [t] | Extend batch => batch end.

Lemma run_ops_spec ops l : inv (l, []) ->
  inv (fold_left run_op ops l, []) /\
  forall x, In x (ready (fold_left run_op ops l)) <-> In x (flat_map given ops) \/ In x (ready l).
Proof.
  revert l. induction ops as [|o ops IH]; intros l Hinv; [cbn; split; [done|naive_solver]|]. cbn [fold_left flat_map].
  assert (Ho : inv (run_op l o, []) /\ forall x, In x (ready (run_op l o)) <-> In x (given o) \/ In x (ready l)).
  { destruct o as [t|batch]; cbn [run_op given]; [|by apply log_extend_spec].
    destruct (push_spec l t Hinv) as [H1 H2]. split; [done|]. intros x. rewrite H2. cbn. naive_solver. }
  destruct Ho as [H1 H2]. destruct (IH _ H1) as [H3 H4]. split; [done|]. intros x. rewrite H4, H2, in_app_iff. tauto.
Qed.

Lemma same_tomb_refl t : same_tomb t t = true.
Proof. unfold same_tomb. by rewrite !bool_decide_eq_true_2, Z.eqb_refl by done. Qed.

Lemma dedup_from_lt prev l : sorted_by tomb_cmp (prev :: l) -> NoDup (prev :: dedup_from same_tomb prev l).
Proof.
  revert prev. induction l as [|x l IH]; intros prev Hs; cbn [dedup_from].
  { apply list.NoDup_singleton. }
  apply StronglySorted_inv in Hs as [Hs Hp]. pose proof Hs as Hx. apply StronglySorted_inv in Hx as [Hl Hxl].
  inversion Hp as [|? ? Hpx Hpl]; subst.
  destruct (same_tomb x prev) eqn:E; [apply IH; by constructor|]. apply list.NoDup_cons. split; [|by apply IH].
  intros Hin. apply list_elem_of_In in Hin. apply (dedup_from_In same_tomb x l prev) in Hin; [|apply same_tomb_eq].
  assert (x = prev) as ->; [|by rewrite same_tomb_refl in E].
  apply (anti_symm (fun a b => tomb_cmp a b <> Gt)); [|done].
  destruct Hin as [->|Hin]; [by rewrite (proj2 (tomb_cmp_eq prev prev) eq_refl)|]. rewrite List.Forall_forall in Hxl. by apply Hxl.
Qed.

Lemma sort_dedup_ext a b : (forall x, In x a <-> In x b) -> sort_dedup_tombstones a = sort_dedup_tombstones b.
Proof.
  intros E. apply sorted_perm_eq; [apply sort_dedup_sorted|apply sort_dedup_sorted|].
  assert (Hn : forall l, NoDup (sort_dedup_tombstones l)).
  { intros l. unfold sort_dedup_tombstones. pose proof (sort_by_sorted tomb_cmp l) as Hs.
    destruct (sort_by tomb_cmp l) as [|x s]; [constructor|]. by apply dedup_from_lt. }
  apply list.NoDup_Permutation; [apply Hn|apply Hn|]. intros x. by rewrite !list_elem_of_In, !sort_dedup_In.
Qed.

(** A memtable's list of range tombstones is exact. After any pushes and
    batches, however the sorted view was rebuilt between them, the listing is the
    tombstones handed in, sorted and without duplicates; the search for a key's
    newest deletion and the search for the first newer overlap answer what a walk
    of that listing would. *)
Theorem memtable_tombstones_exact ops :
  let l := fold_left run_op ops log_new in
  let all := flat_map given ops in
  to_sorted_vec l = sort_dedup_tombstones all /\
  (forall k snap, covering_seq l k snap = Ok (newest_covering all k snap)) /\
  (forall lo hi floor ceil,
     first_newer_overlap l lo hi floor ceil = List.find (newer_overlap lo hi floor ceil) (sort_dedup_tombstones all)) /\
  (forall pred, any l pred = existsb pred all).
Proof.
  intros l all. destruct (run_ops_spec ops log_new) as [Hinv Hin]; [by apply inv_alone|]. fold l in Hinv, Hin. fold all in Hin.
  assert (E : forall x, In x (ready l) <-> In x all) by (intros x; rewrite Hin; cbn; tauto).
  split; [|split; [|split]].
  - etrans; [by apply (to_sorted_vec_ready (l, []))|]. by apply sort_dedup_ext.
  - intros k snap. etrans; [by apply (covering_seq_ready (l, []))|]. f_equal. apply newest_ext; intros x Hx _; by apply E.
  - intros lo hi floor ceil. etrans; [by apply (first_newer_overlap_ready (l, []))|].
    apply (first_of_unique (newer_overlap lo hi floor ceil) (sort_by tomb_cmp (ready l)) (sort_dedup_tombstones all)).
    + intros x. by rewrite sort_by_In, sort_dedup_In.
    + apply first_of_find, (sort_by_sorted tomb_cmp).
    + apply first_of_find, sort_dedup_sorted.
  - intros pred. unfold any. apply eq_true_iff_eq. rewrite !existsb_exists. by setoid_rewrite E.
Qed.

(** ** Threads together *)

(** C25: Appends and rebuilds may interleave in any order. In every state they
    reach, a filled slot never changes again, no two appends share a slot, a slot
    that is claimed and empty belongs to an append that has not finished, one
    thread at a time rebuilds, the sorted view covers filled slots only, lists
    them all in order with the right reach, and never covers fewer than before;
    and the subtraction of the covered count from the claimed one never goes
    below zero. *)
Theorem tombstone_threads_keep_view n s s' : steps (start_state n) s -> steps s s' ->
  log_le s.1 s'.1 /\ ((index_view s.1).1 <= (index_view s'.1).1)%nat /\
  (forall i, index s'.1 = Some i -> index_ok s'.1 i) /\
  (forall j k p t u, s'.2 !! j = Some (Fill p t) -> s'.2 !! k = Some (Fill p u) -> j = k) /\
  (forall p, slots s'.1 !! p = Some None <-> exists k t, s'.2 !! k = Some (Fill p t)) /\
  (forall j k c d, s'.2 !! j = Some c -> s'.2 !! k = Some d -> holder c = true -> holder d = true -> j = k) /\
  (forall k cov, s'.2 !! k = Some (Compare cov) -> (cov <= log_len s'.1)%nat).
Proof.
  intros H1 H2. destruct (log_inv_steps _ _ H1 (inv_start n)) as (Hs & _ & _).
  destruct (log_inv_steps _ _ H2 Hs) as (Hinv & Hle & Hcov). pose proof Hinv as [Hi Hp Hf Ho Hh Hg].
  split_and!; try done.
  - intros p. split; [apply Ho|]. intros (k & t & Hk). by apply (Hp k _ Hk).
  - intros k cov Hk. apply Hp in Hk. cbn in Hk. destruct (view_ok_index _ Hinv) as (Hlen & _). lia.
Qed.

(** What a read that loaded the view at [s0] and the count at [s1], and looked at
    position [p] past the view at [at_ p], found there. *)
Definition read_tail (s0 s1 : state) (at_ : nat -> state) : list RangeTombstone :=
  let cov := (index_view s0.1).1 in
  omap (fun p => get (at_ p).1 p) (List.seq cov (log_len s1.1 - cov)).

(** The tombstones of an earlier view, looked at later. *)
Definition seen_list (l0 l2 : TombstoneLog) : list RangeTombstone :=
  match index l0 with None => [] | Some i => map (indexed l2) (order i) end.

Lemma seen_same s l2 : inv s -> log_le s.1 l2 -> seen_list s.1 l2 = indexed_list s.1.
Proof.
  intros Hinv Hle. unfold seen_list, indexed_list. destruct (index s.1) as [i|] eqn:E; [|done].
  destruct (i_index _ Hinv i E) as [Hv _]. apply map_ext_in. intros p Hp. apply list_elem_of_In in Hp.
  by apply (view_indexed _ _ _ _ Hle Hv).
Qed.

Lemma covering_read_seen s l2 tail k snap : inv s -> log_le s.1 l2 ->
  covering_read (indexed l2) (index s.1) tail k snap = Ok (newest_covering (seen_list s.1 l2 ++ tail) k snap).
Proof.
  intros Hinv Hle. rewrite newest_join. unfold covering_read, seen_list. destruct (index s.1) as [i|] eqn:E.
  - destruct (index_ok_mono _ _ i Hle (i_index _ Hinv i E)) as [(_ & _ & _ & Hs) Hr]. rewrite covering_view by done. run.
    by rewrite fold_covering by apply newest_nonneg.
  - run. by rewrite fold_covering by done.
Qed.

(** A read beside any appends and rebuilds misses nothing that was in the
    log when it began and invents nothing. It loads the view, then the count,
    then looks at each position past the view at an instant of its own; its
    answer lies between the newest deletion of the key among the tombstones
    ready when it began and among those ready when it ended. *)
Theorem tombstone_read_between n s0 s1 s2 at_ k snap :
  steps (start_state n) s0 -> steps s0 s1 -> (forall p, steps s1 (at_ p) /\ steps (at_ p) s2) ->
  exists q, covering_read (indexed s2.1) (index s0.1) (read_tail s0 s1 at_) k snap = Ok q /\
    newest_covering (ready s0.1) k snap <= q <= newest_covering (ready s2.1) k snap.
Proof.
  intros H0 H1 Hat. destruct (log_inv_steps _ _ H0 (inv_start n)) as (Hi0 & _ & _).
  destruct (log_inv_steps _ _ H1 Hi0) as (Hi1 & Hle01 & _). destruct (Hat O) as [Ha Hb].
  destruct (log_inv_steps _ _ Ha Hi1) as (Hia & Hle1a & _). destruct (log_inv_steps _ _ Hb Hia) as (Hi2 & Hlea2 & _).
  assert (Hle02 : log_le s0.1 s2.1) by (transitivity s1.1; [done|]; by transitivity (at_ O).1).
  assert (Hle : forall p x, get (at_ p).1 p = Some x -> get s2.1 p = Some x).
  { intros p x Hx. destruct (Hat p) as [Hp Hq]. destruct (log_inv_steps _ _ Hp Hi1) as (Hip & _ & _).
    destruct (log_inv_steps _ _ Hq Hip) as (_ & [_ Hlq] & _). by apply Hlq. }
  assert (Hge : forall p x, get s0.1 p = Some x -> get (at_ p).1 p = Some x).
  { intros p x Hx. destruct (Hat p) as [Hp _]. destruct (log_inv_steps _ _ Hp Hi1) as (_ & [_ Hlp] & _). by apply Hlp, Hle01. }
  exists (newest_covering (seen_list s0.1 s2.1 ++ read_tail s0 s1 at_) k snap). split; [|split].
  - by apply covering_read_seen.
  - apply newest_bound. split; [apply newest_nonneg|]. intros x Hx Hsn Hc.
    eapply newest_bound; [reflexivity| |done|done]. rewrite (seen_same _ _ Hi0 Hle02).
    rewrite (proj1 (ready_parts s0 Hi0)) in Hx. apply in_app_iff in Hx as [Hx|Hx]; apply in_app_iff; [by left|right].
    apply list_elem_of_In, list_elem_of_omap in Hx as (p & Hp & Hx). apply list_elem_of_In, list_elem_of_omap.
    exists p. split; [|by apply Hge]. apply list_elem_of_In, in_seq in Hp. apply list_elem_of_In, in_seq.
    destruct Hle01 as [Hlen _]. lia.
  - apply newest_bound. split; [apply newest_nonneg|]. intros x Hx Hsn Hc.
    eapply newest_bound; [reflexivity| |done|done]. apply in_app_iff in Hx as [Hx|Hx].
    + rewrite (seen_same _ _ Hi0 Hle02) in Hx. apply ready_In.
      assert (Hx0 : In x (ready s0.1)) by (rewrite (proj1 (ready_parts s0 Hi0)), in_app_iff; by left).
      apply ready_In in Hx0 as (p & Hp & Hg). exists p. destruct Hle02 as [Hlen Hg2]. split; [lia|by apply Hg2].
    + apply list_elem_of_In, list_elem_of_omap in Hx as (p & _ & Hx). apply Hle in Hx. apply ready_In. exists p.
      split; [|done]. unfold get in Hx. destruct (slots s2.1 !! p) eqn:E; [|done]. by apply lookup_lt_Some in E.
Qed.

(** A thread claims a slot, another claims and fills the next, a read loads the
    count, and the first fills its slot before the read looks there. *)
Definition sample_first : RangeTombstone := mkTomb [Byte.x01] [Byte.x05] 7.
Definition sample_second : RangeTombstone := mkTomb [Byte.x02] [Byte.x03] 9.
Definition sample_before : state := (mkLog [None; Some sample_second] None false, [Fill 0 sample_first; Check]).
Definition sample_after : state := (mkLog [Some sample_first; Some sample_second] None false, [Idle; Check]).

Lemma sample_steps : steps (start_state 2) sample_before /\ steps sample_before sample_after.
Proof.
  split.
  - eapply rtc_l; [apply (step_claim log_new [Idle; Idle] 0 sample_first eq_refl)|].
    eapply rtc_l; [by apply (step_claim _ _ 1 sample_second)|].
    eapply rtc_l; [apply (step_fill _ _ 1 1 sample_second Check); [done|by right]|]. apply rtc_refl.
  - eapply rtc_l; [apply (step_fill _ _ 0 0 sample_first Idle); [done|by left]|]. apply rtc_refl.
Qed.

Lemma tombstone_threads_keep_view_witness :
  (forall p, slots sample_after.1 !! p = Some None <-> exists k t, sample_after.2 !! k = Some (Fill p t)) /\
  log_le sample_before.1 sample_after.1.
Proof.
  destruct sample_steps as [H1 H2].
  destruct (tombstone_threads_keep_view 2 sample_before sample_after H1 H2) as (Hle & _ & _ & _ & Ho & _). by split.
Defined.

Lemma tombstone_read_between_witness :
  let at_ p := if (p =? 0)%nat then sample_before else sample_after in
  covering_read (indexed sample_after.1) (index sample_before.1) (read_tail sample_before sample_before at_) [Byte.x02] 8 = Ok 0 /\
  exists q, covering_read (indexed sample_after.1) (index sample_before.1) (read_tail sample_before sample_before at_) [Byte.x02] 8
    = Ok q /\ q <= newest_covering (ready sample_after.1) [Byte.x02] 8.
Proof.
  intros at_. destruct sample_steps as [H1 H2]. split; [computed|].
  destruct (tombstone_read_between 2 sample_before sample_before sample_after at_ [Byte.x02] 8 H1 (rtc_refl _ _)) as (q & Hq & _ & Hle).
  - intros p. unfold at_. destruct (p =? 0)%nat; split; by (apply rtc_refl || exact H2).
  - by exists q.
Defined.

(** C40: Each position has a slot of its own. Every position a log can hold, all
    those a [u32] of the index can name among them, is in one of the segments, at
    an offset inside it, and no two positions share a slot. *)
Theorem locate_bounds bits p : 0 <= p < FIRST_SEGMENT * (2 ^ SEGMENTS - 1) ->
  let '(segment, offset) := locate bits p in
  0 <= segment < SEGMENTS /\ 0 <= offset < segment_len segment /\
  (forall p', 0 <= p' -> locate bits p' = (segment, offset) -> p' = p) /\
  u32_max < FIRST_SEGMENT * (2 ^ SEGMENTS - 1).
Proof.
  intros Hp. unfold locate, leading_zeros. replace (bits - 1 - (bits - 1 - Z.log2 (p / FIRST_SEGMENT + 1)))
    with (Z.log2 (p / FIRST_SEGMENT + 1)) by lia.
  assert (Hq : 0 <= p / FIRST_SEGMENT) by (apply Z.div_pos; unfold FIRST_SEGMENT; lia).
  pose proof (Z.log2_spec (p / FIRST_SEGMENT + 1) ltac:(lia)) as Hlog.
  pose proof (Z.log2_nonneg (p / FIRST_SEGMENT + 1)) as Hs0.
  set (s := Z.log2 (p / FIRST_SEGMENT + 1)) in *. unfold segment_len. rewrite !Z.shiftl_mul_pow2 by done.
  rewrite Z.mul_1_l. rewrite Z.pow_succ_r in Hlog by done.
  pose proof (Z.div_mod p FIRST_SEGMENT ltac:(done)) as Hdm.
  pose proof (Z.mod_pos_bound p FIRST_SEGMENT ltac:(done)) as Hmb. split_and!; try (unfold FIRST_SEGMENT in *; lia).
  - destruct (Z.lt_ge_cases s SEGMENTS) as [H|H]; [done|]. exfalso.
    assert (2 ^ SEGMENTS <= 2 ^ s) by (apply Z.pow_le_mono_r; lia). unfold FIRST_SEGMENT in *. lia.
  - intros p' Hp' [= Es Eo]. replace (bits - 1 - (bits - 1 - Z.log2 (p' / FIRST_SEGMENT + 1)))
      with (Z.log2 (p' / FIRST_SEGMENT + 1)) in * by lia. rewrite Es in Eo. rewrite Z.shiftl_mul_pow2 in Eo by done. lia.
  - reflexivity.
Qed.

Lemma locate_bounds_witness : locate 64 8 = (1, 0) /\ 0 <= 0 < segment_len 1.
Proof. pose proof (locate_bounds 64 8 ltac:(vm_compute; split; done)) as H. split; [done|]. by destruct H as (_ & H & _). Defined.
