(* ===== verification/WalCodec.v ===== *)
(** * Write-ahead log operations

    Models the operation codec of [src/src/engine/wal.rs] and the group readers
    of [src/src/engine/wal_frame.rs]: how a commit's operations are laid out in
    a group's payload, how long they will be, and how they are read back.

    Shown here: the operations of a commit read back as themselves, at
    consecutive sequence numbers; the length computed before a write is admitted
    is the length it will log; a group that passes the whole-operations check is
    decoded to its end without error or panic, on 32- and 64-bit targets; and
    where the field parsers panic when they are called without that check. *)

From S2P Require Import Prelude.

Definition RECORD_PUT : byte := Byte.x01.
Definition RECORD_DELETE : byte := Byte.x02.
Definition RECORD_DELETE_RANGE : byte := Byte.x03.
Definition RECORD_MERGE : byte := Byte.x04.
Definition RECORD_BATCH : byte := Byte.x05.

Definition MAX_RECORD_LEN : Z := Z.shiftl 1 30.

Inductive WriteBatchOp :=
| OpPut (key value : bytes)
| OpDelete (key : bytes)
| OpDeleteRange (start end_ : bytes)
| OpMerge (key operand : bytes).

Inductive WalEntry :=
| Put (key value : bytes) (seq : Z)
| Delete (key : bytes) (seq : Z)
| DeleteRange (start end_ : bytes) (seq : Z)
| Merge (key operand : bytes) (seq : Z).

#[export] Instance WalEntry_eq_dec : EqDecision WalEntry.
Proof. solve_decision. Defined.

(** The entry an operation becomes at a sequence number. *)
Definition entry_of (op : WriteBatchOp) (seq : Z) : WalEntry :=
  match op with
  | OpPut k v => Put k v seq
  | OpDelete k => Delete k seq
  | OpDeleteRange s e => DeleteRange s e seq
  | OpMerge k o => Merge k o seq
  end.

(** ** Encoding *)

(** [encode_put_payload], [encode_delete_range_payload] and
    [encode_merge_payload] write two fields and a sequence. *)
Definition encode_pair_payload (a b : bytes) (seq : Z) : bytes :=
  to_le 4 (as_u32 (len a)) ++ a ++ to_le 4 (as_u32 (len b)) ++ b ++ to_le 8 seq.

Definition encode_delete_payload (key : bytes) (seq : Z) : bytes :=
  to_le 4 (as_u32 (len key)) ++ key ++ to_le 8 seq.

Definition encode_put_record (key value : bytes) (seq : Z) : bytes :=
  RECORD_PUT :: encode_pair_payload key value seq.
Definition encode_delete_record (key : bytes) (seq : Z) : bytes :=
  RECORD_DELETE :: encode_delete_payload key seq.
Definition encode_merge_record (key operand : bytes) (seq : Z) : bytes :=
  RECORD_MERGE :: encode_pair_payload key operand seq.
Definition encode_delete_range_record (start end_ : bytes) (seq : Z) : bytes :=
  RECORD_DELETE_RANGE :: encode_pair_payload start end_ seq.

Definition encode_op_record (op : WriteBatchOp) (seq : Z) : bytes :=
  match op with
  | OpPut key value => encode_put_record key value seq
  | OpDelete key => encode_delete_record key seq
  | OpDeleteRange start end_ => encode_delete_range_record start end_ seq
  | OpMerge key operand => encode_merge_record key operand seq
  end.

(** [base_seq + i], from the [i]-th operation on. *)
Fixpoint encode_ops_from (ops : list WriteBatchOp) (base_seq i : Z) : bytes :=
  match ops with
  | [] => []
  | op :: ops => encode_op_record op (as_u64 (base_seq + i)) ++ encode_ops_from ops base_seq (i + 1)
  end.
Definition encode_ops_record (ops : list WriteBatchOp) (base_seq : Z) : bytes :=
  encode_ops_from ops base_seq 0.

(** ** Lengths *)

Section Lengths.
Context `{Target}.

Definition op_len (payload_len : Z) : Z := saturating_add payload_len 1.

(** [4 + key_len + 4 + value_len + 8], in [usize] arithmetic. *)
Definition put_payload_size (key_len value_len : Z) : Z :=
  uadd (uadd (uadd (uadd 4 key_len) 4) value_len) 8.
Definition put_payload_len (key value : bytes) : Z := put_payload_size (len key) (len value).
Definition delete_payload_len (key : bytes) : Z := uadd (uadd 4 (len key)) 8.
Definition delete_range_payload_len (start end_ : bytes) : Z := put_payload_size (len start) (len end_).
Definition merge_payload_len (key operand : bytes) : Z := put_payload_size (len key) (len operand).

Definition batch_op_payload_len (op : WriteBatchOp) : Z :=
  match op with
  | OpPut key value => put_payload_len key value
  | OpDelete key => delete_payload_len key
  | OpDeleteRange start end_ => delete_range_payload_len start end_
  | OpMerge key operand => merge_payload_len key operand
  end.

(** [RecordLen]: the bytes of the operations seen so far. *)
Record RecordLen := mkRecordLen { entries : Z }.
Definition record_len_default : RecordLen := mkRecordLen 0.
Definition push (r : RecordLen) (payload : Z) : RecordLen :=
  mkRecordLen (saturating_add (entries r) (op_len payload)).
Definition push_op (r : RecordLen) (op : WriteBatchOp) : RecordLen := push r (batch_op_payload_len op).
Definition put_sized (r : RecordLen) (key_len value_len : Z) : RecordLen :=
  push r (put_payload_size key_len value_len).
Definition record_len_framed (r : RecordLen) : Z := entries r.

Definition ops_record_len (ops : list WriteBatchOp) : Z :=
  record_len_framed (fold_left push_op ops record_len_default).

Definition check_record_len (framed_len limit : Z) : outcome unit :=
  if framed_len <=? limit then Ok ()
  else Err (mkError InvalidInput "write is too large" [framed_len; limit]).
Definition check_write_len (framed_len : Z) : outcome unit := check_record_len framed_len MAX_RECORD_LEN.

End Lengths.

(** ** Decoding *)

Section Decoding.
Context `{Target}.

Definition u32_at (l : bytes) (at_ : Z) : option Z :=
  match checked_add at_ 4 with
  | Some e => from_le <$> slice l at_ e
  | None => None
  end.

(** The [?] chains of [entry_len]. *)
Definition checked_add_opt (a b : option Z) : option Z :=
  match a, b with Some a, Some b => checked_add a b | _, _ => None end.

(** Bytes of the operation at the head, its type byte included. *)
Definition entry_len (entries : bytes) : option Z :=
  match entries with
  | [] => None
  | op :: rest =>
      let payload :=
        if bool_decide (op = RECORD_PUT \/ op = RECORD_MERGE \/ op = RECORD_DELETE_RANGE) then
          let second := checked_add_opt (Some 4) (u32_at rest 0) in
          let at_ := match second with Some s => u32_at rest s | None => None end in
          checked_add_opt (checked_add_opt (checked_add_opt second (Some 4)) at_) (Some 8)
        else if bool_decide (op = RECORD_DELETE) then
          checked_add_opt (checked_add_opt (Some 4) (u32_at rest 0)) (Some 8)
        else None in
      match payload with
      | Some p => if p <=? len rest then Some (uadd p 1) else None
      | None => None
      end
  end.

(** The loop of [entries_are_whole]; an operation is at least thirteen bytes, so
    the length is fuel enough. *)
Fixpoint whole_from (fuel : nat) (entries : bytes) : bool :=
  match fuel with
  | O => bool_decide (entries = [])
  | S fuel =>
      match entries with
      | [] => true
      | _ => match entry_len entries with
             | Some n => whole_from fuel (dropz n entries)
             | None => false
             end
      end
  end.
Definition entries_are_whole (entries : bytes) : bool := whole_from (length entries) entries.

(** A length field and the bytes it counts: [data[pos..pos + 4]], the overflow
    test with [tail] bytes still to come, then [data[pos..pos + len]]. *)
Definition parse_field (data : bytes) (pos tail : Z) (msg : String.string) : outcome (bytes * Z) :=
  raw ← expect (slice data pos (uadd pos 4));
  let n := from_le raw in
  let pos := uadd pos 4 in
  if len data <? uadd (uadd pos n) tail then Err (invalid_data msg)
  else
    field ← expect (slice data pos (uadd pos n));
    Ok (field, uadd pos n).

Definition parse_seq (data : bytes) (pos : Z) : outcome Z :=
  raw ← expect (slice data pos (uadd pos 8));
  Ok (from_le raw).

(** The parser the put, merge and range-delete records share: their messages
    aside, the three are the same code. *)
Definition parse_pair (short first second : String.string) (data : bytes)
  : outcome (bytes * bytes * Z) :=
  if len data <? 16 then Err (invalid_data short)
  else
    '(a, pos) ← parse_field data 0 4 first;
    '(b, pos) ← parse_field data pos 8 second;
    seq ← parse_seq data pos;
    Ok (a, b, seq).
Arguments parse_pair (short first second)%_string_scope data.
Arguments parse_field data pos tail msg%_string_scope.

Definition parse_put_record (data : bytes) : outcome WalEntry :=
  '(key, value, seq) ← parse_pair "put record too short" "put record key overflow"
                         "put record value overflow" data;
  Ok (Put key value seq).

Definition parse_delete_range_record (data : bytes) : outcome WalEntry :=
  '(start, end_, seq) ← parse_pair "delete_range record too short" "delete_range record start overflow"
                          "delete_range record end overflow" data;
  Ok (DeleteRange start end_ seq).

Definition parse_merge_record (data : bytes) : outcome WalEntry :=
  '(key, operand, seq) ← parse_pair "merge record too short" "merge record key overflow"
                           "merge record operand overflow" data;
  Ok (Merge key operand seq).

Definition parse_delete_record (data : bytes) : outcome WalEntry :=
  if len data <? 12 then Err (invalid_data "delete record too short")
  else
    '(key, pos) ← parse_field data 0 8 "delete record key overflow";
    seq ← parse_seq data pos;
    Ok (Delete key seq).

Definition decode_entry (entries : bytes) : outcome (WalEntry * Z) :=
  n ← ok_or (entry_len entries) (invalid_data "write-ahead log operation is malformed");
  payload ← expect (slice entries 1 n);
  op ← expect (head entries);
  entry ← (if bool_decide (op = RECORD_PUT) then parse_put_record payload
           else if bool_decide (op = RECORD_DELETE) then parse_delete_record payload
           else if bool_decide (op = RECORD_DELETE_RANGE) then parse_delete_range_record payload
           else parse_merge_record payload);
  Ok (entry, n).

(** What replay does with a group: decode operation after operation to its end. *)
Fixpoint decode_group (fuel : nat) (entries : bytes) : outcome (list WalEntry) :=
  match fuel with
  | O => if bool_decide (entries = []) then Ok [] else OutOfFuel
  | S fuel =>
      match entries with
      | [] => Ok []
      | _ =>
          '(e, n) ← decode_entry entries;
          rest ← decode_group fuel (dropz n entries);
          Ok (e :: rest)
      end
  end.

End Decoding.

(** ** Reading back what was written *)

(** Field lengths the [u32] length fields can hold, as the admission limit
    ensures. *)
Definition op_wf (op : WriteBatchOp) : Prop :=
  match op with
  | OpPut a b | OpDeleteRange a b | OpMerge a b => is_u32 (len a) /\ is_u32 (len b)
  | OpDelete a => is_u32 (len a)
  end.

Section Roundtrip.
Context `{Target}.

Lemma parse_field_encoded pre f post tail msg pos :
  pos = len pre -> is_u32 (len f) -> 0 <= tail <= len post ->
  len (pre ++ to_le 4 (as_u32 (len f)) ++ f ++ post) <= usize_max ->
  parse_field (pre ++ to_le 4 (as_u32 (len f)) ++ f ++ post) pos tail msg =
  Ok (f, pos + 4 + len f).
Proof.
  intros -> Hf Ht Hlen. rewrite as_u32_small in * by done. unfold parse_field.
  rewrite (uadd_small (len pre) 4) by llia. rewrite slice_app by llia. run.
  rewrite from_to_u32 by done. rewrite (uadd_small (_ + 4)), uadd_small by llia. ztest.
  rewrite (app_assoc pre), slice_app by llia. done.
Qed.

Lemma parse_seq_encoded pre seq post pos :
  pos = len pre -> is_u64 seq -> len (pre ++ to_le 8 seq ++ post) <= usize_max ->
  parse_seq (pre ++ to_le 8 seq ++ post) pos = Ok seq.
Proof.
  intros -> Hs Hlen. unfold parse_seq. rewrite uadd_small by llia. rewrite slice_app by llia. run.
  by rewrite from_to_u64.
Qed.

Lemma parse_pair_encoded short first second a b seq :
  is_u32 (len a) -> is_u32 (len b) -> is_u64 seq ->
  len (encode_pair_payload a b seq) <= usize_max ->
  parse_pair short first second (encode_pair_payload a b seq) = Ok (a, b, seq).
Proof.
  intros Ha Hb Hs Hlen. unfold parse_pair. unfold encode_pair_payload in *. ztest.
  pose proof (parse_field_encoded [] a (to_le 4 (as_u32 (len b)) ++ b ++ to_le 8 seq) 4 first 0 eq_refl Ha)
    as Hf. cbn [app] in Hf. rewrite Hf by llia. run.
  rewrite app_assoc, parse_field_encoded by (done || llia). run.
  rewrite (app_assoc (_ ++ a)), (app_assoc _ b). rewrite <- (app_nil_r (to_le 8 seq)).
  rewrite parse_seq_encoded by (done || llia). done.
Qed.

Lemma parse_delete_encoded key seq :
  is_u32 (len key) -> is_u64 seq -> len (encode_delete_payload key seq) <= usize_max ->
  parse_delete_record (encode_delete_payload key seq) = Ok (Delete key seq).
Proof.
  intros Hk Hs Hlen. unfold parse_delete_record, encode_delete_payload in *. ztest.
  pose proof (fun msg => parse_field_encoded [] key (to_le 8 seq) 8 msg 0 eq_refl Hk) as Hf.
  cbn [app] in Hf. rewrite Hf by llia. run.
  rewrite app_assoc. rewrite <- (app_nil_r (to_le 8 seq)).
  rewrite parse_seq_encoded by (done || llia). done.
Qed.

Lemma u32_at_encoded pre n post pos :
  pos = len pre -> is_u32 n -> len (pre ++ to_le 4 n ++ post) <= usize_max ->
  u32_at (pre ++ to_le 4 n ++ post) pos = Some n.
Proof.
  intros -> Hn Hlen. unfold u32_at, checked_add. ztest. rewrite slice_app by llia. simpl.
  by rewrite from_to_u32.
Qed.

Lemma checked_add_opt_small a b :
  a + b <= usize_max -> checked_add_opt (Some a) (Some b) = Some (a + b).
Proof. intros Hab. unfold checked_add_opt, checked_add. by ztest. Qed.

Lemma entry_len_pair op a b seq post :
  op = RECORD_PUT \/ op = RECORD_MERGE \/ op = RECORD_DELETE_RANGE ->
  is_u32 (len a) -> is_u32 (len b) ->
  let rest := encode_pair_payload a b seq ++ post in
  1 + len rest <= usize_max ->
  entry_len (op :: rest) = Some (1 + len (encode_pair_payload a b seq)).
Proof.
  intros Hop Ha Hb rest Hlen. unfold entry_len.
  rewrite bool_decide_eq_true_2 by done. unfold rest, encode_pair_payload in *.
  rewrite !as_u32_small in * by done. rewrite <- !app_assoc in *.
  pose proof (u32_at_encoded [] (len a) (a ++ to_le 4 (len b) ++ b ++ to_le 8 seq ++ post) 0 eq_refl Ha)
    as Hu. cbn [app] in Hu. rewrite Hu by llia. rewrite (checked_add_opt_small 4) by llia.
  rewrite (app_assoc (to_le 4 (len a))). rewrite u32_at_encoded by (done || llia).
  rewrite <- app_assoc, !checked_add_opt_small by llia. ztest.
  rewrite uadd_small by llia. f_equal. llia.
Qed.

Lemma entry_len_delete key seq post :
  is_u32 (len key) ->
  let rest := encode_delete_payload key seq ++ post in
  1 + len rest <= usize_max ->
  entry_len (RECORD_DELETE :: rest) = Some (1 + len (encode_delete_payload key seq)).
Proof.
  intros Hk rest Hlen. unfold entry_len, rest, encode_delete_payload in *.
  rewrite bool_decide_eq_false_2 by (intros [|[|]]; discriminate).
  rewrite bool_decide_eq_true_2 by done. rewrite !as_u32_small in * by done.
  rewrite <- !app_assoc in *.
  pose proof (u32_at_encoded [] (len key) (key ++ to_le 8 seq ++ post) 0 eq_refl Hk)
    as Hu. cbn [app] in Hu. rewrite Hu, !checked_add_opt_small by llia. ztest.
  rewrite uadd_small by llia. f_equal. llia.
Qed.

Lemma op_record_len op seq : 13 <= len (encode_op_record op seq).
Proof.
  destruct op; unfold encode_op_record, encode_put_record, encode_delete_record,
    encode_delete_range_record, encode_merge_record, encode_pair_payload, encode_delete_payload; llia.
Qed.

Lemma entry_len_encoded op seq post :
  op_wf op -> len (encode_op_record op seq ++ post) <= usize_max ->
  entry_len (encode_op_record op seq ++ post) = Some (len (encode_op_record op seq)).
Proof.
  destruct op as [a b|a|a b|a b]; cbn [op_wf encode_op_record]; intros Hwf Hlen;
    unfold encode_put_record, encode_delete_record, encode_delete_range_record, encode_merge_record in *;
    rewrite <- app_comm_cons in *; rewrite !len_cons in *.
  2: by apply entry_len_delete.
  all: destruct Hwf; apply entry_len_pair; auto.
Qed.

Lemma decode_entry_encoded op seq post :
  op_wf op -> is_u64 seq -> len (encode_op_record op seq ++ post) <= usize_max ->
  decode_entry (encode_op_record op seq ++ post) =
  Ok (entry_of op seq, len (encode_op_record op seq)).
Proof.
  intros Hwf Hs Hlen. unfold decode_entry. rewrite entry_len_encoded by done. run.
  assert (Hx : exists t p, encode_op_record op seq = t :: p) by (destruct op; eauto).
  destruct Hx as (t & p & E).
  rewrite (slice_at _ [t] p post) by (rewrite ?E; done || llia). run. rewrite E in *. cbn [head app]. run.
  rewrite <- app_comm_cons, len_cons in Hlen. rewrite len_app in Hlen. pose proof (len_nonneg post).
  destruct op as [a b|a|a b|a b]; cbn [op_wf encode_op_record entry_of] in *;
    injection E as <- <-; unfold parse_put_record, parse_merge_record, parse_delete_range_record;
    repeat ((rewrite bool_decide_eq_true_2 by done) || (rewrite bool_decide_eq_false_2 by discriminate)).
  2: by rewrite parse_delete_encoded by (done || lia).
  all: destruct Hwf; by rewrite parse_pair_encoded by (done || lia).
Qed.

(** The entries a batch becomes. *)
Fixpoint entries_from (ops : list WriteBatchOp) (base_seq i : Z) : list WalEntry :=
  match ops with
  | [] => []
  | op :: ops => entry_of op (as_u64 (base_seq + i)) :: entries_from ops base_seq (i + 1)
  end.

Lemma as_u64_range z : is_u64 (as_u64 z).
Proof. apply Z.mod_pos_bound. lia. Qed.

Lemma encode_ops_cons op ops base i :
  encode_ops_from (op :: ops) base i =
  encode_op_record op (as_u64 (base + i)) ++ encode_ops_from ops base (i + 1).
Proof. done. Qed.

Lemma nonempty_match {A B} (l : list A) (x y : B) : l <> [] -> match l with [] => x | _ => y end = y.
Proof. by destruct l. Qed.

Lemma op_record_nonempty op seq post : encode_op_record op seq ++ post <> [].
Proof. by destruct op. Qed.

Lemma decode_group_ops fuel ops base i :
  Forall op_wf ops -> len (encode_ops_from ops base i) <= usize_max ->
  (length (encode_ops_from ops base i) <= fuel)%nat ->
  decode_group fuel (encode_ops_from ops base i) = Ok (entries_from ops base i) /\
  whole_from fuel (encode_ops_from ops base i) = true.
Proof.
  revert i fuel. induction ops as [|op ops IH]; intros i fuel Hwf Hlen Hf; [by destruct fuel|].
  inversion_clear Hwf as [|? ? Hop Hops]. rewrite encode_ops_cons in *.
  pose proof (op_record_len op (as_u64 (base + i))) as Hl.
  destruct fuel as [|fuel]; [rewrite length_app in Hf; unfold len in Hl; lia|].
  cbn [decode_group whole_from entries_from].
  rewrite !nonempty_match by apply op_record_nonempty.
  rewrite decode_entry_encoded, entry_len_encoded by (done || apply as_u64_range). run.
  rewrite dropz_app by done.
  destruct (IH (i + 1) fuel) as [-> ->]; [done|rewrite len_app in Hlen; llia| |done].
  rewrite length_app in Hf. unfold len in Hl. lia.
Qed.

End Roundtrip.

(** ** Arbitrary bytes *)

Section Arbitrary.
Context `{Target}.

Lemma u32_at_Some l at_ n :
  0 <= at_ -> u32_at l at_ = Some n ->
  exists raw, slice l at_ (at_ + 4) = Some raw /\ from_le raw = n /\ is_u32 n.
Proof.
  intros Ha. unfold u32_at. destruct (checked_add at_ 4) as [e|] eqn:E; [|done].
  apply checked_add_Some in E as [-> _]. destruct (slice l at_ (at_ + 4)) as [raw|] eqn:Es; [|done].
  intros [= <-]. exists raw. split_and!; try done; pose proof (from_le_range raw 4);
    apply slice_len in Es; unfold is_u32; lia.
Qed.

Lemma parse_field_Ok data pos tail msg raw :
  0 <= pos -> 0 <= tail -> slice data pos (pos + 4) = Some raw ->
  pos + 4 + from_le raw + tail <= len data -> len data <= usize_max ->
  exists f, parse_field data pos tail msg = Ok (f, pos + 4 + from_le raw).
Proof.
  intros Hp Ht Hs Hle Hm. pose proof (slice_len _ _ _ _ Hs).
  pose proof (from_le_range raw 4 ltac:(lia)). unfold parse_field.
  rewrite (uadd_small pos 4) by lia. rewrite Hs. run.
  rewrite (uadd_small (pos + 4)), uadd_small by lia. ztest.
  destruct (slice data (pos + 4) (pos + 4 + from_le raw)) eqn:E; [run; eauto|].
  apply slice_None in E. lia.
Qed.

Lemma parse_seq_Ok data pos :
  0 <= pos -> pos + 8 <= len data -> len data <= usize_max -> exists q, parse_seq data pos = Ok q.
Proof.
  intros Hp Hl Hm. unfold parse_seq. rewrite uadd_small by lia.
  destruct (slice data pos (pos + 8)) eqn:E; [run; eauto|]. apply slice_None in E. lia.
Qed.

(** The two shapes of an operation's payload that [entry_len] accepts. *)
Lemma parse_pair_shape short first second data raw1 raw2 :
  len data <= usize_max -> slice data 0 4 = Some raw1 ->
  slice data (4 + from_le raw1) (4 + from_le raw1 + 4) = Some raw2 ->
  4 + from_le raw1 + 4 + from_le raw2 + 8 <= len data ->
  exists r, parse_pair short first second data = Ok r.
Proof.
  intros Hm H1 H2 Hl. pose proof (slice_len _ _ _ _ H1). pose proof (slice_len _ _ _ _ H2).
  pose proof (from_le_range raw1 4 ltac:(lia)). pose proof (from_le_range raw2 4 ltac:(lia)).
  unfold parse_pair. ztest.
  destruct (parse_field_Ok data 0 4 first raw1) as [a ->]; try done; try lia. run.
  destruct (parse_field_Ok data (0 + 4 + from_le raw1) 8 second raw2) as [b ->]; try lia;
    [by rewrite Z.add_0_l|]. run.
  destruct (parse_seq_Ok data (0 + 4 + from_le raw1 + 4 + from_le raw2)) as [q ->]; try lia.
  run. eauto.
Qed.

Lemma parse_delete_shape data raw1 :
  len data <= usize_max -> slice data 0 4 = Some raw1 -> 4 + from_le raw1 + 8 <= len data ->
  exists r, parse_delete_record data = Ok r.
Proof.
  intros Hm H1 Hl. pose proof (slice_len _ _ _ _ H1). pose proof (from_le_range raw1 4 ltac:(lia)).
  unfold parse_delete_record. ztest.
  match goal with |- context [parse_field data 0 8 ?msg] =>
    destruct (parse_field_Ok data 0 8 msg raw1) as [a ->]; try done; try lia
  end. run.
  destruct (parse_seq_Ok data (0 + 4 + from_le raw1)) as [q ->]; try lia. run. eauto.
Qed.

Lemma checked_add_opt_Some a b c :
  checked_add_opt a b = Some c -> exists x y, a = Some x /\ b = Some y /\ c = x + y /\ c <= usize_max.
Proof.
  destruct a, b; cbn [checked_add_opt]; try done. intros [-> ?]%checked_add_Some. eauto 10.
Qed.

(** An operation [entry_len] accepts decodes, and no further bytes are read. *)
Lemma decode_entry_whole es n :
  len es <= usize_max -> entry_len es = Some n ->
  exists e, decode_entry es = Ok (e, n) /\ 0 < n <= len es.
Proof.
  intros Hm He. unfold decode_entry. rewrite He. run.
  destruct es as [|op rest]; [done|]. cbn [entry_len head] in *. rewrite len_cons in *.
  assert (Hp : forall p, p <= len rest -> 0 <= p -> uadd p 1 = n ->
    n = p + 1 /\ slice (op :: rest) 1 n = Some (takez p rest) /\ len (takez p rest) = p).
  { intros p Hp1 Hp2 <-. rewrite uadd_small by lia. rewrite len_takez by lia. split_and!; auto.
    apply (slice_at _ [op] _ (dropz p rest)); [|done|rewrite len_takez by lia; lia].
    cbn [app]. by rewrite takez_dropz. }
  destruct (bool_decide_reflect (op = RECORD_PUT \/ op = RECORD_MERGE \/ op = RECORD_DELETE_RANGE)) as [Ho|Ho].
  - destruct (checked_add_opt (checked_add_opt (checked_add_opt _ _) _) _) as [p|] eqn:Ep; [|done].
    destruct (Z.leb_spec p (len rest)) as [Hle|]; [|done]. injection He as He.
    apply checked_add_opt_Some in Ep as (x & y & Ex & [= <-] & -> & _).
    apply checked_add_opt_Some in Ex as (x1 & n2 & Ex1 & Hn2 & -> & _).
    apply checked_add_opt_Some in Ex1 as (x2 & z & Ex2 & [= <-] & -> & _).
    pose proof Ex2 as (z & n1 & [= <-] & Hn1 & -> & _)%checked_add_opt_Some.
    rewrite Ex2 in Hn2. apply u32_at_Some in Hn1 as (r1 & Hr1 & <- & Hb1); [|done].
    unfold is_u32 in *. apply u32_at_Some in Hn2 as (r2 & Hr2 & <- & Hb2); [|lia].
    unfold is_u32 in *. destruct (Hp _ Hle) as (En & -> & Hl); [lia|done|]. run.
    set (data := takez _ rest) in *.
    assert (Hd : forall s1 s2 s3, exists r, parse_pair s1 s2 s3 data = Ok r).
    { intros s1 s2 s3. apply (parse_pair_shape s1 s2 s3 data r1 r2); try lia; by apply slice_takez; [|lia]. }
    unfold parse_put_record, parse_merge_record, parse_delete_range_record.
    destruct Ho as [->|[-> | ->]];
      repeat ((rewrite bool_decide_eq_true_2 by done) || (rewrite bool_decide_eq_false_2 by discriminate));
      match goal with |- context [parse_pair ?a ?b ?c data] => destruct (Hd a b c) as [[[k v] q] ->] end;
      run; eexists; (split; [done|lia]).
  - destruct (bool_decide_reflect (op = RECORD_DELETE)) as [->|]; [|done].
    destruct (checked_add_opt (checked_add_opt _ _) _) as [p|] eqn:Ep; [|done].
    destruct (Z.leb_spec p (len rest)) as [Hle|]; [|done]. injection He as He.
    apply checked_add_opt_Some in Ep as (x & y & Ex & [= <-] & -> & _).
    apply checked_add_opt_Some in Ex as (z & n1 & [= <-] & Hn1 & -> & _).
    apply u32_at_Some in Hn1 as (r1 & Hr1 & <- & Hb1); [|done]. unfold is_u32 in *.
    destruct (Hp _ Hle) as (En & -> & Hl); [lia|done|]. run.
    rewrite bool_decide_eq_false_2 by discriminate.
    destruct (parse_delete_shape (takez (4 + from_le r1 + 8) rest) r1) as [r ->];
      [lia|by apply slice_takez; [|lia]|lia|]. run. eexists. split; [done|lia].
Qed.

Lemma whole_decodes fuel es :
  len es <= usize_max -> whole_from fuel es = true -> exists l, decode_group fuel es = Ok l.
Proof.
  revert es. induction fuel as [|fuel IH]; intros es Hm; cbn [whole_from decode_group].
  { intros ->%bool_decide_eq_true. by exists []. }
  destruct es as [|b es]; [by exists []|].
  destruct (entry_len (b :: es)) as [n|] eqn:En; [|done]. intros Hw.
  destruct (decode_entry_whole _ _ Hm En) as (e & -> & Hn). run.
  destruct (IH (dropz n (b :: es))) as [l ->]; [rewrite len_dropz by lia; lia|done|]. run. eauto.
Qed.

End Arbitrary.

(** ** Lengths are exact *)

Definition op_payload_size (op : WriteBatchOp) : Z :=
  match op with
  | OpPut a b | OpDeleteRange a b | OpMerge a b => 4 + len a + 4 + len b + 8
  | OpDelete a => 4 + len a + 8
  end.

Lemma op_record_size op seq : len (encode_op_record op seq) = 1 + op_payload_size op.
Proof.
  destruct op; unfold encode_op_record, encode_put_record, encode_delete_record,
    encode_delete_range_record, encode_merge_record, encode_pair_payload, encode_delete_payload,
    op_payload_size; llia.
Qed.

Lemma batch_op_payload_exact `{Target} op :
  op_payload_size op <= usize_max -> batch_op_payload_len op = op_payload_size op.
Proof.
  destruct op as [a b|a|a b|a b]; cbn [batch_op_payload_len op_payload_size]; intros Hs.
  2:{ unfold delete_payload_len. rewrite (uadd_small 4), uadd_small by llia. lia. }
  all: unfold put_payload_len, merge_payload_len, delete_range_payload_len, put_payload_size;
    rewrite (uadd_small 4 (len a)), (uadd_small (4 + len a) 4), (uadd_small (4 + len a + 4) (len b)),
      uadd_small by llia; lia.
Qed.

Lemma ops_record_len_exact `{Target} ops base i r :
  Forall (fun op => op_payload_size op <= usize_max) ops -> 0 <= entries r <= usize_max ->
  entries (fold_left push_op ops r) =
  Z.min (entries r + len (encode_ops_from ops base i)) usize_max.
Proof.
  revert i r. induction ops as [|op ops IH]; intros i r Hops Hr; cbn [fold_left encode_ops_from].
  { rewrite len_nil. lia. }
  inversion_clear Hops as [|? ? Hop Hops'].
  assert (He : entries (push_op r op) = Z.min (entries r + (1 + op_payload_size op)) usize_max).
  { unfold push_op, push, op_len, saturating_add. cbn [entries].
    rewrite batch_op_payload_exact by done. destruct op; cbn [op_payload_size]; llia. }
  rewrite (IH (i + 1)); [|done|].
  - rewrite He, len_app, op_record_size. pose proof (len_nonneg (encode_ops_from ops base (i + 1))).
    assert (0 <= op_payload_size op) by (destruct op; cbn [op_payload_size]; llia). lia.
  - rewrite He. destruct op; cbn [op_payload_size]; llia.
Qed.

Lemma entries_from_imap ops base i (f : nat -> WriteBatchOp -> WalEntry) :
  (forall n op, f n op = entry_of op (as_u64 (base + (i + Z.of_nat n)))) ->
  entries_from ops base i = imap f ops.
Proof.
  revert i f. induction ops as [|op ops IH]; intros i f Hf; [done|]. cbn [entries_from].
  rewrite imap_cons, Hf. f_equal; [by rewrite Z.add_0_r|]. apply IH. intros n op'. simpl.
  rewrite Hf. do 3 f_equal. lia.
Qed.

(** ** The parsers alone, on a 64-bit target *)

Section Target64.
#[local] Instance t64 : Target := target64.

Lemma uadd64 a b : 0 <= a + b <= 2 ^ 64 - 1 -> uadd a b = a + b.
Proof. intros Hab. apply uadd_small. exact Hab. Qed.

Lemma parse_field_total64 data pos tail msg :
  0 <= pos -> 0 <= tail <= 8 -> pos + 4 <= len data -> len data <= 2 ^ 63 - 1 ->
  returns (parse_field data pos tail msg).
Proof.
  intros Hp Ht Hl Hm. unfold parse_field. rewrite (uadd64 pos 4) by lia.
  destruct (slice data pos (pos + 4)) as [raw|] eqn:E; [|apply slice_None in E; lia]. run.
  pose proof (from_le_range raw 4 ltac:(apply slice_len in E; lia)).
  rewrite (uadd64 (pos + 4)), (uadd64 _ tail) by lia. destruct (Z.ltb_spec (len data) (pos + 4 + from_le raw + tail)); [done|].
  destruct (slice data (pos + 4) (pos + 4 + from_le raw)) eqn:E'; [done|]. apply slice_None in E'. lia.
Qed.

Lemma parse_field_end64 data pos tail msg f p :
  0 <= pos -> 0 <= tail <= 8 -> pos + 4 <= len data -> len data <= 2 ^ 63 - 1 ->
  parse_field data pos tail msg = Ok (f, p) -> pos <= p /\ p + tail <= len data.
Proof.
  intros Hp Ht Hl Hm. unfold parse_field. rewrite (uadd64 pos 4) by lia.
  intros (raw & E%expect_Ok & Hf)%bind_Ok.
  pose proof (from_le_range raw 4 ltac:(apply slice_len in E; lia)).
  rewrite (uadd64 (pos + 4)), (uadd64 _ tail) in Hf by lia.
  destruct (Z.ltb_spec (len data) (pos + 4 + from_le raw + tail)); [done|].
  apply bind_Ok in Hf as (x & _ & [= <- <-]). lia.
Qed.

Lemma parse_seq_total64 data pos :
  0 <= pos -> pos + 8 <= len data -> len data <= 2 ^ 63 - 1 -> returns (parse_seq data pos).
Proof.
  intros Hp Hl Hm. destruct (parse_seq_Ok data pos) as [q Hq]; [lia..| |].
  - change usize_max with (2 ^ 64 - 1). lia.
  - by rewrite Hq.
Qed.

End Target64.

(** ** Properties *)

(** C30: a commit's operations survive the log. What a batch is encoded to is a
    sequence of whole operations, and decoding it gives the batch back, each
    operation at the base sequence plus its position, on 32- and 64-bit
    targets. *)
Theorem group_roundtrip `{Target} ops base :
  Forall op_wf ops -> len (encode_ops_record ops base) <= usize_max ->
  entries_are_whole (encode_ops_record ops base) = true /\
  decode_group (length (encode_ops_record ops base)) (encode_ops_record ops base) =
  Ok (imap (fun i op => entry_of op (as_u64 (base + Z.of_nat i))) ops).
Proof.
  intros Hwf Hlen. destruct (decode_group_ops (length (encode_ops_record ops base)) ops base 0)
    as [Hd Hw]; [done..|]. split; [exact Hw|]. fold (encode_ops_record ops base) in Hd. rewrite Hd.
  f_equal. apply entries_from_imap. intros n op. by rewrite Z.add_0_l.
Qed.

Definition sample_ops : list WriteBatchOp :=
  [OpPut (str "k") (str "v"); OpDelete (str "d"); OpDeleteRange (str "a") (str "b");
   OpMerge (str "m") (str "+")].

Lemma group_roundtrip_witness :
  decode_group (H := target32) (length (encode_ops_record sample_ops 7)) (encode_ops_record sample_ops 7) =
  Ok [Put (str "k") (str "v") 7; Delete (str "d") 8; DeleteRange (str "a") (str "b") 9;
      Merge (str "m") (str "+") 10].
Proof.
  refine (proj2 (@group_roundtrip target32 sample_ops 7 _ _)).
  - repeat constructor; vm_compute; congruence.
  - vm_compute. congruence.
Defined.

(** A group is applied whole or not at all. Replay checks a group before it
    yields any of it: bytes that pass the check decode to their last byte, and
    bytes of any kind make decoding an operation return, never panic, on 32- and
    64-bit targets. *)
Theorem checked_group_decodes `{Target} es :
  len es <= usize_max ->
  returns (decode_entry es) /\
  (entries_are_whole es = true -> exists l, decode_group (length es) es = Ok l).
Proof.
  intros Hm. split; [|by apply whole_decodes].
  destruct (entry_len es) as [n|] eqn:E.
  - by destruct (decode_entry_whole es n Hm E) as (e & -> & _).
  - unfold decode_entry. by rewrite E.
Qed.

Lemma checked_group_decodes_witness :
  returns (decode_entry (H := target32) [RECORD_PUT; Byte.xff; Byte.xff; Byte.xff; Byte.xff]).
Proof.
  refine (proj1 (@checked_group_decodes target32 [RECORD_PUT; Byte.xff; Byte.xff; Byte.xff; Byte.xff] _)).
  vm_compute. congruence.
Defined.

(** The length admission counts is the length the log gets. For operations
    whose own sizes a [usize] holds, the running sum is the encoded length,
    saturated, so the limit admits exactly the writes that log at most a
    gigabyte, and no wrapped sum slips past it. *)
Theorem write_length_exact `{Target} ops base :
  Forall (fun op => op_payload_size op <= usize_max) ops ->
  ops_record_len ops = Z.min (len (encode_ops_record ops base)) usize_max /\
  (check_write_len (ops_record_len ops) = Ok () <->
   len (encode_ops_record ops base) <= MAX_RECORD_LEN).
Proof.
  intros Hops. pose proof usize_max_range.
  assert (E : ops_record_len ops = Z.min (len (encode_ops_record ops base)) usize_max).
  { unfold ops_record_len, record_len_framed. rewrite (ops_record_len_exact ops base 0); [|done|simpl; lia].
    cbn [entries record_len_default]. by rewrite Z.add_0_l. }
  split; [done|]. rewrite E. unfold check_write_len, check_record_len.
  change MAX_RECORD_LEN with (2 ^ 30). destruct (Z.leb_spec (Z.min (len (encode_ops_record ops base)) usize_max) (2 ^ 30));
    split; try done; lia.
Qed.

Lemma write_length_exact_witness :
  ops_record_len (H := target32) sample_ops = 71.
Proof.
  etransitivity.
  - refine (proj1 (@write_length_exact target32 sample_ops 7 _)). repeat constructor; vm_compute; congruence.
  - vm_compute. reflexivity.
Defined.

Lemma parse_pair_total64 short first second data :
  len data <= isize_max (H := target64) ->
  returns (parse_pair (H := target64) short first second data).
Proof.
  intros Hl. change (isize_max (H := target64)) with (2 ^ 63 - 1) in Hl.
  unfold parse_pair. destruct (Z.ltb_spec (len data) 16); [done|].
  apply returns_bind; [apply (parse_field_total64 data 0); lia|].
  intros [a p] Hp. apply parse_field_end64 in Hp; [|lia..].
  apply returns_bind; [apply (parse_field_total64 data p); lia|].
  intros [b p'] Hp'. apply parse_field_end64 in Hp'; [|lia..].
  apply returns_bind; [|done]. apply parse_seq_total64; lia.
Qed.

Lemma parsers_total64 data :
  len data <= isize_max (H := target64) ->
  returns (parse_put_record (H := target64) data) /\
  returns (parse_merge_record (H := target64) data) /\
  returns (parse_delete_range_record (H := target64) data) /\
  returns (parse_delete_record (H := target64) data).
Proof.
  intros Hl. unfold parse_put_record, parse_merge_record, parse_delete_range_record.
  split_and!; try (apply returns_bind; [by apply parse_pair_total64|by intros [[? ?] ?]]).
  change (isize_max (H := target64)) with (2 ^ 63 - 1) in Hl. unfold parse_delete_record.
  destruct (Z.ltb_spec (len data) 12); [done|].
  apply returns_bind; [apply (parse_field_total64 data 0); lia|].
  intros [a p] Hp. apply parse_field_end64 in Hp; [|lia..].
  apply returns_bind; [|done]. apply parse_seq_total64; lia.
Qed.

(** C37: the record parsers, which format 1 replay calls on a checksummed
    payload with no length check before them, return on every payload of a
    64-bit target. On a 32-bit target they do not: a length field near its
    maximum wraps the bound they test, and the slice they then take is out of
    range. *)
Theorem record_parsers_panic_only_on_32_bit data :
  len data <= isize_max (H := target64) ->
  returns (parse_put_record (H := target64) data) /\
  returns (parse_merge_record (H := target64) data) /\
  returns (parse_delete_range_record (H := target64) data) /\
  returns (parse_delete_record (H := target64) data) /\
  exists bad, len bad = 16 /\ parse_put_record (H := target32) bad = Panic.
Proof.
  intros Hl. destruct (parsers_total64 data Hl) as (H1 & H2 & H3 & H4). split_and!; try done.
  exists (to_le 4 0xFFFFFFFC ++ replicate 12 Byte.x00). split; vm_compute; reflexivity.
Qed.

Lemma record_parsers_panic_only_on_32_bit_witness :
  returns (parse_put_record (H := target64) (to_le 4 0xFFFFFFFC ++ replicate 12 Byte.x00)).
Proof.
  refine (proj1 (record_parsers_panic_only_on_32_bit (to_le 4 0xFFFFFFFC ++ replicate 12 Byte.x00) _)).
  vm_compute. congruence.
Defined.
