(* ===== verification/Seal.v ===== *)
(** * Sealed frames

    Models [src/src/engine/seal.rs]: the authenticated encryption of every
    sealed frame, and the keyring that caches key schedules. The cipher is a
    third-party crate ([Aead], with [AeadLaws]), the operating system's random
    source is an argument (what the draw answered), and the caller's key
    provider is a field of the keyring.

    Shown here: a frame opens to what was sealed; opening takes no more of the
    frame than the frame; and the cache never changes which key a file is sealed
    under. *)

From stdpp Require Import gmap.
From S2P Require Import Prelude.

Definition NONCE_LEN : Z := 12.
Definition TAG_LEN : Z := 16.
Definition OVERHEAD : Z := NONCE_LEN + TAG_LEN.

Definition DOMAIN_SST : byte := Byte.x53.
Definition DOMAIN_WAL : byte := Byte.x57.
Definition DOMAIN_MANIFEST : byte := Byte.x4d.
Definition DOMAIN_BACKUP : byte := Byte.x42.

(** The functions of the [aes_gcm_siv] crate the engine calls: a key schedule,
    and detached encryption and decryption under it of a nonce, associated data
    and a buffer. *)
Class Aead := {
  cipher : Type;
  cipher_new : bytes -> cipher;
  encrypt : cipher -> bytes -> bytes -> bytes -> option (bytes * bytes);
  decrypt : cipher -> bytes -> bytes -> bytes -> bytes -> option bytes;
}.

(** Its documented behaviour: encryption keeps the length and its tag is
    [TAG_LEN] bytes; what was encrypted decrypts to itself. *)
Class AeadLaws (A : Aead) : Prop := {
  encrypt_lens : forall c n aad p ct tag,
    encrypt c n aad p = Some (ct, tag) -> len ct = len p /\ len tag = TAG_LEN;
  decrypt_encrypt : forall c n aad p ct tag,
    encrypt c n aad p = Some (ct, tag) -> decrypt c n aad ct tag = Some p;
  decrypt_len : forall c n aad body tag p, decrypt c n aad body tag = Some p -> len p = len body;
}.

Section Seal.
Context `{A : Aead}.

Record Sealer := mkSealer { sealer_id : Z; sealer_cipher : cipher }.

Definition seal_with (s : Sealer) (nonce aad buf : bytes) : outcome (bytes * bytes) :=
  ok_or (encrypt (sealer_cipher s) nonce aad buf) (mkError OtherError "a frame is too large to seal" []).

(** [draw] is what the operating system answered: twelve bytes or an error. *)
Definition seal (s : Sealer) (draw : outcome bytes) (aad buf : bytes)
  : outcome (bytes * bytes * bytes) :=
  nonce ← draw;
  '(ct, tag) ← seal_with s nonce aad buf;
  Ok (nonce, ct, tag).

(** The plaintext when the tag verifies. *)
Definition open (s : Sealer) (nonce aad buf tag : bytes) : option bytes :=
  decrypt (sealer_cipher s) nonce aad buf tag.

Definition seal_frame (s : Sealer) (draw : outcome bytes) (aad plain out : bytes) : outcome bytes :=
  '(nonce, ct, tag) ← seal s draw aad plain;
  Ok (out ++ nonce ++ ct ++ tag).

(** The frame with its body decrypted in place, and where the plaintext sits. *)
Definition open_frame (s : Sealer) (aad frame : bytes) : option (bytes * (Z * Z)) :=
  if len frame <? OVERHEAD then None
  else
    let body_len := len frame - OVERHEAD in
    let nonce := takez NONCE_LEN frame in
    let rest := dropz NONCE_LEN frame in
    let body := takez body_len rest in
    let tag := dropz body_len rest in
    match open s nonce aad body tag with
    | Some plain => Some (nonce ++ plain ++ tag, (NONCE_LEN, NONCE_LEN + body_len))
    | None => None
    end.

(** ** The keyring *)

Record Keyring := mkKeyring {
  provider_current : Z;
  provider_key : Z -> option bytes;
  ciphers : gmap Z cipher;
}.

Definition keyring_new (current : Z) (key : Z -> option bytes) : Keyring := mkKeyring current key ∅.

(** The sealer of a key, and the keyring with its schedule cached. *)
Definition sealer (k : Keyring) (id : Z) : Keyring * outcome Sealer :=
  match ciphers k !! id with
  | Some c => (k, Ok (mkSealer id c))
  | None =>
      match provider_key k id with
      | None => (k, Err (mkError OtherError "UnknownKey" [id]))
      | Some key =>
          let c := cipher_new key in
          (mkKeyring (provider_current k) (provider_key k) (<[id := c]> (ciphers k)),
           Ok (mkSealer id c))
      end
  end.

Definition current (k : Keyring) : Keyring * outcome Sealer := sealer k (provider_current k).

(** Every cached schedule is the one the provider's key gives. *)
Definition keyring_ok (k : Keyring) : Prop :=
  forall id c, ciphers k !! id = Some c -> exists key, provider_key k id = Some key /\ c = cipher_new key.

(** What a keyring without a cache would answer. *)
Definition fresh_sealer (k : Keyring) (id : Z) : outcome Sealer :=
  match provider_key k id with
  | Some key => Ok (mkSealer id (cipher_new key))
  | None => Err (mkError OtherError "UnknownKey" [id])
  end.

End Seal.
Arguments Sealer {_}.
Arguments Keyring {_}.

(** ** Lemmas *)

Lemma open_frame_sealed `{AeadLaws} s nonce aad plain ct tag :
  len nonce = NONCE_LEN -> encrypt (sealer_cipher s) nonce aad plain = Some (ct, tag) ->
  open_frame s aad (nonce ++ ct ++ tag) =
  Some (nonce ++ plain ++ tag, (NONCE_LEN, NONCE_LEN + len plain)).
Proof.
  intros Hn He. destruct (encrypt_lens _ _ _ _ _ _ He) as [Hc Ht].
  unfold open_frame, OVERHEAD, NONCE_LEN, TAG_LEN in *. ztest.
  rewrite takez_app, dropz_app by done.
  replace (len (nonce ++ ct ++ tag) - (12 + 16)) with (len ct) by llia.
  rewrite takez_app, dropz_app by done. unfold open.
  rewrite (decrypt_encrypt _ _ _ _ _ _ He). by rewrite Hc.
Qed.

Lemma open_frame_range `{AeadLaws} s aad frame frame' a b :
  open_frame s aad frame = Some (frame', (a, b)) ->
  len frame' = len frame /\ 0 <= a <= b /\ b <= len frame'.
Proof.
  unfold open_frame, OVERHEAD, NONCE_LEN, TAG_LEN. destruct (Z.ltb_spec (len frame) (12 + 16)); [done|].
  destruct (open s _ _ _ _) as [plain|] eqn:E; [|done]. intros [= <- <- <-].
  apply decrypt_len in E. rewrite len_takez in E by (rewrite len_dropz; lia).
  rewrite !len_app, E, len_takez, !len_dropz by (rewrite ?len_dropz; lia). lia.
Qed.

Lemma sealer_spec `{Aead} k id :
  keyring_ok k -> (sealer k id).2 = fresh_sealer k id /\ keyring_ok (sealer k id).1 /\
  provider_key (sealer k id).1 = provider_key k.
Proof.
  intros Hk. unfold sealer, fresh_sealer. destruct (ciphers k !! id) as [c|] eqn:E.
  - destruct (Hk _ _ E) as (key & -> & ->). done.
  - destruct (provider_key k id) as [key|] eqn:Ek; [|done]. split_and!; try done. intros id' c. simpl.
    rewrite lookup_insert_Some. intros [[<- <-]|[_ Hc]]; eauto.
Qed.

(** A cipher to instantiate the class with: no secrecy, and a tag of the length
    and the sum of what it binds. *)
Definition toy_tag (key nonce aad plain : bytes) : bytes :=
  to_le 16 (from_le (key ++ nonce ++ aad ++ plain) + len plain).
Definition toy_aead : Aead := {|
  cipher := bytes;
  cipher_new key := key;
  encrypt c n aad p := Some (p, toy_tag c n aad p);
  decrypt c n aad body tag := if bool_decide (tag = toy_tag c n aad body) then Some body else None;
|}.

Lemma toy_aead_laws : AeadLaws toy_aead.
Proof.
  split; simpl.
  - intros c n aad p ct tag [= <- <-]. split; [done|by unfold toy_tag; rewrite len_to_le].
  - intros c n aad p ct tag [= <- <-]. by rewrite bool_decide_eq_true_2.
  - intros c n aad body tag p. destruct (bool_decide _); [|done]. by intros [= <-].
Qed.

Definition toy_keys : Keyring (A := toy_aead) := keyring_new (A := toy_aead) 1 (fun _ => Some (str "key")).
Definition toy_sealer : Sealer (A := toy_aead) := mkSealer (A := toy_aead) 1 (str "key").

(** ** Properties *)

(** A sealed frame is [OVERHEAD] bytes longer than what it seals and opens,
    under the same key and associated data, to exactly that, in place. *)
Theorem sealed_frame_opens `{AeadLaws} s nonce aad plain out frame :
  len nonce = NONCE_LEN -> seal_frame s (Ok nonce) aad plain out = Ok (out ++ frame) ->
  len frame = len plain + OVERHEAD /\
  exists frame' a b, open_frame s aad frame = Some (frame', (a, b)) /\ slice frame' a b = Some plain.
Proof.
  intros Hn. unfold seal_frame, seal, seal_with. run.
  destruct (encrypt (sealer_cipher s) nonce aad plain) as [[ct tag]|] eqn:E; [|done]. run.
  intros [= Ef]. apply app_inv_head in Ef as <-. destruct (encrypt_lens _ _ _ _ _ _ E) as [Hc Ht].
  split; [unfold OVERHEAD, NONCE_LEN, TAG_LEN in *; llia|].
  rewrite (open_frame_sealed _ _ _ _ _ _ Hn E). eexists _, _, _. split; [done|].
  by apply slice_app.
Qed.

Lemma sealed_frame_opens_witness :
  exists frame' a b,
    open_frame (A := toy_aead) (mkSealer (A := toy_aead) 1 (str "key")) (str "aad")
      (replicate 12 Byte.x00 ++ str "data" ++ toy_tag (str "key") (replicate 12 Byte.x00) (str "aad")
         (str "data")) = Some (frame', (a, b)) /\
    slice frame' a b = Some (str "data").
Proof.
  refine (proj2 (@sealed_frame_opens toy_aead toy_aead_laws (mkSealer (A := toy_aead) 1 (str "key"))
    (replicate 12 Byte.x00) (str "aad") (str "data") [] _ eq_refl _)). reflexivity.
Defined.

(** The keyring's cache is invisible. Starting from an empty cache, after
    any sequence of lookups, a key resolves to the schedule of the bytes the
    provider gives for it, or to the unknown-key error. *)
Theorem keyring_cache_transparent `{Aead} cur key ids id :
  let k := fold_left (fun k i => (sealer k i).1) ids (keyring_new cur key) in
  (sealer k id).2 = match key id with
                    | Some raw => Ok (mkSealer id (cipher_new raw))
                    | None => Err (mkError OtherError "UnknownKey" [id])
                    end.
Proof.
  assert (Hk : forall k, keyring_ok k -> provider_key k = key ->
    let k' := fold_left (fun k i => (sealer k i).1) ids k in keyring_ok k' /\ provider_key k' = key).
  { induction ids as [|i ids IH]; intros k Hk Hp; [done|]. simpl.
    destruct (sealer_spec k i Hk) as (_ & Hk' & Hp'). apply IH; [done|]. by rewrite Hp'. }
  destruct (Hk (keyring_new cur key)) as [Hok Hp]; [by intros ? ? ?|done|].
  intros k. subst k. destruct (sealer_spec _ id Hok) as [-> _]. unfold fresh_sealer. by rewrite Hp.
Qed.
