(* ===== verification/WalFrame.v ===== *)
(** * Stamps and record frames of the write-ahead log

    Models [src/src/engine/wal_frame.rs] and [src/src/engine/wal_seal.rs]: the
    stamp a format 2 log begins with, plain and sealed; the record frame, plain
    and sealed; and the scan that tests every offset after a damaged record for
    one that proves the damage durable. A file is its bytes: reading it at an
    offset answers those bytes or the end-of-file error. Offsets are [Z]; no
    file reaches 2^63 bytes, so no sum of offsets wraps.

    Shown here: stamps and frames read back as written, in both forms; a header
    read at an offset is one the checks allow there; and the chunked scan finds
    exactly the first offset whose record proves something past the damage. *)

From S2P Require Import Prelude Checksum Seal WalCodec.

Definition WAL_MAGIC : bytes := str "REGO".
Definition FORMAT_V2 : Z := 2.
Definition STAMP_LEN : Z := 24.
Definition HEADER_LEN : Z := 21.
Definition KIND_GROUP : byte := Byte.xc0.
Definition KIND_CLOSE : byte := Byte.xc1.
Definition SCAN_CHUNK : Z := 64 * 1024.

Definition FLAG_SEALED : Z := 1.
Definition SEALED_STAMP_LEN : Z := 56.
Definition KEY_ID_AT : Z := 20.
Definition CHECK_AT : Z := 24.
Definition AEAD_NONCE_AT : Z := 28.
Definition TAG_AT : Z := AEAD_NONCE_AT + NONCE_LEN.
Definition AAD_STAMP : byte := Byte.x00.
Definition AAD_RECORD : byte := Byte.x01.
Definition SEALED_PREFIX_LEN : Z := HEADER_LEN + NONCE_LEN.
Definition CLOSE_PAYLOAD_LEN : Z := OVERHEAD.

(** The little-endian integer in [n] bytes at [a], once they are known to be
    there. *)
Definition le_at (l : bytes) (a n : Z) : Z := from_le (takez n (dropz a l)).

(** A positioned read of a file. *)
Definition read_exact_at (file : bytes) (at_ n : Z) : outcome bytes :=
  ok_or (slice file at_ (at_ + n)) (mkError UnexpectedEof "failed to fill whole buffer" []).

(** [Header]. *)
Record Header := mkHeader {
  h_len : Z;
  h_kind : byte;
  h_synced_through : Z;
  h_payload_check : Z;
}.

Definition record_len (h : Header) : Z := HEADER_LEN + h_len h.
Definition proves (h : Header) (file_len : Z) : Z :=
  if Byte.eqb (h_kind h) KIND_CLOSE then file_len else h_synced_through h.

(** The first 17 bytes of a header. *)
Definition header_fields (n : Z) (kind : byte) (synced_through payload_check : Z) : bytes :=
  to_le 4 n ++ [kind] ++ to_le 8 synced_through ++ to_le 4 payload_check.
Definition fields (h : Header) : bytes :=
  header_fields (h_len h) (h_kind h) (h_synced_through h) (h_payload_check h).

Definition sealed_len_ok (kind : byte) (n : Z) : bool :=
  if Byte.eqb kind KIND_CLOSE then n =? CLOSE_PAYLOAD_LEN else CLOSE_PAYLOAD_LEN <? n.

Definition is_kind (b : byte) : bool := Byte.eqb b KIND_GROUP || Byte.eqb b KIND_CLOSE.

(** [iter().position(p)]. *)
Fixpoint position {A} (p : A -> bool) (l : list A) : option Z :=
  match l with
  | [] => None
  | x :: l => if p x then Some 0 else option_map (Z.add 1) (position p l)
  end.

Section WalFrame.
Context `{T : Target} `{X : Xxh3} `{A : Aead}.

(** ** The stamp *)

Definition encode_stamp (nonce : Z) : outcome bytes :=
  head ← wal_stamp WAL_MAGIC FORMAT_V2 0;
  let out := WAL_MAGIC ++ to_le 2 FORMAT_V2 ++ to_le 2 0 ++ to_le 4 head ++ to_le 8 nonce in
  check ← wal_stamp_v2 out;
  Ok (out ++ to_le 4 check).

Definition stamp_nonce (stamp : bytes) : outcome Z :=
  check ← wal_stamp_v2 (takez 20 stamp);
  if negb (le_at stamp 20 4 =? check) then Err (invalid_data "the write-ahead log header is damaged")
  else Ok (le_at stamp 12 8).

(** ** The record header *)

Definition payload_matches (h : Header) (payload : bytes) : bool :=
  wal_group_payload payload =? h_payload_check h.

Definition encode_header (kind : byte) (payload : bytes) (synced_through nonce offset : Z) : bytes :=
  let fields := header_fields (as_u32 (len payload)) kind synced_through (wal_group_payload payload) in
  fields ++ to_le 4 (wal_group_header nonce offset fields).

Definition shape_ok (sealed : bool) (n : Z) (kind : byte) (payload_check : Z) : bool :=
  if sealed then
    (n <=? MAX_RECORD_LEN + CLOSE_PAYLOAD_LEN) && (payload_check =? 0) && sealed_len_ok kind n
  else (n <=? MAX_RECORD_LEN) && (negb (Byte.eqb kind KIND_CLOSE) || (n =? 0)).

Definition decode_header (l : bytes) (nonce offset : Z) (sealed : bool) : option Header :=
  h ← slice l 0 HEADER_LEN;
  kind ← getz h 4;
  if negb (is_kind kind) then None
  else if negb (le_at h 17 4 =? wal_group_header nonce offset (takez 17 h)) then None
  else
    let n := le_at h 0 4 in
    let synced_through := le_at h 5 8 in
    let payload_check := le_at h 13 4 in
    if negb (shape_ok sealed n kind payload_check) || (offset <? synced_through) then None
    else Some (mkHeader n kind synced_through payload_check).

(** ** Sealed stamps and records *)

Definition stamp_aad (stamp : bytes) : bytes :=
  [DOMAIN_WAL; AAD_STAMP] ++ takez AEAD_NONCE_AT stamp.

Definition encode_sealed_stamp (nonce : Z) (s : Sealer) (draw : outcome bytes) : outcome bytes :=
  head ← wal_stamp WAL_MAGIC FORMAT_V2 FLAG_SEALED;
  let out := WAL_MAGIC ++ to_le 2 FORMAT_V2 ++ to_le 2 FLAG_SEALED ++ to_le 4 head ++ to_le 8 nonce
             ++ to_le 4 (sealer_id s) in
  check ← wal_stamp_v2 out;
  let out := out ++ to_le 4 check in
  '(aead_nonce, _, tag) ← seal s draw (stamp_aad out) [];
  Ok (out ++ aead_nonce ++ tag).

Definition stamp_check_holds (stamp : bytes) : outcome bool :=
  if AEAD_NONCE_AT <=? len stamp then
    check ← wal_stamp_v2 (takez CHECK_AT stamp);
    Ok (le_at stamp CHECK_AT 4 =? check)
  else Ok false.

(** The keyring comes back with the key it derived. *)
Definition open_stamp (stamp : bytes) (keyring : option Keyring) : outcome (Z * Sealer) :=
  holds ← stamp_check_holds stamp;
  if negb holds then Err (invalid_data "the write-ahead log header is damaged")
  else
    k ← ok_or keyring (mkError OtherError "KeyProviderRequired" []);
    let id := le_at stamp KEY_ID_AT 4 in
    s ← (sealer k id).2;
    match open s (takez NONCE_LEN (dropz AEAD_NONCE_AT stamp)) (stamp_aad stamp) [] (dropz TAG_AT stamp) with
    | None => Err (mkError InvalidData "the write-ahead log header does not verify under key id" [id])
    | Some _ => Ok (le_at stamp 12 8, s)
    end.

Definition record_aad (nonce offset : Z) (fields : bytes) : bytes :=
  [DOMAIN_WAL; AAD_RECORD] ++ wal_group_header_input nonce offset fields.

(** [buf] holds the operations after [SEALED_PREFIX_LEN] bytes of room. *)
Definition frame_in_place (s : Sealer) (kind : byte) (synced_through nonce offset : Z)
    (aead_nonce buf : bytes) : outcome bytes :=
  if len buf <? SEALED_PREFIX_LEN then
    Err (mkError OtherError "a sealed record was framed without room for its header" [])
  else
    let n := len buf - SEALED_PREFIX_LEN + OVERHEAD in
    if U32_MAX <? n then Err (mkError OtherError "a write-ahead log record is too large to seal" [])
    else
      let fields := header_fields n kind synced_through 0 in
      let check := wal_group_header nonce offset fields in
      '(ct, tag) ← seal_with s aead_nonce (record_aad nonce offset fields) (dropz SEALED_PREFIX_LEN buf);
      Ok (fields ++ to_le 4 check ++ aead_nonce ++ ct ++ tag).

Definition frame_record (s : Sealer) (kind : byte) (payload : bytes) (synced_through nonce offset : Z)
    (draw : outcome bytes) : outcome bytes :=
  aead_nonce ← draw;
  frame_in_place s kind synced_through nonce offset aead_nonce
    (replicate (Z.to_nat SEALED_PREFIX_LEN) Byte.x00 ++ payload).

Definition open_record (s : Sealer) (fields : bytes) (nonce offset : Z) (payload : bytes)
  : option (bytes * (Z * Z)) :=
  open_frame s (record_aad nonce offset fields) payload.

(** ** The scan past a damaged record *)

Fixpoint payload_loop (fuel : nat) (file : bytes) (at_ n buf_len done : Z) (hasher : WalGroupPayloadHasher)
  : outcome WalGroupPayloadHasher :=
  match fuel with
  | O => OutOfFuel
  | S fuel =>
      if done <? n then
        let k := Z.min (n - done) buf_len in
        piece ← read_exact_at file (at_ + done) k;
        payload_loop fuel file at_ n buf_len (done + k) (payload_hasher_update hasher piece)
      else Ok hasher
  end.

Definition payload_verifies (file : bytes) (at_ : Z) (h : Header) : outcome bool :=
  hasher ← payload_loop (S (Z.to_nat (h_len h))) file at_ (h_len h) (Z.min SCAN_CHUNK (h_len h)) 0
             payload_hasher_new;
  Ok (payload_hasher_finish hasher =? h_payload_check h).

Definition sealed_payload_verifies (file : bytes) (at_ : Z) (h : Header) (s : Sealer)
    (nonce offset : Z) : outcome bool :=
  payload ← read_exact_at file at_ (h_len h);
  match open_record s (fields h) nonce offset payload with
  | None => Ok false
  | Some (payload, (a, b)) => ops ← expect (slice payload a b); Ok (entries_are_whole ops)
  end.

Section Scan.
Variables (file : bytes) (nonce end_ damaged_at : Z) (seal : option Sealer).

Definition is_sealed : bool := match seal with Some _ => true | None => false end.

(** The candidates of one chunk read at [start]. *)
Fixpoint scan_chunk (fuel : nat) (chunk : bytes) (start candidates i : Z) : outcome (option Z) :=
  match fuel with
  | O => OutOfFuel
  | S fuel =>
      if i <? candidates then
        window ← expect (slice chunk (i + 4) (candidates + 4));
        match position is_kind window with
        | None => Ok None
        | Some skip =>
            let i := i + skip in
            let offset := start + i in
            let i := i + 1 in
            match decode_header (dropz (i - 1) chunk) nonce offset is_sealed with
            | None => scan_chunk fuel chunk start candidates i
            | Some header =>
                let p := proves header end_ in
                if (p <=? damaged_at) || (end_ <? offset + record_len header)
                then scan_chunk fuel chunk start candidates i
                else
                  let at_ := offset + HEADER_LEN in
                  usable ← match seal with
                           | Some s => sealed_payload_verifies file at_ header s nonce offset
                           | None => payload_verifies file at_ header
                           end;
                  if usable : bool then Ok (Some p) else scan_chunk fuel chunk start candidates i
            end
        end
      else Ok None
  end.

Fixpoint scan_loop (fuel : nat) (chunk : bytes) (start : Z) : outcome (option Z) :=
  match fuel with
  | O => OutOfFuel
  | S fuel =>
      if Z.min (start + HEADER_LEN) U64_MAX <=? end_ then
        let want := Z.min (end_ - start) (len chunk) in
        read ← read_exact_at file start want;
        let chunk := read ++ dropz want chunk in
        let candidates := want - HEADER_LEN + 1 in
        r ← scan_chunk (S (Z.to_nat candidates)) chunk start candidates 0;
        match r with
        | Some p => Ok (Some p)
        | None => scan_loop fuel chunk (start + candidates)
        end
      else Ok None
  end.

Definition proof_past (from : Z) : outcome (option Z) :=
  scan_loop (S (Z.to_nat (end_ - from))) (replicate (Z.to_nat (SCAN_CHUNK + HEADER_LEN - 1)) Byte.x00) from.

(** What the scan is for: the record at offset [o], when it is usable and
    proves a byte past the damage. *)
Definition payload_usable (o : Z) (h : Header) : bool :=
  match slice file (o + HEADER_LEN) (o + HEADER_LEN + h_len h) with
  | None => false
  | Some payload =>
      match seal with
      | None => payload_matches h payload
      | Some s =>
          match open_record s (fields h) nonce o payload with
          | Some (payload, (a, b)) =>
              match slice payload a b with Some ops => entries_are_whole ops | None => false end
          | None => false
          end
      end
  end.

Definition proof_at (o : Z) : option Z :=
  match slice file o (o + HEADER_LEN) with
  | None => None
  | Some l =>
      match decode_header l nonce o is_sealed with
      | Some h =>
          if (proves h end_ <=? damaged_at) || (end_ <? o + record_len h) || negb (payload_usable o h)
          then None else Some (proves h end_)
      | None => None
      end
  end.

End Scan.
End WalFrame.

(** ** Reading fields back *)

(** The value of a 32-bit checksum of parts. *)
Definition parts_value `{Xxh3} (domain : bytes) (parts : list bytes) : Z :=
  as_u32 (xxh3_64 (List.concat (framed domain parts))).

Lemma u32_parts_eq `{Xxh3Laws} domain parts : u32_parts domain parts = Ok (parts_value domain parts).
Proof. unfold u32_parts. by rewrite u64_parts_eq. Qed.
Lemma as_u32_range z : is_u32 (as_u32 z).
Proof. apply Z.mod_pos_bound. lia. Qed.

Definition stamp_value `{Xxh3} (format reserved : Z) : Z :=
  parts_value WAL_STAMP_DOMAIN [WAL_MAGIC; to_le 2 format; to_le 2 reserved].
Definition stamp_v2_value `{Xxh3} (fields : bytes) : Z := parts_value WAL_STAMP_V2_DOMAIN [fields].

Lemma wal_stamp_eq `{Xxh3Laws} format reserved :
  wal_stamp WAL_MAGIC format reserved = Ok (stamp_value format reserved).
Proof. apply u32_parts_eq. Qed.
Lemma wal_stamp_v2_eq `{Xxh3Laws} fields : wal_stamp_v2 fields = Ok (stamp_v2_value fields).
Proof. apply u32_parts_eq. Qed.

Lemma le_at_app pre n z post a k :
  a = len pre -> k = Z.of_nat n -> le_at (pre ++ to_le n z ++ post) a k = z mod 2 ^ (Z.of_nat n * 8).
Proof.
  intros -> ->. unfold le_at. rewrite dropz_app by done. rewrite takez_app by llia. apply from_le_mod.
Qed.

(** The [n]-byte integer [z] sits at [a] in [l]. *)
Ltac field_at pre n z post :=
  match goal with
  | |- context [le_at ?l ?a ?k] =>
      replace (le_at l a k) with (z mod 2 ^ (Z.of_nat n * 8)) by
        (symmetry; replace l with (pre ++ to_le n z ++ post) by (by rewrite <- ?app_assoc);
         apply le_at_app; [llia|reflexivity]);
      rewrite (Z.mod_small z) by (unfold is_u16, is_u32, is_u64 in *; lia)
  end.

Lemma magic_len : len WAL_MAGIC = 4.
Proof. reflexivity. Qed.
#[export] Hint Rewrite magic_len : len.

Lemma header_fields_len n kind s c : len (header_fields n kind s c) = 17.
Proof. unfold header_fields. llia. Qed.
#[export] Hint Rewrite header_fields_len : len.

Lemma header_decodes `{Xxh3} n kind s c nonce offset sealed rest :
  is_u32 n -> is_u64 s -> is_u32 c -> is_kind kind = true -> shape_ok sealed n kind c = true ->
  s <= offset ->
  let fields := header_fields n kind s c in
  decode_header (fields ++ to_le 4 (wal_group_header nonce offset fields) ++ rest) nonce offset sealed =
  Some (mkHeader n kind s c).
Proof.
  intros Hn Hs Hc Hk Hsh Ho fs. unfold decode_header.
  assert (Hf : len fs = 17) by apply header_fields_len. pose proof (as_u32_range) as Hr.
  set (check := wal_group_header nonce offset fs). assert (Hck : is_u32 check) by apply Hr.
  rewrite (slice_at _ [] (fs ++ to_le 4 check) rest) by (rewrite <- ?app_assoc; done || (unfold HEADER_LEN; llia)).
  cbn [mbind option_bind].
  assert (getz (fs ++ to_le 4 check) 4 = Some kind) as ->.
  { unfold fs, header_fields. rewrite <- !app_assoc. apply getz_app_mid. llia. }
  cbn [mbind option_bind]. rewrite Hk. cbn [negb]. rewrite takez_app by done. fold check.
  field_at fs 4%nat check (@nil byte). rewrite Z.eqb_refl. cbn [negb]. unfold fs, header_fields.
  field_at (@nil byte) 4%nat n ([kind] ++ to_le 8 s ++ to_le 4 c ++ to_le 4 check).
  field_at (to_le 4 n ++ [kind]) 8%nat s (to_le 4 c ++ to_le 4 check).
  field_at (to_le 4 n ++ [kind] ++ to_le 8 s) 4%nat c (to_le 4 check).
  rewrite Hsh. destruct (Z.ltb_spec offset s); [lia|done].
Qed.

Lemma decode_header_head `{Xxh3} l h nonce offset sealed :
  slice l 0 HEADER_LEN = Some h -> decode_header l nonce offset sealed = decode_header h nonce offset sealed.
Proof.
  intros Hs. unfold decode_header. rewrite Hs. pose proof (slice_len _ _ _ _ Hs).
  by rewrite (slice_full h) by lia.
Qed.

Lemma le_at_range l a n : 0 <= a -> a + Z.of_nat n <= len l -> 0 <= le_at l a (Z.of_nat n) < 2 ^ (Z.of_nat n * 8).
Proof.
  intros Ha Hl. apply from_le_range. apply len_takez. rewrite len_dropz by lia. lia.
Qed.

(** A header that decodes is within what the writer produces, and its fields
    are the bytes it was read from. *)
Lemma decode_header_inv `{Xxh3} l nonce offset sealed h :
  decode_header l nonce offset sealed = Some h ->
  is_kind (h_kind h) = true /\ shape_ok sealed (h_len h) (h_kind h) (h_payload_check h) = true /\
  0 <= h_synced_through h <= offset /\ is_u64 (h_synced_through h) /\ is_u32 (h_payload_check h) /\
  0 <= h_len h <= MAX_RECORD_LEN + CLOSE_PAYLOAD_LEN /\ getz l 4 = Some (h_kind h) /\ HEADER_LEN <= len l.
Proof.
  unfold decode_header. destruct (slice l 0 HEADER_LEN) as [hb|] eqn:Es; [|done]. cbn [mbind option_bind].
  destruct (getz hb 4) as [kind|] eqn:Ek; [|done]. cbn [mbind option_bind].
  destruct (is_kind kind) eqn:Hk; [|done]. cbn [negb]. destruct (_ =? wal_group_header _ _ _) eqn:E; [|done].
  cbn [negb]. destruct (negb (shape_ok _ _ _ _)) eqn:Hsh; [done|].
  destruct (Z.ltb_spec offset (le_at hb 5 8)); [done|]. cbn [orb]. intros [= <-]. cbn.
  apply negb_false_iff in Hsh. apply slice_Some in Es as (_ & Hl & p & q & -> & Hp & Hlen).
  unfold HEADER_LEN in *. apply len_zero in Hp as ->. cbn [app] in *.
  pose proof (le_at_range hb 5 8 ltac:(lia) ltac:(lia)). pose proof (le_at_range hb 0 4 ltac:(lia) ltac:(lia)).
  pose proof (le_at_range hb 13 4 ltac:(lia) ltac:(lia)).
  change (Z.of_nat 8) with 8 in *. change (Z.of_nat 4) with 4 in *.
  split_and!; try done; try (unfold is_u64, is_u32; lia).
  - unfold shape_ok in Hsh. unfold CLOSE_PAYLOAD_LEN, OVERHEAD, NONCE_LEN, TAG_LEN in *.
    destruct sealed; btests; lia.
  - unfold getz in *. destruct (0 <=? 4); [|done]. by apply lookup_app_l_Some.
Qed.

(** ** The payload check of a record in a file *)

Lemma slice_extend {A} (l : list A) a b c s t :
  slice l a b = Some s -> slice l b c = Some t -> slice l a c = Some (s ++ t).
Proof.
  intros (H1 & H2 & p & q & -> & Hp & Hs)%slice_Some (H3 & H4 & p' & q' & E & Hp' & Ht)%slice_Some.
  rewrite app_assoc in E. apply app_eq_len in E as [<- ->]; [|llia].
  apply (slice_at _ p (s ++ t) q'); [by rewrite <- !app_assoc|llia|llia].
Qed.

Lemma slice_exists {A} (l : list A) a b : 0 <= a <= b -> b <= len l -> exists s, slice l a b = Some s.
Proof.
  intros. destruct (slice l a b) eqn:E; [eauto|]. apply slice_None in E. lia.
Qed.

Lemma payload_loop_spec `{Xxh3Laws} fuel file at_ n buf_len done pieces :
  0 <= at_ -> at_ + n <= len file -> 0 <= done <= n -> (0 < n -> 0 < buf_len) ->
  (Z.to_nat (n - done) < fuel)%nat -> slice file at_ (at_ + done) = Some (List.concat pieces) ->
  exists pieces', slice file at_ (at_ + n) = Some (List.concat pieces') /\
    payload_loop fuel file at_ n buf_len done (fold_left payload_hasher_update pieces payload_hasher_new) =
    Ok (fold_left payload_hasher_update pieces' payload_hasher_new).
Proof.
  intros Hat Hn. revert done pieces. induction fuel as [|fuel IH]; intros done pieces Hd Hb Hf Hs; [lia|].
  cbn [payload_loop]. destruct (Z.ltb_spec done n) as [Hlt|Hge].
  2: { assert (done = n) as -> by lia. eauto. }
  set (k := Z.min (n - done) buf_len). assert (Hk : 0 < k <= n - done) by lia.
  destruct (slice_exists file (at_ + done) (at_ + done + k)) as [piece Hp]; [lia..|].
  unfold read_exact_at. rewrite Hp. run.
  destruct (IH (done + k) (pieces ++ [piece])) as (pieces' & Hs' & E); [lia|done|lia| |].
  { rewrite List.concat_app. cbn. rewrite app_nil_r. rewrite Z.add_assoc. by eapply slice_extend. }
  exists pieces'. split; [done|]. by rewrite fold_left_app in E.
Qed.

Lemma payload_verifies_eq `{Xxh3Laws} file o h payload :
  0 <= o + HEADER_LEN -> 0 <= h_len h ->
  slice file (o + HEADER_LEN) (o + HEADER_LEN + h_len h) = Some payload ->
  payload_verifies file (o + HEADER_LEN) h = Ok (payload_matches h payload).
Proof.
  intros Ho Hl Hs. pose proof Hs as (_ & Hb & _)%slice_Some. unfold payload_verifies.
  destruct (payload_loop_spec (S (Z.to_nat (h_len h))) file (o + HEADER_LEN) (h_len h)
    (Z.min SCAN_CHUNK (h_len h)) 0 []) as (pieces & Hp & E); try (unfold SCAN_CHUNK; lia).
  { rewrite Z.add_0_r. apply (slice_at _ (takez (o + HEADER_LEN) file) [] (dropz (o + HEADER_LEN) file)).
    - by rewrite app_nil_l, takez_dropz.
    - by rewrite len_takez by lia.
    - llia. }
  cbn [fold_left] in E. rewrite E. run. rewrite Hp in Hs. injection Hs as <-. unfold payload_matches.
  unfold payload_hasher_finish, payload_hasher_update, payload_hasher_new. by rewrite xxh3_stream_seeded.
Qed.

Lemma record_usable_eq `{Xxh3Laws} `{AeadLaws} `{Target} file nonce seal o h :
  0 <= o -> 0 <= h_len h -> o + record_len h <= len file ->
  match seal with
  | Some s => sealed_payload_verifies file (o + HEADER_LEN) h s nonce o
  | None => payload_verifies file (o + HEADER_LEN) h
  end = Ok (payload_usable file nonce seal o h).
Proof.
  unfold record_len, payload_usable. intros Ho Hl Hb.
  destruct (slice_exists file (o + HEADER_LEN) (o + HEADER_LEN + h_len h)) as [payload Hp];
    [unfold HEADER_LEN; lia|lia|]. rewrite Hp. destruct seal as [s|].
  - unfold sealed_payload_verifies, read_exact_at. rewrite Hp. run.
    destruct (open_record s _ _ _ _) as [[payload' [a b]]|] eqn:E; [|done].
    apply open_frame_range in E as (E1 & E2 & E3).
    destruct (slice_exists payload' a b) as [ops Hops]; [lia..|]. by rewrite Hops.
  - apply payload_verifies_eq; [unfold HEADER_LEN; lia|done..].
Qed.

(** ** The scan *)

Lemma position_spec {A} (p : A -> bool) l :
  match position p l with
  | Some k => 0 <= k < len l /\ (exists x, getz l k = Some x /\ p x = true) /\
              forall i x, 0 <= i < k -> getz l i = Some x -> p x = false
  | None => forall i x, getz l i = Some x -> p x = false
  end.
Proof.
  induction l as [|y l IH]; cbn [position].
  { intros i x Hx. apply getz_Some_lt in Hx. llia. }
  assert (Hcons : forall i, 0 < i -> getz (y :: l) i = getz l (i - 1)).
  { intros i Hi. unfold getz. destruct (Z.leb_spec 0 i), (Z.leb_spec 0 (i - 1)); try lia.
    replace (Z.to_nat i) with (S (Z.to_nat (i - 1))) by lia. done. }
  destruct (p y) eqn:Ey.
  { split_and!; [llia..| |intros; lia]. exists y. done. }
  assert (H0 : forall i x, i <= 0 -> getz (y :: l) i = Some x -> p x = false).
  { intros i x Hi Hx. pose proof (getz_Some_lt _ _ _ Hx). assert (i = 0) as -> by lia.
    injection Hx as <-. done. }
  destruct (position p l) as [k|]; cbn [option_map].
  - destruct IH as (Hk & (x & Hx & Hpx) & Hbelow). split_and!; [llia..| |].
    + exists x. rewrite Hcons by lia. by replace (1 + k - 1) with k by lia.
    + intros i x' Hi Hx'. destruct (Z.le_gt_cases i 0); [by eapply H0|].
      rewrite Hcons in Hx' by lia. apply (Hbelow (i - 1)); [lia|done].
  - intros i x Hx. destruct (Z.le_gt_cases i 0); [by eapply H0|].
    rewrite Hcons in Hx by lia. by eapply IH.
Qed.

(** The first offset of [[o, o + n)] that proves something. *)
Fixpoint first_proof (prove : Z -> option Z) (n : nat) (o : Z) : option Z :=
  match n with
  | O => None
  | S n => match prove o with Some p => Some p | None => first_proof prove n (o + 1) end
  end.

Lemma first_proof_skip prove k n o :
  (forall o', o <= o' < o + Z.of_nat k -> prove o' = None) ->
  first_proof prove (k + n) o = first_proof prove n (o + Z.of_nat k).
Proof.
  revert o. induction k as [|k IH]; intros o Hn; [by rewrite Z.add_0_r|].
  cbn [Nat.add first_proof]. rewrite Hn by lia. rewrite IH by (intros; apply Hn; lia). f_equal. lia.
Qed.

Lemma first_proof_app prove k n o :
  first_proof prove (k + n) o =
  match first_proof prove k o with Some p => Some p | None => first_proof prove n (o + Z.of_nat k) end.
Proof.
  revert o. induction k as [|k IH]; intros o; cbn [Nat.add first_proof]; [by rewrite Z.add_0_r|].
  destruct (prove o); [done|]. rewrite IH. destruct (first_proof prove k (o + 1)); [done|]. f_equal. lia.
Qed.

Lemma first_proof_spec prove n o :
  match first_proof prove n o with
  | Some p => exists o', o <= o' < o + Z.of_nat n /\ prove o' = Some p /\
                         forall o'', o <= o'' < o' -> prove o'' = None
  | None => forall o', o <= o' < o + Z.of_nat n -> prove o' = None
  end.
Proof.
  revert o. induction n as [|n IH]; intros o; cbn [first_proof]; [intros; lia|].
  destruct (prove o) as [p|] eqn:E.
  { exists o. split_and!; [lia..|done|intros; lia]. }
  specialize (IH (o + 1)). destruct (first_proof prove n (o + 1)).
  - destruct IH as (o' & Ho & Hp & Hb). exists o'. split_and!; [lia..|done|].
    intros o'' Ho''. destruct (Z.eq_dec o'' o) as [->|]; [done|]. apply Hb. lia.
  - intros o' Ho'. destruct (Z.eq_dec o' o) as [->|]; [done|]. apply IH. lia.
Qed.

Section ScanSpec.
Context `{XL : Xxh3Laws} `{AL : AeadLaws} `{T : Target}.
Variables (file : bytes) (nonce end_ damaged : Z) (seal : option Sealer).
Hypothesis Hend : end_ <= len file.
Let prove := proof_at file nonce end_ damaged seal.

(** [chunk] holds the file's [want] bytes at [start]. *)
Definition chunk_of (chunk : bytes) (start want : Z) : Prop :=
  0 <= start /\ start + want <= end_ /\
  exists rest, chunk = takez want (dropz start file) ++ rest /\ len (takez want (dropz start file)) = want.

Lemma chunk_slice chunk start want i n :
  chunk_of chunk start want -> 0 <= i -> 0 <= n -> i + n <= want ->
  slice chunk i (i + n) = slice file (start + i) (start + i + n).
Proof.
  intros (Hs & Hb & rest & -> & Hl) Hi Hn Hin.
  destruct (slice_exists file (start + i) (start + i + n)) as [s Hsl]; [lia..|]. rewrite Hsl.
  apply slice_prefix. apply slice_takez; [|lia].
  apply slice_Some in Hsl as (_ & _ & p & q & -> & Hp & Hq).
  rewrite <- (takez_dropz start p) at 1. rewrite <- app_assoc, dropz_app by (rewrite len_takez; lia).
  apply slice_app; [rewrite len_dropz; lia|lia].
Qed.

Lemma dropz_head (chunk : bytes) i n s :
  0 <= i -> slice chunk i (i + n) = Some s -> slice (dropz i chunk) 0 n = Some s.
Proof.
  intros Hi (_ & _ & p & q & -> & Hp & Hq)%slice_Some. rewrite dropz_app by lia.
  apply slice_app_head. lia.
Qed.

(** An offset of the chunk whose fifth byte is no kind proves nothing. *)
Lemma no_kind_no_proof chunk start want i x :
  chunk_of chunk start want -> 0 <= i -> i + HEADER_LEN <= want ->
  getz chunk (i + 4) = Some x -> is_kind x = false -> prove (start + i) = None.
Proof.
  intros Hc Hi Hw Hx Hk. unfold prove, proof_at. unfold HEADER_LEN in *.
  rewrite <- (chunk_slice chunk start want i 21) by (done || lia).
  destruct (slice chunk i (i + 21)) as [l|] eqn:El; [|done].
  destruct (decode_header l _ _ _) as [h|] eqn:E; [|done]. exfalso.
  apply decode_header_inv in E as (Hk' & _ & _ & _ & _ & _ & Hg & _).
  apply slice_Some in El as (_ & _ & p & q & -> & Hp & Hl).
  assert (getz (p ++ l ++ q) (i + 4) = Some (h_kind h)) as E.
  { unfold getz in *. destruct (Z.leb_spec 0 (i + 4)); [|lia]. destruct (0 <=? 4); [|done].
    replace (Z.to_nat (i + 4)) with (length p + Z.to_nat 4)%nat by (unfold len in *; lia).
    rewrite lookup_app_r by lia. replace (length p + Z.to_nat 4 - length p)%nat with (Z.to_nat 4) by lia.
    by apply lookup_app_l_Some. }
  congruence.
Qed.

(** What the body of the scan does with a candidate offset. *)
Lemma candidate_step chunk start want i (k : outcome (option Z)) :
  chunk_of chunk start want -> 0 <= i -> i + HEADER_LEN <= want ->
  match decode_header (dropz i chunk) nonce (start + i) (is_sealed seal) with
  | None => k
  | Some h =>
      if (proves h end_ <=? damaged) || (end_ <? start + i + record_len h) then k
      else usable ← match seal with
                    | Some s => sealed_payload_verifies file (start + i + HEADER_LEN) h s nonce (start + i)
                    | None => payload_verifies file (start + i + HEADER_LEN) h
                    end;
           if usable : bool then Ok (Some (proves h end_)) else k
  end = match prove (start + i) with Some p => Ok (Some p) | None => k end.
Proof.
  intros Hc Hi Hw. unfold prove, proof_at.
  rewrite <- (chunk_slice chunk start want i HEADER_LEN) by (done || unfold HEADER_LEN; lia).
  pose proof Hc as (Hs & Hb & _).
  destruct (slice_exists chunk i (i + HEADER_LEN)) as [l Hl].
  { unfold HEADER_LEN; lia. }
  { destruct Hc as (_ & _ & rest & -> & Hlen). llia. }
  rewrite Hl. rewrite (decode_header_head _ l) by (by apply dropz_head).
  destruct (decode_header l _ _ _) as [h|] eqn:E; [|done].
  destruct (proves h end_ <=? damaged); [done|]. cbn [orb].
  destruct (Z.ltb_spec end_ (start + i + record_len h)); [done|]. cbn [orb].
  apply decode_header_inv in E as (_ & _ & _ & _ & _ & Hn & _).
  rewrite record_usable_eq by lia. run. by destruct (payload_usable _ _ _ _ _).
Qed.

Lemma scan_chunk_spec chunk start want candidates fuel i :
  chunk_of chunk start want -> candidates = want - HEADER_LEN + 1 -> 0 <= i ->
  (Z.to_nat (candidates - i) < fuel)%nat ->
  scan_chunk file nonce end_ damaged seal fuel chunk start candidates i =
  Ok (first_proof prove (Z.to_nat (candidates - i)) (start + i)).
Proof.
  intros Hc Hcand. revert i. induction fuel as [|fuel IH]; intros i Hi Hf; [lia|]. cbn [scan_chunk].
  destruct (Z.ltb_spec i candidates) as [Hlt|Hge].
  2: { by replace (Z.to_nat (candidates - i)) with O by lia. }
  assert (Hlen : want <= len chunk) by (destruct Hc as (_ & _ & rest & -> & Hl); llia).
  unfold HEADER_LEN in Hcand.
  destruct (slice_exists chunk (i + 4) (candidates + 4)) as [window Hwin]; [lia..|]. rewrite Hwin. run.
  assert (Hget : forall j x, getz window j = Some x -> getz chunk (i + 4 + j) = Some x).
  { apply slice_Some in Hwin as (_ & _ & p & q & -> & Hp & _). intros j x Hj.
    pose proof (getz_Some_lt _ _ _ Hj). unfold getz, len in *.
    destruct (Z.leb_spec 0 (i + 4 + j)), (Z.leb_spec 0 j); try lia.
    rewrite lookup_app_r by lia. replace (Z.to_nat (i + 4 + j) - length p)%nat with (Z.to_nat j) by lia.
    by apply lookup_app_l_Some. }
  assert (Hnone : forall j x, getz window j = Some x -> is_kind x = false -> prove (start + (i + j)) = None).
  { intros j x Hj Hx. pose proof (getz_Some_lt _ _ _ Hj). pose proof (slice_len _ _ _ _ Hwin).
    apply (no_kind_no_proof chunk start want (i + j) x); [done|lia|unfold HEADER_LEN; lia| |done].
    apply Hget in Hj. by replace (i + j + 4) with (i + 4 + j) by lia. }
  pose proof (slice_len _ _ _ _ Hwin) as Hwl. pose proof (position_spec is_kind window) as Hpos.
  destruct (position is_kind window) as [skip|].
  - destruct Hpos as (Hsk & _ & Hbelow). replace (i + skip + 1 - 1) with (i + skip) by lia.
    cbv zeta. rewrite (candidate_step chunk start want) by (done || unfold HEADER_LEN; lia).
    replace (Z.to_nat (candidates - i)) with (Z.to_nat skip + S (Z.to_nat (candidates - (i + skip + 1))))%nat by lia.
    rewrite first_proof_skip.
    + rewrite Z2Nat.id by lia. cbn [first_proof]. rewrite Z.add_assoc. destruct (prove (start + i + skip)); [done|].
      rewrite IH by lia. do 2 f_equal. lia.
    + intros o' Ho'. destruct (getz_is_Some window (o' - start - i)) as [x Hx]; [lia|].
      replace o' with (start + (i + (o' - start - i))) by lia. apply (Hnone _ x); [done|].
      apply (Hbelow (o' - start - i)); [lia|done].
  - rewrite <- (Nat.add_0_r (Z.to_nat (candidates - i))). rewrite first_proof_skip; [done|].
    intros o' Ho'. destruct (getz_is_Some window (o' - start - i)) as [x Hx]; [lia|].
    replace o' with (start + (i + (o' - start - i))) by lia. apply (Hnone _ x); [done|]. by eapply Hpos.
Qed.

Lemma scan_loop_spec fuel chunk start :
  end_ < U64_MAX -> len chunk = SCAN_CHUNK + HEADER_LEN - 1 -> 0 <= start ->
  (Z.to_nat (end_ - start) < fuel)%nat ->
  scan_loop file nonce end_ damaged seal fuel chunk start =
  Ok (first_proof prove (Z.to_nat (end_ - start - HEADER_LEN + 1)) start).
Proof.
  intros Hu. revert chunk start. induction fuel as [|fuel IH]; intros chunk start Hch Hs Hf; [lia|].
  cbn [scan_loop]. unfold U64_MAX, HEADER_LEN, SCAN_CHUNK in *.
  destruct (Z.leb_spec (Z.min (start + 21) (2 ^ 64 - 1)) end_) as [Hle|Hgt].
  2: { by replace (Z.to_nat (end_ - start - 21 + 1)) with O by lia. }
  assert (start + 21 <= end_) by lia. set (want := Z.min (end_ - start) (len chunk)).
  unfold read_exact_at. destruct (slice_exists file start (start + want)) as [read Hr]; [lia..|].
  rewrite Hr. run. pose proof (slice_len _ _ _ _ Hr) as Hrl.
  assert (Hread : read = takez want (dropz start file)).
  { apply slice_Some in Hr as (_ & _ & p & q & -> & Hp & _). rewrite dropz_app by lia.
    by rewrite takez_app by lia. }
  rewrite (scan_chunk_spec _ start want); [|split_and!|done|lia|lia]; [|lia..|].
  2: { exists (dropz want chunk). rewrite <- Hread. split; [done|lia]. }
  run. rewrite Z.add_0_r, Z.sub_0_r.
  replace (Z.to_nat (end_ - start - 21 + 1)) with
    (Z.to_nat (want - 21 + 1) + Z.to_nat (end_ - (start + (want - 21 + 1)) - 21 + 1))%nat by lia.
  rewrite first_proof_app, Z2Nat.id by lia. destruct (first_proof prove _ start); [done|].
  apply IH; [rewrite len_app, len_dropz by lia; lia|lia|lia].
Qed.

End ScanSpec.

(** ** Records, plain and sealed *)

(** The bytes [Wal::write_record] hands to the file for one record. *)
Definition record_bytes `{X : Xxh3} `{A : Aead} (seal : option Sealer) (kind : byte) (payload : bytes)
    (synced_through nonce offset : Z) (draw : outcome bytes) : outcome bytes :=
  match seal with
  | Some s => frame_record s kind payload synced_through nonce offset draw
  | None => Ok (encode_header kind payload synced_through nonce offset ++ payload)
  end.

(** The operations of a record whose header is [h]: what the check, or the
    tag, lets through. *)
Definition operations `{X : Xxh3} `{A : Aead} (seal : option Sealer) (h : Header) (nonce offset : Z)
    (payload : bytes) : option bytes :=
  match seal with
  | Some s =>
      match open_record s (fields h) nonce offset payload with
      | Some (payload, (a, b)) => slice payload a b
      | None => None
      end
  | None => if payload_matches h payload then Some payload else None
  end.

(** What a writer frames: a group with operations in it, or CLOSE with none. *)
Definition record_shape (kind : byte) (payload : bytes) : Prop :=
  (kind = KIND_GROUP /\ payload <> [] /\ len payload <= MAX_RECORD_LEN) \/ (kind = KIND_CLOSE /\ payload = []).

Lemma nonempty_len {A} (l : list A) : l <> [] -> 1 <= len l.
Proof. destruct l; [done|]. intros _. llia. Qed.

Lemma record_shape_spec kind payload :
  record_shape kind payload ->
  is_kind kind = true /\ len payload <= MAX_RECORD_LEN /\
  (forall c, shape_ok false (len payload) kind c = true) /\ shape_ok true (len payload + OVERHEAD) kind 0 = true.
Proof.
  intros Hs. unfold shape_ok, sealed_len_ok, CLOSE_PAYLOAD_LEN, OVERHEAD, NONCE_LEN, TAG_LEN.
  assert (HM : MAX_RECORD_LEN = 1073741824) by reflexivity. rewrite HM.
  destruct Hs as [(-> & Hn & Hl)|(-> & ->)].
  - apply nonempty_len in Hn. cbn [Byte.eqb KIND_GROUP KIND_CLOSE]. split_and!; [done|lia|..].
    + intros _. change (Byte.eqb KIND_GROUP KIND_CLOSE) with false. cbn [negb orb]. rewrite andb_true_r.
      apply Z.leb_le. lia.
    + change (Byte.eqb KIND_GROUP KIND_CLOSE) with false. rewrite !andb_true_iff. lia.
  - by split_and!.
Qed.

(** [rec], at [offset] and followed by [rest], is the record a reader takes
    for [kind], [s] and [payload]. *)
Definition reads_as `{X : Xxh3} `{A : Aead} (seal : option Sealer) (nonce offset : Z) (rec rest : bytes)
    (kind : byte) (s : Z) (payload : bytes) : Prop :=
  exists h body, decode_header (rec ++ rest) nonce offset (is_sealed seal) = Some h /\
    h_kind h = kind /\ h_synced_through h = s /\ len body = h_len h /\
    slice rec 0 HEADER_LEN = Some (takez HEADER_LEN rec) /\ dropz HEADER_LEN rec = body /\
    len rec = record_len h /\ operations seal h nonce offset body = Some payload.

Lemma reads_as_fields `{Xxh3Laws} `{AeadLaws} seal nonce offset n kind s c body rest payload :
  is_u32 n -> is_u32 c -> is_u64 s -> s <= offset -> len body = n -> is_kind kind = true ->
  shape_ok (is_sealed seal) n kind c = true ->
  operations seal (mkHeader n kind s c) nonce offset body = Some payload ->
  let fields := header_fields n kind s c in
  reads_as seal nonce offset (fields ++ to_le 4 (wal_group_header nonce offset fields) ++ body) rest
    kind s payload.
Proof.
  intros Hn Hc Hs Hso Hb Hk Hshape Hop fs. exists (mkHeader n kind s c), body.
  rewrite <- !app_assoc. unfold fs. rewrite header_decodes by (done || lia).
  unfold record_len, HEADER_LEN. cbn.
  rewrite !(app_assoc (header_fields n kind s c)), dropz_app, takez_app, slice_app_head by llia.
  unfold is_u32 in Hn. split_and!; try done; llia.
Qed.

Lemma record_reads_as `{Xxh3Laws} `{AeadLaws} seal kind payload s nonce offset draw rec rest :
  record_shape kind payload -> 0 <= s <= offset -> is_u64 s ->
  (forall an, draw = Ok an -> len an = NONCE_LEN) ->
  record_bytes seal kind payload s nonce offset draw = Ok rec ->
  reads_as seal nonce offset rec rest kind s payload.
Proof.
  intros Hsh Hs Hsu Hd E. destruct (record_shape_spec _ _ Hsh) as (Hk & Hl & Hp & Hse).
  assert (HM : MAX_RECORD_LEN = 1073741824) by reflexivity. pose proof (len_nonneg payload).
  destruct seal as [sl|]; cbn [record_bytes] in E.
  - unfold frame_record in E. destruct draw as [an| | |]; try done. cbn [mbind outcome_bind] in E.
    specialize (Hd _ eq_refl). unfold frame_in_place in E. rewrite len_app, len_replicate in E.
    unfold SEALED_PREFIX_LEN, OVERHEAD, HEADER_LEN, NONCE_LEN, TAG_LEN, U32_MAX in *.
    destruct (Z.ltb_spec (Z.of_nat (Z.to_nat (21 + 12)) + len payload) (21 + 12)); [lia|].
    replace (Z.of_nat (Z.to_nat (21 + 12)) + len payload - (21 + 12) + (12 + 16)) with (len payload + 28) in E by lia.
    destruct (Z.ltb_spec (2 ^ 32 - 1) (len payload + 28)); [lia|].
    rewrite dropz_app in E by (rewrite len_replicate; lia). unfold seal_with in E.
    set (fs := header_fields (len payload + 28) kind s 0) in *.
    destruct (encrypt (sealer_cipher sl) an (record_aad nonce offset fs) payload) as [[ct tag]|] eqn:Ee;
      cbn [mbind outcome_bind ok_or] in E; [|discriminate E]. apply Ok_inj in E as <-.
    destruct (encrypt_lens _ _ _ _ _ _ Ee) as [Hct Htag]. unfold TAG_LEN in Htag.
    apply reads_as_fields; try done; [unfold is_u32; lia|lia|llia|].
    cbn [operations]. unfold open_record. rewrite (open_frame_sealed _ _ _ payload ct tag); [|done|done].
    by apply slice_app.
  - apply Ok_inj in E as <-. unfold encode_header. rewrite as_u32_small by (unfold is_u32; lia).
    rewrite <- app_assoc. apply reads_as_fields; try done; [unfold is_u32; lia|apply as_u32_range|lia|].
    cbn [operations]. unfold payload_matches. cbn. by rewrite Z.eqb_refl.
Qed.

(** ** Properties *)

(** C29: a record of the writer, plain or sealed, reads back at its offset of its
    log, whatever follows it: the header decodes to the kind and the
    [synced_through] written, the record's length is the bytes it takes, and
    its payload gives back exactly the operations. *)
Theorem record_reads_back `{Xxh3Laws} `{AeadLaws} seal kind payload s nonce offset aead_nonce rec rest :
  record_shape kind payload -> 0 <= s <= offset -> is_u64 s -> len aead_nonce = NONCE_LEN ->
  record_bytes seal kind payload s nonce offset (Ok aead_nonce) = Ok rec ->
  exists h body, decode_header (rec ++ rest) nonce offset (is_sealed seal) = Some h /\
    h_kind h = kind /\ h_synced_through h = s /\ len rec = record_len h /\
    slice rec HEADER_LEN (record_len h) = Some body /\ operations seal h nonce offset body = Some payload.
Proof.
  intros Hsh Hs Hsu Hd E.
  destruct (record_reads_as seal kind payload s nonce offset (Ok aead_nonce) rec rest)
    as (h & body & E1 & E2 & E3 & E4 & E5 & E6 & E7 & E8); try done.
  { by intros an [= <-]. }
  exists h, body. split_and!; try done. unfold record_len in *.
  apply (slice_at _ (takez HEADER_LEN rec) body []).
  - by rewrite app_nil_r, <- E6, takez_dropz.
  - rewrite len_takez; [done|]. apply slice_Some in E5. lia.
  - lia.
Qed.

Lemma record_reads_back_witness :
  exists h body, decode_header (X := toy_xxh3) (fields (mkHeader 4 KIND_GROUP 24
      (wal_group_payload (X := toy_xxh3) (str "data"))) ++ to_le 4 (wal_group_header (X := toy_xxh3) 7 40
      (fields (mkHeader 4 KIND_GROUP 24 (wal_group_payload (X := toy_xxh3) (str "data"))))) ++ str "data" ++ [])
      7 40 false = Some h /\ h_kind h = KIND_GROUP /\ h_synced_through h = 24 /\ 25 = record_len h /\
    body = str "data" /\ operations (X := toy_xxh3) (A := toy_aead) None h 7 40 body = Some (str "data").
Proof.
  destruct (@record_reads_back toy_xxh3 toy_xxh3_laws toy_aead toy_aead_laws None KIND_GROUP (str "data") 24
    7 40 (replicate 12 Byte.x00) _ [] ltac:(left; split_and!; [done|done|vm_compute; congruence]) ltac:(lia)
    ltac:(unfold is_u64; lia) eq_refl eq_refl) as (h & body & E1 & E2 & E3 & E4 & E5 & E6).
  exists h, body. split_and!; [exact E1|exact E2|exact E3|exact E4| |exact E6].
  rewrite <- E4 in E5. vm_compute in E5. injection E5 as <-. reflexivity.
Defined.

Lemma proof_at_end `{Xxh3} `{Aead} `{Target} file nonce end_ damaged seal o :
  end_ < o + HEADER_LEN -> proof_at file nonce end_ damaged seal o = None.
Proof.
  intros Ho. unfold proof_at. destruct (slice file o (o + HEADER_LEN)) as [l|]; [|done].
  destruct (decode_header l _ _ _) as [h|] eqn:E; [|done].
  apply decode_header_inv in E as (_ & _ & _ & _ & _ & Hn & _). unfold record_len.
  destruct (Z.ltb_spec end_ (o + (HEADER_LEN + h_len h))); [|lia]. by rewrite orb_true_r.
Qed.

Lemma proof_past_first `{Xxh3Laws} `{AeadLaws} `{Target} file nonce end_ damaged seal from :
  0 <= from -> end_ <= len file -> end_ < U64_MAX ->
  exists r, proof_past file nonce end_ damaged seal from = Ok r /\
    match r with
    | Some p => exists o, from <= o /\ proof_at file nonce end_ damaged seal o = Some p /\
                  forall o', from <= o' < o -> proof_at file nonce end_ damaged seal o' = None
    | None => forall o, from <= o -> proof_at file nonce end_ damaged seal o = None
    end.
Proof.
  intros Hf He Hu. eexists. split.
  { unfold proof_past. rewrite scan_loop_spec; [reflexivity|done|done| |done|lia].
    rewrite len_replicate, Z2Nat.id; [done|]. unfold SCAN_CHUNK, HEADER_LEN. lia. }
  set (n := Z.to_nat _). pose proof (first_proof_spec (proof_at file nonce end_ damaged seal) n from) as Hs.
  destruct (first_proof _ n from) as [p|].
  - destruct Hs as (o & Ho & Hp & Hb). exists o. split_and!; [lia|done|done].
  - intros o Ho. destruct (Z.lt_ge_cases o (from + Z.of_nat n)); [by apply Hs|].
    apply proof_at_end. lia.
Qed.

(** The scan past a damaged record is exact. It reads the file in chunks
    and hashes almost nothing, yet answers what testing every single offset
    would: the first usable record, from [from] on, that proves a byte past the
    damage, and nothing exactly when no offset of the file holds one. *)
Theorem proof_past_exact `{Xxh3Laws} `{AeadLaws} `{Target} file nonce end_ damaged seal from :
  0 <= from -> end_ <= len file -> end_ < U64_MAX ->
  exists r, proof_past file nonce end_ damaged seal from = Ok r /\
    match r with
    | Some p => exists o, from <= o /\ proof_at file nonce end_ damaged seal o = Some p /\
                  forall o', from <= o' < o -> proof_at file nonce end_ damaged seal o' = None
    | None => forall o, from <= o -> proof_at file nonce end_ damaged seal o = None
    end.
Proof. apply proof_past_first. Qed.

(** Five bytes of junk, then CLOSE. *)
Definition junk_then_close : bytes := str "?????" ++ encode_header (X := toy_xxh3) KIND_CLOSE [] 0 7 5.

Lemma proof_past_exact_witness :
  exists o, 1 <= o /\
    proof_at (X := toy_xxh3) (A := toy_aead) (T := target64) junk_then_close 7 26 0 None o = Some 26.
Proof.
  destruct (@proof_past_exact toy_xxh3 toy_xxh3_laws toy_aead toy_aead_laws target64 junk_then_close 7 26 0
    None 1 ltac:(lia) ltac:(vm_compute; congruence) ltac:(reflexivity)) as (r & E & Hr).
  assert (Ev : proof_past (X := toy_xxh3) (A := toy_aead) (T := target64) junk_then_close 7 26 0 None 1 =
    Ok (Some 26)) by (vm_compute; reflexivity).
  rewrite Ev in E. apply Ok_inj in E. subst r. destruct Hr as (o & Ho & Hp & _). exists o. split; [exact Ho|exact Hp].
Defined.

Lemma open_sealed_stamp `{Xxh3Laws} `{AeadLaws} nonce s k raw aead_nonce stamp :
  is_u64 nonce -> is_u32 (sealer_id s) -> len aead_nonce = NONCE_LEN -> keyring_ok k ->
  provider_key k (sealer_id s) = Some raw -> sealer_cipher s = cipher_new raw ->
  encode_sealed_stamp nonce s (Ok aead_nonce) = Ok stamp ->
  len stamp = SEALED_STAMP_LEN /\ open_stamp stamp (Some k) = Ok (nonce, s) /\
  open_stamp stamp None = Err (mkError OtherError "KeyProviderRequired" []).
Proof.
  intros Hn Hid Ha Hk Hraw Hc E. unfold encode_sealed_stamp in E. rewrite wal_stamp_eq in E.
  cbn [mbind outcome_bind] in E. rewrite wal_stamp_v2_eq in E. cbn [mbind outcome_bind] in E.
  set (hd := WAL_MAGIC ++ to_le 2 FORMAT_V2 ++ to_le 2 FLAG_SEALED ++ to_le 4 (stamp_value FORMAT_V2 FLAG_SEALED)) in *.
  assert (Hhd : len hd = 12) by (unfold hd; llia).
  set (pre := WAL_MAGIC ++ _) in E. assert (Epre : pre = hd ++ to_le 8 nonce ++ to_le 4 (sealer_id s))
    by (unfold pre, hd; by rewrite <- !app_assoc).
  assert (Hpre : len pre = 24) by (rewrite Epre; llia). clearbody pre hd.
  set (ck := stamp_v2_value pre) in *. assert (Hck : is_u32 ck) by apply as_u32_range.
  unfold seal, seal_with in E. cbn [mbind outcome_bind] in E.
  set (aad := stamp_aad (pre ++ to_le 4 ck)) in *.
  destruct (encrypt (sealer_cipher s) aead_nonce aad []) as [[ct tag]|] eqn:Ee; [|discriminate E].
  cbn [mbind outcome_bind ok_or] in E. apply Ok_inj in E. subst stamp. unfold NONCE_LEN in Ha.
  destruct (encrypt_lens _ _ _ _ _ _ Ee) as [Hct Htag]. unfold TAG_LEN in Htag. apply len_zero in Hct as ->.
  split; [unfold SEALED_STAMP_LEN; llia|].
  assert (Hholds : stamp_check_holds ((pre ++ to_le 4 ck) ++ aead_nonce ++ tag) = Ok true).
  { unfold stamp_check_holds, AEAD_NONCE_AT, CHECK_AT. ztest. rewrite <- app_assoc, takez_app by done.
    rewrite wal_stamp_v2_eq. run. fold ck.
    field_at pre 4%nat ck (aead_nonce ++ tag). by rewrite Z.eqb_refl. }
  unfold open_stamp. rewrite Hholds. run. split; [|done]. unfold KEY_ID_AT, TAG_AT, AEAD_NONCE_AT, NONCE_LEN.
  rewrite Epre. field_at (hd ++ to_le 8 nonce) 4%nat (sealer_id s) (to_le 4 ck ++ aead_nonce ++ tag).
  destruct (sealer_spec k (sealer_id s) Hk) as [-> _]. unfold fresh_sealer. rewrite Hraw. run.
  rewrite <- Epre. rewrite dropz_app by llia. rewrite takez_app by done.
  assert (Eaad : stamp_aad ((pre ++ to_le 4 ck) ++ aead_nonce ++ tag) = aad).
  { unfold aad, stamp_aad, AEAD_NONCE_AT. rewrite takez_app, (takez_all 28 (pre ++ to_le 4 ck)) by llia. done. }
  rewrite Eaad, (app_assoc _ aead_nonce), dropz_app by llia. unfold open. cbn [sealer_cipher]. rewrite <- Hc.
  rewrite (decrypt_encrypt _ _ _ _ _ _ Ee). rewrite Epre.
  field_at hd 8%nat nonce (to_le 4 (sealer_id s) ++ to_le 4 ck ++ aead_nonce ++ tag).
  by rewrite Hc; destruct s; cbn in *; subst.
Qed.

(** A sealed stamp opens under the key it names to the nonce it was written
    with, and only through a keyring: without one the open is refused with the
    key-provider error, never read as an empty log. *)
Theorem sealed_stamp_opens `{Xxh3Laws} `{AeadLaws} nonce s k raw aead_nonce stamp :
  is_u64 nonce -> is_u32 (sealer_id s) -> len aead_nonce = NONCE_LEN -> keyring_ok k ->
  provider_key k (sealer_id s) = Some raw -> sealer_cipher s = cipher_new raw ->
  encode_sealed_stamp nonce s (Ok aead_nonce) = Ok stamp ->
  len stamp = SEALED_STAMP_LEN /\ open_stamp stamp (Some k) = Ok (nonce, s) /\
  open_stamp stamp None = Err (mkError OtherError "KeyProviderRequired" []).
Proof. apply open_sealed_stamp. Qed.

Definition toy_stamp : outcome bytes :=
  encode_sealed_stamp (X := toy_xxh3) (A := toy_aead) 7 toy_sealer (Ok (replicate 12 Byte.x00)).

Lemma sealed_stamp_opens_witness :
  exists stamp, toy_stamp = Ok stamp /\
    open_stamp (X := toy_xxh3) (A := toy_aead) stamp (Some toy_keys) = Ok (7, toy_sealer).
Proof.
  destruct toy_stamp as [stamp| | |] eqn:E; [|vm_compute in E; discriminate E..]. exists stamp. split; [reflexivity|].
  exact (proj1 (proj2 (@sealed_stamp_opens toy_xxh3 toy_xxh3_laws toy_aead toy_aead_laws 7 toy_sealer
    toy_keys (str "key") (replicate 12 Byte.x00) stamp ltac:(unfold is_u64; lia)
    ltac:(unfold is_u32, toy_sealer; cbn; lia)
    eq_refl ltac:(by intros ? ? ?) eq_refl eq_refl E))).
Defined.
