(* ===== verification/WalStamp.v ===== *)
(** * What a log's first bytes say

    Models the part of [src/src/engine/wal.rs] that reads a stamp:
    [validate_wal_stamp], which names the format; [stamp_was_written], which
    tells a stamp that rotted from one a crash never finished; and
    [TailVerdict].

    Shown here: a stamp the writer produced, plain or sealed, names format 2 and
    its flags; and a written stamp whose magic alone was damaged is recognised
    as one that was written, whatever its magic became. *)

From S2P Require Import Prelude Checksum Seal WalCodec WalFrame.

Definition WAL_STAMP_LEN : Z := 12.

(** [TailVerdict]. *)
Record TailVerdict := mkTail { tail_offset : Z; discarded_bytes : Z }.

(** [TailVerdict::discarded]. *)
Definition tail_discarded (l : bytes) (pos : Z) : TailVerdict := mkTail pos (len l - pos).

Section WalStamp.
Context `{X : Xxh3}.

Definition validate_wal_stamp (l : bytes) : outcome (option Z) :=
  if (len l <? WAL_STAMP_LEN) || negb (bytes_eqb (takez 4 l) WAL_MAGIC) then Ok None
  else
    let format := le_at l 4 2 in
    let reserved := le_at l 6 2 in
    check ← wal_stamp WAL_MAGIC format reserved;
    if negb (le_at l 8 4 =? check) then Err (invalid_data "the write-ahead log header is damaged")
    else if (format =? 0) || (FORMAT_V2 <? format) then
      Err (mkError InvalidData "the write-ahead log is in a format this version cannot read" [format])
    else Ok (Some format).

(** [fixed] is the head with the magic put back, padded with zeros to a
    stamp. *)
Definition stamp_was_written (head : bytes) : outcome bool :=
  if (len head <? WAL_STAMP_LEN) || bytes_eqb (takez 4 head) WAL_MAGIC then Ok false
  else
    let n := Z.min (len head) STAMP_LEN in
    let fixed := WAL_MAGIC ++ dropz 4 (takez n head) ++ replicate (Z.to_nat (STAMP_LEN - n)) Byte.x00 in
    check ← wal_stamp WAL_MAGIC (le_at fixed 4 2) (le_at fixed 6 2);
    if le_at fixed 8 4 =? check then Ok true
    else
      holds ← stamp_check_holds (WAL_MAGIC ++ dropz 4 head);
      if holds : bool then Ok true
      else if len head <? STAMP_LEN then Ok false
      else
        match stamp_nonce fixed with
        | Ok _ => Ok true
        | Err _ =>
            Ok (match decode_header (dropz STAMP_LEN head) (le_at fixed 12 8) STAMP_LEN false with
                | Some _ => true
                | None => false
                end)
        | Panic => Panic
        | OutOfFuel => OutOfFuel
        end.

End WalStamp.

(** ** Lemmas *)

(** The twelve bytes every stamp begins with. *)
Definition stamp_head `{Xxh3} (format reserved : Z) : bytes :=
  WAL_MAGIC ++ to_le 2 format ++ to_le 2 reserved ++ to_le 4 (stamp_value format reserved).

Lemma stamp_head_len `{Xxh3} format reserved : len (stamp_head format reserved) = 12.
Proof. unfold stamp_head. llia. Qed.
#[export] Hint Rewrite @stamp_head_len : len.

Lemma stamp_head_fields `{Xxh3} format reserved rest :
  is_u16 format -> is_u16 reserved ->
  let l := stamp_head format reserved ++ rest in
  le_at l 4 2 = format /\ le_at l 6 2 = reserved /\ le_at l 8 4 = stamp_value format reserved /\
  takez 4 l = WAL_MAGIC.
Proof.
  intros Hf Hr l. unfold l, stamp_head. assert (Hv : is_u32 (stamp_value format reserved)) by apply as_u32_range.
  set (v := stamp_value format reserved) in *. clearbody v. rewrite <- !app_assoc.
  field_at WAL_MAGIC 2%nat format (to_le 2 reserved ++ to_le 4 v ++ rest).
  field_at (WAL_MAGIC ++ to_le 2 format) 2%nat reserved (to_le 4 v ++ rest).
  field_at (WAL_MAGIC ++ to_le 2 format ++ to_le 2 reserved) 4%nat v rest.
  by split_and!.
Qed.

Lemma bytes_eqb_true a b : bytes_eqb a b = true <-> a = b.
Proof. unfold bytes_eqb. apply bool_decide_eq_true. Qed.
Lemma bytes_eqb_refl a : bytes_eqb a a = true.
Proof. by apply bytes_eqb_true. Qed.

Lemma validate_head `{Xxh3Laws} format reserved rest :
  is_u16 reserved -> format = 1 \/ format = 2 ->
  validate_wal_stamp (stamp_head format reserved ++ rest) = Ok (Some format).
Proof.
  intros Hr Hf. unfold validate_wal_stamp, WAL_STAMP_LEN, FORMAT_V2. ztest. cbn [orb].
  destruct (stamp_head_fields format reserved rest) as (-> & -> & -> & ->); [unfold is_u16; lia|done|].
  rewrite bytes_eqb_refl. cbn [negb]. rewrite wal_stamp_eq. run. rewrite Z.eqb_refl. cbn [negb].
  by destruct Hf as [-> | ->].
Qed.

Lemma encode_stamp_eq `{Xxh3Laws} nonce :
  encode_stamp nonce = Ok (stamp_head FORMAT_V2 0 ++ to_le 8 nonce ++
    to_le 4 (stamp_v2_value (stamp_head FORMAT_V2 0 ++ to_le 8 nonce))).
Proof.
  unfold encode_stamp. rewrite wal_stamp_eq. run. rewrite wal_stamp_v2_eq. run. unfold stamp_head.
  by rewrite <- !app_assoc.
Qed.

Lemma stamp_nonce_encoded `{Xxh3Laws} nonce stamp :
  is_u64 nonce -> encode_stamp nonce = Ok stamp -> len stamp = STAMP_LEN /\ stamp_nonce stamp = Ok nonce.
Proof.
  intros Hn. rewrite encode_stamp_eq. set (hd := stamp_head FORMAT_V2 0).
  assert (Hhd : len hd = 12) by apply stamp_head_len. clearbody hd.
  set (ck := stamp_v2_value (hd ++ to_le 8 nonce)). assert (Hck : is_u32 ck) by apply as_u32_range.
  intros E%Ok_inj. subst stamp. split; [unfold STAMP_LEN; llia|]. unfold stamp_nonce.
  rewrite (app_assoc hd), takez_app by llia. rewrite wal_stamp_v2_eq. run. fold ck.
  field_at (hd ++ to_le 8 nonce) 4%nat ck (@nil byte). rewrite Z.eqb_refl. cbn [negb].
  by field_at hd 8%nat nonce (to_le 4 ck).
Qed.

(** Both stamps begin with the common head. *)
Lemma sealed_stamp_head `{Xxh3Laws} `{Aead} nonce s draw stamp :
  encode_sealed_stamp nonce s draw = Ok stamp -> exists rest, stamp = stamp_head FORMAT_V2 FLAG_SEALED ++ rest.
Proof.
  unfold encode_sealed_stamp. rewrite wal_stamp_eq. run. rewrite wal_stamp_v2_eq. run.
  intros E. apply bind_Ok in E as ([[an ct] tag] & _ & E%Ok_inj). subst stamp. eexists. unfold stamp_head.
  by rewrite <- !app_assoc.
Qed.

Lemma rotted_head_written `{Xxh3Laws} magic format reserved rest :
  is_u16 format -> is_u16 reserved -> len magic = 4 -> magic <> WAL_MAGIC ->
  stamp_was_written (magic ++ dropz 4 (stamp_head format reserved) ++ rest) = Ok true.
Proof.
  intros Hf Hr Hm Hne. unfold stamp_was_written, WAL_STAMP_LEN.
  set (tl := dropz 4 (stamp_head format reserved)).
  assert (Htl : len tl = 8) by (unfold tl; rewrite len_dropz; llia).
  assert (Ehd : WAL_MAGIC ++ tl = stamp_head format reserved) by (unfold tl, stamp_head; by rewrite dropz_app).
  assert (Hl : len (magic ++ tl ++ rest) = 12 + len rest) by llia. ztest. cbn [orb].
  rewrite takez_app by done. destruct (bytes_eqb magic WAL_MAGIC) eqn:E; [by apply bytes_eqb_true in E|].
  set (n := Z.min _ STAMP_LEN). assert (Hn : 12 <= n <= len (magic ++ tl ++ rest)) by (unfold n, STAMP_LEN; llia).
  clearbody n.
  assert (exists rest', dropz 4 (takez n (magic ++ tl ++ rest)) = tl ++ rest') as [rest' ->].
  { exists (takez (n - 12) rest). rewrite (app_assoc magic), <- (takez_dropz (n - 12) rest) at 1.
    rewrite app_assoc, takez_app by (rewrite len_app, len_takez by lia; llia).
    by rewrite <- app_assoc, dropz_app. }
  rewrite (app_assoc WAL_MAGIC), (app_assoc WAL_MAGIC), Ehd, <- app_assoc.
  destruct (stamp_head_fields format reserved (rest' ++ replicate (Z.to_nat (STAMP_LEN - n)) Byte.x00))
    as (-> & -> & -> & _); [done..|].
  rewrite wal_stamp_eq. run. by rewrite Z.eqb_refl.
Qed.

(** ** Properties *)

(** The stamp of every log the engine writes names format 2, and its nonce
    reads back. With any four other bytes where the magic was, the plain and the
    sealed stamp alike are still recognised as written, so a rotted magic
    refuses the log instead of reading it as one that was never begun. *)
Theorem stamps_recognised `{Xxh3Laws} `{AeadLaws} nonce s aead_nonce plain sealed magic rest :
  is_u64 nonce -> encode_stamp nonce = Ok plain -> encode_sealed_stamp nonce s (Ok aead_nonce) = Ok sealed ->
  len magic = 4 -> magic <> WAL_MAGIC ->
  validate_wal_stamp (plain ++ rest) = Ok (Some FORMAT_V2) /\ stamp_nonce plain = Ok nonce /\
  validate_wal_stamp (sealed ++ rest) = Ok (Some FORMAT_V2) /\
  stamp_was_written (magic ++ dropz 4 plain ++ rest) = Ok true /\
  stamp_was_written (magic ++ dropz 4 sealed ++ rest) = Ok true.
Proof.
  intros Hn Ep Es Hm Hne. destruct (stamp_nonce_encoded _ _ Hn Ep) as [_ Hnonce].
  apply sealed_stamp_head in Es as [srest ->]. rewrite encode_stamp_eq in Ep. apply Ok_inj in Ep. subst plain.
  rewrite <- !app_assoc, !dropz_app_le, <- !app_assoc by llia.
  split_and!; try done; (apply validate_head || apply rotted_head_written); unfold is_u16, FORMAT_V2, FLAG_SEALED;
    try done; lia.
Qed.

Lemma stamps_recognised_witness :
  exists plain, encode_stamp (X := toy_xxh3) 7 = Ok plain /\
    stamp_was_written (X := toy_xxh3) (str "XXXX" ++ dropz 4 plain ++ str "log") = Ok true.
Proof.
  destruct (encode_stamp (X := toy_xxh3) 7) as [plain| | |] eqn:E; [|vm_compute in E; discriminate E..].
  destruct toy_stamp as [sealed| | |] eqn:Es; [|vm_compute in Es; discriminate Es..].
  exists plain. split; [reflexivity|].
  exact (proj1 (proj2 (proj2 (proj2 (@stamps_recognised toy_xxh3 toy_xxh3_laws toy_aead toy_aead_laws 7 toy_sealer
    (replicate 12 Byte.x00) plain sealed (str "XXXX") (str "log") ltac:(unfold is_u64; lia) E Es eq_refl
    ltac:(vm_compute; congruence)))))).
Defined.
