(* ===== verification/WalV1.v ===== *)
(** * Format 1 of the write-ahead log

    Models [src/src/engine/wal_v1.rs]: framing a record out of a file's bytes,
    the two classifiers that tell a torn tail from damage, the batch record, and
    the records 0.1.x wrote. The streaming reader that calls them is in
    [WalReplay].

    Shown here: the backward pass that looks for whole records behind a broken
    one is exact, finding the first offset from which the rest of the file tiles
    into records and whose own record verifies; the verdicts of both
    classifiers; and batch records read back, with parsing total on 64-bit
    targets. *)

From S2P Require Import Prelude Checksum Seal WalCodec WalFrame WalStamp.

Definition WAL_FORMAT_V1 : Z := 1.
Definition WAL_HEADER_LEN : Z := 5.
Definition CHECKSUM_LEN : Z := 4.

(** [Frame]: a record framed inside a file. *)
Record Frame := mkFrame {
  f_type : byte;
  f_data : bytes;
  f_stored : Z;
  f_end : Z;
}.

Definition known_type (t : byte) : bool :=
  bool_decide (t = RECORD_PUT \/ t = RECORD_DELETE \/ t = RECORD_DELETE_RANGE \/ t = RECORD_MERGE \/
               t = RECORD_BATCH).

(** Every byte from [pos] on is zero. *)
Definition tail_is_unwritten (l : bytes) (pos : Z) : bool :=
  forallb (fun b => Byte.eqb b Byte.x00) (dropz pos l).

Section WalV1.
Context `{T : Target} `{X : Xxh3}.

Definition frame_at (l : bytes) (offset : Z) : option Frame :=
  data_start ← checked_add offset WAL_HEADER_LEN;
  header ← slice l offset data_start;
  data_end ← checked_add data_start (le_at header 0 4);
  end_ ← checked_add data_end CHECKSUM_LEN;
  data ← slice l data_start data_end;
  stored ← slice l data_end end_;
  t ← getz header 4;
  Some (mkFrame t data (from_le stored) end_).

Definition checksum_matches (f : Frame) : outcome bool :=
  check ← wal_record (as_u32 (len (f_data f))) (f_type f) (f_data f);
  Ok (f_stored f =? check).

(** The loop of [resync_after], [k] offsets from [scan_start] still to look at,
    the last of them first. *)
Fixpoint resync_loop (k : nat) (l : bytes) (scan_start : Z) (tiles : list bool) (first : option Z)
  : outcome (option Z) :=
  match k with
  | O => Ok first
  | S k =>
      let offset := scan_start + Z.of_nat k in
      match frame_at l offset with
      | None => resync_loop k l scan_start tiles first
      | Some frame =>
          tiled ← (if f_end frame =? len l then Ok true
                   else expect (getz tiles (f_end frame - scan_start)));
          if negb tiled then resync_loop k l scan_start tiles first
          else
            let tiles := <[Z.to_nat (offset - scan_start) := true]> tiles in
            if known_type (f_type frame) then
              matches ← checksum_matches frame;
              resync_loop k l scan_start tiles (if matches : bool then Some offset else first)
            else resync_loop k l scan_start tiles first
      end
  end.

Definition resync_after (l : bytes) (pos : Z) : outcome (option Z) :=
  let scan_start := pos + 1 in
  if len l <=? scan_start then Ok None
  else resync_loop (Z.to_nat (len l - scan_start)) l scan_start
         (replicate (Z.to_nat (len l - scan_start)) false) None.

(** [usize::try_from(record_start).unwrap_or(usize::MAX).min(bytes.len())]. *)
Definition clamp_pos (l : bytes) (record_start : Z) : Z :=
  Z.min (if record_start <=? usize_max then record_start else usize_max) (len l).

Definition classify_incomplete_record (l : bytes) (record_start : Z) : outcome TailVerdict :=
  let pos := clamp_pos l record_start in
  r ← resync_after l pos;
  match r with
  | Some next =>
      Err (mkError InvalidData "write-ahead log is damaged, and whole records follow it" [pos; next])
  | None => Ok (tail_discarded l pos)
  end.

Definition classify_unusable_record (l : bytes) (record_start : Z) : outcome TailVerdict :=
  let pos := clamp_pos l record_start in
  if negb (tail_is_unwritten l pos) then
    Err (mkError InvalidData "write-ahead log is damaged; refusing to open" [pos])
  else Ok (tail_discarded l pos).

(** ** Records *)

(** One record's payload, by its type; a batch holds no batch. *)
Definition parse_record (t : byte) (payload : bytes) (otherwise : outcome WalEntry) : outcome WalEntry :=
  if bool_decide (t = RECORD_PUT) then parse_put_record payload
  else if bool_decide (t = RECORD_DELETE) then parse_delete_record payload
  else if bool_decide (t = RECORD_DELETE_RANGE) then parse_delete_range_record payload
  else if bool_decide (t = RECORD_MERGE) then parse_merge_record payload
  else otherwise.

Definition batch_entry (data : bytes) (pos : Z) : outcome (WalEntry * Z) :=
  if len data <? pos + 5 then Err (invalid_data "batch entry header overflow")
  else
    t ← expect (getz data pos);
    raw ← expect (slice data (pos + 1) (pos + 5));
    let payload_len := from_le raw in
    let pos := pos + 5 in
    if Z.max (len data - pos) 0 <? payload_len then Err (invalid_data "batch entry payload overflow")
    else
      payload ← expect (slice data pos (pos + payload_len));
      entry ← parse_record t payload
                (if bool_decide (t = RECORD_BATCH)
                 then Err (invalid_data "nested batch records are not supported")
                 else Err (mkError InvalidData "unknown WAL batch entry type" [byte.unsigned t]));
      Ok (entry, pos + payload_len).

(** [count] entries are left; each takes five bytes at least, so the payload's
    length is fuel enough. *)
Fixpoint batch_loop (fuel : nat) (count : Z) (data : bytes) (pos : Z) : outcome (list WalEntry * Z) :=
  if count <=? 0 then Ok ([], pos)
  else
    match fuel with
    | O => OutOfFuel
    | S fuel =>
        '(entry, pos) ← batch_entry data pos;
        '(entries, pos) ← batch_loop fuel (count - 1) data pos;
        Ok (entry :: entries, pos)
    end.

Definition parse_batch_record (data : bytes) : outcome (list WalEntry) :=
  if len data <? 4 then Err (invalid_data "batch record too short")
  else
    '(entries, pos) ← batch_loop (S (length data)) (le_at data 0 4) data 4;
    if negb (pos =? len data) then Err (invalid_data "batch record has trailing bytes")
    else Ok entries.

(** ** What 0.1.x wrote *)

Definition encode_wal_stamp : outcome bytes :=
  check ← wal_stamp WAL_MAGIC WAL_FORMAT_V1 0;
  Ok (WAL_MAGIC ++ to_le 2 WAL_FORMAT_V1 ++ to_le 2 0 ++ to_le 4 check).

Definition encode_record (t : byte) (payload : bytes) : outcome bytes :=
  let n := as_u32 (len payload) in
  check ← wal_record n t payload;
  Ok (to_le 4 n ++ [t] ++ payload ++ to_le 4 check).

(** One operation of a batch: its type, its payload's length, its payload. *)
Definition batch_op (op : WriteBatchOp) (seq : Z) : bytes :=
  let entry := encode_op_record op seq in
  takez 1 entry ++ to_le 4 (len entry - 1) ++ dropz 1 entry.

Fixpoint batch_ops (ops : list WriteBatchOp) (base_seq i : Z) : bytes :=
  match ops with
  | [] => []
  | op :: ops => batch_op op (as_u64 (base_seq + i)) ++ batch_ops ops base_seq (i + 1)
  end.

Definition batch_payload (ops : list WriteBatchOp) (base_seq : Z) : bytes :=
  to_le 4 (as_u32 (len ops)) ++ batch_ops ops base_seq 0.

End WalV1.

(** ** Whole records behind a broken one *)

(** From [o] on, the file is nothing but framed records, to its last byte. *)
Inductive Tiles `{Target} (l : bytes) : Z -> Prop :=
| tiles_last o f : frame_at l o = Some f -> f_end f = len l -> Tiles l o
| tiles_next o f : frame_at l o = Some f -> Tiles l (f_end f) -> Tiles l o.

(** The evidence that refuses an incomplete record: the file tiles from [o],
    and the record there is of a known type and verifies. *)
Definition whole_records_from `{Target} `{Xxh3} (l : bytes) (o : Z) : Prop :=
  Tiles l o /\ exists f, frame_at l o = Some f /\ known_type (f_type f) = true /\ checksum_matches f = Ok true.

Section Resync.
Context `{T : Target} `{XL : Xxh3Laws}.
Variable l : bytes.

Lemma frame_at_bounds o f : frame_at l o = Some f -> 0 <= o /\ o + 9 <= f_end f <= len l.
Proof.
  unfold frame_at. intros E.
  destruct (checked_add o WAL_HEADER_LEN) as [ds|] eqn:E1; [|done]. cbn [mbind option_bind] in E.
  destruct (slice l o ds) as [header|] eqn:E2; [|done]. cbn [mbind option_bind] in E.
  destruct (checked_add ds _) as [de|] eqn:E3; [|done]. cbn [mbind option_bind] in E.
  destruct (checked_add de CHECKSUM_LEN) as [e|] eqn:E4; [|done]. cbn [mbind option_bind] in E.
  destruct (slice l ds de) as [data|] eqn:E5; [|done]. cbn [mbind option_bind] in E.
  destruct (slice l de e) as [stored|] eqn:E6; [|done]. cbn [mbind option_bind] in E.
  destruct (getz header 4); [|done]. injection E as <-. cbn [f_end].
  apply checked_add_Some in E1 as [-> _], E3 as [-> _], E4 as [-> _].
  apply slice_Some in E2 as (? & _), E5 as (? & _), E6 as (? & ? & _). unfold WAL_HEADER_LEN, CHECKSUM_LEN in *. lia.
Qed.

Lemma checksum_matches_returns f : exists b, checksum_matches f = Ok b.
Proof. unfold checksum_matches, wal_record. rewrite u32_parts_eq. run. eauto. Qed.

(** [first] is the least offset from [lo] on with whole records from it. *)
Definition least_from (lo : Z) (first : option Z) : Prop :=
  match first with
  | Some o => lo <= o < len l /\ whole_records_from l o /\ forall o', lo <= o' < o -> ~ whole_records_from l o'
  | None => forall o', lo <= o' -> ~ whole_records_from l o'
  end.

Lemma least_from_skip lo first : least_from (lo + 1) first -> ~ whole_records_from l lo -> least_from lo first.
Proof.
  intros Hf Hn. destruct first as [o|]; cbn in *.
  - destruct Hf as (Ho & Hw & Hb). split_and!; [lia..|done|]. intros o' Ho'.
    destruct (Z.eq_dec o' lo) as [->|]; [done|]. apply Hb. lia.
  - intros o' Ho'. destruct (Z.eq_dec o' lo) as [->|]; [done|]. apply Hf. lia.
Qed.

Lemma tiles_frame o : Tiles l o -> exists f, frame_at l o = Some f /\ (f_end f = len l \/ Tiles l (f_end f)).
Proof. intros [o' f Hf He|o' f Hf Ht]; eauto. Qed.

(** Offsets from [k] on are settled; the others are still unmarked. *)
Definition tiles_known (scan_start : Z) (k : nat) (tiles : list bool) : Prop :=
  len tiles = len l - scan_start /\
  forall i, 0 <= i < len tiles -> exists b, getz tiles i = Some b /\ (i < Z.of_nat k -> b = false) /\
    (Z.of_nat k <= i -> b = true <-> Tiles l (scan_start + i)).

Lemma tiles_known_step ss k tiles (b : bool) :
  tiles_known ss (S k) tiles -> (b = true <-> Tiles l (ss + Z.of_nat k)) ->
  tiles_known ss k (if b then <[k := true]> tiles else tiles).
Proof.
  intros [Hl Hk] Hb.
  assert (Hlen : len (if b then <[k := true]> tiles else tiles) = len tiles).
  { destruct b; [|done]. unfold len. by rewrite length_insert. }
  split; [by rewrite Hlen|]. rewrite Hlen. intros i Hi. destruct (Hk i Hi) as (b' & Hg & Hlt & Hge).
  destruct (Z.eq_dec i (Z.of_nat k)) as [->|Hne].
  - exists b. split_and!; [|lia|done]. destruct b; [|by rewrite Hg, Hlt by lia].
    unfold getz. destruct (Z.leb_spec 0 (Z.of_nat k)); [|lia]. rewrite Nat2Z.id.
    apply list_lookup_insert_eq. unfold len in Hi. lia.
  - exists b'. split_and!; [|intros; apply Hlt; lia|intros; apply Hge; lia]. destruct b; [|done].
    unfold getz in *. destruct (0 <=? i) eqn:E; [|done]. btests. by rewrite list_lookup_insert_ne by lia.
Qed.

Lemma resync_loop_spec k ss tiles first :
  0 <= ss -> ss + Z.of_nat k <= len l -> tiles_known ss k tiles -> least_from (ss + Z.of_nat k) first ->
  exists r, resync_loop k l ss tiles first = Ok r /\ least_from ss r.
Proof.
  intros Hss. revert tiles first. induction k as [|k IH]; intros tiles first Hk Ht Hf.
  { rewrite Z.add_0_r in Hf. exists first. done. }
  cbn [resync_loop]. replace (ss + Z.of_nat (S k)) with (ss + Z.of_nat k + 1) in Hf by lia.
  set (o := ss + Z.of_nat k) in *.
  assert (Hskip : ~ Tiles l o -> exists r, resync_loop k l ss tiles first = Ok r /\ least_from ss r).
  { intros Hn. apply IH; [lia| |apply least_from_skip; [done|]; by intros [? _]].
    apply (tiles_known_step ss k tiles false); [done|]. by split. }
  destruct (frame_at l o) as [f|] eqn:Ef.
  2: { apply Hskip. intros (f & Ef' & _)%tiles_frame. congruence. }
  pose proof (frame_at_bounds _ _ Ef) as [_ Hfe].
  assert (exists b, (if f_end f =? len l then Ok true else expect (getz tiles (f_end f - ss))) = Ok b /\
    (b = true <-> Tiles l o)) as (b & -> & Hb).
  { destruct (Z.eqb_spec (f_end f) (len l)) as [E|E].
    - exists true. split; [done|]. split; [|done]. intros _. by eapply tiles_last.
    - destruct Ht as [Hl Hg]. destruct (Hg (f_end f - ss)) as (b & -> & _ & Hge); [lia|]. exists b. split; [done|].
      rewrite Hge by lia. replace (ss + (f_end f - ss)) with (f_end f) by lia. split.
      + intros. by eapply tiles_next.
      + intros (f' & Ef' & Hor)%tiles_frame. rewrite Ef in Ef'. injection Ef' as <-. destruct Hor; [lia|done]. }
  run. destruct b; cbn [negb].
  2: { apply Hskip. intros Ht'. by apply Hb in Ht'. }
  replace (Z.to_nat (o - ss)) with k by lia. pose proof (tiles_known_step ss k tiles true Ht Hb) as Ht'.
  destruct (known_type (f_type f)) eqn:Ek.
  - destruct (checksum_matches_returns f) as [m Hm]. rewrite Hm. run. apply IH; [lia|done|]. fold o.
    destruct m.
    + split_and!; [lia..| |intros; lia]. split; [by apply Hb|eauto].
    + apply least_from_skip; [done|]. intros (_ & f' & Ef' & _ & Hm'). congruence.
  - apply IH; [lia|done|]. apply least_from_skip; [done|]. intros (_ & f' & Ef' & Hk' & _). congruence.
Qed.

Lemma resync_after_spec pos : 0 <= pos -> exists r, resync_after l pos = Ok r /\ least_from (pos + 1) r.
Proof.
  intros Hp. unfold resync_after.
  assert (Hout : forall o, len l <= o -> ~ whole_records_from l o).
  { intros o Ho (_ & f & Ef & _). apply frame_at_bounds in Ef. lia. }
  destruct (Z.leb_spec (len l) (pos + 1)).
  { exists None. split; [done|]. intros o Ho. apply Hout. lia. }
  apply resync_loop_spec; [lia|lia| |intros o Ho; apply Hout; lia].
  split; [rewrite len_replicate; lia|]. rewrite len_replicate. intros i Hi. exists false. split_and!; [|done|lia].
  unfold getz. destruct (Z.leb_spec 0 i); [|lia]. apply lookup_replicate. split; [done|lia].
Qed.

End Resync.

(** ** Batch records *)

Section Batch.
Context `{T : Target}.

(** The side conditions of a parser applied to what an operation encodes to. *)
Ltac op_fits :=
  match goal with
  | H : len (encode_op_record _ _) <= _ |- len _ <= _ =>
      unfold encode_op_record, encode_put_record, encode_delete_record, encode_delete_range_record,
        encode_merge_record in H; llia
  | |- _ => tauto || done
  end.

Lemma op_record_payload op seq :
  op_wf op -> is_u64 seq -> len (encode_op_record op seq) <= usize_max ->
  exists t payload, encode_op_record op seq = t :: payload /\
    forall otherwise, parse_record t payload otherwise = Ok (entry_of op seq).
Proof.
  intros Hwf Hs Hl. destruct op as [a b|a|a b|a b]; cbn [op_wf] in Hwf; eexists _, _; (split; [reflexivity|]);
    intros o; unfold parse_record.
  - rewrite bool_decide_eq_true_2 by done. unfold parse_put_record. by rewrite parse_pair_encoded by op_fits.
  - rewrite bool_decide_eq_false_2, bool_decide_eq_true_2 by done. by rewrite parse_delete_encoded by op_fits.
  - do 2 rewrite bool_decide_eq_false_2 by done. rewrite bool_decide_eq_true_2 by done.
    unfold parse_delete_range_record. by rewrite parse_pair_encoded by op_fits.
  - do 3 rewrite bool_decide_eq_false_2 by done. rewrite bool_decide_eq_true_2 by done.
    unfold parse_merge_record. by rewrite parse_pair_encoded by op_fits.
Qed.

Lemma batch_entry_encoded pre op seq post pos :
  pos = len pre -> op_wf op -> is_u64 seq -> len (encode_op_record op seq) <= U32_MAX ->
  batch_entry (pre ++ batch_op op seq ++ post) pos = Ok (entry_of op seq, pos + len (batch_op op seq)).
Proof.
  intros -> Hwf Hs Hl. pose proof usize_max_range. unfold U32_MAX in Hl.
  destruct (op_record_payload op seq) as (t & payload & E & Hp); [done..|lia|].
  unfold batch_op. rewrite E in *. change (takez 1 (t :: payload)) with [t].
  change (dropz 1 (t :: payload)) with payload. replace (len (t :: payload) - 1) with (len payload) by llia.
  assert (Hu : is_u32 (len payload)) by (unfold is_u32; llia). unfold batch_entry. ztest.
  rewrite <- !app_assoc.
  match goal with |- context [getz ?l (len pre)] =>
    replace (getz l (len pre)) with (Some t) by (symmetry; by apply (getz_app_mid pre t)) end. run.
  rewrite (slice_at _ (pre ++ [t]) (to_le 4 (len payload)) (payload ++ post)) by (rewrite <- ?app_assoc; done || llia).
  run. rewrite from_to_u32 by done. ztest.
  rewrite (slice_at _ (pre ++ [t] ++ to_le 4 (len payload)) payload post) by (rewrite <- ?app_assoc; done || llia).
  run. rewrite Hp. run. f_equal. f_equal. llia.
Qed.

Lemma batch_loop_encoded fuel ops base i pre :
  (length ops < fuel)%nat -> Forall op_wf ops ->
  Forall (fun op => forall seq, len (encode_op_record op seq) <= U32_MAX) ops ->
  batch_loop fuel (len ops) (pre ++ batch_ops ops base i) (len pre) =
  Ok (entries_from ops base i, len (pre ++ batch_ops ops base i)).
Proof.
  revert fuel i pre. induction ops as [|op ops IH]; intros fuel i pre Hf Hwf Hl.
  { destruct fuel; cbn [batch_loop batch_ops]; by rewrite app_nil_r. }
  destruct fuel as [|fuel]; [cbn in Hf; lia|]. cbn [batch_loop batch_ops entries_from].
  destruct (Z.leb_spec (len (op :: ops)) 0); [llia|].
  rewrite (batch_entry_encoded pre op) by
    (done || apply as_u64_range || apply (Forall_inv Hwf) || apply (Forall_inv Hl)). run.
  replace (len (op :: ops) - 1) with (len ops) by llia.
  rewrite (app_assoc pre), <- len_app, IH; [done|cbn in Hf; lia|by apply Forall_inv_tail in Hwf|by apply Forall_inv_tail in Hl].
Qed.

End Batch.

Lemma parse_record_total64 t payload otherwise :
  len payload <= isize_max (H := target64) -> returns otherwise ->
  returns (parse_record (T := target64) t payload otherwise).
Proof.
  intros Hl Ho. destruct (parsers_total64 payload Hl) as (H1 & H2 & H3 & H4). unfold parse_record.
  repeat (destruct (bool_decide _); [done|]). done.
Qed.

Lemma batch_entry_total64 data pos :
  0 <= pos -> len data <= isize_max (H := target64) -> returns (batch_entry (T := target64) data pos).
Proof.
  intros Hp Hl. unfold batch_entry. destruct (Z.ltb_spec (len data) (pos + 5)); [done|].
  destruct (getz_is_Some data pos) as [t ->]; [lia|]. run.
  destruct (slice_exists data (pos + 1) (pos + 5)) as [raw Hr]; [lia..|]. rewrite Hr. run.
  pose proof (from_le_range raw 4 ltac:(apply slice_len in Hr; lia)).
  destruct (Z.ltb_spec (Z.max (len data - (pos + 5)) 0) (from_le raw)); [done|].
  destruct (slice_exists data (pos + 5) (pos + 5 + from_le raw)) as [payload Hpay]; [lia..|]. rewrite Hpay. run.
  apply returns_bind; [|done]. apply parse_record_total64; [apply slice_len in Hpay; lia|by destruct (bool_decide _)].
Qed.

Lemma batch_entry_next `{Target} data pos e p :
  0 <= pos -> batch_entry data pos = Ok (e, p) -> pos + 5 <= p <= len data.
Proof.
  intros Hp. unfold batch_entry. destruct (Z.ltb_spec (len data) (pos + 5)); [done|].
  intros (t & _ & (raw & Hr%expect_Ok & E)%bind_Ok)%bind_Ok.
  pose proof (from_le_range raw 4 ltac:(apply slice_len in Hr; lia)).
  destruct (Z.ltb_spec (Z.max (len data - (pos + 5)) 0) (from_le raw)); [done|].
  apply bind_Ok in E as (payload & _ & (e' & _ & E%Ok_inj)%bind_Ok). injection E as <- <-. lia.
Qed.

Lemma batch_loop_total64 fuel count data pos :
  0 <= pos -> len data <= isize_max (H := target64) -> (Z.to_nat (len data - pos) < fuel)%nat ->
  returns (batch_loop (T := target64) fuel count data pos).
Proof.
  intros Hp Hl. revert count pos Hp. induction fuel as [|fuel IH]; intros count pos Hp Hf; [lia|].
  cbn [batch_loop]. destruct (count <=? 0); [done|]. apply returns_bind; [by apply batch_entry_total64|].
  intros [e p] He. apply batch_entry_next in He as Hn; [|done].
  apply returns_bind; [apply IH; lia|]. by intros [? ?].
Qed.

(** ** Properties *)

(** The search for whole records behind an incomplete one is exact. Its one
    backward pass, which checksums only the offsets that tile, finds the first
    offset after the break from which the rest of the file is nothing but framed
    records and whose own record is of a known type and verifies, or nothing
    when no offset is like that; it never panics. *)
Theorem resync_after_exact `{Target} `{Xxh3Laws} l pos :
  0 <= pos ->
  exists r, resync_after l pos = Ok r /\
    match r with
    | Some o => pos < o < len l /\ whole_records_from l o /\
                forall o', pos < o' < o -> ~ whole_records_from l o'
    | None => forall o', pos < o' -> ~ whole_records_from l o'
    end.
Proof.
  intros Hp. destruct (resync_after_spec l pos Hp) as (r & Hr & Hl). exists r. split; [done|].
  destruct r as [o|]; cbn in Hl.
  - destruct Hl as (Ho & Hw & Hb). split_and!; [lia..|done|]. intros. apply Hb. lia.
  - intros. apply Hl. lia.
Qed.

(** A put record behind three stray bytes. *)
Definition stray_then_put : outcome bytes :=
  rec ← encode_record (X := toy_xxh3) RECORD_PUT (encode_pair_payload (str "k") (str "v") 1);
  Ok (str "???" ++ rec).

Lemma resync_after_exact_witness :
  exists l, stray_then_put = Ok l /\ whole_records_from (H := target64) (H0 := toy_xxh3) l 3.
Proof.
  destruct stray_then_put as [l| | |] eqn:E; [|vm_compute in E; discriminate E..]. exists l. split; [reflexivity|].
  destruct (@resync_after_exact target64 toy_xxh3 toy_xxh3_laws l 0 ltac:(lia)) as (r & Hr & Hspec).
  assert (Ev : (l0 ← stray_then_put; resync_after (T := target64) (X := toy_xxh3) l0 0) = Ok (Some 3))
    by (vm_compute; reflexivity).
  rewrite E in Ev. change (resync_after (T := target64) (X := toy_xxh3) l 0 = Ok (Some 3)) in Ev.
  rewrite Ev in Hr. apply Ok_inj in Hr. subst r. exact (proj1 (proj2 Hspec)).
Defined.

(** A format 1 batch record reads back as the operations it was written
    from, at consecutive sequence numbers, and parsing bytes of any kind returns
    on a 64-bit target. *)
Theorem batch_record_roundtrip `{Target} ops base data :
  Forall op_wf ops -> Forall (fun op => forall seq, len (encode_op_record op seq) <= U32_MAX) ops ->
  len ops <= U32_MAX -> len data <= isize_max (H := target64) ->
  parse_batch_record (batch_payload ops base) = Ok (entries_from ops base 0) /\
  returns (parse_batch_record (T := target64) data).
Proof.
  intros Hwf Hl Hn Hd. unfold U32_MAX in Hn. split.
  - unfold parse_batch_record, batch_payload. rewrite as_u32_small by (unfold is_u32; llia).
    set (n := len ops). assert (Hu : is_u32 n) by (unfold is_u32, n; llia). ztest.
    field_at (@nil byte) 4%nat n (batch_ops ops base 0). unfold n.
    change 4 with (len (to_le 4 (len ops))). rewrite batch_loop_encoded; [|  |done|done].
    + run. by rewrite Z.eqb_refl.
    + assert (Hops : forall i, len ops <= len (batch_ops ops base i)).
      { clear. induction ops as [|op ops IH]; intros i; cbn [batch_ops]; [done|]. specialize (IH (i + 1)).
        unfold batch_op. llia. }
      specialize (Hops 0). rewrite length_app. unfold len in Hops. lia.
  - unfold parse_batch_record. destruct (Z.ltb_spec (len data) 4); [done|].
    apply returns_bind; [apply batch_loop_total64; [lia|done|unfold len in *; lia]|].
    intros [es p] _. by destruct (negb _).
Qed.

Lemma batch_record_roundtrip_witness :
  parse_batch_record (T := target32) (batch_payload [OpPut (str "k") (str "v"); OpDelete (str "d")] 5) =
  Ok [Put (str "k") (str "v") 5; Delete (str "d") 6].
Proof.
  refine (proj1 (@batch_record_roundtrip target32 [OpPut (str "k") (str "v"); OpDelete (str "d")] 5 [] _ _ _ _)).
  - repeat constructor; vm_compute; congruence.
  - repeat constructor; intros seq; unfold U32_MAX, encode_op_record, encode_put_record, encode_delete_record,
      encode_pair_payload, encode_delete_payload; len_norm; vm_compute; congruence.
  - vm_compute. congruence.
  - vm_compute. congruence.
Defined.
