(* ===== verification/WalReplay.v ===== *)
(** * Replaying one log

    Models [src/src/engine/wal_replay.rs], the streaming reader recovery drains:
    [WalReplayIter::open], [unstamped], [next_entry] and its two framings, with
    the reader's whole state. The file is its bytes; the reader's position, the
    count of consumed bytes and the payload buffer are kept apart, as the code
    keeps them.

    Shown here: streaming replay of a format 2 log comes to a rule over the
    file's bytes (take the usable records from the stamp on; at the first that is
    not usable, refuse when something proves it durable, drop the rest when
    nothing does, and refuse in an earlier log whatever it is); the same for
    format 1; and that reading returns on every file, in both formats. *)

From S2P Require Import Prelude Checksum Seal WalCodec WalFrame WalStamp WalV1.

(** [WalPosition]. *)
Inductive WalPosition := Newest | Earlier.
#[export] Instance wal_position_eq_dec : EqDecision WalPosition.
Proof. solve_decision. Defined.

(** [Framing]. *)
Inductive Framing := Unstamped | V1 | V2 (nonce : Z).

Section WalReplay.
Context `{T : Target} `{X : Xxh3} `{A : Aead}.

(** [WalReplayIter]: [it_file] is the file under the cursor and [it_rpos] where
    the buffered reader stands in it. *)
Record WalReplayIter := mkIter {
  it_file : bytes;
  it_rpos : Z;
  it_file_len : Z;
  it_consumed : Z;
  it_payload : bytes;
  it_group_at : Z;
  it_group_end : Z;
  it_seal : option Sealer;
  it_pending : list WalEntry;
  it_tail : option TailVerdict;
  it_position : WalPosition;
  it_framing : Framing;
  it_closed : bool;
}.

Definition set_rpos (it : WalReplayIter) (p : Z) : WalReplayIter :=
  mkIter (it_file it) p (it_file_len it) (it_consumed it) (it_payload it) (it_group_at it)
    (it_group_end it) (it_seal it) (it_pending it) (it_tail it) (it_position it) (it_framing it)
    (it_closed it).
Definition set_consumed (it : WalReplayIter) (c : Z) : WalReplayIter :=
  mkIter (it_file it) (it_rpos it) (it_file_len it) c (it_payload it) (it_group_at it)
    (it_group_end it) (it_seal it) (it_pending it) (it_tail it) (it_position it) (it_framing it)
    (it_closed it).
Definition set_payload (it : WalReplayIter) (p : bytes) : WalReplayIter :=
  mkIter (it_file it) (it_rpos it) (it_file_len it) (it_consumed it) p (it_group_at it)
    (it_group_end it) (it_seal it) (it_pending it) (it_tail it) (it_position it) (it_framing it)
    (it_closed it).
Definition set_group (it : WalReplayIter) (a e : Z) : WalReplayIter :=
  mkIter (it_file it) (it_rpos it) (it_file_len it) (it_consumed it) (it_payload it) a e
    (it_seal it) (it_pending it) (it_tail it) (it_position it) (it_framing it) (it_closed it).
Definition set_closed (it : WalReplayIter) (c : bool) : WalReplayIter :=
  mkIter (it_file it) (it_rpos it) (it_file_len it) (it_consumed it) (it_payload it) (it_group_at it)
    (it_group_end it) (it_seal it) (it_pending it) (it_tail it) (it_position it) (it_framing it) c.
Definition set_pending (it : WalReplayIter) (es : list WalEntry) : WalReplayIter :=
  mkIter (it_file it) (it_rpos it) (it_file_len it) (it_consumed it) (it_payload it) (it_group_at it)
    (it_group_end it) (it_seal it) es (it_tail it) (it_position it) (it_framing it) (it_closed it).
Definition set_tail (it : WalReplayIter) (t : option TailVerdict) (file_len : Z) : WalReplayIter :=
  mkIter (it_file it) (it_rpos it) file_len (it_consumed it) (it_payload it) (it_group_at it)
    (it_group_end it) (it_seal it) (it_pending it) t (it_position it) (it_framing it) (it_closed it).

(** What a method of the iterator comes to, and the iterator after it. *)
Definition replay (R : Type) : Type := WalReplayIter -> outcome R * WalReplayIter.

Definition ret {R} (r : R) : replay R := fun it => (Ok r, it).
Definition fail {R} (e : error) : replay R := fun it => (Err e, it).
Definition lift {R} (m : outcome R) : replay R := fun it => (m, it).
Definition modify (f : WalReplayIter -> WalReplayIter) : replay unit := fun it => (Ok tt, f it).
Definition andThen {R R'} (m : replay R) (f : R -> replay R') : replay R' := fun it =>
  match m it with
  | (Ok r, it) => f r it
  | (Err e, it) => (Err e, it)
  | (Panic, it) => (Panic, it)
  | (OutOfFuel, it) => (OutOfFuel, it)
  end.
Notation "x <~ m ; k" := (andThen m (fun x => k)) (at level 100, m at next level, right associativity).

(** [read_exact_or_truncated] on the iterator's reader. *)
Definition read_exact (n : Z) (msg : String.string) : replay bytes := fun it =>
  match slice (it_file it) (it_rpos it) (it_rpos it + n) with
  | Some l => (Ok l, set_rpos it (it_rpos it + n))
  | None => (Err (mkError UnexpectedEof msg []), set_rpos it (len (it_file it)))
  end.
Arguments read_exact n msg%_string_scope.

Definition damage_in_a_closed_file (offset : Z) : error :=
  mkError InvalidData "write-ahead log is damaged, and a newer log follows it" [offset].

(** ** Opening *)

Definition unstamped (it : WalReplayIter) : outcome WalReplayIter :=
  if it_file_len it =? 0 then Ok it
  else
    let n := Z.min (usize_wrap (it_file_len it)) (STAMP_LEN + HEADER_LEN) in
    head ← read_exact_at (it_file it) 0 n;
    written ← stamp_was_written head;
    if written : bool then Err (invalid_data "the write-ahead log header is damaged")
    else
      let tail := match it_position it with
                  | Newest => Some (mkTail 0 (it_file_len it))
                  | Earlier => it_tail it
                  end in
      Ok (set_tail it tail 0).

(** Which framing the stamp names, the sealer of a sealed log, and how many
    bytes the stamp takes. *)
Definition read_stamp (file : bytes) (keyring : option Keyring)
  : outcome (Framing * option Sealer * Z) :=
  named ← validate_wal_stamp (takez WAL_STAMP_LEN file);
  match named with
  | None => Ok (Unstamped, None, 0)
  | Some format =>
      let flags := le_at file 6 2 in
      if format =? 2 then
        if flags =? FLAG_SEALED then
          if len file <? SEALED_STAMP_LEN then Err (invalid_data "the write-ahead log header is damaged")
          else
            '(nonce, sealer) ← open_stamp (takez SEALED_STAMP_LEN file) keyring;
            Ok (V2 nonce, Some sealer, SEALED_STAMP_LEN)
        else if flags =? 0 then
          if len file <? STAMP_LEN then Ok (Unstamped, None, 0)
          else
            nonce ← stamp_nonce (takez STAMP_LEN file);
            Ok (V2 nonce, None, STAMP_LEN)
        else Err (mkError InvalidData "the write-ahead log header carries unknown flags" [flags])
      else Ok (V1, None, WAL_STAMP_LEN)
  end.

Definition open_log (file : bytes) (position : WalPosition) (keyring : option Keyring)
  : outcome WalReplayIter :=
  '(framing, seal, consumed) ← read_stamp file keyring;
  let it := mkIter file consumed (len file) consumed [] 0 0 seal [] None position framing false in
  match framing with
  | Unstamped => unstamped it
  | _ => Ok it
  end.

(** ** Format 2 *)

Definition read_v2_record (nonce : Z) : replay bool := fun it =>
  let offset := it_consumed it in
  let remaining := it_file_len it - offset in
  if remaining <? HEADER_LEN then (Ok false, it)
  else
    (l <~ read_exact HEADER_LEN "truncated WAL record header";
     match decode_header l nonce offset (is_sealed (it_seal it)) with
     | None => ret false
     | Some header =>
         if remaining <? record_len header then ret false
         else
           payload <~ read_exact (h_len header) "truncated WAL record";
           _ <~ modify (fun it => set_payload it payload);
           let opened :=
             match it_seal it with
             | Some s => open_record s (fields header) nonce offset payload
             | None => if payload_matches header payload then Some (payload, (0, len payload)) else None
             end in
           match opened with
           | None => _ <~ modify (fun it => set_payload it []); ret false
           | Some (payload, (a, b)) =>
               ops <~ lift (expect (slice payload a b));
               if entries_are_whole ops then
                 _ <~ modify (fun it =>
                   set_closed (set_group (set_payload (set_consumed it (it_consumed it + record_len header))
                     payload) a b) (Byte.eqb (h_kind header) KIND_CLOSE));
                 ret true
               else _ <~ modify (fun it => set_payload it []); ret false
           end
     end) it.

Definition unusable_v2_record (nonce offset : Z) : replay (option WalEntry) := fun it =>
  let it := set_group (set_payload it []) 0 0 in
  match it_position it with
  | Earlier => (Err (damage_in_a_closed_file offset), it)
  | Newest =>
      (proof <~ (if it_closed it then ret (Some (it_file_len it))
                 else lift (proof_past (it_file it) nonce (it_file_len it) offset (it_seal it) (offset + 1)));
       match proof with
       | Some synced =>
           fail (mkError InvalidData "write-ahead log is damaged, but later offsets were already made durable"
                   [offset; synced])
       | None =>
           _ <~ modify (fun it => set_consumed
             (set_tail it (Some (mkTail offset (it_file_len it - offset))) (it_file_len it)) (it_file_len it));
           ret None
       end) it
  end.

(** Every record is 21 bytes at least, so the file's length is fuel enough. *)
Fixpoint next_v2_entry (fuel : nat) (nonce : Z) : replay (option WalEntry) := fun it =>
  match fuel with
  | O => (OutOfFuel, it)
  | S fuel =>
      if it_group_at it <? it_group_end it then
        (decoded <~ lift (es ← expect (slice (it_payload it) (it_group_at it) (it_group_end it));
                          decode_entry es);
         _ <~ modify (fun it => set_group it (it_group_at it + decoded.2) (it_group_end it));
         ret (Some decoded.1)) it
      else if it_consumed it =? it_file_len it then (Ok None, it)
      else
        let record_start := it_consumed it in
        if it_closed it then unusable_v2_record nonce record_start it
        else
          (usable <~ read_v2_record nonce;
           if usable : bool then next_v2_entry fuel nonce else unusable_v2_record nonce record_start) it
  end.

(** ** Format 1 *)

(** [read_wal_header]: the reader ends cleanly only between records. *)
Definition read_wal_header : replay (option bytes) := fun it =>
  if len (it_file it) <=? it_rpos it then (Ok None, it)
  else
    (h <~ read_exact WAL_HEADER_LEN "truncated WAL record header"; ret (Some h)) it.

(** A record takes nine bytes at least, so the file's length is fuel enough. *)
Fixpoint next_v1_entry_inner (fuel : nat) : replay (option WalEntry) := fun it =>
  match fuel with
  | O => (OutOfFuel, it)
  | S fuel =>
      match it_pending it with
      | entry :: pending => (Ok (Some entry), set_pending it pending)
      | [] =>
          (header <~ read_wal_header;
           match header with
           | None => ret None
           | Some header =>
               _ <~ modify (fun it => set_consumed it (it_consumed it + len header));
               let n := le_at header 0 4 in
               record_type <~ lift (expect (getz header 4));
               if MAX_RECORD_LEN <? n then
                 fail (mkError UnexpectedEof "WAL record length exceeds the format's maximum" [])
               else
                 remaining <~ (fun it => (Ok (Z.max (it_file_len it - it_consumed it) 0), it));
                 if remaining <? n + 4 then fail (mkError UnexpectedEof "truncated WAL record data" [])
                 else
                   payload <~ read_exact n "truncated WAL record data";
                   _ <~ modify (fun it => set_consumed (set_payload it payload) (it_consumed it + n));
                   stored <~ read_exact 4 "truncated WAL record checksum";
                   _ <~ modify (fun it => set_consumed it (it_consumed it + 4));
                   computed <~ lift (wal_record (as_u32 n) record_type payload);
                   if negb (from_le stored =? computed) then fail (invalid_data "WAL checksum mismatch")
                   else if bool_decide (record_type = RECORD_BATCH) then
                     entries <~ lift (parse_batch_record payload);
                     _ <~ modify (fun it => set_pending it (it_pending it ++ entries));
                     next_v1_entry_inner fuel
                   else
                     entry <~ lift (parse_record record_type payload
                       (Err (mkError InvalidData "unknown WAL record type" [byte.unsigned record_type])));
                     ret (Some entry)
           end) it
      end
  end.

Definition next_v1_entry (fuel : nat) : replay (option WalEntry) := fun it =>
  let record_start := it_consumed it in
  match next_v1_entry_inner fuel it with
  | (Err e, it) =>
      match ekind e with
      | UnexpectedEof =>
          match it_position it with
          | Earlier => (Err (damage_in_a_closed_file record_start), it)
          | Newest =>
              (tail <~ lift (classify_incomplete_record (it_file it) record_start);
               _ <~ modify (fun it => set_tail it (Some tail) (it_file_len it));
               ret None) it
          end
      | InvalidData =>
          match it_position it with
          | Earlier => (Err (damage_in_a_closed_file record_start), it)
          | Newest =>
              (tail <~ lift (classify_unusable_record (it_file it) record_start);
               _ <~ modify (fun it => set_tail it (Some tail) (it_file_len it));
               ret None) it
          end
      | _ => (Err e, it)
      end
  | r => r
  end.

(** ** Draining *)

Definition next_entry (it : WalReplayIter) : outcome (option WalEntry) * WalReplayIter :=
  let fuel := S (S (length (it_file it))) in
  match it_framing it with
  | Unstamped => (Ok None, it)
  | V1 => next_v1_entry fuel it
  | V2 nonce => next_v2_entry fuel nonce it
  end.

(** The loop of recovery over one log: every entry, to the end of the log. An
    entry takes a byte of the file at least. *)
Fixpoint drain (fuel : nat) (it : WalReplayIter) : outcome (list WalEntry) * WalReplayIter :=
  match fuel with
  | O => (OutOfFuel, it)
  | S fuel =>
      match next_entry it with
      | (Ok None, it) => (Ok [], it)
      | (Ok (Some entry), it) =>
          match drain fuel it with
          | (Ok entries, it) => (Ok (entry :: entries), it)
          | r => r
          end
      | (Err e, it) => (Err e, it)
      | (Panic, it) => (Panic, it)
      | (OutOfFuel, it) => (OutOfFuel, it)
      end
  end.

(** One log of [replay_logs]: its entries and the tail it dropped. *)
Definition replay_log (file : bytes) (position : WalPosition) (keyring : option Keyring)
  : outcome (list WalEntry * option TailVerdict) :=
  it ← open_log file position keyring;
  match drain (S (length file)) it with
  | (Ok entries, it) => Ok (entries, it_tail it)
  | (Err e, _) => Err e
  | (Panic, _) => Panic
  | (OutOfFuel, _) => OutOfFuel
  end.

End WalReplay.

(** ** The rule over the file's bytes *)

Section Rule.
Context `{T : Target} `{X : Xxh3} `{A : Aead}.
Variables (file : bytes) (seal : option Sealer) (nonce : Z).

(** The usable record at [o]: its operations, where it ends, and whether it is
    CLOSE. *)
Definition record_at (o : Z) : option (bytes * Z * bool) :=
  l ← slice file o (o + HEADER_LEN);
  h ← decode_header l nonce o (is_sealed seal);
  payload ← slice file (o + HEADER_LEN) (o + record_len h);
  ops ← operations seal h nonce o payload;
  if entries_are_whole ops then Some (ops, o + record_len h, Byte.eqb (h_kind h) KIND_CLOSE) else None.

(** The usable records from [o] on, one after the other, up to the end of the
    file, a CLOSE, or the first that is not usable; and where that is. *)
Fixpoint usable_run (fuel : nat) (o : Z) (closed : bool) : list bytes * Z * bool :=
  match fuel with
  | O => ([], o, closed)
  | S fuel =>
      if (o =? len file) || closed then ([], o, closed)
      else
        match record_at o with
        | None => ([], o, closed)
        | Some (ops, next, c) =>
            let '(groups, o', c') := usable_run fuel next c in (ops :: groups, o', c')
        end
  end.

(** What replay makes of the run having ended at [o]. *)
Definition v2_verdict (position : WalPosition) (o : Z) (closed : bool) : outcome (option TailVerdict) :=
  if o =? len file then Ok None
  else
    match position with
    | Earlier => Err (damage_in_a_closed_file o)
    | Newest =>
        proof ← (if closed then Ok (Some (len file))
                 else proof_past file nonce (len file) o seal (o + 1));
        match proof with
        | Some synced =>
            Err (mkError InvalidData "write-ahead log is damaged, but later offsets were already made durable"
                   [o; synced])
        | None => Ok (Some (mkTail o (len file - o)))
        end
    end.

Fixpoint decode_groups (groups : list bytes) : outcome (list WalEntry) :=
  match groups with
  | [] => Ok []
  | ops :: groups =>
      es ← decode_group (length ops) ops;
      rest ← decode_groups groups;
      Ok (es ++ rest)
  end.

(** Replay of a format 2 log whose records start at [start]. *)
Definition v2_rule (position : WalPosition) (start : Z) : outcome (list WalEntry * option TailVerdict) :=
  let '(groups, o, closed) := usable_run (length file) start false in
  es ← decode_groups groups;
  tail ← v2_verdict position o closed;
  Ok (es, tail).

End Rule.

(** ** Groups decode one operation at a time *)

Inductive Decodes `{Target} : bytes -> list WalEntry -> Prop :=
| decodes_nil : Decodes [] []
| decodes_cons es e n rest : decode_entry es = Ok (e, n) -> 0 < n <= len es -> Decodes (dropz n es) rest ->
    Decodes es (e :: rest).

Lemma whole_Decodes `{Target} fuel es :
  len es <= usize_max -> whole_from fuel es = true ->
  exists l, Decodes es l /\ forall fuel', (length es <= fuel')%nat -> decode_group fuel' es = Ok l.
Proof.
  revert es. induction fuel as [|fuel IH]; intros es Hm Hw; cbn [whole_from] in Hw.
  { apply bool_decide_eq_true in Hw as ->. exists []. split; [constructor|]. by intros []. }
  destruct es as [|b es]; [exists []; split; [constructor|by intros []]|].
  destruct (entry_len (b :: es)) as [n|] eqn:E; [|done].
  destruct (decode_entry_whole (b :: es) n Hm E) as (e & He & Hn).
  pose proof (len_dropz n (b :: es) ltac:(lia)) as Hd.
  destruct (IH (dropz n (b :: es))) as (l & Hl & Hg); [lia|done|]. exists (e :: l). split; [by apply (decodes_cons _ e n); [|lia|]|].
  intros fuel' Hf. destruct fuel' as [|fuel']; [cbn in Hf; lia|]. cbn [decode_group]. rewrite He. run.
  rewrite Hg; [done|]. unfold len in Hd. cbn in Hf, Hd |- *. lia.
Qed.

(** ** Draining, entry by entry *)

Section Drains.
Context `{T : Target} `{X : Xxh3} `{A : Aead}.

(** What the iterator yields from here on, and how it ends. *)
Inductive Drains : WalReplayIter -> list WalEntry -> outcome (option TailVerdict) -> Prop :=
| drains_end it it' : next_entry it = (Ok None, it') -> Drains it [] (Ok (it_tail it'))
| drains_err it it' e : next_entry it = (Err e, it') -> Drains it [] (Err e)
| drains_panic it it' : next_entry it = (Panic, it') -> Drains it [] Panic
| drains_cons it it' e es fin :
    next_entry it = (Ok (Some e), it') -> Drains it' es fin -> Drains it (e :: es) fin.

Lemma drains_ext it it' es fin : next_entry it = next_entry it' -> Drains it' es fin -> Drains it es fin.
Proof.
  intros E Hd. inversion Hd as [? ? Hn|? ? ? Hn|? ? Hn|? ? ? ? ? Hn Hr]; subst; rewrite <- E in Hn.
  - by eapply drains_end.
  - by eapply drains_err.
  - by eapply drains_panic.
  - by eapply drains_cons.
Qed.

Lemma drain_Drains fuel it es fin :
  Drains it es fin -> (length es < fuel)%nat ->
  exists it', drain fuel it =
    (match fin with Ok t => Ok es | Err e => Err e | Panic => Panic | OutOfFuel => OutOfFuel end, it') /\
    match fin with Ok t => it_tail it' = t | _ => True end.
Proof.
  intros Hd. revert fuel. induction Hd as [it it' Hn|it it' e Hn|it it' Hn|it it' e es fin Hn Hd IH]; intros fuel Hf;
    (destruct fuel as [|fuel]; [cbn in Hf; lia|]); cbn [drain]; rewrite Hn.
  - by exists it'.
  - by exists it'.
  - by exists it'.
  - destruct (IH fuel) as (it2 & -> & Ht); [cbn in Hf; lia|]. exists it2. by destruct fin.
Qed.

(** The verdict of a replay from how the iterator drains. *)
Lemma replay_log_Drains file position keyring it es fin :
  open_log file position keyring = Ok it -> Drains it es fin -> (length es <= length file)%nat ->
  replay_log file position keyring = (t ← fin; Ok (es, t)).
Proof.
  intros Ho Hd Hl. unfold replay_log. rewrite Ho. run.
  destruct (drain_Drains (S (length file)) it es fin Hd) as (it' & -> & Ht); [lia|].
  destruct fin; cbn; by subst.
Qed.

End Drains.

(** ** Streaming is the rule *)

Section Stream.
Context `{T : Target} `{XL : Xxh3Laws} `{AL : AeadLaws}.
Variables (file : bytes) (seal : option Sealer) (nonce : Z) (position : WalPosition).
Hypothesis Hlen : len file < U64_MAX.

(** The iterator stands at offset [o] of the file. *)
Record at_offset (it : WalReplayIter) (o : Z) (closed : bool) : Prop := {
  at_file : it_file it = file;
  at_file_len : it_file_len it = len file;
  at_rpos : it_rpos it = o;
  at_consumed : it_consumed it = o;
  at_seal : it_seal it = seal;
  at_tail : it_tail it = None;
  at_position : it_position it = position;
  at_framing : it_framing it = V2 nonce;
  at_closed : it_closed it = closed;
  at_range : 0 <= o <= len file;
}.

(** Its current group has [ops] left. *)
Definition holds_ops (it : WalReplayIter) (ops : bytes) : Prop :=
  slice (it_payload it) (it_group_at it) (it_group_end it) = Some ops.

Lemma read_record_usable it o ops next c :
  at_offset it o false -> record_at file seal nonce o = Some (ops, next, c) ->
  exists it', read_v2_record nonce it = (Ok true, it') /\ at_offset it' next c /\ holds_ops it' ops /\
    o + HEADER_LEN + len ops <= next <= len file /\ len ops <= usize_max /\ entries_are_whole ops = true.
Proof.
  intros [Hf Hfl Hr Hc Hs Ht Hp Hfr Hcl Hb] E. unfold record_at in E.
  destruct (slice file o (o + HEADER_LEN)) as [l|] eqn:El; [|done]. cbn [mbind option_bind] in E.
  destruct (decode_header l nonce o (is_sealed seal)) as [h|] eqn:Eh; [|done]. cbn [mbind option_bind] in E.
  destruct (slice file (o + HEADER_LEN) (o + record_len h)) as [payload|] eqn:Ep; [|done]. cbn [mbind option_bind] in E.
  destruct (operations seal h nonce o payload) as [ops'|] eqn:Eo; [|done]. cbn [mbind option_bind] in E.
  destruct (entries_are_whole ops') eqn:Ew; [|done]. injection E as -> <- <-.
  apply decode_header_inv in Eh as Hinv. destruct Hinv as (_ & _ & _ & _ & _ & Hn & _).
  pose proof Ep as (Hb1 & Hb2 & _)%slice_Some. pose proof (slice_len _ _ _ _ Ep) as Hpl. unfold record_len in *.
  assert (HM : MAX_RECORD_LEN = 1073741824) by reflexivity. pose proof usize_max_range as Hu.
  unfold CLOSE_PAYLOAD_LEN, OVERHEAD, NONCE_LEN, TAG_LEN in Hn.
  assert (Hop : exists payload' a b, match seal with
    | Some s => open_record s (fields h) nonce o payload
    | None => if payload_matches h payload then Some (payload, (0, len payload)) else None end =
    Some (payload', (a, b)) /\ slice payload' a b = Some ops /\ len ops <= len payload).
  { unfold operations in Eo. destruct seal as [s|].
    - destruct (open_record s _ _ _ _) as [[payload' [a b]]|] eqn:E; [|done]. exists payload', a, b.
      apply open_frame_range in E as (E1 & E2 & E3). pose proof (slice_len _ _ _ _ Eo). split_and!; [done..|lia].
    - destruct (payload_matches h payload); [|done]. injection Eo as ->. exists ops, 0, (len ops).
      split_and!; [done| |lia]. by apply slice_full. }
  destruct Hop as (payload' & a & b & Hop & Hsl & Hol).
  unfold read_v2_record. rewrite Hc, Hfl, Hs. unfold HEADER_LEN in *. ztest.
  unfold andThen, read_exact. rewrite Hf, Hr, El, Eh. unfold record_len, HEADER_LEN. ztest. cbn [it_file it_rpos set_rpos].
  rewrite Hf. replace (o + 21 + h_len h) with (o + (21 + h_len h)) by lia. rewrite Ep.
  cbn [modify]. rewrite Hop. unfold lift. rewrite Hsl. cbn [expect]. rewrite Ew. unfold ret.
  eexists. split; [reflexivity|]. split_and!; try lia; try done. constructor; cbn; try done; lia.
Qed.

(** What the verdict on an unusable record looks at. *)
Definition same_log (it : WalReplayIter) (closed : bool) : Prop :=
  it_file it = file /\ it_file_len it = len file /\ it_seal it = seal /\ it_position it = position /\
  it_closed it = closed.

Ltac same_it := eexists; split; [reflexivity|cbn; by split_and!].

Lemma read_record_unusable it o :
  at_offset it o false -> record_at file seal nonce o = None ->
  exists it', read_v2_record nonce it = (Ok false, it') /\ same_log it' false.
Proof.
  intros [Hf Hfl Hr Hc Hs Ht Hp Hfr Hcl Hb] E. unfold record_at in E. unfold same_log, read_v2_record. rewrite Hc, Hfl, Hs.
  destruct (Z.ltb_spec (len file - o) HEADER_LEN); [same_it|]. unfold HEADER_LEN in *.
  destruct (slice_exists file o (o + 21)) as [l Hl]; [lia..|]. rewrite Hl in E. cbn [mbind option_bind] in E.
  unfold andThen at 1, read_exact at 1. rewrite Hf, Hr, Hl.
  destruct (decode_header l nonce o (is_sealed seal)) as [h|] eqn:Eh; [|same_it]. cbn [mbind option_bind] in E.
  apply decode_header_inv in Eh as (_ & _ & _ & _ & _ & Hn & _). unfold record_len, HEADER_LEN in *.
  destruct (Z.ltb_spec (len file - o) (21 + h_len h)); [same_it|].
  destruct (slice_exists file (o + 21) (o + (21 + h_len h))) as [payload Hp']; [lia..|]. rewrite Hp' in E.
  cbn [mbind option_bind] in E. unfold andThen at 1, read_exact. cbn [it_file it_rpos set_rpos]. rewrite Hf.
  replace (o + 21 + h_len h) with (o + (21 + h_len h)) by lia. rewrite Hp'. unfold andThen at 1, modify at 1.
  unfold operations in E. destruct seal as [s|].
  - destruct (open_record s _ _ _ _) as [[payload' [a b]]|] eqn:Eo; [|same_it].
    apply open_frame_range in Eo as (E1 & E2 & E3). destruct (slice_exists payload' a b) as [ops Hops]; [lia..|].
    rewrite Hops in E. cbn [mbind option_bind] in E. unfold andThen at 1, lift. rewrite Hops. cbn [expect].
    destruct (entries_are_whole ops); [done|]. same_it.
  - destruct (payload_matches h payload); [|same_it]. cbn [mbind option_bind] in E.
    unfold andThen at 1, lift. rewrite slice_full by done. cbn [expect].
    destruct (entries_are_whole payload); [done|]. same_it.
Qed.

Lemma unusable_verdict it o closed :
  same_log it closed -> 0 <= o < len file ->
  exists it' r, unusable_v2_record nonce o it = (r, it') /\
    match v2_verdict file seal nonce position o closed with
    | Ok t => r = Ok None /\ it_tail it' = t
    | Err e => r = Err e
    | _ => False
    end.
Proof.
  intros (Hf & Hfl & Hs & Hp & Hcl) Ho. unfold unusable_v2_record, v2_verdict.
  cbn [it_position it_closed it_file it_file_len it_seal set_group set_payload].
  destruct (Z.eqb_spec o (len file)); [lia|]. rewrite Hp. destruct position; [|by eexists _, _].
  unfold andThen at 1. destruct closed; rewrite Hcl.
  { cbn. rewrite Hfl. by eexists _, _. }
  unfold lift. cbn [it_file it_file_len it_seal set_group set_payload]. rewrite Hf, Hfl, Hs.
  destruct (proof_past_first file nonce (len file) o seal (o + 1)) as (p & -> & _); [lia..|]. run.
  destruct p as [p|]; cbn; eexists _, _; split; try done. by rewrite Hfl.
Qed.

(** Enough fuel is enough. *)
Lemma next_v2_fuel f f' it o closed :
  at_offset it o closed -> (Z.to_nat (len file - o) < f)%nat -> (Z.to_nat (len file - o) < f')%nat ->
  next_v2_entry f nonce it = next_v2_entry f' nonce it.
Proof.
  revert f' it o closed. induction f as [|f IH]; intros f' it o closed Ha Hf Hf'; [lia|].
  destruct f' as [|f']; [lia|]. cbn [next_v2_entry]. destruct (it_group_at it <? it_group_end it); [done|].
  destruct (it_consumed it =? it_file_len it) eqn:Ee; [done|]. destruct (it_closed it) eqn:Ec; [done|].
  pose proof (at_closed _ _ _ Ha) as Hc. rewrite Ec in Hc. subst closed.
  unfold andThen. destruct (record_at file seal nonce o) as [[[ops next] c]|] eqn:Er.
  - destruct (read_record_usable _ _ _ _ _ Ha Er) as (it' & -> & Ha' & _ & Hn & _). unfold HEADER_LEN in Hn.
    eapply IH; [done|llia..].
  - by destruct (read_record_unusable _ _ Ha Er) as (it' & -> & _).
Qed.

Lemma next_entry_v2 it o closed f :
  at_offset it o closed -> (Z.to_nat (len file - o) < f)%nat -> next_entry it = next_v2_entry f nonce it.
Proof.
  intros Ha Hf. unfold next_entry. rewrite (at_framing _ _ _ Ha), (at_file _ _ _ Ha).
  eapply next_v2_fuel; [done| |done]. pose proof (at_range _ _ _ Ha). unfold len. lia.
Qed.

(** A group with operations left yields them one by one. *)
Lemma drains_group ops es :
  Decodes ops es -> forall it o closed rest fin,
  at_offset it o closed -> holds_ops it ops ->
  (forall it', at_offset it' o closed -> holds_ops it' [] -> Drains it' rest fin) ->
  Drains it (es ++ rest) fin.
Proof.
  induction 1 as [|ops e n es He Hn Hd IH]; intros it o closed rest fin Ha Hops Hrest; [by apply Hrest|].
  pose proof (slice_len _ _ _ _ Hops) as Hl. pose proof Hops as (Hb1 & Hb2 & p & q & Ep & Hp & _)%slice_Some.
  eapply drains_cons.
  - rewrite (next_entry_v2 _ _ _ (S (Z.to_nat (len file - o))) Ha) by lia. cbn [next_v2_entry]. ztest.
    unfold andThen, lift. unfold holds_ops in Hops. rewrite Hops. run. rewrite He. reflexivity.
  - apply (IH _ o closed); [|  |done].
    + destruct Ha. by constructor.
    + unfold holds_ops. cbn. apply (slice_at _ (p ++ takez n ops) (dropz n ops) q).
      * by rewrite Ep, <- app_assoc, (app_assoc (takez n ops)), takez_dropz.
      * rewrite len_app, len_takez by lia. lia.
      * rewrite len_dropz by lia. lia.
Qed.

Lemma Decodes_length ops es : Decodes ops es -> (length es <= length ops)%nat.
Proof.
  induction 1 as [|ops e n es He Hn Hd IH]; [done|]. pose proof (len_dropz n ops ltac:(lia)).
  unfold len in *. cbn. lia.
Qed.

Lemma drains_stop it o closed :
  at_offset it o closed -> holds_ops it [] -> o = len file \/ closed = true \/ record_at file seal nonce o = None ->
  Drains it [] (v2_verdict file seal nonce position o closed).
Proof.
  intros Ha Hh Hstop. pose proof (slice_len _ _ _ _ Hh) as Hl. rewrite len_nil in Hl.
  pose proof (next_entry_v2 _ _ _ (S (Z.to_nat (len file - o))) Ha ltac:(lia)) as Hn. cbn [next_v2_entry] in Hn.
  destruct (Z.ltb_spec (it_group_at it) (it_group_end it)); [lia|].
  rewrite (at_consumed _ _ _ Ha), (at_file_len _ _ _ Ha) in Hn. pose proof (at_range _ _ _ Ha) as Hr.
  destruct (Z.eqb_spec o (len file)) as [E|E].
  { unfold v2_verdict. destruct (Z.eqb_spec o (len file)); [|lia]. rewrite <- (at_tail _ _ _ Ha). by apply drains_end. }
  assert (Hun : exists it1, next_entry it = unusable_v2_record nonce o it1 /\ same_log it1 closed).
  { rewrite (at_closed _ _ _ Ha) in Hn. destruct closed.
    - exists it. split; [done|]. destruct Ha. by split_and!.
    - destruct Hstop as [?|[?|Hno]]; [lia|done|]. unfold andThen in Hn.
      destruct (read_record_unusable _ _ Ha Hno) as (it1 & Er & Hs1). rewrite Er in Hn. eauto. }
  destruct Hun as (it1 & En & Hsame).
  destruct (unusable_verdict it1 o closed Hsame) as (it2 & r & Eu & Hv); [lia|]. rewrite Eu in En.
  destruct (v2_verdict file seal nonce position o closed) as [t|e| |]; try done.
  - destruct Hv as [-> <-]. by apply drains_end.
  - subst r. by eapply drains_err.
Qed.

Lemma drains_run n o closed groups o' c' :
  usable_run file seal nonce n o closed = (groups, o', c') -> (Z.to_nat (len file - o) <= n)%nat ->
  forall it, at_offset it o closed -> holds_ops it [] ->
  exists es, decode_groups groups = Ok es /\ Drains it es (v2_verdict file seal nonce position o' c') /\
    (length es <= Z.to_nat (len file - o))%nat.
Proof.
  revert o closed groups. induction n as [|n IH]; intros o closed groups Hrun Hn it Ha Hh; cbn [usable_run] in Hrun;
    pose proof (at_range _ _ _ Ha) as Hr.
  { injection Hrun as <- <- <-. exists []. split_and!; [done| |cbn; lia]. apply drains_stop; auto. lia. }
  destruct ((o =? len file) || closed) eqn:Estop.
  { injection Hrun as <- <- <-. exists []. split_and!; [done| |cbn; lia]. apply drains_stop; auto.
    apply orb_true_iff in Estop as [E|E]; [left; lia|by right; left]. }
  apply orb_false_iff in Estop as [E1 E2]. subst closed. btests.
  destruct (record_at file seal nonce o) as [[[ops next] c]|] eqn:Er.
  2: { injection Hrun as <- <- <-. exists []. split_and!; [done| |cbn; lia]. apply drains_stop; auto. }
  destruct (usable_run file seal nonce n next c) as [[groups2 o2] c2] eqn:Erun. injection Hrun as <- <- <-.
  destruct (read_record_usable _ _ _ _ _ Ha Er) as (it1 & Eread & Ha1 & Hops & Hb & Hu & Hw). unfold HEADER_LEN in Hb.
  destruct (whole_Decodes (length ops) ops Hu Hw) as (es1 & Hd1 & Hg1). pose proof (Decodes_length _ _ Hd1).
  assert (Hrest : forall it', at_offset it' next c -> holds_ops it' [] -> exists es, decode_groups groups2 = Ok es /\
    Drains it' es (v2_verdict file seal nonce position o2 c2) /\ (length es <= Z.to_nat (len file - next))%nat).
  { intros it' Ha' Hh'. eapply IH; [done|llia|done|done]. }
  destruct (Hrest (set_group it1 0 0)) as (es2 & Hg2 & _ & Hl2);
    [destruct Ha1; by constructor|unfold holds_ops; cbn; by rewrite (slice_at _ [] [] (it_payload it1))|].
  exists (es1 ++ es2). cbn [decode_groups]. rewrite Hg1, Hg2 by done. split_and!; [done| |].
  - apply (drains_ext it it1).
    + rewrite (next_entry_v2 _ _ _ (S (S (Z.to_nat (len file - o)))) Ha) by lia.
      rewrite (next_entry_v2 _ _ _ (S (Z.to_nat (len file - o))) Ha1) by llia. remember (S (Z.to_nat (len file - o))) as f.
      cbn [next_v2_entry]. pose proof (slice_len _ _ _ _ Hh) as Hl. rewrite len_nil in Hl.
      destruct (Z.ltb_spec (it_group_at it) (it_group_end it)); [lia|].
      rewrite (at_consumed _ _ _ Ha), (at_file_len _ _ _ Ha), (at_closed _ _ _ Ha).
      destruct (Z.eqb_spec o (len file)); [lia|]. unfold andThen. by rewrite Eread.
    + eapply drains_group; [done..|]. intros it' Ha' Hh'. destruct (Hrest it' Ha' Hh') as (es & Hg & Hd & _).
      rewrite Hg2 in Hg. by apply Ok_inj in Hg as <-.
  - rewrite length_app. unfold len in *. lia.
Qed.

Lemma stream_is_rule it start :
  at_offset it start false -> holds_ops it [] ->
  forall keyring, open_log file position keyring = Ok it ->
  replay_log file position keyring = v2_rule file seal nonce position start.
Proof.
  intros Ha Hh keyring Ho. unfold v2_rule.
  destruct (usable_run file seal nonce (length file) start false) as [[groups o] c] eqn:Erun.
  pose proof (at_range _ _ _ Ha). assert (Hlf : length file = Z.to_nat (len file)) by (unfold len; lia).
  destruct (drains_run _ _ _ _ _ _ Erun ltac:(lia) it Ha Hh) as (es & Hg & Hd & Hl).
  rewrite Hg. run. rewrite (replay_log_Drains file position keyring it es _ Ho Hd) by lia. done.
Qed.

End Stream.

(** ** Format 1: streaming is the rule *)

Section RuleV1.
Context `{T : Target} `{X : Xxh3}.
Variables (file : bytes) (position : WalPosition).

(** The record at [p]: its entries and where it ends; nothing at the end of the
    file. *)
Definition v1_at (p : Z) : outcome (option (list WalEntry * Z)) :=
  if len file <=? p then Ok None
  else
    header ← ok_or (slice file p (p + 5)) (mkError UnexpectedEof "truncated WAL record header" []);
    let n := le_at header 0 4 in
    record_type ← expect (getz header 4);
    if MAX_RECORD_LEN <? n then
      Err (mkError UnexpectedEof "WAL record length exceeds the format's maximum" [])
    else if len file - (p + 5) <? n + 4 then Err (mkError UnexpectedEof "truncated WAL record data" [])
    else
      payload ← expect (slice file (p + 5) (p + 5 + n));
      stored ← expect (slice file (p + 5 + n) (p + 9 + n));
      computed ← wal_record (as_u32 n) record_type payload;
      if negb (from_le stored =? computed) then Err (invalid_data "WAL checksum mismatch")
      else
        entries ← (if bool_decide (record_type = RECORD_BATCH) then parse_batch_record payload
                   else entry ← parse_record record_type payload
                          (Err (mkError InvalidData "unknown WAL record type" [byte.unsigned record_type]));
                        Ok [entry]);
        Ok (Some (entries, p + 9 + n)).

(** What replay makes of a record that could not be read, when the read began
    at [start]. *)
Definition v1_verdict (e : error) (start : Z) : outcome (option TailVerdict) :=
  match ekind e, position with
  | UnexpectedEof, Newest => t ← classify_incomplete_record file start; Ok (Some t)
  | InvalidData, Newest => t ← classify_unusable_record file start; Ok (Some t)
  | UnexpectedEof, Earlier | InvalidData, Earlier => Err (damage_in_a_closed_file start)
  | _, _ => Err e
  end.

(** The entries of the records from [p] on, and how the log ends. A batch of no
    entries is read on past, in the same call. *)
Fixpoint v1_run (fuel : nat) (p start : Z) : list WalEntry * outcome (option TailVerdict) :=
  match fuel with
  | O => ([], OutOfFuel)
  | S fuel =>
      match v1_at p with
      | Ok None => ([], Ok None)
      | Ok (Some ([], next)) => v1_run fuel next start
      | Ok (Some (entries, next)) =>
          let '(rest, fin) := v1_run fuel next next in (entries ++ rest, fin)
      | Err e => ([], v1_verdict e start)
      | Panic => ([], Panic)
      | OutOfFuel => ([], OutOfFuel)
      end
  end.

Definition v1_rule : outcome (list WalEntry * option TailVerdict) :=
  let '(entries, fin) := v1_run (S (length file)) WAL_STAMP_LEN WAL_STAMP_LEN in
  tail ← fin;
  Ok (entries, tail).

End RuleV1.

(** Loops of the format 1 parsers have the fuel they need. *)
Definition fueled {R} (m : outcome R) : Prop := m <> OutOfFuel.
Lemma fueled_bind {R R'} (m : outcome R) (f : R -> outcome R') :
  fueled m -> (forall a, m = Ok a -> fueled (f a)) -> fueled (m ≫= f).
Proof. unfold fueled. destruct m; cbn; auto; done. Qed.
Lemma fueled_expect {R} (o : option R) : fueled (expect o).
Proof. by destruct o. Qed.

Lemma parse_pair_fueled `{Target} a b c data : fueled (parse_pair a b c data).
Proof.
  assert (Hf : forall d p t m, fueled (parse_field d p t m)).
  { intros. unfold parse_field. apply fueled_bind; [apply fueled_expect|]. intros raw _.
    destruct (_ <? _); [done|]. apply fueled_bind; [apply fueled_expect|done]. }
  unfold parse_pair. destruct (_ <? _); [done|]. apply fueled_bind; [done|]. intros [x p] _.
  apply fueled_bind; [done|]. intros [y q] _. apply fueled_bind; [|done]. unfold parse_seq.
  apply fueled_bind; [apply fueled_expect|done].
Qed.

Lemma parse_record_fueled `{Target} t payload otherwise :
  fueled otherwise -> fueled (parse_record t payload otherwise).
Proof.
  intros Ho. unfold parse_record, parse_put_record, parse_delete_range_record, parse_merge_record, parse_delete_record.
  destruct (bool_decide _); [apply fueled_bind; [apply parse_pair_fueled|by intros [[? ?] ?]]|].
  destruct (bool_decide _).
  { destruct (_ <? _); [done|]. apply fueled_bind.
    - unfold parse_field. apply fueled_bind; [apply fueled_expect|]. intros raw _.
      destruct (_ <? _); [done|]. apply fueled_bind; [apply fueled_expect|done].
    - intros [k p] _. apply fueled_bind; [|done]. unfold parse_seq. apply fueled_bind; [apply fueled_expect|done]. }
  destruct (bool_decide _); [apply fueled_bind; [apply parse_pair_fueled|by intros [[? ?] ?]]|].
  destruct (bool_decide _); [apply fueled_bind; [apply parse_pair_fueled|by intros [[? ?] ?]]|]. done.
Qed.

Lemma batch_entry_fueled `{Target} data pos : fueled (batch_entry data pos).
Proof.
  unfold batch_entry. destruct (_ <? _); [done|]. apply fueled_bind; [apply fueled_expect|]. intros t _.
  apply fueled_bind; [apply fueled_expect|]. intros raw _. destruct (_ <? _); [done|].
  apply fueled_bind; [apply fueled_expect|]. intros payload _. apply fueled_bind; [|done].
  apply parse_record_fueled. by destruct (bool_decide _).
Qed.

Lemma batch_loop_spec `{Target} fuel count data pos :
  0 <= pos -> (Z.to_nat (len data - pos) < fuel)%nat ->
  fueled (batch_loop fuel count data pos) /\
  forall es p, batch_loop fuel count data pos = Ok (es, p) -> pos + 5 * len es <= p.
Proof.
  revert count pos. induction fuel as [|fuel IH]; intros count pos Hp Hf; [lia|].
  cbn [batch_loop]. destruct (count <=? 0); [split; [done|]; intros es p [= <- <-]; llia|].
  split.
  - apply fueled_bind; [apply batch_entry_fueled|]. intros [e q] He. apply batch_entry_next in He; [|done].
    apply fueled_bind; [apply IH; lia|by intros [? ?]].
  - intros es p ([e q] & He & ([es' q'] & Hl & [= <- <-])%bind_Ok)%bind_Ok. apply batch_entry_next in He; [|done].
    destruct (IH (count - 1) q) as [_ Hlen]; [lia..|]. specialize (Hlen _ _ Hl). llia.
Qed.

Lemma parse_batch_spec `{Target} data :
  fueled (parse_batch_record data) /\ forall es, parse_batch_record data = Ok es -> len es <= len data.
Proof.
  unfold parse_batch_record. destruct (Z.ltb_spec (len data) 4); [done|].
  destruct (batch_loop_spec (S (length data)) (le_at data 0 4) data 4) as [Hf Hl]; [lia|unfold len; lia|]. split.
  - apply fueled_bind; [done|]. intros [es p] _. by destruct (negb _).
  - intros es ([es' p] & Hb & E)%bind_Ok. specialize (Hl _ _ Hb). destruct (Z.eqb_spec p (len data)); [|done].
    cbn in E. apply Ok_inj in E as <-. llia.
Qed.

Section StreamV1.
Context `{T : Target} `{XL : Xxh3Laws} `{A : Aead}.
Variables (file : bytes) (position : WalPosition).

Lemma v1_at_spec p :
  0 <= p -> fueled (v1_at file p) /\
  forall es next, v1_at file p = Ok (Some (es, next)) -> p + 9 <= next <= len file /\ len es <= next - p.
Proof.
  intros Hp. unfold v1_at. destruct (Z.leb_spec (len file) p); [done|].
  destruct (slice file p (p + 5)) as [header|] eqn:Eh; [|done]. run.
  destruct (getz header 4) as [t|]; [|done]. run.
  pose proof (le_at_range header 0 4 ltac:(lia) ltac:(apply slice_len in Eh; lia)) as Hn.
  change (Z.of_nat 4) with 4 in Hn. set (n := le_at header 0 4) in *.
  destruct (MAX_RECORD_LEN <? n); [done|]. destruct (Z.ltb_spec (len file - (p + 5)) (n + 4)); [done|].
  destruct (slice_exists file (p + 5) (p + 5 + n)) as [payload Epay]; [lia..|]. rewrite Epay. run.
  destruct (slice_exists file (p + 5 + n) (p + 9 + n)) as [stored Est]; [lia..|]. rewrite Est. run.
  unfold wal_record. rewrite u32_parts_eq. run. destruct (negb _); [done|].
  pose proof (slice_len _ _ _ _ Epay) as Hpl. destruct (bool_decide _).
  - destruct (parse_batch_spec payload) as [Hf Hl]. split; [by apply fueled_bind|].
    intros es next (es' & Hb & [= <- <-])%bind_Ok. specialize (Hl _ Hb). llia.
  - split.
    + apply fueled_bind; [|done]. apply fueled_bind; [by apply parse_record_fueled|done].
    + intros es next (es' & (e & _ & [= <-])%bind_Ok & [= <- <-])%bind_Ok. llia.
Qed.

Lemma v1_run_fuel f f' p start :
  0 <= p -> (Z.to_nat (len file - p) < f)%nat -> (Z.to_nat (len file - p) < f')%nat ->
  v1_run file position f p start = v1_run file position f' p start.
Proof.
  revert f' p start. induction f as [|f IH]; intros f' p start Hp Hf Hf'; [lia|].
  destruct f' as [|f']; [lia|]. cbn [v1_run]. destruct (v1_at_spec p Hp) as [_ Hn].
  destruct (v1_at file p) as [[[es next]|]|e| |] eqn:E; try done. destruct (Hn _ _ eq_refl) as [Hb _].
  rewrite (IH f' next start), (IH f' next next) by lia. done.
Qed.

(** The rule from [p] on. *)
Definition v1_from (p start : Z) : list WalEntry * outcome (option TailVerdict) :=
  v1_run file position (S (Z.to_nat (len file - p))) p start.

Lemma v1_from_eq p start :
  0 <= p ->
  v1_from p start =
  match v1_at file p with
  | Ok None => ([], Ok None)
  | Ok (Some ([], next)) => v1_from next start
  | Ok (Some (es, next)) => let '(rest, fin) := v1_from next next in (es ++ rest, fin)
  | Err e => ([], v1_verdict file position e start)
  | Panic => ([], Panic)
  | OutOfFuel => ([], OutOfFuel)
  end.
Proof.
  intros Hp. unfold v1_from at 1. cbn [v1_run]. destruct (v1_at_spec p Hp) as [_ Hn].
  destruct (v1_at file p) as [[[es next]|]|e| |]; try done. destruct (Hn _ _ eq_refl) as [Hb _].
  unfold v1_from. rewrite (v1_run_fuel _ (S (Z.to_nat (len file - next))) next start) by lia.
  by rewrite (v1_run_fuel _ (S (Z.to_nat (len file - next))) next next) by lia.
Qed.

(** The iterator stands at [p] with [es] of a batch still to hand out. *)
Record at_v1 (it : WalReplayIter) (p : Z) (es : list WalEntry) : Prop := {
  v1_file : it_file it = file;
  v1_file_len : it_file_len it = len file;
  v1_rpos : it_rpos it = p;
  v1_consumed : it_consumed it = p;
  v1_pending : it_pending it = es;
  v1_tail : it_tail it = None;
  v1_position : it_position it = position;
  v1_framing : it_framing it = V1;
}.

Definition same_v1 (it : WalReplayIter) : Prop :=
  it_file it = file /\ it_file_len it = len file /\ it_position it = position.

Ltac same_v1_it R := subst R; eexists; split; [reflexivity|unfold same_v1; cbn; by split_and!].

(** One turn of the reader's loop. *)
Lemma inner_step f it p :
  at_v1 it p [] -> 0 <= p <= len file ->
  match v1_at file p with
  | Ok None => next_v1_entry_inner (S f) it = (Ok None, it)
  | Ok (Some (es, next)) =>
      exists it', (at_v1 it' next es /\ next_v1_entry_inner (S f) it = next_v1_entry_inner f it') \/
        exists e, es = [e] /\ at_v1 it' next [] /\ next_v1_entry_inner (S f) it = (Ok (Some e), it')
  | Err e => exists it', next_v1_entry_inner (S f) it = (Err e, it') /\ same_v1 it'
  | Panic => exists it', next_v1_entry_inner (S f) it = (Panic, it')
  | OutOfFuel => False
  end.
Proof.
  intros [Hf Hfl Hr Hc Hpd Ht Hp Hfr] Hb. remember (next_v1_entry_inner (S f) it) as R eqn:HR.
  cbn [next_v1_entry_inner] in HR. rewrite Hpd in HR. unfold v1_at. unfold read_wal_header in HR.
  unfold andThen at 1 in HR. cbv beta in HR. rewrite Hf, Hr in HR. destruct (Z.leb_spec (len file) p); [done|].
  unfold andThen at 1, read_exact at 1, WAL_HEADER_LEN in HR. cbv beta in HR. rewrite Hf, Hr in HR.
  destruct (slice file p (p + 5)) as [header|] eqn:Eh; [|same_v1_it R]. run. cbn [ret] in HR.
  unfold andThen at 1, modify at 1 in HR. cbv beta in HR. unfold andThen at 1, lift at 1 in HR. cbv beta in HR.
  pose proof (slice_len _ _ _ _ Eh) as Hhl. destruct (getz_is_Some header 4) as [t Et]; [lia|]. rewrite Et in *.
  cbn [expect] in HR. run.
  pose proof (le_at_range header 0 4 ltac:(lia) ltac:(lia)) as Hn. change (Z.of_nat 4) with 4 in Hn.
  set (n := le_at header 0 4) in *.
  destruct (MAX_RECORD_LEN <? n); [same_v1_it R|].
  unfold andThen at 1 in HR. cbv beta in HR. cbn [it_file_len it_consumed set_consumed set_rpos] in HR. rewrite Hfl, Hc, Hhl in HR.
  replace (Z.max (len file - (p + (p + 5 - p))) 0) with (Z.max (len file - (p + 5)) 0) in HR by lia.
  destruct (Z.ltb_spec (len file - (p + 5)) (n + 4)), (Z.ltb_spec (Z.max (len file - (p + 5)) 0) (n + 4));
    [same_v1_it R|lia|lia|].
  destruct (slice_exists file (p + 5) (p + 5 + n)) as [payload Epay]; [lia..|]. rewrite Epay. run.
  destruct (slice_exists file (p + 5 + n) (p + 9 + n)) as [stored Est]; [lia..|]. rewrite Est. run.
  unfold andThen at 1, read_exact at 1 in HR. cbn [it_file it_rpos set_rpos set_consumed] in HR.
  rewrite Hf, Epay in HR.
  unfold andThen at 1, modify at 1 in HR. cbv beta in HR. unfold andThen at 1, read_exact at 1 in HR.
  cbn [it_file it_rpos set_rpos set_consumed set_payload] in HR. rewrite Hf in HR.
  replace (p + 5 + n + 4) with (p + 9 + n) in HR by lia. rewrite Est in HR. unfold andThen at 1, modify at 1 in HR. cbv beta in HR.
  unfold andThen at 1, lift at 1 in HR. cbv beta in HR. unfold wal_record in *. rewrite !u32_parts_eq in *. run.
  destruct (negb _); [same_v1_it R|].
  destruct (bool_decide _) eqn:Eb; unfold andThen at 1, lift at 1 in HR; cbv beta in HR.
  - destruct (parse_batch_spec payload) as [Hfu _]. destruct (parse_batch_record payload) as [es|e| |] eqn:Ep; run; try done.
    + eexists. left. unfold andThen at 1, modify in HR. split; [|exact HR].
      constructor; cbn; rewrite ?Hc, ?Hhl, ?Hpd; try done; lia.
    + same_v1_it R.
    + eauto.
  - match goal with |- context [parse_record t payload ?o] =>
      pose proof (parse_record_fueled t payload o ltac:(done)) as Hfu;
      destruct (parse_record t payload o) as [e|e| |] eqn:Ep end; run; try done.
    + eexists. right. exists e. split_and!; [done| |exact HR].
      constructor; cbn; rewrite ?Hc, ?Hhl; try done; lia.
    + same_v1_it R.
    + eauto.
Qed.

(** One call of the reader, past any empty batches. *)
Lemma inner_from f it p start :
  at_v1 it p [] -> 0 <= p <= len file -> (S (Z.to_nat (len file - p)) < f)%nat ->
  exists r it', next_v1_entry_inner f it = (r, it') /\
    match r with
    | Ok None => v1_from p start = ([], Ok None) /\ it_tail it' = None
    | Ok (Some e) => exists es next, at_v1 it' next es /\ p + 1 + len es <= next <= len file /\
        v1_from p start = let '(rest, fin) := v1_from next next in (e :: es ++ rest, fin)
    | Err e => v1_from p start = ([], v1_verdict file position e start) /\ same_v1 it'
    | Panic => v1_from p start = ([], Panic)
    | OutOfFuel => False
    end.
Proof.
  revert it p. induction f as [|f IH]; intros it p Ha Hb Hf; [lia|].
  pose proof (inner_step f it p Ha Hb) as Hs. rewrite (v1_from_eq p start) by lia.
  destruct (v1_at_spec p) as [_ Hn]; [lia|].
  destruct (v1_at file p) as [[[es next]|]|e| |]; try done.
  - destruct (Hn _ _ eq_refl) as [Hnx Hnl]. destruct Hs as (it1 & [(Ha1 & ->)|(e & -> & Ha1 & ->)]).
    + destruct es as [|e es].
      * destruct (IH it1 next Ha1) as (r & it' & E & Hr); [lia..|]. exists r, it'. split; [done|].
        destruct r as [[e|]|e| |]; try done. destruct Hr as (es & nx & Hat & Hnb & Hv).
        exists es, nx. split_and!; [done|lia..|done].
      * destruct f as [|f]; [lia|]. cbn [next_v1_entry_inner]. rewrite (v1_pending _ _ _ Ha1). eexists _, _.
        split; [reflexivity|]. exists es, next. split_and!; [destruct Ha1; by constructor|llia..|done].
    + eexists _, _. split; [reflexivity|]. exists [], next. by split_and!; [|llia..|].
  - rewrite Hs. eexists _, _. split; [reflexivity|]. split; [done|]. by destruct Ha.
  - destruct Hs as (it1 & -> & Hsame). by eexists _, _.
  - destruct Hs as (it1 & ->). by eexists _, _.
Qed.

Lemma drains_pending es it p rest fin :
  at_v1 it p es -> (forall it', at_v1 it' p [] -> Drains it' rest fin) -> Drains it (es ++ rest) fin.
Proof.
  revert it. induction es as [|e es IH]; intros it Ha Hr; [by apply Hr|].
  eapply drains_cons; [|apply (IH (set_pending it es)); [destruct Ha; by constructor|done]].
  unfold next_entry. rewrite (v1_framing _ _ _ Ha). unfold next_v1_entry. cbn [next_v1_entry_inner].
  by rewrite (v1_pending _ _ _ Ha).
Qed.

Lemma verdict_drains it it1 p e :
  at_v1 it p [] -> 0 <= p -> same_v1 it1 -> next_v1_entry_inner (S (S (length file))) it = (Err e, it1) ->
  Drains it [] (v1_verdict file position e p).
Proof.
  intros Ha Hp (Hf & Hfl & Hpos) E.
  assert (Hn : next_entry it = next_v1_entry (S (S (length file))) it).
  { unfold next_entry. by rewrite (v1_framing _ _ _ Ha), (v1_file _ _ _ Ha). }
  unfold next_v1_entry in Hn. rewrite E, (v1_consumed _ _ _ Ha), Hpos, Hf in Hn. unfold v1_verdict.
  assert (Hcp : 0 <= clamp_pos file p).
  { unfold clamp_pos. pose proof usize_max_range. destruct (Z.leb_spec p usize_max); llia. }
  destruct (ekind e); destruct position; try (by eapply drains_err).
  - unfold classify_incomplete_record in *. destruct (resync_after_spec file _ Hcp) as (r & Er & _).
    unfold andThen, lift, modify, ret in Hn. rewrite Er in *. cbn [mbind outcome_bind] in *.
    destruct r; [by eapply drains_err|]. by apply drains_end in Hn.
  - unfold andThen, lift, modify, ret in Hn. unfold classify_unusable_record in *.
    destruct (negb _); [by eapply drains_err|]. by apply drains_end in Hn.
Qed.

Lemma drains_v1 k it p :
  (Z.to_nat (len file - p) <= k)%nat -> at_v1 it p [] -> 0 <= p <= len file ->
  Drains it (v1_from p p).1 (v1_from p p).2 /\ (len (v1_from p p).1 <= len file - p).
Proof.
  revert it p. induction k as [k IH] using lt_wf_ind. intros it p Hk Ha Hb.
  destruct (inner_from (S (S (length file))) it p p Ha Hb) as (r & it1 & E & Hr); [unfold len in *; lia|].
  assert (Hn : next_entry it = next_v1_entry (S (S (length file))) it).
  { unfold next_entry. by rewrite (v1_framing _ _ _ Ha), (v1_file _ _ _ Ha). }
  destruct r as [[e|]|e| |]; try done.
  - destruct Hr as (es & next & Ha1 & Hnb & ->). unfold next_v1_entry in Hn. rewrite E in Hn.
    assert (Hnext : forall it', at_v1 it' next [] ->
      Drains it' (v1_from next next).1 (v1_from next next).2 /\ len (v1_from next next).1 <= len file - next).
    { intros it' Ha'. pose proof (len_nonneg es). apply (IH (Z.to_nat (len file - next))); [lia|lia|done|lia]. }
    destruct (v1_from next next) as [rest fin] eqn:Ef. cbn [fst snd] in *. split.
    + eapply drains_cons; [exact Hn|]. apply (drains_pending es it1 next); [done|]. intros. by apply Hnext.
    + destruct (Hnext (set_pending it1 [])) as [_ Hl]; [destruct Ha1; by constructor|].
      llia.
  - destruct Hr as [-> Ht]. cbn. split; [|llia]. unfold next_v1_entry in Hn. rewrite E in Hn. rewrite <- Ht.
    by apply drains_end.
  - destruct Hr as [-> Hsame]. cbn. split; [|llia]. by eapply verdict_drains; [|lia| |].
  - rewrite Hr. cbn. split; [|llia]. unfold next_v1_entry in Hn. rewrite E in Hn. by eapply drains_panic.
Qed.

Lemma stream_v1_is_rule it keyring :
  at_v1 it WAL_STAMP_LEN [] -> WAL_STAMP_LEN <= len file -> open_log file position keyring = Ok it ->
  replay_log file position keyring = v1_rule file position.
Proof.
  unfold WAL_STAMP_LEN. intros Ha Hl Ho. unfold v1_rule, WAL_STAMP_LEN.
  destruct (drains_v1 (Z.to_nat (len file)) it 12 ltac:(lia) Ha ltac:(lia)) as [Hd Hn].
  assert (Ef : v1_run file position (S (length file)) 12 12 = v1_from 12 12).
  { apply v1_run_fuel; [lia| |lia]. unfold len in *. lia. }
  rewrite Ef. destruct (v1_from 12 12) as [es fin]. cbn [fst snd] in *.
  rewrite (replay_log_Drains file position keyring it es fin Ho Hd); [done|]. unfold len in *. lia.
Qed.

End StreamV1.

(** ** Opening *)

Section Opening.
Context `{T : Target} `{XL : Xxh3Laws} `{AL : AeadLaws}.

Lemma validate_len l format : validate_wal_stamp l = Ok (Some format) -> WAL_STAMP_LEN <= len l /\ 1 <= format <= 2.
Proof.
  unfold validate_wal_stamp, FORMAT_V2. destruct (Z.ltb_spec (len l) WAL_STAMP_LEN); cbn [orb]; [done|].
  destruct (negb _); [done|]. rewrite wal_stamp_eq. run. destruct (negb _); [done|].
  destruct (Z.eqb_spec (le_at l 4 2) 0); cbn [orb]; [done|]. destruct (Z.ltb_spec 2 (le_at l 4 2)); [done|].
  intros [= <-]. split; [done|]. unfold WAL_STAMP_LEN in *.
  pose proof (le_at_range l 4 2 ltac:(lia) ltac:(lia)). change (Z.of_nat 2) with 2 in *. lia.
Qed.

Lemma takez_len_le {R} n (l : list R) : len (takez n l) <= len l.
Proof. unfold takez, len. rewrite length_take. lia. Qed.

Lemma read_stamp_cases file keyring framing seal start :
  read_stamp file keyring = Ok (framing, seal, start) ->
  match framing with
  | Unstamped => seal = None
  | V1 => seal = None /\ start = WAL_STAMP_LEN /\ WAL_STAMP_LEN <= len file
  | V2 _ => 0 <= start <= len file
  end.
Proof.
  unfold read_stamp. intros (named & Hv & E)%bind_Ok. destruct named as [format|]; [|by injection E as <- <- <-].
  apply validate_len in Hv as [Hl Hf]. pose proof (takez_len_le WAL_STAMP_LEN file).
  destruct (format =? 2); [|injection E as <- <- <-; split_and!; [done|done|lia]].
  unfold SEALED_STAMP_LEN, STAMP_LEN, WAL_STAMP_LEN in *.
  destruct (le_at file 6 2 =? FLAG_SEALED).
  { destruct (Z.ltb_spec (len file) 56); [done|]. apply bind_Ok in E as ([n s] & _ & E%Ok_inj). injection E as <- <- <-. lia. }
  destruct (le_at file 6 2 =? 0); [|done]. destruct (Z.ltb_spec (len file) 24); [by injection E as <- <- <-|].
  apply bind_Ok in E as (n & _ & E%Ok_inj). injection E as <- <- <-. lia.
Qed.

Lemma replay_v2 file position keyring nonce seal start :
  len file < U64_MAX -> read_stamp file keyring = Ok (V2 nonce, seal, start) ->
  replay_log file position keyring = v2_rule file seal nonce position start.
Proof.
  intros Hl Hs. pose proof (read_stamp_cases _ _ _ _ _ Hs) as Hb. cbn in Hb.
  assert (Ho : exists it, open_log file position keyring = Ok it /\ at_offset file seal nonce position it start false /\
    holds_ops it []).
  { unfold open_log. rewrite Hs. run. eexists. split; [reflexivity|]. split; [by constructor|].
    unfold holds_ops. cbn. by apply (slice_at _ [] [] []). }
  destruct Ho as (it & Ho & Ha & Hh). by eapply stream_is_rule.
Qed.

Lemma replay_v1 file position keyring seal start :
  read_stamp file keyring = Ok (V1, seal, start) ->
  replay_log file position keyring = v1_rule file position.
Proof.
  intros Hs. pose proof (read_stamp_cases _ _ _ _ _ Hs) as (-> & -> & Hl).
  eapply stream_v1_is_rule; [|done|]; cycle 1.
  - unfold open_log. rewrite Hs. run. reflexivity.
  - by constructor.
Qed.

End Opening.

(** ** The run of usable records *)

Section Runs.
Context `{T : Target} `{XL : Xxh3Laws} `{AL : AeadLaws}.
Variables (file : bytes) (seal : option Sealer) (nonce : Z).

Lemma record_at_spec o ops next c :
  0 <= o -> record_at file seal nonce o = Some (ops, next, c) ->
  o + HEADER_LEN <= next <= len file /\ entries_are_whole ops = true /\ len ops <= usize_max.
Proof.
  intros Ho E.
  destruct (read_record_usable file seal nonce Newest
    (mkIter file o (len file) o [] 0 0 seal [] None Newest (V2 nonce) false) o ops next c) as (_ & _ & _ & _ & Hb & Hu & Hw).
  - assert (o <= len file); [|by constructor; try lia].
    unfold record_at in E. destruct (slice file o (o + HEADER_LEN)) as [l|] eqn:El; [|done].
    apply slice_Some in El. unfold HEADER_LEN in *. lia.
  - done.
  - split_and!; [llia..|done|done].
Qed.

(** The run stops for a reason, and its groups decode. *)
Lemma usable_run_spec n o closed groups o' c' :
  0 <= o <= len file -> (Z.to_nat (len file - o) <= n)%nat ->
  usable_run file seal nonce n o closed = (groups, o', c') ->
  o <= o' <= len file /\ (exists es, decode_groups groups = Ok es) /\
  (o' = len file \/ c' = true \/ record_at file seal nonce o' = None).
Proof.
  revert o closed groups. induction n as [|n IH]; intros o closed groups Ho Hn; cbn [usable_run].
  { intros [= <- <- <-]. split_and!; [lia..|by eexists|left; lia]. }
  destruct ((o =? len file) || closed) eqn:Es.
  { intros [= <- <- <-]. split_and!; [lia..|by eexists|]. apply orb_true_iff in Es as [E|E]; [left; lia|by right; left]. }
  destruct (record_at file seal nonce o) as [[[ops next] c]|] eqn:Er.
  2: { intros [= <- <- <-]. split_and!; [lia..|by eexists|by right; right]. }
  destruct (record_at_spec o ops next c ltac:(lia) Er) as (Hb & Hw & Hu). unfold HEADER_LEN in Hb.
  destruct (usable_run file seal nonce n next c) as [[groups2 o2] c2] eqn:Erun. intros [= <- <- <-].
  destruct (IH next c groups2) as (Hb2 & (es2 & Hg2) & Hstop); [lia|lia|done|].
  destruct (whole_Decodes (length ops) ops Hu Hw) as (es1 & _ & Hg1).
  split_and!; [lia..| |done]. exists (es1 ++ es2). cbn [decode_groups]. rewrite Hg1, Hg2 by done. done.
Qed.

Lemma proof_at_past end_ damaged o p : proof_at file nonce end_ damaged seal o = Some p -> damaged < p.
Proof.
  unfold proof_at. destruct (slice file o (o + HEADER_LEN)) as [l|]; [|done].
  destruct (decode_header l nonce o (is_sealed seal)) as [h|]; [|done].
  destruct (Z.leb_spec (proves h end_) damaged); [done|]. destruct (end_ <? o + record_len h); [done|].
  destruct (payload_usable file nonce seal o h); [|done]. by intros [= <-].
Qed.

(** The verdict on a log whose run ended at [o], by what the file proves. *)
Lemma v2_verdict_spec position o closed :
  0 <= o <= len file -> len file < U64_MAX ->
  match position with
  | Earlier => v2_verdict file seal nonce Earlier o closed =
      if o =? len file then Ok None else Err (damage_in_a_closed_file o)
  | Newest =>
      o = len file /\ v2_verdict file seal nonce Newest o closed = Ok None \/
      o < len file /\ closed = false /\ (forall o', o < o' -> proof_at file nonce (len file) o seal o' = None) /\
        v2_verdict file seal nonce Newest o closed = Ok (Some (mkTail o (len file - o))) \/
      o < len file /\ (closed = true \/ exists o', o < o' /\ proof_at file nonce (len file) o seal o' <> None) /\
        exists p, o < p /\ v2_verdict file seal nonce Newest o closed =
          Err (mkError InvalidData "write-ahead log is damaged, but later offsets were already made durable" [o; p])
  end.
Proof.
  intros Ho Hl. unfold v2_verdict. destruct position; [|done].
  destruct (Z.eqb_spec o (len file)); [by left|]. right. destruct closed.
  { right. split_and!; [lia|by left|]. exists (len file). split; [lia|done]. }
  destruct (proof_past_first file nonce (len file) o seal (o + 1)) as (r & -> & Hr); [lia..|]. run.
  destruct r as [p|].
  - right. destruct Hr as (o' & Ho' & Hp & _). split_and!; [lia| |].
    + right. exists o'. split; [lia|]. by rewrite Hp.
    + exists p. split; [by eapply proof_at_past|done].
  - left. split_and!; [lia|done| |done]. intros o' Ho'. apply Hr. lia.
Qed.

End Runs.

(** ** Properties *)

(** C1: replay of a format 2 log is the recovery rule. The streaming reader,
    record buffer, group cursor and all, yields the operations of the usable
    records that follow one another from the stamp to O, the first offset that
    holds none. When O is the end of the file that is the log. Otherwise an
    earlier log is refused; the newest is refused exactly when a usable CLOSE
    was read or a usable record anywhere after O proves a byte past O durable;
    and else the rest, from O to the end, is dropped and reported. *)
Theorem v2_replay_is_the_rule `{Target} `{Xxh3Laws} `{AeadLaws} file position keyring nonce seal start :
  len file < U64_MAX -> read_stamp file keyring = Ok (V2 nonce, seal, start) ->
  exists groups o closed es,
    usable_run file seal nonce (length file) start false = (groups, o, closed) /\
    decode_groups groups = Ok es /\ start <= o <= len file /\
    (o = len file \/ closed = true \/ record_at file seal nonce o = None) /\
    (o = len file -> replay_log file position keyring = Ok (es, None)) /\
    (o < len file -> position = Earlier -> replay_log file position keyring = Err (damage_in_a_closed_file o)) /\
    (o < len file -> position = Newest ->
     closed = false -> (forall o', o < o' -> proof_at file nonce (len file) o seal o' = None) ->
     replay_log file position keyring = Ok (es, Some (mkTail o (len file - o)))) /\
    (o < len file -> position = Newest ->
     closed = true \/ (exists o', o < o' /\ proof_at file nonce (len file) o seal o' <> None) ->
     exists p, o < p /\ replay_log file position keyring =
       Err (mkError InvalidData "write-ahead log is damaged, but later offsets were already made durable" [o; p])).
Proof.
  intros Hl Hs. pose proof (read_stamp_cases _ _ _ _ _ Hs) as Hb. cbn in Hb.
  rewrite (replay_v2 _ _ _ _ _ _ Hl Hs). unfold v2_rule.
  destruct (usable_run file seal nonce (length file) start false) as [[groups o] closed] eqn:Erun.
  destruct (usable_run_spec file seal nonce (length file) start false groups o closed)
    as (Ho & (es & Hes) & Hstop); [done|unfold len; lia|done|].
  exists groups, o, closed, es. rewrite Hes. run.
  pose proof (v2_verdict_spec file seal nonce position o closed ltac:(lia) Hl) as Hv.
  split_and!; try done; try lia; intros Hlt.
  - subst o. unfold v2_verdict. by rewrite Z.eqb_refl.
  - intros ->. rewrite Hv. by destruct (Z.eqb_spec o (len file)); [lia|].
  - intros -> Hc Hp. destruct Hv as [[? _]|[(_ & _ & _ & ->)|(_ & [Hc'|(o' & Ho' & Hp')] & _)]]; [lia|done|by rewrite Hc in Hc'|].
    by rewrite Hp in Hp'.
  - intros -> Hor. destruct Hv as [[? _]|[(_ & Hc & Hp & _)|(_ & _ & p & Hp & ->)]]; [lia| |by exists p].
    destruct Hor as [Hc'|(o' & Ho' & Hp')]; [by rewrite Hc in Hc'|by rewrite Hp in Hp'].
Qed.

(** A log of one group, then a torn record. *)
Definition torn_log : bytes :=
  match encode_stamp (X := toy_xxh3) 7 with
  | Ok stamp =>
      stamp ++ encode_header (X := toy_xxh3) KIND_GROUP (encode_ops_record sample_ops 1) 0 7 24 ++
      encode_ops_record sample_ops 1 ++ str "torn"
  | _ => []
  end.

Lemma torn_log_stamp :
  read_stamp (X := toy_xxh3) (A := toy_aead) torn_log None = Ok (V2 7, None, 24).
Proof. computed. Qed.

Lemma v2_replay_is_the_rule_witness :
  exists groups o closed es,
    usable_run (T := target64) (X := toy_xxh3) (A := toy_aead) torn_log None 7 (length torn_log) 24 false =
      (groups, o, closed) /\
    decode_groups (T := target64) groups = Ok es.
Proof.
  destruct (@v2_replay_is_the_rule target64 toy_xxh3 toy_xxh3_laws toy_aead toy_aead_laws torn_log Newest None 7 None 24
    ltac:(vm_compute; reflexivity) torn_log_stamp) as (groups & o & closed & es & E1 & E2 & _).
  exists groups, o, closed, es. split; [exact E1|exact E2].
Defined.

(** Replay of a format 1 log is its rule: entries of the records that read
    back, to the end of the file or the first that does not, whose verdict is
    the incomplete-record search for a record the file ends inside and the
    zero-tail test for one that fails its checksum or does not parse; an earlier
    log is refused for either. The rule is the same on 32- and 64-bit targets,
    the panics of the parsers included. *)
Theorem v1_replay_is_the_rule `{Target} `{Xxh3Laws} `{AeadLaws} file position keyring seal start :
  read_stamp file keyring = Ok (V1, seal, start) ->
  replay_log file position keyring = v1_rule file position.
Proof. apply replay_v1. Qed.

(** A format 1 log of one put, then zeros. *)
Definition zero_tail_log : bytes :=
  match encode_wal_stamp (X := toy_xxh3),
        encode_record (X := toy_xxh3) RECORD_PUT (encode_pair_payload (str "k") (str "v") 1) with
  | Ok stamp, Ok rec => stamp ++ rec ++ replicate 16 Byte.x00
  | _, _ => []
  end.

Lemma v1_replay_is_the_rule_witness :
  replay_log (T := target64) (X := toy_xxh3) (A := toy_aead) zero_tail_log Newest None =
  Ok ([Put (str "k") (str "v") 1], Some (mkTail 39 16)).
Proof.
  etransitivity.
  - refine (@v1_replay_is_the_rule target64 toy_xxh3 toy_xxh3_laws toy_aead toy_aead_laws zero_tail_log Newest None
      None 12 _). computed.
  - computed.
Defined.

Section Totality.
#[local] Existing Instance target64.
Context `{XL : Xxh3Laws} `{AL : AeadLaws}.

Lemma v1_at_total64 file p : 0 <= p -> len file <= isize_max -> returns (v1_at file p).
Proof.
  intros Hp Hl. destruct (v1_at_spec file p Hp) as [Hf _]. unfold v1_at in *.
  destruct (Z.leb_spec (len file) p); [done|].
  destruct (slice file p (p + 5)) as [header|] eqn:Eh; [|done]. run.
  destruct (getz_is_Some header 4) as [t ->]; [apply slice_len in Eh; lia|]. run.
  pose proof (le_at_range header 0 4 ltac:(lia) ltac:(apply slice_len in Eh; lia)) as Hn.
  change (Z.of_nat 4) with 4 in Hn. set (n := le_at header 0 4) in *.
  destruct (MAX_RECORD_LEN <? n); [done|]. destruct (Z.ltb_spec (len file - (p + 5)) (n + 4)); [done|].
  destruct (slice_exists file (p + 5) (p + 5 + n)) as [payload Epay]; [lia..|]. rewrite Epay. run.
  destruct (slice_exists file (p + 5 + n) (p + 9 + n)) as [stored Est]; [lia..|]. rewrite Est. run.
  unfold wal_record. rewrite u32_parts_eq. run. destruct (negb _); [done|].
  assert (Hpl : len payload <= isize_max) by (apply slice_len in Epay; lia).
  destruct (bool_decide _); apply returns_bind; try done.
  - unfold parse_batch_record. destruct (Z.ltb_spec (len payload) 4); [done|].
    apply returns_bind; [apply batch_loop_total64; [lia|done|unfold len in *; lia]|]. intros [es q] _. by destruct (negb _).
  - apply returns_bind; [by apply parse_record_total64|done].
Qed.

Lemma v1_verdict_returns file position e start : 0 <= start -> returns (v1_verdict file position e start).
Proof.
  intros Hs. unfold v1_verdict, classify_unusable_record, classify_incomplete_record.
  assert (Hcp : 0 <= clamp_pos file start).
  { unfold clamp_pos. pose proof usize_max_range. destruct (Z.leb_spec start usize_max); llia. }
  destruct (resync_after_spec file _ Hcp) as (r & Er & _). rewrite Er. run.
  destruct (ekind e), position; try done; [by destruct r|by destruct (negb _)].
Qed.

Lemma v1_run_returns file position f p start :
  0 <= p -> 0 <= start -> len file <= isize_max -> (Z.to_nat (len file - p) < f)%nat ->
  returns (v1_run file position f p start).2.
Proof.
  revert p start. induction f as [|f IH]; intros p start Hp Hs Hl Hf; [lia|]. cbn [v1_run].
  pose proof (v1_at_total64 file p Hp Hl) as Hr. destruct (v1_at_spec file p Hp) as [_ Hn].
  destruct (v1_at file p) as [[[es next]|]|e| |]; try done; [|by apply v1_verdict_returns].
  destruct (Hn _ _ eq_refl) as [Hb _]. destruct es as [|e es]; [apply IH; lia|].
  specialize (IH next next ltac:(lia) ltac:(lia) Hl ltac:(lia)). by destruct (v1_run file position f next next).
Qed.

Lemma stamp_was_written_returns l : returns (stamp_was_written l).
Proof.
  unfold stamp_was_written. destruct (_ || _); [done|]. rewrite wal_stamp_eq. run. destruct (_ =? _); [done|].
  unfold stamp_check_holds, stamp_nonce. rewrite !wal_stamp_v2_eq. run.
  destruct (_ <=? _); run.
  - destruct (_ =? _); [done|]. destruct (_ <? _); [done|]. by destruct (negb _).
  - destruct (_ <? _); [done|]. by destruct (negb _).
Qed.

Lemma read_stamp_returns file keyring : returns (read_stamp file keyring).
Proof.
  unfold read_stamp. apply returns_bind.
  - unfold validate_wal_stamp. destruct (_ || _); [done|]. rewrite wal_stamp_eq. run.
    destruct (negb _); [done|]. by destruct (_ || _).
  - intros [format|] _; [|done]. destruct (format =? 2); [|done]. destruct (_ =? FLAG_SEALED).
    + destruct (_ <? _); [done|]. apply returns_bind; [|by intros [? ?]]. unfold open_stamp, stamp_check_holds.
      destruct (_ <=? _); [|done]. rewrite wal_stamp_v2_eq. run. destruct (_ =? _); [|done]. cbn [negb].
      destruct keyring as [k|]; [|done]. run. apply returns_bind.
      * unfold sealer. destruct (ciphers k !! _); [done|]. by destruct (provider_key k _).
      * intros s _. by destruct (open _ _ _ _ _).
    + destruct (_ =? 0); [|done]. destruct (_ <? _); [done|]. apply returns_bind; [|done]. unfold stamp_nonce.
      rewrite wal_stamp_v2_eq. run. by destruct (negb _).
Qed.

Lemma replay_log_returns file position keyring :
  len file <= isize_max -> returns (replay_log file position keyring).
Proof.
  intros Hl. pose proof (read_stamp_returns file keyring) as Hr. assert (Hm : isize_max = 2 ^ 63 - 1) by reflexivity.
  destruct (read_stamp file keyring) as [[[framing seal] start]|e| |] eqn:Es; try done.
  2: { unfold replay_log, open_log. by rewrite Es. }
  destruct framing as [| |nonce].
  - unfold replay_log, open_log. rewrite Es. run. unfold unstamped. cbn [it_file_len it_file it_position].
    destruct (Z.eqb_spec (len file) 0); [done|]. rewrite usize_wrap_small by (change usize_max with (2 ^ 64 - 1); llia).
    unfold read_exact_at. destruct (slice_exists file 0 (0 + Z.min (len file) (STAMP_LEN + HEADER_LEN))) as [hd Hhd];
      [unfold STAMP_LEN, HEADER_LEN; llia|llia|]. rewrite Hhd. run.
    pose proof (stamp_was_written_returns hd) as Hw. destruct (stamp_was_written hd) as [[]|e| |]; try done.
  - rewrite (replay_v1 _ _ _ _ _ Es). unfold v1_rule.
    pose proof (v1_run_returns file position (S (length file)) WAL_STAMP_LEN WAL_STAMP_LEN) as Hv.
    destruct (v1_run file position (S (length file)) WAL_STAMP_LEN WAL_STAMP_LEN) as [es fin].
    apply returns_bind; [|done]. apply Hv; [done..|]. unfold WAL_STAMP_LEN, len. lia.
  - rewrite (replay_v2 file position keyring nonce seal start ltac:(unfold U64_MAX; lia) Es). unfold v2_rule.
    pose proof (read_stamp_cases _ _ _ _ _ Es) as Hb. cbn in Hb.
    destruct (usable_run file seal nonce (length file) start false) as [[groups o] closed] eqn:Erun.
    destruct (usable_run_spec file seal nonce (length file) start false groups o closed)
      as (Ho & (es & ->) & _); [done|unfold len; lia|done|]. run. apply returns_bind; [|done].
    pose proof (v2_verdict_spec file seal nonce position o closed ltac:(lia) ltac:(unfold U64_MAX; lia)) as Hv.
    destruct position; [|rewrite Hv; by destruct (_ =? _)].
    by destruct Hv as [[_ ->]|[(_ & _ & _ & ->)|(_ & _ & p & _ & ->)]].
Qed.

End Totality.

(** C28: on a 64-bit target replay of any file whatever, stamped or not, in
    either format, sealed or not, newest or earlier, comes back with entries or
    an error: it does not panic and its loops end. *)
Theorem replay_always_returns `{Xxh3Laws} `{AeadLaws} file position keyring :
  len file <= isize_max (H := target64) -> returns (replay_log (T := target64) file position keyring).
Proof. apply replay_log_returns. Qed.

Lemma replay_always_returns_witness :
  returns (replay_log (T := target64) (X := toy_xxh3) (A := toy_aead) torn_log Newest None).
Proof.
  exact (@replay_always_returns toy_xxh3 toy_xxh3_laws toy_aead toy_aead_laws torn_log Newest None
    ltac:(vm_compute; congruence)).
Defined.

(** C38: a log with no stamp yields nothing, whichever log it is. The newest
    reports all its bytes as a dropped tail; an earlier one reports nothing and
    is not refused, zeros or not, unless what is left of its stamp shows that it
    was written. *)
Theorem unstamped_log_yields_nothing `{Target} `{Xxh3Laws} `{AeadLaws} file keyring :
  file <> [] -> len file <= isize_max ->
  validate_wal_stamp (takez WAL_STAMP_LEN file) = Ok None ->
  stamp_was_written (takez (STAMP_LEN + HEADER_LEN) file) = Ok false ->
  replay_log file Newest keyring = Ok ([], Some (mkTail 0 (len file))) /\
  replay_log file Earlier keyring = Ok ([], None).
Proof.
  intros Hne Hl Hv Hw. apply nonempty_len in Hne. pose proof isize_max_eq. pose proof usize_max_range.
  assert (Ho : forall position, open_log file position keyring =
    Ok (mkIter file 0 0 0 [] 0 0 None [] (match position with Newest => Some (mkTail 0 (len file)) | Earlier => None end)
          position Unstamped false)).
  { intros position. unfold open_log, read_stamp. rewrite Hv. run. unfold unstamped. cbn [it_file_len it_file it_position].
    destruct (Z.eqb_spec (len file) 0); [lia|]. rewrite usize_wrap_small by lia. unfold read_exact_at.
    assert (Es : slice file 0 (0 + Z.min (len file) (STAMP_LEN + HEADER_LEN)) = Some (takez (STAMP_LEN + HEADER_LEN) file)).
    { unfold STAMP_LEN, HEADER_LEN. apply (slice_at _ [] _ (dropz (24 + 21) file)); [by rewrite app_nil_l, takez_dropz|done|].
      unfold takez, len. rewrite length_take. lia. }
    rewrite Es. run. rewrite Hw. run. by destruct position. }
  unfold replay_log. rewrite !Ho. run. cbn [drain]. unfold next_entry. by cbn [it_framing].
Qed.

Lemma unstamped_log_yields_nothing_witness :
  replay_log (T := target64) (X := toy_xxh3) (A := toy_aead) (str "not a log at all") Earlier None = Ok ([], None).
Proof.
  refine (proj2 (@unstamped_log_yields_nothing target64 toy_xxh3 toy_xxh3_laws toy_aead toy_aead_laws
    (str "not a log at all") None _ _ _ _)).
  - vm_compute. congruence.
  - vm_compute. congruence.
  - computed.
  - computed.
Defined.
