(* ===== verification/WalLog.v ===== *)
(** * Writing a log, and what a crash leaves of it

    Models the writers of format 2: [Wal] of [src/src/engine/wal.rs], which
    appends, and [Log] of [src/src/engine/wal_log.rs], which writes each record
    at the place fixed for it. The host is a list of answers: a write lands
    whole or fails after some of its bytes, a sync completes or does not. The
    file's content is part of the state.

    [LogStep] is the log as the commit pipeline drives it: commits get the place
    after the last one, any thread writes their records in any order, syncs
    cover a written prefix, a rollback keeps the published records and cuts the
    file after them, a commit alone cuts its own record off, CLOSE comes last.
    A cut that fails latches the database, and what it left stays in the state
    ([st_uncut]). A write is one step here; that none lands on a range a sync
    covers, or after the cut of the rollback that discarded it, is [WalGate].

    Shown here: unless a cut failed, the file of a log whose records are written
    is its stamp and the records of the commits not discarded, and replays to
    exactly these; and whatever a crash leaves of the records past the last
    completed sync ([crash_leaves]: each survives or does not, in any
    combination, as does a stamp no sync covered), replay opens the log and
    yields a prefix of the history that holds every synced commit. A crash that
    brings back bytes the file no longer held, by undoing a cut, is not among
    them. *)

From S2P Require Import Prelude Checksum Seal WalCodec WalFrame WalStamp WalV1 WalReplay.

(** What the host made of a write: all of it, or an error after [k] bytes. *)
Inductive host_write := Written | FailedAfter (k : Z).

Definition io_failed : error := mkError OtherError "input/output error" [].

(** The host's answer to a wait for writes of the waiting thread itself, on a
    target with one thread. *)
Definition waits_for_itself : error :=
  mkError WouldBlock "this call waits for something its own thread holds; finish that first" [].

(** [pwrite] of [l] at [at_]; a gap before it reads as zeros. *)
Definition write_at (file : bytes) (at_ : Z) (l : bytes) : bytes :=
  match l with
  | [] => file
  | _ => takez at_ (file ++ replicate (Z.to_nat (at_ - len file)) Byte.x00) ++ l ++ dropz (at_ + len l) file
  end.

(** [set_len] of a file to a length it has. *)
Definition set_len (file : bytes) (n : Z) : bytes := takez n file.

Lemma dropz_past {A} n (l : list A) : len l <= n -> dropz n l = [].
Proof. unfold dropz, len. intros H. apply drop_ge. lia. Qed.

(** What a write at [at_] makes of the file: everything before it, zeros in a
    gap, the bytes written, everything after them. *)
Lemma write_at_parts file at_ l :
  0 <= at_ -> l <> [] ->
  exists pre : bytes, len pre = at_ /\ write_at file at_ l = pre ++ l ++ dropz (at_ + len l) file /\
    forall x y k, y <= at_ -> slice file x y = Some k -> slice pre x y = Some k.
Proof.
  intros Ha Hl. set (gap := replicate (Z.to_nat (at_ - len file)) Byte.x00).
  exists (takez at_ (file ++ gap)). unfold write_at. fold gap. destruct l as [|b l]; [done|].
  split_and!; [|done|].
  - apply len_takez. unfold gap. rewrite len_app, len_replicate. lia.
  - intros x y k Hy Hs. apply slice_takez; [|done]. by apply slice_prefix.
Qed.

Lemma write_at_before file at_ l x y k :
  0 <= at_ -> y <= at_ -> slice file x y = Some k -> slice (write_at file at_ l) x y = Some k.
Proof.
  intros Ha Hy Hs. destruct (decide (l = [])) as [->|Hl]; [done|].
  destruct (write_at_parts file at_ l Ha Hl) as (pre & _ & -> & Hp). apply slice_prefix. by eapply Hp.
Qed.

Lemma write_at_after file at_ l x y k :
  0 <= at_ -> at_ + len l <= x -> slice file x y = Some k -> slice (write_at file at_ l) x y = Some k.
Proof.
  intros Ha Hx Hs. destruct (decide (l = [])) as [->|Hl]; [done|].
  destruct (write_at_parts file at_ l Ha Hl) as (pre & Hp & -> & _).
  apply slice_Some in Hs as (Hxy & Hy & p & q & -> & Hpl & Hk).
  rewrite dropz_app_le by llia. rewrite (app_assoc l), (app_assoc pre).
  apply slice_app; [|lia]. rewrite !len_app, len_dropz by llia. llia.
Qed.

Lemma write_at_self file at_ l : 0 <= at_ -> l <> [] -> slice (write_at file at_ l) at_ (at_ + len l) = Some l.
Proof.
  intros Ha Hl. destruct (write_at_parts file at_ l Ha Hl) as (pre & Hp & -> & _). by apply slice_app.
Qed.

Lemma len_write_at file at_ l : 0 <= at_ -> len file <= len (write_at file at_ l) <= Z.max (len file) (at_ + len l).
Proof.
  intros Ha. destruct (decide (l = [])) as [->|Hl]; [cbn [write_at]; lia|].
  destruct (write_at_parts file at_ l Ha Hl) as (pre & Hp & -> & _). rewrite !len_app.
  destruct (Z.le_ge_cases (at_ + len l) (len file)).
  - rewrite len_dropz by llia. lia.
  - rewrite dropz_past by lia. change (len (@nil byte)) with 0. lia.
Qed.

(** Writing a part of what is there already changes nothing. *)
Lemma write_at_same file at_ l rest :
  slice file at_ (at_ + len (l ++ rest)) = Some (l ++ rest) -> write_at file at_ l = file.
Proof.
  intros (Ha & Hb & p & q & -> & Hp & _)%slice_Some.
  assert (E : l <> [] -> write_at (p ++ (l ++ rest) ++ q) at_ l =
    takez at_ ((p ++ (l ++ rest) ++ q) ++ replicate (Z.to_nat (at_ - len (p ++ (l ++ rest) ++ q))) Byte.x00) ++
    l ++ dropz (at_ + len l) (p ++ (l ++ rest) ++ q)) by (by destruct l).
  destruct (decide (l = [])) as [->|Hl]; [done|]. rewrite E by done. rewrite <- !app_assoc, takez_app by done.
  rewrite (app_assoc p l (rest ++ q)), dropz_app by llia. by rewrite <- !app_assoc.
Qed.

Section Writers.
Context `{X : Xxh3} `{A : Aead}.

(** The stamp a new log begins with, and its sealer. *)
Definition new_stamp (keyring : option Keyring) (nonce : Z) (draw : outcome bytes)
  : outcome (bytes * option Sealer) :=
  match keyring with
  | Some k =>
      s ← (current k).2;
      stamp ← encode_sealed_stamp nonce s draw;
      Ok (stamp, Some s)
  | None => stamp ← encode_stamp nonce; Ok (stamp, None)
  end.

(** ** The appending writer *)

Record Wal := mkWal {
  w_file : bytes;
  w_offset : Z;
  w_nonce : Z;
  w_synced_through : Z;
  w_parent_synced : bool;
  w_closed : bool;
  w_seal : option Sealer;
  w_stamp_len : Z;
}.

(** [Wal::create_in], the host having done what it was asked. *)
Definition wal_create (keyring : option Keyring) (nonce : Z) (draw : outcome bytes) : outcome Wal :=
  '(stamp, seal) ← new_stamp keyring nonce draw;
  let synced := is_sealed seal in
  Ok (mkWal stamp (len stamp) nonce (if synced then len stamp else 0) synced false seal (len stamp)).

Definition wal_write_record (w : Wal) (kind : byte) (payload : bytes) (draw : outcome bytes)
    (host : host_write) : outcome unit * Wal :=
  match record_bytes (w_seal w) kind payload (w_synced_through w) (w_nonce w) (w_offset w) draw with
  | Ok rec =>
      match host with
      | Written =>
          (Ok tt, mkWal (w_file w ++ rec) (w_offset w + len rec) (w_nonce w) (w_synced_through w)
                    (w_parent_synced w) (w_closed w) (w_seal w) (w_stamp_len w))
      | FailedAfter k =>
          (Err io_failed, mkWal (w_file w ++ takez k rec) (w_offset w) (w_nonce w) (w_synced_through w)
                            (w_parent_synced w) (w_closed w) (w_seal w) (w_stamp_len w))
      end
  | Err e => (Err e, w)
  | Panic => (Panic, w)
  | OutOfFuel => (OutOfFuel, w)
  end.

Definition append_group (w : Wal) (entries : bytes) (draw : outcome bytes) (host : host_write)
  : outcome unit * Wal :=
  match entries with
  | [] => (Ok tt, w)
  | _ =>
      if w_closed w then (Err (mkError OtherError "the write-ahead log is already closed" []), w)
      else wal_write_record w KIND_GROUP entries draw host
  end.

(** [sync_data]: what the file's sync and the directory's answered. *)
Definition wal_sync_data (w : Wal) (file_synced parent_synced : bool) : outcome unit * Wal :=
  let through := w_offset w in
  if negb file_synced then (Err io_failed, w)
  else if negb (w_parent_synced w) && negb parent_synced then (Err io_failed, w)
  else (Ok tt, mkWal (w_file w) (w_offset w) (w_nonce w) through true (w_closed w) (w_seal w) (w_stamp_len w)).

(** ** The positional writer *)

Record Place := mkPlace {
  p_offset : Z;
  p_len : Z;
  p_synced_through : Z;
  p_nonce : bytes;
  p_epoch : Z;
}.
Definition place_end (p : Place) : Z := p_offset p + p_len p.

(** [Log]: the gate is its epoch here; the writes in flight through it are in
    [WalGate]. *)
Record Log := mkLog {
  l_file : bytes;
  l_nonce : Z;
  l_seal : option Sealer;
  l_stamp_len : Z;
  l_durable : Z;
  l_parent_synced : bool;
  l_epoch : Z;
  l_poisoned : bool;
  l_failure : option error;
}.

Definition with_file (g : Log) (file : bytes) : Log :=
  mkLog file (l_nonce g) (l_seal g) (l_stamp_len g) (l_durable g) (l_parent_synced g) (l_epoch g)
    (l_poisoned g) (l_failure g).

Definition log_create (keyring : option Keyring) (nonce : Z) (draw : outcome bytes) : outcome Log :=
  '(stamp, seal) ← new_stamp keyring nonce draw;
  let synced := is_sealed seal in
  Ok (mkLog stamp nonce seal (len stamp) (if synced then len stamp else 0) synced 0 false None).

(** [Wal::into_log] and [Log::adopt]. *)
Definition into_log (w : Wal) : Log * Z :=
  (mkLog (w_file w) (w_nonce w) (w_seal w) (w_stamp_len w) (w_synced_through w) (w_parent_synced w) 0
     false None, w_offset w).

Definition prefix_len (g : Log) : Z := if is_sealed (l_seal g) then SEALED_PREFIX_LEN else HEADER_LEN.
Definition framed_len (g : Log) (payload_len : Z) : Z :=
  HEADER_LEN + payload_len + (if is_sealed (l_seal g) then OVERHEAD else 0).

Definition place (g : Log) (offset payload_len epoch : Z) (draw : outcome bytes) : outcome Place :=
  nonce ← match l_seal g with
          | Some _ => draw
          | None => Ok (replicate (Z.to_nat NONCE_LEN) Byte.x00)
          end;
  Ok (mkPlace offset (framed_len g payload_len) (Z.min (l_durable g) offset) nonce epoch).

(** [buf] holds [prefix_len] bytes of room, then the operations. *)
Definition finish_record (g : Log) (kind : byte) (p : Place) (buf : bytes) : outcome bytes :=
  match l_seal g with
  | Some s => frame_in_place s kind (p_synced_through p) (l_nonce g) (p_offset p) (p_nonce p) buf
  | None =>
      if len buf <? HEADER_LEN then Panic
      else
        let payload := dropz HEADER_LEN buf in
        Ok (encode_header kind payload (p_synced_through p) (l_nonce g) (p_offset p) ++ payload)
  end.

(** [write_unless] of a record nobody else wrote: nothing is written for a
    place of another epoch. *)
Definition log_write_record (g : Log) (p : Place) (rec : bytes) (host : host_write)
  : outcome bool * Log :=
  if negb (p_epoch p =? l_epoch g) then (Ok false, g)
  else
    match host with
    | Written => (Ok true, with_file g (write_at (l_file g) (p_offset p) rec))
    | FailedAfter k => (Err io_failed, with_file g (write_at (l_file g) (p_offset p) (takez k rec)))
    end.

Definition sync_through (g : Log) (through : Z) (file_synced parent_synced : bool)
  : outcome unit * Log :=
  if l_poisoned g then
    (Err (mkError OtherError "the write-ahead log failed and its unfinished commits are being discarded" []), g)
  else if negb file_synced then (Err io_failed, g)
  else if negb (l_parent_synced g) && negb parent_synced then (Err io_failed, g)
  else (Ok tt, mkLog (l_file g) (l_nonce g) (l_seal g) (l_stamp_len g) (Z.max (l_durable g) through) true
                 (l_epoch g) (l_poisoned g) (l_failure g)).

Definition poison (g : Log) (e : error) : Log :=
  mkLog (l_file g) (l_nonce g) (l_seal g) (l_stamp_len g) (l_durable g) (l_parent_synced g) (l_epoch g)
    true (if l_poisoned g then l_failure g else Some e).

(** [rollback_to]: the gate is turned first; [left] says whether the writes in
    flight left, [cut] whether the host cut the file. Nothing is cut under a
    write that is still in flight, and what poisoned the log stays. *)
Definition rollback_to (g : Log) (offset epoch : Z) (left cut : bool)
  : (option error * outcome unit) * Log :=
  if negb left then
    ((None, Err waits_for_itself),
     mkLog (l_file g) (l_nonce g) (l_seal g) (l_stamp_len g) (l_durable g) (l_parent_synced g) epoch
       (l_poisoned g) (l_failure g))
  else if cut then
    ((l_failure g, Ok tt),
     mkLog (set_len (l_file g) offset) (l_nonce g) (l_seal g) (l_stamp_len g) (l_durable g)
       (l_parent_synced g) epoch false None)
  else
    ((l_failure g, Err io_failed),
     mkLog (l_file g) (l_nonce g) (l_seal g) (l_stamp_len g) (l_durable g) (l_parent_synced g) epoch
       (l_poisoned g) None).

(** [start_epoch]: the gate of a new log is put in the pipeline's epoch. *)
Definition start_epoch (g : Log) (epoch : Z) : Log :=
  mkLog (l_file g) (l_nonce g) (l_seal g) (l_stamp_len g) (l_durable g) (l_parent_synced g) epoch
    (l_poisoned g) (l_failure g).

(** [turn_away]: the epoch moves on before the rollback itself. *)
Definition turn_away (g : Log) (epoch : Z) : Log :=
  mkLog (l_file g) (l_nonce g) (l_seal g) (l_stamp_len g) (l_durable g) (l_parent_synced g) epoch
    (l_poisoned g) (l_failure g).

(** [cut_own]: the record at [offset] was this thread's alone. *)
Definition cut_own (g : Log) (offset : Z) (cut : bool) : outcome unit * Log :=
  if cut then (Ok tt, with_file g (set_len (l_file g) offset)) else (Err io_failed, g).

(** A record placed at [end_], framed in a buffer with room for its header, and
    written: what a commit and [close] do. *)
Definition put_record (g : Log) (kind : byte) (payload : bytes) (end_ : Z) (draw : outcome bytes)
    (host : host_write) : outcome (bool * Place) * Log :=
  match (p ← place g end_ (len payload) (l_epoch g) draw;
         rec ← finish_record g kind p (replicate (Z.to_nat (prefix_len g)) Byte.x00 ++ payload);
         Ok (p, rec)) with
  | Ok (p, rec) =>
      match log_write_record g p rec host with
      | (Ok written, g) => (Ok (written, p), g)
      | (Err e, g) => (Err e, g)
      | (Panic, g) => (Panic, g)
      | (OutOfFuel, g) => (OutOfFuel, g)
      end
  | Err e => (Err e, g)
  | Panic => (Panic, g)
  | OutOfFuel => (OutOfFuel, g)
  end.

(** [Log::close], with what each host call answered. *)
Definition close (g : Log) (end_ : Z) (draw : outcome bytes) (first last : bool * bool) (host : host_write)
  : outcome unit * Log :=
  let '(synced, g) :=
    if Z.max (l_durable g) (l_stamp_len g) <? end_ then sync_through g end_ first.1 first.2 else (Ok tt, g) in
  match synced with
  | Ok _ =>
      match put_record g KIND_CLOSE [] end_ draw host with
      | (Ok (_, p), g) => sync_through g (place_end p) last.1 last.2
      | (Err e, g) => (Err e, g)
      | (Panic, g) => (Panic, g)
      | (OutOfFuel, g) => (OutOfFuel, g)
      end
  | _ => (synced, g)
  end.

End Writers.

(** ** Records one after the other *)

(** A record as it was written: its kind, its claim, its operations, its bytes. *)
Record lrec := mkRec { r_kind : byte; r_synced : Z; r_payload : bytes; r_bytes : bytes }.

Definition all_bytes (recs : list lrec) : bytes := List.concat (map r_bytes recs).

Section Layout.
Context `{T : Target} `{X : Xxh3} `{A : Aead}.
Variables (seal : option Sealer) (nonce : Z).

(** [r] is a record a writer places at [o]. *)
Definition placed (o : Z) (r : lrec) : Prop :=
  record_shape (r_kind r) (r_payload r) /\ 0 <= r_synced r <= o /\ is_u64 (r_synced r) /\
  entries_are_whole (r_payload r) = true /\
  exists draw, (forall an, draw = Ok an -> len an = NONCE_LEN) /\
    record_bytes seal (r_kind r) (r_payload r) (r_synced r) nonce o draw = Ok (r_bytes r).

(** [recs] fill the file from [o] to [o'], and nothing follows CLOSE. *)
Fixpoint Layout (o : Z) (recs : list lrec) (o' : Z) : Prop :=
  match recs with
  | [] => o' = o
  | r :: recs =>
      placed o r /\ (r_kind r = KIND_CLOSE -> recs = []) /\ Layout (o + len (r_bytes r)) recs o'
  end.

End Layout.

Lemma byte_eqb_iff a b : Byte.eqb a b = true <-> a = b.
Proof. split; [apply Strings.Byte.byte_dec_bl|apply Strings.Byte.byte_dec_lb]. Qed.

Section LayoutFacts.
Context `{T : Target} `{XL : Xxh3Laws} `{AL : AeadLaws}.
Variables (seal : option Sealer) (nonce : Z).

Lemma layout_app o rs1 rs2 o' :
  Layout seal nonce o (rs1 ++ rs2) o' ->
  exists m, Layout seal nonce o rs1 m /\ Layout seal nonce m rs2 o'.
Proof.
  revert o. induction rs1 as [|r rs IH]; intros o Hl; [by exists o|].
  destruct Hl as (Hp & Hc & Hl). destruct (IH _ Hl) as (m & H1 & H2). exists m. split; [|done].
  split_and!; [done| |done]. intros Hk. specialize (Hc Hk). by apply app_eq_nil in Hc as [-> _].
Qed.

Lemma layout_len o recs o' : Layout seal nonce o recs o' -> o' = o + len (all_bytes recs).
Proof.
  revert o. induction recs as [|r recs IH]; intros o; cbn [Layout]; [unfold all_bytes; cbn; llia|].
  intros (_ & _ & Hl). apply IH in Hl. unfold all_bytes in *. cbn [map List.concat]. llia.
Qed.

(** A placed record is usable where it was placed. *)
Lemma placed_record_at file pre r post o :
  placed seal nonce o r -> file = pre ++ r_bytes r ++ post -> len pre = o ->
  record_at file seal nonce o =
  Some (r_payload r, o + len (r_bytes r), Byte.eqb (r_kind r) KIND_CLOSE) /\ HEADER_LEN <= len (r_bytes r).
Proof.
  intros (Hsh & Hs & Hu & Hw & draw & Hd & Er) -> Ho.
  destruct (record_reads_as seal (r_kind r) (r_payload r) (r_synced r) nonce o draw (r_bytes r) [] Hsh Hs Hu Hd Er)
    as (h & body & E1 & E2 & E3 & E4 & E5 & E6 & E7 & E8). rewrite app_nil_r in E1.
  apply decode_header_inv in E1 as Hinv. destruct Hinv as (_ & _ & _ & _ & _ & Hn & _).
  unfold record_len in *. split; [|unfold HEADER_LEN in *; lia].
  pose proof (takez_dropz HEADER_LEN (r_bytes r)) as Esp. rewrite E6 in Esp.
  assert (Htl : len (takez HEADER_LEN (r_bytes r)) = HEADER_LEN) by (apply slice_len in E5; lia).
  unfold record_at. rewrite (slice_at _ pre (takez HEADER_LEN (r_bytes r)) (body ++ post));
    [|by rewrite <- Esp at 1; rewrite <- !app_assoc|done|lia]. cbn [mbind option_bind].
  rewrite <- (decode_header_head (r_bytes r)) by done. rewrite E1. cbn [mbind option_bind]. unfold record_len.
  rewrite (slice_at _ (pre ++ takez HEADER_LEN (r_bytes r)) body post);
    [|by rewrite <- Esp at 1; rewrite <- !app_assoc|llia|lia]. cbn [mbind option_bind].
  rewrite E8. cbn [mbind option_bind]. by rewrite Hw, E2, E7.
Qed.

(** The run over records laid out one after the other. *)
Lemma run_layout file pre recs post o o' n :
  Layout seal nonce o recs o' -> file = pre ++ all_bytes recs ++ post -> len pre = o ->
  (Z.to_nat (len file - o) <= n)%nat ->
  exists m c, (Z.to_nat (len file - o') <= m)%nat /\
    (c = true <-> exists r, In r recs /\ r_kind r = KIND_CLOSE) /\
    usable_run file seal nonce n o false =
    let '(groups, e, c') := usable_run file seal nonce m o' c in (map r_payload recs ++ groups, e, c').
Proof.
  revert pre o n. induction recs as [|r recs IH]; intros pre o n Hl Ef Hp Hn.
  { cbn in Hl. subst o'. exists n, false. split_and!; [done|split; [done|by intros (? & ? & _)]|].
    by destruct (usable_run file seal nonce n o false) as [[? ?] ?]. }
  destruct Hl as (Hpl & Hc & Hl). pose proof (layout_len _ _ _ Hl) as Ho'.
  assert (Ef' : file = pre ++ r_bytes r ++ all_bytes recs ++ post) by (rewrite Ef; unfold all_bytes; cbn; by rewrite <- app_assoc).
  destruct (placed_record_at file pre r (all_bytes recs ++ post) o Hpl Ef' Hp) as [Er Hrl]. unfold HEADER_LEN in Hrl.
  assert (Hlf : len file = o + len (r_bytes r) + len (all_bytes recs) + len post) by (rewrite Ef', !len_app; lia).
  destruct n as [|n]; [llia|]. cbn [usable_run]. destruct (Z.eqb_spec o (len file)); [llia|]. cbn [orb]. rewrite Er.
  assert (Hkc : Byte.eqb (r_kind r) KIND_CLOSE = true <-> r_kind r = KIND_CLOSE) by apply byte_eqb_iff.
  destruct (Byte.eqb (r_kind r) KIND_CLOSE) eqn:Ek.
  - rewrite Hc in * by (by apply Hkc). cbn in Hl. subst o'. exists n, true. split_and!; [llia| |].
    + split; [|done]. intros _. exists r. split; [by left|]. by apply Hkc.
    + by destruct (usable_run file seal nonce n _ true) as [[? ?] ?].
  - destruct (IH (pre ++ r_bytes r) (o + len (r_bytes r)) n) as (m & c & Hm & Hcl & Erun);
      [done|by rewrite Ef', <- app_assoc|llia|llia|].
    exists m, c. split_and!; [done| |].
    + rewrite Hcl. split; intros (r' & Hin & Hk); [exists r'; split; [by right|done]|].
      destruct Hin as [<-|Hin]; [by apply Hkc in Hk|by exists r'].
    + rewrite Erun. destruct (usable_run file seal nonce m o' c) as [[? ?] ?]. done.
Qed.

End LayoutFacts.

(** ** Opening what a writer created *)

(** The keyring a log is opened with holds the key it was sealed under. *)
Definition can_open `{Aead} (keyring : option Keyring) (seal : option Sealer) : Prop :=
  match seal with
  | None => True
  | Some s => exists k raw, keyring = Some k /\ keyring_ok k /\ provider_key k (sealer_id s) = Some raw /\
      sealer_cipher s = cipher_new raw /\ is_u32 (sealer_id s)
  end.

(** [stamp] is the stamp of a log with this nonce and sealer. *)
Definition stamped `{X : Xxh3} `{A : Aead} (stamp : bytes) (seal : option Sealer) (nonce : Z) : Prop :=
  is_u64 nonce /\
  match seal with
  | None => encode_stamp nonce = Ok stamp
  | Some s => exists an, len an = NONCE_LEN /\ encode_sealed_stamp nonce s (Ok an) = Ok stamp
  end.

Lemma read_stamp_stamped `{Xxh3Laws} `{AeadLaws} stamp seal nonce keyring rest :
  stamped stamp seal nonce -> can_open keyring seal ->
  read_stamp (stamp ++ rest) keyring = Ok (V2 nonce, seal, len stamp).
Proof.
  intros [Hn Hst] Hk. unfold read_stamp.
  assert (Hhead : exists reserved tl, stamp = stamp_head FORMAT_V2 reserved ++ tl /\
    reserved = (if is_sealed seal then FLAG_SEALED else 0)).
  { destruct seal as [s|].
    - destruct Hst as (an & _ & E). apply sealed_stamp_head in E as [tl ->]. by eexists _, _.
    - rewrite encode_stamp_eq in Hst. apply Ok_inj in Hst as <-. by eexists _, _. }
  destruct Hhead as (reserved & tl & Est & Hr).
  assert (Hru : is_u16 reserved) by (subst reserved; by destruct (is_sealed seal)).
  assert (Etk : takez WAL_STAMP_LEN (stamp ++ rest) = stamp_head FORMAT_V2 reserved).
  { subst stamp. rewrite <- app_assoc. apply takez_app. by rewrite stamp_head_len. }
  rewrite Etk. rewrite <- (app_nil_r (stamp_head FORMAT_V2 reserved)).
  rewrite validate_head by (done || by right). run. change (FORMAT_V2 =? 2) with true. cbv iota.
  assert (le_at (stamp ++ rest) 6 2 = reserved) as ->.
  { subst stamp. rewrite <- app_assoc. by destruct (stamp_head_fields FORMAT_V2 reserved (tl ++ rest)) as (_ & -> & _). }
  destruct seal as [s|]; cbn [is_sealed] in Hr; subst reserved; cbn [can_open] in Hk.
  - destruct Hst as (an & Han & E). destruct Hk as (k & raw & -> & Hok & Hraw & Hc & Hid).
    destruct (open_sealed_stamp nonce s k raw an stamp Hn Hid Han Hok Hraw Hc E) as (Hlen & Ho & _).
    change (FLAG_SEALED =? FLAG_SEALED) with true. cbv iota. rewrite len_app, Hlen.
    destruct (Z.ltb_spec (SEALED_STAMP_LEN + len rest) SEALED_STAMP_LEN); [llia|].
    rewrite takez_app by done. rewrite Ho. run. done.
  - destruct (stamp_nonce_encoded _ _ Hn Hst) as [Hlen Hnonce].
    change (0 =? FLAG_SEALED) with false. change (0 =? 0) with true. cbv iota. rewrite len_app, Hlen.
    destruct (Z.ltb_spec (STAMP_LEN + len rest) STAMP_LEN); [llia|].
    rewrite takez_app by done. rewrite Hnonce. run. done.
Qed.

Lemma decode_groups_app `{Target} gs1 gs2 es1 es2 :
  decode_groups gs1 = Ok es1 -> decode_groups gs2 = Ok es2 -> decode_groups (gs1 ++ gs2) = Ok (es1 ++ es2).
Proof.
  revert es1. induction gs1 as [|g gs1 IH]; intros es1; cbn [decode_groups app].
  { by intros [= <-] ->. }
  intros (e & -> & (es & Hes & [= <-])%bind_Ok)%bind_Ok H2. run. rewrite (IH _ Hes H2). run. by rewrite app_assoc.
Qed.

(** ** What a crash leaves *)

(** The header of a record of [file] that verifies at [o], payload included. *)
Definition verifies_at `{T : Target} `{X : Xxh3} `{A : Aead} (file : bytes) (seal : option Sealer) (nonce o : Z)
  : option Header :=
  l ← slice file o (o + HEADER_LEN);
  h ← decode_header l nonce o (is_sealed seal);
  if (o + record_len h <=? len file) && payload_usable file nonce seal o h then Some h else None.

Section Crash.
Context `{T : Target} `{XL : Xxh3Laws} `{AL : AeadLaws}.
Variables (seal : option Sealer) (nonce : Z) (file : bytes).

(** From [s] on, whatever verifies in the file is one of [recs], laid out from
    [s], where it was placed and byte for byte: no accident of the checks. *)
Definition genuine (s : Z) (recs : list lrec) : Prop :=
  forall o h, s <= o -> verifies_at file seal nonce o = Some h ->
  exists rs1 r rs2, recs = rs1 ++ r :: rs2 /\ o = s + len (all_bytes rs1) /\
    slice file o (o + record_len h) = Some (r_bytes r).

Lemma record_at_verifies o ops next c :
  record_at file seal nonce o = Some (ops, next, c) ->
  exists h, verifies_at file seal nonce o = Some h /\ next = o + record_len h.
Proof.
  unfold record_at, verifies_at. destruct (slice file o (o + HEADER_LEN)) as [l|]; [|done]. cbn [mbind option_bind].
  destruct (decode_header l nonce o (is_sealed seal)) as [h|]; [|done]. cbn [mbind option_bind].
  destruct (slice file (o + HEADER_LEN) (o + record_len h)) as [payload|] eqn:Ep; [|done]. cbn [mbind option_bind].
  destruct (operations seal h nonce o payload) as [ops'|] eqn:Eo; [|done]. cbn [mbind option_bind].
  destruct (entries_are_whole ops') eqn:Ew; [|done]. intros [= -> <- <-]. exists h. split; [|done].
  pose proof Ep as (_ & Hb & _)%slice_Some. destruct (Z.leb_spec (o + record_len h) (len file)); [|lia].
  assert (payload_usable file nonce seal o h = true) as ->; [|done].
  unfold payload_usable, record_len in *. rewrite Z.add_assoc in Ep. rewrite Ep. unfold operations in Eo.
  destruct seal as [s|].
  - destruct (open_record s _ _ _ _) as [[p [a b]]|]; [|done]. by rewrite Eo.
  - by destruct (payload_matches h payload).
Qed.

Lemma proof_at_verifies end_ damaged o p :
  end_ = len file -> proof_at file nonce end_ damaged seal o = Some p ->
  exists h, verifies_at file seal nonce o = Some h /\ p = proves h end_ /\ damaged < p.
Proof.
  intros -> E. pose proof (proof_at_past _ _ _ _ _ _ _ E). unfold proof_at in E. unfold verifies_at.
  destruct (slice file o (o + HEADER_LEN)) as [l|]; [|done]. cbn [mbind option_bind].
  destruct (decode_header l nonce o (is_sealed seal)) as [h|]; [|done]. cbn [mbind option_bind].
  destruct (proves h (len file) <=? damaged); [done|]. cbn [orb] in E.
  destruct (Z.ltb_spec (len file) (o + record_len h)); [done|]. destruct (Z.leb_spec (o + record_len h) (len file)); [|lia].
  destruct (payload_usable file nonce seal o h); [|done]. injection E as <-. by exists h.
Qed.

Lemma layout_first s recs rs1 r rs2 e :
  Layout seal nonce s recs e -> recs = rs1 ++ r :: rs2 -> len (all_bytes rs1) = 0 -> rs1 = [].
Proof.
  intros Hl -> H0. destruct rs1 as [|r1 rs1]; [done|]. destruct Hl as (Hp & _).
  destruct (placed_record_at seal nonce (replicate (Z.to_nat s) Byte.x00 ++ r_bytes r1 ++ [])
    (replicate (Z.to_nat s) Byte.x00) r1 [] s Hp) as [_ Hl]; [done|rewrite len_replicate; destruct Hp; lia|].
  unfold all_bytes in H0. cbn [map List.concat] in H0. unfold HEADER_LEN in Hl. llia.
Qed.

(** The header of a placed record found in the file. *)
Lemma placed_header o r h :
  placed seal nonce o r -> verifies_at file seal nonce o = Some h ->
  slice file o (o + record_len h) = Some (r_bytes r) ->
  h_kind h = r_kind r /\ h_synced_through h = r_synced r.
Proof.
  intros (Hsh & Hs & Hu & _ & draw & Hd & Er) Hv Hsl.
  destruct (record_reads_as seal (r_kind r) (r_payload r) (r_synced r) nonce o draw (r_bytes r) [] Hsh Hs Hu Hd Er)
    as (h' & body & E1 & E2 & E3 & _ & E5 & _). rewrite app_nil_r in E1. unfold verifies_at in Hv.
  assert (El : slice file o (o + HEADER_LEN) = Some (takez HEADER_LEN (r_bytes r))).
  { apply slice_Some in Hsl as (Ho & Hb & p & q & -> & Hp & Hl).
    pose proof (takez_dropz HEADER_LEN (r_bytes r)) as Esp. apply slice_len in E5.
    apply (slice_at _ p (takez HEADER_LEN (r_bytes r)) (dropz HEADER_LEN (r_bytes r) ++ q));
      [by rewrite <- Esp at 1; rewrite <- app_assoc|done|lia]. }
  rewrite El in Hv. cbn [mbind option_bind] in Hv. rewrite (decode_header_head _ _ _ _ _ E5) in E1. rewrite E1 in Hv.
  cbn [mbind option_bind] in Hv. destruct (_ && _); [|done]. by injection Hv as <-.
Qed.

Lemma placed_nonneg o r : placed seal nonce o r -> 0 <= o.
Proof. intros (_ & Hs & _). lia. Qed.

Lemma genuine_tail s r recs :
  genuine s (r :: recs) -> HEADER_LEN <= len (r_bytes r) -> genuine (s + len (r_bytes r)) recs.
Proof.
  intros Hg Hr o h Ho Hv. unfold HEADER_LEN in Hr. destruct (Hg o h ltac:(lia) Hv) as (rs1 & r' & rs2 & E & Eo & Hs).
  destruct rs1 as [|r1 rs1]; [change (len (all_bytes [])) with 0 in Eo; lia|].
  injection E as <- ->. exists rs1, r', rs2. split_and!; [done| |done]. unfold all_bytes in *. cbn [map List.concat] in Eo. llia.
Qed.

(** From a record boundary on, the run follows the records that survived. *)
Lemma crash_run recs : forall s e n,
  Layout seal nonce s recs e -> genuine s recs -> 0 <= s <= len file -> (Z.to_nat (len file - s) <= n)%nat ->
  exists rs1 rs2 o c, recs = rs1 ++ rs2 /\ Layout seal nonce s rs1 o /\
    usable_run file seal nonce n s false = (map r_payload rs1, o, c) /\ o <= len file /\
    (c = true -> exists r, In r rs1 /\ r_kind r = KIND_CLOSE).
Proof.
  assert (Hstop : forall rs s n, 0 <= s <= len file -> (Z.to_nat (len file - s) <= n)%nat ->
    s = len file \/ record_at file seal nonce s = None ->
    exists rs1 rs2 o c, rs = rs1 ++ rs2 /\ Layout seal nonce s rs1 o /\
      usable_run file seal nonce n s false = (map r_payload rs1, o, c) /\ o <= len file /\
      (c = true -> exists r, In r rs1 /\ r_kind r = KIND_CLOSE)).
  { intros rs s n Hs Hn Hor. exists [], rs, s, false. split_and!; [done|done| |lia|done].
    destruct n; cbn [usable_run]; [done|]. destruct (Z.eqb_spec s (len file)); [done|].
    destruct Hor as [?|Hr]; [lia|]. by rewrite Hr. }
  induction recs as [|r recs IH]; intros s e n Hl Hg Hs Hn;
    (destruct (Z.eq_dec s (len file)) as [Ee|Ene]; [by apply Hstop; auto|]);
    (destruct (record_at file seal nonce s) as [[[ops next] c]|] eqn:Er; [|by apply Hstop; auto]);
    destruct (record_at_verifies _ _ _ _ Er) as (h & Hv & Hnx);
    destruct (Hg s h ltac:(lia) Hv) as (rs1 & r' & rs2 & E & Eo & Hsl).
  { by destruct rs1. }
  assert (rs1 = []) as -> by (eapply layout_first; [done..|lia]). injection E as <- <-.
  destruct n as [|n]; [lia|]. cbn [usable_run]. destruct (Z.eqb_spec s (len file)); [lia|]. cbn [orb]. rewrite Er.
  destruct Hl as (Hp & Hc & Hl). pose proof Hsl as (_ & Hb & p & q & Ef & Hpl & _)%slice_Some.
  destruct (placed_record_at seal nonce file p r q s Hp Ef Hpl) as [Er' Hrl]. rewrite Er' in Er.
  injection Er as <- <- Hcl. destruct (Byte.eqb (r_kind r) KIND_CLOSE) eqn:Ek.
  - apply byte_eqb_iff in Ek. rewrite (Hc Ek) in *. exists [r], [], (s + len (r_bytes r)), true.
    subst c. assert (Hrun : usable_run file seal nonce n (s + len (r_bytes r)) true = ([], s + len (r_bytes r), true)).
    { destruct n; cbn [usable_run]; [done|]. by rewrite orb_true_r. }
    rewrite Hrun. split_and!; [done|by split_and!|done| |]; [rewrite Ef, !len_app; llia|].
    intros _. exists r. split; [by left|done].
  - subst c. unfold HEADER_LEN in Hrl. assert (Hle : s + len (r_bytes r) <= len file) by (rewrite Ef, !len_app; llia).
    destruct (IH (s + len (r_bytes r)) e n) as (rs1 & rs3 & o & c & E & Hl1 & Hrun & Ho & Hcc);
      [done|by apply genuine_tail|lia|lia|].
    exists (r :: rs1), rs3, o, c. rewrite Hrun. split_and!; [by rewrite E| |done|done|].
    + split_and!; [done| |done]. intros Hk. apply byte_eqb_iff in Hk. by rewrite Hk in Ek.
    + intros Ht. destruct (Hcc Ht) as (r' & Hin & Hk). exists r'. split; [by right|done].
Qed.

End Crash.

(** The layout's records in order of their ends. *)
Lemma layout_decodes `{Xxh3Laws} `{AeadLaws} `{Target} seal nonce o recs o' :
  Layout seal nonce o recs o' -> 0 <= o -> exists es, decode_groups (map r_payload recs) = Ok es.
Proof.
  revert o. induction recs as [|r recs IH]; intros o Hl Ho; [by exists []|]. destruct Hl as (Hp & _ & Hl).
  destruct (placed_record_at seal nonce (replicate (Z.to_nat o) Byte.x00 ++ r_bytes r ++ [])
    (replicate (Z.to_nat o) Byte.x00) r [] o Hp) as [Er Hrl]; [done|rewrite len_replicate; lia|].
  destruct (record_at_spec _ _ _ o _ _ _ Ho Er) as (_ & Hw & Hu).
  destruct (IH _ Hl) as [es Hes]; [llia|].
  destruct (whole_Decodes (length (r_payload r)) (r_payload r) Hu Hw) as (es1 & _ & Hg).
  exists (es1 ++ es). cbn [map decode_groups]. rewrite Hg, Hes by done. done.
Qed.

Lemma run_end `{Target} `{Xxh3} `{Aead} file seal nonce n c :
  usable_run file seal nonce n (len file) c = ([], len file, c).
Proof. destruct n; cbn [usable_run]; [done|]. by rewrite Z.eqb_refl. Qed.

(** A stamp and whole records, nothing more: replay gives every commit back. *)
Lemma whole_log_replays `{Target} `{Xxh3Laws} `{AeadLaws} stamp seal nonce keyring recs e position :
  stamped stamp seal nonce -> can_open keyring seal -> Layout seal nonce (len stamp) recs e -> e < U64_MAX ->
  exists es, decode_groups (map r_payload recs) = Ok es /\
    replay_log (stamp ++ all_bytes recs) position keyring = Ok (es, None).
Proof.
  intros Hst Hk Hl He. pose proof (layout_len _ _ _ _ _ Hl) as Ee.
  destruct (layout_decodes _ _ _ _ _ Hl (len_nonneg _)) as [es Hes]. exists es. split; [done|].
  rewrite (replay_v2 (stamp ++ all_bytes recs) position keyring nonce seal (len stamp)) by
    (rewrite ?len_app; (lia || by apply read_stamp_stamped)).
  unfold v2_rule.
  destruct (run_layout seal nonce (stamp ++ all_bytes recs) stamp recs [] (len stamp) e
    (length (stamp ++ all_bytes recs)) Hl) as (m & c & _ & _ & ->); [by rewrite app_nil_r|done|unfold len; lia|].
  assert (e = len (stamp ++ all_bytes recs)) as -> by (rewrite len_app; lia). rewrite run_end, app_nil_r, Hes. run.
  unfold v2_verdict. by rewrite Z.eqb_refl.
Qed.

Lemma layout_close `{Target} `{Xxh3} `{Aead} seal nonce o rs1 r rs2 e :
  Layout seal nonce o (rs1 ++ r :: rs2) e -> r_kind r = KIND_CLOSE -> rs2 = [].
Proof.
  revert o. induction rs1 as [|r1 rs1 IH]; intros o; cbn [app Layout]; [by intros (_ & Hc & _)|].
  intros (_ & _ & Hl). by eapply IH.
Qed.

(** The run over a crashed log: the synced records, then the survivors. *)
Lemma crash_log_run `{Target} `{Xxh3Laws} `{AeadLaws} stamp seal nonce synced rest e file :
  Layout seal nonce (len stamp) (synced ++ rest) e ->
  let s := len stamp + len (all_bytes synced) in
  (forall r, In r (synced ++ rest) -> r_kind r = KIND_CLOSE -> len file <= e) ->
  s <= len file -> takez s file = stamp ++ all_bytes synced -> genuine seal nonce file s rest ->
  exists rs1 rs2 c, let o := s + len (all_bytes rs1) in
    rest = rs1 ++ rs2 /\ o <= len file /\ (c = true -> o = len file) /\
    usable_run file seal nonce (length file) (len stamp) false = (map r_payload (synced ++ rs1), o, c).
Proof.
  intros Hl s Hcl Hs Ef Hg. destruct (layout_app _ _ _ _ _ _ Hl) as (m & Hl1 & Hl2).
  pose proof (layout_len _ _ _ _ _ Hl1) as Em. fold s in Em. subst m. pose proof (layout_len _ _ _ _ _ Hl2) as Ee.
  assert (Efile : file = stamp ++ all_bytes synced ++ dropz s file) by (rewrite app_assoc, <- Ef; by rewrite takez_dropz).
  destruct (run_layout seal nonce file stamp synced (dropz s file) (len stamp) s (length file) Hl1 Efile eq_refl)
    as (m & c & Hm & Hc & ->); [unfold len; lia|]. destruct c.
  - destruct Hc as [Hc _]. specialize (Hc eq_refl) as (r & Hin & Hkc).
    assert (rest = []) as ->.
    { apply in_split in Hin as (a & b & ->). rewrite <- app_assoc in Hl. cbn [app] in Hl.
      apply layout_close in Hl; [|done]. by apply app_eq_nil in Hl as [_ ->]. }
    unfold all_bytes in Ee. cbn in Ee. change (len (@nil byte)) with 0 in Ee.
    specialize (Hcl r ltac:(apply in_or_app; by left) Hkc). assert (s = len file) as -> by lia. rewrite run_end.
    exists [], [], true. cbv zeta. rewrite !app_nil_r. change (len (all_bytes [])) with 0.
    split_and!; [done|lia|lia|]. by rewrite Z.add_0_r.
  - destruct (crash_run seal nonce file rest s e m Hl2 Hg) as (rs1 & rs2 & o & c' & E1 & E2 & E3 & E4 & E5);
      [unfold s; llia|done|]. pose proof (layout_len _ _ _ _ _ E2) as ->. exists rs1, rs2, c'.
    rewrite E3, map_app. split_and!; try done. intros Hc'. destruct (E5 Hc') as (r & Hin & Hkc). subst rest.
    assert (len file <= e) by (apply (Hcl r); [apply in_or_app; right; apply in_or_app; by left|done]).
    apply in_split in Hin as (a & b & ->). rewrite <- !app_assoc in Hl2. cbn [app] in Hl2.
    apply layout_close in Hl2; [|done]. apply app_eq_nil in Hl2 as [-> ->]. rewrite app_nil_r in Ee. lia.
Qed.

Lemma crash_replays `{Target} `{Xxh3Laws} `{AeadLaws} stamp seal nonce keyring synced rest e file :
  stamped stamp seal nonce -> can_open keyring seal -> Layout seal nonce (len stamp) (synced ++ rest) e ->
  let s := len stamp + len (all_bytes synced) in
  Forall (fun r => r_synced r <= s) rest ->
  (forall rs1 r rs2, rest = rs1 ++ r :: rs2 -> r_kind r = KIND_CLOSE -> rs1 = []) ->
  (forall r, In r (synced ++ rest) -> r_kind r = KIND_CLOSE -> len file <= e) ->
  s <= len file -> len file < U64_MAX -> takez s file = stamp ++ all_bytes synced ->
  genuine seal nonce file s rest ->
  exists rs1 rs2 es, rest = rs1 ++ rs2 /\ decode_groups (map r_payload (synced ++ rs1)) = Ok es /\
    let o := s + len (all_bytes rs1) in
    o <= len file /\
    replay_log file Newest keyring = Ok (es, if o =? len file then None else Some (mkTail o (len file - o))).
Proof.
  intros Hst Hk Hl s Hsy Hfirst Hcl Hs Hu Ef Hg.
  destruct (crash_log_run stamp seal nonce synced rest e file Hl Hcl Hs Ef Hg) as (rs1 & rs2 & c & E & Ho & Hc & Hrun).
  fold s in Ho, Hc, Hrun. set (o := s + len (all_bytes rs1)) in *.
  assert (Hstamp : read_stamp file keyring = Ok (V2 nonce, seal, len stamp)).
  { rewrite <- (takez_dropz s file), Ef, <- app_assoc. by apply read_stamp_stamped. }
  destruct (layout_app seal nonce (len stamp) (synced ++ rs1) rs2 e) as (m & Hl1 & _); [by rewrite <- app_assoc, <- E|].
  destruct (layout_decodes _ _ _ _ _ Hl1 (len_nonneg _)) as [es Hes].
  exists rs1, rs2, es. cbv zeta. fold o. split_and!; [done|done|done|]. rewrite (replay_v2 _ _ _ _ _ _ Hu Hstamp). unfold v2_rule.
  rewrite Hrun, Hes. run. assert (0 <= s) by (unfold s; llia).
  destruct (v2_verdict_spec file seal nonce Newest o c ltac:(unfold o; llia) Hu)
    as [[Eo ->]|[(Hlt & _ & _ & ->)|(Hlt & Hp & _)]].
  - run. by rewrite (proj2 (Z.eqb_eq o (len file)) Eo).
  - run. by destruct (Z.eqb_spec o (len file)); [lia|].
  - exfalso. destruct Hp as [->|(o' & Ho' & Hp)]; [specialize (Hc eq_refl); lia|].
    destruct (proof_at file nonce (len file) o seal o') as [p|] eqn:Ep; [|done].
    destruct (proof_at_verifies _ _ _ _ _ _ _ eq_refl Ep) as (h & Hv & -> & Hgt).
    assert (Hso : s <= o') by (unfold o in *; llia).
    destruct (Hg o' h Hso Hv) as (a & r & b & Er & Eoff & Hsl).
    destruct (layout_app seal nonce (len stamp) (synced ++ a) (r :: b) e) as (m' & Hla & Hlb); [by rewrite <- app_assoc, <- Er|].
    pose proof (layout_len _ _ _ _ _ Hla) as Em'. destruct Hlb as (Hpl & _).
    assert (m' = o') as -> by (rewrite Em', Eoff; unfold s, all_bytes; rewrite map_app, List.concat_app, len_app; lia).
    destruct (placed_header _ _ _ _ _ _ Hpl Hv Hsl) as [Hkind Hsync]. unfold proves in Hgt. rewrite Hkind in Hgt.
    destruct (Byte.eqb (r_kind r) KIND_CLOSE) eqn:Ek.
    + apply byte_eqb_iff in Ek. rewrite (Hfirst _ _ _ Er Ek) in Eoff. change (len (all_bytes [])) with 0 in Eoff.
      unfold o in Ho'. llia.
    + rewrite Hsync in Hgt. rewrite Er in Hsy. apply Forall_app in Hsy as [_ Hsy]. apply Forall_inv in Hsy. unfold o in *. llia.
Qed.

(** ** The log as the commit pipeline drives it *)

Section Steps.
Context `{T : Target} `{XL : Xxh3Laws} `{AL : AeadLaws}.

(** A decided commit's record: its place, its bytes, and whether a writer said
    that it is written. *)
Record LogSlot := mkLogSlot { ls_place : Place; ls_rec : lrec; ls_written : bool }.
Definition recs_of (slots : list LogSlot) : list lrec := map ls_rec slots.
Definition is_written (s : LogSlot) : Prop := ls_written s = true.

(** The log in use: the writer, the offset up to which the device keeps the
    file, the pipeline's epoch, the commits decided and not discarded, the ones a failed cut left in the file past them, the
    discarded ones whose writers may still come, whether a write was in flight
    when a rollback gave up, whether the database latched, and whether CLOSE
    was placed. *)
Record LState := mkLState {
  st_log : Log;
  st_device : Z;
  st_epoch : Z;
  st_slots : list LogSlot;
  st_uncut : list LogSlot;
  st_gone : list LogSlot;
  st_flying : bool;
  st_latched : bool;
  st_closed : bool;
}.

Definition st_all (st : LState) : list LogSlot := st_slots st ++ st_uncut st.

(** A log just created: a sealed stamp was synced before the file got its name. *)
Definition fresh (g : Log) : LState :=
  mkLState g (if is_sealed (l_seal g) then l_stamp_len g else 0) (l_epoch g) [] [] [] false false false.

Definition with_log (st : LState) (g : Log) : LState :=
  mkLState g (st_device st) (st_epoch st) (st_slots st) (st_uncut st) (st_gone st) (st_flying st) (st_latched st) (st_closed st).
Definition with_slots (st : LState) (g : Log) (slots : list LogSlot) : LState :=
  mkLState g (st_device st) (st_epoch st) slots (st_uncut st) (st_gone st) (st_flying st) (st_latched st) (st_closed st).
(** A sync that the host completed, the directory's included where it is the
    first, keeps the file up to [through]. *)
Definition device_after (st : LState) (through : Z) (synced parent : bool) : Z :=
  if negb (l_poisoned (st_log st)) && synced && (l_parent_synced (st_log st) || parent)
  then Z.max (st_device st) through else st_device st.
Definition after_sync (st : LState) (g : Log) (device : Z) : LState :=
  mkLState g device (st_epoch st) (st_slots st) (st_uncut st) (st_gone st) (st_flying st) (st_latched st) (st_closed st).
(** The log failed with [s] in the file past its end, cut off or not: nothing
    more is decided. *)
Definition latch_over (st : LState) (g : Log) (s : LogSlot) (closed : bool) : LState :=
  mkLState g (st_device st) (st_epoch st) (st_slots st) (st_uncut st ++ [s]) (st_gone st) (st_flying st) true closed.

(** Where the records end. *)
Definition end_of (g : Log) (recs : list lrec) : Z := l_stamp_len g + len (all_bytes recs).
(** [next_off]: where the next record is placed. *)
Definition next_off (st : LState) : Z := end_of (st_log st) (recs_of (st_slots st)).

(** The durable offset, or the end of the stamp when no sync has completed. *)
Definition safe_offset (g : Log) : Z := Z.max (l_durable g) (l_stamp_len g).

(** A record placed at [end_] and framed. Its end is a [u64]: no file is
    longer. *)
Definition frames (g : Log) (epoch end_ : Z) (kind : byte) (payload : bytes) (s : LogSlot) : Prop :=
  exists draw p rec, (forall an, draw = Ok an -> len an = NONCE_LEN) /\
    place g end_ (len payload) epoch draw = Ok p /\
    finish_record g kind p (replicate (Z.to_nat (prefix_len g)) Byte.x00 ++ payload) = Ok rec /\
    end_ + len rec < U64_MAX /\
    s = mkLogSlot p (mkRec kind (p_synced_through p) payload rec) false.

Definition is_commit (payload : bytes) : Prop :=
  payload <> [] /\ len payload <= MAX_RECORD_LEN /\ entries_are_whole payload = true.

Definition takes_commits (st : LState) : Prop := st_closed st = false /\ st_latched st = false.

Definition write_slot (g : Log) (s : LogSlot) (host : host_write) : outcome bool * Log :=
  log_write_record g (ls_place s) (r_bytes (ls_rec s)) host.

(** What [roll_back] makes of the pipeline: the records from the first
    discarded one on are gone with the cut, or the database latches. *)
Definition rolled_back (st : LState) (g : Log) (keep discard : list LogSlot) (left : bool) (cut : outcome unit)
  : LState :=
  match cut with
  | Ok _ => mkLState g (st_device st) (st_epoch st + 1) keep [] (st_gone st ++ discard ++ st_uncut st) false (st_latched st) false
  | _ => mkLState g (st_device st) (st_epoch st + 1) keep (discard ++ st_uncut st) (st_gone st) (st_flying st || negb left) true false
  end.

(** One step of the pipeline.
    - A commit is decided: its record gets the place after the last one.
    - Any thread writes the record of a decided commit, in any order and more
      than once, but below no offset a sync covered ([WalGate]); a write that
      fails poisons the log.
    - A writer of a discarded commit comes late, or a write that was in flight
      when a rollback gave up waiting lands.
    - A sync of a prefix whose records are all written; one that fails poisons.
    - A rollback to the end of the published records, after [turn_away] or not.
    - A commit alone that failed and is cut off, and a reservation written back
      that failed, which is not.
    - CLOSE, once every record is synced.
    - The database latches for another reason. *)
Inductive LogStep (st : LState) : LState -> Prop :=
| step_decide payload s :
    takes_commits st -> is_commit payload ->
    frames (st_log st) (st_epoch st) (next_off st) KIND_GROUP payload s ->
    LogStep st (with_slots st (st_log st) (st_slots st ++ [s]))
| step_write a s b host w g :
    st_slots st = a ++ s :: b -> l_durable (st_log st) <= p_offset (ls_place s) ->
    write_slot (st_log st) s host = (Ok w, g) ->
    LogStep st (with_slots st g (a ++ mkLogSlot (ls_place s) (ls_rec s) (ls_written s || w) :: b))
| step_write_failed a s b host e g :
    st_slots st = a ++ s :: b -> l_durable (st_log st) <= p_offset (ls_place s) ->
    write_slot (st_log st) s host = (Err e, g) ->
    LogStep st (with_log st (poison g e))
| step_late s host r g :
    In s (st_gone st) -> write_slot (st_log st) s host = (r, g) -> LogStep st (with_log st g)
| step_land a s b k :
    st_flying st = true -> st_uncut st = a ++ s :: b ->
    LogStep st (with_log st (with_file (st_log st)
      (write_at (l_file (st_log st)) (p_offset (ls_place s)) (takez k (r_bytes (ls_rec s))))))
| step_sync written rest synced parent r g :
    st_slots st = written ++ rest -> Forall is_written written ->
    sync_through (st_log st) (end_of (st_log st) (recs_of written)) synced parent = (r, g) ->
    LogStep st (after_sync st (match r with Err e => poison g e | _ => g end)
      (device_after st (end_of (st_log st) (recs_of written)) synced parent))
| step_turn_away : LogStep st (with_log st (turn_away (st_log st) (st_epoch st + 1)))
| step_rollback keep discard left cut cause res g :
    st_closed st = false -> st_slots st = keep ++ discard -> Forall is_written keep ->
    safe_offset (st_log st) <= end_of (st_log st) (recs_of keep) ->
    rollback_to (st_log st) (end_of (st_log st) (recs_of keep)) (st_epoch st + 1) left cut = ((cause, res), g) ->
    LogStep st (rolled_back st g keep discard left res)
| step_alone_failed payload s host r g1 cut res g :
    takes_commits st -> is_commit payload -> Forall is_written (st_slots st) ->
    frames (st_log st) (st_epoch st) (next_off st) KIND_GROUP payload s ->
    write_slot (st_log st) s host = (r, g1) ->
    cut_own g1 (Z.max (p_offset (ls_place s)) (l_durable g1)) cut = (res, g) ->
    LogStep st (match res with Ok _ => with_log st g | _ => latch_over st g s false end)
| step_write_back_failed payload s host e g :
    takes_commits st -> is_commit payload -> Forall is_written (st_slots st) ->
    frames (st_log st) (st_epoch st) (next_off st) KIND_GROUP payload s ->
    write_slot (st_log st) s host = (Err e, g) -> LogStep st (latch_over st g s false)
| step_close s host r g :
    takes_commits st -> Forall is_written (st_slots st) -> next_off st <= safe_offset (st_log st) ->
    frames (st_log st) (l_epoch (st_log st)) (next_off st) KIND_CLOSE [] s ->
    write_slot (st_log st) s host = (r, g) ->
    LogStep st (match r with
      | Ok _ => mkLState g (st_device st) (st_epoch st) (st_slots st ++ [mkLogSlot (ls_place s) (ls_rec s) true]) [] (st_gone st)
                  (st_flying st) false true
      | _ => latch_over st g s true
      end)
| step_latch :
    LogStep st (mkLState (st_log st) (st_device st) (st_epoch st) (st_slots st) (st_uncut st) (st_gone st) (st_flying st) true
      (st_closed st)).

Inductive LogReach (start : LState) : LState -> Prop :=
| reach_start : LogReach start start
| reach_step st st' : LogReach start st -> LogStep st st' -> LogReach start st'.

(** *** Records and layouts *)

Lemma all_bytes_app rs1 rs2 : all_bytes (rs1 ++ rs2) = all_bytes rs1 ++ all_bytes rs2.
Proof. unfold all_bytes. by rewrite map_app, List.concat_app. Qed.

Lemma all_bytes_one r : all_bytes [r] = r_bytes r.
Proof. unfold all_bytes. cbn. by rewrite app_nil_r. Qed.

Definition not_close (r : lrec) : Prop := r_kind r <> KIND_CLOSE.

Lemma layout_snoc seal nonce o recs e r :
  Layout seal nonce o recs e -> Forall not_close recs -> placed seal nonce e r ->
  Layout seal nonce o (recs ++ [r]) (e + len (r_bytes r)).
Proof.
  revert o. induction recs as [|r1 recs IH]; intros o Hl Hn Hp.
  - cbn in Hl. subst e. by split_and!.
  - destruct Hl as (Hp1 & _ & Hl). apply Forall_cons_1 in Hn as [Hn1 Hn]. split_and!; [done|by intros Hk|by apply IH].
Qed.

(** The record framed in a buffer with room for its header is the one the
    appending writer writes. *)
Lemma finish_record_bytes g kind p payload rec :
  finish_record g kind p (replicate (Z.to_nat (prefix_len g)) Byte.x00 ++ payload) = Ok rec ->
  record_bytes (l_seal g) kind payload (p_synced_through p) (l_nonce g) (p_offset p) (Ok (p_nonce p)) = Ok rec.
Proof.
  unfold finish_record, record_bytes, prefix_len, frame_record. destruct (l_seal g); cbn [is_sealed]; [done|].
  rewrite len_app, len_replicate. pose proof (len_nonneg payload).
  destruct (Z.ltb_spec (Z.of_nat (Z.to_nat HEADER_LEN) + len payload) HEADER_LEN); [unfold HEADER_LEN in *; lia|].
  rewrite dropz_app; [done|]. by rewrite len_replicate.
Qed.

(** The record has the length fixed when it was placed. *)
Lemma placed_len g kind payload s o an rec :
  record_bytes (l_seal g) kind payload s (l_nonce g) o (Ok an) = Ok rec -> len an = NONCE_LEN ->
  len rec = framed_len g (len payload).
Proof.
  unfold record_bytes, framed_len, frame_record. destruct (l_seal g) as [sl|]; cbn [is_sealed].
  - cbn [mbind outcome_bind]. unfold frame_in_place. rewrite len_app, len_replicate.
    pose proof (len_nonneg payload). set (n := Z.of_nat _).
    assert (Hn : n = SEALED_PREFIX_LEN) by (unfold n; rewrite Z2Nat.id; done).
    destruct (Z.ltb_spec (n + len payload) SEALED_PREFIX_LEN); [lia|]. destruct (_ <? _); [done|].
    intros E Han. apply bind_Ok in E as ([ct tag] & Es & E%Ok_inj). unfold seal_with in Es.
    destruct (encrypt _ _ _ _) as [[a b]|] eqn:En; [|done]. cbn in Es. injection Es as -> ->.
    destruct (encrypt_lens _ _ _ _ _ _ En) as [Hct Htag]. subst rec. rewrite dropz_app in Hct by (rewrite len_replicate; lia).
    unfold OVERHEAD, HEADER_LEN, NONCE_LEN, TAG_LEN in *. rewrite !len_app, Hct, Htag, Han. len_norm. lia.
  - intros E%Ok_inj _. subst rec. unfold encode_header, HEADER_LEN. len_norm. lia.
Qed.

(** *** The bytes of the file *)

(** Each slot's place is where the records before it end, and the bytes of a
    written one are there. *)
Fixpoint lies (file : bytes) (o : Z) (slots : list LogSlot) : Prop :=
  match slots with
  | [] => True
  | s :: slots =>
      p_offset (ls_place s) = o /\
      (is_written s -> slice file o (o + len (r_bytes (ls_rec s))) = Some (r_bytes (ls_rec s))) /\
      lies file (o + len (r_bytes (ls_rec s))) slots
  end.

Definition span (slots : list LogSlot) : Z := len (all_bytes (recs_of slots)).

(** A stamp, then the slots, and nothing past them. *)
Record image (stamp file : bytes) (slots : list LogSlot) : Prop := {
  im_stamp : slice file 0 (len stamp) = Some stamp;
  im_len : len file <= len stamp + span slots;
  im_lies : lies file (len stamp) slots;
}.

Lemma recs_of_app a b : recs_of (a ++ b) = recs_of a ++ recs_of b.
Proof. apply map_app. Qed.

Lemma span_nil : span [] = 0.
Proof. done. Qed.

Lemma span_cons s slots : span (s :: slots) = len (r_bytes (ls_rec s)) + span slots.
Proof. unfold span, all_bytes. cbn. by rewrite len_app. Qed.

Lemma span_app a b : span (a ++ b) = span a + span b.
Proof. unfold span. by rewrite recs_of_app, all_bytes_app, len_app. Qed.

Lemma span_nonneg slots : 0 <= span slots.
Proof. apply len_nonneg. Qed.

Lemma end_of_span g slots : end_of g (recs_of slots) = l_stamp_len g + span slots.
Proof. done. Qed.

Lemma lies_app file o a b : lies file o (a ++ b) <-> lies file o a /\ lies file (o + span a) b.
Proof.
  revert o. induction a as [|s a IH]; intros o; cbn [app lies].
  - rewrite span_nil, Z.add_0_r. tauto.
  - rewrite IH, span_cons, Z.add_assoc. tauto.
Qed.

(** A change of the file that keeps the bytes between two offsets. *)
Lemma lies_kept file file' o slots :
  0 <= o -> (forall x y l, o <= x -> y <= o + span slots -> slice file x y = Some l -> slice file' x y = Some l) ->
  lies file o slots -> lies file' o slots.
Proof.
  revert o. induction slots as [|s slots IH]; intros o Ho Hk; [done|]. rewrite span_cons in Hk.
  pose proof (span_nonneg slots). pose proof (len_nonneg (r_bytes (ls_rec s))).
  intros (Hp & Hw & Hl). split_and!; [done|intros H1; apply Hk; [lia..|by apply Hw]|].
  apply IH; [lia| |done]. intros x y l Hx Hy. apply Hk; lia.
Qed.

(** A part of a record, or all of it, written at its place. *)
Lemma image_write stamp file a s b l rest w :
  image stamp file (a ++ s :: b) -> r_bytes (ls_rec s) = l ++ rest -> r_bytes (ls_rec s) <> [] ->
  (w = true -> rest = [] \/ is_written s) ->
  image stamp (write_at file (p_offset (ls_place s)) l) (a ++ mkLogSlot (ls_place s) (ls_rec s) w :: b).
Proof.
  intros [H1 H2 H3] Er Hne Hw. apply lies_app in H3 as [Ha (Hp & Hs & Hb)]. rewrite Hp.
  pose proof (span_nonneg a). pose proof (len_nonneg stamp). pose proof (len_nonneg rest). pose proof (len_nonneg l).
  pose proof (span_nonneg b).
  rewrite span_app, span_cons in H2. rewrite Er, len_app in H2, Hb.
  pose proof (len_write_at file (len stamp + span a) l ltac:(lia)).
  constructor; [by apply write_at_before; [lia..|]| |].
  - rewrite span_app, span_cons. cbn [ls_rec]. rewrite Er, len_app. lia.
  - apply lies_app. split; [|split_and!; cbn [ls_place ls_rec ls_written]; [done| |]].
    + eapply lies_kept; [lia| |exact Ha]. intros x y k Hx Hy. apply write_at_before; lia.
    + intros Hwr. cbn in Hwr. specialize (Hw Hwr). destruct (decide (is_written s)) as [Hss|Hns].
      * specialize (Hs Hss). rewrite Er in Hs |- *. by rewrite (write_at_same _ _ _ _ Hs).
      * destruct Hw as [->|?]; [|done]. rewrite app_nil_r in Er. rewrite Er. apply write_at_self; [lia|].
        by rewrite <- Er.
    + rewrite Er, len_app. eapply lies_kept; [lia| |exact Hb]. intros x y k Hx Hy. apply write_at_after; lia.
Qed.

(** The slots of a written prefix, byte for byte. *)
Lemma image_of_written stamp file a b :
  image stamp file (a ++ b) -> Forall is_written a ->
  slice file 0 (len stamp + span a) = Some (stamp ++ all_bytes (recs_of a)).
Proof.
  intros [H1 _ H3] Hw. apply lies_app in H3 as [Ha _]. induction a as [|s a IH] using rev_ind.
  { rewrite span_nil, Z.add_0_r. unfold all_bytes. cbn. by rewrite app_nil_r. }
  apply Forall_app in Hw as [Hw Hs%Forall_inv]. apply lies_app in Ha as [Ha (_ & Hl & _)].
  specialize (IH Ha Hw). specialize (Hl Hs). rewrite span_app, span_cons, span_nil.
  apply slice_Some in Hl as (_ & Hb & p & q & -> & Hp & _).
  apply slice_Some in IH as (_ & _ & p' & q' & E & Hp' & Hl'). apply len_zero in Hp'. subst p'. rewrite app_nil_l in E.
  apply app_inj_1 in E as [-> _]; [|unfold len in Hp, Hl'; lia].
  unfold recs_of. rewrite map_app, all_bytes_app. cbn [map]. rewrite all_bytes_one.
  apply (slice_at _ [] _ q); [by rewrite app_nil_l, <- !app_assoc|done|]. rewrite !len_app. unfold span, recs_of. lia.
Qed.

(** Cut back to the end of written slots. *)
Lemma image_cut stamp file a b :
  image stamp file (a ++ b) -> Forall is_written a -> image stamp (set_len file (len stamp + span a)) a.
Proof.
  intros I Hw. pose proof (image_of_written _ _ _ _ I Hw) as (_ & Hb & _)%slice_Some. destruct I as [H1 H2 H3].
  pose proof (span_nonneg a). pose proof (len_nonneg stamp). unfold set_len. constructor.
  - by apply slice_takez; [|lia].
  - rewrite len_takez; lia.
  - apply lies_app in H3 as [Ha _]. eapply lies_kept; [lia| |exact Ha]. intros x y l Hx Hy Hs.
    by apply slice_takez.
Qed.

(** Everything written, and nothing past it. *)
Lemma image_whole stamp file slots :
  image stamp file slots -> Forall is_written slots -> file = stamp ++ all_bytes (recs_of slots).
Proof.
  intros I Hw. rewrite <- (app_nil_r slots) in I.
  pose proof (image_of_written _ _ _ _ I Hw) as (_ & Hb & p & q & -> & Hp & Hl)%slice_Some.
  pose proof (im_len _ _ _ I) as H2. rewrite app_nil_r in H2. apply len_zero in Hp. subst p.
  rewrite app_nil_l in *. assert (q = []) as -> by (apply len_zero; rewrite !len_app in *; llia).
  by rewrite app_nil_r.
Qed.

(** A place just decided holds nothing yet. *)
Lemma image_snoc stamp file slots s :
  image stamp file slots -> p_offset (ls_place s) = len stamp + span slots -> ls_written s = false ->
  image stamp file (slots ++ [s]).
Proof.
  intros [H1 H2 H3] Hp Hw. pose proof (len_nonneg (r_bytes (ls_rec s))).
  constructor; [done|rewrite span_app, span_cons, span_nil; lia|]. apply lies_app. split; [done|].
  split_and!; [done| |done]. unfold is_written. by rewrite Hw.
Qed.

(** *** What does not depend on the bytes *)

(** Records one after the other from the stamp on, none claiming more than a
    sync covered, CLOSE last and after nothing unsynced. *)
Record laid (stamp : bytes) (g : Log) (recs : list lrec) (closed : bool) : Prop := {
  laid_stamp : stamped stamp (l_seal g) (l_nonce g);
  laid_stamp_len : l_stamp_len g = len stamp;
  laid_layout : Layout (l_seal g) (l_nonce g) (len stamp) recs (end_of g recs);
  laid_end : end_of g recs < U64_MAX;
  laid_claims : Forall (fun r => r_synced r <= l_durable g) recs;
  laid_durable : 0 <= l_durable g;
  laid_open : closed = false -> Forall not_close recs;
  laid_closed : closed = true -> exists rs r, recs = rs ++ [r] /\ r_kind r = KIND_CLOSE /\
    Forall not_close rs /\ len stamp + len (all_bytes rs) <= safe_offset g;
}.

Lemma placed_long seal nonce o r : placed seal nonce o r -> HEADER_LEN <= len (r_bytes r).
Proof.
  intros Hp. pose proof (placed_nonneg _ _ _ _ Hp).
  by destruct (placed_record_at seal nonce (replicate (Z.to_nat o) Byte.x00 ++ r_bytes r ++ [])
    (replicate (Z.to_nat o) Byte.x00) r [] o Hp) as [_ Hl]; [done|rewrite len_replicate; lia|].
Qed.

(** What placing and framing a record fixes. *)
Lemma frames_spec g epoch end_ kind payload s :
  frames g epoch end_ kind payload s -> 0 <= l_durable g -> 0 <= end_ ->
  record_shape kind payload -> entries_are_whole payload = true ->
  placed (l_seal g) (l_nonce g) end_ (ls_rec s) /\ p_offset (ls_place s) = end_ /\ p_epoch (ls_place s) = epoch /\
  r_kind (ls_rec s) = kind /\ r_payload (ls_rec s) = payload /\ r_synced (ls_rec s) <= l_durable g /\
  ls_written s = false /\ end_ + len (r_bytes (ls_rec s)) < U64_MAX.
Proof.
  intros (draw & p & rec & Hd & Hpl & Hf & Hend & ->) Hdur Ho Hsh Hw. apply finish_record_bytes in Hf.
  unfold place in Hpl. apply bind_Ok in Hpl as (an & Hn & Hpl%Ok_inj). subst p. cbn in *.
  pose proof (len_nonneg rec). split_and!; try done; [|lia].
  split_and!; cbn; [done|lia..| |done|]; [unfold is_u64, U64_MAX in *; lia|].
  exists (Ok an). split; [|done]. intros ? [= <-]. destruct (l_seal g); [by apply Hd|].
  apply Ok_inj in Hn. by subst an.
Qed.

Lemma laid_put stamp g recs epoch kind payload s closed :
  laid stamp g recs false -> frames g epoch (end_of g recs) kind payload s ->
  record_shape kind payload -> entries_are_whole payload = true ->
  (closed = false -> kind <> KIND_CLOSE) ->
  (closed = true -> kind = KIND_CLOSE /\ end_of g recs <= safe_offset g) ->
  laid stamp g (recs ++ [ls_rec s]) closed.
Proof.
  intros [I1 I2 I3 I4 I5 I6 I7 _] Hf Hsh Hw Hop Hcl. pose proof (len_nonneg stamp).
  pose proof (len_nonneg (all_bytes recs)).
  destruct (frames_spec _ _ _ _ _ _ Hf I6 ltac:(unfold end_of; lia) Hsh Hw) as (Hp & _ & _ & Hk & _ & Hsy & _ & Hend).
  assert (He : end_of g (recs ++ [ls_rec s]) = end_of g recs + len (r_bytes (ls_rec s))).
  { unfold end_of. rewrite all_bytes_app, all_bytes_one, len_app. lia. }
  constructor; rewrite ?He; try done.
  - apply layout_snoc; [done|by apply I7|done].
  - apply Forall_app. by split; [|constructor].
  - intros Hc. apply Forall_app. split; [by apply I7|]. constructor; [|done]. unfold not_close. rewrite Hk. by apply Hop.
  - intros Hc. destruct (Hcl Hc) as [-> Hs]. exists recs, (ls_rec s). split_and!; [done|done|by apply I7|].
    unfold end_of in Hs. lia.
Qed.

Lemma laid_prefix stamp g rs1 rs2 : laid stamp g (rs1 ++ rs2) false -> laid stamp g rs1 false.
Proof.
  intros [I1 I2 I3 I4 I5 I6 I7 _]. pose proof (len_nonneg (all_bytes rs2)).
  assert (He : end_of g (rs1 ++ rs2) = end_of g rs1 + len (all_bytes rs2)) by (unfold end_of; rewrite all_bytes_app; llia).
  constructor; try done; [|lia| |].
  - apply layout_app in I3 as (m & Hl & _). pose proof (layout_len _ _ _ _ _ Hl) as Em. unfold end_of. by rewrite I2, <- Em.
  - by apply Forall_app in I5 as [? _].
  - intros _. specialize (I7 eq_refl). by apply Forall_app in I7 as [? _].
Qed.

(** The file, the epoch and the failure are free, and a sync raises the durable
    offset. *)
Lemma laid_mono stamp g g' recs closed :
  laid stamp g recs closed -> l_seal g' = l_seal g -> l_nonce g' = l_nonce g ->
  l_stamp_len g' = l_stamp_len g -> l_durable g <= l_durable g' -> laid stamp g' recs closed.
Proof.
  intros [] E1 E2 E3 E4. unfold end_of in *.
  constructor; unfold end_of; rewrite ?E1, ?E2, ?E3; try done; [|lia|].
  - eapply Forall_impl; [|done]. cbn. lia.
  - intros Hc. destruct (laid_closed0 Hc) as (rs & r & -> & ? & ? & ?). exists rs, r. split_and!; try done.
    unfold safe_offset in *. rewrite E3. lia.
Qed.

(** *** The invariant *)

(** The records a completed sync covered, all of them written; a sync covers the
    stamp too. *)
Definition synced_prefix (stamp : bytes) (g : Log) (slots : list LogSlot) : Prop :=
  exists synced rest, slots = synced ++ rest /\ Forall is_written synced /\
    safe_offset g = len stamp + span synced /\ (l_durable g = 0 \/ len stamp <= l_durable g).

(** What holds of a log at every point of its writing. *)
Record log_inv (stamp : bytes) (st : LState) : Prop := {
  inv_laid : laid stamp (st_log st) (recs_of (st_all st)) (st_closed st);
  inv_image : image stamp (l_file (st_log st)) (st_all st);
  inv_synced : synced_prefix stamp (st_log st) (st_slots st);
  inv_device : st_device st = l_durable (st_log st);
  inv_epoch : st_epoch st <= l_epoch (st_log st);
  inv_gone : Forall (fun s => p_epoch (ls_place s) < st_epoch st) (st_gone st);
  inv_epochs : st_closed st = false -> Forall (fun s => p_epoch (ls_place s) <= st_epoch st) (st_all st);
  inv_latch : st_latched st = false -> st_uncut st = [];
}.

(** Slots that differ in more of them being written. *)
Definition more_written (s s' : LogSlot) : Prop :=
  ls_place s' = ls_place s /\ ls_rec s' = ls_rec s /\ (is_written s -> is_written s').

Lemma more_written_refl slots : Forall2 more_written slots slots.
Proof. induction slots; by constructor. Qed.

Lemma more_written_recs a b : Forall2 more_written a b -> recs_of b = recs_of a.
Proof. induction 1 as [|s s' a b (_ & E & _) _ IH]; [done|]. unfold recs_of in *. cbn [map]. by rewrite E, IH. Qed.

Lemma more_written_synced stamp g a b :
  Forall2 more_written a b -> synced_prefix stamp g a -> synced_prefix stamp g b.
Proof.
  intros Hm (synced & rest & -> & Hw & Hs & Hu). apply Forall2_app_inv_l in Hm as (l1 & l2 & Hm1 & Hm2 & ->).
  exists l1, l2. split_and!; [done| | |done].
  - clear Hs. induction Hm1 as [|s s' a b (_ & _ & Hss) _ IH]; [done|]. apply Forall_cons_1 in Hw as [H1 H2].
    constructor; [by apply Hss|by apply IH].
  - unfold span. by rewrite (more_written_recs _ _ Hm1).
Qed.

Lemma more_written_epochs (P : Z -> Prop) a b :
  Forall2 more_written a b -> Forall (fun s => P (p_epoch (ls_place s))) a -> Forall (fun s => P (p_epoch (ls_place s))) b.
Proof.
  induction 1 as [|s s' a b (E & _ & _) _ IH]; [done|]. intros [H1 H2]%Forall_cons_1. constructor; [by rewrite E|by apply IH].
Qed.

(** A step that moves the bytes within the slots and marks some written. *)
Lemma inv_frame stamp st g slots :
  log_inv stamp st -> l_seal g = l_seal (st_log st) -> l_nonce g = l_nonce (st_log st) ->
  l_stamp_len g = l_stamp_len (st_log st) -> l_durable g = l_durable (st_log st) ->
  st_epoch st <= l_epoch g -> Forall2 more_written (st_slots st) slots ->
  image stamp (l_file g) (slots ++ st_uncut st) -> log_inv stamp (with_slots st g slots).
Proof.
  intros [I1 I2 I3 Iv I4 I5 I6 I7] E1 E2 E3 E4 E5 Hm Hi.
  assert (Hr : recs_of (slots ++ st_uncut st) = recs_of (st_all st)).
  { unfold st_all. by rewrite !recs_of_app, (more_written_recs _ _ Hm). }
  constructor; unfold st_all; cbn [with_slots st_log st_device st_epoch st_slots st_uncut st_gone st_latched st_closed]; try done.
  - rewrite Hr. eapply laid_mono; [done..|]. lia.
  - apply (more_written_synced _ _ _ _ Hm) in I3 as (a & b & ? & ? & ? & ?). exists a, b. rewrite E4. split_and!; try done.
    unfold safe_offset in *. by rewrite E3, E4.
  - by rewrite E4.
  - intros Hc. specialize (I6 Hc). apply Forall_app in I6 as [H1 H2]. apply Forall_app. split; [|done].
    exact (more_written_epochs (fun e => e <= st_epoch st) _ _ Hm H1).
Qed.

Lemma with_slots_same st g : with_log st g = with_slots st g (st_slots st).
Proof. done. Qed.

(** A write of a slot is turned away by the gate, or puts a part of the record
    at its place, all of it when it says so. *)
Lemma write_slot_cases g s host r g' :
  write_slot g s host = (r, g') ->
  p_epoch (ls_place s) <> l_epoch g /\ r = Ok false /\ g' = g \/
  p_epoch (ls_place s) = l_epoch g /\
  exists k, g' = with_file g (write_at (l_file g) (p_offset (ls_place s)) (takez k (r_bytes (ls_rec s)))) /\
    (r = Ok true /\ dropz k (r_bytes (ls_rec s)) = [] \/ exists e, r = Err e).
Proof.
  unfold write_slot, log_write_record. destruct (Z.eqb_spec (p_epoch (ls_place s)) (l_epoch g)) as [He|He]; cbn [negb].
  - intros E. right. split; [done|]. destruct host as [|k]; injection E as <- <-.
    + exists (len (r_bytes (ls_rec s))). rewrite takez_all by lia. split; [done|]. left. split; [done|].
      by apply dropz_past.
    + exists k. split; [done|]. right. by eexists.
  - intros [= <- <-]. by left.
Qed.

Lemma slot_in_place stamp st a s b :
  log_inv stamp st -> st_all st = a ++ s :: b -> r_bytes (ls_rec s) <> [].
Proof.
  intros I E. pose proof (laid_layout _ _ _ _ (inv_laid _ _ I)) as Hl. rewrite E, recs_of_app in Hl.
  apply layout_app in Hl as (m & _ & (Hp & _)). apply placed_long in Hp. intros Ei. by rewrite Ei in Hp.
Qed.

(** Part of a slot's record at its place. *)
Lemma image_slot stamp st a s b k w :
  log_inv stamp st -> st_all st = a ++ s :: b ->
  (w = true -> dropz k (r_bytes (ls_rec s)) = [] \/ is_written s) ->
  image stamp (write_at (l_file (st_log st)) (p_offset (ls_place s)) (takez k (r_bytes (ls_rec s))))
    (a ++ mkLogSlot (ls_place s) (ls_rec s) w :: b).
Proof.
  intros I E Hw. apply (image_write _ _ _ _ _ _ (dropz k (r_bytes (ls_rec s)))).
  - rewrite <- E. apply (inv_image _ _ I).
  - by rewrite takez_dropz.
  - by eapply slot_in_place.
  - done.
Qed.

(** *** The steps keep it *)

Lemma all_open stamp st : log_inv stamp st -> takes_commits st -> st_all st = st_slots st.
Proof. intros I [_ Hl]. unfold st_all. by rewrite (inv_latch _ _ I Hl), app_nil_r. Qed.

(** A record placed after the others, nothing of it written. *)
Definition placed_over (st : LState) (s : LogSlot) (closed : bool) : LState :=
  mkLState (st_log st) (st_device st) (st_epoch st) (st_slots st ++ [s]) [] (st_gone st) (st_flying st) false closed.

Lemma inv_place stamp st epoch kind payload s closed :
  log_inv stamp st -> takes_commits st -> frames (st_log st) epoch (next_off st) kind payload s ->
  record_shape kind payload -> entries_are_whole payload = true ->
  (closed = false -> kind <> KIND_CLOSE /\ epoch = st_epoch st) ->
  (closed = true -> kind = KIND_CLOSE /\ next_off st <= safe_offset (st_log st)) ->
  log_inv stamp (placed_over st s closed).
Proof.
  intros I Ht Hf Hsh Hw Hop Hcl. pose proof (all_open _ _ I Ht) as Ea. destruct Ht as [Hc _].
  pose proof I as [I1 I2 I3 Iv I4 I5 I6 _]. rewrite Hc, Ea in I1. rewrite Ea in I2. specialize (I6 Hc). rewrite Ea in I6.
  pose proof (len_nonneg stamp). pose proof (laid_stamp_len _ _ _ _ I1) as El. pose proof (span_nonneg (st_slots st)).
  destruct (frames_spec _ _ _ _ _ _ Hf (laid_durable _ _ _ _ I1) ltac:(unfold next_off; rewrite end_of_span; lia) Hsh Hw)
    as (_ & Ho & He & _ & _ & _ & Hwr & _).
  constructor; unfold placed_over, st_all; cbn [st_log st_device st_epoch st_slots st_uncut st_gone st_latched st_closed]; rewrite ?app_nil_r; try done.
  - rewrite recs_of_app. eapply laid_put; try done. intros Hc'. by apply Hop.
  - apply image_snoc; [done| |done]. rewrite Ho. unfold next_off. by rewrite end_of_span, El.
  - destruct I3 as (a & b & -> & ? & ?). exists a, (b ++ [s]). by rewrite <- app_assoc.
  - intros Hc'. apply Forall_app. split; [done|]. constructor; [|done]. destruct (Hop Hc') as [_ ->]. lia.
Qed.

(** The record written, wholly or in part, past the last one, and the database
    latched over it. *)
Lemma inv_latch_over stamp st s closed host r g :
  log_inv stamp (placed_over st s closed) -> st_uncut st = [] -> synced_prefix stamp (st_log st) (st_slots st) ->
  write_slot (st_log st) s host = (r, g) -> log_inv stamp (latch_over st g s closed).
Proof.
  intros I Hu Hs Hw. pose proof I as [I1 I2 _ Iv I4 I5 I6 _]. unfold placed_over, st_all in *.
  cbn [st_log st_device st_epoch st_slots st_uncut st_gone st_latched st_closed] in *.
  assert (Hg : image stamp (l_file g) (st_slots st ++ [s]) /\ l_seal g = l_seal (st_log st) /\ l_nonce g = l_nonce (st_log st) /\
    l_stamp_len g = l_stamp_len (st_log st) /\ l_durable g = l_durable (st_log st) /\ l_epoch g = l_epoch (st_log st)).
  { apply write_slot_cases in Hw as [(_ & _ & ->)|(_ & k & -> & _)]; [by rewrite app_nil_r in I2|].
    split_and!; try done. cbn [l_file with_file].
    pose proof (image_slot _ _ (st_slots st) s [] k (ls_written s) I) as Hi.
    destruct s as [p rec w]. cbn [ls_place ls_rec ls_written] in *. apply Hi; [unfold st_all; cbn; by rewrite app_nil_r|].
    intros ->. by right. }
  destruct Hg as (Hi & E1 & E2 & E3 & E4 & E5).
  constructor; unfold latch_over, st_all; cbn [st_log st_device st_epoch st_slots st_uncut st_gone st_latched st_closed];
    rewrite ?Hu, ?app_nil_l, ?E5; rewrite ?app_nil_r in *; try done.
  - eapply laid_mono; [done..|]. lia.
  - destruct Hs as (a & b & ? & ? & ? & ?). exists a, b. rewrite E4. split_and!; try done. unfold safe_offset in *. by rewrite E3, E4.
  - by rewrite E4.
Qed.

(** The same record cut off again. *)
Lemma inv_cut_own stamp st s host r g1 g :
  log_inv stamp st -> takes_commits st -> log_inv stamp (placed_over st s false) -> Forall is_written (st_slots st) ->
  p_offset (ls_place s) = next_off st -> write_slot (st_log st) s host = (r, g1) ->
  cut_own g1 (Z.max (p_offset (ls_place s)) (l_durable g1)) true = (Ok tt, g) -> log_inv stamp (with_log st g).
Proof.
  intros I Ht Ip Hw Ho Hwr Hc. pose proof (all_open _ _ I Ht) as Ea. destruct Ht as [Hcl Hl].
  pose proof (inv_latch _ _ I Hl) as Hu. pose proof (laid_stamp_len _ _ _ _ (inv_laid _ _ I)) as El.
  assert (Hdur : l_durable (st_log st) <= next_off st).
  { destruct (inv_synced _ _ I) as (a & b & E & _ & Hs). unfold next_off. rewrite end_of_span, E, span_app, El.
    pose proof (span_nonneg b). unfold safe_offset in Hs. lia. }
  pose proof (inv_latch_over _ _ _ _ _ _ _ Ip Hu (inv_synced _ _ I) Hwr) as [_ Hi _ _ _ _ _ _].
  unfold latch_over, st_all in Hi. cbn [st_log st_slots st_uncut] in Hi. rewrite Hu, app_nil_l in Hi.
  apply image_cut in Hi; [|done]. unfold cut_own in Hc. injection Hc as <-.
  assert (Hd : l_durable g1 = l_durable (st_log st) /\ l_seal g1 = l_seal (st_log st) /\ l_nonce g1 = l_nonce (st_log st) /\
    l_stamp_len g1 = l_stamp_len (st_log st) /\ l_epoch g1 = l_epoch (st_log st)).
  { by apply write_slot_cases in Hwr as [(_ & _ & ->)|(_ & k & -> & _)]. }
  destruct Hd as (E1 & E2 & E3 & E4 & E5). rewrite with_slots_same. apply inv_frame; try done.
  - cbn. rewrite E5. apply (inv_epoch _ _ I).
  - apply more_written_refl.
  - cbn [l_file with_file]. rewrite Hu, app_nil_r, Ho, E1, Z.max_l by lia. unfold next_off. by rewrite end_of_span, El.
Qed.

Lemma same_slot (s : LogSlot) : mkLogSlot (ls_place s) (ls_rec s) (ls_written s) = s.
Proof. by destruct s. Qed.

Lemma inv_write stamp st a s b host r g :
  log_inv stamp st -> st_slots st = a ++ s :: b -> write_slot (st_log st) s host = (r, g) ->
  log_inv stamp (with_slots st g (a ++ mkLogSlot (ls_place s) (ls_rec s) (ls_written s || (match r with Ok w => w | _ => false end)) :: b)).
Proof.
  intros I E Hw. apply write_slot_cases in Hw as [(_ & -> & ->)|(_ & k & -> & Hr)].
  { rewrite orb_false_r, same_slot. apply inv_frame; try done; [apply (inv_epoch _ _ I)|rewrite E; apply more_written_refl|].
    rewrite <- E. apply (inv_image _ _ I). }
  apply inv_frame; try done; [apply (inv_epoch _ _ I)| |].
  - rewrite E. apply Forall2_app; [apply more_written_refl|]. constructor; [|apply more_written_refl].
    split_and!; [done..|]. unfold is_written. cbn. by intros ->.
  - cbn [l_file with_file]. rewrite <- app_assoc. cbn [app]. apply (image_slot _ st); [done|unfold st_all; by rewrite E, <- app_assoc|].
    destruct Hr as [[-> Hd]|[e ->]]; [by left|]. rewrite orb_false_r. by right.
Qed.

Lemma inv_poison stamp st e : log_inv stamp st -> log_inv stamp (with_log st (poison (st_log st) e)).
Proof.
  intros I. rewrite with_slots_same. apply inv_frame; try done; [apply (inv_epoch _ _ I)|apply more_written_refl|].
  apply (inv_image _ _ I).
Qed.

(** A sync the host did not complete changes nothing. *)
Lemma sync_cases st through synced parent r g :
  sync_through (st_log st) through synced parent = (r, g) ->
  (exists e, r = Err e) /\ g = st_log st /\ device_after st through synced parent = st_device st \/
  r = Ok tt /\ device_after st through synced parent = Z.max (st_device st) through /\
  g = mkLog (l_file (st_log st)) (l_nonce (st_log st)) (l_seal (st_log st)) (l_stamp_len (st_log st))
        (Z.max (l_durable (st_log st)) through) true (l_epoch (st_log st)) (l_poisoned (st_log st)) (l_failure (st_log st)).
Proof.
  unfold sync_through, device_after. destruct (l_poisoned (st_log st)), synced, (l_parent_synced (st_log st)), parent;
    intros [= <- <-]; (by right) || (left; split_and!; [by eexists|done..]).
Qed.

Lemma inv_sync stamp st written rest synced parent r g :
  log_inv stamp st -> st_slots st = written ++ rest -> Forall is_written written ->
  sync_through (st_log st) (end_of (st_log st) (recs_of written)) synced parent = (r, g) ->
  log_inv stamp (after_sync st (match r with Err e => poison g e | _ => g end)
    (device_after st (end_of (st_log st) (recs_of written)) synced parent)).
Proof.
  intros I E Hw Hs. apply sync_cases in Hs as [([e ->] & -> & ->)|(-> & -> & ->)]; [by apply inv_poison|].
  destruct I as [I1 I2 I3 Iv I4 I5 I6 I7]. pose proof (laid_stamp_len _ _ _ _ I1) as El.
  constructor; unfold after_sync, st_all; cbn [st_log st_device st_epoch st_slots st_uncut st_gone st_latched st_closed]; try done.
  - eapply laid_mono; [done..|]. cbn. lia.
  - destruct I3 as (a & b & Eab & Ha & Hsafe). unfold safe_offset in *. cbn [l_durable l_stamp_len].
    rewrite end_of_span, El in *. pose proof (span_nonneg written). destruct (Z.le_ge_cases (span written) (span a)).
    + exists a, b. split_and!; [done..| |]; unfold safe_offset; cbn; lia.
    + exists written, rest. split_and!; [done..| |]; unfold safe_offset; cbn; pose proof (laid_durable _ _ _ _ I1); lia.
  - cbn. by rewrite Iv.
Qed.

(** A rollback drops whole records, none of them synced; their late writers
    are of an older epoch. *)
Lemma inv_rollback stamp st keep discard left cut cause res g :
  log_inv stamp st -> st_closed st = false -> st_slots st = keep ++ discard -> Forall is_written keep ->
  safe_offset (st_log st) <= end_of (st_log st) (recs_of keep) ->
  rollback_to (st_log st) (end_of (st_log st) (recs_of keep)) (st_epoch st + 1) left cut = ((cause, res), g) ->
  log_inv stamp (rolled_back st g keep discard left res).
Proof.
  intros [I1 I2 I3 Iv I4 I5 I6 I7] Hc E Hw Hs Hr. specialize (I6 Hc).
  assert (Ea : st_all st = keep ++ discard ++ st_uncut st) by (unfold st_all; by rewrite E, <- app_assoc).
  rewrite Ea in I1, I2, I6. rewrite Hc in I1. pose proof (laid_stamp_len _ _ _ _ I1) as El.
  assert (Hsy : synced_prefix stamp (st_log st) keep).
  { destruct I3 as (a & b & Eab & Ha & Hsafe). rewrite E in Eab. apply app_eq_app in Eab as (x & [[-> _]|[-> _]]).
    - by exists a, x.
    - exists keep, []. rewrite app_nil_r. split_and!; [done..| |apply Hsafe]. rewrite end_of_span in Hs. rewrite span_app in Hsafe.
      pose proof (span_nonneg x). lia. }
  assert (Hgone : Forall (fun s => p_epoch (ls_place s) < st_epoch st + 1) (st_gone st)) by (eapply Forall_impl; [|exact I5]; cbn; lia).
  assert (Hle : Forall (fun s => p_epoch (ls_place s) < st_epoch st + 1) (keep ++ discard ++ st_uncut st))
    by (eapply Forall_impl; [|exact I6]; cbn; lia).
  unfold rollback_to in Hr. destruct left, cut; injection Hr as <- <- <-;
    constructor; unfold rolled_back, st_all; cbn [st_log st_device st_epoch st_slots st_uncut st_gone st_latched st_closed];
    rewrite ?app_nil_r; try done; try lia;
    try (by eapply laid_mono; [done..|]; cbn; lia); try (by intros _; eapply Forall_impl; [|exact I6]; cbn; lia).
  - rewrite recs_of_app in I1. apply laid_prefix in I1. eapply laid_mono; [done..|]. cbn. lia.
  - cbn [l_file]. rewrite end_of_span, El. eapply image_cut; [exact I2|done].
  - apply Forall_app in Hle as [_ Hle]. apply Forall_app. by split.
  - intros _. apply Forall_app in I6 as [I6 _]. eapply Forall_impl; [|exact I6]. cbn. lia.
Qed.

Lemma inv_alone_failed stamp st payload s host r g1 cut res g :
  log_inv stamp st -> takes_commits st -> is_commit payload -> Forall is_written (st_slots st) ->
  frames (st_log st) (st_epoch st) (next_off st) KIND_GROUP payload s -> write_slot (st_log st) s host = (r, g1) ->
  cut_own g1 (Z.max (p_offset (ls_place s)) (l_durable g1)) cut = (res, g) ->
  log_inv stamp (match res with Ok _ => with_log st g | _ => latch_over st g s false end).
Proof.
  intros I Ht (Hne & Hlen & Hwh) Hw Hf Hwr Hc.
  assert (Ip : log_inv stamp (placed_over st s false)) by (eapply inv_place; [done..|by left|done|done|done]).
  destruct cut; pose proof Hc as Hc'; unfold cut_own in Hc'; injection Hc' as <- Hg; [|].
  - eapply inv_cut_own; try done. by destruct Hf as (draw & p & rec & _ & (an & _ & <-%Ok_inj)%bind_Ok & _ & _ & ->).
  - subst g. eapply inv_latch_over; [done| |apply (inv_synced _ _ I)|done]. by apply (inv_latch _ _ I), Ht.
Qed.

Lemma inv_close stamp st s host r g :
  log_inv stamp st -> takes_commits st -> next_off st <= safe_offset (st_log st) ->
  frames (st_log st) (l_epoch (st_log st)) (next_off st) KIND_CLOSE [] s -> write_slot (st_log st) s host = (r, g) ->
  log_inv stamp (match r with
    | Ok _ => mkLState g (st_device st) (st_epoch st) (st_slots st ++ [mkLogSlot (ls_place s) (ls_rec s) true]) [] (st_gone st)
                (st_flying st) false true
    | _ => latch_over st g s true
    end).
Proof.
  intros I Ht Hn Hf Hw.
  assert (Ip : log_inv stamp (placed_over st s true)) by (eapply inv_place; [done..|by right|done|done|done]).
  assert (He : p_epoch (ls_place s) = l_epoch (st_log st))
    by (by destruct Hf as (draw & p & rec & _ & (an & _ & <-%Ok_inj)%bind_Ok & _ & _ & ->)).
  assert (Hl : log_inv stamp (latch_over st g s true)).
  { eapply inv_latch_over; [done| |apply (inv_synced _ _ I)|done]. by apply (inv_latch _ _ I), Ht. }
  pose proof Hw as Hcases. apply write_slot_cases in Hcases as [(? & _)|(_ & k & Eg & [[-> Hd]|[e ->]])]; [done| |done].
  pose proof (inv_write _ _ (st_slots st) s [] host (Ok true) g Ip) as Hi. cbn [placed_over st_slots st_log] in Hi.
  specialize (Hi eq_refl Hw). by rewrite orb_true_r in Hi.
Qed.

Lemma inv_step stamp st st' : log_inv stamp st -> LogStep st st' -> log_inv stamp st'.
Proof.
  intros I Hs. destruct Hs as [payload s Ht (Hne & Hlen & Hwh) Hf|a s b host w g E _ Hw|a s b host e g E _ Hw|s host r g Hin Hw
    |a s b k Hfl E|written rest sy parent r g E Hw Hs| |keep discard left cut cause res g Hc E Hw Hsafe Hr
    |payload s host r g1 cut res g Ht Hp Hw Hf Hwr Hc|payload s host e g Ht (Hne & Hlen & Hwh) Hw Hf Hwr|s host r g Ht Hw Hn Hf Hwr|].
  - pose proof (inv_latch _ _ I (proj2 Ht)) as Hu.
    assert (Ip : log_inv stamp (placed_over st s false)) by (eapply inv_place; [done..|by left|done|done|done]).
    unfold with_slots. rewrite Hu. destruct Ht as [Hc Hl]. rewrite Hc, Hl. exact Ip.
  - exact (inv_write _ _ _ _ _ _ _ _ I E Hw).
  - pose proof (inv_write _ _ _ _ _ _ _ _ I E Hw) as Hi. rewrite orb_false_r, same_slot, <- E in Hi.
    exact (inv_poison _ _ e Hi).
  - pose proof (inv_gone _ _ I) as Hg. rewrite List.Forall_forall in Hg. specialize (Hg s Hin). pose proof (inv_epoch _ _ I).
    apply write_slot_cases in Hw as [(_ & _ & ->)|(He & _)]; [by destruct st|cbn in Hg; lia].
  - rewrite with_slots_same. apply inv_frame; try done; [apply (inv_epoch _ _ I)|apply more_written_refl|].
    cbn [l_file with_file]. pose proof (image_slot stamp st (st_slots st ++ a) s b k (ls_written s) I) as Hi.
    rewrite same_slot in Hi. rewrite E, app_assoc. apply Hi; [unfold st_all; by rewrite E, app_assoc|]. by right.
  - exact (inv_sync _ _ _ _ _ _ _ _ I E Hw Hs).
  - rewrite with_slots_same. apply inv_frame; try done; [cbn; lia|apply more_written_refl|apply (inv_image _ _ I)].
  - exact (inv_rollback _ _ _ _ _ _ _ _ _ I Hc E Hw Hsafe Hr).
  - exact (inv_alone_failed _ _ _ _ _ _ _ _ _ _ I Ht Hp Hw Hf Hwr Hc).
  - eapply inv_latch_over; [|by apply (inv_latch _ _ I), Ht|apply (inv_synced _ _ I)|done].
    eapply inv_place; [done..|by left|done|done|done].
  - exact (inv_close _ _ _ _ _ _ I Ht Hn Hf Hwr).
  - destruct I. by constructor.
Qed.

Lemma inv_reach stamp st st' : log_inv stamp st -> LogReach st st' -> log_inv stamp st'.
Proof. intros I H. induction H; [done|]. by eapply inv_step. Qed.

Lemma sealed_stamp_len nonce s draw stamp :
  encode_sealed_stamp nonce s draw = Ok stamp -> (forall an, draw = Ok an -> len an = NONCE_LEN) ->
  (exists an, draw = Ok an) /\ len stamp = SEALED_STAMP_LEN.
Proof.
  unfold encode_sealed_stamp. rewrite wal_stamp_eq. run. rewrite wal_stamp_v2_eq. run. intros E Hd.
  apply bind_Ok in E as ([[an ct] tag] & Es & E%Ok_inj). unfold seal in Es.
  apply bind_Ok in Es as (an' & -> & Es). specialize (Hd _ eq_refl). split; [by exists an'|].
  apply bind_Ok in Es as ([ct' tag'] & Ee & Es%Ok_inj). injection Es as -> -> ->. unfold seal_with in Ee.
  destruct (encrypt _ _ _ _) as [[a b]|] eqn:En; [|done]. cbn in Ee. injection Ee as -> ->.
  destruct (encrypt_lens _ _ _ _ _ _ En) as [_ Htag]. subst stamp. unfold SEALED_STAMP_LEN, NONCE_LEN, TAG_LEN in *. llia.
Qed.

(** A log just created, in the epoch the pipeline is in. *)
Lemma inv_create keyring nonce draw g epoch :
  log_create keyring nonce draw = Ok g -> is_u64 nonce -> (forall an, draw = Ok an -> len an = NONCE_LEN) ->
  log_inv (l_file g) (fresh (start_epoch g epoch)).
Proof.
  unfold log_create, new_stamp. intros E Hn Hd. apply bind_Ok in E as ([stamp seal] & Es & E). apply Ok_inj in E. subst g.
  assert (Hst : stamped stamp seal nonce /\ len stamp <= 1000).
  { destruct keyring as [k|].
    - apply bind_Ok in Es as (s & Hs & Es). apply bind_Ok in Es as (st & He & Es). injection Es as -> <-.
      destruct (sealed_stamp_len _ _ _ _ He Hd) as [[an ->] Hl]. split; [|rewrite Hl; done].
      split; [done|]. exists an. by split; [apply Hd|].
    - apply bind_Ok in Es as (st & He & Es). injection Es as -> <-. split; [by split|].
      destruct (stamp_nonce_encoded _ _ Hn He) as [-> _]. done. }
  destruct Hst as [Hst Hl]. pose proof (len_nonneg stamp). cbn [l_file].
  assert (Hse : 0 <= (if is_sealed seal then len stamp else 0) <= len stamp) by (destruct (is_sealed seal); lia).
  constructor; unfold fresh, st_all; cbn [st_log st_device st_epoch st_slots st_uncut st_gone st_latched st_closed app]; try done.
  - constructor; unfold end_of; cbn; change (len (@nil byte)) with 0; rewrite ?Z.add_0_r; try done; [unfold U64_MAX; lia|lia].
  - constructor; [by apply slice_full|rewrite span_nil; cbn; lia|done].
  - exists [], []. rewrite span_nil. split_and!; [done..| |]; unfold safe_offset; cbn; [lia|]. destruct (is_sealed seal); lia.
Qed.

(** *** Crashes *)

(** Nothing of a stamp is left to read: the file is shorter than one, or begins
    with bytes that are not recognised as the remains of one. *)
Definition stamp_lost (reader : option Keyring) (file : bytes) : Prop :=
  len file <= isize_max /\ read_stamp file reader = Ok (Unstamped, None, 0) /\
  stamp_was_written (takez (STAMP_LEN + HEADER_LEN) file) = Ok false.

(** What a crash may make of the log's file.
    - What a completed sync covered is there.
    - The stamp is there, or it is lost: only a sync makes it last.
    - Past that, each record in use survives whole or does not verify, whatever
      became of the ones before it, and what verifies past the last record is
      what the file held there: no accident of the checks.
    - A log CLOSE was written to is no longer than that. *)
Record crash_leaves (reader : option Keyring) (st : LState) (file : bytes) : Prop := {
  cr_len : st_device st <= len file < U64_MAX;
  cr_synced : takez (st_device st) file = takez (st_device st) (l_file (st_log st));
  cr_stamp : slice file 0 (l_stamp_len (st_log st)) = slice (l_file (st_log st)) 0 (l_stamp_len (st_log st)) \/
             stamp_lost reader file;
  cr_records : forall o h, Z.max (st_device st) (l_stamp_len (st_log st)) <= o ->
    verifies_at file (l_seal (st_log st)) (l_nonce (st_log st)) o = Some h ->
    (exists a s b, st_all st = a ++ s :: b /\ p_offset (ls_place s) = o /\
       slice file o (o + record_len h) = Some (r_bytes (ls_rec s))) \/
    end_of (st_log st) (recs_of (st_all st)) <= o /\
    slice file o (o + record_len h) = slice (l_file (st_log st)) o (o + record_len h);
  cr_closed : st_closed st = true -> len file <= end_of (st_log st) (recs_of (st_all st));
}.

(** A file cut off inside a plain stamp has lost it. *)
Lemma cut_stamp_lost reader nonce stamp n :
  encode_stamp nonce = Ok stamp -> 0 <= n < STAMP_LEN -> stamp_lost reader (takez n stamp).
Proof.
  rewrite encode_stamp_eq. set (tl := to_le 8 nonce ++ _). intros <-%Ok_inj Hn. unfold STAMP_LEN in Hn.
  assert (Ht : len tl = 12) by (unfold tl; llia). clearbody tl. pose proof isize_max_eq. pose proof usize_max_range.
  set (hd := stamp_head FORMAT_V2 0). assert (Hh : len hd = 12) by apply stamp_head_len.
  assert (Hl : len (takez n (hd ++ tl)) = n) by (apply len_takez; llia).
  assert (Hm : n < 12 \/ exists tl', takez n (hd ++ tl) = hd ++ tl').
  { destruct (Z.lt_ge_cases n 12); [by left|]. right. exists (takez (n - 12) tl).
    rewrite <- (takez_dropz (n - 12) tl) at 1. rewrite app_assoc. apply takez_app. rewrite len_app, len_takez; lia. }
  split_and!; [lia| |].
  - unfold read_stamp, WAL_STAMP_LEN. destruct Hm as [Hlt|[tl' E]].
    + unfold validate_wal_stamp, WAL_STAMP_LEN. rewrite (takez_all 12) by lia.
      destruct (Z.ltb_spec (len (takez n (hd ++ tl))) 12); [done|lia].
    + rewrite E in *. rewrite (takez_app 12) by lia. 
      assert (validate_wal_stamp hd = Ok (Some FORMAT_V2)) as -> by (rewrite <- (app_nil_r hd); apply validate_head; [done|by right]). run.
      destruct (stamp_head_fields FORMAT_V2 0 tl' ltac:(done) ltac:(done)) as (_ & Efl & _). fold hd in Efl. rewrite Efl.
      change (FORMAT_V2 =? 2) with true. change (0 =? FLAG_SEALED) with false. change (0 =? 0) with true. cbv iota.
      destruct (Z.ltb_spec (len (hd ++ tl')) STAMP_LEN); [done|unfold STAMP_LEN in *; lia].
  - rewrite (takez_all (STAMP_LEN + HEADER_LEN)) by (unfold STAMP_LEN, HEADER_LEN; lia). unfold stamp_was_written, WAL_STAMP_LEN. destruct Hm as [Hlt|[tl' E]].
    + destruct (Z.ltb_spec (len (takez n (hd ++ tl))) 12); [done|lia].
    + rewrite E. destruct (stamp_head_fields FORMAT_V2 0 tl' ltac:(done) ltac:(done)) as (_ & _ & _ & Emg).
      fold hd in Emg. rewrite Emg, bytes_eqb_refl, orb_true_r. done.
Qed.

Lemma verifies_bytes file seal nonce o h :
  0 <= o -> verifies_at file seal nonce o = Some h ->
  exists l, slice file o (o + record_len h) = Some l /\ o < o + record_len h.
Proof.
  unfold verifies_at. destruct (slice file o (o + HEADER_LEN)) as [l|] eqn:El; [|done]. cbn [mbind option_bind].
  destruct (decode_header l nonce o (is_sealed seal)) as [h'|] eqn:Eh; [|done]. cbn [mbind option_bind].
  destruct (Z.leb_spec (o + record_len h') (len file)); [|done]. cbn [andb]. destruct (payload_usable _ _ _ _ _); [|done].
  intros Ho [= ->]. apply decode_header_inv in Eh as (_ & _ & _ & _ & _ & Hn & _). unfold record_len, HEADER_LEN in *.
  destruct (slice_exists file o (o + (21 + h_len h))) as [k Hk]; [lia|lia|]. exists k. split; [done|lia].
Qed.

(** Past the synced records, what verifies is the rest of the slots: the file
    holds nothing past them, so nothing discarded is found there. *)
Lemma crash_genuine stamp st reader file synced rest :
  log_inv stamp st -> crash_leaves reader st file -> st_all st = synced ++ rest ->
  safe_offset (st_log st) = len stamp + span synced ->
  genuine (l_seal (st_log st)) (l_nonce (st_log st)) file (len stamp + span synced) (recs_of rest).
Proof.
  intros I C E Hs o h Ho Hv. pose proof (len_nonneg stamp). pose proof (span_nonneg synced).
  pose proof (laid_stamp_len _ _ _ _ (inv_laid _ _ I)) as El. pose proof (inv_image _ _ I) as Hi.
  unfold safe_offset in Hs. rewrite <- (inv_device _ _ I) in Hs.
  destruct (cr_records _ _ _ C o h ltac:(lia) Hv) as [(a & s & b & Ea & Hp & Hsl)|[Hpast Hsl]].
  - pose proof (im_lies _ _ _ Hi) as Hl. rewrite Ea in Hl. apply lies_app in Hl as [_ (Hoff & _)].
    pose proof (slot_in_place _ _ _ _ _ I Ea) as Hne. apply nonempty_len in Hne.
    assert (exists x, a = synced ++ x /\ rest = x ++ s :: b) as (x & -> & ->).
    { rewrite E in Ea. apply app_eq_app in Ea as (x & [[-> Er]|[-> Er]]); [|by exists x].
      destruct x as [|s' x]; [exists []; by rewrite !app_nil_r|]. injection Er as <- ->. rewrite span_app, span_cons in *.
      pose proof (span_nonneg x). lia. }
    exists (recs_of x), (ls_rec s), (recs_of b). split_and!; [by rewrite recs_of_app| |done].
    rewrite span_app in Hoff. unfold span in *. lia.
  - exfalso. assert (Ho0 : 0 <= o) by lia. destruct (verifies_bytes _ _ _ _ _ Ho0 Hv) as (l & Hl & Hlt). rewrite Hl in Hsl. symmetry in Hsl.
    apply slice_Some in Hsl as (_ & Hb & _). pose proof (im_len _ _ _ Hi). rewrite end_of_span, El in Hpast. lia.
Qed.

(** In a log being written, CLOSE comes after nothing unsynced. *)
Lemma close_first stamp g recs closed synced rest rs1 r rs2 :
  laid stamp g recs closed -> recs = synced ++ rest -> safe_offset g = len stamp + len (all_bytes synced) ->
  rest = rs1 ++ r :: rs2 -> r_kind r = KIND_CLOSE -> closed = true /\ rs1 = [].
Proof.
  intros I E Es -> Hk. destruct closed.
  - split; [done|]. destruct (laid_closed _ _ _ _ I eq_refl) as (rs & rc & Er & Hkc & Hn & Hsafe).
    assert (rs2 = []) as ->.
    { pose proof (laid_layout _ _ _ _ I) as Hl. rewrite E, app_assoc in Hl. by apply layout_close in Hl. }
    rewrite E, app_assoc in Er. apply app_inj_tail in Er as [<- _]. rewrite all_bytes_app in Hsafe.
    pose proof (laid_layout _ _ _ _ I) as Hl. rewrite E in Hl. apply layout_app in Hl as (m & _ & Hl).
    eapply layout_first; [exact Hl|done|]. llia.
  - exfalso. pose proof (laid_open _ _ _ _ I eq_refl) as Hn. rewrite E, !Forall_app in Hn. destruct Hn as (_ & _ & Hn).
    apply Forall_inv in Hn. by apply Hn.
Qed.

Lemma lost_stamp_replays reader file :
  stamp_lost reader file ->
  replay_log file Newest reader = Ok ([], if 0 =? len file then None else Some (mkTail 0 (len file - 0))).
Proof.
  intros (Hl & Hr & Hw). pose proof isize_max_eq. pose proof usize_max_range. pose proof (len_nonneg file).
  unfold replay_log, open_log. rewrite Hr. run. unfold unstamped. cbn [it_file_len it_file it_position].
  rewrite Z.sub_0_r, (Z.eqb_sym 0). destruct (Z.eqb_spec (len file) 0) as [He|He]; [done|].
  rewrite usize_wrap_small by lia. unfold read_exact_at.
  assert (Es : slice file 0 (0 + Z.min (len file) (STAMP_LEN + HEADER_LEN)) = Some (takez (STAMP_LEN + HEADER_LEN) file)).
  { unfold STAMP_LEN, HEADER_LEN. apply (slice_at _ [] _ (dropz (24 + 21) file)); [by rewrite app_nil_l, takez_dropz|done|].
    unfold takez, len. rewrite length_take. lia. }
  rewrite Es. run. rewrite Hw. run. cbn [drain]. unfold next_entry. by cbn [it_framing].
Qed.

(** What a sync covered, and the stamp, are in the file. *)
Lemma crash_synced_bytes stamp st reader file synced rest :
  log_inv stamp st -> crash_leaves reader st file ->
  slice file 0 (l_stamp_len (st_log st)) = slice (l_file (st_log st)) 0 (l_stamp_len (st_log st)) ->
  st_slots st = synced ++ rest -> Forall is_written synced -> safe_offset (st_log st) = len stamp + span synced ->
  slice file 0 (len stamp + span synced) = Some (stamp ++ all_bytes (recs_of synced)).
Proof.
  intros I C Hst E Hw Es. pose proof (laid_stamp_len _ _ _ _ (inv_laid _ _ I)) as El.
  pose proof (inv_image _ _ I) as Hi. unfold st_all in Hi. rewrite E, <- app_assoc in Hi.
  pose proof (image_of_written _ _ _ _ Hi Hw) as Hpre. pose proof (cr_len _ _ _ C). pose proof (cr_synced _ _ _ C) as Hcs.
  rewrite (inv_device _ _ I) in *.
  set (d := l_durable (st_log st)) in *.
  destruct (Z.le_ge_cases (len stamp) d) as [Hge|Hlt].
  - assert (Ed : len stamp + span synced = d) by (unfold safe_offset in Es; rewrite El in Es; lia). rewrite Ed in *.
    apply slice_Some in Hpre as (_ & Hb & p & q & Ef & Hp & Hl). apply len_zero in Hp. subst p. rewrite app_nil_l in Ef.
    apply (slice_at _ [] _ (dropz d file)); [|done|lia]. rewrite app_nil_l, <- (takez_dropz d file) at 1. f_equal.
    rewrite Hcs, Ef. apply takez_app. lia.
  - assert (Ed : len stamp + span synced = len stamp) by (unfold safe_offset in Es; rewrite El in Es; lia).
    rewrite <- Hpre, Ed. by rewrite <- El.
Qed.

(** With its stamp, the file replays to the synced records and the survivors
    that follow them. *)
Lemma inv_crash_stamped stamp st reader file :
  log_inv stamp st -> can_open reader (l_seal (st_log st)) -> crash_leaves reader st file ->
  slice file 0 (l_stamp_len (st_log st)) = slice (l_file (st_log st)) 0 (l_stamp_len (st_log st)) ->
  exists kept lost es, recs_of (st_all st) = kept ++ lost /\ decode_groups (map r_payload kept) = Ok es /\
    let o := end_of (st_log st) kept in
    l_durable (st_log st) <= o <= len file /\
    replay_log file Newest reader = Ok (es, if o =? len file then None else Some (mkTail o (len file - o))).
Proof.
  intros I Hk C Hst. pose proof (inv_laid _ _ I) as Hla. destruct (inv_synced _ _ I) as (synced & rest & E & Hw & Es & Hz).
  pose proof (laid_stamp_len _ _ _ _ Hla) as El. pose proof (laid_layout _ _ _ _ Hla) as Hl.
  assert (Ea : st_all st = synced ++ rest ++ st_uncut st) by (unfold st_all; by rewrite E, <- app_assoc).
  pose proof (crash_synced_bytes _ _ _ _ _ _ I C Hst E Hw Es) as Hfile.
  apply slice_Some in Hfile as (_ & Hb & p & q & Ef & Hp0 & Hlen). apply len_zero in Hp0. subst p. rewrite app_nil_l in Ef.
  rewrite Ea, recs_of_app in Hl. pose proof (crash_genuine _ _ _ _ _ _ I C Ea Es) as Hg.
  destruct (crash_replays stamp (l_seal (st_log st)) (l_nonce (st_log st)) reader (recs_of synced) (recs_of (rest ++ st_uncut st))
    (end_of (st_log st) (recs_of synced ++ recs_of (rest ++ st_uncut st))) file (laid_stamp _ _ _ _ Hla) Hk Hl)
    as (rs1 & rs2 & es & E1 & E2 & E3 & E4); try done.
  - pose proof (laid_claims _ _ _ _ Hla) as Hc. rewrite Ea, recs_of_app in Hc. apply Forall_app in Hc as [_ Hc].
    eapply Forall_impl; [|exact Hc]. cbn. unfold safe_offset, span in Es. lia.
  - intros a r b Er Hkind. rewrite Ea, recs_of_app in Hla. by destruct (close_first _ _ _ _ _ _ _ _ _ Hla eq_refl Es Er Hkind).
  - intros r Hin Hkind. rewrite <- recs_of_app, <- Ea in *. apply (cr_closed _ _ _ C). destruct (st_closed st) eqn:Hc; [done|].
    pose proof (laid_open _ _ _ _ Hla eq_refl) as Hn. rewrite List.Forall_forall in Hn. by destruct (Hn r Hin).
  - apply (cr_len _ _ _ C).
  - rewrite Ef. apply takez_app. unfold span in Hlen. lia.
  - exists (recs_of synced ++ rs1), rs2, es. rewrite Ea, recs_of_app, E1, <- app_assoc. split_and!; [done|done|]. cbv zeta.
    assert (end_of (st_log st) (recs_of synced ++ rs1) = len stamp + len (all_bytes (recs_of synced)) + len (all_bytes rs1)) as ->.
    { unfold end_of. rewrite all_bytes_app, len_app. lia. }
    split; [|done]. unfold safe_offset, span in *. llia.
Qed.

(** With its stamp lost nothing is kept, and nothing was synced. *)
Lemma inv_crash_lost stamp st reader file :
  log_inv stamp st -> can_open reader (l_seal (st_log st)) -> crash_leaves reader st file ->
  stamp_lost reader file -> l_durable (st_log st) = 0.
Proof.
  intros I Hk C (_ & Hr & _). destruct (inv_synced _ _ I) as (_ & _ & _ & _ & _ & [Hz|Hz]); [done|exfalso].
  pose proof (im_stamp _ _ _ (inv_image _ _ I)) as (_ & _ & p & q & Ef & Hp & _)%slice_Some. apply len_zero in Hp. subst p.
  pose proof (cr_synced _ _ _ C) as Ht. pose proof (cr_len _ _ _ C). pose proof (len_nonneg stamp).
  rewrite (inv_device _ _ I) in *.
  assert (Es : exists q', file = stamp ++ q').
  { exists (dropz (len stamp) file). rewrite <- (takez_dropz (len stamp) file) at 1. f_equal.
    assert (Et : forall l : bytes, takez (len stamp) l = takez (len stamp) (takez (l_durable (st_log st)) l)).
    { intros l. unfold takez. rewrite take_take. f_equal. lia. }
    rewrite (Et file), Ht, <- Et, Ef, app_nil_l. by apply takez_app. }
  destruct Es as [q' ->]. by rewrite (read_stamp_stamped _ _ _ _ _ (laid_stamp _ _ _ _ (inv_laid _ _ I)) Hk) in Hr.
Qed.

(** Every record written and nothing to cut: the file is the records. *)
Lemma written_image stamp st reader position :
  log_inv stamp st -> can_open reader (l_seal (st_log st)) -> st_latched st = false -> Forall is_written (st_slots st) ->
  l_file (st_log st) = stamp ++ all_bytes (recs_of (st_slots st)) /\
  exists es, decode_groups (map r_payload (recs_of (st_slots st))) = Ok es /\
    replay_log (l_file (st_log st)) position reader = Ok (es, None).
Proof.
  intros I Hk Hl Hw. pose proof (inv_laid _ _ I) as Hla. pose proof (inv_image _ _ I) as Hi. unfold st_all in *.
  rewrite (inv_latch _ _ I Hl), app_nil_r in *. rewrite (image_whole _ _ _ Hi Hw). split; [done|].
  eapply whole_log_replays; [apply (laid_stamp _ _ _ _ Hla)|done|apply (laid_layout _ _ _ _ Hla)|apply (laid_end _ _ _ _ Hla)].
Qed.

(** C5: a log created and then written by any sequence of steps of the pipeline,
    whatever order its records are written in and however many writes, syncs
    and commits failed and were rolled back, holds the stamp and the records of
    the commits not discarded, byte for byte and nothing else, once those are
    all written; it replays to exactly these commits, in order, and drops
    nothing. Only a database that latched, because discarded records could not
    be cut off, is excluded. *)
Theorem written_log_replays keyring nonce draw g0 epoch st reader position :
  log_create keyring nonce draw = Ok g0 -> is_u64 nonce -> (forall an, draw = Ok an -> len an = NONCE_LEN) ->
  LogReach (fresh (start_epoch g0 epoch)) st -> can_open reader (l_seal (st_log st)) ->
  st_latched st = false -> Forall is_written (st_slots st) ->
  l_file (st_log st) = l_file g0 ++ all_bytes (recs_of (st_slots st)) /\
  exists es, decode_groups (map r_payload (recs_of (st_slots st))) = Ok es /\
    replay_log (l_file (st_log st)) position reader = Ok (es, None).
Proof.
  intros Hc Hn Hd Hr. apply written_image. exact (inv_reach _ _ _ (inv_create _ _ _ _ epoch Hc Hn Hd) Hr).
Qed.

(** C2: a crash at any moment loses no synced commit. Whatever the device made
    of the records past the last completed sync, each of them there or not and
    the stamp too when no sync has covered it, replay opens the log and yields
    the commits of a prefix of the history that reaches past that sync, and
    cuts the rest off as a tail: it neither refuses nor skips, and no commit
    that was rolled back is among them. When a cut failed and the database
    latched, the history goes on with the commits the cut left. *)
Theorem crash_keeps_synced_commits keyring nonce draw g0 epoch st reader file :
  log_create keyring nonce draw = Ok g0 -> is_u64 nonce -> (forall an, draw = Ok an -> len an = NONCE_LEN) ->
  LogReach (fresh (start_epoch g0 epoch)) st -> can_open reader (l_seal (st_log st)) ->
  crash_leaves reader st file ->
  (st_latched st = false -> st_uncut st = []) /\
  exists kept lost es o, recs_of (st_slots st ++ st_uncut st) = kept ++ lost /\ decode_groups (map r_payload kept) = Ok es /\
    l_durable (st_log st) <= o <= len file /\ (o = end_of (st_log st) kept \/ o = 0 /\ kept = []) /\
    replay_log file Newest reader = Ok (es, if o =? len file then None else Some (mkTail o (len file - o))).
Proof.
  intros Hc Hn Hd Hr Hk C. pose proof (inv_reach _ _ _ (inv_create _ _ _ _ epoch Hc Hn Hd) Hr) as I.
  split; [apply (inv_latch _ _ I)|]. destruct (cr_stamp _ _ _ C) as [Hs|Hlost].
  - destruct (inv_crash_stamped _ _ _ _ I Hk C Hs) as (kept & lost & es & E1 & E2 & E3 & E4).
    exists kept, lost, es, (end_of (st_log st) kept). split_and!; try done; try apply E3. by left.
  - rewrite (inv_crash_lost _ _ _ _ I Hk C Hlost). exists [], (recs_of (st_all st)), [], 0.
    split_and!; [done|done|lia|apply len_nonneg|by right|by apply lost_stamp_replays].
Qed.

(** *** Closing *)

Lemma put_record_frames g kind payload end_ draw host w p g' :
  put_record g kind payload end_ draw host = (Ok (w, p), g') ->
  (forall an, draw = Ok an -> len an = NONCE_LEN) -> end_ + framed_len g (len payload) < U64_MAX ->
  exists s, frames g (l_epoch g) end_ kind payload s /\ ls_place s = p /\
    place_end p = end_ + len (r_bytes (ls_rec s)) /\ r_payload (ls_rec s) = payload /\
    write_slot g s host = (Ok w, g').
Proof.
  unfold put_record. intros E Hd Hu.
  destruct (place g end_ (len payload) (l_epoch g) draw) as [p'| | |] eqn:Ep; try done. cbn [mbind outcome_bind] in E.
  destruct (finish_record _ _ _ _) as [rec| | |] eqn:Ef; try done. cbn [mbind outcome_bind] in E.
  destruct (log_write_record g p' rec host) as [[w'| | |] g''] eqn:Ew; try done. injection E as -> -> ->.
  pose proof Ep as Epl. unfold place in Ep. apply bind_Ok in Ep as (an & Hn & Ep%Ok_inj).
  pose proof (placed_len _ _ _ _ _ _ _ (finish_record_bytes _ _ _ _ _ Ef)) as Hlen. rewrite <- Ep in Hlen at 1. cbn [p_nonce] in Hlen.
  assert (Han : len an = NONCE_LEN) by (destruct (l_seal g); [by apply Hd|apply Ok_inj in Hn; by subst an]).
  specialize (Hlen Han). exists (mkLogSlot p (mkRec kind (p_synced_through p) payload rec) false).
  split_and!; [|done| |done|done].
  - exists draw, p, rec. split_and!; try done. lia.
  - subst p. unfold place_end. cbn. lia.
Qed.

Lemma sync_through_Ok g through f p g' :
  sync_through g through f p = (Ok tt, g') ->
  f = true /\ l_seal g' = l_seal g /\ l_stamp_len g' = l_stamp_len g /\ l_durable g' = Z.max (l_durable g) through.
Proof.
  unfold sync_through. destruct (l_poisoned g); [done|]. destruct f; [|done]. cbn [negb].
  destruct (_ && _); [done|]. by intros [= <-].
Qed.

(** A completed sync of everything decided, as a step. *)
Lemma sync_step st through f p g :
  st_device st = l_durable (st_log st) -> Forall is_written (st_slots st) -> through = next_off st ->
  sync_through (st_log st) through f p = (Ok tt, g) -> LogStep st (after_sync st g (l_durable g)).
Proof.
  intros Hv Hw -> Hs. pose proof (step_sync st (st_slots st) [] f p (Ok tt) g ltac:(by rewrite app_nil_r) Hw Hs) as Hst.
  apply sync_cases in Hs as [([e He] & _)|(_ & Hd & ->)]; [done|]. fold (next_off st) in Hst. rewrite Hd, Hv in Hst. exact Hst.
Qed.

(** [close] is a sync, unless nothing needs one, CLOSE, and a sync of it. *)
Lemma close_steps st draw first last g :
  takes_commits st -> st_uncut st = [] -> st_device st = l_durable (st_log st) -> Forall is_written (st_slots st) ->
  (forall an, draw = Ok an -> len an = NONCE_LEN) -> next_off st + framed_len (st_log st) 0 < U64_MAX ->
  close (st_log st) (next_off st) draw first last Written = (Ok tt, g) ->
  exists s, let slots := st_slots st ++ [mkLogSlot (ls_place s) (ls_rec s) true] in
    LogReach st (mkLState g (l_durable g) (st_epoch st) slots [] (st_gone st) (st_flying st) false true) /\
    r_payload (ls_rec s) = [] /\ l_seal g = l_seal (st_log st) /\
    end_of g (recs_of slots) <= l_durable g.
Proof.
  intros Ht Hu Hv Hw Hd Hb Hc. unfold close in Hc. fold (safe_offset (st_log st)) in Hc.
  set (tail := fun g1 => match put_record g1 KIND_CLOSE [] (next_off st) draw Written with
      | (Ok (_, p), g2) => sync_through g2 (place_end p) last.1 last.2
      | (Err e, g2) => (Err e, g2) | (Panic, g2) => (Panic, g2) | (OutOfFuel, g2) => (OutOfFuel, g2) end).
  assert (Hfirst : exists g1, LogReach st (after_sync st g1 (l_durable g1)) /\ l_seal g1 = l_seal (st_log st) /\
    l_stamp_len g1 = l_stamp_len (st_log st) /\ next_off st <= safe_offset g1 /\ tail g1 = (Ok tt, g)).
  { destruct (Z.ltb_spec (safe_offset (st_log st)) (next_off st)) as [Hlt|Hge].
    - destruct (sync_through (st_log st) (next_off st) first.1 first.2) as [[[]| | |] g1] eqn:Es; try done.
      destruct (sync_through_Ok _ _ _ _ _ Es) as (Ef & E1 & E2 & E3). exists g1. split_and!; try done.
      + eapply reach_step; [apply reach_start|]. by eapply sync_step.
      + unfold safe_offset. lia.
    - exists (st_log st). split_and!; try done. rewrite <- Hv.
      assert (after_sync st (st_log st) (st_device st) = st) as -> by (by destruct st). apply reach_start. }
  clear Hc. destruct Hfirst as (g1 & Hr & E1 & E2 & Hsafe & Hc). unfold tail in Hc.
  destruct (put_record g1 KIND_CLOSE [] (next_off st) draw Written) as [[[w p]| | |] g2] eqn:Ep; try done.
  apply put_record_frames in Ep as (s & Hf & <- & Hpe & Hpay & Hwr); [|done|unfold framed_len in *; rewrite E1; exact Hb].
  exists s. cbv zeta. set (slots := st_slots st ++ _).
  set (st1 := after_sync st g1 (l_durable g1)) in *.
  assert (Hn : next_off st1 = next_off st) by (unfold next_off, end_of; cbn; by rewrite E2).
  assert (Eg2 : l_seal g2 = l_seal g1 /\ l_stamp_len g2 = l_stamp_len g1 /\ l_durable g2 = l_durable g1)
    by (by apply write_slot_cases in Hwr as [(_ & _ & ->)|(_ & k & -> & _)]). destruct Eg2 as (G1 & G2 & G3).
  set (st2 := mkLState g2 (l_durable g2) (st_epoch st) slots [] (st_gone st) (st_flying st) false true).
  assert (Hstep : LogStep st1 st2).
  { unfold st2. rewrite G3. apply (step_close st1 s Written (Ok w) g2); try done; by rewrite Hn. }
  destruct (sync_through_Ok _ _ _ _ _ Hc) as (El & E3 & E4 & E5).
  assert (Hend : place_end (ls_place s) = end_of g2 (recs_of slots)).
  { rewrite Hpe. unfold next_off. rewrite !end_of_span. unfold slots. rewrite span_app, span_cons, span_nil.
    rewrite G2, E2. cbn. lia. }
  split_and!; [|done|by rewrite E3, G1|].
  - eapply reach_step; [by eapply reach_step|]. apply (sync_step st2 (place_end (ls_place s)) last.1 last.2 g); try done.
    apply Forall_app. split; [done|]. by constructor.
  - rewrite E5, Hend. rewrite !end_of_span, E4. lia.
Qed.

(** A close that returns leaves the whole log durable, CLOSE included, in
    a file that replays to every commit, in either position. *)
Theorem closed_log_is_whole keyring nonce draw g0 epoch st draw' first last g reader position :
  log_create keyring nonce draw = Ok g0 -> is_u64 nonce -> (forall an, draw = Ok an -> len an = NONCE_LEN) ->
  LogReach (fresh (start_epoch g0 epoch)) st -> can_open reader (l_seal (st_log st)) ->
  takes_commits st -> Forall is_written (st_slots st) -> (forall an, draw' = Ok an -> len an = NONCE_LEN) ->
  next_off st + framed_len (st_log st) 0 < U64_MAX ->
  close (st_log st) (next_off st) draw' first last Written = (Ok tt, g) ->
  len (l_file g) <= l_durable g /\
  exists es, decode_groups (map r_payload (recs_of (st_slots st))) = Ok es /\
    replay_log (l_file g) position reader = Ok (es, None).
Proof.
  intros Hc Hn Hd Hr Hk Ht Hw Hd' Hu Hcl. pose proof (inv_reach _ _ _ (inv_create _ _ _ _ epoch Hc Hn Hd) Hr) as I.
  destruct (close_steps _ _ _ _ _ Ht (inv_latch _ _ I (proj2 Ht)) (inv_device _ _ I) Hw Hd' Hu Hcl) as (s & Hr' & Hp & Es & Hdur).
  pose proof (inv_reach _ _ _ I Hr') as I'. set (st' := mkLState g _ _ _ _ _ _ _ _) in *.
  destruct (written_image _ _ reader position I') as (Ef & es & Hes & Hrep);
    [by rewrite <- Es in Hk|done|apply Forall_app; split; [done|by constructor]|].
  split.
  - pose proof (laid_stamp_len _ _ _ _ (inv_laid _ _ I')) as El. cbn [st_log st_slots st'] in *. unfold end_of in Hdur. rewrite Ef, len_app. lia.
  - exists es. split; [|done]. cbn [st_slots st'] in Hes. rewrite recs_of_app, map_app in Hes. cbn in Hes. rewrite Hp in Hes.
    destruct (decode_groups (map r_payload (recs_of (st_slots st)))) as [es0| | |] eqn:E0.
    2-4: destruct (layout_decodes _ _ _ _ _ (laid_layout _ _ _ _ (inv_laid _ _ I)) (len_nonneg _)) as [es0 Hes0];
      unfold st_all in Hes0; rewrite (inv_latch _ _ I (proj2 Ht)), app_nil_r in Hes0; by rewrite Hes0 in E0.
    rewrite (decode_groups_app _ [[]] es0 [] E0) in Hes by done. by rewrite app_nil_r in Hes.
Qed.

End Steps.

(** ** A sealed log of two commits: the first is synced, the second failed once,
    was rolled back and committed again *)

Definition sample_payload : bytes := Eval vm_compute in encode_ops_record sample_ops 1.
Definition sample_draw : outcome bytes := Ok (replicate 12 Byte.x07).

(** The log's states differ in the file, the durable offset and the epoch. *)
Definition sample_at (file : bytes) (durable epoch : Z) : Log (A := toy_aead) :=
  mkLog (A := toy_aead) file 7 (Some toy_sealer) SEALED_STAMP_LEN durable true epoch false None.
Definition sample_place (durable offset epoch : Z) : Place :=
  mkPlace offset (framed_len (sample_at [] 0 0) (len sample_payload)) durable (replicate 12 Byte.x07) epoch.
Definition or_empty (r : outcome bytes) : bytes := match r with Ok l => l | _ => [] end.

Definition sample_stamp : bytes := Eval vm_compute in
  or_empty (encode_sealed_stamp (X := toy_xxh3) (A := toy_aead) 7 toy_sealer sample_draw).
(** The record at [offset] when a sync has covered [durable]. *)
Definition sample_record (durable offset : Z) : outcome bytes :=
  finish_record (X := toy_xxh3) (A := toy_aead) (sample_at [] 0 0) KIND_GROUP (sample_place durable offset 0)
    (replicate (Z.to_nat SEALED_PREFIX_LEN) Byte.x00 ++ sample_payload).
Definition sample_end1 : Z := Eval vm_compute in SEALED_STAMP_LEN + framed_len (sample_at [] 0 0) (len sample_payload).
Definition sample_rec1 : bytes := Eval vm_compute in or_empty (sample_record SEALED_STAMP_LEN SEALED_STAMP_LEN).
Definition sample_rec2 : bytes := Eval vm_compute in or_empty (sample_record sample_end1 sample_end1).
Definition sample_file1 : bytes := Eval vm_compute in sample_stamp ++ sample_rec1.
Definition sample_file2 : bytes := Eval vm_compute in sample_file1 ++ sample_rec2.

Definition sample_slot1 (written : bool) : LogSlot :=
  mkLogSlot (sample_place SEALED_STAMP_LEN SEALED_STAMP_LEN 0) (mkRec KIND_GROUP SEALED_STAMP_LEN sample_payload sample_rec1) written.
Definition sample_slot2 (epoch : Z) (written : bool) : LogSlot :=
  mkLogSlot (sample_place sample_end1 sample_end1 epoch) (mkRec KIND_GROUP sample_end1 sample_payload sample_rec2) written.

Definition sample_log : Log (A := toy_aead) := sample_at sample_stamp SEALED_STAMP_LEN 0.
(** The second record torn by a failed write. *)
Definition sample_torn : Log (A := toy_aead) :=
  poison (sample_at (sample_file1 ++ takez 10 sample_rec2) sample_end1 0) io_failed.

Definition sample_st (g : Log (A := toy_aead)) (epoch : Z) (slots gone : list LogSlot) : LState (A := toy_aead) :=
  mkLState g (l_durable g) epoch slots [] gone false false false.
Definition sample_state : LState (A := toy_aead) :=
  sample_st (sample_at sample_file2 sample_end1 1) 1 [sample_slot1 true; sample_slot2 1 true] [sample_slot2 0 false].
(** A crash that tore the second record inside its header. *)
Definition sample_crash : bytes := Eval vm_compute in takez (sample_end1 + 20) sample_file2.

Lemma sample_draw_len an : sample_draw = Ok an -> len an = NONCE_LEN.
Proof. by intros [= <-]. Qed.

Lemma sample_commit : is_commit (T := target64) sample_payload.
Proof. split_and!; [discriminate|apply Z.leb_le; computed|computed]. Qed.

Lemma sample_synced :
  LogReach (T := target64) (X := toy_xxh3) (A := toy_aead) (fresh sample_log)
    (sample_st (sample_at sample_file1 sample_end1 0) 0 [sample_slot1 true] []).
Proof.
  apply (reach_step _ (sample_st (sample_at sample_file1 SEALED_STAMP_LEN 0) 0 [sample_slot1 true] []));
    [apply (reach_step _ (sample_st sample_log 0 [sample_slot1 false] [])); [eapply reach_step; [apply reach_start|]|]|].
  - apply (step_decide (fresh sample_log) sample_payload (sample_slot1 false)); [done|apply sample_commit|].
    exists sample_draw, (sample_place SEALED_STAMP_LEN SEALED_STAMP_LEN 0), sample_rec1.
    split_and!; [apply sample_draw_len|computed|computed|apply Z.ltb_lt; computed|done].
  - apply (step_write (sample_st sample_log 0 [sample_slot1 false] []) [] (sample_slot1 false) [] Written true); [done|apply Z.leb_le; computed|computed].
  - apply (sync_step (sample_st (sample_at sample_file1 SEALED_STAMP_LEN 0) 0 [sample_slot1 true] []) sample_end1 true true
      (sample_at sample_file1 sample_end1 0)); [done|by constructor|computed|computed].
Qed.

Lemma sample_rolled_back :
  LogReach (T := target64) (X := toy_xxh3) (A := toy_aead) (fresh sample_log)
    (sample_st (sample_at sample_file1 sample_end1 1) 1 [sample_slot1 true] [sample_slot2 0 false]).
Proof.
  pose (decided := sample_st (sample_at sample_file1 sample_end1 0) 0 [sample_slot1 true; sample_slot2 0 false] []).
  pose (torn := sample_st sample_torn 0 [sample_slot1 true; sample_slot2 0 false] []).
  apply (reach_step _ torn); [apply (reach_step _ decided); [apply (reach_step _ _ _ sample_synced)|]|].
  - apply (step_decide (sample_st (sample_at sample_file1 sample_end1 0) 0 [sample_slot1 true] []) sample_payload (sample_slot2 0 false));
      [done|apply sample_commit|].
    exists sample_draw, (sample_place sample_end1 sample_end1 0), sample_rec2.
    split_and!; [apply sample_draw_len|computed|computed|apply Z.ltb_lt; computed|done].
  - apply (step_write_failed decided [sample_slot1 true] (sample_slot2 0 false) [] (FailedAfter 10) io_failed); [done|apply Z.leb_le; computed|computed].
  - apply (step_rollback torn [sample_slot1 true] [sample_slot2 0 false] true true (Some io_failed) (Ok tt) (sample_at sample_file1 sample_end1 1));
      [done|done|by constructor|apply Z.leb_le; computed|computed].
Qed.

Lemma sample_reach : LogReach (T := target64) (X := toy_xxh3) (A := toy_aead) (fresh sample_log) sample_state.
Proof.
  pose (again := sample_st (sample_at sample_file1 sample_end1 1) 1 [sample_slot1 true; sample_slot2 1 false] [sample_slot2 0 false]).
  apply (reach_step _ again); [apply (reach_step _ _ _ sample_rolled_back)|].
  - apply (step_decide (sample_st (sample_at sample_file1 sample_end1 1) 1 [sample_slot1 true] [sample_slot2 0 false]) sample_payload
      (sample_slot2 1 false)); [done|apply sample_commit|].
    exists sample_draw, (sample_place sample_end1 sample_end1 1), sample_rec2.
    split_and!; [apply sample_draw_len|computed|computed|apply Z.ltb_lt; computed|done].
  - apply (step_write again [sample_slot1 true] (sample_slot2 1 false) [] Written true); [done|apply Z.leb_le; computed|computed].
Qed.

Lemma sample_created : log_create (X := toy_xxh3) (A := toy_aead) (Some toy_keys) 7 sample_draw = Ok sample_log.
Proof. computed. Qed.

Lemma sample_opens : can_open (H := toy_aead) (Some toy_keys) (Some toy_sealer).
Proof.
  exists toy_keys, (str "key"). split_and!; [done|by intros ? ? ?|done|done|].
  unfold is_u32, toy_sealer. cbn. lia.
Qed.

Lemma sample_written : Forall is_written (st_slots sample_state).
Proof. by repeat constructor. Qed.

Lemma written_log_replays_witness :
  l_file (st_log sample_state) = sample_stamp ++ all_bytes (recs_of (st_slots sample_state)) /\
  exists es, replay_log (T := target64) (X := toy_xxh3) (A := toy_aead) sample_file2 Newest (Some toy_keys)
    = Ok (es, None).
Proof.
  destruct (@written_log_replays target64 toy_xxh3 toy_xxh3_laws toy_aead toy_aead_laws (Some toy_keys) 7 sample_draw sample_log 0
    sample_state (Some toy_keys) Newest sample_created ltac:(unfold is_u64; lia) sample_draw_len sample_reach
    sample_opens eq_refl sample_written) as (Ef & es & _ & E). split; [exact Ef|]. exists es. exact E.
Defined.

(** Nothing verifies in a torn header. *)
Lemma sample_crash_leaves :
  crash_leaves (T := target64) (X := toy_xxh3) (A := toy_aead) (Some toy_keys) sample_state sample_crash.
Proof.
  assert (Hl : len sample_crash = sample_end1 + 20) by computed. constructor.
  - split; [apply Z.leb_le; computed|apply Z.ltb_lt; computed].
  - computed.
  - left. computed.
  - intros o h Ho Hv. exfalso. assert (Hs : Z.max (st_device sample_state) (l_stamp_len (st_log sample_state)) = sample_end1) by computed.
    rewrite Hs in Ho. clear Hs. unfold verifies_at in Hv.
    destruct (slice sample_crash o (o + HEADER_LEN)) as [l|] eqn:Es; [|discriminate Hv].
    apply slice_Some in Es as (_ & Hb & _). unfold HEADER_LEN in Hb. lia.
  - discriminate.
Qed.

Lemma crash_keeps_synced_commits_witness :
  exists kept lost es, recs_of (st_slots sample_state) = kept ++ lost /\
    decode_groups (T := target64) (map r_payload kept) = Ok es /\
    exists tail, replay_log (T := target64) (X := toy_xxh3) (A := toy_aead) sample_crash Newest (Some toy_keys) = Ok (es, tail).
Proof.
  destruct (@crash_keeps_synced_commits target64 toy_xxh3 toy_xxh3_laws toy_aead toy_aead_laws (Some toy_keys) 7 sample_draw
    sample_log 0 sample_state (Some toy_keys) sample_crash sample_created ltac:(unfold is_u64; lia) sample_draw_len sample_reach
    sample_opens sample_crash_leaves) as (_ & kept & lost & es & o & E1 & E2 & _ & _ & E3).
  exists kept, lost, es. split; [exact E1|]. split; [exact E2|]. eexists. exact E3.
Defined.

Definition sample_close : outcome unit * Log (A := toy_aead) :=
  close (X := toy_xxh3) (A := toy_aead) (st_log sample_state) (next_off sample_state) sample_draw (true, true) (true, true) Written.

Lemma closed_log_is_whole_witness :
  exists es, replay_log (T := target64) (X := toy_xxh3) (A := toy_aead) (l_file sample_close.2) Earlier (Some toy_keys)
    = Ok (es, None).
Proof.
  destruct (@closed_log_is_whole target64 toy_xxh3 toy_xxh3_laws toy_aead toy_aead_laws (Some toy_keys) 7 sample_draw sample_log 0
    sample_state sample_draw (true, true) (true, true) sample_close.2 (Some toy_keys) Earlier
    sample_created ltac:(unfold is_u64; lia) sample_draw_len sample_reach sample_opens
    ltac:(done) sample_written sample_draw_len ltac:(apply Z.ltb_lt; computed) ltac:(computed)) as (_ & es & _ & E).
  exists es. exact E.
Defined.
