(* ===== verification/WalGate.v ===== *)
(** * The gate of a positional log

    Models [Gate] of [src/src/engine/wal_gate.rs] and the waker slot it keeps,
    [AtomicWaker] of [src/src/engine/io/atomic_waker.rs], one atomic operation
    per step. Any number of writers pass the gate, each with a record of its
    own or a copy of another's; one thread at a time holds the pipeline's round
    and syncs or rolls back ([Log::settle], [Log::rollback_to] and
    [Log::turn_away] of [src/src/engine/wal_log.rs], [sync_written] of
    [src/src/engine/commit/round.rs]).

    The steps interleave freely and atomics are sequentially consistent, as
    [SeqCst] operations on the gate's words are. A weak compare-and-swap may
    fail for no reason.

    Shown here, with the file's names: a discarded commit's write is never in
    flight when the file is cut (WG1), from the turn to the cut the number of
    writes in flight only falls (WG2), a parked rollback or sync is always woken
    (WG3), and no write lands below the prefix of a sync that began or completed
    (WG4, WG5). *)

From stdpp Require Import gmap.
From S2P Require Import Prelude.

(** ** The words *)

Definition WRITER_BITS : Z := 24.
Definition WRITERS : Z := Z.shiftl 1 WRITER_BITS - 1.
Definition SIDE_BIT : Z := 63.
Definition SIDE_BITS : Z := 31.
Definition SIDE_COUNT : Z := Z.shiftl 1 SIDE_BITS - 1.

Definition current_side (sides : Z) : Z := Z.shiftr sides SIDE_BIT.
Definition on_side (sides side : Z) : Z := Z.land (Z.shiftr sides (side * SIDE_BITS)) SIDE_COUNT.
Definition one_on (side : Z) : Z := Z.shiftl 1 (side * SIDE_BITS).

Record Entry := mkEntry { en_epoch : Z; en_side : Z }.

(** States of the waker slot. *)
Definition WAITING : Z := 0.
Definition REGISTERING : Z := 1.
Definition WAKING : Z := 2.

(** A record of the log: the epoch it was decided in and its offset. A waker is
    a number. *)
Notation record := (Z * Z)%type.

Record Gate := mkGate {
  g_word : Z;
  g_sides : Z;
  g_turned : Z;
  g_state : Z;
  g_slot : option nat;
}.

Definition gate_new : Gate := mkGate 0 0 0 WAITING None.

Definition set_word (g : Gate) (w : Z) : Gate := mkGate w (g_sides g) (g_turned g) (g_state g) (g_slot g).
Definition set_sides (g : Gate) (s : Z) : Gate := mkGate (g_word g) s (g_turned g) (g_state g) (g_slot g).
Definition set_turned (g : Gate) (t : Z) : Gate := mkGate (g_word g) (g_sides g) t (g_state g) (g_slot g).
Definition set_waker (g : Gate) (state : Z) (slot : option nat) : Gate :=
  mkGate (g_word g) (g_sides g) (g_turned g) state slot.

Definition epoch (word : Z) : Z := Z.shiftr word WRITER_BITS.
Definition in_flight (word : Z) : Z := Z.land word WRITERS.

(** What the threads share: the gate, which records are marked written, and the
    wakers that have been woken. *)
Record Shared := mkShared { sh_gate : Gate; sh_written : gset record; sh_woken : list nat }.

Definition with_gate (sh : Shared) (g : Gate) : Shared := mkShared g (sh_written sh) (sh_woken sh).
Definition wake_one (sh : Shared) (w : option nat) : Shared :=
  match w with
  | Some k => mkShared (sh_gate sh) (sh_written sh) (k :: sh_woken sh)
  | None => sh
  end.

(** ** A write

    Where a writer stands: in [enter], past the check of its record, with its
    bytes on the way to the host, in [leave], waking. [wrote] is the record to
    mark when the write succeeded. *)
Inductive wpc :=
| WIdle
| WEnter (r : record)
| WWord (r : record) (word : Z)
| WSides (r : record)
| WSide (r : record) (sides : Z)
| WIn (r : record) (en : Entry)
| WWriting (r : record) (en : Entry)
| WLeave (en : Entry) (wrote : option record)
| WLeft (en : Entry) (drained : bool) (wrote : option record)
| WWake (wrote : option record)
| WTake (wrote : option record)
| WRelease (wrote : option record) (w : option nat)
| WCall (wrote : option record) (w : option nat)
| WMark (wrote : option record).

(** One step of a writer. [ok] says whether a weak compare-and-swap that could
    succeed does, and whether the host's write succeeds. *)
Definition wstep (sh : Shared) (pc : wpc) (ok : bool) : option (Shared * wpc) :=
  let g := sh_gate sh in
  match pc with
  | WIdle => None
  | WEnter r => Some (sh, WWord r (g_word g))
  | WWord r word =>
      if negb (epoch word =? r.1) then Some (sh, WIdle)
      else if ok && (g_word g =? word) then Some (with_gate sh (set_word g (as_u64 (word + 1))), WSides r)
      else Some (sh, WWord r (g_word g))
  | WSides r => Some (sh, WSide r (g_sides g))
  | WSide r sides =>
      let side := current_side sides in
      if ok && (g_sides g =? sides) then
        Some (with_gate sh (set_sides g (as_u64 (sides + one_on side))), WIn r (mkEntry r.1 side))
      else Some (sh, WSide r (g_sides g))
  | WIn r en => if bool_decide (r ∈ sh_written sh) then Some (sh, WLeave en None) else Some (sh, WWriting r en)
  | WWriting r en => Some (sh, WLeave en (if ok then Some r else None))
  | WLeave en wrote =>
      let sides := as_u64 (g_sides g - one_on (en_side en)) in
      let drained := (on_side sides (en_side en) =? 0) && negb (current_side sides =? en_side en) in
      Some (with_gate sh (set_sides g sides), WLeft en drained wrote)
  | WLeft en drained wrote =>
      let left := as_u64 (g_word g - 1) in
      let cleared := (in_flight left =? 0) && negb (epoch left =? en_epoch en) in
      Some (with_gate sh (set_word g left), if drained || cleared then WWake wrote else WMark wrote)
  | WWake wrote =>
      if g_state g =? WAITING then Some (with_gate sh (set_waker g WAKING (g_slot g)), WTake wrote)
      else Some (with_gate sh (set_waker g (Z.lor (g_state g) WAKING) (g_slot g)), WMark wrote)
  | WTake wrote => Some (with_gate sh (set_waker g (g_state g) None), WRelease wrote (g_slot g))
  | WRelease wrote w => Some (with_gate sh (set_waker g (Z.ldiff (g_state g) WAKING) (g_slot g)), WCall wrote w)
  | WCall wrote w => Some (wake_one sh w, WMark wrote)
  | WMark wrote =>
      Some (match wrote with
            | Some r => mkShared g ({[r]} ∪ sh_written sh) (sh_woken sh)
            | None => sh
            end, WIdle)
  end.

(** ** The holder of the round *)

(** What a parked holder waits for: the writes on the side [away], which a
    sync turned away from for the prefix [turned], or every write, to roll back
    to [epoch]. *)
Inductive waits :=
| ForSide (through turned away : Z)
| ForClear (epoch : Z).

Inductive hpc :=
| HIdle
| HSettle (through : Z) (k : nat)
| HAway (through turned : Z) (k : nat)
| HCount (through turned away : Z) (k : nat)
| HLook (through : Z) (k : nat)
| HStore (through sides : Z) (k : nat)
| HFlip (through seen : Z) (k : nat)
| HDone (upto : Z)
| HSync (upto : Z)
| HTurn (e : Z) (k : nat)
| HTurnWord (e word : Z) (k : nat)
| HClear (e : Z) (k : nat)
| HPark (e : Z) (k : nat)
| HForget (e : Z)
| HCut (e : Z)
| HRegister (w : waits) (k : nat)
| HSlot (w : waits) (k : nat)
| HGive (w : waits) (k : nat)
| HTakeBack (w : waits) (k : nat)
| HSwap (w : waits) (k : nat) (woken : option nat)
| HWoken (w : waits) (k : nat) (woken : option nat)
| HLast (w : waits) (k : nat)
| HParked (w : waits) (k : nat).

(** One step of the holder, whose waker is [k]. *)
Definition hstep (sh : Shared) (pc : hpc) (ok : bool) : option (Shared * hpc) :=
  let g := sh_gate sh in
  match pc with
  | HIdle | HSync _ | HCut _ | HParked _ _ => None
  | HSettle through k =>
      Some (sh, if negb (g_turned g =? 0) then HAway through (g_turned g) k else HLook through k)
  | HAway through turned k => Some (sh, HCount through turned (Z.lxor (current_side (g_sides g)) 1) k)
  | HCount through turned away k =>
      Some (sh, if negb (on_side (g_sides g) away =? 0) then HRegister (ForSide through turned away) k
                else HDone (Z.min turned through))
  | HLook through k =>
      Some (sh, if on_side (g_sides g) (current_side (g_sides g)) =? 0 then HSync through
                else HStore through (g_sides g) k)
  | HStore through sides k => Some (with_gate sh (set_turned g through), HFlip through sides k)
  | HFlip through seen k =>
      if ok && (g_sides g =? seen) then
        Some (with_gate sh (set_sides g (Z.lxor seen (Z.shiftl 1 SIDE_BIT))), HSettle through k)
      else Some (sh, HFlip through (g_sides g) k)
  | HDone upto => Some (with_gate sh (set_turned g 0), HSync upto)
  | HTurn e k => Some (sh, HTurnWord e (g_word g) k)
  | HTurnWord e word k =>
      if ok && (g_word g =? word) then
        Some (with_gate sh (set_word g (Z.lor (as_u64 (Z.shiftl e WRITER_BITS)) (Z.land word WRITERS))), HClear e k)
      else Some (sh, HTurnWord e (g_word g) k)
  | HClear e k => Some (sh, if in_flight (g_word g) =? 0 then HForget e else HPark e k)
  | HPark e k => Some (sh, if in_flight (g_word g) =? 0 then HForget e else HRegister (ForClear e) k)
  | HForget e => Some (with_gate sh (set_turned g 0), HCut e)
  | HRegister w k =>
      if g_state g =? WAITING then Some (with_gate sh (set_waker g REGISTERING (g_slot g)), HSlot w k)
      else if g_state g =? WAKING then Some (wake_one sh (Some k), HLast w k)
      else Some (sh, HLast w k)
  | HSlot w k => Some (with_gate sh (set_waker g (g_state g) (Some k)), HGive w k)
  | HGive w k =>
      if g_state g =? REGISTERING then Some (with_gate sh (set_waker g WAITING (g_slot g)), HLast w k)
      else Some (sh, HTakeBack w k)
  | HTakeBack w k => Some (with_gate sh (set_waker g (g_state g) None), HSwap w k (g_slot g))
  | HSwap w k woken => Some (with_gate sh (set_waker g WAITING (g_slot g)), HWoken w k woken)
  | HWoken w k woken => Some (wake_one sh woken, HLast w k)
  | HLast (ForSide through turned away) k =>
      Some (sh, if negb (on_side (g_sides g) away =? 0) then HParked (ForSide through turned away) k
                else HDone (Z.min turned through))
  | HLast (ForClear e) k =>
      Some (sh, if in_flight (g_word g) =? 0 then HForget e else HParked (ForClear e) k)
  end.

(** ** The log's threads together *)

(** The gate's threads, and of the pipeline: the epoch commits are decided in,
    the records placed and not discarded, the offset of the next one, the
    durable offset. *)
Record GState := mkG {
  s_shared : Shared;
  s_writers : list wpc;
  s_holder : hpc;
  s_epoch : Z;
  s_placed : gset record;
  s_next : Z;
  s_durable : Z;
}.

Definition with_threads (st : GState) (sh : Shared) (ws : list wpc) (h : hpc) : GState :=
  mkG sh ws h (s_epoch st) (s_placed st) (s_next st) (s_durable st).

(** Every record of the current epoch below [p] is marked written. *)
Definition prefix_written (ep : Z) (placed written : gset record) (p : Z) : Prop :=
  forall o, (ep, o) ∈ placed -> o < p -> (ep, o) ∈ written.

(** Who may take the round: no thread holds it, or the one that did parked on
    writes below a sync. *)
Definition round_free (h : hpc) : bool :=
  match h with HIdle | HParked (ForSide _ _ _) _ => true | _ => false end.

(** A rollback parked, or one that has only turned writes away, starts over. *)
Definition rolling_back_to (h : hpc) : option Z :=
  match h with HParked (ForClear e) _ | HForget e => Some e | _ => None end.

Inductive GStep (st : GState) : GState -> Prop :=
| g_writer i pc ok sh pc' :
    s_writers st !! i = Some pc -> wstep (s_shared st) pc ok = Some (sh, pc') ->
    GStep st (with_threads st sh (<[i := pc']> (s_writers st)) (s_holder st))
| g_holder ok sh h :
    hstep (s_shared st) (s_holder st) ok = Some (sh, h) -> GStep st (with_threads st sh (s_writers st) h)
| g_decide n :
    0 < n ->
    GStep st (mkG (s_shared st) (s_writers st) (s_holder st) (s_epoch st)
                ({[(s_epoch st, s_next st)]} ∪ s_placed st) (s_next st + n) (s_durable st))
| g_begin i r :
    s_writers st !! i = Some WIdle -> r ∈ s_placed st ->
    GStep st (with_threads st (s_shared st) (<[i := WEnter r]> (s_writers st)) (s_holder st))
| g_sync through k :
    round_free (s_holder st) = true -> 0 < through <= s_next st ->
    prefix_written (s_epoch st) (s_placed st) (sh_written (s_shared st)) through ->
    GStep st (with_threads st (s_shared st) (s_writers st) (HSettle through k))
| g_synced upto durable :
    s_holder st = HSync upto -> durable = s_durable st \/ durable = Z.max (s_durable st) upto ->
    GStep st (mkG (s_shared st) (s_writers st) HIdle (s_epoch st) (s_placed st) (s_next st) durable)
| g_rollback k :
    round_free (s_holder st) = true -> s_epoch st + 1 < 2 ^ 40 ->
    GStep st (with_threads st (s_shared st) (s_writers st) (HTurn (s_epoch st + 1) k))
| g_rollback_again e k :
    rolling_back_to (s_holder st) = Some e -> GStep st (with_threads st (s_shared st) (s_writers st) (HTurn e k))
| g_cut e at_ :
    s_holder st = HCut e -> s_durable st <= at_ <= s_next st ->
    GStep st (mkG (s_shared st) (s_writers st) HIdle e
                (filter (fun r : record => r.2 < at_) (s_placed st)) at_ (s_durable st)).

(** A log nothing was written to past its stamp, of [start] bytes, started in
    the pipeline's epoch [ep], and [n] threads. *)
Definition g_init (n : nat) (start ep : Z) : GState :=
  mkG (mkShared (set_word gate_new (Z.shiftl ep WRITER_BITS)) ∅ []) (replicate n WIdle) HIdle ep ∅ start 0.

Inductive GReach (start : GState) : GState -> Prop :=
| greach_start : GReach start start
| greach_step st st' : GReach start st -> GStep st st' -> GReach start st'.

(** ** The words as numbers *)

Definition pack_word (e n : Z) : Z := e * 2 ^ 24 + n.
Definition pack_sides (cur high low : Z) : Z := cur * 2 ^ 63 + high * 2 ^ 31 + low.

Lemma epoch_pack e n : 0 <= n < 2 ^ 24 -> epoch (pack_word e n) = e.
Proof.
  intros Hn. unfold epoch, pack_word, WRITER_BITS. rewrite Z.shiftr_div_pow2 by lia.
  rewrite Z.div_add_l by lia. rewrite Z.div_small by lia. lia.
Qed.

Lemma in_flight_pack e n : 0 <= n < 2 ^ 24 -> in_flight (pack_word e n) = n.
Proof.
  intros Hn. unfold in_flight, pack_word. change WRITERS with (Z.ones 24). rewrite Z.land_ones by lia.
  rewrite Z.add_comm, Z_mod_plus_full. by apply Z.mod_small.
Qed.

Lemma turned_word e n m :
  0 <= e < 2 ^ 40 -> 0 <= n < 2 ^ 24 ->
  Z.lor (as_u64 (Z.shiftl e WRITER_BITS)) (Z.land (pack_word m n) WRITERS) = pack_word e n.
Proof.
  intros He Hn. change (Z.land (pack_word m n) WRITERS) with (in_flight (pack_word m n)). rewrite in_flight_pack by done.
  unfold WRITER_BITS. rewrite as_u64_small by (unfold is_u64; rewrite Z.shiftl_mul_pow2; lia).
  rewrite Z.lor_comm, lor_shiftl_add by lia. unfold pack_word. lia.
Qed.

Definition is_side (s : Z) : Prop := s = 0 \/ s = 1.

Lemma current_side_pack c h l :
  0 <= h < 2 ^ 31 -> 0 <= l < 2 ^ 31 -> current_side (pack_sides c h l) = c.
Proof.
  intros Hh Hl. unfold current_side, pack_sides, SIDE_BIT. rewrite Z.shiftr_div_pow2 by lia. rewrite <- Z.add_assoc.
  rewrite Z.div_add_l by lia. rewrite Z.div_small by lia. lia.
Qed.

Lemma on_side_pack c h l s :
  0 <= h < 2 ^ 31 -> 0 <= l < 2 ^ 31 -> is_side s -> on_side (pack_sides c h l) s = if s =? 0 then l else h.
Proof.
  intros Hh Hl Hs. unfold on_side, pack_sides, SIDE_BITS. change SIDE_COUNT with (Z.ones 31).
  rewrite Z.land_ones by lia. destruct Hs as [-> | ->]; cbn [Z.eqb Z.mul].
  - rewrite Z.shiftr_0_r. replace (c * 2 ^ 63 + h * 2 ^ 31 + l) with (l + (c * 2 ^ 32 + h) * 2 ^ 31) by lia.
    rewrite Z_mod_plus_full. by apply Z.mod_small.
  - rewrite Z.shiftr_div_pow2 by lia.
    replace (c * 2 ^ 63 + h * 2 ^ 31 + l) with ((c * 2 ^ 32 + h) * 2 ^ 31 + l) by lia.
    rewrite Z.div_add_l by lia. rewrite (Z.div_small l) by lia.
    replace (c * 2 ^ 32 + h + 0) with (h + c * 2 * 2 ^ 31) by lia. rewrite Z_mod_plus_full. by apply Z.mod_small.
Qed.

Lemma one_on_side s : is_side s -> one_on s = if s =? 0 then 1 else 2 ^ 31.
Proof. by intros [-> | ->]. Qed.

Lemma flip_side c h l :
  is_side c -> 0 <= h < 2 ^ 31 -> 0 <= l < 2 ^ 31 ->
  Z.lxor (pack_sides c h l) (Z.shiftl 1 SIDE_BIT) = pack_sides (1 - c) h l.
Proof.
  intros Hc Hh Hl. unfold pack_sides, SIDE_BIT. set (r := h * 2 ^ 31 + l). assert (Hr : 0 <= r < 2 ^ 63) by (unfold r; lia).
  assert (E : forall c, c * 2 ^ 63 + h * 2 ^ 31 + l = Z.lor r (Z.shiftl c 63)) by (intros; rewrite lor_shiftl_add; unfold r; lia).
  rewrite !E. apply Z.bits_inj'. intros i Hi. rewrite Z.lxor_spec, !Z.lor_spec, !Z.shiftl_spec by lia.
  assert (Hb : 63 <= i -> Z.testbit r i = false).
  { intros. destruct (Z.eq_dec r 0) as [->|]; [apply Z.bits_0|]. apply Z.bits_above_log2; [lia|].
    apply Z.log2_lt_pow2; [lia|]. apply Z.lt_le_trans with (2 ^ 63); [lia|]. apply Z.pow_le_mono_r; lia. }
  destruct (Z.lt_ge_cases i 63) as [Hlt|Hge].
  - rewrite !(Z.testbit_neg_r _ (i - 63)) by lia. by rewrite orb_false_r, xorb_false_r.
  - rewrite Hb by done. destruct Hc as [-> | ->]; [change (1 - 0) with 1|change (1 - 1) with 0]; rewrite Z.bits_0;
      by destruct (Z.testbit 1 (i - 63)).
Qed.

(** ** Counting the writers *)

Fixpoint cnt (f : wpc -> bool) (ws : list wpc) : Z :=
  match ws with
  | [] => 0
  | pc :: ws => (if f pc then 1 else 0) + cnt f ws
  end.

Lemma cnt_insert f ws i pc pc' :
  ws !! i = Some pc ->
  cnt f (<[i := pc']> ws) = cnt f ws - (if f pc then 1 else 0) + (if f pc' then 1 else 0).
Proof.
  revert i. induction ws as [|x ws IH]; intros [|i] E; try done.
  - injection E as ->. cbn. lia.
  - change (<[S i := pc']> (x :: ws)) with (x :: <[i := pc']> ws). cbn [cnt]. rewrite (IH _ E). lia.
Qed.

Lemma cnt_bounds f ws : 0 <= cnt f ws <= len ws.
Proof. induction ws as [|x ws IH]; cbn; [llia|]. destruct (f x); llia. Qed.

Lemma cnt_le f g ws : (forall pc, f pc = true -> g pc = true) -> cnt f ws <= cnt g ws.
Proof.
  intros H. induction ws as [|x ws IH]; cbn; [lia|]. specialize (H x). destruct (f x) eqn:Ef; [rewrite (H eq_refl)|destruct (g x)]; lia.
Qed.

Lemma cnt_zero f ws i pc : cnt f ws = 0 -> ws !! i = Some pc -> f pc = false.
Proof.
  revert i. induction ws as [|x ws IH]; intros [|i] Hc E; cbn in *; try done;
    pose proof (cnt_bounds f ws); destruct (f x) eqn:Ex; try lia.
  - injection E as <-. done.
  - by apply (IH i).
Qed.

Lemma cnt_pos f ws i pc : ws !! i = Some pc -> f pc = true -> 1 <= cnt f ws.
Proof.
  intros E Hf. destruct (Z.eq_dec (cnt f ws) 0) as [H0|]; [|pose proof (cnt_bounds f ws); lia].
  rewrite (cnt_zero _ _ _ _ H0 E) in Hf. done.
Qed.

(** Counted in the word, and on a side. *)
Definition in_word (pc : wpc) : bool :=
  match pc with
  | WSides _ | WSide _ _ | WIn _ _ | WWriting _ _ | WLeave _ _ | WLeft _ _ _ => true
  | _ => false
  end.
Definition at_side (s : Z) (pc : wpc) : bool :=
  match pc with WIn _ en | WWriting _ en | WLeave en _ => en_side en =? s | _ => false end.

Lemma side_in_word s ws : cnt (at_side s) ws <= cnt in_word ws.
Proof. apply cnt_le. by intros []. Qed.

(** ** The invariant *)

(** What the holder knows of the epochs: the pipeline's [ep], the gate's [ge]. *)
Definition turning (e ep ge : Z) : Prop := e = ep + 1 /\ e < 2 ^ 40 /\ (ge = ep \/ ge = ep + 1).
Definition turned_to (e ep ge : Z) : Prop := e = ep + 1 /\ e < 2 ^ 40 /\ ge = ep + 1.
Definition waits_of (h : hpc) : option waits :=
  match h with
  | HRegister w _ | HSlot w _ | HGive w _ | HTakeBack w _ | HSwap w _ _ | HWoken w _ _ | HLast w _ | HParked w _ => Some w
  | _ => None
  end.
Definition epochs_ok (h : hpc) (ep ge : Z) : Prop :=
  match h with
  | HTurn e _ | HTurnWord e _ _ => turning e ep ge
  | HClear e _ | HPark e _ | HForget e | HCut e => turned_to e ep ge
  | _ => match waits_of h with Some (ForClear e) => turned_to e ep ge | _ => ge = ep end
  end.

(** The prefix a sync of the holder is for. *)
Definition through_of (h : hpc) : option Z :=
  match h with
  | HSettle p _ | HAway p _ _ | HCount p _ _ _ | HLook p _ | HStore p _ _ | HFlip p _ _ | HDone p | HSync p => Some p
  | _ => match waits_of h with Some (ForSide p _ _) => Some p | _ => None end
  end.

(** What the holder knows of the sides: [cur] is the one writes join, [other]
    counts the writes on the other, [n] every write. *)
Definition holder_ok (h : hpc) (turned cur other n : Z) : Prop :=
  match h with
  | HAway _ t _ => t = turned /\ t <> 0
  | HCount _ t away _ => t = turned /\ t <> 0 /\ away = 1 - cur
  | HLook _ _ | HStore _ _ _ => turned = 0
  | HFlip _ _ _ => other = 0 /\ turned <> 0
  | HDone upto => other = 0 /\ turned <> 0 /\ upto <= turned
  | HForget _ | HCut _ => n = 0 /\ (forall e, h = HCut e -> turned = 0)
  | _ => match waits_of h with Some (ForSide _ t away) => t = turned /\ t <> 0 /\ away = 1 - cur | _ => True end
  end.

(** A lower bound of what a write on [side] may land on. *)
Definition floor_of (h : hpc) (turned cur durable side : Z) : Z :=
  let by_sync := match h with HSync upto => upto | _ => 0 end in
  let by_turn := match h with HFlip _ _ _ => 0 | _ => if (side =? cur) && negb (turned =? 0) then turned else 0 end in
  Z.max durable (Z.max by_sync by_turn).

Definition placed_ok (ep : Z) (placed : gset record) (r : record) : Prop := r.1 = ep /\ r ∈ placed.
Definition entry_ok (ep : Z) (en : Entry) : Prop := en_epoch en = ep /\ is_side (en_side en).

Definition wok (st : GState) (cur : Z) (pc : wpc) : Prop :=
  let ep := s_epoch st in
  match pc with
  | WEnter r | WWord r _ => r.1 <= ep /\ (r.1 = ep -> r ∈ s_placed st)
  | WSides r | WSide r _ => placed_ok ep (s_placed st) r
  | WIn r en => placed_ok ep (s_placed st) r /\ entry_ok ep en
  | WWriting r en =>
      placed_ok ep (s_placed st) r /\ entry_ok ep en /\
      floor_of (s_holder st) (g_turned (sh_gate (s_shared st))) cur (s_durable st) (en_side en) <= r.2
  | WLeave en _ | WLeft en _ _ => entry_ok ep en
  | _ => True
  end.

Record gate_inv (st : GState) (cur ge : Z) : Prop := {
  gi_threads : len (s_writers st) < 2 ^ 24;
  gi_cur : is_side cur;
  gi_epoch : 0 <= s_epoch st < 2 ^ 40;
  gi_word : g_word (sh_gate (s_shared st)) = pack_word ge (cnt in_word (s_writers st));
  gi_epochs : epochs_ok (s_holder st) (s_epoch st) ge;
  gi_sides : g_sides (sh_gate (s_shared st)) =
    pack_sides cur (cnt (at_side 1) (s_writers st)) (cnt (at_side 0) (s_writers st));
  gi_turned : 0 <= g_turned (sh_gate (s_shared st)) <= s_next st /\
    prefix_written (s_epoch st) (s_placed st) (sh_written (s_shared st)) (g_turned (sh_gate (s_shared st)));
  gi_other : g_turned (sh_gate (s_shared st)) = 0 -> cnt (at_side (1 - cur)) (s_writers st) = 0;
  gi_holder : holder_ok (s_holder st) (g_turned (sh_gate (s_shared st))) cur
    (cnt (at_side (1 - cur)) (s_writers st)) (cnt in_word (s_writers st));
  gi_through : forall p, through_of (s_holder st) = Some p -> 0 < p <= s_next st /\
    prefix_written (s_epoch st) (s_placed st) (sh_written (s_shared st)) p;
  gi_durable : 0 <= s_durable st <= s_next st /\
    prefix_written (s_epoch st) (s_placed st) (sh_written (s_shared st)) (s_durable st);
  gi_placed : forall r, r ∈ s_placed st -> r.1 <= s_epoch st /\ (r.1 = s_epoch st -> r.2 < s_next st);
  gi_writers : Forall (wok st cur) (s_writers st);
}.

(** ** Steps of a writer keep it *)

Lemma holder_ok_mono h turned cur ep ge o o' n n' :
  holder_ok h turned cur o n -> epochs_ok h ep ge -> 0 <= o' <= o -> 0 <= n' -> ge = ep \/ n' <= n ->
  holder_ok h turned cur o' n'.
Proof.
  intros Hh He Ho Hn Hor. destruct h; cbn [holder_ok] in *; try done; try lia;
    unfold epochs_ok, turned_to in He; (split; [lia|apply Hh]).
Qed.

Lemma prefix_written_mono ep placed w w' p :
  prefix_written ep placed w p -> w ⊆ w' -> prefix_written ep placed w' p.
Proof. intros H Hs o Ho Hp. apply Hs. by apply H. Qed.

(** What a writer's step may do to the state. *)
Lemma writer_frame st cur ge i pc sh pc' :
  gate_inv st cur ge -> s_writers st !! i = Some pc ->
  let ws' := <[i := pc']> (s_writers st) in
  g_turned (sh_gate sh) = g_turned (sh_gate (s_shared st)) -> sh_written (s_shared st) ⊆ sh_written sh ->
  g_word (sh_gate sh) = pack_word ge (cnt in_word ws') ->
  g_sides (sh_gate sh) = pack_sides cur (cnt (at_side 1) ws') (cnt (at_side 0) ws') ->
  cnt (at_side (1 - cur)) ws' <= cnt (at_side (1 - cur)) (s_writers st) ->
  ge = s_epoch st \/ cnt in_word ws' <= cnt in_word (s_writers st) ->
  wok st cur pc' -> gate_inv (with_threads st sh ws' (s_holder st)) cur ge.
Proof.
  intros I Hi ws' Et Hw Eword Esides Hother Hn Hok. destruct I as [T1 T2 T3 T4 T5 T6 T7 T8 T9 T10 T11 T12 T13].
  pose proof (cnt_bounds (at_side (1 - cur)) ws'). pose proof (cnt_bounds in_word ws').
  constructor; cbn [with_threads s_writers s_shared s_holder s_epoch s_placed s_next s_durable]; rewrite ?Et; try done.
  - unfold ws', len in *. rewrite length_insert. lia.
  - split; [apply T7|]. eapply prefix_written_mono; [apply T7|done].
  - intros Hz. specialize (T8 Hz). lia.
  - eapply holder_ok_mono; [exact T9|exact T5|lia|lia|done].
  - intros p Hp. split; [by apply T10|]. eapply prefix_written_mono; [by apply T10|done].
  - split; [apply T11|]. eapply prefix_written_mono; [apply T11|done].
  - apply Forall_insert.
    + eapply Forall_impl; [|exact T13]. intros x Hx. unfold wok in *. cbn. by rewrite Et.
    + unfold wok in *. cbn. by rewrite Et.
Qed.

(** The counts fit their fields. *)
Lemma counts_fit st cur ge :
  gate_inv st cur ge ->
  0 <= cnt in_word (s_writers st) < 2 ^ 24 /\ 0 <= cnt (at_side 0) (s_writers st) < 2 ^ 31 /\
  0 <= cnt (at_side 1) (s_writers st) < 2 ^ 31.
Proof.
  intros I. pose proof (gi_threads _ _ _ I). pose proof (cnt_bounds in_word (s_writers st)).
  pose proof (cnt_bounds (at_side 0) (s_writers st)). pose proof (cnt_bounds (at_side 1) (s_writers st)). lia.
Qed.

Lemma gate_epoch_cases st cur ge : gate_inv st cur ge -> ge = s_epoch st \/ ge = s_epoch st + 1.
Proof.
  intros I. pose proof (gi_epochs _ _ _ I) as He. unfold epochs_ok, turning, turned_to in He.
  destruct (s_holder st) as [| | | | | | | | | | | | | | | w| w| w| w| w| w| w| w]; cbn [waits_of] in He; try lia; destruct w; lia.
Qed.

Lemma gate_epoch_range st cur ge : gate_inv st cur ge -> 0 <= ge < 2 ^ 40.
Proof.
  intros I. pose proof (gi_epochs _ _ _ I) as He. pose proof (gi_epoch _ _ _ I). unfold epochs_ok, turning, turned_to in He.
  destruct (s_holder st) as [| | | | | | | | | | | | | | | w| w| w| w| w| w| w| w]; cbn [waits_of] in He; try lia; destruct w; lia.
Qed.

Lemma at_side_flip cur pc : is_side cur -> at_side (1 - cur) pc = true -> at_side cur pc = false.
Proof. intros [-> | ->]; destruct pc; cbn; try done; intros H; btests; destruct (Z.eqb_spec (en_side en) 0), (Z.eqb_spec (en_side en) 1); lia || done. Qed.

Lemma wok_at st cur ge i pc : gate_inv st cur ge -> s_writers st !! i = Some pc -> wok st cur pc.
Proof. intros I Hi. eapply Forall_lookup_1; [apply (gi_writers _ _ _ I)|done]. Qed.

Lemma pack_word_u64 e n : 0 <= e < 2 ^ 40 -> 0 <= n < 2 ^ 24 -> is_u64 (pack_word e n).
Proof. unfold is_u64, pack_word. lia. Qed.

Lemma pack_sides_u64 c h l : is_side c -> 0 <= h < 2 ^ 31 -> 0 <= l < 2 ^ 31 -> is_u64 (pack_sides c h l).
Proof. unfold is_u64, pack_sides. intros [-> | ->]; lia. Qed.

(** A step that leaves the gate's words and the writer's counts alone. *)
Lemma writer_quiet st cur ge i pc sh pc' :
  gate_inv st cur ge -> s_writers st !! i = Some pc ->
  g_turned (sh_gate sh) = g_turned (sh_gate (s_shared st)) -> sh_written (s_shared st) ⊆ sh_written sh ->
  g_word (sh_gate sh) = g_word (sh_gate (s_shared st)) -> g_sides (sh_gate sh) = g_sides (sh_gate (s_shared st)) ->
  in_word pc' = in_word pc -> (forall s, at_side s pc' = at_side s pc) -> wok st cur pc' ->
  gate_inv (with_threads st sh (<[i := pc']> (s_writers st)) (s_holder st)) cur ge.
Proof.
  intros I Hi Et Hw Ew Es Hin Hat Hok.
  assert (Hc : forall f, f pc' = f pc -> cnt f (<[i := pc']> (s_writers st)) = cnt f (s_writers st)).
  { intros f Hf. rewrite (cnt_insert _ _ _ _ _ Hi), Hf. lia. }
  eapply writer_frame; try done; rewrite ?Hc by auto; try lia.
  - rewrite Ew. apply (gi_word _ _ _ I).
  - rewrite Es. apply (gi_sides _ _ _ I).
Qed.

Lemma enter_word st cur ge i r word :
  gate_inv st cur ge -> s_writers st !! i = Some (WWord r word) ->
  epoch word = r.1 -> g_word (sh_gate (s_shared st)) = word ->
  gate_inv (with_threads st (with_gate (s_shared st) (set_word (sh_gate (s_shared st)) (as_u64 (word + 1))))
    (<[i := WSides r]> (s_writers st)) (s_holder st)) cur ge.
Proof.
  intros I Hi He Hw. destruct (counts_fit _ _ _ I) as (Hn & Hl & Hh). pose proof (gate_epoch_range _ _ _ I).
  pose proof (gi_word _ _ _ I) as Ew. pose proof (wok_at _ _ _ _ _ I Hi) as [Hle Hpl]. subst word. rewrite Ew in He.
  rewrite epoch_pack in He by done. destruct (gate_epoch_cases _ _ _ I) as [Hge|Hge]; [|lia].
  pose proof (gi_threads _ _ _ I). pose proof (cnt_bounds in_word (<[i := WSides r]> (s_writers st))) as Hb.
  unfold len in *. rewrite length_insert in Hb. rewrite (cnt_insert _ _ _ _ _ Hi) in Hb. cbn [in_word] in Hb.
  eapply writer_frame; try done; rewrite ?(cnt_insert _ _ _ _ _ Hi); cbn [in_word at_side with_gate sh_gate set_word g_word g_sides]; try lia.
  - rewrite Ew, as_u64_small.
    + unfold pack_word. lia.
    + replace (_ + 1) with (pack_word ge (cnt in_word (s_writers st) + 1)) by (unfold pack_word; lia).
      apply pack_word_u64; lia.
  - rewrite (gi_sides _ _ _ I). f_equal; lia.
  - split; [lia|]. apply Hpl. lia.
Qed.

Lemma enter_side st cur ge i r :
  gate_inv st cur ge -> s_writers st !! i = Some (WSide r (g_sides (sh_gate (s_shared st)))) ->
  let sides := g_sides (sh_gate (s_shared st)) in
  gate_inv (with_threads st (with_gate (s_shared st) (set_sides (sh_gate (s_shared st))
      (as_u64 (sides + one_on (current_side sides)))))
    (<[i := WIn r (mkEntry r.1 (current_side sides))]> (s_writers st)) (s_holder st)) cur ge.
Proof.
  intros I Hi sides. destruct (counts_fit _ _ _ I) as (Hn & Hl & Hh). pose proof (wok_at _ _ _ _ _ I Hi) as Hok.
  pose proof (gi_sides _ _ _ I) as Es. fold sides in Es. pose proof (gi_cur _ _ _ I) as Hcur.
  assert (Ec : current_side sides = cur) by (rewrite Es; by apply current_side_pack). rewrite Ec.
  pose proof (gi_threads _ _ _ I). pose proof (cnt_bounds (at_side cur) (<[i := WIn r (mkEntry r.1 cur)]> (s_writers st))) as Hb.
  unfold len in *. rewrite length_insert in Hb. rewrite (cnt_insert _ _ _ _ _ Hi) in Hb. cbn [at_side en_side] in Hb.
  rewrite Z.eqb_refl in Hb. rewrite one_on_side by done.
  eapply writer_frame; try done; rewrite ?(cnt_insert _ _ _ _ _ Hi); cbn [in_word at_side with_gate sh_gate set_sides g_word g_sides en_side]; try lia.
  - rewrite (gi_word _ _ _ I). f_equal. lia.
  - rewrite Es, as_u64_small.
    + unfold pack_sides. destruct Hcur as [-> | ->]; cbn; lia.
    + unfold pack_sides, is_u64. destruct Hcur as [-> | ->]; cbn; lia.
  - destruct (Z.eqb_spec cur (1 - cur)); [destruct Hcur; lia|lia].
  - destruct Hok as [E Hp]. split; [by split|split; [done|done]].
Qed.

Lemma leave_side st cur ge i en wrote :
  gate_inv st cur ge -> s_writers st !! i = Some (WLeave en wrote) ->
  let g := sh_gate (s_shared st) in let sides := as_u64 (g_sides g - one_on (en_side en)) in
  sides = pack_sides cur (cnt (at_side 1) (s_writers st) - (if en_side en =? 1 then 1 else 0))
                         (cnt (at_side 0) (s_writers st) - (if en_side en =? 0 then 1 else 0)) /\
  forall drained,
  gate_inv (with_threads st (with_gate (s_shared st) (set_sides g sides))
    (<[i := WLeft en drained wrote]> (s_writers st)) (s_holder st)) cur ge.
Proof.
  intros I Hi g sides. destruct (counts_fit _ _ _ I) as (Hn & Hl & Hh). pose proof (wok_at _ _ _ _ _ I Hi) as [He Hs].
  pose proof (gi_sides _ _ _ I) as Es. fold g in Es. pose proof (gi_cur _ _ _ I) as Hcur.
  pose proof (cnt_pos (at_side (en_side en)) _ _ _ Hi) as Hpos. cbn [at_side] in Hpos. specialize (Hpos (Z.eqb_refl _)).
  assert (E : sides = pack_sides cur (cnt (at_side 1) (s_writers st) - (if en_side en =? 1 then 1 else 0))
                        (cnt (at_side 0) (s_writers st) - (if en_side en =? 0 then 1 else 0))).
  { unfold sides. rewrite Es, one_on_side by done. destruct Hs as [Hs|Hs]; rewrite Hs in *; cbn [Z.eqb Pos.eqb];
      rewrite as_u64_small; unfold pack_sides, is_u64; destruct Hcur as [-> | ->]; lia. }
  split; [done|]. intros drained.
  eapply writer_frame; try done; rewrite ?(cnt_insert _ _ _ _ _ Hi); cbn [in_word at_side with_gate sh_gate set_sides g_word g_sides]; try lia.
  - unfold g. rewrite (gi_word _ _ _ I). f_equal. lia.
  - rewrite E. destruct Hs as [Hs|Hs]; rewrite Hs; cbn [Z.eqb Pos.eqb]; f_equal; lia.
  - destruct (en_side en =? 1 - cur); lia.
Qed.

Lemma leave_word st cur ge i en drained wrote pc' :
  gate_inv st cur ge -> s_writers st !! i = Some (WLeft en drained wrote) ->
  in_word pc' = false -> (forall s, at_side s pc' = false) -> wok st cur pc' ->
  let g := sh_gate (s_shared st) in
  as_u64 (g_word g - 1) = pack_word ge (cnt in_word (s_writers st) - 1) /\
  gate_inv (with_threads st (with_gate (s_shared st) (set_word g (as_u64 (g_word g - 1))))
    (<[i := pc']> (s_writers st)) (s_holder st)) cur ge.
Proof.
  intros I Hi Hin Hat Hok g. destruct (counts_fit _ _ _ I) as (Hn & _ & _). pose proof (gate_epoch_range _ _ _ I).
  pose proof (gi_word _ _ _ I) as Ew. fold g in Ew.
  pose proof (cnt_pos in_word _ _ _ Hi eq_refl) as Hpos.
  assert (E : as_u64 (g_word g - 1) = pack_word ge (cnt in_word (s_writers st) - 1)).
  { rewrite Ew, as_u64_small; [unfold pack_word; lia|].
    replace (_ - 1) with (pack_word ge (cnt in_word (s_writers st) - 1)) by (unfold pack_word; lia). apply pack_word_u64; lia. }
  split; [done|].
  eapply writer_frame; try done; rewrite ?(cnt_insert _ _ _ _ _ Hi), ?Hin, ?Hat; cbn [in_word at_side with_gate sh_gate set_word g_word g_sides]; try lia.
  - rewrite E. f_equal. lia.
  - unfold g. rewrite (gi_sides _ _ _ I). f_equal; lia.
Qed.

(** A record not marked written lies past every prefix a sync is for. *)
Lemma unwritten_floor st cur ge r side :
  gate_inv st cur ge -> placed_ok (s_epoch st) (s_placed st) r -> r ∉ sh_written (s_shared st) ->
  floor_of (s_holder st) (g_turned (sh_gate (s_shared st))) cur (s_durable st) side <= r.2.
Proof.
  intros I [He Hp] Hw. destruct r as [e o]. cbn in He. subst e. cbn [snd].
  assert (Hpast : forall p, prefix_written (s_epoch st) (s_placed st) (sh_written (s_shared st)) p -> p <= o).
  { intros p Hpw. destruct (Z.le_gt_cases p o); [done|]. exfalso. apply Hw. by apply Hpw; [|lia]. }
  pose proof (Hpast _ (proj2 (gi_durable _ _ _ I))) as H1. pose proof (Hpast _ (proj2 (gi_turned _ _ _ I))) as H2.
  assert (H3 : forall p, through_of (s_holder st) = Some p -> p <= o) by (intros p Ht; apply Hpast, (gi_through _ _ _ I p Ht)).
  assert (Hd0 : 0 <= s_durable st) by apply (gi_durable _ _ _ I). unfold floor_of.
  assert (Hif : (if (side =? cur) && negb (g_turned (sh_gate (s_shared st)) =? 0)
                 then g_turned (sh_gate (s_shared st)) else 0) <= o) by (destruct (_ && _); lia).
  destruct (s_holder st); cbn [through_of] in H3; try lia. specialize (H3 _ eq_refl). lia.
Qed.

Lemma step_inj {A B} (a c : A) (b d : B) : Some (a, b) = Some (c, d) -> c = a /\ d = b.
Proof. by intros [= -> ->]. Qed.

(** The outcome of a step, in its hypothesis. *)
Ltac stepped H := apply step_inj in H as [-> ->].

Lemma writer_step_inv st cur ge i pc ok sh pc' :
  gate_inv st cur ge -> s_writers st !! i = Some pc -> wstep (s_shared st) pc ok = Some (sh, pc') ->
  gate_inv (with_threads st sh (<[i := pc']> (s_writers st)) (s_holder st)) cur ge.
Proof.
  intros I Hi Hs. pose proof (wok_at _ _ _ _ _ I Hi) as Hok. destruct pc; cbn [wstep] in Hs; try discriminate Hs.
  - stepped Hs. by eapply writer_quiet.
  - destruct (Z.eqb_spec (epoch word) r.1) as [He|]; cbn [negb] in Hs; [|stepped Hs; by eapply writer_quiet].
    destruct ok; cbn [andb] in Hs; [|stepped Hs; by eapply writer_quiet].
    destruct (Z.eqb_spec (g_word (sh_gate (s_shared st))) word); stepped Hs; [by apply enter_word|by eapply writer_quiet].
  - stepped Hs. by eapply writer_quiet.
  - destruct ok; cbn [andb] in Hs; [|stepped Hs; by eapply writer_quiet].
    destruct (Z.eqb_spec (g_sides (sh_gate (s_shared st))) sides) as [<-|]; stepped Hs; [by apply enter_side|by eapply writer_quiet].
  - case_bool_decide as Hw; stepped Hs; (eapply writer_quiet; try done).
    + by apply Hok.
    + destruct Hok as [Hp He]. split; [done|split; [done|]]. by apply (unwritten_floor _ _ ge).
  - stepped Hs. eapply writer_quiet; try done. by apply Hok.
  - stepped Hs. exact (proj2 (leave_side st cur ge i en wrote I Hi) _).
  - stepped Hs. refine (proj2 (leave_word st cur ge i en drained wrote _ I Hi _ _ _)); by destruct (drained || _).
  - destruct (_ =? WAITING); stepped Hs; by eapply writer_quiet.
  - stepped Hs. by eapply writer_quiet.
  - stepped Hs. by eapply writer_quiet.
  - stepped Hs. by destruct w; eapply writer_quiet.
  - destruct wrote as [r|]; stepped Hs; eapply writer_quiet; try done. cbn. set_solver.
Qed.

(** ** Steps of the holder keep it *)

(** The holder moves on; the gate's words stay. *)
Lemma holder_frame st cur ge sh h :
  gate_inv st cur ge -> sh_written sh = sh_written (s_shared st) ->
  g_word (sh_gate sh) = g_word (sh_gate (s_shared st)) -> g_sides (sh_gate sh) = g_sides (sh_gate (s_shared st)) ->
  g_turned (sh_gate sh) = g_turned (sh_gate (s_shared st)) ->
  epochs_ok h (s_epoch st) ge ->
  holder_ok h (g_turned (sh_gate (s_shared st))) cur (cnt (at_side (1 - cur)) (s_writers st)) (cnt in_word (s_writers st)) ->
  (through_of h = None \/ through_of h = through_of (s_holder st) \/
   exists p, through_of h = Some p /\ 0 < p <= s_next st /\
     prefix_written (s_epoch st) (s_placed st) (sh_written (s_shared st)) p) ->
  Forall (wok (with_threads st sh (s_writers st) h) cur) (s_writers st) ->
  gate_inv (with_threads st sh (s_writers st) h) cur ge.
Proof.
  intros [T1 T2 T3 T4 T5 T6 T7 T8 T9 T10 T11 T12 T13] Ew E1 E2 E3 He Hh Hth Hf.
  constructor; cbn [with_threads s_writers s_shared s_holder s_epoch s_placed s_next s_durable]; rewrite ?Ew, ?E1, ?E2, ?E3; try done.
  intros p Hp. destruct Hth as [Hn|[Hsame|(q & Hq & Hqq)]]; [congruence| |].
  - apply T10. congruence.
  - rewrite Hq in Hp. by injection Hp as <-.
Qed.

Lemma wok_floor st cur st' pc :
  wok st cur pc -> s_epoch st' = s_epoch st -> s_placed st ⊆ s_placed st' ->
  (forall r en, pc = WWriting r en ->
    floor_of (s_holder st) (g_turned (sh_gate (s_shared st))) cur (s_durable st) (en_side en) <= r.2 ->
    floor_of (s_holder st') (g_turned (sh_gate (s_shared st'))) cur (s_durable st') (en_side en) <= r.2) ->
  wok st' cur pc.
Proof.
  intros Hok Ee Hp Hf. unfold wok, placed_ok in *. rewrite Ee. destruct pc; try done; split; naive_solver.
Qed.

(** The same, when what the holder protects does not grow. *)
Lemma holder_quiet st cur ge sh h :
  gate_inv st cur ge -> sh_written sh = sh_written (s_shared st) ->
  g_word (sh_gate sh) = g_word (sh_gate (s_shared st)) -> g_sides (sh_gate sh) = g_sides (sh_gate (s_shared st)) ->
  g_turned (sh_gate sh) = g_turned (sh_gate (s_shared st)) ->
  epochs_ok h (s_epoch st) ge ->
  holder_ok h (g_turned (sh_gate (s_shared st))) cur (cnt (at_side (1 - cur)) (s_writers st)) (cnt in_word (s_writers st)) ->
  (through_of h = None \/ through_of h = through_of (s_holder st) \/
   exists p, through_of h = Some p /\ 0 < p <= s_next st /\
     prefix_written (s_epoch st) (s_placed st) (sh_written (s_shared st)) p) ->
  (forall t d side, floor_of h t cur d side = floor_of (s_holder st) t cur d side) ->
  gate_inv (with_threads st sh (s_writers st) h) cur ge.
Proof.
  intros I Ew E1 E2 E3 He Hh Hth Hf. apply holder_frame; try done.
  eapply Forall_impl; [|apply (gi_writers _ _ _ I)]. intros pc Hok. eapply wok_floor; try done.
  intros r en _. cbn. by rewrite E3, Hf.
Qed.

(** Counting the sides of the gate as they are. *)
Lemma on_side_cnt st cur ge s :
  gate_inv st cur ge -> is_side s -> on_side (g_sides (sh_gate (s_shared st))) s = cnt (at_side s) (s_writers st).
Proof.
  intros I Hs. destruct (counts_fit _ _ _ I) as (_ & Hl & Hh). rewrite (gi_sides _ _ _ I), on_side_pack by done.
  by destruct Hs as [-> | ->].
Qed.

Lemma current_side_cnt st cur ge : gate_inv st cur ge -> current_side (g_sides (sh_gate (s_shared st))) = cur.
Proof.
  intros I. destruct (counts_fit _ _ _ I) as (_ & Hl & Hh). rewrite (gi_sides _ _ _ I). by apply current_side_pack.
Qed.

Lemma in_flight_cnt st cur ge : gate_inv st cur ge -> in_flight (g_word (sh_gate (s_shared st))) = cnt in_word (s_writers st).
Proof. intros I. destruct (counts_fit _ _ _ I) as (Hn & _). rewrite (gi_word _ _ _ I). by apply in_flight_pack. Qed.

Lemma other_side cur : is_side cur -> is_side (1 - cur) /\ Z.lxor cur 1 = 1 - cur /\ cur <> 1 - cur.
Proof. unfold is_side. intros [-> | ->]; split_and!; (done || lia). Qed.

(** No write is under way when none is counted. *)
Lemma none_writing st cur ge i r en s :
  gate_inv st cur ge -> s_writers st !! i = Some (WWriting r en) ->
  cnt (at_side s) (s_writers st) = 0 -> en_side en <> s.
Proof.
  intros I Hi Hz He. pose proof (cnt_zero _ _ _ _ Hz Hi) as Hf. cbn in Hf. by rewrite He, Z.eqb_refl in Hf.
Qed.

Lemma writers_ok st st' cur cur' ge :
  gate_inv st cur ge -> s_epoch st' = s_epoch st -> s_placed st ⊆ s_placed st' ->
  (forall i r en, s_writers st !! i = Some (WWriting r en) -> is_side (en_side en) ->
    floor_of (s_holder st) (g_turned (sh_gate (s_shared st))) cur (s_durable st) (en_side en) <= r.2 ->
    floor_of (s_holder st') (g_turned (sh_gate (s_shared st'))) cur' (s_durable st') (en_side en) <= r.2) ->
  Forall (wok st' cur') (s_writers st).
Proof.
  intros I Ee Hp Hf. apply Forall_lookup. intros i pc Hi. pose proof (wok_at _ _ _ _ _ I Hi) as Hok.
  unfold wok, placed_ok in *. rewrite Ee. destruct pc; try done; try (split; naive_solver).
  destruct Hok as (H1 & H2 & H3). split; [naive_solver|]. split; [done|]. eapply Hf; [done|apply H2|done].
Qed.

Lemma store_turned_inv st cur ge through sides k :
  gate_inv st cur ge -> s_holder st = HStore through sides k ->
  gate_inv (with_threads st (with_gate (s_shared st) (set_turned (sh_gate (s_shared st)) through)) (s_writers st)
    (HFlip through sides k)) cur ge.
Proof.
  intros I Hh. pose proof I as [T1 T2 T3 T4 T5 T6 T7 T8 T9 T10 T11 T12 T13]. rewrite Hh in *. cbn in T5, T9.
  destruct (T10 through eq_refl) as [Hp Hpw].
  constructor; cbn [with_threads with_gate s_writers s_shared s_holder s_epoch s_placed s_next s_durable sh_gate set_turned
    g_word g_sides g_turned sh_written]; try done.
  - split; [lia|done].
  - lia.
  - split; [by apply T8|lia].
  - apply (writers_ok st _ cur _ ge); try done. intros i r en _ _. rewrite Hh. unfold floor_of. cbn. lia.
Qed.

Lemma flip_inv st cur ge through k :
  gate_inv st cur ge -> s_holder st = HFlip through (g_sides (sh_gate (s_shared st))) k ->
  gate_inv (with_threads st (with_gate (s_shared st) (set_sides (sh_gate (s_shared st))
      (Z.lxor (g_sides (sh_gate (s_shared st))) (Z.shiftl 1 SIDE_BIT)))) (s_writers st) (HSettle through k)) (1 - cur) ge.
Proof.
  intros I Hh. destruct (counts_fit _ _ _ I) as (_ & Hl & Hhi). pose proof (gi_sides _ _ _ I) as Es.
  pose proof I as [T1 T2 T3 T4 T5 T6 T7 T8 T9 T10 T11 T12 T13]. rewrite Hh in *. cbn in T5, T9. destruct T9 as [Ho Ht].
  constructor; cbn [with_threads with_gate s_writers s_shared s_holder s_epoch s_placed s_next s_durable sh_gate set_sides
    g_word g_sides g_turned sh_written]; try done.
  - by apply other_side.
  - rewrite Es. by apply flip_side.
  - apply (writers_ok st _ cur _ ge); try done. intros i r en Hi Hs. rewrite Hh.
    pose proof (none_writing _ _ _ _ _ _ _ I Hi Ho) as Hne. unfold floor_of.
    cbn [with_threads with_gate s_writers s_shared s_holder sh_gate set_sides g_turned s_durable].
    destruct (Z.eqb_spec (en_side en) (1 - cur)); [done|]. cbn [andb]. lia.
Qed.

Lemma done_inv st cur ge upto :
  gate_inv st cur ge -> s_holder st = HDone upto ->
  gate_inv (with_threads st (with_gate (s_shared st) (set_turned (sh_gate (s_shared st)) 0)) (s_writers st) (HSync upto)) cur ge.
Proof.
  intros I Hh. pose proof I as [T1 T2 T3 T4 T5 T6 T7 T8 T9 T10 T11 T12 T13]. rewrite Hh in *. cbn in T5, T9.
  destruct T9 as (Ho & Ht & Hle).
  constructor; cbn [with_threads with_gate s_writers s_shared s_holder s_epoch s_placed s_next s_durable sh_gate set_turned
    g_word g_sides g_turned sh_written]; try done.
  - split; [lia|]. intros o Hp Hlt. destruct T11 as [_ Hd]. destruct (T10 upto eq_refl) as [Hup Hpw]. apply Hpw; [done|lia].
  - apply (writers_ok st _ cur _ ge); try done. intros i r en Hi Hs. rewrite Hh.
    pose proof (none_writing _ _ _ _ _ _ _ I Hi Ho) as Hne. unfold floor_of. cbn.
    assert (en_side en = cur) as -> by (unfold is_side in *; lia). rewrite Z.eqb_refl. cbn [andb].
    destruct (Z.eqb_spec (g_turned (sh_gate (s_shared st))) 0); [done|]. cbn [negb]. lia.
Qed.

Lemma turn_word_inv st cur ge e k :
  gate_inv st cur ge -> s_holder st = HTurnWord e (g_word (sh_gate (s_shared st))) k ->
  gate_inv (with_threads st (with_gate (s_shared st) (set_word (sh_gate (s_shared st))
     (Z.lor (as_u64 (Z.shiftl e WRITER_BITS)) (Z.land (g_word (sh_gate (s_shared st))) WRITERS)))) (s_writers st) (HClear e k)) cur e.
Proof.
  intros I Hh. destruct (counts_fit _ _ _ I) as (Hn & _). pose proof (gi_word _ _ _ I) as Ew.
  pose proof I as [T1 T2 T3 T4 T5 T6 T7 T8 T9 T10 T11 T12 T13]. rewrite Hh in *. cbn in T5. destruct T5 as (He & Hlt & _).
  constructor; cbn [with_threads with_gate s_writers s_shared s_holder s_epoch s_placed s_next s_durable sh_gate set_word
    g_word g_sides g_turned sh_written]; try done.
  - rewrite Ew. apply turned_word; lia.
  - apply (writers_ok st _ cur _ ge); try done. intros i r en _ _. rewrite Hh. done.
Qed.

Lemma forget_inv st cur ge e :
  gate_inv st cur ge -> s_holder st = HForget e ->
  gate_inv (with_threads st (with_gate (s_shared st) (set_turned (sh_gate (s_shared st)) 0)) (s_writers st) (HCut e)) cur ge.
Proof.
  intros I Hh. pose proof (side_in_word (1 - cur) (s_writers st)) as Hle.
  pose proof (cnt_bounds (at_side (1 - cur)) (s_writers st)).
  pose proof I as [T1 T2 T3 T4 T5 T6 T7 T8 T9 T10 T11 T12 T13]. rewrite Hh in *. cbn in T5, T9. destruct T9 as [Hz _].
  constructor; cbn [with_threads with_gate s_writers s_shared s_holder s_epoch s_placed s_next s_durable sh_gate set_turned
    g_word g_sides g_turned sh_written]; try done.
  - split; [lia|]. intros o Hp Hlt. apply (proj2 T11); [done|]. lia.
  - lia.
  - apply (writers_ok st _ cur _ ge); try done. intros i r en Hi _. pose proof (cnt_zero _ _ _ _ Hz Hi) as Hf. done.
Qed.

(** A sync that finds nothing in flight begins at once. *)
Lemma look_inv st cur ge through k :
  gate_inv st cur ge -> s_holder st = HLook through k -> cnt (at_side cur) (s_writers st) = 0 ->
  gate_inv (with_threads st (s_shared st) (s_writers st) (HSync through)) cur ge.
Proof.
  intros I Hh Hz. pose proof (gi_epochs _ _ _ I) as He. pose proof (gi_holder _ _ _ I) as Ht. rewrite Hh in He, Ht. cbn in He, Ht.
  apply holder_frame; try done; [by rewrite Hh; right; left|].
  apply (writers_ok st _ cur _ ge); try done. intros i r en Hi Hs _. exfalso.
  pose proof (none_writing _ _ _ _ _ _ _ I Hi Hz). pose proof (none_writing _ _ _ _ _ _ _ I Hi (gi_other _ _ _ I Ht)).
  pose proof (gi_cur _ _ _ I). unfold is_side in *. lia.
Qed.

(** The side turned away from has drained. *)
Lemma drained_inv st cur ge through :
  gate_inv st cur ge -> through_of (s_holder st) = Some through -> ge = s_epoch st ->
  g_turned (sh_gate (s_shared st)) <> 0 -> cnt (at_side (1 - cur)) (s_writers st) = 0 ->
  (forall u t d side, floor_of (HDone u) t cur d side = floor_of (s_holder st) t cur d side) ->
  gate_inv (with_threads st (s_shared st) (s_writers st) (HDone (Z.min (g_turned (sh_gate (s_shared st))) through))) cur ge.
Proof.
  intros I Ht He Hne Hz Hf. apply holder_quiet; try done.
  - split_and!; [done|done|lia].
  - right; right. eexists. split; [done|]. destruct (gi_through _ _ _ I _ Ht) as [Hr Hp].
    pose proof (gi_turned _ _ _ I) as [Hr' Hp']. split; [lia|]. intros o Hin Hlt. apply Hp; [done|lia].
Qed.

(** A step of the holder that only looks, or moves the waker. *)
Ltac quiet_step I Hh :=
  eexists _, _; apply (holder_quiet _ _ _ _ _ I); rewrite ?Hh;
  cbn [epochs_ok holder_ok through_of waits_of with_gate sh_gate set_waker
    g_word g_sides g_turned sh_written wake_one floor_of] in *; try done; try (by right; left); try (by left).

Lemma holder_step_inv st cur ge ok sh h :
  gate_inv st cur ge -> hstep (s_shared st) (s_holder st) ok = Some (sh, h) ->
  exists cur' ge', gate_inv (with_threads st sh (s_writers st) h) cur' ge'.
Proof.
  intros I Hs. destruct (other_side cur (gi_cur _ _ _ I)) as (Ho1 & Ho2 & Ho3).
  pose proof (gi_epochs _ _ _ I) as He. pose proof (gi_holder _ _ _ I) as Hok. pose proof (gi_through _ _ _ I) as Hth.
  pose proof (on_side_cnt _ _ _ (1 - cur) I Ho1) as Eoth. pose proof (on_side_cnt _ _ _ cur I (gi_cur _ _ _ I)) as Ecur.
  pose proof (current_side_cnt _ _ _ I) as Ecs. pose proof (in_flight_cnt _ _ _ I) as Eif.
  destruct (s_holder st) eqn:Hh; cbn [hstep] in Hs; try discriminate Hs.
  - destruct (Z.eqb_spec (g_turned (sh_gate (s_shared st))) 0); cbn [negb] in Hs; stepped Hs; quiet_step I Hh.
  - rewrite Ecs, Ho2 in Hs. stepped Hs. quiet_step I Hh. by destruct Hok.
  - cbn in Hok. destruct Hok as (-> & Ht & ->). rewrite Eoth in Hs.
    destruct (Z.eqb_spec (cnt (at_side (1 - cur)) (s_writers st)) 0) as [Hz|]; cbn [negb] in Hs; stepped Hs; [|quiet_step I Hh].
    eexists _, _. apply drained_inv; by rewrite ?Hh.
  - rewrite Ecs, Ecur in Hs. destruct (Z.eqb_spec (cnt (at_side cur) (s_writers st)) 0) as [Hz|]; stepped Hs; [|quiet_step I Hh].
    eexists _, _. by eapply look_inv.
  - stepped Hs. eexists _, _. by apply store_turned_inv.
  - destruct ok; cbn [andb] in Hs; [|stepped Hs; quiet_step I Hh].
    destruct (Z.eqb_spec (g_sides (sh_gate (s_shared st))) seen) as [<-|]; stepped Hs; [|quiet_step I Hh].
    eexists _, _. by apply flip_inv.
  - stepped Hs. eexists _, _. by apply done_inv.
  - stepped Hs. quiet_step I Hh.
  - destruct ok; cbn [andb] in Hs; [|stepped Hs; quiet_step I Hh].
    destruct (Z.eqb_spec (g_word (sh_gate (s_shared st))) word) as [<-|]; stepped Hs; [|quiet_step I Hh].
    eexists _, _. by eapply turn_word_inv.
  - rewrite Eif in Hs. destruct (Z.eqb_spec (cnt in_word (s_writers st)) 0); stepped Hs; quiet_step I Hh.
  - rewrite Eif in Hs. destruct (Z.eqb_spec (cnt in_word (s_writers st)) 0); stepped Hs; quiet_step I Hh.
  - stepped Hs. eexists _, _. by apply forget_inv.
  - destruct (_ =? WAITING); [|destruct (_ =? WAKING)]; stepped Hs; quiet_step I Hh.
  - stepped Hs; quiet_step I Hh.
  - destruct (_ =? REGISTERING); stepped Hs; quiet_step I Hh.
  - stepped Hs; quiet_step I Hh.
  - stepped Hs; quiet_step I Hh.
  - stepped Hs. destruct woken; quiet_step I Hh.
  - destruct w as [through turned away|e].
    + cbn in Hok. destruct Hok as (-> & Ht & ->). rewrite Eoth in Hs.
      destruct (Z.eqb_spec (cnt (at_side (1 - cur)) (s_writers st)) 0) as [Hz|]; cbn [negb] in Hs; stepped Hs; [|quiet_step I Hh].
      eexists _, _. apply drained_inv; by rewrite ?Hh.
    + rewrite Eif in Hs. destruct (Z.eqb_spec (cnt in_word (s_writers st)) 0); stepped Hs; quiet_step I Hh.
Qed.

(** ** The pipeline's steps keep it *)

Lemma decide_inv st cur ge n :
  gate_inv st cur ge -> 0 < n ->
  gate_inv (mkG (s_shared st) (s_writers st) (s_holder st) (s_epoch st)
              ({[(s_epoch st, s_next st)]} ∪ s_placed st) (s_next st + n) (s_durable st)) cur ge.
Proof.
  intros I Hn. pose proof I as [T1 T2 T3 T4 T5 T6 T7 T8 T9 T10 T11 T12 T13].
  assert (Hpw : forall p, p <= s_next st -> prefix_written (s_epoch st) (s_placed st) (sh_written (s_shared st)) p ->
    prefix_written (s_epoch st) ({[(s_epoch st, s_next st)]} ∪ s_placed st) (sh_written (s_shared st)) p).
  { intros p Hp Hw o Hin Hlt. apply elem_of_union in Hin as [Hin%elem_of_singleton|Hin]; [injection Hin; lia|by apply Hw]. }
  constructor; cbn [s_writers s_shared s_holder s_epoch s_placed s_next s_durable]; try done.
  - split; [lia|]. apply Hpw; [lia|apply T7].
  - intros p Hp. destruct (T10 p Hp). split; [lia|]. apply Hpw; [lia|done].
  - split; [lia|]. apply Hpw; [lia|apply T11].
  - intros r [->%elem_of_singleton|Hin]%elem_of_union; [cbn; lia|]. destruct (T12 r Hin). split; [lia|]. intros Hr. specialize (H0 Hr). lia.
  - apply (writers_ok st _ cur _ ge); try done. cbn. set_solver.
Qed.

Lemma cut_inv st cur ge e at_ :
  gate_inv st cur ge -> s_holder st = HCut e -> s_durable st <= at_ <= s_next st ->
  gate_inv (mkG (s_shared st) (s_writers st) HIdle e
              (filter (fun r : record => r.2 < at_) (s_placed st)) at_ (s_durable st)) cur ge.
Proof.
  intros I Hh Hat. pose proof I as [T1 T2 T3 T4 T5 T6 T7 T8 T9 T10 T11 T12 T13]. rewrite Hh in *. cbn in T5, T9.
  destruct T5 as (-> & Hlt & ->), T9 as [Hz Ht]. specialize (Ht _ eq_refl).
  set (placed' := filter _ _). assert (Hold : forall r, r ∈ placed' -> r.1 <= s_epoch st).
  { intros r [_ Hr]%elem_of_filter. by apply T12. }
  assert (Hnone : forall p, prefix_written (s_epoch st + 1) placed' (sh_written (s_shared st)) p).
  { intros p o Hin. apply Hold in Hin. cbn in Hin. lia. }
  constructor; cbn [s_writers s_shared s_holder s_epoch s_placed s_next s_durable]; try done; try lia.
  - split; [lia|done].
  - split; [lia|done].
  - intros r Hr. apply Hold in Hr. lia.
  - apply Forall_lookup. intros i pc Hi. pose proof (wok_at _ _ _ _ _ I Hi) as Hok.
    pose proof (cnt_zero _ _ _ _ Hz Hi) as Hf. unfold wok in *. cbn [s_epoch s_placed]. destruct pc; try done; split; lia.
Qed.

Lemma init_inv n start ep :
  Z.of_nat n < 2 ^ 24 -> 0 < start -> 0 <= ep < 2 ^ 40 -> gate_inv (g_init n start ep) 0 ep.
Proof.
  intros Hn Hs He. assert (Hc : forall f, f WIdle = false -> cnt f (replicate n WIdle) = 0).
  { intros f Hf. clear Hn. induction n as [|n IH]; [done|]. cbn [replicate cnt]. rewrite Hf, IH. lia. }
  constructor; cbn [g_init s_writers s_shared s_holder s_epoch s_placed s_next s_durable sh_gate set_word gate_new g_word
    g_sides g_turned sh_written]; rewrite ?Hc by done; try done; try lia.
  - rewrite len_replicate. lia.
  - by left.
  - unfold pack_word, WRITER_BITS. rewrite Z.shiftl_mul_pow2 by lia. lia.
  - split; [lia|]. intros o Hin. set_solver.
  - split; [lia|]. intros o Hin. set_solver.
  - apply Forall_replicate. done.
Qed.

(** Whoever takes the round finds the gate in the pipeline's epoch. *)
Lemma round_free_facts st cur ge :
  gate_inv st cur ge -> round_free (s_holder st) = true ->
  ge = s_epoch st /\
  (forall h, floor_of h = floor_of HIdle -> forall t d side, floor_of h t cur d side = floor_of (s_holder st) t cur d side).
Proof.
  intros I Hf. pose proof (gi_epochs _ _ _ I) as He.
  destruct (s_holder st) as [| | | | | | | | | | | | | | | | | | | | | |[?|?] ?]; try discriminate Hf; (split; [done|]);
    intros h Hh t d side; by rewrite Hh.
Qed.

Lemma gate_step_inv st st' cur ge :
  gate_inv st cur ge -> GStep st st' -> exists cur' ge', gate_inv st' cur' ge'.
Proof.
  intros I Hs. destruct Hs as [i pc ok sh pc' Hi Hs|ok sh h Hs|n Hn|i r Hi Hr|through k Hf Ht Hp|upto durable Hh Hd
    |k Hf He|e k He|e at_ Hh Hat].
  - eexists _, _. by eapply writer_step_inv.
  - by eapply holder_step_inv.
  - eexists _, _. by apply decide_inv.
  - eexists _, _. eapply writer_quiet; try done. pose proof (gi_placed _ _ _ I r Hr). cbn. split; [lia|done].
  - eexists _, _. destruct (round_free_facts _ _ _ I Hf) as (He & Hfl).
    apply (holder_quiet _ _ _ _ _ I); try done; [right; right; by exists through|intros; by apply Hfl].
  - eexists _, _. pose proof I as [T1 T2 T3 T4 T5 T6 T7 T8 T9 T10 T11 T12 T13]. rewrite Hh in *. cbn in T5.
    destruct (T10 upto eq_refl) as [Hu Hup].
    constructor; cbn [s_writers s_shared s_holder s_epoch s_placed s_next s_durable]; try done.
    + destruct Hd as [-> | ->]; [done|]. split; [lia|]. intros o Hin Hlt.
      destruct (Z.lt_ge_cases o upto); [by apply Hup|apply (proj2 T11); [done|lia]].
    + apply (writers_ok st _ cur _ ge); try done. intros i r en _ _. rewrite Hh. unfold floor_of. cbn. lia.
  - eexists _, _. destruct (round_free_facts _ _ _ I Hf) as (-> & Hfl).
    apply (holder_quiet _ _ _ _ _ I); try done; [|by left|intros; by apply Hfl]. split_and!; [done|done|by left].
  - eexists _, _. pose proof (gi_epochs _ _ _ I) as Hep. assert (Hto : turned_to e (s_epoch st) ge).
    { destruct (s_holder st) as [| | | | | | | | | | | | | | | | | | | | | |[?|?] ?] eqn:Hh; try discriminate He; by injection He as <-. }
    apply (holder_quiet _ _ _ _ _ I); try done; [|by left|].
    + destruct Hto as (-> & Hlt & ->). split_and!; [done|done|by right].
    + by destruct (s_holder st).
  - eexists _, _. by apply cut_inv.
Qed.

Lemma gate_reach_inv n start ep st :
  Z.of_nat n < 2 ^ 24 -> 0 < start -> 0 <= ep < 2 ^ 40 -> GReach (g_init n start ep) st ->
  exists cur ge, gate_inv st cur ge.
Proof.
  intros Hn Hs He H. induction H as [|st st' _ (cur & ge & I) Hstep].
  - exists 0, ep. by apply init_inv.
  - by eapply gate_step_inv.
Qed.

(** ** No wake is lost *)

(** Writers that hold the slot, that wake [k] next, that are about to wake, and
    that saw the side they left drained. *)
Definition holds_slot (pc : wpc) : bool := match pc with WTake _ | WRelease _ _ => true | _ => false end.
Definition takes (pc : wpc) : bool := match pc with WTake _ => true | _ => false end.
Definition wakes (k : nat) (pc : wpc) : bool :=
  match pc with WRelease _ (Some j) | WCall _ (Some j) => bool_decide (j = k) | _ => false end.
Definition will_wake (pc : wpc) : bool := match pc with WWake _ | WLeft _ true _ => true | _ => false end.

(** The holder has the slot to store its waker in. *)
Definition registering (h : hpc) : bool :=
  match h with HSlot _ _ | HGive _ _ | HTakeBack _ _ | HSwap _ _ _ => true | _ => false end.

(** Who holds the slot in each state of it. *)
Definition slot_owned (state : Z) (h : hpc) (holders : Z) : Prop :=
  (state = WAITING /\ holders = 0 /\ registering h = false) \/
  (state = WAKING /\ holders = 1 /\ registering h = false) \/
  (state = REGISTERING /\ holders = 0 /\ exists w k, h = HSlot w k \/ h = HGive w k) \/
  (state = Z.lor REGISTERING WAKING /\ holders = 0 /\ registering h = true).

(** What a parked holder waits for has not happened, or its last writer is yet
    to wake. *)
Definition still_waits (w : waits) (ws : list wpc) : Prop :=
  0 < cnt will_wake ws \/
  match w with ForSide _ _ away => 0 < cnt (at_side away) ws | ForClear _ => 0 < cnt in_word ws end.

(** The waker [k], once registered, is where the next wake finds it, or is on
    its way, or was woken. *)
Definition delivered (k : nat) (ws : list wpc) (woken : list nat) (slot : option nat) : Prop :=
  k ∈ woken \/ 0 < cnt (wakes k) ws \/ (slot = Some k /\ 0 < cnt takes ws).

Definition holder_waker (h : hpc) (ws : list wpc) (woken : list nat) (slot : option nat) (state : Z) : Prop :=
  match h with
  | HGive _ k | HTakeBack _ k => slot = Some k
  | HSwap _ k j | HWoken _ k j => j = Some k
  | HLast _ k => delivered k ws woken slot \/ (slot = Some k /\ state = WAITING)
  | HParked w k => delivered k ws woken slot \/ (slot = Some k /\ state = WAITING /\ still_waits w ws)
  | _ => True
  end.

Record wake_inv (st : GState) : Prop := {
  wi_owned : slot_owned (g_state (sh_gate (s_shared st))) (s_holder st) (cnt holds_slot (s_writers st));
  wi_waker : holder_waker (s_holder st) (s_writers st) (sh_woken (s_shared st)) (g_slot (sh_gate (s_shared st)))
               (g_state (sh_gate (s_shared st)));
}.

Lemma takes_holds ws : cnt takes ws <= cnt holds_slot ws.
Proof. apply cnt_le. by intros []. Qed.

(** Steps of a writer that touch neither the slot nor what is waited for. *)
Lemma writer_waker_quiet st i pc sh pc' :
  wake_inv st -> s_writers st !! i = Some pc ->
  g_state (sh_gate sh) = g_state (sh_gate (s_shared st)) -> g_slot (sh_gate sh) = g_slot (sh_gate (s_shared st)) ->
  sh_woken sh = sh_woken (s_shared st) ->
  holds_slot pc = false -> holds_slot pc' = false -> (forall k, wakes k pc = false) ->
  (forall w k, s_holder st = HParked w k -> still_waits w (s_writers st) -> still_waits w (<[i := pc']> (s_writers st))) ->
  wake_inv (with_threads st sh (<[i := pc']> (s_writers st)) (s_holder st)).
Proof.
  intros [O W] Hi E1 E2 E3 H1 H2 H3 Hw.
  assert (Ht : takes pc = false /\ takes pc' = false) by (destruct pc, pc'; done). destruct Ht as [Ht1 Ht2].
  assert (Hd : forall k slot, delivered k (s_writers st) (sh_woken (s_shared st)) slot ->
    delivered k (<[i := pc']> (s_writers st)) (sh_woken (s_shared st)) slot).
  { intros k slot. unfold delivered. rewrite !(cnt_insert _ _ _ _ _ Hi), Ht1, Ht2, H3.
    destruct (wakes k pc'); intros [?|[?|[? ?]]]; [by left|right; left; lia|right; right; split; [done|lia]
      |by left|right; left; lia|right; right; split; [done|lia]]. }
  constructor; cbn [with_threads s_writers s_shared s_holder]; rewrite ?E1, ?E2, ?E3.
  - rewrite (cnt_insert _ _ _ _ _ Hi), H1, H2. by replace (_ - 0 + 0) with (cnt holds_slot (s_writers st)) by lia.
  - unfold holder_waker in *. destruct (s_holder st) eqn:Hh; try done.
    + destruct W as [W|W]; [left; by apply Hd|by right].
    + destruct W as [W|(Wa & Wb & Wc)]; [left; by apply Hd|]. right. split_and!; [done|done|]. by eapply Hw.
Qed.

Lemma still_waits_mono w ws i pc pc' :
  ws !! i = Some pc -> (will_wake pc = true -> will_wake pc' = true) -> (in_word pc = true -> in_word pc' = true) ->
  (forall s, at_side s pc = true -> at_side s pc' = true) -> still_waits w ws -> still_waits w (<[i := pc']> ws).
Proof.
  intros Hi H1 H2 H3. assert (Hc : forall f, (f pc = true -> f pc' = true) -> cnt f ws <= cnt f (<[i := pc']> ws)).
  { intros f Hf. rewrite (cnt_insert _ _ _ _ _ Hi). destruct (f pc); [rewrite Hf by done; lia|destruct (f pc'); lia]. }
  unfold still_waits. pose proof (Hc _ H1). intros [?|Hw]; [left; lia|]. right.
  destruct w as [? ? away|]; [pose proof (Hc _ (H3 away))|pose proof (Hc _ H2)]; lia.
Qed.

(** Leaving the side, or the word: the last one there will wake. *)
Lemma leave_side_waits st cur ge i en wrote w k :
  gate_inv st cur ge -> s_writers st !! i = Some (WLeave en wrote) -> s_holder st = HParked w k ->
  let sides := as_u64 (g_sides (sh_gate (s_shared st)) - one_on (en_side en)) in
  let drained := (on_side sides (en_side en) =? 0) && negb (current_side sides =? en_side en) in
  still_waits w (s_writers st) -> still_waits w (<[i := WLeft en drained wrote]> (s_writers st)).
Proof.
  intros I Hi Hh sides drained. destruct (counts_fit _ _ _ I) as (_ & Hl & Hhi). destruct (wok_at _ _ _ _ _ I Hi) as [_ Hs].
  destruct (leave_side _ _ _ _ _ _ I Hi) as [Es _]. fold sides in Es. pose proof (gi_holder _ _ _ I) as Hok. rewrite Hh in Hok.
  pose proof (cnt_pos (at_side (en_side en)) _ _ _ Hi) as Hpos. cbn [at_side] in Hpos. specialize (Hpos (Z.eqb_refl _)).
  unfold still_waits. rewrite !(cnt_insert _ _ _ _ _ Hi). cbn [will_wake in_word].
  intros [?|Hw]; [left; destruct drained; lia|]. destruct w as [through turned away|e]; [|right; lia].
  rewrite (cnt_insert _ _ _ _ _ Hi). cbn [at_side]. cbn in Hok. destruct Hok as (_ & _ & ->).
  destruct (Z.eqb_spec (en_side en) (1 - cur)) as [Hside|]; [|right; lia].
  destruct (Z.eq_dec (cnt (at_side (1 - cur)) (s_writers st)) 1) as [H1|]; [|right; lia]. left.
  assert (drained = true) as ->; [|pose proof (cnt_bounds will_wake (s_writers st)); lia].
  unfold drained. apply andb_true_iff. rewrite Es. destruct (other_side cur (gi_cur _ _ _ I)) as (_ & _ & Hne).
  rewrite <- Hside in H1. split.
  - rewrite on_side_pack; [|destruct Hs as [Hs|Hs]; rewrite Hs in *; cbn [Z.eqb Pos.eqb]; lia..|done].
    apply Z.eqb_eq. destruct Hs as [Hs|Hs]; rewrite Hs in *; cbn [Z.eqb Pos.eqb]; lia.
  - rewrite current_side_pack by (destruct Hs as [Hs|Hs]; rewrite Hs in *; cbn [Z.eqb Pos.eqb]; lia).
    apply negb_true_iff, Z.eqb_neq. lia.
Qed.

Lemma leave_word_waits st cur ge i en drained wrote w k :
  gate_inv st cur ge -> s_writers st !! i = Some (WLeft en drained wrote) -> s_holder st = HParked w k ->
  let left := as_u64 (g_word (sh_gate (s_shared st)) - 1) in
  let cleared := (in_flight left =? 0) && negb (epoch left =? en_epoch en) in
  still_waits w (s_writers st) ->
  still_waits w (<[i := if drained || cleared then WWake wrote else WMark wrote]> (s_writers st)).
Proof.
  intros I Hi Hh left cleared. destruct (counts_fit _ _ _ I) as (Hn & _). destruct (wok_at _ _ _ _ _ I Hi) as [He _].
  pose proof (leave_word st cur ge i en drained wrote WIdle I Hi eq_refl (fun _ => eq_refl) Logic.I) as [Ew _]. fold left in Ew.
  pose proof (gi_epochs _ _ _ I) as Hep. rewrite Hh in Hep. pose proof (cnt_pos in_word _ _ _ Hi eq_refl) as Hpos.
  set (pc' := if _ || _ then _ else _).
  assert (Hpc : pc' = if drained || cleared then WWake wrote else WMark wrote) by done.
  assert (Hin : in_word pc' = false /\ forall s, at_side s pc' = false) by (rewrite Hpc; by destruct (_ || _)).
  destruct Hin as [Hin Hat]. unfold still_waits.
  rewrite !(cnt_insert _ _ _ _ _ Hi), Hin. cbn [in_word will_wake]. pose proof (cnt_bounds will_wake (s_writers st)).
  assert (Hwake : drained = true \/ cleared = true -> will_wake pc' = true).
  { rewrite Hpc. by intros [-> | ->]; [|rewrite orb_true_r]. }
  destruct drained; [left; rewrite Hwake by auto; pose proof (cnt_pos will_wake _ _ _ Hi eq_refl); lia|].
  intros [?|Hw]; [left; destruct (will_wake pc'); lia|]. destruct w as [through turned away|e].
  - right. rewrite (cnt_insert _ _ _ _ _ Hi), Hat. cbn [at_side]. lia.
  - destruct (Z.eq_dec (cnt in_word (s_writers st)) 1) as [H1|]; [|right; lia]. left. rewrite Hwake; [lia|]. right.
    unfold cleared. rewrite Ew, in_flight_pack, epoch_pack by lia. apply andb_true_iff. split; [apply Z.eqb_eq; lia|].
    apply negb_true_iff, Z.eqb_neq. cbn in Hep. unfold turned_to in Hep. lia.
Qed.

(** What is on its way to a waker stays so when a writer moves on from
    [WWake], [WTake], [WRelease] or [WCall]. *)
Lemma delivered_step k ws woken woken' slot slot' i pc pc' :
  ws !! i = Some pc -> (forall j, j ∈ woken -> j ∈ woken') ->
  (wakes k pc = true -> k ∈ woken' \/ wakes k pc' = true) ->
  (slot = Some k -> (slot' = Some k /\ (takes pc = true -> takes pc' = true)) \/ wakes k pc' = true) ->
  delivered k ws woken slot -> delivered k (<[i := pc']> ws) woken' slot'.
Proof.
  intros Hi Hw Hk Hs. unfold delivered. rewrite !(cnt_insert _ _ _ _ _ Hi).
  pose proof (cnt_bounds (wakes k) ws). pose proof (cnt_bounds takes ws).
  assert (Hpos : forall f : wpc -> bool, f pc = true -> 1 <= cnt f ws) by (intros f Hf; by eapply cnt_pos).
  intros [Hin|[Hc|[Hslot Hc]]].
  - left. by apply Hw.
  - destruct (wakes k pc) eqn:E; [|right; left; destruct (wakes k pc'); lia].
    destruct Hk as [?|E']; [done|by left|]. rewrite E'. right; left. lia.
  - destruct (Hs Hslot) as [[Hs' Ht]|E'].
    + right; right. split; [done|]. destruct (takes pc); [rewrite Ht by done; lia|destruct (takes pc'); lia].
    + rewrite E'. right; left. destruct (wakes k pc) eqn:E; [|lia]. specialize (Hpos _ E). lia.
Qed.

Lemma owned_by_writer st i pc :
  wake_inv st -> s_writers st !! i = Some pc -> holds_slot pc = true ->
  g_state (sh_gate (s_shared st)) = WAKING /\ cnt holds_slot (s_writers st) = 1 /\ registering (s_holder st) = false.
Proof.
  intros [O _] Hi Hp. pose proof (cnt_pos _ _ _ _ Hi Hp). unfold slot_owned in O.
  destruct O as [(-> & ? & ?)|[(-> & ? & ?)|[(-> & ? & ?)|(-> & ? & ?)]]]; (done || lia).
Qed.

(** The holder's waker when the slot is a writer's, or free. *)
Lemma holder_waker_step h ws ws' woken woken' slot slot' state state' :
  holder_waker h ws woken slot state -> registering h = false ->
  (forall k, delivered k ws woken slot -> delivered k ws' woken' slot') ->
  (forall k, slot = Some k -> state = WAITING -> delivered k ws' woken' slot') ->
  holder_waker h ws' woken' slot' state'.
Proof.
  intros Hw Hr Hd Hf. unfold holder_waker in *. destruct h; try done.
  - left. destruct Hw as [Hw|[? ?]]; auto.
  - left. destruct Hw as [Hw|(? & ? & _)]; auto.
Qed.

Lemma wake_step st i wrote pc' state :
  wake_inv st -> s_writers st !! i = Some (WWake wrote) ->
  (g_state (sh_gate (s_shared st)) = WAITING /\ state = WAKING /\ pc' = WTake wrote \/
   g_state (sh_gate (s_shared st)) <> WAITING /\ state = Z.lor (g_state (sh_gate (s_shared st))) WAKING /\ pc' = WMark wrote) ->
  wake_inv (with_threads st (with_gate (s_shared st) (set_waker (sh_gate (s_shared st)) state (g_slot (sh_gate (s_shared st)))))
    (<[i := pc']> (s_writers st)) (s_holder st)).
Proof.
  intros [O W] Hi [(Ew & -> & ->)|(Ew & -> & ->)]; constructor;
    cbn [with_threads with_gate set_waker s_writers s_shared s_holder sh_gate g_state g_slot sh_woken].
  - rewrite (cnt_insert _ _ _ _ _ Hi). cbn [holds_slot]. unfold slot_owned in *.
    destruct O as [(_ & -> & Hr)|[(E & _)|[(E & _)|(E & _)]]]; [|rewrite Ew in E; discriminate E..]. right; left. by split_and!.
  - assert (Hr : registering (s_holder st) = false).
    { destruct O as [(_ & _ & Hr)|[(E & _)|[(E & _)|(E & _)]]]; [done|rewrite Ew in E; discriminate E..]. }
    eapply holder_waker_step; [exact W|done|..].
    + intros k. apply (delivered_step _ _ _ _ _ _ _ _ _ Hi); naive_solver.
    + intros k Hs _. right; right. split; [done|]. rewrite (cnt_insert _ _ _ _ _ Hi). cbn [takes].
      pose proof (cnt_bounds takes (s_writers st)). lia.
  - rewrite (cnt_insert _ _ _ _ _ Hi). cbn [holds_slot]. replace (_ - 0 + 0) with (cnt holds_slot (s_writers st)) by lia.
    unfold slot_owned in *. destruct O as [(E & _)|[(-> & ? & ?)|[(-> & ? & w & k & Hh)|(-> & ? & ?)]]]; [done|..].
    + by right; left.
    + right; right; right. split_and!; [done|done|]. by destruct Hh as [-> | ->].
    + by right; right; right.
  - unfold holder_waker in *. destruct (s_holder st); try done.
    + left. destruct W as [W|[? ?]]; [|done]. revert W. apply (delivered_step _ _ _ _ _ _ _ _ _ Hi); naive_solver.
    + left. destruct W as [W|(? & ? & ?)]; [|done]. revert W. apply (delivered_step _ _ _ _ _ _ _ _ _ Hi); naive_solver.
Qed.

Lemma take_step st i wrote :
  wake_inv st -> s_writers st !! i = Some (WTake wrote) ->
  let g := sh_gate (s_shared st) in
  wake_inv (with_threads st (with_gate (s_shared st) (set_waker g (g_state g) None))
    (<[i := WRelease wrote (g_slot g)]> (s_writers st)) (s_holder st)).
Proof.
  intros W Hi g. destruct (owned_by_writer _ _ _ W Hi eq_refl) as (Es & Ec & Hr). destruct W as [O W]. constructor;
    cbn [with_threads with_gate set_waker s_writers s_shared s_holder sh_gate g_state g_slot sh_woken].
  - rewrite (cnt_insert _ _ _ _ _ Hi), Ec. right; left. by split_and!.
  - eapply holder_waker_step; [exact W|done|..]; [|by intros k _; rewrite Es].
    intros k. apply (delivered_step _ _ _ _ _ _ _ _ _ Hi); [done|done|]. unfold g. intros ->. right. cbn. by case_bool_decide.
Qed.

Lemma release_step st i wrote w :
  wake_inv st -> s_writers st !! i = Some (WRelease wrote w) ->
  let g := sh_gate (s_shared st) in
  wake_inv (with_threads st (with_gate (s_shared st) (set_waker g (Z.ldiff (g_state g) WAKING) (g_slot g)))
    (<[i := WCall wrote w]> (s_writers st)) (s_holder st)).
Proof.
  intros W Hi g. destruct (owned_by_writer _ _ _ W Hi eq_refl) as (Es & Ec & Hr). destruct W as [O W]. constructor;
    cbn [with_threads with_gate set_waker s_writers s_shared s_holder sh_gate g_state g_slot sh_woken]; unfold g; rewrite Es.
  - rewrite (cnt_insert _ _ _ _ _ Hi), Ec. left. by split_and!.
  - eapply holder_waker_step; [exact W|done|..]; [|by intros k _; rewrite Es].
    intros k. apply (delivered_step _ _ _ _ _ _ _ _ _ Hi); [done|by right|]. intros ->. left. done.
Qed.

Lemma call_step st i wrote w :
  wake_inv st -> s_writers st !! i = Some (WCall wrote w) ->
  wake_inv (with_threads st (wake_one (s_shared st) w) (<[i := WMark wrote]> (s_writers st)) (s_holder st)).
Proof.
  intros [O W] Hi. assert (Hg : sh_gate (wake_one (s_shared st) w) = sh_gate (s_shared st)) by (by destruct w).
  assert (Hd : forall k slot, delivered k (s_writers st) (sh_woken (s_shared st)) slot ->
    delivered k (<[i := WMark wrote]> (s_writers st)) (sh_woken (wake_one (s_shared st) w)) slot).
  { intros k slot. apply (delivered_step _ _ _ _ _ _ _ _ _ Hi); destruct w as [j|]; cbn [wake_one sh_woken wakes takes]; try done.
    - set_solver.
    - case_bool_decide; [subst j|done]. intros _. left. set_solver.
    - intros ->. by left.
    - intros ->. by left. }
  constructor; cbn [with_threads s_writers s_shared s_holder]; rewrite Hg.
  - rewrite (cnt_insert _ _ _ _ _ Hi). cbn [holds_slot]. by replace (_ - 0 + 0) with (cnt holds_slot (s_writers st)) by lia.
  - unfold holder_waker in *. destruct (s_holder st); try done.
    + destruct W as [W|W]; [left; by apply Hd|by right].
    + destruct W as [W|(Wa & Wb & Wc)]; [left; by apply Hd|]. right. split_and!; [done|done|]. by eapply still_waits_mono.
Qed.

(** A writer's step away from the slot. *)
Ltac waker_quiet Hs := stepped Hs; eapply writer_waker_quiet; try done; intros; by eapply still_waits_mono.

Lemma writer_step_wake st cur ge i pc ok sh pc' :
  gate_inv st cur ge -> wake_inv st -> s_writers st !! i = Some pc -> wstep (s_shared st) pc ok = Some (sh, pc') ->
  wake_inv (with_threads st sh (<[i := pc']> (s_writers st)) (s_holder st)).
Proof.
  intros I W Hi Hs. destruct pc; cbn [wstep] in Hs; try discriminate Hs.
  - waker_quiet Hs.
  - destruct (negb _); [|destruct (ok && _)]; waker_quiet Hs.
  - waker_quiet Hs.
  - destruct (ok && _); waker_quiet Hs.
  - case_bool_decide; waker_quiet Hs.
  - waker_quiet Hs.
  - stepped Hs. eapply writer_waker_quiet; try done. intros w k Hh. by eapply leave_side_waits.
  - stepped Hs. eapply writer_waker_quiet; try done; [by destruct (_ || _)|]. intros w k Hh. by eapply leave_word_waits.
  - destruct (Z.eqb_spec (g_state (sh_gate (s_shared st))) WAITING); stepped Hs; apply (wake_step _ _ wrote); try done; [by left|by right].
  - stepped Hs. by apply take_step.
  - stepped Hs. by apply release_step.
  - stepped Hs. by apply call_step.
  - destruct wrote; waker_quiet Hs.
Qed.

(** The holder moves to a place with nothing to say of its waker. *)
Definition no_waker (h : hpc) : bool :=
  match h with HGive _ _ | HTakeBack _ _ | HSwap _ _ _ | HWoken _ _ _ | HLast _ _ | HParked _ _ => false | _ => true end.

Lemma holder_moves st sh h :
  wake_inv st -> g_state (sh_gate sh) = g_state (sh_gate (s_shared st)) -> g_slot (sh_gate sh) = g_slot (sh_gate (s_shared st)) ->
  registering (s_holder st) = false -> registering h = false -> no_waker h = true ->
  wake_inv (with_threads st sh (s_writers st) h).
Proof.
  intros [O W] E1 E2 H1 H2 H3. constructor; cbn [with_threads s_writers s_shared s_holder]; rewrite ?E1, ?E2.
  - unfold slot_owned in *. rewrite H2. rewrite H1 in O. destruct O as [?|[?|[(_ & _ & w & k & [E|E])|(_ & _ & ?)]]];
      [by left|by right; left|rewrite E in H1; discriminate H1..|done].
  - by destruct h.
Qed.

(** Registering: the holder takes the slot, stores its waker and gives the slot
    back, or is told of a wake. *)
Lemma register_step st sh h w k ok :
  wake_inv st -> s_holder st = HRegister w k \/ s_holder st = HSlot w k \/ s_holder st = HGive w k \/
    s_holder st = HTakeBack w k \/ (exists j, s_holder st = HSwap w k j \/ s_holder st = HWoken w k j) ->
  hstep (s_shared st) (s_holder st) ok = Some (sh, h) -> wake_inv (with_threads st sh (s_writers st) h).
Proof.
  intros [O W] Hh Hs. unfold slot_owned in O. pose proof (takes_holds (s_writers st)).
  destruct Hh as [Hh|[Hh|[Hh|[Hh|[j [Hh|Hh]]]]]]; rewrite Hh in *; cbn [hstep holder_waker registering] in *.
  - destruct O as [(E & Hc & _)|[(E & Hc & _)|[(_ & _ & ? & ? & [?|?])|(_ & _ & ?)]]]; try done; rewrite E in Hs; stepped Hs;
      (constructor; cbn [with_threads with_gate wake_one set_waker s_writers s_shared s_holder sh_gate g_state g_slot sh_woken]).
    + right; right; left. split_and!; [done|done|]. exists w, k. by left.
    + done.
    + rewrite E. by right; left.
    + left. left. set_solver.
  - stepped Hs. constructor; cbn [with_threads with_gate set_waker s_writers s_shared s_holder sh_gate g_state g_slot]; [|done].
    destruct O as [(_ & _ & ?)|[(_ & _ & ?)|[(E & Hc & _)|(E & Hc & _)]]]; try done; rewrite E.
    + right; right; left. split_and!; [done|done|]. exists w, k. by right.
    + by right; right; right.
  - destruct O as [(_ & _ & ?)|[(_ & _ & ?)|[(E & Hc & _)|(E & Hc & _)]]]; try done; rewrite E in Hs; stepped Hs;
      (constructor; cbn [with_threads with_gate set_waker s_writers s_shared s_holder sh_gate g_state g_slot]).
    + by left.
    + by right.
    + rewrite E. by right; right; right.
    + done.
  - stepped Hs. constructor; cbn [with_threads with_gate set_waker s_writers s_shared s_holder sh_gate g_state g_slot]; [|done].
    destruct O as [(_ & _ & ?)|[(_ & _ & ?)|[(_ & _ & ? & ? & [?|?])|(E & Hc & _)]]]; try done. rewrite E. by right; right; right.
  - stepped Hs. constructor; cbn [with_threads with_gate set_waker s_writers s_shared s_holder sh_gate g_state g_slot]; [|done].
    destruct O as [(_ & _ & ?)|[(_ & _ & ?)|[(_ & _ & ? & ? & [?|?])|(E & Hc & _)]]]; try done. by left.
  - stepped Hs. subst j. constructor; cbn [with_threads wake_one s_writers s_shared s_holder sh_gate sh_woken].
    + destruct O as [?|[?|[(_ & _ & ? & ? & [?|?])|(_ & _ & ?)]]]; first [done|by left|by right; left].
    + left. left. set_solver.
Qed.

(** The last look before parking. *)
Lemma last_look_step st cur ge sh h w k ok :
  gate_inv st cur ge -> wake_inv st -> s_holder st = HLast w k ->
  hstep (s_shared st) (s_holder st) ok = Some (sh, h) -> wake_inv (with_threads st sh (s_writers st) h).
Proof.
  intros I W Hh Hs. destruct (other_side cur (gi_cur _ _ _ I)) as (Ho1 & _). pose proof (gi_holder _ _ _ I) as Hok.
  pose proof (on_side_cnt _ _ _ (1 - cur) I Ho1) as Eoth. pose proof (in_flight_cnt _ _ _ I) as Eif. rewrite Hh in Hs, Hok.
  assert (Hpark : still_waits w (s_writers st) -> wake_inv (with_threads st (s_shared st) (s_writers st) (HParked w k))).
  { intros Hw. destruct W as [O W]. rewrite Hh in *. constructor; cbn [with_threads s_writers s_shared s_holder].
    - destruct O as [?|[?|[(_ & _ & ? & ? & [?|?])|(_ & _ & ?)]]]; first [done|by left|by right; left].
    - destruct W as [W|[? ?]]; [by left|by right]. }
  pose proof (cnt_bounds (at_side (1 - cur)) (s_writers st)). pose proof (cnt_bounds in_word (s_writers st)).
  destruct w as [through turned away|e]; cbn in Hs, Hok.
  - destruct Hok as (-> & _ & ->). rewrite Eoth in Hs.
    destruct (Z.eqb_spec (cnt (at_side (1 - cur)) (s_writers st)) 0); stepped Hs; [by apply holder_moves; rewrite ?Hh|].
    apply Hpark. right. lia.
  - rewrite Eif in Hs. destruct (Z.eqb_spec (cnt in_word (s_writers st)) 0); stepped Hs; [by apply holder_moves; rewrite ?Hh|].
    apply Hpark. right. lia.
Qed.

Lemma holder_step_wake st cur ge ok sh h :
  gate_inv st cur ge -> wake_inv st -> hstep (s_shared st) (s_holder st) ok = Some (sh, h) ->
  wake_inv (with_threads st sh (s_writers st) h).
Proof.
  intros I W Hs. pose proof Hs as Hs'.
  destruct (s_holder st) eqn:Hh; cbn [hstep] in Hs; try discriminate Hs;
    try (stepped Hs; apply holder_moves; rewrite ?Hh; try done; match goal with |- context [if ?b then _ else _] => destruct b end; done);
    try (rewrite <- Hh in Hs'; eapply register_step; [done| |done]; naive_solver).
  - destruct (ok && _); stepped Hs; by apply holder_moves; rewrite ?Hh.
  - destruct (ok && _); stepped Hs; by apply holder_moves; rewrite ?Hh.
  - rewrite <- Hh in Hs'. by eapply last_look_step.
Qed.

Lemma wake_step_inv st st' cur ge : gate_inv st cur ge -> wake_inv st -> GStep st st' -> wake_inv st'.
Proof.
  intros I W Hs. destruct Hs as [i pc ok sh pc' Hi Hs|ok sh h Hs|n Hn|i r Hi Hr|through k Hf Ht Hp|upto durable Hh Hd
    |k Hf He|e k He|e at_ Hh Hat].
  - by eapply writer_step_wake.
  - by eapply holder_step_wake.
  - destruct W. by constructor.
  - eapply writer_waker_quiet; try done. intros; by eapply still_waits_mono.
  - apply holder_moves; try done. destruct (s_holder st); done.
  - assert (Hr : registering (s_holder st) = false) by (by rewrite Hh).
    destruct (holder_moves st (s_shared st) HIdle W eq_refl eq_refl Hr eq_refl eq_refl) as [O' W']. by constructor.
  - apply holder_moves; try done. destruct (s_holder st); done.
  - apply holder_moves; try done. destruct (s_holder st); done.
  - assert (Hr : registering (s_holder st) = false) by (by rewrite Hh).
    destruct (holder_moves st (s_shared st) HIdle W eq_refl eq_refl Hr eq_refl eq_refl) as [O' W']. by constructor.
Qed.

Lemma wake_reach n start ep st :
  Z.of_nat n < 2 ^ 24 -> 0 < start -> 0 <= ep < 2 ^ 40 -> GReach (g_init n start ep) st -> wake_inv st.
Proof.
  intros Hn Hs He H. induction H as [|st st' Hr IH Hstep].
  - constructor; [|done]. left. split_and!; [done| |done]. cbn [g_init s_writers]. clear. induction n; [done|]. exact IHn.
  - destruct (gate_reach_inv _ _ _ _ Hn Hs He Hr) as (cur & ge & I). by eapply wake_step_inv.
Qed.

(** ** A schedule to run *)

Inductive action :=
| AWriter (i : nat) (ok : bool)
| AHolder (ok : bool)
| ADecide (n : Z)
| ABegin (i : nat) (r : record)
| ASync (through : Z) (k : nat)
| ASynced
| ARollback (k : nat)
| ACut (at_ : Z).

Definition act (st : GState) (a : action) : option GState :=
  match a with
  | AWriter i ok =>
      pc ← s_writers st !! i;
      '(sh, pc') ← wstep (s_shared st) pc ok;
      Some (with_threads st sh (<[i := pc']> (s_writers st)) (s_holder st))
  | AHolder ok => '(sh, h) ← hstep (s_shared st) (s_holder st) ok; Some (with_threads st sh (s_writers st) h)
  | ADecide n =>
      if 0 <? n then
        Some (mkG (s_shared st) (s_writers st) (s_holder st) (s_epoch st)
                ({[(s_epoch st, s_next st)]} ∪ s_placed st) (s_next st + n) (s_durable st))
      else None
  | ABegin i r =>
      match s_writers st !! i with
      | Some WIdle =>
          if bool_decide (r ∈ s_placed st) then
            Some (with_threads st (s_shared st) (<[i := WEnter r]> (s_writers st)) (s_holder st))
          else None
      | _ => None
      end
  | ASync through k =>
      let unwritten := filter (fun r : record => r.1 = s_epoch st /\ r.2 < through) (s_placed st ∖ sh_written (s_shared st)) in
      if round_free (s_holder st) && (0 <? through) && (through <=? s_next st) && bool_decide (unwritten = ∅) then
        Some (with_threads st (s_shared st) (s_writers st) (HSettle through k))
      else None
  | ASynced =>
      match s_holder st with
      | HSync upto =>
          Some (mkG (s_shared st) (s_writers st) HIdle (s_epoch st) (s_placed st) (s_next st) (Z.max (s_durable st) upto))
      | _ => None
      end
  | ARollback k =>
      if round_free (s_holder st) && (s_epoch st + 1 <? 2 ^ 40) then
        Some (with_threads st (s_shared st) (s_writers st) (HTurn (s_epoch st + 1) k))
      else None
  | ACut at_ =>
      match s_holder st with
      | HCut e =>
          if (s_durable st <=? at_) && (at_ <=? s_next st) then
            Some (mkG (s_shared st) (s_writers st) HIdle e (filter (fun r : record => r.2 < at_) (s_placed st)) at_ (s_durable st))
          else None
      | _ => None
      end
  end.

Fixpoint schedule (st : GState) (l : list action) : option GState :=
  match l with
  | [] => Some st
  | a :: l => st' ← act st a; schedule st' l
  end.

Lemma act_step st a st' : act st a = Some st' -> GStep st st'.
Proof.
  destruct a as [i ok|ok|n|i r|through k| |k|at_]; cbn [act].
  - destruct (s_writers st !! i) as [pc|] eqn:Hi; [|done]. cbn [mbind option_bind].
    destruct (wstep (s_shared st) pc ok) as [[sh pc']|] eqn:Hw; [|done]. cbn. intros [= <-]. by eapply g_writer.
  - destruct (hstep (s_shared st) (s_holder st) ok) as [[sh h]|] eqn:Hw; [|done]. cbn. intros [= <-]. by eapply g_holder.
  - destruct (Z.ltb_spec 0 n); [|done]. intros [= <-]. by apply g_decide.
  - destruct (s_writers st !! i) as [[]|] eqn:Hi; try done. case_bool_decide; [|done]. intros [= <-]. by apply g_begin.
  - destruct (round_free _) eqn:Hf; [|done]. destruct (Z.ltb_spec 0 through); [|done]. destruct (Z.leb_spec through (s_next st)); [|done].
    cbn [andb]. case_bool_decide as Hu; [|done]. intros [= <-]. apply g_sync; [done|lia|]. intros o Hin Hlt.
    destruct (decide ((s_epoch st, o) ∈ sh_written (s_shared st))) as [|Hn]; [done|]. exfalso.
    apply (not_elem_of_empty (C := gset record) (s_epoch st, o)). rewrite <- Hu. apply elem_of_filter. set_solver.
  - destruct (s_holder st) eqn:Hh; try done. intros [= <-]. eapply g_synced; [done|by right].
  - destruct (round_free _) eqn:Hf; [|done]. destruct (Z.ltb_spec (s_epoch st + 1) (2 ^ 40)); [|done]. intros [= <-]. by apply g_rollback.
  - destruct (s_holder st) eqn:Hh; try done. destruct (Z.leb_spec (s_durable st) at_); [|done].
    destruct (Z.leb_spec at_ (s_next st)); [|done]. intros [= <-]. by eapply g_cut.
Qed.

Lemma schedule_reach start st l st' : GReach start st -> schedule st l = Some st' -> GReach start st'.
Proof.
  revert st. induction l as [|a l IH]; intros st Hr; cbn [schedule]; [by intros [= <-]|].
  destruct (act st a) as [st1|] eqn:Ha; [|done]. apply IH. by eapply greach_step, act_step.
Qed.

(** ** The gate's promises *)

(** C22: no write is under way below the durable offset, nor below the prefix of
    a sync that has begun (WG4, WG5). *)
Theorem gate_keeps_writes_off_syncs n start ep st i r en :
  Z.of_nat n < 2 ^ 24 -> 0 < start -> 0 <= ep < 2 ^ 40 -> GReach (g_init n start ep) st ->
  s_writers st !! i = Some (WWriting r en) ->
  s_durable st <= r.2 /\ forall upto, s_holder st = HSync upto -> upto <= r.2.
Proof.
  intros Hn Hs He Hr Hi. destruct (gate_reach_inv _ _ _ _ Hn Hs He Hr) as (cur & ge & I).
  destruct (wok_at _ _ _ _ _ I Hi) as (_ & _ & Hf). unfold floor_of in Hf. split; [lia|]. intros upto Hh. rewrite Hh in Hf. lia.
Qed.

(** A log is cut with no write in flight and none of a discarded commit to
    come: the gate is in the new epoch, every record is of an older one (WG1). *)
Theorem gate_clear_at_cut n start ep st e :
  Z.of_nat n < 2 ^ 24 -> 0 < start -> 0 <= ep < 2 ^ 40 -> GReach (g_init n start ep) st -> s_holder st = HCut e ->
  epoch (g_word (sh_gate (s_shared st))) = e /\
  (forall i pc, s_writers st !! i = Some pc -> in_word pc = false) /\ (forall r, r ∈ s_placed st -> r.1 < e).
Proof.
  intros Hn Hs He Hr Hh. destruct (gate_reach_inv _ _ _ _ Hn Hs He Hr) as (cur & ge & I).
  destruct (counts_fit _ _ _ I) as (Hc & _). pose proof (gi_epochs _ _ _ I) as Hep. pose proof (gi_holder _ _ _ I) as Hok.
  rewrite Hh in Hep, Hok. destruct Hep as (-> & _ & Hge), Hok as [Hz _]. split_and!.
  - rewrite (gi_word _ _ _ I), epoch_pack by done. done.
  - intros i pc Hi. by eapply cnt_zero.
  - intros r Hin. destruct (gi_placed _ _ _ I r Hin). lia.
Qed.

(** The epoch has moved and the rollback that moved it is not over. *)
Definition rolling_back (h : hpc) : bool :=
  match h with
  | HClear _ _ | HPark _ _ | HForget _ | HCut _ => true
  | _ => match waits_of h with Some (ForClear _) => true | _ => false end
  end.

Lemma rolling_epoch st cur ge : gate_inv st cur ge -> rolling_back (s_holder st) = true -> ge = s_epoch st + 1.
Proof.
  intros I Hr. pose proof (gi_epochs _ _ _ I) as He. unfold epochs_ok, turned_to in He.
  destruct (s_holder st) as [| | | | | | | | | | | | | | | w| w| w| w| w| w| w| w]; cbn [waits_of rolling_back] in He, Hr;
    try discriminate Hr; try lia; destruct w; (discriminate Hr || lia).
Qed.

(** From the moment a rollback has moved the epoch until it is over, the
    number of writes in flight never grows (WG2). *)
Theorem rollback_waits_only_fall n start ep st st' :
  Z.of_nat n < 2 ^ 24 -> 0 < start -> 0 <= ep < 2 ^ 40 -> GReach (g_init n start ep) st -> GStep st st' ->
  rolling_back (s_holder st) = true ->
  in_flight (g_word (sh_gate (s_shared st'))) <= in_flight (g_word (sh_gate (s_shared st))).
Proof.
  intros Hn Hs He Hr Hstep Hroll. destruct (gate_reach_inv _ _ _ _ Hn Hs He Hr) as (cur & ge & I).
  destruct (gate_step_inv _ _ _ _ I Hstep) as (cur' & ge' & I'). pose proof (rolling_epoch _ _ _ I Hroll) as Hge.
  rewrite (in_flight_cnt _ _ _ I), (in_flight_cnt _ _ _ I').
  destruct Hstep as [i pc ok sh pc' Hi Hw|ok sh h Hw|m Hm|i r Hi Hin|through k Hf Ht Hp|upto durable Hh Hd|k Hf Hlt|e k Hb|e at_ Hh Hat];
    cbn [with_threads s_writers]; try lia; rewrite (cnt_insert _ _ _ _ _ Hi); [|cbn [in_word]; lia].
  assert (in_word pc' = true -> in_word pc = true); [|destruct (in_word pc), (in_word pc'); naive_solver lia].
  pose proof (wok_at _ _ _ _ _ I Hi) as Hok. destruct (counts_fit _ _ _ I) as (Hc & _).
  destruct pc; cbn [wstep] in Hw; try discriminate Hw; try done.
  - stepped Hw. done.
  - destruct (Z.eqb_spec (epoch word) r.1) as [Heq|]; cbn [negb] in Hw; [|by stepped Hw].
    destruct (ok && _) eqn:Hcas; [|by stepped Hw]. apply andb_true_iff in Hcas as [_ Hword%Z.eqb_eq]. subst word.
    rewrite (gi_word _ _ _ I), epoch_pack in Heq by done. destruct Hok as [Hle _]. lia.
  - destruct (_ =? WAITING); by stepped Hw.
  - by stepped Hw.
  - by stepped Hw.
  - by stepped Hw.
  - by stepped Hw.
Qed.

(** A writer that has not counted in, or has left and woken whom it had to. *)
Definition outside (pc : wpc) : bool :=
  match pc with WIdle | WEnter _ | WWord _ _ | WMark _ => true | _ => false end.

Lemma cnt_outside f ws :
  (forall pc, outside pc = true -> f pc = false) -> (forall i pc, ws !! i = Some pc -> outside pc = true) -> cnt f ws = 0.
Proof.
  intros Hf Hq. induction ws as [|pc ws IH]; [done|]. cbn [cnt]. rewrite IH by (intros i; apply (Hq (S i))).
  rewrite Hf; [done|]. exact (Hq 0%nat pc eq_refl).
Qed.

(** C23: a parked rollback or sync is woken: whenever no write is in flight or
    leaving, the waker the holder parked with has been woken (WG3). *)
Theorem parked_holder_is_woken n start ep st w k :
  Z.of_nat n < 2 ^ 24 -> 0 < start -> 0 <= ep < 2 ^ 40 -> GReach (g_init n start ep) st -> s_holder st = HParked w k ->
  (forall i pc, s_writers st !! i = Some pc -> outside pc = true) -> k ∈ sh_woken (s_shared st).
Proof.
  intros Hn Hs He Hr Hh Hq. destruct (wake_reach _ _ _ _ Hn Hs He Hr) as [_ W]. rewrite Hh in W.
  unfold holder_waker, delivered, still_waits in W.
  rewrite (cnt_outside (wakes k)), (cnt_outside takes), (cnt_outside will_wake), (cnt_outside in_word) in W by (done || by intros []).
  destruct W as [[?|[?|[_ ?]]]|(_ & _ & [?|Hw])]; try done; try lia. destruct w as [? ? away|]; [|lia].
  rewrite (cnt_outside (at_side away)) in Hw by (done || by intros []). lia.
Qed.

(** The counters never overflow their fields and the gate's own assertions
    hold: a write counted in finds room in the word and on its side, a sync that
    turns finds the other side drained, a turn is forgotten with nothing in
    flight, and the epoch fits. *)
Theorem gate_assertions_hold n start ep st :
  Z.of_nat n < 2 ^ 24 -> 0 < start -> 0 <= ep < 2 ^ 40 -> GReach (g_init n start ep) st ->
  let g := sh_gate (s_shared st) in
  (forall i r word, s_writers st !! i = Some (WWord r word) -> in_flight (g_word g) < WRITERS) /\
  (forall i r sides, s_writers st !! i = Some (WSide r sides) -> on_side (g_sides g) (current_side (g_sides g)) < SIDE_COUNT) /\
  (forall through k, s_holder st = HLook through k -> on_side (g_sides g) (Z.lxor (current_side (g_sides g)) 1) = 0) /\
  (forall e, s_holder st = HForget e -> in_flight (g_word g) = 0) /\
  (forall e k, s_holder st = HTurn e k -> 0 <= e < 2 ^ 40).
Proof.
  intros Hn Hs He Hr g. destruct (gate_reach_inv _ _ _ _ Hn Hs He Hr) as (cur & ge & I).
  destruct (other_side cur (gi_cur _ _ _ I)) as (Ho1 & Ho2 & _). pose proof (gi_threads _ _ _ I) as Hlen.
  assert (Hroom : forall f i pc, s_writers st !! i = Some pc -> f pc = false -> cnt f (s_writers st) <= len (s_writers st) - 1).
  { intros f i pc Hi Hf. assert (Hp : 1 <= cnt (fun x => negb (f x)) (s_writers st)) by (eapply cnt_pos; [exact Hi|by rewrite Hf]).
    revert Hp. clear.
    assert (E : cnt f (s_writers st) + cnt (fun x => negb (f x)) (s_writers st) = len (s_writers st)); [|lia].
    induction (s_writers st) as [|x ws IH]; [done|]. cbn [cnt]. destruct (f x); cbn [negb]; llia. }
  unfold g. rewrite (in_flight_cnt _ _ _ I), (current_side_cnt _ _ _ I), Ho2, (on_side_cnt _ _ _ cur I (gi_cur _ _ _ I)),
    (on_side_cnt _ _ _ (1 - cur) I Ho1). change WRITERS with (2 ^ 24 - 1). change SIDE_COUNT with (2 ^ 31 - 1).
  pose proof (gi_holder _ _ _ I) as Hok. pose proof (gi_epochs _ _ _ I) as Hep. pose proof (gi_epoch _ _ _ I). split_and!.
  - intros i r word Hi. specialize (Hroom in_word _ _ Hi eq_refl). lia.
  - intros i r sides Hi. specialize (Hroom (at_side cur) _ _ Hi eq_refl). lia.
  - intros through k Hh. rewrite Hh in Hok. by apply (gi_other _ _ _ I).
  - intros e Hh. rewrite Hh in Hok. apply Hok.
  - intros e k Hh. rewrite Hh in Hep. destruct Hep. lia.
Qed.

(** ** Schedules: a late copy of a record under a sync, and a rollback *)

Definition steps (n : nat) (a : action) : list action := replicate n a.
Definition or_start (o : option GState) : GState := match o with Some st => st | None => g_init 2 24 3 end.

(** Writer 1 copies the record writer 0 writes and marks; a sync turns the gate
    and parks; the copy leaves. *)
Definition late_copy : list action :=
  [ADecide 10; ABegin 1 (3, 24)] ++ steps 5 (AWriter 1 true) ++ [ABegin 0 (3, 24)] ++ steps 9 (AWriter 0 true) ++
  [ASync 34 7] ++ steps 11 (AHolder true) ++ steps 8 (AWriter 1 true).
(** Then the sync begins, while the next record is written. *)
Definition under_sync : list action :=
  late_copy ++ [ASync 34 7] ++ steps 4 (AHolder true) ++ [ADecide 10; ABegin 0 (3, 34)] ++ steps 5 (AWriter 0 true).
(** A rollback that moved the epoch under a write. *)
Definition rollback_under_write : list action :=
  [ADecide 10; ABegin 0 (3, 24)] ++ steps 5 (AWriter 0 true) ++ [ARollback 7] ++ steps 2 (AHolder true).
(** A rollback about to cut, with a writer that looked at the gate too late. *)
Definition rollback_at_cut : list action :=
  [ADecide 10; ABegin 1 (3, 24); ARollback 7] ++ steps 4 (AHolder true) ++ steps 1 (AWriter 1 true).

Definition parked_state : GState := or_start (schedule (g_init 2 24 3) late_copy).
Definition synced_state : GState := or_start (schedule (g_init 2 24 3) under_sync).
Definition rolling_state : GState := or_start (schedule (g_init 2 24 3) rollback_under_write).
Definition cut_state : GState := or_start (schedule (g_init 2 24 3) rollback_at_cut).

Lemma scheduled l : match schedule (g_init 2 24 3) l with Some _ => true | None => false end = true ->
  GReach (g_init 2 24 3) (or_start (schedule (g_init 2 24 3) l)).
Proof.
  destruct (schedule (g_init 2 24 3) l) as [st|] eqn:E; [|discriminate]. intros _. by eapply schedule_reach; [apply greach_start|].
Qed.

Lemma gate_keeps_writes_off_syncs_witness :
  s_holder synced_state = HSync 34 /\ s_writers synced_state !! 0%nat = Some (WWriting (3, 34) (mkEntry 3 1)) /\ 34 <= 34.
Proof.
  split; [vm_compute; reflexivity|]. split; [vm_compute; reflexivity|].
  refine (proj2 (gate_keeps_writes_off_syncs 2 24 3 synced_state 0 (3, 34) (mkEntry 3 1) _ _ _ _ _) 34 _);
    [lia|lia|lia|apply scheduled; vm_compute; reflexivity|vm_compute; reflexivity|vm_compute; reflexivity].
Defined.

Lemma gate_clear_at_cut_witness :
  s_holder cut_state = HCut 4 /\ epoch (g_word (sh_gate (s_shared cut_state))) = 4.
Proof.
  split; [vm_compute; reflexivity|].
  refine (proj1 (gate_clear_at_cut 2 24 3 cut_state 4 _ _ _ _ _));
    [lia|lia|lia|apply scheduled; vm_compute; reflexivity|vm_compute; reflexivity].
Defined.

Lemma rollback_waits_only_fall_witness :
  in_flight (g_word (sh_gate (s_shared rolling_state))) = 1 /\
  exists st, act rolling_state (AWriter 0 true) = Some st /\ in_flight (g_word (sh_gate (s_shared st))) <= 1.
Proof.
  split; [vm_compute; reflexivity|].
  destruct (act rolling_state (AWriter 0 true)) as [st|] eqn:E; [|vm_compute in E; discriminate E].
  exists st. split; [reflexivity|].
  exact (rollback_waits_only_fall 2 24 3 rolling_state st ltac:(lia) ltac:(lia) ltac:(lia)
    ltac:(apply scheduled; vm_compute; reflexivity) (act_step _ _ _ E) ltac:(vm_compute; reflexivity)).
Defined.

Lemma parked_holder_is_woken_witness :
  s_holder parked_state = HParked (ForSide 34 34 0) 7 /\ 7%nat ∈ sh_woken (s_shared parked_state).
Proof.
  split; [vm_compute; reflexivity|].
  refine (parked_holder_is_woken 2 24 3 parked_state (ForSide 34 34 0) 7 _ _ _ _ _ _);
    [lia|lia|lia|apply scheduled; vm_compute; reflexivity|vm_compute; reflexivity|].
  assert (E : s_writers parked_state = [WIdle; WIdle]) by (vm_compute; reflexivity).
  intros i pc Hi. rewrite E in Hi. destruct i as [|[|i]]; [injection Hi as <-; reflexivity..|discriminate Hi].
Defined.

Lemma gate_assertions_hold_witness :
  s_writers cut_state !! 1%nat = Some (WWord (3, 24) 67108864) /\ in_flight (g_word (sh_gate (s_shared cut_state))) < WRITERS.
Proof.
  split; [vm_compute; reflexivity|].
  refine (proj1 (gate_assertions_hold 2 24 3 cut_state _ _ _ _) 1%nat (3, 24) 67108864 _);
    [lia|lia|lia|apply scheduled; vm_compute; reflexivity|vm_compute; reflexivity].
Defined.
