(* ===== verification/Manifest.v ===== *)
(** * Manifest records, batches and stamps

    Models the byte formats of [src/src/engine/manifest.rs] with
    [manifest/sealed.rs] and [manifest/tail.rs]: the records of a version edit,
    the batch that carries the records of one apply, plain and sealed, the stamp
    the file begins with, the one reader of a batch, and the judgement of an end
    that does not read back. The file is its bytes, below 2^63 of them, so a sum
    of offsets wraps only where a length read from the file is added on a 32-bit
    target.

    Shown here: records, batches and stamps read back as written, in both forms;
    reading arbitrary bytes returns on a 64-bit target; and the search for a
    later batch that proves damage durable finds the first one there is. *)

From stdpp Require Import gmap.
From S2P Require Import Prelude Checksum Seal.

Definition MAX_LEVELS : Z := 7.

(** ** Tables *)

Record Deletions := mkDeletions { points : Z; dead : Z; newest_seq : Z }.

Definition fits (d : Deletions) (entries : Z) : bool := (points d <=? dead d) && (dead d <=? entries).

Record SsTableMeta := mkMeta {
  file_id : Z;
  smallest_key : bytes;
  largest_key : bytes;
  file_size : Z;
  num_entries : Z;
  global_seq : option Z;
  deletions : option Deletions;
}.

(** [SsTableMeta { deletions, ..meta }]. *)
Definition with_deletions (m : SsTableMeta) (d : option Deletions) : SsTableMeta :=
  mkMeta (file_id m) (smallest_key m) (largest_key m) (file_size m) (num_entries m) (global_seq m) d.

Inductive ManifestRecord :=
| AddFile (level : Z) (meta : SsTableMeta)
| RemoveFile (level file_id : Z)
| TableCounts (file_id : Z) (deletions : Deletions)
| SetLastSeq (seq : Z)
| SetNextFileId (id : Z)
| SetMinWalId (id : Z)
| Reset (next_file_id min_wal_id : Z)
| RangeDeletesChecked.

Definition TAG_ADD_FILE : byte := Byte.x01.
Definition TAG_REMOVE_FILE : byte := Byte.x02.
Definition TAG_LAST_SEQ : byte := Byte.x03.
Definition TAG_NEXT_FILE_ID : byte := Byte.x04.
Definition TAG_MIN_WAL_ID : byte := Byte.x05.
Definition TAG_RESET : byte := Byte.x06.
Definition TAG_ADD_INGESTED_FILE : byte := Byte.x07.
Definition TAG_TABLE_COUNTS : byte := Byte.x08.
Definition TAG_RANGE_DELETES_CHECKED : byte := Byte.x09.

(** [push_table]. *)
Definition push_table (records : list ManifestRecord) (level : Z) (meta : SsTableMeta)
  : list ManifestRecord :=
  records ++ AddFile level meta ::
    match deletions meta with Some d => [TableCounts (file_id meta) d] | None => [] end.

Definition validate_level_index (level : Z) : outcome unit :=
  if level <? MAX_LEVELS then Ok ()
  else Err (mkError InvalidData "manifest level out of range" [level; MAX_LEVELS]).

(** ** Field readers *)

Definition short_read : error := mkError UnexpectedEof "short read" [].

Section Reads.
Context `{Target}.

(** Each hands back the value and the position after it. *)
Definition manifest_read_u32 (data : bytes) (pos : Z) : outcome (Z * Z) :=
  if len data <? uadd pos 4 then Err short_read
  else b ← expect (slice data pos (uadd pos 4)); Ok (from_le b, uadd pos 4).

Definition manifest_read_u64 (data : bytes) (pos : Z) : outcome (Z * Z) :=
  if len data <? uadd pos 8 then Err short_read
  else b ← expect (slice data pos (uadd pos 8)); Ok (from_le b, uadd pos 8).

Definition manifest_read_bytes (data : bytes) (pos : Z) : outcome (bytes * Z) :=
  '(n, pos) ← manifest_read_u32 data pos;
  if len data <? uadd pos n then Err short_read
  else b ← expect (slice data pos (uadd pos n)); Ok (b, uadd pos n).

End Reads.

(** ** Records *)

Module ManifestRecord.

Definition requires_sync (r : ManifestRecord) : bool :=
  match r with
  | SetNextFileId _ | SetMinWalId _ | TableCounts _ _ | RangeDeletesChecked => false
  | _ => true
  end.

(** What is appended to the buffer. *)
Definition encode (r : ManifestRecord) : bytes :=
  match r with
  | AddFile level meta =>
      [match global_seq meta with Some _ => TAG_ADD_INGESTED_FILE | None => TAG_ADD_FILE end]
      ++ to_le 4 (as_u32 level) ++ to_le 8 (file_id meta)
      ++ to_le 4 (as_u32 (len (smallest_key meta))) ++ smallest_key meta
      ++ to_le 4 (as_u32 (len (largest_key meta))) ++ largest_key meta
      ++ to_le 8 (file_size meta) ++ to_le 8 (num_entries meta)
      ++ match global_seq meta with Some seq => to_le 8 seq | None => [] end
  | RemoveFile level id => [TAG_REMOVE_FILE] ++ to_le 4 (as_u32 level) ++ to_le 8 id
  | TableCounts id d =>
      [TAG_TABLE_COUNTS] ++ to_le 8 id ++ to_le 8 (points d) ++ to_le 8 (dead d) ++ to_le 8 (newest_seq d)
  | SetLastSeq seq => [TAG_LAST_SEQ] ++ to_le 8 seq
  | SetNextFileId id => [TAG_NEXT_FILE_ID] ++ to_le 8 id
  | SetMinWalId id => [TAG_MIN_WAL_ID] ++ to_le 8 id
  | Reset next_file_id min_wal_id => [TAG_RESET] ++ to_le 8 next_file_id ++ to_le 8 min_wal_id
  | RangeDeletesChecked => [TAG_RANGE_DELETES_CHECKED]
  end.

Section Decode.
Context `{Target}.

(** The fields of tags 1 and 7. *)
Definition decode_add_file (ingested : bool) (data : bytes) (pos : Z) : outcome (ManifestRecord * Z) :=
  '(level, pos) ← manifest_read_u32 data pos;
  _ ← validate_level_index level;
  '(id, pos) ← manifest_read_u64 data pos;
  '(smallest, pos) ← manifest_read_bytes data pos;
  '(largest, pos) ← manifest_read_bytes data pos;
  '(size, pos) ← manifest_read_u64 data pos;
  '(entries, pos) ← manifest_read_u64 data pos;
  '(seq, pos) ← (if ingested then
                   '(seq, pos) ← manifest_read_u64 data pos;
                   if seq =? 0
                   then Err (mkError InvalidData "manifest records ingested table at sequence 0" [id])
                   else Ok (Some seq, pos)
                 else Ok (None, pos));
  Ok (AddFile level (mkMeta id smallest largest size entries seq None), pos).

Definition decode_fields (tag : byte) (data : bytes) (pos : Z) : outcome (ManifestRecord * Z) :=
  if Byte.eqb tag TAG_ADD_FILE || Byte.eqb tag TAG_ADD_INGESTED_FILE then
    decode_add_file (Byte.eqb tag TAG_ADD_INGESTED_FILE) data pos
  else if Byte.eqb tag TAG_REMOVE_FILE then
    '(level, pos) ← manifest_read_u32 data pos;
    _ ← validate_level_index level;
    '(id, pos) ← manifest_read_u64 data pos;
    Ok (RemoveFile level id, pos)
  else if Byte.eqb tag TAG_TABLE_COUNTS then
    '(id, pos) ← manifest_read_u64 data pos;
    '(p, pos) ← manifest_read_u64 data pos;
    '(d, pos) ← manifest_read_u64 data pos;
    '(n, pos) ← manifest_read_u64 data pos;
    Ok (TableCounts id (mkDeletions p d n), pos)
  else if Byte.eqb tag TAG_LAST_SEQ then
    '(seq, pos) ← manifest_read_u64 data pos; Ok (SetLastSeq seq, pos)
  else if Byte.eqb tag TAG_NEXT_FILE_ID then
    '(id, pos) ← manifest_read_u64 data pos; Ok (SetNextFileId id, pos)
  else if Byte.eqb tag TAG_MIN_WAL_ID then
    '(id, pos) ← manifest_read_u64 data pos; Ok (SetMinWalId id, pos)
  else if Byte.eqb tag TAG_RESET then
    '(next_file_id, pos) ← manifest_read_u64 data pos;
    '(min_wal_id, pos) ← manifest_read_u64 data pos;
    Ok (Reset next_file_id min_wal_id, pos)
  else if Byte.eqb tag TAG_RANGE_DELETES_CHECKED then Ok (RangeDeletesChecked, pos)
  else Err (mkError InvalidData "unknown manifest record tag" [byte.unsigned tag]).

(** [None] at the end of the batch; the position moves past what was read. *)
Definition decode (data : bytes) (pos : Z) : outcome (option (ManifestRecord * Z)) :=
  if len data <=? pos then Ok None
  else
    tag ← expect (getz data pos);
    r ← decode_fields tag data (uadd pos 1);
    Ok (Some r).

End Decode.
End ManifestRecord.

(** ** Sealed batches: [manifest/sealed.rs] *)

Definition MANIFEST_MAGIC : bytes := str "REGOMAN".
Definition MANIFEST_FORMAT_V1 : byte := Byte.x01.
Definition MANIFEST_FORMAT_SEALED : byte := Byte.x02.
Definition MANIFEST_STAMP_LEN : Z := 12.
Definition SALT_LEN : Z := 16.

Definition batch_too_long : error := mkError InvalidInput "MANIFEST edit batch exceeds u32 length" [].
Definition stamp_mismatch : error := invalid_data "MANIFEST stamp checksum mismatch".

Module sealed.
Section Sealed.
Context `{X : Xxh3} `{A : Aead}.

Definition SEALED_STAMP_LEN : Z := 28.

(** [draw] is what the operating system answered. *)
Definition fresh_salt (draw : outcome bytes) : outcome bytes := draw.

Definition encode_stamp (magic salt : bytes) : outcome bytes :=
  let out := magic ++ [MANIFEST_FORMAT_SEALED] ++ salt in
  sum ← manifest_record 0 out;
  Ok (out ++ to_le 4 sum).

Definition decode_stamp (data : bytes) : outcome (option bytes) :=
  match slice data 0 SEALED_STAMP_LEN with
  | None => Ok None
  | Some stamp =>
      let stored := from_le (dropz 24 stamp) in
      sum ← manifest_record 0 (takez 24 stamp);
      if negb (stored =? sum) then Err stamp_mismatch
      else Ok (Some (takez 16 (dropz 8 stamp)))
  end.

Definition aad (salt : bytes) (offset id : Z) : bytes :=
  [DOMAIN_MANIFEST] ++ salt ++ to_le 8 offset ++ to_le 4 id.

(** What is appended to [out]: [start] is where it begins. *)
Definition encode_batch (s : Sealer) (draw : outcome bytes) (salt : bytes) (offset : Z) (plain out : bytes)
  : outcome bytes :=
  let start := len out in
  if U32_MAX <? 4 + len plain + OVERHEAD then Err batch_too_long
  else
    let body_len := 4 + len plain + OVERHEAD in
    let out := out ++ to_le 4 body_len ++ to_le 4 (sealer_id s) in
    out ← seal_frame s draw (aad salt offset (sealer_id s)) plain out;
    sum ← manifest_record body_len (dropz (start + 4) out);
    Ok (out ++ to_le 4 sum).

Definition open_batch (k : Keyring) (salt : bytes) (offset : Z) (body : bytes) : outcome (Z * bytes) :=
  if len body <? 4
  then Err (mkError InvalidData "MANIFEST: the edit batch is too short to be sealed" [offset])
  else
    let id := from_le (takez 4 body) in
    s ← (sealer k id).2;
    '(frame, (_, plain_end)) ← ok_or (open_frame s (aad salt offset id) (dropz 4 body))
      (mkError InvalidData "MANIFEST: the edit batch does not verify under key id" [offset; id]);
    Ok (id, dropz NONCE_LEN (takez plain_end frame)).

End Sealed.
End sealed.

(** ** Batches and stamps *)

(** [ManifestSeal], and the [Opener] of [manifest/tail.rs]. *)
Record ManifestSeal `{Aead} := mkManifestSeal { seal_keyring : Keyring; seal_salt : bytes }.
Arguments mkManifestSeal {_} seal_keyring seal_salt.

Module VersionSetBytes.
Section VersionSetBytes.
Context `{T : Target} `{X : Xxh3} `{A : Aead}.

Definition encode_stamp : outcome bytes :=
  let out := MANIFEST_MAGIC ++ [MANIFEST_FORMAT_V1] in
  sum ← manifest_record 0 out;
  Ok (out ++ to_le 4 sum).

Definition stamp_bytes (salt : option bytes) : outcome bytes :=
  match salt with
  | Some salt => sealed.encode_stamp MANIFEST_MAGIC salt
  | None => encode_stamp
  end.

(** [sealing]: how batches are sealed for a manifest whose salt is [salt]. *)
Definition sealing (keyring : option Keyring) (salt : option bytes) : outcome (option ManifestSeal) :=
  match keyring, salt with
  | Some keyring, Some salt => Ok (Some (mkManifestSeal keyring salt))
  | None, Some _ => Err (mkError OtherError "KeyProviderRequired" [])
  | _, None => Ok None
  end.

Definition fresh_sealing (keyring : option Keyring) (draw : outcome bytes) : outcome (option ManifestSeal) :=
  salt ← match keyring with
         | Some _ => salt ← sealed.fresh_salt draw; Ok (Some salt)
         | None => Ok None
         end;
  sealing keyring salt.

Definition stamp_len (data : bytes) (keyring : option Keyring) : outcome (Z * option bytes) :=
  if len data <? MANIFEST_STAMP_LEN then Ok (0, None)
  else if negb (bytes_eqb (takez 7 data) MANIFEST_MAGIC)
  then Err (invalid_data "MANIFEST does not begin with the REGOMAN stamp")
  else
    format ← expect (getz data 7);
    if Byte.eqb format MANIFEST_FORMAT_SEALED then
      salt ← sealed.decode_stamp data;
      match salt with
      | None => Ok (0, None)
      | Some salt =>
          match keyring with
          | None => Err (mkError OtherError "KeyProviderRequired" [])
          | Some _ => Ok (sealed.SEALED_STAMP_LEN, Some salt)
          end
      end
    else
      let stored := from_le (takez 4 (dropz 8 data)) in
      sum ← manifest_record 0 (takez 8 data);
      if negb (stored =? sum) then Err stamp_mismatch
      else if byte.unsigned MANIFEST_FORMAT_SEALED <? byte.unsigned format
      then Err (mkError InvalidData "MANIFEST format was written by a newer regolith than this build"
                  [byte.unsigned format])
      else Ok (MANIFEST_STAMP_LEN, None).

(** The batch, and the key it is sealed under. *)
Definition encode_records (records : list ManifestRecord) (offset : Z) (sealing : option ManifestSeal)
    (draw : outcome bytes) : outcome (bytes * option Z) :=
  match records with
  | [] => Ok ([], None)
  | _ =>
      let plain := flat_map ManifestRecord.encode records in
      match sealing with
      | Some sealing =>
          s ← (current (seal_keyring sealing)).2;
          buf ← sealed.encode_batch s draw (seal_salt sealing) offset plain [];
          Ok (buf, Some (sealer_id s))
      | None =>
          if U32_MAX <? len plain then Err batch_too_long
          else
            sum ← manifest_record (len plain) plain;
            Ok (to_le 4 (len plain) ++ plain ++ to_le 4 sum, None)
      end
  end.

End VersionSetBytes.
End VersionSetBytes.

(** The edits of a batch as [replay_manifest] reads them: a sealed batch is
    opened under the key it names, which is handed back. *)
Definition batch_edits `{Aead} (salt : option bytes) (keyring : option Keyring) (offset : Z) (body : bytes)
  : outcome (option Z * bytes) :=
  match salt, keyring with
  | Some salt, Some keyring =>
      '(id, edits) ← sealed.open_batch keyring salt offset body;
      Ok (Some id, edits)
  | _, _ => Ok (None, body)
  end.

(** [keyring.zip(salt)]: how the judgement opens batches. *)
Definition opener `{Aead} (salt : option bytes) (keyring : option Keyring) : option ManifestSeal :=
  match keyring, salt with
  | Some keyring, Some salt => Some (mkManifestSeal keyring salt)
  | _, _ => None
  end.

(** ** The end of a manifest: [manifest/tail.rs] *)

Record Batch := mkBatch { batch_records : bytes; batch_end : Z }.
Record DroppedTail := mkDroppedTail { dt_offset : Z; dt_bytes : Z }.

Module tail.
Section Tail.
Context `{T : Target} `{X : Xxh3} `{A : Aead}.

Definition FRAMING : Z := 8.

Definition batch_at (data : bytes) (at_ : Z) : outcome (option Batch) :=
  match (rest ← slice data at_ (len data);
         head ← slice rest 0 4;
         let n := from_le head in
         records_end ← checked_add 4 n;
         end_ ← checked_add records_end 4;
         records ← slice rest 4 records_end;
         stored ← slice rest records_end end_;
         Some (n, records, from_le stored, end_)) with
  | None => Ok None
  | Some (n, records, stored, end_) =>
      sum ← manifest_record n records;
      Ok (if stored =? sum then Some (mkBatch records (uadd at_ end_)) else None)
  end.

(** The loop over the records of an opened batch. *)
Fixpoint any_needs_sync (fuel : nat) (records : bytes) (pos : Z) : outcome bool :=
  match fuel with
  | O => OutOfFuel
  | S fuel =>
      match ManifestRecord.decode records pos with
      | Ok (Some (r, pos)) =>
          if ManifestRecord.requires_sync r then Ok true else any_needs_sync fuel records pos
      | Ok None => Ok false
      | Err _ => Ok true
      | Panic => Panic
      | OutOfFuel => OutOfFuel
      end
  end.

Definition needs_sync (records : bytes) (at_ : Z) (sealed : option ManifestSeal) : outcome bool :=
  match sealed with
  | Some opener =>
      match sealed.open_batch (seal_keyring opener) (seal_salt opener) at_ records with
      | Ok (_, plain) => any_needs_sync (S (length plain)) plain 0
      | Err _ => Ok true
      | Panic => Panic
      | OutOfFuel => OutOfFuel
      end
  | None => any_needs_sync (S (length records)) records 0
  end.

Fixpoint proof_loop (fuel : nat) (data : bytes) (at_ : Z) (sealed : option ManifestSeal)
  : outcome (option Z) :=
  match fuel with
  | O => OutOfFuel
  | S fuel =>
      if uadd at_ FRAMING <=? len data then
        batch ← batch_at data at_;
        match batch with
        | Some batch =>
            proven ← (if batch_end batch <? len data
                      then needs_sync (batch_records batch) at_ sealed else Ok false);
            if proven : bool then Ok (Some (batch_end batch))
            else proof_loop fuel data (batch_end batch) sealed
        | None => proof_loop fuel data (uadd at_ 1) sealed
        end
      else Ok None
  end.

Definition proof_past (data : bytes) (damage_at : Z) (sealed : option ManifestSeal) : outcome (option Z) :=
  proof_loop (S (length data)) data (uadd damage_at 1) sealed.

(** The path named in the error is left out. *)
Definition judge (data : bytes) (damage_at : Z) (sealed : option ManifestSeal) : outcome DroppedTail :=
  proven ← proof_past data damage_at sealed;
  match proven with
  | Some proven =>
      Err (mkError InvalidData "damaged, below an offset that a later batch proves durable"
             [damage_at; proven])
  | None => Ok (mkDroppedTail damage_at (len data - damage_at))
  end.

End Tail.
End tail.

(** ** Reading what is there *)

(** The bytes of [data] from [pos] on are [rest]. *)
Definition rest_at (data : bytes) (pos : Z) (rest : bytes) : Prop :=
  exists p, data = p ++ rest /\ pos = len p.

Lemma rest_at_slice data pos s q e :
  rest_at data pos (s ++ q) -> e = pos + len s -> slice data pos e = Some s /\ rest_at data e q.
Proof.
  intros (p & -> & ->) ->. split; [by apply slice_app|]. exists (p ++ s). rewrite <- app_assoc. split; [done|llia].
Qed.

Lemma rest_at_len data pos rest : rest_at data pos rest -> 0 <= pos /\ len data = pos + len rest.
Proof. intros (p & -> & ->). split; llia. Qed.

Lemma rest_at_getz data pos b q : rest_at data pos (b :: q) -> getz data pos = Some b /\ rest_at data (pos + 1) q.
Proof.
  intros (p & -> & ->). split; [by apply getz_app_mid|]. exists (p ++ [b]). rewrite <- app_assoc.
  split; [done|llia].
Qed.

Lemma rest_at_start data : rest_at data 0 data.
Proof. by exists []. Qed.

Section ReadLemmas.
Context `{T : Target}.
Variable data : bytes.
Hypothesis Hdata : len data <= isize_max.

Lemma uadd_fits pos n : 0 <= pos -> 0 <= n -> pos + n <= len data -> uadd pos n = pos + n.
Proof. intros. apply uadd_small. pose proof isize_max_eq. pose proof usize_max_range. lia. Qed.

Lemma uadd_near pos n : 0 <= pos <= len data -> 0 <= n <= 8 -> uadd pos n = pos + n.
Proof. intros. apply uadd_small. pose proof isize_max_eq. pose proof usize_max_range. lia. Qed.

Lemma read_u32_ok pos z q :
  rest_at data pos (to_le 4 z ++ q) -> is_u32 z ->
  manifest_read_u32 data pos = Ok (z, pos + 4) /\ rest_at data (pos + 4) q.
Proof.
  intros Hr Hz. destruct (rest_at_len _ _ _ Hr) as [Hp Hl]. unfold manifest_read_u32.
  rewrite uadd_near by llia. destruct (rest_at_slice _ _ _ _ (pos + 4) Hr) as [-> Hq]; [llia|].
  ztest. run. by rewrite from_to_u32.
Qed.

Lemma read_u64_ok pos z q :
  rest_at data pos (to_le 8 z ++ q) -> is_u64 z ->
  manifest_read_u64 data pos = Ok (z, pos + 8) /\ rest_at data (pos + 8) q.
Proof.
  intros Hr Hz. destruct (rest_at_len _ _ _ Hr) as [Hp Hl]. unfold manifest_read_u64.
  rewrite uadd_near by llia. destruct (rest_at_slice _ _ _ _ (pos + 8) Hr) as [-> Hq]; [llia|].
  ztest. run. by rewrite from_to_u64.
Qed.

Lemma read_bytes_ok pos b q :
  rest_at data pos (to_le 4 (as_u32 (len b)) ++ b ++ q) -> is_u32 (len b) ->
  manifest_read_bytes data pos = Ok (b, pos + (4 + len b)) /\ rest_at data (pos + (4 + len b)) q.
Proof.
  intros Hr Hb. rewrite as_u32_small in Hr by done. unfold manifest_read_bytes.
  destruct (read_u32_ok _ _ _ Hr Hb) as [-> Hr']. run.
  destruct (rest_at_len _ _ _ Hr') as [Hp Hl]. rewrite uadd_fits by llia.
  destruct (rest_at_slice _ _ _ _ (pos + 4 + len b) Hr') as [-> Hq]; [llia|]. ztest. run.
  by rewrite Z.add_assoc.
Qed.

(** ** Reading anything

    A read of a fixed field returns, and moves the position forward within the
    data; so does a read of bytes whose length, added to the position, does not
    wrap. On a 64-bit target none does. *)
Definition lengths_fit : Prop :=
  forall pos n, 0 <= pos -> manifest_read_u32 data pos = Ok (n, pos + 4) -> pos + 4 + n <= usize_max.

Definition reads {V} (pos : Z) (m : outcome (V * Z)) : Prop :=
  returns m /\ forall v p, m = Ok (v, p) -> pos <= p <= len data.

Lemma reads_bind {V W} pos (m : outcome (V * Z)) (f : V * Z -> outcome (W * Z)) :
  reads pos m -> (forall v p, pos <= p <= len data -> reads p (f (v, p))) -> reads pos (m ≫= f).
Proof.
  intros [Hm Hp] Hf. destruct m as [[v p]|e| |]; try done. simpl. specialize (Hp v p eq_refl).
  destruct (Hf v p Hp) as [Hr Hq]. split; [done|]. intros w q Hw. specialize (Hq w q Hw). lia.
Qed.

Lemma reads_check {W} pos (m : outcome unit) (k : outcome (W * Z)) :
  returns m -> reads pos k -> reads pos (m ≫= fun _ => k).
Proof. by destruct m. Qed.

Lemma reads_Err {V} pos e : reads (V := V) pos (Err e).
Proof. done. Qed.

Lemma reads_Ok {V} pos (v : V) : pos <= len data -> reads pos (Ok (v, pos)).
Proof. intros Hp. split; [done|]. intros w p [= _ <-]. lia. Qed.

Lemma reads_slice {V} pos n (f : bytes -> V) e :
  0 <= pos <= len data -> 0 <= n -> pos + n <= usize_max ->
  reads pos (if len data <? uadd pos n then Err e
             else b ← expect (slice data pos (uadd pos n)); Ok (f b, uadd pos n)).
Proof.
  intros Hp Hn Hw. rewrite uadd_small by lia. destruct (Z.ltb_spec (len data) (pos + n)); [apply reads_Err|].
  destruct (slice data pos (pos + n)) as [b|] eqn:E.
  - run. split; [done|]. intros v p [= _ <-]. lia.
  - apply slice_None in E; lia.
Qed.

Lemma near_usize pos n : 0 <= pos <= len data -> 0 <= n <= 8 -> pos + n <= usize_max.
Proof using Hdata. intros. pose proof isize_max_eq. pose proof usize_max_range. lia. Qed.

Lemma reads_u32 pos : 0 <= pos <= len data -> reads pos (manifest_read_u32 data pos).
Proof using Hdata. intros. apply reads_slice; [done|lia|by apply near_usize]. Qed.
Lemma reads_u64 pos : 0 <= pos <= len data -> reads pos (manifest_read_u64 data pos).
Proof using Hdata. intros. apply reads_slice; [done|lia|by apply near_usize]. Qed.

Lemma read_u32_range pos n p : 0 <= pos <= len data -> manifest_read_u32 data pos = Ok (n, p) ->
  is_u32 n /\ p = pos + 4 /\ p <= len data.
Proof using Hdata.
  intros Hp E. pose proof (proj2 (reads_u32 pos Hp) n p E). unfold manifest_read_u32 in E.
  rewrite uadd_near in E by (done || lia). destruct (_ <? _); [done|]. apply bind_Ok in E as (b & Hb & [= <- <-]).
  apply expect_Ok in Hb. split; [|lia]. apply (from_le_range _ 4). rewrite (slice_len _ _ _ _ Hb). lia.
Qed.

Lemma reads_bytes_at pos n : 0 <= pos <= len data -> manifest_read_u32 data pos = Ok (n, pos + 4) ->
  pos + 4 + n <= usize_max -> reads pos (manifest_read_bytes data pos).
Proof using Hdata.
  intros Hp E Hw. destruct (read_u32_range pos n _ Hp E) as (Hn & _ & Hl). unfold manifest_read_bytes. rewrite E. run.
  destruct (reads_slice (V := bytes) (pos + 4) n id short_read) as [Ha Hb]; [lia|apply Hn|done|].
  split; [done|]. intros v q Hq. specialize (Hb v q Hq). lia.
Qed.

Lemma reads_bytes pos : lengths_fit -> 0 <= pos <= len data -> reads pos (manifest_read_bytes data pos).
Proof using Hdata.
  intros Hfit Hp. destruct (manifest_read_u32 data pos) as [[n p]|e| |] eqn:E; pose proof (reads_u32 pos Hp) as Hr; rewrite E in Hr.
  - destruct (read_u32_range pos n p Hp E) as (_ & -> & _). apply (reads_bytes_at pos n); try done. by apply (Hfit pos n); [lia|].
  - unfold manifest_read_bytes. rewrite E. done.
  - by destruct Hr.
  - by destruct Hr.
Qed.

(** The one read that panics: the length wraps the bound it is tested against,
    and the slice is out of range. *)
Lemma read_bytes_wraps pos n : 0 <= pos <= len data -> manifest_read_u32 data pos = Ok (n, pos + 4) ->
  usize_max < pos + 4 + n -> manifest_read_bytes data pos = Panic.
Proof using Hdata.
  intros Hp E Hw. destruct (read_u32_range pos n _ Hp E) as ([Hn Hn'] & _ & Hl). unfold manifest_read_bytes. rewrite E. run.
  pose proof isize_max_eq as Hi. pose proof usize_max_range as Hu. unfold U32_MAX in Hn'.
  assert (Ew : uadd (pos + 4) n = pos + 4 + n - (usize_max + 1)).
  { unfold uadd, usize_wrap, usize_max in *. symmetry. apply (Z.mod_unique_pos _ _ 1); lia. }
  rewrite Ew. destruct (Z.ltb_spec (len data) (pos + 4 + n - (usize_max + 1))); [lia|].
  destruct (slice data _ _) as [b|] eqn:Es; [|done]. apply slice_Some in Es. lia.
Qed.

Lemma read_u32_within pos n p : 0 <= pos -> manifest_read_u32 data pos = Ok (n, p) -> pos <= len data.
Proof using.
  intros Hp E. unfold manifest_read_u32 in E. destruct (_ <? _); [done|].
  apply bind_Ok in E as (b & Hb & _). apply expect_Ok, slice_Some in Hb. lia.
Qed.

Lemma lengths_fit_64 : usize_bits = 64 -> lengths_fit.
Proof using Hdata.
  intros H64 pos n Hp E. pose proof (read_u32_within _ _ _ Hp E) as Hpl.
  destruct (read_u32_range pos n _ (conj Hp Hpl) E) as ([_ Hn] & _ & Hl). unfold isize_max, usize_max, U32_MAX in *.
  rewrite H64 in *. lia.
Qed.

Lemma validate_level_returns level : returns (validate_level_index level).
Proof. unfold validate_level_index. by destruct (_ <? _). Qed.

End ReadLemmas.

(** One step of a chain of reads. *)
Ltac reads_step :=
  lazymatch goal with
  | |- reads _ _ (Err _) => apply reads_Err
  | |- reads _ _ (Ok _) => apply reads_Ok; lia
  | |- reads _ _ (if _ then _ else _) => case_match
  | |- reads _ _ (validate_level_index _ ≫= _) => apply reads_check; [apply validate_level_returns|]
  | |- reads _ _ (_ ≫= _) => apply reads_bind; [|intros ? ? ?; cbn beta iota]
  | |- reads _ _ (manifest_read_u32 _ _) => apply reads_u32; [assumption..|lia]
  | |- reads _ _ (manifest_read_u64 _ _) => apply reads_u64; [assumption..|lia]
  | |- reads _ _ (manifest_read_bytes _ _) => apply reads_bytes; [assumption..|lia]
  end.

Section DecodeLemmas.
Context `{T : Target}.
Import ManifestRecord.

(** Decoding at any position returns; a record moves the position on. *)
Lemma decode_total data pos :
  len data <= isize_max -> lengths_fit data -> 0 <= pos <= len data ->
  returns (decode data pos) /\
  forall r p, decode data pos = Ok (Some (r, p)) -> pos < p <= len data.
Proof.
  intros Hi Hw Hp.
  unfold decode. destruct (Z.leb_spec (len data) pos); [done|].
  destruct (getz_is_Some data pos) as [tag ->]; [lia|]. run. rewrite (uadd_near data) by (assumption || lia).
  assert (Hr : reads data (pos + 1) (decode_fields tag data (pos + 1))).
  { assert (0 <= pos + 1 <= len data) as Hp1 by lia.
    unfold decode_fields, decode_add_file. repeat reads_step. }
  destruct Hr as [Hr Hq]. destruct (decode_fields _ _ _) as [[r p]| | |]; try done. run.
  split; [done|]. intros r' p' [= <- <-]. specialize (Hq r p eq_refl). lia.
Qed.

(** A record whose fields fit their encoding. *)
Definition meta_ok (m : SsTableMeta) : Prop :=
  is_u64 (file_id m) /\ is_u32 (len (smallest_key m)) /\ is_u32 (len (largest_key m)) /\
  is_u64 (file_size m) /\ is_u64 (num_entries m) /\
  match global_seq m with Some seq => is_u64 seq /\ seq <> 0 | None => True end.
Definition deletions_ok (d : Deletions) : Prop :=
  is_u64 (points d) /\ is_u64 (dead d) /\ is_u64 (newest_seq d).
Definition level_ok (level : Z) : Prop := 0 <= level < MAX_LEVELS.
Definition record_ok (r : ManifestRecord) : Prop :=
  match r with
  | AddFile level m => level_ok level /\ meta_ok m
  | RemoveFile level id => level_ok level /\ is_u64 id
  | TableCounts id d => is_u64 id /\ deletions_ok d
  | SetLastSeq z | SetNextFileId z | SetMinWalId z => is_u64 z
  | Reset a b => is_u64 a /\ is_u64 b
  | RangeDeletesChecked => True
  end.

(** A table's own record carries no counts. *)
Definition as_logged (r : ManifestRecord) : ManifestRecord :=
  match r with AddFile level m => AddFile level (with_deletions m None) | r => r end.

Lemma level_ok_u32 level : level_ok level -> as_u32 level = level /\ is_u32 level /\
  validate_level_index level = Ok ().
Proof.
  unfold level_ok, validate_level_index, MAX_LEVELS. intros. rewrite as_u32_small by (unfold is_u32; lia).
  split_and!; [done|unfold is_u32; lia..|]. by ztest.
Qed.

(** Take the next field: the read's value and the rest, from [Hr]. *)
Ltac take_field Hr :=
  let H := fresh in
  first [ edestruct (read_u64_ok _ ltac:(eassumption) _ _ _ Hr) as [H Hr']; [eassumption|]
        | edestruct (read_u32_ok _ ltac:(eassumption) _ _ _ Hr) as [H Hr']; [eassumption|]
        | edestruct (read_bytes_ok _ ltac:(eassumption) _ _ _ Hr) as [H Hr']; [eassumption|] ];
  rewrite H; clear H Hr; rename Hr' into Hr; run.

Ltac tag_tests :=
  repeat match goal with
  | |- context [Byte.eqb ?a ?b] => let v := eval vm_compute in (Byte.eqb a b) in change (Byte.eqb a b) with v
  end; cbn [orb].

Lemma cons_inj {B} (x y : B) l k : x :: l = y :: k -> x = y /\ l = k.
Proof. by intros [= -> ->]. Qed.

Ltac fields :=
  cbn [encode app as_logged with_deletions file_id smallest_key largest_key file_size num_entries global_seq
       deletions points dead newest_seq record_ok meta_ok deletions_ok] in *.

Lemma decode_fields_encoded data pos r t l q :
  len data <= isize_max -> record_ok r -> encode r = t :: l -> rest_at data pos (l ++ q) ->
  decode_fields t data pos = Ok (as_logged r, pos + len l).
Proof.
  intros Hi Hok E Hr.
  destruct r as [level [id sk lk size entries gs ds]|level id|id [dp dd dn]|z|z|z|a b|].
  - destruct Hok as [(E1 & Hl & Hv)%level_ok_u32 (? & ? & ? & ? & ? & Hgs)]; fields.
    rewrite E1 in E. destruct gs as [seq|]; cbn [app] in E; apply cons_inj in E as [<- <-]; rewrite <- ?app_assoc in Hr;
      unfold decode_fields; tag_tests; unfold decode_add_file.
    + destruct Hgs. take_field Hr. rewrite Hv. run. do 6 take_field Hr. ztest. run.
      by (do 2 f_equal; llia).
    + take_field Hr. rewrite Hv. run. do 5 take_field Hr. by (do 2 f_equal; llia).
  - destruct Hok as [(E1 & Hl & Hv)%level_ok_u32 ?]; fields. rewrite E1 in E. apply cons_inj in E as [<- <-].
    rewrite <- ?app_assoc in Hr. unfold decode_fields; tag_tests. take_field Hr. rewrite Hv. run.
    take_field Hr. by (do 2 f_equal; llia).
  - destruct Hok as [? (? & ? & ?)]. fields. apply cons_inj in E as [<- <-]. rewrite <- ?app_assoc in Hr.
    unfold decode_fields; tag_tests. do 4 take_field Hr. by (do 2 f_equal; llia).
  - fields. apply cons_inj in E as [<- <-]. unfold decode_fields; tag_tests. take_field Hr. by (do 2 f_equal; llia).
  - fields. apply cons_inj in E as [<- <-]. unfold decode_fields; tag_tests. take_field Hr. by (do 2 f_equal; llia).
  - fields. apply cons_inj in E as [<- <-]. unfold decode_fields; tag_tests. take_field Hr. by (do 2 f_equal; llia).
  - destruct Hok. fields. apply cons_inj in E as [<- <-]. rewrite <- ?app_assoc in Hr.
    unfold decode_fields; tag_tests. do 2 take_field Hr. by (do 2 f_equal; llia).
  - fields. apply cons_inj in E as [<- <-]. unfold decode_fields; tag_tests. by (do 2 f_equal; llia).
Qed.

Lemma encode_cons r : exists t l, encode r = t :: l.
Proof. destruct r; cbn [encode app]; eauto. Qed.

Lemma decode_encode data pos r q :
  len data <= isize_max -> record_ok r -> rest_at data pos (encode r ++ q) ->
  decode data pos = Ok (Some (as_logged r, pos + len (encode r))) /\ rest_at data (pos + len (encode r)) q.
Proof.
  intros Hi Hok Hr. split; [|destruct (rest_at_slice _ _ _ _ _ Hr eq_refl); done].
  unfold decode. destruct (rest_at_len _ _ _ Hr) as [Hp Hl].
  destruct (encode_cons r) as (t & l & E). rewrite E in *. ztest.
  destruct (rest_at_getz _ _ _ _ Hr) as [-> Hr1]. run. rewrite (uadd_near data) by (assumption || llia).
  rewrite (decode_fields_encoded data _ r t l q) by done. run. do 3 f_equal. llia.
Qed.

End DecodeLemmas.

(** ** The records of a batch *)

Section Records.
Context `{T : Target}.
Import ManifestRecord.

(** Every record from [pos] on. *)
Fixpoint decode_all (fuel : nat) (data : bytes) (pos : Z) : outcome (list ManifestRecord) :=
  match fuel with
  | O => OutOfFuel
  | S fuel =>
      r ← decode data pos;
      match r with
      | None => Ok []
      | Some (r, pos) => rs ← decode_all fuel data pos; Ok (r :: rs)
      end
  end.

Lemma decode_all_total data fuel pos :
  len data <= isize_max -> lengths_fit data ->
  0 <= pos <= len data -> (Z.to_nat (len data - pos) < fuel)%nat -> returns (decode_all fuel data pos).
Proof.
  intros Hi Hw. revert pos. induction fuel as [|fuel IH]; intros pos Hp Hf; [lia|]. cbn [decode_all].
  destruct (decode_total data pos) as [Hr Hd]; [done..|].
  apply returns_bind; [done|]. intros [[r p]|] E; [|done]. specialize (Hd r p E).
  apply returns_bind; [apply IH; lia|done].
Qed.

Lemma decode_all_encoded data fuel pos rs :
  len data <= isize_max -> Forall record_ok rs -> rest_at data pos (flat_map encode rs) ->
  (length rs < fuel)%nat -> decode_all fuel data pos = Ok (map as_logged rs).
Proof.
  intros Hi Hok. revert fuel pos. induction Hok as [|r rs Hr Hok IH]; intros [|fuel] pos Hrest Hf; simpl in Hf;
    try lia; cbn [decode_all flat_map map] in *.
  - destruct (rest_at_len _ _ _ Hrest) as [? Hl]. unfold decode. change (len (@nil byte)) with 0 in Hl. by ztest.
  - destruct (decode_encode _ _ _ _ Hi Hr Hrest) as [-> Hrest']. run. by rewrite IH by (done || lia).
Qed.

Lemma encode_length r : (0 < length (encode r))%nat.
Proof. destruct (encode_cons r) as (t & l & ->). simpl. lia. Qed.

Lemma records_length rs : (length rs <= length (flat_map encode rs))%nat.
Proof.
  induction rs as [|r rs IH]; [done|]. cbn [flat_map length]. rewrite length_app.
  pose proof (encode_length r). lia.
Qed.

(** The loop of [needs_sync] answers whether some record asks for a sync, and
    yes when they do not all decode. *)
Lemma any_needs_sync_Ok fuel data pos rs :
  decode_all fuel data pos = Ok rs -> tail.any_needs_sync fuel data pos = Ok (existsb requires_sync rs).
Proof.
  revert pos rs. induction fuel as [|fuel IH]; intros pos rs; [done|].
  cbn [decode_all tail.any_needs_sync].
  destruct (decode data pos) as [[[r p]|]| | |]; try done; run.
  - destruct (decode_all fuel data p) as [rs'| | |] eqn:E; try done. run. intros [= <-].
    cbn [existsb]. destruct (requires_sync r); [done|]. by apply IH.
  - by intros [= <-].
Qed.

Lemma any_needs_sync_Err fuel data pos e :
  decode_all fuel data pos = Err e -> tail.any_needs_sync fuel data pos = Ok true.
Proof.
  revert pos. induction fuel as [|fuel IH]; intros pos; [done|].
  cbn [decode_all tail.any_needs_sync].
  destruct (decode data pos) as [[[r p]|]| | |]; try done; run.
  destruct (decode_all fuel data p) as [rs'| | |] eqn:E; try done. run. intros [= <-].
  destruct (requires_sync r); [done|]. by apply IH.
Qed.

End Records.

(** ** Batches *)

Section Batches.
Context `{T : Target} `{XL : Xxh3Laws} `{AL : AeadLaws}.

Lemma manifest_record_Ok n data : exists sum, manifest_record n data = Ok sum /\ is_u32 sum.
Proof.
  unfold manifest_record, u32_parts. rewrite u64_parts_eq. run. eexists. split; [done|].
  unfold as_u32, is_u32. apply Z.mod_pos_bound. done.
Qed.

(** [b] is the batch whose checksummed bytes are [body]. *)
Definition framed_batch (body b : bytes) : Prop :=
  is_u32 (len body) /\
  exists sum, manifest_record (len body) body = Ok sum /\ b = to_le 4 (len body) ++ body ++ to_le 4 sum.

Lemma framed_batch_len body b : framed_batch body b -> len b = len body + tail.FRAMING.
Proof. intros (_ & sum & _ & ->). unfold tail.FRAMING. llia. Qed.

Lemma batch_at_framed data pos body b q :
  len data <= isize_max -> framed_batch body b -> rest_at data pos (b ++ q) ->
  tail.batch_at data pos = Ok (Some (mkBatch body (pos + len b))).
Proof.
  intros Hi Hb Hr. pose proof (framed_batch_len _ _ Hb) as Hlb. destruct Hb as (Hn & sum & Hs & ->).
  destruct (rest_at_len _ _ _ Hr) as [Hp Hl]. unfold tail.FRAMING in Hlb. pose proof isize_max_eq.
  pose proof usize_max_range.
  set (b := to_le 4 (len body) ++ body ++ to_le 4 sum) in *. unfold tail.batch_at.
  destruct (rest_at_slice data pos (b ++ q) [] (len data)) as [-> _]; [by rewrite app_nil_r|lia|].
  cbn [mbind option_bind]. subst b. rewrite <- !app_assoc.
  rewrite (slice_app_head (to_le 4 (len body))) by (by rewrite len_to_le). cbn [mbind option_bind].
  rewrite from_to_u32 by done. 
  assert (checked_add 4 (len body) = Some (4 + len body)) as -> by (apply checked_add_Some; split; [done|llia]).
  cbn [mbind option_bind].
  assert (checked_add (4 + len body) 4 = Some (4 + len body + 4)) as ->
    by (apply checked_add_Some; split; [done|llia]).
  cbn [mbind option_bind].
  rewrite (slice_app (to_le 4 (len body)) body (to_le 4 sum ++ q) 4 (4 + len body)) by llia.
  cbn [mbind option_bind]. rewrite (slice_at _ (to_le 4 (len body) ++ body) (to_le 4 sum) q (4 + len body))
    by (llia || by rewrite <- !app_assoc).
  cbn [mbind option_bind]. rewrite Hs. run.
  assert (is_u32 sum) by (destruct (manifest_record_Ok (len body) body) as (s' & ? & ?); congruence).
  rewrite from_to_u32 by done. rewrite Z.eqb_refl, (uadd_small pos) by llia.
  do 4 f_equal. llia.
Qed.

(** A reader of the batches a sealer made: it holds the sealer's key. *)
Definition knows (k : Keyring) (s : Sealer) : Prop := (sealer k (sealer_id s)).2 = Ok s.

Lemma current_knows k s : (current k).2 = Ok s -> knows k s.
Proof.
  unfold current, knows. intros E. cut (sealer_id s = provider_current k); [by intros ->|].
  revert E. unfold sealer. destruct (ciphers k !! _); simpl; [by intros [= <-]|].
  destruct (provider_key k _); simpl; [by intros [= <-]|done].
Qed.

Lemma sealed_batch_opens s draw salt offset plain b k nonce :
  draw = Ok nonce -> len nonce = NONCE_LEN -> is_u32 (sealer_id s) -> knows k s ->
  sealed.encode_batch s draw salt offset plain [] = Ok b ->
  exists body, framed_batch body b /\ sealed.open_batch k salt offset body = Ok (sealer_id s, plain).
Proof.
  intros -> Hn Hid Hk. unfold sealed.encode_batch, seal_frame, seal, seal_with.
  destruct (Z.ltb_spec U32_MAX (4 + len plain + OVERHEAD)) as [|Hle]; [done|]. run.
  set (ad := sealed.aad salt offset (sealer_id s)).
  destruct (encrypt (sealer_cipher s) nonce ad plain) as [[ct tag]|] eqn:E; [|done]. run.
  destruct (encrypt_lens _ _ _ _ _ _ E) as [Hc Ht]. cbn [app].
  change (len (@nil byte) + 4) with 4. rewrite <- !app_assoc, dropz_app by (by rewrite len_to_le).
  set (body := to_le 4 (sealer_id s) ++ nonce ++ ct ++ tag). intros Hb. exists body.
  assert (Hlen : len body = 4 + len plain + OVERHEAD) by (subst body; unfold OVERHEAD in *; llia).
  split.
  - destruct (manifest_record _ body) as [sum| | |] eqn:Es; try done. revert Hb. run. intros [= <-].
    split; [unfold is_u32; rewrite Hlen; pose proof (len_nonneg body); unfold U32_MAX in *; llia|]. exists sum.
    rewrite Hlen. split; [done|]. subst body. by rewrite <- !app_assoc.
  - unfold sealed.open_batch. rewrite Hlen. unfold OVERHEAD, NONCE_LEN, TAG_LEN.
    destruct (Z.ltb_spec (4 + len plain + (12 + 16)) 4); [llia|]. subst body.
    rewrite takez_app, dropz_app by (by rewrite len_to_le). rewrite from_to_u32 by done.
    unfold knows in Hk. rewrite Hk. run. fold ad.
    rewrite (open_frame_sealed _ _ _ _ _ _ Hn E). run. do 2 f_equal.
    rewrite app_assoc, takez_app by llia. by rewrite dropz_app by done.
Qed.

(** What the operating system's draws are: twelve bytes. *)
Definition nonce_draw (draw : outcome bytes) : Prop :=
  match draw with Ok nonce => len nonce = NONCE_LEN | _ => True end.

(** A reader that can open what [sealing] seals: none for a plain manifest, and
    the salt with a keyring that holds the current key for a sealed one. *)
Definition can_read (salt : option bytes) (keyring : option Keyring) (sealing : option ManifestSeal) : Prop :=
  match sealing with
  | None => salt = None
  | Some sl => salt = Some (seal_salt sl) /\
      exists k, keyring = Some k /\
        forall s, (current (seal_keyring sl)).2 = Ok s -> is_u32 (sealer_id s) /\ knows k s
  end.

Lemma encode_records_opens records offset sealing draw b id salt keyring :
  nonce_draw draw -> can_read salt keyring sealing -> records <> [] ->
  VersionSetBytes.encode_records records offset sealing draw = Ok (b, id) ->
  exists body, framed_batch body b /\
    batch_edits salt keyring offset body = Ok (id, flat_map ManifestRecord.encode records).
Proof.
  intros Hd Hc Hne. unfold VersionSetBytes.encode_records. destruct records as [|r records]; [done|].
  set (plain := flat_map _ _). destruct sealing as [sl|]; simpl in Hc.
  - destruct Hc as (-> & k & -> & Hk).
    destruct ((current (seal_keyring sl)).2) as [s| | |] eqn:Es; try done. run.
    destruct (Hk s eq_refl) as [Hid Hks].
    destruct (sealed.encode_batch _ _ _ _ _ _) as [buf| | |] eqn:Eb; try done. run. intros [= <- <-].
    assert (exists nonce, draw = Ok nonce /\ len nonce = NONCE_LEN) as (nonce & -> & Hn).
    { destruct draw as [nonce| | |]; [by exists nonce|..];
        unfold sealed.encode_batch, seal_frame, seal in Eb; destruct (_ <? _); done. }
    destruct (sealed_batch_opens s (Ok nonce) (seal_salt sl) offset plain buf k nonce) as (body & Hf & Ho);
      [done..|]. exists body. split; [done|]. unfold batch_edits. by rewrite Ho.
  - subst salt. destruct (Z.ltb_spec U32_MAX (len plain)); [done|].
    destruct (manifest_record_Ok (len plain) plain) as (sum & Hs & _). rewrite Hs. run. intros [= <- <-].
    exists plain. split; [|done]. split; [pose proof (len_nonneg plain); unfold is_u32, U32_MAX in *; lia|eauto].
Qed.

(** The judgement reads a batch as replay does. *)
Lemma needs_sync_edits salt keyring offset body id edits rs :
  batch_edits salt keyring offset body = Ok (id, edits) ->
  decode_all (S (length edits)) edits 0 = Ok rs ->
  tail.needs_sync body offset (opener salt keyring) = Ok (existsb ManifestRecord.requires_sync rs).
Proof.
  intros He Hr. unfold tail.needs_sync, opener. destruct salt as [salt|], keyring as [k|]; simpl in He.
  - destruct (sealed.open_batch _ _ _ _) as [[i e]| | |] eqn:E; try done. simpl in He. injection He as _ ->.
    by apply any_needs_sync_Ok.
  - injection He as _ ->. by apply any_needs_sync_Ok.
  - injection He as _ ->. by apply any_needs_sync_Ok.
  - injection He as _ ->. by apply any_needs_sync_Ok.
Qed.

(** ** Totality *)

Lemma batch_at_total data pos :
  len data <= isize_max ->
  exists o, tail.batch_at data pos = Ok o /\
    forall b, o = Some b -> pos + tail.FRAMING <= batch_end b <= len data /\
      len (batch_records b) = batch_end b - pos - tail.FRAMING.
Proof.
  intros Hi. unfold tail.batch_at.
  destruct (slice data pos (len data)) as [rest|] eqn:E1; cbn [mbind option_bind]; [|eexists; done].
  destruct (slice rest 0 4) as [head|] eqn:E2; cbn [mbind option_bind]; [|eexists; done].
  set (n := from_le head). assert (Hn : is_u32 n) by (apply (from_le_range _ 4); by rewrite (slice_len _ _ _ _ E2)).
  destruct (checked_add 4 n) as [re|] eqn:E3; cbn [mbind option_bind]; [|eexists; done].
  destruct (checked_add re 4) as [e|] eqn:E4; cbn [mbind option_bind]; [|eexists; done].
  destruct (slice rest 4 re) as [records|] eqn:E5; cbn [mbind option_bind]; [|eexists; done].
  destruct (slice rest re e) as [stored|] eqn:E6; cbn [mbind option_bind]; [|eexists; done].
  apply checked_add_Some in E3 as [-> ?]. apply checked_add_Some in E4 as [-> ?].
  destruct (manifest_record_Ok n records) as (sum & -> & _). run. eexists. split; [done|].
  intros b Hb. destruct (_ =? sum); [|done]. injection Hb as <-. cbn [batch_end batch_records].
  pose proof (slice_len _ _ _ _ E1). apply slice_Some in E1 as (? & ? & _). pose proof (slice_len _ _ _ _ E5).
  apply slice_Some in E6 as (? & ? & _). pose proof isize_max_eq. unfold is_u32 in Hn.
  rewrite uadd_small by lia. unfold tail.FRAMING. lia.
Qed.

(** The bytes of a batch that reads back whole are its frame. *)
Lemma batch_at_bytes data x b :
  len data <= isize_max -> tail.batch_at data x = Ok (Some b) ->
  exists bb q, rest_at data x (bb ++ q) /\ framed_batch (batch_records b) bb /\ batch_end b = x + len bb.
Proof.
  intros Hi. unfold tail.batch_at.
  destruct (slice data x (len data)) as [rest|] eqn:E1; cbn [mbind option_bind]; [|done].
  destruct (slice rest 0 4) as [head|] eqn:E2; cbn [mbind option_bind]; [|done].
  set (n := from_le head). assert (Hh : len head = 4) by (by rewrite (slice_len _ _ _ _ E2)).
  assert (Hn : is_u32 n) by (by apply (from_le_range _ 4)).
  destruct (checked_add 4 n) as [re|] eqn:E3; cbn [mbind option_bind]; [|done].
  destruct (checked_add re 4) as [e|] eqn:E4; cbn [mbind option_bind]; [|done].
  destruct (slice rest 4 re) as [records|] eqn:E5; cbn [mbind option_bind]; [|done].
  destruct (slice rest re e) as [stored|] eqn:E6; cbn [mbind option_bind]; [|done].
  apply checked_add_Some in E3 as [-> ?]. apply checked_add_Some in E4 as [-> ?].
  destruct (manifest_record n records) as [sum| | |] eqn:Es; try done. run.
  destruct (Z.eqb_spec (from_le stored) sum) as [Hsum|]; [|done]. intros [= <-]. cbn [batch_records batch_end].
  assert (Hl5 : len records = n) by (rewrite (slice_len _ _ _ _ E5); lia).
  assert (Hl6 : len stored = 4) by (rewrite (slice_len _ _ _ _ E6); lia).
  apply slice_Some in E1 as (Hx1 & Hx2 & p & q & -> & Hp & Hlr). apply slice_Some in E2 as (_ & _ & p2 & q2 & -> & Hp2 & _).
  assert (p2 = []) as -> by (apply len_zero; lia). cbn [app] in *.
  apply slice_Some in E5 as (_ & _ & p5 & q5 & E5 & Hp5 & _). apply app_eq_len in E5 as [<- ->]; [|lia].
  apply slice_Some in E6 as (_ & _ & p6 & q6 & E6 & Hp6 & _). rewrite app_assoc in E6.
  apply app_eq_len in E6 as [<- ->]; [|rewrite len_app; lia].
  assert (Hf : framed_batch records (head ++ records ++ stored)).
  { split; [by rewrite Hl5|]. exists sum. rewrite Hl5. split; [done|]. subst n. rewrite (to_from_le 4 head Hh).
    by rewrite <- Hsum, (to_from_le 4 stored Hl6). }
  assert (q = []) as ->. { rewrite !len_app in *. apply len_zero. llia. }
  exists (head ++ records ++ stored), q6. split_and!; [|done|].
  - exists p. rewrite app_nil_r, <- !app_assoc. done.
  - rewrite !len_app, Hh, Hl5, Hl6, uadd_small; [lia|]. pose proof isize_max_eq. unfold is_u32 in Hn.
    rewrite !len_app in *. pose proof (len_nonneg q6). pose proof (len_nonneg p). lia.
Qed.

Lemma framed_batch_fun body b b' : framed_batch body b -> framed_batch body b' -> b = b'.
Proof. intros (_ & s & Hs & ->) (_ & s' & Hs' & ->). congruence. Qed.

Lemma sealer_returns k id : returns (sealer k id).2.
Proof. unfold sealer. destruct (ciphers k !! id); [done|]. by destruct (provider_key k id). Qed.

Lemma open_batch_total k salt offset body :
  returns (sealed.open_batch k salt offset body) /\
  forall id plain, sealed.open_batch k salt offset body = Ok (id, plain) -> len plain <= len body.
Proof.
  unfold sealed.open_batch. destruct (Z.ltb_spec (len body) 4); [done|]. set (id := from_le _). split.
  - apply returns_bind; [apply sealer_returns|]. intros s _. apply returns_bind; [apply returns_ok_or|].
    by intros [fr [a e]] _.
  - intros id' plain (s & _ & ([fr [a e]] & Ho & [= _ <-])%bind_Ok)%bind_Ok. apply ok_or_Ok in Ho.
    apply open_frame_range in Ho as (Hl & _ & _). rewrite len_dropz in Hl by lia.
    unfold len, dropz, takez in *. rewrite length_drop, length_take. lia.
Qed.

(** The edits a batch found at [x] may be read as: its bytes, or what they open
    to under some key. *)
Definition edits_of (x : Z) (body edits : bytes) : Prop :=
  edits = body \/ exists k salt id, sealed.open_batch k salt x body = Ok (id, edits).

(** A file no offset wraps in: one the target can hold, in whose batches no
    length wraps when it is added to its position. On a 64-bit target that is
    every file; on a 32-bit target a length near its maximum wraps, which no
    batch the writer made holds. *)
Definition addressable (data : bytes) : Prop :=
  len data <= isize_max /\
  forall x b edits, 0 <= x -> tail.batch_at data x = Ok (Some b) -> edits_of x (batch_records b) edits -> lengths_fit edits.

Lemma edits_of_len x body edits : edits_of x body edits -> len edits <= len body.
Proof. intros [->|(k & salt & id & E)]; [lia|]. by apply (open_batch_total k salt x body) in E. Qed.

Lemma batch_edits_fit data x b edits : len data <= isize_max -> 0 <= x -> tail.batch_at data x = Ok (Some b) ->
  edits_of x (batch_records b) edits -> len edits <= isize_max.
Proof.
  intros Hi Hx Hb He. apply edits_of_len in He. destruct (batch_at_total data x Hi) as (o & Eo & Ho). rewrite Hb in Eo. injection Eo as <-.
  destruct (Ho b eq_refl) as [H1 H2]. unfold tail.FRAMING in *. lia.
Qed.

Lemma addressable_64 data : usize_bits = 64 -> len data <= isize_max -> addressable data.
Proof.
  intros H64 Hi. split; [done|]. intros x b edits Hx Hb He. apply lengths_fit_64; [|done].
  by apply (batch_edits_fit data x b).
Qed.

Lemma any_needs_sync_total data : len data <= isize_max -> lengths_fit data ->
  exists v, tail.any_needs_sync (S (length data)) data 0 = Ok v.
Proof.
  intros Hi Hw. assert (Hr : returns (decode_all (S (length data)) data 0)).
  { apply decode_all_total; [done..| |unfold len; lia]. pose proof (len_nonneg data). lia. }
  destruct (decode_all _ _ _) as [rs|e| |] eqn:E; try done;
    eauto using any_needs_sync_Ok, any_needs_sync_Err.
Qed.

Lemma needs_sync_total body offset sealed : len body <= isize_max ->
  (forall edits, edits_of offset body edits -> lengths_fit edits) -> exists v, tail.needs_sync body offset sealed = Ok v.
Proof.
  intros Hi Hw. unfold tail.needs_sync. destruct sealed as [[k salt]|]; cbn [seal_keyring seal_salt];
    [|apply any_needs_sync_total; [done|apply Hw; by left]].
  destruct (open_batch_total k salt offset body) as [Hr Hl].
  destruct (sealed.open_batch _ _ _ _) as [[id plain]| | |] eqn:E; try done; [|eauto].
  specialize (Hl id plain eq_refl). apply any_needs_sync_total; [lia|]. apply Hw. right. eauto.
Qed.

(** What is encoded decodes to the records it was given. *)
Lemma encode_records_decodes records offset sealing draw b id salt keyring :
  Forall record_ok records -> nonce_draw draw -> can_read salt keyring sealing -> records <> [] ->
  VersionSetBytes.encode_records records offset sealing draw = Ok (b, id) -> len b <= isize_max ->
  let edits := flat_map ManifestRecord.encode records in
  exists body, framed_batch body b /\ batch_edits salt keyring offset body = Ok (id, edits) /\
    decode_all (S (length edits)) edits 0 = Ok (map as_logged records).
Proof.
  intros Hok Hd Hc Hne He Hi edits.
  destruct (encode_records_opens _ _ _ _ _ _ _ _ Hd Hc Hne He) as (body & Hf & Ho). exists body.
  split_and!; [done..|]. subst edits.
  apply decode_all_encoded; [|done|apply rest_at_start|pose proof (records_length records); lia].
  pose proof (framed_batch_len _ _ Hf) as Hb. unfold tail.FRAMING in Hb.
  enough (len (flat_map ManifestRecord.encode records) <= len body) by lia.
  unfold batch_edits in Ho. destruct salt as [salt|], keyring as [k|];
    try (injection Ho as _ ->; lia).
  apply bind_Ok in Ho as ([i e] & Eo & [= _ ->]). by apply (open_batch_total _ _ _ _) in Eo.
Qed.

(** ** The scan for a proof *)

Definition proves_at (data : bytes) (x : Z) (sealed : option ManifestSeal) (p : Z) : Prop :=
  exists b, tail.batch_at data x = Ok (Some b) /\ batch_end b = p /\ p < len data /\
    tail.needs_sync (batch_records b) x sealed = Ok true.

Lemma proof_loop_step data at_ sealed fuel :
  addressable data -> 0 <= at_ -> at_ + tail.FRAMING <= len data ->
  (exists p, proves_at data at_ sealed p /\ tail.proof_loop (S fuel) data at_ sealed = Ok (Some p)) \/
  (exists next, at_ < next <= len data /\ (forall p, ~ proves_at data at_ sealed p) /\
     (tail.batch_at data at_ = Ok None -> next = at_ + 1) /\
     tail.proof_loop (S fuel) data at_ sealed = tail.proof_loop fuel data next sealed).
Proof.
  intros Ha Hp Hf. pose proof Ha as [Hi Hw]. cbn [tail.proof_loop].
  rewrite uadd_near with (data := data) by (done || unfold tail.FRAMING in *; lia). ztest.
  destruct (batch_at_total data at_ Hi) as ([b|] & Eb & Hb); rewrite Eb; run.
  - destruct (Hb b eq_refl) as [He Hl]. unfold tail.FRAMING in *.
    destruct (Z.ltb_spec (batch_end b) (len data)) as [Hlt|Hge].
    + destruct (needs_sync_total (batch_records b) at_ sealed ltac:(lia) (fun edits => Hw at_ b edits Hp Eb)) as [[] En]; rewrite En; run.
      * left. exists (batch_end b). split; [exists b; done|done].
      * right. exists (batch_end b). split_and!; [lia..| |done|done].
        intros p (b' & Eb' & _ & _ & En'). rewrite Eb in Eb'. injection Eb' as <-. congruence.
    + right. exists (batch_end b). split_and!; [lia..| |done|done].
      intros p (b' & Eb' & <- & ? & _). rewrite Eb in Eb'. injection Eb' as <-. lia.
  - right. rewrite (uadd_near data) by (assumption || unfold tail.FRAMING in *; lia). exists (at_ + 1).
    split_and!; [unfold tail.FRAMING in *; lia..| |done|done]. intros p (b' & Eb' & _). congruence.
Qed.

(** The scan returns; what it finds is a proof, and when every offset from the
    start fails to be one it finds none. *)
Lemma proof_loop_spec data sealed fuel at_ :
  addressable data -> 0 <= at_ <= len data -> (Z.to_nat (len data - at_) < fuel)%nat ->
  exists o, tail.proof_loop fuel data at_ sealed = Ok o /\
    match o with
    | Some p => exists x, at_ <= x /\ proves_at data x sealed p
    | None => True
    end.
Proof.
  intros Ha. revert at_. induction fuel as [|fuel IH]; intros at_ Hp Hf; [lia|].
  destruct (Z.le_gt_cases (at_ + tail.FRAMING) (len data)) as [Hle|Hgt].
  - destruct (proof_loop_step data at_ sealed fuel Ha (proj1 Hp) Hle) as
      [(p & Hpr & ->)|(next & Hn & Hno & _ & ->)]; [exists (Some p); split; [done|]; exists at_; split; [lia|done]|].
    destruct (IH next) as (o & -> & Ho); [lia..|]. exists o. split; [done|].
    destruct o as [p|]; [|done]. destruct Ho as (x & Hx & ?). exists x. split; [lia|done].
  - exists None. split; [|done]. cbn [tail.proof_loop].
    rewrite uadd_near with (data := data) by (apply Ha || unfold tail.FRAMING in *; lia). by ztest.
Qed.

(** Offsets that read as no batch are passed over one by one. *)
Lemma proof_loop_skips data sealed fuel at_ x :
  addressable data -> 0 <= at_ <= x -> x + tail.FRAMING <= len data ->
  (forall y, at_ <= y < x -> tail.batch_at data y = Ok None) -> (Z.to_nat (len data - at_) < fuel)%nat ->
  exists fuel', (Z.to_nat (len data - x) < fuel')%nat /\
    tail.proof_loop fuel data at_ sealed = tail.proof_loop fuel' data x sealed.
Proof.
  intros Ha. revert at_. induction fuel as [|fuel IH]; intros at_ Hp Hx Hno Hf; [lia|].
  destruct (Z.eq_dec at_ x) as [->|]; [by exists (S fuel)|].
  destruct (proof_loop_step data at_ sealed fuel Ha) as
    [(p & (b & Hb & _) & _)|(next & Hn & _ & Hnext & ->)]; [lia..| |].
  - rewrite Hno in Hb by lia. done.
  - rewrite (Hnext (Hno at_ ltac:(lia))) in *. apply IH; [lia..| |lia]. intros y Hy. apply Hno. lia.
Qed.

(** With no proof after it, damage is an unsynced tail. *)
Lemma judge_drops data damage_at sealed :
  addressable data -> 0 <= damage_at < len data -> (forall x p, damage_at < x -> ~ proves_at data x sealed p) ->
  tail.judge data damage_at sealed = Ok (mkDroppedTail damage_at (len data - damage_at)).
Proof.
  intros Ha Hd Hno. pose proof Ha as [Hi Hw]. unfold tail.judge, tail.proof_past.
  rewrite (uadd_near data) by (done || lia).
  destruct (proof_loop_spec data sealed (S (length data)) (damage_at + 1)) as (o & -> & Ho);
    [done|lia|unfold len in *; lia|]. run. destruct o as [p|]; [|done].
  destruct Ho as (x & Hx & Hp). destruct (Hno x p); [lia|done].
Qed.

(** ** Stamps *)

Definition salt_ok (salt : option bytes) : Prop :=
  match salt with Some salt => len salt = SALT_LEN | None => True end.

(** The length of the stamp of a manifest with this salt. *)
Definition stamp_size (salt : option bytes) : Z :=
  match salt with Some _ => sealed.SEALED_STAMP_LEN | None => MANIFEST_STAMP_LEN end.

Lemma stamp_bytes_Ok salt :
  salt_ok salt -> exists st, VersionSetBytes.stamp_bytes salt = Ok st /\ len st = stamp_size salt.
Proof.
  intros Hs. destruct salt as [salt|]; unfold VersionSetBytes.stamp_bytes, VersionSetBytes.encode_stamp,
    sealed.encode_stamp;
    (match goal with |- context [manifest_record 0 ?d] =>
       destruct (manifest_record_Ok 0 d) as (sum & Hsum & _); rewrite Hsum end); run; eexists; (split; [done|]).
  - simpl in Hs. unfold SALT_LEN in Hs. rewrite !len_app, len_to_le, Hs. reflexivity.
  - rewrite !len_app, len_to_le. reflexivity.
Qed.

Lemma sealed_stamp_read salt rest st :
  len salt = SALT_LEN -> sealed.encode_stamp MANIFEST_MAGIC salt = Ok st ->
  sealed.decode_stamp (st ++ rest) = Ok (Some salt).
Proof.
  intros Hs. unfold sealed.encode_stamp. set (out := MANIFEST_MAGIC ++ _).
  destruct (manifest_record_Ok 0 out) as (sum & Hsum & Hu). rewrite Hsum. run. intros [= <-].
  assert (Ho : len out = 24) by (subst out; rewrite !len_app, Hs; reflexivity).
  unfold sealed.decode_stamp. 
  rewrite (slice_app_head (out ++ to_le 4 sum) rest) by (rewrite len_app, Ho, len_to_le; reflexivity).
  rewrite dropz_app, takez_app by done. rewrite Hsum. run. rewrite from_to_u32, Z.eqb_refl by done.
  cbn [negb]. do 2 f_equal. subst out.
  rewrite <- app_assoc, <- app_assoc, (app_assoc MANIFEST_MAGIC), dropz_app by reflexivity. by apply takez_app.
Qed.

Lemma stamp_head salt st :
  VersionSetBytes.stamp_bytes salt = Ok st ->
  exists tail_, st = MANIFEST_MAGIC ++
    [match salt with Some _ => MANIFEST_FORMAT_SEALED | None => MANIFEST_FORMAT_V1 end] ++ tail_.
Proof.
  destruct salt as [salt|]; unfold VersionSetBytes.stamp_bytes, VersionSetBytes.encode_stamp,
    sealed.encode_stamp; intros (sum & _ & <-%Ok_inj)%bind_Ok; rewrite <- !app_assoc; eauto.
Qed.

(** A whole stamp is recognised with its salt; what is left of one a crash cut
    short reads as no stamp. *)
Lemma stamp_len_whole salt keyring st rest :
  salt_ok salt -> VersionSetBytes.stamp_bytes salt = Ok st ->
  VersionSetBytes.stamp_len (st ++ rest) keyring =
  match salt, keyring with
  | Some _, None => Err (mkError OtherError "KeyProviderRequired" [])
  | _, _ => Ok (len st, salt)
  end.
Proof.
  intros Hs Hst. destruct (stamp_bytes_Ok salt Hs) as (st' & E & Hl). rewrite Hst in E. injection E as <-.
  destruct (stamp_head salt st Hst) as [t Et]. pose proof (len_nonneg rest).
  unfold VersionSetBytes.stamp_len, MANIFEST_STAMP_LEN.
  assert (12 <= stamp_size salt) by (destruct salt; done).
  destruct (Z.ltb_spec (len (st ++ rest)) 12); [llia|].
  assert (takez 7 (st ++ rest) = MANIFEST_MAGIC) as ->.
  { subst st. rewrite <- app_assoc. by apply takez_app. }
  assert (getz (st ++ rest) 7 = Some (match salt with Some _ => MANIFEST_FORMAT_SEALED
    | None => MANIFEST_FORMAT_V1 end)) as ->.
  { subst st. rewrite <- app_assoc. by apply getz_app_mid. }
  unfold bytes_eqb. rewrite bool_decide_eq_true_2 by done. run. clear Et t. destruct salt as [salt|].
  - rewrite (sealed_stamp_read salt rest st Hs Hst). cbn. destruct keyring; [|done]. by rewrite Hl.
  - cbn [Byte.eqb]. unfold VersionSetBytes.stamp_bytes, VersionSetBytes.encode_stamp in Hst.
    destruct (manifest_record_Ok 0 (MANIFEST_MAGIC ++ [MANIFEST_FORMAT_V1])) as (sum & Hsum & Hu).
    rewrite Hsum in Hst. apply Ok_inj in Hst. subst st. rewrite <- !app_assoc, (app_assoc MANIFEST_MAGIC).
    rewrite dropz_app, takez_app by reflexivity. rewrite (takez_app 8) by reflexivity. rewrite Hsum. run.
    rewrite from_to_u32, Z.eqb_refl by done. reflexivity.
Qed.

Lemma stamp_len_torn salt keyring st cut :
  salt_ok salt -> VersionSetBytes.stamp_bytes salt = Ok st -> 0 <= cut < len st ->
  VersionSetBytes.stamp_len (takez cut st) keyring = Ok (0, None).
Proof.
  intros Hs Hst Hc. destruct (stamp_bytes_Ok salt Hs) as (st' & E & Hl). rewrite Hst in E. injection E as <-.
  destruct (stamp_head salt st Hst) as [t Et].
  unfold VersionSetBytes.stamp_len, MANIFEST_STAMP_LEN. rewrite len_takez by lia.
  destruct (Z.ltb_spec cut 12) as [|Hge]; [done|]. destruct salt as [salt|]; [|unfold stamp_size, MANIFEST_STAMP_LEN in *; lia].
  assert (takez cut st = MANIFEST_MAGIC ++ [MANIFEST_FORMAT_SEALED] ++ takez (cut - 8) t) as ->.
  { rewrite Et. unfold takez. rewrite app_assoc, take_app_ge by (cbn; lia). rewrite <- app_assoc.
    do 3 f_equal. cbn. lia. }
  rewrite takez_app by done. unfold bytes_eqb. rewrite bool_decide_eq_true_2 by done. cbn [negb].
  cbn [app]. rewrite (getz_app_mid MANIFEST_MAGIC) by done. run.
  assert (slice (MANIFEST_MAGIC ++ MANIFEST_FORMAT_SEALED :: takez (cut - 8) t) 0 sealed.SEALED_STAMP_LEN = None) as Hn.
  { apply slice_None. rewrite len_app, len_cons. unfold stamp_size, sealed.SEALED_STAMP_LEN in *.
    rewrite Et in *. rewrite !len_app in Hl, Hc. change (len [_]) with 1 in Hc. change (len [_]) with 1 in Hl. change (len MANIFEST_MAGIC) with 7 in *.
    rewrite len_takez by lia. lia. }
  unfold sealed.decode_stamp. by rewrite Hn.
Qed.

End Batches.

(** ** Properties *)

Section Properties.
Context `{T : Target} `{XL : Xxh3Laws} `{AL : AeadLaws}.

(** A batch reads back as the records of its apply. Wherever it lands in
    the file, plain or sealed under the current key for that offset, the one
    reader of batches finds it whole, a reader that can open it decodes exactly
    its records (a table's counts ride in the record after it), and the
    judgement of the file's end knows whether it was synced. *)
Theorem manifest_batch_roundtrip records sealing draw pre post b id salt keyring :
  Forall record_ok records -> records <> [] -> nonce_draw draw -> can_read salt keyring sealing ->
  len (pre ++ b ++ post) <= isize_max ->
  VersionSetBytes.encode_records records (len pre) sealing draw = Ok (b, id) ->
  exists body edits,
    tail.batch_at (pre ++ b ++ post) (len pre) = Ok (Some (mkBatch body (len pre + len b))) /\
    batch_edits salt keyring (len pre) body = Ok (id, edits) /\
    decode_all (S (length edits)) edits 0 = Ok (map as_logged records) /\
    tail.needs_sync body (len pre) (opener salt keyring) =
      Ok (existsb ManifestRecord.requires_sync records).
Proof.
  intros Hok Hne Hd Hc Hi He.
  destruct (encode_records_decodes _ _ _ _ _ _ _ _ Hok Hd Hc Hne He) as (body & Hf & Ho & Hed).
  { rewrite !len_app in Hi. pose proof (len_nonneg pre). pose proof (len_nonneg post). lia. }
  exists body, (flat_map ManifestRecord.encode records). split_and!; [|done|done|].
  - apply (batch_at_framed _ _ body b post); [done..|]. by exists pre.
  - rewrite (needs_sync_edits _ _ _ _ _ _ _ Ho Hed). f_equal. clear. induction records as [|r rs IH]; [done|].
    cbn [map existsb]. rewrite IH. by destruct r.
Qed.

Lemma stamp_len_returns data keyring : returns (VersionSetBytes.stamp_len data keyring) /\
  forall n salt, VersionSetBytes.stamp_len data keyring = Ok (n, salt) -> 0 <= n <= len data.
Proof.
  unfold VersionSetBytes.stamp_len. destruct (Z.ltb_spec (len data) MANIFEST_STAMP_LEN).
  { split; [done|]. intros n salt [= <- <-]. pose proof (len_nonneg data). lia. }
  unfold MANIFEST_STAMP_LEN in *. destruct (negb _); [done|]. destruct (getz_is_Some data 7) as [f ->]; [lia|]. run.
  destruct (Byte.eqb f MANIFEST_FORMAT_SEALED).
  - unfold sealed.decode_stamp. destruct (slice data 0 _) as [l|] eqn:El; run.
    + apply slice_Some in El as (_ & Hl & _).
      destruct (manifest_record_Ok 0 (takez 24 l)) as (sum & -> & _). run.
      destruct (negb _); run; [done|]. destruct keyring; [|done]. split; [done|]. intros n salt [= <- <-].
      unfold sealed.SEALED_STAMP_LEN in *. lia.
    + split; [done|]. intros n salt [= <- <-]. lia.
  - destruct (manifest_record_Ok 0 (takez 8 data)) as (sum & -> & _). run.
    destruct (negb _); [done|]. destruct (_ <? _); [done|]. split; [done|]. intros n salt [= <- <-]. lia.
Qed.

Lemma judge_returns data damage_at sealed :
  addressable data -> 0 <= damage_at < len data -> returns (tail.judge data damage_at sealed).
Proof.
  intros Ha Hd. pose proof Ha as [Hi Hw]. unfold tail.judge, tail.proof_past. rewrite (uadd_near data) by (done || lia).
  destruct (proof_loop_spec data sealed (S (length data)) (damage_at + 1)) as (o & -> & _);
    [done|lia|unfold len in *; lia|]. run. by destruct o.
Qed.

(** How damage is judged. Damage at an offset is refused, naming it and the
    end of the proof, when the first batch that reads back whole after it was
    synced and has bytes behind it; and it is dropped as an unsynced tail, to
    the end of the file, when no offset after it reads as such a batch. *)
Theorem manifest_end_judged data damage_at sealed :
  addressable data -> 0 <= damage_at < len data ->
  (forall x p, damage_at < x -> proves_at data x sealed p ->
     (forall y, damage_at < y < x -> tail.batch_at data y = Ok None) ->
     exists msg, tail.judge data damage_at sealed = Err (mkError InvalidData msg [damage_at; p])) /\
  ((forall x p, damage_at < x -> ~ proves_at data x sealed p) ->
     tail.judge data damage_at sealed = Ok (mkDroppedTail damage_at (len data - damage_at))).
Proof.
  intros Ha Hd. pose proof Ha as [Hi Hw]. unfold tail.judge, tail.proof_past.
  rewrite (uadd_near data) by (done || lia). split.
  - intros x p Hx Hp Hno. assert (Hxl : x + tail.FRAMING <= len data).
    { destruct Hp as (b & Hb & _). destruct (batch_at_total data x Hi) as (o & Eo & Ho).
      rewrite Hb in Eo. injection Eo as <-. specialize (Ho b eq_refl). lia. }
    destruct (proof_loop_skips data sealed (S (length data)) (damage_at + 1) x) as (fuel & Hf & ->);
      [done|lia..| |unfold len in *; lia|].
    { intros y Hy. apply Hno. lia. }
    destruct fuel as [|fuel]; [lia|].
    destruct (proof_loop_step data x sealed fuel Ha) as [(q & Hq & ->)|(n & _ & Hn & _)]; [lia..| |].
    + run. eexists. do 5 f_equal. destruct Hp as (b & Hb & <- & _), Hq as (b' & Hb' & <- & _). congruence.
    + by destruct (Hn p).
  - intros Hno. pose proof (judge_drops data damage_at sealed Ha Hd Hno) as Hj. unfold tail.judge, tail.proof_past in Hj.
    by rewrite (uadd_near data) in Hj by (done || lia).
Qed.

(** A manifest's stamp is recognised. A whole one, plain or sealed, is read
    back with its length and salt, a sealed one only with a keyring; what is
    left of one cut short is no stamp. *)
Theorem manifest_stamp_recognised salt keyring st rest cut :
  salt_ok salt -> VersionSetBytes.stamp_bytes salt = Ok st ->
  VersionSetBytes.stamp_len (st ++ rest) keyring =
    match salt, keyring with
    | Some _, None => Err (mkError OtherError "KeyProviderRequired" [])
    | _, _ => Ok (len st, salt)
    end /\
  (0 <= cut < len st -> VersionSetBytes.stamp_len (takez cut st) keyring = Ok (0, None)).
Proof. intros Hs Hst. split; [by apply stamp_len_whole|by apply (stamp_len_torn salt)]. Qed.

End Properties.

(** ** Witnesses *)

Definition sample_deletions : Deletions := mkDeletions 1 2 5.
Definition sample_records : list ManifestRecord :=
  [RemoveFile 0 4; AddFile 1 (mkMeta 9 (str "a") (str "m") 100 3 (Some 5) (Some sample_deletions));
   TableCounts 9 sample_deletions; SetLastSeq 5].
Definition sample_salt : bytes := replicate 16 Byte.x07.
Definition sample_sealing : ManifestSeal (H := toy_aead) := mkManifestSeal (H := toy_aead) toy_keys sample_salt.
Definition or_nil {B} (o : outcome (list byte * B)) : bytes := match o with Ok (b, _) => b | _ => [] end.
Definition sample_stamp : bytes := Eval vm_compute in
  match VersionSetBytes.stamp_bytes (X := toy_xxh3) (Some sample_salt) with Ok b => b | _ => [] end.
Definition sample_batch : bytes := Eval vm_compute in
  or_nil (VersionSetBytes.encode_records (X := toy_xxh3) (A := toy_aead) sample_records 28 (Some sample_sealing)
    (Ok (replicate 12 Byte.x00))).

Lemma sample_records_ok : Forall record_ok sample_records.
Proof. repeat constructor; vm_compute; try congruence; split; congruence. Qed.

Lemma sample_can_read : can_read (A := toy_aead) (Some sample_salt) (Some toy_keys) (Some sample_sealing).
Proof. split; [done|]. exists toy_keys. split; [done|]. intros s [= <-]. split; [vm_compute; split; congruence|done]. Qed.

Lemma manifest_batch_roundtrip_witness :
  exists body edits,
    tail.batch_at (T := target64) (X := toy_xxh3) (sample_stamp ++ sample_batch ++ []) (len sample_stamp) =
      Ok (Some (mkBatch body (len sample_stamp + len sample_batch))) /\
    batch_edits (H := toy_aead) (Some sample_salt) (Some toy_keys) (len sample_stamp) body = Ok (Some 1, edits) /\
    decode_all (T := target64) (S (length edits)) edits 0 = Ok (map as_logged sample_records).
Proof.
  destruct (@manifest_batch_roundtrip target64 toy_xxh3 toy_xxh3_laws toy_aead toy_aead_laws sample_records
    (Some sample_sealing) (Ok (replicate 12 Byte.x00)) sample_stamp [] sample_batch (Some 1) (Some sample_salt)
    (Some toy_keys) sample_records_ok) as (body & edits & E1 & E2 & E3 & _).
  - discriminate.
  - reflexivity.
  - exact sample_can_read.
  - vm_compute. congruence.
  - computed.
  - exists body, edits. split; [exact E1|]. split; [exact E2|exact E3].
Defined.

(** The sealed batch damaged in its first byte, with another whole one behind. *)
Definition sample_second : bytes := Eval vm_compute in
  or_nil (VersionSetBytes.encode_records (X := toy_xxh3) (A := toy_aead) [SetLastSeq 6] 5 None (Ok [])).
Definition sample_damaged : bytes := replicate 5 Byte.xff ++ sample_second ++ [Byte.x00].

Lemma sample_addressable : addressable (T := target64) (X := toy_xxh3) (A := toy_aead) sample_damaged.
Proof. apply (@addressable_64 target64 toy_xxh3 toy_xxh3_laws toy_aead toy_aead_laws); [reflexivity|apply Z.leb_le; computed]. Qed.

Lemma manifest_end_judged_witness :
  exists msg, tail.judge (T := target64) (X := toy_xxh3) (A := toy_aead) sample_damaged 0 None =
    Err (mkError InvalidData msg [0; 22]).
Proof.
  destruct (@manifest_end_judged target64 toy_xxh3 toy_xxh3_laws toy_aead toy_aead_laws sample_damaged 0 None
    sample_addressable ltac:(vm_compute; split; congruence)) as [Hj _].
  refine (Hj 5 22 ltac:(lia) _ _).
  - eexists (mkBatch _ 22). split; [vm_compute; reflexivity|]. split; [reflexivity|].
    split; vm_compute; reflexivity.
  - intros y Hy. assert (y = 1 \/ y = 2 \/ y = 3 \/ y = 4) as [-> | [-> | [-> | ->]]] by lia; vm_compute; reflexivity.
Defined.

Lemma manifest_stamp_recognised_witness :
  VersionSetBytes.stamp_len (X := toy_xxh3) (A := toy_aead) (sample_stamp ++ sample_batch) (Some toy_keys) =
  Ok (28, Some sample_salt).
Proof.
  refine (proj1 (@manifest_stamp_recognised toy_xxh3 toy_xxh3_laws toy_aead (Some sample_salt)
    (Some toy_keys) sample_stamp sample_batch 5 eq_refl _)). reflexivity.
Defined.
