(* ===== verification/Version.v ===== *)
(** * Versions and version edits

    Models the [Version] of [src/src/engine/manifest.rs], its edits, the replay
    of their records, and [manifest/legacy_overlap.rs]. A table's reader is an
    argument type: opening one is [SsTableReader::open_with], given as what it
    answers for a table's metadata. The claim flag of a live table belongs to
    the compaction picker and is left out.

    Shown here: a level below L0 kept as a sorted run is searched exactly by two
    binary searches; replaying the records of the applied edits gives the
    version they were applied to, tables in the same order with the same counts;
    and the repair of overlapping levels leaves sorted runs, loses no table and
    keeps shallower tables newer. *)

From stdpp Require Import gmap.
From S2P Require Import Prelude Order RangeTombstone Manifest.

(** [levels[level] = f(levels[level])] for a level that was validated. *)
Definition at_level {B} (f : list B -> list B) (level : Z) (levels : list (list B)) : list (list B) :=
  alter f (Z.to_nat level) levels.
Definition level_files {B} (levels : list (list B)) (level : Z) : list B :=
  default [] (levels !! Z.to_nat level).
Definition no_levels {B} : list (list B) := replicate (Z.to_nat MAX_LEVELS) [].

(** [slice::windows(2)]. *)
Fixpoint pairs {B} (l : list B) : list (B * B) :=
  match l with
  | a :: ((b :: _) as l') => (a, b) :: pairs l'
  | _ => []
  end.

Definition raised_last_seq (current stamp : Z) : Z := Z.max current stamp.

(** [a.smallest_key.cmp(&b.smallest_key)]. *)
Definition smallest_cmp (a b : SsTableMeta) : comparison := bytes_cmp (smallest_key a) (smallest_key b).

(** The neighbours of a level that overlap beyond a shared boundary key. *)
Definition pair_overlaps (p : SsTableMeta * SsTableMeta) : bool :=
  bytes_ltb (smallest_key p.2) (largest_key p.1).

Section Version.
Context {reader : Type}.

Record LiveSst := mkLive { sequence_ceiling : Z; meta : SsTableMeta; sst_reader : reader }.

Record Version := mkVersion {
  levels : list (list LiveSst);
  next_file_id : Z;
  last_seq : Z;
  min_wal_id : Z;
  uncounted : Z;
}.

Definition version_new : Version := mkVersion no_levels 1 0 0 0.

Definition l0_count (v : Version) : Z := len (level_files (levels v) 0).
Definition level_size (v : Version) (level : Z) : Z :=
  fold_left (fun n f => as_u64 (n + file_size (meta f))) (level_files (levels v) level) 0.

(** [usize::from(deletions.is_none())]. *)
Definition is_uncounted (f : LiveSst) : bool := match deletions (meta f) with None => true | _ => false end.

Definition place (level : Z) (file : LiveSst) (files : list LiveSst) : list LiveSst :=
  if level =? 0 then files ++ [file]
  else
    let at_ := partition_point (fun f => bytes_leb (smallest_key (meta f)) (smallest_key (meta file))) files in
    takez at_ files ++ file :: dropz at_ files.

Definition add_file (v : Version) (level : Z) (file : LiveSst) : Version :=
  mkVersion (at_level (place level file) level (levels v)) (next_file_id v) (last_seq v) (min_wal_id v)
    (uncounted v + (if is_uncounted file then 1 else 0)).

Definition find_level_overlap (files : list LiveSst) : option (SsTableMeta * SsTableMeta) :=
  find pair_overlaps (pairs (map meta files)).

(** The levels from [level] on. *)
Fixpoint find_overlap_from (level : Z) (ls : list (list LiveSst))
  : option (Z * SsTableMeta * SsTableMeta) :=
  match ls with
  | [] => None
  | files :: ls =>
      match find_level_overlap files with
      | Some (a, b) => Some (level, a, b)
      | None => find_overlap_from (level + 1) ls
      end
  end.
Definition find_overlap (v : Version) : option (Z * SsTableMeta * SsTableMeta) :=
  find_overlap_from 1 (drop 1 (levels v)).

Definition levels_are_sorted_runs (v : Version) : bool :=
  match find_overlap v with None => true | Some _ => false end.

(** [retain], counting down for each table without counts that goes. *)
Definition retained (id : Z) (files : list LiveSst) : list LiveSst :=
  List.filter (fun f => negb (file_id (meta f) =? id)) files.
Definition remove_file (v : Version) (level id : Z) : Version :=
  mkVersion (at_level (retained id) level (levels v)) (next_file_id v) (last_seq v) (min_wal_id v)
    (fold_left (fun n f => if (file_id (meta f) =? id) && is_uncounted f then Z.max 0 (n - 1) else n)
       (level_files (levels v) level) (uncounted v)).

Definition counted (d : Deletions) (f : LiveSst) : LiveSst :=
  mkLive (sequence_ceiling f) (with_deletions (meta f) (Some d)) (sst_reader f).

(** Replace the first table of that id. *)
Fixpoint count_first (id : Z) (d : Deletions) (files : list LiveSst) : list LiveSst :=
  match files with
  | [] => []
  | f :: files => if file_id (meta f) =? id then counted d f :: files else f :: count_first id d files
  end.
Definition count_file (v : Version) (level id : Z) (d : Deletions) : Version :=
  match find (fun f => file_id (meta f) =? id) (level_files (levels v) level) with
  | None => v
  | Some slot =>
      mkVersion (at_level (count_first id d) level (levels v)) (next_file_id v) (last_seq v) (min_wal_id v)
        (if is_uncounted slot then Z.max 0 (uncounted v - 1) else uncounted v)
  end.

(** ** Searching a level *)

Definition overlapping (files : list LiveSst) (first last : bytes) : list LiveSst :=
  let from := partition_point (fun f => bytes_ltb (largest_key (meta f)) first) files in
  let n := partition_point (fun f => bytes_leb (smallest_key (meta f)) last) (dropz from files) in
  takez n (dropz from files).

Definition covering (files : list LiveSst) (key : bytes) : list LiveSst := overlapping files key key.

(** ** Edits *)

Inductive VersionEdit :=
| EditAddFile (level : Z) (file : LiveSst)
| EditRemoveFile (level file_id : Z)
| EditCountFile (level file_id : Z) (deletions : Deletions)
| EditSetLastSeq (seq : Z)
| EditSetNextFileId (id : Z)
| EditSetMinWalId (id : Z)
| EditReset (next_file_id min_wal_id : Z).

(** The records an edit is logged as, appended. *)
Definition to_records (e : VersionEdit) (records : list ManifestRecord) : list ManifestRecord :=
  match e with
  | EditAddFile level file => push_table records level (meta file)
  | EditRemoveFile level id => records ++ [RemoveFile level id]
  | EditCountFile _ id d => records ++ [TableCounts id d]
  | EditSetLastSeq seq => records ++ [SetLastSeq seq]
  | EditSetNextFileId id => records ++ [SetNextFileId id]
  | EditSetMinWalId id => records ++ [SetMinWalId id]
  | EditReset next wal => records ++ [Reset next wal]
  end.

(** The level check at the start of [VersionSet::apply]. *)
Definition validate_edit (e : VersionEdit) : outcome unit :=
  match e with
  | EditAddFile level _ | EditRemoveFile level _ | EditCountFile level _ _ => validate_level_index level
  | _ => Ok ()
  end.

Definition apply_edit (v : Version) (e : VersionEdit) : Version :=
  match e with
  | EditAddFile level file => add_file v level file
  | EditRemoveFile level id => remove_file v level id
  | EditCountFile level id d => count_file v level id d
  | EditSetLastSeq seq =>
      mkVersion (levels v) (next_file_id v) (raised_last_seq (last_seq v) seq) (min_wal_id v) (uncounted v)
  | EditSetNextFileId id => mkVersion (levels v) id (last_seq v) (min_wal_id v) (uncounted v)
  | EditSetMinWalId id => mkVersion (levels v) (next_file_id v) (last_seq v) id (uncounted v)
  | EditReset next wal => mkVersion no_levels next 0 wal 0
  end.

End Version.
Arguments LiveSst : clear implicits.
Arguments Version : clear implicits.
Arguments VersionEdit : clear implicits.

(** ** Replay *)

(** What [replay_manifest] tracks while it walks the records. *)
Record Replaying := mkReplaying {
  surviving : list (list SsTableMeta);
  counts : gmap Z Deletions;
  r_last_seq : Z;
  r_next_file_id : Z;
  r_min_wal_id : Z;
  r_checked : bool;
}.

Definition replay_start : Replaying := mkReplaying no_levels ∅ 0 1 0 false.

Definition replay_record (st : Replaying) (r : ManifestRecord) : Replaying :=
  match r with
  | AddFile level m =>
      mkReplaying (at_level (fun files => files ++ [m]) level (surviving st)) (counts st)
        (r_last_seq st) (r_next_file_id st) (r_min_wal_id st) (r_checked st)
  | RemoveFile level id =>
      mkReplaying (at_level (List.filter (fun m => negb (file_id m =? id))) level (surviving st))
        (delete id (counts st)) (r_last_seq st) (r_next_file_id st) (r_min_wal_id st) (r_checked st)
  | TableCounts id d =>
      mkReplaying (surviving st) (<[id := d]> (counts st))
        (r_last_seq st) (r_next_file_id st) (r_min_wal_id st) (r_checked st)
  | SetLastSeq seq =>
      mkReplaying (surviving st) (counts st) (raised_last_seq (r_last_seq st) seq) (r_next_file_id st)
        (r_min_wal_id st) (r_checked st)
  | SetNextFileId id =>
      mkReplaying (surviving st) (counts st) (r_last_seq st) id (r_min_wal_id st) (r_checked st)
  | SetMinWalId id =>
      mkReplaying (surviving st) (counts st) (r_last_seq st) (r_next_file_id st) id (r_checked st)
  | Reset next wal => mkReplaying (map (fun _ => []) (surviving st)) ∅ 0 next wal (r_checked st)
  | RangeDeletesChecked =>
      mkReplaying (surviving st) (counts st) (r_last_seq st) (r_next_file_id st) (r_min_wal_id st) true
  end.

(** ** Overlapping levels of earlier releases: [manifest/legacy_overlap.rs] *)

Module legacy_overlap.

Record Repair := mkRepair { records : list ManifestRecord; tables : Z; deepest_level : Z }.
Definition repair_default : Repair := mkRepair [] 0 0.

Record Demotion := mkDemotion { d_tables : Z; d_deepest_level : Z; d_range_deletes : list RangeTombstone }.

(** [is_sorted_by(|a, b| a.smallest_key <= b.smallest_key)]. *)
Definition key_ordered (files : list SsTableMeta) : bool :=
  forallb (fun p => bytes_leb (smallest_key p.1) (smallest_key p.2)) (pairs files).

Definition overlaps (files : list SsTableMeta) : bool :=
  if key_ordered files then existsb pair_overlaps (pairs files)
  else existsb pair_overlaps (pairs (sort_by smallest_cmp files)).

(** The last level below L0 that overlaps. *)
Fixpoint deepest_from (level : Z) (ls : list (list SsTableMeta)) : option Z :=
  match ls with
  | [] => None
  | files :: ls =>
      match deepest_from (level + 1) ls with
      | Some l => Some l
      | None => if overlaps files then Some level else None
      end
  end.

(** The removals of one level's tables. *)
Fixpoint remove_files (level : Z) (files : list SsTableMeta) (seen : gset Z) (records : list ManifestRecord)
    (tables : Z) : outcome (gset Z * list ManifestRecord * Z) :=
  match files with
  | [] => Ok (seen, records, tables)
  | m :: files =>
      if bool_decide (file_id m ∈ seen) && (0 <? level)
      then Err (mkError InvalidData "manifest lists table more than once below level 0" [file_id m])
      else remove_files level files ({[file_id m]} ∪ seen) (records ++ [RemoveFile level (file_id m)])
             (tables + (if 0 <? level then 1 else 0))
  end.

Fixpoint remove_levels (level : Z) (ls : list (list SsTableMeta)) (seen : gset Z)
    (records : list ManifestRecord) (tables : Z) : outcome (list ManifestRecord * Z) :=
  match ls with
  | [] => Ok (records, tables)
  | files :: ls =>
      '(seen, records, tables) ← remove_files level files seen records tables;
      remove_levels (level + 1) ls seen records tables
  end.

(** The repair, and the levels as it leaves them. *)
Definition prepare (ls : list (list SsTableMeta)) : outcome (Repair * list (list SsTableMeta)) :=
  match deepest_from 1 (drop 1 ls) with
  | None => Ok (repair_default, ls)
  | Some deepest =>
      '(records, tables) ← remove_levels 0 (takez (deepest + 1) ls) ∅ [] 0;
      let old_l0 := level_files ls 0 in
      let moved := List.concat (rev (takez deepest (drop 1 ls))) in
      let l0 := moved ++ old_l0 in
      let ls := l0 :: map (fun _ => []) (takez deepest (drop 1 ls)) ++ dropz deepest (drop 1 ls) in
      Ok (mkRepair (records ++ map (AddFile 0) l0) tables deepest, ls)
  end.

Section Demotion.
Context {reader : Type} (range_tombstones : reader -> list RangeTombstone).

(** [None] when nothing overlapped. *)
Definition demotion (r : Repair) (l0 : list (LiveSst reader)) : option Demotion :=
  match records r with
  | [] => None
  | _ =>
      let moved := takez (tables r) l0 in
      Some (mkDemotion (tables r) (deepest_level r)
              (coalesced (flat_map (fun f => range_tombstones (sst_reader f)) moved)))
  end.

End Demotion.
End legacy_overlap.

(** ** The second pass of replay *)

(** [counts.remove(..).filter(..)]: the counts recorded for a table, when they
    can be its. *)
Definition believed (cs : gmap Z Deletions) (m : SsTableMeta) : option Deletions :=
  match cs !! file_id m with
  | Some d => if fits d (num_entries m) then Some d else None
  | None => None
  end.
Definition joined (cs : gmap Z Deletions) (m : SsTableMeta) : SsTableMeta := with_deletions m (believed cs m).

Section Finish.
Context {reader : Type} (open_table : SsTableMeta -> outcome reader).

(** One level's tables: each takes the counts recorded for it. *)
Fixpoint open_level (files : list SsTableMeta) (ceiling : Z) (cs : gmap Z Deletions) (n : Z)
  : outcome (list (LiveSst reader) * gmap Z Deletions * Z) :=
  match files with
  | [] => Ok ([], cs, n)
  | m :: files =>
      let m := joined cs m in
      let n := n + (match deletions m with None => 1 | Some _ => 0 end) in
      r ← open_table m;
      '(fs, cs, n) ← open_level files ceiling (delete (file_id m) cs) n;
      Ok (mkLive ceiling m r :: fs, cs, n)
  end.

Fixpoint open_levels (ls : list (list SsTableMeta)) (ceiling : Z) (cs : gmap Z Deletions) (n : Z)
  : outcome (list (list (LiveSst reader)) * Z) :=
  match ls with
  | [] => Ok ([], n)
  | files :: ls =>
      '(fs, cs, n) ← open_level files ceiling cs n;
      '(rest, n) ← open_levels ls ceiling cs n;
      Ok (fs :: rest, n)
  end.

(** [files.sort_by(..)] for every level but the first. *)
Definition sort_levels (ls : list (list SsTableMeta)) : list (list SsTableMeta) :=
  take 1 ls ++ map (sort_by smallest_cmp) (drop 1 ls).

Definition replay_finish (st : Replaying) : outcome (Version reader * legacy_overlap.Repair) :=
  '(repair, ls) ← legacy_overlap.prepare (surviving st);
  '(ls, n) ← open_levels (sort_levels ls) (r_last_seq st) (counts st) 0;
  let version := mkVersion ls (r_next_file_id st) (r_last_seq st) (r_min_wal_id st) n in
  match find_overlap version with
  | Some (level, a, b) =>
      Err (mkError InvalidData "manifest lists tables at a level with overlapping key ranges"
             [file_id a; file_id b; level])
  | None => Ok (version, repair)
  end.

End Finish.

(** ** Placing, removing and counting, on metadata *)

#[export] Instance smallest_cmp_preorder : PreorderCmp smallest_cmp.
Proof.
  split; unfold smallest_cmp.
  - intros x y H. rewrite bytes_cmp_opp, H. done.
  - intros x y z. apply bytes_le_trans.
Qed.
#[export] Instance smallest_cmp_opp : OppCmp smallest_cmp.
Proof. intros x y. apply bytes_cmp_opp. Qed.

(** The order of a level whose tables arrived in the order given. *)
Definition arranged (level : nat) (files : list SsTableMeta) : list SsTableMeta :=
  match level with O => files | _ => sort_by smallest_cmp files end.

Lemma partition_point_map {B C} (f : B -> C) p l : partition_point p (map f l) = partition_point (fun x => p (f x)) l.
Proof.
  unfold partition_point. rewrite len_map. apply bsearch_ext. intros i. rewrite getz_map. by destruct (getz l i).
Qed.

Section OnMetas.
Context {reader : Type}.
Implicit Types f : LiveSst reader.

Lemma place_metas level file (files : list (LiveSst reader)) arrived :
  level_ok level -> map meta files = arranged (Z.to_nat level) arrived ->
  map meta (place level file files) = arranged (Z.to_nat level) (arrived ++ [meta file]).
Proof.
  intros Hl Hm. unfold place. destruct (Z.eqb_spec level 0) as [->|Hne].
  - cbn in *. by rewrite map_app, Hm.
  - unfold arranged in *. destruct (Z.to_nat level) as [|n] eqn:E; [unfold level_ok in Hl; lia|].
    rewrite (sort_by_snoc smallest_cmp), (insert_last_partition smallest_cmp
      (fun m => bytes_leb (smallest_key m) (smallest_key (meta file)))).
    + rewrite map_app. cbn [map]. rewrite <- Hm, partition_point_map. unfold takez, dropz.
      by rewrite !firstn_map, !skipn_map.
    + intros y. unfold bytes_leb, smallest_cmp. by destruct (bytes_cmp _ _).
    + apply sort_by_sorted. apply _.
Qed.

Lemma filter_map_comm {B C} (g : B -> C) p l : List.filter p (map g l) = map g (List.filter (fun x => p (g x)) l).
Proof. induction l as [|x l IH]; [done|]. cbn. rewrite IH. by destruct (p (g x)). Qed.

Lemma retained_metas id (files : list (LiveSst reader)) n arrived :
  map meta files = arranged n arrived ->
  map meta (retained id files) = arranged n (List.filter (fun m => negb (file_id m =? id)) arrived).
Proof.
  intros Hm. unfold retained. rewrite <- (filter_map_comm meta (fun m => negb (file_id m =? id))), Hm.
  destruct n; [done|]. apply filter_sort_by. apply _.
Qed.

(** Recording the counts of a table. *)
Definition recount (id : Z) (d : Deletions) (m : SsTableMeta) : SsTableMeta :=
  if file_id m =? id then with_deletions m (Some d) else m.

Lemma recount_smallest id d m m' : smallest_cmp (recount id d m) (recount id d m') = smallest_cmp m m'.
Proof. unfold recount. by destruct (_ =? _), (_ =? _). Qed.

Lemma count_first_metas id d (files : list (LiveSst reader)) :
  NoDup (map (fun f => file_id (meta f)) files) ->
  map meta (count_first id d files) = map (recount id d) (map meta files).
Proof.
  induction files as [|f files IH]; [done|]. cbn [map count_first]. intros Hn. inversion_clear Hn as [|? ? Hni Hnd].
  unfold recount at 1. destruct (Z.eqb_spec (file_id (meta f)) id) as [E|]; cbn [map].
  - f_equal. clear IH Hnd. induction files as [|g files IH]; [done|]. cbn [map] in *.
    apply not_elem_of_cons in Hni as [Hg Hni]. unfold recount at 1.
    destruct (Z.eqb_spec (file_id (meta g)) id); [congruence|]. f_equal. by apply IH.
  - f_equal. by apply IH.
Qed.

Lemma arranged_map g n arrived :
  (forall m m', smallest_cmp (g m) (g m') = smallest_cmp m m') ->
  map g (arranged n arrived) = arranged n (map g arrived).
Proof. destruct n; [done|]. apply map_sort_by. Qed.

Lemma arranged_perm n arrived : Permutation (arranged n arrived) arrived.
Proof. destruct n; [done|]. apply sort_by_perm. Qed.

End OnMetas.

(** ** Replay follows the version *)

(** The tables without counts. *)
Definition missing (l : list SsTableMeta) : Z :=
  len (List.filter (fun m => match deletions m with None => true | _ => false end) l).

Lemma missing_app l k : missing (l ++ k) = missing l + missing k.
Proof. unfold missing. by rewrite List.filter_app, len_app. Qed.
Lemma missing_perm l k : Permutation l k -> missing l = missing k.
Proof.
  unfold missing. induction 1 as [|x l k _ IH|x y l|l k m _ IH1 _ IH2]; cbn [List.filter]; [done|..|lia];
    repeat case_match; rewrite ?len_cons; lia.
Qed.
Lemma missing_single m : missing [m] = match deletions m with None => 1 | Some _ => 0 end.
Proof. unfold missing. cbn. by destruct (deletions m). Qed.
Lemma missing_nonneg l : 0 <= missing l.
Proof. apply len_nonneg. Qed.

Lemma split_level {B} (ls : list B) i x : ls !! i = Some x ->
  exists pre post, ls = pre ++ x :: post /\ forall f, alter f i ls = pre ++ f x :: post.
Proof.
  intros Hx. exists (take i ls), (drop (S i) ls). split; [by rewrite take_drop_middle|].
  intros f. rewrite <- (take_drop_middle ls i x Hx) at 1.
  rewrite alter_app_r_alt by (rewrite length_take; lia).
  rewrite length_take, Nat.min_l by (apply lookup_lt_Some in Hx; lia). by rewrite Nat.sub_diag.
Qed.

Lemma lookup_altered {B} (f : B -> B) (i : nat) (ls : list B) x : ls !! i = Some x -> alter f i ls !! i = Some (f x).
Proof. intros H. rewrite list_lookup_alter, decide_True by done. by rewrite H. Qed.
Lemma lookup_altered_ne {B} (f : B -> B) (i j : nat) (ls : list B) : j <> i -> alter f i ls !! j = ls !! j.
Proof. intros H. by apply list_lookup_alter_ne. Qed.

Section Follows.
Context {reader : Type}.

Definition metas (v : Version reader) : list (list SsTableMeta) := map (map meta) (levels v).

Definition live (v : Version reader) (i : nat) (id : Z) : Prop :=
  exists fs f, levels v !! i = Some fs /\ f ∈ fs /\ file_id (meta f) = id.

(** The edits the engine applies: a table is added once, with counts that can be
    its; removed from the level it is at; and counted where it is. *)
Definition edit_ok (v : Version reader) (e : VersionEdit reader) : Prop :=
  match e with
  | EditAddFile level file =>
      level_ok level /\ (forall i, ~ live v i (file_id (meta file))) /\
      match deletions (meta file) with Some d => fits d (num_entries (meta file)) = true | None => True end
  | EditRemoveFile level id => level_ok level /\ forall i, live v i id -> i = Z.to_nat level
  | EditCountFile level id d =>
      level_ok level /\ live v (Z.to_nat level) id /\
      forall fs f, levels v !! Z.to_nat level = Some fs -> f ∈ fs -> file_id (meta f) = id ->
        fits d (num_entries (meta f)) = true
  | _ => True
  end.

Record replay_inv (st : Replaying) (v : Version reader) : Prop := {
  ri_len : length (surviving st) = 7%nat;
  ri_vlen : length (levels v) = 7%nat;
  ri_levels : forall i files fs, surviving st !! i = Some files -> levels v !! i = Some fs ->
    map meta fs = arranged i (map (joined (counts st)) files);
  ri_nodup : forall i files, surviving st !! i = Some files -> NoDup (map file_id files);
  ri_once : forall i j fi fj m m', surviving st !! i = Some fi -> surviving st !! j = Some fj ->
    m ∈ fi -> m' ∈ fj -> file_id m = file_id m' -> i = j;
  ri_counts : forall id, is_Some (counts st !! id) -> exists i, live v i id;
  ri_seq : r_last_seq st = last_seq v;
  ri_next : r_next_file_id st = next_file_id v;
  ri_wal : r_min_wal_id st = min_wal_id v;
  ri_uncounted : uncounted v = missing (List.concat (metas v));
}.

Lemma level_lookup {B} (ls : list B) level : length ls = 7%nat -> level_ok level -> exists x, ls !! Z.to_nat level = Some x.
Proof.
  intros Hl Hk. destruct (lookup_lt_is_Some_2 ls (Z.to_nat level)) as [x Hx]; [|eauto].
  unfold level_ok, MAX_LEVELS in Hk. lia.
Qed.

Lemma joined_id cs m : file_id (joined cs m) = file_id m.
Proof. done. Qed.
Lemma joined_cmp cs m m' : smallest_cmp (joined cs m) (joined cs m') = smallest_cmp m m'.
Proof. done. Qed.

(** A level lists the same tables on both sides. *)
Lemma level_ids i cs files (fs : list (LiveSst reader)) id :
  map meta fs = arranged i (map (joined cs) files) ->
  (exists f, f ∈ fs /\ file_id (meta f) = id) <-> (exists m, m ∈ files /\ file_id m = id).
Proof.
  intros Hm. assert (Hp : Permutation (map (fun f => file_id (meta f)) fs) (map file_id files)).
  { rewrite <- (map_map meta file_id), Hm, arranged_perm, map_map. done. }
  assert (Hq : id ∈ map (fun f => file_id (meta f)) fs <-> id ∈ map file_id files) by (by rewrite Hp).
  rewrite !list_elem_of_fmap in Hq. naive_solver.
Qed.

Lemma live_surviving st v i id : replay_inv st v ->
  live v i id <-> exists files m, surviving st !! i = Some files /\ m ∈ files /\ file_id m = id.
Proof.
  intros I. assert (Hl : length (surviving st) = length (levels v)) by (by rewrite (ri_len _ _ I), (ri_vlen _ _ I)).
  split.
  - intros (fs & f & Hv & Hf & Hid). destruct (lookup_lt_is_Some_2 (surviving st) i) as [files Hs].
    { rewrite Hl. by apply lookup_lt_Some in Hv. }
    destruct (proj1 (level_ids i _ files fs id (ri_levels _ _ I _ _ _ Hs Hv))) as (m & ? & ?); eauto.
  - intros (files & m & Hs & Hm & Hid). destruct (lookup_lt_is_Some_2 (levels v) i) as [fs Hv].
    { rewrite <- Hl. by apply lookup_lt_Some in Hs. }
    destruct (proj2 (level_ids i _ files fs id (ri_levels _ _ I _ _ _ Hs Hv))) as (f & ? & ?); [eauto|].
    by exists fs, f.
Qed.

(** Counts are of a table of the level or of another one. *)
Lemma counts_at st v i files id : replay_inv st v -> surviving st !! i = Some files ->
  is_Some (counts st !! id) ->
  (exists m, m ∈ files /\ file_id m = id) \/ exists j, j <> i /\ live v j id.
Proof.
  intros I Hs [j Hj]%(ri_counts _ _ I). destruct (decide (j = i)) as [->|]; [|eauto].
  apply (live_surviving st v) in Hj as (files' & m & Hs' & Hm & E); [|done].
  rewrite Hs in Hs'. injection Hs' as <-. eauto.
Qed.

(** Counts of other tables do not matter to a level. *)
Lemma joined_ext cs cs' files :
  (forall m, m ∈ files -> cs !! file_id m = cs' !! file_id m) -> map (joined cs) files = map (joined cs') files.
Proof.
  intros H. apply map_ext_in. intros m Hm. unfold joined, believed. rewrite H by (by apply list_elem_of_In). done.
Qed.

Lemma missing_alter (ls : list (list (LiveSst reader))) i fs h : ls !! i = Some fs ->
  missing (List.concat (map (map meta) (alter h i ls))) =
  missing (List.concat (map (map meta) ls)) - missing (map meta fs) + missing (map meta (h fs)).
Proof.
  intros (pre & post & -> & Ha)%split_level. rewrite Ha, !map_app, !concat_app. cbn [map List.concat].
  rewrite !missing_app. lia.
Qed.

Section Alter.
Context (st : Replaying) (v : Version reader) (i : nat) (g : list SsTableMeta -> list SsTableMeta)
  (h : list (LiveSst reader) -> list (LiveSst reader)) (files : list SsTableMeta) (fs : list (LiveSst reader))
  (cs : gmap Z Deletions) (n : Z).
Hypothesis I : replay_inv st v.
Hypothesis Hs : surviving st !! i = Some files.
Hypothesis Hv : levels v !! i = Some fs.
Hypothesis Hh : map meta (h fs) = arranged i (map (joined cs) (g files)).
Hypothesis Hg : forall m, m ∈ g files -> (exists m', m' ∈ files /\ file_id m' = file_id m) \/
  forall j, ~ live v j (file_id m).

Lemma live_alter j id :
  live (mkVersion (alter h i (levels v)) (next_file_id v) (last_seq v) (min_wal_id v) n) j id <->
  if decide (j = i) then exists m, m ∈ g files /\ file_id m = id else live v j id.
Proof.
  unfold live. cbn [levels]. destruct (decide (j = i)) as [->|Hj]; [|by rewrite lookup_altered_ne].
  rewrite (lookup_altered h i _ fs Hv), <- (level_ids i cs (g files) (h fs) id Hh). naive_solver.
Qed.

Lemma altered_once j k fj fk m m' :
  alter g i (surviving st) !! j = Some fj -> alter g i (surviving st) !! k = Some fk ->
  m ∈ fj -> m' ∈ fk -> file_id m = file_id m' -> j = k.
Proof.
  assert (Hx : forall j fj m m', j <> i -> surviving st !! j = Some fj -> m ∈ g files -> m' ∈ fj ->
      file_id m = file_id m' -> False).
  { clear j k fj fk m m'. intros j fj m m' Hne Hj Hm Hm' E. destruct (Hg m Hm) as [(m0 & Hm0 & E0)|Hno].
    - apply Hne. apply (ri_once _ _ I j i fj files m' m0); auto. congruence.
    - apply (Hno j). rewrite E. apply (live_surviving st v); [done|]. by exists fj, m'. }
  intros Hj Hk Hm Hm' E.
  destruct (decide (j = i)) as [->|Hji], (decide (k = i)) as [->|Hki]; try done;
    rewrite ?(lookup_altered g i _ files Hs), ?lookup_altered_ne in Hj by done;
    rewrite ?(lookup_altered g i _ files Hs), ?lookup_altered_ne in Hk by done.
  - injection Hj as <-. by destruct (Hx k fk m m').
  - injection Hk as <-. by destruct (Hx j fj m' m).
  - by apply (ri_once _ _ I j k fj fk m m').
Qed.

(** An edit that changes one level. *)
Lemma alter_inv :
  NoDup (map file_id (g files)) ->
  (forall j m fj, j <> i -> surviving st !! j = Some fj -> m ∈ fj -> counts st !! file_id m = cs !! file_id m) ->
  (forall id, is_Some (cs !! id) -> (exists m, m ∈ g files /\ file_id m = id) \/
     exists j, j <> i /\ live v j id) ->
  n = uncounted v - missing (map meta fs) + missing (map meta (h fs)) ->
  replay_inv
    (mkReplaying (alter g i (surviving st)) cs (r_last_seq st) (r_next_file_id st) (r_min_wal_id st) (r_checked st))
    (mkVersion (alter h i (levels v)) (next_file_id v) (last_seq v) (min_wal_id v) n).
Proof.
  intros Hnd Hcs Hdom Hn. pose proof I as [Hl Hvl Hlv Hndp Honce Hcnt E1 E2 E3 Hu].
  split; cbn [surviving counts levels r_last_seq r_next_file_id r_min_wal_id last_seq next_file_id min_wal_id uncounted];
    try done; rewrite ?length_alter; try done.
  - intros j fj vj Hj Hvj. destruct (decide (j = i)) as [->|Hne].
    + rewrite (lookup_altered g i _ files Hs) in Hj. rewrite (lookup_altered h i _ fs Hv) in Hvj. congruence.
    + rewrite lookup_altered_ne in Hj by done. rewrite lookup_altered_ne in Hvj by done. rewrite (Hlv _ _ _ Hj Hvj). f_equal.
      apply joined_ext. intros m Hm. by apply (Hcs j m fj).
  - intros j fj Hj. destruct (decide (j = i)) as [->|Hne].
    + rewrite (lookup_altered g i _ files Hs) in Hj. congruence.
    + rewrite lookup_altered_ne in Hj by done. by apply (Hndp j).
  - exact altered_once.
  - intros id Hid. destruct (Hdom id Hid) as [Hm|(j & Hj & Hl')].
    + exists i. apply live_alter. by rewrite decide_True.
    + exists j. apply live_alter. by rewrite decide_False.
  - rewrite Hn, Hu. unfold metas. cbn [levels]. by rewrite (missing_alter _ _ fs).
Qed.

End Alter.

(** ** Each edit *)

Definition replay_edit (st : Replaying) (e : VersionEdit reader) : Replaying :=
  fold_left replay_record (map as_logged (to_records e [])) st.

Lemma joined_logged cs m : (cs !! file_id m = None -> deletions m = None) ->
  (forall d, cs !! file_id m = Some d -> deletions m = Some d /\ fits d (num_entries m) = true) ->
  joined cs (with_deletions m None) = m.
Proof.
  intros Hn Hs. unfold joined, believed. cbn. destruct (cs !! file_id m) as [d|] eqn:E.
  - destruct (Hs d eq_refl) as [Hd ->]. destruct m; cbn in *. by subst.
  - specialize (Hn eq_refl). destruct m; cbn in *. by subst.
Qed.

Lemma replay_add st level (m : SsTableMeta) :
  fold_left replay_record (map as_logged (push_table [] level m)) st =
  mkReplaying (at_level (fun files => files ++ [with_deletions m None]) level (surviving st))
    (match deletions m with Some d => <[file_id m := d]> (counts st) | None => counts st end)
    (r_last_seq st) (r_next_file_id st) (r_min_wal_id st) (r_checked st).
Proof. unfold push_table. destruct (deletions m) as [d|]; done. Qed.

Lemma add_follows st v level file :
  replay_inv st v -> edit_ok v (EditAddFile level file) ->
  replay_inv (replay_edit st (EditAddFile level file)) (add_file v level file).
Proof.
  intros I (Hl & Hno & Hd). destruct (level_lookup _ level (ri_len _ _ I) Hl) as [files Hs].
  destruct (level_lookup _ level (ri_vlen _ _ I) Hl) as [fs Hv].
  unfold replay_edit. cbn [to_records]. rewrite replay_add. unfold add_file, at_level.
  set (m := meta file) in *. set (cs := match deletions m with Some d => _ | None => _ end).
  assert (Hnf : forall j fj m', surviving st !! j = Some fj -> m' ∈ fj -> file_id m' <> file_id m).
  { intros j fj m' Hj Hm' E. apply (Hno j), (live_surviving st v); [done|]. by exists fj, m'. }
  assert (Hcn : counts st !! file_id m = None).
  { apply eq_None_not_Some. intros [j Hj]%(ri_counts _ _ I). by apply (Hno j). }
  assert (Hcs : forall id, id <> file_id m -> counts st !! id = cs !! id).
  { intros id Hid. subst cs. destruct (deletions m); [|done]. by rewrite lookup_insert_ne. }
  assert (Hjm : joined cs (with_deletions m None) = m).
  { apply joined_logged; subst cs; destruct (deletions m) as [d|]; rewrite ?lookup_insert_eq;
      intros; simplify_eq; try done; congruence. }
  assert (Hh : map meta (place level file fs) =
    arranged (Z.to_nat level) (map (joined cs) (files ++ [with_deletions m None]))).
  { rewrite map_app. cbn [map]. rewrite Hjm. apply place_metas; [done|].
    rewrite (ri_levels _ _ I _ _ _ Hs Hv). f_equal. apply joined_ext. intros m' Hm'.
    apply Hcs. by apply (Hnf _ _ _ Hs). }
  apply (alter_inv st v (Z.to_nat level) (fun files => files ++ [with_deletions m None]) (place level file)
    files fs cs); auto.
  - intros m' [Hm' | ->%list_elem_of_singleton]%elem_of_app; [left; by exists m'|right; apply Hno].
  - rewrite map_app. cbn [map]. apply list.NoDup_app. split_and!; [by apply (ri_nodup _ _ I _ _ Hs)| |apply NoDup_singleton].
    intros id (m' & E & Hm')%list_elem_of_fmap Hid%list_elem_of_singleton. apply (Hnf _ _ _ Hs Hm').
    cbn in *. congruence.
  - intros j m' fj _ Hj Hm'. apply Hcs. by apply (Hnf _ _ _ Hj).
  - intros id Hid. destruct (decide (id = file_id m)) as [->|Hne].
    + left. exists (with_deletions m None). split; [apply elem_of_app; right; by apply list_elem_of_singleton|done].
    + rewrite <- Hcs in Hid by done. destruct (counts_at _ _ (Z.to_nat level) files id I Hs Hid) as [(m' & Hm' & E)|Hj];
        [left; exists m'; split; [by apply elem_of_app; left|done]|by right].
  - rewrite Hh, (missing_perm _ _ (arranged_perm _ _)), map_app, missing_app. cbn [map]. rewrite Hjm.
    rewrite (ri_levels _ _ I _ _ _ Hs Hv), (missing_perm _ _ (arranged_perm _ _)).
    rewrite (joined_ext (counts st) cs) by (intros m' Hm'; apply Hcs; by apply (Hnf _ _ _ Hs)).
    unfold is_uncounted. fold m. rewrite missing_single. destruct (deletions m); lia.
Qed.

(** Counting down over the tables removed. *)
Lemma remove_counts_down id (fs : list (LiveSst reader)) n :
  missing (map meta fs) - missing (map meta (retained id fs)) <= n ->
  fold_left (fun n f => if (file_id (meta f) =? id) && is_uncounted f then Z.max 0 (n - 1) else n) fs n =
  n - missing (map meta fs) + missing (map meta (retained id fs)).
Proof.
  assert (Hc : forall (f : LiveSst reader) l, missing (map meta (f :: l)) = (if is_uncounted f then 1 else 0) + missing (map meta l)).
  { intros f l. change (map meta (f :: l)) with ([meta f] ++ map meta l). rewrite missing_app, missing_single.
    unfold is_uncounted. by destruct (deletions (meta f)). }
  assert (Hle : forall l : list (LiveSst reader), missing (map meta (retained id l)) <= missing (map meta l)).
  { induction l as [|f l IH]; [done|]. unfold retained in *. cbn [List.filter].
    destruct (negb _); rewrite ?Hc; [lia|]. destruct (is_uncounted f); lia. }
  revert n. induction fs as [|f fs IH]; intros n Hn; [cbn; lia|]. cbn [fold_left]. specialize (Hle fs).
  unfold retained in *. cbn [List.filter] in *.
  destruct (file_id (meta f) =? id); cbn [negb andb] in *; rewrite ?Hc in *;
    destruct (is_uncounted f); rewrite IH by lia; lia.
Qed.

Lemma level_missing st v i fs : replay_inv st v -> levels v !! i = Some fs -> missing (map meta fs) <= uncounted v.
Proof.
  intros I Hv. rewrite (ri_uncounted _ _ I). unfold metas.
  destruct (split_level _ _ _ Hv) as (pre & post & -> & _). rewrite map_app, concat_app. cbn [map List.concat].
  rewrite !missing_app. pose proof (missing_nonneg (List.concat (map (map meta) pre))).
  pose proof (missing_nonneg (List.concat (map (map meta) post))). lia.
Qed.

Lemma remove_follows st v level id :
  replay_inv st v -> edit_ok v (EditRemoveFile level id) ->
  replay_inv (replay_edit st (EditRemoveFile level id)) (remove_file v level id).
Proof.
  intros I (Hl & Hat). destruct (level_lookup _ level (ri_len _ _ I) Hl) as [files Hs].
  destruct (level_lookup _ level (ri_vlen _ _ I) Hl) as [fs Hv].
  unfold replay_edit, remove_file, at_level. cbn [to_records app map as_logged fold_left replay_record].
  set (p := fun m => negb (file_id m =? id)).
  assert (Hin : forall m, m ∈ List.filter p files <-> m ∈ files /\ file_id m <> id).
  { intros m. rewrite !list_elem_of_In, filter_In. unfold p. rewrite negb_true_iff, Z.eqb_neq. done. }
  assert (Hh : map meta (retained id fs) = arranged (Z.to_nat level) (map (joined (delete id (counts st))) (List.filter p files))).
  { rewrite (retained_metas id fs _ _ (ri_levels _ _ I _ _ _ Hs Hv)), filter_map_comm. f_equal.
    apply joined_ext. intros m [_ Hm]%Hin. by rewrite lookup_delete_ne. }
  apply (alter_inv st v (Z.to_nat level) (List.filter p) (retained id) files fs); auto.
  - intros m [Hm _]%Hin. left. eauto.
  - pose proof (ri_nodup _ _ I _ _ Hs) as Hnd. clear - Hnd. induction files as [|m files IH]; [done|].
    cbn [map List.filter] in *. apply list.NoDup_cons in Hnd as [Hni Hnd]. destruct (p m); [|by apply IH].
    cbn [map]. apply list.NoDup_cons. split; [|by apply IH]. intros (m' & E & Hm')%list_elem_of_fmap.
    apply Hni, list_elem_of_fmap. exists m'. split; [done|].
    rewrite !list_elem_of_In, filter_In in *. naive_solver.
  - intros j m fj Hne Hj Hm. rewrite lookup_delete_ne; [done|]. intros E. apply Hne, Hat.
    apply (live_surviving st v); [done|]. by exists fj, m.
  - intros id' [d Hd]. apply lookup_delete_Some in Hd as [Hne Hd].
    destruct (counts_at _ _ (Z.to_nat level) files id' I Hs ltac:(eauto)) as [(m & Hm & E)|Hj]; [left|by right].
    exists m. split; [apply Hin; split; [done|congruence]|done].
  - unfold level_files. rewrite Hv. cbn [default]. apply remove_counts_down.
    pose proof (level_missing _ _ _ _ I Hv). pose proof (missing_nonneg (map meta (retained id fs))). lia.
Qed.

Lemma recount_joined id d cs m : (file_id m = id -> fits d (num_entries m) = true) ->
  recount id d (joined cs m) = joined (<[id := d]> cs) m.
Proof.
  intros Hf. unfold recount, joined, believed. cbn [file_id with_deletions].
  destruct (Z.eqb_spec (file_id m) id) as [E|Hne].
  - rewrite E, lookup_insert_eq, Hf by done. done.
  - by rewrite lookup_insert_ne.
Qed.

Lemma missing_count_first id d (fs : list (LiveSst reader)) slot :
  find (fun f => file_id (meta f) =? id) fs = Some slot ->
  missing (map meta (count_first id d fs)) = missing (map meta fs) - (if is_uncounted slot then 1 else 0).
Proof.
  induction fs as [|f fs IH]; [done|]. cbn [find count_first]. destruct (file_id (meta f) =? id) eqn:E.
  - intros [= ->]. cbn [map]. change (?x :: map meta fs) with ([x] ++ map meta fs).
    rewrite !missing_app, !missing_single. unfold is_uncounted. cbn. destruct (deletions (meta slot)); lia.
  - intros H. specialize (IH H). cbn [map]. change (?x :: ?l) with ([x] ++ l).
    rewrite !missing_app, !missing_single. lia.
Qed.

Lemma count_follows st v level id d :
  replay_inv st v -> edit_ok v (EditCountFile level id d) ->
  replay_inv (replay_edit st (EditCountFile level id d)) (count_file v level id d).
Proof.
  intros I (Hl & Hlive & Hfit). destruct (level_lookup _ level (ri_len _ _ I) Hl) as [files Hs].
  destruct (level_lookup _ level (ri_vlen _ _ I) Hl) as [fs Hv].
  unfold replay_edit, count_file, at_level. cbn [to_records app map as_logged fold_left replay_record].
  unfold level_files. rewrite Hv. cbn [default from_option Datatypes.id].
  destruct (find (fun f => file_id (meta f) =? id) fs) as [slot|] eqn:Ef.
  2:{ destruct Hlive as (fs' & f & Hv' & Hf & E). rewrite Hv in Hv'. injection Hv' as <-.
      apply list_elem_of_In in Hf. pose proof (find_none _ _ Ef _ Hf) as Hn. cbn in Hn. by rewrite E, Z.eqb_refl in Hn. }
  pose proof (ri_levels _ _ I _ _ _ Hs Hv) as Hm.
  assert (Hfit' : forall m, m ∈ files -> file_id m = id -> fits d (num_entries m) = true).
  { intros m Hmf E. assert (joined (counts st) m ∈ map meta fs) as (f & Ef' & Hf)%list_elem_of_fmap.
    { rewrite Hm, arranged_perm. apply list_elem_of_fmap. eauto. }
    specialize (Hfit fs f Hv Hf). rewrite <- Ef' in Hfit. by apply Hfit. }
  assert (Hh : map meta (count_first id d fs) = arranged (Z.to_nat level) (map (joined (<[id := d]> (counts st))) files)).
  { rewrite count_first_metas, Hm, arranged_map, map_map; [|apply recount_smallest|].
    - f_equal. apply map_ext_in. intros m Hmf%list_elem_of_In. apply recount_joined. auto.
    - rewrite <- (map_map meta file_id), Hm, arranged_perm, map_map. apply (ri_nodup _ _ I _ _ Hs). }
  rewrite <- (list_alter_id (fun x => x) (surviving st) (Z.to_nat level)) by done.
  apply (alter_inv st v (Z.to_nat level) (fun x => x) (count_first id d) files fs); auto.
  - intros m Hmf. left. eauto.
  - by apply (ri_nodup _ _ I _ _ Hs).
  - intros j m fj Hne Hj Hmf. rewrite lookup_insert_ne; [done|]. intros E. apply Hne.
    apply (live_surviving st v) in Hlive as (files' & m' & Hs' & Hm' & E'); [|done].
    apply (ri_once _ _ I j (Z.to_nat level) fj files' m m'); auto. congruence.
  - intros id' Hid. destruct (decide (id' = id)) as [->|Hne].
    + left. apply (live_surviving st v) in Hlive as (files' & m' & Hs' & Hm' & E'); [|done].
      rewrite Hs in Hs'. injection Hs' as <-. eauto.
    + rewrite lookup_insert_ne in Hid by done. by apply (counts_at st v).
  - rewrite (missing_count_first _ _ _ _ Ef). destruct (is_uncounted slot) eqn:Eu; [|lia].
    pose proof (level_missing _ _ _ _ I Hv). pose proof (missing_nonneg (map meta (count_first id d fs))) as Hp.
    rewrite (missing_count_first _ _ _ _ Ef), Eu in Hp. lia.
Qed.

Lemma lookup_no_levels {B} i (files : list B) : no_levels !! i = Some files -> files = [].
Proof. unfold no_levels. intros H. by apply lookup_replicate in H as [-> _]. Qed.

Lemma empty_inv (checked : bool) next wal seq :
  replay_inv (mkReplaying no_levels ∅ seq next wal checked) (mkVersion no_levels next seq wal 0).
Proof.
  split; cbn; try done.
  - by intros i files fs ->%lookup_no_levels ->%lookup_no_levels; destruct i.
  - intros i files ->%lookup_no_levels. constructor.
  - intros i j fi fj m m' ->%lookup_no_levels _ Hm. by apply not_elem_of_nil in Hm.
  - intros id [d Hd]. by rewrite lookup_empty in Hd.
Qed.

Lemma cleared_levels {B C} (ls : list (list B)) : length ls = 7%nat -> map (fun _ => @nil C) ls = no_levels.
Proof. intros H. do 8 (destruct ls as [|? ls]; try done). Qed.

(** Replaying the records of an edit does to the logged tables what the edit does
    to the version. *)
Lemma edit_follows st v e : replay_inv st v -> edit_ok v e -> replay_inv (replay_edit st e) (apply_edit v e).
Proof.
  intros I Ho. destruct e; [by apply add_follows|by apply remove_follows|by apply count_follows|..].
  4:{ unfold replay_edit. cbn. rewrite cleared_levels by apply I. apply empty_inv. }
  all: destruct I; split; cbn; try done. by rewrite ri_seq0.
Qed.

(** Edits applied one after another, each one the engine may make. *)
Inductive edits_ok : Version reader -> list (VersionEdit reader) -> Prop :=
| edits_ok_nil v : edits_ok v []
| edits_ok_cons v e es : edit_ok v e -> edits_ok (apply_edit v e) es -> edits_ok v (e :: es).

Lemma edits_follow st v es : replay_inv st v -> edits_ok v es ->
  replay_inv (fold_left replay_edit es st) (fold_left apply_edit es v).
Proof.
  intros I Ho. revert st I. induction Ho as [v|v e es He Ho IH]; intros st I; [done|]. cbn [fold_left].
  apply IH. by apply edit_follows.
Qed.

(** The records of a batch of edits, as [apply] makes them. *)
Definition edits_records (es : list (VersionEdit reader)) (records : list ManifestRecord) : list ManifestRecord :=
  fold_left (fun records e => to_records e records) es records.

Lemma to_records_app (e : VersionEdit reader) records : to_records e records = records ++ to_records e [].
Proof. by destruct e. Qed.

Lemma replay_edits_records es records st :
  fold_left replay_record (map as_logged (edits_records es records)) st =
  fold_left replay_edit es (fold_left replay_record (map as_logged records) st).
Proof.
  revert records. induction es as [|e es IH]; intros records; [done|]. cbn [fold_left edits_records].
  unfold edits_records in IH. rewrite IH. f_equal. unfold replay_edit.
  rewrite to_records_app, map_app, fold_left_app. done.
Qed.

End Follows.

(** ** The second pass gives the version back *)

Lemma pairs_map {B C} (f : B -> C) l : pairs (map f l) = map (fun p => (f p.1, f p.2)) (pairs l).
Proof. induction l as [|a [|b l] IH]; [done..|]. cbn in *. by rewrite IH. Qed.

Lemma existsb_find {B} (p : B -> bool) l : existsb p l = match find p l with Some _ => true | None => false end.
Proof. induction l as [|x l IH]; [done|]. cbn. by destruct (p x). Qed.

Lemma joined_pairs cs l : existsb pair_overlaps (pairs (map (joined cs) l)) = existsb pair_overlaps (pairs l).
Proof. rewrite pairs_map. induction (pairs l) as [|p ps IH]; [done|]. cbn. by rewrite IH. Qed.

Lemma key_ordered_sorted files : legacy_overlap.key_ordered files = true -> sorted_by smallest_cmp files.
Proof.
  unfold legacy_overlap.key_ordered. induction files as [|a [|b files] IH]; [constructor|repeat constructor|].
  cbn [pairs forallb fst snd]. intros [Hab Hr]%andb_prop. specialize (IH Hr). constructor; [done|].
  assert (Hle : smallest_cmp a b <> Gt) by (unfold smallest_cmp; unfold bytes_leb in Hab; by destruct (bytes_cmp _ _)).
  constructor; [done|]. apply StronglySorted_inv in IH as [_ Hb]. eapply Forall_impl; [|exact Hb].
  intros c Hc. by apply (pre_trans smallest_cmp a b c).
Qed.

Lemma overlaps_eq files : legacy_overlap.overlaps files = existsb pair_overlaps (pairs (sort_by smallest_cmp files)).
Proof.
  unfold legacy_overlap.overlaps. destruct (legacy_overlap.key_ordered files) eqn:E; [|done].
  by rewrite sort_by_sorted_id by (by apply key_ordered_sorted).
Qed.

Lemma deepest_none level ls : Forall (fun files => legacy_overlap.overlaps files = false) ls ->
  legacy_overlap.deepest_from level ls = None.
Proof.
  intros H. revert level. induction H as [|files ls Hf H IH]; intros level; [done|]. cbn. by rewrite IH, Hf.
Qed.

Lemma nodup_levels (ls : list (list SsTableMeta)) :
  (forall i files, ls !! i = Some files -> NoDup (map file_id files)) ->
  (forall i j fi fj m m', ls !! i = Some fi -> ls !! j = Some fj -> m ∈ fi -> m' ∈ fj ->
     file_id m = file_id m' -> i = j) ->
  NoDup (map file_id (List.concat ls)).
Proof.
  induction ls as [|files ls IH]; intros Hn Ho; [constructor|]. cbn [List.concat]. rewrite map_app.
  apply list.NoDup_app. split_and!; [by apply (Hn 0%nat)| |].
  - intros id (m & E & Hm)%list_elem_of_fmap (m' & E' & Hm')%list_elem_of_fmap.
    apply list_elem_of_In, in_concat in Hm' as (fj & Hj & Hm').
    apply list_elem_of_In, list_elem_of_lookup in Hj as [j Hj]. apply list_elem_of_In in Hm'.
    discriminate (Ho 0%nat (S j) files fj m m' eq_refl Hj Hm Hm' ltac:(congruence)).
  - apply IH; [intros i f Hi; by apply (Hn (S i))|].
    intros i j fi fj m m' Hi Hj Hm Hm' E. specialize (Ho (S i) (S j) fi fj m m' Hi Hj Hm Hm' E). congruence.
Qed.

Section Opened.
Context {reader : Type} (open_table : SsTableMeta -> outcome reader).

(** A table opened from its metadata. *)
Definition opened (ceiling : Z) (f : LiveSst reader) : Prop :=
  open_table (meta f) = Ok (sst_reader f) /\ sequence_ceiling f = ceiling.

Lemma open_level_spec files ceiling cs n :
  NoDup (map file_id files) -> (forall m, m ∈ files -> exists r, open_table (joined cs m) = Ok r) ->
  exists fs cs', open_level open_table files ceiling cs n = Ok (fs, cs', n + missing (map (joined cs) files)) /\
    map meta fs = map (joined cs) files /\ Forall (opened ceiling) fs /\
    forall id, ~ id ∈ map file_id files -> cs' !! id = cs !! id.
Proof.
  revert cs n. induction files as [|m files IH]; intros cs n Hnd Ho.
  - exists [], cs. cbn. rewrite Z.add_0_r. done.
  - cbn [map] in Hnd. apply list.NoDup_cons in Hnd as [Hni Hnd]. cbn [open_level]. rewrite joined_id.
    destruct (Ho m ltac:(by left)) as [r Hr]. rewrite Hr. run.
    assert (Hj : map (joined (delete (file_id m) cs)) files = map (joined cs) files).
    { apply joined_ext. intros m' Hm'. rewrite lookup_delete_ne; [done|]. intros E. apply Hni.
      apply list_elem_of_fmap. eauto. }
    destruct (IH (delete (file_id m) cs) (n + match deletions (joined cs m) with None => 1 | Some _ => 0 end))
      as (fs & cs' & -> & Hm & Hop & Hcs'); [done|..].
    { intros m' Hm'. destruct (Ho m' ltac:(by right)) as [r' Hr']. exists r'. rewrite <- Hr'. f_equal.
      unfold joined, believed. rewrite lookup_delete_ne; [done|]. intros E. apply Hni. apply list_elem_of_fmap. eauto. }
    run. rewrite Hj in *. eexists (_ :: fs), cs'. split; [|split_and!].
    + cbn [map]. change (joined cs m :: ?l) with ([joined cs m] ++ l).
      by rewrite missing_app, missing_single, Z.add_assoc.
    + cbn [map meta]. by rewrite Hm.
    + by constructor.
    + intros id Hid. apply not_elem_of_cons in Hid as [Hne Hid]. rewrite (Hcs' id Hid). apply lookup_delete_ne. congruence.
Qed.

Lemma open_levels_spec ls ceiling cs n :
  NoDup (map file_id (List.concat ls)) ->
  (forall m, m ∈ List.concat ls -> exists r, open_table (joined cs m) = Ok r) ->
  exists fss, open_levels open_table ls ceiling cs n =
      Ok (fss, n + missing (List.concat (map (map (joined cs)) ls))) /\
    map (map meta) fss = map (map (joined cs)) ls /\ Forall (Forall (opened ceiling)) fss.
Proof.
  revert cs n. induction ls as [|files ls IH]; intros cs n Hnd Ho.
  - exists []. cbn. rewrite Z.add_0_r. done.
  - cbn [List.concat map] in *. rewrite map_app in Hnd. apply list.NoDup_app in Hnd as (Hn1 & Hdis & Hn2).
    cbn [open_levels].
    destruct (open_level_spec files ceiling cs n Hn1) as (fs & cs' & -> & Hm & Hop & Hcs').
    { intros m Hm. apply Ho, elem_of_app. by left. }
    run.
    assert (Hsame : forall m, m ∈ List.concat ls -> cs' !! file_id m = cs !! file_id m).
    { intros m Hm'. apply Hcs'. intros Hin. apply (Hdis _ Hin), list_elem_of_fmap. eauto. }
    assert (Hj : map (map (joined cs')) ls = map (map (joined cs)) ls).
    { apply map_ext_in. intros l Hl. apply joined_ext. intros m Hm'. apply Hsame.
      apply list_elem_of_In, in_concat. exists l. split; [done|by apply list_elem_of_In]. }
    destruct (IH cs' (n + missing (map (joined cs) files)) Hn2) as (fss & -> & Hms & Hops).
    { intros m Hm'. destruct (Ho m) as [r Hr]; [apply elem_of_app; by right|]. exists r. rewrite <- Hr. f_equal.
      unfold joined, believed. by rewrite Hsame. }
    run. exists (fs :: fss). rewrite Hj in *. split_and!.
    + rewrite missing_app. do 2 f_equal. lia.
    + cbn [map]. by rewrite Hm, Hms.
    + by constructor.
Qed.

Lemma sort_levels_lookup ls i : sort_levels ls !! i = arranged i <$> ls !! i.
Proof.
  unfold sort_levels. destruct ls as [|files ls]; [by destruct i|]. destruct i as [|i]; [done|]. cbn.
  apply list_lookup_fmap.
Qed.

Lemma sort_levels_concat ls : Permutation (List.concat (sort_levels ls)) (List.concat ls).
Proof.
  unfold sort_levels. destruct ls as [|files ls]; [done|]. cbn. apply Permutation_app_head.
  induction ls as [|f ls IH]; [done|]. cbn. by rewrite IH, sort_by_perm.
Qed.

Lemma find_overlap_metas (v v' : Version reader) : metas v' = metas v -> find_overlap v' = find_overlap v.
Proof.
  unfold metas, find_overlap. intros E.
  assert (E' : map (map meta) (drop 1 (levels v')) = map (map meta) (drop 1 (levels v))).
  { rewrite <- !skipn_map. by rewrite E. }
  clear E. revert E'. generalize (drop 1 (levels v')) (drop 1 (levels v)) 1.
  induction l as [|a l IH]; intros [|b k] n E; try discriminate; [done|]. cbn in *. injection E as E1 E2.
  unfold find_level_overlap. rewrite E1. destruct (find _ _) as [[x y]|]; [done|]. by apply IH.
Qed.

Lemma no_overlap_levels (v : Version reader) i fs : levels_are_sorted_runs v = true ->
  levels v !! S i = Some fs -> existsb pair_overlaps (pairs (map meta fs)) = false.
Proof.
  unfold levels_are_sorted_runs, find_overlap. destruct (levels v) as [|l0 ls]; [done|]. cbn.
  rewrite drop_0. generalize 1. revert i. induction ls as [|l ls IH]; intros i n; [done|]. cbn [find_overlap_from].
  unfold find_level_overlap. destruct (find _ _) as [[x y]|] eqn:E; [done|]. intros H.
  destruct i as [|i]; [intros [= ->]; by rewrite existsb_find, E|]. by apply (IH i (n + 1)).
Qed.

(** The version a reopen gives: the same tables in the same order with the same
    counts and numbers, each opened afresh. *)
Record reopened (v v' : Version reader) : Prop := {
  ro_metas : metas v' = metas v;
  ro_next : next_file_id v' = next_file_id v;
  ro_seq : last_seq v' = last_seq v;
  ro_wal : min_wal_id v' = min_wal_id v;
  ro_uncounted : uncounted v' = uncounted v;
  ro_opened : Forall (Forall (opened (last_seq v))) (levels v');
}.

Lemma prepare_sound st (v : Version reader) : replay_inv st v -> levels_are_sorted_runs v = true ->
  legacy_overlap.prepare (surviving st) = Ok (legacy_overlap.repair_default, surviving st).
Proof.
  intros I Hr. unfold legacy_overlap.prepare. rewrite deepest_none; [done|].
  apply Forall_lookup. intros i files Hi. rewrite lookup_drop in Hi.
  destruct (lookup_lt_is_Some_2 (levels v) (1 + i)) as [fs Hv].
  { rewrite (ri_vlen _ _ I), <- (ri_len _ _ I). by apply lookup_lt_Some in Hi. }
  rewrite overlaps_eq. pose proof (no_overlap_levels v i fs Hr Hv) as Hno.
  rewrite (ri_levels _ _ I _ _ _ Hi Hv) in Hno. change (arranged (1 + i) ?x) with (sort_by smallest_cmp x) in Hno.
  rewrite <- (map_sort_by smallest_cmp (joined (counts st))) in Hno by done. by rewrite joined_pairs in Hno.
Qed.

Lemma finish_follows st v : replay_inv st v -> levels_are_sorted_runs v = true ->
  (forall m, m ∈ List.concat (metas v) -> exists r, open_table m = Ok r) ->
  exists v', replay_finish open_table st = Ok (v', legacy_overlap.repair_default) /\ reopened v v'.
Proof.
  intros I Hr Ho. unfold replay_finish. rewrite (prepare_sound st v I Hr). run.
  assert (Hm : map (map (joined (counts st))) (sort_levels (surviving st)) = metas v).
  { apply list_eq. intros i. unfold metas. rewrite !list_lookup_fmap, sort_levels_lookup.
    destruct (surviving st !! i) as [files|] eqn:Hs.
    - destruct (lookup_lt_is_Some_2 (levels v) i) as [fs Hv].
      { rewrite (ri_vlen _ _ I), <- (ri_len _ _ I). by apply lookup_lt_Some in Hs. }
      rewrite Hv. cbn. f_equal. rewrite (ri_levels _ _ I _ _ _ Hs Hv). by apply arranged_map.
    - apply lookup_ge_None in Hs. rewrite (ri_len _ _ I), <- (ri_vlen _ _ I) in Hs.
      by rewrite (proj2 (lookup_ge_None _ _) Hs). }
  destruct (open_levels_spec (sort_levels (surviving st)) (r_last_seq st) (counts st) 0) as (fss & -> & Hms & Hop).
  - rewrite sort_levels_concat. apply nodup_levels; [apply I|apply I].
  - intros m Hin. apply Ho. rewrite <- Hm. rewrite <- concat_map. apply list_elem_of_fmap. eauto.
  - run. rewrite Hm in *.
    set (v' := mkVersion fss (r_next_file_id st) (r_last_seq st) (r_min_wal_id st) (0 + missing (List.concat (metas v)))).
    assert (Hf : find_overlap v' = None).
    { rewrite (find_overlap_metas v v') by done. unfold levels_are_sorted_runs in Hr. by destruct (find_overlap v). }
    rewrite Hf. exists v'. split; [done|]. destruct I. split; cbn; try done. by rewrite <- ri_seq0.
Qed.

End Opened.

(** ** Searching a sorted run *)

(** A predicate that holds up to an index and fails from it on splits the list. *)
Lemma filter_split {B} (p : B -> bool) l r : 0 <= r <= len l ->
  (forall i x, getz l i = Some x -> i < r -> p x = true) ->
  (forall i x, getz l i = Some x -> r <= i -> p x = false) ->
  List.filter p l = takez r l /\ List.filter (fun x => negb (p x)) l = dropz r l.
Proof.
  revert r. induction l as [|y l IH]; intros r Hr Hlo Hhi.
  - unfold takez, dropz. by destruct (Z.to_nat r).
  - assert (Hg : forall i z, 0 <= i -> getz l i = Some z -> getz (y :: l) (i + 1) = Some z).
    { intros i z Hi. unfold getz. destruct (Z.leb_spec 0 i), (Z.leb_spec 0 (i + 1)); try lia.
      replace (Z.to_nat (i + 1)) with (S (Z.to_nat i)) by lia. done. }
    cbn [List.filter]. destruct (Z.eq_dec r 0) as [->|Hne].
    + rewrite (Hhi 0 y eq_refl) by lia. destruct (IH 0) as [E1 E2]; [pose proof (len_nonneg l); lia| | |].
      { intros i x Hx Hi. pose proof (getz_Some_lt _ _ _ Hx). lia. }
      { intros i x Hx Hi. apply (Hhi (i + 1)); [apply Hg; [lia|done]|lia]. }
      rewrite E1, E2. cbn. done.
    + rewrite (Hlo 0 y eq_refl) by lia. rewrite len_cons in Hr. destruct (IH (r - 1)) as [E1 E2]; [lia|..].
      { intros i x Hx Hi. pose proof (getz_Some_lt _ _ _ Hx). apply (Hlo (i + 1)); [apply Hg; [lia|done]|lia]. }
      { intros i x Hx Hi. apply (Hhi (i + 1)); [apply Hg; [lia|done]|lia]. }
      unfold takez, dropz in *. replace (Z.to_nat r) with (S (Z.to_nat (r - 1))) by lia. cbn.
      by rewrite E1, E2.
Qed.

Lemma partition_filter {B} (p : B -> bool) l :
  (forall i j x y, i < j -> getz l i = Some x -> getz l j = Some y -> p y = true -> p x = true) ->
  List.filter p l = takez (partition_point p l) l /\
  List.filter (fun x => negb (p x)) l = dropz (partition_point p l) l.
Proof. intros Hm. destruct (partition_point_spec p l Hm) as (Hr & Hlo & Hhi). by apply filter_split. Qed.

(** A table whose key range is not empty, and a run of them. *)
Definition range_ok (m : SsTableMeta) : Prop := bytes_le (smallest_key m) (largest_key m).
Definition sorted_run (files : list SsTableMeta) : Prop :=
  StronglySorted (fun a b => bytes_le (largest_key a) (smallest_key b)) files.

Lemma sorted_run_pairs files : Forall range_ok files -> existsb pair_overlaps (pairs files) = false -> sorted_run files.
Proof.
  unfold sorted_run. induction 1 as [|a files Ha Hf IH]; [constructor|]. destruct files as [|b files]; [repeat constructor|].
  cbn [pairs existsb]. intros [Hab Hr]%orb_false_elim. specialize (IH Hr). constructor; [done|].
  assert (Hle : bytes_le (largest_key a) (smallest_key b)).
  { apply bytes_not_lt. intros H. unfold pair_overlaps in Hab. cbn in Hab.
    by destruct (bytes_ltb_spec (smallest_key b) (largest_key a)). }
  constructor; [done|]. apply StronglySorted_inv in IH as [_ Hb]. apply Forall_cons_1 in Hf as [Hrb _].
  eapply Forall_impl; [|exact Hb]. cbn. intros c Hc. apply (bytes_le_trans _ (smallest_key b)); [done|].
  by apply (bytes_le_trans _ (largest_key b)).
Qed.

Lemma filter_filter {B} (p q : B -> bool) l :
  List.filter p (List.filter q l) = List.filter (fun x => q x && p x) l.
Proof. induction l as [|x l IH]; [done|]. cbn. destruct (q x); cbn; by rewrite IH. Qed.

Lemma sorted_filter {B} (R : B -> B -> Prop) p l : StronglySorted R l -> StronglySorted R (List.filter p l).
Proof.
  intros H. eapply sublist_sorted; [|exact H]. clear H. induction l as [|x l IH]; [done|]. cbn.
  destruct (p x); by constructor.
Qed.

Lemma overlapping_filter {reader} (files : list (LiveSst reader)) first last :
  Forall range_ok (map meta files) -> sorted_run (map meta files) ->
  overlapping files first last =
  List.filter (fun f => bytes_leb first (largest_key (meta f)) && bytes_leb (smallest_key (meta f)) last) files.
Proof.
  intros Hok Hs. unfold sorted_run in Hs. rewrite sorted_map in Hs. rewrite Forall_map_iff in Hok.
  rewrite List.Forall_forall in Hok. unfold overlapping.
  destruct (partition_filter (fun f => bytes_ltb (largest_key (meta f)) first) files) as [_ E1].
  { intros i j x y Hij Hx Hy Hp. pose proof (sorted_getz _ _ _ _ _ _ Hs Hx Hy Hij) as Hxy. cbn in Hxy.
    destruct (bytes_ltb_spec (largest_key (meta y)) first) as [Hlt|]; [|done].
    destruct (bytes_ltb_spec (largest_key (meta x)) first) as [|Hn]; [done|]. destruct Hn.
    apply (bytes_le_lt_trans _ (largest_key (meta y))); [|done].
    apply (bytes_le_trans _ (smallest_key (meta y))); [done|]. apply Hok. by apply getz_In in Hy. }
  rewrite <- E1. set (rest := List.filter _ files).
  destruct (partition_filter (fun f => bytes_leb (smallest_key (meta f)) last) rest) as [E2 _].
  { assert (Hsr : StronglySorted (fun x y => bytes_le (largest_key (meta x)) (smallest_key (meta y))) rest)
      by (by apply sorted_filter).
    intros i j x y Hij Hx Hy Hp. pose proof (sorted_getz _ _ _ _ _ _ Hsr Hx Hy Hij) as Hxy. cbn in Hxy.
    destruct (bytes_leb_spec (smallest_key (meta y)) last) as [Hle|]; [|done].
    destruct (bytes_leb_spec (smallest_key (meta x)) last) as [|Hn]; [done|]. destruct Hn.
    apply (bytes_le_trans _ (smallest_key (meta y))); [|done].
    apply (bytes_le_trans _ (largest_key (meta x))); [|done]. apply Hok.
    apply getz_In in Hx. by apply filter_In in Hx as [Hx _]. }
  rewrite <- E2. subst rest. rewrite filter_filter. apply filter_ext. intros f. f_equal.
  destruct (bytes_ltb_spec (largest_key (meta f)) first) as [Hlt|Hn], (bytes_leb_spec first (largest_key (meta f))) as [Hle|Hn'];
    try done; cbn.
  - by apply bytes_not_le in Hlt.
  - by apply bytes_not_lt in Hn.
Qed.

(** ** The repair of overlapping levels *)

Section Repair.
Import legacy_overlap.

Definition level_removals (level : Z) (files : list SsTableMeta) : list ManifestRecord :=
  map (fun m => RemoveFile level (file_id m)) files.
Fixpoint removals (level : Z) (ls : list (list SsTableMeta)) : list ManifestRecord :=
  match ls with
  | [] => []
  | files :: ls => level_removals level files ++ removals (level + 1) ls
  end.

Lemma remove_files_spec level files seen records tables seen' records' tables' :
  remove_files level files seen records tables = Ok (seen', records', tables') ->
  records' = records ++ level_removals level files /\
  tables' = tables + (if 0 <? level then len files else 0).
Proof.
  revert seen records tables. induction files as [|m files IH]; intros seen records tables; cbn [remove_files].
  - intros [= _ <- <-]. rewrite app_nil_r. split; [done|]. change (len (@nil SsTableMeta)) with 0. destruct (_ <? _); lia.
  - destruct (_ && _); [done|]. intros [-> ->]%IH. cbn [level_removals map]. rewrite <- app_assoc, len_cons.
    split; [done|]. destruct (0 <? level); lia.
Qed.

Lemma remove_levels_spec level ls seen records tables records' tables' : 0 <= level ->
  remove_levels level ls seen records tables = Ok (records', tables') ->
  records' = records ++ removals level ls /\
  tables' = tables + (if level =? 0 then len (List.concat (drop 1 ls)) else len (List.concat ls)).
Proof.
  revert level seen records tables. induction ls as [|files ls IH]; intros level seen records tables Hl; cbn [remove_levels].
  - intros [= <- <-]. rewrite app_nil_r. split; [done|]. cbn. change (len (@nil SsTableMeta)) with 0. destruct (_ =? _); lia.
  - intros ([[s r] t] & Hf & Hr)%bind_Ok. apply remove_files_spec in Hf as [-> ->].
    apply IH in Hr as [-> ->]; [|lia]. cbn [removals]. rewrite <- app_assoc. split; [done|].
    destruct (Z.eqb_spec (level + 1) 0); [lia|]. destruct (Z.eqb_spec level 0), (Z.ltb_spec 0 level); try lia.
    + cbn [drop]. rewrite drop_0. lia.
    + cbn [List.concat]. rewrite len_app. lia.
Qed.

Definition not_among (dropped : list SsTableMeta) (m : SsTableMeta) : bool :=
  negb (bool_decide (file_id m ∈ map file_id dropped)).

Lemma not_among_cons d dropped m : not_among (d :: dropped) m = negb (file_id m =? file_id d) && not_among dropped m.
Proof.
  unfold not_among. cbn [map]. destruct (Z.eqb_spec (file_id m) (file_id d)) as [->|Hne]; cbn.
  - by rewrite bool_decide_eq_true_2 by (by left).
  - f_equal. apply bool_decide_ext. rewrite elem_of_cons. tauto.
Qed.

(** Removals drop the tables they name from their level, and their counts. *)
Lemma replay_removals level pre post dropped kept st :
  len pre = level -> surviving st = pre ++ kept :: post ->
  exists cs, fold_left replay_record (level_removals level dropped) st =
    mkReplaying (pre ++ List.filter (not_among dropped) kept :: post) cs (r_last_seq st) (r_next_file_id st)
      (r_min_wal_id st) (r_checked st) /\
    forall id, cs !! id = if bool_decide (id ∈ map file_id dropped) then None else counts st !! id.
Proof.
  intros Hl. revert kept st. induction dropped as [|d dropped IH]; intros kept st Hs.
  - exists (counts st). cbn. split; [|done].
    assert (List.filter (not_among []) kept = kept) as ->; [|rewrite <- Hs; by destruct st].
    clear. induction kept as [|k kept IH]; [done|]. cbn. by rewrite IH.
  - cbn [level_removals map fold_left replay_record]. set (p := fun m => negb (file_id m =? file_id d)).
    destruct (IH (List.filter p kept) (mkReplaying (at_level (List.filter p) level (surviving st))
      (delete (file_id d) (counts st)) (r_last_seq st) (r_next_file_id st) (r_min_wal_id st) (r_checked st)))
      as (cs & Hf & Hcs).
    { cbn. unfold at_level. rewrite Hs, alter_app_r_alt by (unfold len in Hl; lia).
      replace (Z.to_nat level - length pre)%nat with 0%nat by (unfold len in Hl; lia). done. }
    unfold level_removals in Hf. rewrite Hf. exists cs. cbn. split.
    + rewrite filter_filter. do 3 f_equal. apply filter_ext. intros m. symmetry. apply not_among_cons.
    + intros id. rewrite Hcs. cbn. destruct (decide (id = file_id d)) as [->|Hne].
      * rewrite lookup_delete_eq, (bool_decide_eq_true_2 (_ ∈ _ :: _)) by (by left). by destruct (bool_decide _).
      * rewrite lookup_delete_ne by done.
        rewrite (bool_decide_ext (id ∈ file_id d :: map file_id dropped) (id ∈ map file_id dropped)); [done|].
        rewrite elem_of_cons. tauto.
Qed.

Lemma not_among_all files l : (forall m, m ∈ l -> m ∈ files) -> List.filter (not_among files) l = [].
Proof.
  induction l as [|m l IH]; intros Hin; [done|]. cbn. unfold not_among at 1. rewrite bool_decide_eq_true_2.
  - apply IH. intros m' Hm'. apply Hin. by right.
  - apply list_elem_of_fmap. exists m. split; [done|]. apply Hin. by left.
Qed.

(** Removing every table the levels list empties them. *)
Lemma replay_all_removals level pre ls post st : len pre = level -> surviving st = pre ++ ls ++ post ->
  exists cs, fold_left replay_record (removals level ls) st =
    mkReplaying (pre ++ map (fun _ => []) ls ++ post) cs (r_last_seq st) (r_next_file_id st) (r_min_wal_id st)
      (r_checked st) /\
    forall id, cs !! id = if bool_decide (id ∈ map file_id (List.concat ls)) then None else counts st !! id.
Proof.
  revert level pre st. induction ls as [|files ls IH]; intros level pre st Hl Hs.
  - exists (counts st). cbn in *. rewrite <- Hs. split; [by destruct st|done].
  - cbn [removals]. rewrite fold_left_app.
    destruct (replay_removals level pre (ls ++ post) files files st Hl Hs) as (cs & -> & Hcs).
    rewrite (not_among_all files files) by done.
    destruct (IH (level + 1) (pre ++ [[]]) (mkReplaying (pre ++ [] :: ls ++ post) cs (r_last_seq st)
      (r_next_file_id st) (r_min_wal_id st) (r_checked st))) as (cs' & -> & Hcs').
    { rewrite len_app. change (len [_]) with 1. lia. }
    { cbn. by rewrite <- app_assoc. }
    exists cs'. cbn. rewrite <- app_assoc. split; [done|]. intros id. rewrite Hcs'. cbn. rewrite Hcs, map_app.
    rewrite (bool_decide_ext (id ∈ map file_id files ++ map file_id (List.concat ls))
      (id ∈ map file_id files \/ id ∈ map file_id (List.concat ls))) by apply elem_of_app.
    by destruct (bool_decide_reflect (id ∈ map file_id files)), (bool_decide_reflect (id ∈ map file_id (List.concat ls))),
      (bool_decide_reflect (id ∈ map file_id files \/ id ∈ map file_id (List.concat ls))); naive_solver.
Qed.

Lemma deepest_spec level ls :
  match deepest_from level ls with
  | None => Forall (fun files => overlaps files = false) ls
  | Some d => level <= d < level + len ls /\
      Forall (fun files => overlaps files = false) (drop (Z.to_nat (d - level + 1)) ls)
  end.
Proof.
  revert level. induction ls as [|files ls IH]; intros level; cbn [deepest_from]; [constructor|].
  specialize (IH (level + 1)). rewrite len_cons. pose proof (len_nonneg ls).
  destruct (deepest_from (level + 1) ls) as [d|].
  - destruct IH as [Hd Hf]. split; [lia|].
    replace (Z.to_nat (d - level + 1)) with (S (Z.to_nat (d - (level + 1) + 1))) by lia. done.
  - destruct (overlaps files) eqn:E; [|by constructor].
    split; [lia|]. by replace (Z.to_nat (level - level + 1)) with 1%nat by lia.
Qed.

Lemma replay_adds l st f0 rest : surviving st = f0 :: rest ->
  fold_left replay_record (map (AddFile 0) l) st =
  mkReplaying ((f0 ++ l) :: rest) (counts st) (r_last_seq st) (r_next_file_id st) (r_min_wal_id st) (r_checked st).
Proof.
  revert st f0. induction l as [|m l IH]; intros st f0 Hs; cbn [map fold_left].
  - rewrite app_nil_r, <- Hs. by destruct st.
  - rewrite (IH _ (f0 ++ [m])); [by rewrite <- app_assoc|]. cbn. by rewrite Hs.
Qed.

(** Oldest first: deeper levels are older than shallower ones, and L0 is in age
    order. *)
Definition by_age (ls : list (list SsTableMeta)) : list SsTableMeta :=
  List.concat (rev (drop 1 ls)) ++ level_files ls 0.

Lemma level_files_0 {B} (l0 : list B) ls : level_files (l0 :: ls) 0 = l0.
Proof. done. Qed.

Lemma concat_empty {B C} (ls : list (list C)) : List.concat (rev (map (fun _ => @nil B) ls)) = [].
Proof. induction ls as [|l ls IH]; [done|]. cbn. by rewrite concat_app, IH. Qed.

(** What a repair that moves tables leaves behind. *)
Lemma prepare_moves l0 rest r ls' deepest :
  deepest_from 1 rest = Some deepest -> prepare (l0 :: rest) = Ok (r, ls') ->
  let moved := List.concat (rev (takez deepest rest)) in
  0 < deepest <= len rest /\
  Forall (fun files => overlaps files = false) (dropz deepest rest) /\
  ls' = (moved ++ l0) :: map (fun _ => []) (takez deepest rest) ++ dropz deepest rest /\
  records r = removals 0 (l0 :: takez deepest rest) ++ map (AddFile 0) (moved ++ l0) /\
  tables r = len moved.
Proof.
  intros Hd. pose proof (deepest_spec 1 rest) as Hsp. rewrite Hd in Hsp. destruct Hsp as [Hr Hf].
  unfold prepare. cbn [drop]. rewrite drop_0, Hd.
  intros ([recs tabs] & Hrem & E)%bind_Ok. apply Ok_inj in E. injection E as <- <-. cbn [records tables].
  replace (takez (deepest + 1) (l0 :: rest)) with (l0 :: takez deepest rest) in Hrem.
  2:{ unfold takez. by replace (Z.to_nat (deepest + 1)) with (S (Z.to_nat deepest)) by lia. }
  apply remove_levels_spec in Hrem as [-> ->]; [|lia]. cbn [drop app Z.eqb]. rewrite drop_0.
  split_and!; try done; [lia..| |].
  - unfold dropz. by replace (Z.to_nat deepest) with (Z.to_nat (deepest - 1 + 1)) by lia.
  - rewrite Z.add_0_l. unfold len. f_equal. apply Permutation_length.
    rewrite <- (rev_involutive (takez deepest rest)) at 1. generalize (rev (takez deepest rest)).
    induction l as [|x l IH]; [done|]. cbn. rewrite concat_app, IH. cbn. rewrite app_nil_r. apply Permutation_app_comm.
Qed.

Lemma moved_perm l0 (ls : list (list SsTableMeta)) :
  Permutation (List.concat (rev ls) ++ l0) (List.concat (l0 :: ls)).
Proof.
  cbn [List.concat]. rewrite Permutation_app_comm. apply Permutation_app_head.
  induction ls as [|x l IH]; [done|]. cbn. rewrite concat_app, IH. cbn. rewrite app_nil_r. apply Permutation_app_comm.
Qed.

Lemma removals_logged level ls : map as_logged (removals level ls) = removals level ls.
Proof.
  revert level. induction ls as [|f l IH]; intros level; [done|]. cbn. rewrite map_app, IH. f_equal.
  unfold level_removals. by rewrite map_map.
Qed.

Lemma adds_logged l : Forall (fun m => deletions m = None) l -> map as_logged (map (AddFile 0) l) = map (AddFile 0) l.
Proof.
  intros H. rewrite map_map. apply map_ext_in. intros m Hm. rewrite List.Forall_forall in H.
  specialize (H m Hm). cbn. f_equal. destruct m; cbn in *. by subst.
Qed.

(** Replaying the records of a repair moves the tables in the log, and forgets
    the counts of every table it lists again. *)
Lemma repair_replays st l0 rest r ls' deepest :
  surviving st = l0 :: rest -> Forall (fun m => deletions m = None) (List.concat (l0 :: rest)) ->
  deepest_from 1 rest = Some deepest -> prepare (l0 :: rest) = Ok (r, ls') ->
  exists cs, fold_left replay_record (map as_logged (records r)) st =
    mkReplaying ls' cs (r_last_seq st) (r_next_file_id st) (r_min_wal_id st) (r_checked st) /\
    (records r <> [] -> forall m, m ∈ level_files ls' 0 -> cs !! file_id m = None).
Proof.
  intros Hs Hnone Hd Hp. destruct (prepare_moves l0 rest r ls' deepest Hd Hp) as (Hr & Hf & Hls & Hrec & _).
  pose proof (moved_perm l0 (takez deepest rest)) as Hperm. set (moved := List.concat (rev (takez deepest rest))) in *.
  destruct (replay_all_removals 0 [] (l0 :: takez deepest rest) (dropz deepest rest) st eq_refl) as (cs & Hrem & Hcs).
  { rewrite Hs. cbn. by rewrite takez_dropz. }
  exists cs. split.
  - rewrite Hrec, map_app, removals_logged, adds_logged, fold_left_app, Hrem.
    + rewrite (replay_adds _ _ [] (map (fun _ => []) (takez deepest rest) ++ dropz deepest rest)) by done.
      cbn. by rewrite Hls.
    + rewrite Hperm. cbn [List.concat] in *. rewrite <- (takez_dropz deepest rest), concat_app in Hnone.
      rewrite !Forall_app in *. tauto.
  - intros _ m Hm. rewrite Hls in Hm. change (m ∈ moved ++ l0) in Hm. rewrite Hperm in Hm. rewrite Hcs, bool_decide_eq_true_2; [done|].
    apply list_elem_of_fmap. eauto.
Qed.

End Repair.

(** ** Properties *)

(** C24: The log replays to the version its edits were applied to. From a new
    database, after any edits the engine may apply that leave every level below
    L0 a sorted run, replaying the records those edits were logged as, with
    their tables' counts carried in records of their own, gives a version with
    the same tables at every level in the same order with the same counts, the
    same numbers, and every table opened afresh; nothing is repaired. *)
Theorem replay_restores_version {reader} (open_table : SsTableMeta -> outcome reader)
    (es : list (VersionEdit reader)) :
  edits_ok version_new es ->
  let v := fold_left apply_edit es version_new in
  levels_are_sorted_runs v = true ->
  (forall m, m ∈ List.concat (metas v) -> exists r, open_table m = Ok r) ->
  exists v', replay_finish open_table
      (fold_left replay_record (map as_logged (edits_records es [])) replay_start) =
      Ok (v', legacy_overlap.repair_default) /\ reopened open_table v v'.
Proof.
  intros Ho v Hr Hop. apply finish_follows; [|done|done]. rewrite replay_edits_records.
  apply edits_follow; [apply empty_inv|done].
Qed.

(** A level below L0 is searched exactly. When its tables are a sorted run,
    which is what [find_overlap] checks, the slice two binary searches give is
    every table whose key range meets the query's and no other, in order. *)
Theorem overlapping_exact {reader} (v : Version reader) level fs first last :
  levels_are_sorted_runs v = true -> levels v !! S level = Some fs -> Forall range_ok (map meta fs) ->
  overlapping fs first last =
    List.filter (fun f => bytes_leb first (largest_key (meta f)) && bytes_leb (smallest_key (meta f)) last) fs /\
  covering fs first =
    List.filter (fun f => bytes_leb first (largest_key (meta f)) && bytes_leb (smallest_key (meta f)) first) fs.
Proof.
  intros Hr Hl Hok. assert (Hs : sorted_run (map meta fs)).
  { apply sorted_run_pairs; [done|]. by apply (no_overlap_levels v level). }
  split; by apply overlapping_filter.
Qed.

(** C26: The repair of a manifest an earlier release left overlapping. When it
    returns, every level below L0 is a sorted run, no table is lost and the order
    of ages is the one before; replaying the records it logs moves the tables in
    the log too; and the counts of the tables it lists are forgotten there, to be
    counted again. *)
Theorem overlapping_levels_repaired st l0 rest r ls' :
  surviving st = l0 :: rest ->
  Forall (fun m => deletions m = None) (List.concat (l0 :: rest)) ->
  legacy_overlap.prepare (surviving st) = Ok (r, ls') ->
  let st' := fold_left replay_record (map as_logged (legacy_overlap.records r)) st in
  (forall i files, ls' !! S i = Some files -> legacy_overlap.overlaps files = false) /\
  by_age ls' = by_age (l0 :: rest) /\
  surviving st' = ls' /\
  (legacy_overlap.records r <> [] -> forall m, m ∈ level_files ls' 0 -> counts st' !! file_id m = None).
Proof.
  intros Hs Hnone Hp st'. rewrite Hs in Hp.
  destruct (legacy_overlap.deepest_from 1 rest) as [deepest|] eqn:Hd.
  - destruct (repair_replays st l0 rest r ls' deepest Hs Hnone Hd Hp) as (cs & Hst' & Hcs).
    destruct (prepare_moves l0 rest r ls' deepest Hd Hp) as (Hr & Hf & -> & _).
    subst st'. rewrite Hst'. cbn [surviving counts]. split_and!; [|..|done|done].
    + intros i files Hi. cbn in Hi. apply lookup_app_Some in Hi as [Hi|[_ Hi]].
      * rewrite list_lookup_fmap in Hi. destruct (_ !! i); [|done]. by injection Hi as <-.
      * by apply (Forall_lookup_1 _ _ _ _ Hf Hi).
    + unfold by_age. rewrite !level_files_0. cbn [drop]. rewrite !drop_0, rev_app_distr, concat_app, concat_empty, app_nil_r.
      rewrite app_assoc. f_equal. by rewrite <- concat_app, <- rev_app_distr, takez_dropz.
  - unfold legacy_overlap.prepare in Hp. cbn [drop] in Hp. rewrite drop_0, Hd in Hp. apply Ok_inj in Hp. injection Hp as <- <-.
    cbn in st'. subst st'. split_and!; try done. intros i files Hi.
    pose proof (deepest_spec 1 rest) as Hsp. rewrite Hd in Hsp. by apply (Forall_lookup_1 _ _ _ _ Hsp Hi).
Qed.

(** ** Witnesses *)

Definition sample_meta (id : Z) (lo hi : bytes) (d : option Deletions) : SsTableMeta :=
  mkMeta id lo hi 100 3 None d.
Definition sample_live (id : Z) (lo hi : bytes) (d : option Deletions) : LiveSst Z :=
  mkLive 9 (sample_meta id lo hi d) id.
Definition sample_open (m : SsTableMeta) : outcome Z := Ok (file_id m).

(** A flush, a compaction of it with counts, and a count. *)
Definition sample_edits : list (VersionEdit Z) :=
  [EditAddFile 0 (sample_live 4 (str "a") (str "c") None); EditSetLastSeq 9; EditRemoveFile 0 4;
   EditAddFile 1 (sample_live 6 (str "m") (str "p") None);
   EditAddFile 1 (sample_live 5 (str "a") (str "c") (Some sample_deletions));
   EditCountFile 1 6 sample_deletions; EditSetNextFileId 7].

Ltac no_live :=
  let i := fresh in
  intros i; intros (? & ? & Hl & Hin & Hid); repeat (destruct i as [|i]; [injection Hl as <-|]); try done;
  repeat (apply elem_of_cons in Hin as [->|Hin]; [cbn in *; try discriminate; try done|]); try (by apply not_elem_of_nil in Hin).

Lemma sample_edits_ok : edits_ok version_new sample_edits.
Proof.
  unfold sample_edits.
  repeat match goal with |- edits_ok _ (_ :: _) => constructor | |- edits_ok _ [] => constructor end; cbn;
    try done; split_and?; try (unfold level_ok, MAX_LEVELS; lia); try done; try no_live.
  - eexists _, (sample_live 6 (str "m") (str "p") None). split; [reflexivity|]. split; [right; left|done].
  - intros fs f [= <-] Hf Hid. repeat (apply elem_of_cons in Hf as [->|Hf]; [done|]). by apply not_elem_of_nil in Hf.
Qed.

Lemma replay_restores_version_witness :
  exists v', replay_finish sample_open
      (fold_left replay_record (map as_logged (edits_records sample_edits [])) replay_start) =
      Ok (v', legacy_overlap.repair_default) /\
    reopened sample_open (fold_left apply_edit sample_edits version_new) v'.
Proof.
  apply (replay_restores_version sample_open sample_edits sample_edits_ok).
  - vm_compute. reflexivity.
  - intros m _. exists (file_id m). reflexivity.
Defined.

Definition sample_version : Version Z :=
  mkVersion ([] :: [sample_live 5 (str "a") (str "c") None; sample_live 6 (str "c") (str "f") None;
    sample_live 7 (str "m") (str "p") None] :: []) 8 9 0 3.

Lemma overlapping_exact_witness :
  overlapping [sample_live 5 (str "a") (str "c") None; sample_live 6 (str "c") (str "f") None;
    sample_live 7 (str "m") (str "p") None] (str "c") (str "d") =
  [sample_live 5 (str "a") (str "c") None; sample_live 6 (str "c") (str "f") None].
Proof.
  refine (eq_trans (proj1 (overlapping_exact sample_version 0 _ (str "c") (str "d") _ eq_refl _)) _).
  - vm_compute. reflexivity.
  - repeat constructor; vm_compute; congruence.
  - vm_compute. reflexivity.
Defined.

Definition sample_overlapping : list (list SsTableMeta) :=
  [[sample_meta 9 (str "a") (str "b") None];
   [sample_meta 5 (str "a") (str "m") None; sample_meta 6 (str "c") (str "f") None];
   [sample_meta 7 (str "a") (str "p") None]].
Definition sample_replaying : Replaying := mkReplaying sample_overlapping ∅ 9 10 0 false.

Lemma overlapping_levels_repaired_witness :
  exists r ls', legacy_overlap.prepare sample_overlapping = Ok (r, ls') /\
    by_age ls' = by_age sample_overlapping /\
    surviving (fold_left replay_record (map as_logged (legacy_overlap.records r)) sample_replaying) = ls'.
Proof.
  destruct (legacy_overlap.prepare sample_overlapping) as [[r ls']| | |] eqn:E;
    [|vm_compute in E; discriminate E..]. exists r, ls'. split; [reflexivity|].
  destruct (overlapping_levels_repaired sample_replaying _ _ r ls' eq_refl ltac:(repeat constructor) E)
    as (_ & H1 & H2 & _). split; [exact H1|exact H2].
Defined.
