(* ===== verification/ReadPath.v ===== *)
(** * Point reads

    Models the read of one key: the walk over a view's sources of
    [src/src/engine/source_walk.rs], the scans of one source of
    [memtable/key_walk.rs] and [sstable/key_walk.rs], and the point reads of
    [src/src/engine/mod.rs] with and without a merge operator. A source is its
    entries in internal key order, decoded, and its range tombstones; that the
    encoded keys sort so, that a block is scanned in that order, and that a
    table's tombstone search finds the newest covering one is shown in
    InternalKey.v, Block.v and RangeTombstone.v. An ingested table's own sequence
    and the length-only reads are left out.

    Shown here: when every source holds newer writes of a key than the ones
    after it, the walk reads what the whole set of writes says: the newest
    visible value no range tombstone hides, with the operands above it merged. *)

From stdpp Require Import sets sorting.
From S2P Require Import Prelude Order InternalKey RangeTombstone TombstoneLog Manifest Version.

(** ** Entries and sources *)

Record Entry := mkEntry { e_key : bytes; e_seq : Z; e_type : byte; e_value : bytes }.

(** A memtable with its log of range tombstones, or a table with its list. *)
Inductive Source :=
| Memtable (entries : list Entry) (log : TombstoneLog)
| Table (entries : list Entry) (range_tombstones : list RangeTombstone).
Definition s_entries (s : Source) : list Entry := match s with Memtable es _ | Table es _ => es end.
Definition s_tombstones (s : Source) : list RangeTombstone :=
  match s with Memtable _ log => ready log | Table _ ts => ts end.

(** [KeyVersion]: sequence, value type and value. *)
Record KeyVersion := mkKV { kv_seq : Z; kv_type : byte; kv_value : bytes }.
Definition version_of (e : Entry) : KeyVersion := mkKV (e_seq e) (e_type e) (e_value e).

Definition is_merge (t : byte) : bool := Byte.eqb t VALUE_TYPE_MERGE.

(** The operator of the caller, and the key it is handed. *)
Class MergeOperator := {
  op_full_merge : bytes -> option bytes -> list bytes -> option bytes;
  op_partial_merge : bytes -> bytes -> bytes -> option bytes;
}.

Definition CF_PREFIX_LEN : Z := 4.
Definition callers_key (prefixed : bytes) : bytes :=
  match slice prefixed CF_PREFIX_LEN (len prefixed) with Some k => k | None => prefixed end.

Section Operator.
Context `{M : MergeOperator}.

Definition full_merge (prefixed : bytes) (base : option bytes) (operands : list bytes) : option bytes :=
  op_full_merge (callers_key prefixed) base operands.
Definition partial_merge (prefixed left right : bytes) : option bytes :=
  op_partial_merge (callers_key prefixed) left right.
Definition apply_merge (prefixed : bytes) (base : option bytes) (operands : list bytes) : outcome bytes :=
  ok_or (full_merge prefixed base operands) (mkError InvalidData "merge operator failed for key" []).

End Operator.

(** ** One source *)

Fixpoint drop_while {B} (p : B -> bool) (l : list B) : list B :=
  match l with [] => [] | x :: l' => if p x then drop_while p l' else l end.
Fixpoint take_while {B} (p : B -> bool) (l : list B) : list B :=
  match l with [] => [] | x :: l' => if p x then x :: take_while p l' else [] end.

(** The entry sorts before the lookup key of [key] at [snap]. *)
Definition before_lookup (key : bytes) (snap : Z) (e : Entry) : bool :=
  match bytes_cmp (e_key e) key with Lt => true | Eq => snap <? e_seq e | Gt => false end.

(** [scan_key]: what it visits when no visit breaks. *)
Definition scan_key (s : Source) (key : bytes) (snap : Z) : list KeyVersion :=
  map version_of (take_while (fun e => bytes_eqb (e_key e) key) (drop_while (before_lookup key snap) (s_entries s))).

(** [MemTable::get] and [SsTableReader::get]: the newest visible entry. *)
Definition source_get (s : Source) (key : bytes) (snap : Z) : option (Z * option bytes) :=
  match scan_key s key snap with
  | [] => None
  | v :: _ => Some (kv_seq v, if Byte.eqb (kv_type v) VALUE_TYPE_DELETION then None else Some (kv_value v))
  end.

(** The versions through the first that is no operand, and whether there is one. *)
Fixpoint through_terminator (vs : list KeyVersion) : list KeyVersion * bool :=
  match vs with
  | [] => ([], false)
  | v :: vs =>
      if is_merge (kv_type v) then let '(rest, t) := through_terminator vs in (v :: rest, t) else ([v], true)
  end.

Definition collect_merge_chain (s : Source) (key : bytes) (snap : Z) (out : list KeyVersion)
  : list KeyVersion * bool :=
  let '(vs, t) := through_terminator (scan_key s key snap) in (out ++ vs, t).

(** The two searches never panic: see [covering_newest] below. *)
Definition found (o : outcome Z) : Z := match o with Ok q => q | _ => 0 end.
Definition covering_range_tombstone_seq (s : Source) (key : bytes) (snap : Z) : Z :=
  match s with
  | Memtable _ log => found (covering_seq log key snap)
  | Table _ ts => if (length ts =? 0)%nat then 0 else found (max_covering_seq (from_vec ts) key snap)
  end.

(** ** The walk *)

Record ReadView := mkView { v_active : Source; v_frozen : list Source; v_version : Version Source }.

Section Walk.
Context {St B : Type} (key : bytes) (snap : Z) (visit : St -> Source -> Z -> St * option B).

(** Sources visited each with its own tombstones counted. *)
Fixpoint walk_each (srcs : list Source) (st : St) (max_rt : Z) : St * (B + Z) :=
  match srcs with
  | [] => (st, inr max_rt)
  | s :: srcs =>
      let max_rt := Z.max max_rt (covering_range_tombstone_seq s key snap) in
      match visit st s max_rt with
      | (st, Some done) => (st, inl done)
      | (st, None) => walk_each srcs st max_rt
      end
  end.

(** The tables of one level's run, once their tombstones are gathered. *)
Fixpoint walk_run (srcs : list Source) (st : St) (max_rt : Z) : St * option B :=
  match srcs with
  | [] => (st, None)
  | s :: srcs =>
      match visit st s max_rt with
      | (st, Some done) => (st, Some done)
      | (st, None) => walk_run srcs st max_rt
      end
  end.

Fixpoint walk_levels (ls : list (list (LiveSst Source))) (st : St) (max_rt : Z) : St * (B + Z) :=
  match ls with
  | [] => (st, inr max_rt)
  | files :: ls =>
      let run := covering files key in
      let max_rt := fold_left (fun m f => Z.max m (covering_range_tombstone_seq (sst_reader f) key snap)) run max_rt in
      match walk_run (map sst_reader (List.filter (fun f => 0 <? num_entries (meta f)) run)) st max_rt with
      | (st, Some done) => (st, inl done)
      | (st, None) => walk_levels ls st max_rt
      end
  end.

Definition walk_newest_first (view : ReadView) (st : St) : St * (B + Z) :=
  match walk_each (v_active view :: rev (v_frozen view)) st 0 with
  | (st, inl done) => (st, inl done)
  | (st, inr max_rt) =>
      let ls := levels (v_version view) in
      match walk_each (map sst_reader (rev (level_files ls 0))) st max_rt with
      | (st, inl done) => (st, inl done)
      | (st, inr max_rt) => walk_levels (drop 1 ls) st max_rt
      end
  end.

End Walk.

(** ** Point reads *)

Definition lookup_in_view (key : bytes) (snap : Z) (view : ReadView) : option bytes :=
  match walk_newest_first key snap
          (fun (_ : unit) s max_rt =>
             ((), match source_get s key snap with
                  | Some (q, value) => Some (if max_rt <? q then value else None)
                  | None => None
                  end)) view () with
  | (_, inl found) => found
  | (_, inr _) => None
  end.

(** [chain.iter().skip(start).position(|entry| entry.0 <= max_rt_seq)]. *)
Fixpoint hidden_at (max_rt : Z) (vs : list KeyVersion) : option nat :=
  match vs with
  | [] => None
  | v :: vs => if kv_seq v <=? max_rt then Some O else S <$> hidden_at max_rt vs
  end.

Definition chain_visit (key : bytes) (snap : Z) (chain : list KeyVersion) (s : Source) (max_rt : Z)
  : list KeyVersion * option unit :=
  let start := length chain in
  let '(chain, terminated) := collect_merge_chain s key snap chain in
  match hidden_at max_rt (drop start chain) with
  | Some hidden => (take (start + hidden) chain ++ [mkKV max_rt VALUE_TYPE_DELETION []], Some ())
  | None => (chain, if terminated then Some () else None)
  end.

Definition merge_chain_in_view (key : bytes) (snap : Z) (view : ReadView) : list KeyVersion :=
  (walk_newest_first key snap (chain_visit key snap) view []).1.

Section Reads.
Context `{M : MergeOperator}.

Definition is_value (t : byte) : bool := Byte.eqb t VALUE_TYPE_VALUE.

Definition get_with_merge (key : bytes) (snap : Z) (view : ReadView) : outcome (option bytes) :=
  let chain := merge_chain_in_view key snap view in
  let value_of v := if is_value (kv_type v) then Some (kv_value v) else None in
  if (length chain <=? 1)%nat && match list.last chain with Some v => negb (is_merge (kv_type v)) | None => true end
  then Ok (match list.last chain with Some v => value_of v | None => None end)
  else
    let '(base, has_terminator) :=
      match list.last chain with
      | Some v => if is_value (kv_type v) then (Some (kv_value v), true)
                  else if Byte.eqb (kv_type v) VALUE_TYPE_DELETION then (None, true) else (None, false)
      | None => (None, false)
      end in
    let merge_end := if has_terminator : bool then (length chain - 1)%nat else length chain in
    let operands := rev (map kv_value (take merge_end chain)) in
    match operands with
    | [] => Ok (match list.last chain with Some v => value_of v | None => None end)
    | _ => m ← apply_merge key base operands; Ok (Some m)
    end.

End Reads.

(** [lookup_loaded] for a value: [None] is a database without an operator. *)
Definition lookup_loaded (op : option MergeOperator) (key : bytes) (snap : Z) (view : ReadView)
  : outcome (option bytes) :=
  match op with
  | Some M => get_with_merge key snap view
  | None => Ok (lookup_in_view key snap view)
  end.

(** ** What a set of writes says *)

Definition key_entries (key : bytes) (srcs : list Source) : list KeyVersion :=
  flat_map (fun s => map version_of (List.filter (fun e => bytes_eqb (e_key e) key) (s_entries s))) srcs.
Definition tombstones_of (srcs : list Source) : list RangeTombstone := flat_map s_tombstones srcs.

(** The versions a reader at [snap] sees past a range deletion at [rt]. *)
Definition visible (rt snap : Z) (v : KeyVersion) : bool := (rt <? kv_seq v) && (kv_seq v <=? snap).

(** The operands on top, newest first, and the value under them. *)
Definition ops_base (vs : list KeyVersion) : list bytes * option bytes :=
  (map kv_value (take_while (fun v => is_merge (kv_type v)) vs),
   match drop_while (fun v => is_merge (kv_type v)) vs with
   | v :: _ => if is_value (kv_type v) then Some (kv_value v) else None
   | [] => None
   end).

Definition read_versions (op : option MergeOperator) (key : bytes) (vs : list KeyVersion) : outcome (option bytes) :=
  match op with
  | None =>
      Ok (match vs with
          | v :: _ => if Byte.eqb (kv_type v) VALUE_TYPE_DELETION then None else Some (kv_value v)
          | [] => None
          end)
  | Some M =>
      match ops_base vs with
      | ([], base) => Ok base
      | (ops, base) => m ← apply_merge key base (rev ops); Ok (Some m)
      end
  end.

(** The read of [key] at [snap] from all the writes of [srcs], listed with the
    newer writes of a key first. *)
Definition read_writes (op : option MergeOperator) (key : bytes) (snap : Z) (srcs : list Source)
  : outcome (option bytes) :=
  let rt := newest_covering (tombstones_of srcs) key snap in
  read_versions op key (List.filter (visible rt snap) (key_entries key srcs)).

(** ** The order of the sources *)

Definition item (key : bytes) (s : Source) (q : Z) : Prop :=
  (exists e, e ∈ s_entries s /\ e_key e = key /\ e_seq e = q) \/
  (exists rt, rt ∈ s_tombstones s /\ covers rt key = true /\ seq rt = q).

(** Internal key order: keys up, then sequences down. *)
Definition entry_before (a b : Entry) : Prop :=
  bytes_lt (e_key a) (e_key b) \/ e_key a = e_key b /\ e_seq b < e_seq a.

Definition type_ok (t : byte) : Prop := t = VALUE_TYPE_VALUE \/ t = VALUE_TYPE_DELETION \/ t = VALUE_TYPE_MERGE.

Definition log_ok (s : Source) : Prop :=
  match s with Memtable _ log => exists ps, inv (log, ps) | Table _ _ => True end.

Record source_ok (s : Source) : Prop := {
  so_sorted : StronglySorted entry_before (s_entries s);
  so_types : Forall (fun e => type_ok (e_type e)) (s_entries s);
  so_log : log_ok s;
}.

(** Every source of an earlier layer holds newer writes of the key, its range
    deletions included, than every source of a later one. *)
Definition newer_layer (key : bytes) (a b : list Source) : Prop :=
  forall s t p q, s ∈ a -> t ∈ b -> item key s p -> item key t q -> q < p.

Record layers_ok (key : bytes) (layers : list (list Source)) : Prop := {
  lo_order : StronglySorted (newer_layer key) layers;
  lo_run : Forall (fun l => StronglySorted (fun v w => kv_seq w < kv_seq v) (key_entries key l)) layers;
  lo_sources : Forall (Forall source_ok) layers;
}.

(** All the sources of a view in layers, newest first: each memtable, each L0
    table, and the tables of each deeper level. *)
Definition layers_from (tables : list (LiveSst Source) -> list (LiveSst Source)) (view : ReadView)
  : list (list Source) :=
  let ls := levels (v_version view) in
  map (fun s => [s]) (v_active view :: rev (v_frozen view)) ++
  map (fun s => [s]) (map sst_reader (rev (level_files ls 0))) ++
  map (fun files => map sst_reader (tables files)) (drop 1 ls).
Definition view_layers (view : ReadView) : list (list Source) := layers_from id view.
Definition all_sources (view : ReadView) : list Source := List.concat (view_layers view).

(** A table's bounds hold what it holds, and a table counted empty is. *)
Definition table_ok (key : bytes) (f : LiveSst Source) : Prop :=
  (forall q, item key (sst_reader f) q -> bytes_le (smallest_key (meta f)) key /\ bytes_le key (largest_key (meta f))) /\
  (num_entries (meta f) <= 0 -> s_entries (sst_reader f) = []).

Definition level_run (key : bytes) (files : list (LiveSst Source)) : Prop :=
  Forall range_ok (map meta files) /\ sorted_run (map meta files) /\ Forall (table_ok key) files.

Record view_ok (key : bytes) (view : ReadView) : Prop := {
  vo_layers : layers_ok key (view_layers view);
  vo_levels : Forall (level_run key) (drop 1 (levels (v_version view)));
}.

(** ** Scans *)

Lemma filter_all {B} (p : B -> bool) l : Forall (fun x => p x = true) l -> List.filter p l = l.
Proof. induction 1 as [|x l Hx Hl IH]; [done|]. cbn. by rewrite Hx, IH. Qed.

Lemma filter_none {B} (p : B -> bool) l : Forall (fun x => p x = false) l -> List.filter p l = [].
Proof. induction 1 as [|x l Hx Hl IH]; [done|]. cbn. by rewrite Hx, IH. Qed.

Lemma bytes_eqb_spec a b : reflect (a = b) (bytes_eqb a b).
Proof. apply bool_decide_reflect. Qed.

Lemma keys_above key e l : Forall (entry_before e) l -> bytes_lt key (e_key e) ->
  List.filter (fun x => bytes_eqb (e_key x) key) (e :: l) = [].
Proof.
  intros Hl He. apply filter_none. constructor.
  - destruct (bytes_eqb_spec (e_key e) key) as [E|]; [|done]. rewrite E in He. by apply bytes_lt_irrefl in He.
  - eapply List.Forall_impl; [|exact Hl]. intros x Hx. destruct (bytes_eqb_spec (e_key x) key) as [E|]; [|done]. exfalso.
    apply (bytes_lt_irrefl key). rewrite <- E at 2. destruct Hx as [Hx|[<- _]]; [by eapply bytes_lt_trans|done].
Qed.

(** Past the first version a reader sees, the walk's stop at another key loses
    nothing. *)
Lemma run_of_key key e l : StronglySorted entry_before (e :: l) -> e_key e = key ->
  take_while (fun x => bytes_eqb (e_key x) key) l = List.filter (fun x => bytes_eqb (e_key x) key) l /\
  Forall (fun x => e_seq x < e_seq e) (List.filter (fun x => bytes_eqb (e_key x) key) l).
Proof.
  intros Hs. revert e Hs. induction l as [|x l IH]; intros e Hs He; [done|].
  inversion Hs as [|? ? Hl Hx]; subst. inversion Hx as [|? ? Hex _]; subst. inversion Hl as [|? ? Hl' Hxl]; subst.
  destruct (bytes_eqb_spec (e_key x) (e_key e)) as [E|E].
  - destruct (IH x Hl E) as [H1 H2]. cbn [take_while List.filter].
    rewrite (bool_decide_eq_true_2 _ E : bytes_eqb _ _ = true). rewrite H1. split; [done|].
    destruct Hex as [Hex|[_ Hex]]; [rewrite E in Hex; by apply bytes_lt_irrefl in Hex|].
    constructor; [done|]. eapply List.Forall_impl; [|exact H2]. cbn. lia.
  - destruct Hex as [Hex|[Hex _]]; [|congruence]. rewrite (keys_above _ x l Hxl Hex). cbn [take_while].
    rewrite (bool_decide_eq_false_2 _ E : bytes_eqb _ _ = false). done.
Qed.

Lemma scan_key_spec s key snap : source_ok s ->
  scan_key s key snap = List.filter (fun v => kv_seq v <=? snap) (key_entries key [s]).
Proof.
  intros [Hs _ _]. unfold scan_key, key_entries. cbn. rewrite app_nil_r. induction Hs as [|e l Hl IH He]; [done|].
  cbn [drop_while]. unfold before_lookup at 1. destruct (bytes_cmp (e_key e) key) eqn:Ec.
  - apply bytes_cmp_eq in Ec. cbn [List.filter]. rewrite (bool_decide_eq_true_2 _ Ec : bytes_eqb _ _ = true).
    cbn [map List.filter]. change (kv_seq (version_of e)) with (e_seq e). rewrite Z.ltb_antisym.
    destruct (Z.leb_spec (e_seq e) snap) as [Hle|]; cbn [negb]; [|exact IH].
    cbn [take_while]. rewrite (bool_decide_eq_true_2 _ Ec : bytes_eqb _ _ = true). cbn [map]. f_equal.
    destruct (run_of_key key e l (SSorted_cons _ Hl He) Ec) as [-> Hlt]. rewrite (filter_all (fun v => kv_seq v <=? snap)); [done|].
    apply Forall_map. eapply List.Forall_impl; [|exact Hlt]. cbn. intros x Hx. apply Z.leb_le. lia.
  - cbn [List.filter]. rewrite (bool_decide_eq_false_2 _ : _ -> bytes_eqb _ _ = false); [exact IH|].
    intros E. rewrite E, bytes_cmp_refl in Ec. done.
  - assert (Hgt : bytes_lt key (e_key e)) by (unfold bytes_lt; by rewrite bytes_cmp_opp, Ec).
    rewrite (keys_above key e l He Hgt). cbn [take_while].
    rewrite (bool_decide_eq_false_2 _ : _ -> bytes_eqb _ _ = false); [done|].
    intros E. rewrite E, bytes_cmp_refl in Ec. done.
Qed.

(** ** The walk in layers *)

Lemma covering_newest s key snap : source_ok s ->
  covering_range_tombstone_seq s key snap = newest_covering (s_tombstones s) key snap.
Proof.
  intros [_ _ Hlog]. destruct s as [es log|es ts]; cbn [covering_range_tombstone_seq s_tombstones].
  - destruct Hlog as [ps Hlog]. by rewrite (covering_seq_ready (log, ps) key snap Hlog : covering_seq log key snap = _).
  - rewrite max_covering_newest. by destruct ts.
Qed.

Section Layers.
Context {St B : Type} (key : bytes) (snap : Z) (visit : St -> Source -> Z -> St * option B).

Fixpoint walk_layers (layers : list (list Source)) (st : St) (max_rt : Z) : St * (B + Z) :=
  match layers with
  | [] => (st, inr max_rt)
  | run :: layers =>
      let max_rt := Z.max max_rt (newest_covering (tombstones_of run) key snap) in
      match walk_run visit run st max_rt with
      | (st, Some done) => (st, inl done)
      | (st, None) => walk_layers layers st max_rt
      end
  end.

Lemma walk_layers_app a b st m :
  walk_layers (a ++ b) st m =
  match walk_layers a st m with (st, inl d) => (st, inl d) | (st, inr m) => walk_layers b st m end.
Proof.
  revert st m. induction a as [|run a IH]; intros st m; [done|]. cbn [walk_layers app].
  destruct (walk_run _ _ _ _) as [st' [d|]]; [done|]. apply IH.
Qed.

Lemma walk_each_layers srcs st m : Forall source_ok srcs ->
  walk_each key snap visit srcs st m = walk_layers (map (fun s => [s]) srcs) st m.
Proof.
  intros Hs. revert st m. induction Hs as [|s srcs Hs Hsrcs IH]; intros st m; [done|].
  cbn [walk_layers map walk_each walk_run]. unfold tombstones_of. cbn [flat_map]. rewrite app_nil_r, covering_newest by done.
  destruct (visit _ _ _) as [st' [d|]]; [done|]. apply IH.
Qed.

(** A visit of a source without entries does nothing. *)
Hypothesis idle : forall st s m, s_entries s = [] -> visit st s m = (st, None).

Lemma walk_run_nonempty (run : list (LiveSst Source)) st m : Forall (table_ok key) run ->
  walk_run visit (map sst_reader (List.filter (fun f => 0 <? num_entries (meta f)) run)) st m =
  walk_run visit (map sst_reader run) st m.
Proof.
  intros H. revert st. induction H as [|f run [_ Hf] Hr IH]; intros st; [done|]. cbn [List.filter map walk_run].
  destruct (Z.ltb_spec 0 (num_entries (meta f))) as [Hn|Hn]; cbn [map walk_run].
  - destruct (visit _ _ _) as [st' [d|]]; [done|]. apply IH.
  - rewrite idle by auto. apply IH.
Qed.

Lemma fold_newest (run : list (LiveSst Source)) m : 0 <= m -> Forall source_ok (map sst_reader run) ->
  fold_left (fun m f => Z.max m (covering_range_tombstone_seq (sst_reader f) key snap)) run m =
  Z.max m (newest_covering (tombstones_of (map sst_reader run)) key snap).
Proof.
  revert m. induction run as [|f run IH]; intros m Hm Hs; cbn [fold_left map] in *; [cbn; lia|].
  inversion Hs as [|? ? Hf Hr]; subst. rewrite covering_newest by done. rewrite IH by (done || lia).
  unfold tombstones_of. cbn [flat_map]. rewrite newest_join. lia.
Qed.

Lemma walk_levels_layers ls st m : 0 <= m -> Forall (fun files => Forall (table_ok key) (covering files key)) ls ->
  Forall (Forall source_ok) (map (fun files => map sst_reader (covering files key)) ls) ->
  walk_levels key snap visit ls st m = walk_layers (map (fun files => map sst_reader (covering files key)) ls) st m.
Proof.
  intros Hm H. revert st m Hm. induction H as [|files ls Hf Hls IH]; intros st m Hm Hs; [done|].
  cbn [walk_levels walk_layers map] in *. inversion Hs as [|? ? Hs1 Hs2]; subst. rewrite fold_newest by done.
  rewrite walk_run_nonempty by done. destruct (walk_run _ _ _ _) as [st' [d|]]; [done|].
  apply IH; [lia|done].
Qed.

Lemma walk_layers_nonneg layers st m st' m' : 0 <= m -> walk_layers layers st m = (st', inr m') -> 0 <= m'.
Proof.
  revert st m. induction layers as [|run layers IH]; intros st m Hm; cbn [walk_layers]; [intros [= _ <-]; done|].
  destruct (walk_run _ _ _ _) as [st1 [d|]]; [done|]. apply IH. lia.
Qed.

Lemma walk_newest_layers view st :
  Forall (fun files => Forall (table_ok key) (covering files key)) (drop 1 (levels (v_version view))) ->
  Forall (Forall source_ok) (layers_from (fun files => covering files key) view) ->
  walk_newest_first key snap visit view st = walk_layers (layers_from (fun files => covering files key) view) st 0.
Proof.
  intros H Hs. unfold walk_newest_first, layers_from in *. apply Forall_app in Hs as [Hs1 Hs]. apply Forall_app in Hs as [Hs2 Hs3].
  rewrite Forall_map_iff in Hs1, Hs2.
  assert (Hone : forall l, Forall (fun s => Forall source_ok [s]) l -> Forall source_ok l).
  { intros l Hl. eapply List.Forall_impl; [|exact Hl]. intros s Hs'. by inversion Hs'. }
  apply Hone in Hs1, Hs2. rewrite !walk_layers_app, <- !walk_each_layers by done.
  destruct (walk_each _ _ _ _ st 0) as [st1 [d|m1]] eqn:E1; [done|].
  rewrite walk_layers_app, <- walk_each_layers by done.
  destruct (walk_each _ _ _ (map _ _) st1 m1) as [st2 [d|m2]] eqn:E2; [done|].
  rewrite walk_each_layers in E1, E2 by done. apply walk_layers_nonneg in E1; [|done]. apply walk_layers_nonneg in E2; [|done].
  by apply walk_levels_layers.
Qed.

End Layers.

(** Restricting a level to the tables covering the key keeps all its writes. *)
Lemma covering_writes key snap files : level_run key files ->
  key_entries key (map sst_reader (covering files key)) = key_entries key (map sst_reader files) /\
  newest_covering (tombstones_of (map sst_reader (covering files key))) key snap =
  newest_covering (tombstones_of (map sst_reader files)) key snap.
Proof.
  intros (Hr & Hs & Ht). unfold covering. rewrite overlapping_filter by done. clear Hr Hs.
  induction Ht as [|f files [Hf _] Ht [IH1 IH2]]; [done|]. cbn [List.filter].
  destruct (_ && _) eqn:E; cbn [map]; unfold key_entries, tombstones_of in *; cbn [flat_map].
  { rewrite IH1, !newest_join, IH2. done. }
  assert (Hno : forall q, ~ item key (sst_reader f) q).
  { intros q Hq. destruct (Hf q Hq) as [H1 H2]. apply andb_false_iff in E.
    destruct E as [E|E]; [destruct (bytes_leb_spec key (largest_key (meta f)))|
      destruct (bytes_leb_spec (smallest_key (meta f)) key)]; done. }
  split.
  - rewrite IH1. rewrite filter_none; [done|]. apply List.Forall_forall. intros e He.
    destruct (bytes_eqb_spec (e_key e) key) as [Ee|]; [|done]. exfalso. apply (Hno (e_seq e)). left.
    exists e. split; [by apply list_elem_of_In|done].
  - rewrite newest_join, IH2, (newest_none (s_tombstones (sst_reader f))).
    { pose proof (newest_nonneg (flat_map s_tombstones (map sst_reader files)) key snap). lia. }
    intros rt Hrt. destruct (covers rt key) eqn:Ec; [|done]. exfalso. apply (Hno (seq rt)). right.
    exists rt. split; [by apply list_elem_of_In|done].
Qed.

(** ** Reading a chain *)

Notation merges := (Forall (fun v => is_merge (kv_type v) = true)).

Lemma ops_base_app a b : merges a -> ops_base (a ++ b) = (map kv_value a ++ (ops_base b).1, (ops_base b).2).
Proof.
  induction 1 as [|v a Hv Ha IH]; [apply surjective_pairing|]. cbn [app]. unfold ops_base in *. cbn [take_while drop_while].
  rewrite Hv. cbn [map app fst snd] in *. injection IH as H1 H2. by rewrite H1, H2.
Qed.

Lemma ops_base_stop a v b c : merges a -> is_merge (kv_type v) = false ->
  ops_base (a ++ v :: b) = ops_base (a ++ v :: c).
Proof. intros Ha Hv. rewrite !ops_base_app by done. unfold ops_base. cbn [take_while drop_while]. by rewrite Hv. Qed.

Lemma through_terminator_spec vs :
  match through_terminator vs with
  | (t, true) => exists a v b, vs = a ++ v :: b /\ t = a ++ [v] /\ merges a /\ is_merge (kv_type v) = false
  | (t, false) => t = vs /\ merges vs
  end.
Proof.
  induction vs as [|v vs IH]; cbn [through_terminator]; [by split|].
  destruct (is_merge (kv_type v)) eqn:Ev.
  - destruct (through_terminator vs) as [t [|]].
    + destruct IH as (a & x & b & -> & -> & Ha & Hx). exists (v :: a), x, b. by repeat constructor.
    + destruct IH as [-> H]. split; [done|by constructor].
  - exists [], v, vs. by repeat constructor.
Qed.

Lemma hidden_at_spec m vs :
  match hidden_at m vs with
  | Some h => exists a v b, vs = a ++ v :: b /\ length a = h /\ Forall (fun x => m < kv_seq x) a /\ kv_seq v <= m
  | None => Forall (fun x => m < kv_seq x) vs
  end.
Proof.
  induction vs as [|v vs IH]; cbn [hidden_at]; [done|]. destruct (Z.leb_spec (kv_seq v) m) as [H|H].
  - by exists [], v, vs.
  - destruct (hidden_at m vs) as [h|]; cbn.
    + destruct IH as (a & x & b & -> & <- & Ha & Hx). exists (v :: a), x, b. by repeat constructor.
    + by constructor.
Qed.

Lemma key_entries_app key a b : key_entries key (a ++ b) = key_entries key a ++ key_entries key b.
Proof. apply flat_map_app. Qed.

(** The versions of the key a reader at [snap] may see. *)
Definition upto (key : bytes) (snap : Z) (srcs : list Source) : list KeyVersion :=
  List.filter (fun v => kv_seq v <=? snap) (key_entries key srcs).
Definition shown (m : Z) (vs : list KeyVersion) : list KeyVersion := List.filter (fun v => m <? kv_seq v) vs.

Lemma upto_app key snap a b : upto key snap (a ++ b) = upto key snap a ++ upto key snap b.
Proof. unfold upto. by rewrite key_entries_app, List.filter_app. Qed.
Lemma shown_app m a b : shown m (a ++ b) = shown m a ++ shown m b.
Proof. apply List.filter_app. Qed.
Lemma shown_all m a : Forall (fun v => m < kv_seq v) a -> shown m a = a.
Proof. intros H. apply filter_all. eapply List.Forall_impl; [|exact H]. cbn. intros v. apply Z.ltb_lt. Qed.
Lemma shown_none m a : Forall (fun v => kv_seq v <= m) a -> shown m a = [].
Proof. intros H. apply filter_none. eapply List.Forall_impl; [|exact H]. cbn. intros v. apply Z.ltb_ge. Qed.
Lemma visible_split rt key snap srcs :
  List.filter (visible rt snap) (key_entries key srcs) = shown rt (upto key snap srcs).
Proof.
  unfold shown, upto. induction (key_entries key srcs) as [|v l IH]; [done|]. cbn [List.filter].
  unfold visible at 1. destruct (kv_seq v <=? snap); cbn [List.filter]; rewrite ?andb_true_r, ?andb_false_r, IH; done.
Qed.

Notation desc := (StronglySorted (fun v w => kv_seq w < kv_seq v)).

Lemma through_terminator_prefix vs :
  (exists b, vs = (through_terminator vs).1 ++ b) /\
  forall a x c, (through_terminator vs).1 = a ++ x :: c -> merges a.
Proof.
  pose proof (through_terminator_spec vs) as H. destruct (through_terminator vs) as [t [|]]; cbn [fst].
  - destruct H as (a & v & b & -> & -> & Ha & Hv). split; [exists b; by rewrite <- app_assoc|].
    intros a' x c E. destruct c as [|y c _] using rev_ind.
    + apply app_inj_tail in E. destruct E as [<- _]. done.
    + rewrite app_comm_cons, app_assoc in E. apply app_inj_tail in E. destruct E as [-> _].
      by apply Forall_app in Ha as [Ha _].
  - destruct H as [-> H]. split; [exists []; by rewrite app_nil_r|].
    intros a' x c ->. by apply Forall_app in H as [H _].
Qed.

(** One source: the chain goes on with all its versions, or it already reads as
    the shown ones do, whatever the older versions are. *)
Lemma chain_visit_spec key snap chain s m : source_ok s -> merges chain -> desc (upto key snap [s]) ->
  match chain_visit key snap chain s m with
  | (chain', None) =>
      chain' = chain ++ upto key snap [s] /\ merges chain' /\ Forall (fun v => m < kv_seq v) (upto key snap [s])
  | (chain', Some _) =>
      forall m' older, m <= m' -> (forall v, v ∈ upto key snap [s] -> m < kv_seq v -> m' < kv_seq v) ->
      (forall v w, v ∈ upto key snap [s] -> w ∈ older -> kv_seq w < kv_seq v) ->
      ops_base chain' = ops_base (chain ++ shown m' (upto key snap [s] ++ older))
  end.
Proof.
  intros Hs Hc Hd. unfold chain_visit, collect_merge_chain. rewrite scan_key_spec by done.
  change (List.filter _ _) with (upto key snap [s]). revert Hd. generalize (upto key snap [s]) as vs. intros vs Hd.
  pose proof (through_terminator_spec vs) as Ht. destruct (through_terminator_prefix vs) as [[b Hb] Hpre].
  destruct (through_terminator vs) as [t term]. cbn [fst] in *.
  rewrite drop_app_length. pose proof (hidden_at_spec m t) as Hh. destruct (hidden_at m t) as [h|].
  - destruct Hh as (a & v & c & -> & <- & Ha & Hv). intros m' older Hm Hup Hold.
    rewrite take_app_add, take_app_length. specialize (Hpre a v c eq_refl).
    assert (E : shown m' (vs ++ older) = a).
    { rewrite Hb, <- !app_assoc. cbn [app]. rewrite shown_app, shown_all, shown_none.
      - apply app_nil_r.
      - rewrite Hb, <- app_assoc in Hd. cbn [app] in Hd. apply StronglySorted_app_1_r in Hd.
        inversion Hd as [|? ? _ Hlt]; subst. constructor; [lia|]. rewrite app_assoc. apply Forall_app. split.
        + eapply List.Forall_impl; [|exact Hlt]. cbn. lia.
        + apply List.Forall_forall. intros w Hw. apply list_elem_of_In in Hw.
          assert (kv_seq w < kv_seq v); [|lia]. apply Hold; [|done]. apply list_elem_of_In.
          rewrite !in_app_iff. cbn. tauto.
      - rewrite List.Forall_forall in *. intros x Hx. apply Hup; [|by apply Ha]. apply list_elem_of_In.
        rewrite Hb, !in_app_iff. tauto. }
    assert (Hca : merges (chain ++ a)) by by apply Forall_app. pose proof (ops_base_app (chain ++ a) [] Hca) as E'.
    rewrite app_nil_r in E'. by rewrite E, ops_base_app, E'.
  - destruct term.
    + destruct Ht as (a & v & b' & Evs & -> & Ha & Hv). intros m' older Hm Hup Hold.
      rewrite Evs, <- app_assoc. cbn [app]. rewrite shown_app, shown_all.
      * change (v :: b' ++ older) with ([v] ++ b' ++ older). rewrite shown_app, (shown_all m' [v]).
        { cbn [app]. rewrite !(app_assoc chain). apply ops_base_stop; [by apply Forall_app|done]. }
        constructor; [|done]. apply Hup; [subst vs; apply list_elem_of_In; rewrite in_app_iff; cbn; tauto|].
        apply Forall_app in Hh as [_ Hh]. by inversion Hh.
      * apply Forall_app in Hh as [Hh _]. rewrite List.Forall_forall in *. intros x Hx. apply Hup; [|by apply Hh].
        subst vs. apply list_elem_of_In. rewrite in_app_iff. tauto.
    + destruct Ht as [-> Ht]. split; [done|]. split; [by apply Forall_app|done].
Qed.

Section Read.
Context (key : bytes) (snap : Z).
Notation upto := (upto key snap).

Lemma run_spec run chain m : Forall source_ok run -> merges chain -> desc (upto run) ->
  match walk_run (chain_visit key snap) run chain m with
  | (chain', None) => chain' = chain ++ upto run /\ merges chain' /\ Forall (fun v => m < kv_seq v) (upto run)
  | (chain', Some _) =>
      forall m' older, m <= m' -> (forall v, v ∈ upto run -> m < kv_seq v -> m' < kv_seq v) ->
      (forall v w, v ∈ upto run -> w ∈ older -> kv_seq w < kv_seq v) ->
      ops_base chain' = ops_base (chain ++ shown m' (upto run ++ older))
  end.
Proof.
  intros Hs. revert chain. induction Hs as [|s run Hs Hr IH]; intros chain Hc Hd; cbn [walk_run].
  { split; [by rewrite app_nil_r|done]. }
  change (s :: run) with ([s] ++ run) in *. rewrite upto_app in *. apply StronglySorted_app in Hd as (Hlt & Hd1 & Hd2).
  pose proof (chain_visit_spec key snap chain s m Hs Hc Hd1) as Hv.
  destruct (chain_visit key snap chain s m) as [chain1 [d|]].
  - intros m' older Hm Hup Hold. rewrite <- app_assoc. apply Hv; [done|set_solver|].
    intros v w Hvin [Hw|Hw]%elem_of_app; [by apply Hlt|]. apply Hold; [set_solver|done].
  - destruct Hv as (-> & Hc1 & Hm1). specialize (IH _ Hc1 Hd2).
    destruct (walk_run _ run _ m) as [chain2 [d|]].
    + intros m' older Hm Hup Hold. rewrite (IH m' older); [|done|set_solver|set_solver].
      rewrite <- !app_assoc, (shown_app m' (upto [s])), (shown_all m' (upto [s])); [done|].
      rewrite List.Forall_forall in *. intros v Hvin. apply Hup; [|by apply Hm1].
      apply list_elem_of_In in Hvin. set_solver.
    + destruct IH as (-> & Hc2 & Hm2). rewrite <- app_assoc. split; [done|]. split; [by rewrite app_assoc|].
      by apply Forall_app.
Qed.

Lemma upto_item run v : v ∈ upto run -> exists s, s ∈ run /\ item key s (kv_seq v).
Proof.
  intros Hv. apply list_elem_of_In, filter_In in Hv as [Hv _]. apply in_flat_map in Hv as (s & Hs & Hv).
  apply in_map_iff in Hv as (e & <- & He). apply filter_In in He as [He Ek].
  exists s. split; [by apply list_elem_of_In|]. left. exists e. split; [by apply list_elem_of_In|].
  split; [by apply bool_decide_eq_true in Ek|done].
Qed.

(** The newest covering deletion of some sources is older than what every write
    of theirs is older than. *)
Lemma newest_older srcs q : 0 < q -> (forall s p, s ∈ srcs -> item key s p -> p < q) ->
  newest_covering (tombstones_of srcs) key snap < q.
Proof.
  intros Hq H. apply Z.lt_le_pred. apply newest_bound. split; [lia|]. intros rt Hrt _ Hc.
  apply in_flat_map in Hrt as (s & Hs & Hrt). apply Z.lt_le_pred. apply (H s); [by apply list_elem_of_In|].
  right. exists rt. split; [by apply list_elem_of_In|done].
Qed.

Lemma layers_older run layers m : Forall (newer_layer key run) layers -> 0 <= m ->
  (forall v w, v ∈ upto run -> w ∈ upto (List.concat layers) -> kv_seq w < kv_seq v) /\
  forall v, v ∈ upto run -> m < kv_seq v ->
  Z.max m (newest_covering (tombstones_of (List.concat layers)) key snap) < kv_seq v.
Proof.
  intros Hnew Hm.
  assert (H : forall v s q, v ∈ upto run -> s ∈ List.concat layers -> item key s q -> q < kv_seq v).
  { intros v s q Hv Hsin Hq. apply upto_item in Hv as (s0 & Hs0 & Hi0). rewrite List.Forall_forall in Hnew.
    apply list_elem_of_In, in_concat in Hsin as (l & Hl & Hsl). apply list_elem_of_In in Hsl. by apply (Hnew l Hl s0 s). }
  split.
  - intros v w Hv Hw. apply upto_item in Hw as (s & Hs1 & Hi). by eapply H.
  - intros v Hv Hlt. apply Z.max_lub_lt; [done|]. apply newest_older; [lia|]. intros s p. by apply H.
Qed.

Lemma layers_spec layers chain m : 0 <= m -> layers_ok key layers -> merges chain ->
  let rt := Z.max m (newest_covering (tombstones_of (List.concat layers)) key snap) in
  ops_base (walk_layers key snap (chain_visit key snap) layers chain m).1 =
  ops_base (chain ++ shown rt (upto (List.concat layers))).
Proof.
  intros Hm0 [Ho Hr Hs]. revert chain m Hm0.
  induction layers as [|run layers IH]; intros chain m Hm0 Hc; [cbn; by rewrite app_nil_r|].
  inversion Ho as [|? ? Ho' Hnew]; subst. inversion Hr as [|? ? Hrun Hr']; subst. inversion Hs as [|? ? Hsrc Hs']; subst.
  specialize (IH Ho' Hr' Hs'). cbn [walk_layers List.concat]. unfold tombstones_of. rewrite flat_map_app, newest_join, upto_app.
  fold (tombstones_of run) (tombstones_of (List.concat layers)).
  set (m1 := Z.max m (newest_covering (tombstones_of run) key snap)). cbv zeta in *.
  rewrite Z.max_assoc. fold m1.
  destruct (layers_older run layers m1 Hnew ltac:(lia)) as [Holder Hrt].
  assert (Hd : desc (upto run)).
  { by apply sorted_filter. }
  pose proof (run_spec run chain m1 Hsrc Hc Hd) as H.
  destruct (walk_run _ run chain m1) as [chain1 [d|]]; cbn [fst].
  - apply H; [lia|done|done].
  - destruct H as (-> & Hc1 & Hm1). rewrite IH by (try done; lia). rewrite <- app_assoc, shown_app, (shown_all _ (upto run)); [done|].
    rewrite List.Forall_forall in *. intros v Hv. apply Hrt; [by apply list_elem_of_In|]. by apply Hm1.
Qed.

(** Operands, then at most one version that ends them. *)
Definition chain_shape (c : list KeyVersion) : Prop :=
  merges c \/ exists a v, c = a ++ [v] /\ merges a /\ is_merge (kv_type v) = false /\ type_ok (kv_type v).

Lemma upto_types run : Forall source_ok run -> Forall (fun v => type_ok (kv_type v)) (upto run).
Proof.
  intros H. apply List.Forall_forall. intros v Hv. apply filter_In in Hv as [Hv _].
  apply in_flat_map in Hv as (s & Hs & Hv). apply in_map_iff in Hv as (e & <- & He). apply filter_In in He as [He _].
  rewrite List.Forall_forall in H. destruct (H s Hs) as [_ Ht _]. rewrite List.Forall_forall in Ht. by apply Ht.
Qed.

Lemma chain_visit_shape chain s m : source_ok s -> merges chain -> chain_shape (chain_visit key snap chain s m).1.
Proof.
  intros Hs Hc. pose proof (upto_types [s] (Forall_cons_2 _ _ _ Hs (Forall_nil_2 _))) as Hty.
  unfold chain_visit, collect_merge_chain. rewrite scan_key_spec by done.
  change (List.filter _ _) with (upto [s]). revert Hty. generalize (upto [s]) as vs. intros vs Hty.
  pose proof (through_terminator_spec vs) as Ht. destruct (through_terminator_prefix vs) as [_ Hpre].
  destruct (through_terminator vs) as [t term]. cbn [fst] in *. rewrite drop_app_length.
  pose proof (hidden_at_spec m t) as Hh. destruct (hidden_at m t) as [h|]; cbn [fst].
  - destruct Hh as (a & v & c & -> & <- & _ & _). rewrite take_app_add, take_app_length. right.
    exists (chain ++ a), (mkKV m VALUE_TYPE_DELETION []). split; [done|]. split; [|by split; [|right; left]].
    apply Forall_app. split; [done|]. by eapply Hpre.
  - destruct term.
    + destruct Ht as (a & v & b & -> & -> & Ha & Hv). right. exists (chain ++ a), v. rewrite <- app_assoc.
      split; [done|]. split; [by apply Forall_app|]. split; [done|].
      apply Forall_app in Hty as [_ Hty]. by inversion Hty.
    + destruct Ht as [-> Ht]. left. by apply Forall_app.
Qed.

Lemma run_shape run chain m : Forall source_ok run -> merges chain -> desc (upto run) ->
  chain_shape (walk_run (chain_visit key snap) run chain m).1.
Proof.
  intros Hs. revert chain. induction Hs as [|s run Hs Hr IH]; intros chain Hc Hd; cbn [walk_run]; [by left|].
  change (s :: run) with ([s] ++ run) in *. rewrite upto_app in *. apply StronglySorted_app in Hd as (_ & Hd1 & Hd2).
  pose proof (chain_visit_spec key snap chain s m Hs Hc Hd1) as Hv.
  pose proof (chain_visit_shape chain s m Hs Hc) as Hsh.
  destruct (chain_visit key snap chain s m) as [chain1 [d|]]; [done|]. destruct Hv as (_ & Hc1 & _). by apply IH.
Qed.

Lemma layers_shape layers chain m : layers_ok key layers -> merges chain ->
  chain_shape (walk_layers key snap (chain_visit key snap) layers chain m).1.
Proof.
  intros [_ Hr Hs]. revert chain m.
  induction layers as [|run layers IH]; intros chain m Hc; [by left|].
  inversion Hr as [|? ? Hrun Hr']; subst. inversion Hs as [|? ? Hsrc Hs']; subst. cbn [walk_layers].
  assert (Hd : desc (upto run)) by by apply sorted_filter.
  set (m1 := Z.max _ _). pose proof (run_spec run chain m1 Hsrc Hc Hd) as Hv.
  pose proof (run_shape run chain m1 Hsrc Hc Hd) as Hsh.
  destruct (walk_run _ run chain m1) as [chain1 [d|]]; [done|]. destruct Hv as (_ & Hc1 & _). by apply IH.
Qed.

(** Without an operator the first version in the walk answers. *)
Definition lookup_visit (_ : unit) (s : Source) (max_rt : Z) : unit * option (option bytes) :=
  ((), match source_get s key snap with
       | Some (q, value) => Some (if max_rt <? q then value else None)
       | None => None
       end).

Definition head_value (vs : list KeyVersion) : option bytes :=
  match vs with
  | v :: _ => if Byte.eqb (kv_type v) VALUE_TYPE_DELETION then None else Some (kv_value v)
  | [] => None
  end.

Lemma lookup_run_spec run m : Forall source_ok run ->
  walk_run lookup_visit run () m =
  ((), match upto run with
       | [] => None
       | v :: _ => Some (if m <? kv_seq v then head_value [v] else None)
       end).
Proof.
  induction 1 as [|s run Hs Hr IH]; [done|]. cbn [walk_run]. change (s :: run) with ([s] ++ run). rewrite upto_app.
  unfold lookup_visit, source_get. rewrite scan_key_spec by done. change (List.filter _ _) with (upto [s]).
  destruct (upto [s]) as [|v vs]; [exact IH|done].
Qed.

Lemma lookup_layers layers m : 0 <= m -> layers_ok key layers ->
  let rt := Z.max m (newest_covering (tombstones_of (List.concat layers)) key snap) in
  match walk_layers key snap lookup_visit layers () m with (_, inl found) => found | (_, inr _) => None end =
  head_value (shown rt (upto (List.concat layers))).
Proof.
  intros Hm0 [Ho Hr Hs]. revert m Hm0. induction layers as [|run layers IH]; intros m Hm0; [done|].
  inversion Ho as [|? ? Ho' Hnew]; subst. inversion Hr as [|? ? Hrun Hr']; subst. inversion Hs as [|? ? Hsrc Hs']; subst.
  specialize (IH Ho' Hr' Hs'). cbn [walk_layers List.concat]. unfold tombstones_of.
  rewrite flat_map_app, newest_join, upto_app. fold (tombstones_of run) (tombstones_of (List.concat layers)).
  set (m1 := Z.max m (newest_covering (tombstones_of run) key snap)). cbv zeta in *. rewrite Z.max_assoc. fold m1.
  rewrite lookup_run_spec by done. destruct (layers_older run layers m1 Hnew ltac:(lia)) as [Holder Hrt].
  assert (Hd : desc (upto run)) by by apply sorted_filter.
  destruct (upto run) as [|v vs]; [apply IH; lia|]. destruct (Z.ltb_spec m1 (kv_seq v)) as [Hlt|Hge].
  - unfold shown. cbn [app List.filter]. apply Hrt in Hlt; [|set_solver]. apply Z.ltb_lt in Hlt. by rewrite Hlt.
  - rewrite shown_none; [done|]. inversion Hd as [|? ? _ Hv]; subst. constructor; [lia|]. apply Forall_app. split.
    + eapply List.Forall_impl; [|exact Hv]. cbn. lia.
    + apply List.Forall_forall. intros w Hw. apply list_elem_of_In in Hw.
      specialize (Holder v w ltac:(set_solver) Hw). lia.
Qed.

End Read.

(** ** Reads and the writes they read *)

Lemma chain_visit_idle key snap chain s m : s_entries s = [] -> chain_visit key snap chain s m = (chain, None).
Proof.
  intros E. unfold chain_visit, collect_merge_chain, scan_key. rewrite E. cbn. by rewrite app_nil_r, drop_all.
Qed.

Lemma lookup_visit_idle key snap st s m : s_entries s = [] -> lookup_visit key snap st s m = (st, None).
Proof. intros E. unfold lookup_visit, source_get, scan_key. rewrite E. by destruct st. Qed.

Section View.
Context (key : bytes) (snap : Z).
Notation upto := (upto key snap).

Lemma key_entries_item srcs v : v ∈ key_entries key srcs -> exists s, s ∈ srcs /\ item key s (kv_seq v).
Proof.
  intros Hv. apply (upto_item key (kv_seq v)). apply list_elem_of_In, filter_In. split; [by apply list_elem_of_In|].
  apply Z.leb_refl.
Qed.

Definition covered_layers (view : ReadView) : list (list Source) := layers_from (fun files => covering files key) view.

(** Layer by layer, the walked sources are some of all, with the same writes. *)
Definition same_layer (a b : list Source) : Prop :=
  (forall s, s ∈ a -> s ∈ b) /\ key_entries key a = key_entries key b /\
  newest_covering (tombstones_of a) key snap = newest_covering (tombstones_of b) key snap.

Lemma covered_same view : view_ok key view -> Forall2 same_layer (covered_layers view) (view_layers view).
Proof.
  intros [_ H]. unfold covered_layers, view_layers, layers_from. repeat apply Forall2_app.
  1,2: apply Forall2_fmap_l, Forall2_fmap_r, Forall_Forall2_diag, List.Forall_forall; by repeat split.
  induction H as [|files ls Hf Hls IH]; [constructor|]. cbn [map]. constructor; [|exact IH].
  destruct (covering_writes key snap files Hf) as [H1 H2]. split; [|by split].
  intros s Hs. destruct Hf as (Hr & Hs' & _). unfold covering in Hs. rewrite overlapping_filter in Hs by done.
  apply list_elem_of_In, in_map_iff in Hs as (f & <- & Hf). apply filter_In in Hf as [Hf _].
  apply list_elem_of_In, in_map_iff. by exists f.
Qed.

Lemma same_layers_ok a b : Forall2 same_layer a b -> layers_ok key b -> layers_ok key a.
Proof.
  intros H [Ho Hr Hs]. induction H as [|x y a b (Hsub & He & Hn) Hab IH]; [done|].
  inversion Ho as [|? ? Ho' Hnew]; subst. inversion Hr as [|? ? Hrun Hr']; subst. inversion Hs as [|? ? Hsrc Hs']; subst.
  destruct (IH Ho' Hr' Hs') as [Ho1 Hr1 Hs1]. split.
  - constructor; [done|]. clear - Hab Hnew Hsub. induction Hab as [|x' y' a b (Hsub' & _) Hab IH]; [constructor|].
    inversion Hnew as [|? ? Hn1 Hn2]; subst. constructor; [|by apply IH].
    intros s t p q Hs1 Ht1. by apply Hn1; auto.
  - constructor; [by rewrite He|done].
  - constructor; [|done]. rewrite List.Forall_forall in *. intros s Hs2. apply Hsrc.
    apply list_elem_of_In. apply Hsub. by apply list_elem_of_In.
Qed.

Lemma same_layers_writes a b : Forall2 same_layer a b ->
  upto (List.concat a) = upto (List.concat b) /\
  newest_covering (tombstones_of (List.concat a)) key snap = newest_covering (tombstones_of (List.concat b)) key snap.
Proof.
  induction 1 as [|x y a b (_ & He & Hn) Hab [IH1 IH2]]; [done|]. cbn [List.concat]. rewrite !upto_app, IH1.
  unfold tombstones_of in *. rewrite !flat_map_app, !newest_join, Hn, IH2. split; [|done].
  unfold ReadPath.upto. by rewrite He.
Qed.

Lemma covered_tables view : view_ok key view ->
  Forall (fun files => Forall (table_ok key) (covering files key)) (drop 1 (levels (v_version view))).
Proof.
  intros [_ H]. eapply List.Forall_impl; [|exact H]. intros files (Hr & Hs & Ht). unfold covering.
  rewrite overlapping_filter by done. rewrite List.Forall_forall in *. intros f Hf. apply filter_In in Hf as [Hf _]. by apply Ht.
Qed.

Lemma match_rev {A B} (l : list A) (x : B) (f : list A -> B) :
  match rev l with [] => x | _ => f (rev l) end = match l with [] => x | _ => f (rev l) end.
Proof.
  destruct l as [|a l]; [done|]. destruct (rev (a :: l)) eqn:E; [|done].
  apply (f_equal length) in E. rewrite length_rev in E. done.
Qed.

Lemma get_of_chain `{M : MergeOperator} view : chain_shape (merge_chain_in_view key snap view) ->
  get_with_merge key snap view = read_versions (Some M) key (merge_chain_in_view key snap view).
Proof.
  unfold get_with_merge, read_versions. generalize (merge_chain_in_view key snap view) as c. intros c Hc.
  destruct Hc as [Hm|(a & v & -> & Ha & Hv & Hty)].
  - pose proof (ops_base_app c [] Hm) as E. rewrite !app_nil_r in E. rewrite E.
    destruct c as [|x c _] using rev_ind; [done|]. rewrite list.last_snoc.
    apply Forall_app in Hm as [_ Hm]. inversion Hm as [|? ? Hx _]; subst. rewrite Hx, andb_false_r.
    unfold is_merge in Hx. apply Byte.byte_dec_bl in Hx. rewrite Hx.
    change (is_value VALUE_TYPE_MERGE) with false. change (Byte.eqb VALUE_TYPE_MERGE VALUE_TYPE_DELETION) with false.
    cbv iota beta zeta. rewrite firstn_all.
    rewrite (match_rev (map kv_value (c ++ [x])) _ (fun ops => m ← apply_merge key None ops; Ok (Some m))).
    cbn [fst snd ops_base take_while map]. destruct (map kv_value (c ++ [x])) eqn:El; [|done].
    by destruct c.
  - rewrite ops_base_app by done. rewrite list.last_snoc, Hv. cbn [negb]. rewrite andb_true_r.
    assert (E : ops_base [v] = ([], if is_value (kv_type v) then Some (kv_value v) else None)).
    { unfold ops_base. cbn [take_while drop_while]. by rewrite Hv. }
    rewrite E. cbn [fst snd]. rewrite app_nil_r, length_app. cbn [length].
    destruct a as [|x a]; [done|]. rewrite (proj2 (Nat.leb_gt _ _)) by (cbn; lia).
    assert (Hb : (if is_value (kv_type v) then (Some (kv_value v), true)
                  else if Byte.eqb (kv_type v) VALUE_TYPE_DELETION then (None, true) else (None, false)) =
                 (if is_value (kv_type v) then Some (kv_value v) else None, true)).
    { destruct Hty as [->|[->|Hx]]; [done|done|]. by rewrite Hx in Hv. }
    rewrite Hb. cbv iota beta zeta. rewrite Nat.add_sub, take_app_length.
    rewrite (match_rev (map kv_value (x :: a)) _
               (fun ops => m ← apply_merge key (if is_value (kv_type v) then Some (kv_value v) else None) ops; Ok (Some m))).
    done.
Qed.

(** What the operator makes of versions rests on their operands and base. *)
Lemma read_versions_ops `{M : MergeOperator} vs ws : ops_base vs = ops_base ws ->
  read_versions (Some M) key vs = read_versions (Some M) key ws.
Proof. intros E. unfold read_versions. by rewrite E. Qed.

End View.

(** ** Checking a view *)

Definition seqs_of (key : bytes) (s : Source) : list Z :=
  map e_seq (List.filter (fun e => bytes_eqb (e_key e) key) (s_entries s)) ++
  map seq (List.filter (fun rt => covers rt key) (s_tombstones s)).

Lemma item_seqs key s q : item key s q <-> In q (seqs_of key s).
Proof.
  unfold item, seqs_of. rewrite in_app_iff, !in_map_iff. f_equiv.
  - split.
    + intros (e & He & Ek & Eq). exists e. split; [done|]. apply filter_In.
      split; [by apply list_elem_of_In|by apply bool_decide_eq_true].
    + intros (e & Eq & [He Ek]%filter_In). exists e. apply bool_decide_eq_true in Ek. by apply list_elem_of_In in He.
  - split.
    + intros (rt & Hrt & Ec & Eq). exists rt. split; [done|]. apply filter_In. split; [by apply list_elem_of_In|done].
    + intros (rt & Eq & [Hrt Ec]%filter_In). exists rt. by apply list_elem_of_In in Hrt.
Qed.

#[export] Instance entry_before_dec : RelDecision entry_before.
Proof. intros a b. unfold entry_before, bytes_lt. apply _. Defined.
#[export] Instance type_ok_dec t : Decision (type_ok t).
Proof. unfold type_ok. apply _. Defined.
#[export] Instance bytes_le_dec : RelDecision bytes_le.
Proof. intros a b. unfold bytes_le. apply _. Defined.

Definition seqs_newer (key : bytes) (a b : list Source) : Prop :=
  Forall (fun p => Forall (fun q => q < p) (flat_map (seqs_of key) b)) (flat_map (seqs_of key) a).
#[export] Instance seqs_newer_dec key : RelDecision (seqs_newer key).
Proof. intros a b. unfold seqs_newer. apply _. Defined.

Definition view_okb (key : bytes) (view : ReadView) : bool :=
  let layers := view_layers view in
  bool_decide (StronglySorted (seqs_newer key) layers) &&
  bool_decide (Forall (fun l => StronglySorted Z.gt (map kv_seq (key_entries key l))) layers) &&
  bool_decide (Forall (Forall (fun s => StronglySorted entry_before (s_entries s) /\
                                        Forall (fun e => type_ok (e_type e)) (s_entries s))) layers) &&
  bool_decide (Forall (fun files =>
    Forall (fun m => bytes_le (smallest_key m) (largest_key m)) (map meta files) /\
    StronglySorted (fun a b => bytes_le (largest_key a) (smallest_key b)) (map meta files) /\
    Forall (fun f =>
      (Forall (fun _ => bytes_le (smallest_key (meta f)) key /\ bytes_le key (largest_key (meta f)))
         (seqs_of key (sst_reader f))) /\
      (0 < num_entries (meta f) \/ s_entries (sst_reader f) = nil)) files) (drop 1 (levels (v_version view)))).

Lemma sorted_impl {B} (R S : B -> B -> Prop) l :
  (forall a b, R a b -> S a b) -> StronglySorted R l -> StronglySorted S l.
Proof.
  intros H. induction 1 as [|x l Hl IH Hx]; constructor; [done|]. eapply List.Forall_impl; [|exact Hx]. auto.
Qed.

Lemma seqs_newer_layer key a b : seqs_newer key a b -> newer_layer key a b.
Proof.
  unfold seqs_newer. rewrite List.Forall_forall. intros H s t p q Hs Ht Hp Hq.
  apply item_seqs in Hp, Hq. apply list_elem_of_In in Hs, Ht.
  specialize (H p (proj2 (in_flat_map _ _ _) (ex_intro _ s (conj Hs Hp)))). rewrite List.Forall_forall in H.
  apply H, in_flat_map. by exists t.
Qed.

Lemma view_okb_sound key view : Forall (Forall log_ok) (view_layers view) -> view_okb key view = true -> view_ok key view.
Proof.
  intros Hlog. unfold view_okb. rewrite !andb_true_iff, !bool_decide_eq_true. intros [[[H1 H2] H3] H4]. split; [split|].
  - by eapply sorted_impl; [apply seqs_newer_layer|].
  - eapply List.Forall_impl; [|exact H2]. intros l. rewrite sorted_map. apply sorted_impl. lia.
  - rewrite List.Forall_forall in *. intros l Hl. specialize (H3 l Hl). specialize (Hlog l Hl).
    rewrite List.Forall_forall in *. intros s Hs. destruct (H3 s Hs). split; auto.
  - eapply List.Forall_impl; [|exact H4]. intros files (Hr & Hs & Ht). split; [done|]. split; [done|].
    eapply List.Forall_impl; [|exact Ht]. intros f [Hf Hn]. split.
    + intros q Hq. rewrite List.Forall_forall in Hf. apply (Hf q). by apply item_seqs.
    + intros Hz. destruct Hn as [Hn|Hn]; [lia|done].
Qed.

(** The walk reads what all the writes of the view say. *)
Lemma lookup_reads_writes op key snap view : view_ok key view ->
  lookup_loaded op key snap view = read_writes op key snap (all_sources view).
Proof.
  intros Hv. pose proof (covered_same key snap view Hv) as Hsame.
  pose proof (same_layers_ok key snap _ _ Hsame (vo_layers _ _ Hv)) as Hok.
  destruct (same_layers_writes key snap _ _ Hsame) as [Hup Hrt].
  unfold read_writes, all_sources. rewrite visible_split, <- Hup, <- Hrt. destruct op as [M|]; cbn [lookup_loaded].
  - pose proof (walk_newest_layers key snap (chain_visit key snap)) as Hw. rewrite get_of_chain.
    + apply read_versions_ops. unfold merge_chain_in_view. rewrite Hw by (by apply covered_tables || apply chain_visit_idle || exact (lo_sources _ _ Hok)).
      rewrite layers_spec by done. rewrite Z.max_r by apply newest_nonneg. done.
    + unfold merge_chain_in_view. rewrite Hw by (by apply covered_tables || apply chain_visit_idle || exact (lo_sources _ _ Hok)).
      by apply layers_shape.
  - pose proof (walk_newest_layers key snap (lookup_visit key snap)) as Hw. unfold lookup_in_view.
    change (fun (_ : unit) s max_rt => _) with (lookup_visit key snap).
    rewrite Hw by (by apply covered_tables || apply lookup_visit_idle || exact (lo_sources _ _ Hok)). f_equal.
    rewrite lookup_layers by done. rewrite Z.max_r by apply newest_nonneg. done.
Qed.

(** C6: A point read is refined by the set of all the writes it could have read.
    In a view whose sources are ordered by age (each memtable, each L0 table, and
    each deeper level holding newer writes of the key, range tombstones included,
    than what the walk reaches after it), reading a key at a snapshot gives the
    newest version there that no range tombstone hides; with a merge operator,
    the operands on top of it, oldest first, are merged onto it and a refused
    merge is the read's error. The walk's shortcuts (skipping tables by their
    bounds and counts, stopping at the first answer, cutting the chain at a
    hidden operand) lose nothing. *)
Theorem read_is_newest_visible op key snap view : view_ok key view ->
  lookup_loaded op key snap view = read_writes op key snap (all_sources view).
Proof. apply lookup_reads_writes. Qed.

(** A memtable with two operands, a frozen one with an older operand, an L0 table
    that is one range tombstone, and a level of two tables, the second with an
    operand and a value of the key that the tombstone deletes. *)
Definition join_operator : MergeOperator := {|
  op_full_merge := fun _ base ops => Some (default [] base ++ List.concat ops);
  op_partial_merge := fun _ l r => Some (l ++ r);
|}.

Definition sample_key : bytes := Eval vm_compute in str "cf00k".
Definition sample_entry (q : Z) (t : byte) (v : bytes) : Entry := mkEntry sample_key q t v.
Definition sample_table (first last : bytes) (n : Z) (s : Source) : LiveSst Source :=
  mkLive 0 (mkMeta n first last 0 n None None) s.
Definition sample_view : ReadView := Eval vm_compute in
  mkView
    (Memtable [sample_entry 12 VALUE_TYPE_MERGE (str "d"); sample_entry 11 VALUE_TYPE_MERGE (str "c")]
              (push log_new (mkTomb (str "cf00x") (str "cf00z") 13)))
    [Memtable [sample_entry 9 VALUE_TYPE_MERGE (str "b")] log_new]
    (mkVersion
       [[sample_table (str "cf00a") (str "cf00z") 0 (Table [] [mkTomb (str "cf00a") (str "cf00z") 7])];
        [sample_table (str "cf00a") (str "cf00b") 1 (Table [mkEntry (str "cf00b") 3 VALUE_TYPE_VALUE (str "z")] []);
         sample_table (str "cf00k") (str "cf00k") 2
           (Table [sample_entry 5 VALUE_TYPE_MERGE (str "a"); sample_entry 4 VALUE_TYPE_VALUE (str "v")] [])]]
       3 13 0 2).

Lemma sample_logs : Forall (Forall log_ok) (view_layers sample_view).
Proof.
  assert (H : inv (log_new, [])) by by apply inv_alone.
  repeat constructor; cbn [log_ok]; [|by exists []]. exists [].
  exact (proj1 (push_spec log_new (mkTomb (str "cf00x") (str "cf00z") 13) H)).
Qed.

(** At 11 the operands above the deletion are merged without a base; below it
    the read finds the base. *)
Lemma read_is_newest_visible_witness :
  read_writes (Some join_operator) sample_key 11 (all_sources sample_view) = Ok (Some (str "bc")) /\
  lookup_loaded (Some join_operator) sample_key 11 sample_view = Ok (Some (str "bc")) /\
  lookup_loaded (Some join_operator) sample_key 6 sample_view = Ok (Some (str "va")) /\
  lookup_loaded None sample_key 8 sample_view = Ok None.
Proof.
  assert (Hok : view_ok sample_key sample_view) by (apply view_okb_sound; [apply sample_logs|computed]).
  split; [computed|]. rewrite !(read_is_newest_visible _ sample_key _ sample_view Hok). repeat split; computed.
Defined.
