(* ===== verification/CommitWalk.v ===== *)
(** * What landed since a sequence

    Models the probes a commit's check makes of a view: the newest version of a
    key ([latest_version_bounded] of [src/src/engine/mod.rs]), what landed on it
    above a floor ([commit/terminator.rs]), the newest write above a floor that
    changes the parts a projected read named ([commit/read_rules.rs]), whether
    anything landed above a horizon ([commit/early.rs]), and a write inside a
    range ([commit/range_rule.rs]), with the scans of one source under them
    ([memtable/key_walk.rs], [sstable/key_walk.rs]).

    Shown here: in a view whose sources are ordered by age, each probe answers
    from the set of all the writes of the view, whatever the walk skips. *)

From stdpp Require Import sets sorting.
From S2P Require Import Prelude Order InternalKey RangeTombstone TombstoneLog Manifest Version ReadPath.

(** ** Probes of one source *)

Definition latest_version (s : Source) (key : bytes) (snap : Z) : option (Z * byte) :=
  match scan_key s key snap with [] => None | v :: _ => Some (kv_seq v, kv_type v) end.

(** Where a skip over operands ended. *)
Record Skip := mkSkip { passed : bool; stop : option Z; stop_type : byte }.

Fixpoint skip_scan (floor : Z) (vs : list KeyVersion) : Skip :=
  match vs with
  | [] => mkSkip false None Byte.x00
  | v :: vs =>
      if (kv_seq v <=? floor) || negb (is_merge (kv_type v)) then mkSkip false (Some (kv_seq v)) (kv_type v)
      else let rest := skip_scan floor vs in mkSkip true (stop rest) (stop_type rest)
  end.
Definition skip_merges_above (s : Source) (key : bytes) (snap floor : Z) : Skip :=
  skip_scan floor (scan_key s key snap).

Inductive Above (R : Type) := Broke (r : R) | Floor | Exhausted.
Arguments Broke {R}. Arguments Floor {R}. Arguments Exhausted {R}.

Fixpoint above_scan {R} (floor : Z) (visit : KeyVersion -> option R) (vs : list KeyVersion) : Above R :=
  match vs with
  | [] => Exhausted
  | v :: vs =>
      if kv_seq v <=? floor then Floor
      else match visit v with Some r => Broke r | None => above_scan floor visit vs end
  end.
Definition visit_above {R} (s : Source) (key : bytes) (snap floor : Z) (visit : KeyVersion -> option R) : Above R :=
  above_scan floor visit (scan_key s key snap).

(** The first entry of the range whose sequence is in the window, in key order;
    a table's scan has no ceiling. *)
Fixpoint range_scan (hi : bytes) (wanted : Z -> bool) (es : list Entry) : option (bytes * Z * byte) :=
  match es with
  | [] => None
  | e :: es =>
      if bytes_leb hi (e_key e) then None
      else if wanted (e_seq e) then Some (e_key e, e_seq e, e_type e)
      else range_scan hi wanted es
  end.
Definition newer_in_range (s : Source) (lo hi : bytes) (floor ceil : Z) : option (bytes * Z * byte) :=
  let from := drop_while (before_lookup lo U64_MAX) (s_entries s) in
  match s with
  | Memtable _ _ => range_scan hi (fun q => (floor <? q) && (q <=? ceil)) from
  | Table _ _ => range_scan hi (fun q => floor <? q) from
  end.

(** The later of a tombstone's start and the range's. *)
Definition bytes_max (a b : bytes) : bytes := if bytes_leb a b then b else a.

Definition newer_range_tombstone (s : Source) (lo hi : bytes) (floor ceil : Z) : option (bytes * Z) :=
  match s with
  | Memtable _ log => (fun t => (bytes_max (start t) lo, seq t)) <$> first_newer_overlap log lo hi floor ceil
  | Table _ ts => (fun t => (bytes_max (start t) lo, seq t)) <$>
                  List.find (fun t => (floor <? seq t) && overlaps t lo hi) ts
  end.

(** ** Probes of a view *)

Definition latest_version_bounded (key : bytes) (ceil : Z) (floor : option Z) (view : ReadView)
  : option (Z * WriteKind) :=
  let visit (_ : unit) s max_rt :=
    let version :=
      match s, floor with
      | Table _ _, Some f => if last_seq (v_version view) <=? f then None else latest_version s key ceil
      | _, _ => latest_version s key ceil
      end in
    ((), match version with
         | Some (q, t) => Some (if q <? max_rt then (max_rt, WkRangeDelete) else (q, write_kind t))
         | None => None
         end) in
  match walk_newest_first key ceil visit view () with
  | (_, inl version) => Some version
  | (_, inr max_rt) => if 0 <? max_rt then Some (max_rt, WkRangeDelete) else None
  end.

Definition latest_version_upto (key : bytes) (ceil : Z) (view : ReadView) := latest_version_bounded key ceil None view.
Definition latest_version_in_view (key : bytes) (view : ReadView) := latest_version_upto key U64_MAX view.
Definition above {A} (floor : Z) (o : option (Z * A)) : option (Z * A) :=
  match o with Some (q, a) => if floor <? q then Some (q, a) else None | None => None end.
Definition latest_version_after (key : bytes) (floor : Z) (view : ReadView) :=
  above floor (latest_version_bounded key U64_MAX (Some floor) view).

Inductive Landed := Nothing | Operands | Replaced (q : Z) (kind : WriteKind).

(** Where a source's skip stopped settles whether a replacement landed. *)
Definition settle (floor stop : Z) (stop_type : byte) (max_rt : Z) : option (Z * WriteKind) :=
  if Z.max floor max_rt <? stop then Some (stop, write_kind stop_type)
  else if floor <? max_rt then Some (max_rt, WkRangeDelete)
  else None.

Definition landed_visit (key : bytes) (floor : Z) (p : bool) (s : Source) (max_rt : Z)
  : bool * option (option (Z * WriteKind)) :=
  let skip := skip_merges_above s key U64_MAX (Z.max floor max_rt) in
  (p || passed skip,
   match stop skip with Some q => Some (settle floor q (stop_type skip) max_rt) | None => None end).

Definition landed_above (key : bytes) (floor : Z) (view : ReadView) : Landed :=
  let '(p, walked) := walk_newest_first key U64_MAX (landed_visit key floor) view false in
  let replaced :=
    match walked with
    | inl r => r
    | inr max_rt => if floor <? max_rt then Some (max_rt, WkRangeDelete) else None
    end in
  match replaced with
  | Some (q, kind) => Replaced q kind
  | None => if p : bool then Operands else Nothing
  end.

(** The newest write above a floor that changes the parts a read named. The
    operator's [touches] is asked with the caller's key; without an operator
    every operand counts. *)
Inductive Decisive := Operand (q : Z) | Replacement (q : Z) (kind : WriteKind) (value : option bytes).

Definition touches_fn : Type := bytes -> bytes -> list Z -> bool.

Section Parts.
Context (touches : option touches_fn).

Definition operand_touches (key operand : bytes) (parts : list Z) : bool :=
  match touches with Some t => t (callers_key key) operand parts | None => true end.

Definition parts_visit (key : bytes) (parts : list Z) (v : KeyVersion) : option Decisive :=
  if is_merge (kv_type v)
  then if operand_touches key (kv_value v) parts then Some (Operand (kv_seq v)) else None
  else if is_value (kv_type v) then Some (Replacement (kv_seq v) WkPut (Some (kv_value v)))
  else Some (Replacement (kv_seq v) (write_kind (kv_type v)) None).

Definition range_delete (floor max_rt : Z) : option Decisive :=
  if floor <? max_rt then Some (Replacement max_rt WkRangeDelete None) else None.

Definition parts_decisive (key : bytes) (floor ceil : Z) (parts : list Z) (view : ReadView) : option Decisive :=
  let visit (_ : unit) s max_rt :=
    ((), match visit_above s key ceil (Z.max floor max_rt) (parts_visit key parts) with
         | Broke d => Some (Some d)
         | Floor => Some (range_delete floor max_rt)
         | Exhausted => None
         end) in
  match walk_newest_first key ceil visit view () with
  | (_, inl decisive) => decisive
  | (_, inr max_rt) => range_delete floor max_rt
  end.

End Parts.

Definition memtables (view : ReadView) : list Source := v_active view :: rev (v_frozen view).

Definition landed_above_horizon (key : bytes) (horizon : Z) (view : ReadView) (memtables_only : bool) : bool :=
  if negb memtables_only
  then match latest_version_after key horizon view with Some (q, _) => horizon <? q | None => false end
  else existsb (fun mt =>
         match latest_version mt key U64_MAX with Some (q, _) => horizon <? q | None => false end
         || (horizon <? covering_range_tombstone_seq mt key U64_MAX)) (memtables view).

(** The first answer of a list of sources. *)
Fixpoint first_some {A B} (f : A -> option B) (l : list A) : option B :=
  match l with [] => None | x :: l => match f x with Some b => Some b | None => first_some f l end end.

Definition entry_write (o : option (bytes * Z * byte)) : option (bytes * Z * WriteKind) :=
  (fun '(k, q, t) => (k, q, write_kind t)) <$> o.
Definition tombstone_write (o : option (bytes * Z)) : option (bytes * Z * WriteKind) :=
  (fun '(k, q) => (k, q, WkRangeDelete)) <$> o.
Definition or_else {A} (a b : option A) : option A := match a with Some x => Some x | None => b end.

Definition written_in_range_of (lo hi : bytes) (floor ceil : Z) (view : ReadView) (memtables_only : bool)
  : option (bytes * Z * WriteKind) :=
  if bytes_leb hi lo then None
  else
    or_else
      (first_some (fun mt => or_else (entry_write (newer_in_range mt lo hi floor ceil))
                                     (tombstone_write (newer_range_tombstone mt lo hi floor ceil))) (memtables view))
      (if memtables_only then None
       else
         let ls := levels (v_version view) in
         let l0 := List.filter (fun f => bytes_ltb (smallest_key (meta f)) hi && bytes_leb lo (largest_key (meta f)))
                     (rev (level_files ls 0)) in
         let deeper := flat_map (fun files => overlapping files lo hi) (drop 1 ls) in
         first_some (fun t => or_else (tombstone_write (newer_range_tombstone t lo hi floor ceil))
                                      (entry_write (newer_in_range t lo hi floor ceil)))
                    (map sst_reader (l0 ++ deeper))).
Definition written_in_range (lo hi : bytes) (floor : Z) (view : ReadView) := written_in_range_of lo hi floor U64_MAX view false.

(** ** What the writes of a view say *)

(** A write of the key: a version or a covering range deletion. *)
Definition written (view : ReadView) (key : bytes) (q : Z) : Prop :=
  exists s, s ∈ all_sources view /\ item key s q.

(** A write that replaces the key: any but an operand. *)
Definition replaces (key : bytes) (s : Source) (q : Z) : Prop :=
  (exists e, e ∈ s_entries s /\ e_key e = key /\ e_seq e = q /\ is_merge (e_type e) = false) \/
  (exists rt, rt ∈ s_tombstones s /\ covers rt key = true /\ seq rt = q).
Definition replaced_at (view : ReadView) (key : bytes) (q : Z) : Prop :=
  exists s, s ∈ all_sources view /\ replaces key s q.

Definition newest_write (key : bytes) (ceil : Z) (srcs : list Source) : option (Z * WriteKind) :=
  let rt := newest_covering (tombstones_of srcs) key ceil in
  match upto key ceil srcs with
  | v :: _ => Some (if kv_seq v <? rt then (rt, WkRangeDelete) else (kv_seq v, write_kind (kv_type v)))
  | [] => if 0 <? rt then Some (rt, WkRangeDelete) else None
  end.

(** ** Walks that scan versions *)

Section Scan.
Context {St B : Type} (key : bytes) (snap : Z) (scan : Source -> list KeyVersion)
        (step : Z -> St -> KeyVersion -> St * option B).

Fixpoint scan_with (m : Z) (st : St) (vs : list KeyVersion) : St * option B :=
  match vs with
  | [] => (st, None)
  | v :: vs => match step m st v with (st, Some b) => (st, Some b) | (st, None) => scan_with m st vs end
  end.
Definition visit_with (st : St) (s : Source) (m : Z) : St * option B := scan_with m st (scan s).

Hypothesis scan_sub : forall s v, source_ok s -> v ∈ scan s -> v ∈ upto key snap [s].
Hypothesis scan_idle : forall s, s_entries s = [] -> scan s = [].
(** A deletion seen later that hides the version no more than the ones before
    does not change its step. *)
Hypothesis step_mono : forall m m' st v, m <= m' -> m' < kv_seq v -> step m st v = step m' st v.

Lemma scan_with_app m st a b :
  scan_with m st (a ++ b) =
  match scan_with m st a with (st, Some d) => (st, Some d) | (st, None) => scan_with m st b end.
Proof.
  revert st. induction a as [|v a IH]; intros st; [done|]. cbn [scan_with app].
  destruct (step m st v) as [st' [d|]]; [done|]. apply IH.
Qed.

Lemma walk_run_scan run st m : walk_run visit_with run st m = scan_with m st (flat_map scan run).
Proof.
  revert st. induction run as [|s run IH]; intros st; [done|]. cbn [walk_run flat_map]. rewrite scan_with_app.
  unfold visit_with at 1. destruct (scan_with _ _ _) as [st' [d|]]; [done|]. apply IH.
Qed.

Lemma scan_with_mono m m' st vs : (forall v, v ∈ vs -> m = m' \/ m <= m' < kv_seq v) ->
  scan_with m st vs = scan_with m' st vs.
Proof.
  revert st. induction vs as [|v vs IH]; intros st H; [done|]. cbn [scan_with].
  assert (E : step m st v = step m' st v).
  { destruct (H v) as [->|[H1 H2]]; [set_solver|done|by apply step_mono]. }
  rewrite E. destruct (step m' st v) as [st' [d|]]; [done|]. apply IH. set_solver.
Qed.

Lemma scan_upto run v : Forall source_ok run -> v ∈ flat_map scan run -> v ∈ upto key snap run.
Proof.
  intros Hs Hv. apply list_elem_of_In, in_flat_map in Hv as (s & Hin & Hv). rewrite List.Forall_forall in Hs.
  apply list_elem_of_In, (scan_sub s v (Hs s Hin)), list_elem_of_In in Hv. unfold upto in *.
  apply filter_In in Hv as [Hv Hq]. apply list_elem_of_In, filter_In. split; [|done].
  unfold key_entries in *. apply in_flat_map. exists s. split; [done|]. cbn in Hv. by rewrite app_nil_r in Hv.
Qed.

Lemma walk_layers_scan layers st m : 0 <= m -> layers_ok key layers ->
  let rt := Z.max m (newest_covering (tombstones_of (List.concat layers)) key snap) in
  walk_layers key snap visit_with layers st m =
  match scan_with rt st (flat_map scan (List.concat layers)) with
  | (st, Some d) => (st, inl d)
  | (st, None) => (st, inr rt)
  end.
Proof.
  intros Hm0 [Ho Hr Hs]. revert st m Hm0. induction layers as [|run layers IH]; intros st m Hm0.
  { cbn. by rewrite Z.max_l. }
  inversion Ho as [|? ? Ho' Hnew]; subst. inversion Hr as [|? ? Hrun Hr']; subst. inversion Hs as [|? ? Hsrc Hs']; subst.
  specialize (IH Ho' Hr' Hs'). cbn [walk_layers List.concat]. unfold tombstones_of.
  rewrite !flat_map_app, newest_join. fold (tombstones_of run) (tombstones_of (List.concat layers)).
  set (m1 := Z.max m (newest_covering (tombstones_of run) key snap)). cbv zeta in *. rewrite Z.max_assoc. fold m1.
  set (rt := Z.max m1 _). rewrite scan_with_app, walk_run_scan.
  assert (Hm : forall v, v ∈ flat_map scan run -> m1 = rt \/ m1 <= rt < kv_seq v).
  { intros v Hv. apply scan_upto in Hv; [|done]. destruct (Z.lt_ge_cases m1 (kv_seq v)) as [Hlt|Hge].
    - right. split; [unfold rt; lia|]. by apply (layers_older key snap run layers m1 Hnew ltac:(lia)).
    - left. unfold rt. rewrite Z.max_l; [done|]. apply newest_bound. split; [lia|]. intros x Hx _ Hc.
      apply in_flat_map in Hx as (s & Hin & Hx). apply upto_item in Hv as (s0 & Hs0 & Hi).
      apply in_concat in Hin as (l & Hl & Hsl). rewrite List.Forall_forall in Hnew.
      assert (seq x < kv_seq v); [|lia]. apply (Hnew l Hl s0 s); [done|by apply list_elem_of_In|done|].
      right. exists x. split; [by apply list_elem_of_In|done]. }
  rewrite (scan_with_mono m1 rt st _ Hm). destruct (scan_with rt st (flat_map scan run)) as [st' [d|]]; [done|].
  apply IH. lia.
Qed.

Lemma covering_scan files : level_run key files -> Forall source_ok (map sst_reader files) ->
  flat_map scan (map sst_reader (covering files key)) = flat_map scan (map sst_reader files).
Proof.
  intros (Hr & Hs & Ht). unfold covering. rewrite overlapping_filter by done. clear Hr Hs.
  induction Ht as [|f files [Hf _] Ht IH]; intros Hok; [done|]. cbn [map] in Hok. inversion Hok as [|? ? Hokf Hok']; subst.
  cbn [List.filter]. destruct (_ && _) eqn:E; cbn [map flat_map]; rewrite (IH Hok'); [done|].
  destruct (scan (sst_reader f)) as [|v vs] eqn:Ev; [done|]. exfalso.
  assert (Hv : v ∈ upto key snap [sst_reader f]) by (apply scan_sub; [done|rewrite Ev; set_solver]).
  apply upto_item in Hv as (s & Hin & Hq). assert (s = sst_reader f) by set_solver. subst s.
  destruct (Hf _ Hq) as [H1 H2]. apply andb_false_iff in E.
  destruct E as [E|E]; [destruct (bytes_leb_spec key (largest_key (meta f)))|
    destruct (bytes_leb_spec (smallest_key (meta f)) key)]; done.
Qed.

Lemma covered_scan view : view_ok key view ->
  flat_map scan (List.concat (covered_layers key view)) = flat_map scan (all_sources view).
Proof.
  intros [Hl Hr]. destruct Hl as [_ _ Hs]. unfold all_sources, covered_layers, view_layers, layers_from in *.
  apply Forall_app in Hs as [_ Hs]. apply Forall_app in Hs as [_ Hs].
  rewrite !concat_app, !flat_map_app. do 2 f_equal.
  induction Hr as [|files ls Hf Hls IH]; [done|]. cbn [map List.concat] in *. rewrite !flat_map_app.
  inversion Hs as [|? ? Hs1 Hs2]; subst. rewrite (IH Hs2), (covering_scan files Hf Hs1). done.
Qed.

(** The walk scans the versions of all the sources under the newest deletion of
    all of them. *)
Lemma walk_scan view st : view_ok key view ->
  let rt := newest_covering (tombstones_of (all_sources view)) key snap in
  walk_newest_first key snap visit_with view st =
  match scan_with rt st (flat_map scan (all_sources view)) with
  | (st, Some d) => (st, inl d)
  | (st, None) => (st, inr rt)
  end.
Proof.
  intros Hv. pose proof (covered_same key snap view Hv) as Hsame.
  pose proof (same_layers_ok key snap _ _ Hsame (vo_layers _ _ Hv)) as Hok.
  destruct (same_layers_writes key snap _ _ Hsame) as [_ Hrt].
  rewrite (walk_newest_layers key snap visit_with).
  - fold (covered_layers key view). rewrite walk_layers_scan by done. rewrite Hrt, covered_scan by done.
    fold (all_sources view). rewrite Z.max_r by apply newest_nonneg. done.
  - intros st' s m E. unfold visit_with. by rewrite scan_idle.
  - by apply covered_tables.
  - exact (lo_sources _ _ Hok).
Qed.

End Scan.

Section WalkExt.
Context {St B : Type} (key : bytes) (snap : Z) (f g : St -> Source -> Z -> St * option B).
Hypothesis same : forall st s m, f st s m = g st s m.

Lemma walk_each_ext srcs st m : walk_each key snap f srcs st m = walk_each key snap g srcs st m.
Proof.
  revert st m. induction srcs as [|s srcs IH]; intros st m; [done|]. cbn [walk_each]. rewrite same.
  destruct (g st s _) as [st' [d|]]; [done|]. apply IH.
Qed.

Lemma walk_run_ext srcs st m : walk_run f srcs st m = walk_run g srcs st m.
Proof.
  revert st. induction srcs as [|s srcs IH]; intros st; [done|]. cbn [walk_run]. rewrite same.
  destruct (g st s m) as [st' [d|]]; [done|]. apply IH.
Qed.

Lemma walk_ext view st : walk_newest_first key snap f view st = walk_newest_first key snap g view st.
Proof.
  unfold walk_newest_first. rewrite walk_each_ext. destruct (walk_each _ _ g _ st 0) as [st1 [d|m1]]; [done|].
  rewrite walk_each_ext. destruct (walk_each _ _ g _ st1 m1) as [st2 [d|m2]]; [done|]. revert st2 m2.
  induction (drop 1 (levels (v_version view))) as [|files ls IH]; intros st2 m2; [done|]. cbn [walk_levels].
  rewrite walk_run_ext. destruct (walk_run g _ _ _) as [st3 [d|]]; [done|]. apply IH.
Qed.

End WalkExt.

Lemma scan_key_idle s key snap : s_entries s = [] -> scan_key s key snap = [].
Proof. intros E. unfold scan_key. by rewrite E. Qed.

Lemma scan_key_sub s key snap v : source_ok s -> v ∈ scan_key s key snap -> v ∈ upto key snap [s].
Proof. intros Hs. by rewrite scan_key_spec. Qed.

Lemma scan_all key snap srcs : Forall source_ok srcs ->
  flat_map (fun s => scan_key s key snap) srcs = upto key snap srcs.
Proof.
  induction 1 as [|s srcs Hs Hsrcs IH]; [done|]. cbn [flat_map]. rewrite IH, scan_key_spec by done.
  change (s :: srcs) with ([s] ++ srcs). by rewrite upto_app.
Qed.

Lemma view_sources key view : view_ok key view -> Forall source_ok (all_sources view).
Proof.
  intros [[_ _ Hs] _]. unfold all_sources. induction Hs as [|l ls Hl Hls IH]; [constructor|].
  cbn [List.concat]. by apply Forall_app.
Qed.

(** ** The newest version *)

Definition latest_step (m : Z) (st : unit) (v : KeyVersion) : unit * option (Z * WriteKind) :=
  (st, Some (if kv_seq v <? m then (m, WkRangeDelete) else (kv_seq v, write_kind (kv_type v)))).

Definition newest_of (rt : Z) (vs : list KeyVersion) : option (Z * WriteKind) :=
  match vs with
  | v :: _ => Some (if kv_seq v <? rt then (rt, WkRangeDelete) else (kv_seq v, write_kind (kv_type v)))
  | [] => if 0 <? rt then Some (rt, WkRangeDelete) else None
  end.

(** The versions the bounded probe scans: with a floor no table is newer than,
    the memtables' only. *)
Definition bounded_scan (key : bytes) (ceil : Z) (floor : option Z) (last : Z) (s : Source) : list KeyVersion :=
  match s, floor with
  | Table _ _, Some f => if last <=? f then [] else scan_key s key ceil
  | _, _ => scan_key s key ceil
  end.

Lemma latest_bounded_scan key ceil floor view : view_ok key view ->
  latest_version_bounded key ceil floor view =
  newest_of (newest_covering (tombstones_of (all_sources view)) key ceil)
    (flat_map (bounded_scan key ceil floor (last_seq (v_version view))) (all_sources view)).
Proof.
  intros Hv. unfold latest_version_bounded. cbv zeta.
  rewrite (walk_ext key ceil _ (visit_with (bounded_scan key ceil floor (last_seq (v_version view))) latest_step)).
  - rewrite (walk_scan key ceil); [| | | |done].
    + destruct (flat_map _ _) as [|v vs]; [done|]. done.
    + intros s v Hs Hin. apply scan_key_sub; [done|]. unfold bounded_scan in Hin. destruct s, floor; try done.
      destruct (_ <=? _); [set_solver|done].
    + intros s E. unfold bounded_scan. rewrite scan_key_idle by done. destruct s, floor; try done. by destruct (_ <=? _).
    + intros m m' st v H1 H2. unfold latest_step. rewrite !(proj2 (Z.ltb_ge _ _)) by lia. done.
  - intros [] s m. unfold visit_with, bounded_scan, latest_version. destruct s as [es log|es ts], floor as [f|];
      try (destruct (scan_key _ key ceil); done).
    destruct (_ <=? _); [done|]. by destruct (scan_key _ key ceil).
Qed.

Lemma latest_upto_newest key ceil view : view_ok key view ->
  latest_version_upto key ceil view = newest_write key ceil (all_sources view).
Proof.
  intros Hv. unfold latest_version_upto. rewrite latest_bounded_scan by done. unfold newest_write, newest_of.
  rewrite <- scan_all by (by eapply view_sources).
  replace (flat_map (bounded_scan key ceil None _) (all_sources view)) with
    (flat_map (fun s => scan_key s key ceil) (all_sources view)); [done|].
  apply flat_map_ext. intros s. by destruct s.
Qed.

(** ** What landed above a floor *)

Definition landed_step (floor m : Z) (p : bool) (v : KeyVersion) : bool * option (option (Z * WriteKind)) :=
  if (kv_seq v <=? Z.max floor m) || negb (is_merge (kv_type v))
  then (p, Some (settle floor (kv_seq v) (kv_type v) m)) else (true, None).

Lemma landed_skip floor m p vs :
  scan_with (landed_step floor) m p vs =
  (p || passed (skip_scan (Z.max floor m) vs),
   match stop (skip_scan (Z.max floor m) vs) with
   | Some q => Some (settle floor q (stop_type (skip_scan (Z.max floor m) vs)) m)
   | None => None
   end).
Proof.
  revert p. induction vs as [|v vs IH]; intros p; cbn [scan_with skip_scan passed stop].
  { by rewrite orb_false_r. }
  unfold landed_step at 1. destruct (_ || negb _); cbn [passed stop stop_type]; [by rewrite orb_false_r|].
  rewrite IH. by rewrite orb_true_r.
Qed.

(** The verdict on the key's versions, newest first, under the newest deletion. *)
Definition landed_of (floor rt : Z) (vs : list KeyVersion) : Landed :=
  let skip := skip_scan (Z.max floor rt) vs in
  match match stop skip with
        | Some q => settle floor q (stop_type skip) rt
        | None => if floor <? rt then Some (rt, WkRangeDelete) else None
        end with
  | Some (q, kind) => Replaced q kind
  | None => if passed skip then Operands else Nothing
  end.

Lemma landed_above_scan key floor view : view_ok key view ->
  landed_above key floor view =
  landed_of floor (newest_covering (tombstones_of (all_sources view)) key U64_MAX) (upto key U64_MAX (all_sources view)).
Proof.
  intros Hv. unfold landed_above.
  rewrite (walk_ext key U64_MAX _ (visit_with (fun s => scan_key s key U64_MAX) (landed_step floor))).
  - rewrite (walk_scan key U64_MAX); [| | | |done].
    + rewrite scan_all by (by eapply view_sources). rewrite landed_skip. unfold landed_of. cbn [orb].
      by destruct (stop _) as [q|].
    + intros s v. by apply scan_key_sub.
    + intros s. apply scan_key_idle.
    + intros m m' p v H1 H2. unfold landed_step, settle.
      assert (E : (kv_seq v <=? Z.max floor m) = (kv_seq v <=? Z.max floor m')).
      { destruct (Z.leb_spec (kv_seq v) floor); [rewrite !(proj2 (Z.leb_le _ _)) by lia|rewrite !(proj2 (Z.leb_gt _ _)) by lia]; done. }
      rewrite E. destruct (_ || _) eqn:Ec; [|done]. repeat f_equal.
      destruct (Z.leb_spec (kv_seq v) (Z.max floor m')).
      * assert (kv_seq v <= floor) by lia. rewrite !(proj2 (Z.ltb_ge _ _)) by lia. done.
      * rewrite !(proj2 (Z.ltb_lt _ _)) by lia. done.
  - intros p s m. unfold landed_visit, skip_merges_above, visit_with. by rewrite landed_skip.
Qed.

(** ** The write that decides a projected read *)

Section PartsScan.
Context (touches : option touches_fn) (key : bytes) (parts : list Z).

Definition parts_step (floor m : Z) (st : unit) (v : KeyVersion) : unit * option (option Decisive) :=
  (st, if kv_seq v <=? Z.max floor m then Some (range_delete floor m)
       else match parts_visit touches key parts v with Some d => Some (Some d) | None => None end).

Lemma parts_above floor m vs :
  scan_with (parts_step floor) m () vs =
  ((), match above_scan (Z.max floor m) (parts_visit touches key parts) vs with
       | Broke d => Some (Some d)
       | Floor => Some (range_delete floor m)
       | Exhausted => None
       end).
Proof.
  induction vs as [|v vs IH]; [done|]. cbn [scan_with above_scan]. unfold parts_step at 1.
  destruct (_ <=? _); [done|]. destruct (parts_visit _ _ _ v); [done|]. exact IH.
Qed.

(** The newest version above the floor and the newest deletion that changes a
    named part, or else that deletion when it is above the floor. *)
Definition decisive_of (floor rt : Z) (vs : list KeyVersion) : option Decisive :=
  or_else (first_some (parts_visit touches key parts) (shown (Z.max floor rt) vs)) (range_delete floor rt).

Lemma above_first m vs : StronglySorted (fun v w => kv_seq w < kv_seq v) vs ->
  match above_scan m (parts_visit touches key parts) vs with
  | Broke d => first_some (parts_visit touches key parts) (shown m vs) = Some d
  | _ => first_some (parts_visit touches key parts) (shown m vs) = None
  end.
Proof.
  intros H. induction H as [|v vs Hs IH Hv]; [done|]. cbn [above_scan].
  destruct (Z.leb_spec (kv_seq v) m) as [Hle|Hgt].
  - rewrite shown_none; [done|]. constructor; [done|]. eapply List.Forall_impl; [|exact Hv]. cbn. lia.
  - unfold shown in *. cbn [List.filter]. rewrite (proj2 (Z.ltb_lt _ _)) by done. cbn [first_some].
    by destruct (parts_visit _ _ _ v).
Qed.

End PartsScan.

(** All the versions of a key in a view, newest first. *)
Lemma layers_desc key snap layers : layers_ok key layers ->
  StronglySorted (fun v w => kv_seq w < kv_seq v) (upto key snap (List.concat layers)).
Proof.
  intros [Ho Hr Hs]. induction layers as [|run layers IH]; [constructor|].
  inversion Ho as [|? ? Ho' Hnew]; subst. inversion Hr as [|? ? Hrun Hr']; subst. inversion Hs as [|? ? Hsrc Hs']; subst.
  cbn [List.concat]. rewrite upto_app. apply StronglySorted_app. split_and!.
  - intros v w Hv Hw. by apply (layers_older key snap run layers 0 Hnew ltac:(lia)).
  - by apply sorted_filter.
  - by apply IH.
Qed.

Lemma view_desc key snap view : view_ok key view ->
  StronglySorted (fun v w => kv_seq w < kv_seq v) (upto key snap (all_sources view)).
Proof. intros [Hl _]. by apply layers_desc. Qed.

Lemma parts_decisive_scan touches key floor ceil parts view : view_ok key view ->
  parts_decisive touches key floor ceil parts view =
  decisive_of touches key parts floor (newest_covering (tombstones_of (all_sources view)) key ceil)
    (upto key ceil (all_sources view)).
Proof.
  intros Hv. unfold parts_decisive. cbv zeta.
  rewrite (walk_ext key ceil _ (visit_with (fun s => scan_key s key ceil) (parts_step touches key parts floor))).
  - rewrite (walk_scan key ceil); [| | | |done].
    + rewrite scan_all by (by eapply view_sources). rewrite parts_above. unfold decisive_of.
      set (rt := newest_covering _ _ _). set (vs := upto _ _ _).
      pose proof (above_first touches key parts (Z.max floor rt) vs (view_desc key ceil view Hv)) as H.
      destruct (above_scan _ _ _); rewrite H; done.
    + intros s v. by apply scan_key_sub.
    + intros s. apply scan_key_idle.
    + intros m m' st v H1 H2. unfold parts_step, range_delete. f_equal.
      destruct (Z.leb_spec (kv_seq v) (Z.max floor m)), (Z.leb_spec (kv_seq v) (Z.max floor m')); try lia; [|done].
      rewrite !(proj2 (Z.ltb_ge floor _)) by lia. done.
  - intros [] s m. unfold visit_with, visit_above. by rewrite parts_above.
Qed.

(** ** The probes and the set of writes *)

Definition table_files (view : ReadView) : list (LiveSst Source) :=
  let ls := levels (v_version view) in rev (level_files ls 0) ++ List.concat (drop 1 ls).

Definition is_memtable (s : Source) : Prop := match s with Memtable _ _ => True | Table _ _ => False end.

(** A view a commit is checked against. *)
Record commit_view (view : ReadView) : Prop := {
  cv_keys : forall key, view_ok key view;
  cv_seqs : forall key q, written view key q -> 0 < q <= U64_MAX;
  cv_memtables : Forall is_memtable (memtables view);
  cv_tables : Forall (fun f => ~ is_memtable (sst_reader f)) (table_files view);
  cv_last : forall f key q, f ∈ table_files view -> item key (sst_reader f) q -> q <= last_seq (v_version view);
  cv_l0 : forall key, Forall (table_ok key) (level_files (levels (v_version view)) 0);
  cv_ranges : forall s rt, s ∈ all_sources view -> rt ∈ s_tombstones s -> bytes_lt (start rt) (end_ rt);
}.

Lemma all_sources_split view : all_sources view = memtables view ++ map sst_reader (table_files view).
Proof.
  unfold all_sources, view_layers, layers_from, memtables, table_files. cbv zeta.
  assert (H : forall l : list Source, List.concat (map (fun s => [s]) l) = l).
  { induction l as [|s l IH]; [done|]. cbn. by rewrite IH. }
  rewrite !concat_app, !H, map_app, concat_map. done.
Qed.

Lemma skip_scan_spec m vs :
  match stop (skip_scan m vs) with
  | Some q => exists a v b, vs = a ++ v :: b /\ Forall (fun w => is_merge (kv_type w) = true /\ m < kv_seq w) a /\
      kv_seq v = q /\ kv_type v = stop_type (skip_scan m vs) /\ (q <= m \/ is_merge (kv_type v) = false) /\
      passed (skip_scan m vs) = match a with [] => false | _ => true end
  | None => Forall (fun w => is_merge (kv_type w) = true /\ m < kv_seq w) vs /\
      passed (skip_scan m vs) = match vs with [] => false | _ => true end
  end.
Proof.
  induction vs as [|v vs IH]; cbn [skip_scan stop]; [by split|].
  destruct ((kv_seq v <=? m) || negb (is_merge (kv_type v))) eqn:E; cbn [stop passed stop_type].
  - exists [], v, vs. split_and!; try done. apply orb_true_iff in E as [E|E]; [left; lia|right; by destruct (is_merge _)].
  - apply orb_false_iff in E as [E1 E2]. apply Z.leb_gt in E1. apply negb_false_iff in E2.
    destruct (stop (skip_scan m vs)) as [q|].
    + destruct IH as (a & w & b & -> & Ha & Hq & Ht & Ho & _). exists (v :: a), w, b. split_and!; try done. by constructor.
    + destruct IH as [H _]. split; [by constructor|done].
Qed.

Section Facts.
Context (key : bytes) (view : ReadView) (Hview : commit_view view).

Lemma version_written v : v ∈ key_entries key (all_sources view) -> written view key (kv_seq v).
Proof. intros Hv. by apply key_entries_item in Hv. Qed.

Lemma version_upto v : v ∈ key_entries key (all_sources view) <-> v ∈ upto key U64_MAX (all_sources view).
Proof.
  unfold upto. rewrite !list_elem_of_In, filter_In, Z.leb_le. split; [|tauto]. intros Hv. split; [done|].
  apply list_elem_of_In, version_written, (cv_seqs _ Hview) in Hv. lia.
Qed.

Lemma tombstone_written rt : In rt (tombstones_of (all_sources view)) -> covers rt key = true -> written view key (seq rt).
Proof.
  intros Hrt Hc. apply in_flat_map in Hrt as (s & Hs & Hrt). exists s. split; [by apply list_elem_of_In|].
  right. exists rt. split; [by apply list_elem_of_In|done].
Qed.

Lemma written_cases q : written view key q <->
  (exists v, v ∈ upto key U64_MAX (all_sources view) /\ kv_seq v = q) \/
  (exists rt, In rt (tombstones_of (all_sources view)) /\ covers rt key = true /\ seq rt = q).
Proof.
  split.
  - intros (s & Hs & [(e & He & Ek & Eq)|(rt & Hrt & Hc & Eq)]).
    + left. exists (version_of e). split; [|done]. apply version_upto. apply list_elem_of_In, in_flat_map. exists s.
      split; [by apply list_elem_of_In|]. apply in_map, filter_In. split; [by apply list_elem_of_In|].
      by apply bool_decide_eq_true.
    + right. exists rt. split; [|done]. apply in_flat_map. exists s. by rewrite <- !list_elem_of_In.
  - intros [(v & Hv & <-)|(rt & Hrt & Hc & <-)]; [apply version_written; by apply version_upto|by apply tombstone_written].
Qed.

Definition newest_rt : Z := newest_covering (tombstones_of (all_sources view)) key U64_MAX.

Lemma newest_rt_spec : (newest_rt = 0 \/ exists rt, In rt (tombstones_of (all_sources view)) /\ covers rt key = true /\ seq rt = newest_rt) /\
  forall rt, In rt (tombstones_of (all_sources view)) -> covers rt key = true -> seq rt <= newest_rt.
Proof.
  split.
  - destruct (newest_attained (tombstones_of (all_sources view)) key U64_MAX) as [H|(rt & H1 & H2 & _ & H3)]; [by left|].
    right. by exists rt.
  - intros rt Hrt Hc. assert (H : newest_rt <= newest_rt) by lia. apply newest_bound in H as [_ H]. apply H; [done| |done].
    apply (cv_seqs _ Hview key). by apply tombstone_written.
Qed.

(** The newest version at or below a ceiling. *)
Lemma latest_upto_spec ceil :
  match latest_version_upto key ceil view with
  | Some (q, _) => written view key q /\ q <= ceil /\ forall q', written view key q' -> q' <= ceil -> q' <= q
  | None => forall q, written view key q -> ceil < q
  end.
Proof.
  rewrite latest_upto_newest by apply (cv_keys _ Hview). unfold newest_write.
  set (rt := newest_covering _ key ceil). pose proof (view_desc key ceil view (cv_keys _ Hview key)) as Hd.
  assert (Hle : forall q, written view key q -> q <= ceil -> q <= rt \/ exists v, v ∈ upto key ceil (all_sources view) /\ kv_seq v = q).
  { intros q Hw Hq. apply written_cases in Hw as [(v & Hv & <-)|(x & Hx & Hc & <-)].
    - right. exists v. split; [|done]. apply list_elem_of_In, filter_In in Hv as [Hv _]. apply list_elem_of_In, filter_In.
      split; [done|lia].
    - left. assert (Hb : rt <= rt) by lia. apply newest_bound in Hb as [_ Hb]. by apply Hb. }
  assert (Hrt : rt = 0 \/ written view key rt /\ rt <= ceil).
  { destruct (newest_attained (tombstones_of (all_sources view)) key ceil) as [E|(x & Hx & Hc & Hq & E)]; [by left|].
    right. fold rt in E. rewrite <- E. split; [by apply tombstone_written|done]. }
  assert (Hup : forall v, v ∈ upto key ceil (all_sources view) -> written view key (kv_seq v) /\ kv_seq v <= ceil).
  { intros v Hv. apply list_elem_of_In, filter_In in Hv as [Hv Hq]. split; [by apply version_written, list_elem_of_In|lia]. }
  clearbody rt. destruct (upto key ceil (all_sources view)) as [|v vs].
  - destruct (Z.ltb_spec 0 rt) as [H0|H0].
    + destruct Hrt as [->|[Hw Hq]]; [lia|]. split; [done|]. split; [done|]. intros q' Hw' Hq'.
      destruct (Hle q' Hw' Hq') as [|(v & Hv & _)]; [done|]. by apply not_elem_of_nil in Hv.
    + intros q Hw. destruct (Z.lt_ge_cases ceil q) as [|Hq]; [done|]. pose proof (cv_seqs _ Hview _ _ Hw).
      destruct (Hle q Hw Hq) as [|(v & Hv & _)]; [lia|]. by apply not_elem_of_nil in Hv.
  - destruct (Hup v ltac:(set_solver)) as [Hw Hq]. pose proof (cv_seqs _ Hview _ _ Hw) as Hu.
    assert (Hmax : forall w, w ∈ v :: vs -> kv_seq w <= kv_seq v).
    { inversion Hd as [|? ? _ Hv]; subst. rewrite List.Forall_forall in Hv. intros w [->|Hin]%elem_of_cons; [done|].
      apply list_elem_of_In, Hv in Hin. cbn in Hin. lia. }
    destruct (Z.ltb_spec (kv_seq v) rt) as [H1|H1].
    + destruct Hrt as [->|[Hwr Hqr]]; [lia|]. split; [done|]. split; [done|]. intros q' Hw' Hq'.
      destruct (Hle q' Hw' Hq') as [|(w & Hin & <-)]; [done|]. specialize (Hmax w Hin). lia.
    + split; [done|]. split; [done|]. intros q' Hw' Hq'. destruct (Hle q' Hw' Hq') as [|(w & Hin & <-)]; [lia|]. by apply Hmax.
Qed.

Lemma latest_in_view_spec :
  match latest_version_in_view key view with
  | Some (q, _) => written view key q /\ forall q', written view key q' -> q' <= q
  | None => forall q, ~ written view key q
  end.
Proof.
  pose proof (latest_upto_spec U64_MAX) as H. unfold latest_version_in_view.
  destruct (latest_version_upto key U64_MAX view) as [[q k]|].
  - destruct H as (Hw & _ & Hmax). split; [done|]. intros q' Hw'. apply Hmax; [done|]. apply (cv_seqs _ Hview) in Hw'. lia.
  - intros q Hw. specialize (H q Hw). apply (cv_seqs _ Hview) in Hw. lia.
Qed.

Lemma latest_after_above floor : latest_version_after key floor view = above floor (latest_version_in_view key view).
Proof.
  unfold latest_version_after, latest_version_in_view, latest_version_upto.
  rewrite !latest_bounded_scan by apply (cv_keys _ Hview). fold newest_rt. set (last := last_seq (v_version view)).
  rewrite all_sources_split, !flat_map_app.
  assert (Hm : forall f, flat_map (bounded_scan key U64_MAX f last) (memtables view) =
                         flat_map (fun s => scan_key s key U64_MAX) (memtables view)).
  { intros f. pose proof (cv_memtables _ Hview) as H. induction H as [|s l Hs Hl IH]; [done|]. cbn [flat_map].
    rewrite IH. f_equal. by destruct s, f. }
  rewrite !Hm. destruct (Z.leb_spec last floor) as [Hle|Hgt].
  - assert (Ht : flat_map (bounded_scan key U64_MAX (Some floor) last) (map sst_reader (table_files view)) = []).
    { pose proof (cv_tables _ Hview) as H. induction H as [|f l Hs Hl IH]; [done|]. cbn [map flat_map]. rewrite IH, app_nil_r.
      unfold bounded_scan. destruct (sst_reader f) as [es log|es ts]; [destruct (Hs I)|]. by rewrite (proj2 (Z.leb_le _ _)). }
    rewrite Ht, app_nil_r. destruct (flat_map _ (memtables view)) as [|v vs]; [|done]. cbn [app].
    destruct (flat_map (bounded_scan key U64_MAX None last) _) as [|v vs] eqn:Ev; [done|]. cbn [newest_of].
    assert (Hv : exists f, f ∈ table_files view /\ item key (sst_reader f) (kv_seq v)).
    { assert (Hin : In v (v :: vs)) by by left. rewrite <- Ev in Hin. apply in_flat_map in Hin as (s & Hs & Hin).
      apply in_map_iff in Hs as (f & <- & Hf). exists f. split; [by apply list_elem_of_In|].
      assert (Hv : v ∈ upto key U64_MAX [sst_reader f]).
      { apply scan_key_sub.
        - pose proof (view_sources key view (cv_keys _ Hview key)) as Hall. rewrite List.Forall_forall in Hall.
          apply Hall. rewrite all_sources_split, in_app_iff. right. by apply in_map.
        - apply list_elem_of_In. by destruct (sst_reader f). }
      apply upto_item in Hv as (s & Hs & Hi). by assert (s = sst_reader f) as -> by set_solver. }
    destruct Hv as (f & Hf & Hi). pose proof (cv_last _ Hview f key _ Hf Hi). fold last in H.
    assert (written view key (kv_seq v)) as Hw.
    { exists (sst_reader f). split; [|done]. rewrite all_sources_split. apply elem_of_app. right.
      apply list_elem_of_In, in_map. by apply list_elem_of_In. }
    pose proof (cv_seqs _ Hview _ _ Hw).
    destruct (Z.ltb_spec (kv_seq v) newest_rt); [by rewrite (proj2 (Z.ltb_lt 0 _)) by lia|]. cbn [above].
    rewrite (proj2 (Z.ltb_ge floor (kv_seq v))) by lia. destruct (Z.ltb_spec 0 newest_rt); [|done]. cbn [above].
    by rewrite (proj2 (Z.ltb_ge _ _)) by lia.
  - f_equal. f_equal. f_equal. apply flat_map_ext. intros s. unfold bounded_scan. destruct s; [done|].
    by rewrite (proj2 (Z.leb_gt _ _)).
Qed.

Lemma replaced_cases q : replaced_at view key q <->
  (exists v, v ∈ upto key U64_MAX (all_sources view) /\ kv_seq v = q /\ is_merge (kv_type v) = false) \/
  (exists rt, In rt (tombstones_of (all_sources view)) /\ covers rt key = true /\ seq rt = q).
Proof.
  split.
  - intros (s & Hs & [(e & He & Ek & Eq & Em)|(rt & Hrt & Hc & Eq)]).
    + left. exists (version_of e). split; [|done]. apply version_upto. apply list_elem_of_In, in_flat_map. exists s.
      split; [by apply list_elem_of_In|]. apply in_map, filter_In. split; [by apply list_elem_of_In|].
      by apply bool_decide_eq_true.
    + right. exists rt. split; [|done]. apply in_flat_map. exists s. by rewrite <- !list_elem_of_In.
  - intros [(v & Hv & <- & Hm)|(rt & Hrt & Hc & <-)].
    + apply list_elem_of_In, filter_In in Hv as [Hv _]. apply in_flat_map in Hv as (s & Hs & Hv).
      apply in_map_iff in Hv as (e & <- & He). apply filter_In in He as [He Ek]. exists s.
      split; [by apply list_elem_of_In|]. left. exists e. apply bool_decide_eq_true in Ek.
      split; [by apply list_elem_of_In|done].
    + apply in_flat_map in Hrt as (s & Hs & Hrt). exists s. split; [by apply list_elem_of_In|].
      right. exists rt. by rewrite list_elem_of_In.
Qed.

Lemma replaced_written q : replaced_at view key q -> written view key q.
Proof. rewrite replaced_cases, written_cases. naive_solver. Qed.

(** Versions and the newest deletion bound every write from above. *)
Lemma written_bound m : newest_rt <= m -> (forall v, v ∈ upto key U64_MAX (all_sources view) -> kv_seq v <= m) ->
  forall q, written view key q -> q <= m.
Proof.
  intros Hn Hv q [(v & Hin & <-)|(rt & Hin & Hc & <-)]%written_cases; [by apply Hv|].
  destruct newest_rt_spec as [_ Hrt]. specialize (Hrt rt Hin Hc). lia.
Qed.

Lemma replaced_bound m : newest_rt <= m ->
  (forall v, v ∈ upto key U64_MAX (all_sources view) -> is_merge (kv_type v) = false -> kv_seq v <= m) ->
  forall q, replaced_at view key q -> q <= m.
Proof.
  intros Hn Hv q [(v & Hin & <- & Hm)|(rt & Hin & Hc & <-)]%replaced_cases; [by apply Hv|].
  destruct newest_rt_spec as [_ Hrt]. specialize (Hrt rt Hin Hc). lia.
Qed.

Lemma newest_rt_replaced : 0 < newest_rt -> replaced_at view key newest_rt.
Proof.
  destruct newest_rt_spec as [[E|(rt & Hrt & Hc & <-)] _]; [lia|]. intros _. apply replaced_cases. right. by exists rt.
Qed.

Definition landed_is (floor : Z) (l : Landed) : Prop :=
  match l with
  | Nothing => forall q, written view key q -> q <= floor
  | Operands => (exists q, written view key q /\ floor < q) /\ forall q, replaced_at view key q -> q <= floor
  | Replaced q _ => replaced_at view key q /\ floor < q /\ forall q', replaced_at view key q' -> q' <= q
  end.

Lemma landed_above_spec floor : 0 <= floor -> landed_is floor (landed_above key floor view).
Proof.
  intros H0. rewrite landed_above_scan by apply (cv_keys _ Hview). fold newest_rt. unfold landed_of.
  pose proof (view_desc key U64_MAX view (cv_keys _ Hview key)) as Hd.
  pose proof (fun v Hv => proj2 (written_cases (kv_seq v)) (or_introl (ex_intro _ v (conj Hv eq_refl)))) as Hw.
  pose proof replaced_bound as Hrb. pose proof written_bound as Hwb. pose proof (proj2 (replaced_cases newest_rt)) as _.
  pose proof replaced_cases as Hrc. revert Hd Hw Hrb Hwb Hrc. generalize (upto key U64_MAX (all_sources view)) as vs.
  intros vs Hd Hw Hrb Hwb Hrc. pose proof (skip_scan_spec (Z.max floor newest_rt) vs) as Hs.
  destruct (stop _) as [q|].
  - destruct Hs as (a & v & b & -> & Ha & <- & Ht & Ho & Hp). rewrite <- Ht, Hp. clear Ht Hp.
    apply StronglySorted_app in Hd as (Hab & _ & Hvb). inversion Hvb as [|? ? _ Hb]; subst. rewrite List.Forall_forall in Ha, Hb.
    assert (Hnm : forall m, kv_seq v <= m -> forall w, w ∈ a ++ v :: b -> is_merge (kv_type w) = false -> kv_seq w <= m).
    { intros m Hm w [Hin|[->|Hin]%elem_of_cons]%elem_of_app Hw'; [|done|].
      - apply list_elem_of_In, Ha in Hin as [Hin _]. congruence.
      - apply list_elem_of_In, Hb in Hin. cbn in Hin. lia. }
    unfold settle. destruct (Z.ltb_spec (Z.max floor newest_rt) (kv_seq v)) as [Hq|Hq].
    + assert (Hm : is_merge (kv_type v) = false) by (destruct Ho; [lia|done]). cbn [landed_is]. split; [|split; [lia|]].
      * apply Hrc. left. exists v. split; [set_solver|done].
      * apply Hrb; [lia|]. by apply Hnm.
    + destruct (Z.ltb_spec floor newest_rt) as [Hf|Hf].
      * cbn [landed_is]. split; [apply newest_rt_replaced; lia|]. split; [done|]. apply Hrb; [done|]. apply Hnm. lia.
      * destruct a as [|w a]; cbn [landed_is].
        -- apply Hwb; [lia|]. cbn [app]. intros w [->|Hin]%elem_of_cons; [lia|]. apply list_elem_of_In, Hb in Hin. cbn in Hin. lia.
        -- split; [|apply Hrb; [done|apply Hnm; lia]]. exists (kv_seq w). split; [apply Hw; set_solver|].
           destruct (Ha w); [by left|lia].
  - destruct Hs as [Ha ->]. rewrite List.Forall_forall in Ha.
    assert (Hnm : forall m w, w ∈ vs -> is_merge (kv_type w) = false -> kv_seq w <= m).
    { intros m w Hin Hm. apply list_elem_of_In, Ha in Hin as [Hin _]. congruence. }
    destruct (Z.ltb_spec floor newest_rt) as [Hf|Hf].
    + cbn [landed_is]. split; [apply newest_rt_replaced; lia|]. split; [done|]. apply Hrb; [done|]. apply Hnm.
    + destruct vs as [|w vs]; cbn [landed_is].
      * apply Hwb; [done|]. intros w Hin. by apply not_elem_of_nil in Hin.
      * split; [|by apply Hrb, Hnm]. exists (kv_seq w). split; [apply Hw; set_solver|]. destruct (Ha w); [by left|lia].
Qed.

Lemma above_latest_spec floor :
  match above floor (latest_version_in_view key view) with
  | Some (q, _) => written view key q /\ floor < q /\ forall q', written view key q' -> q' <= q
  | None => forall q, written view key q -> q <= floor
  end.
Proof.
  pose proof latest_in_view_spec as H. destruct (latest_version_in_view key view) as [[q k]|]; cbn [above].
  - destruct H as [Hq Hmax]. destruct (Z.ltb_spec floor q); [done|]. intros q' Hq'. specialize (Hmax q' Hq'). lia.
  - intros q Hq. by destruct (H q).
Qed.

Lemma memtable_written s q : s ∈ memtables view -> item key s q -> written view key q.
Proof. intros Hs Hi. exists s. split; [|done]. rewrite all_sources_split. set_solver. Qed.

(** One memtable's probe for the horizon. *)
Lemma memtable_above s h : s ∈ memtables view -> 0 <= h ->
  match latest_version s key U64_MAX with Some (q, _) => h <? q | None => false end
    || (h <? covering_range_tombstone_seq s key U64_MAX) = true <->
  exists q, item key s q /\ h < q.
Proof.
  intros Hs H0. assert (Hok : source_ok s).
  { pose proof (view_sources key view (cv_keys _ Hview key)) as H. rewrite List.Forall_forall in H. apply H.
    apply list_elem_of_In. rewrite all_sources_split. set_solver. }
  assert (Hd : StronglySorted (fun v w => kv_seq w < kv_seq v) (upto key U64_MAX [s])).
  { destruct (cv_keys _ Hview key) as [[_ Hr _] _]. rewrite List.Forall_forall in Hr. apply sorted_filter, Hr.
    unfold view_layers, layers_from. rewrite in_app_iff. left. apply (in_map (fun s => [s])). by apply list_elem_of_In. }
  unfold latest_version. rewrite (scan_key_spec s key U64_MAX Hok). change (List.filter _ _) with (upto key U64_MAX [s]).
  rewrite (covering_newest s key U64_MAX Hok), orb_true_iff, Z.ltb_lt. split.
  - intros [H|H].
    + destruct (upto key U64_MAX [s]) as [|v vs] eqn:E; [done|]. apply Z.ltb_lt in H. exists (kv_seq v). split; [|done].
      assert (Hv : v ∈ upto key U64_MAX [s]) by (rewrite E; set_solver). apply upto_item in Hv as (s' & Hin & Hi).
      by assert (s' = s) as -> by set_solver.
    + destruct (newest_attained (s_tombstones s) key U64_MAX) as [E|(rt & Hin & Hc & _ & Eq)]; [lia|].
      exists (seq rt). split; [|lia]. right. exists rt. by rewrite list_elem_of_In.
  - intros (q & Hi & Hq). pose proof (cv_seqs _ Hview key q (memtable_written s q Hs Hi)) as Hu.
    destruct Hi as [(e & He & Ek & <-)|(rt & Hrt & Hc & <-)].
    + left. assert (Hv : version_of e ∈ upto key U64_MAX [s]).
      { apply list_elem_of_In, filter_In. split; [|apply Z.leb_le; cbn; lia]. cbn. rewrite app_nil_r.
        apply in_map, filter_In. split; [by apply list_elem_of_In|]. by apply bool_decide_eq_true. }
      destruct (upto key U64_MAX [s]) as [|v vs]; [by apply not_elem_of_nil in Hv|]. apply Z.ltb_lt.
      inversion Hd as [|? ? _ Hlt]; subst. rewrite List.Forall_forall in Hlt.
      apply elem_of_cons in Hv as [<-|Hv]; [done|]. apply list_elem_of_In, Hlt in Hv. cbn in Hv. lia.
    + right. apply Z.lt_le_trans with (seq rt); [done|]. assert (Hb : newest_covering (s_tombstones s) key U64_MAX <=
        newest_covering (s_tombstones s) key U64_MAX) by lia. apply newest_bound in Hb as [_ Hb].
      apply Hb; [by apply list_elem_of_In|lia|done].
Qed.

Lemma horizon_spec h only : 0 <= h -> (only = true -> last_seq (v_version view) <= h) ->
  landed_above_horizon key h view only = true <-> exists q, written view key q /\ h < q.
Proof.
  intros H0 Hlast. unfold landed_above_horizon. destruct only; cbn [negb].
  - specialize (Hlast eq_refl). rewrite existsb_exists. split.
    + intros (s & Hs & H). apply list_elem_of_In in Hs. apply (memtable_above s h Hs H0) in H as (q & Hi & Hq).
      exists q. split; [by apply (memtable_written s)|done].
    + intros (q & (s & Hs & Hi) & Hq). rewrite all_sources_split in Hs. apply elem_of_app in Hs as [Hs|Hs].
      * exists s. split; [by apply list_elem_of_In|]. apply (memtable_above s h Hs H0). by exists q.
      * apply list_elem_of_In, in_map_iff in Hs as (f & <- & Hf). apply list_elem_of_In in Hf.
        pose proof (cv_last _ Hview f key q Hf Hi). lia.
  - rewrite latest_after_above. pose proof (above_latest_spec h) as H. destruct (above h _) as [[q k]|].
    + destruct H as (Hw & Hq & _). rewrite Z.ltb_lt. split; [by exists q|done].
    + split; [done|]. intros (q & Hw & Hq). specialize (H q Hw). lia.
Qed.

End Facts.

(** ** Writes inside a range *)

Definition in_range (lo hi key : bytes) : bool := bytes_leb lo key && bytes_ltb key hi.

Lemma in_range_spec lo hi key : in_range lo hi key = true <-> bytes_le lo key /\ bytes_lt key hi.
Proof.
  unfold in_range. destruct (bytes_leb_spec lo key), (bytes_ltb_spec key hi); cbn; intuition done.
Qed.

(** The window of sequences one source is asked for. *)
Definition wanted (s : Source) (floor ceil q : Z) : bool :=
  match s with Memtable _ _ => (floor <? q) && (q <=? ceil) | Table _ _ => floor <? q end.

Lemma range_scan_find hi w es : StronglySorted entry_before es ->
  range_scan hi w es =
  (fun e => (e_key e, e_seq e, e_type e)) <$> List.find (fun e => bytes_ltb (e_key e) hi && w (e_seq e)) es.
Proof.
  induction 1 as [|e es Hs IH He]; [done|]. cbn [range_scan List.find].
  destruct (bytes_leb_spec hi (e_key e)) as [Hle|Hlt].
  - assert (Hno : forall x, In x (e :: es) -> bytes_ltb (e_key x) hi && w (e_seq x) = false).
    { intros x Hx. destruct (bytes_ltb_spec (e_key x) hi) as [Hx'|]; [|done]. exfalso. apply (bytes_lt_irrefl hi).
      destruct Hx as [<-|Hx]; [by eapply bytes_le_lt_trans|]. rewrite List.Forall_forall in He.
      destruct (He x Hx) as [Hb|[Hb _]]; eapply bytes_le_lt_trans; [exact Hle|by eapply bytes_lt_trans|exact Hle|by rewrite Hb]. }
    rewrite (Hno e (or_introl eq_refl)). destruct (List.find _ es) as [x|] eqn:Ef; [|done].
    apply List.find_some in Ef as [Hin Hx]. rewrite (Hno x (or_intror Hin)) in Hx. done.
  - assert (Hlt' : bytes_ltb (e_key e) hi = true).
    { apply bytes_not_le in Hlt. by destruct (bytes_ltb_spec (e_key e) hi). }
    rewrite Hlt'. cbn [andb]. destruct (w (e_seq e)); [done|exact IH].
Qed.

Lemma find_ext_in {A} (f g : A -> bool) l : (forall x, In x l -> f x = g x) -> List.find f l = List.find g l.
Proof.
  induction l as [|x l IH]; intros H; [done|]. cbn [List.find]. rewrite (H x (or_introl eq_refl)).
  destruct (g x); [done|]. apply IH. intros y Hy. by apply H; right.
Qed.

Lemma newer_in_range_find s lo hi floor ceil : source_ok s -> Forall (fun e => e_seq e <= U64_MAX) (s_entries s) ->
  newer_in_range s lo hi floor ceil =
  (fun e => (e_key e, e_seq e, e_type e)) <$>
  List.find (fun e => in_range lo hi (e_key e) && wanted s floor ceil (e_seq e)) (s_entries s).
Proof.
  intros [Hs _ _] Hu. unfold newer_in_range.
  assert (H : forall w, range_scan hi w (drop_while (before_lookup lo U64_MAX) (s_entries s)) =
    (fun e => (e_key e, e_seq e, e_type e)) <$>
    List.find (fun e => in_range lo hi (e_key e) && w (e_seq e)) (s_entries s)).
  { intros w. induction Hs as [|e es Hs IH He]; [done|]. inversion Hu as [|? ? Hue Hu']; subst. cbn [drop_while].
    unfold before_lookup at 1. pose proof (bytes_cmp_opp (e_key e) lo) as Hopp. destruct (bytes_cmp (e_key e) lo) eqn:Ec.
    - apply bytes_cmp_eq in Ec. rewrite (proj2 (Z.ltb_ge _ _)) by done. rewrite range_scan_find by by constructor.
      f_equal. apply find_ext_in. intros x Hx. unfold in_range. f_equal.
      assert (bytes_le lo (e_key x)) as Hle.
      { destruct Hx as [<-|Hx]; [rewrite Ec; apply bytes_le_refl|]. rewrite List.Forall_forall in He.
        rewrite <- Ec. destruct (He x Hx) as [Hb|[Hb _]]; [by apply bytes_lt_le|rewrite Hb; apply bytes_le_refl]. }
      by destruct (bytes_leb_spec lo (e_key x)).
    - rewrite (IH Hu'). cbn [List.find]. unfold in_range at 2. destruct (bytes_leb_spec lo (e_key e)) as [Hle|]; [|done].
      unfold bytes_le in Hle. rewrite Hopp in Hle. cbn in Hle. by destruct Hle.
    - assert (Hlt : bytes_lt lo (e_key e)) by (unfold bytes_lt; by rewrite Hopp).
      rewrite range_scan_find by by constructor. f_equal. apply find_ext_in. intros x Hx. unfold in_range. f_equal.
      assert (bytes_le lo (e_key x)) as Hle.
      { apply bytes_lt_le. destruct Hx as [<-|Hx]; [done|]. rewrite List.Forall_forall in He.
        destruct (He x Hx) as [Hb|[Hb _]]; [by eapply bytes_lt_trans|by rewrite <- Hb]. }
      by destruct (bytes_leb_spec lo (e_key x)). }
  destruct s; apply H.
Qed.

(** A source's tombstones as they are listed. *)
Definition listed (s : Source) : list RangeTombstone :=
  match s with Memtable _ log => sort_by tomb_cmp (ready log) | Table _ ts => ts end.

Lemma listed_In s rt : In rt (listed s) <-> rt ∈ s_tombstones s.
Proof. rewrite list_elem_of_In. destruct s; cbn [listed s_tombstones]; [|done]. by rewrite sort_by_perm. Qed.

Lemma newer_tombstone_find s lo hi floor ceil : source_ok s ->
  newer_range_tombstone s lo hi floor ceil =
  (fun t => (bytes_max (start t) lo, seq t)) <$>
  List.find (fun t => wanted s floor ceil (seq t) && overlaps t lo hi) (listed s).
Proof.
  intros [_ _ Hlog]. destruct s as [es log|es ts]; [|done]. destruct Hlog as [ps Hlog].
  cbn [newer_range_tombstone listed wanted].
  by rewrite (first_newer_overlap_ready (log, ps) lo hi floor ceil Hlog : first_newer_overlap log lo hi floor ceil = _).
Qed.

(** Where a tombstone reaches into a range is a key of the range it deletes. *)
Lemma overlap_at t lo hi : bytes_lt (start t) (end_ t) -> overlaps t lo hi = true -> bytes_lt lo hi ->
  bytes_le lo (bytes_max (start t) lo) /\ bytes_lt (bytes_max (start t) lo) hi /\ covers t (bytes_max (start t) lo) = true.
Proof.
  intros Ht Ho Hr. unfold overlaps, covers, bytes_max in *. apply andb_true_iff in Ho as [H1 H2].
  destruct (bytes_ltb_spec (start t) hi) as [H1'|]; [|done]. destruct (bytes_ltb_spec lo (end_ t)) as [H2'|]; [|done].
  destruct (bytes_leb_spec (start t) lo) as [Hle|Hgt].
  - split; [apply bytes_le_refl|]. split; [done|]. by destruct (bytes_leb_spec (start t) lo), (bytes_ltb_spec lo (end_ t)).
  - apply bytes_not_le in Hgt. split; [by apply bytes_lt_le|]. split; [done|].
    destruct (bytes_leb_spec (start t) (start t)) as [|Hn]; [|destruct Hn; apply bytes_le_refl].
    by destruct (bytes_ltb_spec (start t) (end_ t)).
Qed.

Lemma overlap_key t lo hi : bytes_lt (start t) (end_ t) -> bytes_lt lo hi ->
  overlaps t lo hi = true <-> exists key, bytes_le lo key /\ bytes_lt key hi /\ covers t key = true.
Proof.
  intros Ht Hr. split; [intros Ho; exists (bytes_max (start t) lo); by apply overlap_at|]. unfold overlaps, covers.
  intros (key & H1 & H2 & [H3 H4]%andb_true_iff). destruct (bytes_leb_spec (start t) key) as [H3'|]; [|done].
  destruct (bytes_ltb_spec key (end_ t)) as [H4'|]; [|done]. apply andb_true_iff.
  destruct (bytes_ltb_spec (start t) hi) as [|Hn]; [|destruct Hn; by eapply bytes_le_lt_trans].
  destruct (bytes_ltb_spec lo (end_ t)) as [|Hn]; [done|destruct Hn; by eapply bytes_le_lt_trans].
Qed.

Section RangeRule.
Context (lo hi : bytes) (floor ceil : Z) (Hrange : bytes_lt lo hi).

Definition found_in (s : Source) (o : option (bytes * Z * WriteKind)) : Prop :=
  match o with
  | Some (key, q, _) => bytes_le lo key /\ bytes_lt key hi /\ item key s q /\ wanted s floor ceil q = true
  | None => forall key q, bytes_le lo key -> bytes_lt key hi -> item key s q -> wanted s floor ceil q = false
  end.

(** What is asked of a source for its own answer to be exact. *)
Record range_source (s : Source) : Prop := {
  rs_ok : source_ok s;
  rs_seqs : Forall (fun e => e_seq e <= U64_MAX) (s_entries s);
  rs_tombs : forall t, t ∈ s_tombstones s -> bytes_lt (start t) (end_ t);
}.

Lemma entry_found s : range_source s ->
  match entry_write (newer_in_range s lo hi floor ceil) with
  | Some w => found_in s (Some w)
  | None => forall e, e ∈ s_entries s -> in_range lo hi (e_key e) = true -> wanted s floor ceil (e_seq e) = false
  end.
Proof.
  intros [Hok Hu _]. rewrite newer_in_range_find by done.
  destruct (List.find _ _) as [e|] eqn:Ef; cbn.
  - apply List.find_some in Ef as [Hin [H1 H2]%andb_true_iff]. apply in_range_spec in H1 as [Hlo Hhi].
    split_and!; try done. left. exists e. by rewrite list_elem_of_In.
  - intros e He Hr. apply list_elem_of_In in He. pose proof (List.find_none _ _ Ef e He) as H. cbn in H.
    by rewrite Hr in H.
Qed.

Lemma tombstone_found s : range_source s ->
  match tombstone_write (newer_range_tombstone s lo hi floor ceil) with
  | Some w => found_in s (Some w)
  | None => forall t, t ∈ s_tombstones s -> overlaps t lo hi = true -> wanted s floor ceil (seq t) = false
  end.
Proof.
  intros [Hok _ Ht]. rewrite newer_tombstone_find by done.
  destruct (List.find _ _) as [t|] eqn:Ef; cbn.
  - apply List.find_some in Ef as [Hin [H1 H2]%andb_true_iff]. apply listed_In in Hin.
    destruct (overlap_at t lo hi (Ht t Hin) H2 Hrange) as (Hlo & Hhi & Hc). split_and!; try done. right. by exists t.
  - intros t Hin Ho. apply listed_In in Hin. pose proof (List.find_none _ _ Ef t Hin) as H. cbn in H.
    by rewrite Ho, andb_true_r in H.
Qed.

Lemma nothing_found s : range_source s ->
  (forall e, e ∈ s_entries s -> in_range lo hi (e_key e) = true -> wanted s floor ceil (e_seq e) = false) ->
  (forall t, t ∈ s_tombstones s -> overlaps t lo hi = true -> wanted s floor ceil (seq t) = false) -> found_in s None.
Proof.
  intros [_ _ Ht] He Hto key q H1 H2 [(e & Hin & <- & <-)|(t & Hin & Hc & <-)].
  - apply He; [done|]. by apply in_range_spec.
  - apply Hto; [done|]. apply overlap_key; [by apply Ht|done|by exists key].
Qed.

(** Both orders of asking a source. *)
Lemma source_found s : range_source s ->
  found_in s (or_else (entry_write (newer_in_range s lo hi floor ceil))
                      (tombstone_write (newer_range_tombstone s lo hi floor ceil))) /\
  found_in s (or_else (tombstone_write (newer_range_tombstone s lo hi floor ceil))
                      (entry_write (newer_in_range s lo hi floor ceil))).
Proof.
  intros Hs. pose proof (entry_found s Hs) as He. pose proof (tombstone_found s Hs) as Ht.
  destruct (entry_write _) as [w|], (tombstone_write _) as [w'|]; cbn [or_else]; split; try done; by apply nothing_found.
Qed.

Lemma first_found (f : Source -> option (bytes * Z * WriteKind)) srcs : Forall (fun s => found_in s (f s)) srcs ->
  match first_some f srcs with
  | Some w => exists s, s ∈ srcs /\ found_in s (Some w)
  | None => Forall (fun s => found_in s None) srcs
  end.
Proof.
  induction 1 as [|s srcs Hs Hsrcs IH]; cbn [first_some]; [constructor|]. destruct (f s) as [w|].
  - exists s. split; [by left|done].
  - destruct (first_some f srcs) as [w|]; [|by constructor]. destruct IH as (s' & Hin & H). exists s'. split; [by right|done].
Qed.

Lemma source_floor_ext s floor' : range_source s ->
  (forall key q, bytes_le lo key -> bytes_lt key hi -> item key s q -> (floor <? q) = (floor' <? q)) ->
  newer_in_range s lo hi floor ceil = newer_in_range s lo hi floor' ceil /\
  newer_range_tombstone s lo hi floor ceil = newer_range_tombstone s lo hi floor' ceil.
Proof.
  intros [Hok Hu Ht] H.
  assert (Hw : forall key q, bytes_le lo key -> bytes_lt key hi -> item key s q -> wanted s floor ceil q = wanted s floor' ceil q).
  { intros key q H1 H2 Hi. unfold wanted. rewrite (H key q H1 H2 Hi). done. }
  rewrite !newer_in_range_find, !newer_tombstone_find by done. split; f_equal; apply find_ext_in.
  - intros e He. destruct (in_range lo hi (e_key e)) eqn:Er; [|done]. cbn [andb]. apply in_range_spec in Er as [H1 H2].
    apply (Hw (e_key e)); [done|done|]. left. exists e. by rewrite list_elem_of_In.
  - intros t Hin. destruct (overlaps t lo hi) eqn:Eo; [|by rewrite !andb_false_r]. f_equal. apply listed_In in Hin.
    apply (proj1 (overlap_key t lo hi (Ht t Hin) Hrange)) in Eo as (key & H1 & H2 & Hc).
    apply (Hw key); [done|done|]. right. by exists t.
Qed.

End RangeRule.

Section RangeView.
Context (view : ReadView) (Hview : commit_view view).

Lemma range_sources : Forall range_source (all_sources view).
Proof.
  apply List.Forall_forall. intros s Hs. split.
  - pose proof (view_sources [] view (cv_keys _ Hview [])) as H. rewrite List.Forall_forall in H. by apply H.
  - apply List.Forall_forall. intros e He. apply (cv_seqs _ Hview (e_key e)). exists s. rewrite list_elem_of_In.
    split; [done|]. left. exists e. by rewrite list_elem_of_In.
  - intros t Ht. apply (cv_ranges _ Hview s); [by apply list_elem_of_In|done].
Qed.

Lemma table_file_ok f key : f ∈ table_files view -> table_ok key f.
Proof.
  unfold table_files. cbv zeta. rewrite list_elem_of_In, in_app_iff, <- in_rev. intros [Hf|Hf].
  - pose proof (cv_l0 _ Hview key) as H. rewrite List.Forall_forall in H. by apply H.
  - apply in_concat in Hf as (files & Hl & Hf). destruct (cv_keys _ Hview key) as [_ Hr].
    rewrite List.Forall_forall in Hr. destruct (Hr files Hl) as (_ & _ & Ht). rewrite List.Forall_forall in Ht. by apply Ht.
Qed.

(** The tables the range rule asks. *)
Definition range_files (lo hi : bytes) : list (LiveSst Source) :=
  let ls := levels (v_version view) in
  List.filter (fun f => bytes_ltb (smallest_key (meta f)) hi && bytes_leb lo (largest_key (meta f)))
    (rev (level_files ls 0)) ++ flat_map (fun files => overlapping files lo hi) (drop 1 ls).

Lemma range_files_spec lo hi f : f ∈ range_files lo hi -> f ∈ table_files view.
Proof.
  unfold range_files, table_files. cbv zeta. rewrite !list_elem_of_In, !in_app_iff, filter_In.
  intros [[Hf _]|Hf]; [by left|]. right. apply in_flat_map in Hf as (files & Hl & Hf). apply in_concat. exists files.
  split; [done|]. destruct (cv_keys _ Hview []) as [_ Hr]. rewrite List.Forall_forall in Hr.
  destruct (Hr files Hl) as (Hok & Hs & _). rewrite overlapping_filter in Hf by done. by apply filter_In in Hf as [Hf _].
Qed.

(** A table with a write in the range is asked. *)
Lemma range_files_all lo hi f key q : f ∈ table_files view -> bytes_le lo key -> bytes_lt key hi ->
  item key (sst_reader f) q -> f ∈ range_files lo hi.
Proof.
  intros Hf Hlo Hhi Hi. destruct (proj1 (table_file_ok f key Hf) q Hi) as [Hs Hl].
  assert (H1 : bytes_lt (smallest_key (meta f)) hi) by by eapply bytes_le_lt_trans.
  assert (H2 : bytes_le lo (largest_key (meta f))) by by eapply bytes_le_trans.
  unfold range_files, table_files in *. cbv zeta in *. rewrite !list_elem_of_In, !in_app_iff, filter_In in *.
  destruct Hf as [Hf|Hf].
  - left. split; [done|]. destruct (bytes_ltb_spec (smallest_key (meta f)) hi), (bytes_leb_spec lo (largest_key (meta f))); done.
  - right. apply in_concat in Hf as (files & Hin & Hf). apply in_flat_map. exists files. split; [done|].
    destruct (cv_keys _ Hview []) as [_ Hr]. rewrite List.Forall_forall in Hr. destruct (Hr files Hin) as (Hok & Hsr & _).
    rewrite overlapping_filter by done. apply filter_In. split; [done|]. apply bytes_lt_le in H1.
    destruct (bytes_leb_spec (smallest_key (meta f)) hi), (bytes_leb_spec lo (largest_key (meta f))); done.
Qed.

Lemma memtable_wanted s floor ceil q : s ∈ memtables view -> wanted s floor ceil q = (floor <? q) && (q <=? ceil).
Proof.
  intros Hs. pose proof (cv_memtables _ Hview) as H. rewrite List.Forall_forall in H.
  apply list_elem_of_In, H in Hs. by destruct s.
Qed.

Lemma table_wanted f floor ceil q : f ∈ table_files view -> wanted (sst_reader f) floor ceil q = (floor <? q).
Proof.
  intros Hf. pose proof (cv_tables _ Hview) as H. rewrite List.Forall_forall in H.
  apply list_elem_of_In, H in Hf. destruct (sst_reader f); [by destruct Hf|done].
Qed.

Definition range_is (lo hi : bytes) (floor ceil : Z) (o : option (bytes * Z * WriteKind)) : Prop :=
  match o with
  | Some (key, q, _) => bytes_le lo key /\ bytes_lt key hi /\ written view key q /\ floor < q <= ceil
  | None => forall key q, bytes_le lo key -> bytes_lt key hi -> written view key q -> ~ (floor < q <= ceil)
  end.

Lemma range_rule_spec lo hi floor ceil only :
  (only = true -> last_seq (v_version view) <= floor) -> ceil = U64_MAX \/ last_seq (v_version view) <= ceil ->
  range_is lo hi floor ceil (written_in_range_of lo hi floor ceil view only).
Proof.
  intros Honly Hceil. unfold written_in_range_of. destruct (bytes_leb_spec hi lo) as [Hle|Hlt].
  { intros key q H1 H2 _ _. apply (bytes_lt_irrefl key). eapply bytes_lt_le_trans; [exact H2|]. by eapply bytes_le_trans. }
  apply bytes_not_le in Hlt. pose proof range_sources as Hsrc. rewrite all_sources_split in Hsrc.
  apply Forall_app in Hsrc as [Hm Ht]. cbv zeta. fold (range_files lo hi).
  pose proof (first_found lo hi floor ceil _ (memtables view)
    (List.Forall_impl _ (fun s Hs => proj1 (source_found lo hi floor ceil Hlt s Hs)) Hm)) as Hfm.
  destruct (first_some _ (memtables view)) as [[[key q] k]|]; cbn [or_else].
  { destruct Hfm as (s & Hs & H1 & H2 & Hi & Hw). rewrite memtable_wanted in Hw by done. split_and!; try done; try lia.
    by apply (memtable_written key view Hview s). }
  assert (Hmem : forall s key q, s ∈ memtables view -> bytes_le lo key -> bytes_lt key hi -> item key s q -> ~ (floor < q <= ceil)).
  { intros s key q Hs H1 H2 Hi Hq. rewrite List.Forall_forall in Hfm. pose proof (proj1 (list_elem_of_In _ _) Hs) as Hs'.
    specialize (Hfm s Hs' key q H1 H2 Hi). rewrite memtable_wanted in Hfm by done. lia. }
  destruct only.
  { intros key q H1 H2 (s & Hs & Hi) Hq. rewrite all_sources_split in Hs. apply elem_of_app in Hs as [Hs|Hs]; [by eapply Hmem|].
    apply list_elem_of_In, in_map_iff in Hs as (f & <- & Hf). apply list_elem_of_In in Hf.
    pose proof (cv_last _ Hview f key q Hf Hi). specialize (Honly eq_refl). lia. }
  assert (Htf : Forall range_source (map sst_reader (range_files lo hi))).
  { rewrite List.Forall_forall in *. intros s Hs. apply Ht. apply in_map_iff in Hs as (f & <- & Hf). apply in_map.
    apply list_elem_of_In. apply (range_files_spec lo hi). by apply list_elem_of_In. }
  pose proof (first_found lo hi floor ceil _ (map sst_reader (range_files lo hi))
    (List.Forall_impl _ (fun s Hs => proj2 (source_found lo hi floor ceil Hlt s Hs)) Htf)) as Hft.
  destruct (first_some _ (map sst_reader (range_files lo hi))) as [[[key q] k]|].
  - destruct Hft as (s & Hs & H1 & H2 & Hi & Hw). apply list_elem_of_In, in_map_iff in Hs as (f & <- & Hf).
    apply list_elem_of_In, range_files_spec in Hf. rewrite table_wanted in Hw by done. apply Z.ltb_lt in Hw.
    assert (Hwr : written view key q).
    { exists (sst_reader f). split; [|done]. rewrite all_sources_split. apply elem_of_app. right.
      apply list_elem_of_In, in_map. by apply list_elem_of_In. }
    pose proof (cv_last _ Hview f key q Hf Hi). pose proof (cv_seqs _ Hview _ _ Hwr). split_and!; try done; lia.
  - intros key q H1 H2 (s & Hs & Hi) Hq. rewrite all_sources_split in Hs. apply elem_of_app in Hs as [Hs|Hs]; [by eapply Hmem|].
    apply list_elem_of_In, in_map_iff in Hs as (f & <- & Hf). apply list_elem_of_In in Hf.
    pose proof (range_files_all lo hi f key q Hf H1 H2 Hi) as Hfr. rewrite List.Forall_forall in Hft.
    specialize (Hft (sst_reader f) (in_map _ _ _ (proj1 (list_elem_of_In _ _) Hfr)) key q H1 H2 Hi).
    rewrite table_wanted in Hft by done. lia.
Qed.

Lemma first_some_ext {A B} (f g : A -> option B) l : (forall x, In x l -> f x = g x) -> first_some f l = first_some g l.
Proof.
  induction l as [|x l IH]; intros H; [done|]. cbn [first_some]. rewrite (H x (or_introl eq_refl)).
  destruct (g x); [done|]. apply IH. intros y Hy. by apply H; right.
Qed.

(** Two floors no write of the range tells apart give one answer. *)
Lemma range_floor_ext lo hi floor floor' ceil only :
  (forall key q, bytes_le lo key -> bytes_lt key hi -> written view key q -> (floor <? q) = (floor' <? q)) ->
  written_in_range_of lo hi floor ceil view only = written_in_range_of lo hi floor' ceil view only.
Proof.
  intros H. unfold written_in_range_of. destruct (bytes_leb_spec hi lo) as [|Hlt]; [done|]. apply bytes_not_le in Hlt.
  assert (Hs : forall s, s ∈ all_sources view ->
    newer_in_range s lo hi floor ceil = newer_in_range s lo hi floor' ceil /\
    newer_range_tombstone s lo hi floor ceil = newer_range_tombstone s lo hi floor' ceil).
  { intros s Hin. apply (source_floor_ext lo hi floor ceil Hlt).
    - pose proof range_sources as Hr. rewrite List.Forall_forall in Hr. by apply Hr, list_elem_of_In.
    - intros key q H1 H2 Hi. apply (H key q H1 H2). by exists s. }
  rewrite all_sources_split in Hs. cbv zeta. fold (range_files lo hi). f_equal.
  - apply first_some_ext. intros s Hin. destruct (Hs s) as [-> ->]; [|done]. apply elem_of_app. left. by apply list_elem_of_In.
  - destruct only; [done|]. apply first_some_ext. intros s Hin. destruct (Hs s) as [-> ->]; [|done]. apply elem_of_app. right.
    apply in_map_iff in Hin as (f & <- & Hf). apply list_elem_of_In, in_map, list_elem_of_In, (range_files_spec lo hi).
    by apply list_elem_of_In.
Qed.

(** No table above the floor: asking the memtables is asking all. *)
Lemma range_only lo hi floor : last_seq (v_version view) <= floor ->
  written_in_range_of lo hi floor U64_MAX view true = written_in_range_of lo hi floor U64_MAX view false.
Proof.
  intros Hlast. pose proof (range_rule_spec lo hi floor U64_MAX true (fun _ => Hlast) (or_introl eq_refl)) as Ht.
  pose proof (range_rule_spec lo hi floor U64_MAX false ltac:(done) (or_introl eq_refl)) as Hf. revert Ht Hf.
  unfold written_in_range_of. destruct (bytes_leb hi lo); [done|]. destruct (first_some _ (memtables view)); [done|].
  cbn [or_else]. intros Ht Hf. destruct (first_some _ _) as [[[key q] k]|]; [|done].
  destruct Hf as (H1 & H2 & Hw & Hq). by destruct (Ht key q H1 H2 Hw).
Qed.

End RangeView.

(** ** Checking a view for commits *)

Lemma source_desc key s : StronglySorted entry_before (s_entries s) ->
  StronglySorted (fun v w => kv_seq w < kv_seq v) (key_entries key [s]).
Proof.
  intros Hs. unfold key_entries. cbn. rewrite app_nil_r, sorted_map.
  assert (Hk : Forall (fun e => e_key e = key) (List.filter (fun e => bytes_eqb (e_key e) key) (s_entries s))).
  { apply List.Forall_forall. intros e [_ He]%filter_In. by apply bool_decide_eq_true in He. }
  pose proof (sorted_filter _ (fun e => bytes_eqb (e_key e) key) _ Hs) as Hf. revert Hk Hf.
  generalize (List.filter (fun e => bytes_eqb (e_key e) key) (s_entries s)) as l. intros l Hk Hf.
  induction Hf as [|e l Hl IH He]; [constructor|]. inversion Hk as [|? ? Ek Hk']; subst. constructor; [by apply IH|].
  rewrite List.Forall_forall in *. intros x Hx. destruct (He x Hx) as [Hb|[_ Hb]]; [|done].
  rewrite (Hk' x Hx) in Hb. by apply bytes_lt_irrefl in Hb.
Qed.

Definition all_seqs (s : Source) : list Z := map e_seq (s_entries s) ++ map seq (s_tombstones s).

Definition newer_seqs (a b : list Source) : Prop :=
  Forall (fun p => Forall (fun q => q < p) (flat_map all_seqs b)) (flat_map all_seqs a).
#[export] Instance newer_seqs_dec : RelDecision newer_seqs.
Proof. intros a b. unfold newer_seqs. apply _. Defined.

(** A table's entries and tombstones lie strictly inside its bounds. *)
Definition bounds_ok (f : LiveSst Source) : Prop :=
  Forall (fun e => bytes_le (smallest_key (meta f)) (e_key e) /\ bytes_le (e_key e) (largest_key (meta f))) (s_entries (sst_reader f)) /\
  Forall (fun t => bytes_le (smallest_key (meta f)) (start t) /\ bytes_le (end_ t) (largest_key (meta f))) (s_tombstones (sst_reader f)) /\
  (0 < num_entries (meta f) \/ s_entries (sst_reader f) = nil).
#[export] Instance bytes_lt_dec : RelDecision bytes_lt.
Proof. intros a b. unfold bytes_lt. apply _. Defined.

Definition memtableb (s : Source) : bool := match s with Memtable _ _ => true | Table _ _ => false end.

Definition commit_viewb (view : ReadView) : bool :=
  bool_decide (StronglySorted newer_seqs (view_layers view)) &&
  bool_decide (Forall (fun s => StronglySorted entry_before (s_entries s) /\ Forall (fun e => type_ok (e_type e)) (s_entries s) /\
                 Forall (fun q => 0 < q <= U64_MAX) (all_seqs s) /\
                 Forall (fun t => bytes_lt (start t) (end_ t)) (s_tombstones s)) (all_sources view)) &&
  bool_decide (Forall (fun files =>
     Forall (fun f => bytes_le (smallest_key (meta f)) (largest_key (meta f))) files /\
     StronglySorted (fun a b => bytes_lt (largest_key (meta a)) (smallest_key (meta b))) files) (drop 1 (levels (v_version view)))) &&
  bool_decide (Forall (fun f => bounds_ok f /\ memtableb (sst_reader f) = false /\
                 Forall (fun q => q <= last_seq (v_version view)) (all_seqs (sst_reader f))) (table_files view)) &&
  forallb memtableb (memtables view).

Lemma item_all key s q : item key s q -> In q (all_seqs s).
Proof.
  unfold all_seqs. rewrite in_app_iff, !in_map_iff. setoid_rewrite <- list_elem_of_In. unfold item. naive_solver.
Qed.

Lemma bounds_table_ok key f : bounds_ok f -> table_ok key f.
Proof.
  intros (He & Ht & Hn). split.
  - rewrite !List.Forall_forall in *. intros q [(e & Hin & <- & _)|(t & Hin & Hc & _)]; apply list_elem_of_In in Hin.
    + by apply He.
    + destruct (Ht t Hin) as [H1 H2]. apply andb_true_iff in Hc as [H3 H4].
      destruct (bytes_leb_spec (start t) key) as [H3'|]; [|done]. destruct (bytes_ltb_spec key (end_ t)) as [H4'|]; [|done].
      split; [by eapply bytes_le_trans|]. apply bytes_lt_le. by eapply bytes_lt_le_trans.
  - intros Hz. destruct Hn; [lia|done].
Qed.

Lemma disjoint_desc key files : Forall bounds_ok files -> Forall (fun f => StronglySorted entry_before (s_entries (sst_reader f))) files ->
  Forall (fun f => bytes_le (smallest_key (meta f)) (largest_key (meta f))) files ->
  StronglySorted (fun a b => bytes_lt (largest_key (meta a)) (smallest_key (meta b))) files ->
  StronglySorted (fun v w => kv_seq w < kv_seq v) (key_entries key (map sst_reader files)).
Proof.
  intros Hb Hs Hr Hd. induction Hd as [|f files Hd IH Hf]; [constructor|].
  inversion Hb as [|? ? Hbf Hb']; subst. inversion Hs as [|? ? Hsf Hs']; subst. inversion Hr as [|? ? Hrf Hr']; subst.
  cbn [map]. change (sst_reader f :: map sst_reader files) with ([sst_reader f] ++ map sst_reader files).
  rewrite key_entries_app. apply StronglySorted_app. split_and!; [|by apply source_desc|by apply IH].
  intros v w Hv Hw. exfalso. apply key_entries_item in Hv as (s & Hin & Hi). assert (s = sst_reader f) as -> by set_solver.
  apply key_entries_item in Hw as (t & Ht & Hj). apply list_elem_of_In, in_map_iff in Ht as (g & <- & Hg).
  rewrite List.Forall_forall in Hf, Hb'. specialize (Hf g Hg). destruct (proj1 (bounds_table_ok key f Hbf) _ Hi) as [_ H1].
  destruct (proj1 (bounds_table_ok key g (Hb' g Hg)) _ Hj) as [H2 _]. apply (bytes_lt_irrefl key).
  eapply bytes_le_lt_trans; [exact H1|]. by eapply bytes_lt_le_trans.
Qed.

Lemma newer_seqs_layer key a b : newer_seqs a b -> newer_layer key a b.
Proof.
  unfold newer_seqs. rewrite List.Forall_forall. intros H s t p q Hs Ht Hp Hq.
  apply list_elem_of_In in Hs, Ht. apply item_all in Hp, Hq.
  specialize (H p (proj2 (in_flat_map _ _ _) (ex_intro _ s (conj Hs Hp)))). rewrite List.Forall_forall in H.
  apply H, in_flat_map. by exists t.
Qed.

Lemma commit_viewb_sound view : Forall log_ok (all_sources view) -> commit_viewb view = true -> commit_view view.
Proof.
  intros Hlog. unfold commit_viewb. rewrite !andb_true_iff, !bool_decide_eq_true, forallb_forall.
  intros [[[[Hl Hs] Hd] Ht] Hm].
  assert (Hsrc : Forall source_ok (all_sources view)).
  { rewrite List.Forall_forall in *. intros s Hin. destruct (Hs s Hin) as (H1 & H2 & _). by split; [| |apply Hlog]. }
  assert (Hbounds : forall f, In f (table_files view) -> bounds_ok f).
  { rewrite List.Forall_forall in Ht. intros f Hf. by apply Ht. }
  assert (Hdeep : forall files f, In files (drop 1 (levels (v_version view))) -> In f files -> In f (table_files view)).
  { intros files f Hf Hin. unfold table_files. rewrite in_app_iff, in_concat. right. by exists files. }
  assert (Hread : forall f, In f (table_files view) -> StronglySorted entry_before (s_entries (sst_reader f))).
  { intros f Hf. rewrite List.Forall_forall in Hs. apply Hs. rewrite all_sources_split, in_app_iff. right. by apply in_map. }
  split.
  - intros key. split; [split|].
    + eapply sorted_impl; [|exact Hl]. apply newer_seqs_layer.
    + unfold view_layers, layers_from. rewrite app_assoc. apply Forall_app. split.
      * rewrite <- map_app. apply Forall_map, List.Forall_forall. intros s Hin. apply source_desc.
        rewrite List.Forall_forall in Hs. apply Hs. rewrite all_sources_split. unfold memtables, table_files.
        rewrite map_app, !in_app_iff in *. tauto.
      * apply Forall_map, List.Forall_forall. intros files Hf. rewrite List.Forall_forall in Hd. destruct (Hd files Hf) as [H1 H2].
        apply disjoint_desc; try done; apply List.Forall_forall; intros f Hin; [apply Hbounds|apply Hread]; by eapply Hdeep.
    + clear - Hsrc. unfold all_sources in Hsrc. induction (view_layers view) as [|l ls IH]; [constructor|].
      cbn in Hsrc. apply Forall_app in Hsrc as [H1 H2]. constructor; [done|by apply IH].
    + rewrite List.Forall_forall in Hd. apply List.Forall_forall. intros files Hf. destruct (Hd files Hf) as [H1 H2]. split_and!.
      * by apply Forall_map.
      * unfold sorted_run. rewrite sorted_map. eapply sorted_impl; [|exact H2]. intros a b. apply bytes_lt_le.
      * apply List.Forall_forall. intros f Hin. by eapply bounds_table_ok, Hbounds, Hdeep.
  - intros key q (s & Hin & Hi). rewrite List.Forall_forall in Hs. apply list_elem_of_In in Hin.
    destruct (Hs s Hin) as (_ & _ & Hq & _). rewrite List.Forall_forall in Hq. apply Hq. exact (item_all _ _ _ Hi).
  - apply List.Forall_forall. intros s Hin. specialize (Hm s Hin). destruct s; [exact I|done].
  - rewrite List.Forall_forall in *. intros f Hf. destruct (Ht f Hf) as (_ & Hmt & _). destruct (sst_reader f); [done|]. intros [].
  - intros f key q Hf Hi. apply list_elem_of_In in Hf. rewrite List.Forall_forall in Ht. destruct (Ht f Hf) as (_ & _ & Hq).
    rewrite List.Forall_forall in Hq. apply Hq. exact (item_all _ _ _ Hi).
  - intros key. apply List.Forall_forall. intros f Hf. apply bounds_table_ok, Hbounds. unfold table_files.
    rewrite in_app_iff, <- in_rev. by left.
  - intros s rt Hin Hrt. rewrite List.Forall_forall in Hs. apply list_elem_of_In in Hin, Hrt.
    destruct (Hs s Hin) as (_ & _ & _ & Hq). rewrite List.Forall_forall in Hq. by apply Hq.
Qed.

(** C18: The probes of a commit's check answer from the set of all the writes of
    the view. For a view whose sources are ordered by age: the newest version of
    a key is its newest write of any kind, or none was ever made, also when the
    tables are skipped because none is newer than a floor; what landed above a
    floor is nothing, operands only, or the newest write that replaced the key;
    the probe above a horizon, of the memtables alone when no table is newer,
    says whether any write is; and the walk for a projected read finds the newest
    write above the floor that replaces the key or touches a named part. *)
Theorem commit_probes_exact view key floor : commit_view view -> 0 <= floor ->
  (match latest_version_in_view key view with
   | Some (q, _) => written view key q /\ forall q', written view key q' -> q' <= q
   | None => forall q, ~ written view key q
   end) /\
  latest_version_after key floor view = above floor (latest_version_in_view key view) /\
  landed_is key view floor (landed_above key floor view) /\
  (forall only, (only = true -> last_seq (v_version view) <= floor) ->
     landed_above_horizon key floor view only = true <-> exists q, written view key q /\ floor < q) /\
  (forall touches parts ceil,
     parts_decisive touches key floor ceil parts view =
     decisive_of touches key parts floor (newest_covering (tombstones_of (all_sources view)) key ceil)
       (upto key ceil (all_sources view))).
Proof.
  intros Hv H0. split; [by apply latest_in_view_spec|]. split; [by apply latest_after_above|].
  split; [by apply landed_above_spec|]. split; [intros only; by apply horizon_spec|].
  intros touches parts ceil. apply parts_decisive_scan. apply (cv_keys _ Hv).
Qed.

Lemma sample_commit_view : commit_view sample_view.
Proof.
  apply commit_viewb_sound; [|computed]. pose proof sample_logs as H. unfold all_sources.
  induction H as [|l ls Hl Hls IH]; [constructor|]. cbn [List.concat]. by apply Forall_app.
Qed.

(** Since 8 only operands landed on the sample key; since 6 the range deletion
    replaced it. *)
Lemma commit_probes_exact_witness :
  latest_version_in_view sample_key sample_view = Some (12, WkMerge) /\ written sample_view sample_key 12 /\
  landed_above sample_key 8 sample_view = Operands /\
  landed_above sample_key 6 sample_view = Replaced 7 WkRangeDelete /\
  replaced_at sample_view sample_key 7.
Proof.
  assert (E1 : latest_version_in_view sample_key sample_view = Some (12, WkMerge)) by computed.
  assert (E2 : landed_above sample_key 6 sample_view = Replaced 7 WkRangeDelete) by computed.
  destruct (commit_probes_exact sample_view sample_key 6 sample_commit_view ltac:(done)) as (H1 & _ & H2 & _).
  rewrite E1 in H1. rewrite E2 in H2. split; [exact E1|]. split; [exact (proj1 H1)|]. split; [computed|].
  split; [exact E2|exact (proj1 H2)].
Defined.

(** C19: A validated scan's check reports a write exactly when one landed. For a
    view whose sources are ordered by age and whose tables lie in their bounds,
    the check of a range above a floor and up to a ceiling (no table holding a
    newer sequence, or no ceiling) names a key of the range with a write of it
    in that window, and when it names none there is none. *)
Theorem range_rule_exact view lo hi floor ceil only : commit_view view ->
  (only = true -> last_seq (v_version view) <= floor) -> ceil = U64_MAX \/ last_seq (v_version view) <= ceil ->
  range_is view lo hi floor ceil (written_in_range_of lo hi floor ceil view only).
Proof. intros Hv. by apply range_rule_spec. Qed.

Lemma range_rule_exact_witness :
  written_in_range_of (str "cf00c") (str "cf00m") 6 U64_MAX sample_view false = Some (sample_key, 12, WkMerge) /\
  range_is sample_view (str "cf00c") (str "cf00m") 6 U64_MAX (Some (sample_key, 12, WkMerge)) /\
  range_is sample_view (str "cf00c") (str "cf00j") 8 U64_MAX None.
Proof.
  assert (E : written_in_range_of (str "cf00c") (str "cf00m") 6 U64_MAX sample_view false = Some (sample_key, 12, WkMerge)) by computed.
  assert (E' : written_in_range_of (str "cf00c") (str "cf00j") 8 U64_MAX sample_view false = None) by computed.
  split; [exact E|]. split.
  - rewrite <- E. apply (range_rule_exact sample_view); [exact sample_commit_view|done|by left].
  - rewrite <- E'. apply (range_rule_exact sample_view); [exact sample_commit_view|done|by left].
Defined.
