(* ===== verification/CommitCheck.v ===== *)
(** * The check of an optimistic commit

    Models how a transaction's commit is judged against a view: the rules of a
    read ([commit/read_rules.rs], [engine/read_rule.rs]), of a written key
    ([commit/write_check.rs], [commit/replaced.rs], [commit/content.rs]) and of a
    scanned range, the whole check ([commit/txn.rs]), the check made at a horizon
    before the commit takes a slot ([commit/early.rs]), and the commit of a
    transaction that writes nothing ([commit/write_free.rs]). The merge operator
    is a parameter; input and output errors, the resumption of a check that met a
    cold block, and the counters of statistics are left out.

    Shown here: splitting the check at a horizon decides exactly as one check of
    every version does, and a commit that passes is one whose reads, repeated
    where it is placed, return what they returned. *)

From stdpp Require Import sets sorting.
From S2P Require Import Prelude Order InternalKey RangeTombstone TombstoneLog WalCodec Manifest Version ReadPath CommitWalk.

(** ** What a commit validates *)

Inductive Access :=
  AcRead | AcReadParts | AcReadPresence | AcReadForUpdate | AcScannedThenWrote | AcScannedRange
| AcPut | AcDelete | AcMerge.
#[export] Instance Access_eq_dec : EqDecision Access.
Proof. solve_decision. Defined.
#[export] Instance WriteKind_eq_dec : EqDecision WriteKind.
Proof. solve_decision. Defined.

Inductive ReadRule := RuleSeq | RuleValue | RuleParts (parts : list Z).

Record ConflictKey := mkCheck {
  ck_key : bytes; ck_observed : Z; ck_found : bool; ck_access : Access; ck_rule : ReadRule }.
Definition presence_only (c : ConflictKey) : bool := bool_decide (ck_access c = AcReadPresence).

Record RangeCheck := mkRange { rc_lo : bytes; rc_hi : bytes; rc_observed : Z }.

Record ValidationSet := mkSet {
  vs_reads : list ConflictKey;
  writes_at : option Z;
  blind_merges_commute : bool;
  exempt : list bytes;
  vs_ranges : list RangeCheck }.

Record Conflict := mkConflict { cf_key : bytes; cf_mine : Access; cf_theirs : WriteKind; cf_observed : Z; cf_latest : Z }.

Inductive Verdict := Accept (merges_commuted writes_elided : Z) | Refused (conflict : Conflict).

Definition is_deletion (k : WriteKind) : bool := match k with WkDelete | WkRangeDelete => true | _ => false end.

(** [binary_search_by] over a list sorted by distinct keys. *)
Definition search_by {A} (key_of : A -> bytes) (l : list A) (key : bytes) : option A :=
  match getz l (partition_point (fun x => bytes_ltb (key_of x) key) l) with
  | Some x => if bytes_eqb (key_of x) key then Some x else None
  | None => None
  end.
Definition is_some {A} (o : option A) : bool := match o with Some _ => true | None => false end.

(** ** The keys a batch replaces *)

Definition is_point (op : WriteBatchOp) : bool := match op with OpPut _ _ | OpDelete _ => true | _ => false end.
Definition is_range (op : WriteBatchOp) : bool := match op with OpDeleteRange _ _ => true | _ => false end.
Definition point_key (op : WriteBatchOp) : bytes := match op with OpPut k _ | OpDelete k => k | _ => [] end.

Record ReplacedKeys := mkReplaced { points : list WriteBatchOp; ranges : list WriteBatchOp }.
Definition replaced_of (ops : list WriteBatchOp) : ReplacedKeys :=
  let at_ := partition_point is_point ops in
  let rest := dropz at_ ops in
  mkReplaced (takez at_ ops) (takez (partition_point is_range rest) rest).
Definition contains (r : ReplacedKeys) (key : bytes) : bool :=
  is_some (search_by point_key (points r) key) ||
  existsb (fun op => match op with OpDeleteRange s e => bytes_leb s key && bytes_ltb key e | _ => false end) (ranges r).

(** [grouped_batch_ops]: point operations in key order, then range deletes, then
    merges in key order, a key's operands in the order they were made. *)
Definition point_op (kv : bytes * option bytes) : WriteBatchOp :=
  match kv.2 with Some v => OpPut kv.1 v | None => OpDelete kv.1 end.
Definition grouped_batch_ops (point_ops : list (bytes * option bytes)) (range_deletes merges : list (bytes * bytes))
  : list WriteBatchOp :=
  map point_op point_ops ++
  map (fun r => OpDeleteRange r.1 r.2) range_deletes ++
  map (fun m => OpMerge m.1 m.2) (sort_by (fun a b => bytes_cmp a.1 b.1) merges).

(** ** The rules *)

Inductive WriteCheck := WcClean | WcCommuted | WcElided | WcConflict (q : Z) (theirs : WriteKind).

(** [committed_equals]: what the key holds, without the operator. *)
Definition committed_equals (key : bytes) (intended : option bytes) (view : ReadView) : bool :=
  match intended, lookup_in_view key U64_MAX view with
  | Some i, Some c => bytes_eqb i c
  | None, None => true
  | _, _ => false
  end.
Definition committed_equals_after (key : bytes) (intended : option bytes) (view : ReadView) (newest : WriteKind) : bool :=
  if bool_decide (newest = WkMerge) then false else committed_equals key intended view.

(** What the batch leaves the key, or [None] when the write never matches. *)
Fixpoint intended_of (key : bytes) (ops : list WriteBatchOp) (intended : option (option bytes))
  : option (option (option bytes)) :=
  match ops with
  | [] => Some intended
  | op :: ops =>
      match op with
      | OpPut k v => intended_of key ops (if bytes_eqb k key then Some (Some v) else intended)
      | OpDelete k => intended_of key ops (if bytes_eqb k key then Some None else intended)
      | OpMerge k _ => if bytes_eqb k key then None else intended_of key ops intended
      | OpDeleteRange s e => if bytes_leb s key && bytes_ltb key e then None else intended_of key ops intended
      end
  end.

Definition write_matches_committed (key : bytes) (ops : list WriteBatchOp) (view : ReadView) (newest : WriteKind) : bool :=
  if bool_decide (newest = WkMerge) then false
  else match intended_of key ops None with
       | Some (Some intended) => committed_equals key intended view
       | _ => false
       end.

Definition check_write (key : bytes) (mine : Access) (observed : Z) (replaced : option ReplacedKeys) (view : ReadView)
    (matches_committed : WriteKind -> bool) : WriteCheck :=
  let newest_rule (replacement : option (Z * WriteKind)) :=
    let newest := match replacement with Some r => Some r | None => latest_version_in_view key view end in
    match above observed newest with
    | None => WcClean
    | Some (q, theirs) =>
        if negb (is_some replacement) && matches_committed theirs then WcElided else WcConflict q theirs
    end in
  match replaced with
  | Some r =>
      if bool_decide (mine = AcMerge) && negb (contains r key) then
        match landed_above key observed view with
        | Replaced q kind => newest_rule (Some (q, kind))
        | Operands => WcCommuted
        | Nothing => WcClean
        end
      else newest_rule None
  | None => newest_rule None
  end.

(** A write checked as it is made. *)
Inductive EarlyWrite := EwPut (value : bytes) | EwDelete | EwMerge.
Definition probe_write (key : bytes) (write : EarlyWrite) (observed : Z) (commute : bool) (view : ReadView) : option Conflict :=
  let mine := match write with EwPut _ => AcPut | EwDelete => AcDelete | EwMerge => AcMerge end in
  let replaced := if commute then Some (replaced_of []) else None in
  match check_write key mine observed replaced view
          (fun theirs => match write with
                         | EwPut v => committed_equals_after key (Some v) view theirs
                         | EwDelete => committed_equals_after key None view theirs
                         | EwMerge => false
                         end) with
  | WcConflict q theirs => Some (mkConflict key mine theirs observed q)
  | _ => None
  end.

(** [content_mismatch]: a put beside different bytes committed since. *)
Definition content_mismatch (key value : bytes) (floor : Z) (view : ReadView) : bool :=
  match latest_version_in_view key view with
  | Some (q, WkPut) =>
      if q <=? floor then false
      else match lookup_in_view key U64_MAX view with Some committed => negb (bytes_eqb committed value) | None => false end
  | _ => false
  end.

Section Rules.
Context (op : option MergeOperator) (touches : option touches_fn).

(** [read_value_at]: what a read returns, the operands folded. *)
Definition read_value_at (key : bytes) (snap : Z) (view : ReadView) : outcome (option bytes) :=
  lookup_loaded op key snap view.

Definition value_changed (check : ConflictKey) (latest : Z * WriteKind) (old : option bytes) (ceil : Z) (view : ReadView)
  : outcome (option (Z * WriteKind)) :=
  identical ← match latest.2 with
              | WkMerge => Ok false
              | WkDelete | WkRangeDelete => Ok (negb (is_some old))
              | WkPut => current ← read_value_at (ck_key check) ceil view; Ok (bool_decide (old = current))
              end;
  Ok (if identical : bool then None else Some latest).

Definition read_changed (check : ConflictKey) (latest : Z * WriteKind) (ceil : Z) (view : ReadView)
  : outcome (option (Z * WriteKind)) :=
  if presence_only check then Ok (if is_deletion latest.2 then Some latest else None)
  else
    match ck_rule check with
    | RuleSeq => Ok (Some latest)
    | RuleValue =>
        old ← match latest.2 with
              | WkMerge => Ok None
              | _ => read_value_at (ck_key check) (ck_observed check) view
              end;
        value_changed check latest old ceil view
    | RuleParts parts =>
        old ← read_value_at (ck_key check) (ck_observed check) view;
        match old with
        | None => value_changed check latest None ceil view
        | Some _ =>
            Ok (match parts_decisive touches (ck_key check) (ck_observed check) ceil parts view with
                | None => None
                | Some (Operand q) => Some (q, WkMerge)
                | Some (Replacement q kind value) =>
                    if bool_decide (kind = WkPut) && bool_decide (value = old) then None else Some (q, kind)
                end)
        end
    end.

(** Whether a read of the key is validated in place of the write. *)
Definition read_stands_for (checks : ValidationSet) (key : bytes) : bool :=
  match search_by ck_key (vs_reads checks) key with Some read => negb (presence_only read) | None => false end.

Definition is_exempt (checks : ValidationSet) (key : bytes) : bool := is_some (search_by id (exempt checks) key).

(** A loop that may return. *)
Fixpoint each {A S R} (f : nat -> A -> S -> R + S) (at_ : nat) (l : list A) (s : S) : R + S :=
  match l with
  | [] => inr s
  | x :: l => match f at_ x s with inl r => inl r | inr s => each f (Datatypes.S at_) l s end
  end.

(** The key an operation writes and how, with the last merged key: a repeat of
    it is skipped, and so is a range delete. *)
Definition written_key (last_merged : option bytes) (o : WriteBatchOp) : option bytes * option (bytes * Access) :=
  match o with
  | OpPut k _ => (last_merged, Some (k, AcPut))
  | OpDelete k => (last_merged, Some (k, AcDelete))
  | OpMerge k _ => if bool_decide (last_merged = Some k) then (last_merged, None) else (Some k, Some (k, AcMerge))
  | OpDeleteRange _ _ => (last_merged, None)
  end.

(** ** The check at a horizon *)

Inductive Mark := Clean | Commuted | Dirty.
#[export] Instance Mark_eq_dec : EqDecision Mark.
Proof. solve_decision. Defined.

Record Early := mkEarly { horizon : Z; marks : list Mark }.
Definition mark_in (ms : list Mark) (at_ : nat) : Mark := default Clean (ms !! at_).
Definition mark (e : Early) (at_ : nat) : Mark := mark_in (marks e) at_.
Definition is_clean (e : Early) : bool := match marks e with [] => true | _ => false end.

Record Marker := mkMarker { mk_marks : list Mark; total : nat; dirty_before : bool }.
Definition set_mark (m : Marker) (at_ : nat) (k : Mark) : Marker :=
  if bool_decide (k = Clean) then m
  else
    let ms := match mk_marks m with [] => replicate (total m) Clean | ms => ms end in
    mkMarker (<[at_ := k]> ms) (total m) (dirty_before m || bool_decide (k = Dirty)).
Definition unsettled (m : Marker) : Marker := mkMarker (mk_marks m) (total m) true.

Section Early.
Context (checks : ValidationSet) (ops : list WriteBatchOp) (h : Z) (view : ReadView).

Definition early_read (at_ : nat) (check : ConflictKey) (m : Marker) : Conflict + Marker :=
  if h <=? ck_observed check then inr m
  else
    match latest_version_after (ck_key check) (ck_observed check) view with
    | None => inr m
    | Some (q, theirs) =>
        if q <=? ck_observed check then inr m
        else if match ck_rule check with RuleSeq => true | _ => false end && negb (presence_only check)
                && negb (dirty_before m)
        then inl (mkConflict (ck_key check) (ck_access check) theirs (ck_observed check) q)
        else inr (set_mark m at_ Dirty)
    end.

Definition early_range (at_ : nat) (r : RangeCheck) (m : Marker) : Conflict + Marker :=
  if h <=? rc_observed r then inr m
  else
    match written_in_range (rc_lo r) (rc_hi r) (rc_observed r) view with
    | None => inr m
    | Some (key, q, theirs) =>
        if negb (dirty_before m) then inl (mkConflict key AcScannedRange theirs (rc_observed r) q)
        else inr (set_mark m at_ Dirty)
    end.

Definition is_put (o : WriteBatchOp) : bool := match o with OpPut _ _ => true | _ => false end.

Definition early_write (observed : Z) (replaced : option ReplacedKeys) (at_ : nat) (o : WriteBatchOp)
    (s : option bytes * Marker) : Conflict + (option bytes * Marker) :=
  let '(last_merged, m) := s in
  match written_key last_merged o with
  | (last_merged, None) => inr (last_merged, m)
  | (last_merged, Some (key, mine)) =>
      if is_exempt checks key then
        inr (last_merged,
             if is_put o
             then unsettled (if landed_above_horizon key observed view false then set_mark m at_ Dirty else m)
             else m)
      else if read_stands_for checks key then inr (last_merged, m)
      else if bool_decide (mine = AcMerge) && match replaced with Some r => negb (contains r key) | None => false end then
        match landed_above key observed view with
        | Nothing => inr (last_merged, m)
        | Operands => inr (last_merged, set_mark m at_ Commuted)
        | Replaced q kind =>
            if negb (dirty_before m) then inl (mkConflict key mine kind observed q)
            else inr (last_merged, set_mark m at_ Dirty)
        end
      else if landed_above_horizon key observed view false then inr (last_merged, set_mark m at_ Dirty)
      else inr (last_merged, m)
  end.

Definition reads_len : nat := length (vs_reads checks).
Definition ranges_len : nat := length (vs_ranges checks).

Definition replaced_keys : option ReplacedKeys :=
  if blind_merges_commute checks then Some (replaced_of ops) else None.

(** No item was read below the horizon. *)
Definition all_past : bool :=
  forallb (fun c => h <=? ck_observed c) (vs_reads checks) &&
  forallb (fun r => h <=? rc_observed r) (vs_ranges checks) &&
  match writes_at checks, ops with Some o, _ :: _ => h <=? o | _, _ => true end.

Definition check_early : Conflict + Early :=
  if all_past then inr (mkEarly h [])
  else
    match each early_read 0 (vs_reads checks) (mkMarker [] (reads_len + ranges_len + length ops) false) with
    | inl c => inl c
    | inr m =>
        match each early_range reads_len (vs_ranges checks) m with
        | inl c => inl c
        | inr m =>
            match writes_at checks with
            | Some observed =>
                if observed <? h then
                  match each (early_write observed replaced_keys) (reads_len + ranges_len) ops (None, m) with
                  | inl c => inl c
                  | inr (_, m) => inr (mkEarly h (mk_marks m))
                  end
                else inr (mkEarly h (mk_marks m))
            | None => inr (mkEarly h (mk_marks m))
            end
        end
    end.

End Early.

(** ** The check of a slot *)

Definition content_mismatch_error : error := mkError OtherError "ContentMismatch" [].

Section Validate.
Context (checks : ValidationSet) (ops : list WriteBatchOp) (early : Early) (view : ReadView) (ceiling : Z).

Definition nothing_above : bool := ceiling <=? horizon early.
Definition memtables_only : bool := last_seq (v_version view) <=? horizon early.
Definition landed (key : bytes) (k : Mark) : bool :=
  bool_decide (k = Dirty) || (negb nothing_above && landed_above_horizon key (horizon early) view memtables_only).

Definition refuse (key : bytes) (mine : Access) (theirs : WriteKind) (observed q : Z) : outcome Verdict :=
  Ok (Refused (mkConflict key mine theirs observed q)).

Definition validate_read (at_ : nat) (check : ConflictKey) (_ : unit) : outcome Verdict + unit :=
  if negb (landed (ck_key check) (mark early at_)) then inr ()
  else
    match above (ck_observed check) (latest_version_in_view (ck_key check) view) with
    | None => inr ()
    | Some latest =>
        match read_changed check latest U64_MAX view with
        | Ok None => inr ()
        | Ok (Some (q, theirs)) => inl (refuse (ck_key check) (ck_access check) theirs (ck_observed check) q)
        | Err e => inl (Err e)
        | Panic => inl Panic
        | OutOfFuel => inl OutOfFuel
        end
    end.

Definition validate_range (at_ : nat) (r : RangeCheck) (_ : unit) : outcome Verdict + unit :=
  let look floor only :=
    match written_in_range_of (rc_lo r) (rc_hi r) floor U64_MAX view only with
    | Some (key, q, theirs) => inl (refuse key AcScannedRange theirs (rc_observed r) q)
    | None => inr ()
    end in
  if bool_decide (mark early at_ = Dirty) then look (rc_observed r) false
  else if nothing_above then inr ()
  else look (Z.max (horizon early) (rc_observed r)) memtables_only.

(** The state of the write loop: last merged key, merges commuted, writes
    elided. *)
Definition validate_write (observed : Z) (replaced : option ReplacedKeys) (landed_since : bool) (at_ : nat)
    (o : WriteBatchOp) (s : option bytes * Z * Z) : outcome Verdict + (option bytes * Z * Z) :=
  let '(last_merged, commuted, elided) := s in
  match written_key last_merged o with
  | (last_merged, None) => inr (last_merged, commuted, elided)
  | (last_merged, Some (key, mine)) =>
      let k := mark early at_ in
      if is_exempt checks key then
        match o with
        | OpPut _ value =>
            if landed_since && landed key k && content_mismatch key value observed view
            then inl (Err content_mismatch_error) else inr (last_merged, commuted, elided)
        | _ => inr (last_merged, commuted, elided)
        end
      else if read_stands_for checks key then inr (last_merged, commuted, elided)
      else if negb (landed key k) then
        inr (last_merged, if bool_decide (k = Commuted) then commuted + 1 else commuted, elided)
      else
        match check_write key mine observed replaced view (write_matches_committed key ops view) with
        | WcClean => inr (last_merged, commuted, elided)
        | WcCommuted => inr (last_merged, commuted + 1, elided)
        | WcElided => inr (last_merged, commuted, elided + 1)
        | WcConflict q theirs => inl (refuse key mine theirs observed q)
        end
  end.

Definition validate : outcome Verdict :=
  match each validate_read 0 (vs_reads checks) () with
  | inl r => r
  | inr _ =>
      match each validate_range (reads_len checks) (vs_ranges checks) () with
      | inl r => r
      | inr _ =>
          match writes_at checks with
          | None => Ok (Accept 0 0)
          | Some observed =>
              let landed_since := match exempt checks with [] => false | _ => true end && (observed <? ceiling) in
              match each (validate_write observed (replaced_keys checks ops) landed_since)
                         (reads_len checks + ranges_len checks) ops (None, 0, 0) with
              | inl r => r
              | inr (_, commuted, elided) => Ok (Accept commuted elided)
              end
          end
      end
  end.

End Validate.

(** ** A commit that writes nothing *)

Record Points := mkPoints { published : Z; decided : Z }.

(** What a read's rule says of the versions at or below [ceil]. *)
Definition stale_at (check : ConflictKey) (latest : Z * WriteKind) (ceil : Z) (view : ReadView)
  : outcome (option (Z * WriteKind)) :=
  if latest.1 <=? ceil then read_changed check latest ceil view
  else if last_seq (v_version view) <=? ceil then
    match above (ck_observed check) (latest_version_upto (ck_key check) ceil view) with
    | Some newest => read_changed check newest ceil view
    | None => Ok None
    end
  else Ok (Some latest).

Definition write_free_read (check : ConflictKey) (at_ : Points) (view : ReadView) : outcome (option (Z * WriteKind)) :=
  match latest_version_in_view (ck_key check) view with
  | None => Ok None
  | Some latest =>
      if latest.1 <=? ck_observed check then Ok None
      else
        stale ← stale_at check latest (decided at_) view;
        match stale with
        | Some s => Ok (Some s)
        | None =>
            let by_sequence := match ck_rule check with RuleSeq => true | _ => false end && negb (presence_only check) in
            if by_sequence || (latest.1 <=? published at_) then Ok None
            else stale_at check latest (published at_) view
        end
  end.

Definition exact_ceiling (ceil : Z) (view : ReadView) : Z :=
  if last_seq (v_version view) <=? ceil then ceil else U64_MAX.

Definition free_read (at_ : Points) (view : ReadView) (_ : nat) (check : ConflictKey) (_ : unit) : outcome (option Conflict) + unit :=
  if negb (ck_observed check <? decided at_) then inr ()
  else
    match write_free_read check at_ view with
    | Ok None => inr ()
    | Ok (Some (q, theirs)) => inl (Ok (Some (mkConflict (ck_key check) (ck_access check) theirs (ck_observed check) q)))
    | Err e => inl (Err e)
    | Panic => inl Panic
    | OutOfFuel => inl OutOfFuel
    end.

Definition free_range (at_ : Points) (view : ReadView) (_ : nat) (r : RangeCheck) (_ : unit) : outcome (option Conflict) + unit :=
  if negb (rc_observed r <? decided at_) then inr ()
  else
    match written_in_range_of (rc_lo r) (rc_hi r) (rc_observed r) (exact_ceiling (decided at_) view) view false with
    | Some (key, q, theirs) => inl (Ok (Some (mkConflict key AcScannedRange theirs (rc_observed r) q)))
    | None => inr ()
    end.

(** The conflict that refuses the commit, or [None] when it commits. *)
Definition commit_write_free (checks : ValidationSet) (at_ : Points) (view : ReadView) : outcome (option Conflict) :=
  match vs_reads checks, vs_ranges checks with
  | [], [] => Ok None
  | _, _ =>
      if negb (existsb (fun c => ck_observed c <? decided at_) (vs_reads checks)) &&
         negb (existsb (fun r => rc_observed r <? decided at_) (vs_ranges checks))
      then Ok None
      else
        match each (free_read at_ view) 0 (vs_reads checks) () with
        | inl r => r
        | inr _ =>
            match each (free_range at_ view) 0 (vs_ranges checks) () with
            | inl r => r
            | inr _ => Ok None
            end
        end
  end.

End Rules.

(** ** Loops *)

(** [foldl nxt x (take j l)]: what the loop carries when it reaches item [j]. *)
Section Loops.
Context {A S R X : Type} (aux : S -> X) (nxt : X -> A -> X).
Implicit Types f g : nat -> A -> S -> R + S.

Lemma each_ext f g at_ l s :
  (forall j x t, l !! j = Some x -> aux t = foldl nxt (aux s) (take j l) ->
     f (at_ + j)%nat x t = g (at_ + j)%nat x t /\ forall t', f (at_ + j)%nat x t = inr t' -> aux t' = nxt (aux t) x) ->
  each f at_ l s = each g at_ l s.
Proof.
  revert at_ s. induction l as [|x l IH]; intros at_ s H; [done|]. cbn [each].
  destruct (H O x s eq_refl eq_refl) as [E Haux]. rewrite Nat.add_0_r in *. rewrite <- E.
  destruct (f at_ x s) as [r|s']; [done|]. apply IH. intros j y t Hj Ht.
  specialize (H (Datatypes.S j) y t Hj). rewrite Nat.add_succ_r in H. apply H. cbn [take foldl].
  by rewrite <- (Haux s' eq_refl).
Qed.

Lemma each_stops f at_ l s r : (forall at_ x t t', f at_ x t = inr t' -> aux t' = nxt (aux t) x) ->
  each f at_ l s = inl r ->
  exists j x t, l !! j = Some x /\ aux t = foldl nxt (aux s) (take j l) /\ f (at_ + j)%nat x t = inl r.
Proof.
  intros Haux. revert at_ s. induction l as [|x l IH]; intros at_ s; [done|]. cbn [each].
  destruct (f at_ x s) as [r'|s'] eqn:Ef.
  - intros [= ->]. exists O, x, s. by rewrite Nat.add_0_r.
  - intros E. destruct (IH _ _ E) as (j & y & t & Hj & Ht & Hr). exists (Datatypes.S j), y, t.
    split; [done|]. rewrite Nat.add_succ_r. cbn [take foldl]. by rewrite <- (Haux _ _ _ _ Ef).
Qed.

Lemma each_passes f at_ l s s' : (forall at_ x t t', f at_ x t = inr t' -> aux t' = nxt (aux t) x) ->
  each f at_ l s = inr s' -> forall j x, l !! j = Some x ->
  exists t t', aux t = foldl nxt (aux s) (take j l) /\ f (at_ + j)%nat x t = inr t'.
Proof.
  intros Haux. revert at_ s. induction l as [|x l IH]; intros at_ s; [done|]. cbn [each].
  destruct (f at_ x s) as [r'|t] eqn:Ef; [done|]. intros E [|j] y Hj; cbn in Hj.
  - injection Hj as <-. exists s, t. by rewrite Nat.add_0_r.
  - destruct (IH _ _ E j y Hj) as (u & u' & Hu & Hf). exists u, u'. rewrite Nat.add_succ_r. cbn [take foldl].
    by rewrite <- (Haux _ _ _ _ Ef).
Qed.

(** ** Marks *)

Definition shape (N : nat) (m : Marker) : Prop := total m = N /\ (mk_marks m = [] \/ length (mk_marks m) = N).
Notation mark_of m i := (mark_in (mk_marks m) i).

Lemma set_mark_spec N m at_ k : shape N m -> (at_ < N)%nat -> mark_of m at_ = Clean ->
  shape N (set_mark m at_ k) /\ mark_of (set_mark m at_ k) at_ = k /\
  forall i, i <> at_ -> mark_of (set_mark m at_ k) i = mark_of m i.
Proof.
  intros [Ht Hl] Hat Hc. unfold set_mark. case_bool_decide as Ek; [by subst k|]. cbn [mk_marks total].
  set (ms := match mk_marks m with [] => _ | _ => _ end).
  assert (Hms : length ms = N /\ forall i, mark_in ms i = mark_of m i).
  { unfold ms. destruct (mk_marks m) as [|y l]; [|by destruct Hl]. rewrite length_replicate. split; [done|].
    intros i. unfold mark_in. cbn. destruct (replicate (total m) Clean !! i) as [z|] eqn:E; [|done].
    apply lookup_replicate in E as [-> _]. done. }
  destruct Hms as [Hn Hms]. split; [split; [done|]; right; cbn; by rewrite length_insert|]. unfold mark_in. split.
  - rewrite list_lookup_insert_eq by lia. done.
  - intros i Hi. rewrite list_lookup_insert_ne by done. apply Hms.
Qed.

Context (mk : S -> Marker) (Q : X -> A -> Mark -> Prop) (N : nat).

Lemma each_marks f at_ l s s' :
  (forall at_ x t t', f at_ x t = inr t' -> shape N (mk t) -> (at_ < N)%nat -> mark_of (mk t) at_ = Clean ->
     shape N (mk t') /\ aux t' = nxt (aux t) x /\ (forall i, i <> at_ -> mark_of (mk t') i = mark_of (mk t) i) /\
     Q (aux t) x (mark_of (mk t') at_)) ->
  each f at_ l s = inr s' -> shape N (mk s) -> (at_ + length l <= N)%nat ->
  (forall i, (at_ <= i)%nat -> mark_of (mk s) i = Clean) ->
  shape N (mk s') /\ (forall i, (i < at_ \/ at_ + length l <= i)%nat -> mark_of (mk s') i = mark_of (mk s) i) /\
  forall j x, l !! j = Some x -> Q (foldl nxt (aux s) (take j l)) x (mark_of (mk s') (at_ + j)).
Proof.
  intros Hstep. revert at_ s. induction l as [|x l IH]; intros at_ s He Hs Hn Hclean; cbn [each length] in *.
  { injection He as <-. done. }
  destruct (f at_ x s) as [r|t] eqn:Ef; [done|].
  destruct (Hstep at_ x s t Ef Hs ltac:(lia) (Hclean at_ ltac:(lia))) as (Hs' & Haux & Hne & HQ).
  destruct (IH (Datatypes.S at_) t He Hs' ltac:(lia)) as (H1 & H2 & H3).
  { intros i Hi. rewrite Hne by lia. apply Hclean. lia. }
  split; [done|]. split.
  - intros i Hi. rewrite H2 by lia. apply Hne. lia.
  - intros [|j] y Hj; cbn in Hj.
    + injection Hj as <-. rewrite Nat.add_0_r, H2 by lia. done.
    + rewrite Nat.add_succ_r. cbn [take foldl]. rewrite <- Haux. by apply H3.
Qed.

End Loops.

(** ** A commit that passes *)

Definition next_merged (last_merged : option bytes) (o : WriteBatchOp) : option bytes := (written_key last_merged o).1.
Notation unit_next := (fun (u : unit) _ => u).

Lemma foldl_unit {A} (l : list A) u : foldl unit_next u l = u.
Proof. induction l as [|x l IH]; [done|exact IH]. Qed.

Section Accepted.
Context (op : option MergeOperator) (touches : option touches_fn).
Context (checks : ValidationSet) (ops : list WriteBatchOp) (e : Early) (view : ReadView) (ceiling : Z).

Lemma validate_next observed since at_ o s s' :
  validate_write checks ops e view ceiling observed (replaced_keys checks ops) since at_ o s = inr s' ->
  s'.1.1 = next_merged s.1.1 o.
Proof.
  destruct s as [[lm commuted] elided]. unfold validate_write, next_merged. cbn [fst].
  destruct (written_key lm o) as [lm' [[key mine]|]]; [|by intros [= <-]]. cbn [fst].
  destruct (is_exempt checks key).
  { destruct o; try by intros [= <-]. destruct (_ && _ && _); [done|by intros [= <-]]. }
  destruct (read_stands_for checks key); [by intros [= <-]|]. destruct (negb _); [by intros [= <-]|].
  destruct (check_write _ _ _ _ _ _); [by intros [= <-]..|done].
Qed.

(** No loop returns an acceptance. *)
Definition refusal (r : outcome Verdict) : Prop := forall commuted elided, r <> Ok (Accept commuted elided).

Lemma read_refusal at_ c u r : validate_read op touches e view ceiling at_ c u = inl r -> refusal r.
Proof.
  unfold validate_read, refusal. destruct (negb _); [done|]. destruct (above _ _) as [l|]; [|done].
  destruct (read_changed _ _ _ _ _ _) as [[[]|]| | |]; try done; by intros [= <-].
Qed.

Lemma range_refusal at_ c u r : validate_range e view ceiling at_ c u = inl r -> refusal r.
Proof.
  unfold validate_range, refusal. destruct (bool_decide _); [|destruct (nothing_above _ _); [done|]];
    destruct (written_in_range_of _ _ _ _ _ _) as [[[] ]|]; try done; by intros [= <-].
Qed.

Lemma write_refusal observed replaced since at_ o s r :
  validate_write checks ops e view ceiling observed replaced since at_ o s = inl r -> refusal r.
Proof.
  destruct s as [[lm commuted] elided]. unfold validate_write, refusal. destruct (written_key lm o) as [lm' [[key mine]|]]; [|done].
  destruct (is_exempt checks key); [destruct o; try done; destruct (_ && _ && _); [by intros [= <-]|done]|].
  destruct (read_stands_for checks key); [done|]. destruct (negb _); [done|].
  destruct (check_write _ _ _ _ _ _); try done. by intros [= <-].
Qed.

Lemma unit_aux {A R} (f : nat -> A -> unit -> R + unit) at_ x t t' : f at_ x t = inr t' -> t' = unit_next t x.
Proof. by destruct t, t'. Qed.

(** A commit passes when every item does. *)
Lemma accepted_items commuted elided : validate op touches checks ops e view ceiling = Ok (Accept commuted elided) ->
  (forall j c, vs_reads checks !! j = Some c -> validate_read op touches e view ceiling j c () = inr ()) /\
  (forall j r, vs_ranges checks !! j = Some r -> validate_range e view ceiling (reads_len checks + j) r () = inr ()) /\
  (forall observed j o, writes_at checks = Some observed -> ops !! j = Some o ->
     exists since t t', t.1.1 = foldl next_merged None (take j ops) /\
       validate_write checks ops e view ceiling observed (replaced_keys checks ops) since
         (reads_len checks + ranges_len checks + j) o t = inr t').
Proof.
  unfold validate. destruct (each (validate_read _ _ _ _ _) _ _ _) as [r|u] eqn:E1.
  { apply (each_stops (fun u => u) unit_next) in E1 as (j & c & t & _ & _ & H); [|apply unit_aux].
    intros ->. by destruct (read_refusal _ _ _ _ H commuted elided). }
  destruct (each (validate_range _ _ _) _ _ _) as [r|u'] eqn:E2.
  { apply (each_stops (fun u => u) unit_next) in E2 as (j & c & t & _ & _ & H); [|apply unit_aux].
    intros ->. by destruct (range_refusal _ _ _ _ H commuted elided). }
  intros Hw. split_and!.
  - intros j c Hj. destruct (each_passes (fun u => u) unit_next _ _ _ _ _ (unit_aux _) E1 j c Hj) as ([] & [] & _ & H). exact H.
  - intros j c Hj. destruct (each_passes (fun u => u) unit_next _ _ _ _ _ (unit_aux _) E2 j c Hj) as ([] & [] & _ & H). exact H.
  - intros observed j o Ho Hj. rewrite Ho in Hw. set (since := match exempt checks with [] => _ | _ => _ end && _) in Hw.
    destruct (each (validate_write _ _ _ _ _ _ _ _) _ _ _) as [r|s] eqn:E3.
    { apply (each_stops (fun s : option bytes * Z * Z => s.1.1) next_merged) in E3 as (i & c & t & _ & _ & H); [|apply validate_next].
      subst r. by destruct (write_refusal _ _ _ _ _ _ _ H commuted elided). }
    destruct (each_passes (fun s : option bytes * Z * Z => s.1.1) next_merged _ _ _ _ _ (validate_next observed since) E3 j o Hj)
      as (t & t' & Ht & H). by exists since, t, t'.
Qed.

End Accepted.

(** ** The check at a horizon and the check of a slot *)

(** A view loaded once the horizon was sampled, and a later one, as transactions
    that read at the sequences [obs] tell them apart: a key with a newer write, or
    a replacement, at or below the horizon in the later view has one in the
    earlier. Commits only add above the horizon; a compaction may fold and drop
    what no such transaction tells apart; a log failure takes back what is above
    the horizon. *)
Record held (obs : Z -> Prop) (h : Z) (v1 v2 : ReadView) : Prop := {
  hl_written : forall o key q, obs o -> o < q <= h -> written v2 key q -> exists q', o < q' <= h /\ written v1 key q';
  hl_replaced : forall o key q, obs o -> o < q <= h -> replaced_at v2 key q -> exists q', o < q' <= h /\ replaced_at v1 key q';
}.

(** And no key loses its newer writes or its replacements. *)
Record later (obs : Z -> Prop) (h : Z) (v1 v2 : ReadView) : Prop := {
  la_held : held obs h v1 v2;
  la_grows : forall o key q, obs o -> o < q -> written v1 key q -> exists q', o < q' /\ written v2 key q';
  la_keeps : forall o key q, obs o -> o < q -> replaced_at v1 key q -> exists q', o < q' /\ replaced_at v2 key q';
}.

(** The checks read at sequences of [obs]. *)
Definition observed_ok (obs : Z -> Prop) (checks : ValidationSet) : Prop :=
  Forall (fun c => obs (ck_observed c) /\ 0 <= ck_observed c <= U64_MAX) (vs_reads checks) /\
  Forall (fun r => obs (rc_observed r) /\ 0 <= rc_observed r) (vs_ranges checks) /\
  match writes_at checks with Some o => obs o /\ 0 <= o | None => True end.

Section Split.
Context (checks : ValidationSet) (ops : list WriteBatchOp) (h : Z) (v1 : ReadView).
Context (obs : Z -> Prop) (Hv1 : commit_view v1) (Hobs : observed_ok obs checks).

(** Nothing above the item's read, up to the horizon. *)
Definition settled_clean (key : bytes) (observed : Z) : Prop :=
  h <= observed \/ forall q, written v1 key q -> q <= observed.

Definition blind (key : bytes) (mine : Access) : bool :=
  bool_decide (mine = AcMerge) && match replaced_keys checks ops with Some r => negb (contains r key) | None => false end.

Definition read_marked (_ : unit) (c : ConflictKey) (k : Mark) : Prop :=
  k = Dirty \/ k = Clean /\ settled_clean (ck_key c) (ck_observed c).

Definition range_marked (_ : unit) (r : RangeCheck) (k : Mark) : Prop :=
  k = Dirty \/ k = Clean /\ (h <= rc_observed r \/
    forall key q, bytes_le (rc_lo r) key -> bytes_lt key (rc_hi r) -> written v1 key q -> q <= rc_observed r).

Definition write_marked (observed : Z) (last_merged : option bytes) (o : WriteBatchOp) (k : Mark) : Prop :=
  match (written_key last_merged o).2 with
  | None => True
  | Some (key, mine) =>
      if is_exempt checks key then is_put o = true -> k = Dirty \/ k = Clean /\ settled_clean key observed
      else if read_stands_for checks key then True
      else k = Dirty \/ k = Clean /\ settled_clean key observed \/
           k = Commuted /\ blind key mine = true /\ landed_is key v1 observed Operands
  end.

Lemma early_read_marks N at_ c m m' : early_read h v1 at_ c m = inr m' -> shape N m -> (at_ < N)%nat ->
  mark_in (mk_marks m) at_ = Clean ->
  shape N m' /\ () = () /\ (forall i, i <> at_ -> mark_in (mk_marks m') i = mark_in (mk_marks m) i) /\
  read_marked () c (mark_in (mk_marks m') at_).
Proof.
  intros E Hs Hn Hc. unfold early_read in E. destruct (Z.leb_spec h (ck_observed c)) as [Hh|Hh].
  { injection E as <-. split_and!; try done. right. split; [done|by left]. }
  rewrite latest_after_above in E by done. pose proof (above_latest_spec (ck_key c) v1 Hv1 (ck_observed c)) as Hl.
  destruct (above _ _) as [[q k]|].
  - destruct Hl as (_ & Hq & _). rewrite (proj2 (Z.leb_gt _ _)) in E by done. destruct (_ && _ && _); [done|].
    injection E as <-. destruct (set_mark_spec N m at_ Dirty Hs Hn Hc) as (H1 & H2 & H3). split_and!; try done. by left.
  - injection E as <-. split_and!; try done. right. split; [done|by right].
Qed.

Lemma early_range_marks N at_ r m m' : early_range h v1 at_ r m = inr m' -> shape N m -> (at_ < N)%nat ->
  mark_in (mk_marks m) at_ = Clean ->
  shape N m' /\ () = () /\ (forall i, i <> at_ -> mark_in (mk_marks m') i = mark_in (mk_marks m) i) /\
  range_marked () r (mark_in (mk_marks m') at_).
Proof.
  intros E Hs Hn Hc. unfold early_range in E. destruct (Z.leb_spec h (rc_observed r)) as [Hh|Hh].
  { injection E as <-. split_and!; try done. right. split; [done|by left]. }
  pose proof (range_rule_spec v1 Hv1 (rc_lo r) (rc_hi r) (rc_observed r) U64_MAX false ltac:(done) (or_introl eq_refl)) as Hl.
  fold (written_in_range (rc_lo r) (rc_hi r) (rc_observed r) v1) in Hl.
  destruct (written_in_range _ _ _ _) as [[[key q] k]|].
  - destruct (negb _); [done|]. injection E as <-.
    destruct (set_mark_spec N m at_ Dirty Hs Hn Hc) as (H1 & H2 & H3). split_and!; try done. by left.
  - injection E as <-. split_and!; try done. right. split; [done|]. right. intros key q H1 H2 Hw.
    specialize (Hl key q H1 H2 Hw). pose proof (cv_seqs _ Hv1 key q Hw). lia.
Qed.

Lemma early_write_marks N observed at_ o s s' : 0 <= observed ->
  early_write checks v1 observed (replaced_keys checks ops) at_ o s = inr s' ->
  shape N s.2 -> (at_ < N)%nat -> mark_in (mk_marks s.2) at_ = Clean ->
  shape N s'.2 /\ s'.1 = next_merged s.1 o /\ (forall i, i <> at_ -> mark_in (mk_marks s'.2) i = mark_in (mk_marks s.2) i) /\
  write_marked observed s.1 o (mark_in (mk_marks s'.2) at_).
Proof.
  intros H0. destruct s as [lm m]. cbn [fst snd]. intros E Hs Hn Hc. unfold early_write in E.
  unfold next_merged, write_marked. destruct (written_key lm o) as [lm' [[key mine]|]]; cbn [fst snd];
    [|injection E as <-; by split_and!].
  destruct (set_mark_spec N m at_ Dirty Hs Hn Hc) as (D1 & D2 & D3).
  destruct (set_mark_spec N m at_ Commuted Hs Hn Hc) as (C1 & C2 & C3).
  pose proof (horizon_spec key v1 Hv1 observed false H0 ltac:(done)) as Hh.
  assert (Hclean : landed_above_horizon key observed v1 false = false -> settled_clean key observed).
  { intros Ef. right. intros q Hq. destruct (Z.le_gt_cases q observed); [done|]. rewrite (proj2 Hh) in Ef; [done|]. by exists q. }
  destruct (is_exempt checks key).
  { injection E as <-. destruct (is_put o); cbn [fst snd]; [|by split_and!].
    unfold unsettled. cbn [mk_marks]. destruct (landed_above_horizon key observed v1 false); split_and!; auto. }
  destruct (read_stands_for checks key); [injection E as <-; by split_and!|].
  fold (blind key mine) in E. destruct (blind key mine) eqn:Eb.
  - pose proof (landed_above_spec key v1 Hv1 observed H0) as Hl. destruct (landed_above key observed v1).
    + injection E as <-. split_and!; try done. right. left. split; [done|]. by right.
    + injection E as <-. cbn [fst snd]. split_and!; auto.
    + destruct (negb _); [done|]. injection E as <-. split_and!; auto.
  - destruct (landed_above_horizon key observed v1 false); injection E as <-; cbn [fst snd]; split_and!; auto.
Qed.

Definition marked (e : Early) : Prop :=
  horizon e = h /\
  (forall j c, vs_reads checks !! j = Some c -> read_marked () c (mark e j)) /\
  (forall j r, vs_ranges checks !! j = Some r -> range_marked () r (mark e (reads_len checks + j))) /\
  (forall observed j o, writes_at checks = Some observed -> ops !! j = Some o ->
     write_marked observed (foldl next_merged None (take j ops)) o (mark e (reads_len checks + ranges_len checks + j))).

Lemma clean_marked observed lm o : settled_clean (default [] (fst <$> (written_key lm o).2)) observed ->
  write_marked observed lm o Clean.
Proof.
  unfold write_marked. destruct (written_key lm o) as [lm' [[key mine]|]]; cbn; [|done]. intros H.
  destruct (is_exempt checks key); [auto|]. destruct (read_stands_for checks key); auto.
Qed.

Lemma all_past_marked : all_past checks ops h = true -> marked (mkEarly h []).
Proof.
  unfold all_past. rewrite !andb_true_iff, !forallb_forall. intros [[Hr Hg] Hw]. split; [done|]. split_and!.
  - intros j c Hj. right. split; [done|]. left. apply Z.leb_le, Hr. apply list_elem_of_In. by eapply list_elem_of_lookup_2.
  - intros j r Hj. right. split; [done|]. left. apply Z.leb_le, Hg. apply list_elem_of_In. by eapply list_elem_of_lookup_2.
  - intros observed j o Ho Hj. rewrite Ho in Hw. apply clean_marked. left. destruct ops as [|x l]; [done|]. lia.
Qed.

Lemma early_marked e : check_early checks ops h v1 = inr e -> marked e.
Proof.
  unfold check_early. destruct (all_past checks ops h) eqn:Ep.
  { intros [= <-]. by apply all_past_marked. }
  set (N := (reads_len checks + ranges_len checks + length ops)%nat). set (m0 := mkMarker [] N false).
  assert (Hs0 : shape N m0) by (split; [done|by left]).
  destruct (each _ 0 (vs_reads checks) m0) as [c|m1] eqn:E1; [done|].
  destruct (each_marks (fun _ : Marker => ()) unit_next (fun m => m) read_marked N _ _ _ _ _
              (early_read_marks N) E1 Hs0 ltac:(unfold N, reads_len; lia) ltac:(done)) as (Hs1 & Hk1 & HQ1).
  destruct (each _ _ (vs_ranges checks) m1) as [c|m2] eqn:E2; [done|].
  assert (Hc1 : forall i, (reads_len checks <= i)%nat -> mark_in (mk_marks m1) i = Clean).
  { intros i Hi. rewrite Hk1; [done|right]. unfold reads_len in Hi. lia. }
  destruct (each_marks (fun _ : Marker => ()) unit_next (fun m => m) range_marked N _ _ _ _ _
              (early_range_marks N) E2 Hs1 ltac:(unfold N, ranges_len; lia) Hc1) as (Hs2 & Hk2 & HQ2).
  assert (Hc2 : forall i, (reads_len checks + ranges_len checks <= i)%nat -> mark_in (mk_marks m2) i = Clean).
  { intros i Hi. rewrite Hk2; [|unfold ranges_len in *; lia]. apply Hc1. lia. }
  assert (Hreads : forall j c, vs_reads checks !! j = Some c -> read_marked () c (mark_in (mk_marks m2) j)).
  { intros j c Hj. rewrite Hk2 by (left; by eapply lookup_lt_Some). pose proof (HQ1 j c Hj) as H. by rewrite foldl_unit in H. }
  assert (Hranges : forall j r, vs_ranges checks !! j = Some r ->
            range_marked () r (mark_in (mk_marks m2) (reads_len checks + j))).
  { intros j r Hj. pose proof (HQ2 j r Hj) as H. by rewrite foldl_unit in H. }
  assert (Hdone : (forall observed, writes_at checks = Some observed -> h <= observed) -> marked (mkEarly h (mk_marks m2))).
  { intros Hle. split; [done|]. split_and!; [exact Hreads|exact Hranges|]. intros observed j o Ho Hj.
    unfold mark. cbn [marks]. rewrite Hc2 by lia. apply clean_marked. left. by apply Hle. }
  destruct (writes_at checks) as [observed|] eqn:Ew; [|intros [= <-]; by apply Hdone].
  destruct (Z.ltb_spec observed h) as [Hh|Hh]; [|intros [= <-]; apply Hdone; by intros ? [= <-]]. clear Hdone.
  destruct (each _ _ ops (None, m2)) as [c|[lm m3]] eqn:E3; [done|]. intros [= <-].
  assert (H0 : 0 <= observed) by (destruct Hobs as (_ & _ & H); rewrite Ew in H; apply H).
  destruct (each_marks fst next_merged snd (write_marked observed) N _ _ _ _ _
              (fun at_ x t t' => early_write_marks N observed at_ x t t' H0) E3 Hs2 ltac:(unfold N; lia) Hc2)
    as (_ & Hk3 & HQ3). cbn [fst snd] in *.
  split; [done|]. unfold mark. cbn [marks]. split_and!.
  - intros j c Hj. rewrite Hk3; [by apply Hreads|]. left. apply lookup_lt_Some in Hj. unfold reads_len. lia.
  - intros j r Hj. rewrite Hk3; [by apply Hranges|]. left. apply lookup_lt_Some in Hj. unfold ranges_len. lia.
  - intros observed' j o Ho Hj. rewrite Ew in Ho. injection Ho as <-. by apply HQ3.
Qed.

(** *** The slot's view *)

Lemma read_at j c : vs_reads checks !! j = Some c -> obs (ck_observed c).
Proof. intros Hj. destruct Hobs as (H & _ & _). rewrite Forall_lookup in H. by apply (H j c Hj). Qed.
Lemma range_at j r : vs_ranges checks !! j = Some r -> obs (rc_observed r).
Proof. intros Hj. destruct Hobs as (_ & H & _). rewrite Forall_lookup in H. by apply (H j r Hj). Qed.
Lemma writes_observed o : writes_at checks = Some o -> obs o /\ 0 <= o.
Proof. intros E. destruct Hobs as (_ & _ & H). by rewrite E in H. Qed.

Context (v2 : ReadView) (ceiling : Z) (Hv2 : commit_view v2) (H0 : 0 <= h) (Hheld : held obs h v1 v2).
Context (Hceil : forall key q, written v2 key q -> q <= ceiling).

(** Every item to be checked in full. *)
Definition full : Early := mkEarly h (replicate (reads_len checks + ranges_len checks + length ops) Dirty).

Lemma full_mark i : (i < reads_len checks + ranges_len checks + length ops)%nat -> mark full i = Dirty.
Proof. intros Hi. unfold mark, mark_in, full. cbn [marks]. by rewrite lookup_replicate_2. Qed.

Lemma landed_full early key : landed early v2 ceiling key Dirty = true.
Proof. done. Qed.

(** What did not land above the horizon is at or below it. *)
Lemma not_landed e key k : horizon e = h -> landed e v2 ceiling key k = false ->
  k <> Dirty /\ forall q, written v2 key q -> q <= h.
Proof.
  intros He. unfold landed, nothing_above, memtables_only. rewrite He. intros [Hk Hl]%orb_false_iff.
  split; [by case_bool_decide|]. intros q Hq. apply andb_false_iff in Hl as [Hl|Hl].
  - apply negb_false_iff, Z.leb_le in Hl. specialize (Hceil key q Hq). lia.
  - destruct (Z.le_gt_cases q h); [done|].
    rewrite (proj2 (horizon_spec key v2 Hv2 h _ H0 (proj1 (Z.leb_le _ _)))) in Hl; [done|]. by exists q.
Qed.

(** A clean item nothing landed on above the horizon has nothing above its read. *)
Lemma clean_unwritten key observed : obs observed -> settled_clean key observed -> (forall q, written v2 key q -> q <= h) ->
  forall q, written v2 key q -> q <= observed.
Proof.
  intros Ho [Hh|Hc] Hl q Hq; specialize (Hl q Hq); [lia|]. destruct (Z.le_gt_cases q observed) as [|Hlt]; [done|].
  destruct (hl_written _ _ _ _ Hheld observed key q Ho ltac:(lia) Hq) as (q' & Hle & Hq'). specialize (Hc q' Hq'). lia.
Qed.

Lemma unwritten_above key observed : (forall q, written v2 key q -> q <= observed) ->
  above observed (latest_version_in_view key v2) = None.
Proof.
  intros H. pose proof (above_latest_spec key v2 Hv2 observed) as Hl. destruct (above _ _) as [[q k]|]; [|done].
  destruct Hl as (Hq & Hlt & _). specialize (H q Hq). lia.
Qed.

Lemma read_split op touches e at_ c : obs (ck_observed c) -> horizon e = h -> read_marked () c (mark e at_) -> mark full at_ = Dirty ->
  validate_read op touches e v2 ceiling at_ c () = validate_read op touches full v2 ceiling at_ c ().
Proof.
  intros Ho He Hm Hf. unfold validate_read at 2. rewrite Hf. cbn [negb landed]. rewrite landed_full. cbn [negb].
  unfold validate_read. destruct (landed e v2 ceiling (ck_key c) (mark e at_)) eqn:El; cbn [negb]; [done|].
  apply not_landed in El as [Hk Hl]; [|done]. destruct Hm as [?|[_ Hc]]; [done|].
  by rewrite (unwritten_above _ _ (clean_unwritten _ _ Ho Hc Hl)).
Qed.

Lemma range_split e at_ r : obs (rc_observed r) -> horizon e = h -> range_marked () r (mark e at_) -> mark full at_ = Dirty ->
  validate_range e v2 ceiling at_ r () = validate_range full v2 ceiling at_ r ().
Proof.
  intros Ho He Hm Hf. unfold validate_range. rewrite Hf. rewrite (bool_decide_eq_true_2 (Dirty = Dirty)) by done.
  case_bool_decide as Ed; [done|]. destruct Hm as [?|[_ Hc]]; [done|]. unfold nothing_above, memtables_only. rewrite He.
  set (look := fun floor only => written_in_range_of (rc_lo r) (rc_hi r) floor U64_MAX v2 only).
  assert (Hin : forall key q, bytes_le (rc_lo r) key -> bytes_lt key (rc_hi r) -> written v2 key q -> q <= h -> q <= rc_observed r).
  { intros key q H1 H2 Hq Hh. destruct Hc as [Hc|Hc]; [lia|].
    destruct (Z.le_gt_cases q (rc_observed r)) as [|Hlt]; [done|].
    destruct (hl_written _ _ _ _ Hheld _ key q Ho ltac:(lia) Hq) as (q' & Hle & Hq'). specialize (Hc key q' H1 H2 Hq'). lia. }
  destruct (Z.leb_spec ceiling h) as [Hn|Hn].
  - fold (look (rc_observed r) false).
    pose proof (range_rule_spec v2 Hv2 (rc_lo r) (rc_hi r) (rc_observed r) U64_MAX false ltac:(done) (or_introl eq_refl)) as Hl.
    fold (look (rc_observed r) false) in Hl. destruct (look _ _) as [[[key q] k]|]; [|done].
    destruct Hl as (H1 & H2 & Hw & Hq). specialize (Hceil key q Hw). specialize (Hin key q H1 H2 Hw ltac:(lia)). lia.
  - assert (E : look (Z.max h (rc_observed r)) (last_seq (v_version v2) <=? h) = look (rc_observed r) false);
      [|unfold look in E; by rewrite E].
    unfold look. transitivity (written_in_range_of (rc_lo r) (rc_hi r) (Z.max h (rc_observed r)) U64_MAX v2 false).
    + destruct (Z.leb_spec (last_seq (v_version v2)) h); [|done]. apply range_only; [done|lia].
    + apply range_floor_ext; [done|]. intros key q H1 H2 Hw. specialize (Hin key q H1 H2 Hw).
      destruct (Z.ltb_spec (rc_observed r) q), (Z.ltb_spec (Z.max h (rc_observed r)) q); try lia.
Qed.

Lemma unwritten_landed key observed : 0 <= observed -> (forall q, written v2 key q -> q <= observed) ->
  landed_above key observed v2 = Nothing.
Proof.
  intros Ho H. pose proof (landed_above_spec key v2 Hv2 observed Ho) as Hl. destruct (landed_above key observed v2) as [| |q k]; [done| |].
  - destruct Hl as [(q & Hq & Hlt) _]. specialize (H q Hq). lia.
  - destruct Hl as (Hq & Hlt & _). specialize (H q (replaced_written key v2 Hv2 q Hq)). lia.
Qed.

(** The write rule finds a key nothing landed on clean. *)
Lemma unwritten_check key mine observed matches : 0 <= observed -> (forall q, written v2 key q -> q <= observed) ->
  check_write key mine observed (replaced_keys checks ops) v2 matches = WcClean.
Proof.
  intros Ho H. unfold check_write. destruct (replaced_keys checks ops) as [r|]; [destruct (_ && _)|];
    rewrite ?(unwritten_landed key observed Ho H), ?(unwritten_above key observed H); done.
Qed.

Lemma unwritten_content key value observed : (forall q, written v2 key q -> q <= observed) ->
  content_mismatch key value observed v2 = false.
Proof.
  intros H. unfold content_mismatch. pose proof (latest_in_view_spec key v2 Hv2) as Hl.
  destruct (latest_version_in_view key v2) as [[q []]|]; try done. destruct Hl as [Hq _].
  by rewrite (proj2 (Z.leb_le _ _) (H q Hq)).
Qed.

(** A blind merge that only operands landed on, up to the horizon, finds no
    replacement when nothing landed above it. *)
Lemma commuted_passes key observed : obs observed -> 0 <= observed -> landed_is key v1 observed Operands ->
  (forall q, written v2 key q -> q <= h) -> landed_above key observed v2 = Nothing \/ landed_above key observed v2 = Operands.
Proof.
  intros Hob Ho [_ Hr] Hl. pose proof (landed_above_spec key v2 Hv2 observed Ho) as H.
  destruct (landed_above key observed v2) as [| |q k]; [by left|by right|].
  destruct H as (Hq & Hlt & _). pose proof (Hl q (replaced_written key v2 Hv2 q Hq)) as Hh.
  destruct (hl_replaced _ _ _ _ Hheld observed key q Hob ltac:(lia) Hq) as (q' & Hle & Hq'). specialize (Hr q' Hq'). lia.
Qed.

(** The keys a marked write names pass the write rule when nothing more landed. *)
Lemma write_passes e observed since at_ o s s' t : obs observed -> 0 <= observed -> horizon e = h ->
  write_marked observed s.1.1 o (mark e at_) -> mark full at_ = Dirty -> t.1.1 = s.1.1 ->
  validate_write checks ops e v2 ceiling observed (replaced_keys checks ops) since at_ o s = inr s' ->
  exists t', validate_write checks ops full v2 ceiling observed (replaced_keys checks ops) since at_ o t = inr t'.
Proof.
  intros Hob Ho He Hm Hf. destruct s as [[lm commuted] elided], t as [[lm' commuted'] elided']. cbn [fst] in *. intros -> E.
  unfold validate_write in *. rewrite Hf. unfold write_marked in Hm. destruct (written_key lm o) as [lm1 [[key mine]|]]; [|by eexists].
  cbn [snd] in Hm. rewrite landed_full. cbn [negb]. destruct (is_exempt checks key).
  - destruct o as [k v| | |]; try by eexists. destruct (landed e v2 ceiling key (mark e at_)) eqn:El.
    + rewrite andb_true_r in E. rewrite andb_true_r. destruct (since && content_mismatch key v observed v2); [done|by eexists].
    + apply not_landed in El as [Hk Hl]; [|done]. destruct (Hm eq_refl) as [?|[_ Hc]]; [done|].
      rewrite (unwritten_content key v observed (clean_unwritten _ _ Hob Hc Hl)), andb_false_r. by eexists.
  - destruct (read_stands_for checks key); [by eexists|].
    destruct (landed e v2 ceiling key (mark e at_)) eqn:El; cbn [negb] in E.
    { destruct (check_write _ _ _ _ _ _); [by eexists..|done]. }
    apply not_landed in El as [Hk Hl]; [|done]. destruct Hm as [?|[[Em Hc]|(Em & Hb & Hop)]]; [done| |].
    + rewrite unwritten_check by (done || by apply clean_unwritten). by eexists.
    + unfold blind in Hb. unfold check_write. destruct (replaced_keys checks ops) as [r|]; [|by rewrite andb_false_r in Hb].
      rewrite Hb. destruct (commuted_passes key observed Hob Ho Hop Hl) as [Ec|Ec]; rewrite Ec; by eexists.
Qed.

(** A commit accepted from its marks passes item by item in full. *)
Lemma marked_items op touches e commuted elided : marked e ->
  validate op touches checks ops e v2 ceiling = Ok (Accept commuted elided) ->
  (forall j c, vs_reads checks !! j = Some c -> validate_read op touches full v2 ceiling j c () = inr ()) /\
  (forall j r, vs_ranges checks !! j = Some r -> validate_range full v2 ceiling (reads_len checks + j) r () = inr ()) /\
  (forall observed j o, writes_at checks = Some observed -> ops !! j = Some o ->
     exists since t t', t.1.1 = foldl next_merged None (take j ops) /\
       validate_write checks ops full v2 ceiling observed (replaced_keys checks ops) since
         (reads_len checks + ranges_len checks + j) o t = inr t').
Proof.
  intros (He & Hr & Hg & Hw) H. apply accepted_items in H as (Hr2 & Hg2 & Hw2). split_and!.
  - intros j c Hj. rewrite <- (Hr2 j c Hj). symmetry. apply read_split; [by apply (read_at j)|done|by apply Hr|].
    apply full_mark. apply lookup_lt_Some in Hj. unfold reads_len. lia.
  - intros j r Hj. rewrite <- (Hg2 j r Hj). symmetry. apply range_split; [by apply (range_at j)|done|by apply Hg|].
    apply full_mark. apply lookup_lt_Some in Hj. unfold ranges_len. lia.
  - intros observed j o Ho Hj. destruct (Hw2 observed j o Ho Hj) as (since & t & t' & Ht & E).
    destruct (writes_observed observed Ho) as [Hob H0']. exists since, t.
    assert (Hm : write_marked observed t.1.1 o (mark e (reads_len checks + ranges_len checks + j))) by (rewrite Ht; by apply Hw).
    assert (Hf : mark full (reads_len checks + ranges_len checks + j) = Dirty).
    { apply full_mark. apply lookup_lt_Some in Hj. lia. }
    destruct (write_passes e observed since _ o t t' t Hob H0' He Hm Hf eq_refl E) as [t2 E2]. by exists t2.
Qed.

(** *** What stays *)

Context (Hlater : later obs h v1 v2).

(** A blind merge that only operands landed on, up to the horizon and above it
    not, still commutes. *)
Lemma commuted_split key observed : obs observed -> 0 <= observed -> landed_is key v1 observed Operands ->
  (forall q, written v2 key q -> q <= h) -> landed_above key observed v2 = Operands.
Proof.
  intros Hob Ho Hop Hl. destruct (commuted_passes key observed Hob Ho Hop Hl) as [E|E]; [|done].
  destruct Hop as [(q1 & Hq1 & Hlt) _]. destruct (la_grows _ _ _ _ Hlater observed key q1 Hob Hlt Hq1) as (q2 & Hle & Hq2).
  pose proof (landed_above_spec key v2 Hv2 observed Ho) as H. rewrite E in H. specialize (H q2 Hq2). lia.
Qed.

Lemma write_split e observed since at_ o s : obs observed -> 0 <= observed -> horizon e = h ->
  write_marked observed s.1.1 o (mark e at_) -> mark full at_ = Dirty ->
  validate_write checks ops e v2 ceiling observed (replaced_keys checks ops) since at_ o s =
  validate_write checks ops full v2 ceiling observed (replaced_keys checks ops) since at_ o s.
Proof.
  intros Hob Ho He Hm Hf. destruct s as [[lm commuted] elided]. cbn [fst] in Hm. unfold validate_write. rewrite Hf.
  unfold write_marked in Hm. destruct (written_key lm o) as [lm' [[key mine]|]]; [|done]. cbn [snd] in Hm.
  rewrite landed_full, (bool_decide_eq_false_2 (Dirty = Commuted)) by done. cbn [negb].
  destruct (is_exempt checks key).
  - destruct o as [k v| | |]; try done. rewrite andb_true_r.
    destruct (landed e v2 ceiling key (mark e at_)) eqn:El; [by rewrite andb_true_r|].
    apply not_landed in El as [Hk Hl]; [|done]. destruct (Hm eq_refl) as [?|[_ Hc]]; [done|].
    rewrite (unwritten_content key v observed (clean_unwritten _ _ Hob Hc Hl)), !andb_false_r. done.
  - destruct (read_stands_for checks key); [done|].
    destruct (landed e v2 ceiling key (mark e at_)) eqn:El; cbn [negb]; [done|].
    apply not_landed in El as [Hk Hl]; [|done]. destruct Hm as [?|[[Em Hc]|(Em & Hb & Hop)]]; [done| |]; rewrite Em.
    + rewrite unwritten_check by (done || by apply clean_unwritten). done.
    + rewrite (bool_decide_eq_true_2 (Commuted = Commuted)) by done. unfold blind in Hb.
      unfold check_write. destruct (replaced_keys checks ops) as [r|]; [|by rewrite andb_false_r in Hb].
      rewrite Hb, (commuted_split key observed Hob Ho Hop Hl). done.
Qed.

Lemma validate_split op touches e : marked e ->
  validate op touches checks ops e v2 ceiling = validate op touches checks ops full v2 ceiling.
Proof.
  intros (He & Hr & Hg & Hw). unfold validate.
  assert (Er : each (validate_read op touches e v2 ceiling) 0 (vs_reads checks) () =
               each (validate_read op touches full v2 ceiling) 0 (vs_reads checks) ()).
  { apply (each_ext (fun u : unit => u) unit_next). intros j c [] Hj _. split; [|by intros []].
    apply read_split; [by apply (read_at j)|done|by apply Hr|]. apply full_mark. apply lookup_lt_Some in Hj. unfold reads_len. lia. }
  rewrite Er. destruct (each (validate_read op touches full v2 ceiling) 0 (vs_reads checks) ()) as [r|u]; [done|].
  assert (Eg : each (validate_range e v2 ceiling) (reads_len checks) (vs_ranges checks) () =
               each (validate_range full v2 ceiling) (reads_len checks) (vs_ranges checks) ()).
  { apply (each_ext (fun u : unit => u) unit_next). intros j c [] Hj _. split; [|by intros []].
    apply range_split; [by apply (range_at j)|done|by apply Hg|]. apply full_mark. apply lookup_lt_Some in Hj. unfold ranges_len. lia. }
  rewrite Eg. destruct (each (validate_range full v2 ceiling) (reads_len checks) (vs_ranges checks) ()) as [r|u']; [done|].
  destruct (writes_at checks) as [observed|] eqn:Ew; [|done].
  destruct (writes_observed observed Ew) as [Hob Ho].
  erewrite (each_ext (fun s : option bytes * Z * Z => s.1.1) next_merged); [reflexivity|].
  intros j o s Hj Hs. split; [|intros s'; apply validate_next].
  apply write_split; [done|done|done| |].
  - rewrite Hs. by apply Hw.
  - apply full_mark. apply lookup_lt_Some in Hj. lia.
Qed.

Lemma early_next observed at_ o s s' :
  early_write checks v1 observed (replaced_keys checks ops) at_ o s = inr s' -> s'.1 = next_merged s.1 o.
Proof.
  destruct s as [lm m]. unfold early_write, next_merged. cbn [fst].
  destruct (written_key lm o) as [lm' [[key mine]|]]; [|by intros [= <-]]. cbn [fst].
  destruct (is_exempt checks key); [by intros [= <-]|]. destruct (read_stands_for checks key); [by intros [= <-]|].
  destruct (_ && _).
  - destruct (landed_above _ _ _); [by intros [= <-]..|]. destruct (negb _); [done|by intros [= <-]].
  - destruct (landed_above_horizon _ _ _ _); by intros [= <-].
Qed.

(** An item the early check refuses is one the full check does not pass. *)
Lemma read_refused op touches c at_ m conf : obs (ck_observed c) -> early_read h v1 at_ c m = inl conf ->
  mark full at_ = Dirty -> exists r, validate_read op touches full v2 ceiling at_ c () = inl r.
Proof.
  intros Hob. unfold early_read. destruct (h <=? ck_observed c); [done|]. rewrite latest_after_above by done.
  pose proof (above_latest_spec (ck_key c) v1 Hv1 (ck_observed c)) as Hl. destruct (above _ _) as [[q k]|]; [|done].
  destruct Hl as (Hq & Hlt & _). rewrite (proj2 (Z.leb_gt _ _)) by done.
  destruct (ck_rule c) eqn:Er; cbn [andb]; try done. destruct (presence_only c) eqn:Ep; cbn [negb andb]; [done|].
  intros _ Hf. unfold validate_read. rewrite Hf, landed_full. cbn [negb].
  pose proof (above_latest_spec (ck_key c) v2 Hv2 (ck_observed c)) as H2. destruct (above _ _) as [[q2 k2]|].
  - unfold read_changed. rewrite Ep, Er. by eexists.
  - destruct (la_grows _ _ _ _ Hlater _ _ _ Hob Hlt Hq) as (q' & Hle & Hq'). specialize (H2 q' Hq'). lia.
Qed.

Lemma range_refused r at_ m conf : obs (rc_observed r) -> early_range h v1 at_ r m = inl conf ->
  mark full at_ = Dirty -> exists x, validate_range full v2 ceiling at_ r () = inl x.
Proof.
  intros Hob. unfold early_range. destruct (h <=? rc_observed r); [done|].
  pose proof (range_rule_spec v1 Hv1 (rc_lo r) (rc_hi r) (rc_observed r) U64_MAX false ltac:(done) (or_introl eq_refl)) as Hl.
  fold (written_in_range (rc_lo r) (rc_hi r) (rc_observed r) v1) in Hl.
  destruct (written_in_range _ _ _ _) as [[[key q] k]|]; [|done]. destruct Hl as (H1 & H2 & Hq & Hlt).
  intros _ Hf. unfold validate_range. rewrite Hf, (bool_decide_eq_true_2 (Dirty = Dirty)) by done.
  pose proof (range_rule_spec v2 Hv2 (rc_lo r) (rc_hi r) (rc_observed r) U64_MAX false ltac:(done) (or_introl eq_refl)) as Hl2.
  destruct (written_in_range_of _ _ _ _ _ _) as [[[key' q2] k2]|]; [by eexists|].
  destruct (la_grows _ _ _ _ Hlater (rc_observed r) key q Hob ltac:(lia) Hq) as (q' & Hle & Hq'). destruct (Hl2 key q' H1 H2 Hq').
  pose proof (cv_seqs _ Hv2 _ _ Hq'). lia.
Qed.

Lemma write_refused observed since o at_ s conf t : obs observed -> 0 <= observed ->
  early_write checks v1 observed (replaced_keys checks ops) at_ o s = inl conf -> mark full at_ = Dirty -> t.1.1 = s.1 ->
  exists x, validate_write checks ops full v2 ceiling observed (replaced_keys checks ops) since at_ o t = inl x.
Proof.
  intros Hob Ho. destruct s as [lm m], t as [[lm' commuted] elided]. cbn [fst]. intros E Hf ->.
  unfold early_write in E. unfold validate_write. rewrite Hf. destruct (written_key lm o) as [lm' [[key mine]|]]; [|done].
  destruct (is_exempt checks key); [done|]. destruct (read_stands_for checks key); [done|].
  rewrite landed_full. cbn [negb]. unfold check_write. destruct (replaced_keys checks ops) as [r|].
  - destruct (bool_decide (mine = AcMerge) && negb (contains r key)); [|by destruct (landed_above_horizon _ _ _ _)].
    pose proof (landed_above_spec key v1 Hv1 observed Ho) as H1. destruct (landed_above key observed v1) as [| |q k]; [done..|].
    destruct H1 as (Hq & Hlt & _). destruct (la_keeps _ _ _ _ Hlater observed key q Hob Hlt Hq) as (q' & Hle & Hq').
    pose proof (landed_above_spec key v2 Hv2 observed Ho) as H2. destruct (landed_above key observed v2) as [| |q2 k2].
    + specialize (H2 q' (replaced_written key v2 Hv2 q' Hq')). lia.
    + destruct H2 as [_ H2]. specialize (H2 q' Hq'). lia.
    + destruct H2 as (_ & Hlt2 & _). cbn [above]. rewrite (proj2 (Z.ltb_lt _ _)) by done. by eexists.
  - rewrite andb_false_r in E. by destruct (landed_above_horizon _ _ _ _).
Qed.

Lemma early_refusal_stands op touches conf : check_early checks ops h v1 = inl conf ->
  refusal (validate op touches checks ops full v2 ceiling).
Proof.
  unfold check_early. destruct (all_past checks ops h); [done|]. intros E commuted elided Hacc.
  apply accepted_items in Hacc as (Hr & Hg & Hw).
  destruct (each (early_read h v1) _ _ _) as [c|m1] eqn:E1.
  { apply (each_stops (fun _ => ()) unit_next) in E1 as (j & x & t & Hj & _ & Hx); [|by intros].
    destruct (read_refused op touches x j t c (read_at _ _ Hj) Hx) as [r Hf].
    - apply full_mark. apply lookup_lt_Some in Hj. unfold reads_len. lia.
    - by rewrite (Hr j x Hj) in Hf. }
  destruct (each (early_range h v1) _ _ _) as [c|m2] eqn:E2.
  { apply (each_stops (fun _ => ()) unit_next) in E2 as (j & x & t & Hj & _ & Hx); [|by intros].
    destruct (range_refused x (reads_len checks + j) t c (range_at _ _ Hj) Hx) as [r Hf].
    - apply full_mark. apply lookup_lt_Some in Hj. unfold ranges_len. lia.
    - by rewrite (Hg j x Hj) in Hf. }
  destruct (writes_at checks) as [observed|] eqn:Ew; [|done]. destruct (observed <? h); [|done].
  destruct (each _ _ ops (None, m2)) as [c|[lm m3]] eqn:E3; [|done].
  apply (each_stops fst next_merged) in E3 as (j & x & t & Hj & Ht & Hx); [|apply early_next].
  destruct (Hw observed j x eq_refl Hj) as (since & s & s' & Hs & Hp).
  destruct (writes_observed observed Ew) as [Hob Ho].
  destruct (write_refused observed since x _ t c s Hob Ho Hx) as [r Hf].
  - apply full_mark. apply lookup_lt_Some in Hj. lia.
  - by rewrite Hs, Ht.
  - congruence.
Qed.

End Split.

(** ** What a passed check means *)

Section Reread.
Context (view : ReadView) (Hview : commit_view view) (op : option MergeOperator) (touches : option touches_fn).

Lemma newest_snap l key s1 s2 : (forall x, In x l -> covers x key = true -> seq x <= s1 <-> seq x <= s2) ->
  newest_covering l key s1 = newest_covering l key s2.
Proof.
  induction l as [|x l IH]; intros H; [done|]. cbn [newest_covering]. rewrite IH by (intros y Hy; by apply H; right).
  destruct (covers x key) eqn:Ec; [|by rewrite !andb_false_r]. rewrite !andb_true_r.
  pose proof (H x (or_introl eq_refl) Ec). by destruct (Z.leb_spec (seq x) s1), (Z.leb_spec (seq x) s2); try lia.
Qed.

Lemma upto_snap key s1 s2 : (forall q, written view key q -> q <= s1 <-> q <= s2) ->
  upto key s1 (all_sources view) = upto key s2 (all_sources view) /\
  newest_covering (tombstones_of (all_sources view)) key s1 = newest_covering (tombstones_of (all_sources view)) key s2.
Proof.
  intros H. split.
  - unfold upto. apply List.filter_ext_in. intros v Hv. apply list_elem_of_In, version_written, H in Hv.
    by destruct (Z.leb_spec (kv_seq v) s1), (Z.leb_spec (kv_seq v) s2); try lia.
  - apply newest_snap. intros x Hx Hc. by apply H, tombstone_written.
Qed.

(** Two snapshots no write of the key tells apart read the same. *)
Lemma reread_snap key s1 s2 : (forall q, written view key q -> q <= s1 <-> q <= s2) ->
  lookup_loaded op key s1 view = lookup_loaded op key s2 view.
Proof.
  intros H. rewrite !lookup_reads_writes by apply (cv_keys _ Hview). unfold read_writes. rewrite !visible_split.
  by destruct (upto_snap key s1 s2 H) as [-> ->].
Qed.

(** A newest version that deletes the key reads as nothing. *)
Lemma deletion_read key ceil q k : latest_version_upto key ceil view = Some (q, k) -> is_deletion k = true ->
  lookup_loaded op key ceil view = Ok None.
Proof.
  rewrite latest_upto_newest, lookup_reads_writes by apply (cv_keys _ Hview). unfold newest_write, read_writes.
  rewrite visible_split. generalize (newest_covering (tombstones_of (all_sources view)) key ceil) as rt. intros rt.
  pose proof (view_desc key ceil view (cv_keys _ Hview key)) as Hd.
  pose proof (upto_types key ceil (all_sources view) (view_sources key view (cv_keys _ Hview key))) as Hty.
  destruct (upto key ceil (all_sources view)) as [|v vs]; [by destruct op|]. intros E Hk.
  inversion Hd as [|? ? _ Hv]; subst. inversion Hty as [|? ? Hvt _]; subst.
  assert (Hnone : kv_seq v <= rt -> read_versions op key (shown rt (v :: vs)) = Ok None).
  { intros Hle. rewrite shown_none; [by destruct op|]. constructor; [done|]. eapply List.Forall_impl; [|exact Hv]. cbn. lia. }
  destruct (Z.ltb_spec (kv_seq v) rt) as [Hlt|Hge]; [apply Hnone; lia|]. injection E as _ <-.
  destruct (Z.le_gt_cases (kv_seq v) rt) as [Hle|Hgt]; [by apply Hnone|].
  unfold shown. cbn [List.filter]. rewrite (proj2 (Z.ltb_lt _ _)) by done.
  assert (Ht : kv_type v = VALUE_TYPE_DELETION).
  { destruct Hvt as [E|[E|E]]; rewrite E in *; [done|done|done]. }
  unfold read_versions, ops_base. cbn [take_while drop_while]. rewrite Ht.
  change (is_merge VALUE_TYPE_DELETION) with false. cbv iota. rewrite Ht. by destruct op.
Qed.

Lemma latest_upto_ceil key q k ceil : latest_version_in_view key view = Some (q, k) -> q <= ceil ->
  latest_version_upto key ceil view = Some (q, k).
Proof.
  intros E Hq. pose proof (latest_in_view_spec key view Hview) as Hl. rewrite E in Hl. destruct Hl as [_ Hmax].
  unfold latest_version_in_view in E. rewrite latest_upto_newest in * by apply (cv_keys _ Hview).
  unfold newest_write in *. destruct (upto_snap key ceil U64_MAX) as [-> ->]; [|done].
  intros q' Hq'. specialize (Hmax q' Hq'). pose proof (cv_seqs _ Hview _ _ Hq'). lia.
Qed.

(** The value rule passes a read whose value is what it was. *)
Lemma value_unchanged check q k old ceil : latest_version_upto (ck_key check) ceil view = Some (q, k) ->
  (k = WkMerge \/ read_value_at op (ck_key check) (ck_observed check) view = Ok old) ->
  value_changed op check (q, k) old ceil view = Ok None ->
  lookup_loaded op (ck_key check) ceil view = Ok old /\ read_value_at op (ck_key check) (ck_observed check) view = Ok old.
Proof.
  intros El Hold E. unfold value_changed in E. cbn [snd] in E. unfold read_value_at in *.
  destruct k; (destruct Hold as [Hk|Hold]; [done|]).
  - destruct (lookup_loaded op (ck_key check) ceil view) as [cur| | |]; try done. cbn in E. case_bool_decide; [|done].
    by subst cur.
  - destruct old; [done|]. split; [|done]. by eapply deletion_read.
  - destruct old; [done|]. split; [|done]. by eapply deletion_read.
  - done.
Qed.

Lemma desc_split m vs : StronglySorted (fun v w => kv_seq w < kv_seq v) vs ->
  vs = shown m vs ++ List.filter (fun v => kv_seq v <=? m) vs.
Proof.
  induction 1 as [|v vs Hs IH Hv]; [done|]. unfold shown in *. cbn [List.filter].
  destruct (Z.ltb_spec m (kv_seq v)) as [Hlt|Hge].
  - rewrite (proj2 (Z.leb_gt _ _)) by done. cbn [app]. by rewrite <- IH.
  - rewrite (proj2 (Z.leb_le _ _)) by done. rewrite (filter_none (fun v => m <? kv_seq v)).
    + rewrite filter_all; [done|]. eapply List.Forall_impl; [|exact Hv]. cbn. intros w Hw. apply Z.leb_le. lia.
    + eapply List.Forall_impl; [|exact Hv]. cbn. intros w Hw. apply Z.ltb_ge. lia.
Qed.

Lemma upto_below key o ceil : o <= ceil ->
  List.filter (fun v => kv_seq v <=? o) (upto key ceil (all_sources view)) = upto key o (all_sources view).
Proof.
  intros Hle. unfold upto. induction (key_entries key (all_sources view)) as [|v l IH]; [done|]. cbn [List.filter].
  destruct (Z.leb_spec (kv_seq v) ceil); cbn [List.filter].
  - destruct (kv_seq v <=? o); by rewrite IH.
  - rewrite (proj2 (Z.leb_gt (kv_seq v) o)) by lia. exact IH.
Qed.

End Reread.

(** The value of a base and operands, oldest first. *)
Definition folded (M : MergeOperator) (key : bytes) (base : option bytes) (ops : list bytes) : option bytes :=
  match ops with [] => base | _ => op_full_merge key base ops end.

(** The contract of [touches]: a part it says an operand leaves alone is left
    alone by the value merged. *)
Class PartsLaw (M : MergeOperator) (t : touches_fn) {P : Type} (part : bytes -> Z -> P) : Prop :=
  parts_kept : forall key base ops os ps v v', Forall (fun o => t key o ps = false) os ->
    folded M key base ops = Some v -> folded M key base (ops ++ os) = Some v' ->
    forall p, In p ps -> part v p = part v' p.

Lemma read_folded (M : MergeOperator) key vs o : read_versions (Some M) key vs = Ok o ->
  o = folded M (callers_key key) (ops_base vs).2 (rev (ops_base vs).1) /\ ((ops_base vs).1 = [] \/ is_Some o).
Proof.
  unfold read_versions. destruct (ops_base vs) as [ops base]. cbn [fst snd]. destruct ops as [|x ops]; [intros [= <-]; auto|].
  unfold apply_merge, full_merge, folded. destruct (rev (x :: ops)) as [|y l] eqn:E.
  { apply (f_equal length) in E. rewrite length_rev in E. done. }
  destruct (op_full_merge (callers_key key) base (y :: l)); cbn; [intros [= <-]; eauto|done].
Qed.

Section Parts.
Context (view : ReadView) (Hview : commit_view view) (M : MergeOperator) (t : touches_fn) {P : Type} (part : bytes -> Z -> P).
Context `{!PartsLaw M t part}.

Definition same_parts (ps : list Z) (v v' : bytes) : Prop := forall p, In p ps -> part v p = part v' p.

(** Operands that touch no named part keep the parts of what is under them. *)
Lemma untouched_parts key ps A vs v w : Forall (fun x => parts_visit (Some t) key ps x = None) A ->
  folded M (callers_key key) (ops_base vs).2 (rev (ops_base vs).1) = Some v ->
  read_versions (Some M) key (A ++ vs) = Ok w -> exists v', w = Some v' /\ same_parts ps v v'.
Proof.
  intros HA Hv Hw.
  assert (Hm : Forall (fun x => is_merge (kv_type x) = true) A /\ Forall (fun x => t (callers_key key) (kv_value x) ps = false) A).
  { rewrite !List.Forall_forall in *. split; intros x Hx; specialize (HA x Hx); unfold parts_visit, operand_touches in HA;
      (destruct (is_merge (kv_type x)); [by destruct (t (callers_key key) (kv_value x) ps)|by destruct (is_value (kv_type x))]). }
  destruct Hm as [Hm Ht]. apply read_folded in Hw as [Hw Hsome]. rewrite ops_base_app in Hw, Hsome by done. cbn [fst snd] in *.
  rewrite rev_app_distr in Hw. destruct w as [v'|].
  - exists v'. split; [done|]. intros p Hp. symmetry in Hw. eapply parts_kept; [|exact Hv|exact Hw|exact Hp].
    apply List.Forall_forall. intros o Ho. apply in_rev, in_map_iff in Ho as (x & <- & Hx).
    rewrite List.Forall_forall in Ht. by apply Ht.
  - destruct Hsome as [E|[? ?]]; [|done]. apply app_eq_nil in E as [E1 E2]. rewrite E2 in Hv.
    apply (f_equal (@rev bytes)) in E1. cbn in E1. rewrite E1, E2 in Hw. cbn in *. congruence.
Qed.

Lemma first_some_none {A B} (f : A -> option B) l : first_some f l = None -> Forall (fun x => f x = None) l.
Proof.
  induction l as [|x l IH]; [constructor|]. cbn [first_some]. destruct (f x) eqn:E; [done|]. intros H.
  constructor; [done|by apply IH].
Qed.

Lemma first_some_split {A B} (f : A -> option B) l b : first_some f l = Some b ->
  exists a x c, l = a ++ x :: c /\ Forall (fun x => f x = None) a /\ f x = Some b.
Proof.
  induction l as [|x l IH]; [done|]. cbn [first_some]. destruct (f x) eqn:E.
  - intros [= ->]. by exists [], x, l.
  - intros H. destruct (IH H) as (a & y & c & -> & Ha & Hy). exists (x :: a), y, c. by split_and!; [|constructor|].
Qed.

(** A projected read nothing decisive landed on, or only a put of the bytes it
    read, still reads its parts. *)
Lemma parts_unchanged key o ceil ps v w :
  0 <= o <= ceil -> lookup_loaded (Some M) key o view = Ok (Some v) ->
  match parts_decisive (Some t) key o ceil ps view with
  | None => True
  | Some (Replacement q k value) => k = WkPut /\ value = Some v
  | Some (Operand _) => False
  end ->
  lookup_loaded (Some M) key ceil view = Ok w -> exists v', w = Some v' /\ same_parts ps v v'.
Proof.
  intros Ho Hold Hdec Hnow. rewrite lookup_reads_writes in Hold, Hnow by apply (cv_keys _ Hview).
  rewrite parts_decisive_scan in Hdec by apply (cv_keys _ Hview). unfold read_writes in *. rewrite !visible_split in *.
  pose proof (view_desc key ceil view (cv_keys _ Hview key)) as Hd.
  rewrite <- (upto_below view key o ceil) in Hold by lia.
  assert (Hrt : newest_covering (tombstones_of (all_sources view)) key ceil <= o ->
    newest_covering (tombstones_of (all_sources view)) key o = newest_covering (tombstones_of (all_sources view)) key ceil).
  { intros Hle. apply newest_bound in Hle as [_ Hle]. apply newest_snap. intros x Hx Hc. split; [lia|]. intros Hxc. by apply Hle. }
  revert Hold Hnow Hdec Hrt Hd. generalize (newest_covering (tombstones_of (all_sources view)) key ceil) as rt.
  generalize (newest_covering (tombstones_of (all_sources view)) key o) as rt0.
  generalize (upto key ceil (all_sources view)) as vs. intros vs rt0 rt Hold Hnow Hdec Hrt Hd.
  unfold decisive_of in Hdec. destruct (first_some _ _) as [d|] eqn:Ef; cbn [or_else] in Hdec.
  - apply first_some_split in Ef as (A & x & C & EA & HA & Hx). destruct d as [q|q k value]; [done|]. destruct Hdec as [-> ->].
    unfold parts_visit in Hx. destruct (is_merge (kv_type x)) eqn:Em; [by destruct (operand_touches _ _ _ _)|].
    destruct (is_value (kv_type x)) eqn:Ev; [|done]. injection Hx as _ Hval.
    assert (E : exists D, shown rt vs = A ++ x :: D).
    { rewrite (desc_split (Z.max o rt) vs Hd), EA, shown_app, (shown_all rt (A ++ x :: C)).
      - rewrite <- app_assoc. by eexists.
      - rewrite <- EA. apply List.Forall_forall. intros y [_ Hy]%filter_In. lia. }
    destruct E as [D E]. rewrite E in Hnow. eapply untouched_parts; [exact HA| |exact Hnow].
    unfold ops_base. cbn [take_while drop_while]. rewrite Em, Ev. cbn. by rewrite Hval.
  - apply first_some_none in Ef. unfold range_delete in Hdec. destruct (Z.ltb_spec o rt) as [Hlt|Hge]; [by destruct Hdec|].
    rewrite Hrt in Hold by done. rewrite (desc_split o vs Hd), shown_app in Hnow.
    rewrite Z.max_l in Ef by done. rewrite (shown_all rt (shown o vs)) in Hnow.
    + apply read_folded in Hold as [Hold _]. eapply untouched_parts; [exact Ef| |exact Hnow]. by symmetry.
    + apply List.Forall_forall. intros y [_ Hy]%filter_In. lia.
Qed.

End Parts.

(** ** Reads repeated where a commit is placed *)

Section Holds.
Context (op : option MergeOperator) (touches : option touches_fn) {P : Type} (part : bytes -> Z -> P).
Context (Hlaw : match op, touches with Some M, Some t => PartsLaw M t part | _, _ => True end).
Context (view : ReadView) (Hview : commit_view view).

(** A read repeated at [ceil]: a presence read still finds the key, any other
    read returns what it returned, and a projected read the same parts of it. *)
Definition read_holds (check : ConflictKey) (ceil : Z) : Prop :=
  let key := ck_key check in
  let now := lookup_loaded op key ceil view in
  let before := lookup_loaded op key (ck_observed check) view in
  if presence_only check
  then forall q k, latest_version_upto key ceil view = Some (q, k) -> ck_observed check < q -> is_deletion k = false
  else match ck_rule check, op, touches with
       | RuleParts ps, Some _, Some _ =>
           now = before \/ exists v, before = Ok (Some v) /\ forall w, now = Ok w -> exists v', w = Some v' /\ same_parts part ps v v'
       | RuleParts _, _, _ => True
       | _, _, _ => now = before
       end.

Definition range_holds (r : RangeCheck) (ceil : Z) : Prop :=
  forall key q, bytes_le (rc_lo r) key -> bytes_lt key (rc_hi r) -> written view key q -> q <= ceil -> q <= rc_observed r.

(** Nothing landed on the key since; or, for a blind merge, nothing that replaced
    it; or it already holds what the commit leaves it. *)
Definition write_holds (checks : ValidationSet) (ops : list WriteBatchOp) (observed : Z) (key : bytes) (mine : Access) : Prop :=
  (forall q, written view key q -> q <= observed) \/
  (blind checks ops key mine = true /\ forall q, replaced_at view key q -> q <= observed) \/
  (exists v, intended_of key ops None = Some (Some v) /\ lookup_in_view key U64_MAX view = v).

Lemma unwritten_holds check ceil : ck_observed check <= ceil ->
  (forall q, written view (ck_key check) q -> q <= ceil -> q <= ck_observed check) -> read_holds check ceil.
Proof.
  intros Hle H. assert (E : lookup_loaded op (ck_key check) ceil view = lookup_loaded op (ck_key check) (ck_observed check) view).
  { apply reread_snap; [done|]. intros q Hq. specialize (H q Hq). lia. }
  unfold read_holds. destruct (presence_only check).
  - intros q k El Hq. pose proof (latest_upto_spec (ck_key check) view Hview ceil) as Hl. rewrite El in Hl.
    destruct Hl as (Hw & Hqc & _). specialize (H q Hw Hqc). lia.
  - destruct (ck_rule check), op, touches; try done. by left.
Qed.

(** What a read's rule passes holds. *)
Lemma unchanged_holds check q k ceil : 0 <= ck_observed check <= ceil ->
  latest_version_upto (ck_key check) ceil view = Some (q, k) -> ck_observed check < q ->
  read_changed op touches check (q, k) ceil view = Ok None -> read_holds check ceil.
Proof.
  intros Ho El Hq E. unfold read_changed in E. unfold read_holds. cbn [snd] in E. destruct (presence_only check).
  { intros q' k' El' _. rewrite El in El'. injection El' as <- <-. by destruct (is_deletion k). }
  destruct (ck_rule check) as [| |ps]; [done| |].
  - assert (Hv : exists old, read_value_at op (ck_key check) (ck_observed check) view = Ok old /\
               lookup_loaded op (ck_key check) ceil view = Ok old).
    { destruct k; cbn in E; try done;
        (destruct (read_value_at op (ck_key check) (ck_observed check) view) as [old| | |] eqn:Er; try done; cbn in E;
         exists old; split; [done|]; by eapply value_unchanged; [done|exact El|right; exact Er|]). }
    destruct Hv as (old & E1 & E2). unfold read_value_at in E1. destruct op, touches; by rewrite E1, E2.
  - destruct (read_value_at op (ck_key check) (ck_observed check) view) as [old| | |] eqn:Er; try done. cbn in E.
    destruct op as [M|], touches as [t|]; try done. unfold read_value_at in Er. destruct old as [v|].
    + right. exists v. split; [done|]. intros w Hw.
      eapply (parts_unchanged view Hview M t part _ _ _ _ v w Ho Er); [|exact Hw].
      destruct (parts_decisive _ _ _ _ _ _) as [[q'|q' k' value]|]; [done| |done]. injection E as E.
      destruct (bool_decide (k' = WkPut)) eqn:Ek; [|done]. destruct (bool_decide (value = Some v)) eqn:Ev; [|done].
      by apply bool_decide_eq_true in Ek, Ev.
    + left. destruct (value_unchanged view Hview (Some M) check q k None ceil El (or_intror Er) E) as [H1 H2].
      unfold read_value_at in H2. by rewrite H1, H2.
Qed.

Lemma matches_holds key ops k : write_matches_committed key ops view k = true ->
  exists v, intended_of key ops None = Some (Some v) /\ lookup_in_view key U64_MAX view = v.
Proof.
  unfold write_matches_committed. destruct (bool_decide _); [done|].
  destruct (intended_of key ops None) as [[v|]|]; try done. unfold committed_equals. intros H. exists v. split; [done|].
  destruct v as [i|], (lookup_in_view key U64_MAX view) as [c|]; try done. by apply bool_decide_eq_true in H as ->.
Qed.

(** A written key the write rule does not refuse. *)
Lemma write_passed checks ops observed key mine : 0 <= observed ->
  (forall q k, check_write key mine observed (replaced_keys checks ops) view (write_matches_committed key ops view) <> WcConflict q k) ->
  write_holds checks ops observed key mine.
Proof.
  intros Ho H. unfold check_write in H. unfold write_holds, blind.
  pose proof (above_latest_spec key view Hview observed) as Hl. pose proof (landed_above_spec key view Hview observed Ho) as Hla.
  assert (Hplain : (forall q k, match above observed (latest_version_in_view key view) with
      | Some (q, theirs) => if write_matches_committed key ops view theirs then WcElided else WcConflict q theirs
      | None => WcClean end <> WcConflict q k) ->
    (forall q, written view key q -> q <= observed) \/ exists v, intended_of key ops None = Some (Some v) /\ lookup_in_view key U64_MAX view = v).
  { intros Hp. destruct (above _ _) as [[q k]|]; [|by left]. destruct (write_matches_committed key ops view k) eqn:Em.
    - right. by eapply matches_holds.
    - by destruct (Hp q k). }
  destruct (replaced_keys checks ops) as [r|]; [|destruct Hplain; auto].
  destruct (bool_decide (mine = AcMerge) && negb (contains r key)); [|destruct Hplain; auto].
  destruct (landed_above key observed view) as [| |q k].
  - by left.
  - right. left. split; [done|apply Hla].
  - exfalso. destruct Hla as (_ & Hlt & _). cbn [above] in H. rewrite (proj2 (Z.ltb_lt _ _)) in H by done. by apply (H q k).
Qed.

(** A commit every item of which the full check passes. *)

(** What a transaction relied on stands: its reads, its scanned ranges and, for
    each key it writes that neither is exempt nor stands read, its writes. *)
Definition commit_holds (checks : ValidationSet) (ops : list WriteBatchOp) : Prop :=
  (forall c, c ∈ vs_reads checks -> read_holds c U64_MAX) /\
  (forall r, r ∈ vs_ranges checks -> range_holds r U64_MAX) /\
  (forall observed j o key mine, writes_at checks = Some observed -> ops !! j = Some o ->
     (written_key (foldl next_merged None (take j ops)) o).2 = Some (key, mine) ->
     is_exempt checks key = false -> read_stands_for checks key = false -> write_holds checks ops observed key mine).

Lemma full_items_hold obs checks ops h ceiling : observed_ok obs checks ->
  (forall j c, vs_reads checks !! j = Some c -> validate_read op touches (full checks ops h) view ceiling j c () = inr ()) ->
  (forall j r, vs_ranges checks !! j = Some r ->
     validate_range (full checks ops h) view ceiling (reads_len checks + j) r () = inr ()) ->
  (forall observed j o, writes_at checks = Some observed -> ops !! j = Some o ->
     exists since t t', t.1.1 = foldl next_merged None (take j ops) /\
       validate_write checks ops (full checks ops h) view ceiling observed (replaced_keys checks ops) since
         (reads_len checks + ranges_len checks + j) o t = inr t') ->
  commit_holds checks ops.
Proof.
  intros (Hor & _ & How) Hr Hg Hw. split_and!.
  - intros c Hc. apply list_elem_of_lookup in Hc as [j Hj]. specialize (Hr j c Hj). unfold validate_read in Hr.
    rewrite (full_mark checks ops h) in Hr by (apply lookup_lt_Some in Hj; unfold reads_len; lia).
    rewrite landed_full in Hr. cbn [negb] in Hr. rewrite Forall_lookup in Hor. destruct (Hor j c Hj) as [_ Hor'].
    pose proof (above_latest_spec (ck_key c) view Hview (ck_observed c)) as Hl.
    destruct (above _ _) as [[q k]|] eqn:Ea; [|apply unwritten_holds; [lia|]; intros q Hq _; by apply Hl].
    destruct (read_changed _ _ _ _ _ _) as [[[]|]| | |] eqn:Ec; try done. eapply unchanged_holds; [done| |apply Hl|exact Ec].
    change (latest_version_upto (ck_key c) U64_MAX view) with (latest_version_in_view (ck_key c) view).
    destruct (latest_version_in_view _ _) as [[q' k']|]; [|done]. cbn in Ea. by destruct (_ <? _); [injection Ea as -> ->|].
  - intros r Hin. apply list_elem_of_lookup in Hin as [j Hj]. specialize (Hg j r Hj). unfold validate_range in Hg.
    rewrite (full_mark checks ops h) in Hg by (apply lookup_lt_Some in Hj; unfold ranges_len; lia).
    rewrite (bool_decide_eq_true_2 (Dirty = Dirty)) in Hg by done.
    pose proof (range_rule_spec view Hview (rc_lo r) (rc_hi r) (rc_observed r) U64_MAX false ltac:(done) (or_introl eq_refl)) as Hl.
    destruct (written_in_range_of _ _ _ _ _ _) as [[[] ]|]; [done|]. intros key q H1 H2 Hq Hu. specialize (Hl key q H1 H2 Hq). lia.
  - intros observed j o key mine Ho Hj Hk Hex Hst. rewrite Ho in How. destruct (Hw observed j o Ho Hj) as (since & s & s' & Hs & Hp).
    destruct s as [[lm a] b]. cbn [fst] in Hs. unfold validate_write in Hp. rewrite Hs in Hp.
    destruct (written_key _ o) as [lm' [[key' mine']|]]; [|done]. cbn [snd] in Hk. injection Hk as -> ->.
    rewrite Hex, Hst, (full_mark checks ops h), landed_full in Hp by (apply lookup_lt_Some in Hj; lia). cbn [negb] in Hp.
    eapply write_passed; [exact (proj2 How)|]. intros q k E. rewrite E in Hp. done.
Qed.

(** *** A commit that writes nothing *)

Lemma read_holds_ceil check c1 c2 : (forall q, written view (ck_key check) q -> q <= c1 <-> q <= c2) ->
  read_holds check c1 -> read_holds check c2.
Proof.
  intros H. unfold read_holds. rewrite (reread_snap view Hview op (ck_key check) c1 c2 H).
  rewrite !latest_upto_newest by apply (cv_keys _ Hview). unfold newest_write.
  by destruct (upto_snap view (ck_key check) c1 c2 H) as [-> ->].
Qed.

Lemma above_upto key o ceil : above o (latest_version_upto key ceil view) = None ->
  forall q, written view key q -> q <= ceil -> q <= o.
Proof.
  pose proof (latest_upto_spec key view Hview ceil) as Hl. destruct (latest_version_upto key ceil view) as [[q k]|]; cbn [above].
  - destruct Hl as (_ & _ & Hmax). destruct (Z.ltb_spec o q); [done|]. intros _ p Hp Hc. specialize (Hmax p Hp Hc). lia.
  - intros _ p Hp Hc. specialize (Hl p Hp). lia.
Qed.

Lemma stale_holds check latest ceil : 0 <= ck_observed check <= ceil ->
  latest_version_in_view (ck_key check) view = Some latest -> ck_observed check < latest.1 ->
  stale_at op touches check latest ceil view = Ok None -> read_holds check ceil.
Proof.
  intros Ho El Hlt E. destruct latest as [q k]. cbn [fst] in Hlt. unfold stale_at in E. cbn [fst] in E.
  destruct (Z.leb_spec q ceil) as [Hq|Hq].
  - eapply unchanged_holds; [done| |exact Hlt|exact E]. by apply latest_upto_ceil.
  - destruct (last_seq (v_version view) <=? ceil); [|done].
    destruct (above _ _) as [[q' k']|] eqn:Ea.
    + destruct (latest_version_upto (ck_key check) ceil view) as [[p k2]|] eqn:Eu; [|done]. cbn [above] in Ea.
      destruct (Z.ltb_spec (ck_observed check) p); [|done]. injection Ea as -> ->. by eapply unchanged_holds.
    + apply unwritten_holds; [lia|]. by apply above_upto.
Qed.

Lemma free_read_holds check at_ : 0 <= ck_observed check <= published at_ -> published at_ <= decided at_ ->
  write_free_read op touches check at_ view = Ok None -> read_holds check (published at_) /\ read_holds check (decided at_).
Proof.
  intros Ho Hpd E. unfold write_free_read in E. pose proof (latest_in_view_spec (ck_key check) view Hview) as Hl.
  assert (Hun : (forall q, written view (ck_key check) q -> q <= ck_observed check) ->
            read_holds check (published at_) /\ read_holds check (decided at_)).
  { intros H. split; apply unwritten_holds; auto; lia. }
  destruct (latest_version_in_view (ck_key check) view) as [[q k]|] eqn:El; [|apply Hun; intros q Hq; by destruct (Hl q)].
  destruct Hl as [Hw Hmax]. cbn [fst] in E. destruct (Z.leb_spec q (ck_observed check)) as [Hle|Hlt].
  { apply Hun. intros q' Hq'. specialize (Hmax q' Hq'). lia. }
  destruct (stale_at op touches check (q, k) (decided at_) view) as [[s|]| | |] eqn:Ed; try done. cbn in E.
  assert (Hd : read_holds check (decided at_)) by (eapply (stale_holds check (q, k)); [lia|done|exact Hlt|exact Ed]).
  split; [|done]. destruct (_ && _) eqn:Eb; cbn [orb] in E.
  - apply andb_true_iff in Eb as [Er Ep]. apply negb_true_iff in Ep. destruct (ck_rule check) eqn:Erule; try done. clear Er.
    unfold stale_at in Ed. cbn [fst] in Ed. unfold read_changed in Ed. rewrite Ep, Erule in Ed.
    destruct (Z.leb_spec q (decided at_)); [done|]. destruct (_ <=? _); [|done].
    destruct (above _ _) as [n|] eqn:Ea; [done|]. pose proof (above_upto _ _ _ Ea) as Ha.
    apply unwritten_holds; [lia|]. intros p Hp Hpc. apply Ha; [done|lia].
  - destruct (Z.leb_spec q (published at_)) as [Hq|Hq].
    + eapply read_holds_ceil; [|exact Hd]. intros p Hp. specialize (Hmax p Hp). lia.
    + by eapply (stale_holds check (q, k)).
Qed.

End Holds.

(** A source with more writes, the new ones above the horizon. *)
Record source_adds (h : Z) (s1 s2 : Source) : Prop := {
  sa_entries : forall e, e ∈ s_entries s1 -> e ∈ s_entries s2;
  sa_entries_new : forall e, e ∈ s_entries s2 -> e ∈ s_entries s1 \/ h < e_seq e;
  sa_tombs : forall t, t ∈ s_tombstones s1 -> t ∈ s_tombstones s2;
  sa_tombs_new : forall t, t ∈ s_tombstones s2 -> t ∈ s_tombstones s1 \/ h < seq t;
}.

Lemma later_adds obs h v1 v2 s1 s2 rest : all_sources v1 = s1 :: rest -> all_sources v2 = s2 :: rest ->
  source_adds h s1 s2 -> later obs h v1 v2.
Proof.
  intros E1 E2 [H1 H2 H3 H4].
  assert (Hi : forall key q, item key s1 q -> item key s2 q) by (intros key q [(e & ? & ?)|(t & ? & ?)]; [left|right]; eauto).
  assert (Hj : forall key q, item key s2 q -> q <= h -> item key s1 q).
  { intros key q [(e & He & Ek & Eq)|(t & Ht & Hc & Eq)] Hq; [left; exists e; destruct (H2 e He)|right; exists t; destruct (H4 t Ht)];
      try lia; done. }
  assert (Hk : forall key q, replaces key s1 q -> replaces key s2 q) by (intros key q [(e & ? & ?)|(t & ? & ?)]; [left|right]; eauto).
  assert (Hl : forall key q, replaces key s2 q -> q <= h -> replaces key s1 q).
  { intros key q [(e & He & Ek & Eq & Em)|(t & Ht & Hc & Eq)] Hq; [left; exists e; destruct (H2 e He)|right; exists t; destruct (H4 t Ht)];
      try lia; done. }
  split; [split| |]; unfold written, replaced_at; rewrite E1, E2; intros o key q Ho Hh (s & Hs & Hq); exists q; (split; [done|]);
    (apply elem_of_cons in Hs as [->|Hs]; [|exists s; split; [by right|done]]);
    [exists s1|exists s1|exists s2|exists s2]; (split; [by left|]);
    [apply Hj|apply Hl|by auto..]; (done || lia).
Qed.

Lemma free_passes op touches checks at_ view : commit_write_free op touches checks at_ view = Ok None ->
  (forall c, c ∈ vs_reads checks -> decided at_ <= ck_observed c \/ write_free_read op touches c at_ view = Ok None) /\
  (forall r, r ∈ vs_ranges checks -> decided at_ <= rc_observed r \/
     written_in_range_of (rc_lo r) (rc_hi r) (rc_observed r) (exact_ceiling (decided at_) view) view false = None).
Proof.
  intros E. destruct (negb (existsb (fun c => ck_observed c <? decided at_) (vs_reads checks)) &&
    negb (existsb (fun r => rc_observed r <? decided at_) (vs_ranges checks))) eqn:Ep.
  { apply andb_true_iff in Ep as [Er Eg]. apply negb_true_iff in Er, Eg. split; intros x Hx; left;
      apply Z.ltb_ge, not_true_iff_false; intros Ht; [rewrite <- not_true_iff_false in Er; apply Er|rewrite <- not_true_iff_false in Eg; apply Eg];
      apply existsb_exists; exists x; by rewrite <- list_elem_of_In. }
  assert (E' : match each (free_read op touches at_ view) 0 (vs_reads checks) () with
               | inl r => r
               | inr _ => match each (free_range at_ view) 0 (vs_ranges checks) () with inl r => r | inr _ => Ok None end
               end = Ok None).
  { unfold commit_write_free in E. rewrite Ep in E. destruct (vs_reads checks), (vs_ranges checks); done. }
  clear E. destruct (each (free_read op touches at_ view) _ _ _) as [r|u] eqn:E1.
  { apply (each_stops (fun u => u) unit_next) in E1 as (j & c & t & _ & _ & H); [|apply unit_aux]. subst r.
    unfold free_read in H. destruct (negb (ck_observed c <? decided at_)); [done|]. by destruct (write_free_read _ _ _ _ _) as [[[]|]| | |]. }
  destruct (each (free_range at_ view) _ _ _) as [r|u'] eqn:E2.
  { apply (each_stops (fun u => u) unit_next) in E2 as (j & c & t & _ & _ & H); [|apply unit_aux]. subst r.
    unfold free_range in H. destruct (negb (rc_observed c <? decided at_)); [done|]. by destruct (written_in_range_of _ _ _ _ _ _) as [[[] ]|]. }
  split.
  - intros c Hc. apply list_elem_of_lookup in Hc as [j Hj].
    destruct (each_passes (fun u => u) unit_next _ _ _ _ _ (unit_aux _) E1 j c Hj) as (t & t' & _ & H). unfold free_read in H.
    destruct (Z.ltb_spec (ck_observed c) (decided at_)); cbn [negb] in H; [right|by left].
    by destruct (write_free_read _ _ _ _ _) as [[[]|]| | |].
  - intros r Hr. apply list_elem_of_lookup in Hr as [j Hj].
    destruct (each_passes (fun u => u) unit_next _ _ _ _ _ (unit_aux _) E2 j r Hj) as (t & t' & _ & H). unfold free_range in H.
    destruct (Z.ltb_spec (rc_observed r) (decided at_)); cbn [negb] in H; [right|by left].
    by destruct (written_in_range_of _ _ _ _ _ _) as [[[] ]|].
Qed.

(** A commit accepted from the marks of its early check holds. *)
Lemma marked_commit_holds {P} obs op touches (part : bytes -> Z -> P) checks ops h v1 v2 ceiling e commuted elided :
  match op, touches with Some M, Some t => PartsLaw M t part | _, _ => True end ->
  commit_view v1 -> commit_view v2 -> observed_ok obs checks -> 0 <= h -> held obs h v1 v2 ->
  (forall key q, written v2 key q -> q <= ceiling) ->
  check_early checks ops h v1 = inr e -> validate op touches checks ops e v2 ceiling = Ok (Accept commuted elided) ->
  commit_holds op touches part v2 checks ops.
Proof.
  intros Hlaw H1 H2 Ho H0 Hl Hc He Hv. apply (early_marked checks ops h v1 obs H1 Ho) in He.
  destruct (marked_items checks ops h v1 obs Ho v2 ceiling H2 H0 Hl Hc op touches e commuted elided He Hv) as (Hr & Hg & Hw).
  by apply (full_items_hold op touches part Hlaw v2 H2 obs checks ops h ceiling).
Qed.

(** ** The theorems *)

(** C10: Checking a commit at a horizon before it takes its slot, and then only
    above the horizon when the slot is decided, decides as one check of every
    version does. For a view loaded once the horizon was sampled and the slot's
    later view, in which no key lost what transactions of these reads tell apart:
    when the early check lets the commit go on, deciding from its
    marks gives the very verdict, counts and error of the full check; when it
    refuses the commit at once, the full check would not have accepted it. *)
Theorem early_check_split obs op touches checks ops h v1 v2 ceiling :
  commit_view v1 -> commit_view v2 -> observed_ok obs checks -> 0 <= h -> later obs h v1 v2 ->
  (forall key q, written v2 key q -> q <= ceiling) ->
  match check_early checks ops h v1 with
  | inr e => validate op touches checks ops e v2 ceiling = validate op touches checks ops (full checks ops h) v2 ceiling
  | inl _ => refusal (validate op touches checks ops (full checks ops h) v2 ceiling)
  end.
Proof.
  intros H1 H2 Ho H0 Hl Hc. destruct (check_early checks ops h v1) as [c|e] eqn:E.
  - exact (early_refusal_stands checks ops h v1 obs H1 Ho v2 ceiling H2 Hl op touches c E).
  - apply (validate_split checks ops h v1 obs Ho v2 ceiling H2 H0 (la_held _ _ _ _ Hl)); try done. by apply (early_marked _ _ _ _ obs).
Qed.

(** A transaction that commits read what it would read where it commits. When
    the early check lets a commit go on and its slot is decided as accepted, from
    a view with nothing new at or below the horizon, then
    against the slot's view every read holds: a read checked by sequence or by
    value returns what it returned at its snapshot, a projected read finds the
    parts it named unchanged (given the operator's contract on [touches]), and a
    presence read still finds the key; no write landed in a scanned range since
    its snapshot; and no write is lost: nothing landed on a written key since the
    snapshot, or only operands under a blind merge, or the key already holds what
    the commit leaves it. *)
Theorem accepted_commit_holds {P} obs op touches (part : bytes -> Z -> P) checks ops h v1 v2 ceiling e commuted elided :
  match op, touches with Some M, Some t => PartsLaw M t part | _, _ => True end ->
  commit_view v1 -> commit_view v2 -> observed_ok obs checks -> 0 <= h -> held obs h v1 v2 ->
  (forall key q, written v2 key q -> q <= ceiling) ->
  check_early checks ops h v1 = inr e -> validate op touches checks ops e v2 ceiling = Ok (Accept commuted elided) ->
  commit_holds op touches part v2 checks ops.
Proof. intros Hlaw H1 H2 Ho H0 Hl Hc. exact (marked_commit_holds obs op touches part _ _ h v1 v2 _ _ _ _ Hlaw H1 H2 Ho H0 Hl Hc). Qed.

(** C11: A transaction that writes nothing commits, without a slot, where its
    reads hold: when its check passes, every read holds both at the published
    horizon, where the commit is placed, and at the decided frontier, and no
    write up to that frontier landed in a scanned range. A version above a point
    is left out only when no table can have folded an older one under it. *)
Theorem write_free_commit_holds {P} op touches (part : bytes -> Z -> P) checks at_ view :
  match op, touches with Some M, Some t => PartsLaw M t part | _, _ => True end ->
  commit_view view -> Forall (fun c => 0 <= ck_observed c <= published at_) (vs_reads checks) ->
  published at_ <= decided at_ <= U64_MAX -> commit_write_free op touches checks at_ view = Ok None ->
  (forall c, c ∈ vs_reads checks ->
     read_holds op touches part view c (published at_) /\ read_holds op touches part view c (decided at_)) /\
  (forall r, r ∈ vs_ranges checks -> range_holds view r (decided at_)).
Proof.
  intros Hlaw Hv Ho Hp E. apply free_passes in E as [Hr Hg]. rewrite List.Forall_forall in Ho. split.
  - intros c Hc. specialize (Ho c (proj1 (list_elem_of_In _ _) Hc)). destruct (Hr c Hc) as [Hd|Hf].
    + split; apply unwritten_holds; try done; lia.
    + apply free_read_holds; (done || lia).
  - intros r Hin key q H1 H2 Hq Hd. destruct (Hg r Hin) as [Hle|Hf]; [lia|].
    pose proof (range_rule_spec view Hv (rc_lo r) (rc_hi r) (rc_observed r) (exact_ceiling (decided at_) view) false ltac:(done)) as Hs.
    rewrite Hf in Hs. unfold exact_ceiling in Hs. destruct (Z.leb_spec (last_seq (v_version view)) (decided at_)) as [Hlast|Hlast].
    + specialize (Hs (or_intror Hlast) key q H1 H2 Hq). lia.
    + specialize (Hs (or_introl eq_refl) key q H1 H2 Hq). lia.
Qed.

(** The full check of a commit of one write. *)
Lemma single_write op touches commute observed o lm key mine view ceiling h :
  written_key None o = (lm, Some (key, mine)) ->
  let checks := mkSet [] (Some observed) commute [] [] in
  validate op touches checks [o] (full checks [o] h) view ceiling =
  match check_write key mine observed (replaced_keys checks [o]) view (write_matches_committed key [o] view) with
  | WcClean => Ok (Accept 0 0)
  | WcCommuted => Ok (Accept 1 0)
  | WcElided => Ok (Accept 0 1)
  | WcConflict q theirs => Ok (Refused (mkConflict key mine theirs observed q))
  end.
Proof.
  intros E checks. unfold validate. change (vs_reads checks) with (@nil ConflictKey). change (vs_ranges checks) with (@nil RangeCheck).
  change (writes_at checks) with (Some observed). cbn [each]. unfold validate_write. rewrite E.
  change (is_exempt checks key) with false. change (read_stands_for checks key) with false. cbv iota.
  change (mark (full checks [o] h) (reads_len checks + ranges_len checks)) with Dirty. rewrite landed_full. cbn [negb].
  by destruct (check_write _ _ _ _ _ _).
Qed.

Lemma check_write_ext key mine observed r view m m' : (forall k, m k = m' k) ->
  check_write key mine observed r view m = check_write key mine observed r view m'.
Proof.
  intros H. unfold check_write. destruct r as [r|]; [destruct (_ && _)|];
    [destruct (landed_above _ _ _); try done|..]; destruct (above _ _) as [[q k]|]; by rewrite ?H.
Qed.

(** Early validation of one write and the commit are one check: the probe of
    a write as it is made refuses it exactly when a transaction with only that
    write would be refused by the full check, naming the same conflict. *)
Theorem probe_agrees_with_commit op touches key w observed commute view ceiling h :
  let o := match w with EwPut v => OpPut key v | EwDelete => OpDelete key | EwMerge => OpMerge key [] end in
  let checks := mkSet [] (Some observed) commute [] [] in
  match probe_write key w observed commute view with
  | Some c => validate op touches checks [o] (full checks [o] h) view ceiling = Ok (Refused c)
  | None => exists commuted elided, validate op touches checks [o] (full checks [o] h) view ceiling = Ok (Accept commuted elided)
  end.
Proof.
  cbv zeta. assert (Hk : bytes_eqb key key = true) by by apply bool_decide_eq_true. unfold probe_write.
  destruct w as [v| |]; (erewrite single_write by done).
  - rewrite (check_write_ext key AcPut observed _ view (write_matches_committed key [OpPut key v] view)
               (fun k => committed_equals_after key (Some v) view k)).
    + unfold check_write, replaced_keys. change (bool_decide (AcPut = AcMerge)) with false.
      destruct commute; cbn [blind_merges_commute andb negb is_some];
        (destruct (above _ _) as [[q k]|]; [destruct (committed_equals_after key (Some v) view k)|]); eauto.
    + intros k. unfold write_matches_committed, committed_equals_after. cbn [intended_of]. by rewrite Hk.
  - rewrite (check_write_ext key AcDelete observed _ view (write_matches_committed key [OpDelete key] view)
               (fun k => committed_equals_after key None view k)).
    + unfold check_write, replaced_keys. change (bool_decide (AcDelete = AcMerge)) with false.
      destruct commute; cbn [blind_merges_commute andb negb is_some];
        (destruct (above _ _) as [[q k]|]; [destruct (committed_equals_after key None view k)|]); eauto.
    + intros k. unfold write_matches_committed, committed_equals_after. cbn [intended_of]. by rewrite Hk.
  - rewrite (check_write_ext key AcMerge observed _ view (write_matches_committed key [OpMerge key []] view) (fun _ => false)).
    + unfold check_write, replaced_keys. change (bool_decide (AcMerge = AcMerge)) with true.
      destruct commute; cbn [blind_merges_commute andb].
      * change (contains (replaced_of [OpMerge key []]) key) with false. change (contains (replaced_of []) key) with false.
        cbn [negb is_some andb]. destruct (landed_above _ _ _) as [| |q k]; eauto. cbn [is_some]. destruct (above _ _) as [[q' k']|]; cbn; eauto.
      * cbn [negb is_some andb]. destruct (above _ _) as [[q k]|]; cbn; eauto.
    + intros k. unfold write_matches_committed. cbn [intended_of]. rewrite Hk. by destruct (bool_decide _).
Qed.

(** ** Samples *)

(** A value of one-byte fields; an operand names a field and its new byte. *)
Definition set_field (v o : bytes) : bytes := match o with [p; d] => <[Byte.to_nat p := d]> v | _ => v end.
Definition fields_operator : MergeOperator := {|
  op_full_merge := fun _ base ops => Some (fold_left set_field ops (default [] base));
  op_partial_merge := fun _ _ _ => None;
|}.
Definition fields_touches : touches_fn := fun _ o ps =>
  match o with [p; _] => existsb (fun x => (Byte.to_nat p =? Z.to_nat x)%nat) ps | _ => true end.
Definition field (v : bytes) (p : Z) : option byte := v !! Z.to_nat p.

Lemma untouched_fields os ps v : Forall (fun o => fields_touches [] o ps = false) os ->
  forall p, In p ps -> field (fold_left set_field os v) p = field v p.
Proof.
  intros H. revert v. induction H as [|o os Ho Hos IH]; intros v p Hp; [done|]. cbn [fold_left]. rewrite IH by done.
  unfold field, set_field, fields_touches in *. destruct o as [|i [|d [|]]]; try done.
  rewrite list_lookup_insert_ne; [done|]. intros E. rewrite <- not_true_iff_false in Ho. apply Ho, existsb_exists.
  exists p. split; [done|]. by apply Nat.eqb_eq.
Qed.

#[export] Instance fields_law : PartsLaw fields_operator fields_touches field.
Proof.
  intros key base ops os ps v v' Hos Hv Hv' p Hp. symmetry. unfold folded in *. destruct ops as [|o ops].
  - subst base. destruct os as [|o os]; cbn [app] in Hv'; [congruence|]. injection Hv' as <-. by apply (untouched_fields (o :: os) ps).
  - cbn [app op_full_merge fields_operator] in *. injection Hv as <-. injection Hv' as <-.
    change (o :: ops ++ os) with ((o :: ops) ++ os). rewrite fold_left_app. by apply (untouched_fields os ps).
Qed.

Lemma held_refl obs h v : held obs h v v.
Proof. split; eauto. Qed.

Lemma written_all view key q : written view key q -> In q (flat_map all_seqs (all_sources view)).
Proof. intros (s & Hs & Hi). apply in_flat_map. exists s. rewrite <- list_elem_of_In. split; [done|]. by eapply item_all. Qed.

Lemma written_upto view m : forallb (fun q => q <=? m) (flat_map all_seqs (all_sources view)) = true ->
  forall key q, written view key q -> q <= m.
Proof. rewrite forallb_forall. intros H key q Hq. apply Z.leb_le, H. by eapply written_all. Qed.

(** A row of two fields in a table, and an operand on its first field since. *)
Definition row_entries : list Entry := Eval vm_compute in [sample_entry 12 VALUE_TYPE_MERGE [Byte.x00; Byte.x7a]].
Definition row_version : Version Source := Eval vm_compute in
  mkVersion [[sample_table sample_key sample_key 1 (Table [sample_entry 5 VALUE_TYPE_VALUE (str "ab")] [])]] 3 5 0 0.
Definition row_view : ReadView := mkView (Memtable row_entries log_new) [] row_version.
(** A put in the scanned range that lands after the horizon. *)
Definition row_later : ReadView := Eval vm_compute in
  mkView (Memtable (row_entries ++ [mkEntry (str "cf00p") 13 VALUE_TYPE_VALUE (str "n")]) log_new) [] row_version.

(** A projected read of the second field, a scanned range and a put. *)
Definition row_checks : ValidationSet := Eval vm_compute in
  mkSet [mkCheck sample_key 6 true AcReadParts (RuleParts [1])] (Some 6) true [] [mkRange (str "cf00p") (str "cf00r") 6].
Definition row_ops : list WriteBatchOp := Eval vm_compute in [OpPut (str "cf00q") (str "v")].

Lemma fresh_log_ok es : log_ok (Memtable es log_new).
Proof. exists []. by apply inv_alone. Qed.

Lemma row_views_ok : commit_view row_view /\ commit_view row_later.
Proof. split; (apply commit_viewb_sound; [|computed]); repeat constructor; apply fresh_log_ok. Qed.

Lemma row_observed : observed_ok (eq 6) row_checks.
Proof. repeat constructor; unfold U64_MAX; cbn; lia. Qed.

Lemma row_grows : later (eq 6) 12 row_view row_later.
Proof.
  eapply later_adds; [reflexivity|reflexivity|]. split; cbn [s_entries s_tombstones v_active row_view row_later].
  - intros e He. set_solver.
  - intros e He. apply elem_of_cons in He as [->|He]; [left; by left|]. apply list_elem_of_singleton in He as ->. right. done.
  - done.
  - intros t Ht. by left.
Qed.

(** The put lands after the early check marked the range clean, and the slot
    refuses the commit for it. *)
Lemma early_check_split_witness :
  exists e, check_early row_checks row_ops 12 row_view = inr e /\ mark e 0 = Dirty /\ mark e 1 = Clean /\
  validate (Some fields_operator) (Some fields_touches) row_checks row_ops (full row_checks row_ops 12) row_later 13 =
    Ok (Refused (mkConflict (str "cf00p") AcScannedRange WkPut 6 13)) /\
  validate (Some fields_operator) (Some fields_touches) row_checks row_ops e row_later 13 =
    validate (Some fields_operator) (Some fields_touches) row_checks row_ops (full row_checks row_ops 12) row_later 13.
Proof.
  destruct (check_early row_checks row_ops 12 row_view) as [c|e] eqn:E; [vm_compute in E; discriminate|].
  exists e. split; [done|]. assert (Ee : e = mkEarly 12 [Dirty; Clean; Clean]) by (vm_compute in E; by injection E as <-).
  pose proof (early_check_split (eq 6) (Some fields_operator) (Some fields_touches) row_checks row_ops 12 row_view row_later 13
    (proj1 row_views_ok) (proj2 row_views_ok) row_observed ltac:(done) row_grows
    (written_upto row_later 13 ltac:(computed))) as H.
  rewrite E in H. split; [by rewrite Ee|]. split; [by rewrite Ee|]. split; [computed|exact H].
Defined.

(** Without that put the commit is accepted: the operand touches another field,
    and the field read is still [b]. *)
Lemma accepted_commit_holds_witness :
  exists e, check_early row_checks row_ops 12 row_view = inr e /\
  validate (Some fields_operator) (Some fields_touches) row_checks row_ops e row_view 12 = Ok (Accept 0 0) /\
  lookup_loaded (Some fields_operator) sample_key U64_MAX row_view = Ok (Some (str "zb")) /\
  read_holds (Some fields_operator) (Some fields_touches) field row_view
    (mkCheck sample_key 6 true AcReadParts (RuleParts [1])) U64_MAX.
Proof.
  destruct (check_early row_checks row_ops 12 row_view) as [c|e] eqn:E; [vm_compute in E; discriminate|].
  exists e. split; [done|].
  assert (Ev : validate (Some fields_operator) (Some fields_touches) row_checks row_ops e row_view 12 = Ok (Accept 0 0)).
  { assert (Ee : e = mkEarly 12 [Dirty; Clean; Clean]) by (vm_compute in E; by injection E as <-). rewrite Ee. computed. }
  split; [exact Ev|]. split; [computed|].
  apply (accepted_commit_holds (eq 6) (Some fields_operator) (Some fields_touches) field row_checks row_ops 12 row_view row_view 12 e 0 0
    fields_law (proj1 row_views_ok) (proj1 row_views_ok) row_observed ltac:(done) (held_refl _ _ _)
    (written_upto row_view 12 ltac:(computed)) E Ev). by left.
Defined.

(** With the operand published, a commit that only read the second field is
    placed at the horizon. *)
Lemma write_free_commit_holds_witness :
  commit_write_free (Some fields_operator) (Some fields_touches) row_checks (mkPoints 12 12) row_view = Ok None /\
  read_holds (Some fields_operator) (Some fields_touches) field row_view
    (mkCheck sample_key 6 true AcReadParts (RuleParts [1])) 12.
Proof.
  assert (E : commit_write_free (Some fields_operator) (Some fields_touches) row_checks (mkPoints 12 12) row_view = Ok None) by computed.
  split; [exact E|].
  apply (write_free_commit_holds (Some fields_operator) (Some fields_touches) field row_checks (mkPoints 12 12) row_view
    fields_law (proj1 row_views_ok)); [repeat constructor; cbn; lia|cbn; unfold U64_MAX; lia|exact E|by left].
Defined.
