(* ===== verification/CommitSlots.v ===== *)
(** * Slots of the commit ring, in order

    Models what deciding a slot does to the state the next slot is decided from:
    the operations a write, a transaction or a counter reservation lands
    ([commit/request.rs], [engine/mod.rs], [memtable.rs]), the decision of each
    ([commit/pipeline.rs], [commit/allocate.rs], [commit/counters.rs],
    [commit/counter.rs]), the numbering of a transaction's appends
    ([commit/append.rs]), the sealing of a memtable and the rollback after a log
    failure ([commit/ordered.rs]). A memtable is its entries in internal key
    order with its log of range tombstones. Which thread decides a slot, the bytes
    of the log (WalLog.v, WalGate.v), the memtable's budget and the registry of
    column families are left out; what placing a record and the fence of the
    families answer are arguments.

    Shown here: what applying operations, and taking them back, does to the reads
    of a view at every sequence, what the table of counters keeps, and how a slot
    is decided. CommitRuns.v runs the steps. *)

From stdpp Require Import sets sorting.
From S2P Require Import Bloom.
From S2P Require Import Prelude Order InternalKey RangeTombstone TombstoneLog WalCodec Manifest Version ReadPath CommitWalk CommitCheck.

(** ** Applying operations *)

(** An insert into the skip list: at its place in internal key order, and nothing
    when the list holds an entry of the same key and sequence. *)
Fixpoint insert_entry (e : Entry) (es : list Entry) : list Entry :=
  match es with
  | [] => [e]
  | x :: es' =>
      match bytes_cmp (e_key e) (e_key x) with
      | Lt => e :: es
      | Gt => x :: insert_entry e es'
      | Eq => if e_seq x <? e_seq e then e :: es else if e_seq e <? e_seq x then x :: insert_entry e es' else es
      end
  end.

Definition memtable_insert (mt : Source) (e : Entry) : Source :=
  match mt with Memtable es log => Memtable (insert_entry e es) log | Table _ _ => mt end.
Definition memtable_delete_range (mt : Source) (s e : bytes) (q : Z) : Source :=
  match mt with Memtable es log => Memtable es (TombstoneLog.push log (mkTomb s e q)) | Table _ _ => mt end.
Definition memtable_new : Source := Memtable [] log_new.

Definition apply_batch_op_to_memtable (mt : Source) (o : WriteBatchOp) (q : Z) : Source :=
  match o with
  | OpPut k v => memtable_insert mt (mkEntry k q VALUE_TYPE_VALUE v)
  | OpDelete k => memtable_insert mt (mkEntry k q VALUE_TYPE_DELETION [])
  | OpDeleteRange s e => memtable_delete_range mt s e q
  | OpMerge k v => memtable_insert mt (mkEntry k q VALUE_TYPE_MERGE v)
  end.

(** [Ops::apply]: the operations at consecutive sequences. *)
Fixpoint apply_ops (mt : Source) (ops : list WriteBatchOp) (base : Z) : Source :=
  match ops with [] => mt | o :: ops => apply_ops (apply_batch_op_to_memtable mt o base) ops (base + 1) end.

Definition with_active (view : ReadView) (mt : Source) : ReadView := mkView mt (v_frozen view) (v_version view).

(** [writes]. *)
Definition op_writes (o : WriteBatchOp) (key : bytes) : bool :=
  match o with
  | OpPut k _ | OpDelete k | OpMerge k _ => bytes_eqb k key
  | OpDeleteRange s e => bytes_leb s key && bytes_ltb key e
  end.

(** ** Counters *)

Definition MAX_COUNTERS : Z := 64.
Definition Counters : Type := list (bytes * Z).
Definition counter_find (cs : Counters) (key : bytes) : Z + Z :=
  let at_ := partition_point (fun c => bytes_ltb c.1 key) cs in
  match getz cs at_ with Some c => if bytes_eqb c.1 key then inl at_ else inr at_ | None => inr at_ end.
Definition counter_get (cs : Counters) (key : bytes) : option Z :=
  match counter_find cs key with inl at_ => snd <$> getz cs at_ | inr _ => None end.
Definition counter_set (cs : Counters) (key : bytes) (value : Z) : Counters :=
  match counter_find cs key with
  | inl at_ => takez at_ cs ++ (key, value) :: dropz (at_ + 1) cs
  | inr at_ => if MAX_COUNTERS <=? len cs then cs else takez at_ cs ++ (key, value) :: dropz at_ cs
  end.
Definition forget_written (cs : Counters) (ops : list WriteBatchOp) : Counters :=
  List.filter (fun c => negb (existsb (fun o => op_writes o c.1) ops)) cs.

(** [read_u64_in_view]. *)
Definition not_a_number (n : Z) : error :=
  mkError InvalidInput "a log head, once key or allocation counter is not an 8-byte big-endian number" [n].
Definition read_u64_in_view (key : bytes) (view : ReadView) : outcome (option Z) :=
  match lookup_in_view key U64_MAX view with
  | None => Ok None
  | Some value => if len value =? 8 then Ok (Some (from_be value)) else Err (not_a_number (len value))
  end.

(** ** Appends *)

Definition DEFAULT_CF_ID : Z := 1.

(** The caller's layout of a log. *)
Record LogLayout := mkLayout { head_key : bytes; entry_key : Z -> bytes; max_entry_key_len : Z }.
Record PendingAppend := mkAppend { ap_log : LogLayout; ap_entry : bytes; ap_once : option bytes }.
Record LogHead := mkHead { lh_key : bytes; settled : Z; position : Z }.
Record AppendOrder := mkOrder { logs : list LogHead; taken : list bytes; member_taken : list bytes }.
Definition order_default : AppendOrder := mkOrder [] [] [].

Definition is_taken (order : AppendOrder) (once : bytes) : bool := existsb (bytes_eqb once) (taken order).

Definition holds_position (view : ReadView) (once : bytes) (order : AppendOrder) : outcome (bool * AppendOrder) :=
  if is_taken order once then Ok (true, order)
  else
    held ← read_u64_in_view once view;
    Ok (is_some held, if is_some held then mkOrder (logs order) (once :: taken order) (member_taken order) else order).

Fixpoint log_position (key : bytes) (ls : list LogHead) : option nat :=
  match ls with
  | [] => None
  | l :: ls => if bytes_eqb (lh_key l) key then Some O else S <$> log_position key ls
  end.

Definition head_of (view : ReadView) (log : LogLayout) (order : AppendOrder) : outcome (nat * AppendOrder) :=
  let key := prefix_key DEFAULT_CF_ID (head_key log) in
  match log_position key (logs order) with
  | Some at_ => Ok (at_, order)
  | None =>
      held ← read_u64_in_view key view;
      let p := default 0 held in
      Ok (length (logs order), mkOrder (logs order ++ [mkHead key p p]) (taken order) (member_taken order))
  end.

Definition set_position (at_ : nat) (p : Z) (order : AppendOrder) : AppendOrder :=
  mkOrder (alter (fun l => mkHead (lh_key l) (settled l) p) at_ (logs order)) (taken order) (member_taken order).
Definition take_once (once : option bytes) (order : AppendOrder) : AppendOrder :=
  match once with Some k => mkOrder (logs order) (k :: taken order) (member_taken order ++ [k]) | None => order end.

Definition positions_used : error := mkError InvalidInput "the log has used every position a 64-bit number can name" [].
Definition entry_key_long (n declared : Z) : error :=
  mkError InvalidInput "a log layout built an entry key longer than it declared" [n; declared].

(** One append of [number_appends]: the state it leaves and the puts it adds, or
    the state an error leaves. *)
Definition number_append (view : ReadView) (ap : PendingAppend) (order : AppendOrder)
  : AppendOrder * outcome (list WriteBatchOp) :=
  let once := prefix_key DEFAULT_CF_ID <$> ap_once ap in
  match (match once with Some k => holds_position view k order | None => Ok (false, order) end) with
  | Ok (true, order) => (order, Ok [])
  | Ok (false, order) =>
      match head_of view (ap_log ap) order with
      | Ok (at_, order) =>
          match logs order !! at_ with
          | None => (order, Panic)
          | Some l =>
              if U64_MAX <=? position l then (order, Err positions_used)
              else
                let p := position l + 1 in
                let key := entry_key (ap_log ap) p in
                if max_entry_key_len (ap_log ap) <? len key
                then (order, Err (entry_key_long (len key) (max_entry_key_len (ap_log ap))))
                else
                  (set_position at_ p (take_once once order),
                   Ok (OpPut (prefix_key DEFAULT_CF_ID key) (ap_entry ap) ::
                       match once with Some k => [OpPut k (to_be 8 p)] | None => [] end))
          end
      | Err e => (order, Err e)
      | Panic => (order, Panic)
      | OutOfFuel => (order, OutOfFuel)
      end
  | Err e => (order, Err e)
  | Panic => (order, Panic)
  | OutOfFuel => (order, OutOfFuel)
  end.

Fixpoint number_appends (view : ReadView) (aps : list PendingAppend) (order : AppendOrder) (ops : list WriteBatchOp)
  : AppendOrder * outcome (list WriteBatchOp) :=
  match aps with
  | [] => (order, Ok ops)
  | ap :: aps =>
      match number_append view ap order with
      | (order, Ok puts) => number_appends view aps order (ops ++ puts)
      | (order, r) => (order, r)
      end
  end.

Definition moved (l : LogHead) : bool := negb (position l =? settled l).
Definition head_put (l : LogHead) : WriteBatchOp := OpPut (lh_key l) (to_be 8 (position l)).

(** [AppendOrder::number]: the heads the commit moved follow its appends; on an
    error what it took is given back. *)
Definition number (view : ReadView) (aps : list PendingAppend) (order : AppendOrder)
  : AppendOrder * outcome (list WriteBatchOp) :=
  match number_appends view aps order [] with
  | (order, Ok ops) =>
      (mkOrder (map (fun l => mkHead (lh_key l) (position l) (position l)) (logs order)) (taken order) [],
       Ok (ops ++ map head_put (List.filter moved (logs order))))
  | (order, r) =>
      (mkOrder (map (fun l => mkHead (lh_key l) (settled l) (settled l)) (logs order))
         (List.filter (fun k => negb (existsb (bytes_eqb k) (member_taken order))) (taken order)) [], r)
  end.

(** ** Deciding a slot *)

Record TxnRequest := mkTxn {
  tx_checks : ValidationSet; tx_ops : list WriteBatchOp; tx_appends : list PendingAppend; tx_early : Early }.

Inductive Work :=
| WPut (key value : bytes) (disable_wal : bool)
| WBatch (ops : list WriteBatchOp) (disable_wal : bool)
| WTxn (txn : TxnRequest)
| WAllocate (key : bytes) (n : Z) (abandoned : bool).

Inductive Fate :=
| FWrite
| FCommit (merges_commuted writes_elided : Z)
| FConflict (c : Conflict)
| FRefused (e : error)
| FAllocated (first end_ : Z).

(** The state one slot leaves the next: [After], with the view whose active
    memtable it names. *)
Record After := mkAfter { a_view : ReadView; next_seq : Z; counters : Counters; closed : bool }.
Record Decision := mkDecision {
  verdict : Fate; base_seq : Z; d_ops : Z; batch : option (list WriteBatchOp); after : After }.
Definition decision_new (f : Fate) (base : After) : Decision := mkDecision f 0 0 None base.

(** [ops_of]. *)
Definition ops_of (w : Work) (batch : option (list WriteBatchOp)) : list WriteBatchOp :=
  match w, batch with
  | WTxn txn, Some added => tx_ops txn ++ added
  | WPut k v _, _ => [OpPut k v]
  | WBatch ops _, _ => ops
  | WTxn txn, None => tx_ops txn
  | WAllocate _ _ _, Some b => b
  | WAllocate _ _ _, None => []
  end.

Section Decide.
Context `{Target} (op : option MergeOperator) (touches : option touches_fn).
Context (writable : outcome unit) (fence : Work -> outcome unit) (place : Z -> outcome unit).

Definition payload_len (w : Work) (batch : option (list WriteBatchOp)) : Z :=
  match w, batch with
  | WTxn txn, Some added => saturating_add (ops_record_len (tx_ops txn)) (ops_record_len added)
  | WPut k v _, _ => op_len (put_payload_len k v)
  | _, _ => ops_record_len (ops_of w batch)
  end.
Definition skips_wal (w : Work) : bool := match w with WPut _ _ d | WBatch _ d => d | _ => false end.

(** The sequences and the record's place. *)
Definition take_place (w : Work) (d : Decision) (logged : bool) : outcome Decision :=
  let ops := ops_of w (batch d) in
  if len ops =? 0 then Ok d
  else
    _ ← (if logged then _ ← check_write_len (payload_len w (batch d)); place (payload_len w (batch d)) else Ok ());
    let a := after d in
    Ok (mkDecision (verdict d) (next_seq a) (len ops) (batch d)
          (mkAfter (a_view a) (next_seq a + len ops) (counters a) (closed a))).

Definition decide_txn (txn : TxnRequest) (base : After) : outcome (Fate * option (list WriteBatchOp)) :=
  let ceiling := Z.max 0 (next_seq base - 1) in
  let no_appends := match tx_appends txn with [] => true | _ => false end in
  if no_appends && is_clean (tx_early txn) && (ceiling <=? horizon (tx_early txn)) then Ok (FCommit 0 0, None)
  else
    v ← validate op touches (tx_checks txn) (tx_ops txn) (tx_early txn) (a_view base) ceiling;
    match v with
    | Refused c => Ok (FConflict c, None)
    | Accept commuted elided =>
        if no_appends then Ok (FCommit commuted elided, None)
        else added ← (number (a_view base) (tx_appends txn) order_default).2; Ok (FCommit commuted elided, Some added)
    end.

Definition counter_spent (n : Z) : error :=
  mkError InvalidInput "the counter cannot reserve more values below the largest 64-bit number" [n].

(** [saturating_add] and [checked_add] of [u64]. *)
Definition decide_allocation (key : bytes) (n : Z) (base : After) (d : Decision) : outcome Decision :=
  last ← (match counter_get (counters base) key with
          | Some last => Ok last
          | None => held ← read_u64_in_view key (a_view base); Ok (default 0 held)
          end);
  let first := Z.min U64_MAX (last + 1) in
  let with_counter v := mkAfter (a_view base) (next_seq base) (counter_set (counters base) key v) (closed base) in
  if n =? 0 then Ok (mkDecision (FAllocated first first) (base_seq d) (d_ops d) (batch d) (with_counter last))
  else if (U64_MAX <? first + n) || (U64_MAX <=? last) then Err (counter_spent n)
  else
    let end_ := first + n in
    Ok (mkDecision (FAllocated first end_) (base_seq d) (d_ops d) (Some [OpPut key (to_be 8 (end_ - 1))])
          (with_counter (end_ - 1))).

(** An error refuses the slot, from the state before it. *)
Definition or_refuse (base : After) (r : outcome Decision) : outcome Decision :=
  match r with Err e => Ok (decision_new (FRefused e) base) | r => r end.

Definition closed_error : error := mkError OtherError "the database is closed" [].
Definition gave_up : error := mkError OtherError "a counter reservation its caller gave up" [].

(** A counter the slot writes is read again by the next reservation of it. *)
Definition forgot (w : Work) (d : Decision) : Decision :=
  let a := after d in
  mkDecision (verdict d) (base_seq d) (d_ops d) (batch d)
    (mkAfter (a_view a) (next_seq a) (forget_written (counters a) (ops_of w (batch d))) (closed a)).
Definition land_request (w : Work) (d : Decision) : outcome Decision :=
  match verdict d with
  | FConflict _ => Ok d
  | _ => d ← take_place w d (negb (skips_wal w)); Ok (forgot w d)
  end.

Definition decide_work (w : Work) (base : After) : outcome Decision :=
  or_refuse base (
    if closed base then Err closed_error
    else
      _ ← writable;
      let d := decision_new FWrite base in
      match w with
      | WAllocate key n abandoned =>
          if abandoned then Err gave_up
          else _ ← fence w; d ← decide_allocation key n base d; take_place w d true
      | _ =>
          _ ← fence w;
          d ← (match w with
               | WTxn txn => '(f, b) ← decide_txn txn base; Ok (mkDecision f 0 0 b base)
               | _ => Ok d
               end);
          land_request w d
      end).

End Decide.

(** [settle]: a slot that commits is applied to its memtable. *)
Definition commits (d : Decision) : bool := 0 <? d_ops d.
Definition settle_slot (w : Work) (d : Decision) : After :=
  let a := after d in
  if commits d then
    mkAfter (with_active (a_view a) (apply_ops (v_active (a_view a)) (ops_of w (batch d)) (base_seq d)))
      (next_seq a) (counters a) (closed a)
  else a.

(** [freeze]: the active memtable joins the frozen ones behind a fresh one. *)
Definition freeze (a : After) : After :=
  let v := a_view a in
  mkAfter (mkView memtable_new (v_frozen v ++ [v_active v]) (v_version v)) (next_seq a) (counters a) (closed a).

(** ** Publishing and rolling back *)

(** The pipeline: the state its tip left, the slots decided and not yet
    published, the published horizon, and the read-only latch. *)
Record Pipe := mkPipe { tip : After; pending : list (Work * Decision); visible_seq : Z; latched : bool }.

(** The slot at the front is published: its record is written. *)
Definition last_of (d : Decision) : option Z := if commits d then Some (base_seq d + d_ops d - 1) else None.
Definition publish (p : Pipe) : Pipe :=
  match pending p with
  | [] => p
  | (_, d) :: rest => mkPipe (tip p) rest (match last_of d with Some last => last | None => visible_seq p end) (latched p)
  end.

Definition unknown_kind : error := mkError OtherError "a memtable entry has a kind this build does not know" [].

(** [rebuild_memtable]. *)
Definition copy_entry (through : Z) (fresh : outcome Source) (e : Entry) : outcome Source :=
  fresh ← fresh;
  if e_seq e <=? through then
    if Byte.eqb (e_type e) VALUE_TYPE_VALUE then Ok (memtable_insert fresh (mkEntry (e_key e) (e_seq e) VALUE_TYPE_VALUE (e_value e)))
    else if Byte.eqb (e_type e) VALUE_TYPE_DELETION then
      Ok (memtable_insert fresh (mkEntry (e_key e) (e_seq e) VALUE_TYPE_DELETION []))
    else if Byte.eqb (e_type e) VALUE_TYPE_MERGE then Ok (memtable_insert fresh (mkEntry (e_key e) (e_seq e) VALUE_TYPE_MERGE (e_value e)))
    else Err unknown_kind
  else Ok fresh.
Definition copy_tombstone (through : Z) (fresh : Source) (t : RangeTombstone) : Source :=
  if seq t <=? through then memtable_delete_range fresh (start t) (end_ t) (seq t) else fresh.
Definition rebuild_memtable (old : Source) (through : Z) : outcome Source :=
  fresh ← fold_left (copy_entry through) (s_entries old) (Ok memtable_new);
  let ts := match old with Memtable _ log => to_sorted_vec log | Table _ ts => ts end in
  Ok (fold_left (copy_tombstone through) ts fresh).

(** The last value each discarded reservation reserved, by key. *)
Fixpoint note_last (key : bytes) (v : Z) (last : list (bytes * Z)) : list (bytes * Z) :=
  match last with
  | [] => [(key, v)]
  | (k, u) :: last => if bytes_eqb k key then (k, Z.max u v) :: last else (k, u) :: note_last key v last
  end.
Definition note_reserved (last : list (bytes * Z)) (slot : Work * Decision) : list (bytes * Z) :=
  match slot.1, verdict slot.2 with
  | WAllocate key _ _, FAllocated first end_ => if end_ <=? first then last else note_last key (end_ - 1) last
  | _, _ => last
  end.
Definition last_reserved (failed : list (Work * Decision)) : list (bytes * Z) := fold_left note_reserved failed [].

Section RollBack.
Context `{Target} (place : Z -> outcome unit).

(** [log_alone]: logged, applied and published by the rollback itself. *)
Definition log_alone (a : After) (ops : list WriteBatchOp) : outcome After :=
  _ ← check_write_len (ops_record_len ops);
  _ ← place (ops_record_len ops);
  Ok (mkAfter (with_active (a_view a) (apply_ops (v_active (a_view a)) ops (next_seq a))) (next_seq a + len ops)
        (counters a) (closed a)).

Definition counter_put (c : bytes * Z) : WriteBatchOp := OpPut c.1 (to_be 8 c.2).
Definition keep_counter (a : After) (c : bytes * Z) : After :=
  mkAfter (a_view a) (next_seq a) (counter_set (counters a) c.1 c.2) (closed a).

(** [write_back_reservations]: the state, the horizon and the latch it leaves. *)
Definition write_back (a : After) (failed : list (Work * Decision)) (visible : Z) (latched : bool) : After * Z * bool :=
  let last := last_reserved failed in
  if (len last =? 0) || latched then (a, visible, latched)
  else
    match log_alone a (map counter_put last) with
    | Ok a' => (fold_left keep_counter last a', next_seq a' - 1, latched)
    | _ => (a, visible, true)
    end.

(** The first sequence a discarded slot took. *)
Fixpoint discarded_floor (failed : list (Work * Decision)) : option Z :=
  match failed with
  | [] => None
  | (_, d) :: failed => if commits d then Some (base_seq d) else discarded_floor failed
  end.

(** [cut_done]: what cutting the discarded records out of the log answered. *)
Definition roll_back (cut_done : outcome unit) (p : Pipe) : Pipe :=
  let a := tip p in
  let latched := match cut_done with Ok _ => latched p | _ => true end in
  let next := default (next_seq a) (discarded_floor (pending p)) in
  let '(view, latched) :=
    match rebuild_memtable (v_active (a_view a)) (Z.max 0 (next - 1)) with
    | Ok fresh => (with_active (a_view a) fresh, latched)
    | _ => (a_view a, true)
    end in
  let '(a, visible, latched) :=
    write_back (mkAfter view next (counters a) (closed a)) (pending p) (visible_seq p) latched in
  mkPipe a [] visible latched.

End RollBack.

(** ** The pipeline's steps *)

(** No operand of the key. *)
Definition unmerged (key : bytes) (view : ReadView) : Prop :=
  forall s e, s ∈ all_sources view -> e ∈ s_entries s -> e_key e = key -> is_merge (e_type e) = false.

Definition op_ok (o : WriteBatchOp) : Prop := match o with OpDeleteRange s e => bytes_lt s e | _ => True end.

(** The sources behind the active memtable. *)
Definition settled_sources (view : ReadView) : list Source :=
  rev (v_frozen view) ++ map sst_reader (table_files view).

(** A flush or a compaction installs a version: it leaves the active memtable,
    keeps behind it only what is published, keeps every read at or above the
    horizon of a key without operands, and tells no transaction that reads at
    [obs] of a write it did not hold. *)
Record moves (obs : Z -> Prop) (visible : Z) (v v' : ReadView) : Prop := {
  mv_view : commit_view v';
  mv_active : v_active v' = v_active v;
  mv_settled : forall s key q, s ∈ settled_sources v' -> item key s q -> q <= visible;
  mv_held : forall h, held obs h v v';
  mv_reads : forall key snap, visible <= snap -> unmerged key v -> lookup_in_view key snap v' = lookup_in_view key snap v;
  mv_unmerged : forall key, unmerged key v -> unmerged key v';
}.

Definition with_tip (p : Pipe) (a : After) : Pipe := mkPipe a (pending p) (visible_seq p) (latched p).

Section Steps.
Context `{Target} (op : option MergeOperator) (touches : option touches_fn) (obs : Z -> Prop).

Definition writable_of (p : Pipe) : outcome unit := if latched p then Err (mkError OtherError "read-only" []) else Ok ().

Definition work_ok (w : Work) : Prop := match w with WAllocate _ n _ => 0 <= n | _ => True end.

(** One step, and the slot it decides. Sequences are not spent, and a range
    deletion handed over is not empty. *)
Inductive step (p : Pipe) : option (Work * Decision) -> Pipe -> Prop :=
| StepSlot fence place w d :
    decide_work op touches (writable_of p) fence place w (tip p) = Ok d ->
    work_ok w -> Forall op_ok (ops_of w (batch d)) -> next_seq (after d) <= U64_MAX ->
    step p (Some (w, d)) (mkPipe (settle_slot w d) (pending p ++ [(w, d)]) (visible_seq p) (latched p))
| StepPublish : step p None (publish p)
| StepFreeze : pending p = [] -> step p None (with_tip p (freeze (tip p)))
| StepMove v' :
    moves obs (visible_seq p) (a_view (tip p)) v' ->
    step p None (with_tip p (mkAfter v' (next_seq (tip p)) (counters (tip p)) (closed (tip p))))
| StepRollBack place cut_done p' : roll_back place cut_done p = p' -> next_seq (tip p') <= U64_MAX -> step p None p'
| StepLatch : step p None (mkPipe (tip p) (pending p) (visible_seq p) true).

Inductive run (p : Pipe) : list (Work * Decision) -> Pipe -> Prop :=
| RunDone : run p [] p
| RunStep slot evs p1 p2 : run p evs p1 -> step p1 slot p2 ->
    run p (evs ++ match slot with Some s => [s] | None => [] end) p2.

End Steps.

(** ** The active memtable *)

Definition quiet (mt : Source) : Prop := match mt with Memtable _ log => inv (log, []) | Table _ _ => False end.

(** A memtable that can stand in front of [rest]. *)
Record active_ok (rest : list Source) (mt : Source) : Prop := {
  ao_quiet : quiet mt;
  ao_sorted : StronglySorted entry_before (s_entries mt);
  ao_types : Forall (fun e => type_ok (e_type e)) (s_entries mt);
  ao_seqs : forall key q, item key mt q -> 0 < q <= U64_MAX;
  ao_ranges : forall rt, rt ∈ s_tombstones mt -> bytes_lt (start rt) (end_ rt);
  ao_newer : forall s key p q, s ∈ rest -> item key mt p -> item key s q -> q < p;
}.

Lemma all_sources_active view : all_sources view = v_active view :: settled_sources view.
Proof. rewrite all_sources_split. unfold memtables, settled_sources. done. Qed.

Definition settled_layers (view : ReadView) : list (list Source) :=
  map (fun s => [s]) (rev (v_frozen view)) ++ map (fun s => [s]) (map sst_reader (rev (level_files (levels (v_version view)) 0))) ++
  map (fun files => map sst_reader (id files)) (drop 1 (levels (v_version view))).
Lemma view_layers_active view : view_layers view = [v_active view] :: settled_layers view.
Proof. done. Qed.
Lemma settled_concat view : List.concat (settled_layers view) = settled_sources view.
Proof.
  pose proof (all_sources_active view) as H. unfold all_sources in H. rewrite view_layers_active in H. cbn in H. by injection H.
Qed.

Lemma settled_in view l s : l ∈ settled_layers view -> s ∈ l -> s ∈ settled_sources view.
Proof. intros Hl Hs. rewrite <- settled_concat. apply list_elem_of_In, in_concat. exists l. by rewrite <- !list_elem_of_In. Qed.

Lemma active_source_ok rest mt : active_ok rest mt -> source_ok mt.
Proof.
  intros [Hq Hs Ht _ _ _]. split; [done|done|]. destruct mt; [|done]. by exists [].
Qed.

(** A view stands behind any memtable that can stand in front of it. *)
Lemma layers_front key view mt : layers_ok key (settled_layers view) -> active_ok (settled_sources view) mt ->
  layers_ok key ([mt] :: settled_layers view).
Proof.
  intros [Ho Hr Hs] Ha. split.
  - constructor; [done|]. apply List.Forall_forall. intros l Hl s t p q Hs' Ht Hp Hq. apply list_elem_of_singleton in Hs' as ->.
    eapply (ao_newer _ _ Ha); [|exact Hp|exact Hq]. eapply settled_in; [by apply list_elem_of_In|done].
  - constructor; [apply source_desc, (ao_sorted _ _ Ha)|done].
  - constructor; [|done]. constructor; [by eapply active_source_ok|constructor].
Qed.

Lemma commit_view_front view mt : commit_view view -> active_ok (settled_sources view) mt -> commit_view (with_active view mt).
Proof.
  intros [Hk Hq Hm Ht Hl H0 Hr] Ha. split; cbn [v_version with_active]; try done.
  - intros key. destruct (Hk key) as [[Ho Hru Hs] Hv]. split; [|done]. rewrite view_layers_active in *.
    apply (layers_front key view mt); [|done]. inversion Ho; inversion Hru; inversion Hs. by split.
  - intros key q (s & Hs & Hi). rewrite all_sources_active in Hs. apply elem_of_cons in Hs as [->|Hs]; [by apply (ao_seqs _ _ Ha key)|].
    apply (Hq key). exists s. split; [|done]. rewrite all_sources_active. by right.
  - unfold memtables in *. inversion Hm. constructor; [|done]. pose proof (ao_quiet _ _ Ha). by destruct mt.
  - intros s rt Hs Hrt. rewrite all_sources_active in Hs. apply elem_of_cons in Hs as [->|Hs]; [by apply (ao_ranges _ _ Ha)|].
    apply (Hr s); [|done]. rewrite all_sources_active. by right.
Qed.

Lemma active_of_view view : commit_view view -> quiet (v_active view) -> active_ok (settled_sources view) (v_active view).
Proof.
  intros Hv Hq. pose proof (all_sources_active view) as E.
  assert (Hin : v_active view ∈ all_sources view) by (rewrite E; by left).
  assert (Hso : source_ok (v_active view)).
  { destruct (cv_keys _ Hv []) as [[_ _ Hs] _]. rewrite view_layers_active in Hs. inversion Hs as [|? ? H1]. by inversion H1. }
  split; try done; try apply Hso.
  - intros key q Hi. apply (cv_seqs _ Hv key). by exists (v_active view).
  - intros rt Hrt. by apply (cv_ranges _ Hv _ _ Hin).
  - intros s key p q Hs Hp Hi. destruct (cv_keys _ Hv key) as [[Ho _ _] _]. rewrite view_layers_active in Ho.
    inversion Ho as [|? ? _ Hf]; subst. rewrite <- settled_concat in Hs. apply list_elem_of_In, in_concat in Hs as (l & Hl & Hs).
    rewrite List.Forall_forall in Hf. apply (Hf l Hl (v_active view) s p q); [by left|by apply list_elem_of_In|done|done].
Qed.

(** ** Applying one operation *)

Lemma entry_before_trans a b c : entry_before a b -> entry_before b c -> entry_before a c.
Proof.
  unfold entry_before. intros [H1|[E1 H1]] [H2|[E2 H2]].
  - left. by eapply bytes_lt_trans.
  - left. by rewrite <- E2.
  - left. by rewrite E1.
  - right. split; [congruence|lia].
Qed.

(** An entry inserted into a sorted list that holds older ones of its key. *)
Lemma insert_spec e es : StronglySorted entry_before es -> (forall x, x ∈ es -> e_key x = e_key e -> e_seq x < e_seq e) ->
  (forall x, x ∈ insert_entry e es <-> x = e \/ x ∈ es) /\ StronglySorted entry_before (insert_entry e es) /\
  forall key, List.filter (fun x => bytes_eqb (e_key x) key) (insert_entry e es) =
    (if bytes_eqb (e_key e) key then [e] else []) ++ List.filter (fun x => bytes_eqb (e_key x) key) es.
Proof.
  induction 1 as [|y es Hs IH Hy]; intros Hn; cbn [insert_entry].
  { split; [set_solver|]. split; [repeat constructor|]. intros key. cbn. by destruct (bytes_eqb _ _). }
  destruct (IH ltac:(set_solver)) as (H1 & H2 & H3).
  assert (Hfront : entry_before e y ->
    (forall x, x ∈ e :: y :: es <-> x = e \/ x ∈ y :: es) /\ StronglySorted entry_before (e :: y :: es) /\
    forall key, List.filter (fun x => bytes_eqb (e_key x) key) (e :: y :: es) =
      (if bytes_eqb (e_key e) key then [e] else []) ++ List.filter (fun x => bytes_eqb (e_key x) key) (y :: es)).
  { intros Hb. split; [set_solver|]. split; [|intros key; cbn; by destruct (bytes_eqb (e_key e) key)].
    constructor; [by constructor|]. constructor; [done|]. eapply List.Forall_impl; [|exact Hy]. intros x. by apply entry_before_trans. }
  destruct (bytes_cmp (e_key e) (e_key y)) eqn:E.
  - apply bytes_cmp_eq in E. specialize (Hn y ltac:(by left) (eq_sym E)). rewrite (proj2 (Z.ltb_lt _ _) Hn). apply Hfront. right. auto.
  - apply Hfront. by left.
  - assert (Hlt : bytes_lt (e_key y) (e_key e)) by (unfold bytes_lt; by rewrite bytes_cmp_opp, E).
    split; [|split].
    + intros x. rewrite !elem_of_cons, H1. tauto.
    + constructor; [done|]. apply List.Forall_forall. intros x Hx%list_elem_of_In%H1. destruct Hx as [->|Hx]; [by left|].
      rewrite List.Forall_forall in Hy. by apply Hy, list_elem_of_In.
    + intros key. cbn. rewrite H3. destruct (bytes_eqb_spec (e_key y) key) as [<-|]; [|done].
      destruct (bytes_eqb_spec (e_key e) (e_key y)) as [Ee|]; [|done]. rewrite Ee in Hlt. by apply bytes_lt_irrefl in Hlt.
Qed.

(** What an operation leaves of a memtable: its entry in front of the key's
    entries, or its range deletion. *)
Definition op_entry (o : WriteBatchOp) (q : Z) : option Entry :=
  match o with
  | OpPut k v => Some (mkEntry k q VALUE_TYPE_VALUE v)
  | OpDelete k => Some (mkEntry k q VALUE_TYPE_DELETION [])
  | OpMerge k v => Some (mkEntry k q VALUE_TYPE_MERGE v)
  | OpDeleteRange _ _ => None
  end.
Definition op_tomb (o : WriteBatchOp) (q : Z) : option RangeTombstone :=
  match o with OpDeleteRange s e => Some (mkTomb s e q) | _ => None end.

Record applied (mt mt' : Source) (o : WriteBatchOp) (q : Z) : Prop := {
  ap_quiet : quiet mt';
  ap_sorted : StronglySorted entry_before (s_entries mt');
  ap_entries : forall x, x ∈ s_entries mt' <-> op_entry o q = Some x \/ x ∈ s_entries mt;
  ap_key : forall key, List.filter (fun x => bytes_eqb (e_key x) key) (s_entries mt') =
    match op_entry o q with Some e => if bytes_eqb (e_key e) key then [e] else [] | None => [] end ++
    List.filter (fun x => bytes_eqb (e_key x) key) (s_entries mt);
  ap_tombs : forall t, In t (s_tombstones mt') <-> op_tomb o q = Some t \/ In t (s_tombstones mt);
}.

Definition older (mt : Source) (q : Z) : Prop := forall x, x ∈ s_entries mt -> e_seq x < q.

Lemma apply_spec mt o q : quiet mt -> StronglySorted entry_before (s_entries mt) -> older mt q ->
  applied mt (apply_batch_op_to_memtable mt o q) o q.
Proof.
  destruct mt as [es log|]; [|done]. cbn [s_entries s_tombstones quiet]. intros Hq Hs Ho.
  assert (Hins : forall e, e_seq e = q -> op_entry o q = Some e -> applied (Memtable es log) (memtable_insert (Memtable es log) e) o q).
  { intros e Eq E. destruct (insert_spec e es Hs) as (H1 & H2 & H3); [intros x Hx _; rewrite Eq; by apply Ho|].
    assert (Et : op_tomb o q = None) by by destruct o.
    split; cbn [memtable_insert s_entries s_tombstones quiet]; [done|done| | |].
    - intros x. rewrite H1, E. naive_solver.
    - intros key. rewrite H3, E. done.
    - intros t. rewrite Et. naive_solver. }
  destruct o as [k v|k|s e|k v]; cbn [apply_batch_op_to_memtable];
    [by apply (Hins (mkEntry k q VALUE_TYPE_VALUE v))|by apply (Hins (mkEntry k q VALUE_TYPE_DELETION []))| |
     by apply (Hins (mkEntry k q VALUE_TYPE_MERGE v))].
  destruct (push_spec log (mkTomb s e q) Hq) as [H1 H2].
  split; cbn [memtable_delete_range s_entries s_tombstones quiet op_entry op_tomb]; [done|done|naive_solver|done|].
  intros t. rewrite H2. naive_solver.
Qed.

Lemma tomb_writes s e q key : covers (mkTomb s e q) key = op_writes (OpDeleteRange s e) key.
Proof. done. Qed.

Section Applied.
Context (mt mt' : Source) (o : WriteBatchOp) (q : Z) (Ha : applied mt mt' o q).

Lemma applied_item key p : item key mt' p <-> item key mt p \/ op_writes o key = true /\ p = q.
Proof.
  unfold item. setoid_rewrite (ap_entries _ _ _ _ Ha). setoid_rewrite list_elem_of_In. setoid_rewrite (ap_tombs _ _ _ _ Ha).
  split.
  - intros [(e & [He|He] & Hk & Hq)|(t & [Ht|Ht] & Hk & Hq)]; [right|left; left; eauto|right|left; right; eauto].
    + destruct o; try done; injection He as <-; cbn in *; subst; (split; [|done]); by apply bool_decide_eq_true.
    + destruct o; try done. injection Ht as <-. cbn in *. by subst.
  - intros [[(e & He & Hk & Hq)|(t & Ht & Hk & Hq)]|[Hw ->]]; [left; eauto 6|right; eauto 6|].
    destruct o as [k v|k|s e|k v]; cbn in Hw; try apply bool_decide_eq_true in Hw as ->;
      [left|left|right|left]; (eexists; split; [by left|done]).
Qed.

Lemma applied_replaces key p : replaces key mt' p <->
  replaces key mt p \/ op_writes o key = true /\ p = q /\ match o with OpMerge _ _ => False | _ => True end.
Proof.
  unfold replaces. setoid_rewrite (ap_entries _ _ _ _ Ha). setoid_rewrite list_elem_of_In. setoid_rewrite (ap_tombs _ _ _ _ Ha).
  split.
  - intros [(e & [He|He] & Hk & Hq & Hm)|(t & [Ht|Ht] & Hk & Hq)]; [right|left; left; eauto|right|left; right; eauto].
    + destruct o; try done; injection He as <-; cbn in *; subst; try done; (split; [|done]); by apply bool_decide_eq_true.
    + destruct o; try done. injection Ht as <-. cbn in *. by subst.
  - intros [[(e & He & Hk & Hq & Hm)|(t & Ht & Hk & Hq)]|(Hw & -> & Hm)]; [left; eauto 7|right; eauto 6|].
    destruct o as [k v|k|s e|k v]; cbn in Hw; try apply bool_decide_eq_true in Hw as ->; try done;
      [left|left|right]; (eexists; split; [by left|done]).
Qed.

Lemma applied_active_ok rest : active_ok rest mt -> op_ok o -> 0 < q <= U64_MAX ->
  (forall s key p, s ∈ rest -> item key s p -> p < q) -> active_ok rest mt'.
Proof.
  intros [Hq Hs Ht Hse Hr Hn] Ho Hb Hroom. split; [apply Ha|apply Ha| | | |].
  - apply List.Forall_forall. intros e [E|He]%list_elem_of_In%(ap_entries _ _ _ _ Ha).
    + destruct o; try done; injection E as <-; cbn; unfold type_ok; auto.
    + rewrite List.Forall_forall in Ht. by apply Ht, list_elem_of_In.
  - intros key p [Hi|[_ ->]]%applied_item; [by apply (Hse key)|done].
  - intros t [E|Hi]%list_elem_of_In%(ap_tombs _ _ _ _ Ha); [|by apply Hr, list_elem_of_In].
    destruct o; try done. injection E as <-. done.
  - intros s key p p' Hin [Hi|[_ ->]]%applied_item Hi'; [by eapply Hn|by eapply Hroom].
Qed.

End Applied.

(** ** Reads of a view an operation is applied to *)

Definition op_value (o : WriteBatchOp) : option bytes := match o with OpPut _ v | OpMerge _ v => Some v | _ => None end.
Definition room (view : ReadView) (q : Z) : Prop := forall key p, written view key p -> p < q.

Lemma active_in view : v_active view ∈ all_sources view.
Proof. rewrite all_sources_active. by left. Qed.

Lemma room_older view q : room view q -> older (v_active view) q.
Proof.
  intros Hr x Hx. apply (Hr (e_key x)). exists (v_active view). split; [apply active_in|]. left. by exists x.
Qed.

Lemma key_entries_cons key s l : key_entries key (s :: l) =
  map version_of (List.filter (fun e => bytes_eqb (e_key e) key) (s_entries s)) ++ key_entries key l.
Proof. done. Qed.

Section ApplyView.
Context (view : ReadView) (o : WriteBatchOp) (q : Z).
Context (Hv : commit_view view) (Hquiet : quiet (v_active view)) (Hroom : room view q) (Hop : op_ok o) (Hq : 0 < q <= U64_MAX).

Let view' := with_active view (apply_batch_op_to_memtable (v_active view) o q).

Lemma apply_applied : applied (v_active view) (v_active view') o q.
Proof. apply apply_spec; [done|apply (active_of_view view Hv Hquiet)|by apply room_older]. Qed.

Lemma apply_commit_view : commit_view view' /\ quiet (v_active view').
Proof.
  pose proof apply_applied as Ha. split; [|apply Ha]. apply commit_view_front; [done|].
  eapply applied_active_ok; [exact Ha|by apply active_of_view|done|done|]. intros s key p Hs Hi. apply (Hroom key).
  exists s. split; [|done]. rewrite all_sources_active. by right.
Qed.

Lemma apply_written key p : written view' key p <-> written view key p \/ op_writes o key = true /\ p = q.
Proof.
  unfold written. rewrite !all_sources_active. change (settled_sources view') with (settled_sources view).
  setoid_rewrite elem_of_cons. pose proof (applied_item _ _ _ _ apply_applied key p) as H. naive_solver.
Qed.

Lemma apply_replaced key p : replaced_at view' key p ->
  replaced_at view key p \/ op_writes o key = true /\ p = q.
Proof.
  unfold replaced_at. rewrite !all_sources_active. change (settled_sources view') with (settled_sources view).
  setoid_rewrite elem_of_cons. pose proof (applied_replaces _ _ _ _ apply_applied key p) as H. naive_solver.
Qed.

Lemma apply_tombstones key snap : newest_covering (tombstones_of (all_sources view')) key snap =
  Z.max (match o with OpDeleteRange _ _ => if op_writes o key && (q <=? snap) then q else 0 | _ => 0 end)
    (newest_covering (tombstones_of (all_sources view)) key snap).
Proof.
  transitivity (newest_covering (match op_tomb o q with Some t => [t] | None => [] end ++ tombstones_of (all_sources view)) key snap).
  - unfold tombstones_of. rewrite !all_sources_active. change (settled_sources view') with (settled_sources view).
    cbn [flat_map]. apply newest_ext; intros t; rewrite !in_app_iff, (ap_tombs _ _ _ _ apply_applied);
      destruct (op_tomb o q); cbn [In]; naive_solver.
  - rewrite newest_join. f_equal. destruct o as [| |s e|]; cbn [op_tomb newest_covering]; try done.
    rewrite tomb_writes, andb_comm. cbn [seq]. destruct (_ && _); [lia|done].
Qed.

Lemma apply_entries key : key_entries key (all_sources view') =
  match op_entry o q with Some e => if bytes_eqb (e_key e) key then [version_of e] else [] | None => [] end ++
  key_entries key (all_sources view).
Proof.
  rewrite !all_sources_active. change (settled_sources view') with (settled_sources view).
  rewrite !key_entries_cons, (ap_key _ _ _ _ apply_applied key), map_app, <- app_assoc. f_equal.
  destruct (op_entry o q); [|done]. by destruct (bytes_eqb _ _).
Qed.

Lemma older_entries key v : In v (key_entries key (all_sources view)) -> kv_seq v < q.
Proof. intros Hi. apply (Hroom key). by apply key_entries_item, list_elem_of_In. Qed.

Lemma older_tombstones key snap : newest_covering (tombstones_of (all_sources view)) key snap < q.
Proof.
  destruct (newest_attained (tombstones_of (all_sources view)) key snap) as [->|(t & Ht & Hc & _ & <-)]; [lia|].
  apply (Hroom key). apply in_flat_map in Ht as (s & Hs & Ht). exists s. split; [by apply list_elem_of_In|].
  right. exists t. by rewrite list_elem_of_In.
Qed.

(** A read at a sequence sees the operation when it writes the key at or below
    that sequence, and what the view held otherwise. *)
Lemma apply_lookup key snap : lookup_in_view key snap view' =
  if op_writes o key && (q <=? snap) then op_value o else lookup_in_view key snap view.
Proof.
  assert (E : forall a b : option bytes, Ok a = Ok b -> a = b) by by intros a b [= ->]. apply E. clear E.
  change (Ok (lookup_in_view key snap view')) with (lookup_loaded None key snap view').
  rewrite (lookup_reads_writes None key snap view' (cv_keys _ (proj1 apply_commit_view) key)).
  transitivity (if op_writes o key && (q <=? snap) then Ok (op_value o) else lookup_loaded None key snap view);
    [|by destruct (_ && _)].
  rewrite (lookup_reads_writes None key snap view (cv_keys _ Hv key)). unfold read_writes.
  rewrite apply_tombstones, apply_entries. pose proof (older_tombstones key snap) as Hrt.
  pose proof (newest_nonneg (tombstones_of (all_sources view)) key snap) as H0. pose proof (older_entries key) as Hold.
  set (rt := newest_covering _ _ _) in *. set (vs := key_entries key _) in *. clearbody rt vs.
  assert (Hput : forall k t v, op_entry o q = Some (mkEntry k q t v) -> op_writes o key = bytes_eqb k key ->
    op_value o = (if Byte.eqb t VALUE_TYPE_DELETION then None else Some v) ->
    read_versions None key (List.filter (visible (Z.max 0 rt) snap)
      ((if bytes_eqb k key then [version_of (mkEntry k q t v)] else []) ++ vs)) =
    if op_writes o key && (q <=? snap) then Ok (op_value o) else read_versions None key (List.filter (visible rt snap) vs)).
  { intros k t v _ -> ->. rewrite Z.max_r by done. destruct (bytes_eqb k key); [|done]. cbn [app List.filter andb].
    unfold visible at 1. cbn [kv_seq version_of e_seq]. rewrite (proj2 (Z.ltb_lt _ _) Hrt). by destruct (q <=? snap). }
  destruct o as [k v|k|s e|k v]; cbn [op_entry]; [by apply Hput|by apply Hput| |by apply Hput]. clear Hput.
  cbn [app]. destruct (op_writes _ _ && _) eqn:Ew; [|by rewrite Z.max_r].
  rewrite Z.max_l by lia. rewrite filter_none; [done|]. apply List.Forall_forall. intros v Hin%Hold.
  unfold visible. rewrite (proj2 (Z.ltb_ge _ _)) by lia. done.
Qed.

Lemma apply_unmerged key : unmerged key view -> match o with OpMerge k _ => k <> key | _ => True end -> unmerged key view'.
Proof.
  intros Hu Ho s e. rewrite all_sources_active. change (settled_sources view') with (settled_sources view). intros Hs He Hk.
  apply elem_of_cons in Hs as [->|Hs]; [|apply (Hu s e); [rewrite all_sources_active; by right|done|done]].
  apply (ap_entries _ _ _ _ apply_applied) in He as [E|He]; [|by apply (Hu _ _ (active_in view) He)].
  destruct o; try done; injection E as <-; cbn in *; done.
Qed.

End ApplyView.

(** ** Applying a commit's operations *)

(** What a read at [snap] that found [r] finds once the operations landed. *)
Fixpoint read_after (ops : list WriteBatchOp) (base : Z) (key : bytes) (snap : Z) (r : option bytes) : option bytes :=
  match ops with
  | [] => r
  | o :: ops => read_after ops (base + 1) key snap (if op_writes o key && (base <=? snap) then op_value o else r)
  end.

Record landed_on (view view' : ReadView) (ops : list WriteBatchOp) (base : Z) : Prop := {
  ln_view : commit_view view';
  ln_quiet : quiet (v_active view');
  ln_room : room view' (base + len ops);
  ln_written : forall key p, written view' key p -> written view key p \/ base <= p;
  ln_replaced : forall key p, replaced_at view' key p -> replaced_at view key p \/ base <= p;
  ln_lookup : forall key snap, lookup_in_view key snap view' = read_after ops base key snap (lookup_in_view key snap view);
  ln_unmerged : forall key, unmerged key view -> Forall (fun o => match o with OpMerge k _ => k <> key | _ => True end) ops ->
    unmerged key view';
}.

Lemma apply_ops_spec ops view base : commit_view view -> quiet (v_active view) -> room view base -> Forall op_ok ops ->
  0 < base -> base + len ops <= U64_MAX + 1 -> landed_on view (with_active view (apply_ops (v_active view) ops base)) ops base.
Proof.
  revert view base. induction ops as [|o ops IH]; intros view base Hv Hq Hr Ho Hb Hm; cbn [apply_ops].
  { replace (with_active view (v_active view)) with view by by destruct view.
    split; [done|done| |by left|by left|done|done]. intros key p Hp. specialize (Hr key p Hp). unfold len. cbn. lia. }
  inversion Ho as [|? ? Ho1 Ho2]; subst. rewrite len_cons in Hm. pose proof (len_nonneg ops) as Hl.
  assert (Hb' : 0 < base <= U64_MAX) by lia.
  destruct (apply_commit_view view o base Hv Hq Hr Ho1 Hb') as [Hv1 Hq1].
  set (view1 := with_active view (apply_batch_op_to_memtable (v_active view) o base)) in *.
  assert (Hr1 : room view1 (base + 1)).
  { intros key p Hp. apply (apply_written view o base Hv Hq Hr Hb') in Hp as [Hp|[_ ->]]; [specialize (Hr key p Hp)|]; lia. }
  specialize (IH view1 (base + 1) Hv1 Hq1 Hr1 Ho2 ltac:(lia) ltac:(lia)).
  change (apply_batch_op_to_memtable (v_active view) o base) with (v_active view1).
  change (with_active view (apply_ops (v_active view1) ops (base + 1))) with
    (with_active view1 (apply_ops (v_active view1) ops (base + 1))).
  destruct IH as [H1 H2 H3 H4 H5 H6 H7]. split; [done|done| | | | |].
  - rewrite len_cons. intros key p Hp. specialize (H3 key p Hp). lia.
  - intros key p Hp. destruct (H4 key p Hp) as [Hp'|]; [|right; lia]. clear Hp. rename Hp' into Hp. apply (apply_written view o base Hv Hq Hr Hb') in Hp as [|[_ ->]]; [by left|right; lia].
  - intros key p Hp. destruct (H5 key p Hp) as [Hp'|]; [|right; lia]. clear Hp. rename Hp' into Hp. apply (apply_replaced view o base Hv Hq Hr Hb') in Hp as [|[_ ->]]; [by left|right; lia].
  - intros key snap. rewrite H6. cbn [read_after]. f_equal. by apply apply_lookup.
  - intros key Hu Hf. inversion Hf; subst. apply H7; [|done]. by apply apply_unmerged.
Qed.

(** ** Sealing the active memtable *)

Section Frozen.
Context (view : ReadView) (Hv : commit_view view) (Hquiet : quiet (v_active view)).

Let view' := mkView memtable_new (v_frozen view ++ [v_active view]) (v_version view).

Lemma frozen_settled : settled_sources view' = all_sources view.
Proof. rewrite all_sources_active. unfold settled_sources. cbn [v_frozen view']. by rewrite rev_app_distr. Qed.

Lemma frozen_layers : settled_layers view' = view_layers view.
Proof. rewrite view_layers_active. unfold settled_layers. cbn [v_frozen view']. by rewrite rev_app_distr. Qed.

Lemma new_items key q : ~ item key memtable_new q.
Proof. intros [(e & He & _)|(t & Ht & _)]; [inversion He|inversion Ht]. Qed.

Lemma frozen_quiet : quiet memtable_new.
Proof. by apply inv_alone. Qed.

Lemma frozen_view : commit_view view'.
Proof.
  assert (Hnew : active_ok (settled_sources view') memtable_new).
  { split; [apply frozen_quiet|constructor|constructor| | |].
    - intros key q Hi. by apply new_items in Hi.
    - intros rt Hrt. inversion Hrt.
    - intros s key p q _ Hi. by apply new_items in Hi. }
  destruct Hv as [Hk Hq Hm Ht Hl H0 Hr]. split; cbn [v_version view']; try done.
  - intros key. destruct (Hk key) as [Hlo Hlv]. split; [|done]. rewrite view_layers_active. apply layers_front; [|done].
    by rewrite frozen_layers.
  - intros key q (s & Hs & Hi). rewrite all_sources_active, frozen_settled in Hs. apply elem_of_cons in Hs as [->|Hs];
      [by apply new_items in Hi|]. apply (Hq key). by exists s.
  - unfold memtables in *. cbn [v_active v_frozen view']. rewrite rev_app_distr. by constructor.
  - intros s rt Hs Hrt. rewrite all_sources_active, frozen_settled in Hs. apply elem_of_cons in Hs as [->|Hs];
      [inversion Hrt|]. by apply (Hr s).
Qed.

Lemma frozen_written key q : written view' key q <-> written view key q.
Proof.
  unfold written. rewrite (all_sources_active view'), frozen_settled. split.
  - intros (s & Hs & Hi). apply elem_of_cons in Hs as [->|Hs]; [by apply new_items in Hi|by exists s].
  - intros (s & Hs & Hi). exists s. split; [by right|done].
Qed.

Lemma frozen_replaced key q : replaced_at view' key q -> replaced_at view key q.
Proof.
  unfold replaced_at. rewrite (all_sources_active view'), frozen_settled. intros (s & Hs & Hi).
  apply elem_of_cons in Hs as [->|Hs]; [|by exists s].
  destruct Hi as [(e & He & _)|(t & Ht & _)]; [inversion He|inversion Ht].
Qed.

Lemma frozen_unmerged key : unmerged key view -> unmerged key view'.
Proof.
  intros Hu s e Hs He Hk. rewrite all_sources_active, frozen_settled in Hs. apply elem_of_cons in Hs as [->|Hs];
    [inversion He|by apply (Hu s e)].
Qed.

Lemma frozen_lookup key snap : lookup_in_view key snap view' = lookup_in_view key snap view.
Proof.
  assert (E : forall a b : option bytes, Ok a = Ok b -> a = b) by by intros a b [= ->]. apply E. clear E.
  change (lookup_loaded None key snap view' = lookup_loaded None key snap view).
  rewrite !lookup_reads_writes by apply cv_keys, frozen_view || apply (cv_keys _ Hv).
  unfold read_writes, tombstones_of. by rewrite (all_sources_active view'), frozen_settled, key_entries_cons.
Qed.

End Frozen.

(** ** The memtable without the discarded slots *)

(** What the copy writes of an entry. *)
Definition copied (e : Entry) : Entry :=
  mkEntry (e_key e) (e_seq e) (e_type e) (if Byte.eqb (e_type e) VALUE_TYPE_DELETION then [] else e_value e).

Lemma insert_last e es : Forall (fun x => entry_before x e) es -> insert_entry e es = es ++ [e].
Proof.
  induction 1 as [|x es [Hx|[Ek Hx]] Hes IH]; [done| |]; cbn [insert_entry app].
  - rewrite bytes_cmp_opp. unfold bytes_lt in Hx. rewrite Hx. cbn. by rewrite IH.
  - rewrite <- Ek, bytes_cmp_refl, (proj2 (Z.ltb_ge _ _)), (proj2 (Z.ltb_lt _ _)) by lia. by rewrite IH.
Qed.

Lemma copied_before a b : entry_before a b -> entry_before (copied a) (copied b).
Proof. done. Qed.

Lemma copy_entries through log es acc : StronglySorted entry_before es -> Forall (fun e => type_ok (e_type e)) es ->
  Forall (fun x => Forall (entry_before x) es) acc ->
  fold_left (copy_entry through) es (Ok (Memtable acc log)) =
    Ok (Memtable (acc ++ map copied (List.filter (fun e => e_seq e <=? through) es)) log).
Proof.
  intros Hs. revert acc. induction Hs as [|e es Hs IH He]; intros acc Ht Ha; cbn [fold_left List.filter]; [by rewrite app_nil_r|].
  inversion Ht as [|? ? Ht1 Ht2]; subst.
  assert (Ha' : Forall (fun x => Forall (entry_before x) es) acc) by (eapply List.Forall_impl; [|exact Ha]; intros x Hx; by inversion Hx).
  destruct (Z.leb_spec (e_seq e) through) as [Hq|Hq].
  - assert (E : copy_entry through (Ok (Memtable acc log)) e = Ok (Memtable (insert_entry (copied e) acc) log)).
    { unfold copy_entry. cbn [mbind outcome_bind]. rewrite (proj2 (Z.leb_le _ _) Hq). unfold copied.
      destruct Ht1 as [->|[->| ->]]; done. }
    rewrite E, insert_last, IH; [by rewrite <- app_assoc|done| |].
    + apply Forall_app. split; [done|]. by repeat constructor.
    + eapply List.Forall_impl; [|exact Ha]. intros x Hx. by inversion Hx.
  - assert (E : copy_entry through (Ok (Memtable acc log)) e = Ok (Memtable acc log)).
    { unfold copy_entry. cbn [mbind outcome_bind]. by rewrite (proj2 (Z.leb_gt _ _) Hq). }
    rewrite E. by apply IH.
Qed.

Lemma copy_tombstones through ts es log : inv (log, []) ->
  exists log', fold_left (copy_tombstone through) ts (Memtable es log) = Memtable es log' /\ inv (log', []) /\
    forall t, In t (ready log') <-> In t (ready log) \/ In t ts /\ seq t <= through.
Proof.
  revert log. induction ts as [|t ts IH]; intros log Hl; cbn [fold_left].
  { exists log. split; [done|]. split; [done|]. naive_solver. }
  unfold copy_tombstone at 2. destruct (Z.leb_spec (seq t) through) as [Hq|Hq]; cbn [memtable_delete_range].
  - destruct (push_spec log (mkTomb (start t) (end_ t) (seq t)) Hl) as [Hl' Hin].
    destruct (IH _ Hl') as (log' & E & Hi & H). exists log'. split; [done|]. split; [done|]. intros x. rewrite H, Hin.
    replace (mkTomb (start t) (end_ t) (seq t)) with t by by destruct t. cbn [In]. naive_solver.
  - destruct (IH _ Hl) as (log' & E & Hi & H). exists log'. split; [done|]. split; [done|]. intros x. rewrite H. cbn [In].
    split; [naive_solver|]. intros [|[[<-|] ]]; [by left|lia|by right].
Qed.

Record rebuilt (mt fresh : Source) (through : Z) : Prop := {
  rb_quiet : quiet fresh;
  rb_entries : s_entries fresh = map copied (List.filter (fun e => e_seq e <=? through) (s_entries mt));
  rb_tombs : forall t, In t (s_tombstones fresh) <-> In t (s_tombstones mt) /\ seq t <= through;
}.

Lemma rebuild_spec rest mt through : active_ok rest mt -> exists fresh, rebuild_memtable mt through = Ok fresh /\ rebuilt mt fresh through.
Proof.
  intros [Hq Hs Ht _ _ _]. destruct mt as [es log|]; [|done]. cbn [quiet s_entries] in *. unfold rebuild_memtable, memtable_new.
  cbn [s_entries]. rewrite copy_entries by (done || constructor). cbn [mbind outcome_bind app].
  assert (Hnew : inv (log_new, [])) by by apply inv_alone.
  destruct (copy_tombstones through (to_sorted_vec log) (map copied (List.filter (fun e => e_seq e <=? through) es)) log_new Hnew)
    as (log' & -> & Hi & H).
  eexists. split; [reflexivity|]. split; [done|done|]. intros t. cbn [s_tombstones]. rewrite H.
  pose proof (to_sorted_vec_ready (log, []) Hq) as E. cbn [fst] in E. rewrite E, sort_dedup_In. split; [|by right].
  intros [Hn|]; [|done]. done.
Qed.

Section Rebuilt.
Context (mt fresh : Source) (through : Z) (Hr : rebuilt mt fresh through).

Lemma rebuilt_entry e : e ∈ s_entries fresh -> exists e', e' ∈ s_entries mt /\ e = copied e' /\ e_seq e <= through.
Proof.
  rewrite (rb_entries _ _ _ Hr), list_elem_of_In, in_map_iff. intros (e' & <- & [Hin Hq]%filter_In). exists e'.
  rewrite list_elem_of_In. split; [done|]. split; [done|]. cbn. lia.
Qed.

Lemma rebuilt_item key q : item key fresh q -> item key mt q /\ q <= through.
Proof.
  intros [(e & (e' & He & -> & Hq)%rebuilt_entry & Hk & <-)|(t & Ht & Hc & <-)].
  - split; [|done]. left. by exists e'.
  - apply list_elem_of_In, (rb_tombs _ _ _ Hr) in Ht as [Ht Hq]. split; [|done]. right. exists t. by rewrite list_elem_of_In.
Qed.

Lemma rebuilt_replaces key q : replaces key fresh q -> replaces key mt q.
Proof.
  intros [(e & (e' & He & -> & Hq)%rebuilt_entry & Hk & <- & Hm)|(t & Ht & Hc & <-)].
  - left. by exists e'.
  - apply list_elem_of_In, (rb_tombs _ _ _ Hr) in Ht as [Ht Hq]. right. exists t. by rewrite list_elem_of_In.
Qed.

Lemma rebuilt_active_ok rest : active_ok rest mt -> active_ok rest fresh.
Proof.
  intros [Hq Hs Ht Hse Hra Hn]. split; [apply Hr| | | | |].
  - rewrite (rb_entries _ _ _ Hr), sorted_map. apply (sorted_filter _ _ _ Hs).
  - apply List.Forall_forall. intros e (e' & He & -> & _)%list_elem_of_In%rebuilt_entry. cbn.
    rewrite List.Forall_forall in Ht. by apply Ht, list_elem_of_In.
  - intros key q [Hi _]%rebuilt_item. by apply (Hse key).
  - intros t [Hi _]%list_elem_of_In%(rb_tombs _ _ _ Hr). by apply Hra, list_elem_of_In.
  - intros s key p q Hin [Hi _]%rebuilt_item. by apply Hn.
Qed.

End Rebuilt.

Section RebuiltView.
Context (view : ReadView) (fresh : Source) (through : Z).
Context (Hv : commit_view view) (Hquiet : quiet (v_active view)) (Hr : rebuilt (v_active view) fresh through).
Context (Hsettled : forall s key q, s ∈ settled_sources view -> item key s q -> q <= through).

Let view' := with_active view fresh.

Lemma rebuilt_view : commit_view view' /\ quiet (v_active view').
Proof.
  split; [|apply Hr]. apply commit_view_front; [done|]. eapply rebuilt_active_ok; [exact Hr|]. by apply active_of_view.
Qed.

Lemma rebuilt_written key q : written view' key q -> written view key q /\ q <= through.
Proof.
  unfold written. rewrite !all_sources_active. change (settled_sources view') with (settled_sources view).
  intros (s & Hs & Hi). apply elem_of_cons in Hs as [->|Hs].
  - apply (rebuilt_item _ _ _ Hr) in Hi as [Hi Hq]. split; [|done]. exists (v_active view). split; [by left|done].
  - split; [|by eapply Hsettled]. exists s. split; [by right|done].
Qed.

Lemma rebuilt_replaced key q : replaced_at view' key q -> replaced_at view key q.
Proof.
  unfold replaced_at. rewrite !all_sources_active. change (settled_sources view') with (settled_sources view).
  intros (s & Hs & Hi). apply elem_of_cons in Hs as [->|Hs].
  - exists (v_active view). split; [by left|]. by eapply rebuilt_replaces.
  - exists s. split; [by right|done].
Qed.

Lemma rebuilt_unmerged key : unmerged key view -> unmerged key view'.
Proof.
  intros Hu s e Hs He Hk. rewrite all_sources_active in Hs. apply elem_of_cons in Hs as [->|Hs].
  - apply (rebuilt_entry _ _ _ Hr) in He as (e' & He' & -> & _). by apply (Hu _ e' (active_in view) He').
  - apply (Hu s e); [rewrite all_sources_active; by right|done|done].
Qed.

Lemma rebuilt_tombs t : In t (tombstones_of (all_sources view')) -> In t (tombstones_of (all_sources view)).
Proof.
  unfold tombstones_of. rewrite !all_sources_active. change (settled_sources view') with (settled_sources view).
  change (v_active view') with fresh. cbn [flat_map]. rewrite !in_app_iff, (rb_tombs _ _ _ Hr). tauto.
Qed.

Lemma rebuilt_tombs_kept t key : In t (tombstones_of (all_sources view)) -> covers t key = true ->
  In t (tombstones_of (all_sources view')) <-> seq t <= through.
Proof.
  unfold tombstones_of. rewrite !all_sources_active. change (settled_sources view') with (settled_sources view).
  change (v_active view') with fresh. cbn [flat_map]. rewrite !in_app_iff, (rb_tombs _ _ _ Hr). intros Hin Hc.
  assert (Hs : In t (flat_map s_tombstones (settled_sources view)) -> seq t <= through).
  { intros (s & Hs & Ht)%in_flat_map. apply (Hsettled s key); [by apply list_elem_of_In|]. right. exists t. by rewrite list_elem_of_In. }
  tauto.
Qed.

Lemma rebuilt_newest key snap : newest_covering (tombstones_of (all_sources view')) key snap =
  newest_covering (tombstones_of (all_sources view)) key (Z.min snap through).
Proof.
  apply Z.le_antisymm; apply newest_bound; (split; [apply newest_nonneg|]); intros t Ht Hq Hc.
  - pose proof (rebuilt_tombs t Ht) as Hin. pose proof (proj1 (rebuilt_tombs_kept t key Hin Hc) Ht) as Hle.
    apply (proj1 (newest_bound _ _ _ _) (Z.le_refl _)); [done|lia|done].
  - apply (proj1 (newest_bound _ _ _ _) (Z.le_refl _)); [|lia|done]. apply (rebuilt_tombs_kept t key Ht Hc). lia.
Qed.

Lemma rebuilt_entries key : key_entries key (all_sources view') =
  map version_of (map copied (List.filter (fun e => bytes_eqb (e_key e) key)
    (List.filter (fun e => e_seq e <=? through) (s_entries (v_active view))))) ++ key_entries key (settled_sources view).
Proof.
  rewrite all_sources_active, key_entries_cons. f_equal. change (s_entries (v_active view')) with (s_entries fresh).
  rewrite (rb_entries _ _ _ Hr). generalize (List.filter (fun e => e_seq e <=? through) (s_entries (v_active view))) as l.
  induction l as [|e l IH]; [done|]. cbn. destruct (bytes_eqb (e_key e) key); cbn; by rewrite IH.
Qed.

(** A read of the rebuilt view reads the view before at or below the cut. *)
Lemma rebuilt_lookup key snap : lookup_in_view key snap view' = lookup_in_view key (Z.min snap through) view.
Proof.
  assert (E : forall a b : option bytes, Ok a = Ok b -> a = b) by by intros a b [= ->]. apply E. clear E.
  change (Ok (lookup_in_view key snap view')) with (lookup_loaded None key snap view').
  change (Ok (lookup_in_view key (Z.min snap through) view)) with (lookup_loaded None key (Z.min snap through) view).
  rewrite (lookup_reads_writes None key snap view' (cv_keys _ (proj1 rebuilt_view) key)).
  rewrite (lookup_reads_writes None key (Z.min snap through) view (cv_keys _ Hv key)). unfold read_writes.
  rewrite rebuilt_newest, rebuilt_entries. set (rt := newest_covering _ _ _). clearbody rt.
  rewrite (all_sources_active view), key_entries_cons.
  assert (Hset : List.filter (visible rt snap) (key_entries key (settled_sources view)) =
                 List.filter (visible rt (Z.min snap through)) (key_entries key (settled_sources view))).
  { apply filter_ext_in. intros v Hin. apply list_elem_of_In, key_entries_item in Hin as (s & Hs & Hi).
    specialize (Hsettled s key _ Hs Hi). unfold visible. f_equal. apply Bool.eq_iff_eq_true. rewrite !Z.leb_le. lia. }
  rewrite !List.filter_app, Hset. clear Hset.
  induction (s_entries (v_active view)) as [|e es IH]; [done|]. cbn [List.filter].
  destruct (Z.leb_spec (e_seq e) through) as [Hq|Hq]; cbn [List.filter];
    (destruct (bytes_eqb (e_key e) key); [|exact IH]); cbn [map List.filter].
  - assert (Ev : visible rt snap (version_of (copied e)) = visible rt (Z.min snap through) (version_of e)).
    { unfold visible. cbn. f_equal. apply Bool.eq_iff_eq_true. rewrite !Z.leb_le. lia. }
    rewrite Ev. destruct (visible rt (Z.min snap through) (version_of e)); [|exact IH]. cbn.
    by destruct (Byte.eqb (e_type e) VALUE_TYPE_DELETION).
  - assert (Ev : visible rt (Z.min snap through) (version_of e) = false).
    { unfold visible. cbn. rewrite (proj2 (Z.leb_gt _ _)); [apply andb_false_r|lia]. }
    rewrite Ev. exact IH.
Qed.

End RebuiltView.

(** ** The table of counters *)

Lemma partition_point_app {B} (p : B -> bool) a b : Forall (fun x => p x = true) a -> Forall (fun x => p x = false) b ->
  partition_point p (a ++ b) = len a.
Proof.
  intros Ha Hb. rewrite List.Forall_forall in Ha, Hb.
  assert (Hl : forall i x, getz (a ++ b) i = Some x -> i < len a -> In x a).
  { intros i x Hx Hi. pose proof (getz_Some_lt _ _ _ Hx). unfold getz in Hx. rewrite (proj2 (Z.leb_le 0 i)) in Hx by lia.
    rewrite lookup_app_l in Hx by (unfold len in Hi; lia). apply list_elem_of_In, list_elem_of_lookup. eauto. }
  assert (Hr : forall i x, getz (a ++ b) i = Some x -> len a <= i -> In x b).
  { intros i x Hx Hi. pose proof (len_nonneg a). unfold getz in Hx. rewrite (proj2 (Z.leb_le 0 i)) in Hx by lia.
    rewrite lookup_app_r in Hx by (unfold len in Hi; lia). apply list_elem_of_In, list_elem_of_lookup. eauto. }
  destruct (partition_point_spec p (a ++ b)) as (Hn & H1 & H2).
  { intros i j x y Hij Hx Hy Hp. destruct (Z.lt_ge_cases i (len a)) as [Hi|Hi]; [by apply Ha, (Hl i)|].
    rewrite (Hb y (Hr j y Hy ltac:(lia))) in Hp. done. }
  cbv zeta in *. set (r := partition_point p (a ++ b)) in *. rewrite len_app in Hn. pose proof (len_nonneg a).
  destruct (Z.lt_trichotomy r (len a)) as [Hlt|[|Hgt]]; [|done|].
  - destruct (getz_is_Some (a ++ b) r) as [x Hx]; [rewrite len_app; pose proof (len_nonneg b); lia|].
    pose proof (H2 r x Hx (Z.le_refl _)) as Hf. by rewrite (Ha x (Hl r x Hx Hlt)) in Hf.
  - destruct (getz_is_Some (a ++ b) (len a)) as [x Hx]; [rewrite len_app; lia|].
    pose proof (H1 (len a) x Hx Hgt) as Hf. by rewrite (Hb x (Hr (len a) x Hx (Z.le_refl _))) in Hf.
Qed.

Definition key_lt (a b : bytes * Z) : Prop := bytes_lt a.1 b.1.

Lemma counter_split cs key : StronglySorted key_lt cs ->
  exists a b, cs = a ++ b /\ Forall (fun c => bytes_lt c.1 key) a /\ Forall (fun c => bytes_le key c.1) b.
Proof.
  induction 1 as [|c cs Hs (a & b & -> & Ha & Hb) Hc]; [by exists [], []|].
  destruct (bytes_le_total key c.1) as [Hle|E].
  2: { exists (c :: a), b. split; [done|]. split; [by constructor|done]. }
  exists [], (c :: a ++ b). split; [done|]. split; [constructor|]. constructor; [done|]. eapply List.Forall_impl; [|exact Hc]. intros x Hx. apply bytes_lt_le.
    by eapply bytes_le_lt_trans.
Qed.

Section Table.
Context (a b : Counters) (key : bytes).
Context (Ha : Forall (fun c => bytes_lt c.1 key) a) (Hb : Forall (fun c => bytes_le key c.1) b).

Lemma find_split : counter_find (a ++ b) key =
  match b with c :: _ => if bytes_eqb c.1 key then inl (len a) else inr (len a) | [] => inr (len a) end.
Proof.
  unfold counter_find. rewrite partition_point_app.
  - destruct b as [|c b']; [|by rewrite getz_app_mid]. rewrite app_nil_r.
    destruct (getz a (len a)) as [c|] eqn:E; [|done]. apply getz_Some_lt in E. lia.
  - eapply List.Forall_impl; [|exact Ha]. intros c Hc. by destruct (bytes_ltb_spec c.1 key).
  - eapply List.Forall_impl; [|exact Hb]. intros c Hc. destruct (bytes_ltb_spec c.1 key) as [Hl|]; [|done].
    exfalso. eapply bytes_lt_irrefl, bytes_le_lt_trans; [exact Hc|exact Hl].
Qed.

Lemma get_split : counter_get (a ++ b) key = match b with c :: _ => if bytes_eqb c.1 key then Some c.2 else None | [] => None end.
Proof.
  unfold counter_get. rewrite find_split. destruct b as [|c b']; [done|]. destruct (bytes_eqb c.1 key); [|done].
  by rewrite getz_app_mid.
Qed.

Lemma set_split v : counter_set (a ++ b) key v =
  match b with
  | c :: b' => if bytes_eqb c.1 key then a ++ (key, v) :: b'
               else if MAX_COUNTERS <=? len (a ++ b) then a ++ b else a ++ (key, v) :: b
  | [] => if MAX_COUNTERS <=? len (a ++ b) then a ++ b else a ++ (key, v) :: b
  end.
Proof.
  unfold counter_set. rewrite find_split.
  assert (E : takez (len a) (a ++ b) ++ (key, v) :: dropz (len a) (a ++ b) = a ++ (key, v) :: b).
  { by rewrite takez_app, dropz_app. }
  destruct b as [|c b'] eqn:Eb; [by rewrite E|]. destruct (bytes_eqb c.1 key); [|by rewrite E].
  rewrite takez_app by done. f_equal. f_equal. change (a ++ c :: b') with (a ++ [c] ++ b'). rewrite app_assoc.
  apply dropz_app. rewrite len_app. unfold len. cbn. lia.
Qed.

End Table.

Lemma counter_get_In cs key v : StronglySorted key_lt cs -> counter_get cs key = Some v <-> In (key, v) cs.
Proof.
  intros Hs. destruct (counter_split cs key Hs) as (a & b & -> & Ha & Hb). rewrite (get_split a b key Ha Hb), in_app_iff.
  assert (Hna : ~ In (key, v) a). { intros Hin. rewrite List.Forall_forall in Ha. by apply Ha, bytes_lt_irrefl in Hin. }
  apply sorted_app in Hs as (_ & Hsb & _). destruct b as [|c b]; [naive_solver|]. cbn [In].
  assert (Hnb : ~ In (key, v) b).
  { intros Hin. inversion Hsb as [|? ? _ Hc]; subst. rewrite List.Forall_forall in Hc. specialize (Hc _ Hin). inversion Hb; subst.
    eapply bytes_lt_irrefl, bytes_le_lt_trans; [eassumption|exact Hc]. }
  destruct c as [k u]. cbn [fst snd]. destruct (bytes_eqb_spec k key); naive_solver.
Qed.

Lemma counter_set_spec cs key v : StronglySorted key_lt cs ->
  StronglySorted key_lt (counter_set cs key v) /\
  (forall u, counter_get (counter_set cs key v) key = Some u -> u = v) /\
  forall k, k <> key -> counter_get (counter_set cs key v) k = counter_get cs k.
Proof.
  intros Hs. pose proof Hs as Hs0. destruct (counter_split cs key Hs) as (a & b & -> & Ha & Hb).
  assert (Hset : exists b', StronglySorted key_lt (a ++ (key, v) :: b') /\
            (forall k u, k <> key -> In (k, u) b' <-> In (k, u) b) /\
            (counter_set (a ++ b) key v = a ++ (key, v) :: b' \/
             counter_set (a ++ b) key v = a ++ b /\ counter_get (a ++ b) key = None)).
  { rewrite (set_split a b key Ha Hb), (get_split a b key Ha Hb). apply sorted_app in Hs as (Hsa & Hsb & Hab).
    assert (Hins : forall b', StronglySorted key_lt b' -> Forall (key_lt (key, v)) b' -> StronglySorted key_lt (a ++ (key, v) :: b')).
    { intros b' H1 H2. apply sorted_app. split; [done|]. split; [by constructor|]. intros x y Hx [<-|Hy].
      - rewrite List.Forall_forall in Ha. by apply Ha.
      - rewrite List.Forall_forall in Ha, H2. eapply bytes_lt_trans; [by apply Ha|by apply H2]. }
    destruct b as [|c b].
    { exists []. split; [by apply Hins|]. split; [done|]. destruct (_ <=? _); auto. }
    inversion Hsb as [|? ? Hs1 Hc]; subst. inversion Hb as [|? ? Hkc Hb']; subst. destruct (bytes_eqb_spec c.1 key) as [<-|Hne].
    - exists b. split; [by apply Hins|]. split; [|by left]. intros k u Hk. cbn. split; [by right|]. intros [->|]; [done|done].
    - exists (c :: b). assert (Hlt : bytes_lt key c.1) by (apply bytes_le_cases in Hkc as [| ->]; done).
      split; [apply Hins; [done|constructor; [done|]]|split; [done|destruct (_ <=? _); auto]].
      eapply List.Forall_impl; [|exact Hc]. intros x. by apply bytes_lt_trans. }
  destruct Hset as (b' & Hs' & Hb' & [E|[E En]]); rewrite E; [|by rewrite En].
  split; [done|]. split.
  - intros u Hu. assert (Hg : counter_get (a ++ (key, v) :: b') key = Some v)
      by (apply (counter_get_In _ _ _ Hs'), in_elt). congruence.
  - intros k Hk. apply option_eq. intros u. rewrite (counter_get_In _ _ _ Hs'), (counter_get_In _ _ _ Hs0), !in_app_iff.
    cbn [In]. rewrite (Hb' k u Hk). naive_solver.
Qed.

Lemma forget_spec cs ops : StronglySorted key_lt cs -> StronglySorted key_lt (forget_written cs ops) /\
  forall key, counter_get (forget_written cs ops) key =
    if existsb (fun o => op_writes o key) ops then None else counter_get cs key.
Proof.
  intros Hs. assert (Hf : StronglySorted key_lt (forget_written cs ops)) by by apply sorted_filter.
  split; [done|]. intros key. apply option_eq. intros v. rewrite (counter_get_In _ _ _ Hf). unfold forget_written.
  rewrite filter_In. cbn [fst]. destruct (existsb _ ops); cbn [negb]; [naive_solver|]. rewrite (counter_get_In _ _ _ Hs). naive_solver.
Qed.

(** ** What a decision leaves *)

Record decided (base : After) (w : Work) (d : Decision) : Prop := {
  dc_view : a_view (after d) = a_view base;
  dc_next : next_seq (after d) = next_seq base + d_ops d;
  dc_nonneg : 0 <= d_ops d;
  dc_ops : commits d = true -> base_seq d = next_seq base /\ d_ops d = len (ops_of w (batch d));
}.

Lemma bind_ok {A B} (m : outcome A) (f : A -> outcome B) b : (x ← m; f x) = Ok b -> exists a, m = Ok a /\ f a = Ok b.
Proof. destruct m; cbn; try done. eauto. Qed.

Lemma refused_decided base w e : decided base w (decision_new (FRefused e) base).
Proof. split; cbn; [done|lia|lia|done]. Qed.

Section Decided.
Context `{Target} (op : option MergeOperator) (touches : option touches_fn).
Context (writable : outcome unit) (fence : Work -> outcome unit) (place : Z -> outcome unit).

(** A slot that takes its place takes one sequence an operation, from the next. *)
Lemma take_place_spec w d logged d' : take_place place w d logged = Ok d' -> d_ops d = 0 ->
  verdict d' = verdict d /\ batch d' = batch d /\ counters (after d') = counters (after d) /\ a_view (after d') = a_view (after d) /\
  next_seq (after d') = next_seq (after d) + d_ops d' /\ d_ops d' = len (ops_of w (batch d)) /\
  (commits d' = true -> base_seq d' = next_seq (after d)).
Proof.
  unfold take_place. intros E Hd. destruct (Z.eqb_spec (len (ops_of w (batch d))) 0) as [E0|E0].
  - injection E as <-. split_and!; try done; try lia. unfold commits. rewrite Hd. done.
  - apply bind_ok in E as (u & _ & [= <-]). split_and!; done.
Qed.

Lemma decide_txn_fate txn base f b : decide_txn op touches txn base = Ok (f, b) ->
  (exists c e, f = FCommit c e) \/ exists c, f = FConflict c /\ b = None.
Proof.
  unfold decide_txn. destruct (_ && _ && _); [intros [= <- <-]; left; eauto|]. intros Hd. apply bind_ok in Hd as ([c e|c] & _ & Hd).
  - destruct (tx_appends txn); [injection Hd as <- <-; left; eauto|]. apply bind_ok in Hd as (added & _ & [= <- <-]). left. eauto.
  - injection Hd as <- <-. right. eauto.
Qed.

Lemma land_cases w f b base d : land_request place w (mkDecision f 0 0 b base) = Ok d ->
  (exists c, f = FConflict c /\ d = mkDecision f 0 0 b base) \/
  (forall c, f <> FConflict c) /\
  exists d1, take_place place w (mkDecision f 0 0 b base) (negb (skips_wal w)) = Ok d1 /\ d = forgot w d1.
Proof.
  unfold land_request. cbn [verdict]. destruct f; [|intros E|intros [= <-]; left; eauto|intros E|intros E];
    [intros E|..]; apply bind_ok in E as (d1 & H1 & [= <-]); right; (split; [done|eauto]).
Qed.

(** How a slot is decided: refused, in conflict, reserved, or landed. *)
Lemma decide_cases w base d : decide_work op touches writable fence place w base = Ok d ->
  (exists e, d = decision_new (FRefused e) base) \/
  writable = Ok () /\
  ((exists txn c, w = WTxn txn /\ decide_txn op touches txn base = Ok (FConflict c, None) /\ d = decision_new (FConflict c) base) \/
   (exists key n d0, w = WAllocate key n false /\ decide_allocation key n base (decision_new FWrite base) = Ok d0 /\
      take_place place w d0 true = Ok d) \/
   (exists f b d1, match w with
                   | WTxn txn => decide_txn op touches txn base = Ok (f, b) /\ exists c e, f = FCommit c e
                   | WAllocate _ _ _ => False
                   | _ => f = FWrite /\ b = None
                   end /\
      take_place place w (mkDecision f 0 0 b base) (negb (skips_wal w)) = Ok d1 /\ d = forgot w d1)).
Proof.
  unfold decide_work, or_refuse. set (r := if closed base then _ else _). intros E.
  destruct r as [d'|e| |] eqn:Er; try done; [injection E as ->|injection E as <-; left; by eexists]. right. unfold r in Er. clear r.
  destruct (closed base); [done|]. apply bind_ok in Er as ([] & Ew & Er). split; [done|].
  destruct w as [k v dis|ops dis|txn|key n ab].
  1,2: apply bind_ok in Er as (u & _ & Er); apply land_cases in Er as [(c & ? & _)|(_ & d1 & H1 & ->)];
    [done|right; right; by exists FWrite, None, d1].
  - apply bind_ok in Er as (u & _ & Er). apply bind_ok in Er as (d0 & H0 & Er). apply bind_ok in H0 as ([f b] & Ht & [= <-]).
    apply land_cases in Er as [(c & -> & ->)|(Hn & d1 & H1 & ->)].
    + left. exists txn, c. apply decide_txn_fate in Ht as Hf. destruct Hf as [(? & ? & ?)|(c' & [= <-] & ->)]; done.
    + right; right. exists f, b, d1. split; [|done]. split; [done|]. apply decide_txn_fate in Ht as Hf.
      destruct Hf as [|(c' & -> & ->)]; [done|]. by destruct (Hn c').
  - destruct ab; [done|]. apply bind_ok in Er as (u & _ & Er). apply bind_ok in Er as (d0 & H0 & Er). right. left.
    by exists key, n, d0.
Qed.

Lemma allocation_spec key n base d : decide_allocation key n base (decision_new FWrite base) = Ok d ->
  exists last, (counter_get (counters base) key = Some last \/
                counter_get (counters base) key = None /\ exists o, read_u64_in_view key (a_view base) = Ok o /\ last = default 0 o) /\
  d_ops d = 0 /\ a_view (after d) = a_view base /\ next_seq (after d) = next_seq base /\
  ((n = 0 /\ verdict d = FAllocated (Z.min U64_MAX (last + 1)) (Z.min U64_MAX (last + 1)) /\ batch d = None /\
    counters (after d) = counter_set (counters base) key last) \/
   (n <> 0 /\ last < U64_MAX /\ last + 1 + n <= U64_MAX /\ verdict d = FAllocated (last + 1) (last + 1 + n) /\
    batch d = Some [OpPut key (to_be 8 (last + n))] /\ counters (after d) = counter_set (counters base) key (last + n))).
Proof.
  unfold decide_allocation. intros E. apply bind_ok in E as (last & El & E). exists last. split.
  { destruct (counter_get (counters base) key) as [l|]; [injection El as ->; by left|right].
    apply bind_ok in El as (o & Eo & [= <-]). eauto. }
  destruct (Z.eqb_spec n 0) as [->|Hn]; [injection E as <-; split_and!; try done; left; done|].
  destruct (Z.ltb_spec U64_MAX (Z.min U64_MAX (last + 1) + n)); cbn [orb] in E; [done|].
  destruct (Z.leb_spec U64_MAX last); [done|]. rewrite Z.min_r in * by lia. injection E as <-. cbn.
  replace (last + 1 + n - 1) with (last + n) by lia. split_and!; try done. right. done.
Qed.

Lemma decide_decided w base d : decide_work op touches writable fence place w base = Ok d -> decided base w d.
Proof.
  intros [(e & ->)|(_ & [(txn & c & -> & _ & ->)|[(key & n & d0 & -> & H0 & H1)|(f & b & d1 & _ & H1 & ->)]])]%decide_cases.
  - apply refused_decided.
  - split; cbn; [done|lia|lia|done].
  - destruct (allocation_spec _ _ _ _ H0) as (last & _ & Hz & Hv & Hn & _).
    destruct (take_place_spec _ _ _ _ H1 Hz) as (_ & Eb & _ & Ev & En & Eo & Ec).
    split; [congruence|lia|rewrite Eo; apply len_nonneg|]. intros Hc. rewrite (Ec Hc), Eb. auto.
  - destruct (take_place_spec _ _ _ _ H1 eq_refl) as (_ & Eb & _ & Ev & En & Eo & Ec). cbn [after batch] in *.
    split; cbn [forgot after a_view next_seq d_ops batch base_seq]; [done|done|rewrite Eo; apply len_nonneg|].
    intros Hc. rewrite (Ec Hc), Eb. auto.
Qed.

Lemma decide_counters w base d : decide_work op touches writable fence place w base = Ok d ->
  StronglySorted key_lt (counters base) -> StronglySorted key_lt (counters (after d)).
Proof.
  intros [(e & ->)|(_ & [(txn & c & -> & _ & ->)|[(key & n & d0 & -> & H0 & H1)|(f & b & d1 & _ & H1 & ->)]])]%decide_cases Hs; try done.
  - destruct (allocation_spec _ _ _ _ H0) as (last & _ & Hz & Hv & Hn & Hc).
    destruct (take_place_spec _ _ _ _ H1 Hz) as (_ & _ & -> & _). destruct Hc as [(_ & _ & _ & ->)|(_ & _ & _ & _ & _ & ->)]; by apply counter_set_spec.
  - destruct (take_place_spec _ _ _ _ H1 eq_refl) as (_ & _ & Ec & _). cbn [forgot after counters]. rewrite Ec. by apply forget_spec.
Qed.

End Decided.
