(* ===== verification/CommitRuns.v ===== *)
(** * Runs of the commit pipeline

    The steps of CommitSlots.v in any order: slots decided and published, a
    memtable sealed, tables installed by flushes and compactions, a log failure
    rolled back, the database latched.

    Shown here: every step keeps the state one a commit can be checked against and
    a rollback can cut; a transaction checked early at one state and committed in
    a slot of any later one has its reads hold there; and a counter's values are
    handed out once. *)

From stdpp Require Import sets sorting.
From S2P Require Import Prelude Order InternalKey RangeTombstone TombstoneLog WalCodec Manifest Version ReadPath CommitWalk CommitCheck CommitSlots.

(** ** The state between steps *)

(** The slots decided and not published took the sequences from [base] to
    [next], each its own. *)
Fixpoint pending_from (base : Z) (slots : list (Work * Decision)) (next : Z) : Prop :=
  match slots with
  | [] => base = next
  | (w, d) :: slots =>
      0 <= d_ops d /\ (commits d = true -> base_seq d = base) /\ pending_from (base + d_ops d) slots next
  end.

Record pipe_ok (p : Pipe) : Prop := {
  po_view : commit_view (a_view (tip p));
  po_quiet : quiet (v_active (a_view (tip p)));
  po_room : room (a_view (tip p)) (next_seq (tip p));
  po_settled : forall s key q, s ∈ settled_sources (a_view (tip p)) -> item key s q -> q <= visible_seq p;
  po_visible : 0 <= visible_seq p;
  po_next : next_seq (tip p) <= U64_MAX;
  po_pending : pending_from (visible_seq p + 1) (pending p) (next_seq (tip p));
  po_counters : StronglySorted key_lt (counters (tip p));
}.

Lemma pending_le base slots next : pending_from base slots next -> base <= next.
Proof.
  revert base. induction slots as [|[w d] slots IH]; intros base; cbn [pending_from]; [lia|].
  intros (H0 & _ & H). apply IH in H. lia.
Qed.

Lemma pending_snoc base slots next w d : pending_from base slots next -> 0 <= d_ops d -> (commits d = true -> base_seq d = next) ->
  pending_from base (slots ++ [(w, d)]) (next + d_ops d).
Proof.
  revert base. induction slots as [|[w' d'] slots IH]; intros base; cbn [pending_from app].
  - intros ->. done.
  - intros (H0 & H1 & H2) Hd Hb. split; [done|]. split; [done|]. by apply IH.
Qed.

(** The first sequence a discarded slot took is the one after the horizon. *)
Lemma discarded_next base slots next : pending_from base slots next -> default next (discarded_floor slots) = base.
Proof.
  revert base. induction slots as [|[w d] slots IH]; intros base; cbn [pending_from discarded_floor]; [done|].
  intros (H0 & H1 & H2). unfold commits in *. destruct (Z.ltb_spec 0 (d_ops d)) as [Hc|Hc]; [cbn; auto|].
  rewrite (IH _ H2). lia.
Qed.

Section Keep.
Context `{Target} (op : option MergeOperator) (touches : option touches_fn) (obs : Z -> Prop).

Lemma slot_ok p w d fence place : pipe_ok p -> decide_work op touches (writable_of p) fence place w (tip p) = Ok d ->
  Forall op_ok (ops_of w (batch d)) -> next_seq (after d) <= U64_MAX ->
  pipe_ok (mkPipe (settle_slot w d) (pending p ++ [(w, d)]) (visible_seq p) (latched p)).
Proof.
  intros [Hv Hq Hr Hs Hvis Hn Hp Hc] E Ho Hm. pose proof (decide_decided _ _ _ _ _ _ _ _ E) as [Ev En H0 Hd].
  pose proof (decide_counters _ _ _ _ _ _ _ _ E Hc) as Hc'. pose proof (pending_le _ _ _ Hp) as Hle.
  assert (Hpend : pending_from (visible_seq p + 1) (pending p ++ [(w, d)]) (next_seq (tip p) + d_ops d)).
  { apply pending_snoc; [done|done|]. intros Hcm. by apply Hd. }
  unfold settle_slot. destruct (commits d) eqn:Ec.
  - destruct (Hd eq_refl) as [Eb El].
    pose proof (apply_ops_spec (ops_of w (batch d)) (a_view (tip p)) (base_seq d) Hv Hq) as Hl. rewrite Eb in Hl.
    destruct (Hl Hr Ho ltac:(lia) ltac:(lia)) as [H1 H2 H3 _ _ _ _].
    split; cbn [tip a_view next_seq counters pending visible_seq v_active with_active]; rewrite ?Ev, ?Eb, ?En; try done.
    + intros key q Hw. specialize (H3 key q Hw). lia.
    + lia.
  - assert (Ez : d_ops d = 0) by (unfold commits in Ec; apply Z.ltb_ge in Ec; lia).
    split; cbn [tip a_view next_seq counters pending visible_seq]; rewrite ?Ev, ?En; try done.
    + by rewrite Ez, Z.add_0_r.
    + lia.
Qed.

Lemma publish_ok p : pipe_ok p -> pipe_ok (publish p).
Proof.
  intros [Hv Hq Hr Hs Hvis Hn Hp Hc]. unfold publish. destruct (pending p) as [|[w d] rest] eqn:Ep; [by split; rewrite ?Ep|].
  cbn [pending_from] in Hp. destruct Hp as (H0 & H1 & Hp). unfold last_of, commits in *.
  destruct (Z.ltb_spec 0 (d_ops d)) as [Hcm|Hcm];
    split; cbn [tip a_view next_seq counters pending visible_seq]; try done.
  - rewrite (H1 eq_refl). intros s key q Hin Hi. specialize (Hs s key q Hin Hi). lia.
  - rewrite (H1 eq_refl). lia.
  - rewrite (H1 eq_refl). by replace (visible_seq p + 1 + d_ops d - 1 + 1) with (visible_seq p + 1 + d_ops d) by lia.
  - by replace (visible_seq p + 1 + d_ops d) with (visible_seq p + 1) in Hp by lia.
Qed.

Lemma freeze_ok p : pipe_ok p -> pending p = [] -> pipe_ok (with_tip p (freeze (tip p))).
Proof.
  intros [Hv Hq Hr Hs Hvis Hn Hp Hc] Ep. rewrite Ep in Hp. cbn [pending_from] in Hp.
  split; cbn [with_tip tip freeze a_view next_seq counters pending visible_seq]; try done.
  - by apply frozen_view.
  - intros key q Hw. apply Hr with key. by apply frozen_written.
  - intros s key q Hin Hi. assert (Hw : written (a_view (tip p)) key q) by (exists s; by rewrite <- frozen_settled).
    specialize (Hr key q Hw). lia.
  - by rewrite Ep.
Qed.

Lemma move_ok p v' : pipe_ok p -> moves obs (visible_seq p) (a_view (tip p)) v' ->
  pipe_ok (with_tip p (mkAfter v' (next_seq (tip p)) (counters (tip p)) (closed (tip p)))).
Proof.
  intros [Hv Hq Hr Hs Hvis Hn Hp Hc] [H1 H2 H3 H4 H5 H6]. pose proof (pending_le _ _ _ Hp) as Hle.
  split; cbn [with_tip tip a_view next_seq counters pending visible_seq]; try done.
  - by rewrite H2.
  - intros key q (s & Hin & Hi). rewrite all_sources_active in Hin. apply elem_of_cons in Hin as [->|Hin].
    + rewrite H2 in Hi. apply (Hr key). exists (v_active (a_view (tip p))). split; [apply active_in|done].
    + specialize (H3 s key q Hin Hi). lia.
Qed.

(** What a rollback leaves: the view cut at the horizon, with the counters of the
    discarded reservations written back, or the latch. *)
Definition cut_after (p : Pipe) (fresh : Source) : After :=
  mkAfter (with_active (a_view (tip p)) fresh) (visible_seq p + 1) (counters (tip p)) (closed (tip p)).
Definition back_after (a : After) (last : list (bytes * Z)) : After :=
  mkAfter (with_active (a_view a) (apply_ops (v_active (a_view a)) (map counter_put last) (next_seq a))) (next_seq a + len last)
    (counters a) (closed a).

Lemma roll_back_cases place cut_done p p' : pipe_ok p -> roll_back place cut_done p = p' ->
  exists fresh, rebuilt (v_active (a_view (tip p))) fresh (visible_seq p) /\
  let last := last_reserved (pending p) in
  (last = [] \/ latched p = true) /\ p' = mkPipe (cut_after p fresh) [] (visible_seq p) (latched p) \/
  p' = mkPipe (cut_after p fresh) [] (visible_seq p) true \/
  latched p = false /\ p' = mkPipe (fold_left keep_counter last (back_after (cut_after p fresh) last)) []
    (visible_seq p + len last) false.
Proof.
  intros Hok E. pose proof (discarded_next _ _ _ (po_pending _ Hok)) as Ed. pose proof (po_visible _ Hok) as Hvis.
  unfold roll_back in E. rewrite Ed in E. replace (Z.max 0 (visible_seq p + 1 - 1)) with (visible_seq p) in E by lia.
  destruct (rebuild_spec _ _ (visible_seq p) (active_of_view _ (po_view _ Hok) (po_quiet _ Hok))) as (fresh & Ef & Hr).
  rewrite Ef in E. exists fresh. split; [done|]. cbv zeta. unfold write_back in E.
  set (l := match cut_done with Ok _ => latched p | _ => true end) in E.
  assert (Hl : l = true \/ l = latched p) by (unfold l; destruct cut_done; auto). clearbody l.
  destruct (Z.eqb_spec (len (last_reserved (pending p))) 0) as [El|El]; cbn [orb] in E.
  { destruct Hl as [->| ->]; rewrite <- E; [by right; left|]. left. split; [left|done]. by apply len_zero. }
  destruct l; [rewrite <- E; by right; left|]. destruct Hl as [|Hl]; [done|].
  right. unfold log_alone in E. cbn [a_view next_seq counters closed] in E.
  destruct (check_write_len _) as [u| | |]; cbn [mbind outcome_bind] in E; [|rewrite <- E; by left..].
  destruct (place _) as [u'| | |]; cbn [mbind outcome_bind] in E; [|rewrite <- E; by left..].
  rewrite <- E. right. split; [done|]. unfold back_after, cut_after. cbn [a_view next_seq counters closed].
  rewrite len_map. f_equal. lia.
Qed.

Lemma keep_counters last a : let a' := fold_left keep_counter last a in
  a_view a' = a_view a /\ next_seq a' = next_seq a /\ (StronglySorted key_lt (counters a) -> StronglySorted key_lt (counters a')).
Proof.
  cbv zeta. revert a. induction last as [|c last IH]; intros a; cbn [fold_left]; [done|].
  destruct (IH (keep_counter a c)) as (H1 & H2 & H3). split_and!; [done|done|]. intros Hs. apply H3. cbn. by apply counter_set_spec.
Qed.

Lemma counter_puts_ok last : Forall op_ok (map counter_put last).
Proof. apply List.Forall_forall. intros o (c & <- & _)%in_map_iff. done. Qed.

Lemma cut_ok p fresh : pipe_ok p -> rebuilt (v_active (a_view (tip p))) fresh (visible_seq p) ->
  forall l, pipe_ok (mkPipe (cut_after p fresh) [] (visible_seq p) l).
Proof.
  intros [Hv Hq Hr Hs Hvis Hn Hp Hc] Hb l. pose proof (pending_le _ _ _ Hp) as Hle.
  destruct (rebuilt_view _ _ _ Hv Hq Hb) as [Hv' Hq'].
  split; cbn [tip cut_after a_view next_seq counters pending visible_seq pending_from]; try done; [|lia].
  intros key q Hw. apply (rebuilt_written _ _ _ Hb Hs) in Hw. lia.
Qed.

Lemma back_landed p fresh last l : pipe_ok (mkPipe (cut_after p fresh) [] (visible_seq p) l) -> visible_seq p + 1 + len last <= U64_MAX ->
  landed_on (a_view (cut_after p fresh)) (a_view (back_after (cut_after p fresh) last)) (map counter_put last) (visible_seq p + 1).
Proof.
  intros [Hv Hq Hr _ Hvis _ _ _] Hm. cbn [tip] in *. apply apply_ops_spec; try done; [apply counter_puts_ok|cbn in *; lia|].
  rewrite len_map. lia.
Qed.

Lemma roll_back_ok place cut_done p p' : pipe_ok p -> roll_back place cut_done p = p' -> next_seq (tip p') <= U64_MAX -> pipe_ok p'.
Proof.
  intros Hok E Hm. destruct (roll_back_cases place cut_done p p' Hok E) as (fresh & Hb & [[_ ->]|[->|[_ ->]]]); try by apply cut_ok.
  set (last := last_reserved (pending p)) in *. pose proof (cut_ok p fresh Hok Hb false) as Hcut.
  destruct (keep_counters last (back_after (cut_after p fresh) last)) as (Ev & En & Hs). cbn [tip] in Hm. rewrite En in Hm.
  cbn [back_after next_seq cut_after] in Hm. destruct (back_landed p fresh last false Hcut ltac:(lia)) as [H1 H2 H3 _ _ _ _].
  destruct Hcut as [Hv Hq Hr Hse Hvis _ Hp Hc]. cbn [tip pending visible_seq] in *. pose proof (len_nonneg last).
  split; cbn [tip pending visible_seq pending_from]; rewrite ?Ev, ?En; cbn [back_after cut_after next_seq counters a_view]; try done; try lia.
  - intros key q Hw. specialize (H3 key q Hw). rewrite len_map in H3. lia.
  - intros s key q Hin Hi. specialize (Hse s key q Hin Hi). cbn in Hse. lia.
  - by apply Hs.
Qed.

Lemma step_ok p slot p' : pipe_ok p -> step op touches obs p slot p' -> pipe_ok p'.
Proof.
  intros Hok [fence place w d E Hw Ho Hm| |Ep|v' Hmv|place cut_done p2 E Hm|].
  - by eapply slot_ok.
  - by apply publish_ok.
  - by apply freeze_ok.
  - by apply move_ok.
  - by eapply roll_back_ok.
  - by destruct Hok.
Qed.

Lemma run_ok p evs p' : pipe_ok p -> run op touches obs p evs p' -> pipe_ok p'.
Proof. intros Hok. induction 1 as [|slot evs p1 p2 _ IH Hs]; [done|]. by eapply step_ok. Qed.

End Keep.

(** ** A transaction's checks along a run *)

Lemma held_from obs h v1 v2 : (forall key q, written v2 key q -> written v1 key q \/ h < q) ->
  (forall key q, replaced_at v2 key q -> replaced_at v1 key q \/ h < q) -> held obs h v1 v2.
Proof.
  intros H1 H2. split; intros o key q _ Hq Hw; exists q; (split; [lia|]); [destruct (H1 key q Hw)|destruct (H2 key q Hw)]; done || lia.
Qed.

Lemma held_trans obs h v1 v2 v3 : held obs h v1 v2 -> held obs h v2 v3 -> held obs h v1 v3.
Proof.
  intros [A1 A2] [B1 B2]. split; intros o key q Ho Hq Hw.
  - destruct (B1 o key q Ho Hq Hw) as (q' & Hq' & Hw'). by apply (A1 o key q').
  - destruct (B2 o key q Ho Hq Hw) as (q' & Hq' & Hw'). by apply (A2 o key q').
Qed.

Section Held.
Context `{Target} (op : option MergeOperator) (touches : option touches_fn) (obs : Z -> Prop).

Lemma slot_landed p w d fence place : pipe_ok p -> decide_work op touches (writable_of p) fence place w (tip p) = Ok d ->
  Forall op_ok (ops_of w (batch d)) -> next_seq (after d) <= U64_MAX -> commits d = true ->
  landed_on (a_view (tip p)) (a_view (settle_slot w d)) (ops_of w (batch d)) (next_seq (tip p)).
Proof.
  intros Hok E Ho Hm Hc. pose proof (decide_decided _ _ _ _ _ _ _ _ E) as [Ev En H0 Hd]. destruct (Hd Hc) as [Eb El].
  pose proof (pending_le _ _ _ (po_pending _ Hok)). pose proof (po_visible _ Hok).
  unfold settle_slot. rewrite Hc. cbn [a_view]. rewrite Ev, Eb.
  apply apply_ops_spec; [apply Hok|apply Hok|apply Hok|done|lia|lia].
Qed.

Lemma slot_idle w d base fence place writable : decide_work op touches writable fence place w base = Ok d -> commits d = false ->
  a_view (settle_slot w d) = a_view base.
Proof.
  intros E Hc. pose proof (decide_decided _ _ _ _ _ _ _ _ E) as [Ev _ _ _]. unfold settle_slot. by rewrite Hc.
Qed.

Lemma roll_back_written place cut_done p p' : pipe_ok p -> roll_back place cut_done p = p' -> next_seq (tip p') <= U64_MAX ->
  (forall key q, written (a_view (tip p')) key q -> written (a_view (tip p)) key q \/ visible_seq p < q) /\
  (forall key q, replaced_at (a_view (tip p')) key q -> replaced_at (a_view (tip p)) key q \/ visible_seq p < q) /\
  visible_seq p <= visible_seq p'.
Proof.
  intros Hok E Hm. destruct (roll_back_cases place cut_done p p' Hok E) as (fresh & Hb & Hcases).
  pose proof (rebuilt_written _ _ _ Hb (po_settled _ Hok)) as Hw. pose proof (rebuilt_replaced _ _ _ Hb) as Hr.
  destruct Hcases as [[_ ->]|[->|[_ ->]]].
  1,2: split_and!; [intros key q Hq; left; by apply Hw|intros key q Hq; left; by apply Hr|done].
  set (last := last_reserved (pending p)) in *. pose proof (cut_ok p fresh Hok Hb false) as Hcut. cbn [tip visible_seq] in *.
  destruct (keep_counters last (back_after (cut_after p fresh) last)) as (Ev & En & _). rewrite En in Hm. rewrite Ev.
  destruct (back_landed p fresh last false Hcut Hm) as [_ _ _ Hlw Hlr _ _]. pose proof (len_nonneg last). split_and!; [| |lia].
  - intros key q Hq. destruct (Hlw key q Hq) as [Hq'|]; [left; by apply Hw|right; lia].
  - intros key q Hq. destruct (Hlr key q Hq) as [Hq'|]; [left; by apply Hr|right; lia].
Qed.

Lemma step_held p slot p' h : pipe_ok p -> step op touches obs p slot p' -> h <= visible_seq p ->
  held obs h (a_view (tip p)) (a_view (tip p')) /\ visible_seq p <= visible_seq p'.
Proof.
  intros Hok Hs Hh. pose proof (pending_le _ _ _ (po_pending _ Hok)) as Hle.
  destruct Hs as [fence place w d E Hw Ho Hm| |Ep|v' Hmv|place cut_done p2 E Hm|]; cbn [tip visible_seq with_tip freeze a_view].
  - split; [|done]. destruct (commits d) eqn:Hc; [|rewrite (slot_idle _ _ _ _ _ _ E Hc); apply held_refl].
    destruct (slot_landed _ _ _ _ _ Hok E Ho Hm Hc) as [_ _ _ H1 H2 _ _].
    apply held_from; intros key q Hq; [destruct (H1 key q Hq)|destruct (H2 key q Hq)]; auto; right; lia.
  - pose proof (po_pending _ Hok) as Hp. unfold publish. destruct (pending p) as [|[w d] rest]; [split; [apply held_refl|done]|].
    cbn [tip visible_seq]. split; [apply held_refl|]. cbn [pending_from] in Hp. destruct Hp as (H0 & H1 & _). unfold last_of.
    destruct (commits d) eqn:Hc; [rewrite (H1 eq_refl)|done]. unfold commits in Hc. lia.
  - split; [|done]. apply held_from; intros key q Hq; left; [by apply frozen_written|by apply frozen_replaced].
  - split; [apply Hmv|done].
  - destruct (roll_back_written _ _ _ _ Hok E Hm) as (H1 & H2 & H3). split; [|done].
    apply held_from; intros key q Hq; [destruct (H1 key q Hq)|destruct (H2 key q Hq)]; auto; right; lia.
  - split; [apply held_refl|done].
Qed.

Lemma run_held p evs p' h : pipe_ok p -> run op touches obs p evs p' -> h <= visible_seq p ->
  pipe_ok p' /\ held obs h (a_view (tip p)) (a_view (tip p')) /\ h <= visible_seq p'.
Proof.
  intros Hok Hr Hh. induction Hr as [|slot evs p1 p2 _ (Hok1 & Hh1 & Hv1) Hs]; [split_and!; [done|apply held_refl|done]|].
  destruct (step_held _ _ _ h Hok1 Hs Hv1) as [Hh2 Hv2]. split_and!; [by eapply step_ok|by eapply held_trans|lia].
Qed.

End Held.

(** *** The check a commit nobody committed under skips *)

Lemma each_keeps {A S R} (P : S -> Prop) (f : nat -> A -> S -> R + S) l : (forall at_ x s, P s -> exists s', f at_ x s = inr s' /\ P s') ->
  forall at_ s, P s -> exists s', each f at_ l s = inr s' /\ P s'.
Proof.
  intros Hf. induction l as [|x l IH]; intros at_ s Hs; [by exists s|]. cbn [each]. destruct (Hf at_ x s Hs) as (s' & -> & Hs').
  by apply IH.
Qed.

(** With every item clean at the horizon and nothing above it, the check of the
    slot accepts whatever the view holds. *)
Lemma clean_check_accepts op touches checks ops e view ceiling : is_clean e = true -> ceiling <= horizon e ->
  validate op touches checks ops e view ceiling = Ok (Accept 0 0).
Proof.
  intros He Hc. assert (Hm : forall i, mark e i = Clean).
  { intros i. unfold mark, mark_in, is_clean in *. by destruct (marks e). }
  assert (Hn : nothing_above e ceiling = true) by (unfold nothing_above; by apply Z.leb_le).
  assert (Hl : forall key i, landed e view ceiling key (mark e i) = false) by (intros key i; unfold landed; by rewrite Hm, Hn).
  unfold validate.
  destruct (each_keeps (fun _ : unit => True) (validate_read op touches e view ceiling) (vs_reads checks)) with (at_ := O) (s := ()) as ([] & -> & _);
    [|done|]. { intros at_ c [] _. exists (). unfold validate_read. by rewrite Hl. }
  destruct (each_keeps (fun _ : unit => True) (validate_range e view ceiling) (vs_ranges checks)) with (at_ := reads_len checks) (s := ())
    as ([] & -> & _); [|done|]. { intros at_ c [] _. exists (). unfold validate_range. by rewrite Hm, Hn. }
  destruct (writes_at checks) as [observed|]; [|done]. set (since := _ && _).
  destruct (each_keeps (fun s : option bytes * Z * Z => s.1.2 = 0 /\ s.2 = 0)
    (validate_write checks ops e view ceiling observed (replaced_keys checks ops) since) ops) with
    (at_ := (reads_len checks + ranges_len checks)%nat) (s := (None : option bytes, 0, 0)) as ([[lm c] x] & -> & Ec & Ex); [|done|].
  - intros at_ o [[lm c] x] [Ec Ex]. cbn [fst snd] in *. subst. unfold validate_write. rewrite Hm.
    destruct (written_key lm o) as [lm' [[key mine]|]]; [|by eexists].
    pose proof (Hl key at_) as Hlk. rewrite Hm in Hlk. rewrite Hlk, andb_false_r. cbn [andb negb].
    destruct (is_exempt checks key); [destruct o; by eexists|]. destruct (read_stands_for checks key); by eexists.
  - cbn [fst snd] in *. by subst.
Qed.

(** A transaction's commit is decided as its check decides. *)
Lemma committed_validates op touches txn base c e b : decide_txn op touches txn base = Ok (FCommit c e, b) ->
  validate op touches (tx_checks txn) (tx_ops txn) (tx_early txn) (a_view base) (Z.max 0 (next_seq base - 1)) = Ok (Accept c e).
Proof.
  unfold decide_txn. destruct (_ && _ && _) eqn:Ef.
  - intros [= <- <- <-]. apply andb_true_iff in Ef as [[_ Hc]%andb_true_iff Hh]. apply clean_check_accepts; [done|by apply Z.leb_le].
  - intros E. apply bind_ok in E as ([c' e'|c'] & Ev & E); [|done].
    destruct (tx_appends txn); [by injection E as <- <- _|]. apply bind_ok in E as (added & _ & [= <- <- _]). done.
Qed.

(** ** Reads along a run *)

(** Above every write, a read sees the same at any sequence. *)
Lemma lookup_above view key b s1 s2 : commit_view view -> room view (b + 1) -> b <= s1 -> b <= s2 ->
  lookup_in_view key s1 view = lookup_in_view key s2 view.
Proof.
  intros Hv Hr H1 H2. assert (E : forall x y : option bytes, Ok x = Ok y -> x = y) by by intros x y [= ->]. apply E. clear E.
  change (lookup_loaded None key s1 view = lookup_loaded None key s2 view).
  rewrite !lookup_reads_writes by apply (cv_keys _ Hv). unfold read_writes.
  assert (Et : newest_covering (tombstones_of (all_sources view)) key s1 = newest_covering (tombstones_of (all_sources view)) key s2).
  { apply Z.le_antisymm; apply newest_bound; (split; [apply newest_nonneg|]); intros t Ht Hq Hc;
      (apply (proj1 (newest_bound _ _ _ _) (Z.le_refl _)); [done| |done]);
      apply in_flat_map in Ht as (s & Hs & Ht); assert (Hw : written view key (seq t))
        by (exists s; rewrite list_elem_of_In; split; [done|right; exists t; by rewrite list_elem_of_In]);
      specialize (Hr key _ Hw); lia. }
  rewrite Et. f_equal. apply filter_ext_in. intros v Hin. apply list_elem_of_In, key_entries_item in Hin.
  specialize (Hr key _ Hin). unfold visible. f_equal. apply Bool.eq_iff_eq_true. rewrite !Z.leb_le. lia.
Qed.

Lemma read_after_below ops base key snap r : snap < base -> read_after ops base key snap r = r.
Proof.
  revert base r. induction ops as [|o ops IH]; intros base r Hs; cbn [read_after]; [done|].
  rewrite (proj2 (Z.leb_gt base snap)), andb_false_r by lia. apply IH. lia.
Qed.

Lemma read_after_unwritten ops base key snap r : existsb (fun o => op_writes o key) ops = false -> read_after ops base key snap r = r.
Proof.
  revert base r. induction ops as [|o ops IH]; intros base r; cbn [read_after existsb]; [done|].
  intros [-> Hw]%orb_false_iff. by apply IH.
Qed.

(** ** Counters along a run *)

Section Counter.
Context (key : bytes).

Definition holds_counter (r : option bytes) (v : Z) : Prop :=
  match r with None => v = 0 | Some b => len b = 8 /\ from_be b = v end.

(** The counter a slot leaves. *)
Definition value_after (v : Z) (slot : Work * Decision) : Z :=
  match slot.1, verdict slot.2 with
  | WAllocate k _ _, FAllocated first end_ => if bytes_eqb k key && (first <? end_) then end_ - 1 else v
  | _, _ => v
  end.

(** At each slot's last sequence a read of the key finds the counter it left. *)
Fixpoint counter_chain (read : Z -> option bytes) (b : Z) (slots : list (Work * Decision)) (v final : Z) : Prop :=
  holds_counter (read b) v /\
  match slots with
  | [] => v = final
  | slot :: slots => v <= value_after v slot /\ counter_chain read (b + d_ops slot.2) slots (value_after v slot) final
  end.

Record counter_ok (p : Pipe) (v : Z) : Prop := {
  co_unmerged : unmerged key (a_view (tip p));
  co_kept : forall u, counter_get (counters (tip p)) key = Some u -> u = v;
  co_range : 0 <= v < U64_MAX;
  co_chain : exists v0, counter_chain (fun snap => lookup_in_view key snap (a_view (tip p))) (visible_seq p) (pending p) v0 v;
}.

Lemma chain_ext read read' b slots v final next : pending_from (b + 1) slots next ->
  (forall snap, b <= snap < next -> read' snap = read snap) -> counter_chain read b slots v final -> counter_chain read' b slots v final.
Proof.
  revert b v. induction slots as [|[w d] slots IH]; intros b v Hp He; cbn [counter_chain pending_from] in *.
  - by rewrite He by lia.
  - destruct Hp as (H0 & _ & Hp). replace (b + 1 + d_ops d) with (b + d_ops d + 1) in Hp by lia.
    pose proof (pending_le _ _ _ Hp). rewrite He by lia.
    intros (H1 & H2 & H3). split; [done|]. split; [done|]. apply IH; [done| |done]. intros snap Hs. apply He. cbn in Hs. lia.
Qed.

Lemma chain_final read b slots v final base next : pending_from base slots next -> counter_chain read b slots v final ->
  b + 1 = base -> holds_counter (read (next - 1)) final.
Proof.
  revert b v base. induction slots as [|[w d] slots IH]; intros b v base; cbn [pending_from counter_chain].
  - intros -> [Hh ->] <-. by replace (b + 1 - 1) with b by lia.
  - intros (H0 & _ & Hp) (_ & _ & Hc) <-. eapply IH; [exact Hp|exact Hc|]. cbn. lia.
Qed.

Lemma chain_snoc read b slots v final slot base next : pending_from base slots next -> b + 1 = base ->
  counter_chain read b slots v final -> final <= value_after final slot ->
  holds_counter (read (next - 1 + d_ops slot.2)) (value_after final slot) ->
  counter_chain read b (slots ++ [slot]) v (value_after final slot).
Proof.
  revert b v base. induction slots as [|[w d] slots IH]; intros b v base; cbn [pending_from counter_chain app].
  - intros -> <- [Hh ->] Hle Hn. split; [done|]. split; [done|]. split; [|done]. by replace (b + 1 - 1) with b in Hn by lia.
  - intros (H0 & _ & Hp) <- (H1 & H2 & Hc) Hle Hn. split; [done|]. split; [done|].
    eapply IH; [exact Hp| |exact Hc|done|done]. cbn. lia.
Qed.

(** Only reservations of the key write it. *)
Definition only_reserved (slot : Work * Decision) : Prop :=
  commits slot.2 = true -> existsb (fun o => op_writes o key) (ops_of slot.1 (batch slot.2)) = true ->
  match slot.1 with WAllocate k _ _ => k = key | _ => False end.

Section Slot.
Context `{Target} (op : option MergeOperator) (touches : option touches_fn).
Context (p : Pipe) (v : Z) (Hok : pipe_ok p) (Hco : counter_ok p v).

Lemma counter_read : holds_counter (lookup_in_view key U64_MAX (a_view (tip p))) v.
Proof.
  destruct (co_chain _ _ Hco) as [v0 Hc]. pose proof (chain_final _ _ _ _ _ _ _ (po_pending _ Hok) Hc eq_refl) as Hf.
  rewrite (lookup_above _ key (next_seq (tip p) - 1) U64_MAX (next_seq (tip p) - 1)); [done|apply Hok| | |lia].
  - replace (next_seq (tip p) - 1 + 1) with (next_seq (tip p)) by lia. apply Hok.
  - pose proof (po_next _ Hok). lia.
Qed.

Lemma reserved_last k n d : decide_allocation k n (tip p) (decision_new FWrite (tip p)) = Ok d -> 0 <= n -> k = key ->
  verdict d = FAllocated (v + 1) (v + 1 + n) /\ v + n < U64_MAX /\ counters (after d) = counter_set (counters (tip p)) key (v + n) /\
  batch d = (if n =? 0 then None else Some [OpPut key (to_be 8 (v + n))]).
Proof.
  intros E Hn ->. apply allocation_spec in E as (last & Hl & _ & _ & _ & Hc). pose proof (co_range _ _ Hco) as Hr.
  assert (last = v) as ->.
  { destruct Hl as [Hg|(_ & o & Ho & ->)]; [by apply (co_kept _ _ Hco)|]. pose proof counter_read as Hh.
    unfold read_u64_in_view in Ho. destruct (lookup_in_view key U64_MAX (a_view (tip p))) as [b|]; [|injection Ho as <-; by cbn in *].
    destruct Hh as [Hb <-]. rewrite Hb in Ho. by injection Ho as <-. }
  destruct Hc as [(-> & -> & -> & ->)|(Hn0 & _ & Hle & -> & -> & ->)].
  - rewrite Z.min_r by lia. rewrite !Z.add_0_r. split_and!; done || lia.
  - rewrite (proj2 (Z.eqb_neq n 0)) by done. split_and!; done || lia.
Qed.

Lemma put_holds w' : 0 <= w' < U64_MAX -> holds_counter (Some (to_be 8 w')) w'.
Proof.
  intros Hw. split; [by rewrite len_to_be|]. apply from_to_be. unfold U64_MAX in Hw. cbn. lia.
Qed.

(** What a slot does to the counter. *)
Record slot_leaves (w : Work) (d : Decision) (v' : Z) : Prop := {
  sl_kept : forall u, counter_get (counters (after d)) key = Some u -> u = v';
  sl_range : v <= v' < U64_MAX;
  sl_idle : commits d = false -> v' = v;
  sl_read : forall snap, commits d = true -> next_seq (tip p) + d_ops d - 1 <= snap ->
    holds_counter (read_after (ops_of w (batch d)) (next_seq (tip p)) key snap (lookup_in_view key U64_MAX (a_view (tip p)))) v';
  sl_plain : commits d = true -> Forall (fun o => match o with OpMerge k _ => k <> key | _ => True end) (ops_of w (batch d));
}.

Lemma unwritten_plain ops : existsb (fun o => op_writes o key) ops = false ->
  Forall (fun o => match o with OpMerge k _ => k <> key | _ => True end) ops.
Proof.
  induction ops as [|o ops IH]; cbn [existsb]; [constructor|]. intros [Ho Hs]%orb_false_iff. constructor; [|by apply IH].
  destruct o; try done. intros ->. cbn [op_writes] in Ho. by destruct (bytes_eqb_spec key key).
Qed.

Lemma untouched_leaves w d : (commits d = true -> existsb (fun o => op_writes o key) (ops_of w (batch d)) = false) ->
  (forall u, counter_get (counters (after d)) key = Some u -> counter_get (counters (tip p)) key = Some u) -> slot_leaves w d v.
Proof.
  intros Hw Hc. split.
  - intros u Hu. by apply (co_kept _ _ Hco), Hc.
  - pose proof (co_range _ _ Hco). lia.
  - done.
  - intros snap Hcm Hs. rewrite read_after_unwritten by auto. apply counter_read.
  - intros Hcm. by apply unwritten_plain, Hw.
Qed.

Lemma reserved_leaves place n d0 d : decide_allocation key n (tip p) (decision_new FWrite (tip p)) = Ok d0 -> 0 <= n ->
  take_place place (WAllocate key n false) d0 true = Ok d ->
  slot_leaves (WAllocate key n false) d (v + n) /\ verdict d = FAllocated (v + 1) (v + 1 + n).
Proof.
  intros E0 Hn E. destruct (reserved_last key n d0 E0 Hn eq_refl) as (Ev & Hm & Ec & Eb).
  pose proof (allocation_spec _ _ _ _ E0) as (_ & _ & Hz & _). pose proof (co_range _ _ Hco) as Hr.
  destruct (take_place_spec _ _ _ _ _ E Hz) as (Ev' & Eb' & Ec' & _ & _ & Eo & _). split; [|congruence].
  rewrite Eb in Eb'. split.
  - rewrite Ec', Ec. apply counter_set_spec, Hok.
  - lia.
  - unfold commits. rewrite Eo, Eb. destruct (Z.eqb_spec n 0) as [->|]; [intros _; lia|]. cbn. done.
  - intros snap _ Hs. rewrite Eb'. unfold commits in *. rewrite Eo, Eb in Hs. destruct (Z.eqb_spec n 0) as [->|].
    + cbn [ops_of read_after]. rewrite Z.add_0_r. apply counter_read.
    + cbn [ops_of read_after op_writes op_value]. destruct (bytes_eqb_spec key key); [cbn [andb]|done].
      cbn [ops_of] in Hs. rewrite len_cons, len_nil in Hs. rewrite (proj2 (Z.leb_le _ _)) by lia. apply put_holds. lia.
  - intros _. rewrite Eb'. destruct (n =? 0); by repeat constructor.
Qed.

Lemma slot_counter fence place w d : decide_work op touches (writable_of p) fence place w (tip p) = Ok d -> work_ok w ->
  only_reserved (w, d) -> slot_leaves w d (value_after v (w, d)) /\
  match w, verdict d with
  | WAllocate k _ _, FAllocated first end_ => k = key -> first = v + 1 /\ first <= end_ /\ value_after v (w, d) = end_ - 1
  | _, _ => True
  end.
Proof.
  intros E Hw Hor. pose proof (decide_decided _ _ _ _ _ _ _ _ E) as [_ _ H0 Hd]. unfold value_after. cbn [fst snd].
  apply decide_cases in E as [(e & ->)|(_ & [(txn & c & -> & _ & ->)|[(k & n & d0 & -> & E0 & E1)|(f & b & d1 & Hf & E1 & ->)]])].
  - cbn [verdict decision_new]. split; [|by destruct w]. destruct w; by apply untouched_leaves.
  - split; [|done]. by apply untouched_leaves.
  - destruct (bytes_eqb_spec k key) as [->|Hk].
    + destruct (reserved_leaves place n d0 d E0 Hw E1) as [Hl Ev]. rewrite Ev. cbn [andb] in *. cbn in Hw.
      assert (Ex : (if v + 1 <? v + 1 + n then v + 1 + n - 1 else v) = v + n).
      { destruct (Z.ltb_spec (v + 1) (v + 1 + n)); lia. }
      rewrite Ex. split; [done|]. intros _. lia.
    + pose proof (allocation_spec _ _ _ _ E0) as (last & _ & Hz & _ & _ & Hc).
      destruct (take_place_spec _ _ _ _ _ E1 Hz) as (_ & Eb & Ec & _).
      assert (Hl : slot_leaves (WAllocate k n false) d v).
      { apply untouched_leaves.
        - intros Hcm. apply not_true_is_false. intros Hx. by apply Hk, (Hor Hcm).
        - intros u. rewrite Ec. destruct Hc as [(_ & _ & _ & ->)|(_ & _ & _ & _ & _ & ->)];
            by rewrite (proj2 (proj2 (counter_set_spec _ k _ (po_counters _ Hok)))) by done. }
      cbn [andb]. destruct (verdict d); by split.
  - destruct (take_place_spec _ _ _ _ _ E1 eq_refl) as (Ev & Eb & Ec & _). cbn [verdict batch after] in Ev, Eb, Ec.
    assert (Hl : slot_leaves w (forgot w d1) v).
    { apply untouched_leaves.
      - intros Hcm. apply not_true_is_false. intros Hx. specialize (Hor Hcm Hx). destruct w; done.
      - cbn [forgot after counters]. intros u. rewrite Ec, (proj2 (forget_spec _ _ (po_counters _ Hok))). by destruct (existsb _ _). }
    destruct w; try done; by split.
Qed.

End Slot.

(** *** The steps *)

Section Steps.
Context `{Target} (op : option MergeOperator) (touches : option touches_fn) (obs : Z -> Prop).

Lemma counter_slot p v fence place w d : pipe_ok p -> counter_ok p v ->
  decide_work op touches (writable_of p) fence place w (tip p) = Ok d -> work_ok w -> Forall op_ok (ops_of w (batch d)) ->
  next_seq (after d) <= U64_MAX -> only_reserved (w, d) ->
  counter_ok (mkPipe (settle_slot w d) (pending p ++ [(w, d)]) (visible_seq p) (latched p)) (value_after v (w, d)).
Proof.
  intros Hok Hco E Hw Ho Hm Hor. destruct (slot_counter op touches p v Hok Hco fence place w d E Hw Hor) as [[Hk Hr Hi Hre Hpl] _].
  set (v' := value_after v (w, d)) in *. pose proof (co_range _ _ Hco) as Hrange.
  destruct (co_chain _ _ Hco) as [v0 Hc]. pose proof (po_pending _ Hok) as Hp.
  pose proof (chain_final _ _ _ _ _ _ _ Hp Hc eq_refl) as Hf. pose proof (decide_decided _ _ _ _ _ _ _ _ E) as [_ En H0 _].
  split; cbn [tip a_view counters visible_seq pending].
  - destruct (commits d) eqn:Ec; [|rewrite (slot_idle _ _ _ _ _ _ _ _ E Ec); apply Hco].
    apply (ln_unmerged _ _ _ _ (slot_landed _ _ _ _ _ _ _ Hok E Ho Hm Ec)); [apply Hco|by apply Hpl].
  - intros u. unfold settle_slot. destruct (commits d); apply Hk.
  - lia.
  - exists v0. destruct (commits d) eqn:Ec.
    + pose proof (slot_landed _ _ _ _ _ _ _ Hok E Ho Hm Ec) as Hl. eapply (chain_snoc _ _ _ _ v (w, d)); [exact Hp|done| |apply Hr|].
      * eapply chain_ext; [exact Hp| |exact Hc]. intros snap Hs. rewrite (ln_lookup _ _ _ _ Hl). apply read_after_below. lia.
      * rewrite (ln_lookup _ _ _ _ Hl). cbn [snd].
        rewrite (lookup_above _ key (next_seq (tip p) - 1) (next_seq (tip p) - 1 + d_ops d) U64_MAX); [apply Hre; [done|lia]|apply Hok| |lia|].
        -- replace (next_seq (tip p) - 1 + 1) with (next_seq (tip p)) by lia. apply Hok.
        -- pose proof (po_next _ Hok). lia.
    + rewrite (slot_idle _ _ _ _ _ _ _ _ E Ec). assert (Ed : d_ops d = 0) by (unfold commits in Ec; apply Z.ltb_ge in Ec; lia).
      eapply (chain_snoc _ _ _ _ v (w, d)); [exact Hp|done|exact Hc|apply Hr|]. cbn [snd]. rewrite Ed, Z.add_0_r.
      fold v'. by rewrite (Hi eq_refl).
Qed.

Lemma counter_publish p v : pipe_ok p -> counter_ok p v -> counter_ok (publish p) v.
Proof.
  intros Hok Hco. pose proof (po_pending _ Hok) as Hp. unfold publish. destruct (pending p) as [|[w d] rest] eqn:Ep; [done|].
  destruct Hco as [Hu Hk Hr [v0 Hc]]. rewrite Ep in Hc. cbn [counter_chain pending_from snd] in *. destruct Hc as (_ & _ & Hc).
  split; cbn [tip visible_seq pending]; try done. exists (value_after v0 (w, d)). destruct Hp as (H0 & H1 & _).
  unfold last_of. destruct (commits d) eqn:Ec.
  - rewrite (H1 eq_refl). by replace (visible_seq p + 1 + d_ops d - 1) with (visible_seq p + d_ops d) by lia.
  - unfold commits in Ec. apply Z.ltb_ge in Ec. by replace (visible_seq p + d_ops d) with (visible_seq p) in Hc by lia.
Qed.

Lemma counter_freeze p v : pipe_ok p -> counter_ok p v -> counter_ok (with_tip p (freeze (tip p))) v.
Proof.
  intros Hok [Hu Hk Hr [v0 Hc]]. split; cbn [with_tip tip freeze a_view counters visible_seq pending]; try done.
  - by apply frozen_unmerged.
  - exists v0. eapply chain_ext; [apply Hok| |exact Hc]. intros snap _. apply frozen_lookup, Hok.
Qed.

Lemma counter_move p v v' : pipe_ok p -> counter_ok p v -> moves obs (visible_seq p) (a_view (tip p)) v' ->
  counter_ok (with_tip p (mkAfter v' (next_seq (tip p)) (counters (tip p)) (closed (tip p)))) v.
Proof.
  intros Hok [Hu Hk Hr [v0 Hc]] Hm. split; cbn [with_tip tip a_view counters visible_seq pending]; try done.
  - by apply (mv_unmerged _ _ _ _ Hm).
  - exists v0. eapply chain_ext; [apply Hok| |exact Hc]. intros snap Hs. apply (mv_reads _ _ _ _ Hm); [lia|done].
Qed.

(** *** The rollback *)

Lemma note_last_spec k u last : NoDup (map fst last) ->
  NoDup (map fst (note_last k u last)) /\
  (forall k' w, k' <> k -> In (k', w) (note_last k u last) <-> In (k', w) last) /\
  (forall w, In (k, w) (note_last k u last) -> w = u \/ exists u0, In (k, u0) last /\ w = Z.max u0 u) /\
  (forall k' w, In (k', w) last -> exists w', In (k', w') (note_last k u last)) /\
  (exists w, In (k, w) (note_last k u last)) /\
  (forall k', In k' (map fst (note_last k u last)) -> k' = k \/ In k' (map fst last)).
Proof.
  induction last as [|[k0 u0] last IH]; cbn [note_last map fst].
  { intros _. split_and!; [repeat constructor; set_solver|naive_solver|naive_solver|naive_solver|naive_solver|naive_solver]. }
  intros Hnd. inversion Hnd as [|? ? Hn Hd]; subst. destruct (IH Hd) as (H1 & H2 & H3 & H4 & H5 & H6). destruct (bytes_eqb_spec k0 k) as [->|Hk].
  - cbn [map fst]. split_and!.
    + by constructor.
    + intros k' w Hk'. cbn. naive_solver.
    + intros w [[= <-]|Hin]; [right; exists u0; split; [by left|done]|].
      exfalso. apply Hn, list_elem_of_In, in_map_iff. by exists (k, w).
    + intros k' w [[= <- <-]|Hin]; cbn; eauto.
    + cbn. eauto.
    + intros k'. cbn. naive_solver.
  - cbn [map fst]. split_and!.
    + constructor; [|done]. intros Hin. apply list_elem_of_In, H6 in Hin as [|Hin]; [done|]. by apply Hn, list_elem_of_In.
    + intros k' w Hk'. cbn. rewrite (H2 k' w Hk'). done.
    + intros w [[= ? ?]|Hin]; [done|]. destruct (H3 w Hin) as [->|(x & Hx & ->)]; [by left|right; exists x; split; [by right|done]].
    + intros k' w [[= <- <-]|Hin]; [exists u0; by left|]. destruct (H4 k' w Hin) as [w' Hw']. exists w'. by right.
    + destruct H5 as [w Hw]. exists w. by right.
    + intros k' [<-|Hin]; [right; by left|]. destruct (H6 k' Hin) as [->|]; [by left|right; by right].
Qed.

Lemma In_dec last : (exists u, In (key, u) last) \/ forall u : Z, ~ In (key, u) last.
Proof.
  induction last as [|[k u] last [[w Hw]|IH]]; [right; by intros u []|left; exists w; by right|].
  destruct (decide (k = key)) as [->|Hk]; [left; exists u; by left|right]. intros w [[= ? ?]|Hin]; [done|by apply (IH w)].
Qed.

(** The value noted for the key is the counter the discarded slots left. *)
Lemma reserved_noted read slots b v v0 final acc : counter_chain read b slots v final ->
  NoDup (map fst acc) -> (forall u, In (key, u) acc -> u = v) -> ((forall u, ~ In (key, u) acc) -> v = v0) ->
  let last := fold_left note_reserved slots acc in
  NoDup (map fst last) /\ (forall u, In (key, u) last -> u = final) /\ ((forall u, ~ In (key, u) last) -> final = v0).
Proof.
  cbv zeta. revert b v acc. induction slots as [|[w d] slots IH]; intros b v acc; cbn [counter_chain fold_left].
  { intros [_ <-]. done. }
  intros (_ & Hle & Hc) Hn Hv H0. unfold note_reserved at 2 4 6. cbn [fst snd].
  unfold value_after in Hle, Hc. cbn [fst snd] in Hle, Hc.
  destruct w as [| | |k n ab]; try by apply (IH _ _ _ Hc). destruct (verdict d) as [| | | |first end_]; try by apply (IH _ _ _ Hc).
  destruct (Z.leb_spec end_ first) as [Hf|Hf].
  { rewrite (proj2 (Z.ltb_ge first end_)), andb_false_r in Hc by lia. by apply (IH _ _ _ Hc). }
  rewrite (proj2 (Z.ltb_lt first end_)), andb_true_r in Hle, Hc by lia.
  destruct (note_last_spec k (end_ - 1) acc Hn) as (N1 & N2 & N3 & N4 & N5 & N6).
  destruct (bytes_eqb_spec k key) as [->|Hk]; (apply (IH _ _ _ Hc); [done| |]).
  - intros u Hu. destruct (N3 u Hu) as [->|(u0 & Hin & ->)]; [done|]. rewrite (Hv u0 Hin). lia.
  - intros Hno. destruct N5 as [w Hw]. by destruct (Hno w).
  - intros u Hu. apply Hv, N2; [done|done].
  - intros Hno. apply H0. intros u Hu. apply (Hno u), N2; [done|done].
Qed.

Lemma read_after_puts last base snap r : NoDup (map fst last) -> base + len last - 1 <= snap ->
  (forall u, In (key, u) last -> read_after (map counter_put last) base key snap r = Some (to_be 8 u)) /\
  ((forall u, ~ In (key, u) last) -> read_after (map counter_put last) base key snap r = r).
Proof.
  revert base r. induction last as [|[k u0] last IH]; intros base r; cbn [map read_after counter_put op_writes op_value fst snd].
  { intros _ _. split; [naive_solver|done]. }
  intros Hnd. inversion Hnd as [|? ? Hn Hd]; subst. rewrite len_cons. intros Hs. pose proof (len_nonneg last). rewrite (proj2 (Z.leb_le base snap)) by lia.
  rewrite andb_true_r. destruct (IH (base + 1) (if bytes_eqb k key then Some (to_be 8 u0) else r) Hd ltac:(lia)) as [H1 H2].
  assert (Hno : k = key -> forall u, ~ In (key, u) last).
  { intros -> u Hin. apply Hn, list_elem_of_In, in_map_iff. by exists (key, u). }
  destruct (bytes_eqb_spec k key) as [->|Hk]; split.
  - intros u [[= <-]|Hin]; [by apply H2, Hno|by destruct (Hno eq_refl u)].
  - intros Hx. destruct (Hx u0). by left.
  - intros u [[= ? ?]|Hin]; [done|by apply H1].
  - intros Hx. apply H2. intros u Hu. apply (Hx u). by right.
Qed.

Lemma kept_counters last a : StronglySorted key_lt (counters a) -> NoDup (map fst last) -> forall u,
  counter_get (counters (fold_left keep_counter last a)) key = Some u ->
  In (key, u) last \/ (forall w, ~ In (key, w) last) /\ counter_get (counters a) key = Some u.
Proof.
  revert a. induction last as [|[k w0] last IH]; intros a Hs; cbn [fold_left map fst]; [intros _ u Hu; right; by split; [intros ? []|]|].
  intros Hnd u Hu. inversion Hnd as [|? ? Hn Hd]; subst. destruct (counter_set_spec (counters a) k w0 Hs) as (S1 & S2 & S3).
  destruct (IH (keep_counter a (k, w0)) S1 Hd u Hu) as [Hin|[Hno Hg]]; [left; by right|]. cbn [keep_counter counters fst snd] in Hg.
  destruct (decide (k = key)) as [->|Hk].
  - rewrite (S2 u Hg). left. by left.
  - rewrite (S3 key) in Hg by done. right. split; [|done]. intros w [[= ? ?]|Hin]; [done|by apply (Hno w)].
Qed.

Lemma counter_roll_back place cut_done p v p' : pipe_ok p -> counter_ok p v -> roll_back place cut_done p = p' -> next_seq (tip p') <= U64_MAX ->
  latched p' = true \/ counter_ok p' v.
Proof.
  intros Hok Hco E Hm. destruct (roll_back_cases place cut_done p p' Hok E) as (fresh & Hb & Hcases).
  destruct Hco as [Hu Hk Hr [v0 Hc]].
  destruct (reserved_noted _ _ _ _ v0 _ [] Hc) as (Hn & Hl & H0); [constructor|done|done|]. fold (last_reserved (pending p)) in *.
  assert (Hv0 : holds_counter (lookup_in_view key (visible_seq p) (a_view (tip p))) v0) by by destruct (pending p), Hc.
  assert (Hcut : forall snap, visible_seq p <= snap -> lookup_in_view key snap (a_view (cut_after p fresh)) = lookup_in_view key (visible_seq p) (a_view (tip p))).
  { intros snap Hs. cbn [cut_after a_view]. rewrite (rebuilt_lookup _ _ _ (po_view _ Hok) (po_quiet _ Hok) Hb (po_settled _ Hok)).
    by rewrite Z.min_r. }
  pose proof (rebuilt_unmerged _ _ _ Hb key Hu) as Hu'.
  destruct Hcases as [[[El|Hlat] ->]|[->|[_ ->]]]; cbn [latched]; [|by left..|].
  - right. rewrite El in *. rewrite H0 in * by naive_solver. split; try done. exists v0. cbn [pending visible_seq counter_chain tip].
    split; [|done]. by rewrite Hcut.
  - right. set (last := last_reserved (pending p)) in *. destruct (keep_counters last (back_after (cut_after p fresh) last)) as (Ev & En & _).
    cbn [tip] in Hm. rewrite En in Hm. pose proof (cut_ok p fresh Hok Hb false) as Hcok.
    pose proof (back_landed p fresh last false Hcok Hm) as Hland. pose proof (len_nonneg last).
    assert (Hread : holds_counter (lookup_in_view key (visible_seq p + len last) (a_view (back_after (cut_after p fresh) last))) v).
    { rewrite (ln_lookup _ _ _ _ Hland), Hcut by lia.
      destruct (read_after_puts last (visible_seq p + 1) (visible_seq p + len last)
        (lookup_in_view key (visible_seq p) (a_view (tip p))) Hn ltac:(lia)) as [R1 R2].
      destruct (In_dec last) as [(u & Hin)|Hno].
      - rewrite (R1 u Hin), (Hl u Hin). by apply put_holds.
      - rewrite (R2 Hno), (H0 Hno). done. }
    split; cbn [tip visible_seq pending]; rewrite ?Ev; [|..|exists v; by split].
    + apply (ln_unmerged _ _ _ _ Hland); [done|]. apply List.Forall_forall. intros o (c & <- & _)%in_map_iff. done.
    + intros u Hg. destruct (kept_counters last (back_after (cut_after p fresh) last) (po_counters _ Hok) Hn u Hg) as [Hin|[Hno Hg']]; [by apply Hl|].
      cbn in Hg'. by apply Hk.
    + done.
Qed.

(** *** The values handed out *)

Definition reservation (slot : Work * Decision) : option (Z * Z) :=
  match slot.1, verdict slot.2 with
  | WAllocate k _ _, FAllocated first end_ => if bytes_eqb k key then Some (first, end_) else None
  | _, _ => None
  end.
Definition reservations (evs : list (Work * Decision)) : list (Z * Z) := omap reservation evs.

(** Each range starts where the one before ended. *)
Fixpoint consecutive (next : Z) (ranges : list (Z * Z)) : Prop :=
  match ranges with [] => True | (first, end_) :: ranges => first = next /\ first <= end_ /\ consecutive end_ ranges end.
Fixpoint last_end (next : Z) (ranges : list (Z * Z)) : Z :=
  match ranges with [] => next | (_, end_) :: ranges => last_end end_ ranges end.

Lemma consecutive_snoc next ranges first end_ : consecutive next ranges -> first = last_end next ranges -> first <= end_ ->
  consecutive next (ranges ++ [(first, end_)]) /\ last_end next (ranges ++ [(first, end_)]) = end_.
Proof.
  revert next. induction ranges as [|[f e] ranges IH]; intros next; cbn [consecutive last_end app]; [done|].
  intros (-> & H1 & H2) Hf He. destruct (IH _ H2 Hf He) as [H3 H4]. split; [by split_and!|done].
Qed.

Lemma latched_step p slot p' : step op touches obs p slot p' -> latched p = true -> pipe_ok p ->
  latched p' = true /\ match slot with Some s => reservation s = None | None => True end.
Proof.
  intros [fence place w d E Hw Ho Hm| |Ep|v' Hmv|place cut_done p2 E Hm|] Hl Hok; cbn [latched with_tip]; try done.
  - split; [done|]. apply decide_cases in E as [(e & ->)|[Hwr _]]; [unfold reservation; cbn; by destruct w|].
    unfold writable_of in Hwr. by rewrite Hl in Hwr.
  - split; [|done]. unfold publish. by destruct (pending p) as [|[]].
  - split; [|done]. destruct (roll_back_cases _ _ _ _ Hok E) as (fresh & _ & [[_ ->]|[->|[Hf _]]]); [done|done|congruence].
Qed.

Lemma counter_run p evs p' v : pipe_ok p -> counter_ok p v -> run op touches obs p evs p' -> Forall only_reserved evs ->
  pipe_ok p' /\ consecutive (v + 1) (reservations evs) /\
  (latched p' = true \/ counter_ok p' (last_end (v + 1) (reservations evs) - 1)).
Proof.
  intros Hok Hco Hr. induction Hr as [|slot evs p1 p2 _ IH Hs]; intros Hf.
  { split; [done|]. split; [done|]. right. cbn [reservations omap list_omap last_end]. by replace (v + 1 - 1) with v by lia. }
  apply Forall_app in Hf as [Hf1 Hf2]. destruct (IH Hf1) as (Hok1 & Hc1 & Hco1). pose proof (step_ok op touches obs p1 slot p2 Hok1 Hs) as Hok2.
  split; [done|]. unfold reservations. rewrite omap_app. fold (reservations evs).
  destruct Hco1 as [Hlat|Hco1].
  { destruct (latched_step _ _ _ Hs Hlat Hok1) as [Hl2 Hn]. split; [|by left]. destruct slot as [s|]; cbn [omap list_omap]; rewrite ?Hn; by rewrite app_nil_r. }
  set (u := last_end (v + 1) (reservations evs) - 1) in *.
  assert (Eu : last_end (v + 1) (reservations evs) = u + 1) by lia.
  assert (Hidle : latched p2 = true \/ counter_ok p2 u -> slot = None ->
    consecutive (v + 1) (reservations evs ++ omap reservation match slot with Some s => [s] | None => [] end) /\
    (latched p2 = true \/
     counter_ok p2 (last_end (v + 1) (reservations evs ++ omap reservation match slot with Some s => [s] | None => [] end) - 1))).
  { intros Hx ->. cbn [omap list_omap]. rewrite app_nil_r. done. }
  destruct Hs as [fence place w d E Hw Ho Hm| |Ep|v' Hmv|place cut_done p2 E Hm|]; try (apply Hidle; [|done]); clear Hidle.
  - inversion Hf2 as [|? ? Hor _]; subst. pose proof (counter_slot p1 u fence place w d Hok1 Hco1 E Hw Ho Hm Hor) as Hco2.
    destruct (slot_counter op touches p1 u Hok1 Hco1 fence place w d E Hw Hor) as [_ Hres]. cbn [omap list_omap].
    destruct (reservation (w, d)) as [[f e]|] eqn:Er.
    + unfold reservation in Er. cbn [fst snd] in Er. destruct w as [| | |k n ab]; try done. destruct (verdict d); try done.
      destruct (bytes_eqb_spec k key) as [->|]; [injection Er as -> ->|done]. destruct (Hres eq_refl) as (-> & Hle & Hv').
      destruct (consecutive_snoc (v + 1) (reservations evs) (u + 1) e Hc1 (eq_sym Eu) Hle) as [H1 H2].
      split; [done|]. right. rewrite H2, <- Hv'. done.
    + rewrite app_nil_r. split; [done|]. right. fold u. replace u with (value_after u (w, d)) at 1; [done|].
      unfold reservation in Er. unfold value_after. cbn [fst snd] in *. destruct w as [| | |k n ab]; try done.
      destruct (verdict d); try done. by destruct (bytes_eqb k key).
  - right. by apply counter_publish.
  - right. by apply counter_freeze.
  - right. by apply counter_move.
  - exact (counter_roll_back place cut_done p1 u p2 Hok1 Hco1 E Hm).
  - by left.
Qed.

End Steps.

End Counter.

(** ** The theorems *)

Section Theorems.
Context `{Target} (op : option MergeOperator) (touches : option touches_fn) (obs : Z -> Prop).

(** C12: Every step keeps the pipeline well formed. From a state that is (a view
    whose sources are ordered by age, its active memtable sorted, every write
    below the next sequence, what is behind the active memtable published, the
    unpublished slots holding the sequences after the horizon one after the
    other, the counters sorted), any run of slots, publications, sealed
    memtables, installed tables, rollbacks and latches ends in one that is. *)
Theorem pipeline_stays_well_formed p evs p' : pipe_ok p -> run op touches obs p evs p' -> pipe_ok p'.
Proof. apply run_ok. Qed.

(** C7: A committed transaction reads as if it ran alone in its slot. Take any
    horizon published at one state and an early check against that state's view;
    let the pipeline run on in any way, log failures and rollbacks included, and
    let the transaction be decided as committed at a later state. Then, in the
    view it commits on, everything it read, scanned and wrote over stands, and
    its operations land there with the next sequences, above every write of the
    view. *)
Theorem committed_transaction_is_serial {P} (part : bytes -> Z -> P) p evs p' h checks ops appends e fence place d commuted elided :
  match op, touches with Some M, Some t => PartsLaw M t part | _, _ => True end ->
  pipe_ok p -> 0 <= h <= visible_seq p -> observed_ok obs checks -> check_early checks ops h (a_view (tip p)) = inr e ->
  run op touches obs p evs p' ->
  decide_work op touches (writable_of p') fence place (WTxn (mkTxn checks ops appends e)) (tip p') = Ok d ->
  verdict d = FCommit commuted elided ->
  commit_holds op touches part (a_view (tip p')) checks ops /\
  (exists added, ops_of (WTxn (mkTxn checks ops appends e)) (batch d) = ops ++ added) /\
  (commits d = true -> base_seq d = next_seq (tip p') /\ room (a_view (tip p')) (base_seq d)).
Proof.
  intros Hlaw Hok Hh Ho He Hr Hd Hc. destruct (run_held op touches obs p evs p' h Hok Hr ltac:(lia)) as (Hok' & Hheld & _).
  pose proof (decide_decided _ _ _ _ _ _ _ _ Hd) as [_ _ _ Hdo]. split; [|split].
  - apply decide_cases in Hd as [(x & ->)|(_ & [(txn & c & _ & _ & ->)|[(key & n & d0 & Ew & _)|(f & b & d1 & [Ht (c & x & ->)] & Htp & ->)]])];
      try done. destruct (take_place_spec _ _ _ _ _ Htp eq_refl) as (Ev & _). cbn [forgot verdict] in Hc. rewrite Ev in Hc.
    injection Hc as -> ->. apply committed_validates in Ht.
    eapply (marked_commit_holds obs op touches part checks ops h (a_view (tip p)) (a_view (tip p')));
      [exact Hlaw|apply Hok|apply Hok'|exact Ho|lia|exact Hheld| |exact He|exact Ht].
    intros key q Hw. pose proof (po_room _ Hok' key q Hw). cbn. lia.
  - cbn [ops_of]. destruct (batch d) as [added|]; [by exists added|exists []; by rewrite app_nil_r].
  - intros Hcm. destruct (Hdo Hcm) as [-> _]. split; [done|apply Hok'].
Qed.

(** C9: A counter's values are handed out once, in order. From a state with
    nothing unpublished whose counter at a key is [last], through any run in
    which nothing but reservations writes the key, each range a reservation hands
    out starts where the one before it ended, the first one past [last]: no value
    is handed out twice and none is skipped, however the table of counters keeps
    or drops the key, wherever its record moves, and although a log failure
    discards reservations whose ranges their callers already hold. *)
Theorem reservations_never_repeat key p evs p' last o : pipe_ok p -> pending p = [] -> unmerged key (a_view (tip p)) ->
  counter_get (counters (tip p)) key = None -> read_u64_in_view key (a_view (tip p)) = Ok o -> last = default 0 o -> last < U64_MAX ->
  run op touches obs p evs p' -> Forall (only_reserved key) evs -> consecutive (last + 1) (reservations key evs).
Proof.
  intros Hok Ep Hu Hg Ho -> Hm Hr Hf. assert (Hco : counter_ok key p (default 0 o)).
  { pose proof (po_pending _ Hok) as Hp. rewrite Ep in Hp. cbn [pending_from] in Hp.
    assert (Hh : holds_counter (lookup_in_view key U64_MAX (a_view (tip p))) (default 0 o) /\ 0 <= default 0 o).
    { unfold read_u64_in_view in Ho. destruct (lookup_in_view _ _ _) as [b|]; [|by injection Ho as <-].
      destruct (Z.eqb_spec (len b) 8) as [Eb|]; [|done]. injection Ho as <-. split; [done|]. apply (from_be_range b 8 Eb). }
    split; [done|by rewrite Hg|lia|]. exists (default 0 o). rewrite Ep. cbn [counter_chain]. split; [|done].
    rewrite (lookup_above _ key (visible_seq p) (visible_seq p) U64_MAX); [apply Hh|apply Hok| |lia|].
    - rewrite Hp. apply Hok.
    - pose proof (po_next _ Hok). lia. }
  by destruct (counter_run key op touches obs p evs p' (default 0 o) Hok Hco Hr Hf) as (_ & Hc & _).
Qed.

End Theorems.

(** ** A run *)

(** A table and a memtable, published up to sequence 12. *)
Definition first_pipe : Pipe := mkPipe (mkAfter row_view 13 [] false) [] 12 false.

Lemma first_pipe_ok : pipe_ok first_pipe.
Proof.
  assert (Hw : forall key q, written row_view key q -> q <= 12) by (apply written_upto; computed).
  split; cbn [first_pipe tip a_view next_seq pending visible_seq counters]; try done.
  - apply row_views_ok.
  - intros key q Hq. apply Hw in Hq. lia.
  - intros s key q Hs Hi. apply (Hw key). exists s. split; [rewrite all_sources_active; by right|done].
  - constructor.
Qed.

Definition sample_decide (p : Pipe) (w : Work) : outcome Decision :=
  decide_work (H := target64) (Some fields_operator) (Some fields_touches) (writable_of p) (fun _ => Ok ()) (fun _ => Ok ()) w (tip p).
Definition sample_decided (p : Pipe) (w : Work) : Decision := match sample_decide p w with Ok d => d | _ => decision_new FWrite (tip p) end.
Definition slotted (p : Pipe) (w : Work) : Pipe :=
  mkPipe (settle_slot w (sample_decided p w)) (pending p ++ [(w, sample_decided p w)]) (visible_seq p) (latched p).
Definition cut (p : Pipe) : Pipe := roll_back (H := target64) (fun _ => Ok ()) (Ok ()) p.

Notation sample_run := (run (H := target64) (Some fields_operator) (Some fields_touches) (eq 6)).

Lemma run_slot p evs p1 w : sample_run p evs p1 -> sample_decide p1 w = Ok (sample_decided p1 w) -> work_ok w ->
  forallb (fun o => match o with OpDeleteRange s e => bytes_ltb s e | _ => true end) (ops_of w (batch (sample_decided p1 w))) = true ->
  (next_seq (after (sample_decided p1 w)) <=? U64_MAX) = true -> sample_run p (evs ++ [(w, sample_decided p1 w)]) (slotted p1 w).
Proof.
  intros Hr E Hw Ho Hm%Z.leb_le. eapply (RunStep _ _ _ _ (Some (w, sample_decided p1 w))); [exact Hr|]. eapply StepSlot; [exact E|done| |done].
  apply List.Forall_forall. intros o Hin. rewrite forallb_forall in Ho. specialize (Ho o Hin). destruct o; try done.
  by destruct (bytes_ltb_spec start end_).
Qed.

Lemma run_publish p evs p1 : sample_run p evs p1 -> sample_run p evs (publish p1).
Proof. intros Hr. rewrite <- (app_nil_r evs). eapply (RunStep _ _ _ _ None); [exact Hr|apply StepPublish]. Qed.

Lemma run_cut p evs p1 : sample_run p evs p1 -> (next_seq (tip (cut p1)) <=? U64_MAX) = true -> sample_run p evs (cut p1).
Proof. intros Hr Hm%Z.leb_le. rewrite <- (app_nil_r evs). eapply (RunStep _ _ _ _ None); [exact Hr|by eapply StepRollBack]. Qed.

(** Three values are reserved and the log fails before the record is written; the
    rollback writes the reservation back; two more are reserved and published. *)
Definition count_key : bytes := Eval vm_compute in str "count".
Definition first_take : Work := WAllocate count_key 3 false.
Definition second_take : Work := WAllocate count_key 2 false.
Definition cut_pipe : Pipe := cut (slotted first_pipe first_take).
Definition last_pipe : Pipe := publish (slotted cut_pipe second_take).
Definition sample_slots : list (Work * Decision) :=
  [(first_take, sample_decided first_pipe first_take); (second_take, sample_decided cut_pipe second_take)].

Lemma sample_runs : sample_run first_pipe sample_slots last_pipe.
Proof.
  apply run_publish. apply (run_slot _ [_]); [|computed|done|computed|computed].
  apply run_cut; [|computed].
  apply (run_slot _ []); [apply RunDone|computed|done|computed|computed].
Qed.

Lemma pipeline_stays_well_formed_witness : visible_seq last_pipe = 14 /\ pipe_ok last_pipe.
Proof.
  split; [computed|].
  apply (pipeline_stays_well_formed (H := target64) _ _ _ first_pipe sample_slots last_pipe first_pipe_ok sample_runs).
Defined.

(** The transaction of [row_checks], checked early before those reservations,
    commits after them. *)
Definition row_txn (e : Early) : TxnRequest := mkTxn row_checks row_ops [] e.

Lemma committed_transaction_is_serial_witness :
  exists e, check_early row_checks row_ops 12 row_view = inr e /\
  verdict (sample_decided last_pipe (WTxn (row_txn e))) = FCommit 0 0 /\ base_seq (sample_decided last_pipe (WTxn (row_txn e))) = 15 /\
  commit_holds (Some fields_operator) (Some fields_touches) field (a_view (tip last_pipe)) row_checks row_ops.
Proof.
  destruct (check_early row_checks row_ops 12 row_view) as [c|e] eqn:E; [vm_compute in E; discriminate|].
  exists e. split; [done|]. assert (Ee : e = mkEarly 12 [Dirty; Clean; Clean]) by (vm_compute in E; by injection E as <-).
  assert (Ev : verdict (sample_decided last_pipe (WTxn (row_txn e))) = FCommit 0 0) by (rewrite Ee; computed).
  assert (Ed : sample_decide last_pipe (WTxn (row_txn e)) = Ok (sample_decided last_pipe (WTxn (row_txn e)))) by (rewrite Ee; computed).
  split; [exact Ev|]. split; [rewrite Ee; computed|].
  apply (committed_transaction_is_serial (H := target64) (Some fields_operator) (Some fields_touches) (eq 6) field
    first_pipe sample_slots last_pipe 12 row_checks row_ops [] e (fun _ => Ok ()) (fun _ => Ok ()) _ 0 0
    fields_law first_pipe_ok ltac:(cbn; lia) row_observed E sample_runs Ed Ev).
Defined.

Lemma unmerged_by key view :
  forallb (fun s => forallb (fun e => negb (bytes_eqb (e_key e) key && is_merge (e_type e))) (s_entries s)) (all_sources view) = true ->
  unmerged key view.
Proof.
  rewrite forallb_forall. intros H s e Hs He <-. specialize (H s (proj1 (list_elem_of_In _ _) Hs)). rewrite forallb_forall in H.
  specialize (H e (proj1 (list_elem_of_In _ _) He)). by destruct (bytes_eqb_spec (e_key e) (e_key e)), (is_merge (e_type e)).
Qed.

Lemma reservations_never_repeat_witness : reservations count_key sample_slots = [(1, 4); (4, 6)] /\
  consecutive 1 (reservations count_key sample_slots).
Proof.
  split; [computed|].
  apply (reservations_never_repeat (H := target64) (Some fields_operator) (Some fields_touches) (eq 6) count_key first_pipe sample_slots last_pipe 0 None
    first_pipe_ok ltac:(done)); [|computed|computed|done|done|exact sample_runs|]; [|repeat constructor; done].
  apply unmerged_by. computed.
Defined.
