(* ===== verification/CommitAppends.v ===== *)
(** * Commit-ordered logs along a run

    The appends a transaction queued are numbered in its slot (CommitSlots.v,
    [number]). Here a log's keys are followed through the steps of the pipeline
    (CommitRuns.v).

    Shown here: what numbering a commit's appends writes of one log, and that the
    published log, read at the published horizon, only ever grows at its end,
    each entry at the position after the one before, through commits, appends
    skipped for their once keys, and rollbacks. *)

From stdpp Require Import sets sorting.
From S2P Require Import Bloom.
From S2P Require Import Prelude Order InternalKey RangeTombstone TombstoneLog WalCodec Manifest Version ReadPath CommitWalk CommitCheck CommitSlots CommitRuns.

(** ** What a run of operations leaves at a key *)

Fixpoint read_all (ops : list WriteBatchOp) (key : bytes) (r : option bytes) : option bytes :=
  match ops with [] => r | o :: ops => read_all ops key (if op_writes o key then op_value o else r) end.

Lemma read_after_all ops base key snap r : base + len ops - 1 <= snap -> read_after ops base key snap r = read_all ops key r.
Proof.
  revert base r. induction ops as [|o ops IH]; intros base r Hs; cbn [read_after read_all]; [done|].
  rewrite len_cons in Hs. pose proof (len_nonneg ops). rewrite (proj2 (Z.leb_le base snap)), andb_true_r by lia. apply IH. lia.
Qed.

Lemma read_all_app a b key r : read_all (a ++ b) key r = read_all b key (read_all a key r).
Proof. revert r. induction a as [|o a IH]; intros r; cbn [read_all app]; [done|apply IH]. Qed.

Lemma read_all_unwritten ops key r : Forall (fun o => op_writes o key = false) ops -> read_all ops key r = r.
Proof. intros Hf. revert r. induction Hf as [|o ops Ho _ IH]; intros r; cbn [read_all]; [done|]. by rewrite Ho, IH. Qed.

Lemma put_writes k v key : op_writes (OpPut k v) key = true <-> k = key.
Proof. cbn. apply bool_decide_eq_true. Qed.

Lemma put_skips k v key : k <> key -> op_writes (OpPut k v) key = false.
Proof. intros Hk. apply not_true_is_false. by intros Hw%put_writes. Qed.

(** The numbered appends are puts. *)
Definition is_a_put (o : WriteBatchOp) : Prop := match o with OpPut _ _ => True | _ => False end.

Lemma appends_puts view aps order order' acc added : Forall is_a_put acc -> number_appends view aps order acc = (order', Ok added) ->
  Forall is_a_put added.
Proof.
  revert order acc. induction aps as [|ap aps IH]; intros order acc Ha; cbn [number_appends]; [by intros [= _ <-]|].
  destruct (number_append view ap order) as [order1 [puts| | |]] eqn:E; try done. apply IH. apply Forall_app. split; [done|].
  clear IH. unfold number_append in E. set (once := prefix_key DEFAULT_CF_ID <$> ap_once ap) in *.
  destruct (match once with Some k => holds_position view k order | None => Ok (false, order) end) as [[[] ?]|e| |]; try done;
    [by injection E as _ <-|]. destruct (head_of _ _ _) as [[at_ order2]|e| |]; try done. destruct (logs order2 !! at_) as [l|]; [|done].
  destruct (_ <=? _); [done|]. destruct (_ <? _); [done|]. injection E as _ <-. constructor; [done|]. destruct once; repeat constructor.
Qed.

Lemma number_puts view aps order added : (number view aps order).2 = Ok added -> Forall is_a_put added.
Proof.
  unfold number. destruct (number_appends view aps order []) as [order' [ops| | |]] eqn:E; try done. intros [= <-].
  apply Forall_app. split; [by eapply appends_puts|]. apply List.Forall_forall. by intros o (l & <- & _)%in_map_iff.
Qed.

(** The head a key names among those of a commit. *)
Lemma log_position_spec key ls :
  match log_position key ls with
  | Some at_ => exists l, ls !! at_ = Some l /\ lh_key l = key
  | None => forall l, l ∈ ls -> lh_key l <> key
  end.
Proof.
  induction ls as [|l ls IH]; cbn [log_position]; [set_solver|]. destruct (bytes_eqb_spec (lh_key l) key) as [E|E]; [by exists l|].
  destruct (log_position key ls); cbn [fmap option_fmap option_map].
  - destruct IH as (l' & Hl & Hk). by exists l'.
  - intros l' [->|Hl]%elem_of_cons; [done|by apply IH].
Qed.

(** ** One log *)

Section Log.
Context (L : LogLayout).

Definition hk : bytes := prefix_key DEFAULT_CF_ID (head_key L).
Definition ek (p : Z) : bytes := prefix_key DEFAULT_CF_ID (entry_key L p).

(** The layout's contract. *)
Record layout_ok : Prop := {
  ly_head : forall p, 1 <= p <= U64_MAX -> ek p <> hk;
  ly_entries : forall p q, 1 <= p <= U64_MAX -> 1 <= q <= U64_MAX -> ek p = ek q -> p = q;
}.

Definition owned (key : bytes) : Prop := key = hk \/ exists p, 1 <= p <= U64_MAX /\ key = ek p.

(** An append to this log, or to one that shares no key with it; no once key is a
    key of the log. *)
Definition append_ok (ap : PendingAppend) : Prop :=
  (ap_log ap = L \/
   ~ owned (prefix_key DEFAULT_CF_ID (head_key (ap_log ap))) /\ forall p, ~ owned (prefix_key DEFAULT_CF_ID (entry_key (ap_log ap) p))) /\
  forall once, ap_once ap = Some once -> ~ owned (prefix_key DEFAULT_CF_ID once).

Lemma unowned_put k v key : ~ owned k -> owned key -> op_writes (OpPut k v) key = false.
Proof. intros Hk Ho. apply put_skips. by intros ->. Qed.

(** The entries appends ask the log for, in order. *)
Definition asked (aps : list PendingAppend) : list bytes :=
  map ap_entry (List.filter (fun ap => bytes_eqb (prefix_key DEFAULT_CF_ID (head_key (ap_log ap))) hk) aps).

Definition requested (slots : list (Work * Decision)) : list bytes :=
  List.concat (map (fun slot => match slot.1 with WTxn txn => asked (tx_appends txn) | _ => [] end) slots).

Lemma requested_app a b : requested (a ++ b) = requested a ++ requested b.
Proof. unfold requested. by rewrite map_app, concat_app. Qed.

Lemma asked_cons ap aps : asked (ap :: aps) = asked [ap] ++ asked aps.
Proof. unfold asked. cbn [List.filter]. by destruct (bytes_eqb _ _). Qed.

(** ** Numbering a commit's appends *)

Section Number.
Context (Hly : layout_ok) (view : ReadView) (n : Z) (o : option Z).
Context (Hread : read_u64_in_view hk view = Ok o) (Hn : n = default 0 o) (H0 : 0 <= n).

Record numbering (order : AppendOrder) (acc : list WriteBatchOp) (es : list bytes) : Prop := {
  nb_keys : forall l, l ∈ logs order -> lh_key l = hk \/ ~ owned (lh_key l);
  nb_mine : forall l, l ∈ logs order -> lh_key l = hk -> settled l = n /\ position l = n + len es;
  nb_none : (forall l, l ∈ logs order -> lh_key l <> hk) -> es = [];
  nb_once : forall i j l l', logs order !! i = Some l -> logs order !! j = Some l' -> lh_key l = hk -> lh_key l' = hk -> i = j;
  nb_bound : es = [] \/ n + len es <= U64_MAX;
  nb_entries : forall i e, es !! i = Some e -> forall r, read_all acc (ek (n + 1 + Z.of_nat i)) r = Some e;
  nb_old : forall p, 1 <= p <= n -> p <= U64_MAX -> forall r, read_all acc (ek p) r = r;
  nb_head : forall r, read_all acc hk r = r;
}.

(** Puts of keys the log does not own change none of its keys. *)
Lemma unowned_numbering order order' acc es puts : logs order' = logs order ->
  Forall (fun o => exists k v, o = OpPut k v /\ ~ owned k) puts -> numbering order acc es -> numbering order' (acc ++ puts) es.
Proof.
  intros El Hp [H1 H2 H3 Hone H4 H5 H6 H7].
  assert (Hu : forall key r, owned key -> read_all puts key r = r).
  { intros key r Ho. apply read_all_unwritten. eapply List.Forall_impl; [|exact Hp]. intros x (k & v & -> & Hk). by apply unowned_put. }
  split; rewrite ?El; try done.
  - intros i e Hi r. assert (Hlt := lookup_lt_Some _ _ _ Hi). rewrite read_all_app, (H5 i e Hi), Hu; [done|].
    right. exists (n + 1 + Z.of_nat i). split; [|done]. destruct H4 as [->|H4]; [done|]. unfold len in H4. lia.
  - intros p Hp' Hm r. rewrite read_all_app, (H6 p Hp' Hm), Hu; [done|]. right. exists p. split; [lia|done].
  - intros r. rewrite read_all_app, H7, Hu; [done|by left].
Qed.

Lemma holds_logs once order b order' : holds_position view once order = Ok (b, order') -> logs order' = logs order.
Proof.
  unfold holds_position. destruct (is_taken order once); [by intros [= _ <-]|]. intros E.
  apply bind_ok in E as (held & _ & [= _ <-]). by destruct (is_some held).
Qed.

(** The log's head in the order, read from the view the first time. *)
Lemma head_numbering ap order acc es at_ order' : append_ok ap -> numbering order acc es -> head_of view (ap_log ap) order = Ok (at_, order') ->
  numbering order' acc es /\ exists l, logs order' !! at_ = Some l /\ lh_key l = prefix_key DEFAULT_CF_ID (head_key (ap_log ap)).
Proof.
  intros [Hap _] Hnb E. unfold head_of in E. set (key := prefix_key DEFAULT_CF_ID (head_key (ap_log ap))) in *.
  pose proof (log_position_spec key (logs order)) as Hp. destruct (log_position key (logs order)) as [i|].
  { injection E as <- <-. done. }
  apply bind_ok in E as (held & Eh & [= <- <-]). destruct Hnb as [H1 H2 H3 Hone H4 H5 H6 H7]. split.
  - assert (Hnew : key = hk -> default 0 held = n /\ es = []).
    { intros Ek. rewrite Ek in Eh, Hp. rewrite Hread in Eh. injection Eh as <-. split; [done|by apply H3]. }
    split; cbn [logs]; try done.
    + intros l [Hl|Hl%list_elem_of_singleton]%elem_of_app; [by apply H1|]. subst l. cbn. unfold key.
      destruct Hap as [->|[Hu _]]; [by left|by right].
    + intros l [Hl|Hl%list_elem_of_singleton]%elem_of_app; [by apply H2|]. subst l. cbn. intros Ek. destruct (Hnew Ek) as [-> ->].
      rewrite len_nil. lia.
    + intros Hno. apply H3. intros l Hl. apply Hno. apply elem_of_app. by left.
    + assert (Hlast : forall j l, (logs order ++ [mkHead key (default 0 held) (default 0 held)]) !! j = Some l -> lh_key l = hk ->
        logs order !! j = Some l /\ key <> hk \/ key = hk /\ j = length (logs order)).
      { intros j l [Hj|[Hge Hj]]%lookup_app_Some Hk.
        - left. split; [done|]. intros Ek. apply (Hp l); [by eapply list_elem_of_lookup_2|by rewrite Ek].
        - right. apply list_lookup_singleton_Some in Hj as [Hj <-]. split; [done|lia]. }
      intros i j l l' Hi Hj Hk Hk'. destruct (Hlast _ _ Hi Hk) as [[Hi' ?]|[? ->]], (Hlast _ _ Hj Hk') as [[Hj' ?]|[? ->]]; try done.
      by eapply Hone.
  - exists (mkHead key (default 0 held) (default 0 held)). split; [|done]. cbn [logs]. by rewrite lookup_app_r, Nat.sub_diag.
Qed.

(** The head moved to its next position. *)
Lemma set_position_lookup order at_ l p j : logs order !! at_ = Some l ->
  logs (set_position at_ p order) !! j = if decide (j = at_) then Some (mkHead (lh_key l) (settled l) p) else logs order !! j.
Proof.
  intros Hl. cbn [set_position logs]. rewrite list_lookup_alter. destruct (decide (j = at_)) as [->|Hne].
  - rewrite decide_True by done. by rewrite Hl.
  - by rewrite decide_False by done.
Qed.

Lemma set_position_key order at_ l p j x : logs order !! at_ = Some l -> logs (set_position at_ p order) !! j = Some x ->
  exists y, logs order !! j = Some y /\ lh_key y = lh_key x.
Proof.
  intros Hl. rewrite (set_position_lookup _ _ _ _ _ Hl). destruct (decide (j = at_)) as [->|]; [|by exists x].
  intros [= <-]. by exists l.
Qed.

Lemma position_numbering order acc es at_ l p acc' es' : numbering order acc es -> logs order !! at_ = Some l ->
  (lh_key l = hk -> p = n + len es') -> (lh_key l <> hk -> es' = es) ->
  es' = [] \/ n + len es' <= U64_MAX ->
  (forall i e, es' !! i = Some e -> forall r, read_all acc' (ek (n + 1 + Z.of_nat i)) r = Some e) ->
  (forall p, 1 <= p <= n -> p <= U64_MAX -> forall r, read_all acc' (ek p) r = r) -> (forall r, read_all acc' hk r = r) ->
  numbering (set_position at_ p order) acc' es'.
Proof.
  intros [H1 H2 H3 Hone _ _ _ _] Hl Hp Hes Hb Hen Hol Hhe. split; try done.
  - intros x (j & Hj)%list_elem_of_lookup. destruct (set_position_key _ _ _ _ _ _ Hl Hj) as (y & Hy & <-).
    apply H1. by eapply list_elem_of_lookup_2.
  - intros x (j & Hj)%list_elem_of_lookup Hk. destruct (set_position_key _ _ _ _ _ _ Hl Hj) as (y & Hy & Ey).
    rewrite (set_position_lookup _ _ _ _ _ Hl) in Hj. destruct (decide (j = at_)) as [->|Hne].
    + injection Hj as <-. cbn [lh_key settled position] in *. rewrite Hl in Hy. injection Hy as ->.
      split; [apply (H2 y); [by eapply list_elem_of_lookup_2|done]|by apply Hp].
    + rewrite Hj in Hy. injection Hy as ->. destruct (decide (lh_key l = hk)) as [El|El]; [by destruct (Hne (Hone _ _ _ _ Hj Hl Hk El))|].
      rewrite (Hes El). apply (H2 y); [by eapply list_elem_of_lookup_2|done].
  - intros Hno. assert (El : lh_key l <> hk).
    { apply (Hno (mkHead (lh_key l) (settled l) p)). apply (list_elem_of_lookup_2 _ at_).
      by rewrite (set_position_lookup _ _ _ _ _ Hl), decide_True. }
    rewrite (Hes El). apply H3. intros x (j & Hj)%list_elem_of_lookup Ex. destruct (decide (j = at_)) as [->|Hne].
    + rewrite Hl in Hj. injection Hj as ->. done.
    + apply (Hno x); [|done]. apply (list_elem_of_lookup_2 _ j). by rewrite (set_position_lookup _ _ _ _ _ Hl), decide_False.
  - intros i j x x' Hi Hj Hk Hk'. destruct (set_position_key _ _ _ _ _ _ Hl Hi) as (y & Hy & Ey).
    destruct (set_position_key _ _ _ _ _ _ Hl Hj) as (y' & Hy' & Ey'). apply (Hone i j y y' Hy Hy'); congruence.
Qed.

Lemma own_numbering order acc es at_ l entry : numbering order acc es -> logs order !! at_ = Some l -> lh_key l = hk ->
  position l < U64_MAX -> numbering (set_position at_ (position l + 1) order) (acc ++ [OpPut (ek (position l + 1)) entry]) (es ++ [entry]).
Proof.
  intros Hnb Hl Hk Hm. assert (Hl' : l ∈ logs order) by by eapply list_elem_of_lookup_2.
  destruct (nb_mine _ _ _ Hnb l Hl' Hk) as [Es Ep]. pose proof (len_nonneg es) as Hlen.
  assert (Hput : forall p r, 1 <= p <= U64_MAX -> read_all [OpPut (ek (position l + 1)) entry] (ek p) r =
            if decide (p = position l + 1) then Some entry else r).
  { intros p r Hp. cbn [read_all]. destruct (decide (p = position l + 1)) as [->|Hne].
    - by rewrite (proj2 (put_writes _ _ _)).
    - rewrite put_skips; [done|]. intros Hw. apply Hne. symmetry. apply (ly_entries Hly); [lia|lia|done]. }
  eapply (position_numbering order acc es at_ l); [done|done| |done| | | |].
  - intros _. rewrite len_app, len_cons, len_nil. lia.
  - right. rewrite len_app, len_cons, len_nil. lia.
  - intros i e Hi r. rewrite read_all_app. apply lookup_snoc_Some in Hi as [[Hlt Hi]|[-> <-]].
    + rewrite Hput by (unfold len in *; lia). rewrite decide_False by (unfold len in *; lia). by apply (nb_entries _ _ _ Hnb).
    + rewrite Hput by (unfold len in *; lia). by rewrite decide_True by (unfold len in *; lia).
  - intros p Hp Hpm r. rewrite read_all_app, Hput, decide_False by lia. by apply (nb_old _ _ _ Hnb).
  - intros r. rewrite read_all_app, (nb_head _ _ _ Hnb). cbn [read_all]. rewrite put_skips; [done|]. apply (ly_head Hly). lia.
Qed.

Lemma numbering_logs order order' acc es : logs order' = logs order -> numbering order acc es -> numbering order' acc es.
Proof. intros El [H1 H2 H3 Hone H4 H5 H6 H7]. by split; rewrite ?El. Qed.

Lemma append_numbering ap order order' acc es puts : append_ok ap -> numbering order acc es ->
  number_append view ap order = (order', Ok puts) -> exists more, numbering order' (acc ++ puts) (es ++ more) /\ more `sublist_of` asked [ap].
Proof.
  intros Hap Hnb E. unfold number_append in E.
  set (once := prefix_key DEFAULT_CF_ID <$> ap_once ap) in *.
  destruct (match once with Some k => holds_position view k order | None => Ok (false, order) end) as [[b order1]|e| |] eqn:Eo; try done.
  assert (Hnb1 : numbering order1 acc es).
  { apply (numbering_logs order); [|done]. destruct once; [by eapply holds_logs|by injection Eo as _ <-]. }
  destruct b. { injection E as <- <-. exists []. rewrite !app_nil_r. split; [done|apply sublist_nil_l]. }
  destruct (head_of view (ap_log ap) order1) as [[at_ order2]|e| |] eqn:Eh; try done.
  destruct (head_numbering ap order1 acc es at_ order2 Hap Hnb1 Eh) as (Hnb2 & l & Hl & Hk). rewrite Hl in E.
  destruct (Z.leb_spec U64_MAX (position l)) as [|Hm]; [done|]. destruct (_ <? _); [done|]. injection E as <- <-.
  assert (Hnb3 : numbering (take_once once order2) acc es) by (apply (numbering_logs order2); [by destruct once|done]).
  assert (Hl3 : logs (take_once once order2) !! at_ = Some l) by by destruct once.
  assert (Honce : Forall (fun o => exists k v, o = OpPut k v /\ ~ owned k)
            match once with Some k => [OpPut k (to_be 8 (position l + 1))] | None => [] end).
  { unfold once. destruct (ap_once ap) as [k|] eqn:Ek; [|constructor]. cbn [fmap option_fmap option_map].
    constructor; [|constructor]. eexists _, _. split; [done|]. by apply (proj2 Hap). }
  destruct (proj1 Hap) as [EL|[Hh He]].
  - rewrite EL in *. exists [ap_entry ap].
    split; [|unfold asked; cbn [List.filter]; rewrite EL; fold hk; by destruct (bytes_eqb_spec hk hk)].
    rewrite cons_middle, app_assoc. eapply (unowned_numbering _ _ _ _ _ eq_refl Honce).
    by apply own_numbering.
  - exists []. rewrite app_nil_r. split; [|apply sublist_nil_l]. assert (Hne : lh_key l <> hk) by (rewrite Hk; intros Ex; apply Hh; by left).
    eapply (unowned_numbering (set_position at_ (position l + 1) (take_once once order2))); [done| |].
    + constructor; [|exact Honce]. eexists _, _. split; [done|]. apply He.
    + eapply position_numbering; [exact Hnb3|exact Hl3|done|done|apply Hnb3|apply Hnb3|apply Hnb3|apply Hnb3].
Qed.

Lemma appends_numbering aps order order' acc es added : Forall append_ok aps -> numbering order acc es ->
  number_appends view aps order acc = (order', Ok added) -> exists more, numbering order' added (es ++ more) /\ more `sublist_of` asked aps.
Proof.
  intros Hf. revert order acc es. induction Hf as [|ap aps Hap _ IH]; intros order acc es Hnb; cbn [number_appends].
  { intros [= <- <-]. exists []. rewrite app_nil_r. split; [done|apply sublist_nil_l]. }
  destruct (number_append view ap order) as [order1 [puts| | |]] eqn:E; try done.
  destruct (append_numbering _ _ _ _ _ _ Hap Hnb E) as (more & Hnb1 & Hs). intros E'.
  destruct (IH _ _ _ Hnb1 E') as (more' & Hnb' & Hs'). exists (more ++ more'). rewrite app_assoc, asked_cons. split; [done|by apply sublist_app].
Qed.

Lemma heads_read ls m r : (forall l, l ∈ ls -> lh_key l = hk -> position l = m) ->
  read_all (map head_put ls) hk r = if existsb (fun l => bytes_eqb (lh_key l) hk) ls then Some (to_be 8 m) else r.
Proof.
  revert r. induction ls as [|l ls IH]; intros r Hm; cbn [map read_all existsb]; [done|]. rewrite IH by set_solver.
  unfold head_put. cbn [op_writes op_value]. destruct (bytes_eqb_spec (lh_key l) hk) as [E|E]; cbn [orb]; [|done].
  rewrite (Hm l ltac:(by left) E). by destruct (existsb _ ls).
Qed.

(** What numbering a commit's appends writes of the log: the entries after the
    last position, and the head once, at the last of them. *)
Lemma number_spec aps added : Forall append_ok aps -> (number view aps order_default).2 = Ok added ->
  exists es, es `sublist_of` asked aps /\ (es = [] \/ n + len es <= U64_MAX) /\
  (forall i e, es !! i = Some e -> forall r, read_all added (ek (n + 1 + Z.of_nat i)) r = Some e) /\
  (forall p, 1 <= p <= n -> p <= U64_MAX -> forall r, read_all added (ek p) r = r) /\
  (forall r, read_all added hk r = match es with [] => r | _ => Some (to_be 8 (n + len es)) end).
Proof.
  intros Hf. unfold number. destruct (number_appends view aps order_default []) as [order [ops| | |]] eqn:E; try done. intros [= <-].
  assert (Hstart : numbering order_default [] []) by (split; cbn; set_solver).
  destruct (appends_numbering _ _ _ _ _ _ Hf Hstart E) as (es & [H1 H2 H3 Hone H4 H5 H6 H7] & Hsub). cbn [app] in *. exists es. split; [done|].
  assert (Hheads : forall key r, owned key -> key <> hk -> read_all (map head_put (List.filter moved (logs order))) key r = r).
  { intros key r Ho Hk. apply read_all_unwritten, List.Forall_forall. intros x (l & <- & [Hin _]%filter_In)%in_map_iff.
    apply put_skips. destruct (H1 l) as [Eh|Hu]; [by apply list_elem_of_In|congruence|]. by intros <-. }
  assert (Hek : forall p, 1 <= p <= U64_MAX -> owned (ek p) /\ ek p <> hk).
  { intros p Hp. split; [right; by exists p|by apply (ly_head Hly)]. }
  split; [done|]. split_and!.
  - intros i e Hi r. assert (Hlt := lookup_lt_Some _ _ _ Hi). rewrite read_all_app, (H5 i e Hi).
    destruct (Hek (n + 1 + Z.of_nat i)) as [Ho Hk]; [destruct H4 as [->|H4]; [done|unfold len in H4; lia]|]. by apply Hheads.
  - intros p Hp Hm r. rewrite read_all_app, (H6 p Hp Hm). destruct (Hek p ltac:(lia)) as [Ho Hk]. by apply Hheads.
  - intros r. rewrite read_all_app, H7, (heads_read _ (n + len es)).
    + destruct (existsb _ _) eqn:Ex.
      * apply existsb_exists in Ex as (l & [Hin Hmv]%filter_In & Hk%bool_decide_eq_true).
        destruct (H2 l) as [Es Ep]; [by apply list_elem_of_In|done|]. unfold moved in Hmv. destruct es; [|done].
        rewrite len_nil in Ep. rewrite Es, Ep, Z.add_0_r, Z.eqb_refl in Hmv. done.
      * destruct es as [|e es]; [done|]. exfalso. assert (Hno : forall l, l ∈ logs order -> lh_key l <> hk); [|by apply H3 in Hno].
        intros l Hl Hk. destruct (H2 l Hl Hk) as [Es Ep]. apply not_true_iff_false in Ex. apply Ex, existsb_exists. exists l.
        split; [|by apply bool_decide_eq_true]. apply filter_In. split; [by apply list_elem_of_In|]. unfold moved.
        rewrite len_cons in Ep. pose proof (len_nonneg es). rewrite (proj2 (Z.eqb_neq _ _)); [done|lia].
    + intros l Hl Hk. apply list_elem_of_In, filter_In in Hl as [Hl _]. by apply (H2 l); [apply list_elem_of_In|].
Qed.

End Number.

(** ** The log along a run *)

(** The log a reader finds: the head names its length, and each position up to it
    holds its entry. *)
Definition log_reads (read : bytes -> option bytes) (es : list bytes) : Prop :=
  holds_counter (read hk) (len es) /\ forall i e, es !! i = Some e -> read (ek (1 + Z.of_nat i)) = Some e.

Fixpoint log_chain (read : Z -> bytes -> option bytes) (b : Z) (slots : list (Work * Decision)) (es final : list bytes) : Prop :=
  log_reads (read b) es /\
  match slots with
  | [] => es = final
  | slot :: slots => exists more, more `sublist_of` requested [slot] /\ log_chain read (b + d_ops slot.2) slots (es ++ more) final
  end.

(** Nothing but appends writes the log's keys. *)
Definition own_ops (w : Work) (b : option (list WriteBatchOp)) : list WriteBatchOp :=
  match w with WTxn txn => tx_ops txn | _ => ops_of w b end.
Definition log_slot_ok (slot : Work * Decision) : Prop :=
  (forall key, owned key -> Forall (fun o => op_writes o key = false) (own_ops slot.1 (batch slot.2))) /\
  match slot.1 with WTxn txn => Forall append_ok (tx_appends txn) | WAllocate k _ _ => ~ owned k | _ => True end.

Record log_kept (p : Pipe) (es final : list bytes) : Prop := {
  lo_unmerged : forall key, owned key -> unmerged key (a_view (tip p));
  lo_pending : Forall log_slot_ok (pending p);
  lo_len : len final <= U64_MAX;
  lo_chain : log_chain (fun snap key => lookup_in_view key snap (a_view (tip p))) (visible_seq p) (pending p) es final;
}.

Lemma log_reads_ext read read' es : len es <= U64_MAX -> (forall key, owned key -> read' key = read key) ->
  log_reads read es -> log_reads read' es.
Proof.
  intros Hl He [H1 H2]. split; [rewrite He; [done|by left]|]. intros i e Hi. rewrite He; [by apply H2|].
  right. exists (1 + Z.of_nat i). split; [|done]. apply lookup_lt_Some in Hi. unfold len in Hl. lia.
Qed.

Lemma chain_len read b slots es final : log_chain read b slots es final -> len es <= len final.
Proof.
  revert b es. induction slots as [|slot slots IH]; intros b es; cbn [log_chain].
  - intros [_ ->]. lia.
  - intros (_ & more & _ & Hc). apply IH in Hc. rewrite len_app in Hc. pose proof (len_nonneg more). lia.
Qed.

Lemma log_chain_ext read read' b slots es final next : len final <= U64_MAX -> pending_from (b + 1) slots next ->
  (forall snap key, b <= snap < next -> owned key -> read' snap key = read snap key) ->
  log_chain read b slots es final -> log_chain read' b slots es final.
Proof.
  intros Hl. revert b es. induction slots as [|[w d] slots IH]; intros b es Hp He Hc; pose proof (chain_len _ _ _ _ _ Hc) as Hle;
    cbn [log_chain pending_from] in *.
  - destruct Hc as [Hr ->]. split; [|done]. eapply log_reads_ext; [lia| |exact Hr]. intros key Ho. apply He; [lia|done].
  - destruct Hp as (H0 & _ & Hp). replace (b + 1 + d_ops d) with (b + d_ops d + 1) in Hp by lia. pose proof (pending_le _ _ _ Hp).
    destruct Hc as (Hr & more & Hs & Hc). split.
    + eapply log_reads_ext; [lia| |exact Hr]. intros key Ho. apply He; [lia|done].
    + exists more. split; [done|]. apply IH; [done| |done]. intros snap key Hb Ho. apply He; [cbn in Hb; lia|done].
Qed.

Lemma log_chain_final read b slots es final base next : pending_from base slots next -> log_chain read b slots es final ->
  b + 1 = base -> log_reads (read (next - 1)) final.
Proof.
  revert b es base. induction slots as [|[w d] slots IH]; intros b es base; cbn [pending_from log_chain].
  - intros -> [Hh ->] <-. by replace (b + 1 - 1) with b by lia.
  - intros (H0 & _ & Hp) (_ & more & _ & Hc) <-. eapply IH; [exact Hp|exact Hc|]. cbn. lia.
Qed.

Lemma log_chain_snoc read b slots es final slot more base next : pending_from base slots next -> b + 1 = base ->
  more `sublist_of` requested [slot] -> log_chain read b slots es final -> log_reads (read (next - 1 + d_ops slot.2)) (final ++ more) ->
  log_chain read b (slots ++ [slot]) es (final ++ more).
Proof.
  intros Hp Hb Hs. revert b es base Hp Hb. induction slots as [|[w d] slots IH]; intros b es base; cbn [pending_from log_chain app].
  - intros -> <- [Hh ->] Hn. split; [done|]. exists more. split; [done|]. split; [|done]. by replace (b + 1 - 1) with b in Hn by lia.
  - intros (H0 & _ & Hp) <- (H1 & more' & Hs' & Hc) Hn. split; [done|]. exists more'. split; [done|]. eapply IH; [exact Hp| |exact Hc|done]. cbn. lia.
Qed.

Section Steps.
Context (Hly : layout_ok).
Context `{Target} (op : option MergeOperator) (touches : option touches_fn) (obs : Z -> Prop).

(** The log in the view a slot is decided from. *)
Lemma log_latest p es final snap : pipe_ok p -> log_kept p es final -> next_seq (tip p) - 1 <= snap ->
  log_reads (fun key => lookup_in_view key snap (a_view (tip p))) final.
Proof.
  intros Hok Hlo Hs. pose proof (log_chain_final _ _ _ _ _ _ _ (po_pending _ Hok) (lo_chain _ _ _ Hlo) eq_refl) as Hf.
  eapply log_reads_ext; [apply Hlo| |exact Hf]. intros key _. apply (lookup_above _ key (next_seq (tip p) - 1)); [apply Hok| |done|lia].
  replace (next_seq (tip p) - 1 + 1) with (next_seq (tip p)) by lia. apply Hok.
Qed.

Lemma head_held p es final : pipe_ok p -> log_kept p es final ->
  exists o, read_u64_in_view hk (a_view (tip p)) = Ok o /\ len final = default 0 o.
Proof.
  intros Hok Hlo. pose proof (po_next _ Hok). destruct (log_latest p es final U64_MAX Hok Hlo ltac:(lia)) as [Hh _].
  unfold read_u64_in_view. destruct (lookup_in_view hk U64_MAX (a_view (tip p))) as [b|]; [|exists None; done].
  destruct Hh as [Eb Ev]. rewrite Eb. cbn. by exists (Some (from_be b)).
Qed.

Lemma txn_added writable fence place txn base d added : decide_work op touches writable fence place (WTxn txn) base = Ok d ->
  batch d = Some added -> (number (a_view base) (tx_appends txn) order_default).2 = Ok added.
Proof.
  intros [(e & ->)|(_ & [(txn' & c & _ & _ & ->)|[(k & n & d0 & ? & _)|(f & b & d1 & [Ht _] & Htp & ->)]])]%decide_cases Eb; try done.
  destruct (take_place_spec _ _ _ _ _ Htp eq_refl) as (_ & Eb' & _). cbn [forgot batch] in *. rewrite Eb in Eb'. subst b.
  unfold decide_txn in Ht. destruct (_ && _ && _); [done|]. apply bind_ok in Ht as ([c x|c] & _ & Ht); [|done].
  destruct (tx_appends txn); [done|]. by apply bind_ok in Ht as (a & Ha & [= _ <-]).
Qed.

(** What a committed slot leaves of the log. *)
Lemma slot_log p es final fence place w d : pipe_ok p -> log_kept p es final ->
  decide_work op touches (writable_of p) fence place w (tip p) = Ok d -> log_slot_ok (w, d) ->
  exists more, more `sublist_of` requested [(w, d)] /\ len (final ++ more) <= U64_MAX /\ forall read : bytes -> option bytes, log_reads read final ->
    log_reads (fun key => read_all (ops_of w (batch d)) key (read key)) (final ++ more).
Proof.
  intros Hok Hlo E [Hown Hsl]. cbn [fst snd] in *.
  assert (Hplain : (forall key, owned key -> Forall (fun o => op_writes o key = false) (ops_of w (batch d))) ->
    exists more, more `sublist_of` requested [(w, d)] /\ len (final ++ more) <= U64_MAX /\ forall read : bytes -> option bytes, log_reads read final ->
      log_reads (fun key => read_all (ops_of w (batch d)) key (read key)) (final ++ more)).
  { intros Hf. exists []. rewrite app_nil_r. split; [apply sublist_nil_l|]. split; [apply Hlo|]. intros read Hr. eapply log_reads_ext; [apply Hlo| |exact Hr].
    intros key Ho. by apply read_all_unwritten, Hf. }
  destruct w as [k v dis|ops dis|txn|k n ab]; try (apply Hplain; exact Hown).
  destruct (batch d) as [added|] eqn:Eb; [|apply Hplain; exact Hown]. clear Hplain. cbn [own_ops ops_of] in *.
  assert (Hadded : (number (a_view (tip p)) (tx_appends txn) order_default).2 = Ok added) by by eapply txn_added.
  destruct (head_held p es final Hok Hlo) as (o & Ho & En).
  destruct (number_spec Hly (a_view (tip p)) (len final) o Ho En (len_nonneg _) (tx_appends txn) added Hsl Hadded)
    as (more & Hsub & Hb & Hen & Hol & Hhd).
  exists more. split; [unfold requested; cbn [map List.concat fst]; by rewrite app_nil_r|].
  split; [rewrite len_app; destruct Hb as [->|Hb]; [rewrite len_nil; pose proof (lo_len _ _ _ Hlo); lia|lia]|].
  intros read [Hh He]. assert (Hrd : forall key r, owned key -> read_all (tx_ops txn ++ added) key r = read_all added key r).
  { intros key r Hk. by rewrite read_all_app, (read_all_unwritten (tx_ops txn)) by by apply Hown. }
  split.
  - rewrite Hrd, Hhd by by left. destruct more as [|e more]; [by rewrite app_nil_r|]. rewrite <- len_app.
    split; [by rewrite len_to_be|]. apply from_to_be. pose proof (len_nonneg (final ++ e :: more)).
    destruct Hb as [|Hb]; [done|]. rewrite len_app. unfold U64_MAX in Hb. rewrite len_app in *. cbn. lia.
  - intros i e Hi. assert (Hm : 1 <= 1 + Z.of_nat i <= U64_MAX).
    { apply lookup_lt_Some in Hi. rewrite length_app in Hi. pose proof (lo_len _ _ _ Hlo). unfold len in *. destruct Hb as [->|Hb]; cbn in *; lia. }
    rewrite Hrd by (right; eauto). apply lookup_app_Some in Hi as [Hi|[Hge Hi]].
    + rewrite Hol; [by apply He|apply lookup_lt_Some in Hi; unfold len; lia|lia].
    + replace (1 + Z.of_nat i) with (len final + 1 + Z.of_nat (i - length final)) by (unfold len; lia). by apply Hen.
Qed.

Lemma slot_plain p fence place w d key : decide_work op touches (writable_of p) fence place w (tip p) = Ok d -> log_slot_ok (w, d) ->
  owned key -> Forall (fun o => match o with OpMerge k _ => k <> key | _ => True end) (ops_of w (batch d)).
Proof.
  intros E [Hown _] Ho. cbn [fst snd] in Hown. specialize (Hown key Ho).
  assert (Hf : forall ops, Forall (fun o => op_writes o key = false) ops ->
    Forall (fun o => match o with OpMerge k _ => k <> key | _ => True end) ops).
  { intros ops Hops. eapply List.Forall_impl; [|exact Hops]. intros o Hw. destruct o as [| | |k v]; try done. intros ->.
    cbn [op_writes] in Hw. by destruct (bytes_eqb_spec key key). }
  destruct w as [k v dis|ops dis|txn|k n ab]; try by apply Hf. destruct (batch d) as [added|] eqn:Eb; [|by apply Hf].
  cbn [ops_of]. apply Forall_app. split; [by apply Hf|]. eapply List.Forall_impl; [|eapply number_puts, txn_added; [exact E|exact Eb]].
  by intros [].
Qed.

Lemma log_slot p es final fence place w d : pipe_ok p -> log_kept p es final ->
  decide_work op touches (writable_of p) fence place w (tip p) = Ok d -> Forall op_ok (ops_of w (batch d)) ->
  next_seq (after d) <= U64_MAX -> log_slot_ok (w, d) ->
  exists more, log_kept (mkPipe (settle_slot w d) (pending p ++ [(w, d)]) (visible_seq p) (latched p)) es (final ++ more).
Proof.
  intros Hok Hlo E Ho Hm Hsl. destruct (slot_log p es final fence place w d Hok Hlo E Hsl) as (more & Hsub & Hlen & Hre).
  pose proof (decide_decided _ _ _ _ _ _ _ _ E) as [_ En H0 Hd]. pose proof (po_pending _ Hok) as Hp.
  assert (Hpend : Forall log_slot_ok (pending p ++ [(w, d)])) by (apply Forall_app; split; [apply Hlo|constructor; [done|constructor]]).
  destruct (commits d) eqn:Ec.
  - exists more. pose proof (slot_landed _ _ _ _ _ _ _ Hok E Ho Hm Ec) as Hl. destruct (Hd eq_refl) as [_ El].
    split; cbn [tip visible_seq pending]; [|done|done|].
    + intros key Hk. apply (ln_unmerged _ _ _ _ Hl); [by apply Hlo|]. by eapply slot_plain.
    + eapply log_chain_snoc; [exact Hp|done|exact Hsub| |].
      * eapply log_chain_ext; [apply Hlo|exact Hp| |apply Hlo]. intros snap key Hs _. rewrite (ln_lookup _ _ _ _ Hl).
        apply read_after_below. lia.
      * eapply log_reads_ext; [done| |apply Hre, (log_latest p es final (next_seq (tip p) - 1 + d_ops d) Hok Hlo); lia].
        intros key _. cbn beta. rewrite (ln_lookup _ _ _ _ Hl). apply read_after_all. cbn [snd]. lia.
  - exists []. rewrite app_nil_r. assert (Ez : d_ops d = 0) by (unfold commits in Ec; apply Z.ltb_ge in Ec; lia).
    split; cbn [tip visible_seq pending]; rewrite ?(slot_idle _ _ _ _ _ _ _ _ E Ec); [apply Hlo|done|apply Hlo|].
    rewrite <- (app_nil_r final). eapply log_chain_snoc; [exact Hp|done|apply sublist_nil_l|apply Hlo|]. cbn [snd]. rewrite Ez, Z.add_0_r, app_nil_r.
    exact (log_chain_final _ _ _ _ _ _ _ Hp (lo_chain _ _ _ Hlo) eq_refl).
Qed.

Lemma log_publish p es final : pipe_ok p -> log_kept p es final -> exists more done, log_kept (publish p) (es ++ more) final /\
  pending p = done ++ pending (publish p) /\ more `sublist_of` requested done.
Proof.
  intros Hok [Hu Hpe Hl Hc]. pose proof (po_pending _ Hok) as Hp. unfold publish. destruct (pending p) as [|[w d] rest] eqn:Ep.
  { exists [], []. rewrite app_nil_r. split_and!; [split; rewrite ?Ep; done|done|apply sublist_nil_l]. }
  cbn [log_chain pending_from snd] in *. destruct Hc as (_ & more & Hs & Hc). destruct Hp as (H0 & H1 & _). inversion Hpe; subst.
  exists more, [(w, d)]. split; [|done]. split; cbn [tip visible_seq pending]; try done. unfold last_of. destruct (commits d) eqn:Ec.
  - rewrite (H1 eq_refl). by replace (visible_seq p + 1 + d_ops d - 1) with (visible_seq p + d_ops d) by lia.
  - unfold commits in Ec. apply Z.ltb_ge in Ec. by replace (visible_seq p + d_ops d) with (visible_seq p) in Hc by lia.
Qed.

Lemma log_freeze p es final : pipe_ok p -> log_kept p es final -> log_kept (with_tip p (freeze (tip p))) es final.
Proof.
  intros Hok [Hu Hpe Hl Hc]. split; cbn [with_tip tip freeze a_view visible_seq pending]; try done.
  - intros key Ho. by apply frozen_unmerged, Hu.
  - eapply log_chain_ext; [done|apply Hok| |exact Hc]. intros snap key _ _. apply frozen_lookup, Hok.
Qed.

Lemma log_move p es final v' : pipe_ok p -> log_kept p es final -> moves obs (visible_seq p) (a_view (tip p)) v' ->
  log_kept (with_tip p (mkAfter v' (next_seq (tip p)) (counters (tip p)) (closed (tip p)))) es final.
Proof.
  intros Hok [Hu Hpe Hl Hc] Hm. split; cbn [with_tip tip a_view visible_seq pending]; try done.
  - intros key Ho. by apply (mv_unmerged _ _ _ _ Hm), Hu.
  - eapply log_chain_ext; [done|apply Hok| |exact Hc]. intros snap key Hs Ho. apply (mv_reads _ _ _ _ Hm); [lia|by apply Hu].
Qed.

Lemma note_keys k u last c : In c (note_last k u last) -> c.1 = k \/ exists w, In (c.1, w) last.
Proof.
  induction last as [|[k0 u0] last IH]; cbn [note_last]; [intros [<-|[]]; by left|].
  destruct (bytes_eqb_spec k0 k) as [->|Hk]; intros [<-|Hin]; cbn [fst].
  - by left.
  - right. exists c.2. right. by destruct c.
  - right. exists u0. by left.
  - destruct (IH Hin) as [|[w Hw]]; [by left|right; exists w; by right].
Qed.

Lemma noted_unowned slots acc : Forall log_slot_ok slots -> (forall c, In c acc -> ~ owned c.1) ->
  forall c, In c (fold_left note_reserved slots acc) -> ~ owned c.1.
Proof.
  intros Hf. revert acc. induction Hf as [|[w d] slots Hs _ IH]; intros acc Ha; cbn [fold_left]; [done|]. apply IH.
  unfold note_reserved. cbn [fst snd]. destruct w as [| | |k n ab]; try done. destruct (verdict d); try done.
  destruct (_ <=? _); [done|]. intros c [->|[w Hw]]%note_keys; [apply Hs|by apply (Ha (c.1, w))].
Qed.

Lemma log_roll_back place cut_done p es final p' : pipe_ok p -> log_kept p es final -> roll_back place cut_done p = p' ->
  next_seq (tip p') <= U64_MAX -> log_kept p' es es.
Proof.
  intros Hok [Hu Hpe Hl Hc] E Hm. destruct (roll_back_cases place cut_done p p' Hok E) as (fresh & Hb & Hcases).
  pose proof (chain_len _ _ _ _ _ Hc) as Hle. pose proof (noted_unowned (pending p) [] Hpe ltac:(by intros c [])) as Hno.
  fold (last_reserved (pending p)) in Hno.
  assert (Hes : log_reads (fun key => lookup_in_view key (visible_seq p) (a_view (tip p))) es) by by destruct (pending p), Hc.
  assert (Hcut : forall key snap, visible_seq p <= snap -> lookup_in_view key snap (a_view (cut_after p fresh)) = lookup_in_view key (visible_seq p) (a_view (tip p))).
  { intros key snap Hs. cbn [cut_after a_view]. rewrite (rebuilt_lookup _ _ _ (po_view _ Hok) (po_quiet _ Hok) Hb (po_settled _ Hok)).
    by rewrite Z.min_r. }
  assert (Hu' : forall key, owned key -> unmerged key (a_view (cut_after p fresh))) by (intros key Ho; by apply (rebuilt_unmerged _ _ _ Hb), Hu).
  assert (Hplain : forall l, log_kept (mkPipe (cut_after p fresh) [] (visible_seq p) l) es es).
  { intros l. split; cbn [tip visible_seq pending log_chain]; [done|constructor|lia|]. split; [|done].
    eapply log_reads_ext; [lia| |exact Hes]. intros key _. by rewrite Hcut. }
  destruct Hcases as [[_ ->]|[->|[_ ->]]]; [apply Hplain..|]. set (last := last_reserved (pending p)) in *.
  destruct (keep_counters last (back_after (cut_after p fresh) last)) as (Ev & En & _). cbn [tip] in Hm. rewrite En in Hm.
  pose proof (back_landed p fresh last false (cut_ok p fresh Hok Hb false) Hm) as Hland. pose proof (len_nonneg last).
  assert (Hun : forall key, owned key -> Forall (fun o => op_writes o key = false) (map counter_put last)).
  { intros key Ho. apply List.Forall_forall. intros o (c & <- & Hin)%in_map_iff. apply unowned_put; [by apply Hno|done]. }
  split; cbn [tip visible_seq pending log_chain]; rewrite ?Ev; [|constructor|lia|split; [|done]].
  - intros key Ho. apply (ln_unmerged _ _ _ _ Hland); [by apply Hu'|]. apply List.Forall_forall. by intros o (c & <- & _)%in_map_iff.
  - eapply log_reads_ext; [lia| |exact Hes]. intros key Ho. rewrite (ln_lookup _ _ _ _ Hland), Hcut by lia.
    rewrite read_after_all by (rewrite len_map; lia). by apply read_all_unwritten, Hun.
Qed.

(** Along a run the log grew by entries asked of it in slots since published. *)
Definition grown (p : Pipe) (evs : list (Work * Decision)) (es : list bytes) : Prop :=
  exists more final settled, log_kept p (es ++ more) final /\ evs = settled ++ pending p /\ more `sublist_of` requested settled.

Lemma log_step p1 slot p2 evs es : pipe_ok p1 -> grown p1 evs es -> step op touches obs p1 slot p2 ->
  Forall log_slot_ok (match slot with Some s => [s] | None => [] end) ->
  grown p2 (evs ++ match slot with Some s => [s] | None => [] end) es.
Proof.
  intros Hok (more & final & settled & Hlo & -> & Hsub) Hs Hf.
  destruct Hs as [fence place w d E Hw Ho Hm| |Ep|v' Hmv|place cut_done p2 E Hm|]; rewrite ?app_nil_r.
  - inversion Hf as [|? ? Hsl _]; subst. destruct (log_slot _ _ _ _ _ _ _ Hok Hlo E Ho Hm Hsl) as [more' Hlo2].
    exists more, (final ++ more'), settled. by rewrite <- app_assoc.
  - destruct (log_publish _ _ _ Hok Hlo) as (more' & slots & Hlo2 & Ep & Hs'). rewrite <- app_assoc in Hlo2.
    exists (more ++ more'), final, (settled ++ slots). rewrite <- app_assoc, <- Ep, requested_app.
    split; [done|]. split; [done|by apply sublist_app].
  - exists more, final, settled. split; [by apply log_freeze|done].
  - exists more, final, settled. split; [by apply log_move|done].
  - assert (Ee : pending p2 = []).
    { by destruct (roll_back_cases place cut_done p1 p2 Hok E) as (fresh & _ & [[_ ->]|[->|[_ ->]]]). }
    exists more, (es ++ more), (settled ++ pending p1). rewrite Ee, app_nil_r. split; [by eapply log_roll_back|].
    split; [done|]. rewrite requested_app. by apply sublist_inserts_r.
  - exists more, final, settled. split; [by destruct Hlo|done].
Qed.

Lemma log_run p evs p' es : pipe_ok p -> grown p [] es -> run op touches obs p evs p' -> Forall log_slot_ok evs ->
  pipe_ok p' /\ grown p' evs es.
Proof.
  intros Hok Hlo Hr. induction Hr as [|slot evs p1 p2 _ IH Hs]; intros Hf; [done|].
  apply Forall_app in Hf as [Hf1 Hf2]. destruct (IH Hf1) as (Hok1 & Hlo1). split; [by eapply step_ok|]. by eapply log_step.
Qed.

End Steps.

End Log.

(** ** The theorem *)

(** C8: A commit-ordered log has no holes and is never renumbered. Let a layout
    keep its contract (its entry keys differ from each other and from its head
    key) and let nothing but appends write its keys. From a state with nothing
    unpublished in which a reader at the published horizon finds the entries
    [es] (the head names their number, each position up to it holds its entry),
    through any run of commits, publications, sealed memtables, installed tables
    and log failures with their rollbacks, a reader at the horizon of the state
    it ends in finds those entries at the same positions, and after them, one a
    position, entries the run's transactions appended, in the order the
    transactions committed. *)
Theorem published_log_only_grows `{Target} op touches obs L p evs p' es : layout_ok L -> pipe_ok p -> pending p = [] ->
  (forall key, owned L key -> unmerged key (a_view (tip p))) ->
  log_reads L (fun key => lookup_in_view key (visible_seq p) (a_view (tip p))) es ->
  run op touches obs p evs p' -> Forall (log_slot_ok L) evs ->
  exists more, more `sublist_of` requested L evs /\
    log_reads L (fun key => lookup_in_view key (visible_seq p') (a_view (tip p'))) (es ++ more).
Proof.
  intros Hly Hok Ep Hu Hr Hrun Hf. assert (Hlo : log_kept L p es es).
  { split; rewrite ?Ep; [done|constructor| |by split]. destruct Hr as [Hh _].
    destruct (lookup_in_view (hk L) _ _) as [b|]; [|cbn in Hh; rewrite Hh; unfold U64_MAX; lia].
    destruct Hh as [Eb <-]. pose proof (from_be_range b 8 Eb). unfold U64_MAX. cbn in *. lia. }
  destruct (log_run L Hly op touches obs p evs p' es) as (_ & more & final & slots & [_ _ _ Hc] & -> & Hs); [done| |done..|].
  { exists [], es, []. rewrite app_nil_r, Ep. split; [done|]. split; [done|apply sublist_nil_l]. }
  exists more. split; [rewrite requested_app; by apply sublist_inserts_r|]. by destruct (pending p'), Hc.
Qed.

(** ** A run *)

(** A layout with a head and entries behind a prefix each. *)
Definition audit : LogLayout := mkLayout (str "h") (fun p => str "e" ++ to_be 8 p) 9.

Lemma audit_ok : layout_ok audit.
Proof.
  split; unfold ek, hk, prefix_key; cbn [head_key entry_key audit].
  - intros p Hp E%app_inv_head. discriminate E.
  - intros p q Hp Hq E%app_inv_head%app_inv_head. unfold U64_MAX in *.
    rewrite <- (from_to_be 8 p), <- (from_to_be 8 q) by (cbn; lia). by rewrite E.
Qed.

Lemma audit_unowned k : (forall rest, k <> str "e" ++ rest) -> k <> str "h" -> ~ owned audit (prefix_key DEFAULT_CF_ID k).
Proof. intros He Hh [E|(p & _ & E)]; unfold hk, ek, prefix_key in E; apply app_inv_head in E; [done|exact (He _ E)]. Qed.

Lemma audit_foreign key : owned audit key -> exists rest, key = Byte.x00 :: rest.
Proof. intros [->|(p & _ & ->)]; unfold hk, ek, prefix_key; eexists; change (to_be 4 DEFAULT_CF_ID) with [Byte.x00; Byte.x00; Byte.x00; Byte.x01]; reflexivity. Qed.

(** One transaction appends two entries, the second under a once key; a second
    one appends under the same once key, which is skipped, and one more entry. *)
Definition once_key : bytes := Eval vm_compute in str "o".
Definition no_checks : ValidationSet := mkSet [] None false [] [].
Definition append_txn (aps : list PendingAppend) : Work := WTxn (mkTxn no_checks [] aps (mkEarly 12 [])).
Definition first_append : Work := append_txn [mkAppend audit (str "a") None; mkAppend audit (str "b") (Some once_key)].
Definition second_append : Work := append_txn [mkAppend audit (str "b") (Some once_key); mkAppend audit (str "c") None].
Definition appended_pipe : Pipe := publish (slotted first_pipe first_append).
Definition reappended_pipe : Pipe := publish (slotted appended_pipe second_append).
Definition append_slots : list (Work * Decision) :=
  [(first_append, sample_decided first_pipe first_append); (second_append, sample_decided appended_pipe second_append)].

Lemma append_runs : sample_run first_pipe append_slots reappended_pipe.
Proof.
  apply run_publish. apply (run_slot _ [_]); [|computed|done|computed|computed].
  apply run_publish. apply (run_slot _ []); [apply RunDone|computed|done|computed|computed].
Qed.

Lemma append_slots_ok : Forall (log_slot_ok audit) append_slots.
Proof.
  assert (Hon : forall once, Some once_key = Some once -> ~ owned audit (prefix_key DEFAULT_CF_ID once)).
  { intros once [= <-]. apply audit_unowned; [intros rest E; discriminate E|done]. }
  constructor; [|constructor; [|constructor]]; (split; [intros key _; constructor|]); cbn [fst append_txn first_append second_append tx_appends];
    (constructor; [|constructor; [|constructor]]); (split; [by left|]); try done; exact Hon.
Qed.

Lemma published_log_only_grows_witness :
  requested audit append_slots = [str "a"; str "b"; str "b"; str "c"] /\
  log_reads audit (fun key => lookup_in_view key (visible_seq reappended_pipe) (a_view (tip reappended_pipe))) [str "a"; str "b"; str "c"] /\
  exists more, more `sublist_of` requested audit append_slots /\
    log_reads audit (fun key => lookup_in_view key (visible_seq reappended_pipe) (a_view (tip reappended_pipe))) ([] ++ more).
Proof.
  split; [computed|]. split.
  { split.
    { assert (E : lookup_in_view (hk audit) (visible_seq reappended_pipe) (a_view (tip reappended_pipe)) = Some (to_be 8 3)) by computed.
      rewrite E. by split. }
    intros i e Hi. destruct i as [|[|[|i]]]; cbn in Hi; try injection Hi as <-; try done; computed. }
  apply (published_log_only_grows (H := target64) (Some fields_operator) (Some fields_touches) (eq 6) audit first_pipe append_slots
    reappended_pipe [] audit_ok first_pipe_ok ltac:(done)); [| |exact append_runs|exact append_slots_ok].
  - intros key Ho. apply audit_foreign in Ho as [rest ->]. intros s e Hs He Ek. apply not_true_is_false. intros Hm.
    assert (Hf : forallb (fun s => forallb (fun e => negb (is_merge (e_type e)) || match e_key e with Byte.x00 :: _ => false | _ => true end)
      (s_entries s)) (all_sources row_view) = true) by computed.
    rewrite forallb_forall in Hf. specialize (Hf s (proj1 (list_elem_of_In _ _) Hs)). rewrite forallb_forall in Hf.
    specialize (Hf e (proj1 (list_elem_of_In _ _) He)). rewrite Hm, Ek in Hf. discriminate Hf.
  - assert (E : lookup_in_view (hk audit) (visible_seq first_pipe) (a_view (tip first_pipe)) = None) by computed.
    split; [by rewrite E|done].
Defined.
