(* ===== verification/CommitVerdicts.v ===== *)
(** * Every slot decides, every rollback ends

    Deciding a slot and rolling back a failed log as total functions of the state
    (CommitSlots.v).

    Shown here: whatever a slot asks, and whatever its fence, its log and the
    caller's merge operator answer, it gets a verdict, and one that refuses or
    conflicts leaves the state as it was; and a rollback from a well-formed state
    ends in one that reads as the published state did, with the discarded
    reservations written over it. *)

From stdpp Require Import sets sorting.
From S2P Require Import Bloom.
From S2P Require Import Prelude Order InternalKey RangeTombstone TombstoneLog WalCodec Manifest Version ReadPath CommitWalk CommitCheck CommitSlots CommitRuns CommitAppends.

(** ** Answers *)

(** A result or an error. *)
Definition answers {A} (r : outcome A) : Prop := match r with Ok _ | Err _ => True | _ => False end.

Lemma answers_bind {A B} (r : outcome A) (f : A -> outcome B) : answers r -> (forall a, answers (f a)) -> answers (x ← r; f x).
Proof. intros Hr Hf. by destruct r; [apply Hf|..]. Qed.

(** A loop that leaves only with answers does so. *)
Lemma each_answers {A S B} (f : nat -> A -> S -> outcome B + S) at_ items st :
  (forall i x s r, f i x s = inl r -> answers r) -> forall r, each f at_ items st = inl r -> answers r.
Proof.
  intros Hf. revert at_ st. induction items as [|x items IH]; intros at_ st r; cbn [each]; [done|].
  destruct (f at_ x st) as [r'|s] eqn:E; [intros [= <-]; by eapply Hf|apply IH].
Qed.

(** ** The checks *)

Section Checks.
Context (op : option MergeOperator) (touches : option touches_fn).

Lemma read_answers key snap view : answers (lookup_loaded op key snap view).
Proof.
  destruct op as [M|]; [|done]. cbn [lookup_loaded]. unfold get_with_merge. destruct (_ && _); [done|].
  destruct (match list.last _ with Some v => _ | None => _ end) as [base has]. destruct (rev _); [done|].
  apply answers_bind; [|done]. unfold apply_merge. by destruct (full_merge _ _ _).
Qed.

Lemma changed_answers check latest old ceil view : answers (value_changed op check latest old ceil view).
Proof.
  unfold value_changed. apply answers_bind; [|done]. destruct latest.2; try done. apply answers_bind; [apply read_answers|done].
Qed.

Lemma rule_answers check latest ceil view : answers (read_changed op touches check latest ceil view).
Proof.
  unfold read_changed. destruct (presence_only check); [done|]. destruct (ck_rule check) as [| |parts]; [done|..].
  - apply answers_bind; [|intros old; apply changed_answers]. destruct latest.2; try apply read_answers. done.
  - apply answers_bind; [apply read_answers|]. intros [v|]; [done|apply changed_answers].
Qed.

Lemma validate_answers checks ops early view ceiling : answers (validate op touches checks ops early view ceiling).
Proof.
  unfold validate. destruct (each _ 0 (vs_reads checks) ()) as [r|u] eqn:E.
  { eapply each_answers; [|exact E]. intros i x s r' Hr. unfold validate_read in Hr. destruct (negb _); [done|].
    destruct (above _ _); [|done]. pose proof (rule_answers x p U64_MAX view) as Ha.
    destruct (read_changed _ _ x p U64_MAX view) as [[[q k]|]| | |]; try done; by injection Hr as <-. }
  clear E. destruct (each _ _ (vs_ranges checks) ()) as [r|u'] eqn:E.
  { eapply each_answers; [|exact E]. intros i x s r' Hr. unfold validate_range in Hr.
    destruct (bool_decide _); [|destruct (nothing_above _ _); [done|]];
      destruct (written_in_range_of _ _ _ _ _ _) as [[[k q] t]|]; try done; by injection Hr as <-. }
  clear E. destruct (writes_at checks) as [observed|]; [|done].
  destruct (each _ _ ops _) as [r|[[m c] el]] eqn:E; [|done].
  eapply each_answers; [|exact E]. intros i o [[m c] el] r' Hr. unfold validate_write in Hr.
  destruct (written_key m o) as [m' [[key mine]|]]; [|done]. destruct (is_exempt checks key).
  - destruct o; try done. destruct (_ && _ && _); [by injection Hr as <-|done].
  - destruct (read_stands_for checks key); [done|]. destruct (negb _); [done|].
    destruct (check_write _ _ _ _ _ _); try done. by injection Hr as <-.
Qed.

End Checks.

(** ** The appends *)

Lemma held_answers key view : answers (read_u64_in_view key view).
Proof. unfold read_u64_in_view. destruct (lookup_in_view _ _ _); [|done]. by destruct (_ =? _). Qed.

Lemma append_answers view ap order : answers (number_append view ap order).2.
Proof.
  unfold number_append. set (once := prefix_key DEFAULT_CF_ID <$> ap_once ap).
  assert (Ho : answers (match once with Some k => holds_position view k order | None => Ok (false, order) end)).
  { destruct once as [k|]; [|done]. unfold holds_position. destruct (is_taken order k); [done|]. apply answers_bind; [apply held_answers|done]. }
  destruct (match once with Some k => _ | None => _ end) as [[[] order1]|e| |]; try done.
  assert (Hh : answers (head_of view (ap_log ap) order1) /\
    forall at_ order2, head_of view (ap_log ap) order1 = Ok (at_, order2) -> is_Some (logs order2 !! at_)).
  { unfold head_of. pose proof (log_position_spec (prefix_key DEFAULT_CF_ID (head_key (ap_log ap))) (logs order1)) as Hp.
    destruct (log_position _ _) as [i|].
    - destruct Hp as (l & Hl & _). split; [done|]. intros at_ order2 [= <- <-]. by exists l.
    - split; [apply answers_bind; [apply held_answers|done]|]. intros at_ order2 E. apply bind_ok in E as (held & _ & [= <- <-]).
      cbn [logs]. rewrite lookup_app_r, Nat.sub_diag by done. by eexists. }
  destruct Hh as [Ha Hl]. destruct (head_of _ _ _) as [[at_ order2]|e| |]; try done. destruct (Hl _ _ eq_refl) as [l ->].
  destruct (_ <=? _); [done|]. by destruct (_ <? _).
Qed.

Lemma number_answers view aps order : answers (number view aps order).2.
Proof.
  assert (H : forall ops, answers (number_appends view aps order ops).2).
  { revert order. induction aps as [|ap aps IH]; intros order ops; cbn [number_appends]; [done|].
    pose proof (append_answers view ap order) as Ha. destruct (number_append view ap order) as [order' [puts|e| |]]; done. }
  unfold number. specialize (H []). by destruct (number_appends view aps order []) as [order' [ops|e| |]].
Qed.

(** ** The verdict *)

Section Verdict.
Context `{Target} (op : option MergeOperator) (touches : option touches_fn).
Context (writable : outcome unit) (fence : Work -> outcome unit) (place : Z -> outcome unit).
Context (Hwritable : answers writable) (Hfence : forall w, answers (fence w)) (Hplace : forall n, answers (place n)).

Lemma place_answers w d logged : answers (take_place place w d logged).
Proof.
  unfold take_place. destruct (_ =? _); [done|]. apply answers_bind; [|done]. destruct logged; [|done].
  apply answers_bind; [|intros; apply Hplace]. unfold check_write_len, check_record_len. by case_match.
Qed.

Lemma txn_answers txn base : answers (decide_txn op touches txn base).
Proof.
  unfold decide_txn. destruct (_ && _ && _); [done|]. apply answers_bind; [apply validate_answers|]. intros [c e|c]; [|done].
  destruct (tx_appends txn) eqn:Ea; [done|]. apply answers_bind; [apply number_answers|done].
Qed.

Lemma allocation_answers key n base d : answers (decide_allocation key n base d).
Proof.
  unfold decide_allocation. apply answers_bind.
  - destruct (counter_get _ _); [done|]. apply answers_bind; [apply held_answers|done].
  - intros last. destruct (n =? 0); [done|]. by destruct (_ || _).
Qed.

Lemma decide_answers w base : exists d, decide_work op touches writable fence place w base = Ok d.
Proof.
  unfold decide_work. set (r := if closed base then _ else _). assert (Hr : answers r); [|destruct r; try done; cbn [or_refuse]; eauto].
  subst r. destruct (closed base); [done|]. apply answers_bind; [done|]. intros _.
  assert (Hland : forall w d, answers (land_request place w d)).
  { intros w' d. unfold land_request. destruct (verdict d); try (apply answers_bind; [apply place_answers|done]). done. }
  destruct w as [k v dis|ops dis|txn|key n ab].
  1,2: apply answers_bind; [apply Hfence|]; intros _; apply Hland.
  - apply answers_bind; [apply Hfence|]. intros _. apply answers_bind; [|intros; apply Hland].
    apply answers_bind; [apply txn_answers|]. by intros [f b].
  - destruct ab; [done|]. apply answers_bind; [apply Hfence|]. intros _. apply answers_bind; [apply allocation_answers|].
    intros; apply place_answers.
Qed.

End Verdict.

(** ** The theorems *)

(** C14: Every slot gets a verdict, and one that lands nothing changes nothing. Let
    the latch, the fence and the log answer, with a refusal or not; then whatever
    is asked (a put, a batch, a transaction with its checks and appends, a
    reservation), from whatever state, the slot is decided. Refused (an error of
    any of them, of the merge operator, of a counter or a log head that is not a
    number, a spent counter, a write too large, a closed database) or in conflict,
    it leaves the state as it was; otherwise it takes the next sequences, one for
    each operation, and no others. *)
Theorem every_slot_gets_a_verdict `{Target} op touches writable fence place w base : answers writable ->
  (forall w, answers (fence w)) -> (forall n, answers (place n)) ->
  exists d, decide_work op touches writable fence place w base = Ok d /\
  match verdict d with
  | FRefused _ | FConflict _ => settle_slot w d = base
  | _ => d_ops d = len (ops_of w (batch d)) /\ next_seq (after d) = next_seq base + d_ops d /\
         (commits d = true -> base_seq d = next_seq base)
  end.
Proof.
  intros Hw Hf Hp. destruct (decide_answers op touches writable fence place Hw Hf Hp w base) as [d E]. exists d. split; [done|].
  apply decide_cases in E as [(e & ->)|(_ & [(txn & c & -> & _ & ->)|[(key & n & d0 & -> & H0 & H1)|(f & b & d1 & Hfb & H1 & ->)]])]; try done.
  - destruct (allocation_spec _ _ _ _ H0) as (last & _ & Hz & _ & Hn & Hv). destruct (take_place_spec _ _ _ _ _ H1 Hz) as (Ev & Eb & _ & _ & En & Eo & Ec).
    rewrite Eb. rewrite Hn in *. assert (Hd : d_ops d = len (ops_of (WAllocate key n false) (batch d0)) /\ next_seq (after d) = next_seq base + d_ops d /\
      (commits d = true -> base_seq d = next_seq base)) by done.
    unfold decide_allocation in H0. apply bind_ok in H0 as (l & _ & H0). rewrite Ev.
    destruct (n =? 0); [by injection H0 as <-|]. destruct (_ || _); [done|]. by injection H0 as <-.
  - destruct (take_place_spec _ _ _ _ _ H1 eq_refl) as (Ev & Eb & _ & _ & En & Eo & Ec).
    cbn [forgot verdict d_ops batch after next_seq base_seq] in *. rewrite Ev, Eb.
    assert (Hd : d_ops d1 = len (ops_of w b) /\ next_seq (after d1) = next_seq base + d_ops d1 /\ (commits d1 = true -> base_seq d1 = next_seq base)) by done.
    destruct w; try done; [by destruct Hfb as [-> ->]..|]. by destruct Hfb as (_ & c & e & ->).
Qed.

(** C13: A rollback ends, and reads after it are those of the published state with
    the discarded reservations written over it. From a well-formed state the
    rollback of a failed log, whatever the log answers the cut and the record of
    its own, leaves nothing unpublished; the horizon moves past what it wrote back and
    nothing else; and a reader of any key at any sequence finds what the state
    before the rollback held for it at or below the published horizon, or the
    counter value written back since. The rollback that cannot write reservations
    back leaves the database latched. *)
Theorem rollback_keeps_the_published `{Target} place cut_done p : pipe_ok p ->
  let p' := roll_back place cut_done p in
  pending p' = [] /\
  let back := if latched p' then [] else last_reserved (pending p) in
  visible_seq p' = visible_seq p + len back /\ next_seq (tip p') = visible_seq p' + 1 /\
  (visible_seq p' < U64_MAX -> forall key snap,
   lookup_in_view key snap (a_view (tip p')) =
   read_after (map counter_put back) (visible_seq p + 1) key snap (lookup_in_view key (Z.min snap (visible_seq p)) (a_view (tip p)))).
Proof.
  intros Hok. cbv zeta. remember (roll_back place cut_done p) as p' eqn:E. symmetry in E.
  destruct (roll_back_cases place cut_done p p' Hok E) as (fresh & Hb & Hcases). set (last := last_reserved (pending p)) in *.
  assert (Hcut : forall key snap, lookup_in_view key snap (a_view (cut_after p fresh)) = lookup_in_view key (Z.min snap (visible_seq p)) (a_view (tip p))).
  { intros key snap. apply (rebuilt_lookup _ _ _ (po_view _ Hok) (po_quiet _ Hok) Hb (po_settled _ Hok)). }
  assert (Hplain : forall l, l = true \/ last = [] -> let back := if l : bool then [] else last in back = []) by by intros [] [|].
  destruct Hcases as [[Hl ->]|[->|[Hl ->]]]; cbn [pending latched visible_seq tip].
  - rewrite (Hplain (latched p)) by (destruct Hl; auto). split; [done|]. rewrite len_nil. split; [lia|]. split; [done|]. intros _. apply Hcut.
  - split; [done|]. rewrite len_nil. split; [lia|]. split; [done|]. intros _. apply Hcut.
  - destruct (keep_counters last (back_after (cut_after p fresh) last)) as (Ev & En & _). split; [done|]. split; [done|].
    rewrite En. split; [cbn; lia|]. intros Hm key snap. rewrite Ev.
    rewrite (ln_lookup _ _ _ _ (back_landed p fresh last false (cut_ok p fresh Hok Hb false) ltac:(lia))). by rewrite Hcut.
Qed.

(** ** Instances *)

(** A log that is full refuses the reservation. *)
Definition full_log (n : Z) : outcome unit := Err (mkError OtherError "no space" []).

Lemma every_slot_gets_a_verdict_witness :
  exists d, decide_work (H := target64) (Some fields_operator) (Some fields_touches) (Ok ()) (fun _ => Ok ()) full_log first_take (tip first_pipe) = Ok d /\
  verdict d = FRefused (mkError OtherError "no space" []) /\ settle_slot first_take d = tip first_pipe.
Proof.
  destruct (every_slot_gets_a_verdict (H := target64) (Some fields_operator) (Some fields_touches) (Ok ()) (fun _ => Ok ()) full_log
    first_take (tip first_pipe) I (fun _ => I) (fun _ => I)) as (d & E & Hd).
  exists d. split; [exact E|]. assert (Ev : verdict d = FRefused (mkError OtherError "no space" [])).
  { assert (E' : decide_work (H := target64) (Some fields_operator) (Some fields_touches) (Ok ()) (fun _ => Ok ()) full_log first_take (tip first_pipe)
      = Ok (decision_new (FRefused (mkError OtherError "no space" [])) (tip first_pipe))) by computed.
    rewrite E' in E. by injection E as <-. }
  split; [exact Ev|]. by rewrite Ev in Hd.
Defined.

Lemma rollback_keeps_the_published_witness :
  latched cut_pipe = false /\ visible_seq cut_pipe = 13 /\ lookup_in_view count_key 13 (a_view (tip cut_pipe)) = Some (to_be 8 3).
Proof.
  assert (Hok : pipe_ok (slotted first_pipe first_take)).
  { apply (run_ok (H := target64) (Some fields_operator) (Some fields_touches) (eq 6) first_pipe [(first_take, sample_decided first_pipe first_take)] _ first_pipe_ok).
    apply (run_slot _ []); [apply RunDone|computed|done|computed|computed]. }
  destruct (rollback_keeps_the_published (H := target64) (fun _ => Ok ()) (Ok ()) (slotted first_pipe first_take) Hok) as (_ & Hv & _ & Hr).
  change (roll_back (fun _ => Ok ()) (Ok ()) (slotted first_pipe first_take)) with cut_pipe in Hv, Hr.
  assert (El : latched cut_pipe = false) by computed. split; [exact El|]. rewrite El in Hv, Hr.
  change (visible_seq (slotted first_pipe first_take)) with 12 in Hv, Hr.
  assert (Ek : last_reserved (pending (slotted first_pipe first_take)) = [(count_key, 3)]) by computed. rewrite Ek in Hv, Hr.
  rewrite Hv. split; [computed|]. rewrite Hr; [computed|]. rewrite Hv, len_cons, len_nil. unfold U64_MAX. lia.
Defined.
