(* ===== verification/Stripes.v ===== *)
(** * What a compaction keeps of a key

    Models [src/src/engine/compaction/stripes.rs] (the snapshot stripes that a
    compaction reduces a key's versions in), [src/src/engine/compaction/retire.rs]
    (the tombstones it drops) and the filter calls of
    [src/src/engine/filter_call.rs]. An entry is its user key, sequence, type and
    value (encoded in InternalKey.v); the operator and the filter are the
    caller's.

    Shown here: with no filter, and an operator that keeps its documented laws, no reader at a live snapshot or past every input sees a
    difference between a key's versions and what is kept of them, with whatever
    is above and below them in the tree. *)

From stdpp Require Import sets sorting.
From S2P Require Import Prelude Order InternalKey Bloom RangeTombstone TombstoneLog Manifest Version ReadPath.

(** ** The caller's filter *)

Inductive CompactionDecision := Keep | Remove | Change (value : bytes).

Class CompactionFilter := {
  cf_filter : Z -> bytes -> bytes -> CompactionDecision;
  cf_filter_range_delete : Z -> bytes -> bytes -> CompactionDecision;
}.

Definition family_of (prefixed : bytes) : option Z := from_be <$> slice prefixed 0 ReadPath.CF_PREFIX_LEN.
Definition is_the_databases_own (prefixed : bytes) : bool := bool_decide (family_of prefixed = Some META_CF_ID).

Definition filter_call_value (F : CompactionFilter) (level : Z) (prefixed value : bytes) : CompactionDecision :=
  if is_the_databases_own prefixed then Keep else cf_filter level (callers_key prefixed) value.

Definition filter_call_range_delete (F : CompactionFilter) (level : Z) (start end_ : bytes) : CompactionDecision :=
  let family := family_of start in
  if bool_decide (family = None) || bool_decide (family <> family_of end_) || bool_decide (family = Some META_CF_ID)
  then Keep
  else cf_filter_range_delete level (callers_key start) (callers_key end_).

(** ** Stripes *)

Definition u64_max : Z := 2 ^ 64 - 1.

Record Stripes := mkStripes {
  live : list Z;
  s_filter : option CompactionFilter;
  s_merge : option MergeOperator;
  s_level : Z;
}.

Definition top (st : Stripes) (q : Z) : Z :=
  let at_or_above := partition_point (fun snapshot => snapshot <? q) (live st) in
  default u64_max (getz (live st) at_or_above).

Definition shadowed (st : Stripes) (tombs : RangeTombstoneSet) (user_key : bytes) (q : Z) : bool :=
  negb (length (tombstones tombs) =? 0)%nat && (q <? found (max_covering_seq tombs user_key (top st q))).

(** [slice::chunk_by_mut]: neighbours that are [same] share a chunk. *)
Fixpoint chunk_by {A} (same : A -> A -> bool) (l : list A) : list (list A) :=
  match l with
  | [] => []
  | x :: l =>
      match chunk_by same l with
      | (y :: c) :: cs => if same x y then (x :: y :: c) :: cs else [x] :: (y :: c) :: cs
      | _ => [[x]]
      end
  end.

Definition operand (e : Entry) : bool := is_merge (e_type e).

Definition filter_value (st : Stripes) (e : Entry) : Entry :=
  match s_filter st with
  | None => e
  | Some F =>
      if negb (is_value (e_type e)) then e
      else
        match filter_call_value F (s_level st) (e_key e) (e_value e) with
        | Keep => e
        | Change changed => mkEntry (e_key e) (e_seq e) (e_type e) changed
        | Remove => mkEntry (e_key e) (e_seq e) VALUE_TYPE_DELETION []
        end
  end.

(** [try_fold] with [partial_merge], oldest first. *)
Fixpoint fold_operands `{MergeOperator} (user_key folded : bytes) (rest : list bytes) : option bytes :=
  match rest with
  | [] => Some folded
  | next :: rest => m ← partial_merge user_key folded next; fold_operands user_key m rest
  end.

Definition fold_entry `{MergeOperator} (kept : list Entry) (operands : nat) : option Entry :=
  match kept with
  | [] => None
  | newest :: _ =>
      if (operands =? 0)%nat then None
      else
        let oldest_first := rev (map e_value (take operands kept)) in
        match kept !! operands with
        | Some t =>
            base ← (if is_value (e_type t) then Some (Some (e_value t))
                    else if Byte.eqb (e_type t) VALUE_TYPE_DELETION then Some None else None);
            merged ← full_merge (e_key newest) base oldest_first;
            Some (mkEntry (e_key newest) (e_seq newest) VALUE_TYPE_VALUE merged)
        | None =>
            match oldest_first with
            | oldest :: next :: rest =>
                folded ← fold_operands (e_key newest) oldest (next :: rest);
                Some (mkEntry (e_key newest) (e_seq newest) VALUE_TYPE_MERGE folded)
            | _ => None
            end
        end
  end.

(** The first [operands + 1] entries, the filter applied to the last of them. *)
Definition kept_of (st : Stripes) (stripe : list Entry) (operands : nat) : list Entry :=
  alter (filter_value st) operands (take (S operands) stripe).

Definition reduce_stripe (st : Stripes) (stripe : list Entry) : list Entry :=
  let operands := length (take_while operand stripe) in
  let kept := kept_of st stripe operands in
  match s_merge st with
  | Some M => match fold_entry kept operands with Some folded => [folded] | None => kept end
  | None => kept
  end.

Definition same_stripe (st : Stripes) (a b : Entry) : bool := top st (e_seq a) =? top st (e_seq b).

Definition reduce_group (st : Stripes) (group : list Entry) : list Entry :=
  if (length group <? 2)%nat && match s_filter st with None => true | Some _ => false end then group
  else flat_map (reduce_stripe st) (chunk_by (same_stripe st) group).

(** ** Retirement *)

Record Retirement := mkRetirement {
  deeper : list (list (LiveSst Source));
  older : list (LiveSst Source);
  oldest_live : option Z;
}.

(** [rposition]. *)
Fixpoint rposition {A} (p : A -> bool) (l : list A) : option nat :=
  match l with
  | [] => None
  | x :: l => match rposition p l with Some i => Some (S i) | None => if p x then Some O else None end
  end.

Definition is_input (inputs : list (LiveSst Source)) (f : LiveSst Source) : bool :=
  existsb (fun i => file_id (meta i) =? file_id (meta f)) inputs.

Definition retirement_new (target_level : Z) (version : Version Source) (inputs : list (LiveSst Source))
  (oldest : option Z) : Retirement :=
  let older :=
    if target_level =? 0 then
      let l0 := level_files (levels version) 0 in
      let newest := default (length l0) (rposition (is_input inputs) l0) in
      List.filter (fun f => negb (is_input inputs f)) (take newest l0)
    else [] in
  mkRetirement (dropz (target_level + 1) (levels version)) older oldest.

Definition clear_of_snapshots (r : Retirement) (q : Z) : bool :=
  match oldest_live r with None => true | Some oldest => q <=? oldest end.

Definition keeps_tombstone (r : Retirement) (rt : RangeTombstone) : bool :=
  negb (clear_of_snapshots r (seq rt)) ||
  existsb (fun files =>
    existsb (fun f => bytes_ltb (smallest_key (meta f)) (end_ rt)) (overlapping files (start rt) (end_ rt))) (deeper r) ||
  existsb (fun f => bytes_ltb (smallest_key (meta f)) (end_ rt) && bytes_leb (start rt) (largest_key (meta f))) (older r).

Definition carried_tombstones (r : Retirement) (merged : RangeTombstoneSet) : RangeTombstoneSet :=
  if (length (tombstones merged) =? 0)%nat then merged
  else from_vec (List.filter (keeps_tombstone r) (tombstones merged)).

Definition retires (r : Retirement) (user_key : bytes) (q : Z) : bool :=
  clear_of_snapshots r q &&
  forallb (fun files => (length (covering files user_key) =? 0)%nat) (deeper r) &&
  forallb (fun f => bytes_ltb user_key (smallest_key (meta f)) || bytes_ltb (largest_key (meta f)) user_key) (older r).

Definition retire_deletion (r : Retirement) (reduced : list Entry) : list Entry :=
  match list.last reduced with
  | None => reduced
  | Some last =>
      let on_an_operand :=
        match list.last (removelast reduced) with Some e => is_merge (e_type e) | None => false end in
      if Byte.eqb (e_type last) VALUE_TYPE_DELETION && negb on_an_operand && retires r (e_key last) (e_seq last)
      then removelast reduced else reduced
  end.

(** ** The laws of an operator

    The two the trait's documentation and [check_merge_operator] of
    [src/src/testing.rs] ask of every operator. [law_partial]: operands folded
    early by [partial_merge], in any grouping, give the value of the unfolded
    ones; an operator that declines to fold has nothing to keep. [law_steps]:
    [full_merge] over a run gives what folding the operands onto the base one at a
    time gives, a decline included. It does not ask that operands associate with
    one another: every operator that steps through its operands keeps it
    ([stepwise_laws]). *)

(** The value [check_run] expects of a run. *)
Fixpoint one_at_a_time `{MergeOperator} (key : bytes) (base : option bytes) (operands : list bytes) : option bytes :=
  match operands with
  | [] => base
  | operand :: operands => expected ← op_full_merge key base [operand]; one_at_a_time key (Some expected) operands
  end.

Class MergeLaws (M : MergeOperator) : Prop := {
  law_partial : forall k base pre l r m post, op_partial_merge k l r = Some m ->
    op_full_merge k base (pre ++ l :: r :: post) = op_full_merge k base (pre ++ m :: post);
  law_steps : forall k base o ops, op_full_merge k base (o :: ops) = one_at_a_time k base (o :: ops);
}.

Lemma one_at_a_time_app `{MergeOperator} k base o xs ys :
  one_at_a_time k base ((o :: xs) ++ ys) = (v ← one_at_a_time k base (o :: xs); one_at_a_time k (Some v) ys).
Proof.
  revert base o. induction xs as [|x xs IH]; intros base o; cbn [app one_at_a_time];
    destruct (op_full_merge k base [o]) as [v|]; [done|done| |done]; cbn [mbind option_bind].
  exact (IH (Some v) x).
Qed.

(** Merging the later operands onto the value of the earlier ones. *)
Lemma full_merge_resumes `{M : MergeOperator} `{!MergeLaws M} k base xs ys v : xs <> [] -> ys <> [] ->
  op_full_merge k base xs = Some v -> op_full_merge k base (xs ++ ys) = op_full_merge k (Some v) ys.
Proof.
  destruct xs as [|x xs]; [done|]. destruct ys as [|y ys]; [done|]. intros _ _. cbn [app].
  rewrite !law_steps. intros Hv. by rewrite app_comm_cons, one_at_a_time_app, Hv.
Qed.

(** An operator that steps through its operands, oldest first, and folds none
    early: floating-point addition is one, for all that it is not associative. *)
Definition stepwise (step : bytes -> option bytes -> bytes -> option bytes) : MergeOperator := {|
  op_full_merge k base ops := foldl (fun acc o => v ← acc; w ← step k v o; Some (Some w)) (Some base) ops ≫= id;
  op_partial_merge _ _ _ := None;
|}.

#[export] Instance stepwise_laws step : MergeLaws (stepwise step).
Proof.
  split; [done|]. intros k base o ops. revert base o. induction ops as [|x ops IH]; intros base o.
  - cbn. by destruct (step k base o).
  - change (@one_at_a_time (stepwise step) k base (o :: x :: ops))
      with (v ← @op_full_merge (stepwise step) k base [o]; @one_at_a_time (stepwise step) k (Some v) (x :: ops)).
    cbn [op_full_merge stepwise foldl mbind option_bind id]. destruct (step k base o) as [w|]; cbn [mbind option_bind id].
    + exact (IH (Some w) x).
    + clear. induction ops as [|y ops IH]; [done|]. exact IH.
Qed.

Lemma fold_operands_spec `{M : MergeOperator} `{!MergeLaws M} key base pre post folded rest f :
  fold_operands key folded rest = Some f ->
  full_merge key base (pre ++ folded :: rest ++ post) = full_merge key base (pre ++ f :: post).
Proof.
  revert folded. induction rest as [|next rest IH]; intros folded; cbn [fold_operands]; [by intros [= ->]|].
  destruct (partial_merge key folded next) as [m|] eqn:E; [|done]. cbn [mbind option_bind]. intros H.
  rewrite <- (IH m H). cbn [app]. by apply law_partial.
Qed.

(** ** Stripes of a reader *)

Notation vers := (map version_of).

Lemma chunk_by_concat {A} (same : A -> A -> bool) l : List.concat (chunk_by same l) = l.
Proof.
  induction l as [|x l IH]; [done|]. cbn [chunk_by]. destruct (chunk_by same l) as [|[|y c] cs] eqn:E.
  - cbn in IH. by subst.
  - destruct l as [|z l]; [done|]. cbn in E. by repeat case_match.
  - destruct (same x y); cbn in *; by rewrite <- IH.
Qed.

Lemma chunk_by_same {A B} (f : A -> B) (same : A -> A -> bool) l :
  (forall a b, same a b = true -> f a = f b) ->
  Forall (fun c => exists b, c <> [] /\ Forall (fun x => f x = b) c) (chunk_by same l).
Proof.
  intros Hf. induction l as [|x l IH]; cbn [chunk_by]; [constructor|].
  assert (H1 : exists b, [x] <> [] /\ Forall (fun x => f x = b) [x]) by (exists (f x); by repeat constructor).
  destruct (chunk_by same l) as [|[|y c] cs]; [by constructor|constructor; [done|constructor]|].
  inversion IH as [|? ? (b & _ & Hb) Hcs]; subst. destruct (same x y) eqn:E; [|by constructor].
  constructor; [|done]. exists b. split; [done|]. constructor; [|done]. apply Hf in E. rewrite E.
  by inversion Hb.
Qed.

Section Context.
Context (st : Stripes) (key : bytes).
Hypothesis Hnofilter : s_filter st = None.
Hypothesis Hlaws : forall M, s_merge st = Some M -> MergeLaws M.

Lemma kept_nofilter stripe n : kept_of st stripe n = take (S n) stripe.
Proof using Hnofilter.
  unfold kept_of. apply list_eq. intros i. destruct (decide (i = n)) as [->|Hne].
  - rewrite list_lookup_alter_eq. unfold filter_value. rewrite Hnofilter. by destruct (_ !! n).
  - by rewrite list_lookup_alter_ne by done.
Qed.

Lemma take_while_app {A} (p : A -> bool) a x b : Forall (fun y => p y = true) a -> p x = false ->
  take_while p (a ++ x :: b) = a.
Proof.
  induction 1 as [|y a Hy Ha IH]; intros Hx; cbn [app take_while]; [by rewrite Hx|]. by rewrite Hy, IH.
Qed.

Lemma take_while_all {A} (p : A -> bool) a : Forall (fun y => p y = true) a -> take_while p a = a.
Proof. induction 1 as [|y a Hy Ha IH]; [done|]. cbn. by rewrite Hy, IH. Qed.

(** A list of entries is operands, or operands and something that ends them. *)
Lemma operands_split (l : list Entry) :
  Forall (fun e => operand e = true) l \/
  exists a t b, l = a ++ t :: b /\ Forall (fun e => operand e = true) a /\ operand t = false.
Proof.
  induction l as [|e l IH]; [by left|]. destruct (operand e) eqn:E.
  - destruct IH as [IH|(a & t & b & -> & Ha & Ht)]; [left; by constructor|].
    right. exists (e :: a), t, b. by repeat constructor.
  - right. by exists [], e, l.
Qed.

Lemma versions_split (l : list KeyVersion) :
  Forall (fun v => is_merge (kv_type v) = true) l \/
  exists a t b, l = a ++ t :: b /\ Forall (fun v => is_merge (kv_type v) = true) a /\ is_merge (kv_type t) = false.
Proof.
  induction l as [|e l IH]; [by left|]. destruct (is_merge (kv_type e)) eqn:E.
  - destruct IH as [IH|(a & t & b & -> & Ha & Ht)]; [left; by constructor|].
    right. exists (e :: a), t, b. by repeat constructor.
  - right. by exists [], e, l.
Qed.

(** How the operands above and a base read. *)
Definition merged `{M : MergeOperator} (ops : list bytes) (base : option bytes) : outcome (option bytes) :=
  match ops with [] => Ok base | _ => m ← apply_merge key base (rev ops); Ok (Some m) end.

Lemma read_merged `{M : MergeOperator} vs : read_versions (Some M) key vs = merged (ops_base vs).1 (ops_base vs).2.
Proof. unfold read_versions, merged. destruct (ops_base vs) as [[|o ops] base]; done. Qed.

Lemma merged_apply `{M : MergeOperator} o ops base : merged (o :: ops) base = (m ← apply_merge key base (rev (o :: ops)); Ok (Some m)).
Proof. done. Qed.

(** Merging onto the value of the older operands is merging onto their base. *)
Lemma merged_base `{M : MergeOperator} `{!MergeLaws M} above ops base v : ops <> [] ->
  full_merge key base (rev ops) = Some v -> merged above (Some v) = merged (above ++ ops) base.
Proof.
  intros Hne Hv. destruct above as [|o above].
  - destruct ops as [|p ops]; [done|]. cbn [app]. rewrite merged_apply. unfold apply_merge. by rewrite Hv.
  - cbn [app]. rewrite !merged_apply. unfold apply_merge. rewrite app_comm_cons, rev_app_distr.
    unfold full_merge in *. rewrite (full_merge_resumes _ _ _ _ _) with (3 := Hv); [done|..];
      intros E; apply (f_equal length) in E; rewrite length_rev in E; [by destruct ops|done].
Qed.

Lemma merged_partial `{M : MergeOperator} `{!MergeLaws M} above ops below base oldest rest f :
  rev ops = oldest :: rest -> fold_operands key oldest rest = Some f ->
  merged (above ++ f :: below) base = merged (above ++ ops ++ below) base.
Proof.
  intros E Hf. assert (Hne : ops <> []) by (intros ->; done).
  assert (Hm : forall l, l <> [] -> merged l base = (m ← apply_merge key base (rev l); Ok (Some m))).
  { intros [|o l] Hl; done. }
  rewrite !Hm by (destruct above; [|done]; by destruct ops). unfold apply_merge.
  rewrite !rev_app_distr, E. cbn [rev]. rewrite <- !app_assoc. cbn [app].
  by rewrite (fold_operands_spec key base (rev below) (rev above) oldest rest f Hf).
Qed.

Definition of_key (e : Entry) : Prop := e_key e = key /\ type_ok (e_type e).

Lemma reduce_terminated `{M : MergeOperator} `{!MergeLaws M} a t b above y : s_merge st = Some M ->
  Forall of_key (a ++ t :: b) -> Forall (fun e => operand e = true) a -> operand t = false ->
  let R := reduce_stripe st (a ++ t :: b) in
  merged (above ++ (ops_base (vers R ++ y)).1) (ops_base (vers R ++ y)).2 =
  merged (above ++ (ops_base (vers (a ++ t :: b) ++ y)).1) (ops_base (vers (a ++ t :: b) ++ y)).2.
Proof using Hnofilter.
  intros EM Hk Ha Ht R. unfold R, reduce_stripe. rewrite EM, take_while_app by done. rewrite kept_nofilter.
  assert (Hv : Forall (fun v => is_merge (kv_type v) = true) (vers a)) by (by apply Forall_map).
  assert (Hstop : forall b', ops_base (vers (a ++ t :: b') ++ y) = ops_base (vers (a ++ [t]) ++ y)).
  { intros b'. rewrite !map_app, <- !app_assoc. cbn [map app]. by apply ops_base_stop. }
  assert (Hkept : take (S (length a)) (a ++ t :: b) = a ++ [t]).
  { rewrite take_app_ge by lia. by replace (S (length a) - length a)%nat with 1%nat by lia. }
  rewrite Hkept, (Hstop b). unfold fold_entry. destruct a as [|e a]; [done|]. cbn [app].
  rewrite (list_lookup_middle (e :: a) [] t) by done. cbn [length Nat.eqb].
  set (base := if is_value (e_type t) then Some (Some (e_value t)) else _).
  assert (Hbase : exists bb, base = Some bb /\ (ops_base (vers [t] ++ y)) = ([], bb)).
  { apply Forall_app in Hk as [_ Hk]. inversion Hk as [|? ? [_ Hty] _]; subst. unfold base, ops_base.
    change (vers [t] ++ y) with (version_of t :: y). cbn [take_while drop_while].
    change (kv_type (version_of t)) with (e_type t). unfold operand in Ht. rewrite Ht.
    change (kv_type (version_of t)) with (e_type t). destruct Hty as [->|[->|Hty]]; [eexists; split; reflexivity|eexists; split; reflexivity|by rewrite Hty in Ht]. }
  destruct Hbase as (bb & -> & Hbb). cbn [mbind option_bind].
  change (take (S (length a)) (e :: a ++ [t])) with (take (length (e :: a)) ((e :: a) ++ [t])).
  rewrite (take_app_length (e :: a) [t]).
  destruct (full_merge (e_key e) bb (rev (map e_value (e :: a)))) as [v|] eqn:Em; cbn [mbind option_bind]; [|done].
  assert (Hke : e_key e = key) by (inversion Hk as [|? ? [Hke _] _]; by subst). rewrite Hke in Em.
  cbn [map app version_of e_seq e_type e_value]. unfold ops_base at 1 2. cbn [take_while drop_while kv_type map fst snd].
  change (is_merge VALUE_TYPE_VALUE) with false. cbv iota. cbn [fst snd map].
  change (version_of e :: map version_of (a ++ [t]) ++ y) with (vers ((e :: a) ++ [t]) ++ y).
  rewrite map_app, <- app_assoc, (ops_base_app _ _ Hv), Hbb. cbn [fst snd]. rewrite !app_nil_r.
  rewrite map_map. by apply merged_base.
Qed.

Lemma reduce_operands `{M : MergeOperator} `{!MergeLaws M} c above y : s_merge st = Some M ->
  Forall of_key c -> Forall (fun e => operand e = true) c ->
  let R := reduce_stripe st c in
  merged (above ++ (ops_base (vers R ++ y)).1) (ops_base (vers R ++ y)).2 =
  merged (above ++ (ops_base (vers c ++ y)).1) (ops_base (vers c ++ y)).2.
Proof using Hnofilter.
  intros EM Hk Hc R. unfold R, reduce_stripe. rewrite EM, take_while_all by done. rewrite kept_nofilter.
  rewrite take_ge by lia. destruct (fold_entry c (length c)) as [f|] eqn:Ef; [|done].
  unfold fold_entry in Ef. destruct c as [|e c]; [done|]. rewrite lookup_ge_None_2, take_ge in Ef by done.
  destruct (length (e :: c) =? 0)%nat; [done|].
  destruct (rev (map e_value (e :: c))) as [|oldest [|next rest]] eqn:Er; [done|done|].
  destruct (fold_operands (e_key e) oldest (next :: rest)) as [g|] eqn:Eg; [|done]. cbn [mbind option_bind] in Ef.
  injection Ef as <-. inversion Hk as [|? ? [Hke _] _]; subst.
  assert (Hv : Forall (fun v => is_merge (kv_type v) = true) (vers (e :: c))) by (by apply Forall_map).
  rewrite (ops_base_app _ y Hv). cbn [fst snd].
  change (vers [mkEntry (e_key e) (e_seq e) VALUE_TYPE_MERGE g] ++ y) with ([mkKV (e_seq e) VALUE_TYPE_MERGE g] ++ y).
  rewrite ops_base_app by (by repeat constructor). cbn [fst snd map kv_value]. rewrite map_map. cbn [app].
  rewrite Hke in Eg. exact (merged_partial above (map e_value (e :: c)) _ _ oldest (next :: rest) g Er Eg).
Qed.

(** Reducing one stripe changes no read of a list it is part of. *)
Lemma reduce_stripe_read c x y : c <> [] -> Forall of_key c ->
  read_versions (s_merge st) key (x ++ vers (reduce_stripe st c) ++ y) =
  read_versions (s_merge st) key (x ++ vers c ++ y).
Proof using Hnofilter Hlaws.
  intros Hne Hk. destruct (s_merge st) as [M|] eqn:EM.
  - pose proof (Hlaws M eq_refl) as HM. rewrite !read_merged.
    destruct (versions_split x) as [Hx|(a & t & b & -> & Ha & Ht)].
    + rewrite !(ops_base_app x) by done. cbn [fst snd].
      destruct (operands_split c) as [Hc|(a & t & b & -> & Ha & Ht)]; [by apply reduce_operands|by apply reduce_terminated].
    + rewrite <- !app_assoc. cbn [app]. 
      by rewrite (ops_base_stop a t (b ++ vers (reduce_stripe st c) ++ y) (b ++ vers c ++ y) Ha Ht).
  - destruct x as [|v x]; [|done]. cbn [app]. unfold reduce_stripe. rewrite EM, kept_nofilter.
    by destruct c as [|e c].
Qed.

End Context.

Lemma reduce_stripe_from st c e : s_filter st = None -> In e (reduce_stripe st c) ->
  exists e', In e' c /\ e_seq e' = e_seq e /\ e_key e' = e_key e.
Proof.
  intros Hf. unfold reduce_stripe. rewrite kept_nofilter by done. set (n := length _).
  assert (Hk : In e (take (S n) c) -> exists e', In e' c /\ e_seq e' = e_seq e /\ e_key e' = e_key e).
  { intros Hin. exists e. split; [|done]. apply list_elem_of_In. apply list_elem_of_In in Hin.
    eapply elem_of_sublist; [exact Hin|apply sublist_take]. }
  destruct (s_merge st) as [M|]; [|done]. unfold fold_entry. destruct c as [|x c]; [done|]. cbn [take].
  assert (Hx : forall t v, In e [mkEntry (e_key x) (e_seq x) t v] ->
                exists e', In e' (x :: c) /\ e_seq e' = e_seq e /\ e_key e' = e_key e).
  { intros t v [<-|[]]. exists x. by split; [left|]. }
  repeat (case_match || (cbn [mbind option_bind] in * )); simplify_option_eq; eauto.
Qed.

(** A reader that sees each stripe whole or not at all sees no difference. *)
Lemma chunks_read st key (p : KeyVersion -> bool) chunks x y :
  s_filter st = None -> (forall M, s_merge st = Some M -> MergeLaws M) ->
  (forall v w, kv_seq v = kv_seq w -> p v = p w) ->
  Forall (fun c => c <> [] /\ Forall (of_key key) c /\ exists b, Forall (fun e => p (version_of e) = b) c) chunks ->
  read_versions (s_merge st) key (x ++ List.filter p (vers (flat_map (reduce_stripe st) chunks)) ++ y) =
  read_versions (s_merge st) key (x ++ List.filter p (vers (List.concat chunks)) ++ y).
Proof.
  intros Hf Hl Hp Hc. revert x. induction Hc as [|c chunks (Hne & Hk & b & Hb) Hcs IH]; intros x; [done|].
  cbn [flat_map List.concat]. rewrite !map_app, !List.filter_app, <- !app_assoc.
  assert (Hb' : Forall (fun e => p (version_of e) = b) (reduce_stripe st c)).
  { apply List.Forall_forall. intros e He. apply reduce_stripe_from in He as (e' & He' & Es & _); [|done].
    rewrite List.Forall_forall in Hb. rewrite <- (Hb e' He'). by apply Hp. }
  destruct b.
  - rewrite (filter_all p (vers c)) by (by apply Forall_map). rewrite (filter_all p (vers (reduce_stripe st c))) by (by apply Forall_map).
    rewrite (app_assoc x), IH, <- app_assoc. by apply reduce_stripe_read.
  - rewrite (filter_none p (vers c)) by (by apply Forall_map). rewrite (filter_none p (vers (reduce_stripe st c))) by (by apply Forall_map).
    cbn [app]. apply IH.
Qed.

Lemma reduce_group_read st key (p : KeyVersion -> bool) group x y :
  s_filter st = None -> (forall M, s_merge st = Some M -> MergeLaws M) ->
  (forall v w, kv_seq v = kv_seq w -> p v = p w) -> Forall (of_key key) group ->
  (forall e e', In e group -> In e' group -> top st (e_seq e) = top st (e_seq e') -> p (version_of e) = p (version_of e')) ->
  read_versions (s_merge st) key (x ++ List.filter p (vers (reduce_group st group)) ++ y) =
  read_versions (s_merge st) key (x ++ List.filter p (vers group) ++ y).
Proof.
  intros Hf Hl Hp Hk Hu. unfold reduce_group. destruct (_ && _); [done|]. rewrite chunks_read; [by rewrite chunk_by_concat|done..|].
  assert (Hin : forall c e, In c (chunk_by (same_stripe st) group) -> In e c -> In e group).
  { intros c e Hc He. rewrite <- (chunk_by_concat (same_stripe st) group). apply in_concat. by exists c. }
  pose proof (chunk_by_same (fun e => top st (e_seq e)) (same_stripe st) group ltac:(intros a b; apply Z.eqb_eq)) as Hs.
  rewrite List.Forall_forall in *. intros c Hc. destruct (Hs c Hc) as (t & Hne & Ht). split; [done|].
  split; [apply List.Forall_forall; intros e He; apply Hk; by eapply Hin|].
  destruct c as [|e0 c]; [done|]. exists (p (version_of e0)). rewrite List.Forall_forall in *. intros e He.
  apply Hu; [by eapply Hin|eapply Hin; [done|by left]|]. rewrite (Ht e He). symmetry. apply Ht. by left.
Qed.

Lemma reduce_group_from st group e : s_filter st = None -> In e (reduce_group st group) ->
  exists e', In e' group /\ e_seq e' = e_seq e /\ e_key e' = e_key e.
Proof.
  intros Hf. unfold reduce_group. destruct (_ && _); [intros He; by exists e|].
  intros (c & Hc & He)%in_flat_map. apply reduce_stripe_from in He as (e' & He' & Hs); [|done]. exists e'. split; [|done].
  rewrite <- (chunk_by_concat (same_stripe st) group). apply in_concat. by exists c.
Qed.

(** The bound of a stripe is the first live snapshot at or above. *)
Lemma top_spec st q : StronglySorted Z.lt (live st) -> q <= u64_max ->
  q <= top st q /\ (forall s, In s (live st) -> q <= s -> top st q <= s) /\
  (In (top st q) (live st) \/ top st q = u64_max /\ forall s, In s (live st) -> s < q).
Proof.
  intros Hs Hq. unfold top.
  destruct (partition_point_spec (fun snapshot => snapshot <? q) (live st)) as (Hr & Hlo & Hhi).
  { intros i j x y Hij Hx Hy Hp. apply Z.ltb_lt in Hp. apply Z.ltb_lt.
    pose proof (sorted_getz _ _ _ _ _ _ Hs Hx Hy Hij). lia. }
  set (i := partition_point _ _) in *. destruct (getz (live st) i) as [t|] eqn:E; simpl.
  - pose proof (Hhi i t E ltac:(lia)) as Ht. apply Z.ltb_ge in Ht. split; [done|]. split; [|left; by apply getz_In in E].
    intros s Hin Hqs. apply In_getz in Hin as [j Hj]. destruct (Z.lt_trichotomy j i) as [Hl|[->|Hl]].
    + specialize (Hlo j s Hj Hl). apply Z.ltb_lt in Hlo. lia.
    + rewrite Hj in E. injection E as ->. lia.
    + pose proof (sorted_getz _ _ _ _ _ _ Hs E Hj Hl). lia.
  - assert (Hall : forall s, In s (live st) -> s < q).
    { intros s Hin. apply In_getz in Hin as [j Hj]. destruct (Z.lt_ge_cases j i) as [Hl|Hl].
      - specialize (Hlo j s Hj Hl). by apply Z.ltb_lt in Hlo.
      - pose proof (getz_Some_lt _ _ _ Hj). assert (i < len (live st)) as Hi by lia.
        destruct (getz_is_Some (live st) i) as [t Ht]; [lia|]. congruence. }
    split; [done|]. split; [|by right]. intros s Hin Hqs. specialize (Hall s Hin). lia.
Qed.

(** ** What a pass keeps of a key *)

Lemma shadowed_spec st ti key q : 0 <= q ->
  shadowed st (from_vec ti) key q = (q <? newest_covering ti key (top st q)).
Proof.
  intros Hq. unfold shadowed. rewrite max_covering_newest. cbn [found].
  destruct (Nat.eqb_spec (length (tombstones (from_vec ti))) 0) as [E|]; [|done]. cbn [negb andb].
  apply length_zero_iff_nil in E. cbn [tombstones from_vec] in E. symmetry. apply Z.ltb_ge.
  rewrite newest_none; [done|]. intros x Hx. apply sort_dedup_In in Hx. by rewrite E in Hx.
Qed.

(** The entries a pass groups for a key, and what it writes for it. *)
Definition unshadowed (st : Stripes) (ti : list RangeTombstone) (key : bytes) (G : list Entry) : list Entry :=
  List.filter (fun e => negb (shadowed st (from_vec ti) key (e_seq e))) G.
Definition pass_key (st : Stripes) (r : Retirement) (ti : list RangeTombstone) (key : bytes) (G : list Entry) : list Entry :=
  retire_deletion r (reduce_group st (unshadowed st ti key G)).

Section Pass.
Context (st : Stripes) (r : Retirement) (key : bytes) (snap : Z).
Context (ti : list RangeTombstone) (G : list Entry) (above below : list Source).

(** What is below is in the tables retirement looks at, inside their bounds. *)
Definition table_spans (f : LiveSst Source) : Prop :=
  bytes_le (smallest_key (meta f)) key /\ bytes_le key (largest_key (meta f)).
Definition retirement_sees : Prop :=
  Forall (fun files => Forall range_ok (map meta files) /\ sorted_run (map meta files)) (deeper r) /\
  forall s q, s ∈ below -> item key s q ->
    (exists files f, In files (deeper r) /\ In f files /\ table_spans f) \/ (exists f, In f (older r) /\ table_spans f).

(** A reader at a live snapshot, or past every write of the inputs. *)
Definition reader_ok : Prop :=
  In snap (live st) \/
  (forall e, In e G -> e_seq e <= snap) /\ (forall rt, In rt ti -> covers rt key = true -> seq rt <= snap).

Record pass_ok : Prop := {
  po_filter : s_filter st = None;
  po_laws : forall M, s_merge st = Some M -> MergeLaws M;
  po_live : StronglySorted Z.lt (live st);
  po_oldest : oldest_live r = hd_error (live st);
  po_group : Forall (of_key key) G;
  po_seqs : Forall (fun e => 0 < e_seq e <= u64_max) G;
  po_tombs : Forall (fun rt => seq rt <= u64_max) ti;
  po_above : forall s q, s ∈ above -> item key s q ->
    (forall e, In e G -> e_seq e < q) /\ (forall rt, In rt ti -> covers rt key = true -> seq rt < q);
  po_below : forall s q, s ∈ below -> item key s q ->
    (forall e, In e G -> q < e_seq e) /\ (forall rt, In rt ti -> covers rt key = true -> q < seq rt);
  po_apart : forall e rt, In e G -> In rt ti -> covers rt key = true -> seq rt <> e_seq e;
  po_sees : retirement_sees;
}.

Hypothesis Hok : pass_ok.
Hypothesis Hreader : reader_ok.

Lemma group_seqs e : In e (unshadowed st ti key G) -> In e G /\ 0 < e_seq e <= u64_max /\
  newest_covering ti key (top st (e_seq e)) <= e_seq e.
Proof using Hok.
  intros [He Hs]%filter_In. pose proof (po_seqs Hok) as Hq. rewrite List.Forall_forall in Hq. specialize (Hq e He).
  split; [done|]. split; [done|]. rewrite shadowed_spec in Hs by lia. apply negb_true_iff, Z.ltb_ge in Hs. done.
Qed.

(** A tombstone of the inputs that could hide a kept entry from a reader of its
    own stripe already dropped it. *)
Lemma kept_clear e rt : In e (unshadowed st ti key G) -> In rt ti -> covers rt key = true ->
  seq rt <= top st (e_seq e) -> seq rt < e_seq e.
Proof using Hok.
  intros He Hrt Hc Htop. destruct (group_seqs e He) as (HeG & _ & Hle).
  assert (seq rt <= e_seq e); [|pose proof (po_apart Hok e rt HeG Hrt Hc); lia].
  eapply Z.le_trans; [|exact Hle]. by eapply newest_bound; [reflexivity| | |].
Qed.

Notation rt_old := (Z.max (newest_covering (tombstones_of above) key snap)
  (Z.max (newest_covering ti key snap) (newest_covering (tombstones_of below) key snap))).
Notation Vis := (visible rt_old snap).

(** Where the newest deletion a reader sees comes from. *)
Lemma rt_old_cases q : 0 < q -> q <= rt_old ->
  (exists s, s ∈ above /\ item key s rt_old) \/ (exists rt, In rt ti /\ covers rt key = true /\ seq rt <= snap /\ seq rt = rt_old) \/
  (exists s, s ∈ below /\ item key s rt_old).
Proof using.
  intros Hq Hle.
  assert (Hsrc : forall srcs, newest_covering (tombstones_of srcs) key snap = rt_old -> exists s, s ∈ srcs /\ item key s rt_old).
  { intros srcs E. destruct (newest_attained (tombstones_of srcs) key snap) as [E0|(x & Hx & Hc & _ & Ex)]; [lia|].
    apply in_flat_map in Hx as (s & Hs & Hx). exists s. split; [by apply list_elem_of_In|]. right. exists x.
    split; [by apply list_elem_of_In|]. split; [done|lia]. }
  destruct (Z.max_spec (newest_covering (tombstones_of above) key snap)
    (Z.max (newest_covering ti key snap) (newest_covering (tombstones_of below) key snap))) as [[_ E]|[_ E]];
    [|left; by apply Hsrc].
  destruct (Z.max_spec (newest_covering ti key snap) (newest_covering (tombstones_of below) key snap)) as [[_ E']|[_ E']];
    [right; right; apply Hsrc; lia|].
  right. left. destruct (newest_attained ti key snap) as [E0|(x & Hx & Hc & Hs & Ex)]; [lia|]. exists x. split_and!; auto. lia.
Qed.

Lemma shadowed_hidden e : In e G -> shadowed st (from_vec ti) key (e_seq e) = true -> Vis (version_of e) = false.
Proof using Hok Hreader.
  intros He Hs. pose proof (po_seqs Hok) as Hq. rewrite List.Forall_forall in Hq. specialize (Hq e He).
  rewrite shadowed_spec in Hs by lia. apply Z.ltb_lt in Hs. unfold visible. cbn [kv_seq version_of].
  destruct (Z.leb_spec (e_seq e) snap) as [Hle|]; [|apply andb_false_r]. rewrite andb_true_r. apply Z.ltb_ge.
  destruct (newest_attained ti key (top st (e_seq e))) as [E|(rt & Hrt & Hc & Ht & Ert)]; [lia|].
  assert (seq rt <= snap).
  { destruct Hreader as [Hl|[_ Hall]]; [|by apply Hall].
    destruct (top_spec st (e_seq e) (po_live Hok) ltac:(lia)) as (_ & Hmin & _). specialize (Hmin snap Hl Hle). lia. }
  assert (seq rt <= newest_covering ti key snap) by (by eapply newest_bound; [reflexivity| | |]). lia.
Qed.

Lemma same_stripe_seen e e' : In e (unshadowed st ti key G) -> In e' (unshadowed st ti key G) ->
  top st (e_seq e) = top st (e_seq e') -> Vis (version_of e) = true -> Vis (version_of e') = true.
Proof using Hok Hreader.
  intros He He' Ht. unfold visible. cbn [kv_seq version_of]. rewrite !andb_true_iff, !Z.ltb_lt, !Z.leb_le. intros [Hr Hs].
  destruct (group_seqs e He) as (HeG & Hq & _). destruct (group_seqs e' He') as (HeG' & Hq' & _).
  destruct (top_spec st (e_seq e) (po_live Hok) ltac:(lia)) as (Hle & Hmin & Hor).
  destruct (top_spec st (e_seq e') (po_live Hok) ltac:(lia)) as (Hle' & Hmin' & Hor'). split.
  - destruct (Z.lt_ge_cases rt_old (e_seq e')) as [|Hge]; [done|]. exfalso.
    destruct (rt_old_cases (e_seq e') ltac:(lia) Hge) as [(s & Hs1 & Hi)|[(rt & Hrt & Hc & _ & Ert)|(s & Hs1 & Hi)]].
    + apply (po_above Hok s) in Hi as [Hi _]; [|done]. specialize (Hi e HeG). lia.
    + pose proof (kept_clear e' rt He' Hrt Hc ltac:(lia)). lia.
    + apply (po_below Hok s) in Hi as [Hi _]; [|done]. specialize (Hi e' HeG'). lia.
  - destruct Hreader as [Hl|[Hall _]]; [|by apply Hall]. specialize (Hmin snap Hl Hs). lia.
Qed.

Lemma filter_map_filter {A B} (p : B -> bool) (f : A -> B) (q : A -> bool) l :
  (forall x, In x l -> q x = false -> p (f x) = false) ->
  List.filter p (map f (List.filter q l)) = List.filter p (map f l).
Proof using.
  induction l as [|x l IH]; intros H; [done|]. cbn [List.filter map]. destruct (q x) eqn:E; cbn [map List.filter].
  - rewrite IH; [done|]. intros y Hy. apply H. by right.
  - rewrite (H x (or_introl eq_refl) E). apply IH. intros y Hy. apply H. by right.
Qed.

Lemma read_drop_deletion op x d : Byte.eqb (kv_type d) VALUE_TYPE_DELETION = true ->
  read_versions op key (x ++ [d]) = read_versions op key x.
Proof using.
  intros Hd. apply Byte.byte_dec_bl in Hd. destruct op as [M|].
  - rewrite !read_merged. destruct (versions_split x) as [Hx|(a & t & b & -> & Ha & Ht)].
    + pose proof (ops_base_app x [] Hx) as E. rewrite app_nil_r in E. rewrite E, ops_base_app by done.
      assert (Ed : ops_base [d] = ([], None)) by (unfold ops_base; cbn; rewrite Hd; cbn; by rewrite Hd).
      by rewrite Ed.
    + rewrite <- app_assoc. cbn [app]. by rewrite (ops_base_stop a t (b ++ [d]) b Ha Ht).
  - destruct x as [|v x]; [|done]. cbn [app read_versions]. by rewrite Hd.
Qed.

(** Nothing of the key is below a tombstone that retires. *)
Lemma retires_nothing_below q : retires r key q = true -> forall s p, s ∈ below -> ~ item key s p.
Proof using Hok.
  unfold retires. rewrite !andb_true_iff, !forallb_forall. intros [[_ Hd] Hold] s p Hs Hi.
  destruct (po_sees Hok) as [Hruns Hsees]. destruct (Hsees s p Hs Hi) as [(files & f & Hf & Hin & Hspan)|(f & Hin & Hspan)].
  - specialize (Hd files Hf). apply Nat.eqb_eq, length_zero_iff_nil in Hd. rewrite List.Forall_forall in Hruns.
    destruct (Hruns files Hf) as [Hr Hsr]. unfold covering in Hd. rewrite overlapping_filter in Hd by done.
    assert (Hx : In f []) by (rewrite <- Hd; apply filter_In; split; [done|]; destruct Hspan; do 2 bcase; done). done.
  - specialize (Hold f Hin). destruct Hspan. revert Hold. do 2 bcase; try done; intros _; border.
Qed.

Lemma retired_nothing_below rt : covers rt key = true -> keeps_tombstone r rt = false ->
  clear_of_snapshots r (seq rt) = true /\ forall s p, s ∈ below -> ~ item key s p.
Proof using Hok.
  unfold keeps_tombstone. rewrite !orb_false_iff, negb_false_iff. intros Hc [[Hcl Hd] Hold]. split; [done|]. intros s p Hs Hi.
  unfold covers in Hc. apply andb_true_iff in Hc as [Hc1 Hc2].
  destruct (bytes_leb_spec (start rt) key) as [Hst|]; [|done]. destruct (bytes_ltb_spec key (end_ rt)) as [Hen|]; [|done].
  destruct (po_sees Hok) as [Hruns Hsees]. destruct (Hsees s p Hs Hi) as [(files & f & Hf & Hin & [Hsm Hlg])|(f & Hin & [Hsm Hlg])].
  - rewrite List.Forall_forall in Hruns. destruct (Hruns files Hf) as [Hr Hsr].
    assert (Ht : true = false); [|done]. rewrite <- Hd. symmetry. apply existsb_exists. exists files. split; [done|].
    apply existsb_exists. exists f. rewrite overlapping_filter by done. rewrite filter_In. split; [split; [done|]|].
    + do 2 bcase; try done; exfalso; border.
    + bcase; [done|]. exfalso. border.
  - assert (Ht : true = false); [|done]. rewrite <- Hold. symmetry. apply existsb_exists. exists f. split; [done|].
    do 2 bcase; try done; exfalso; border.
Qed.

Lemma key_entries_none : (forall s p, s ∈ below -> ~ item key s p) -> key_entries key below = [].
Proof using.
  intros H. destruct (key_entries key below) as [|v l] eqn:E; [done|]. exfalso.
  destruct (key_entries_item key below v) as (s & Hs & Hi); [rewrite E; by apply elem_of_cons; left|]. by apply (H s (kv_seq v)).
Qed.

(** What a pass writes for a key comes from what it read of it. *)
Lemma pass_key_from e : In e (pass_key st r ti key G) ->
  exists e', In e' (unshadowed st ti key G) /\ e_seq e' = e_seq e /\ e_key e = key.
Proof using Hok.
  intros He. assert (Hin : In e (reduce_group st (unshadowed st ti key G))).
  { unfold pass_key, retire_deletion in He. destruct (list.last _) as [l|] eqn:El; [|done]. destruct (_ && _); [|done].
    apply last_Some in El as [l' El]. rewrite El in He |- *. rewrite removelast_last in He. apply in_app_iff. by left. }
  apply reduce_group_from in Hin as (e' & He' & Es & Ek); [|apply (po_filter Hok)]. exists e'. split; [done|]. split; [done|].
  rewrite <- Ek. destruct (group_seqs e' He') as [HG _]. pose proof (po_group Hok) as Hg. rewrite List.Forall_forall in Hg.
  by apply Hg.
Qed.

Notation tc := (tombstones (carried_tombstones r (from_vec ti))).
Notation rt_new := (Z.max (newest_covering (tombstones_of above) key snap)
  (Z.max (newest_covering tc key snap) (newest_covering (tombstones_of below) key snap))).

Lemma carried_In rt : In rt tc <-> In rt ti /\ keeps_tombstone r rt = true.
Proof using.
  unfold carried_tombstones. destruct (Nat.eqb_spec (length (tombstones (from_vec ti))) 0) as [E|].
  - apply length_zero_iff_nil in E. rewrite E. cbn [tombstones from_vec] in E. split; [done|]. intros [Hin _].
    by rewrite <- sort_dedup_In, E in Hin.
  - cbn [tombstones from_vec]. by rewrite sort_dedup_In, filter_In, sort_dedup_In.
Qed.

(** Retired tombstones hide nothing that is kept, above or below. *)
Lemma retired_unseen v :
  v ∈ key_entries key above ++ vers (pass_key st r ti key G) ++ key_entries key below ->
  0 < kv_seq v -> visible rt_new snap v = Vis v.
Proof using Hok.
  intros Hv Hq. unfold visible. f_equal. apply eq_true_iff_eq. rewrite !Z.ltb_lt.
  assert (Hle : newest_covering tc key snap <= newest_covering ti key snap).
  { apply newest_bound. split; [apply newest_nonneg|]. intros x Hx Hs Hc. apply carried_In in Hx as [Hx _].
    by eapply newest_bound; [reflexivity| | |]. }
  split; [|lia]. intros Hlt. destruct (Z.lt_ge_cases rt_old (kv_seq v)) as [|Hge]; [done|]. exfalso.
  destruct (newest_attained ti key snap) as [E0|(rt & Hrt & Hc & Hs & Ert)]; [pose proof (newest_nonneg tc key snap); lia|].
  assert (Hkept : keeps_tombstone r rt = false).
  { destruct (keeps_tombstone r rt) eqn:E; [|done]. exfalso.
    assert (seq rt <= newest_covering tc key snap); [|lia]. eapply newest_bound; [reflexivity| |done|done]. by apply carried_In. }
  destruct (retired_nothing_below rt Hc Hkept) as [Hcl Hnone].
  apply elem_of_app in Hv as [Hv|[Hv|Hv]%elem_of_app].
  - apply key_entries_item in Hv as (s & Hs1 & Hi). apply (po_above Hok s) in Hi as [_ Hi]; [|done].
    specialize (Hi rt Hrt Hc). lia.
  - apply list_elem_of_In, in_map_iff in Hv as (e & <- & He). cbn [kv_seq version_of] in *.
    apply pass_key_from in He as (e' & He' & Es & _). destruct (group_seqs e' He') as (_ & Hq' & _).
    destruct (top_spec st (e_seq e') (po_live Hok) ltac:(lia)) as (Hle' & _ & Hor).
    pose proof (kept_clear e' rt He' Hrt Hc) as Hk. enough (seq rt <= top st (e_seq e')) by lia.
    unfold clear_of_snapshots in Hcl. rewrite (po_oldest Hok) in Hcl.
    assert (Hold : forall s, In s (live st) -> seq rt <= s).
    { intros s Hin. pose proof (po_live Hok) as Hlive. destruct (live st) as [|o ls]; [done|]. cbn in Hcl. apply Z.leb_le in Hcl.
      inversion Hlive as [|? ? _ Ho]; subst. destruct Hin as [<-|Hin]; [done|]. rewrite List.Forall_forall in Ho.
      specialize (Ho s Hin). lia. }
    destruct Hor as [Hin|[Et _]]; [by apply Hold|]. rewrite Et. pose proof (po_tombs Hok) as Hb.
    rewrite List.Forall_forall in Hb. by apply Hb.
  - apply key_entries_item in Hv as (s & Hs1 & Hi). by destruct (Hnone s (kv_seq v) Hs1).
Qed.

Lemma pass_reduced_read a b :
  read_versions (s_merge st) key (a ++ List.filter Vis (vers (reduce_group st (unshadowed st ti key G))) ++ b) =
  read_versions (s_merge st) key (a ++ List.filter Vis (vers G) ++ b).
Proof using Hok Hreader.
  rewrite reduce_group_read; [|apply (po_filter Hok)|apply (po_laws Hok)|..].
  - unfold unshadowed. rewrite filter_map_filter; [done|]. intros e He Hs. apply negb_false_iff in Hs. by apply shadowed_hidden.
  - intros v w E. unfold visible. by rewrite E.
  - pose proof (po_group Hok) as Hg. rewrite List.Forall_forall in *. intros e [He _]%filter_In. by apply Hg.
  - intros e e' He He' Ht. apply eq_true_iff_eq. split; by apply same_stripe_seen.
Qed.

(** What a pass writes for a key reads as what it read of it. *)
Lemma pass_key_read :
  let read ti vs := let rt := Z.max (newest_covering (tombstones_of above) key snap)
    (Z.max (newest_covering ti key snap) (newest_covering (tombstones_of below) key snap)) in
    read_versions (s_merge st) key (List.filter (visible rt snap) (key_entries key above ++ vers vs ++ key_entries key below)) in
  Forall (fun s => forall q, item key s q -> 0 < q) above -> Forall (fun s => forall q, item key s q -> 0 < q) below ->
  read tc (pass_key st r ti key G) = read ti G.
Proof using Hok Hreader.
  intros read Ha Hb. unfold read. cbv zeta.
  rewrite (List.filter_ext_in _ Vis).
  2:{ intros v Hv. apply list_elem_of_In in Hv. apply retired_unseen; [done|]. rewrite List.Forall_forall in Ha, Hb.
      apply elem_of_app in Hv as [Hv|[Hv|Hv]%elem_of_app].
      - apply key_entries_item in Hv as (s & Hs & Hi). apply (Ha s); [by apply list_elem_of_In|done].
      - apply list_elem_of_In, in_map_iff in Hv as (e & <- & He). apply pass_key_from in He as (e' & He' & Es & _).
        destruct (group_seqs e' He') as (_ & Hq & _). cbn. lia.
      - apply key_entries_item in Hv as (s & Hs & Hi). apply (Hb s); [by apply list_elem_of_In|done]. }
  rewrite !List.filter_app, <- pass_reduced_read. unfold pass_key, retire_deletion.
  destruct (list.last (reduce_group st (unshadowed st ti key G))) as [d|] eqn:El; [|done]. destruct (_ && _) eqn:Ed; [|done].
  apply last_Some in El as [l' El]. rewrite El, removelast_last, map_app, List.filter_app.
  rewrite !andb_true_iff in Ed. destruct Ed as [[Ed _] Hr].
  assert (Hk : e_key d = key).
  { destruct (reduce_group_from st (unshadowed st ti key G) d) as (e' & He' & _ & <-); [apply (po_filter Hok)|..].
    - rewrite El. apply in_app_iff. right. by left.
    - destruct (group_seqs e' He') as [HG _]. pose proof (po_group Hok) as Hg. rewrite List.Forall_forall in Hg. by apply Hg. }
  rewrite Hk in Hr. rewrite (key_entries_none (retires_nothing_below _ Hr)). cbn [List.filter map]. rewrite !app_nil_r.
  destruct (Vis (version_of d)); [|by rewrite app_nil_r]. rewrite app_assoc. by rewrite read_drop_deletion.
Qed.

End Pass.
