(* ===== verification/Compaction.v ===== *)
(** * A compaction pass

    Models the body of a compaction, [src/src/engine/compaction.rs]: the k-way
    merge of the input tables, the grouping of a key's versions, the writer that
    cuts the output into tables and spreads the range tombstones over them
    ([perform_compaction_to], [stream_compaction_outputs],
    [StreamingCompactionWriter] and their helpers). Tables are their entries,
    tombstones and bounds; file ids, sizes, throttling, listeners, statistics and
    the unlinking of inputs are left out. Which tables a pass takes, and where its
    outputs go, is in Picking.v.

    Shown here: a pass changes what no reader at a live snapshot, or past the
    writes it read, reads, and the tombstones it spreads over its outputs delete
    what they deleted. *)

From stdpp Require Import sets sorting.
From S2P Require Import Prelude Order InternalKey RangeTombstone TombstoneLog Manifest Version ReadPath Stripes.

(** ** The merge of the inputs *)

Definition internal (e : Entry) : bytes := encode_internal_key (e_key e) (e_seq e) (e_type e).
Definition entry_cmp (a b : Entry) : comparison := compare_internal_keys (internal a) (internal b).

(** [MergeHeapEntry]: an entry and the stream it came from. The heap's greatest
    is the least internal key, the first stream's where keys are equal. *)
Definition MergeHeapEntry : Type := Entry * nat.
Definition heap_cmp (self other : MergeHeapEntry) : comparison :=
  match entry_cmp other.1 self.1 with Eq => Nat.compare other.2 self.2 | c => c end.

(** [BinaryHeap::pop]: a greatest element. *)
Fixpoint heap_pop (heap : list MergeHeapEntry) : option (MergeHeapEntry * list MergeHeapEntry) :=
  match heap with
  | [] => None
  | x :: heap' =>
      match heap_pop heap' with
      | None => Some (x, [])
      | Some (y, rest) => match heap_cmp x y with Lt => Some (y, x :: rest) | _ => Some (x, heap') end
      end
  end.

(** [streams[i].iter.next_entry()]. *)
Definition next_entry (streams : list (list Entry)) (i : nat) : option Entry * list (list Entry) :=
  match streams !! i with
  | Some (e :: rest) => (Some e, <[i := rest]> streams)
  | _ => (None, streams)
  end.

Fixpoint heap_start (files : list (list Entry)) (i : nat) : list MergeHeapEntry * list (list Entry) :=
  match files with
  | [] => ([], [])
  | file :: files =>
      let '(heap, streams) := heap_start files (S i) in
      match file with
      | [] => (heap, [] :: streams)
      | e :: rest => ((e, i) :: heap, rest :: streams)
      end
  end.

(** The entries the loop pops, in order. *)
Fixpoint popped (fuel : nat) (heap : list MergeHeapEntry) (streams : list (list Entry)) : list Entry :=
  match fuel with
  | O => []
  | S fuel =>
      match heap_pop heap with
      | None => []
      | Some ((e, i), heap) =>
          let '(next, streams) := next_entry streams i in
          e :: popped fuel (match next with Some e' => (e', i) :: heap | None => heap end) streams
      end
  end.

Definition merged_entries (files : list (list Entry)) : list Entry :=
  let '(heap, streams) := heap_start files 0 in
  popped (length (List.concat files)) heap streams.

(** ** The groups *)

Record Loop := mkLoop {
  last_internal_key : option bytes;
  current_user_key : option bytes;
  group : list Entry;
  emitted : list (list Entry);
}.

Section Groups.
Context (st : Stripes) (r : Retirement) (tombs : RangeTombstoneSet).

Definition finish_group (g : list Entry) : list Entry := retire_deletion r (reduce_group st g).

Definition loop_step (l : Loop) (e : Entry) : Loop :=
  if bool_decide (last_internal_key l = Some (internal e)) then l
  else
    let '(out, g) :=
      match current_user_key l with
      | Some current => if bytes_eqb current (e_key e) then (emitted l, group l) else (emitted l ++ [finish_group (group l)], [])
      | None => (emitted l, group l)
      end in
    mkLoop (Some (internal e)) (Some (e_key e))
      (if shadowed st tombs (e_key e) (e_seq e) then g else g ++ [e]) out.

(** The groups the loop hands to the writer. *)
Definition reduced_groups (entries : list Entry) : list (list Entry) :=
  let l := fold_left loop_step entries (mkLoop None None [] []) in
  match current_user_key l with
  | Some _ => emitted l ++ [finish_group (group l)]
  | None => emitted l
  end.

End Groups.

(** ** Spreading the range tombstones *)

Definition range_cmp (a b : bytes * bytes) : comparison := then_with (bytes_cmp a.1 b.1) (bytes_cmp a.2 b.2).

(** The last merged range first. *)
Fixpoint merge_sorted_ranges (merged : list (bytes * bytes)) (ranges : list (bytes * bytes)) : list (bytes * bytes) :=
  match ranges with
  | [] => rev merged
  | (s, e) :: ranges =>
      match merged with
      | (ms, me) :: rest =>
          if bytes_leb s me then merge_sorted_ranges ((ms, if bytes_ltb me e then e else me) :: rest) ranges
          else merge_sorted_ranges ((s, e) :: merged) ranges
      | [] => merge_sorted_ranges [(s, e)] ranges
      end
  end.

Definition merge_key_ranges (ranges : list (bytes * bytes)) : list (bytes * bytes) :=
  merge_sorted_ranges [] (sort_by range_cmp (List.filter (fun '(s, e) => bytes_ltb s e) ranges)).

Definition min_key (a b : bytes) : bytes := if bytes_leb a b then a else b.
Definition max_key (a b : bytes) : bytes := if bytes_leb b a then a else b.

(** The gaps of one tombstone between the covered ranges. *)
Fixpoint uncovered_of (rt : RangeTombstone) (cursor : bytes) (covered : list (bytes * bytes)) : list RangeTombstone :=
  let rest := if bytes_ltb cursor (end_ rt) then [mkTomb cursor (end_ rt) (seq rt)] else [] in
  match covered with
  | [] => rest
  | (covered_start, covered_end) :: covered =>
      if bytes_leb covered_end cursor then uncovered_of rt cursor covered
      else if bytes_leb (end_ rt) covered_start then rest
      else
        let fragment :=
          if bytes_ltb cursor covered_start then
            let fragment_end := min_key covered_start (end_ rt) in
            if bytes_ltb cursor fragment_end then [mkTomb cursor fragment_end (seq rt)] else []
          else [] in
        let cursor := if bytes_ltb cursor covered_end then max_key covered_end cursor else cursor in
        if bytes_leb (end_ rt) cursor then fragment
        else fragment ++ uncovered_of rt cursor covered
  end.

Definition uncovered_range_tombstone_fragments (tombs : list RangeTombstone) (covered : list (bytes * bytes))
  : list RangeTombstone :=
  let covered := merge_key_ranges covered in
  sort_dedup_tombstones (flat_map (fun rt => uncovered_of rt (start rt) covered) tombs).

Fixpoint group_fragments (current : list RangeTombstone) (current_end : option bytes) (fragments : list RangeTombstone)
  : list (list RangeTombstone) :=
  match fragments with
  | [] => match current with [] => [] | _ => [current] end
  | rt :: fragments =>
      let '(done, current, current_end) :=
        match current_end with
        | Some e => if bytes_ltb e (start rt) then ([current], [], None) else ([], current, current_end)
        | None => ([], current, current_end)
        end in
      let current_end :=
        match current_end with
        | Some e => if bytes_ltb e (end_ rt) then Some (end_ rt) else Some e
        | None => Some (end_ rt)
        end in
      done ++ group_fragments (current ++ [rt]) current_end fragments
  end.

Definition group_range_tombstone_fragments (fragments : list RangeTombstone) : list (list RangeTombstone) :=
  group_fragments [] None (sort_dedup_tombstones fragments).

(** ** The writer *)

Record OutTable := mkOut {
  o_smallest : bytes;
  o_largest : bytes;
  o_entries : list Entry;
  o_tombstones : list RangeTombstone;
}.
Definition out_source (o : OutTable) : Source := Table (o_entries o) (o_tombstones o).

Record StreamingOutputBuilder := mkBuilder {
  b_entries : list Entry;
  estimated_size : Z;
  smallest_user_key : option bytes;
  largest_user_key : option bytes;
}.

Record StreamingCompactionWriter := mkWriter {
  point_ranges : list (bytes * bytes);
  current : option StreamingOutputBuilder;
  outputs : list OutTable;
}.

Section Writer.
Context (target_file_size : Z) (range_tombstones : RangeTombstoneSet).

Definition writer_new : StreamingCompactionWriter := mkWriter [] None [].

Definition finish_current (w : StreamingCompactionWriter) : outcome StreamingCompactionWriter :=
  match current w with
  | None => Ok w
  | Some b =>
      match smallest_user_key b, largest_user_key b with
      | Some smallest, Some largest =>
          let end_ := exclusive_successor largest in
          clipped ← clipped_overlaps range_tombstones smallest end_;
          match b_entries b, clipped with
          | [], [] => Ok (mkWriter (point_ranges w) None (outputs w))
          | _, _ =>
              Ok (mkWriter (point_ranges w ++ [(smallest, end_)]) None
                    (outputs w ++ [mkOut smallest largest (b_entries b) clipped]))
          end
      | _, _ =>
          match b_entries b with
          | [] => Ok (mkWriter (point_ranges w) None (outputs w))
          | e :: es =>
              Ok (mkWriter (point_ranges w) None
                    (outputs w ++ [mkOut (e_key e) (e_key (List.last (e :: es) e)) (b_entries b) []]))
          end
      end
  end.

Definition ensure_current (w : StreamingCompactionWriter) : StreamingOutputBuilder :=
  match current w with Some b => b | None => mkBuilder [] 0 None None end.

Definition entry_size (e : Entry) : Z := len (internal e) + len (e_value e).

Definition add_group (w : StreamingCompactionWriter) (entries : list Entry) : outcome StreamingCompactionWriter :=
  match entries with
  | [] => Ok w
  | first :: _ =>
      w ← (if match current w with Some b => target_file_size <=? estimated_size b | None => false end
           then finish_current w else Ok w);
      let b := ensure_current w in
      let smallest := match smallest_user_key b with Some k => Some k | None => Some (e_key first) end in
      let size := fold_left (fun size e => as_u64 (size + entry_size e)) entries (estimated_size b) in
      Ok (mkWriter (point_ranges w) (Some (mkBuilder (b_entries b ++ entries) size smallest (Some (e_key first)))) (outputs w))
  end.

Fixpoint add_groups (w : StreamingCompactionWriter) (groups : list (list Entry)) : outcome StreamingCompactionWriter :=
  match groups with
  | [] => Ok w
  | g :: groups => w ← add_group w g; add_groups w groups
  end.

(** A table of tombstones alone, with the bounds the table writer gives it. *)
Definition range_tombstone_only_file (chunk : list RangeTombstone) : list OutTable :=
  match table_key_range None chunk with
  | Some (smallest, largest) => [mkOut smallest largest [] chunk]
  | None => []
  end.

Definition write_uncovered_range_tombstones (w : StreamingCompactionWriter) : list OutTable :=
  if (length (tombstones range_tombstones) =? 0)%nat then []
  else
    let fragments := uncovered_range_tombstone_fragments (tombstones range_tombstones) (point_ranges w) in
    flat_map range_tombstone_only_file (group_range_tombstone_fragments fragments).

Definition finish (w : StreamingCompactionWriter) : outcome (list OutTable) :=
  w ← finish_current w; Ok (outputs w ++ write_uncovered_range_tombstones w).

End Writer.

(** ** A pass *)

Definition filtered_tombstones (st : Stripes) (tombs : list RangeTombstone) : list RangeTombstone :=
  match s_filter st with
  | None => tombs
  | Some F =>
      List.filter (fun rt => match filter_call_range_delete F (s_level st) (start rt) (end_ rt) with Remove => false | _ => true end)
        tombs
  end.

Definition compact (st : Stripes) (r : Retirement) (target_file_size : Z) (inputs : list Source) : outcome (list OutTable) :=
  let merged := from_vec (filtered_tombstones st (tombstones_of inputs)) in
  let carried := carried_tombstones r merged in
  let groups := reduced_groups st r merged (merged_entries (map s_entries inputs)) in
  w ← add_groups target_file_size carried writer_new groups;
  finish carried w.

(** ** An ingested table

    Every entry and every range tombstone reads at the recorded sequence. *)
Definition tombstones_at (l : list RangeTombstone) (q : Z) : list RangeTombstone :=
  map (fun rt => mkTomb (start rt) (end_ rt) q) l.
Definition with_global_seq (s : Source) (q : option Z) : Source :=
  match q with
  | Some q => Table (map (fun e => mkEntry (e_key e) q (e_type e) (e_value e)) (s_entries s))
                    (tombstones (from_vec (tombstones_at (s_tombstones s) q)))
  | None => s
  end.

(** ** The merge is a sort *)

Definition entry_le (a b : Entry) : Prop := entry_cmp a b <> Gt.

Lemma internal_valid e : valid_internal_key (internal e).
Proof. apply encode_valid. Qed.

Lemma internal_opp a b : compare_internal_keys (internal b) (internal a) = CompOpp (compare_internal_keys (internal a) (internal b)).
Proof. apply (Prelude.cmp_opp (P := valid_internal_key)); apply internal_valid. Qed.

#[export] Instance entry_cmp_preorder : PreorderCmp entry_cmp.
Proof.
  split; unfold entry_cmp.
  - intros x y E. rewrite internal_opp. rewrite E. done.
  - intros x y z H1 H2 H3. pose proof (internal_valid x) as Hx. pose proof (internal_valid y) as Hy.
    pose proof (internal_valid z) as Hz.
    assert (Hzx : compare_internal_keys (internal z) (internal x) = Lt) by (rewrite internal_opp; by rewrite H3).
    destruct (compare_internal_keys (internal x) (internal y)) eqn:E1; [|..|done].
    + apply cmp_eq in E1; [|done..]. congruence.
    + pose proof (cmp_trans _ _ _ Hz Hx Hy Hzx E1) as E. rewrite internal_opp in E.
      by destruct (compare_internal_keys (internal y) (internal z)).
Qed.

Lemma entry_le_refl e : entry_le e e.
Proof.
  unfold entry_le, entry_cmp. rewrite (proj2 (cmp_eq (P := valid_internal_key) _ _ (internal_valid e) (internal_valid e)) eq_refl). done.
Qed.

Lemma heap_pop_spec heap :
  match heap_pop heap with
  | None => heap = []
  | Some (x, rest) => heap ≡ₚ x :: rest /\ forall y, In y rest -> entry_le x.1 y.1
  end.
Proof.
  induction heap as [|x heap IH]; [done|]. cbn [heap_pop]. destruct (heap_pop heap) as [[y rest]|].
  2:{ subst. by split; [|intros y []]. }
  destruct IH as [Hp Hy].
  assert (Hopp : entry_cmp x.1 y.1 = CompOpp (entry_cmp y.1 x.1)) by apply internal_opp.
  assert (Hx : entry_le x.1 y.1 -> forall z, In z heap -> entry_le x.1 z.1).
  { intros Hxy z Hz. rewrite Hp in Hz. destruct Hz as [<-|Hz]; [done|]. apply (pre_trans entry_cmp _ y.1); [done|by apply Hy]. }
  unfold heap_cmp, entry_le in *. destruct (entry_cmp y.1 x.1) eqn:E; cbn [CompOpp] in Hopp.
  - destruct (Nat.compare y.2 x.2).
    + split; [done|]. apply Hx. by rewrite Hopp.
    + split; [by rewrite Hp, perm_swap|]. intros z [<-|Hz]; [by rewrite E|by apply Hy].
    + split; [done|]. apply Hx. by rewrite Hopp.
  - split; [by rewrite Hp, perm_swap|]. intros z [<-|Hz]; [by rewrite E|by apply Hy].
  - split; [done|]. apply Hx. by rewrite Hopp.
Qed.

(** Each stream's next entry is in the heap, and before the rest of it. *)
Record heap_ok (heap : list MergeHeapEntry) (streams : list (list Entry)) : Prop := {
  ho_nodup : NoDup (map snd heap);
  ho_head : forall e i, In (e, i) heap -> exists rest, streams !! i = Some rest /\ StronglySorted entry_le (e :: rest);
  ho_full : forall i e rest, streams !! i = Some (e :: rest) -> exists x, In (x, i) heap;
}.

Lemma concat_insert_tail {A} (streams : list (list A)) i e rest : streams !! i = Some (e :: rest) ->
  List.concat streams ≡ₚ e :: List.concat (<[i := rest]> streams).
Proof.
  revert i. induction streams as [|s streams IH]; intros [|i]; [done|done|..]; cbn [lookup list_lookup].
  - intros [= ->]. done.
  - intros H. cbn. rewrite (IH i H). by rewrite Permutation_middle.
Qed.

Lemma heap_ok_pop heap streams e i heap' : heap_ok heap streams -> heap_pop heap = Some ((e, i), heap') ->
  let '(next, streams') := next_entry streams i in
  let heap'' := match next with Some e' => (e', i) :: heap' | None => heap' end in
  heap_ok heap'' streams' /\
  map fst heap ++ List.concat streams ≡ₚ e :: map fst heap'' ++ List.concat streams' /\
  forall x, In x (map fst heap'' ++ List.concat streams') -> entry_le e x.
Proof.
  intros [Hn Hh Hf] Hpop. pose proof (heap_pop_spec heap) as Hs. rewrite Hpop in Hs. destruct Hs as [Hp Hmin].
  assert (Hin : forall y, In y heap <-> y = (e, i) \/ In y heap').
  { intros y. rewrite Hp. cbn. naive_solver. }
  destruct (Hh e i) as (rest & Hst & Hsort); [apply Hin; by left|].
  assert (Hn' : NoDup (i :: map snd heap')) by (rewrite Hp in Hn; done). apply list.NoDup_cons in Hn' as [Hi Hn'].
  assert (Hne : forall x j, In (x, j) heap' -> j <> i).
  { intros x j Hx ->. apply Hi. apply list_elem_of_In, in_map_iff. by exists (x, i). }
  assert (Hle : forall x, In x (map fst heap') -> entry_le e x).
  { intros x (y & <- & Hy)%in_map_iff. by apply (Hmin y). }
  assert (Hall : forall x, In x (map fst heap ++ List.concat streams) -> entry_le e x).
  { assert (Hhead : forall x j, In (x, j) heap -> entry_le e x).
    { intros x j [[= -> ->]|Hx]%Hin; [apply entry_le_refl|by apply (Hmin (x, j))]. }
    intros x [((y & j) & <- & Hy)%in_map_iff|(s & Hs & Hx)%in_concat]%in_app_iff; [by eapply Hhead|].
    apply list_elem_of_In, list_elem_of_lookup in Hs as [j Hj]. destruct s as [|y s]; [done|].
    destruct (Hf j y s Hj) as [z Hz]. destruct (Hh z j Hz) as (s' & Hj' & Hss). rewrite Hj in Hj'. injection Hj' as <-.
    apply StronglySorted_inv in Hss as [_ Hss]. rewrite List.Forall_forall in Hss.
    apply (pre_trans entry_cmp e z x); [by eapply Hhead|by apply Hss]. }
  unfold next_entry. rewrite Hst. destruct rest as [|e' rest].
  - split; [split|split].
    + done.
    + intros x j Hx. apply (Hh x j). apply Hin. by right.
    + intros j x s Hj. destruct (Hf j x s Hj) as [z [[= -> ->]|Hz]%Hin]; [congruence|by exists z].
    + by rewrite Hp.
    + intros x Hx. apply Hall. rewrite Hp. cbn. by right.
  - pose proof (concat_insert_tail streams i e' rest Hst) as Hc. split; [split|split].
    + cbn. apply list.NoDup_cons. by split.
    + intros x j [[= <- <-]|Hx].
      * exists rest. rewrite list_lookup_insert_eq by (by eapply lookup_lt_Some). split; [done|].
        by apply StronglySorted_inv in Hsort as [Hsort _].
      * destruct (Hh x j) as (s & Hj & Hss); [apply Hin; by right|]. exists s. split; [|done].
        rewrite list_lookup_insert_ne; [done|]. apply not_eq_sym. by eapply Hne.
    + intros j x s Hj. destruct (decide (j = i)) as [->|Hji]; [exists e'; by left|].
      rewrite list_lookup_insert_ne in Hj by done. destruct (Hf j x s Hj) as [z [[= -> ->]|Hz]%Hin]; [done|]. exists z. by right.
    + rewrite Hp, Hc. cbn. f_equiv. by rewrite Permutation_middle.
    + intros x Hx. apply Hall. rewrite Hp, Hc. cbn in *. rewrite in_app_iff in *. cbn. naive_solver.
Qed.

Lemma popped_spec fuel heap streams : heap_ok heap streams ->
  (length (map fst heap ++ List.concat streams) <= fuel)%nat ->
  popped fuel heap streams ≡ₚ map fst heap ++ List.concat streams /\ StronglySorted entry_le (popped fuel heap streams).
Proof.
  revert heap streams. induction fuel as [|fuel IH]; intros heap streams Hok Hlen; cbn [popped].
  { destruct (map fst heap ++ List.concat streams); [by repeat constructor|cbn in Hlen; lia]. }
  destruct (heap_pop heap) as [[[e i] heap']|] eqn:Hpop.
  - pose proof (heap_ok_pop heap streams e i heap' Hok Hpop) as H. destruct (next_entry streams i) as [next streams'].
    set (heap'' := match next with Some _ => _ | None => _ end) in *. destruct H as (Hok' & Hp & Hle).
    apply Permutation_length in Hp as Hl. cbn [length] in Hl.
    destruct (IH heap'' streams' Hok' ltac:(lia)) as [Hp' Hs']. split; [by rewrite Hp, Hp'|].
    constructor; [done|]. apply List.Forall_forall. intros x Hx. apply Hle. by rewrite <- Hp'.
  - pose proof (heap_pop_spec heap) as Hs. rewrite Hpop in Hs. subst. split; [|constructor]. cbn.
    destruct (List.concat streams) as [|x l] eqn:E; [done|]. exfalso.
    assert (Hin : In x (List.concat streams)) by (rewrite E; by left). apply in_concat in Hin as (s & Hs & Hx).
    apply list_elem_of_In, list_elem_of_lookup in Hs as [j Hj]. destruct s as [|y s]; [done|].
    by destruct (ho_full _ _ Hok j y s Hj).
Qed.

Lemma heap_start_spec files i : Forall (StronglySorted entry_le) files ->
  let '(heap, streams) := heap_start files i in
  NoDup (map snd heap) /\
  (forall e k, In (e, k) heap -> exists j rest, k = (i + j)%nat /\ streams !! j = Some rest /\ StronglySorted entry_le (e :: rest)) /\
  (forall j e rest, streams !! j = Some (e :: rest) -> exists x, In (x, (i + j)%nat) heap) /\
  map fst heap ++ List.concat streams ≡ₚ List.concat files.
Proof.
  intros Hs. revert i. induction Hs as [|file files Hf Hfs IH]; intros i; cbn [heap_start]; [by repeat constructor|].
  specialize (IH (S i)). destruct (heap_start files (S i)) as [heap streams]. destruct IH as (Hn & Hh & Hfull & Hp).
  assert (Hh' : forall x e k, In (e, k) heap -> exists j rest, k = (i + j)%nat /\ (x :: streams) !! j = Some rest /\ StronglySorted entry_le (e :: rest)).
  { intros x e k Hk. destruct (Hh e k Hk) as (j & rest & -> & Hj & Hr). exists (S j), rest. split; [lia|done]. }
  assert (Hfull' : forall j e rest, streams !! j = Some (e :: rest) -> exists x, In (x, (i + S j)%nat) heap).
  { intros j e rest Hj. destruct (Hfull j e rest Hj) as [x Hx]. exists x. by replace (i + S j)%nat with (S i + j)%nat by lia. }
  destruct file as [|e rest].
  - split; [done|]. split; [by intros; apply Hh'|]. split; [|done]. intros [|j] x s Hj; [done|]. by eapply Hfull'.
  - split; [|split; [|split]].
    + cbn. apply list.NoDup_cons. split; [|done]. intros Hin. apply list_elem_of_In, in_map_iff in Hin as ((x & k) & E & Hx).
      destruct (Hh x k Hx) as (j & s & -> & _). cbn in E. lia.
    + intros x k [[= <- <-]|Hx]; [exists 0%nat, rest; split; [lia|done]|by apply Hh'].
    + intros [|j] x s Hj; [exists e; left; f_equal; lia|]. destruct (Hfull' j x s Hj) as [y Hy]. exists y. by right.
    + cbn. f_equiv. rewrite <- Hp. by rewrite !app_assoc, (Permutation_app_comm (map fst heap) rest).
Qed.

Lemma merged_entries_spec files : Forall (StronglySorted entry_le) files ->
  merged_entries files ≡ₚ List.concat files /\ StronglySorted entry_le (merged_entries files).
Proof.
  intros Hs. unfold merged_entries. pose proof (heap_start_spec files 0 Hs) as H.
  destruct (heap_start files 0) as [heap streams]. destruct H as (Hn & Hh & Hf & Hp).
  destruct (popped_spec (length (List.concat files)) heap streams) as [H1 H2]; [|by rewrite Hp|split; [by rewrite H1|done]].
  split; [done| |done]. intros e i Hi. destruct (Hh e i Hi) as (j & rest & -> & Hj). by exists rest.
Qed.

(** ** The groups are the keys *)

Definition same_internal (a b : Entry) : bool := bool_decide (internal a = internal b).
Definition with_key (k : bytes) (l : list Entry) : list Entry := List.filter (fun e => bytes_eqb (e_key e) k) l.
Definition u64_seqs (l : list Entry) : Prop := Forall (fun e => is_u64 (e_seq e)) l.

Lemma last_cons_default {A} (x y : A) l : List.last (x :: l) y = List.last l x.
Proof. revert x y. induction l as [|z l IH]; intros x y; [done|]. change (List.last (z :: l) y = List.last (z :: l) x). by rewrite !IH. Qed.

Lemma dedup_from_snoc prev l x :
  dedup_from same_internal prev (l ++ [x]) =
  dedup_from same_internal prev l ++ (if same_internal x (List.last l prev) then [] else [x]).
Proof.
  revert prev. induction l as [|y l IH]; intros prev; [cbn; by destruct (same_internal x prev)|].
  cbn [app dedup_from]. destruct (same_internal y prev) eqn:E.
  - rewrite IH. destruct l as [|z l]; [|done]. cbn [List.last]. apply bool_decide_eq_true in E.
    unfold same_internal. by rewrite E.
  - rewrite IH. by rewrite last_cons_default.
Qed.

Lemma dedup_snoc l x :
  dedup_by same_internal (l ++ [x]) =
  dedup_by same_internal l ++ (match list.last l with Some y => if same_internal x y then [] else [x] | None => [x] end).
Proof.
  destruct l as [|y l]; [done|]. cbn [app dedup_by]. rewrite dedup_from_snoc. cbn [app]. f_equal. f_equal.
  enough (H : list.last (y :: l) = Some (List.last l y)) by by rewrite H.
  clear x. revert y. induction l as [|z l IH]; intros y; [done|]. change (list.last (y :: z :: l)) with (list.last (z :: l)).
  by rewrite IH, last_cons_default.
Qed.

Lemma entry_le_keys a b : is_u64 (e_seq a) -> is_u64 (e_seq b) -> entry_le a b -> bytes_le (e_key a) (e_key b).
Proof.
  unfold entry_le, entry_cmp, internal. intros Ha Hb. rewrite compare_encoded by done. unfold internal_order. cbn.
  unfold bytes_le. by destruct (bytes_cmp (e_key a) (e_key b)).
Qed.

Lemma internal_inj_key a b : internal a = internal b -> e_key a = e_key b.
Proof.
  unfold internal, encode_internal_key. intros E. apply app_inj_2 in E as [E _]; [done|]. apply Nat2Z.inj.
  change (len (to_be 8 (u64_not (e_seq a)) ++ [e_type a]) = len (to_be 8 (u64_not (e_seq b)) ++ [e_type b])). by len_norm.
Qed.

Lemma with_key_snoc k l e : with_key k (l ++ [e]) = with_key k l ++ (if bytes_eqb (e_key e) k then [e] else []).
Proof. unfold with_key. rewrite List.filter_app. cbn. by destruct (bytes_eqb _ _). Qed.

Lemma with_key_self k l : Forall (fun e => e_key e = k) l -> with_key k l = l.
Proof. intros H. apply filter_all. eapply List.Forall_impl; [|exact H]. cbn. intros e. apply bool_decide_eq_true_2. Qed.

Lemma with_key_other k k' l : k <> k' -> Forall (fun e => e_key e = k) l -> with_key k' l = [].
Proof.
  intros Hne H. apply filter_none. eapply List.Forall_impl; [|exact H]. cbn. intros e ->. by apply bool_decide_eq_false_2.
Qed.

Section Loop.
Context (st : Stripes) (r : Retirement) (tombs : RangeTombstoneSet).
Hypothesis Hnofilter : s_filter st = None.

Definition visible_part (l : list Entry) : list Entry :=
  List.filter (fun e => negb (shadowed st tombs (e_key e) (e_seq e))) l.
(** What the loop makes of a key. *)
Definition key_result (k : bytes) (l : list Entry) : list Entry :=
  finish_group st r (visible_part (dedup_by same_internal (with_key k l))).

Lemma visible_part_keys k l : Forall (fun e => e_key e = k) (visible_part (dedup_by same_internal (with_key k l))).
Proof using.
  apply List.Forall_forall. intros e [He _]%filter_In.
  assert (Hin : In e (with_key k l)).
  { destruct (with_key k l) as [|x m]; [done|]. cbn in He. destruct He as [<-|He]; [by left|]. right.
    apply list_elem_of_In. apply list_elem_of_In in He. eapply elem_of_sublist; [exact He|apply dedup_from_sublist]. }
  apply filter_In in Hin as [_ Hk]. by apply bool_decide_eq_true in Hk.
Qed.

Lemma finish_group_keys k g : Forall (fun e => e_key e = k) g -> Forall (fun e => e_key e = k) (finish_group st r g).
Proof using Hnofilter.
  intros Hg. unfold finish_group.
  assert (Hr : Forall (fun e => e_key e = k) (reduce_group st g)).
  { rewrite List.Forall_forall in *. intros e He. apply reduce_group_from in He as (e' & He' & _ & <-); [|done]. by apply Hg. }
  unfold retire_deletion. destruct (list.last _) eqn:El; [|done]. destruct (_ && _); [|done].
  apply last_Some in El as [l' El]. rewrite El in *. rewrite removelast_last. by apply Forall_app in Hr as [Hr _].
Qed.

Lemma finish_group_nil : finish_group st r [] = [].
Proof using Hnofilter. unfold finish_group, reduce_group. by rewrite Hnofilter. Qed.

Record loop_inv (L : list Entry) (l : Loop) : Prop := {
  li_last : last_internal_key l = internal <$> list.last L;
  li_current : current_user_key l = e_key <$> list.last L;
  li_group : forall k, current_user_key l = Some k ->
    group l = visible_part (dedup_by same_internal (with_key k L)) /\ with_key k (List.concat (emitted l)) = [];
  li_start : current_user_key l = None -> group l = [];
  li_emitted : forall k, current_user_key l <> Some k -> with_key k (List.concat (emitted l)) = key_result k L;
}.

Lemma loop_inv_start : loop_inv [] (mkLoop None None [] []).
Proof using Hnofilter. split; try done. intros k _. unfold key_result. cbn. by rewrite finish_group_nil. Qed.

Lemma loop_inv_again L l e y : loop_inv L l -> list.last L = Some y -> internal y = internal e -> loop_inv (L ++ [e]) l.
Proof using.
  intros [H1 H2 H3 H4 H5] Hy E. pose proof (internal_inj_key _ _ E) as Ek. rewrite Hy in H1, H2. cbn in H1, H2.
  assert (Hw : forall k, visible_part (dedup_by same_internal (with_key k (L ++ [e]))) =
                         visible_part (dedup_by same_internal (with_key k L))).
  { intros k. rewrite with_key_snoc. destruct (bytes_eqb_spec (e_key e) k) as [<-|]; [|by rewrite app_nil_r].
    rewrite dedup_snoc. apply last_Some in Hy as [L0 ->]. rewrite with_key_snoc, Ek.
    rewrite (bool_decide_eq_true_2 _ eq_refl : bytes_eqb _ _ = true), list.last_snoc.
    unfold same_internal at 2. rewrite bool_decide_eq_true_2 by done. by rewrite app_nil_r. }
  split.
  - by rewrite list.last_snoc, H1; cbn; rewrite E.
  - by rewrite list.last_snoc, H2; cbn; rewrite Ek.
  - intros k Hk. by rewrite Hw; apply H3.
  - done.
  - intros k Hk. unfold key_result. rewrite Hw. by apply H5.
Qed.

Lemma visible_part_one e : visible_part [e] = if shadowed st tombs (e_key e) (e_seq e) then [] else [e].
Proof using. cbn. by destruct (shadowed _ _ _ _). Qed.

(** A key other than the last one has not come before. *)
Lemma next_key_is_new L e y : StronglySorted entry_le (L ++ [e]) -> u64_seqs (L ++ [e]) -> list.last L = Some y ->
  e_key y <> e_key e -> with_key (e_key e) L = [].
Proof using.
  intros Hs Hu Hy Hk. apply filter_none. apply List.Forall_forall. intros x Hx. apply bool_decide_eq_false_2. intros Ex. apply Hk.
  unfold u64_seqs in Hu. rewrite List.Forall_forall in Hu.
  assert (Huo : forall z, In z L -> is_u64 (e_seq z)) by (intros z Hz; apply Hu, in_app_iff; by left).
  assert (Hue : is_u64 (e_seq e)) by (apply Hu, in_app_iff; right; by left).
  apply last_Some in Hy as [L0 ->]. apply bytes_le_antisym.
  - apply entry_le_keys; [apply Huo, in_app_iff; right; by left|done|].
    apply (StronglySorted_app_1_elem_of entry_le _ _ _ _ Hs); [apply elem_of_app; right|]; by apply list_elem_of_singleton.
  - rewrite <- Ex. rewrite <- app_assoc in Hs. cbn in Hs. apply in_app_iff in Hx as [Hx|[<-|[]]]; [|apply bytes_le_refl].
    apply entry_le_keys; [apply Huo, in_app_iff; by left|apply Huo, in_app_iff; right; by left|].
    apply (StronglySorted_app_1_elem_of entry_le _ _ _ _ Hs); [by apply list_elem_of_In|apply elem_of_cons; by left].
Qed.

Lemma loop_inv_step L l e : StronglySorted entry_le (L ++ [e]) -> u64_seqs (L ++ [e]) -> loop_inv L l ->
  loop_inv (L ++ [e]) (loop_step st r tombs l e).
Proof using Hnofilter.
  intros Hs Hu Hinv. pose proof Hinv as [H1 H2 H3 H4 H5]. unfold loop_step.
  destruct (bool_decide_reflect (last_internal_key l = Some (internal e))) as [El|Hne].
  { rewrite El in H1. destruct (list.last L) as [y|] eqn:Hy; [|done]. injection H1 as H1. by apply (loop_inv_again L l e y). }
  destruct (list.last L) as [y|] eqn:Hy; cbn in H1, H2; rewrite H2.
  2:{ apply last_None in Hy. subst L. cbn [app]. rewrite (H4 H2). split; cbn [last_internal_key current_user_key group emitted]; try done.
      - intros k [= <-]. change [e] with ([] ++ [e]) at 2. rewrite with_key_snoc.
        rewrite (bool_decide_eq_true_2 _ eq_refl : bytes_eqb _ _ = true). split.
        + cbn [app with_key List.filter dedup_by dedup_from]. by rewrite visible_part_one.
        + rewrite H5 by congruence. apply finish_group_nil.
      - intros k Hk. rewrite H5 by congruence. unfold key_result. change [e] with ([] ++ [e]). rewrite with_key_snoc.
        destruct (bytes_eqb_spec (e_key e) k); [congruence|done]. }
  assert (Hyk : forall k, e_key y = k -> exists m, with_key k L = m ++ [y]).
  { intros k <-. apply last_Some in Hy as [L0 ->]. rewrite with_key_snoc.
    rewrite (bool_decide_eq_true_2 _ eq_refl : bytes_eqb _ _ = true). by eexists. }
  destruct (bytes_eqb_spec (e_key y) (e_key e)) as [Ek|Hk].
  - split; cbn [last_internal_key current_user_key group emitted]; rewrite ?list.last_snoc; try done.
    + intros k [= <-]. destruct (H3 (e_key y) H2) as [Hg He]. rewrite Ek in Hg, He. split; [|done].
      rewrite with_key_snoc, (bool_decide_eq_true_2 _ eq_refl : bytes_eqb _ _ = true), dedup_snoc, Hg.
      destruct (Hyk (e_key e) Ek) as [m Hm]. rewrite Hm, list.last_snoc.
      rewrite (bool_decide_eq_false_2 _ : _ -> same_internal e y = false) by (rewrite H1 in Hne; congruence).
      unfold visible_part. rewrite List.filter_app. fold (visible_part [e]). rewrite visible_part_one.
      destruct (shadowed _ _ _ _); [by rewrite app_nil_r|done].
    + intros k Hk. rewrite H5 by congruence. unfold key_result. rewrite with_key_snoc.
      destruct (bytes_eqb_spec (e_key e) k); [congruence|by rewrite app_nil_r].
  - destruct (H3 (e_key y) H2) as [Hg He].
    pose proof (next_key_is_new L e y Hs Hu Hy Hk) as Hnew.
    assert (Hgk : Forall (fun x => e_key x = e_key y) (finish_group st r (group l))).
    { apply finish_group_keys. rewrite Hg. apply visible_part_keys. }
    split; cbn [last_internal_key current_user_key group emitted]; rewrite ?list.last_snoc; try done.
    + intros k [= <-]. split.
      * rewrite with_key_snoc, Hnew, (bool_decide_eq_true_2 _ eq_refl : bytes_eqb _ _ = true). cbn [app].
        by rewrite <- visible_part_one.
      * rewrite concat_app. cbn [List.concat]. rewrite app_nil_r. unfold with_key. rewrite List.filter_app.
        fold (with_key (e_key e) (List.concat (emitted l))) (with_key (e_key e) (finish_group st r (group l))).
        rewrite H5 by congruence. rewrite (with_key_other _ _ _ Hk Hgk). unfold key_result. rewrite Hnew. cbn.
        by rewrite finish_group_nil.
    + intros k Hke. rewrite concat_app. cbn [List.concat]. rewrite app_nil_r. unfold with_key at 1. rewrite List.filter_app.
      fold (with_key k (List.concat (emitted l))) (with_key k (finish_group st r (group l))).
      unfold key_result. rewrite with_key_snoc. destruct (bytes_eqb_spec (e_key e) k); [congruence|]. rewrite app_nil_r.
      destruct (decide (e_key y = k)) as [<-|Hyk'].
      * rewrite He, (with_key_self _ _ Hgk), Hg. done.
      * rewrite H5 by congruence. rewrite (with_key_other _ _ _ Hyk' Hgk), app_nil_r. done.
Qed.

End Loop.

Lemma reduced_groups_spec st r tombs L k : s_filter st = None -> StronglySorted entry_le L -> u64_seqs L ->
  with_key k (List.concat (reduced_groups st r tombs L)) = key_result st r tombs k L.
Proof.
  intros Hf Hs Hu. unfold reduced_groups. set (l := fold_left _ _ _).
  assert (Hinv : loop_inv st r tombs L l).
  { unfold l. clear l. induction L as [|e L IH] using rev_ind; [by apply loop_inv_start|].
    rewrite fold_left_app. cbn [fold_left]. apply loop_inv_step; [done|done|done|]. apply IH.
    - by apply StronglySorted_app_1_l in Hs.
    - by apply Forall_app in Hu as [Hu _]. }
  destruct Hinv as [_ _ H3 _ H5]. destruct (current_user_key l) as [c|] eqn:Ec; [|by apply H5].
  destruct (H3 c eq_refl) as [Hg He]. rewrite concat_app. cbn [List.concat]. rewrite app_nil_r.
  assert (Hk : Forall (fun x => e_key x = c) (finish_group st r (group l))).
  { apply finish_group_keys; [done|]. rewrite Hg. apply visible_part_keys. }
  unfold with_key. rewrite List.filter_app. fold (with_key k (List.concat (emitted l))) (with_key k (finish_group st r (group l))).
  destruct (decide (c = k)) as [<-|Hne].
  - by rewrite He, (with_key_self _ _ Hk), Hg.
  - rewrite (with_key_other _ _ _ Hne Hk), app_nil_r. apply H5. congruence.
Qed.

(** ** Tombstones over the outputs *)

Definition covered_by (ranges : list (bytes * bytes)) (k : bytes) : Prop :=
  exists s e, In (s, e) ranges /\ bytes_le s k /\ bytes_lt k e.
Definition range_nonempty (p : bytes * bytes) : Prop := bytes_lt p.1 p.2.
Definition apart (a b : bytes * bytes) : Prop := bytes_lt a.2 b.1.

Lemma deletes_app l l' k q : deletes (l ++ l') k q <-> deletes l k q \/ deletes l' k q.
Proof. unfold deletes. setoid_rewrite in_app_iff. naive_solver. Qed.

Lemma deletes_one s e n k q : deletes [mkTomb s e n] k q <-> q = n /\ bytes_le s k /\ bytes_lt k e.
Proof.
  unfold deletes. split.
  - intros (rt & [<-|[]] & <- & Hc). unfold covers in Hc. cbn in *. revert Hc. by do 2 bcase.
  - intros (-> & Hs & He). exists (mkTomb s e n). split; [by left|]. split; [done|]. unfold covers. cbn.
    by do 2 bcase.
Qed.

Lemma deletes_nil k q : ~ deletes [] k q.
Proof. by intros (rt & [] & _). Qed.

Lemma covered_cons s e ranges k : covered_by ((s, e) :: ranges) k <-> (bytes_le s k /\ bytes_lt k e) \/ covered_by ranges k.
Proof.
  unfold covered_by. split.
  - intros (s' & e' & [E|Hin] & Hse); [injection E as <- <-; by left|right; by exists s', e'].
  - intros [Hse|(s' & e' & Hin & Hse)]; [exists s, e; split; [by left|done]|exists s', e'; split; [by right|done]].
Qed.

(** Ranges that start past a key do not hold it. *)
Lemma covered_after a ranges k : Forall (apart a) ranges -> bytes_lt k a.2 -> ~ covered_by ranges k.
Proof.
  intros H Hk (s & e & Hin & Hs & _). rewrite List.Forall_forall in H. specialize (H _ Hin). unfold apart in H. cbn in H.
  border.
Qed.

Lemma uncovered_of_spec rt cursor covered k q : StronglySorted apart covered -> Forall range_nonempty covered ->
  deletes (uncovered_of rt cursor covered) k q <->
  q = seq rt /\ bytes_le cursor k /\ bytes_lt k (end_ rt) /\ ~ covered_by covered k.
Proof.
  intros Hs. revert cursor. induction Hs as [|[cs ce] covered Hs IH Ha]; intros cursor Hn; cbn [uncovered_of].
  - assert (Hno : ~ covered_by [] k) by (by intros (s & e & [] & _)).
    destruct (bytes_ltb_spec cursor (end_ rt)) as [Hlt|Hge]; [rewrite deletes_one; tauto|].
    split; [intros H; by apply deletes_nil in H|]. intros (_ & H1 & H2 & _). exfalso. border.
  - inversion Hn as [|? ? Hce Hn']; subst. unfold range_nonempty in Hce. cbn in Hce. specialize (fun c => IH c Hn').
    rewrite covered_cons. pose proof (covered_after _ _ k Ha) as Hafter. cbn [snd] in Hafter.
    destruct (bytes_leb_spec ce cursor) as [Hc1|Hc1].
    { rewrite IH. split; [|tauto]. intros (-> & H1 & H2 & H3). split_and!; try done. intros [[_ H]|H]; [border|done]. }
    destruct (bytes_leb_spec (end_ rt) cs) as [Hc2|Hc2].
    { assert (Hno : bytes_lt k (end_ rt) -> ~ (bytes_le cs k /\ bytes_lt k ce \/ covered_by covered k)).
      { intros Hk [[H _]|H]; [border|]. revert H. apply Hafter. border. }
      destruct (bytes_ltb_spec cursor (end_ rt)) as [Hlt|Hge]; [rewrite deletes_one; tauto|].
      split; [intros H; by apply deletes_nil in H|]. intros (_ & H1 & H2 & _). exfalso. border. }
    assert (Hmin : min_key cs (end_ rt) = cs) by (unfold min_key; bcase; [done|exfalso; border]).
    assert (Hmax : max_key ce cursor = ce) by (unfold max_key; bcase; [done|exfalso; border]).
    assert (Hcur : (if bytes_ltb cursor ce then max_key ce cursor else cursor) = ce) by (bcase; [done|exfalso; border]).
    rewrite Hcur, Hmin. set (fragment := if bytes_ltb cursor cs then _ else _).
    assert (Hfrag : deletes fragment k q <-> q = seq rt /\ bytes_le cursor k /\ bytes_lt k cs).
    { unfold fragment. bcase; [apply deletes_one|]. split; [intros H; by apply deletes_nil in H|].
      intros (_ & H1 & H2). exfalso. border. }
    clearbody fragment. destruct (bytes_leb_spec (end_ rt) ce) as [Hend|Hend].
    + rewrite Hfrag. split.
      * intros (-> & H1 & H2). split_and!; [done|done|border|]. intros [[H _]|H]; [border|]. revert H. apply Hafter. border.
      * intros (-> & H1 & H2 & H3). split_and!; [done|done|]. destruct (bytes_le_total cs k) as [H|H]; [|done].
        exfalso. apply H3. left. split; [done|border].
    + rewrite deletes_app, Hfrag, IH. split.
      * intros [(-> & H1 & H2)|(-> & H1 & H2 & H3)].
        -- split_and!; [done|done|border|]. intros [[H _]|H]; [border|]. revert H. apply Hafter. border.
        -- split_and!; [done|border|done|]. intros [[_ H]|H]; [border|done].
      * intros (-> & H1 & H2 & H3). destruct (bytes_le_total cs k) as [H|H]; [|by left].
        right. split_and!; try done; [|tauto]. destruct (bytes_le_total ce k) as [H'|H']; [done|]. exfalso. tauto.
Qed.

Lemma range_cmp_le a b : range_cmp a b <> Gt <-> bytes_lt a.1 b.1 \/ a.1 = b.1 /\ bytes_le a.2 b.2.
Proof.
  unfold range_cmp, then_with, bytes_lt, bytes_le. rewrite <- bytes_cmp_eq. destruct (bytes_cmp a.1 b.1); naive_solver.
Qed.

#[export] Instance range_cmp_preorder : PreorderCmp range_cmp.
Proof.
  split.
  - intros x y. unfold range_cmp, then_with. rewrite (bytes_cmp_opp x.1 y.1), (bytes_cmp_opp x.2 y.2).
    by destruct (bytes_cmp x.1 y.1), (bytes_cmp x.2 y.2).
  - intros x y z. rewrite !range_cmp_le. intros [H1|[E1 H1]] [H2|[E2 H2]].
    + left. by eapply bytes_lt_trans.
    + left. by rewrite <- E2.
    + left. by rewrite E1.
    + right. split; [congruence|]. by eapply bytes_le_trans.
Qed.

Lemma range_cmp_starts a b : range_cmp a b <> Gt -> bytes_le a.1 b.1.
Proof. unfold range_cmp, then_with, bytes_le. by destruct (bytes_cmp a.1 b.1). Qed.

Lemma merge_sorted_spec merged ranges :
  StronglySorted (fun a b => apart b a) merged -> Forall range_nonempty merged -> Forall range_nonempty ranges ->
  StronglySorted (fun a b => bytes_le a.1 b.1) ranges ->
  (forall m p, In m merged -> In p ranges -> bytes_le m.1 p.1) ->
  let out := merge_sorted_ranges merged ranges in
  StronglySorted apart out /\ Forall range_nonempty out /\
  forall k, covered_by out k <-> covered_by merged k \/ covered_by ranges k.
Proof.
  revert merged. induction ranges as [|[s e] ranges IH]; intros merged Hm Hn Hr Hs Hle; cbn [merge_sorted_ranges].
  - split_and!.
    + clear - Hm. induction Hm as [|x l Hl IH Hx]; [constructor|]. cbn. apply StronglySorted_app_2; [|done|by repeat constructor].
      intros a b Ha Hb. apply list_elem_of_singleton in Hb as ->. rewrite List.Forall_forall in Hx. apply Hx.
      apply list_elem_of_In in Ha. by apply in_rev.
    + by apply Forall_rev.
    + intros k. unfold covered_by. setoid_rewrite <- in_rev. split; [by left|]. intros [H|(s & e & [] & _)]. done.
  - apply StronglySorted_inv in Hs as [Hs Hse]. inversion Hr as [|? ? Hne Hr']; subst. rewrite List.Forall_forall in Hse.
    destruct merged as [|[ms me] rest].
    { destruct (IH [(s, e)]) as (H1 & H2 & H3); [by repeat constructor|by repeat constructor|done|done| |].
      - intros m p [<-|[]] Hp. by apply (Hse p).
      - split_and!; [done|done|]. intros k. rewrite H3, !covered_cons. split; [|tauto]. intros [[H|(a & b & [] & _)]|H]; tauto. }
    pose proof (Hle (ms, me) (s, e) (or_introl eq_refl) (or_introl eq_refl)) as Hmss. cbn in Hmss.
    apply StronglySorted_inv in Hm as [Hm Hmr]. inversion Hn as [|? ? Hme Hn']; subst. unfold range_nonempty in Hme, Hne. cbn in Hme, Hne.
    destruct (bytes_leb_spec s me) as [Hsm|Hsm].
    + set (me' := if bytes_ltb me e then e else me).
      assert (Hme' : bytes_le me me' /\ bytes_le e me' /\ (me' = e \/ me' = me)).
      { unfold me'. bcase; split_and!; try (by left); try (by right); try apply bytes_le_refl; border. }
      destruct Hme' as (Hb1 & Hb2 & Hb3). clearbody me'.
      destruct (IH ((ms, me') :: rest)) as (H1 & H2 & H3); [by constructor| |done|done| |].
      * constructor; [|done]. unfold range_nonempty. cbn. border.
      * intros m p [<-|Hin] Hp; [|apply Hle; by right]. cbn. apply (bytes_le_trans _ s); [done|]. by apply (Hse p).
      * split_and!; [done|done|]. intros k. rewrite H3, !covered_cons.
        assert (Hk : bytes_le ms k /\ bytes_lt k me' <-> (bytes_le ms k /\ bytes_lt k me) \/ (bytes_le s k /\ bytes_lt k e)); [|tauto].
        split.
        -- intros [Ha Hb]. destruct (bytes_le_total me k) as [Hc|Hc]; [|by left]. right. split; [border|].
           destruct Hb3 as [->| ->]; [done|]. exfalso. border.
        -- intros [[Ha Hb]|[Ha Hb]]; split; border.
    + destruct (IH ((s, e) :: (ms, me) :: rest)) as (H1 & H2 & H3); [| |done|done| |].
      * assert (Hap : apart (ms, me) (s, e)) by (unfold apart; cbn; border).
        constructor; [by constructor|]. constructor; [done|]. rewrite List.Forall_forall in *. intros p Hp.
        specialize (Hmr p Hp). unfold apart in *. cbn in *. border.
      * by repeat constructor.
      * intros m p [<-|Hin] Hp; [by apply (Hse p)|apply Hle; [done|by right]].
      * split_and!; [done|done|]. intros k. rewrite H3, !covered_cons. tauto.
Qed.

Lemma merge_key_ranges_spec ranges :
  let out := merge_key_ranges ranges in
  StronglySorted apart out /\ Forall range_nonempty out /\ forall k, covered_by out k <-> covered_by ranges k.
Proof.
  unfold merge_key_ranges. set (kept := List.filter _ ranges).
  assert (Hin : forall p, In p (sort_by range_cmp kept) <-> In p ranges /\ range_nonempty p).
  { intros p. rewrite sort_by_In. unfold kept. rewrite filter_In. destruct p as [s e]. unfold range_nonempty. cbn.
    destruct (bytes_ltb_spec s e); naive_solver. }
  destruct (merge_sorted_spec [] (sort_by range_cmp kept)) as (H1 & H2 & H3).
  - constructor.
  - constructor.
  - apply List.Forall_forall. intros p Hp. by apply Hin.
  - eapply sorted_impl; [apply range_cmp_starts|]. apply (sort_by_sorted range_cmp).
  - by intros m p [].
  - split_and!; [done|done|]. intros k. rewrite H3. split.
    + intros [(s & e & [] & _)|(s & e & Hp & H)]. apply Hin in Hp as [Hp _]. by exists s, e.
    + intros (s & e & Hp & Hs & He). right. exists s, e. split; [|done]. apply Hin. split; [done|]. unfold range_nonempty. cbn. border.
Qed.

Lemma uncovered_spec tombs covered k q :
  deletes (uncovered_range_tombstone_fragments tombs covered) k q <-> deletes tombs k q /\ ~ covered_by covered k.
Proof.
  destruct (merge_key_ranges_spec covered) as (H1 & H2 & H3). rewrite <- H3.
  unfold uncovered_range_tombstone_fragments. set (cov := merge_key_ranges covered) in *.
  rewrite (deletes_ext _ (flat_map (fun rt => uncovered_of rt (start rt) cov) tombs)); [|intros x Hx _; by apply sort_dedup_In..].
  induction tombs as [|rt tombs IH]; cbn [flat_map]; [split; [intros H; by apply deletes_nil in H|intros [H _]; by apply deletes_nil in H]|].
  rewrite deletes_app, IH, uncovered_of_spec by done. change (rt :: tombs) with ([rt] ++ tombs). rewrite deletes_app.
  destruct rt as [s e n]. cbn [start end_ seq]. rewrite deletes_one. tauto.
Qed.

Lemma group_fragments_concat current current_end fragments :
  List.concat (group_fragments current current_end fragments) = current ++ fragments.
Proof.
  revert current current_end. induction fragments as [|rt fragments IH]; intros current current_end; cbn [group_fragments].
  - destruct current; cbn; by rewrite ?app_nil_r.
  - destruct current_end as [e|]; [destruct (bytes_ltb e (start rt))|]; cbn [app List.concat]; rewrite IH; cbn; by rewrite <- ?app_assoc.
Qed.

Definition outs_entries (outs : list OutTable) : list Entry := flat_map o_entries outs.
Definition outs_tombstones (outs : list OutTable) : list RangeTombstone := flat_map o_tombstones outs.

Lemma only_file_holds chunk :
  outs_tombstones (range_tombstone_only_file chunk) = chunk /\ outs_entries (range_tombstone_only_file chunk) = [].
Proof.
  unfold range_tombstone_only_file. pose proof (table_key_range_spec None chunk) as H.
  destruct (table_key_range None chunk) as [[lo hi]|]; cbn; [by rewrite app_nil_r|]. by destruct H as [_ ->].
Qed.

Lemma only_files_hold chunks :
  outs_tombstones (flat_map range_tombstone_only_file chunks) = List.concat chunks /\
  outs_entries (flat_map range_tombstone_only_file chunks) = [].
Proof.
  unfold outs_tombstones, outs_entries. induction chunks as [|c chunks [IH1 IH2]]; [done|]. cbn [flat_map List.concat].
  destruct (only_file_holds c) as [H1 H2]. unfold outs_tombstones, outs_entries in H1, H2. by rewrite !flat_map_app, IH1, IH2, H1, H2.
Qed.

(** ** The writer loses nothing *)

Section WriterOk.
Context (target_file_size : Z) (l : list RangeTombstone).

Definition out_range (o : OutTable) : bytes * bytes := (o_smallest o, exclusive_successor (o_largest o)).
Definition written (w : StreamingCompactionWriter) : list Entry :=
  outs_entries (outputs w) ++ match current w with Some b => b_entries b | None => [] end.

Record writer_ok (w : StreamingCompactionWriter) : Prop := {
  wo_current : forall b, current w = Some b ->
    b_entries b <> [] /\ is_Some (smallest_user_key b) /\ is_Some (largest_user_key b);
  wo_ranges : point_ranges w = map out_range (outputs w);
  wo_tombs : forall k q, deletes (outs_tombstones (outputs w)) k q <-> deletes l k q /\ covered_by (point_ranges w) k;
}.

Lemma covered_snoc ranges s e k : covered_by (ranges ++ [(s, e)]) k <-> covered_by ranges k \/ (bytes_le s k /\ bytes_lt k e).
Proof using.
  unfold covered_by. setoid_rewrite in_app_iff. split.
  - intros (a & b & [H|[[= <- <-]|[]]] & Hab); [left; by exists a, b|by right].
  - intros [(a & b & H & Hab)|H]; [exists a, b; tauto|]. exists s, e. split; [right; by left|done].
Qed.

Lemma covered_dec ranges k : covered_by ranges k \/ ~ covered_by ranges k.
Proof using.
  induction ranges as [|[s e] ranges IH]; [right; by intros (s & e & [] & _)|]. rewrite covered_cons.
  destruct (bytes_le_total s k) as [Hs|Hs]; [destruct (bytes_le_total e k) as [He|He]|]; [..|].
  - destruct IH as [IH|IH]; [tauto|]. right. intros [[_ H]|H]; [border|done].
  - left. by left.
  - destruct IH as [IH|IH]; [tauto|]. right. intros [[H _]|H]; [border|done].
Qed.

Lemma finish_current_ok w : writer_ok w ->
  exists w', finish_current (from_vec l) w = Ok w' /\ writer_ok w' /\ current w' = None /\ written w' = written w.
Proof using.
  intros Hw. pose proof Hw as [Hc Hr Ht]. unfold finish_current. destruct (current w) as [b|] eqn:Ec.
  2:{ by exists w. }
  destruct (Hc b eq_refl) as (Hne & [s Es] & [g Eg]). rewrite Es, Eg.
  destruct (clipped_overlaps_deletes l s (exclusive_successor g)) as (clipped & -> & Hcl). run.
  destruct (b_entries b) as [|e es] eqn:Eb; [done|]. eexists. split; [reflexivity|]. split_and!.
  - split; cbn [current point_ranges outputs].
    + done.
    + by rewrite map_app, Hr.
    + intros k q. unfold outs_tombstones. rewrite flat_map_app. cbn [flat_map o_tombstones]. rewrite app_nil_r.
      rewrite deletes_app, Ht, Hcl, covered_snoc. tauto.
  - done.
  - unfold written, outs_entries. cbn [current outputs]. rewrite flat_map_app, Ec. cbn. by rewrite Eb, !app_nil_r.
Qed.

Lemma add_group_ok w g : writer_ok w ->
  exists w', add_group target_file_size (from_vec l) w g = Ok w' /\ writer_ok w' /\ written w' = written w ++ g.
Proof using.
  intros Hw. unfold add_group. destruct g as [|first g]; [exists w; by rewrite app_nil_r|].
  assert (Hfull : exists w', (if match current w with Some b => target_file_size <=? estimated_size b | None => false end
    then finish_current (from_vec l) w else Ok w) = Ok w' /\ writer_ok w' /\ written w' = written w).
  { destruct (match current w with Some b => _ | None => false end); [|by exists w].
    destruct (finish_current_ok w Hw) as (w' & H1 & H2 & _ & H3). by exists w'. }
  destruct Hfull as (w' & -> & [Hc Hr Ht] & <-). run. eexists. split; [reflexivity|]. split.
  - split; cbn [current point_ranges outputs]; [|done|done]. intros b [= <-]. cbn.
    split_and!; [|destruct (smallest_user_key _); by eexists|by eexists]. intros E. by apply app_eq_nil in E as [_ E].
  - unfold written. cbn [current outputs b_entries]. rewrite <- app_assoc. do 2 f_equal. unfold ensure_current.
    by destruct (current w').
Qed.

Lemma add_groups_ok groups w : writer_ok w ->
  exists w', add_groups target_file_size (from_vec l) w groups = Ok w' /\ writer_ok w' /\ written w' = written w ++ List.concat groups.
Proof using.
  revert w. induction groups as [|g groups IH]; intros w Hw; cbn [add_groups List.concat].
  { exists w. by rewrite app_nil_r. }
  destruct (add_group_ok w g Hw) as (w' & -> & Hw' & E). run.
  destruct (IH w' Hw') as (w'' & -> & Hw'' & E'). exists w''. by rewrite E', E, <- app_assoc.
Qed.

Lemma finish_ok w : writer_ok w ->
  exists outs, finish (from_vec l) w = Ok outs /\ outs_entries outs = written w /\
    forall k q, deletes (outs_tombstones outs) k q <-> deletes l k q.
Proof using.
  intros Hw. unfold finish. destruct (finish_current_ok w Hw) as (w' & -> & [_ _ Ht] & Hn & <-). run.
  eexists. split; [reflexivity|]. unfold written. rewrite Hn. unfold outs_entries, outs_tombstones. rewrite !flat_map_app.
  unfold write_uncovered_range_tombstones. change (tombstones (from_vec l)) with (sort_dedup_tombstones l).
  assert (Hl : forall k q, deletes (sort_dedup_tombstones l) k q <-> deletes l k q).
  { intros k q. apply deletes_ext; intros x Hx _; by apply sort_dedup_In. }
  destruct (Nat.eqb_spec (length (sort_dedup_tombstones l)) 0) as [E|E].
  - split; [done|]. intros k q. cbn. rewrite app_nil_r. fold (outs_tombstones (outputs w')). rewrite Ht. apply nil_length_inv in E.
    specialize (Hl k q). rewrite E in Hl. split; [tauto|]. intros H. apply Hl in H. by apply deletes_nil in H.
  - pose proof (uncovered_spec (sort_dedup_tombstones l) (point_ranges w')) as Hunc.
    set (uncovered := uncovered_range_tombstone_fragments _ _) in *. clearbody uncovered.
    destruct (only_files_hold (group_range_tombstone_fragments uncovered)) as [H1 H2].
    unfold outs_tombstones, outs_entries in H1, H2. rewrite H1, H2. split; [done|]. intros k q.
    fold (outs_tombstones (outputs w')). rewrite deletes_app, Ht.
    unfold group_range_tombstone_fragments. rewrite group_fragments_concat. cbn [app].
    rewrite (deletes_ext (sort_dedup_tombstones uncovered) uncovered) by (intros x Hx _; by apply sort_dedup_In).
    rewrite Hunc, Hl. destruct (covered_dec (point_ranges w') k); tauto.
Qed.

End WriterOk.

(** ** A pass and the reads over it *)

Definition entries_of (srcs : list Source) : list Entry := List.concat (map s_entries srcs).

Lemma entry_le_iff a b : is_u64 (e_seq a) -> is_u64 (e_seq b) -> e_key a = e_key b -> entry_le a b -> e_seq b <= e_seq a.
Proof.
  unfold entry_le, entry_cmp, internal. intros Ha Hb E. rewrite compare_encoded by done. unfold internal_order.
  rewrite E, bytes_cmp_refl. destruct (Z.compare_spec (e_seq b) (e_seq a)); lia || done.
Qed.

Lemma entry_before_le a b : is_u64 (e_seq a) -> is_u64 (e_seq b) -> entry_before a b -> entry_le a b.
Proof.
  unfold entry_le, entry_cmp, internal. intros Ha Hb. rewrite compare_encoded by done. unfold internal_order.
  intros [H|[-> H]]; [unfold bytes_lt in H; by rewrite H|]. rewrite bytes_cmp_refl.
  destruct (Z.compare_spec (e_seq b) (e_seq a)); lia || done.
Qed.

Lemma internal_inj_seq a b : is_u64 (e_seq a) -> is_u64 (e_seq b) -> internal a = internal b -> e_seq a = e_seq b.
Proof.
  intros Ha Hb E. pose proof (decode_encoded (e_key a) (e_seq a) (e_type a) Ha) as H1.
  pose proof (decode_encoded (e_key b) (e_seq b) (e_type b) Hb) as H2. unfold internal in E. rewrite E, H2 in H1. congruence.
Qed.

Lemma sorted_forall_impl {A} (P : A -> Prop) (R S : A -> A -> Prop) l :
  (forall a b, P a -> P b -> R a b -> S a b) -> Forall P l -> StronglySorted R l -> StronglySorted S l.
Proof.
  intros H HP. induction 1 as [|x l Hl IH Hx]; [constructor|]. inversion HP as [|? ? Px Pl]; subst. constructor; [by apply IH|].
  rewrite List.Forall_forall in *. intros y Hy. apply H; auto.
Qed.

Lemma dedup_from_id {A} (same : A -> A -> bool) prev l :
  StronglySorted (fun a b => same b a = false) (prev :: l) -> dedup_from same prev l = l.
Proof.
  revert prev. induction l as [|x l IH]; intros prev H; [done|]. apply StronglySorted_inv in H as [Hs Hx]. cbn [dedup_from].
  inversion Hx as [|? ? E _]; subst. by rewrite E, IH.
Qed.

Lemma dedup_id {A} (same : A -> A -> bool) l : StronglySorted (fun a b => same b a = false) l -> dedup_by same l = l.
Proof. destruct l as [|x l]; [done|]. intros H. cbn. by rewrite dedup_from_id. Qed.

Lemma newest_deletes l1 l2 k snap : (forall q, deletes l1 k q <-> deletes l2 k q) ->
  newest_covering l1 k snap = newest_covering l2 k snap.
Proof.
  intros H. apply Z.le_antisymm; apply newest_bound; (split; [apply newest_nonneg|]); intros x Hx Hq Hc;
    [destruct (proj1 (H (seq x))) as (y & Hy & Ey & Hcy)|destruct (proj2 (H (seq x))) as (y & Hy & Ey & Hcy)];
    try (by exists x); rewrite <- Ey; (eapply newest_bound; [reflexivity|done|lia|done]).
Qed.

Lemma key_entries_of key srcs : key_entries key srcs = map version_of (with_key key (entries_of srcs)).
Proof.
  unfold key_entries, entries_of, with_key. induction srcs as [|s srcs IH]; [done|]. cbn. by rewrite IH, List.filter_app, map_app.
Qed.

Lemma outs_sources outs : entries_of (map out_source outs) = outs_entries outs /\ tombstones_of (map out_source outs) = outs_tombstones outs.
Proof.
  unfold entries_of, outs_entries, tombstones_of, outs_tombstones. induction outs as [|o outs [IH1 IH2]]; [done|]. cbn.
  by rewrite IH1, IH2.
Qed.

(** What a pass needs of its inputs: tables in the order of the table format,
    with sequences of 64 bits, and, of the key, one version to a sequence. *)
Record inputs_ok (key : bytes) (inputs ins : list Source) : Prop := {
  io_perm : ins ≡ₚ inputs;
  io_sources : Forall source_ok inputs;
  io_seqs : u64_seqs (entries_of inputs);
  io_newest : StronglySorted (fun a b => e_seq b < e_seq a) (with_key key (entries_of ins));
}.

Section Inputs.
Context (key : bytes) (inputs ins : list Source).
Hypothesis Hok : inputs_ok key inputs ins.

Lemma inputs_sorted : Forall (StronglySorted entry_le) (map s_entries inputs).
Proof using Hok.
  apply List.Forall_forall. intros es (s & <- & Hs)%in_map_iff. pose proof (io_sources _ _ _ Hok) as Hsrc.
  rewrite List.Forall_forall in Hsrc. eapply (sorted_forall_impl (fun e => is_u64 (e_seq e))); [apply entry_before_le| |apply Hsrc, Hs].
  pose proof (io_seqs _ _ _ Hok) as Hu. unfold u64_seqs in Hu. rewrite List.Forall_forall in *. intros e He. apply Hu.
  apply in_concat. exists (s_entries s). split; [by apply in_map|done].
Qed.

Lemma merged_perm : merged_entries (map s_entries inputs) ≡ₚ entries_of ins.
Proof using Hok.
  rewrite (proj1 (merged_entries_spec _ inputs_sorted)). unfold entries_of. by rewrite (io_perm _ _ _ Hok).
Qed.

Lemma merged_seqs : u64_seqs (merged_entries (map s_entries inputs)).
Proof using Hok.
  unfold u64_seqs. rewrite merged_perm. unfold entries_of. rewrite (io_perm _ _ _ Hok). exact (io_seqs _ _ _ Hok).
Qed.

(** The merge puts the versions of a key newest first. *)
Lemma merged_key : with_key key (merged_entries (map s_entries inputs)) = with_key key (entries_of ins).
Proof using Hok.
  pose proof (io_newest _ _ _ Hok) as Hn. pose proof merged_seqs as Hu. pose proof merged_perm as Hp.
  destruct (merged_entries_spec _ inputs_sorted) as [_ Hs].
  assert (Hp' : with_key key (merged_entries (map s_entries inputs)) ≡ₚ with_key key (entries_of ins)).
  { unfold with_key. clear - Hp. induction Hp; cbn; repeat case_match; first [done|by constructor|by etransitivity]. }
  apply (StronglySorted_unique_strong (fun a b => e_seq b <= e_seq a)); [| | |done].
  - intros x y Hx Hy H1 H2. rewrite Hp', list_elem_of_In in Hx. rewrite list_elem_of_In in Hy.
    apply In_getz in Hx as [i Hi], Hy as [j Hj]. destruct (Z.lt_trichotomy i j) as [Hij|[->|Hij]]; [|congruence|].
    + pose proof (sorted_getz _ _ i j x y Hn Hi Hj Hij). cbn in *. lia.
    + pose proof (sorted_getz _ _ j i y x Hn Hj Hi Hij). cbn in *. lia.
  - eapply (sorted_forall_impl (fun e => is_u64 (e_seq e) /\ e_key e = key)); [| |apply sorted_filter, Hs].
    + intros a b [Ha Ea] [Hb Eb]. apply entry_le_iff; [done|done|congruence].
    + apply List.Forall_forall. intros e [He Hk]%filter_In. unfold u64_seqs in Hu. rewrite List.Forall_forall in Hu.
      split; [by apply Hu|by apply bool_decide_eq_true in Hk].
  - eapply sorted_impl; [|exact Hn]. cbn. lia.
Qed.

Lemma key_deduped : dedup_by same_internal (with_key key (entries_of ins)) = with_key key (entries_of ins).
Proof using Hok.
  apply dedup_id. eapply (sorted_forall_impl (fun e => is_u64 (e_seq e))); [| |exact (io_newest _ _ _ Hok)].
  - intros a b Ha Hb Hlt. apply bool_decide_eq_false_2. intros E. cbn in Hlt. apply internal_inj_seq in E; [lia|done|done].
  - rewrite <- merged_key. pose proof merged_seqs as Hu. unfold u64_seqs in Hu. rewrite List.Forall_forall in *.
    intros e [He _]%filter_In. by apply Hu.
Qed.

End Inputs.

Lemma writer_new_ok l : writer_ok l writer_new.
Proof. split; [done|done|]. intros k q. split; [intros H; by apply deletes_nil in H|]. by intros (_ & s & e & [] & _). Qed.

Lemma carried_is_set r l : exists lc, carried_tombstones r (from_vec l) = from_vec lc.
Proof. unfold carried_tombstones. destruct (_ =? _)%nat; by eexists. Qed.

Lemma compact_returns st r size inputs : exists outs, compact st r size inputs = Ok outs.
Proof.
  unfold compact. destruct (carried_is_set r (filtered_tombstones st (tombstones_of inputs))) as [lc ->].
  destruct (add_groups_ok size lc (reduced_groups st r (from_vec (filtered_tombstones st (tombstones_of inputs)))
    (merged_entries (map s_entries inputs))) writer_new (writer_new_ok lc)) as (w & -> & Hw & _).
  run. destruct (finish_ok lc w Hw) as (outs & -> & _). by exists outs.
Qed.

(** A pass returns, and its tables hold what the loop makes of each key and the
    deletions it carries. *)
Lemma compact_spec st r size key inputs ins : s_filter st = None -> inputs_ok key inputs ins ->
  let ti := tombstones_of inputs in
  exists outs, compact st r size inputs = Ok outs /\
    with_key key (outs_entries outs) = pass_key st r ti key (with_key key (entries_of ins)) /\
    forall k q, deletes (outs_tombstones outs) k q <-> deletes (tombstones (carried_tombstones r (from_vec ti))) k q.
Proof.
  intros Hf Hok ti. unfold compact, filtered_tombstones. rewrite Hf. fold ti.
  destruct (carried_is_set r ti) as [lc ->]. set (groups := reduced_groups _ _ _ _).
  destruct (add_groups_ok size lc groups writer_new (writer_new_ok lc)) as (w & -> & Hw & Ew).
  run. destruct (finish_ok lc w Hw) as (outs & -> & Ho & Ht). exists outs. split; [done|]. split.
  - rewrite Ho, Ew. cbn [app written writer_new outputs current outs_entries flat_map]. unfold groups.
    rewrite reduced_groups_spec; [|done|apply (merged_entries_spec _ (inputs_sorted _ _ _ Hok))|by eapply merged_seqs].
    unfold key_result, pass_key, finish_group, visible_part, unshadowed.
    rewrite (merged_key _ _ _ Hok), (key_deduped _ _ _ Hok). do 2 f_equal. apply List.filter_ext_in.
    intros e [_ Hk]%filter_In. apply bool_decide_eq_true in Hk. by rewrite Hk.
  - intros k q. rewrite Ht. apply deletes_ext; intros x Hx _; by apply sort_dedup_In.
Qed.

(** C15: A compaction pass without a filter keeps every read of a key none of whose
    writes shares its sequence with a range tombstone over it. For inputs that hold
    the key's versions between what is above and what is below them, in sequence
    order, and a merge operator that keeps the trait's two documented laws, the
    pass returns, and a reader at a snapshot the database still owes, or past every
    write of the inputs, reads the same value of the key, or the same merge error,
    from the outputs as from the inputs. So nothing a reader can see is dropped by
    the stripes, no deletion is retired while it hides something, no tombstone is
    lost between the outputs' ranges, and folding merge operands gives the value
    of the operands left alone. *)
Theorem compaction_keeps_reads st r size key snap inputs ins above below :
  let ti := tombstones_of inputs in
  let G := with_key key (entries_of ins) in
  inputs_ok key inputs ins -> pass_ok st r key ti G above below -> reader_ok st key snap ti G ->
  Forall (fun s => forall q, item key s q -> 0 < q) (above ++ below) ->
  exists outs, compact st r size inputs = Ok outs /\
    read_writes (s_merge st) key snap (above ++ map out_source outs ++ below) =
    read_writes (s_merge st) key snap (above ++ ins ++ below).
Proof.
  intros ti G Hin Hpass Hreader [Ha Hb]%Forall_app.
  destruct (compact_spec st r size key inputs ins (po_filter _ _ _ _ _ _ _ Hpass) Hin) as (outs & Hc & He & Ht).
  exists outs. split; [done|]. pose proof (pass_key_read _ _ _ _ _ _ _ _ Hpass Hreader Ha Hb) as Hread. cbv zeta in Hread.
  destruct (outs_sources outs) as [Hoe Hot].
  unfold read_writes. rewrite !key_entries_app, !(key_entries_of key (map _ _)), !(key_entries_of key ins), Hoe, He.
  assert (Hrt : forall srcs, newest_covering (tombstones_of (above ++ srcs ++ below)) key snap =
    Z.max (newest_covering (tombstones_of above) key snap)
      (Z.max (newest_covering (tombstones_of srcs) key snap) (newest_covering (tombstones_of below) key snap))).
  { intros srcs. unfold tombstones_of. by rewrite !flat_map_app, !newest_join. }
  rewrite !Hrt, Hot, (newest_deletes _ _ key snap (Ht key)).
  rewrite (newest_ext (tombstones_of ins) ti); [exact Hread|..]; intros x Hx _;
    unfold tombstones_of, ti in *; apply in_flat_map in Hx as (s & Hs & Hx); apply in_flat_map; exists s;
    (split; [|done]); [by rewrite <- (io_perm _ _ _ Hin)|by rewrite (io_perm _ _ _ Hin)].
Qed.

(** ** Checking a pass *)

Definition covering_seqs (key : bytes) (ti : list RangeTombstone) : list Z := map seq (List.filter (fun rt => covers rt key) ti).

Definition pass_okb (st : Stripes) (r : Retirement) (key : bytes) (ti : list RangeTombstone) (G : list Entry)
  (above below : list Source) : bool :=
  let seqs := map e_seq G ++ covering_seqs key ti in
  bool_decide (StronglySorted Z.lt (live st)) && bool_decide (oldest_live r = hd_error (live st)) &&
  bool_decide (Forall (fun e => e_key e = key /\ type_ok (e_type e) /\ 0 < e_seq e <= u64_max) G) &&
  bool_decide (Forall (fun rt => seq rt <= u64_max) ti) &&
  bool_decide (Forall (fun p => Forall (fun q => q < p) seqs) (flat_map (seqs_of key) above)) &&
  bool_decide (Forall (fun p => Forall (fun q => p < q) seqs) (flat_map (seqs_of key) below)) &&
  bool_decide (Forall (fun e => Forall (fun q => q <> e_seq e) (covering_seqs key ti)) G) &&
  bool_decide (Forall (fun files => Forall (fun m => bytes_le (smallest_key m) (largest_key m)) (map meta files) /\
    StronglySorted (fun a b => bytes_le (largest_key a) (smallest_key b)) (map meta files)) (deeper r)) &&
  ((length (flat_map (seqs_of key) below) =? 0)%nat ||
   existsb (fun f => bytes_leb (smallest_key (meta f)) key && bytes_leb key (largest_key (meta f))) (List.concat (deeper r) ++ older r)).

Lemma pass_seqs_spec key ti G (P : Z -> Prop) : Forall P (map e_seq G ++ covering_seqs key ti) ->
  (forall e, In e G -> P (e_seq e)) /\ (forall rt, In rt ti -> covers rt key = true -> P (seq rt)).
Proof.
  rewrite List.Forall_forall. intros H. split.
  - intros e He. apply H, in_app_iff. left. by apply in_map.
  - intros rt Hrt Hc. apply H, in_app_iff. right. apply in_map, filter_In. done.
Qed.

Lemma sources_seqs key srcs s q : s ∈ srcs -> item key s q -> In q (flat_map (seqs_of key) srcs).
Proof. intros Hs Hi. apply in_flat_map. exists s. split; [by apply list_elem_of_In|by apply item_seqs]. Qed.

Lemma pass_okb_sound st r key ti G above below : s_filter st = None -> (forall M, s_merge st = Some M -> MergeLaws M) ->
  pass_okb st r key ti G above below = true -> pass_ok st r key ti G above below.
Proof.
  intros Hf Hm. unfold pass_okb. rewrite !andb_true_iff. intros [[[[[[[[H1 H2] H3] H4] H5] H6] H7] H8] H9].
  apply bool_decide_eq_true in H1, H2, H3, H4, H5, H6, H7, H8. rewrite List.Forall_forall in H3, H5, H6, H7.
  split; try done.
  - apply List.Forall_forall. intros e He. by destruct (H3 e He) as (? & ? & _).
  - apply List.Forall_forall. intros e He. by destruct (H3 e He) as (_ & _ & ?).
  - intros s q Hs Hi. apply (pass_seqs_spec key ti G (fun x => x < q)). by eapply H5, sources_seqs.
  - intros s q Hs Hi. apply (pass_seqs_spec key ti G (fun x => q < x)). by eapply H6, sources_seqs.
  - intros e rt He Hrt Hc. specialize (H7 e He). rewrite List.Forall_forall in H7. apply H7, in_map, filter_In. done.
  - split; [done|]. intros s q Hs Hi. pose proof (sources_seqs _ _ _ _ Hs Hi) as Hq. apply orb_true_iff in H9 as [H9|H9].
    + apply Nat.eqb_eq, length_zero_iff_nil in H9. by rewrite H9 in Hq.
    + apply existsb_exists in H9 as (f & Hfin & Hb). apply andb_true_iff in Hb as [Hb1 Hb2].
      assert (Hspan : table_spans key f).
      { split; [by destruct (bytes_leb_spec (smallest_key (meta f)) key)|by destruct (bytes_leb_spec key (largest_key (meta f)))]. }
      apply in_app_iff in Hfin as [(files & Hfiles & Hff)%in_concat|Ho]; [left; by exists files, f|right; by exists f].
Qed.

(** A level merged into the one below, over an older table and under a memtable,
    with a snapshot between the two: operands above a range deletion newer than
    the snapshot, and an operand and its base that the snapshot still reads. *)
#[export] Instance join_laws : MergeLaws join_operator.
Proof.
  split; cbn [op_full_merge op_partial_merge join_operator].
  - intros k base pre l r m post [= <-]. do 2 f_equal. rewrite !concat_app. cbn. by rewrite <- app_assoc.
  - intros k base o ops. revert base o. induction ops as [|x ops IH]; intros base o; [done|].
    cbn [one_at_a_time op_full_merge join_operator mbind option_bind] in *. rewrite <- IH. f_equal. cbn.
    by rewrite app_nil_r, app_assoc.
Qed.

Definition sample_upper : Source := Eval vm_compute in
  Table [sample_entry 9 VALUE_TYPE_MERGE (str "c"); sample_entry 8 VALUE_TYPE_MERGE (str "b")]
        [mkTomb (str "cf00a") (str "cf00z") 7].
Definition sample_lower : Source := Eval vm_compute in
  Table [sample_entry 5 VALUE_TYPE_MERGE (str "y"); sample_entry 4 VALUE_TYPE_VALUE (str "x");
         mkEntry (str "cf00q") 3 VALUE_TYPE_DELETION []] [].
Definition sample_below : Source := Eval vm_compute in Table [sample_entry 2 VALUE_TYPE_VALUE (str "w")] [].
Definition sample_above : Source := Eval vm_compute in Memtable [sample_entry 12 VALUE_TYPE_MERGE (str "d")] log_new.
Definition sample_stripes : Stripes := mkStripes [6] None (Some join_operator) 1.
Definition sample_retirement : Retirement := Eval vm_compute in
  retirement_new 1
    (mkVersion [[sample_table (str "cf00a") (str "cf00z") 2 sample_upper]; [sample_table (str "cf00k") (str "cf00q") 2 sample_lower];
                [sample_table (str "cf00k") (str "cf00k") 1 sample_below]] 9 12 0 0)
    [sample_table (str "cf00a") (str "cf00z") 2 sample_upper; sample_table (str "cf00k") (str "cf00q") 2 sample_lower] (Some 6).
Definition sample_read (snap : Z) (mid : list Source) : outcome (option bytes) :=
  read_writes (Some join_operator) sample_key snap ([sample_above] ++ mid ++ [sample_below]).

Lemma compaction_keeps_reads_witness :
  (exists outs, compact sample_stripes sample_retirement 1 [sample_lower; sample_upper] = Ok outs /\
     sample_read 6 (map out_source outs) = Ok (Some (str "xy"))) /\
  (exists outs, compact sample_stripes sample_retirement 1 [sample_lower; sample_upper] = Ok outs /\
     sample_read 20 (map out_source outs) = Ok (Some (str "bcd"))).
Proof.
  set (G := with_key sample_key (entries_of [sample_upper; sample_lower])).
  assert (Hin : inputs_ok sample_key [sample_lower; sample_upper] [sample_upper; sample_lower]).
  { split; [apply perm_swap|..].
    - apply List.Forall_forall. intros s [<-|[<-|[]]]; (split; [refine (bool_decide_unpack _ _); vm_compute; exact I..|done]).
    - unfold u64_seqs, is_u64. refine (bool_decide_unpack _ _). vm_compute. exact I.
    - refine (bool_decide_unpack _ _). vm_compute. exact I. }
  assert (Hpass : pass_ok sample_stripes sample_retirement sample_key (tombstones_of [sample_lower; sample_upper]) G [sample_above] [sample_below]).
  { apply pass_okb_sound; [done|intros M [= <-]; apply join_laws|vm_compute; reflexivity]. }
  assert (Hpos : Forall (fun s => forall q, item sample_key s q -> 0 < q) ([sample_above] ++ [sample_below])).
  { repeat constructor; intros q Hq; apply item_seqs in Hq; destruct Hq as [<-|[]]; done. }
  split.
  - assert (Hr : reader_ok sample_stripes sample_key 6 (tombstones_of [sample_lower; sample_upper]) G) by (left; by left).
    destruct (compaction_keeps_reads _ _ 1 _ 6 _ _ _ _ Hin Hpass Hr Hpos) as (outs & Hc & Hread).
    exists outs. split; [exact Hc|]. etransitivity; [exact Hread|]. computed.
  - assert (Hr : reader_ok sample_stripes sample_key 20 (tombstones_of [sample_lower; sample_upper]) G).
    { right. apply (pass_seqs_spec sample_key (tombstones_of [sample_lower; sample_upper]) G (fun q => q <= 20)).
      refine (bool_decide_unpack _ _). vm_compute. exact I. }
    destruct (compaction_keeps_reads _ _ 1 _ 20 _ _ _ _ Hin Hpass Hr Hpos) as (outs & Hc & Hread).
    exists outs. split; [exact Hc|]. etransitivity; [exact Hread|]. computed.
Defined.

(** A table copied out of another database, a point and a range tombstone over
    it, ingested at a sequence. *)
Definition copied_table : Source :=
  Table [sample_entry 4 VALUE_TYPE_VALUE (str "x")] [mkTomb (str "cf00a") (str "cf00z") 3].
Definition copied_live : list (LiveSst Source) :=
  [sample_table (str "cf00a") (str "cf00z") 1 (with_global_seq copied_table (Some 9))].
Definition copied_retirement : Retirement := retirement_new 1 (mkVersion [copied_live; []] 9 9 0 0) copied_live None.
Definition quiet_view (l0 l1 : list (LiveSst Source)) : ReadView :=
  mkView (Memtable [] log_new) [] (mkVersion [l0; l1] 9 9 0 0).

(** Sources that hold nothing of the key. *)
Lemma no_items_read key srcs snap : (forall s p, s ∈ srcs -> ~ item key s p) ->
  key_entries key srcs = [] /\ newest_covering (tombstones_of srcs) key snap = 0.
Proof.
  intros H. split; [by apply key_entries_none|]. apply newest_none. intros rt (s & Hs & Hrt)%in_flat_map.
  destruct (covers rt key) eqn:E; [|done]. destruct (H s (seq rt)); [by apply list_elem_of_In|]. right. exists rt.
  split; [by apply list_elem_of_In|done].
Qed.

(** The read of a key all of whose writes are in the middle. *)
Lemma read_middle op key snap above mid below : (forall s p, s ∈ above ++ below -> ~ item key s p) ->
  read_writes op key snap (above ++ mid ++ below) =
  read_versions op key (List.filter (visible (newest_covering (tombstones_of mid) key snap) snap)
    (map version_of (with_key key (entries_of mid)))).
Proof.
  intros H. destruct (no_items_read key above snap) as [Ea Na]; [intros s p Hs; apply H, elem_of_app; by left|].
  destruct (no_items_read key below snap) as [Eb Nb]; [intros s p Hs; apply H, elem_of_app; by right|].
  unfold read_writes, tombstones_of in *. rewrite !key_entries_app, Ea, Eb, (key_entries_of key mid), app_nil_r.
  rewrite !flat_map_app, !newest_join, Na, Nb. pose proof (newest_nonneg (flat_map s_tombstones mid) key snap).
  by rewrite (Z.max_l _ 0), Z.max_r by lia.
Qed.

(** C39: A range deletion at a point's own sequence is read one way and compacted
    the other. Take a pass without a filter whose inputs hold one write of a key, a
    value, and range tombstones over it of which the newest is at the value's own
    sequence, as the point and the tombstone of one ingested table are; nothing
    else of the key anywhere; and nothing that keeps the pass from retiring those
    tombstones, neither a snapshot nor a table below. A read hides the value,
    since only a greater sequence escapes a tombstone; the pass keeps it, since
    only a smaller one is shadowed, and drops the tombstones; so every view with
    the outputs in the place of the inputs reads the deleted value. *)
Theorem same_sequence_delete_resurfaces st r size key q v inputs ins above below snap view :
  let ti := tombstones_of inputs in
  s_filter st = None -> inputs_ok key inputs ins -> with_key key (entries_of ins) = [mkEntry key q VALUE_TYPE_VALUE v] ->
  0 < q <= snap -> (exists rt, In rt ti /\ covers rt key = true /\ seq rt = q) ->
  (forall rt, In rt ti -> covers rt key = true -> seq rt <= q /\ keeps_tombstone r rt = false) ->
  (forall s p, s ∈ above ++ below -> ~ item key s p) -> view_ok key view -> all_sources view = above ++ ins ++ below ->
  lookup_loaded (s_merge st) key snap view = Ok None /\
  exists outs, compact st r size inputs = Ok outs /\
    forall view', view_ok key view' -> all_sources view' = above ++ map out_source outs ++ below ->
      lookup_loaded (s_merge st) key snap view' = Ok (Some v).
Proof.
  intros ti Hf Hin HG Hq (rt & Hrt & Hc & Es) Hall Hno Hv Esrc.
  destruct (compact_spec st r size key inputs ins Hf Hin) as (outs & Hcomp & He & Ht). fold ti in He, Ht. rewrite HG in He.
  assert (Hb : forall m, newest_covering ti key m <= q).
  { intros m. apply newest_bound. split; [lia|]. intros x Hx _ Hcx. by apply Hall. }
  split.
  - rewrite lookup_reads_writes by done. rewrite Esrc, read_middle, HG by done.
    rewrite (newest_ext (tombstones_of ins) ti key snap).
    2,3: intros x Hx _; unfold tombstones_of, ti in *; apply in_flat_map in Hx as (s & Hs & Hx); apply in_flat_map; exists s;
      (split; [|done]); first [by rewrite <- (io_perm _ _ _ Hin)|by rewrite (io_perm _ _ _ Hin)].
    assert (Hge : q <= newest_covering ti key snap).
    { rewrite <- Es. eapply newest_bound; [reflexivity|exact Hrt|lia|exact Hc]. }
    cbn [map List.filter]. unfold visible at 1. cbn [kv_seq version_of e_seq]. rewrite (proj2 (Z.ltb_ge _ _) Hge).
    by destruct (s_merge st).
  - exists outs. split; [done|]. intros view' Hv' Esrc'. rewrite lookup_reads_writes by done. rewrite Esrc', read_middle by done.
    destruct (outs_sources outs) as [Hoe Hot]. rewrite Hoe, Hot, He, (newest_deletes _ _ key snap (Ht key)).
    rewrite (newest_none _ key snap).
    2:{ intros x Hx. apply carried_In in Hx as [Hx Hk]. destruct (covers x key) eqn:Ex; [|done]. destruct (Hall x Hx Ex). congruence. }
    unfold pass_key, unshadowed. cbn [List.filter e_seq]. rewrite shadowed_spec by lia.
    rewrite (proj2 (Z.ltb_ge _ _) (Hb _)). cbn [negb]. unfold reduce_group. rewrite Hf. cbn.
    unfold visible. cbn. destruct (Z.ltb_spec 0 q); [|lia]. destruct (Z.leb_spec q snap); [|lia]. by destruct (s_merge st).
Qed.

Lemma same_sequence_delete_resurfaces_witness :
  lookup_loaded None sample_key 9 (quiet_view copied_live []) = Ok None /\
  exists outs, compact (mkStripes [] None None 1) copied_retirement 4096 (map sst_reader copied_live) = Ok outs /\
    forall view', view_ok sample_key view' -> all_sources view' = [Memtable [] log_new] ++ map out_source outs ++ [] ->
      lookup_loaded None sample_key 9 view' = Ok (Some (str "x")).
Proof.
  assert (Hv : view_ok sample_key (quiet_view copied_live [])).
  { apply view_okb_sound; [|computed]. repeat constructor; cbn [log_ok]; try done. exists []. by apply inv_alone. }
  apply (same_sequence_delete_resurfaces (mkStripes [] None None 1) copied_retirement 4096 sample_key 9 (str "x")
    (map sst_reader copied_live) (map sst_reader copied_live) [Memtable [] log_new] [] 9 (quiet_view copied_live []));
    [done| |computed|lia| | | |exact Hv|done].
  - split; [done| | |].
    + apply List.Forall_forall. intros s [<-|[]]. split; [refine (bool_decide_unpack _ _); vm_compute; exact I..|done].
    + unfold u64_seqs, is_u64. refine (bool_decide_unpack _ _). vm_compute. exact I.
    + refine (bool_decide_unpack _ _). vm_compute. exact I.
  - eexists. split; [by left|]. split; computed.
  - intros rt [<-|[]] _. split; [done|computed].
  - intros s p ->%list_elem_of_singleton [(e & He & _)|(rt & Hrt & _)]; [by apply elem_of_nil in He|].
    apply list_elem_of_In in Hrt. vm_compute in Hrt. done.
Defined.
