(* ===== verification/Picking.v ===== *)
(** * Which tables a compaction takes

    Models the choice of a compaction's inputs and the place of its outputs: the
    level, universal and FIFO pickers of [src/src/engine/compaction.rs], the passes
    picked for their deletions ([src/src/engine/compaction/deletion.rs]) and the
    edits of a pass. A table is its metadata and its reader; whether another pass
    holds it is a predicate, the claims themselves being in Claims.v. *)

From stdpp Require Import sets sorting.
From S2P Require Import Prelude Order InternalKey RangeTombstone TombstoneLog Manifest Version ReadPath Stripes Compaction.

Section Picks.
Context {reader : Type}.

(** ** The tables of L0 a range takes with it *)

Definition file_overlaps_range (f : LiveSst reader) (start end_ : option bytes) : bool :=
  negb (match start with Some s => bytes_ltb (largest_key (meta f)) s | None => false end ||
        match end_ with Some e => bytes_leb e (smallest_key (meta f)) | None => false end).

Definition key_range (first : LiveSst reader) (files : list (LiveSst reader)) : bytes * bytes :=
  fold_left (fun '(lo, hi) f =>
    (if bytes_ltb (smallest_key (meta f)) lo then smallest_key (meta f) else lo,
     if bytes_ltb hi (largest_key (meta f)) then largest_key (meta f) else hi)) files (smallest_key (meta first), largest_key (meta first)).

Definition picked_files (files : list (LiveSst reader)) (picked : list bool) : list (LiveSst reader) :=
  map fst (List.filter snd (combine files picked)).

(** One turn of the loop: the tables of the first [newest] positions that meet
    the range of the picked ones join them. *)
Definition grow (newest : nat) (lo hi : bytes) (files : list (LiveSst reader)) (picked : list bool) : list bool :=
  imap (fun i '(f, p) => p || ((i <? newest)%nat && file_overlaps_range f (Some lo) (Some hi))) (combine files picked).

Fixpoint l0_loop (fuel newest : nat) (files : list (LiveSst reader)) (picked : list bool) : outcome (list (LiveSst reader)) :=
  match fuel with
  | O => OutOfFuel
  | S fuel =>
      match picked_files files picked with
      | [] => Panic
      | first :: rest =>
          let '(lo, hi) := key_range first rest in
          let grown := grow newest lo (exclusive_successor hi) files picked in
          if bool_decide (grown = picked) then Ok (first :: rest) else l0_loop fuel newest files grown
      end
  end.

Definition l0_inputs (files : list (LiveSst reader)) (start end_ : option bytes) : outcome (list (LiveSst reader)) :=
  let picked := map (fun f => file_overlaps_range f start end_) files in
  match rposition id picked with
  | None => Ok []
  | Some newest => l0_loop (S (length files)) newest files picked
  end.

(** ** The edits of a merge inside L0 *)

Definition position {A} (p : A -> bool) (l : list A) : option nat := fst <$> list_find p l.

Definition l0_rebuilt (l0 : list (LiveSst reader)) (input_ids : list Z) (added : list (LiveSst reader))
  : list (VersionEdit reader) :=
  let is_in f := existsb (fun id => id =? file_id (meta f)) input_ids in
  let oldest := default O (position is_in l0) in
  let keep f := negb (is_in f) in
  map (fun f => EditRemoveFile 0 (file_id (meta f))) l0 ++
  map (EditAddFile 0) (List.filter keep (take oldest l0)) ++
  map (EditAddFile 0) added ++
  map (EditAddFile 0) (List.filter keep (drop oldest l0)).

(** The edits of a pass over [inputs] of [level] and [overlaps] of
    [target_level], with L0 as it is when they are applied. *)
Definition pass_edits (level target_level : Z) (l0 inputs overlaps added : list (LiveSst reader))
  : list (VersionEdit reader) :=
  if (level =? 0) && (target_level =? 0) then l0_rebuilt l0 (map (fun f => file_id (meta f)) inputs) added
  else
    map (fun f => EditRemoveFile level (file_id (meta f))) inputs ++
    map (fun f => EditRemoveFile target_level (file_id (meta f))) overlaps ++
    map (EditAddFile target_level) added.


(** ** The level picker *)

Record CompactionOptions := mkOptions {
  l0_compaction_trigger : Z;
  level_base_bytes : Z;
  level_size_multiplier : Z;
  level0_slowdown_writes_trigger : Z;
  level0_stop_writes_trigger : Z;
  soft_pending_compaction_bytes_limit : Z;
  hard_pending_compaction_bytes_limit : Z;
}.

Definition saturating_mul (a b : Z) : Z := Z.min (a * b) u64_max.
Definition level_target_size (level : Z) (opts : CompactionOptions) : Z :=
  Nat.iter (Z.to_nat (level - 1)) (fun size => saturating_mul size (level_size_multiplier opts)) (level_base_bytes opts).

(** The level a size-triggered pass compacts, if any is over its trigger. *)
Definition level_over_trigger (opts : CompactionOptions) (v : Version reader) : option Z :=
  if l0_compaction_trigger opts <=? l0_count v then Some 0
  else find (fun level => level_target_size level opts <? level_size v level)
         (map Z.of_nat (List.seq 1 (Z.to_nat (MAX_LEVELS - 2)))).

Inductive CompactionOutcome := DidWork | Idle | Contended.

(** What a picker found: why there is nothing to do, or the inputs of a pass. *)
Inductive Pick := NoPick (why : CompactionOutcome) | Picked (inputs overlaps : list (LiveSst reader)).

Definition compact_level (held : LiveSst reader -> bool) (v : Version reader) (level : Z) : Pick :=
  let target_level := level + 1 in
  if MAX_LEVELS <=? target_level then NoPick Idle
  else
    match level_files (levels v) level with
    | [] => NoPick Idle
    | (_ :: _) as files =>
        let input_files :=
          if level =? 0 then (if existsb held files then [] else files)
          else match find (fun f => negb (held f)) files with Some f => [f] | None => [] end in
        match input_files with
        | [] => NoPick Contended
        | first :: rest =>
            let '(min_key, max_key) := key_range first rest in
            let overlap_files := overlapping (level_files (levels v) target_level) min_key max_key in
            if existsb held overlap_files then NoPick Contended else Picked (first :: rest) overlap_files
        end
    end.

Definition pick_level_compaction (opts : CompactionOptions) (held : LiveSst reader -> bool) (v : Version reader) : Pick :=
  match level_over_trigger opts v with
  | Some level => compact_level held v level
  | None => NoPick Idle
  end.

(** ** The universal picker *)

Record UniversalCompactionOptions := mkUniversal {
  size_ratio : Z;
  min_merge_width : Z;
  max_merge_width : Z;
  max_size_amplification_percent : Z;
}.

Notation size_of f := (file_size (meta f)).

(** The newest runs, while the next is not much larger than all before it. *)
Fixpoint size_group (max_width ratio : Z) (group : list (LiveSst reader)) (group_size : Z)
  (files : list (LiveSst reader)) : list (LiveSst reader) :=
  match files with
  | [] => group
  | file :: files =>
      if max_width <=? len group then group
      else
        match group with
        | [] => size_group max_width ratio [file] (size_of file) files
        | _ =>
            if size_of file <=? group_size * (100 + ratio) / 100
            then size_group max_width ratio (group ++ [file]) (group_size + size_of file) files
            else group
        end
  end.

Definition total_size (files : list (LiveSst reader)) : Z := fold_right Z.add 0 (map (fun f => size_of f) files).

(** The runs a size-triggered pass merges, newest first. *)
Definition pick_universal_size (universal : UniversalCompactionOptions) (l0_files : list (LiveSst reader))
  : option (list (LiveSst reader)) :=
  if (length l0_files <? 2)%nat then None
  else
    let by_age := rev l0_files in
    let max_width := Z.max (max_merge_width universal) 1 in
    let min_width := Z.max (min_merge_width universal) 2 in
    let group := size_group max_width (size_ratio universal) [] 0 by_age in
    if min_width <=? len group then Some group
    else
      match rev by_age with
      | [] => None
      | oldest :: younger =>
          if size_of oldest =? 0 then None
          else if max_size_amplification_percent universal <=? total_size younger * 100 / size_of oldest
          then Some by_age else None
      end.

(** ** The FIFO picker *)

Definition saturating_sub (a b : Z) : Z := Z.max 0 (a - b).

(** The tables to drop, oldest first; [left] is how many there are without
    those dropped so far. *)
Fixpoint fifo_drop (limit : Z) (left : nat) (running_total : Z) (files : list (LiveSst reader)) : list (LiveSst reader) :=
  match files with
  | [] => []
  | file :: files =>
      if (left <=? 1)%nat then []
      else if running_total <=? limit then []
      else file :: fifo_drop limit (left - 1) (saturating_sub running_total (size_of file)) files
  end.

Definition pick_fifo (limit : Z) (l0_files : list (LiveSst reader)) : list (LiveSst reader) :=
  if limit =? 0 then []
  else
    let total := as_u64 (total_size l0_files) in
    if total <=? limit then [] else fifo_drop limit (length l0_files) total l0_files.

End Picks.

(** ** A universal pass

    One call of [pick_and_run_universal]: pick, merge into L0, place. How a table
    written under an id is opened is the caller's: its size and counts are those
    of the file. Nothing keeps a flush or an ingest out while a merge runs: the
    store is read three times, for the pick, for what the pass may retire and for
    the edits, and the runs installed between one read and the next are arguments,
    [before] the second and [meanwhile] before the third. *)
Section UniversalPass.
Context (open_table : Z -> OutTable -> LiveSst Source).
Context (live : list Z) (merge : option MergeOperator) (universal : UniversalCompactionOptions).

Definition take_file_ids (v : Version Source) (n : nat) : Version Source :=
  mkVersion (levels v) (next_file_id v + Z.of_nat n) (last_seq v) (min_wal_id v) (uncounted v).
Definition installed (v : Version Source) (outs : list OutTable) : list (LiveSst Source) :=
  imap (fun i o => open_table (next_file_id v + Z.of_nat i) o) outs.

(** The version once [runs] are installed, each at the newest place of L0. *)
Definition install_runs (v : Version Source) (runs : list (LiveSst Source)) : Version Source :=
  fold_left (@apply_edit Source) (map (EditAddFile 0) runs) v.

(** The merge of [inputs] with the store at [v] when it reads what it may retire.
    The edits are made of L0 as it is when they are applied. *)
Definition perform_universal_merge (meanwhile : list (LiveSst Source)) (v : Version Source) (inputs : list (LiveSst Source))
  : outcome (Version Source) :=
  let r := retirement_new 0 v inputs (hd_error live) in
  outs ← compact (mkStripes live None merge 0) r u64_max (map sst_reader inputs);
  let current := install_runs (take_file_ids v (length outs)) meanwhile in
  Ok (fold_left (@apply_edit Source) (pass_edits 0 0 (level_files (levels current) 0) inputs [] (installed v outs)) current).

Definition pick_and_run_universal (before meanwhile : list (LiveSst Source)) (v : Version Source) : outcome (option (Version Source)) :=
  match pick_universal_size universal (level_files (levels v) 0) with
  | None => Ok None
  | Some inputs => v' ← perform_universal_merge meanwhile (install_runs v before) inputs; Ok (Some v')
  end.

(** A loop over passes, for as long as they did work, with nothing else
    installed. *)
Fixpoint passes (n : nat) (v : Version Source) : outcome (option (Version Source)) :=
  match n with
  | O => Ok (Some v)
  | S n => r ← pick_and_run_universal [] [] v; match r with Some v' => passes n v' | None => Ok None end
  end.

End UniversalPass.

(** ** The tables of L0 a range takes with it *)

Section L0Inputs.
Context {reader : Type}.
Implicit Types (files : list (LiveSst reader)).

Lemma combine_lookup {A B} (l : list A) (k : list B) i : combine l k !! i = (x ← l !! i; y ← k !! i; Some (x, y)).
Proof.
  revert k i. induction l as [|x l IH]; intros [|y k] [|i]; try done; cbn; [by destruct (l !! i)|]. apply IH.
Qed.

Lemma grow_lookup newest lo hi files picked i :
  grow newest lo hi files picked !! i =
  (f ← files !! i; p ← picked !! i; Some (p || ((i <? newest)%nat && file_overlaps_range f (Some lo) (Some hi)))).
Proof.
  unfold grow. rewrite list_lookup_imap, combine_lookup. destruct (files !! i); [|done]. cbn. by destruct (picked !! i).
Qed.

Lemma grow_length newest lo hi files picked : length picked = length files ->
  length (grow newest lo hi files picked) = length files.
Proof. intros H. unfold grow. rewrite length_imap, length_combine. lia. Qed.

Definition unpicked (picked : list bool) : nat := length (List.filter negb picked).

Lemma unpicked_less picked grown : Forall2 (fun p g => p = true -> g = true) picked grown ->
  (unpicked grown <= unpicked picked)%nat /\ (grown <> picked -> (unpicked grown < unpicked picked)%nat).
Proof.
  unfold unpicked. induction 1 as [|p g picked grown Hpg _ [IH1 IH2]]; [done|]. destruct p, g; cbn.
  - split; [done|]. intros Hne. apply IH2. congruence.
  - by specialize (Hpg eq_refl).
  - split; lia.
  - split; [lia|]. intros Hne. enough (grown <> picked) by (specialize (IH2 H); lia). congruence.
Qed.

Lemma grow_keeps newest lo hi files picked : length picked = length files ->
  Forall2 (fun p g => p = true -> g = true) picked (grow newest lo hi files picked).
Proof.
  intros Hl. apply Forall2_same_length_lookup_2; [by rewrite grow_length|].
  intros i p g Hp. rewrite grow_lookup, Hp. destruct (files !! i); [|done]. cbn. intros [= <-] ->. done.
Qed.

Lemma picked_In files picked i f : files !! i = Some f -> picked !! i = Some true -> In f (picked_files files picked).
Proof.
  intros Hf Hp. apply in_map_iff. exists (f, true). split; [done|]. apply filter_In. split; [|done].
  apply list_elem_of_In, list_elem_of_lookup. exists i. by rewrite combine_lookup, Hf, Hp.
Qed.

Lemma key_range_fold (rest : list (LiveSst reader)) lo hi f :
  let '(lo', hi') := fold_left (fun '(lo, hi) f =>
    (if bytes_ltb (smallest_key (meta f)) lo then smallest_key (meta f) else lo,
     if bytes_ltb hi (largest_key (meta f)) then largest_key (meta f) else hi)) rest (lo, hi) in
  bytes_le lo' lo /\ bytes_le hi hi' /\ (In f rest -> bytes_le lo' (smallest_key (meta f)) /\ bytes_le (largest_key (meta f)) hi').
Proof.
  revert lo hi. induction rest as [|g rest IH]; intros lo hi; cbn [fold_left].
  { split_and!; [apply bytes_le_refl..|done]. }
  set (lo1 := if bytes_ltb (smallest_key (meta g)) lo then _ else _). set (hi1 := if bytes_ltb hi (largest_key (meta g)) then _ else _).
  assert (bytes_le lo1 lo /\ bytes_le lo1 (smallest_key (meta g))) as [Hlo1 Hlo2] by (unfold lo1; bcase; split; border).
  assert (bytes_le hi hi1 /\ bytes_le (largest_key (meta g)) hi1) as [Hhi1 Hhi2] by (unfold hi1; bcase; split; border).
  clearbody lo1 hi1. specialize (IH lo1 hi1). destruct (fold_left _ rest (lo1, hi1)) as [lo' hi']. destruct IH as (H1 & H2 & H3).
  split_and!; [by eapply bytes_le_trans..|]. intros [<-|Hin]; [split; by eapply bytes_le_trans|by apply H3].
Qed.

Lemma key_range_spec (first : LiveSst reader) rest f : In f (first :: rest) ->
  let '(lo, hi) := key_range first rest in bytes_le lo (smallest_key (meta f)) /\ bytes_le (largest_key (meta f)) hi.
Proof.
  unfold key_range. pose proof (key_range_fold rest (smallest_key (meta first)) (largest_key (meta first)) f) as H.
  destruct (fold_left _ _ _) as [lo hi]. destruct H as (H1 & H2 & H3). intros [<-|Hin]; [done|by apply H3].
Qed.

Lemma successor_above key : bytes_lt key (exclusive_successor key).
Proof.
  pose proof (exclusive_successor_covers_one key 0 key) as H. rewrite bool_decide_eq_true_2 in H by done.
  unfold covers in H. cbn [start end_] in H. apply andb_true_iff in H as [_ H].
  by destruct (bytes_ltb_spec key (exclusive_successor key)).
Qed.

(** Two tables that hold a key in common. *)
Definition share_a_key (f g : LiveSst reader) : Prop :=
  bytes_le (smallest_key (meta f)) (largest_key (meta g)) /\ bytes_le (smallest_key (meta g)) (largest_key (meta f)).

(** What is picked holds every older table it shares a key with. *)
Definition older_closed (files : list (LiveSst reader)) (picked : list bool) : Prop :=
  forall i j f g, (i < j)%nat -> files !! i = Some f -> files !! j = Some g -> picked !! j = Some true ->
    share_a_key f g -> picked !! i = Some true.

(** Nothing newer than the newest table the range meets is ever picked. *)
Definition none_newer (newest : nat) (picked : list bool) : Prop :=
  picked !! newest = Some true /\ forall j, picked !! j = Some true -> (j <= newest)%nat.

Lemma grow_none_newer newest lo hi files picked : length picked = length files -> none_newer newest picked ->
  none_newer newest (grow newest lo hi files picked).
Proof.
  intros Hl [H1 H2]. split.
  - rewrite grow_lookup, H1. destruct (lookup_lt_is_Some_2 files newest) as [f ->]; [|done].
    rewrite <- Hl. by eapply lookup_lt_Some.
  - intros j. rewrite grow_lookup. destruct (files !! j); [|done].
    destruct (picked !! j) as [[]|] eqn:E; [|..|done]; cbn [mbind option_bind orb].
    + intros _. by apply H2.
    + destruct (Nat.ltb_spec j newest); [lia|done].
Qed.

Lemma fixed_closed newest files picked first rest : length picked = length files -> none_newer newest picked ->
  picked_files files picked = first :: rest ->
  let '(lo, hi) := key_range first rest in
  grow newest lo (exclusive_successor hi) files picked = picked -> older_closed files picked.
Proof.
  intros Hl [_ Hn] Hp. destruct (key_range first rest) as [lo hi] eqn:Ek. intros Hg i j f g Hij Hf Hgj Hpj [Hs1 Hs2].
  pose proof (key_range_spec first rest g) as Hr. rewrite Ek in Hr.
  destruct Hr as [Hlo Hhi]; [rewrite <- Hp; by eapply picked_In|]. specialize (Hn j Hpj).
  destruct (lookup_lt_is_Some_2 picked i) as [p Hpi]; [rewrite Hl; by eapply lookup_lt_Some|].
  pose proof (grow_lookup newest lo (exclusive_successor hi) files picked i) as Hgl. rewrite Hg, Hf, Hpi in Hgl.
  injection Hgl as Hgl. rewrite Hpi. f_equal. destruct p; [done|]. rewrite Hgl. cbn [orb]. destruct (Nat.ltb_spec i newest); [|lia]. cbn [andb].
  unfold file_overlaps_range. apply negb_true_iff, orb_false_iff. pose proof (successor_above hi) as Hsucc.
  split; [destruct (bytes_ltb_spec (largest_key (meta f)) lo)|destruct (bytes_leb_spec (exclusive_successor hi) (smallest_key (meta f)))];
    try done; exfalso; border.
Qed.

Lemma l0_loop_spec fuel newest files picked : length picked = length files -> none_newer newest picked ->
  (unpicked picked < fuel)%nat ->
  exists final, l0_loop fuel newest files picked = Ok (picked_files files final) /\ length final = length files /\
    older_closed files final /\ Forall2 (fun p g => p = true -> g = true) picked final.
Proof.
  revert picked. induction fuel as [|fuel IH]; intros picked Hl Hn Hf; [lia|]. cbn [l0_loop].
  destruct (picked_files files picked) as [|first rest] eqn:Ep.
  { exfalso. destruct Hn as [Hn _]. destruct (lookup_lt_is_Some_2 files newest) as [f Hfi].
    - rewrite <- Hl. by eapply lookup_lt_Some.
    - pose proof (picked_In _ _ _ _ Hfi Hn) as Hin. by rewrite Ep in Hin. }
  pose proof (fixed_closed newest files picked first rest Hl Hn Ep) as Hclosed.
  destruct (key_range first rest) as [lo hi]. set (grown := grow _ _ _ _ _) in *.
  pose proof (grow_keeps newest lo (exclusive_successor hi) files picked Hl) as Hkeep. fold grown in Hkeep.
  destruct (bool_decide_reflect (grown = picked)) as [E|Hne].
  - exists picked. split_and!; [by rewrite Ep|done|by apply Hclosed|]. by rewrite E in Hkeep.
  - destruct (IH grown) as (final & H1 & H2 & H3 & H4).
    + by apply grow_length.
    + by apply grow_none_newer.
    + destruct (unpicked_less _ _ Hkeep) as [_ Hlt]. specialize (Hlt Hne). lia.
    + exists final. split_and!; try done. eapply Forall2_trans; [|exact Hkeep|exact H4]. auto.
Qed.

Lemma rposition_spec (l : list bool) :
  match rposition id l with Some n => none_newer n l | None => Forall (fun b => b = false) l end.
Proof.
  induction l as [|b l IH]; cbn [rposition]; [done|]. destruct (rposition id l) as [n|].
  - destruct IH as [H1 H2]. split; [done|]. intros [|j] Hj; [lia|]. specialize (H2 j Hj). lia.
  - destruct b; cbn; [|by constructor]. split; [done|]. intros [|j] Hj; [lia|]. exfalso. cbn in Hj.
    rewrite List.Forall_forall in IH. specialize (IH true). enough (true = false) by done. apply IH.
    apply list_elem_of_In, list_elem_of_lookup. by exists j.
Qed.

Lemma l0_inputs_spec files start end_ :
  exists picked, length picked = length files /\ l0_inputs files start end_ = Ok (picked_files files picked) /\
    (forall i f, files !! i = Some f -> file_overlaps_range f start end_ = true -> picked !! i = Some true) /\
    older_closed files picked.
Proof.
  unfold l0_inputs. set (picked := map _ files). assert (Hl : length picked = length files) by apply length_map.
  assert (Hfirst : forall i f, files !! i = Some f -> picked !! i = Some (file_overlaps_range f start end_)).
  { intros i f Hf. unfold picked. by rewrite list_lookup_fmap, Hf. }
  pose proof (rposition_spec picked) as Hr. destruct (rposition id picked) as [newest|].
  - destruct (l0_loop_spec (S (length files)) newest files picked Hl Hr) as (final & H1 & H2 & H3 & H4).
    { unfold unpicked. pose proof (filter_length_le negb picked). lia. }
    exists final. split_and!; try done. intros i f Hf Ho. specialize (Hfirst i f Hf). rewrite Ho in Hfirst.
    destruct (Forall2_lookup_l _ _ _ _ _ H4 Hfirst) as (b & -> & Hb). by rewrite Hb.
  - exists picked. assert (Hno : forall i, picked !! i <> Some true).
    { intros i Hi. rewrite List.Forall_forall in Hr. enough (true = false) by done. apply Hr.
      apply list_elem_of_In, list_elem_of_lookup. by exists i. }
    split_and!; [done| | |].
    + f_equal. symmetry. destruct (picked_files files picked) as [|f fs] eqn:Ep; [done|]. exfalso.
      assert (Hin : In f (picked_files files picked)) by (rewrite Ep; by left).
      apply in_map_iff in Hin as ([f' b] & _ & [Hin Hb]%filter_In). cbn in Hb. subst b.
      apply in_combine_r in Hin. rewrite List.Forall_forall in Hr. by specialize (Hr true Hin).
    + intros i f Hf Ho. specialize (Hfirst i f Hf). by rewrite Ho in Hfirst.
    + intros i j f g _ _ _ Hj. by destruct (Hno j).
Qed.

End L0Inputs.

(** The tables of L0 a range compaction takes leave nothing older behind.
    The loop ends, never on an empty pick, with every table that meets the range
    and, for every table taken, every older table that shares a key with it; so a
    table is not moved to L1 while an older version of a key of it stays in L0,
    where a read would find it first. *)
Theorem l0_inputs_leave_nothing_older {reader} (files : list (LiveSst reader)) start end_ :
  exists picked, length picked = length files /\ l0_inputs files start end_ = Ok (picked_files files picked) /\
    (forall i f, files !! i = Some f -> file_overlaps_range f start end_ = true -> picked !! i = Some true) /\
    older_closed files picked.
Proof. apply l0_inputs_spec. Qed.

(** ** The place of a merge inside L0 *)

Section Place.
Context {reader : Type}.
Implicit Types (v : Version reader) (l : list (LiveSst reader)).
Notation id_of f := (file_id (meta f)).

Lemma removes_levels l v l0 rest : levels v = l0 :: rest ->
  levels (fold_left (@apply_edit reader) (map (fun f => EditRemoveFile 0 (id_of f)) l) v) =
  List.filter (fun g => negb (existsb (fun f => id_of g =? id_of f) l)) l0 :: rest.
Proof.
  revert v l0. induction l as [|f l IH]; intros v l0 Hv; cbn [map fold_left].
  { rewrite Hv. f_equal. symmetry. apply filter_all. by apply List.Forall_forall. }
  rewrite (IH _ (retained (id_of f) l0)) by (cbn; unfold at_level; rewrite Hv; done).
  f_equal. clear IH Hv. unfold retained. induction l0 as [|g l0 IHl]; [done|]. cbn.
  destruct (id_of g =? id_of f); cbn; [done|]. destruct (existsb _ l); cbn; by rewrite IHl.
Qed.

Lemma adds_levels l v l0 rest : levels v = l0 :: rest ->
  levels (fold_left (@apply_edit reader) (map (EditAddFile 0) l) v) = (l0 ++ l) :: rest.
Proof.
  revert v l0. induction l as [|f l IH]; intros v l0 Hv; cbn [map fold_left]; [by rewrite app_nil_r|].
  rewrite (IH _ (l0 ++ [f])) by (cbn; unfold at_level; rewrite Hv; done). by rewrite <- app_assoc.
Qed.

Lemma ids_apart l f l' g : NoDup (map (fun f : LiveSst reader => file_id (meta f)) (l ++ f :: l')) -> In g l -> id_of g <> id_of f.
Proof.
  rewrite map_app. cbn. intros Hn Hg E. apply list.NoDup_app in Hn as (_ & Hn & _). apply (Hn (id_of g)).
  - apply list_elem_of_In, in_map_iff. by exists g.
  - rewrite E. apply elem_of_cons. by left.
Qed.

(** Which tables of L0 are inputs, when they lie next to one another. *)
Lemma among_inputs a ins b f : NoDup (map (fun f : LiveSst reader => file_id (meta f)) (a ++ ins ++ b)) -> In f (a ++ ins ++ b) ->
  existsb (fun id => id =? id_of f) (map (fun f : LiveSst reader => file_id (meta f)) ins) = true <-> In f ins.
Proof.
  intros Hn Hf. rewrite existsb_exists. split.
  - intros (id & (g & <- & Hg)%in_map_iff & E%Z.eqb_eq). enough (f = g) by congruence.
    assert (Hg' : In g (a ++ ins ++ b)) by (rewrite !in_app_iff; auto).
    apply in_split in Hf as (l & l' & E'). rewrite E' in Hn, Hg'.
    apply in_app_iff in Hg' as [Hg'|[->|Hg']]; [by destruct (ids_apart _ _ _ _ Hn Hg')|done|].
    exfalso. apply in_split in Hg' as (m & m' & ->). rewrite app_comm_cons, app_assoc in Hn.
    refine (ids_apart _ _ _ f Hn _ (eq_sym E)). apply in_app_iff. right. by left.
  - intros Hin. exists (id_of f). split; [apply in_map_iff; by exists f|apply Z.eqb_refl].
Qed.

Lemma apart_inputs a ins b : NoDup (map (fun f : LiveSst reader => file_id (meta f)) (a ++ ins ++ b)) ->
  forall f, In f a \/ In f b -> In f (a ++ ins ++ b) /\ ~ In f ins.
Proof.
  intros Hn f Hf. split; [rewrite !in_app_iff; tauto|]. intros Hi. rewrite !map_app in Hn.
  apply list.NoDup_app in Hn as (_ & Hab & Hn). apply list.NoDup_app in Hn as (_ & Hib & _).
  assert (Hid : forall l, In f l -> file_id (meta f) ∈ map (fun f => file_id (meta f)) l) by (intros l Hl; by apply list_elem_of_In, in_map_iff; exists f).
  destruct Hf as [Hf|Hf]; [apply (Hab _ (Hid a Hf)), elem_of_app; left; by apply Hid|by apply (Hib _ (Hid ins Hi)), Hid].
Qed.

End Place.

(** A merge inside L0 takes the place of its inputs, when they lie next to one
    another. *)
Lemma l0_merge_place {reader} (v : Version reader) a ins b rest inputs added :
  levels v = (a ++ ins ++ b) :: rest -> ins <> [] -> inputs ≡ₚ ins ->
  NoDup (map (fun f : LiveSst reader => file_id (meta f)) (a ++ ins ++ b)) ->
  levels (fold_left (@apply_edit reader) (pass_edits 0 0 (a ++ ins ++ b) inputs [] added) v) = (a ++ added ++ b) :: rest.
Proof.
  intros Hv Hne Hperm Hn. unfold pass_edits, l0_rebuilt. cbn [Z.eqb andb]. rewrite !fold_left_app.
  set (is_in := fun f : LiveSst reader => existsb _ _). set (keep := fun f : LiveSst reader => negb _).
  assert (Hin : forall f, In f (a ++ ins ++ b) -> is_in f = true <-> In f ins).
  { intros f Hf. rewrite <- (among_inputs a ins b f Hn Hf). unfold is_in. rewrite !existsb_exists.
    split; intros (id & Hid & E); exists id; (split; [|done]); by rewrite Hperm in * || by rewrite <- Hperm in *. }
  assert (Hout : forall l, (forall f, In f l -> In f (a ++ ins ++ b) /\ ~ In f ins) -> List.filter keep l = l).
  { intros l Hl. apply filter_all, List.Forall_forall. intros f Hf. destruct (Hl f Hf) as [H1 H2].
    apply negb_true_iff. destruct (is_in f) eqn:E; [|done]. destruct H2. by apply Hin. }
  pose proof (apart_inputs a ins b Hn) as Hapart.
  assert (Hpos : position is_in (a ++ ins ++ b) = Some (length a)).
  { destruct ins as [|f ins]; [done|]. unfold position. rewrite (list_find_app_r is_in a).
    - cbn. rewrite decide_True; [cbn; f_equal; lia|]. apply Is_true_true, Hin; [apply in_app_iff; right; by left|by left].
    - apply list_find_None, List.Forall_forall. intros g Hg. destruct (Hapart g (or_introl Hg)) as [H1 H2].
      intros HP. apply H2, Hin; [done|]. by apply Is_true_true. }
  rewrite Hpos. change (default O (Some (length a))) with (length a). rewrite take_app_length, drop_app_length, (Hout a) by auto.
  rewrite List.filter_app, (Hout b), (filter_none _ ins) by (auto || (apply List.Forall_forall; intros f Hf;
    apply negb_false_iff, Hin; [rewrite !in_app_iff; auto|done])).
  erewrite adds_levels; [|erewrite adds_levels; [|erewrite adds_levels; [|by apply removes_levels]; reflexivity]; reflexivity].
  cbn [app]. rewrite (filter_none _ (a ++ ins ++ b)); [by rewrite <- app_assoc|].
  apply List.Forall_forall. intros f Hf. apply negb_false_iff, existsb_exists. exists f. split; [done|apply Z.eqb_refl].
Qed.

(** ** The level picker takes all it must *)

(** A pass of the level picker takes every table it must. The tables it takes
    are free; from L0 it takes the whole level, from a deeper level one table; and
    with them every table of the next level that shares a key with one of them.
    So what stays behind in the next level holds no key of the inputs, and the
    outputs can go there. *)
Theorem level_pick_takes_overlaps {reader} (held : LiveSst reader -> bool) v level inputs overlaps :
  0 <= level -> Forall (fun files => Forall range_ok (map meta files) /\ sorted_run (map meta files)) (drop 1 (levels v)) ->
  compact_level held v level = Picked inputs overlaps ->
  inputs <> [] /\ incl inputs (level_files (levels v) level) /\ (level = 0 -> inputs = level_files (levels v) 0) /\
  (forall f, In f (inputs ++ overlaps) -> held f = false) /\
  (forall f g, In f inputs -> In g (level_files (levels v) (level + 1)) -> share_a_key f g -> In g overlaps).
Proof.
  intros Hl Hruns. unfold compact_level. destruct (MAX_LEVELS <=? level + 1); [done|].
  destruct (level_files (levels v) level) as [|first0 rest0] eqn:Ef; [done|]. set (files := first0 :: rest0) in *.
  set (input_files := if level =? 0 then _ else _).
  assert (Hin : incl input_files files /\ (forall f, In f input_files -> held f = false) /\
    (input_files <> [] -> level = 0 -> input_files = files)).
  { unfold input_files. destruct (Z.eqb_spec level 0) as [->|Hne].
    - destruct (existsb held files) eqn:Eh; [split_and!; [apply incl_nil_l|by intros ? []|by intros []]|]. split_and!; [apply incl_refl| |done]. intros f Hf.
      destruct (held f) eqn:E; [|done]. by rewrite (proj2 (existsb_exists held files) (ex_intro _ f (conj Hf E))) in Eh.
    - destruct (find _ files) as [f|] eqn:Efind; [|split_and!; [apply incl_nil_l|by intros ? []|by intros []]]. apply find_some in Efind as [Hf Hh%negb_true_iff].
      split_and!; [by intros g [<-|[]]|by intros g [<-|[]]|done]. }
  clearbody input_files. destruct Hin as (Hincl & Hfree & Hall). destruct input_files as [|first rest]; [done|].
  pose proof (key_range_spec first rest) as Hrange. destruct (key_range first rest) as [lo hi].
  destruct (existsb held _) eqn:Eh; [done|]. intros [= <- <-].
  split_and!; [done|done|by intros E; rewrite (Hall ltac:(done) E), <- E| |].
  - intros f [Hf|Hf]%in_app_iff; [by apply Hfree|]. destruct (held f) eqn:E; [|done].
    by rewrite (proj2 (existsb_exists held _) (ex_intro _ f (conj Hf E))) in Eh.
  - intros f g Hf Hg [H1 H2]. destruct (Hrange f Hf) as [Hlo Hhi].
    destruct (levels v !! Z.to_nat (level + 1)) as [below|] eqn:Eb; unfold level_files in *; rewrite Eb in *; [|by cbn in Hg].
    cbn [default from_option] in *. rewrite List.Forall_forall in Hruns. destruct (Hruns below) as [Hok Hs].
    { apply list_elem_of_In, list_elem_of_lookup. exists (Z.to_nat level). rewrite lookup_drop.
      by replace (1 + Z.to_nat level)%nat with (Z.to_nat (level + 1)) by lia. }
    rewrite overlapping_filter by done. apply filter_In. split; [done|].
    by destruct (bytes_leb_spec lo (largest_key (meta g))), (bytes_leb_spec (smallest_key (meta g)) hi); try done; exfalso; border.
Qed.

Definition free_table (id : Z) (lo hi : bytes) : LiveSst Source := mkLive 0 (mkMeta id lo hi 100 1 None None) (Table [] []).

Lemma level_pick_takes_overlaps_witness :
  let v := mkVersion [[]; [free_table 1 (str "a") (str "f"); free_table 2 (str "k") (str "p")];
                      [free_table 3 (str "a") (str "l"); free_table 4 (str "m") (str "n"); free_table 5 (str "q") (str "z")]] 6 0 0 0 in
  let held (f : LiveSst Source) := file_id (meta f) =? 1 in
  compact_level held v 1 = Picked [free_table 2 (str "k") (str "p")] [free_table 3 (str "a") (str "l"); free_table 4 (str "m") (str "n")] /\
  incl [free_table 2 (str "k") (str "p")] (level_files (levels v) 1).
Proof.
  intros v held.
  assert (E : compact_level held v 1 = Picked [free_table 2 (str "k") (str "p")]
    [free_table 3 (str "a") (str "l"); free_table 4 (str "m") (str "n")]) by (vm_compute; reflexivity).
  split; [exact E|]. refine (proj1 (proj2 (level_pick_takes_overlaps held v 1 _ _ _ _ E))); [done|].
  unfold range_ok, sorted_run. refine (bool_decide_unpack _ _). vm_compute. exact I.
Defined.

(** ** The universal picker takes neighbours *)

Lemma size_group_prefix {reader} w ratio (group : list (LiveSst reader)) total files :
  exists rest, group ++ files = size_group w ratio group total files ++ rest.
Proof.
  revert group total. induction files as [|f files IH]; intros group total; cbn [size_group]; [by exists []|].
  destruct (_ <=? _); [by exists (f :: files)|]. destruct group as [|g group].
  - destruct (IH [f] (file_size (meta f))) as [rest E]. by exists rest.
  - destruct (_ <=? _); [|by exists (f :: files)]. destruct (IH ((g :: group) ++ [f]) (total + file_size (meta f))) as [rest E].
    exists rest. rewrite <- E. cbn. by rewrite <- app_assoc.
Qed.

Lemma pick_universal_newest {reader} u (l0 g : list (LiveSst reader)) : pick_universal_size u l0 = Some g ->
  exists older, l0 = older ++ rev g /\ (2 <= length g)%nat.
Proof.
  unfold pick_universal_size. destruct (Nat.ltb_spec (length l0) 2) as [|Hlen]; [done|].
  destruct (size_group_prefix (Z.max (max_merge_width u) 1) (size_ratio u) [] 0 (rev l0)) as [rest E].
  destruct (Z.leb_spec (Z.max (min_merge_width u) 2) (len (size_group (Z.max (max_merge_width u) 1) (size_ratio u) [] 0 (rev l0))))
    as [Hw|_].
  - intros [= <-]. exists (rev rest). split; [|unfold len in Hw; lia]. rewrite <- rev_app_distr, <- E. cbn. by rewrite rev_involutive.
  - destruct (rev (rev l0)) as [|oldest younger]; [done|]. destruct (_ =? 0); [done|]. destruct (_ <=? _); [|done].
    intros [= <-]. exists []. rewrite length_rev. by rewrite rev_involutive.
Qed.

Lemma install_runs_levels v runs l0 rest : levels v = l0 :: rest -> levels (install_runs v runs) = (l0 ++ runs) :: rest.
Proof. apply adds_levels. Qed.

Lemma universal_pass_spec open_table live merge u before meanwhile v l0 rest :
  levels v = l0 :: rest -> NoDup (map (fun f : LiveSst Source => file_id (meta f)) (l0 ++ before ++ meanwhile)) ->
  match pick_universal_size u l0 with
  | None => pick_and_run_universal open_table live merge u before meanwhile v = Ok None
  | Some g =>
      let v1 := install_runs v before in
      exists older outs v', l0 = older ++ rev g /\ (2 <= length g)%nat /\
        compact (mkStripes live None merge 0) (retirement_new 0 v1 g (hd_error live)) u64_max (map sst_reader g) = Ok outs /\
        pick_and_run_universal open_table live merge u before meanwhile v = Ok (Some v') /\
        levels v' = (older ++ installed open_table v1 outs ++ before ++ meanwhile) :: rest
  end.
Proof.
  intros Hv Hn. unfold pick_and_run_universal.
  replace (level_files (levels v) 0) with l0 by (unfold level_files; rewrite Hv; done).
  destruct (pick_universal_size u l0) as [g|] eqn:Ep; [|done]. apply pick_universal_newest in Ep as (older & El & Hlen).
  pose proof (install_runs_levels v before l0 rest Hv) as Hv1. set (v1 := install_runs v before) in *.
  destruct (compact_returns (mkStripes live None merge 0) (retirement_new 0 v1 g (hd_error live)) u64_max (map sst_reader g)) as [outs Hc].
  unfold perform_universal_merge. rewrite Hc. run. set (current := install_runs (take_file_ids v1 (length outs)) meanwhile).
  assert (Hcur : levels current = (older ++ rev g ++ before ++ meanwhile) :: rest).
  { unfold current. rewrite (install_runs_levels (take_file_ids v1 (length outs)) _ (l0 ++ before) rest Hv1), El. by rewrite <- !app_assoc. }
  exists older, outs. eexists. split_and!; [done|done|done|reflexivity|].
  replace (level_files (levels current) 0) with (older ++ rev g ++ before ++ meanwhile) by (unfold level_files; rewrite Hcur; done).
  apply (l0_merge_place _ older (rev g) (before ++ meanwhile) rest); [done| | |].
  - intros E. apply (f_equal length) in E. rewrite length_rev in E. cbn in E. lia.
  - apply Permutation_rev.
  - by rewrite El, <- !app_assoc in Hn.
Qed.

(** C16: A universal merge keeps the age of every run, also with flushes and
    ingests at work beside it. When the picker finds a merge it is of the newest
    runs, two or more and none left out between them, and the pass returns. Its
    outputs take the place of those runs in L0: behind every run the picker left
    out, and in front of none of the runs installed since the pick, before the
    pass read what it may retire or while it merged, which stay the newer. The
    deeper levels are as they were. When the picker finds none the pass reports
    that it did nothing. *)
Theorem universal_merge_keeps_ages open_table live merge u before meanwhile v l0 rest :
  levels v = l0 :: rest -> NoDup (map (fun f : LiveSst Source => file_id (meta f)) (l0 ++ before ++ meanwhile)) ->
  match pick_universal_size u l0 with
  | None => pick_and_run_universal open_table live merge u before meanwhile v = Ok None
  | Some g =>
      let v1 := install_runs v before in
      exists older outs v', l0 = older ++ rev g /\ (2 <= length g)%nat /\
        compact (mkStripes live None merge 0) (retirement_new 0 v1 g (hd_error live)) u64_max (map sst_reader g) = Ok outs /\
        pick_and_run_universal open_table live merge u before meanwhile v = Ok (Some v') /\
        levels v' = (older ++ installed open_table v1 outs ++ before ++ meanwhile) :: rest
  end.
Proof. apply universal_pass_spec. Qed.

(** ** When a merge is one run *)

Definition entries_size (es : list Entry) : Z := fold_right Z.add 0 (map entry_size es).

Lemma entry_size_nonneg e : 0 <= entry_size e.
Proof. unfold entry_size, len. lia. Qed.

Lemma entries_size_app a b : entries_size (a ++ b) = entries_size a + entries_size b.
Proof. unfold entries_size. rewrite map_app. induction (map entry_size a); cbn; lia. Qed.

Lemma entries_size_nonneg es : 0 <= entries_size es.
Proof. unfold entries_size. induction es as [|e es IH]; cbn; [done|]. pose proof (entry_size_nonneg e). lia. Qed.

Lemma size_fold es size : 0 <= size -> size + entries_size es < u64_max ->
  fold_left (fun size e => as_u64 (size + entry_size e)) es size = size + entries_size es.
Proof.
  revert size. induction es as [|e es IH]; intros size H0 Hlt; cbn [fold_left]; [unfold entries_size; cbn; lia|].
  unfold entries_size in Hlt. cbn in Hlt. fold (entries_size es) in Hlt.
  pose proof (entry_size_nonneg e). pose proof (entries_size_nonneg es).
  rewrite as_u64_small by (unfold is_u64, u64_max in *; lia). rewrite IH by lia. unfold entries_size. cbn. lia.
Qed.

(** The writer of an unbounded run has written nothing yet. *)
Definition one_run (w : StreamingCompactionWriter) : Prop :=
  outputs w = [] /\ match current w with Some b => estimated_size b = entries_size (b_entries b) | None => True end.

Lemma add_groups_one_run carried groups w w' : one_run w -> entries_size (written w ++ List.concat groups) < u64_max ->
  add_groups u64_max carried w groups = Ok w' -> one_run w'.
Proof.
  revert w. induction groups as [|g groups IH]; intros w [Ho Hc] Hlt; cbn [add_groups]; [by intros [= <-]|].
  destruct g as [|first g]; [run; by apply IH|]. unfold add_group.
  assert (Hb : entries_size (b_entries (ensure_current w)) = estimated_size (ensure_current w) /\
               b_entries (ensure_current w) = written w).
  { unfold ensure_current, written. rewrite Ho. destruct (current w) as [b|]; [by rewrite Hc|done]. }
  destruct Hb as [Hsize Hw]. cbn [List.concat] in Hlt. rewrite !entries_size_app in Hlt.
  pose proof (entries_size_nonneg (List.concat groups)). pose proof (entries_size_nonneg (first :: g)).
  replace (match current w with Some b => u64_max <=? estimated_size b | None => false end) with false.
  2:{ unfold ensure_current in *. destruct (current w) as [b|]; [|done]. symmetry. apply Z.leb_gt. rewrite Hw in Hsize. lia. }
  run. apply IH; cbn [outputs current b_entries estimated_size].
  - split; [done|]. cbn [current]. cbn [estimated_size b_entries]. rewrite size_fold.
    + by rewrite entries_size_app, Hsize.
    + rewrite <- Hsize. apply entries_size_nonneg.
    + rewrite <- Hsize, Hw. lia.
  - unfold written. cbn [outputs current b_entries]. rewrite Ho, Hw. cbn [outs_entries flat_map app].
    rewrite !entries_size_app. lia.
Qed.

Lemma finish_current_adds carried w w' : finish_current carried w = Ok w' -> (length (outputs w') <= S (length (outputs w)))%nat.
Proof.
  unfold finish_current. destruct (current w) as [b|]; [|intros [= <-]; lia].
  destruct (smallest_user_key b) as [lo|], (largest_user_key b) as [hi|];
    [destruct (clipped_overlaps _ _ _) as [clipped| | |]; run; try done|..]; destruct (b_entries b); repeat case_match;
    intros [= <-]; cbn [outputs]; rewrite ?length_app; cbn; lia.
Qed.

Lemma compact_one_run st r inputs outs :
  let merged := from_vec (filtered_tombstones st (tombstones_of inputs)) in
  tombstones (carried_tombstones r merged) = [] ->
  entries_size (List.concat (reduced_groups st r merged (merged_entries (map s_entries inputs)))) < u64_max ->
  compact st r u64_max inputs = Ok outs -> (length outs <= 1)%nat.
Proof.
  intros merged Ht Hlt. unfold compact. fold merged. destruct (carried_is_set r (filtered_tombstones st (tombstones_of inputs))) as [lc Elc].
  fold merged in Elc. rewrite Elc in *.
  destruct (add_groups_ok u64_max lc (reduced_groups st r merged (merged_entries (map s_entries inputs))) writer_new (writer_new_ok lc))
    as (w & Ew & Hw & _). rewrite Ew. run.
  destruct (add_groups_one_run _ _ _ _ (conj eq_refl I : one_run writer_new) Hlt Ew) as [Ho _].
  unfold finish. destruct (finish_current_ok lc w Hw) as (w' & Ew' & _). rewrite Ew'. run.
  unfold write_uncovered_range_tombstones. rewrite Ht. cbn [length Nat.eqb]. intros [= <-]. rewrite app_nil_r.
  apply finish_current_adds in Ew'. by rewrite Ho in Ew'.
Qed.

(** A universal pass that carries no range tombstone ends the work it was
    picked for: it leaves fewer runs in L0 than it found, so passes end. *)
Theorem universal_pass_shrinks open_table live merge u v l0 rest g :
  let st := mkStripes live None merge 0 in
  let r := retirement_new 0 v g (hd_error live) in
  let merged := from_vec (tombstones_of (map sst_reader g)) in
  levels v = l0 :: rest -> NoDup (map (fun f : LiveSst Source => file_id (meta f)) l0) ->
  pick_universal_size u l0 = Some g -> tombstones (carried_tombstones r merged) = [] ->
  entries_size (List.concat (reduced_groups st r merged (merged_entries (map s_entries (map sst_reader g))))) < u64_max ->
  exists v', pick_and_run_universal open_table live merge u [] [] v = Ok (Some v') /\
    (length (level_files (levels v') 0%Z) < length l0)%nat /\ drop 1 (levels v') = rest.
Proof.
  intros st r merged Hv Hn Hp Ht Hlt. pose proof (universal_pass_spec open_table live merge u [] [] v l0 rest Hv) as H.
  rewrite !app_nil_r in H. specialize (H Hn).
  rewrite Hp in H. destruct H as (older & outs & v' & El & Hlen & Hc & Hrun & Hlev). exists v'. split; [done|].
  rewrite !app_nil_r in Hlev. change (install_runs v []) with v in *. apply compact_one_run in Hc; [|exact Ht|exact Hlt]. rewrite Hlev. split; [|done].
  change (level_files ((older ++ installed open_table v outs) :: rest) 0) with (older ++ installed open_table v outs).
  unfold installed. rewrite El, !length_app, length_rev, length_imap. lia.
Qed.

(** Two flushed runs of one key each; with no snapshot they become one. *)
Definition file_of (id : Z) (o : OutTable) : LiveSst Source :=
  mkLive 0 (mkMeta id (o_smallest o) (o_largest o) 300 (len (o_entries o)) None None) (out_source o).
Definition run_of (k v : bytes) (q : Z) : OutTable := mkOut k k [mkEntry k q VALUE_TYPE_VALUE v] [].
Definition two_runs : list (LiveSst Source) := [file_of 1 (run_of (str "k") (str "a") 5); file_of 2 (run_of (str "k") (str "b") 6)].
Definition universal_default : UniversalCompactionOptions := mkUniversal 1 2 (2 ^ 32 - 1) 200.

Lemma universal_pass_shrinks_witness :
  exists v', pick_and_run_universal file_of [] None universal_default [] [] (mkVersion [two_runs] 3 6 0 0) = Ok (Some v') /\
    (length (level_files (levels v') 0%Z) < 2)%nat /\ drop 1 (levels v') = [].
Proof.
  apply (universal_pass_shrinks file_of [] None universal_default (mkVersion [two_runs] 3 6 0 0) two_runs [] (rev two_runs));
    [reflexivity|refine (bool_decide_unpack _ _); vm_compute; exact I|vm_compute; reflexivity..].
Defined.

(** A run flushed before the pass reads what it may retire, and one flushed while
    it merges. *)
Definition flushed_before : list (LiveSst Source) := [file_of 3 (run_of (str "k") (str "c") 7)].
Definition flushed_meanwhile : list (LiveSst Source) := [file_of 4 (run_of (str "k") (str "d") 8)].
Definition picked_version : Version Source := mkVersion [two_runs] 5 6 0 0.

Lemma universal_merge_keeps_ages_witness :
  exists older outs v', two_runs = older ++ rev (rev two_runs) /\ (2 <= length (rev two_runs))%nat /\
    compact (mkStripes [] None None 0) (retirement_new 0 (install_runs picked_version flushed_before) (rev two_runs) None) u64_max
      (map sst_reader (rev two_runs)) = Ok outs /\
    pick_and_run_universal file_of [] None universal_default flushed_before flushed_meanwhile picked_version = Ok (Some v') /\
    levels v' = [older ++ installed file_of (install_runs picked_version flushed_before) outs ++ flushed_before ++ flushed_meanwhile].
Proof.
  assert (Hn : NoDup (map (fun f : LiveSst Source => file_id (meta f)) (two_runs ++ flushed_before ++ flushed_meanwhile)))
    by (refine (bool_decide_unpack _ _); vm_compute; exact I).
  exact (universal_merge_keeps_ages file_of [] None universal_default flushed_before flushed_meanwhile picked_version two_runs [] eq_refl Hn).
Defined.

(** ** A merge that never ends

    A value and, over it, a range deletion a snapshot still holds: the merge of
    their runs is the value's table and a table of the deletion on either side. *)

Definition pinned_value : OutTable := run_of (str "m") (str "v") 5.
Definition pinned_delete : OutTable := mkOut (str "a") (str "z") [] [mkTomb (str "a") (str "z") 9].
Definition pinned_outs : list OutTable := Eval vm_compute in
  match compact (mkStripes [7] None None 0) (mkRetirement (replicate 6 []) [] (Some 7)) u64_max
          (map out_source [pinned_delete; pinned_value]) with
  | Ok outs => outs | _ => [] end.

Section NeverIdle.
Context (open_table : Z -> OutTable -> LiveSst Source) (size : OutTable -> Z).
Hypothesis open_id : forall id o, file_id (meta (open_table id o)) = id.
Hypothesis open_reader : forall id o, sst_reader (open_table id o) = out_source o.
Hypothesis open_size : forall id o, file_size (meta (open_table id o)) = size o.

Definition tables_at (k : Z) (outs : list OutTable) : list (LiveSst Source) := imap (fun i o => open_table (k + Z.of_nat i) o) outs.

Lemma tables_ids k outs : map (fun f => file_id (meta f)) (tables_at k outs) = map (fun i => k + Z.of_nat i) (List.seq 0 (length outs)).
Proof using open_id.
  unfold tables_at. revert k. induction outs as [|o outs IH]; intros k; [done|]. cbn [imap map length List.seq].
  rewrite open_id. f_equal. rewrite <- seq_shift, map_map.
  rewrite <- (map_ext (fun i => k + 1 + Z.of_nat i)) by (intros; lia). rewrite <- IH. f_equal.
  apply imap_ext. intros i x _. cbn. f_equal. lia.
Qed.

Lemma tables_nodup k outs : NoDup (map (fun f => file_id (meta f)) (tables_at k outs)).
Proof using open_id.
  rewrite tables_ids. change (NoDup ((fun i => k + Z.of_nat i) <$> List.seq 0 (length outs))).
  apply NoDup_fmap_2; [intros i j; lia|apply NoDup_seq].
Qed.

Lemma tables_readers k outs : map sst_reader (tables_at k outs) = map out_source outs.
Proof using open_reader.
  unfold tables_at. revert k. induction outs as [|o outs IH]; intros k; [done|]. cbn [imap map]. rewrite open_reader. f_equal.
  rewrite <- (IH (k + 1)). f_equal. apply imap_ext. intros i x _. cbn. f_equal. lia.
Qed.

Lemma pick_two (a b : LiveSst Source) : file_size (meta a) <= file_size (meta b) * 101 / 100 ->
  pick_universal_size universal_default [a; b] = Some (rev [a; b]).
Proof using.
  intros H. unfold pick_universal_size. cbn [length Nat.ltb Nat.leb rev app size_group]. change (100 + size_ratio universal_default) with 101.
  apply Z.leb_le in H. rewrite H. done.
Qed.

Lemma pick_three (a b c : LiveSst Source) : file_size (meta b) <= file_size (meta c) * 101 / 100 ->
  file_size (meta a) <= (file_size (meta c) + file_size (meta b)) * 101 / 100 ->
  pick_universal_size universal_default [a; b; c] = Some (rev [a; b; c]).
Proof using.
  intros H H'. unfold pick_universal_size. cbn [length Nat.ltb Nat.leb rev app size_group]. change (100 + size_ratio universal_default) with 101.
  apply Z.leb_le in H, H'. rewrite H. cbn [app]. rewrite H'. done.
Qed.

(** Every run of L0 merged: nothing older is left out. *)
Lemma all_inputs_retire v l0 rest oldest : levels v = l0 :: rest ->
  retirement_new 0 v (rev l0) oldest = mkRetirement rest [] oldest.
Proof using.
  intros Hv. unfold retirement_new, level_files. rewrite Hv. cbn [Z.eqb Z.add Z.to_nat lookup list_lookup default from_option].
  f_equal. change (default [] (Some l0)) with l0. apply filter_none, List.Forall_forall. intros f Hf.
  apply negb_false_iff. unfold is_input. apply existsb_exists. exists f. split; [|apply Z.eqb_refl].
  apply -> in_rev. apply list_elem_of_In. apply list_elem_of_In in Hf. apply elem_of_take in Hf as (i & Hi & _). apply list_elem_of_lookup. by exists i.
Qed.

Lemma pinned_pass v k outs : levels v = tables_at k outs :: replicate 6 [] ->
  pick_universal_size universal_default (tables_at k outs) = Some (rev (tables_at k outs)) ->
  compact (mkStripes [7] None None 0) (mkRetirement (replicate 6 []) [] (Some 7)) u64_max (rev (map out_source outs)) = Ok pinned_outs ->
  exists v', pick_and_run_universal open_table [7] None universal_default [] [] v = Ok (Some v') /\
    levels v' = tables_at (next_file_id v) pinned_outs :: replicate 6 [].
Proof using open_id open_reader.
  intros Hv Hp Hc. pose proof (universal_pass_spec open_table [7] None universal_default [] [] v _ _ Hv) as H.
  rewrite !app_nil_r in H. specialize (H (tables_nodup k outs)). rewrite Hp in H. destruct H as (older & outs' & v' & El & _ & Hc' & Hrun & Hlev). exists v'. split; [done|]. rewrite Hlev, !app_nil_r.
  change (install_runs v []) with v in *.
  rewrite (all_inputs_retire v _ _ _ Hv), map_rev, tables_readers in Hc'. cbn [hd_error] in Hc'. rewrite Hc in Hc'.
  injection Hc' as <-. rewrite rev_involutive in El. apply (f_equal length) in El. rewrite length_app in El.
  assert (older = []) as -> by (apply length_zero_iff_nil; lia). done.
Qed.

Notation t n := (default pinned_value (pinned_outs !! n)).

(** What the picker needs of the sizes, with the default options. *)
Record sizes_ok : Prop := {
  so_first : size pinned_value <= size pinned_delete * 101 / 100;
  so_right : size (t 1%nat) <= size (t 2%nat) * 101 / 100;
  so_value : size (t 0%nat) <= (size (t 2%nat) + size (t 1%nat)) * 101 / 100;
}.

Lemma passes_continue n k v : sizes_ok -> levels v = tables_at k pinned_outs :: replicate 6 [] ->
  exists v', passes open_table [7] None universal_default n v = Ok (Some v') /\ length (level_files (levels v') 0) = 3%nat.
Proof using open_id open_reader open_size.
  intros [_ H2 H3]. revert k v. induction n as [|n IH]; intros k v Hv; cbn [passes].
  { exists v. by rewrite Hv. }
  destruct (pinned_pass v k pinned_outs Hv) as (v' & Hrun & Hlev); [|vm_compute; reflexivity|].
  - replace (tables_at k pinned_outs) with [open_table (k + Z.of_nat 0) (t 0%nat); open_table (k + Z.of_nat 1) (t 1%nat);
      open_table (k + Z.of_nat 2) (t 2%nat)] by (vm_compute; reflexivity). apply pick_three; rewrite !open_size; [exact H2|exact H3].
  - rewrite Hrun. run. by eapply IH.
Qed.

End NeverIdle.

(** C17: Universal passes can feed on their own output for ever. Two runs, a value
    and a range deletion over it that a live snapshot still holds: the merge writes
    the value's table and a table of the deletion on either side of it, three runs
    for two, and the picker takes those three again, to write the same three. A
    loop that runs passes for as long as they do work never ends, whatever the
    number of passes, with the default options and any sizes near one another. *)
Theorem universal_passes_never_idle open_table size n :
  (forall id o, file_id (meta (open_table id o)) = id) ->
  (forall id o, sst_reader (open_table id o) = out_source o) ->
  (forall id o, file_size (meta (open_table id o)) = size o) -> sizes_ok size ->
  let v := mkVersion (tables_at open_table 1 [pinned_value; pinned_delete] :: replicate 6 []) 3 9 0 0 in
  exists v', passes open_table [7] None universal_default (S n) v = Ok (Some v') /\ length (level_files (levels v') 0) = 3%nat.
Proof.
  intros Hid Hrd Hsz Hs v. destruct (pinned_pass open_table Hid Hrd v 1 [pinned_value; pinned_delete] eq_refl) as (v' & Hrun & Hlev).
  - apply (pick_two (open_table (1 + Z.of_nat 0) pinned_value) (open_table (1 + Z.of_nat 1) pinned_delete)).
    rewrite !Hsz. by destruct Hs.
  - vm_compute. reflexivity.
  - cbn [passes]. rewrite Hrun. run. by eapply passes_continue.
Qed.

Lemma universal_passes_never_idle_witness :
  exists v', passes file_of [7] None universal_default 5
    (mkVersion (tables_at file_of 1 [pinned_value; pinned_delete] :: replicate 6 []) 3 9 0 0) = Ok (Some v') /\
    length (level_files (levels v') 0) = 3%nat.
Proof. apply (universal_passes_never_idle file_of (fun _ => 300) 4); try reflexivity. split; vm_compute; discriminate. Defined.

(** ** The FIFO picker *)

Lemma total_size_cons {reader} (f : LiveSst reader) files : total_size (f :: files) = file_size (meta f) + total_size files.
Proof. done. Qed.

Lemma fifo_drop_spec {reader} limit (files : list (LiveSst reader)) : Forall (fun f => 0 <= file_size (meta f)) files -> files <> [] ->
  exists kept, files = fifo_drop limit (length files) (total_size files) files ++ kept /\ kept <> [] /\
    (total_size kept <= limit \/ length kept = 1%nat) /\
    forall p f, fifo_drop limit (length files) (total_size files) files = p ++ [f] -> limit < total_size (f :: kept).
Proof.
  induction files as [|f files IH]; [done|]. intros Hs _. inversion Hs as [|? ? Hf Hs']; subst. cbn [fifo_drop length].
  destruct (Nat.leb_spec (S (length files)) 1) as [H1|H1].
  { exists (f :: files). split_and!; [done|done|right; cbn; lia|]. by intros [] ?. }
  destruct (Z.leb_spec (total_size (f :: files)) limit) as [Hl|Hl].
  { exists (f :: files). split_and!; [done|done|by left|]. by intros [] ?. }
  destruct IH as (kept & E & Hne & Hfit & Hmin); [done|by destruct files; cbn in H1; [lia|]|].
  assert (Hrun : saturating_sub (total_size (f :: files)) (file_size (meta f)) = total_size files).
  { rewrite total_size_cons. unfold saturating_sub. enough (0 <= total_size files) by lia. clear - Hs'.
    induction Hs' as [|g files Hg _ IH]; [done|]. rewrite total_size_cons. lia. }
  rewrite Hrun. replace (S (length files) - 1)%nat with (length files) by lia. exists kept.
  split_and!; [by rewrite <- app_comm_cons, <- E|done|done|]. intros p g Ep. destruct p as [|x p].
  - injection Ep as <- Ed. rewrite total_size_cons. rewrite Ed in E. cbn in E. subst kept. by rewrite total_size_cons in Hl.
  - injection Ep as <- Ed. by eapply Hmin.
Qed.

(** FIFO drops the oldest tables that do not fit, and no more. What it drops is
    the front of L0, where the oldest tables are; a table is always kept; what is
    kept fits the limit unless it is one table; and without the last drop it would
    not have fit. *)
Theorem fifo_drops_oldest {reader} limit (l0 : list (LiveSst reader)) : 0 < limit ->
  Forall (fun f => 0 <= file_size (meta f)) l0 -> is_u64 (total_size l0) -> l0 <> [] ->
  exists kept, l0 = pick_fifo limit l0 ++ kept /\ kept <> [] /\ (total_size kept <= limit \/ length kept = 1%nat) /\
    forall p f, pick_fifo limit l0 = p ++ [f] -> limit < total_size (f :: kept).
Proof.
  intros Hl Hs Hu Hne. unfold pick_fifo. destruct (Z.eqb_spec limit 0); [lia|]. rewrite as_u64_small by done.
  destruct (Z.leb_spec (total_size l0) limit); [|by apply fifo_drop_spec].
  exists l0. split_and!; [done|done|by left|]. by intros [] ?.
Qed.

Lemma fifo_drops_oldest_witness :
  pick_fifo 250 [free_table 1 [] []; free_table 2 [] []; free_table 3 [] []] = [free_table 1 [] []] /\
  exists kept, [free_table 1 [] []; free_table 2 [] []; free_table 3 [] []] =
    pick_fifo 250 [free_table 1 [] []; free_table 2 [] []; free_table 3 [] []] ++ kept.
Proof.
  split; [vm_compute; reflexivity|].
  destruct (fifo_drops_oldest 250 [free_table 1 [] []; free_table 2 [] []; free_table 3 [] []]) as (kept & E & _);
    [done|by repeat constructor|by vm_compute|done|]. by exists kept.
Defined.
