(* ===== verification/DeletionPick.v ===== *)
(** * Compactions picked for their deletions

    Models [src/src/engine/compaction/deletion.rs]: how much of what a pass would
    read is dead, the level and universal pickers that go by it, the threshold of
    a near stall, and the turn rule between size-triggered and deletion passes.
    The bytes a table holds in a range, read from its block index, are an
    estimate the rule takes as given: a function here, any function in the
    theorems. Counts and sizes are below [2 ^ 64] in any file and are plain
    integers.

    Shown here: the share of a pass that is dead is never more than all of it and
    is found without a panic or an underflow; a pass picked is free, clear of
    snapshots, mostly dead, and takes every table it must; and a deletion pass
    that is due is passed over a bounded number of times. *)

From stdpp Require Import sets sorting.
From S2P Require Import Prelude Order RangeTombstone TombstoneLog Manifest Version ReadPath Stripes Compaction Picking.

Notation table := (LiveSst Source).
Notation tombstones_in t := (s_tombstones (sst_reader t)).

(** ** The dead share *)

Record Share := mkShare { sh_dead : Z; sh_items : Z }.
Definition mostly_dead (s : Share) : bool := sh_items s <? sh_dead s * 2.
Definition denser_than (s other : Share) : bool := sh_dead other * sh_items s <? sh_dead s * sh_items other.

Definition items (t : table) : Z := num_entries (meta t) + len (tombstones_in t).
Definition hidden (t : table) : Z := match deletions (meta t) with Some d => dead d | None => 0 end.
Definition point_deletions (t : table) : Z := match deletions (meta t) with Some d => points d | None => 0 end.
Definition has_deletions (t : table) : bool := (0 <? hidden t) || negb (length (tombstones_in t) =? 0)%nat.
Definition newest_deletion (t : table) : Z :=
  let point := match deletions (meta t) with Some d => newest_seq d | None => default 0 (global_seq (meta t)) end in
  fold_left Z.max (map seq (tombstones_in t)) point.
Definition deletions_clear (tables : list table) (oldest_live : Z) : bool :=
  forallb (fun t => negb (has_deletions t) || (newest_deletion t <=? oldest_live)) tables.

Inductive Covered := Whole | Part (entries : Z).

Section Pick.
Context (approximate_size_in_range : table -> bytes -> bytes -> Z).

(** The ranges newer tables delete inside [first, end_), or [None] when one of
    their tombstones is over all of it. *)
Fixpoint spans_above (first last end_ : bytes) (spans : list (bytes * bytes)) (above : list table)
  : outcome (option (list (bytes * bytes))) :=
  match above with
  | [] => Ok (Some spans)
  | newer :: above =>
      let set := from_vec (tombstones_in newer) in
      whole ← covers_whole set first last;
      if (whole : bool) then Ok None
      else
        within ← clipped_overlaps set first end_;
        spans_above first last end_ (spans ++ map (fun rt => (start rt, RangeTombstone.end_ rt)) within) above
  end.

Definition covered_from_above (t : table) (live : Z) (above : list (list table)) : outcome Covered :=
  let first := smallest_key (meta t) in
  let last := largest_key (meta t) in
  spans ← spans_above first last (exclusive_successor last) [] (List.concat above);
  match spans with
  | None => Ok Whole
  | Some spans =>
      if (length spans =? 0)%nat || (file_size (meta t) =? 0) then Ok (Part 0)
      else
        let bytes := fold_right Z.add 0 (map (fun '(s, e) => approximate_size_in_range t s e) (merge_key_ranges spans)) in
        Ok (Part (live * Z.min bytes (file_size (meta t)) / file_size (meta t)))
  end.

Record Counting := mkCounting {
  c_all : Z;
  c_dead : Z;
  deletions_above : Z;
  hideable : Z;
  by_points : Z;
  by_ranges : Z;
}.

(** One table of a layer with the layers [above] it. *)
Definition count_table (above : list (list table)) (c : Counting) (t : table) : outcome Counting :=
  let live := saturating_sub (num_entries (meta t)) (hidden t) in
  let all := c_all c + items t in
  let dead := c_dead c + (items t - live) in
  match above with
  | [] => Ok (mkCounting all dead (deletions_above c) (hideable c) (by_points c) (by_ranges c))
  | _ =>
      covered ← covered_from_above t live above;
      match covered with
      | Whole => Ok (mkCounting all (dead + live) (deletions_above c) (hideable c) (by_points c) (by_ranges c))
      | Part covered =>
          Ok (mkCounting all dead (deletions_above c) (hideable c + (live - covered)) (by_points c) (by_ranges c + covered))
      end
  end.

Fixpoint count_layer (above : list (list table)) (c : Counting) (layer : list table) : outcome Counting :=
  match layer with
  | [] => Ok c
  | t :: layer => c ← count_table above c t; count_layer above c layer
  end.

Fixpoint count_layers (above : list (list table)) (c : Counting) (layers : list (list table)) : outcome Counting :=
  match layers with
  | [] => Ok c
  | layer :: layers =>
      c ← count_layer above c layer;
      let by_points := match above with [] => by_points c | _ => Z.min (deletions_above c) (hideable c) end in
      let c := mkCounting (c_all c) (c_dead c) (deletions_above c + fold_right Z.add 0 (map point_deletions layer))
                 (hideable c) by_points (by_ranges c) in
      count_layers (above ++ [layer]) c layers
  end.

Definition share (layers : list (list table)) : outcome Share :=
  c ← count_layers [] (mkCounting 0 0 0 0 0 0) layers;
  Ok (mkShare (c_dead c + by_points c + by_ranges c) (c_all c)).

(** ** The level picker *)

Record Job := mkJob { j_level : Z; j_target : Z; j_inputs : list table; j_below : list table }.

Definition level_job (v : Version Source) (level : Z) (t : table) : outcome Job :=
  if level =? MAX_LEVELS - 1 then Ok (mkJob level level [t] [])
  else
    inputs ← (if level =? 0
              then l0_inputs (level_files (levels v) 0) (Some (smallest_key (meta t)))
                     (Some (exclusive_successor (largest_key (meta t))))
              else Ok [t]);
    match inputs with
    | [] => Panic
    | first :: rest =>
        let '(lo, hi) := key_range first rest in
        Ok (mkJob level (level + 1) inputs (overlapping (level_files (levels v) (level + 1)) lo hi))
    end.

Definition job_tables (j : Job) : list table := j_inputs j ++ j_below j.

Fixpoint best_job (held : table -> bool) (oldest_live : Z) (v : Version Source) (level : Z)
  (best : option (Share * Job)) (tables : list table) : outcome (option (Share * Job)) :=
  match tables with
  | [] => Ok best
  | t :: tables =>
      if negb (has_deletions t) || held t then best_job held oldest_live v level best tables
      else
        job ← level_job v level t;
        if existsb held (job_tables job) || negb (deletions_clear (job_tables job) oldest_live)
        then best_job held oldest_live v level best tables
        else
          s ← share (map (fun f => [f]) (rev (j_inputs job)) ++ [j_below job]);
          let better := match best with None => true | Some (top, _) => denser_than s top end in
          best_job held oldest_live v level (if mostly_dead s && better then Some (s, job) else best) tables
  end.

Fixpoint first_level_job (held : table -> bool) (oldest_live : Z) (v : Version Source) (ls : list Z) : outcome (option Job) :=
  match ls with
  | [] => Ok None
  | level :: ls =>
      best ← best_job held oldest_live v level None (level_files (levels v) level);
      match best with Some (_, job) => Ok (Some job) | None => first_level_job held oldest_live v ls end
  end.

Definition pick_level (held : table -> bool) (oldest_live : Z) (v : Version Source) : outcome (option Job) :=
  first_level_job held oldest_live v (map Z.of_nat (List.seq 0 (Z.to_nat MAX_LEVELS))).

(** ** The universal picker *)

Fixpoint first_width (oldest_live : Z) (runs : list table) (widths : list nat) : outcome (option (list table)) :=
  match widths with
  | [] => Ok None
  | width :: widths =>
      let group := drop (length runs - width) runs in
      s ← share (map (fun f => [f]) (rev group));
      if mostly_dead s && deletions_clear group oldest_live then Ok (Some group) else first_width oldest_live runs widths
  end.

Definition pick_universal (oldest_live : Z) (v : Version Source) : outcome (option (list table)) :=
  let runs := level_files (levels v) 0 in
  if negb (existsb has_deletions runs) then Ok None
  else
    match runs with
    | [only] =>
        let alone := forallb (fun files =>
          (length (overlapping files (smallest_key (meta only)) (largest_key (meta only))) =? 0)%nat) (drop 1 (levels v)) in
        if alone then
          s ← share [runs];
          Ok (if mostly_dead s && deletions_clear runs oldest_live then Some runs else None)
        else Ok None
    | _ => first_width oldest_live runs (List.seq 2 (length runs - 1))
    end.

End Pick.

(** ** Stalls and turns *)

Definition saturating_add_u64 (a b : Z) : Z := Z.min (a + b) u64_max.

Definition stall_near (v : Version Source) (opts : CompactionOptions) : bool :=
  let l0 := level_files (levels v) 0 in
  let '(bytes, largest) := fold_left (fun '(sum, m) f => (sum + file_size (meta f), Z.max m (file_size (meta f)))) l0 (0, 0) in
  let by_count := existsb (fun trigger => (0 <? trigger) && (trigger <=? len l0 + 1))
    [level0_slowdown_writes_trigger opts; level0_stop_writes_trigger opts] in
  let by_bytes := existsb (fun limit => (0 <? limit) && (limit <=? saturating_add_u64 bytes largest))
    [soft_pending_compaction_bytes_limit opts; hard_pending_compaction_bytes_limit opts] in
  by_count || by_bytes.

(** [crate::sync::MAX_BYPASS]. *)
Definition TURN_MAX : Z := 16.

(** What a closure of the pass reports, given what the tables are when it runs. *)
Definition Turn_pass (passed_over : Z) (pressed : bool) (by_size : outcome CompactionOutcome)
  (by_deletions : outcome CompactionOutcome) : outcome CompactionOutcome * Z :=
  let owed := negb pressed && (TURN_MAX <=? passed_over) in
  let run_size_and_after (result : CompactionOutcome) (passed : Z) : outcome CompactionOutcome * Z :=
    match by_size with
    | Ok DidWork => (Ok DidWork, if passed <? TURN_MAX then passed + 1 else passed)
    | Ok size =>
        let result := match size with Contended => Contended | _ => result end in
        if owed then (Ok result, passed)
        else
          match by_deletions with
          | Ok DidWork => (Ok DidWork, 0)
          | Ok Contended => (Ok Contended, passed)
          | Ok Idle => (Ok result, passed)
          | other => (other, passed)
          end
    | other => (other, passed)
    end in
  if owed then
    match by_deletions with
    | Ok DidWork => (Ok DidWork, 0)
    | Ok Idle => run_size_and_after Idle 0
    | Ok Contended => run_size_and_after Contended passed_over
    | other => (other, passed_over)
    end
  else run_size_and_after Idle passed_over.

(** ** The share is a share *)

(** What a table counts is not negative. *)
Record counts_ok (t : table) : Prop := {
  co_entries : 0 <= num_entries (meta t);
  co_hidden : 0 <= hidden t;
  co_points : 0 <= point_deletions t;
  co_size : 0 <= file_size (meta t);
}.

Section Bounds.
Context (approx : table -> bytes -> bytes -> Z).
Hypothesis Happrox : forall t s e, 0 <= approx t s e.

Lemma spans_above_returns first last e spans above : exists r, spans_above first last e spans above = Ok r.
Proof using.
  revert spans. induction above as [|t above IH]; intros spans; cbn [spans_above]; [by eexists|].
  rewrite covers_whole_correct. run. case_match; [by eexists|].
  destruct (clipped_overlaps_deletes (tombstones_in t) first e) as (within & -> & _). run. apply IH.
Qed.

Lemma sum_nonneg l : Forall (fun z => 0 <= z) l -> 0 <= fold_right Z.add 0 l.
Proof using. induction 1; cbn; lia. Qed.

Lemma covered_bounds t live above : 0 <= live -> 0 <= file_size (meta t) ->
  exists c, covered_from_above approx t live above = Ok c /\ match c with Whole => True | Part n => 0 <= n <= live end.
Proof using Happrox.
  intros Hlive Hsize. unfold covered_from_above. destruct (spans_above_returns (smallest_key (meta t)) (largest_key (meta t))
    (exclusive_successor (largest_key (meta t))) [] (List.concat above)) as [spans ->]. run.
  destruct spans as [spans|]; [|by eexists]. destruct ((length spans =? 0)%nat); cbn [orb]; [by eexists|].
  destruct (Z.eqb_spec (file_size (meta t)) 0) as [|Hne]; [by eexists|]. eexists. split; [reflexivity|]. cbn.
  set (b := fold_right _ _ _). assert (Hb : 0 <= b).
  { apply sum_nonneg, List.Forall_forall. intros z ([s e] & <- & _)%in_map_iff. apply Happrox. }
  split; [apply Z.div_pos; nia|]. apply Z.div_le_upper_bound; nia.
Qed.

Record counting_ok (c : Counting) : Prop := {
  cn_above : 0 <= deletions_above c;
  cn_points : 0 <= by_points c <= hideable c;
  cn_ranges : 0 <= by_ranges c;
  cn_dead : 0 <= c_dead c;
  cn_all : c_dead c + hideable c + by_ranges c <= c_all c;
}.

Lemma count_table_ok above c t : counts_ok t -> counting_ok c ->
  exists c', count_table approx above c t = Ok c' /\ counting_ok c' /\ c_all c' = c_all c + items t.
Proof using Happrox.
  intros [He Hh Hp Hs] [H1 H2 H3 H4 H5]. unfold count_table. set (live := saturating_sub _ _).
  assert (Hlive : 0 <= live <= items t) by (unfold live, saturating_sub, items, len; lia).
  destruct above as [|a above]; [eexists; split; [reflexivity|]; split; [split; cbn; lia|done]|].
  destruct (covered_bounds t live (a :: above)) as (cov & -> & Hc); [lia|done|]. run.
  destruct cov as [|n]; (eexists; split; [reflexivity|]; split; [split; cbn; lia|done]).
Qed.

Lemma count_layer_ok above layer c : Forall counts_ok layer -> counting_ok c ->
  exists c', count_layer approx above c layer = Ok c' /\ counting_ok c' /\ c_all c' = c_all c + fold_right Z.add 0 (map items layer).
Proof using Happrox.
  intros Hl. revert c. induction Hl as [|t layer Ht _ IH]; intros c Hc; cbn [count_layer]; [exists c; cbn; split; [done|]; split; [done|lia]|].
  destruct (count_table_ok above c t Ht Hc) as (c1 & -> & Hc1 & E1). run. destruct (IH c1 Hc1) as (c2 & -> & Hc2 & E2).
  exists c2. split; [done|]. split; [done|]. cbn. lia.
Qed.

Lemma count_layers_ok layers above c : Forall (Forall counts_ok) layers -> counting_ok c ->
  exists c', count_layers approx above c layers = Ok c' /\ counting_ok c' /\
    c_all c' = c_all c + fold_right Z.add 0 (map items (List.concat layers)).
Proof using Happrox.
  intros Hl. revert above c. induction Hl as [|layer layers Ht _ IH]; intros above c Hc; cbn [count_layers];
    [exists c; cbn; split; [done|]; split; [done|lia]|].
  destruct (count_layer_ok above layer c Ht Hc) as (c1 & -> & [H1 H2 H3 H4 H5] & E1). run.
  destruct (IH (above ++ [layer]) (mkCounting (c_all c1) (c_dead c1) (deletions_above c1 + fold_right Z.add 0 (map point_deletions layer))
    (hideable c1) (match above with [] => by_points c1 | _ => Z.min (deletions_above c1) (hideable c1) end) (by_ranges c1)))
    as (c2 & -> & Hc2 & E2).
  - assert (0 <= fold_right Z.add 0 (map point_deletions layer)).
    { apply sum_nonneg, List.Forall_forall. intros z (t & <- & Hin)%in_map_iff. rewrite List.Forall_forall in Ht. apply (Ht t Hin). }
    split; cbn; try lia; destruct above; lia.
  - exists c2. split; [done|]. split; [done|]. rewrite E2. cbn [c_all]. rewrite E1. cbn [List.concat]. rewrite map_app.
    assert (Happ : forall a b, fold_right Z.add 0 (a ++ b) = fold_right Z.add 0 a + fold_right Z.add 0 b) by (induction a; cbn; intros; rewrite ?IHa; lia).
    rewrite Happ. lia.
Qed.

Lemma share_returns layers : Forall (Forall counts_ok) layers ->
  exists s, share approx layers = Ok s /\ 0 <= sh_dead s <= sh_items s /\ sh_items s = fold_right Z.add 0 (map items (List.concat layers)).
Proof using Happrox.
  intros Hl. unfold share. destruct (count_layers_ok layers [] (mkCounting 0 0 0 0 0 0) Hl) as (c & -> & [H1 H2 H3 H4 H5] & E).
  { by split. }
  run. eexists. split; [reflexivity|]. cbn in *. lia.
Qed.

End Bounds.

(** The dead share of a pass is a share of it: it is found without a panic or
    an underflow, whatever the block index estimates, counts every entry and every
    range tombstone of the pass once, and never more of them dead than there are. *)
Theorem share_within_bounds approx layers : (forall t s e, 0 <= approx t s e) -> Forall (Forall counts_ok) layers ->
  exists s, share approx layers = Ok s /\ 0 <= sh_dead s <= sh_items s /\
    sh_items s = fold_right Z.add 0 (map items (List.concat layers)).
Proof. intros. by apply share_returns. Qed.

(** A run of deletions, with the tombstone it holds, over the run it deletes. *)
Definition deleting : table :=
  mkLive 9 (mkMeta 2 (str "a") (str "k") 100 4 None (Some (mkDeletions 3 3 8))) (Table [] [mkTomb (str "b") (str "k") 9]).
Definition deleted : table := mkLive 5 (mkMeta 1 (str "c") (str "z") 100 10 None (Some (mkDeletions 0 0 0))) (Table [] []).
Definition half_inside (t : table) (s e : bytes) : Z := 50.

Lemma share_within_bounds_witness :
  share half_inside [[deleting]; [deleted]] = Ok (mkShare 12 15) /\
  exists s, share half_inside [[deleting]; [deleted]] = Ok s /\ 0 <= sh_dead s <= sh_items s /\
    sh_items s = fold_right Z.add 0 (map items (List.concat [[deleting]; [deleted]])).
Proof.
  split; [vm_compute; reflexivity|]. apply (share_within_bounds half_inside); [done|]. repeat constructor; done.
Defined.

(** ** What is picked *)

Section Picked.
Context (approx : table -> bytes -> bytes -> Z) (held : table -> bool) (oldest_live : Z) (v : Version Source).
Hypothesis Happrox : forall t s e, 0 <= approx t s e.
Hypothesis Hcounts : Forall (Forall counts_ok) (levels v).
Hypothesis Hranges : Forall (fun f => range_ok (meta f)) (level_files (levels v) 0).

Lemma level_counts level t : In t (level_files (levels v) level) -> counts_ok t.
Proof using Hcounts.
  unfold level_files. destruct (levels v !! Z.to_nat level) as [files|] eqn:E; [|done]. cbn. intros Ht.
  rewrite List.Forall_forall in Hcounts. apply list_elem_of_lookup_2, list_elem_of_In in E.
  specialize (Hcounts files E). rewrite List.Forall_forall in Hcounts. by apply Hcounts.
Qed.

Lemma picked_incl (files : list table) picked : incl (picked_files files picked) files.
Proof using. intros f ([g b] & <- & [Hin _]%filter_In)%in_map_iff. by apply in_combine_l in Hin. Qed.

Lemma overlapping_incl (files : list table) lo hi : incl (overlapping files lo hi) files.
Proof using.
  intros f Hf. unfold overlapping, takez, dropz in Hf. apply list_elem_of_In. apply list_elem_of_In in Hf.
  eapply elem_of_sublist; [exact Hf|]. etrans; [apply sublist_take|apply sublist_drop].
Qed.

(** A job takes a table of its level and, with it, what it overlaps. *)
Record job_ok (level : Z) (j : Job) : Prop := {
  jo_level : j_level j = level;
  jo_inputs : j_inputs j <> [] /\ incl (j_inputs j) (level_files (levels v) level);
  jo_below : incl (j_below j) (level_files (levels v) (j_target j));
  jo_target : j_target j = level + 1 \/ level = MAX_LEVELS - 1 /\ j_target j = level;
  jo_range : j_target j = level + 1 -> exists first rest lo hi, j_inputs j = first :: rest /\ key_range first rest = (lo, hi) /\
    j_below j = overlapping (level_files (levels v) (level + 1)) lo hi;
}.

Lemma level_job_ok level t : In t (level_files (levels v) level) -> exists j, level_job v level t = Ok j /\ job_ok level j.
Proof using Hranges.
  intros Ht. unfold level_job. destruct (Z.eqb_spec level (MAX_LEVELS - 1)) as [El|_].
  { eexists. split; [reflexivity|]. split; cbn; [done| |by intros ? []|by right|lia]. split; [done|by intros ? [<-|[]]]. }
  assert (Hin : exists inputs, (if level =? 0 then l0_inputs (level_files (levels v) 0) (Some (smallest_key (meta t)))
      (Some (exclusive_successor (largest_key (meta t)))) else Ok [t]) = Ok inputs /\ inputs <> [] /\ incl inputs (level_files (levels v) level)).
  { destruct (Z.eqb_spec level 0) as [->|_]; [|exists [t]; split; [done|]; split; [done|by intros ? [<-|[]]]].
    destruct (l0_inputs_spec (level_files (levels v) 0) (Some (smallest_key (meta t))) (Some (exclusive_successor (largest_key (meta t)))))
      as (picked & _ & -> & Hp & _). eexists. split; [reflexivity|]. split; [|apply picked_incl].
    apply list_elem_of_In, list_elem_of_lookup in Ht as [i Hi]. intros E. specialize (Hp i t Hi).
    assert (Hov : file_overlaps_range t (Some (smallest_key (meta t))) (Some (exclusive_successor (largest_key (meta t)))) = true).
    { rewrite List.Forall_forall in Hranges. assert (Hr : range_ok (meta t)).
      { apply Hranges, list_elem_of_In, list_elem_of_lookup. by exists i. }
      unfold range_ok in Hr. unfold file_overlaps_range. pose proof (successor_above (largest_key (meta t))).
      apply negb_true_iff, orb_false_iff. split; [destruct (bytes_ltb_spec (largest_key (meta t)) (smallest_key (meta t)))|
        destruct (bytes_leb_spec (exclusive_successor (largest_key (meta t))) (smallest_key (meta t)))]; try done; exfalso; border. }
    pose proof (picked_In _ _ _ _ Hi (Hp Hov)) as Hx. by rewrite E in Hx. }
  destruct Hin as (inputs & -> & Hne & Hincl). run. destruct inputs as [|first rest]; [done|].
  destruct (key_range first rest) as [lo hi] eqn:Ek. eexists. split; [reflexivity|].
  split; cbn [j_level j_inputs j_below j_target]; [done|done|apply overlapping_incl|by left|]. intros _. by exists first, rest, lo, hi.
Qed.

(** What makes a pass worth running. *)
Definition worth (j : Job) : Prop :=
  (forall t, In t (job_tables j) -> held t = false) /\ deletions_clear (job_tables j) oldest_live = true /\
  exists s, share approx (map (fun f => [f]) (rev (j_inputs j)) ++ [j_below j]) = Ok s /\ mostly_dead s = true.

Lemma best_job_ok level tables best : incl tables (level_files (levels v) level) ->
  (forall s j, best = Some (s, j) -> job_ok level j /\ worth j) ->
  exists r, best_job approx held oldest_live v level best tables = Ok r /\ forall s j, r = Some (s, j) -> job_ok level j /\ worth j.
Proof using Happrox Hcounts Hranges.
  revert best. induction tables as [|t tables IH]; intros best Hincl Hbest; cbn [best_job]; [by exists best|].
  assert (Ht : In t (level_files (levels v) level)) by (apply Hincl; by left).
  apply incl_cons_inv in Hincl as [_ Hincl]. destruct (negb _ || _); [by apply IH|].
  destruct (level_job_ok level t Ht) as (j & -> & Hj). run. destruct (existsb held _ || _) eqn:Ehd; [by apply IH|].
  apply orb_false_iff in Ehd as [Ehd Ecl%negb_false_iff].
  destruct (share_returns approx Happrox (map (fun f => [f]) (rev (j_inputs j)) ++ [j_below j])) as (s & Es & _).
  { apply Forall_app. split.
    - apply List.Forall_forall. intros l (f & <- & Hf%in_rev)%in_map_iff. constructor; [|done].
      eapply level_counts. by apply (jo_inputs _ _ Hj).
    - constructor; [|done]. apply List.Forall_forall. intros f Hf. eapply level_counts. by apply (jo_below _ _ Hj). }
  rewrite Es. run. apply IH; [done|]. intros s' j'. destruct (mostly_dead s && _) eqn:Em; [|by apply Hbest].
  intros [= <- <-]. apply andb_true_iff in Em as [Em _]. split; [done|]. split; [|split; [done|by exists s]].
  intros f Hf. destruct (held f) eqn:E; [|done]. by rewrite (proj2 (existsb_exists held _) (ex_intro _ f (conj Hf E))) in Ehd.
Qed.

Lemma first_level_job_ok ls : exists r, first_level_job approx held oldest_live v ls = Ok r /\
  forall j, r = Some j -> (exists level, level ∈ ls /\ job_ok level j) /\ worth j.
Proof using Happrox Hcounts Hranges.
  induction ls as [|level ls IH]; cbn [first_level_job]; [by exists None|].
  destruct (best_job_ok level (level_files (levels v) level) None (incl_refl _)) as (r & -> & Hr); [done|]. run.
  destruct r as [[s j]|].
  - exists (Some j). split; [done|]. intros j' [= <-]. destruct (Hr s j eq_refl) as [Hj Hw]. split; [|done].
    exists level. split; [apply elem_of_cons; by left|done].
  - destruct IH as (r & -> & Hr'). exists r. split; [done|]. intros j Hj. destruct (Hr' j Hj) as [(l & Hl & Hjo) Hw].
    split; [|done]. exists l. split; [apply elem_of_cons; by right|done].
Qed.

End Picked.

(** C21: The deletion picker finds a pass or none, without a panic, and a pass it
    picks is worth running and complete: no table of it is held by another pass,
    no live snapshot is below a deletion of it, more than half of it is dead, and
    every table of the level below that shares a key with an input is part of it. *)
Theorem deletion_pick_sound approx held oldest_live v :
  (forall t s e, 0 <= approx t s e) -> Forall (Forall counts_ok) (levels v) ->
  Forall (fun f => range_ok (meta f)) (level_files (levels v) 0) ->
  Forall (fun files => Forall range_ok (map meta files) /\ sorted_run (map meta files)) (drop 1 (levels v)) ->
  exists r, pick_level approx held oldest_live v = Ok r /\
    forall j, r = Some j -> worth approx held oldest_live j /\ j_inputs j <> [] /\
      incl (j_inputs j) (level_files (levels v) (j_level j)) /\
      (forall f g, j_target j = j_level j + 1 -> In f (j_inputs j) -> In g (level_files (levels v) (j_target j)) -> share_a_key f g -> In g (j_below j)).
Proof.
  intros Happ Hc Hr Hruns. unfold pick_level.
  destruct (first_level_job_ok approx held oldest_live v Happ Hc Hr (map Z.of_nat (List.seq 0 (Z.to_nat MAX_LEVELS)))) as (r & -> & Hj).
  exists r. split; [done|]. intros j E. destruct (Hj j E) as [(level & Hl & [H1 [H2 H2'] H3 H4 H5]) Hw]. rewrite H1.
  split_and!; [done|done|done|]. intros f g Ht Hf Hg [Hk1 Hk2]. destruct (H5 Ht) as (first & rest & lo & hi & Ei & Ek & ->).
  pose proof (key_range_spec first rest f) as Hrange. rewrite Ek in Hrange. rewrite Ei in Hf. destruct (Hrange Hf) as [Hlo Hhi].
  apply list_elem_of_In, in_map_iff in Hl as (n & <- & _). rewrite Ht in Hg. unfold level_files in *.
  destruct (levels v !! Z.to_nat (Z.of_nat n + 1)) as [below|] eqn:Eb; [|by cbn in Hg]. cbn in Hg |- *.
  rewrite List.Forall_forall in Hruns. destruct (Hruns below) as [Hok Hs].
  { apply list_elem_of_In, list_elem_of_lookup. exists n. rewrite lookup_drop. by replace (1 + n)%nat with (Z.to_nat (Z.of_nat n + 1)) by lia. }
  rewrite overlapping_filter by done. apply filter_In. split; [done|].
  by destruct (bytes_leb_spec lo (largest_key (meta g))), (bytes_leb_spec (smallest_key (meta g)) hi); try done; exfalso; border.
Qed.

Lemma deletion_pick_sound_witness :
  let v := mkVersion ([deleting] :: [deleted] :: replicate 5 []) 3 9 0 0 in
  pick_level half_inside (fun _ => false) 100 v = Ok (Some (mkJob 0 1 [deleting] [deleted])) /\
  worth half_inside (fun _ => false) 100 (mkJob 0 1 [deleting] [deleted]).
Proof.
  intros v. assert (E : pick_level half_inside (fun _ => false) 100 v = Ok (Some (mkJob 0 1 [deleting] [deleted])))
    by (vm_compute; reflexivity).
  split; [exact E|]. destruct (deletion_pick_sound half_inside (fun _ => false) 100 v) as (r & Er & Hr).
  - done.
  - repeat constructor; done.
  - repeat constructor. vm_compute. discriminate.
  - unfold range_ok, sorted_run. refine (bool_decide_unpack _ _). vm_compute. exact I.
  - rewrite E in Er. injection Er as <-. exact (proj1 (Hr _ eq_refl)).
Defined.

Lemma first_width_newest approx oldest_live runs widths r : first_width approx oldest_live runs widths = Ok (Some r) ->
  exists width, width ∈ widths /\ r = drop (length runs - width) runs.
Proof.
  induction widths as [|width widths IH]; cbn [first_width]; [done|]. destruct (share _ _) as [s| | |]; run; try done.
  destruct (_ && _).
  - intros [= <-]. exists width. split; [apply elem_of_cons; by left|done].
  - intros H. destruct (IH H) as (w & Hw & E). exists w. split; [apply elem_of_cons; by right|done].
Qed.

(** The runs a universal deletion merge takes are the newest of the pool, so
    its output can take their place: two or more, or the only run when no deeper
    level holds a key of its range. *)
Theorem universal_deletion_pick_newest approx oldest_live v r : pick_universal approx oldest_live v = Ok (Some r) ->
  let runs := level_files (levels v) 0 in
  (exists older, runs = older ++ r) /\
  ((2 <= length r)%nat \/ exists only, runs = [only] /\ r = [only] /\
    Forall (fun files => overlapping files (smallest_key (meta only)) (largest_key (meta only)) = []) (drop 1 (levels v))).
Proof.
  intros H runs. unfold pick_universal in H. fold runs in H. destruct (negb _); [done|].
  destruct runs as [|only [|run2 more]] eqn:Er; [done| |].
  - destruct (forallb _ _) eqn:Ea; [|done]. destruct (share _ _) as [s| | |]; try done. revert H. run.
    destruct (_ && _); [|done]. intros [= <-]. split; [by exists []|]. right. exists only. split; [done|]. split; [done|].
    apply List.Forall_forall. intros files Hf. rewrite forallb_forall in Ea. specialize (Ea files Hf).
    by apply Nat.eqb_eq, length_zero_iff_nil in Ea.
  - apply first_width_newest in H as (width & Hw & ->). apply list_elem_of_In, in_seq in Hw. cbn [length] in *.
    split; [eexists; symmetry; apply take_drop|]. left. rewrite length_drop. cbn [length]. lia.
Qed.

Lemma universal_deletion_pick_newest_witness :
  let v := mkVersion ([deleted; deleting] :: replicate 6 []) 3 9 0 0 in
  pick_universal half_inside 100 v = Ok (Some [deleted; deleting]) /\ (exists older, [deleted; deleting] = older ++ [deleted; deleting]).
Proof.
  intros v. assert (E : pick_universal half_inside 100 v = Ok (Some [deleted; deleting])) by (vm_compute; reflexivity).
  split; [exact E|]. exact (proj1 (universal_deletion_pick_newest half_inside 100 v _ E)).
Defined.

(** ** Turns *)

(** Passes that are not pressed, each with what its size-triggered work reports,
    while a deletion pass is due; the count after each. *)
Fixpoint turn_runs (passed_over : Z) (sizes : list CompactionOutcome) : list Z :=
  match sizes with
  | [] => []
  | size :: sizes =>
      let passed_over := (Turn_pass passed_over false (Ok size) (Ok DidWork)).2 in
      passed_over :: turn_runs passed_over sizes
  end.

Lemma turn_step p size : 0 <= p <= TURN_MAX ->
  let p' := (Turn_pass p false (Ok size) (Ok DidWork)).2 in p' = 0 \/ p' = p + 1 /\ p < TURN_MAX.
Proof.
  intros Hp. unfold Turn_pass. cbn [negb andb]. destruct (Z.leb_spec TURN_MAX p); [by left|].
  destruct size; cbn; [|by left|by left]. destruct (Z.ltb_spec p TURN_MAX); cbn; lia.
Qed.

(** A deletion pass that is due is passed over a bounded number of times. Of
    any seventeen passes with no stall near, whatever size-triggered work each of
    them finds, one runs the deletion pass. *)
Theorem deletion_pass_gets_its_turn p sizes : 0 <= p <= TURN_MAX -> TURN_MAX < len sizes -> In 0 (turn_runs p sizes).
Proof.
  intros Hp Hl. assert (Hm : TURN_MAX - p < len sizes) by lia. clear Hl.
  revert p Hp Hm. induction sizes as [|size sizes IH]; intros p Hp Hm; [unfold len in Hm; cbn in Hm; lia|].
  cbn [turn_runs]. destruct (turn_step p size Hp) as [E|[E Hlt]]; rewrite E; [by left|]. right. apply IH; [lia|].
  unfold len in *. cbn [length] in Hm. lia.
Qed.

Lemma deletion_pass_gets_its_turn_witness : In 0 (turn_runs 3 (replicate 17 DidWork)).
Proof. apply deletion_pass_gets_its_turn; vm_compute; [split; discriminate|reflexivity]. Defined.
