(* ===== verification/Claims.v ===== *)
(** * Claims of compaction passes

    Models [src/src/engine/compaction/claims.rs]: the word that counts claimed
    tables and holds the pool's bit, the flag of each table, and the passes that
    share them, any number of threads, one atomic access per step. Tables are
    their ids; the loads and stores are sequentially consistent.

    Shown here: no table and no pool is ever held twice, whatever the
    interleaving; nothing stays claimed when no pass is running; and two passes
    claiming tables never wait on each other. *)

From stdpp Require Import gmap sorting.
From S2P Require Import Prelude Order.

Definition POOL : Z := 2 ^ 63.

(** [word] and the [claimed] flags that are set. *)
Record Shared := mkShared { word : Z; claimed : gset Z }.

(** Where a pass is: idle; in [tables], before the load, before the exchange,
    taking the flags, giving them back; holding tables; dropping them; in [pool];
    holding the pool. *)
Inductive pass :=
| PIdle
| PLoad (tables : list Z)
| PExchange (tables : list Z) (seen : Z)
| PTake (tables : list Z) (taken : nat)
| PGiveBack (tables : list Z) (taken given : nat)
| PHold (tables : list Z)
| PDrop (tables : list Z) (dropped : nat)
| PTryPool
| PHoldPool.

Definition pool_bit (w : Z) : bool := negb (Z.land w POOL =? 0).

Section Step.
(** The most tables a pass reaches for. *)
Context (most : Z).

Inductive pass_step : Shared -> pass -> Shared -> pass -> Prop :=
| step_tables sh tables : len tables <= most -> pass_step sh PIdle sh (PLoad tables)
| step_load sh tables : pass_step sh (PLoad tables) sh (PExchange tables (word sh))
| step_pool_held sh tables seen : pool_bit seen = true -> pass_step sh (PExchange tables seen) sh PIdle
| step_counted sh tables seen : pool_bit seen = false -> word sh = seen ->
    pass_step sh (PExchange tables seen) (mkShared (seen + len tables) (claimed sh)) (PTake (sort_by Z.compare tables) 0)
(* The exchange is weak: it may fail on an equal word. *)
| step_retry sh tables seen : pool_bit seen = false ->
    pass_step sh (PExchange tables seen) sh (PExchange tables (word sh))
| step_take sh tables n t : tables !! n = Some t -> t ∉ claimed sh ->
    pass_step sh (PTake tables n) (mkShared (word sh) ({[t]} ∪ claimed sh)) (PTake tables (S n))
| step_taken sh tables n t : tables !! n = Some t -> t ∈ claimed sh -> pass_step sh (PTake tables n) sh (PGiveBack tables n 0)
| step_all sh tables n : n = length tables -> pass_step sh (PTake tables n) sh (PHold tables)
| step_give sh tables n k t : (k < n)%nat -> tables !! k = Some t ->
    pass_step sh (PGiveBack tables n k) (mkShared (word sh) (claimed sh ∖ {[t]})) (PGiveBack tables n (S k))
| step_gave sh tables n : pass_step sh (PGiveBack tables n n) (mkShared (word sh - len tables) (claimed sh)) PIdle
| step_release sh tables : pass_step sh (PHold tables) sh (PDrop tables 0)
| step_drop sh tables k t : tables !! k = Some t ->
    pass_step sh (PDrop tables k) (mkShared (word sh) (claimed sh ∖ {[t]})) (PDrop tables (S k))
| step_dropped sh tables k : k = length tables ->
    pass_step sh (PDrop tables k) (mkShared (word sh - len tables) (claimed sh)) PIdle
| step_pool sh : pass_step sh PIdle sh PTryPool
| step_pool_taken sh : word sh = 0 -> pass_step sh PTryPool (mkShared POOL (claimed sh)) PHoldPool
| step_pool_busy sh : word sh <> 0 -> pass_step sh PTryPool sh PIdle
| step_pool_dropped sh : pass_step sh PHoldPool (mkShared (Z.ldiff (word sh) POOL) (claimed sh)) PIdle.

Record System := mkSystem { shared : Shared; passes : list pass }.

Inductive system_step : System -> System -> Prop :=
| any_pass sh before p after sh' p' : pass_step sh p sh' p' ->
    system_step (mkSystem sh (before ++ p :: after)) (mkSystem sh' (before ++ p' :: after)).

Definition system_start (n : nat) : System := mkSystem (mkShared 0 ∅) (replicate n PIdle).

End Step.

(** ** The invariant *)

(** The flags a pass has set. *)
Definition owned (p : pass) : list Z :=
  match p with
  | PTake tables n => take n tables
  | PGiveBack tables n k => drop k (take n tables)
  | PHold tables => tables
  | PDrop tables k => drop k tables
  | _ => []
  end.

(** What a pass adds to the word. *)
Definition counted (p : pass) : Z :=
  match p with
  | PTake tables _ | PGiveBack tables _ _ | PHold tables | PDrop tables _ => len tables
  | _ => 0
  end.
Definition pooled (p : pass) : Z := match p with PHoldPool => POOL | _ => 0 end.

Definition pass_ok (most : Z) (p : pass) : Prop :=
  counted p <= most /\
  match p with
  | PLoad tables | PExchange tables _ => len tables <= most
  | PTake tables n => (n <= length tables)%nat /\ StronglySorted Z.le tables
  | PGiveBack tables n k => (k <= n <= length tables)%nat
  | PDrop tables k => (k <= length tables)%nat
  | _ => True
  end.

Definition sum (l : list Z) : Z := fold_right Z.add 0 l.

Record claims_inv (most : Z) (s : System) : Prop := {
  ci_owned : NoDup (List.concat (map owned (passes s)));
  ci_flags : forall t, t ∈ claimed (shared s) <-> t ∈ List.concat (map owned (passes s));
  ci_word : word (shared s) = sum (map counted (passes s)) + sum (map pooled (passes s));
  ci_pool : sum (map pooled (passes s)) = 0 \/ sum (map pooled (passes s)) = POOL /\ sum (map counted (passes s)) = 0;
  ci_passes : Forall (pass_ok most) (passes s);
}.

Lemma sum_app a b : sum (a ++ b) = sum a + sum b.
Proof. unfold sum. induction a; cbn; lia. Qed.

Lemma sum_at (f : pass -> Z) before p after : sum (map f (before ++ p :: after)) = f p + sum (map f (before ++ after)).
Proof. rewrite !map_app, !sum_app. cbn. unfold sum. lia. Qed.

Lemma owned_at before p after :
  List.concat (map owned (before ++ p :: after)) ≡ₚ owned p ++ List.concat (map owned (before ++ after)).
Proof.
  rewrite !map_app, !concat_app. cbn. rewrite !app_assoc. f_equiv. apply Permutation_app_comm.
Qed.

Lemma counted_bounds most ps : Forall (pass_ok most) ps -> 0 <= most ->
  0 <= sum (map counted ps) <= most * len ps /\ 0 <= sum (map pooled ps).
Proof.
  intros H Hm. induction H as [|p ps [Hp _] _ IH]; [unfold sum, len; cbn; lia|].
  assert (0 <= counted p) by (destruct p; cbn; unfold len; lia).
  assert (0 <= pooled p) by (destruct p; cbn; unfold POOL; lia).
  unfold sum, len in *. cbn [map fold_right length]. split; nia.
Qed.

Lemma sort_sorted l : StronglySorted Z.le (sort_by Z.compare l).
Proof.
  assert (PreorderCmp Z.compare).
  { split; [intros x y; rewrite Z.compare_gt_iff, Z.compare_ngt_iff; lia|intros x y z; rewrite !Z.compare_ngt_iff; lia]. }
  pose proof (sort_by_sorted Z.compare l) as Hs. unfold sorted_by in Hs.
  induction Hs as [|x k Hk IH Hx]; constructor; [done|]. eapply List.Forall_impl; [|exact Hx]. cbn. intros y. rewrite Z.compare_ngt_iff. lia.
Qed.

Lemma pool_bit_small w : 0 <= w < POOL -> pool_bit w = false.
Proof.
  intros Hw. unfold pool_bit. apply negb_false_iff, Z.eqb_eq. unfold POOL in *. apply Z.bits_inj'. intros n Hn.
  rewrite Z.land_spec, Z.bits_0, Z.pow2_bits_eqb by lia. destruct (Z.eqb_spec 63 n) as [<-|]; [|by rewrite andb_false_r].
  rewrite andb_true_r. apply Z.bits_above_log2; [lia|]. destruct (Z.eq_dec w 0) as [->|]; [done|]. apply Z.log2_lt_pow2; lia.
Qed.

(** How a step may change what a pass owns: not at all, by one flag set, or by one
    cleared. *)
Definition flags_follow (sh : Shared) (p : pass) (sh' : Shared) (p' : pass) : Prop :=
  owned p' = owned p /\ claimed sh' = claimed sh \/
  (exists t, owned p' ≡ₚ t :: owned p /\ t ∉ claimed sh /\ claimed sh' = {[t]} ∪ claimed sh) \/
  (exists t, owned p ≡ₚ t :: owned p' /\ claimed sh' = claimed sh ∖ {[t]}).

Lemma take_next (l : list Z) n t : l !! n = Some t -> take (S n) l ≡ₚ t :: take n l.
Proof. intros H. rewrite (take_S_r _ _ _ H). by rewrite Permutation_app_comm. Qed.

Lemma drop_next (l : list Z) k t : l !! k = Some t -> drop k l = t :: drop (S k) l.
Proof. apply drop_S. Qed.

Lemma step_flags most sh p sh' p' : pass_step most sh p sh' p' -> flags_follow sh p sh' p'.
Proof.
  destruct 1; cbn [owned claimed]; try (left; done).
  - right. left. exists t. split; [by apply take_next|done].
  - left. subst. split; [|done]. cbn. by rewrite take_ge.
  - right. right. exists t. split; [|done]. cbn. erewrite drop_next; [done|]. by rewrite lookup_take_lt.
  - left. split; [|done]. cbn. rewrite drop_ge; [done|]. rewrite length_take. lia.
  - right. right. exists t. split; [|done]. cbn. by erewrite drop_next.
  - left. subst. split; [|done]. cbn. by rewrite drop_ge.
Qed.

Lemma step_word most sh p sh' p' : pass_step most sh p sh' p' -> (p = PHoldPool -> word sh = POOL) ->
  word sh' - (counted p' + pooled p') = word sh - (counted p + pooled p).
Proof.
  destruct 1; cbn [counted pooled word]; intros Hp; try lia.
  - unfold len. rewrite (Permutation_length (sort_by_perm Z.compare tables)). unfold len. lia.
  - rewrite Hp by done. vm_compute. done.
Qed.

Lemma step_pass_ok most sh p sh' p' : 0 <= most -> pass_step most sh p sh' p' -> pass_ok most p -> pass_ok most p'.
Proof.
  intros Hm Hs [Hc Hp]. destruct Hs; unfold pass_ok; cbn [counted] in *; try (by split; [unfold len; try lia|]); try (split; [lia|done]).
  all: try (split; [done|]).
  - unfold len in *. rewrite (Permutation_length (sort_by_perm Z.compare tables)). split; [done|]. split; [lia|apply sort_sorted].
  - destruct Hp as [_ Hp]. split; [|done]. apply lookup_lt_Some in H. lia.
  - lia.
  - lia.
  - lia.
  - apply lookup_lt_Some in H. lia.
Qed.

Lemma pool_follow most sh p sh' p' : pass_step most sh p sh' p' ->
  (pooled p' = pooled p /\ (counted p' = counted p \/ counted p' = 0 \/ pool_bit (word sh) = false)) \/
  (pooled p = 0 /\ counted p = 0 /\ counted p' = 0 /\ word sh = 0 /\ pooled p' = POOL) \/ (pooled p = POOL /\ pooled p' = 0 /\ counted p' = 0).
Proof. destruct 1; cbn [counted pooled]; subst; naive_solver. Qed.

Lemma claims_inv_step most s s' : 0 <= most -> most * len (passes s) < POOL -> system_step most s s' -> claims_inv most s -> claims_inv most s'.
Proof.
  intros Hm Hb Hs [H1 H2 H3 H4 H5]. destruct Hs as [sh before p after sh' p' Hstep]. cbn [passes shared] in *.
  assert (Hrest : Forall (pass_ok most) (before ++ after)) by (apply Forall_app in H5 as [Ha Hc]; inversion Hc; by apply Forall_app).
  assert (Hp : pass_ok most p) by (apply Forall_app in H5 as [_ Hc]; by inversion Hc).
  destruct (counted_bounds most _ H5 Hm) as [Hcb Hpb]. destruct (counted_bounds most _ Hrest Hm) as [Hcr Hpr].
  rewrite !sum_at in *. rewrite owned_at in H1. setoid_rewrite owned_at in H2.
  assert (Hc0 : 0 <= counted p /\ 0 <= counted p') by (split; [destruct p|destruct p']; cbn; unfold len; lia).
  assert (Hpool : p = PHoldPool -> word sh = POOL) by (intros ->; cbn in *; unfold POOL in *; lia).
  pose proof (step_word _ _ _ _ _ Hstep Hpool) as Hw. pose proof (pool_follow _ _ _ _ _ Hstep) as Hpo.
  assert (Hword : pool_bit (word sh) = false -> sum (map pooled (before ++ after)) + pooled p <> POOL \/ POOL = 0).
  { intros Hbit. left. intros E. destruct H4 as [H4|[_ H4]]; [unfold POOL in *; lia|].
    rewrite H3, H4, Z.add_0_l, (Z.add_comm (pooled p)), E in Hbit. by vm_compute in Hbit. }
  split; cbn [passes shared].
  - rewrite owned_at. destruct (step_flags _ _ _ _ _ Hstep) as [[-> _]|[(t & -> & Ht & _)|(t & Et & _)]]; [done| |].
    + cbn. apply list.NoDup_cons. split; [|done]. by rewrite <- H2.
    + rewrite Et in H1. cbn in H1. by apply list.NoDup_cons in H1 as [_ H1].
  - intros t. rewrite owned_at. destruct (step_flags _ _ _ _ _ Hstep) as [[-> ->]|[(t' & -> & Ht & ->)|(t' & Et & ->)]]; [apply H2| |].
    + cbn. rewrite elem_of_union, elem_of_singleton, elem_of_cons, H2. done.
    + rewrite elem_of_difference, elem_of_singleton, H2. rewrite Et in H1 |- *. cbn in H1 |- *.
      apply list.NoDup_cons in H1 as [H1 _]. rewrite elem_of_cons. split; [tauto|]. intros Hin. split; [by right|]. intros ->. done.
  - rewrite !sum_at. lia.
  - rewrite !sum_at. unfold POOL in *. destruct Hpo as [[Ep Hpo]|[(E1 & E2 & E3 & E4 & E5)|(E1 & E2 & E3)]].
    + rewrite Ep. destruct H4 as [H4|[H4 H4']]; [by left|]. destruct Hpo as [Ec|[Ec|Hbit]]; [right; lia|right; lia|]. destruct (Hword Hbit); lia.
    + right. lia.
    + left. lia.
  - apply Forall_app. apply Forall_app in H5 as [Ha Hc]. inversion Hc; subst. split; [done|]. constructor; [|done].
    by eapply step_pass_ok.
Qed.

Lemma system_step_length most s s' : system_step most s s' -> length (passes s') = length (passes s).
Proof. destruct 1. cbn. by rewrite !length_app. Qed.

Lemma claims_inv_start most n : 0 <= most -> claims_inv most (system_start n).
Proof.
  intros Hm. assert (Hz : forall (f : pass -> Z), f PIdle = 0 -> sum (map f (replicate n PIdle)) = 0).
  { intros f E. induction n as [|n IH]; [done|]. unfold sum in *. cbn. lia. }
  assert (Ho : List.concat (map owned (replicate n PIdle)) = []) by (clear; induction n as [|n IH]; [done|exact IH]).
  pose proof (Hz counted eq_refl) as Hc. pose proof (Hz pooled eq_refl) as Hp.
  split; cbn [passes shared system_start word claimed]; rewrite ?Ho; [constructor| |lia|by left|].
  - intros t. split; [|by intros ?%elem_of_nil]. set_solver.
  - apply List.Forall_forall. intros p E%list_elem_of_In%elem_of_replicate_inv. by subst.
Qed.

Lemma claims_inv_reach most n s : 0 <= most -> most * Z.of_nat n < POOL ->
  rtc (system_step most) (system_start n) s -> claims_inv most s /\ length (passes s) = n.
Proof.
  intros Hm Hb Hr. revert s Hr. apply (rtc_ind_r (fun s => claims_inv most s /\ length (passes s) = n)).
  - split; [by apply claims_inv_start|]. cbn. apply length_replicate.
  - intros y z _ Hyz [Hinv Hl]. split; [|by rewrite (system_step_length _ _ _ Hyz)].
    eapply claims_inv_step; [done| |done|done]. unfold len. by rewrite Hl.
Qed.

Lemma owned_once ps i j p q t : NoDup (List.concat (map owned ps)) -> ps !! i = Some p -> ps !! j = Some q ->
  t ∈ owned p -> t ∈ owned q -> i = j.
Proof.
  assert (Hin : forall ps i p, ps !! i = Some p -> t ∈ owned p -> t ∈ List.concat (map owned ps)).
  { intros l k r Hk Ht. apply list_elem_of_In, in_concat. exists (owned r). split; [|by apply list_elem_of_In].
    apply in_map, list_elem_of_In, list_elem_of_lookup. by exists k. }
  revert i j. induction ps as [|x ps IH]; intros i j Hn Hi Hj Hp Hq; [done|]. cbn in Hn.
  apply list.NoDup_app in Hn as (_ & Hx & Hn). destruct i as [|i], j as [|j]; [done|..]; cbn in Hi, Hj.
  - injection Hi as ->. exfalso. by eapply Hx, Hin.
  - injection Hj as ->. exfalso. by eapply Hx, Hin.
  - f_equal. by apply IH.
Qed.

Lemma sum_has (f : pass -> Z) ps i p : (forall q, 0 <= f q) -> ps !! i = Some p -> f p <= sum (map f ps).
Proof.
  intros Hf Hi. apply list_elem_of_lookup_2, list_elem_of_split in Hi as (a & b & ->). rewrite sum_at.
  enough (0 <= sum (map f (a ++ b))) by lia. induction (a ++ b) as [|x l IH]; [done|]. unfold sum in *. cbn. specialize (Hf x). lia.
Qed.

Lemma sum_has_two (f : pass -> Z) ps i j p q : (forall q, 0 <= f q) -> i <> j -> ps !! i = Some p -> ps !! j = Some q ->
  f p + f q <= sum (map f ps).
Proof.
  intros Hf. revert i j. induction ps as [|x ps IH]; intros i j Hne Hi Hj; [done|]. unfold sum. cbn. fold (sum (map f ps)).
  destruct i as [|i], j as [|j]; [done|..]; cbn in Hi, Hj.
  - injection Hi as ->. pose proof (sum_has f ps j q Hf Hj). lia.
  - injection Hj as ->. pose proof (sum_has f ps i p Hf Hi). lia.
  - specialize (IH i j ltac:(congruence) Hi Hj). specialize (Hf x). lia.
Qed.

Lemma counted_nonneg p : 0 <= counted p.
Proof. destruct p; cbn; unfold len; lia. Qed.
Lemma pooled_nonneg p : 0 <= pooled p.
Proof. destruct p; cbn; unfold POOL; lia. Qed.

(** C20: Claims exclude one another. Whatever the interleaving of any number of
    passes claiming and releasing tables and the pool: no table is held by two
    passes; the pool is held by one pass at most, and by none while a pass holds a
    table; two passes taking tables never each wait for a table the other has; and
    when every pass is idle nothing is claimed. *)
Theorem claims_exclude most n s : 0 <= most -> most * Z.of_nat n < POOL -> rtc (system_step most) (system_start n) s ->
  (forall i j a b t, passes s !! i = Some (PHold a) -> passes s !! j = Some (PHold b) -> t ∈ a -> t ∈ b -> i = j) /\
  (forall i j, passes s !! i = Some PHoldPool -> passes s !! j = Some PHoldPool -> i = j) /\
  (forall i j a, passes s !! i = Some PHoldPool -> passes s !! j = Some (PHold a) -> a = []) /\
  (forall i j a b k l x y, passes s !! i = Some (PTake a k) -> passes s !! j = Some (PTake b l) ->
     a !! k = Some x -> b !! l = Some y -> x ∈ take l b -> y ∈ take k a -> i = j) /\
  (Forall (fun p => p = PIdle) (passes s) -> shared s = mkShared 0 ∅).
Proof.
  intros Hm Hb Hr. destruct (claims_inv_reach most n s Hm Hb Hr) as [[H1 H2 H3 H4 H5] Hl]. split_and!.
  - intros i j a b t Hi Hj Ha Hb'. by eapply (owned_once _ i j (PHold a) (PHold b) t).
  - intros i j Hi Hj. destruct (decide (i = j)) as [|Hne]; [done|].
    pose proof (sum_has_two pooled _ i j _ _ pooled_nonneg Hne Hi Hj). cbn in *. unfold POOL in *. lia.
  - intros i j a Hi Hj. pose proof (sum_has pooled _ i _ pooled_nonneg Hi). pose proof (sum_has counted _ j _ counted_nonneg Hj).
    cbn in *. unfold POOL, len in *. apply length_zero_iff_nil. lia.
  - intros i j a b k l x y Hi Hj Hx Hy Hxb Hya.
    assert (Hs : forall i a k x z, passes s !! i = Some (PTake a k) -> a !! k = Some x -> z ∈ take k a -> z <= x).
    { clear - H5. intros i a k x z Hi Hx Hz. apply list_elem_of_lookup_2, list_elem_of_In in Hi. rewrite List.Forall_forall in H5.
      destruct (H5 _ Hi) as [_ [_ Hs]]. rewrite <- (take_drop k a) in Hs.
      apply (StronglySorted_app_1_elem_of Z.le _ _ _ _ Hs); [done|]. erewrite drop_next by done. apply elem_of_cons. by left. }
    pose proof (Hs j b l y x Hj Hy Hxb). pose proof (Hs i a k x y Hi Hx Hya). assert (x = y) by lia. subst y.
    exact (owned_once _ i j (PTake a k) (PTake b l) x H1 Hi Hj Hya Hxb).
  - intros Hidle. assert (Ho : List.concat (map owned (passes s)) = [] /\ sum (map counted (passes s)) = 0 /\ sum (map pooled (passes s)) = 0).
    { clear - Hidle. induction Hidle as [|p ps -> _ IH]; [done|]. unfold sum in *. cbn. done. }
    destruct Ho as (Ho & Hc & Hp). destruct (shared s) as [w c]. cbn in *. f_equal; [lia|].
    apply set_eq. intros t. rewrite H2, Ho. set_solver.
Qed.

Lemma claims_exclude_witness :
  let s := mkSystem (mkShared 2 {[4; 7]}) [PHold [4; 7]; PIdle] in
  rtc (system_step 2) (system_start 2) s /\ (Forall (fun p => p = PIdle) (passes s) -> shared s = mkShared 0 ∅).
Proof.
  intros s.
  assert (Hr : rtc (system_step 2) (system_start 2) s).
  { eapply rtc_l; [apply (any_pass 2 _ [] PIdle [PIdle] _ _ (step_tables 2 _ [7; 4] ltac:(vm_compute; discriminate)))|].
    eapply rtc_l; [apply (any_pass 2 _ [] (PLoad [7; 4]) [PIdle] _ _ (step_load 2 _ _))|].
    eapply rtc_l; [apply (any_pass 2 _ [] (PExchange [7; 4] 0) [PIdle] _ _ (step_counted 2 (mkShared 0 ∅) [7; 4] 0 eq_refl eq_refl))|].
    eapply rtc_l; [apply (any_pass 2 _ [] (PTake [4; 7] 0) [PIdle] _ _ (step_take 2 (mkShared 2 ∅) [4; 7] 0 4 eq_refl ltac:(set_solver)))|].
    eapply rtc_l; [apply (any_pass 2 _ [] (PTake [4; 7] 1) [PIdle] _ _ (step_take 2 (mkShared 2 ({[4]} ∪ ∅)) [4; 7] 1 7 eq_refl ltac:(set_solver)))|].
    eapply rtc_l; [apply (any_pass 2 _ [] (PTake [4; 7] 2) [PIdle] _ _ (step_all 2 _ [4; 7] 2 eq_refl))|].
    unfold s. replace ({[4; 7]} : gset Z) with ({[7]} ∪ ({[4]} ∪ ∅) : gset Z) by set_solver. apply rtc_refl. }
  split; [exact Hr|]. exact (proj2 (proj2 (proj2 (proj2 (claims_exclude 2 2 s ltac:(lia) ltac:(vm_compute; reflexivity) Hr))))).
Defined.
