(* ===== verification/VersionSet.v ===== *)
(** * The version set and its manifest file

    Models [VersionSet] of [src/src/engine/manifest.rs]: replaying a manifest's
    bytes, opening one, applying edits and rewriting the log. The host is its
    answers: a manifest is the bytes the host holds and how many of them a
    completed sync covers, and each call says how the host's calls end. Tables
    are opened by the argument [open_table]; the tables beside a manifest with
    no stamp, and the highest table id of the directory, are arguments too.

    Shown here, for ManifestLife.v: a log of applied batches replays to the version
    in memory, an append keeps that so whether it is synced or not, and the rewrite
    that bounds the log keeps the version. *)

From stdpp Require Import gmap.
From S2P Require Import Prelude Order Checksum Seal RangeTombstone Manifest Version.

Section Replay.
Context `{T : Target} `{X : Xxh3} `{A : Aead}.
Context {reader : Type} (open_table : SsTableMeta -> outcome reader)
  (range_tombstones : reader -> list RangeTombstone).

(** ** Replay *)

(** The loop over the records of one batch. *)
Fixpoint replay_batch (fuel : nat) (data : bytes) (pos : Z) (st : Replaying) : outcome Replaying :=
  match fuel with
  | O => OutOfFuel
  | S fuel =>
      r ← ManifestRecord.decode data pos;
      match r with
      | None => Ok st
      | Some (r, pos) => replay_batch fuel data pos (replay_record st r)
      end
  end.

(** [if !key_ids.contains(&id) { key_ids.push(id) }]. *)
Definition note_key (ids : list Z) (id : option Z) : list Z :=
  match id with
  | Some id => if bool_decide (id ∈ ids) then ids else ids ++ [id]
  | None => ids
  end.

(** The loop over the batches from [offset], which is also where the valid part
    ends so far. *)
Fixpoint replay_batches (fuel : nat) (data : bytes) (offset : Z) (salt : option bytes) (keyring : option Keyring)
    (key_ids : list Z) (st : Replaying) : outcome (Replaying * Z * list Z) :=
  match fuel with
  | O => OutOfFuel
  | S fuel =>
      if offset <? len data then
        batch ← tail.batch_at data offset;
        match batch with
        | None => Ok (st, offset, key_ids)
        | Some batch =>
            '(id, edits) ← batch_edits salt keyring offset (batch_records batch);
            st ← replay_batch (S (length edits)) edits 0 st;
            replay_batches fuel data (batch_end batch) salt keyring (note_key key_ids id) st
        end
      else Ok (st, offset, key_ids)
  end.

Record ManifestReplay := mkManifestReplay {
  mr_version : Version reader;
  mr_valid_len : Z;
  mr_stamp_len : Z;
  mr_salt : option bytes;
  mr_key_ids : list Z;
  mr_repair : legacy_overlap.Repair;
  mr_demotion : option legacy_overlap.Demotion;
  mr_checked : bool;
}.

Definition replay_manifest (data : bytes) (keyring : option Keyring) : outcome ManifestReplay :=
  '(stamp, salt) ← VersionSetBytes.stamp_len data keyring;
  '(st, valid_len, key_ids) ← replay_batches (S (length data)) data stamp salt keyring [] replay_start;
  '(version, repair) ← replay_finish open_table st;
  Ok (mkManifestReplay version valid_len stamp salt key_ids repair
        (legacy_overlap.demotion range_tombstones repair (level_files (levels version) 0)) (r_checked st)).

(** [suspects] is how many tables beside a manifest without a stamp may hold
    data. *)
Definition judge_end (replay : ManifestReplay) (data : bytes) (suspects : Z) (keyring : option Keyring)
  : outcome (option DroppedTail) :=
  if mr_stamp_len replay =? 0 then
    if 0 <? suspects
    then Err (mkError InvalidData "damaged at offset 0: it has no header, yet tables may hold data" [suspects])
    else Ok (match data with [] => None | _ => Some (mkDroppedTail 0 (len data)) end)
  else if mr_valid_len replay =? len data then Ok None
  else
    t ← tail.judge data (mr_valid_len replay) (opener (mr_salt replay) keyring);
    Ok (Some t).

End Replay.

(** ** Images *)

Section Images.
Context `{T : Target} `{X : Xxh3} `{A : Aead}.

Definition push_tables (records : list ManifestRecord) (files : list (Z * SsTableMeta)) : list ManifestRecord :=
  fold_left (fun records f => push_table records f.1 f.2) files records.

(** The records of a whole manifest. *)
Definition image_records (next_file_id last_seq min_wal_id : Z) (checked : bool)
    (files : list (Z * SsTableMeta)) : list ManifestRecord :=
  push_tables ([SetNextFileId next_file_id; SetLastSeq last_seq; SetMinWalId min_wal_id]
               ++ (if checked then [RangeDeletesChecked] else [])) files.

Fixpoint validate_levels (files : list (Z * SsTableMeta)) : outcome unit :=
  match files with
  | [] => Ok ()
  | f :: files => _ ← validate_level_index f.1; validate_levels files
  end.

Definition encode_image (next_file_id last_seq min_wal_id : Z) (checked : bool) (files : list (Z * SsTableMeta))
    (sealing : option ManifestSeal) (draw : outcome bytes) : outcome (bytes * option Z) :=
  _ ← validate_levels files;
  image ← VersionSetBytes.stamp_bytes (seal_salt <$> sealing);
  '(batch, sealed_under) ←
    VersionSetBytes.encode_records (image_records next_file_id last_seq min_wal_id checked files) (len image)
      sealing draw;
  Ok (image ++ batch, sealed_under).

(** A backup restore writes the same image. *)
Definition encode_manifest_image (next_file_id last_seq min_wal_id : Z) (checked : bool)
    (files : list (Z * SsTableMeta)) (keyring : option Keyring) (salt_draw draw : outcome bytes) : outcome bytes :=
  sealing ← VersionSetBytes.fresh_sealing keyring salt_draw;
  '(image, _) ← encode_image next_file_id last_seq min_wal_id checked files sealing draw;
  Ok image.

End Images.

(** ** The version set *)

Definition MANIFEST_COMPACT_FACTOR : Z := 4.
Definition MANIFEST_COMPACT_FLOOR : Z := 64 * 1024.
Definition APPROX_ADD_FILE_RECORD_BYTES : Z := 256.

Definition compact_threshold (live_files : Z) : Z :=
  let canonical := as_u64 (MANIFEST_STAMP_LEN + as_u64 (live_files * APPROX_ADD_FILE_RECORD_BYTES)) in
  Z.max MANIFEST_COMPACT_FLOOR (Z.min U64_MAX (canonical * MANIFEST_COMPACT_FACTOR)).

(** What the host holds under the manifest's name, how much of it a completed
    sync covers, and the file a power cut may bring back under that name while
    the directory is not synced. *)
Record Disk := mkDisk { d_file : bytes; d_durable : Z; d_old : option (bytes * Z) }.

(** How the host answers an append with its flush or sync, and the steps of a
    rewrite: the temporary file, the rename, the directory's sync and the reopen. *)
Inductive append_io := Appended | AppendFailed (landed : Z).
Inductive rewrite_io := Rewritten | TmpFailed | RenameFailed | DirSyncFailed | ReopenFailed.

Section VersionSet.
Context `{T : Target} `{X : Xxh3} `{A : Aead} {reader : Type}.

Record VersionSet := mkVersionSet {
  current : Version reader;
  manifest_bytes : Z;
  manifest_writer : bool;
  dropped_tail : option DroppedTail;
  keyring : option Keyring;
  sealing : option ManifestSeal;
  sealed_under : list Z;
  vs_demotion : option legacy_overlap.Demotion;
  unlogged : list ManifestRecord;
  range_deletes_checked : bool;
  sync_check_record : bool;
  disk : Disk;
}.

Definition has_stale_seals (vs : VersionSet) : bool :=
  match keyring vs with
  | None => false
  | Some k =>
      match sealing vs with None => true | Some _ => existsb (fun id => negb (id =? provider_current k)) (sealed_under vs) end
  end.

Definition writer_unavailable : error :=
  mkError OtherError "is not writable; reopen the database before updating the MANIFEST" [].

Definition with_writer (vs : VersionSet) (w : bool) (d : Disk) : VersionSet :=
  mkVersionSet (current vs) (manifest_bytes vs) w (dropped_tail vs) (keyring vs) (sealing vs) (sealed_under vs)
    (vs_demotion vs) (unlogged vs) (range_deletes_checked vs) (sync_check_record vs) d.
Definition with_unlogged (vs : VersionSet) (records : list ManifestRecord) : VersionSet :=
  mkVersionSet (current vs) (manifest_bytes vs) (manifest_writer vs) (dropped_tail vs) (keyring vs) (sealing vs)
    (sealed_under vs) (vs_demotion vs) records (range_deletes_checked vs) (sync_check_record vs) (disk vs).

(** Every table with its level, level by level. *)
Fixpoint tables_from (level : Z) (ls : list (list (LiveSst reader))) : list (Z * SsTableMeta) :=
  match ls with
  | [] => []
  | fs :: ls => map (fun f => (level, meta f)) fs ++ tables_from (level + 1) ls
  end.
Definition live_tables (v : Version reader) : list (Z * SsTableMeta) := tables_from 0 (levels v).

Definition compact_manifest (vs : VersionSet) (salt_draw draw : outcome bytes) (io : rewrite_io)
  : VersionSet * outcome unit :=
  if negb (manifest_writer vs) then (vs, Err writer_unavailable)
  else
    let v := current vs in
    match (sealing ← VersionSetBytes.fresh_sealing (keyring vs) salt_draw;
           '(image, under) ← encode_image (next_file_id v) (last_seq v) (min_wal_id v) (range_deletes_checked vs)
             (live_tables v) sealing draw;
           Ok (sealing, image, under)) with
    | Err e => (vs, Err e)
    | Panic => (vs, Panic)
    | OutOfFuel => (vs, OutOfFuel)
    | Ok (sealing, image, under) =>
        let host_error := Err (mkError OtherError "host" []) in
        let old := disk vs in
        let renamed := mkDisk image (len image) (Some (d_file old, d_durable old)) in
        let rewritten w d :=
          mkVersionSet v (len image) w (dropped_tail vs) (keyring vs) sealing
            (match under with Some id => [id] | None => [] end) (vs_demotion vs) []
            (range_deletes_checked vs) (sync_check_record vs) d in
        match io with
        | TmpFailed => (vs, host_error)
        | RenameFailed => (with_writer vs false old, host_error)
        | DirSyncFailed => (with_writer vs false renamed, host_error)
        | ReopenFailed => (rewritten false (mkDisk image (len image) None), host_error)
        | Rewritten => (rewritten true (mkDisk image (len image) None), Ok ())
        end
    end.

(** The level checks of an apply. *)
Fixpoint validate_edits (es : list (VersionEdit reader)) : outcome unit :=
  match es with
  | [] => Ok ()
  | e :: es => _ ← validate_edit e; validate_edits es
  end.

Definition records_a_check (records : list ManifestRecord) : bool :=
  existsb (fun r => match r with RangeDeletesChecked => true | _ => false end) records.

Definition apply (vs : VersionSet) (es : list (VersionEdit reader)) (draw : outcome bytes) (io : append_io)
    (salt_draw rewrite_draw : outcome bytes) (rio : rewrite_io) : VersionSet * outcome unit :=
  match validate_edits es with
  | Err e => (vs, Err e)
  | Panic => (vs, Panic)
  | OutOfFuel => (vs, OutOfFuel)
  | Ok _ =>
      let version := fold_left apply_edit es (current vs) in
      let moved := unlogged vs in
      let recorded_move := match moved with [] => false | _ => true end in
      let records_check := records_a_check moved in
      let records := edits_records es moved in
      match VersionSetBytes.encode_records records (manifest_bytes vs) (sealing vs) draw with
      | Err e => (with_unlogged vs moved, Err e)
      | Panic => (vs, Panic)
      | OutOfFuel => (vs, OutOfFuel)
      | Ok (encoded, under) =>
          let requires_sync := existsb ManifestRecord.requires_sync records
                               || (records_check && sync_check_record vs) in
          if negb (manifest_writer vs) then (with_unlogged vs [], Err writer_unavailable)
          else
            let d := disk vs in
            match io with
            | AppendFailed landed =>
                (with_writer (with_unlogged vs []) false
                   (mkDisk (d_file d ++ takez landed encoded) (d_durable d) (d_old d)),
                 Err (mkError OtherError "host" []))
            | Appended =>
                let file := d_file d ++ encoded in
                let vs := mkVersionSet version (manifest_bytes vs + len encoded) true (dropped_tail vs) (keyring vs)
                            (sealing vs) (note_key (sealed_under vs) under) (vs_demotion vs) []
                            (range_deletes_checked vs || records_check) (sync_check_record vs)
                            (mkDisk file (if requires_sync then len file else d_durable d) (d_old d)) in
                let live_files := len (List.concat (levels version)) in
                let convert := recorded_move && match keyring vs, sealing vs with Some _, None => true | _, _ => false end in
                if convert || (compact_threshold live_files <? manifest_bytes vs)
                then compact_manifest vs salt_draw rewrite_draw rio
                else (vs, Ok ())
            end
      end
  end.

End VersionSet.
Arguments VersionSet {_} reader.

(** ** Opening *)

(** [next_id_past_tables] of [src/src/engine/orphan_sweep.rs]. *)
Definition next_id_past_tables (next_file_id : Z) (highest_table : option Z) : Z :=
  match highest_table with
  | Some id => Z.max next_file_id (Z.min U64_MAX (id + 1))
  | None => next_file_id
  end.

Section Open.
Context `{T : Target} `{X : Xxh3} `{A : Aead} {reader : Type}.
Context (open_table : SsTableMeta -> outcome reader) (range_tombstones : reader -> list RangeTombstone).

Definition with_next_id (v : Version reader) (highest : option Z) : Version reader :=
  mkVersion (levels v) (next_id_past_tables (next_file_id v) highest) (last_seq v) (min_wal_id v) (uncounted v).

(** A manifest holding only its stamp. *)
Definition create_stamped (sealed : bool) (salt_draw : outcome bytes) : outcome (bytes * option bytes) :=
  salt ← (if sealed then salt ← sealed.fresh_salt salt_draw; Ok (Some salt) else Ok None);
  stamp ← VersionSetBytes.stamp_bytes salt;
  Ok (stamp, salt).

(** The steps of an open after the manifest is read or created: what is not
    logged yet, how batches are sealed, and the conversion of an unsealed log. *)
Definition open_finish (version : Version reader) (n : Z) (dropped : option DroppedTail) (keyring : option Keyring)
    (salt : option bytes) (under : list Z) (demotion : option legacy_overlap.Demotion)
    (records : list ManifestRecord) (checked sync_check : bool) (d : Disk)
    (salt_draw draw : outcome bytes) (rio : rewrite_io) : outcome (VersionSet reader) :=
  let unlogged := if checked then records else records ++ [RangeDeletesChecked] in
  sealing ← VersionSetBytes.sealing keyring salt;
  let convert := match keyring, sealing with Some _, None => true | _, _ => false end in
  let set := mkVersionSet version n true dropped keyring sealing under demotion unlogged checked sync_check d in
  if convert && match unlogged with [] => true | _ => false end then
    let '(set, r) := compact_manifest set salt_draw draw rio in
    _ ← r; Ok set
  else Ok set.

(** [data] is the file found, [durable] how much of it a completed sync covers;
    the host's own failures end the open with an error and are left out, but for
    the rewrite's. *)
Definition open_with_policy (found : option (bytes * Z)) (keyring : option Keyring) (suspects : Z)
    (highest : option Z) (stamp_draw salt_draw draw : outcome bytes) (rio : rewrite_io)
  : outcome (VersionSet reader) :=
  match found with
  | Some (data, durable) =>
      replay ← replay_manifest open_table range_tombstones data keyring;
      dropped ← judge_end replay data suspects keyring;
      let version := with_next_id (mr_version replay) highest in
      let sync_check := (0 <? mr_stamp_len replay) && negb (mr_checked replay) in
      let d := if mr_valid_len replay <? len data
               then mkDisk (takez (mr_valid_len replay) data) (mr_valid_len replay) None
               else mkDisk data durable None in
      if mr_stamp_len replay =? 0 then
        '(stamp, salt) ← create_stamped (match keyring with Some _ => true | None => false end) stamp_draw;
        open_finish version (len stamp) dropped keyring salt [] (mr_demotion replay)
          (legacy_overlap.records (mr_repair replay)) (mr_checked replay) sync_check
          (mkDisk stamp (len stamp) None) salt_draw draw rio
      else
        open_finish version (mr_valid_len replay) dropped keyring (mr_salt replay) (mr_key_ids replay)
          (mr_demotion replay) (legacy_overlap.records (mr_repair replay)) (mr_checked replay) sync_check d
          salt_draw draw rio
  | None =>
      '(stamp, salt) ← create_stamped (match keyring with Some _ => true | None => false end) stamp_draw;
      open_finish (with_next_id version_new highest) (len stamp) None keyring salt [] None [] false false
        (mkDisk stamp (len stamp) None) salt_draw draw rio
  end.

(** A read-only open repairs the view and writes nothing. *)
Definition open_read_only (data : bytes) (durable : Z) (keyring : option Keyring) (suspects : Z)
  : outcome (VersionSet reader) :=
  replay ← replay_manifest open_table range_tombstones data keyring;
  dropped ← judge_end replay data suspects keyring;
  sealing ← VersionSetBytes.sealing keyring (mr_salt replay);
  Ok (mkVersionSet (mr_version replay) (mr_valid_len replay) false dropped keyring sealing (mr_key_ids replay)
        (mr_demotion replay) [] (mr_checked replay) false (mkDisk data durable None)).

End Open.

(** ** What a log holds *)

Definition replay_rs (st : Replaying) (rs : list ManifestRecord) : Replaying :=
  fold_left replay_record (map as_logged rs) st.

Lemma replay_rs_app st a b : replay_rs st (a ++ b) = replay_rs (replay_rs st a) b.
Proof. unfold replay_rs. by rewrite map_app, fold_left_app. Qed.

Section Log.
Context `{T : Target} `{XL : Xxh3Laws} `{AL : AeadLaws} {reader : Type}.

(** The records of a batch, and the version they lead to. *)
Definition entry : Type := list ManifestRecord * Version reader.

Definition replay_entries (st : Replaying) (h : list entry) : Replaying :=
  fold_left (fun st e => replay_rs st e.1) h st.
Definition last_version (v : Version reader) (h : list entry) : Version reader := fold_left (fun _ e => e.2) h v.

(** The bytes from offset [o] on are the batches of [h], readable with the salt
    and keyring; each leads to its version, which is a set of sorted runs. *)
Inductive log_of (salt : option bytes) (kr : option Keyring) : Z -> Replaying -> list entry -> bytes -> Prop :=
| log_nil o st : log_of salt kr o st [] []
| log_cons o st rs v body b id edits h bs :
    framed_batch body b -> batch_edits salt kr o body = Ok (id, edits) ->
    decode_all (S (length edits)) edits 0 = Ok (map as_logged rs) -> Forall record_ok rs ->
    replay_inv (replay_rs st rs) v -> levels_are_sorted_runs v = true ->
    log_of salt kr (o + len b) (replay_rs st rs) h bs ->
    log_of salt kr o st ((rs, v) :: h) (b ++ bs).

Lemma log_of_app salt kr o st h1 h2 b1 b2 :
  log_of salt kr o st h1 b1 -> log_of salt kr (o + len b1) (replay_entries st h1) h2 b2 ->
  log_of salt kr o st (h1 ++ h2) (b1 ++ b2).
Proof.
  induction 1 as [o st|o st rs v body b id edits h bs Hf He Hd Hk Hi Hr Hl IH]; intros H2.
  - change (len (@nil byte)) with 0 in H2. rewrite Z.add_0_r in H2. done.
  - rewrite <- app_assoc. cbn [app]. eapply log_cons; [done..|]. apply IH. rewrite len_app, Z.add_assoc in H2. done.
Qed.

Lemma log_of_split salt kr o st h1 h2 bs : log_of salt kr o st (h1 ++ h2) bs ->
  exists b1 b2, bs = b1 ++ b2 /\ log_of salt kr o st h1 b1 /\
    log_of salt kr (o + len b1) (replay_entries st h1) h2 b2.
Proof.
  revert o st bs. induction h1 as [|e h1 IH]; intros o st bs Hl.
  - exists [], bs. change (len (@nil byte)) with 0. rewrite Z.add_0_r. split_and!; [done|constructor|done].
  - inversion Hl as [|? ? rs v body b id edits ? bs' Hf He Hd Hk Hi Hr Hl']; subst.
    destruct (IH _ _ _ Hl') as (b1 & b2 & -> & H1 & H2). exists (b ++ b1), b2. rewrite <- app_assoc, len_app, Z.add_assoc.
    split_and!; [done|by eapply log_cons|done].
Qed.

(** Every batch is at least its framing. *)
Lemma log_of_length salt kr o st h bs : log_of salt kr o st h bs -> 8 * Z.of_nat (length h) <= len bs.
Proof.
  induction 1 as [o st|o st rs v body b id edits h bs Hf _ _ _ _ _ _ IH]; [change (len (@nil byte)) with 0; cbn [length]; lia|].
  pose proof (framed_batch_len _ _ Hf) as Hb. unfold tail.FRAMING in Hb. pose proof (len_nonneg body).
  rewrite len_app. cbn [length]. lia.
Qed.

Lemma replay_entries_app st h1 h2 : replay_entries st (h1 ++ h2) = replay_entries (replay_entries st h1) h2.
Proof. apply fold_left_app. Qed.

(** The version after a prefix follows the log. *)
Lemma log_of_inv salt kr o st v0 h bs :
  replay_inv st v0 -> levels_are_sorted_runs v0 = true -> log_of salt kr o st h bs ->
  replay_inv (replay_entries st h) (last_version v0 h) /\ levels_are_sorted_runs (last_version v0 h) = true.
Proof.
  intros I0 Hr0 Hl. revert v0 I0 Hr0. induction Hl as [o st|o st rs v body b id edits h bs Hf He Hd Hk Hi Hr Hl IH];
    intros v0 I0 Hr0; [done|].
  by apply IH.
Qed.

Lemma replay_batch_Ok fuel data pos st rs :
  decode_all fuel data pos = Ok rs -> replay_batch fuel data pos st = Ok (fold_left replay_record rs st).
Proof.
  revert pos st rs. induction fuel as [|fuel IH]; intros pos st rs; [done|]. cbn [decode_all replay_batch].
  destruct (ManifestRecord.decode data pos) as [[[r p]|]| | |]; try done; run.
  - destruct (decode_all fuel data p) as [rs'| | |] eqn:E; try done. run. intros [= <-]. cbn [fold_left]. by apply IH.
  - by intros [= <-].
Qed.

(** Replay walks through the batches of a log. *)
Lemma replay_through salt kr data o st h bs q keys k :
  len data <= isize_max -> log_of salt kr o st h bs -> rest_at data o (bs ++ q) ->
  exists keys', replay_batches (length h + k) data o salt kr keys st =
    replay_batches k data (o + len bs) salt kr keys' (replay_entries st h).
Proof.
  intros Hi Hl. revert keys. induction Hl as [o st|o st rs v body b id edits h bs Hf He Hd Hk Hin Hr Hl IH];
    intros keys Hrest.
  - exists keys. change (len (@nil byte)) with 0. by rewrite Z.add_0_r.
  - rewrite <- app_assoc in Hrest. cbn [length Nat.add replay_batches].
    destruct (rest_at_len _ _ _ Hrest) as [Ho Hlen]. pose proof (framed_batch_len _ _ Hf) as Hb.
    unfold tail.FRAMING in Hb. pose proof (len_nonneg body).
    destruct (Z.ltb_spec o (len data)); [|llia].
    rewrite (batch_at_framed data o body b (bs ++ q)) by done. run. cbn [batch_records batch_end].
    rewrite He. run. rewrite (replay_batch_Ok _ _ _ _ _ Hd). run.
    destruct (rest_at_slice _ _ _ _ (o + len b) Hrest eq_refl) as [_ Hrest'].
    destruct (IH (note_key keys id) Hrest') as [keys' E]. exists keys'.
    rewrite len_app, Z.add_assoc. exact E.
Qed.

End Log.

(** ** The rewritten log *)

Definition strip (m : SsTableMeta) : SsTableMeta := with_deletions m None.

(** The counts recorded with tables. *)
Definition counts_of (cs : gmap Z Deletions) (ms : list SsTableMeta) : gmap Z Deletions :=
  fold_left (fun cs m => match deletions m with Some d => <[file_id m := d]> cs | None => cs end) ms cs.

Lemma counts_of_cons cs m ms :
  counts_of cs (m :: ms) = counts_of (match deletions m with Some d => <[file_id m := d]> cs | None => cs end) ms.
Proof. done. Qed.

Lemma counts_of_other cs ms id : ~ id ∈ map file_id ms -> counts_of cs ms !! id = cs !! id.
Proof.
  revert cs. induction ms as [|m ms IH]; intros cs Hn; [done|]. cbn [map] in Hn.
  apply not_elem_of_cons in Hn as [Hne Hn]. rewrite counts_of_cons, IH by done. destruct (deletions m); [|done].
  by rewrite lookup_insert_ne.
Qed.

Lemma counts_of_listed cs ms m : NoDup (map file_id ms) -> m ∈ ms -> cs !! file_id m = None ->
  counts_of cs ms !! file_id m = deletions m.
Proof.
  revert cs. induction ms as [|x ms IH]; intros cs Hn Hm Hc; [by apply not_elem_of_nil in Hm|].
  cbn [map] in Hn. apply list.NoDup_cons in Hn as [Hx Hn]. rewrite counts_of_cons.
  apply elem_of_cons in Hm as [->|Hm].
  - rewrite counts_of_other by done. destruct (deletions x) as [d|]; [by rewrite lookup_insert_eq|done].
  - apply IH; [done..|]. destruct (deletions x); [|done]. rewrite lookup_insert_ne; [done|]. intros E.
    apply Hx. rewrite E. apply list_elem_of_fmap. eauto.
Qed.

Lemma push_tables_app records files :
  push_tables records files = records ++ flat_map (fun f => push_table [] f.1 f.2) files.
Proof.
  unfold push_tables. revert records. induction files as [|f files IH]; intros records; cbn; [by rewrite app_nil_r|].
  rewrite IH. unfold push_table at 1. by rewrite <- app_assoc.
Qed.

Lemma nodup_level (ls : list (list SsTableMeta)) i files :
  NoDup (map file_id (List.concat ls)) -> ls !! i = Some files -> NoDup (map file_id files).
Proof.
  intros Hn Hi. apply list_elem_of_lookup_2 in Hi. apply list_elem_of_split in Hi as (a & b & ->).
  rewrite concat_app, map_app in Hn. apply list.NoDup_app in Hn as (_ & _ & Hn). cbn [List.concat] in Hn.
  rewrite map_app in Hn. by apply list.NoDup_app in Hn as (Hn & _ & _).
Qed.

Section Rewrite.
Context {reader : Type}.

Lemma replay_level_tables level (fs : list (LiveSst reader)) pre f0 post st :
  len pre = level -> surviving st = pre ++ f0 :: post ->
  replay_rs st (flat_map (fun f => push_table [] f.1 f.2) (map (fun f => (level, meta f)) fs)) =
  mkReplaying (pre ++ (f0 ++ map strip (map meta fs)) :: post) (counts_of (counts st) (map meta fs))
    (r_last_seq st) (r_next_file_id st) (r_min_wal_id st) (r_checked st).
Proof.
  intros Hl. revert f0 st. induction fs as [|f fs IH]; intros f0 st Hs.
  - cbn. rewrite app_nil_r, <- Hs. by destruct st.
  - cbn [map flat_map fst snd]. rewrite replay_rs_app. unfold replay_rs at 2. rewrite replay_add.
    rewrite (IH (f0 ++ [strip (meta f)])).
    + cbn. by rewrite <- app_assoc.
    + cbn. unfold at_level. rewrite Hs, alter_app_r_alt by (unfold len in Hl; lia).
      replace (Z.to_nat level - length pre)%nat with 0%nat by (unfold len in Hl; lia). done.
Qed.

Lemma replay_tables level (ls : list (list (LiveSst reader))) pre st :
  len pre = level -> surviving st = pre ++ map (fun _ => []) ls ->
  replay_rs st (flat_map (fun f => push_table [] f.1 f.2) (tables_from level ls)) =
  mkReplaying (pre ++ map (fun fs => map strip (map meta fs)) ls)
    (counts_of (counts st) (List.concat (map (map meta) ls)))
    (r_last_seq st) (r_next_file_id st) (r_min_wal_id st) (r_checked st).
Proof.
  revert level pre st. induction ls as [|fs ls IH]; intros level pre st Hl Hs.
  - cbn in *. rewrite <- Hs. by destruct st.
  - cbn [tables_from map List.concat] in *. rewrite flat_map_app, replay_rs_app.
    rewrite (replay_level_tables level fs pre [] (map (fun _ => []) ls) st Hl Hs).
    rewrite (IH (level + 1) (pre ++ [map strip (map meta fs)])); cbn [surviving counts r_last_seq r_next_file_id r_min_wal_id r_checked].
    + rewrite <- app_assoc. unfold counts_of. by rewrite fold_left_app.
    + rewrite len_app. change (len [_]) with 1. lia.
    + by rewrite <- app_assoc.
Qed.

(** The tables of a version that follows a log: in order, listed once, with
    counts that can be theirs. *)
Lemma following_tables st (v : Version reader) : replay_inv st v ->
  NoDup (map file_id (List.concat (metas v))) /\
  (forall i fs, levels v !! i = Some fs -> arranged i (map meta fs) = map meta fs) /\
  (forall m d, m ∈ List.concat (metas v) -> deletions m = Some d -> fits d (num_entries m) = true).
Proof.
  intros I. assert (Hl : forall i fs, levels v !! i = Some fs -> exists files, surviving st !! i = Some files).
  { intros i fs Hi. apply lookup_lt_is_Some_2. rewrite (ri_len _ _ I), <- (ri_vlen _ _ I).
    by apply lookup_lt_Some in Hi. }
  assert (Hperm : forall i fs files, levels v !! i = Some fs -> surviving st !! i = Some files ->
    Permutation (map meta fs) (map (joined (counts st)) files)).
  { intros i fs files Hv Hs. rewrite (ri_levels _ _ I _ _ _ Hs Hv). apply arranged_perm. }
  assert (Hmeta : forall i fs, metas v !! i = Some fs -> exists lfs, levels v !! i = Some lfs /\ fs = map meta lfs).
  { intros i fs Hi. unfold metas in Hi. rewrite list_lookup_fmap in Hi. destruct (levels v !! i); [|done].
    injection Hi as <-. eauto. }
  split_and!.
  - apply nodup_levels.
    + intros i fs (lfs & Hv & ->)%Hmeta. destruct (Hl _ _ Hv) as [files Hs].
      rewrite (Hperm _ _ _ Hv Hs), map_map. by apply (ri_nodup _ _ I _ _ Hs).
    + intros i j fi fj m m' (li & Hi & ->)%Hmeta (lj & Hj & ->)%Hmeta Hm Hm' E.
      destruct (Hl _ _ Hi) as [si Hsi], (Hl _ _ Hj) as [sj Hsj].
      rewrite (Hperm _ _ _ Hi Hsi) in Hm. rewrite (Hperm _ _ _ Hj Hsj) in Hm'.
      apply list_elem_of_fmap in Hm as (x & -> & Hx). apply list_elem_of_fmap in Hm' as (y & -> & Hy).
      by apply (ri_once _ _ I i j si sj x y).
  - intros i fs Hv. destruct (Hl _ _ Hv) as [files Hs]. rewrite (ri_levels _ _ I _ _ _ Hs Hv).
    destruct i; [done|]. apply sort_by_sorted_id, sort_by_sorted. apply _.
  - intros m d Hm Hd. apply list_elem_of_In, in_concat in Hm as (fs & Hfs & Hm).
    apply list_elem_of_In, list_elem_of_lookup in Hfs as [i Hi]. apply Hmeta in Hi as (lfs & Hv & ->).
    destruct (Hl _ _ Hv) as [files Hs]. apply list_elem_of_In in Hm. rewrite (Hperm _ _ _ Hv Hs) in Hm.
    apply list_elem_of_fmap in Hm as (x & -> & _). cbn in *. unfold believed in Hd.
    destruct (counts st !! file_id x); [|done]. destruct (fits _ _) eqn:E; [|done]. by injection Hd as <-.
Qed.

(** A state that lists the tables of a version, each with its counts. *)
Lemma listing_inv st (v : Version reader) checked : replay_inv st v ->
  replay_inv (mkReplaying (map (fun fs => map strip (map meta fs)) (levels v))
    (counts_of ∅ (List.concat (metas v))) (last_seq v) (next_file_id v) (min_wal_id v) checked) v.
Proof.
  intros I. destruct (following_tables st v I) as (Hnd & Harr & Hfit).
  set (cs := counts_of ∅ (List.concat (metas v))).
  assert (Hin : forall i fs m, levels v !! i = Some fs -> m ∈ map meta fs -> m ∈ List.concat (metas v)).
  { intros i fs m Hi Hm. apply list_elem_of_In, in_concat. exists (map meta fs).
    split; [|by apply list_elem_of_In]. apply list_elem_of_In, list_elem_of_lookup. exists i.
    unfold metas. by rewrite list_lookup_fmap, Hi. }
  assert (Hjoin : forall i fs, levels v !! i = Some fs -> map (joined cs) (map strip (map meta fs)) = map meta fs).
  { intros i fs Hi. rewrite (map_map strip). rewrite <- (map_id (map meta fs)) at 2. apply map_ext_in.
    intros m Hm%list_elem_of_In. pose proof (Hin _ _ _ Hi Hm) as Hm'.
    assert (Hc : cs !! file_id m = deletions m) by (by apply counts_of_listed).
    apply joined_logged; rewrite Hc; [done|]. intros d Hd. split; [done|]. by apply Hfit. }
  assert (Hlook : forall i files, map (fun fs => map strip (map meta fs)) (levels v) !! i = Some files ->
    exists fs, levels v !! i = Some fs /\ files = map strip (map meta fs)).
  { intros i files Hi. rewrite list_lookup_fmap in Hi. destruct (levels v !! i); [|done]. injection Hi as <-. eauto. }
  assert (Hlive : forall i fs m, levels v !! i = Some fs -> m ∈ map strip (map meta fs) -> live v i (file_id m)).
  { intros i fs m Hi Hm. apply list_elem_of_fmap in Hm as (x & -> & Hx). apply list_elem_of_fmap in Hx as (f & -> & Hf).
    by exists fs, f. }
  split; cbn [surviving counts r_last_seq r_next_file_id r_min_wal_id]; try done; try apply I.
  - rewrite length_map. apply I.
  - intros i files fs (lfs & Hi & ->)%Hlook Hv. rewrite Hv in Hi. injection Hi as <-.
    rewrite (Hjoin _ _ Hv). symmetry. by apply Harr.
  - intros i files (fs & Hi & ->)%Hlook. rewrite map_map. change (NoDup (map file_id (map meta fs))).
    apply (nodup_level _ i _ Hnd). unfold metas. by rewrite list_lookup_fmap, Hi.
  - intros i j fi fj m m' (li & Hi & ->)%Hlook (lj & Hj & ->)%Hlook Hm Hm' E.
    pose proof (Hlive _ _ _ Hi Hm) as H1. pose proof (Hlive _ _ _ Hj Hm') as H2. rewrite E in H1.
    apply (live_surviving st v) in H1 as (f1 & x & Hf1 & Hx & E1); [|done].
    apply (live_surviving st v) in H2 as (f2 & y & Hf2 & Hy & E2); [|done].
    apply (ri_once _ _ I i j f1 f2 x y); auto. congruence.
  - intros id Hid. destruct (decide (id ∈ map file_id (List.concat (metas v)))) as [Hm|Hn].
    + apply list_elem_of_fmap in Hm as (m & -> & Hm). apply list_elem_of_In, in_concat in Hm as (fs & Hfs & Hm).
      apply list_elem_of_In, list_elem_of_lookup in Hfs as [i Hi]. unfold metas in Hi. rewrite list_lookup_fmap in Hi.
      destruct (levels v !! i) as [lfs|] eqn:Hv; [|done]. injection Hi as <-.
      apply list_elem_of_In, list_elem_of_fmap in Hm as (f & -> & Hf). exists i, lfs, f. done.
    + subst cs. rewrite counts_of_other, lookup_empty in Hid by done. by destruct Hid.
Qed.

(** The records of an image of a version replay to it. *)
Lemma image_replays st (v : Version reader) checked :
  replay_inv st v -> 0 <= last_seq v ->
  exists st', replay_rs replay_start
      (image_records (next_file_id v) (last_seq v) (min_wal_id v) checked (live_tables v)) = st' /\
    replay_inv st' v /\ r_checked st' = checked.
Proof.
  intros I Hseq. eexists. split; [done|]. unfold image_records, live_tables. rewrite push_tables_app, replay_rs_app.
  set (st0 := replay_rs replay_start _).
  assert (Est0 : st0 = mkReplaying no_levels ∅ (last_seq v) (next_file_id v) (min_wal_id v) checked).
  { subst st0. destruct checked; cbn; unfold raised_last_seq; rewrite Z.max_r by lia; done. }
  rewrite (replay_tables 0 (levels v) [] st0) by (rewrite ?Est0; cbn; rewrite ?cleared_levels by apply I; done).
  rewrite Est0. cbn [counts r_last_seq r_next_file_id r_min_wal_id r_checked app]. split; [|done].
  by apply (listing_inv st).
Qed.

End Rewrite.

(** ** Widths *)

(** A replayed state whose fields fit their encoding. *)
Definition st_ok (st : Replaying) : Prop :=
  is_u64 (r_last_seq st) /\ is_u64 (r_next_file_id st) /\ is_u64 (r_min_wal_id st) /\
  Forall (Forall meta_ok) (surviving st) /\ map_Forall (fun _ d => deletions_ok d) (counts st).

Lemma at_level_ok (f : list SsTableMeta -> list SsTableMeta) level ls :
  (forall l, Forall meta_ok l -> Forall meta_ok (f l)) -> Forall (Forall meta_ok) ls ->
  Forall (Forall meta_ok) (at_level f level ls).
Proof.
  intros Hf H. unfold at_level. apply Forall_lookup. intros i l Hi.
  destruct (decide (i = Z.to_nat level)) as [->|Hne].
  - destruct (ls !! Z.to_nat level) as [l0|] eqn:E.
    + rewrite (lookup_altered f _ _ l0 E) in Hi. injection Hi as <-. apply Hf. by apply (Forall_lookup_1 _ _ _ _ H E).
    + rewrite list_lookup_alter, decide_True, E in Hi by done. done.
  - rewrite lookup_altered_ne in Hi by done. by apply (Forall_lookup_1 _ _ _ _ H Hi).
Qed.

Lemma replay_record_ok st r : st_ok st -> record_ok r -> st_ok (replay_record st (as_logged r)).
Proof.
  intros (H1 & H2 & H3 & H4 & H5) Hr. destruct r; cbn in *; unfold st_ok; cbn; split_and?; try done; try tauto.
  - apply at_level_ok; [|done]. intros l Hl. apply Forall_app. split; [done|]. constructor; [|constructor].
    destruct Hr as [_ Hm]. by destruct meta.
  - apply at_level_ok; [|done]. intros l Hl. rewrite List.Forall_forall in *. intros m [Hm _]%filter_In. auto.
  - by apply map_Forall_delete.
  - apply map_Forall_insert_2; [tauto|done].
  - unfold raised_last_seq. unfold is_u64 in *. lia.
  - apply Forall_map_iff. apply List.Forall_forall. constructor.
Qed.

Lemma replay_rs_ok st rs : st_ok st -> Forall record_ok rs -> st_ok (replay_rs st rs).
Proof.
  intros Hs Hr. revert st Hs. induction Hr as [|r rs Hr Hrs IH]; intros st Hs; [done|].
  cbn. apply IH. by apply replay_record_ok.
Qed.

Lemma replay_start_ok : st_ok replay_start.
Proof.
  unfold st_ok, is_u64. cbn. split_and!; try lia; [|apply map_Forall_empty]. repeat constructor.
Qed.

Section Widths.
Context {reader : Type}.

Lemma version_metas_ok st (v : Version reader) m : replay_inv st v -> st_ok st -> m ∈ List.concat (metas v) ->
  meta_ok m /\ match deletions m with Some d => deletions_ok d | None => True end.
Proof.
  intros I (_ & _ & _ & Hs & Hc) Hm. apply list_elem_of_In, in_concat in Hm as (fs & Hfs & Hm).
  apply list_elem_of_In, list_elem_of_lookup in Hfs as [i Hi]. unfold metas in Hi. rewrite list_lookup_fmap in Hi.
  destruct (levels v !! i) as [lfs|] eqn:Hv; [|done]. injection Hi as <-.
  destruct (lookup_lt_is_Some_2 (surviving st) i) as [files Hf].
  { rewrite (ri_len _ _ I), <- (ri_vlen _ _ I). by apply lookup_lt_Some in Hv. }
  apply list_elem_of_In in Hm. rewrite (ri_levels _ _ I _ _ _ Hf Hv), arranged_perm in Hm.
  apply list_elem_of_fmap in Hm as (x & -> & Hx). split.
  - pose proof (Forall_lookup_1 _ _ _ _ Hs Hf) as Hfm. cbn in Hfm. rewrite List.Forall_forall in Hfm.
    specialize (Hfm x ltac:(by apply list_elem_of_In)). by destruct x.
  - cbn. unfold believed. destruct (counts st !! file_id x) as [d|] eqn:E; [|done].
    destruct (fits _ _); [|done]. by apply (Hc _ _ E).
Qed.

Lemma tables_from_In level (ls : list (list (LiveSst reader))) l m : In (l, m) (tables_from level ls) ->
  level <= l < level + len ls /\ In m (List.concat (map (map meta) ls)).
Proof.
  revert level. induction ls as [|fs ls IH]; intros level; [done|]. cbn [tables_from map List.concat]. rewrite len_cons.
  pose proof (len_nonneg ls). rewrite !in_app_iff. intros [Hm|[Hl Hm]%IH]; [|split; [lia|tauto]].
  apply in_map_iff in Hm as (f & [= <- <-] & Hf). split; [lia|]. left. apply in_map_iff. eauto.
Qed.

Lemma image_records_ok st (v : Version reader) checked : replay_inv st v -> st_ok st -> is_u64 (next_file_id v) ->
  Forall record_ok (image_records (next_file_id v) (last_seq v) (min_wal_id v) checked (live_tables v)) /\
  validate_levels (live_tables v) = Ok ().
Proof.
  intros I Hok Hn. pose proof Hok as (Hs1 & _ & Hs3 & _). rewrite (ri_seq _ _ I) in Hs1. rewrite (ri_wal _ _ I) in Hs3.
  assert (Ht : forall l m, In (l, m) (live_tables v) -> level_ok l /\ meta_ok m /\
    match deletions m with Some d => deletions_ok d | None => True end).
  { intros l m [Hl Hm]%tables_from_In. split.
    - unfold level_ok, MAX_LEVELS. unfold len in Hl. rewrite (ri_vlen _ _ I) in Hl. lia.
    - apply (version_metas_ok st v m I Hok). by apply list_elem_of_In. }
  split.
  - unfold image_records. rewrite push_tables_app. apply Forall_app. split.
    + constructor; [exact Hn|]. constructor; [exact Hs1|]. constructor; [exact Hs3|].
      destruct checked; repeat constructor.
    + apply List.Forall_forall. intros r ([l m] & Hlm & Hr)%in_flat_map. destruct (Ht _ _ Hlm) as (H1 & H2 & H3).
      cbn in Hr. unfold push_table in Hr. cbn in Hr. destruct Hr as [<-|Hr]; [done|].
      destruct (deletions m); [|done]. destruct Hr as [<-|[]]. split; [apply H2|done].
  - assert (Hl : forall l m, In (l, m) (live_tables v) -> level_ok l) by (intros l m H; by apply (Ht l m)).
    clear Ht. induction (live_tables v) as [|[l m] fs IH]; [done|]. cbn.
    rewrite (proj2 (proj2 (level_ok_u32 l (Hl l m ltac:(by left))))). run. apply IH. intros l' m' H. apply (Hl l' m'). by right.
Qed.

End Widths.

(** ** The state of an open set *)

Section State.
Context `{T : Target} `{XL : Xxh3Laws} `{AL : AeadLaws} {reader : Type}.

Lemma append_entry salt kr sl draw records (v : Version reader) st o b id :
  nonce_draw draw -> can_read salt kr sl -> records <> [] -> Forall record_ok records -> len b <= isize_max ->
  VersionSetBytes.encode_records records o sl draw = Ok (b, id) ->
  replay_inv (replay_rs st records) v -> levels_are_sorted_runs v = true ->
  log_of salt kr o st [(records, v)] b.
Proof.
  intros Hd Hc Hne Hok Hi He I Hr.
  destruct (encode_records_decodes _ _ _ _ _ _ _ _ Hok Hd Hc Hne He Hi) as (body & Hf & Ho & Hed).
  rewrite <- (app_nil_r b). eapply log_cons; [done..|constructor].
Qed.

(** The version in memory is the log's, but for ids the open moved past. *)
Definition raised (v0 v : Version reader) : Prop :=
  levels v = levels v0 /\ last_seq v = last_seq v0 /\ min_wal_id v = min_wal_id v0 /\ uncounted v = uncounted v0 /\
  next_file_id v0 <= next_file_id v /\ is_u64 (next_file_id v).

Lemma raised_levels v0 v e : raised v0 v -> edit_ok v e -> edit_ok v0 e.
Proof. intros (E & _). unfold edit_ok, live. by rewrite E. Qed.

Lemma raised_edit v0 v e : raised v0 v -> Forall record_ok (to_records e []) -> raised (apply_edit v0 e) (apply_edit v e).
Proof.
  intros (E1 & E2 & E3 & E4 & E5 & E6) Hr.
  destruct e; cbn; unfold raised, add_file, remove_file, count_file; cbn; rewrite ?E1, ?E2, ?E3, ?E4; try done.
  - by destruct (find _ _).
  - split_and!; try done. apply Forall_inv in Hr. done.
  - split_and!; try done. apply Forall_inv in Hr. by destruct Hr.
Qed.

Lemma edits_records_app (es : list (VersionEdit reader)) records :
  edits_records es records = records ++ edits_records es [].
Proof.
  revert records. induction es as [|e es IH]; intros records; cbn; [by rewrite app_nil_r|].
  unfold edits_records in *. rewrite IH, (IH (to_records e [])), to_records_app. by rewrite <- app_assoc.
Qed.

Lemma raised_edits v0 v es : raised v0 v -> Forall record_ok (edits_records es []) -> edits_ok v es ->
  raised (fold_left apply_edit es v0) (fold_left apply_edit es v) /\ edits_ok v0 es.
Proof.
  revert v0 v. induction es as [|e es IH]; intros v0 v Hr Hok Hes; [split; [done|constructor]|].
  inversion Hes as [|? ? ? He Hes']; subst.
  assert (E : edits_records (e :: es) [] = to_records e [] ++ edits_records es [])
    by (cbn; unfold edits_records at 1; cbn; apply edits_records_app).
  rewrite E in Hok. apply Forall_app in Hok as [Hok1 Hok2].
  destruct (IH (apply_edit v0 e) (apply_edit v e)) as [H1 H2]; [by apply raised_edit|done..|].
  split; [done|]. constructor; [by apply (raised_levels v0 v)|done].
Qed.

Definition nosync (e : entry (reader := reader)) : Prop := existsb ManifestRecord.requires_sync e.1 = false.

Definition vs_salt (vs : VersionSet reader) : option bytes := seal_salt <$> sealing vs.

(** A set that may write: its manifest is whole, what is not durable yet needed
    no sync, and the log replays to the version in memory. *)
Record vs_live (vs : VersionSet reader) (stamp : bytes) (h1 h2 : list entry) (log1 log2 : bytes) : Prop := {
  vl_writer : manifest_writer vs = true;
  vl_salt : salt_ok (vs_salt vs);
  vl_seal : forall sl, sealing vs = Some sl -> keyring vs = Some (seal_keyring sl);
  vl_key : forall k, keyring vs = Some k -> is_u32 (provider_current k);
  vl_stamp : VersionSetBytes.stamp_bytes (vs_salt vs) = Ok stamp;
  vl_log1 : log_of (vs_salt vs) (keyring vs) (len stamp) replay_start h1 log1;
  vl_log2 : log_of (vs_salt vs) (keyring vs) (len stamp + len log1) (replay_entries replay_start h1) h2 log2;
  vl_disk : disk vs = mkDisk (stamp ++ log1 ++ log2) (len stamp + len log1) None;
  vl_bytes : manifest_bytes vs = len (stamp ++ log1 ++ log2);
  vl_fits : len (stamp ++ log1 ++ log2) <= isize_max;
  vl_nosync : Forall nosync h2;
  vl_current : raised (last_version version_new (h1 ++ h2)) (current vs);
  vl_checked : range_deletes_checked vs = r_checked (replay_entries replay_start (h1 ++ h2));
  vl_unlogged : unlogged vs = [] \/ unlogged vs = [RangeDeletesChecked];
}.

Lemma current_id k s : (Seal.current k).2 = Ok s -> sealer_id s = provider_current k.
Proof.
  unfold Seal.current, sealer. destruct (ciphers _ !! _); cbn; [by intros [= <-]|].
  destruct (provider_key _ _); cbn; [by intros [= <-]|done].
Qed.

Lemma live_can_read vs stamp h1 h2 log1 log2 :
  vs_live vs stamp h1 h2 log1 log2 -> can_read (vs_salt vs) (keyring vs) (sealing vs).
Proof.
  intros L. unfold can_read, vs_salt. destruct (sealing vs) as [sl|] eqn:E; [|done]. split; [done|].
  exists (seal_keyring sl). pose proof (vl_seal _ _ _ _ _ _ L sl E) as Hk. split; [done|].
  intros s Hs. split; [|by apply current_knows].
  rewrite (current_id _ _ Hs). by apply (vl_key _ _ _ _ _ _ L).
Qed.

Lemma live_inv vs stamp h1 h2 log1 log2 : vs_live vs stamp h1 h2 log1 log2 ->
  replay_inv (replay_entries replay_start (h1 ++ h2)) (last_version version_new (h1 ++ h2)) /\
  levels_are_sorted_runs (last_version version_new (h1 ++ h2)) = true.
Proof.
  intros L. pose proof (log_of_app _ _ _ _ _ _ _ _ (vl_log1 _ _ _ _ _ _ L) (vl_log2 _ _ _ _ _ _ L)) as Hl.
  by apply (log_of_inv _ _ _ _ _ _ _ (empty_inv false 1 0 0) eq_refl Hl).
Qed.

Lemma checked_after st rs : r_checked (replay_rs st rs) = r_checked st || records_a_check rs.
Proof.
  unfold replay_rs. revert st. induction rs as [|r rs IH]; intros st; cbn; [by rewrite orb_false_r|].
  rewrite IH. destruct r; cbn; by rewrite ?orb_true_r.
Qed.

Lemma edits_no_check (es : list (VersionEdit reader)) : records_a_check (edits_records es []) = false.
Proof.
  induction es as [|e es IH]; [done|]. unfold edits_records. cbn [fold_left].
  change (fold_left _ es (to_records e [])) with (edits_records es (to_records e [])).
  rewrite edits_records_app. unfold records_a_check in *. rewrite existsb_app, IH, orb_false_r.
  destruct e as [? f|?|?|?|?|?|?]; cbn; try done. by destruct (deletions (meta f)).
Qed.

Lemma follows_checked st (v : Version reader) : replay_inv st v -> replay_inv (replay_record st RangeDeletesChecked) v.
Proof. intros []. by split. Qed.

(** The edits of an apply, behind what the open left to log. *)
Lemma batch_follows st (v0 : Version reader) es records : replay_inv st v0 -> edits_ok v0 es ->
  records = [] \/ records = [RangeDeletesChecked] ->
  replay_inv (replay_rs st (edits_records es records)) (fold_left apply_edit es v0).
Proof.
  intros I Ho Hr. unfold replay_rs. rewrite replay_edits_records. apply edits_follow; [|done].
  destruct Hr as [-> | ->]; [done|]. by apply follows_checked.
Qed.

Lemma edits_records_nil (es : list (VersionEdit reader)) records : edits_records es records = [] -> es = [] /\ records = [].
Proof.
  rewrite edits_records_app. intros [-> He]%app_nil. split; [|done]. destruct es as [|e es]; [done|].
  unfold edits_records in He. cbn [fold_left] in He.
  change (fold_left _ es (to_records e [])) with (edits_records es (to_records e [])) in He.
  rewrite edits_records_app in He. apply app_nil in He as [He _]. by destruct e.
Qed.

(** The state once a batch is with the host. *)
Definition appended (vs : VersionSet reader) (es : list (VersionEdit reader)) (encoded : bytes) (under : option Z)
  : VersionSet reader :=
  let records := edits_records es (unlogged vs) in
  let records_check := records_a_check (unlogged vs) in
  let requires_sync := existsb ManifestRecord.requires_sync records || (records_check && sync_check_record vs) in
  let file := d_file (disk vs) ++ encoded in
  mkVersionSet (fold_left apply_edit es (current vs)) (manifest_bytes vs + len encoded) true (dropped_tail vs)
    (keyring vs) (sealing vs) (note_key (sealed_under vs) under) (vs_demotion vs) []
    (range_deletes_checked vs || records_check) (sync_check_record vs)
    (mkDisk file (if requires_sync then len file else d_durable (disk vs)) (d_old (disk vs))).

(** An apply the engine may make. *)
Record apply_ok (vs : VersionSet reader) (es : list (VersionEdit reader)) (draw : outcome bytes) : Prop := {
  ao_edits : edits_ok (current vs) es;
  ao_records : Forall record_ok (edits_records es []);
  ao_runs : levels_are_sorted_runs (fold_left apply_edit es (current vs)) = true;
  ao_draw : nonce_draw draw;
}.

Lemma runs_levels (v v' : Version reader) : levels v = levels v' -> levels_are_sorted_runs v = levels_are_sorted_runs v'.
Proof. unfold levels_are_sorted_runs, find_overlap. by intros ->. Qed.

Lemma apply_entry vs stamp h1 h2 log1 log2 es draw encoded under :
  vs_live vs stamp h1 h2 log1 log2 -> apply_ok vs es draw -> edits_records es (unlogged vs) <> [] ->
  VersionSetBytes.encode_records (edits_records es (unlogged vs)) (manifest_bytes vs) (sealing vs) draw = Ok (encoded, under) ->
  len encoded <= isize_max ->
  let v := fold_left apply_edit es (last_version version_new (h1 ++ h2)) in
  log_of (vs_salt vs) (keyring vs) (len stamp + len log1 + len log2) (replay_entries replay_start (h1 ++ h2))
    [(edits_records es (unlogged vs), v)] encoded /\
  raised v (fold_left apply_edit es (current vs)).
Proof.
  intros L [He Hk Hr Hd] Hne Henc Hi v. destruct (live_inv _ _ _ _ _ _ L) as [I _].
  destruct (raised_edits _ _ es (vl_current _ _ _ _ _ _ L) Hk He) as [Hra Heo]. split; [|done].
  eapply append_entry; [exact Hd|by apply (live_can_read _ _ _ _ _ _ L)|exact Hne| |exact Hi| | |].
  - rewrite edits_records_app. apply Forall_app. split; [|done].
    destruct (vl_unlogged _ _ _ _ _ _ L) as [-> | ->]; repeat constructor.
  - rewrite (vl_bytes _ _ _ _ _ _ L), !len_app, Z.add_assoc in Henc. exact Henc.
  - by apply batch_follows; [..|apply (vl_unlogged _ _ _ _ _ _ L)].
  - destruct Hra as [El _]. subst v. rewrite <- (runs_levels _ _ El). done.
Qed.

Lemma appended_nothing vs stamp h1 h2 log1 log2 :
  vs_live vs stamp h1 h2 log1 log2 -> unlogged vs = [] -> appended vs [] [] None = vs.
Proof.
  intros L Hu. unfold appended. rewrite Hu. cbn. rewrite (vl_disk _ _ _ _ _ _ L). cbn. rewrite app_nil_r, orb_false_r.
  change (len (@nil byte)) with 0. rewrite Z.add_0_r.
  destruct L, vs; cbn in *. congruence.
Qed.

(** A batch with the host, [e], behind the log's. *)
Section Appended.
Context (vs : VersionSet reader) (stamp : bytes) (h1 h2 : list (entry (reader := reader))) (log1 log2 : bytes)
  (es : list (VersionEdit reader)) (encoded : bytes) (under : option Z) (e : entry (reader := reader)).
Hypothesis L : vs_live vs stamp h1 h2 log1 log2.
Hypothesis He : e.1 = edits_records es (unlogged vs).
Hypothesis Hra : raised e.2 (fold_left apply_edit es (current vs)).
Hypothesis Hfit : len (stamp ++ log1 ++ log2 ++ encoded) <= isize_max.
Hypothesis Hlog : log_of (vs_salt vs) (keyring vs) (len stamp + len log1) (replay_entries replay_start h1) (h2 ++ [e]) (log2 ++ encoded).

Lemma appended_checked :
  range_deletes_checked vs || records_a_check (unlogged vs) = r_checked (replay_entries replay_start (h1 ++ h2 ++ [e])).
Proof.
  rewrite app_assoc, replay_entries_app. cbn [replay_entries fold_left]. rewrite checked_after, He, edits_records_app.
  unfold records_a_check at 2. rewrite existsb_app. fold (records_a_check (unlogged vs)).
  change (existsb _ (edits_records es [])) with (records_a_check (edits_records es [])).
  rewrite edits_no_check, orb_false_r. by rewrite (vl_checked _ _ _ _ _ _ L).
Qed.

Lemma appended_last : last_version version_new (h1 ++ h2 ++ [e]) = e.2.
Proof. unfold last_version. by rewrite app_assoc, fold_left_app. Qed.

Lemma appended_synced :
  existsb ManifestRecord.requires_sync e.1 || (records_a_check (unlogged vs) && sync_check_record vs) = true ->
  vs_live (appended vs es encoded under) stamp (h1 ++ h2 ++ [e]) [] (log1 ++ log2 ++ encoded) [].
Proof.
  intros Hreq. pose proof appended_checked as Hc1. pose proof appended_last.
  pose proof (log_of_app _ _ _ _ _ _ _ _ (vl_log1 _ _ _ _ _ _ L) Hlog) as Hall.
  destruct L. split; cbn; rewrite ?app_nil_r; try done.
  - constructor.
  - rewrite vl_disk0. cbn. rewrite <- He, Hreq, <- !app_assoc. by rewrite (len_app stamp).
  - rewrite vl_bytes0, !len_app. lia.
  - congruence.
  - by left.
Qed.

Lemma appended_unsynced :
  existsb ManifestRecord.requires_sync e.1 || (records_a_check (unlogged vs) && sync_check_record vs) = false ->
  vs_live (appended vs es encoded under) stamp h1 (h2 ++ [e]) log1 (log2 ++ encoded).
Proof.
  intros Hreq. pose proof appended_checked as Hc1. pose proof appended_last.
  destruct L. split; cbn; try done.
  - rewrite vl_disk0. cbn. by rewrite <- He, Hreq, <- !app_assoc.
  - rewrite vl_bytes0, !len_app. lia.
  - apply orb_false_elim in Hreq as [Hns _]. apply Forall_app. split; [done|]. by repeat constructor.
  - congruence.
  - by left.
Qed.

End Appended.

(** A batch with the host leaves a set that may write. One that was synced, and
    everything before it, is durable; the others wait for the next sync. *)
Lemma appended_live vs stamp h1 h2 log1 log2 es draw encoded under :
  vs_live vs stamp h1 h2 log1 log2 -> apply_ok vs es draw ->
  VersionSetBytes.encode_records (edits_records es (unlogged vs)) (manifest_bytes vs) (sealing vs) draw = Ok (encoded, under) ->
  len (d_file (disk vs) ++ encoded) <= isize_max ->
  exists h1' h2' log1' log2', vs_live (appended vs es encoded under) stamp h1' h2' log1' log2' /\
    (h2' = [] \/ h1' = h1 /\ (encoded = [] /\ h2' = h2 \/ exists e, h2' = h2 ++ [e])) /\
    (existsb ManifestRecord.requires_sync (edits_records es (unlogged vs)) = true -> h2' = []).
Proof.
  intros L Hao Henc Hfit. rewrite (vl_disk _ _ _ _ _ _ L) in Hfit. cbn [d_file] in Hfit. rewrite <- !app_assoc in Hfit.
  destruct (edits_records es (unlogged vs)) as [|r rs] eqn:Hrs.
  - destruct (edits_records_nil _ _ Hrs) as [-> Hu]. injection Henc as <- <-.
    rewrite (appended_nothing _ _ _ _ _ _ L Hu). exists h1, h2, log1, log2.
    split_and!; [done|by right; split; [|left]|done].
  - assert (Hle : len encoded <= isize_max).
    { rewrite !len_app in Hfit. pose proof (len_nonneg stamp). pose proof (len_nonneg log1). pose proof (len_nonneg log2). lia. }
    assert (Hne : edits_records es (unlogged vs) <> []) by (by rewrite Hrs). rewrite <- Hrs in *.
    destruct (apply_entry _ _ _ _ _ _ _ _ _ _ L Hao Hne Henc Hle) as [Hlog Hra]. rewrite replay_entries_app in Hlog.
    pose proof (log_of_app _ _ _ _ _ _ _ _ (vl_log2 _ _ _ _ _ _ L) Hlog) as Hl2e.
    set (e := (edits_records es (unlogged vs), fold_left apply_edit es (last_version version_new (h1 ++ h2)))) in *.
    destruct (existsb ManifestRecord.requires_sync e.1 || (records_a_check (unlogged vs) && sync_check_record vs)) eqn:Ereq.
    + exists (h1 ++ h2 ++ [e]), [], (log1 ++ log2 ++ encoded), []. split_and!; [by apply appended_synced|by left|done].
    + exists h1, (h2 ++ [e]), log1, (log2 ++ encoded). split_and!; [by apply appended_unsynced|by right; eauto|].
      apply orb_false_elim in Ereq as [Hns _]. cbn in Hns. by rewrite Hns.
Qed.

Lemma log_of_ok salt kr o st (h : list (entry (reader := reader))) bs :
  log_of salt kr o st h bs -> st_ok st -> st_ok (replay_entries st h).
Proof.
  induction 1 as [o st|o st rs v body b id edits h bs Hf He Hd Hk Hin Hr Hl IH]; intros Hs; [done|].
  cbn [replay_entries fold_left]. apply IH. by apply replay_rs_ok.
Qed.

Definition with_next (st : Replaying) (next : Z) : Replaying :=
  mkReplaying (surviving st) (counts st) (r_last_seq st) next (r_min_wal_id st) (r_checked st).

Lemma raised_inv st v0 v : replay_inv st v0 -> raised v0 v -> replay_inv (with_next st (next_file_id v)) v.
Proof.
  intros I (E1 & E2 & E3 & E4 & _). pose proof (ri_counts _ _ I) as Hc. pose proof (ri_uncounted _ _ I) as Hu.
  destruct I. split; cbn; rewrite ?E1; try done; try congruence.
  - intros id Hid. destruct (Hc id Hid) as [i Hi]. exists i. unfold live in *. by rewrite E1.
  - unfold metas in *. by rewrite E1, E4.
Qed.

(** Every version in memory follows a log whose fields fit. *)
Lemma live_current vs stamp h1 h2 log1 log2 : vs_live vs stamp h1 h2 log1 log2 ->
  exists st, replay_inv st (current vs) /\ st_ok st /\ levels_are_sorted_runs (current vs) = true.
Proof.
  intros L. destruct (live_inv _ _ _ _ _ _ L) as [I Hr]. pose proof (vl_current _ _ _ _ _ _ L) as Hra.
  pose proof (log_of_app _ _ _ _ _ _ _ _ (vl_log1 _ _ _ _ _ _ L) (vl_log2 _ _ _ _ _ _ L)) as Hl.
  pose proof (log_of_ok _ _ _ _ _ _ Hl replay_start_ok) as Hok.
  eexists. split; [by apply (raised_inv _ _ _ I Hra)|]. destruct Hra as (El & _ & _ & _ & _ & Hn). split.
  - destruct Hok as (H1 & H2 & H3 & H4 & H5). done.
  - by rewrite (runs_levels _ _ El).
Qed.

Lemma raised_refl v : is_u64 (next_file_id v) -> raised v v.
Proof. intros. unfold raised. split_and!; try done; lia. Qed.

Definition salt_draw_ok (draw : outcome bytes) : Prop := match draw with Ok salt => len salt = SALT_LEN | _ => True end.

(** The seal of a manifest written whole: none without a keyring, and under a
    fresh salt with one. *)
Lemma fresh_sealing_spec kr draw sl : salt_draw_ok draw -> VersionSetBytes.fresh_sealing kr draw = Ok sl ->
  salt_ok (seal_salt <$> sl) /\ (forall s, sl = Some s -> kr = Some (seal_keyring s)) /\
  (sl = None -> kr = None).
Proof.
  intros Hd. unfold VersionSetBytes.fresh_sealing, sealed.fresh_salt. destruct kr as [k|]; cbn.
  - destruct draw as [salt| | |]; try done. cbn. intros [= <-]. split_and!; [done|by intros s [= <-]|done].
  - intros [= <-]. done.
Qed.

Lemma rewritten_live vs vs' stamp h1 h2 log1 log2 salt_draw draw :
  vs_live vs stamp h1 h2 log1 log2 -> salt_draw_ok salt_draw -> nonce_draw draw ->
  compact_manifest vs salt_draw draw Rewritten = (vs', Ok ()) -> len (d_file (disk vs')) <= isize_max ->
  exists stamp' e log, vs_live vs' stamp' [e] [] log [] /\ e.2 = current vs /\ current vs' = current vs /\
    keyring vs' = keyring vs /\ (keyring vs' = None <-> vs_salt vs' = None).
Proof.
  intros L Hsd Hnd. unfold compact_manifest. rewrite (vl_writer _ _ _ _ _ _ L). cbn [negb].
  destruct (VersionSetBytes.fresh_sealing (keyring vs) salt_draw) as [sl| | |] eqn:Esl; try done. run.
  destruct (encode_image _ _ _ _ _ sl draw) as [[image under]| | |] eqn:Ei; try done. run.
  intros [= <-] Hfit. cbn [disk d_file] in Hfit. cbn [current keyring].
  destruct (fresh_sealing_spec _ _ _ Hsd Esl) as (Hsalt & Hseal & Hnone).
  destruct (live_current _ _ _ _ _ _ L) as (st & I & Hok & Hruns).
  assert (Hn : is_u64 (next_file_id (current vs))) by (by destruct (vl_current _ _ _ _ _ _ L) as (_ & _ & _ & _ & _ & ?)).
  destruct (image_records_ok st (current vs) (range_deletes_checked vs) I Hok Hn) as [Hrk _].
  destruct (image_replays st (current vs) (range_deletes_checked vs) I) as (st' & Est' & I' & Hck).
  { rewrite <- (ri_seq _ _ I). destruct Hok as ([? _] & _). done. }
  unfold encode_image in Ei. apply bind_Ok in Ei as (u & _ & Ei). apply bind_Ok in Ei as (stamp' & Hst & Ei).
  apply bind_Ok in Ei as ([batch under'] & Hb & Ei). injection Ei as <- <-.
  set (rs := image_records _ _ _ _ _) in *. rewrite len_app in Hfit. pose proof (len_nonneg stamp'). pose proof (len_nonneg batch).
  set (vs' := mkVersionSet _ _ _ _ _ _ _ _ _ _ _ _).
  assert (Hcr : can_read (vs_salt vs') (keyring vs) sl).
  { unfold can_read, vs_salt. cbn. destruct sl as [s|]; [|done]. split; [done|]. exists (seal_keyring s).
    pose proof (Hseal s eq_refl) as Hk. split; [done|]. intros x Hx. split; [|by apply current_knows].
    rewrite (current_id _ _ Hx). by apply (vl_key _ _ _ _ _ _ L). }
  exists stamp', (rs, current vs), batch. split_and!; try done.
  2:{ unfold vs_salt. cbn. destruct sl as [sl|]; cbn; [by rewrite (Hseal sl eq_refl)|by rewrite Hnone]. }
  split; cbn; try done; rewrite ?app_nil_r; try done.
  - apply (vl_key _ _ _ _ _ _ L).
  - eapply (append_entry _ _ sl draw rs (current vs) replay_start (len stamp') batch under'); try done; try lia.
    + unfold rs, image_records. rewrite push_tables_app. by destruct (range_deletes_checked vs).
    + by rewrite Est'.
  - constructor.
  - rewrite len_app. done.
  - rewrite len_app. lia.
  - change (range_deletes_checked vs = r_checked (replay_rs replay_start rs)). by rewrite Est'.
  - by left.
Qed.

End State.
