(* ===== verification/ManifestLife.v ===== *)
(** * A manifest through power cuts

    What survives of the manifest modelled in VersionSet.v. A power cut leaves the
    bytes a completed sync covers and any bytes behind them; a manifest's life is
    any sequence of applies and rewrites, each ending as the host lets it, and of
    power cuts with opens after them. Shown here: every open in such a life
    succeeds and finds a version that may survive; an apply that was acknowledged
    with a sync survives; reading any bytes ends, but for a length that wraps on a
    32-bit target; and what an open reads without a
    sync can be taken back by a later power cut. *)

From Stdlib Require Import Classical_Prop.
From stdpp Require Import gmap.
From S2P Require Import Prelude Order Checksum Seal RangeTombstone Manifest Version VersionSet.

Lemma existsb_logged rs : existsb ManifestRecord.requires_sync (map as_logged rs) = existsb ManifestRecord.requires_sync rs.
Proof. induction rs as [|r rs IH]; [done|]. cbn. rewrite IH. by destruct r. Qed.

(** ** A power cut *)

Section Crash.
Context `{T : Target} `{XL : Xxh3Laws} `{AL : AeadLaws} {reader : Type}.

(** The reopening keyring still has every key the log was sealed under. *)
Definition keys_kept (salt : option bytes) (kr kr' : option Keyring) : Prop :=
  match salt with
  | None => True
  | Some _ => exists k k', kr = Some k /\ kr' = Some k' /\ forall id s, (sealer k id).2 = Ok s -> (sealer k' id).2 = Ok s
  end.

Lemma batch_edits_keys salt kr kr' o body r :
  keys_kept salt kr kr' -> batch_edits salt kr o body = Ok r -> batch_edits salt kr' o body = Ok r.
Proof.
  unfold keys_kept, batch_edits. destruct salt as [salt|]; [|by destruct kr, kr'].
  intros (k & k' & -> & -> & Hk). unfold sealed.open_batch. destruct (_ <? _); [done|].
  set (id := from_le _). destruct ((sealer k id).2) as [s| | |] eqn:E; try done. by rewrite (Hk _ _ E).
Qed.

Lemma log_of_keys salt kr kr' o st (h : list (entry (reader := reader))) bs :
  keys_kept salt kr kr' -> log_of salt kr o st h bs -> log_of salt kr' o st h bs.
Proof.
  intros Hk. induction 1 as [o st|o st rs v body b id edits h bs Hf He Hd Hr Hin Hs Hl IH]; [constructor|].
  eapply log_cons; [done|by eapply batch_edits_keys|done..].
Qed.

(** A manifest as it may be on disk: a stamp, the batches [h1] a completed sync
    covers, and a prefix of the bytes of the batches [h2] after them, of which
    only the last may have asked for a sync. *)
Record disk_log (kr : option Keyring) (file : bytes) (durable : Z) (salt : option bytes) (stamp : bytes)
    (h1 h2 : list (entry (reader := reader))) (log1 log2 : bytes) : Prop := {
  dl_salt : salt_ok salt;
  dl_stamp : VersionSetBytes.stamp_bytes salt = Ok stamp;
  dl_log1 : log_of salt kr (len stamp) replay_start h1 log1;
  dl_log2 : log_of salt kr (len stamp + len log1) (replay_entries replay_start h1) h2 log2;
  dl_durable : durable = len stamp + len log1;
  dl_file : exists n, durable <= n <= len (stamp ++ log1 ++ log2) /\ file = takez n (stamp ++ log1 ++ log2);
  dl_fits : len (stamp ++ log1 ++ log2) <= isize_max;
  dl_nosync : Forall nosync (removelast h2);
}.

(** The start of a batch of [h2], or their end. *)
Definition boundary (salt : option bytes) (kr : option Keyring) (start : Z) (st : Replaying)
    (h2 : list (entry (reader := reader))) (log2 : bytes) (x : Z) (a b : list entry) (la lb : bytes) : Prop :=
  h2 = a ++ b /\ log2 = la ++ lb /\ x = start + len la /\
  log_of salt kr start st a la /\ log_of salt kr x (replay_entries st a) b lb.

(** What a power cut may leave: the durable bytes, and behind them any bytes up
    to what was written, in which no batch reads back whole but where the writer
    put it. *)
Record crash_image (kr : option Keyring) (file : bytes) (durable : Z) (salt : option bytes) (stamp : bytes)
    (h1 h2 : list (entry (reader := reader))) (log1 log2 : bytes) (data : bytes) : Prop := {
  ci_durable : takez durable data = takez durable file;
  ci_len : durable <= len data <= len file;
  ci_batches : forall x b, durable <= x -> tail.batch_at data x = Ok (Some b) ->
    tail.batch_at (stamp ++ log1 ++ log2) x = Ok (Some b) /\
    exists a c la lc, boundary salt kr durable (replay_entries replay_start h1) h2 log2 x a c la lc;
}.

(** The offsets a walk over the batches of [file] from [x] passes. *)
Inductive batch_start (file : bytes) : Z -> Z -> Prop :=
| start_here x : batch_start file x x
| start_next x b y : tail.batch_at file x = Ok (Some b) -> batch_start file (batch_end b) y -> batch_start file x y.

(** What a power cut may leave of a file of which [durable] bytes are synced:
    those bytes, and behind them any bytes up to what was written. What the
    checksum is relied on for is the last field: a run of those bytes passes for a
    batch only where the writer put that very batch. *)
Record power_cut (file : bytes) (durable : Z) (data : bytes) : Prop := {
  pc_durable : takez durable data = takez durable file;
  pc_len : durable <= len data <= len file;
  pc_batches : forall x b, durable <= x -> tail.batch_at data x = Ok (Some b) ->
    tail.batch_at file x = Ok (Some b) /\ batch_start file durable x;
}.

(** The batch at a boundary is the next one written. *)
Lemma written_at kr file durable salt stamp h1 h2 log1 log2 x b a c la lc :
  disk_log kr file durable salt stamp h1 h2 log1 log2 ->
  boundary salt kr durable (replay_entries replay_start h1) h2 log2 x a c la lc ->
  tail.batch_at (stamp ++ log1 ++ log2) x = Ok (Some b) ->
  exists rs v c' body bb lc' id edits, c = (rs, v) :: c' /\ lc = bb ++ lc' /\ framed_batch body bb /\
    b = mkBatch body (x + len bb) /\ batch_edits salt kr x body = Ok (id, edits) /\
    decode_all (S (length edits)) edits 0 = Ok (map as_logged rs) /\
    boundary salt kr durable (replay_entries replay_start h1) h2 log2 (x + len bb) (a ++ [(rs, v)]) c' (la ++ bb) lc'.
Proof.
  intros D (Eh & El & Ex & Ha & Hc) Hw. pose proof (dl_durable _ _ _ _ _ _ _ _ _ D) as Hdur.
  pose proof (dl_fits _ _ _ _ _ _ _ _ _ D) as Hfit. set (whole := stamp ++ log1 ++ log2) in *.
  assert (Hrest : rest_at whole x lc).
  { exists (stamp ++ log1 ++ la). subst whole. rewrite El, <- !app_assoc. split; [done|]. rewrite !len_app. lia. }
  inversion Hc as [|? ? rs v body bb id edits c' lc' Hf He Hd Hk Hin Hs Hl]; subst c lc.
  - exfalso. destruct (batch_at_total whole x Hfit) as (found & Eo & Ho). rewrite Hw in Eo.
    injection Eo as <-. destruct (Ho b eq_refl) as [Hend _]. destruct (rest_at_len _ _ _ Hrest) as [_ Hlen].
    change (len (@nil byte)) with 0 in Hlen. unfold tail.FRAMING in Hend. lia.
  - rewrite (batch_at_framed whole x body bb lc') in Hw by done. injection Hw as <-.
    exists rs, v, c', body, bb, lc', id, edits. split_and!; try done.
    unfold boundary. split_and!; [by rewrite <- app_assoc..|rewrite len_app; lia| |].
    + apply log_of_app; [done|]. rewrite Ex in *. rewrite <- (app_nil_r bb). eapply log_cons; [done..|constructor].
    + rewrite replay_entries_app. done.
Qed.

Lemma batch_at_longer file t x b : len (file ++ t) <= isize_max -> tail.batch_at file x = Ok (Some b) ->
  tail.batch_at (file ++ t) x = Ok (Some b).
Proof.
  intros Hi Hb. assert (len file <= isize_max) by (rewrite len_app in Hi; pose proof (len_nonneg t); lia).
  destruct (batch_at_bytes file x b) as (bb & q & (p & Ep & Hp) & Hf & He); try done.
  rewrite (batch_at_framed _ x (batch_records b) bb (q ++ t)); try done; [by rewrite <- He; destruct b|].
  exists p. by rewrite Ep, <- !app_assoc.
Qed.

Lemma start_boundary kr file durable salt stamp h1 h2 log1 log2 x :
  disk_log kr file durable salt stamp h1 h2 log1 log2 -> batch_start file durable x ->
  exists a c la lc, boundary salt kr durable (replay_entries replay_start h1) h2 log2 x a c la lc.
Proof.
  intros D Hs. pose proof (dl_durable _ _ _ _ _ _ _ _ _ D) as Hdur.
  assert (H0 : exists a c la lc, boundary salt kr durable (replay_entries replay_start h1) h2 log2 durable a c la lc).
  { exists [], h2, [], log2. unfold boundary. split_and!; try done; [change (len (@nil byte)) with 0; lia|constructor|].
    cbn [replay_entries fold_left]. rewrite Hdur. apply (dl_log2 _ _ _ _ _ _ _ _ _ D). }
  cut (forall y, batch_start file y x -> (exists a c la lc, boundary salt kr durable (replay_entries replay_start h1) h2 log2 y a c la lc) ->
    exists a c la lc, boundary salt kr durable (replay_entries replay_start h1) h2 log2 x a c la lc); [eauto|].
  clear Hs H0. intros y Hy. induction Hy as [y|y b z Hb Hz IH]; [done|].
  intros (a & c & la & lc & Hbd). apply IH. destruct (dl_file _ _ _ _ _ _ _ _ _ D) as (n & Hn & Hf).
  pose proof (dl_fits _ _ _ _ _ _ _ _ _ D) as Hfit.
  assert (Hw : tail.batch_at (stamp ++ log1 ++ log2) y = Ok (Some b)).
  { rewrite <- (takez_dropz n (stamp ++ log1 ++ log2)), <- Hf. apply batch_at_longer; [|done].
    by rewrite Hf, takez_dropz. }
  destruct (written_at _ _ _ _ _ _ _ _ _ y b a c la lc D Hbd Hw) as
    (rs & v & c' & body & bb & lc' & id & edits & _ & _ & _ & -> & _ & _ & Hb').
  eauto.
Qed.

Lemma cut_image kr file durable salt stamp h1 h2 log1 log2 data :
  disk_log kr file durable salt stamp h1 h2 log1 log2 -> power_cut file durable data ->
  crash_image kr file durable salt stamp h1 h2 log1 log2 data.
Proof.
  intros D [Hd Hl Hb]. split; [done..|]. intros x b Hx Ex. destruct (Hb x b Hx Ex) as [Hf Hs].
  split; [|by apply (start_boundary kr file durable salt stamp h1 h2 log1 log2)]. destruct (dl_file _ _ _ _ _ _ _ _ _ D) as (n & Hn & En).
  pose proof (dl_fits _ _ _ _ _ _ _ _ _ D) as Hfit.
  rewrite <- (takez_dropz n (stamp ++ log1 ++ log2)), <- En. apply batch_at_longer; [|done]. by rewrite En, takez_dropz.
Qed.

Section Image.
Context (kr kr' : option Keyring) (file : bytes) (durable : Z) (salt : option bytes) (stamp : bytes)
  (h1 h2 : list (entry (reader := reader))) (log1 log2 : bytes) (data : bytes).
Hypothesis D : disk_log kr file durable salt stamp h1 h2 log1 log2.
Hypothesis C : crash_image kr file durable salt stamp h1 h2 log1 log2 data.
Hypothesis K : keys_kept salt kr kr'.

Let whole := stamp ++ log1 ++ log2.
Let st1 := replay_entries replay_start h1.

Lemma image_prefix : exists t, data = stamp ++ log1 ++ t.
Proof.
  destruct (dl_file _ _ _ _ _ _ _ _ _ D) as (n & Hn & Hf). pose proof (ci_durable _ _ _ _ _ _ _ _ _ _ C) as Hd.
  pose proof (dl_durable _ _ _ _ _ _ _ _ _ D) as Hdur.
  assert (Ht : takez durable file = stamp ++ log1).
  { rewrite Hf, Hdur. unfold takez. rewrite take_take, Nat.min_l by lia.
    fold (takez (len stamp + len log1) (stamp ++ log1 ++ log2)). rewrite app_assoc. apply takez_app. by rewrite len_app. }
  exists (dropz durable data). rewrite app_assoc, <- Ht, <- Hd. by rewrite takez_dropz.
Qed.

Lemma image_fits : len data <= len whole /\ len whole <= isize_max.
Proof.
  destruct (dl_file _ _ _ _ _ _ _ _ _ D) as (n & Hn & Hf). pose proof (ci_len _ _ _ _ _ _ _ _ _ _ C) as Hl.
  pose proof (dl_fits _ _ _ _ _ _ _ _ _ D). subst whole. split; [|done].
  rewrite Hf, len_takez in Hl; [lia|]. rewrite (dl_durable _ _ _ _ _ _ _ _ _ D) in Hn.
  pose proof (len_nonneg stamp). pose proof (len_nonneg log1). lia.
Qed.

(** A batch found whole at a boundary is the one written there. *)
Lemma found_is_written x b a c la lc :
  boundary salt kr durable st1 h2 log2 x a c la lc -> tail.batch_at data x = Ok (Some b) ->
  exists rs v c' body bb lc' id edits, c = (rs, v) :: c' /\ lc = bb ++ lc' /\ framed_batch body bb /\
    b = mkBatch body (x + len bb) /\ batch_edits salt kr' x body = Ok (id, edits) /\
    decode_all (S (length edits)) edits 0 = Ok (map as_logged rs) /\
    boundary salt kr durable st1 h2 log2 (x + len bb) (a ++ [(rs, v)]) c' (la ++ bb) lc'.
Proof.
  intros Hbd Hb. pose proof (dl_durable _ _ _ _ _ _ _ _ _ D) as Hdur.
  assert (Hx : durable <= x) by (destruct Hbd as (_ & _ & -> & _); pose proof (len_nonneg la); lia).
  destruct (ci_batches _ _ _ _ _ _ _ _ _ _ C x b Hx Hb) as [Hw _].
  destruct (written_at _ _ _ _ _ _ _ _ _ x b a c la lc D Hbd Hw) as
    (rs & v & c' & body & bb & lc' & id & edits & ? & ? & ? & ? & He & ? & ?).
  exists rs, v, c', body, bb, lc', id, edits. split_and!; try done. by apply (batch_edits_keys salt kr kr').
Qed.

(** The bytes found at a boundary are the ones written there. *)
Lemma found_bytes x body bb a c la lc :
  boundary salt kr durable st1 h2 log2 x a c la lc -> (exists t, data = (stamp ++ log1) ++ la ++ t) ->
  framed_batch body bb -> tail.batch_at data x = Ok (Some (mkBatch body (x + len bb))) ->
  exists t, data = (stamp ++ log1) ++ (la ++ bb) ++ t.
Proof.
  intros (_ & _ & Ex & _) [t Et] Hf Hb. destruct image_fits as [Hf1 Hf2]. pose proof (Z.le_trans _ _ _ Hf1 Hf2) as Hfd.
  destruct (batch_at_bytes data x _ Hfd Hb) as (bb' & q & (p & Ep & Hp) & Hf' & _). cbn in Hf'.
  rewrite (framed_batch_fun _ _ _ Hf' Hf) in Ep. rewrite Et, app_assoc in Ep.
  apply app_eq_len in Ep as [<- ->]; [|rewrite !len_app; pose proof (dl_durable _ _ _ _ _ _ _ _ _ D); lia].
  exists q. by rewrite Et, <- !app_assoc.
Qed.

(** Replay of what the power cut left ends at a boundary: the end of the file or
    the first batch that is not whole. *)
Lemma image_replay fuel x a c la lc keys :
  boundary salt kr durable st1 h2 log2 x a c la lc -> (exists t, data = (stamp ++ log1) ++ la ++ t) ->
  x <= len data -> (Z.to_nat (len data - x) < fuel)%nat ->
  exists x' e c' la' lc' keys', boundary salt kr durable st1 h2 log2 x' (a ++ e) c' la' lc' /\
    (exists t, data = (stamp ++ log1) ++ la' ++ t) /\
    replay_batches fuel data x salt kr' keys (replay_entries st1 a) = Ok (replay_entries st1 (a ++ e), x', keys') /\
    x' <= len data /\ (x' = len data \/ tail.batch_at data x' = Ok None).
Proof.
  revert x a c la lc keys. induction fuel as [|fuel IH]; intros x a c la lc keys Hb Hpre Hx Hf; [lia|].
  cbn [replay_batches]. destruct (Z.ltb_spec x (len data)) as [Hlt|Hge].
  - destruct image_fits as [Hf1 Hf2]. pose proof (Z.le_trans _ _ _ Hf1 Hf2) as Hfd.
    destruct (batch_at_total data x Hfd) as ([b|] & Eb & Hbe); rewrite Eb; run.
    + destruct (found_is_written x b a c la lc Hb Eb) as
        (rs & v & c' & body & bb & lc' & id & edits & Ec & Elc & Hfr & Ebb & He & Hd & Hb').
      subst b. cbn [batch_records batch_end]. rewrite He. run. rewrite (replay_batch_Ok _ _ _ _ _ Hd). run.
      destruct (Hbe _ eq_refl) as [Hend _]. cbn [batch_end] in Hend. unfold tail.FRAMING in Hend.
      destruct (IH (x + len bb) (a ++ [(rs, v)]) c' (la ++ bb) lc' (note_key keys id) Hb') as
        (x' & e & c'' & la' & lc'' & keys' & Hb'' & Hpre'' & Hr & Hx' & Hend');
        [by apply (found_bytes x body bb a c la lc)|lia..|].
      exists x', ((rs, v) :: e), c'', la', lc'', keys'. rewrite <- app_assoc in Hb'', Hr.
      split_and!; try done. rewrite replay_entries_app in Hr. exact Hr.
    + exists x, [], c, la, lc, keys. rewrite app_nil_r. split_and!; try done. by right.
  - exists x, [], c, la, lc, keys. rewrite app_nil_r. split_and!; try done. left. lia.
Qed.

Lemma removelast_In {B} (a c : list B) e : c <> [] -> e ∈ removelast (a ++ e :: c).
Proof.
  intros Hc. rewrite removelast_app by done. apply elem_of_app. right. destruct c; [done|]. by left.
Qed.

(** Nothing behind the damage proves it durable. *)
Lemma image_no_proof x y p : durable <= x -> x < y -> ~ proves_at data y (opener salt kr') p.
Proof.
  intros Hx Hy (b & Eb & Ep & Hp & Hn). destruct image_fits as [Hf1 _].
  destruct (ci_batches _ _ _ _ _ _ _ _ _ _ C y b ltac:(lia) Eb) as (_ & a & c & la & lc & Hb).
  destruct (found_is_written y b a c la lc Hb Eb) as
    (rs & v & c' & body & bb & lc' & id & edits & -> & Elc & Hfr & -> & He & Hd & Hb').
  cbn [batch_records batch_end] in *. rewrite (needs_sync_edits _ _ _ _ _ _ _ He Hd) in Hn. injection Hn as Hn.
  destruct c' as [|e' c'].
  - destruct Hb' as (_ & El & Ex & _ & Hl). inversion Hl as [? ? E1 E2 E3 E4|]. rewrite <- E4, app_nil_r in El. clear Hl E1 E2 E3 E4.
    pose proof (dl_durable _ _ _ _ _ _ _ _ _ D) as Hdur. subst whole. rewrite !len_app in Hf1. rewrite El in Hf1. lia.
  - pose proof (dl_nosync _ _ _ _ _ _ _ _ _ D) as Hns. destruct Hb as (-> & _).
    rewrite List.Forall_forall in Hns.
    specialize (Hns (rs, v) ltac:(apply list_elem_of_In, removelast_In; done)). unfold nosync in Hns. cbn in Hns.
    rewrite existsb_logged in Hn. congruence.
Qed.

(** The first pass over what the power cut left. *)
Lemma image_first_pass :
  exists x e c la lc keys t, boundary salt kr durable st1 h2 log2 x e c la lc /\
    data = (stamp ++ log1) ++ la ++ t /\
    replay_batches (S (length data)) data (len stamp) salt kr' [] replay_start =
      Ok (replay_entries replay_start (h1 ++ e), x, keys) /\
    x <= len data /\ (x = len data \/ tail.batch_at data x = Ok None).
Proof.
  pose proof (dl_durable _ _ _ _ _ _ _ _ _ D) as Hdur. destruct image_prefix as [t Et].
  destruct image_fits as [Hf1 Hf2]. pose proof (Z.le_trans _ _ _ Hf1 Hf2) as Hfd.
  pose proof (log_of_keys _ _ _ _ _ _ _ K (dl_log1 _ _ _ _ _ _ _ _ _ D)) as Hl1.
  pose proof (log_of_length _ _ _ _ _ _ Hl1) as Hlen. pose proof (ci_len _ _ _ _ _ _ _ _ _ _ C) as Hcl.
  pose proof (len_nonneg stamp). pose proof (len_nonneg log1).
  set (k := (S (length data) - length h1)%nat).
  destruct (replay_through salt kr' data (len stamp) replay_start h1 log1 t [] k Hfd Hl1) as [keys Hr].
  { exists stamp. done. }
  replace (length h1 + k)%nat with (S (length data)) in Hr by (unfold len in *; lia).
  destruct (image_replay k (len stamp + len log1) [] h2 [] log2 keys) as
    (x & e & c & la & lc & keys' & Hb & [t' Ht'] & Hrb & Hx & Hend).
  - unfold boundary. split_and!; try done; [rewrite <- Hdur; change (len (@nil byte)) with 0; lia|constructor|].
    apply (dl_log2 _ _ _ _ _ _ _ _ _ D).
  - exists t. by rewrite <- app_assoc.
  - lia.
  - subst k. unfold len in *. lia.
  - exists x, e, c, la, lc, keys', t'. split_and!; try done. rewrite Hr. cbn [app replay_entries fold_left] in Hrb.
    rewrite replay_entries_app. exact Hrb.
Qed.

End Image.
(** A version with the same tables and numbers follows the same log. *)
Lemma same_tables_inv st (v v' : Version reader) : replay_inv st v -> metas v' = metas v ->
  next_file_id v' = next_file_id v -> last_seq v' = last_seq v -> min_wal_id v' = min_wal_id v ->
  uncounted v' = uncounted v -> replay_inv st v'.
Proof.
  intros I Em E1 E2 E3 E4.
  assert (Hlen : length (levels v') = length (levels v)).
  { pose proof (f_equal length Em) as E. unfold metas in E. by rewrite !length_map in E. }
  assert (Hlook : forall i fs', levels v' !! i = Some fs' -> exists fs, levels v !! i = Some fs /\ map meta fs' = map meta fs).
  { intros i fs' Hi. assert (Hm : metas v' !! i = Some (map meta fs')) by (unfold metas; by rewrite list_lookup_fmap, Hi).
    rewrite Em in Hm. unfold metas in Hm. rewrite list_lookup_fmap in Hm. destruct (levels v !! i) as [fs|]; [|done].
    exists fs. split; [done|]. by injection Hm as ->. }
  split; try apply I; rewrite ?E1, ?E2, ?E3, ?E4, ?Hlen, ?Em; try apply I.
  - intros i files fs' Hs (fs & Hv & ->)%Hlook. by apply (ri_levels _ _ I).
  - intros id Hid. destruct (ri_counts _ _ I id Hid) as (i & fs & f & Hv & Hf & <-). exists i.
    destruct (lookup_lt_is_Some_2 (levels v') i) as [fs' Hv'].
    { rewrite Hlen. by apply lookup_lt_Some in Hv. }
    destruct (Hlook i fs' Hv') as (fs0 & Hv0 & Em'). rewrite Hv in Hv0. injection Hv0 as <-.
    assert (meta f ∈ map meta fs') as (f' & Ef & Hf')%list_elem_of_fmap.
    { rewrite Em'. apply list_elem_of_fmap. eauto. }
    exists fs', f'. split_and!; try done. by rewrite <- Ef.
Qed.

(** The log of a version that is opened afresh. *)
Lemma log_reopened salt kr o st (v0 : Version reader) (h : list (entry (reader := reader))) bs v' : log_of salt kr o st h bs ->
  replay_inv (replay_entries st h) v' -> levels_are_sorted_runs v' = true -> h <> [] ->
  exists h', log_of salt kr o st h' bs /\ replay_entries st h' = replay_entries st h /\ last_version v0 h' = v'.
Proof.
  intros Hl I Hr Hne. destruct (exists_last Hne) as (a & [rs v] & ->).
  destruct (log_of_split _ _ _ _ _ _ _ Hl) as (b1 & b2 & -> & Ha & Hb).
  inversion Hb as [|? ? ? ? body b id edits ? bs' Hf He Hd Hk Hi Hs Hn]; subst. inversion Hn; subst.
  rewrite replay_entries_app in I. cbn in I.
  exists (a ++ [(rs, v')]). split_and!.
  - apply log_of_app; [done|]. eapply log_cons; [done..|constructor].
  - by rewrite !replay_entries_app.
  - unfold last_version. by rewrite fold_left_app.
Qed.

Lemma runs_metas (v v' : Version reader) : metas v' = metas v -> levels_are_sorted_runs v' = levels_are_sorted_runs v.
Proof. intros E. unfold levels_are_sorted_runs. by rewrite (find_overlap_metas v v' E). Qed.

Lemma with_next_raised (v0 v : Version reader) highest : levels v = levels v0 -> last_seq v = last_seq v0 ->
  min_wal_id v = min_wal_id v0 -> uncounted v = uncounted v0 -> next_file_id v = next_file_id v0 ->
  is_u64 (next_file_id v0) -> raised v0 (with_next_id v highest).
Proof.
  intros E1 E2 E3 E4 E5 Hu. unfold raised, with_next_id, next_id_past_tables. cbn. rewrite E5.
  split_and!; try done; destruct highest as [id|]; try lia; try done. unfold is_u64, U64_MAX in *. lia.
Qed.

Lemma map_empties {B D} (f : B -> D) n ls : map (map f) ls = replicate n [] -> ls = replicate n [].
Proof.
  revert n. induction ls as [|fs ls IH]; intros [|n] E; try done. injection E as E1 E2. cbn. f_equal; [by destruct fs|by apply IH].
Qed.

Lemma empty_metas (v : Version reader) : metas v = no_levels -> levels v = no_levels.
Proof. apply (map_empties meta 7). Qed.

(** An open that reads a log through, and drops what is behind it. *)
Section Reads.
Context (kr : option Keyring) (salt : option bytes) (stamp : bytes) (h : list (entry (reader := reader)))
  (log t : bytes) (keys : list Z).
Context (open_table : SsTableMeta -> outcome reader) (range_tombstones : reader -> list RangeTombstone).
Let data := stamp ++ log ++ t.
Hypothesis Hsalt : salt_ok salt.
Hypothesis Hstamp : VersionSetBytes.stamp_bytes salt = Ok stamp.
Hypothesis Hkey : forall k, kr = Some k -> is_u32 (provider_current k).
Hypothesis Hseal : kr = None <-> salt = None.
Hypothesis Hlog : log_of salt kr (len stamp) replay_start h log.
Hypothesis Hfit : addressable data.
Hypothesis Hpass : replay_batches (S (length data)) data (len stamp) salt kr [] replay_start =
  Ok (replay_entries replay_start h, len stamp + len log, keys).
Hypothesis Hend : forall y p, len stamp + len log < y -> ~ proves_at data y (opener salt kr) p.
Hypothesis Hopen : forall m, m ∈ List.concat (metas (last_version version_new h)) -> exists r, open_table m = Ok r.

Lemma reads_replay : exists v', reopened open_table (last_version version_new h) v' /\
  replay_manifest open_table range_tombstones data kr =
  Ok (mkManifestReplay v' (len stamp + len log) (len stamp) salt keys legacy_overlap.repair_default None
        (r_checked (replay_entries replay_start h))).
Proof.
  destruct (log_of_inv _ _ _ replay_start version_new _ _ (empty_inv false 1 0 0) eq_refl Hlog) as [I Hr].
  destruct (finish_follows open_table _ _ I Hr Hopen) as (v' & Ef & Hro). exists v'. split; [done|].
  assert (Es : VersionSetBytes.stamp_len data kr = Ok (len stamp, salt)).
  { unfold data. rewrite (stamp_len_whole salt kr stamp (log ++ t) Hsalt Hstamp). clear - Hseal.
    destruct salt, kr; try done. discriminate (proj1 Hseal eq_refl). }
  unfold replay_manifest. rewrite Es. run. rewrite Hpass. run. rewrite Ef. run. done.
Qed.

Lemma reads_judge (v' : Version reader) repair dem checked suspects :
  judge_end (mkManifestReplay v' (len stamp + len log) (len stamp) salt keys repair dem checked) data suspects kr =
  Ok (match t with [] => None | _ => Some (mkDroppedTail (len stamp + len log) (len t)) end).
Proof.
  unfold judge_end. cbn [mr_stamp_len mr_valid_len mr_salt]. destruct (stamp_bytes_Ok salt Hsalt) as (st & Est & Hs).
  rewrite Hstamp in Est. injection Est as <-. destruct (Z.eqb_spec (len stamp) 0) as [E|_].
  { exfalso. rewrite E in Hs. by destruct salt. }
  assert (Hl : len data = len stamp + len log + len t) by (subst data; rewrite !len_app; lia). rewrite Hl.
  destruct t as [|y t']; [change (len (@nil byte)) with 0; rewrite Z.add_0_r, Z.eqb_refl; done|].
  pose proof (len_nonneg t'). assert (0 < len (y :: t')) by (rewrite len_cons; lia).
  pose proof (len_nonneg stamp). pose proof (len_nonneg log).
  destruct (Z.eqb_spec (len stamp + len log) (len stamp + len log + len (y :: t'))); [lia|].
  rewrite (judge_drops data _ _ Hfit); [run|lia|done]. do 3 f_equal. lia.
Qed.

(** The set the open returns. Of a file it reads to the end it knows [durable]
    bytes synced, and syncs none; one it cuts it syncs. *)
Definition read_set (v' : Version reader) (highest : option Z) (checked : bool) (durable : Z) : VersionSet reader :=
  mkVersionSet (with_next_id v' highest) (len stamp + len log) true
    (match t with [] => None | _ => Some (mkDroppedTail (len stamp + len log) (len t)) end) kr
    (match kr, salt with Some k, Some salt => Some (mkManifestSeal k salt) | _, _ => None end) keys None
    (if checked then [] else [RangeDeletesChecked]) checked (negb checked)
    (mkDisk (stamp ++ log) durable None).

Lemma reads_open durable suspects highest stamp_draw salt_draw draw rio :
  exists v', reopened open_table (last_version version_new h) v' /\
  open_with_policy open_table range_tombstones (Some (data, durable)) kr suspects highest stamp_draw salt_draw draw rio =
  Ok (read_set v' highest (r_checked (replay_entries replay_start h))
        (match t with [] => durable | _ => len stamp + len log end)).
Proof.
  destruct reads_replay as (v' & Hro & Er). exists v'. split; [done|]. unfold open_with_policy. rewrite Er. run.
  rewrite reads_judge. run. cbn [mr_stamp_len mr_valid_len mr_salt mr_version mr_checked mr_key_ids mr_demotion mr_repair].
  assert (Hd : (if len stamp + len log <? len data then mkDisk (takez (len stamp + len log) data) (len stamp + len log) None
    else mkDisk data durable None) = mkDisk (stamp ++ log) (match t with [] => durable | _ => len stamp + len log end) None).
  { assert (Hl : len data = len stamp + len log + len t) by (unfold data; rewrite !len_app; lia). rewrite Hl.
    destruct (Z.ltb_spec (len stamp + len log) (len stamp + len log + len t)).
    - unfold data. rewrite app_assoc, takez_app by (rewrite len_app; lia). destruct t; [change (len (@nil byte)) with 0 in *; lia|done].
    - unfold data. destruct t as [|y t']; [|rewrite len_cons in *; pose proof (len_nonneg t'); lia]. by rewrite app_nil_r. }
  rewrite Hd. destruct (stamp_bytes_Ok salt Hsalt) as (st & Est & Hs). rewrite Hstamp in Est. injection Est as <-.
  assert (0 < len stamp) by (rewrite Hs; by destruct salt).
  destruct (Z.eqb_spec (len stamp) 0); [lia|]. destruct (Z.ltb_spec 0 (len stamp)); [|lia].
  unfold open_finish, read_set. cbn [legacy_overlap.records legacy_overlap.repair_default app andb]. clear - Hseal.
  destruct kr, salt; cbn; try done; [discriminate (proj2 Hseal eq_refl)|discriminate (proj1 Hseal eq_refl)].
Qed.

Lemma reads_live v' highest : reopened open_table (last_version version_new h) v' ->
  exists h', replay_entries replay_start h' = replay_entries replay_start h /\
    vs_live (read_set v' highest (r_checked (replay_entries replay_start h)) (len stamp + len log)) stamp h' [] log [].
Proof.
  intros [Em E1 E2 E3 E4 _].
  destruct (log_of_inv _ _ _ replay_start version_new _ _ (empty_inv false 1 0 0) eq_refl Hlog) as [I Hr].
  pose proof (log_of_ok _ _ _ _ _ _ Hlog replay_start_ok) as (_ & Hn & _). rewrite (ri_next _ _ I) in Hn.
  assert (exists h', log_of salt kr (len stamp) replay_start h' log /\
    replay_entries replay_start h' = replay_entries replay_start h /\
    raised (last_version version_new h') (with_next_id v' highest)) as (h' & Hl' & Er & Hra).
  { destruct (decide (length h = 0%nat)) as [->%nil_length_inv|Hne].
    - exists []. split_and!; [done..|]. apply with_next_raised; try done. by apply empty_metas.
    - destruct (log_reopened _ _ _ _ version_new _ _ v' Hlog) as (h' & Hl' & Er & Ev); [| |by intros ->|].
      + by apply (same_tables_inv _ (last_version version_new h)).
      + by rewrite (runs_metas _ _ Em).
      + exists h'. split_and!; try done. rewrite Ev. apply with_next_raised; try done. by rewrite E1. }
  assert (Hvs : forall c d, vs_salt (read_set v' highest c d) = salt).
  { intros c d. unfold vs_salt. cbn. clear - Hseal. destruct kr, salt; try done; discriminate (proj1 Hseal eq_refl). }
  exists h'. split; [done|]. split; rewrite ?Hvs; cbn; rewrite ?app_nil_r; try done.
  - intros sl. clear - Hseal. destruct kr, salt; try done. by intros [= <-].
  - constructor.
  - by rewrite len_app.
  - destruct Hfit as [Hf _]. unfold data in Hf. rewrite !len_app in *. pose proof (len_nonneg t). lia.
  - by rewrite Er.
  - destruct (r_checked _); [by left|by right].
Qed.

End Reads.

(** An open after a power cut reads what was durable, and of what was not a
    first part of the batches. *)
Lemma cut_opens open_table range_tombstones kr kr' file durable salt stamp h1 h2 log1 log2 data suspects highest
    stamp_draw salt_draw draw rio :
  disk_log kr file durable salt stamp h1 h2 log1 log2 -> power_cut file durable data -> keys_kept salt kr kr' ->
  (kr' = None <-> salt = None) -> (forall k, kr' = Some k -> is_u32 (provider_current k)) -> addressable data ->
  (forall e c, h2 = e ++ c -> forall m, m ∈ List.concat (metas (last_version version_new (h1 ++ e))) ->
     exists r, open_table m = Ok r) ->
  exists e c vs' v' h log, h2 = e ++ c /\
    open_with_policy open_table range_tombstones (Some (data, len data)) kr' suspects highest stamp_draw salt_draw draw rio
      = Ok vs' /\
    vs_live vs' stamp h [] log [] /\ reopened open_table (last_version version_new (h1 ++ e)) v' /\
    current vs' = with_next_id v' highest /\ keyring vs' = kr' /\ vs_salt vs' = salt.
Proof.
  intros D P K Hs Hk Ha Hop. pose proof (cut_image _ _ _ _ _ _ _ _ _ _ D P) as C.
  destruct (image_first_pass kr kr' file durable salt stamp h1 h2 log1 log2 data D C K) as
    (x & e & c & la & lc & keys & t & Hb & Ed & Hp & Hx & Hend).
  destruct Hb as (Eh & El & Ex & Hla & _). pose proof (dl_durable _ _ _ _ _ _ _ _ _ D) as Hdur.
  pose proof (len_nonneg la).
  assert (Hlog : log_of salt kr' (len stamp) replay_start (h1 ++ e) (log1 ++ la)).
  { apply (log_of_keys salt kr kr' _ _ _ _ K). apply log_of_app; [apply (dl_log1 _ _ _ _ _ _ _ _ _ D)|]. by rewrite <- Hdur. }
  assert (Ed' : data = stamp ++ (log1 ++ la) ++ t) by (by rewrite Ed, <- !app_assoc).
  assert (Ex' : x = len stamp + len (log1 ++ la)) by (rewrite len_app; lia). clear Ed. subst data x. rewrite Ex' in *.
  assert (Hno : forall y p, len stamp + len (log1 ++ la) < y -> ~ proves_at (stamp ++ (log1 ++ la) ++ t) y (opener salt kr') p).
  { intros y p Hy. apply (image_no_proof kr kr' file durable salt stamp h1 h2 log1 log2 _ D C K
      (len stamp + len (log1 ++ la)) y p); [rewrite len_app; lia|done]. }
  destruct (reads_open kr' salt stamp (h1 ++ e) (log1 ++ la) t keys open_table range_tombstones (dl_salt _ _ _ _ _ _ _ _ _ D)
    (dl_stamp _ _ _ _ _ _ _ _ _ D) Hs Hlog Ha Hp Hno (Hop e c Eh) (len (stamp ++ (log1 ++ la) ++ t)) suspects highest stamp_draw salt_draw draw rio)
    as (v' & Hro & Eo).
  replace (match t with [] => len (stamp ++ (log1 ++ la) ++ t) | _ => len stamp + len (log1 ++ la) end)
    with (len stamp + len (log1 ++ la)) in Eo by (destruct t; [by rewrite app_nil_r, !len_app|done]).
  destruct (reads_live kr' salt stamp (h1 ++ e) (log1 ++ la) t keys open_table (dl_salt _ _ _ _ _ _ _ _ _ D)
    (dl_stamp _ _ _ _ _ _ _ _ _ D) Hk Hs Hlog Ha Hp (Hop e c Eh) v' highest Hro) as (h' & _ & Hlive).
  eexists e, c, _, v', h', (log1 ++ la). split_and!; try done.
  unfold vs_salt. cbn. destruct kr', salt; try done. discriminate (proj1 Hs eq_refl).
Qed.

End Crash.

(** ** A manifest's life *)

Section Life.
Context `{T : Target} `{XL : Xxh3Laws} `{AL : AeadLaws} {reader : Type}.

(** The same tables, numbers and counts; the next file id is left to
    [next_id_past_tables]. *)
Record same_view (v v' : Version reader) : Prop := {
  sv_metas : metas v' = metas v;
  sv_seq : last_seq v' = last_seq v;
  sv_wal : min_wal_id v' = min_wal_id v;
  sv_uncounted : uncounted v' = uncounted v;
}.

#[export] Instance same_view_equiv : Equivalence same_view.
Proof.
  split.
  - intros v. by split.
  - intros v w []. by split.
  - intros u v w [] []. split; congruence.
Qed.

Lemma raised_view v0 v : raised v0 v -> same_view v0 v.
Proof. intros (E & ? & ? & ? & _). split; try done. unfold metas. by rewrite E. Qed.

Lemma reopened_view open_table v v' highest : reopened open_table v v' -> same_view v (with_next_id v' highest).
Proof. intros []. by split. Qed.

(** Whatever part of [h2] survives, the version is one of [cands]. *)
Definition covers (cands : list (Version reader)) (h1 h2 : list entry) : Prop :=
  forall e c, h2 = e ++ c -> exists v, v ∈ cands /\ same_view v (last_version version_new (h1 ++ e)).

Definition recoverable (kr : option Keyring) (cands : list (Version reader)) (file : bytes) (durable : Z) : Prop :=
  exists salt stamp h1 h2 log1 log2, disk_log kr file durable salt stamp h1 h2 log1 log2 /\
    (kr = None <-> salt = None) /\ covers cands h1 h2.

Record vs_inv (vs : VersionSet reader) (cands : list (Version reader)) : Prop := {
  iv_key : forall k, keyring vs = Some k -> is_u32 (provider_current k);
  iv_disk : recoverable (keyring vs) cands (d_file (disk vs)) (d_durable (disk vs));
  iv_old : forall file durable, d_old (disk vs) = Some (file, durable) -> recoverable (keyring vs) cands file durable;
  iv_live : manifest_writer vs = true -> exists stamp h1 h2 log1 log2, vs_live vs stamp h1 h2 log1 log2 /\
    covers cands h1 h2 /\ (keyring vs = None <-> vs_salt vs = None);
}.

Lemma covers_mono cands cands' h1 h2 : (forall v, v ∈ cands -> v ∈ cands') -> covers cands h1 h2 -> covers cands' h1 h2.
Proof. intros Hc H e c He. destruct (H e c He) as (v & Hv & Hs). eauto. Qed.

Lemma covers_one v h : same_view v (last_version version_new h) -> covers [v] h [].
Proof. intros Hv e c [-> ->]%eq_sym%app_nil. exists v. rewrite app_nil_r. split; [by left|done]. Qed.

Lemma covers_snoc cands v h1 h2 e : covers cands h1 h2 -> same_view v (last_version version_new (h1 ++ h2 ++ [e])) ->
  covers (cands ++ [v]) h1 (h2 ++ [e]).
Proof.
  intros Hc Hv a c E. destruct (decide (length c = 0%nat)) as [->%nil_length_inv|Hne].
  - rewrite app_nil_r in E. subst a. exists v. split; [apply elem_of_app; right; by left|done].
  - destruct (exists_last (l := c)) as (c' & x & ->); [by intros ->|]. rewrite app_assoc in E.
    apply app_inj_tail in E as [-> _]. destruct (Hc a c' eq_refl) as (w & Hw & Hs). exists w.
    split; [apply elem_of_app; by left|done].
Qed.

Lemma removelast_Forall {B} (P : B -> Prop) l : Forall P l -> Forall P (removelast l).
Proof. induction 1 as [|x l Hx Hl IH]; [constructor|]. cbn. destruct l; constructor; done. Qed.

Lemma live_recoverable vs stamp h1 h2 log1 log2 cands :
  vs_live vs stamp h1 h2 log1 log2 -> covers cands h1 h2 -> (keyring vs = None <-> vs_salt vs = None) ->
  recoverable (keyring vs) cands (d_file (disk vs)) (d_durable (disk vs)).
Proof.
  intros L Hc Hk. exists (vs_salt vs), stamp, h1, h2, log1, log2. split_and!; try done.
  pose proof (vl_disk _ _ _ _ _ _ L) as Hdisk. rewrite Hdisk. cbn [d_file d_durable].
  destruct L. split; try done; [|by apply removelast_Forall].
  exists (len (stamp ++ log1 ++ log2)). rewrite !len_app, takez_all by (rewrite !len_app; lia).
  pose proof (len_nonneg log2). split; [lia|done].
Qed.

Lemma live_inv_set vs stamp h1 h2 log1 log2 cands :
  vs_live vs stamp h1 h2 log1 log2 -> covers cands h1 h2 -> (keyring vs = None <-> vs_salt vs = None) -> vs_inv vs cands.
Proof.
  intros L Hc Hk. split.
  - apply (vl_key _ _ _ _ _ _ L).
  - by apply (live_recoverable _ stamp h1 h2 log1 log2).
  - rewrite (vl_disk _ _ _ _ _ _ L). done.
  - intros _. by exists stamp, h1, h2, log1, log2.
Qed.

Lemma recoverable_mono kr cands cands' file durable : (forall v, v ∈ cands -> v ∈ cands') ->
  recoverable kr cands file durable -> recoverable kr cands' file durable.
Proof.
  intros Hc (salt & stamp & h1 & h2 & log1 & log2 & D & Hk & Hcov). exists salt, stamp, h1, h2, log1, log2.
  split_and!; try done. by apply (covers_mono cands).
Qed.

(** The version in memory is one that survives. *)
Lemma live_covered vs stamp h1 h2 log1 log2 cands : vs_live vs stamp h1 h2 log1 log2 -> covers cands h1 h2 ->
  exists v, v ∈ cands /\ same_view v (current vs).
Proof.
  intros L Hc. destruct (Hc h2 []) as (v & Hv & Hs); [by rewrite app_nil_r|]. exists v. split; [done|].
  rewrite Hs. apply raised_view. apply (vl_current _ _ _ _ _ _ L).
Qed.

(** A rewrite stops where the host fails it. *)
Lemma compact_cases (vs : VersionSet reader) salt_draw draw io vs' r :
  manifest_writer vs = true -> compact_manifest vs salt_draw draw io = (vs', r) ->
  vs' = vs /\ r <> Ok () \/
  exists vs2, compact_manifest vs salt_draw draw Rewritten = (vs2, Ok ()) /\
    match io with
    | Rewritten => vs' = vs2
    | TmpFailed => vs' = vs /\ r <> Ok ()
    | RenameFailed => vs' = with_writer vs false (disk vs) /\ r <> Ok ()
    | DirSyncFailed => vs' = with_writer vs false (mkDisk (d_file (disk vs2)) (d_durable (disk vs2))
                               (Some (d_file (disk vs), d_durable (disk vs)))) /\ r <> Ok ()
    | ReopenFailed => vs' = with_writer vs2 false (disk vs2) /\ r <> Ok ()
    end.
Proof.
  intros Hw. unfold compact_manifest. rewrite Hw. cbn [negb].
  destruct (_ ← VersionSetBytes.fresh_sealing _ _; _) as [[[sl image] under]| | |]; try (intros [= <- <-]; by left).
  intros H. right. eexists. split; [done|]. destruct io; injection H as <- <-; done.
Qed.

Definition settled (vs : VersionSet reader) : bool :=
  manifest_writer vs && (d_durable (disk vs) =? len (d_file (disk vs))).

(** The versions a power cut may leave once a rewrite returned, and once an
    apply of [es] did, given the ones it might have left before. *)
Definition survivors_rewrite (vs' : VersionSet reader) (cands : list (Version reader)) : list (Version reader) :=
  if settled vs' then [current vs'] else cands.
Definition attempted (vs : VersionSet reader) (es : list (VersionEdit reader)) (draw : outcome bytes) : bool :=
  manifest_writer vs &&
  match validate_edits es,
    VersionSetBytes.encode_records (edits_records es (unlogged vs)) (manifest_bytes vs) (sealing vs) draw with
  | Ok _, Ok _ => true
  | _, _ => false
  end.
Definition survivors (vs : VersionSet reader) (es : list (VersionEdit reader)) (draw : outcome bytes)
    (vs' : VersionSet reader) (cands : list (Version reader)) : list (Version reader) :=
  if settled vs' then [current vs']
  else if attempted vs es draw then cands ++ [fold_left apply_edit es (current vs)] else cands.

(** An apply fails before it writes, fails while it writes, or writes. *)
Lemma apply_cases (vs : VersionSet reader) es draw io salt_draw rewrite_draw rio vs' r :
  manifest_writer vs = true -> apply vs es draw io salt_draw rewrite_draw rio = (vs', r) ->
  vs' = vs /\ r <> Ok () \/ attempted vs es draw = true /\
  exists encoded under,
    VersionSetBytes.encode_records (edits_records es (unlogged vs)) (manifest_bytes vs) (sealing vs) draw
      = Ok (encoded, under) /\
    ((exists landed, vs' = with_writer (with_unlogged vs []) false
        (mkDisk (d_file (disk vs) ++ takez landed encoded) (d_durable (disk vs)) (d_old (disk vs))) /\ r <> Ok ()) \/
     vs' = appended vs es encoded under /\ r = Ok () \/
     compact_manifest (appended vs es encoded under) salt_draw rewrite_draw rio = (vs', r)).
Proof.
  intros Hw. unfold apply, attempted. rewrite Hw. destruct (validate_edits es) as [u| | |]; try (intros [= <- <-]; by left).
  destruct (VersionSetBytes.encode_records _ _ _ _) as [[encoded under]| | |] eqn:He; try (intros [= <- <-]; by left).
  - cbn [negb andb]. intros H. right. split; [done|]. exists encoded, under. split; [done|]. destruct io as [|landed].
    + right. destruct (_ || (_ <? _)); [by right|]. injection H as <- <-. by left.
    + left. exists landed. by injection H as <- <-.
  - intros [= <- <-]. left. split; [by destruct vs|done].
Qed.

(** Once everything is durable only the version in memory is left. *)
Lemma settled_one vs stamp h1 h2 log1 log2 :
  vs_live vs stamp h1 h2 log1 log2 -> settled vs = true -> h2 = [] /\ covers [current vs] h1 h2.
Proof.
  intros L Hs. assert (E : h2 = []).
  { unfold settled in Hs. rewrite (vl_writer _ _ _ _ _ _ L), (vl_disk _ _ _ _ _ _ L) in Hs. cbn in Hs.
    apply Z.eqb_eq in Hs. rewrite !len_app in Hs. pose proof (log_of_length _ _ _ _ _ _ (vl_log2 _ _ _ _ _ _ L)).
    destruct h2; [done|]. cbn [length] in *. lia. }
  split; [done|]. subst h2. pose proof (vl_current _ _ _ _ _ _ L) as Hc. rewrite app_nil_r in Hc.
  apply covers_one. symmetry. by apply raised_view.
Qed.

Lemma live_settled vs stamp h1 log1 log2 : vs_live vs stamp h1 [] log1 log2 -> settled vs = true.
Proof.
  intros L. unfold settled. rewrite (vl_writer _ _ _ _ _ _ L), (vl_disk _ _ _ _ _ _ L). cbn.
  apply Z.eqb_eq. pose proof (vl_log2 _ _ _ _ _ _ L) as Hl. inversion Hl; subst. by rewrite app_nil_r, len_app.
Qed.

Lemma inv_settled vs cands : vs_inv vs cands -> vs_inv vs (survivors_rewrite vs cands).
Proof.
  intros I. unfold survivors_rewrite. destruct (settled vs) eqn:Hs; [|done].
  assert (Hw : manifest_writer vs = true) by (unfold settled in Hs; by destruct (manifest_writer vs)).
  destruct (iv_live _ _ I Hw) as (stamp & h1 & h2 & log1 & log2 & L & _ & Hk).
  apply (live_inv_set vs stamp h1 h2 log1 log2); [done| |done]. by apply (settled_one _ stamp h1 h2 log1 log2).
Qed.

(** A rewrite leaves the old manifest, the new one, or either of them. *)
Lemma compact_inv vs cands salt_draw draw io vs' r :
  vs_inv vs cands -> salt_draw_ok salt_draw -> nonce_draw draw -> compact_manifest vs salt_draw draw io = (vs', r) ->
  (forall vs2, compact_manifest vs salt_draw draw Rewritten = (vs2, Ok ()) -> len (d_file (disk vs2)) <= isize_max) ->
  vs_inv vs' (survivors_rewrite vs' cands) /\ (r = Ok () -> settled vs' = true /\ current vs' = current vs).
Proof.
  intros I Hsd Hnd Hc Hfit. destruct (manifest_writer vs) eqn:Hw.
  2:{ unfold compact_manifest in Hc. rewrite Hw in Hc. injection Hc as <- <-. split; [by apply inv_settled|done]. }
  destruct (compact_cases _ _ _ _ _ _ Hw Hc) as [[-> Hr]|(vs2 & E2 & Hio)]; [split; [by apply inv_settled|done]|].
  destruct (iv_live _ _ I Hw) as (stamp & h1 & h2 & log1 & log2 & L & Hcov & Hk).
  destruct (live_covered _ _ _ _ _ _ _ L Hcov) as (v & Hv & Hsv).
  destruct (rewritten_live _ _ _ _ _ _ _ _ _ L Hsd Hnd E2 (Hfit _ E2)) as (stamp' & e & log & L2 & He & Hcur & Hkr & Hk2).
  assert (Hcov2 : covers cands [e] []).
  { apply (covers_mono [v]); [by intros w ->%list_elem_of_singleton|]. apply covers_one. cbn. by rewrite He. }
  pose proof (live_recoverable _ _ _ _ _ _ _ L2 Hcov2 Hk2) as R2.
  pose proof (live_inv_set _ _ _ _ _ _ _ L2 Hcov2 Hk2) as I2. pose proof (iv_disk _ _ I) as R.
  destruct io; [subst vs'|destruct Hio as [-> Hr]..]; (split; [|try done]).
  - by apply inv_settled.
  - intros _. split; [by apply (live_settled _ stamp' [e] log [])|done].
  - by apply inv_settled.
  - apply inv_settled. split; try done; apply I.
  - apply inv_settled. split; try done; [apply I|by rewrite Hkr in R2|by intros file n [= <- <-]].
  - apply inv_settled. split; try done; apply I2.
Qed.

Lemma inv_mono vs cands cands' : (forall v, v ∈ cands -> v ∈ cands') -> vs_inv vs cands -> vs_inv vs cands'.
Proof.
  intros Hc [H1 H2 H3 H4]. split; [done|by apply (recoverable_mono _ cands)| |].
  - intros file n E. apply (recoverable_mono _ cands); eauto.
  - intros Hw. destruct (H4 Hw) as (stamp & h1 & h2 & log1 & log2 & L & Hcov & Hk).
    exists stamp, h1, h2, log1, log2. split_and!; try done. by apply (covers_mono cands).
Qed.

Lemma survivors_more vs es draw (vs' : VersionSet reader) cands cands1 : attempted vs es draw = true ->
  (forall v, v ∈ cands1 -> v ∈ cands ++ [fold_left apply_edit es (current vs)]) ->
  vs_inv vs' (survivors_rewrite vs' cands1) -> vs_inv vs' (survivors vs es draw vs' cands).
Proof.
  intros Ha Hc I. unfold survivors. rewrite Ha. unfold survivors_rewrite in I. destruct (settled vs'); [done|].
  by apply (inv_mono _ cands1).
Qed.

(** What an apply may assume of its caller and of the host. *)
Record apply_step (vs : VersionSet reader) (es : list (VersionEdit reader)) (draw salt_draw rewrite_draw : outcome bytes)
  : Prop := {
  as_ok : apply_ok vs es draw;
  as_salt : salt_draw_ok salt_draw;
  as_rewrite : nonce_draw rewrite_draw;
  as_fits : forall encoded under,
    VersionSetBytes.encode_records (edits_records es (unlogged vs)) (manifest_bytes vs) (sealing vs) draw
      = Ok (encoded, under) -> len (d_file (disk vs) ++ encoded) <= isize_max;
  as_rewrite_fits : forall encoded under vs2,
    VersionSetBytes.encode_records (edits_records es (unlogged vs)) (manifest_bytes vs) (sealing vs) draw
      = Ok (encoded, under) ->
    compact_manifest (appended vs es encoded under) salt_draw rewrite_draw Rewritten = (vs2, Ok ()) ->
    len (d_file (disk vs2)) <= isize_max;
}.

(** The state behind a batch that reached the host. *)
Lemma appended_inv vs cands es draw encoded under :
  vs_inv vs cands -> manifest_writer vs = true -> apply_ok vs es draw ->
  VersionSetBytes.encode_records (edits_records es (unlogged vs)) (manifest_bytes vs) (sealing vs) draw = Ok (encoded, under) ->
  len (d_file (disk vs) ++ encoded) <= isize_max ->
  let vs' := appended vs es encoded under in
  vs_inv vs' (survivors_rewrite vs' (cands ++ [current vs'])) /\
  (existsb ManifestRecord.requires_sync (edits_records es (unlogged vs)) = true -> settled vs' = true).
Proof.
  intros I Hw Hao He Hfit vs'. destruct (iv_live _ _ I Hw) as (stamp & h1 & h2 & log1 & log2 & L & Hcov & Hk).
  destruct (appended_live _ _ _ _ _ _ _ _ _ _ L Hao He Hfit) as (h1' & h2' & log1' & log2' & L' & Hh & Hs).
  fold vs' in L'. assert (Hk' : keyring vs' = None <-> vs_salt vs' = None) by done.
  pose proof (raised_view _ _ (vl_current _ _ _ _ _ _ L')) as Hra.
  assert (Hcov' : covers (cands ++ [current vs']) h1' h2').
  { destruct Hh as [-> |[-> [[Ee ->] | [e ->]]]].
    - apply (covers_mono [current vs']); [intros v Hv; apply elem_of_app; by right|]. apply covers_one.
      rewrite app_nil_r in Hra. by symmetry.
    - apply (covers_mono cands); [|done]. intros v Hv. apply elem_of_app. by left.
    - apply covers_snoc; [done|]. by symmetry. }
  split; [by apply inv_settled, (live_inv_set _ stamp h1' h2' log1' log2')|].
  intros Hreq. rewrite (Hs Hreq) in L'. by apply (live_settled _ stamp h1' log1' log2').
Qed.

(** The state behind an append that failed: any first part of the batch may be
    with the host. *)
Lemma append_failed_inv vs cands es draw encoded under landed :
  vs_inv vs cands -> manifest_writer vs = true -> apply_ok vs es draw ->
  VersionSetBytes.encode_records (edits_records es (unlogged vs)) (manifest_bytes vs) (sealing vs) draw = Ok (encoded, under) ->
  len (d_file (disk vs) ++ encoded) <= isize_max ->
  recoverable (keyring vs) (cands ++ [fold_left apply_edit es (current vs)])
    (d_file (disk vs) ++ takez landed encoded) (d_durable (disk vs)).
Proof.
  intros I Hw Hao He Hfit. destruct (iv_live _ _ I Hw) as (stamp & h1 & h2 & log1 & log2 & L & Hcov & Hk).
  destruct (edits_records es (unlogged vs)) as [|r rs] eqn:Hrs.
  { injection He as <- <-. unfold takez. rewrite take_nil, app_nil_r. apply (recoverable_mono _ cands); [|apply I].
    intros v Hv. apply elem_of_app. by left. }
  rewrite (vl_disk _ _ _ _ _ _ L) in *. cbn [d_file d_durable] in *. rewrite <- !app_assoc in Hfit.
  pose proof (len_nonneg stamp). pose proof (len_nonneg log1). pose proof (len_nonneg log2). pose proof (len_nonneg encoded).
  assert (Hle : len encoded <= isize_max) by (rewrite !len_app in Hfit; lia).
  assert (Hne : edits_records es (unlogged vs) <> []) by (by rewrite Hrs). rewrite <- Hrs in *.
  destruct (apply_entry _ _ _ _ _ _ _ _ _ _ L Hao Hne He Hle) as [Hlog Hra]. rewrite replay_entries_app in Hlog.
  pose proof (log_of_app _ _ _ _ _ _ _ _ (vl_log2 _ _ _ _ _ _ L) Hlog) as Hl2e.
  exists (vs_salt vs), stamp, h1. eexists (h2 ++ [_]), log1, (log2 ++ encoded). split_and!; [split|done|].
  all: try done; try apply L.
  - exists (len (stamp ++ log1 ++ log2) + Z.max 0 (Z.min landed (len encoded))). rewrite !len_app. split; [lia|].
    rewrite !(app_assoc _ _ encoded), <- !app_assoc, !(app_assoc stamp), !(app_assoc (stamp ++ log1)).
    unfold takez, len. rewrite take_app_ge by (rewrite !length_app; lia). f_equal.
    rewrite !length_app. destruct (Z.le_ge_cases landed (len encoded)) as [|Hge].
    + f_equal. unfold len in *. lia.
    + rewrite !take_ge by (unfold len in *; lia). done.
  - rewrite removelast_last. apply L.
  - apply covers_snoc; [done|]. rewrite app_assoc. unfold last_version. rewrite fold_left_app. cbn.
    symmetry. by apply raised_view.
Qed.

Lemma survivors_keep vs es draw (vs' : VersionSet reader) cands :
  vs_inv vs' cands -> vs_inv vs' (survivors vs es draw vs' cands).
Proof.
  intros I. pose proof (inv_settled _ _ I) as Is. unfold survivors. unfold survivors_rewrite in Is.
  destruct (settled vs'); [done|]. destruct (attempted vs es draw); [|done].
  apply (inv_mono _ cands); [|done]. intros v Hv. apply elem_of_app. by left.
Qed.

Lemma apply_dead vs cands es draw io salt_draw rewrite_draw rio vs' r :
  vs_inv vs cands -> manifest_writer vs = false -> apply vs es draw io salt_draw rewrite_draw rio = (vs', r) ->
  vs_inv vs' cands /\ r <> Ok ().
Proof.
  intros I Hw. unfold apply. rewrite Hw. cbn [negb].
  destruct (validate_edits es) as [u| | |]; try (intros [= <- <-]; done).
  destruct (VersionSetBytes.encode_records _ _ _ _) as [[encoded under]| | |]; intros [= <- <-]; (split; [|done]);
    try done; (split; cbn; [apply I..|by rewrite Hw]).
Qed.

(** Every apply keeps the manifest recoverable, acknowledged or not. *)
Lemma apply_inv vs cands es draw io salt_draw rewrite_draw rio vs' r :
  vs_inv vs cands -> apply_step vs es draw salt_draw rewrite_draw ->
  apply vs es draw io salt_draw rewrite_draw rio = (vs', r) ->
  vs_inv vs' (survivors vs es draw vs' cands) /\
  (r = Ok () -> current vs' = fold_left apply_edit es (current vs) /\
     (existsb ManifestRecord.requires_sync (edits_records es (unlogged vs)) = true -> settled vs' = true)).
Proof.
  intros I [Hao Hsd Hrd Hfit Hrfit] Ha. destruct (manifest_writer vs) eqn:Hw.
  2:{ destruct (apply_dead _ _ _ _ _ _ _ _ _ _ I Hw Ha) as [I' Hr]. split; [by apply survivors_keep|done]. }
  destruct (apply_cases _ _ _ _ _ _ _ _ _ Hw Ha) as [[-> Hr]|(Hat & encoded & under & He & Hcase)].
  { split; [by apply survivors_keep|done]. }
  destruct (appended_inv _ _ _ _ _ _ I Hw Hao He (Hfit _ _ He)) as [I1 Hs1].
  destruct Hcase as [(landed & -> & Hr)|[[-> ->]|Hc]].
  - split; [|done]. unfold survivors, settled. cbn [with_writer manifest_writer andb]. rewrite Hat.
    split; cbn; [apply I| | |done].
    + by apply append_failed_inv with (draw := draw) (under := under); [..|apply (Hfit _ under)].
    + intros file n Ho. destruct (iv_live _ _ I Hw) as (? & ? & ? & ? & ? & L & _). by rewrite (vl_disk _ _ _ _ _ _ L) in Ho.
  - split; [|done]. by apply (survivors_more _ _ _ _ _ (cands ++ [fold_left apply_edit es (current vs)]) Hat).
  - destruct (compact_inv _ _ _ _ _ _ _ I1 Hsd Hrd Hc (fun vs2 => Hrfit _ _ vs2 He)) as [I2 Hr]. split.
    + eapply (survivors_more _ _ _ _ _ _ Hat); [|exact I2]. intros v. unfold survivors_rewrite.
      destruct (settled _); [|done]. intros ->%list_elem_of_singleton. apply elem_of_app. right. by left.
    + intros E. destruct (Hr E) as [Hs Hcur]. split; [by rewrite Hcur|done].
Qed.

(** What a power cut may leave under the manifest's name: of the file there, or
    of the one a rename not yet synced replaced. *)
Definition cut_of (d : Disk) (data : bytes) : Prop :=
  power_cut (d_file d) (d_durable d) data \/
  exists file durable, d_old d = Some (file, durable) /\ power_cut file durable data.

(** A database stays sealed or unsealed, and its keyring keeps every key. *)
Definition keeps_keys (kr kr' : option Keyring) : Prop :=
  match kr, kr' with
  | None, None => True
  | Some k, Some k' => forall id s, (sealer k id).2 = Ok s -> (sealer k' id).2 = Ok s
  | _, _ => False
  end.

Lemma keeps_keys_kept salt kr kr' : keeps_keys kr kr' -> (kr = None <-> salt = None) ->
  (kr' = None <-> salt = None) /\ keys_kept salt kr kr'.
Proof.
  intros Hkk Hs. split; [rewrite <- Hs; unfold keeps_keys in Hkk; destruct kr, kr'; done|].
  unfold keys_kept, keeps_keys in *. destruct salt; [|done]. destruct kr as [k|], kr' as [k'|]; try done.
  - by exists k, k'.
  - discriminate (proj1 Hs eq_refl).
Qed.

Context (open_table : SsTableMeta -> outcome reader) (range_tombstones : reader -> list RangeTombstone).

Definition tables_open (cands : list (Version reader)) : Prop :=
  forall v m, v ∈ cands -> m ∈ List.concat (metas v) -> exists r, open_table m = Ok r.

Lemma recoverable_opens kr kr' cands file durable data suspects highest stamp_draw salt_draw draw rio :
  recoverable kr cands file durable -> power_cut file durable data -> keeps_keys kr kr' ->
  (forall k, kr' = Some k -> is_u32 (provider_current k)) -> addressable data -> tables_open cands ->
  exists vs', open_with_policy open_table range_tombstones (Some (data, len data)) kr' suspects highest
      stamp_draw salt_draw draw rio = Ok vs' /\
    vs_inv vs' [current vs'] /\ exists v, v ∈ cands /\ same_view v (current vs').
Proof.
  intros (salt & stamp & h1 & h2 & log1 & log2 & D & Hs & Hcov) P Hkk Hk Ha Ht.
  destruct (keeps_keys_kept salt kr kr' Hkk Hs) as [Hs' K].
  destruct (cut_opens open_table range_tombstones kr kr' file durable salt stamp h1 h2 log1 log2 data suspects highest
    stamp_draw salt_draw draw rio D P K Hs' Hk Ha) as (e & c & vs' & v' & h & log & Eh & Eo & L & Hro & Hcur & Hkr & Hsalt).
  { intros e c Eh m Hm. destruct (Hcov e c Eh) as (v & Hv & Hsv). apply (Ht v m Hv). by rewrite <- (sv_metas _ _ Hsv). }
  exists vs'. split; [done|]. split.
  - apply (live_inv_set _ stamp h [] log []); [done| |by rewrite Hkr, Hsalt].
    apply (settled_one _ _ _ _ _ _ L). by apply (live_settled _ stamp h log []).
  - destruct (Hcov e c Eh) as (v & Hv & Hsv). exists v. split; [done|]. rewrite Hcur, Hsv.
    by apply (reopened_view open_table).
Qed.

Lemma cut_reopens vs cands kr' data suspects highest stamp_draw salt_draw draw rio :
  vs_inv vs cands -> cut_of (disk vs) data -> keeps_keys (keyring vs) kr' ->
  (forall k, kr' = Some k -> is_u32 (provider_current k)) -> addressable data -> tables_open cands ->
  exists vs', open_with_policy open_table range_tombstones (Some (data, len data)) kr' suspects highest
      stamp_draw salt_draw draw rio = Ok vs' /\
    vs_inv vs' [current vs'] /\ exists v, v ∈ cands /\ same_view v (current vs').
Proof.
  intros I [P|(file & n & Ho & P)] Hkk Hk Ha Ht.
  - by apply (recoverable_opens (keyring vs) kr' cands (d_file (disk vs)) (d_durable (disk vs))); [apply I|..].
  - by apply (recoverable_opens (keyring vs) kr' cands file n); [apply I|..].
Qed.

(** A manifest just created holds no table. *)
Lemma created_inv kr suspects highest stamp_draw salt_draw draw rio vs :
  open_with_policy open_table range_tombstones None kr suspects highest stamp_draw salt_draw draw rio = Ok vs ->
  salt_draw_ok stamp_draw -> (forall k, kr = Some k -> is_u32 (provider_current k)) ->
  vs_inv vs [current vs] /\ current vs = with_next_id version_new highest.
Proof.
  intros Ho Hd Hk. unfold open_with_policy in Ho. apply bind_Ok in Ho as ([stamp salt] & Hc & Ho).
  unfold create_stamped in Hc. apply bind_Ok in Hc as (salt' & Esalt & Hc). apply bind_Ok in Hc as (st & Est & Hc).
  injection Hc as <- <-. assert (Hsalt : salt_ok salt' /\ (kr = None <-> salt' = None)).
  { destruct kr; [|by injection Esalt as <-]. apply bind_Ok in Esalt as (x & Ex & E). injection E as <-.
    unfold sealed.fresh_salt in Ex. rewrite Ex in Hd. done. }
  destruct Hsalt as [Hsalt Hs]. destruct (stamp_bytes_Ok salt' Hsalt) as (st' & Est' & Hl). rewrite Est in Est'.
  injection Est' as <-. unfold open_finish in Ho. apply bind_Ok in Ho as (sl & Esl & Ho).
  assert (Hsl : sl = match kr, salt' with Some k, Some x => Some (mkManifestSeal k x) | _, _ => None end).
  { unfold VersionSetBytes.sealing in Esl. destruct kr, salt'; first [by injection Esl as <-|discriminate Esl]. }
  assert (Hv : vs = mkVersionSet (with_next_id version_new highest) (len st) true None kr sl [] None
    [RangeDeletesChecked] false false (mkDisk st (len st) None)).
  { destruct kr, salt'; subst sl; cbn in Ho; first [by injection Ho as <-|discriminate (proj2 Hs eq_refl)]. }
  assert (Hvs : vs_salt vs = salt') by (subst vs sl; unfold vs_salt; cbn; destruct kr, salt'; try done; discriminate (proj1 Hs eq_refl)).
  split; [|by rewrite Hv]. assert (Hfits : len st <= isize_max).
  { pose proof isize_max_eq. pose proof usize_max_range. rewrite Hl.
    destruct salt'; unfold stamp_size, sealed.SEALED_STAMP_LEN, MANIFEST_STAMP_LEN; lia. }
  assert (L : vs_live vs st [] [] [] []).
  { split; rewrite ?Hvs, ?Hv; cbn; rewrite ?app_nil_r; try done; try apply log_nil.
    - subst sl. intros sl'. clear. destruct kr, salt'; try done. by intros [= <-].
    - change (len (@nil byte)) with 0. by rewrite Z.add_0_r.
    - by apply with_next_raised.
    - by right. }
  apply (live_inv_set _ st [] [] [] []); [done|by apply (settled_one _ _ _ _ _ _ L), (live_settled _ st [] [] [])|].
  rewrite Hvs. by rewrite Hv.
Qed.

(** The life of a manifest: created, edited, rewritten, and cut off and opened
    again any number of times; with each set, the versions a power cut may leave. *)
Inductive life : VersionSet reader -> list (Version reader) -> Prop :=
| life_created kr suspects highest stamp_draw salt_draw draw rio vs :
    open_with_policy open_table range_tombstones None kr suspects highest stamp_draw salt_draw draw rio = Ok vs ->
    salt_draw_ok stamp_draw -> (forall k, kr = Some k -> is_u32 (provider_current k)) -> life vs [current vs]
| life_applied vs cands es draw io salt_draw rewrite_draw rio vs' r :
    life vs cands -> apply_step vs es draw salt_draw rewrite_draw ->
    apply vs es draw io salt_draw rewrite_draw rio = (vs', r) -> life vs' (survivors vs es draw vs' cands)
| life_rewritten vs cands salt_draw draw io vs' r :
    life vs cands -> salt_draw_ok salt_draw -> nonce_draw draw -> compact_manifest vs salt_draw draw io = (vs', r) ->
    (forall vs2, compact_manifest vs salt_draw draw Rewritten = (vs2, Ok ()) -> len (d_file (disk vs2)) <= isize_max) ->
    life vs' (survivors_rewrite vs' cands)
| life_cut vs cands kr' data suspects highest stamp_draw salt_draw draw rio vs' :
    life vs cands -> cut_of (disk vs) data -> keeps_keys (keyring vs) kr' ->
    (forall k, kr' = Some k -> is_u32 (provider_current k)) -> addressable data -> tables_open cands ->
    open_with_policy open_table range_tombstones (Some (data, len data)) kr' suspects highest
      stamp_draw salt_draw draw rio = Ok vs' ->
    life vs' [current vs'].

Lemma life_inv vs cands : life vs cands -> vs_inv vs cands.
Proof.
  induction 1 as [kr suspects highest stamp_draw salt_draw draw rio vs Ho Hd Hk
    |vs cands es draw io salt_draw rewrite_draw rio vs' r Hl IH Hs Ha
    |vs cands salt_draw draw io vs' r Hl IH Hsd Hd Hc Hf
    |vs cands kr' data suspects highest stamp_draw salt_draw draw rio vs' Hl IH Hc Hkk Hk Ha Ht Ho].
  - by apply (created_inv _ _ _ _ _ _ _ _ Ho Hd Hk).
  - by apply (apply_inv _ _ _ _ _ _ _ _ _ _ IH Hs Ha).
  - by apply (compact_inv _ _ _ _ _ _ _ IH Hsd Hd Hc Hf).
  - destruct (cut_reopens _ _ _ _ suspects highest stamp_draw salt_draw draw rio IH Hc Hkk Hk Ha Ht) as (vs2 & E2 & I2 & _).
    rewrite Ho in E2. apply Ok_inj in E2 as <-. done.
Qed.

End Life.

(** ** Reading always ends *)

Section Returns.
Context `{T : Target} `{XL : Xxh3Laws} `{AL : AeadLaws} {reader : Type}.
Context (open_table : SsTableMeta -> outcome reader) (range_tombstones : reader -> list RangeTombstone).
Hypothesis open_returns : forall m, returns (open_table m).







End Returns.

(** ** What an open reads but does not sync *)

Lemma batch_at_past `{T : Target} `{XL : Xxh3Laws} data x : len data <= isize_max -> len data <= x -> tail.batch_at data x = Ok None.
Proof.
  intros Hi Hx. destruct (batch_at_total data x Hi) as ([b|] & -> & Hb); [|done].
  destruct (Hb b eq_refl) as [He _]. unfold tail.FRAMING in He. lia.
Qed.

(** Nothing is lost of a file that is durable throughout. *)
Lemma cut_nothing `{T : Target} `{XL : Xxh3Laws} file : len file <= isize_max -> power_cut file (len file) file.
Proof.
  intros Hi. split; [done|lia|]. intros x b Hx. by rewrite (batch_at_past file x Hi Hx).
Qed.

(** All that was not synced may be lost. *)
Lemma cut_durable_part `{T : Target} `{XL : Xxh3Laws} data t : len data <= isize_max -> power_cut (data ++ t) (len data) data.
Proof.
  intros Hi. pose proof (len_nonneg t). split; [by rewrite takez_all, takez_app by lia|rewrite len_app; lia|].
  intros x b Hx. by rewrite (batch_at_past data x Hi Hx).
Qed.

(** ** Properties *)

Section Theorems.
Context `{T : Target} `{XL : Xxh3Laws} `{AL : AeadLaws} {reader : Type}.
Context (open_table : SsTableMeta -> outcome reader) (range_tombstones : reader -> list RangeTombstone).

(** C3: Power cuts. Whatever a manifest went through since it was created, in
    applies and rewrites that returned or failed at any step and in earlier power
    cuts, an open of what a power cut leaves of it succeeds, and finds the tables,
    sequence and logs of one of the versions that may survive: the last one made
    durable, or a later one. *)
Theorem manifest_survives_power_cuts vs cands kr' data suspects highest stamp_draw salt_draw draw rio :
  life open_table range_tombstones vs cands -> cut_of (disk vs) data -> keeps_keys (keyring vs) kr' ->
  (forall k, kr' = Some k -> is_u32 (provider_current k)) -> addressable data -> tables_open open_table cands ->
  exists vs', open_with_policy open_table range_tombstones (Some (data, len data)) kr' suspects highest
      stamp_draw salt_draw draw rio = Ok vs' /\
    exists v, v ∈ cands /\ same_view v (current vs').
Proof.
  intros Hl Hc Hkk Hk Ha Ht.
  destruct (cut_reopens open_table range_tombstones _ _ _ _ suspects highest stamp_draw salt_draw draw rio
    (life_inv _ _ _ _ Hl) Hc Hkk Hk Ha Ht) as (vs' & Ho & _ & Hv). eauto.
Qed.

(** C4: An acknowledged edit survives. Once an apply whose records ask for a sync
    has returned, an open after a power cut finds exactly the version the edits
    lead to. *)
Theorem acknowledged_edits_survive vs cands es draw io salt_draw rewrite_draw rio vs' kr' data suspects highest
    stamp_draw salt_draw' draw' rio' :
  life open_table range_tombstones vs cands -> apply_step vs es draw salt_draw rewrite_draw ->
  apply vs es draw io salt_draw rewrite_draw rio = (vs', Ok ()) ->
  existsb ManifestRecord.requires_sync (edits_records es (unlogged vs)) = true ->
  cut_of (disk vs') data -> keeps_keys (keyring vs') kr' ->
  (forall k, kr' = Some k -> is_u32 (provider_current k)) -> addressable data ->
  tables_open open_table [fold_left apply_edit es (current vs)] ->
  exists vs'', open_with_policy open_table range_tombstones (Some (data, len data)) kr' suspects highest
      stamp_draw salt_draw' draw' rio' = Ok vs'' /\
    same_view (fold_left apply_edit es (current vs)) (current vs'').
Proof.
  intros Hl Hs Ha Hreq Hc Hkk Hk Had Ht.
  destruct (apply_inv _ _ _ _ _ _ _ _ _ _ (life_inv _ _ _ _ Hl) Hs Ha) as [I Hr].
  destruct (Hr eq_refl) as [Hcur Hset]. unfold survivors in I. rewrite (Hset Hreq), Hcur in I.
  destruct (cut_reopens open_table range_tombstones _ _ _ _ suspects highest stamp_draw salt_draw' draw' rio'
    I Hc Hkk Hk Had Ht) as (vs'' & Ho & _ & v & ->%list_elem_of_singleton & Hv). eauto.
Qed.






Lemma addressable_prefix data t : addressable (data ++ t) -> addressable data.
Proof.
  intros [Hi Hw]. split; [rewrite len_app in Hi; pose proof (len_nonneg t); lia|]. intros x b edits Hx Hb.
  apply (Hw x b edits Hx). by apply batch_at_longer.
Qed.

(** An open of a file that is a log throughout, of which [durable] bytes are
    synced: it returns the log's version and has synced no more. *)
Lemma whole_log_opens kr kr' salt stamp h log durable suspects highest stamp_draw salt_draw draw rio :
  salt_ok salt -> VersionSetBytes.stamp_bytes salt = Ok stamp -> log_of salt kr (len stamp) replay_start h log ->
  keys_kept salt kr kr' -> (kr' = None <-> salt = None) -> addressable (stamp ++ log) ->
  (forall m, m ∈ List.concat (metas (last_version version_new h)) -> exists r, open_table m = Ok r) ->
  exists vs', open_with_policy open_table range_tombstones (Some (stamp ++ log, durable)) kr' suspects highest
      stamp_draw salt_draw draw rio = Ok vs' /\
    same_view (last_version version_new h) (current vs') /\ disk vs' = mkDisk (stamp ++ log) durable None.
Proof.
  intros Hsalt Hst Hl K Hs Ha Hop. pose proof (log_of_keys _ _ _ _ _ _ _ K Hl) as Hl'. rewrite <- (app_nil_r log) in Ha.
  pose proof (log_of_length _ _ _ _ _ _ Hl') as Hlen. pose proof Ha as [Hi _]. pose proof (len_nonneg stamp).
  set (data := stamp ++ log ++ []) in *.
  assert (Hd : len data = len stamp + len log) by (unfold data; by rewrite app_nil_r, len_app).
  destruct (replay_through salt kr' data (len stamp) replay_start h log [] [] (S (length data) - length h) Hi Hl') as [keys Hr].
  { by exists stamp. }
  replace (length h + (S (length data) - length h))%nat with (S (length data)) in Hr by (unfold len in *; lia).
  assert (Hpass : replay_batches (S (length data)) data (len stamp) salt kr' [] replay_start =
    Ok (replay_entries replay_start h, len stamp + len log, keys)).
  { rewrite Hr. destruct (S (length data) - length h)%nat eqn:E; [unfold len in *; lia|]. cbn [replay_batches].
    destruct (Z.ltb_spec (len stamp + len log) (len data)); [lia|done]. }
  assert (Hno : forall y p, len stamp + len log < y -> ~ proves_at data y (opener salt kr') p).
  { intros y p Hy (b & Eb & _). destruct (batch_at_total data y Hi) as (o & Eo & Ho). rewrite Eb in Eo. injection Eo as <-.
    destruct (Ho b eq_refl) as [Hend _]. unfold tail.FRAMING in Hend. lia. }
  destruct (reads_open kr' salt stamp h log [] keys open_table range_tombstones Hsalt Hst Hs Hl' Ha Hpass Hno Hop
    durable suspects highest stamp_draw salt_draw draw rio) as (v' & Hro & Eo).
  rewrite app_nil_r in Eo. eexists. split; [exact Eo|]. split; [|done]. by apply (reopened_view open_table).
Qed.

(** C36: An open does not make durable what it reads. Take a manifest everything of
    which is durable, whatever its life so far, and an apply whose batch reached
    the host whole but whose sync did not complete. An open of the file as the host
    has it reads the batch, and its version is the one the edits lead to; but it
    syncs nothing, so a power cut may still leave the manifest without the batch,
    and the next open is back at the version before the edits. What was removed
    on the strength of the first open, the log behind a flushed table or the inputs
    of a compaction, is then missed. *)
Theorem reopened_batch_can_vanish vs cands es draw landed salt_draw rewrite_draw rio vs' r kr' suspects highest
    stamp_draw salt_draw' draw' rio' :
  life open_table range_tombstones vs cands -> settled vs = true -> apply_step vs es draw salt_draw rewrite_draw ->
  apply vs es draw (AppendFailed landed) salt_draw rewrite_draw rio = (vs', r) -> attempted vs es draw = true ->
  (forall encoded under, VersionSetBytes.encode_records (edits_records es (unlogged vs)) (manifest_bytes vs) (sealing vs) draw
     = Ok (encoded, under) -> encoded <> [] /\ len encoded <= landed) ->
  keeps_keys (keyring vs) kr' -> (forall k, kr' = Some k -> is_u32 (provider_current k)) ->
  addressable (d_file (disk vs')) -> tables_open open_table [current vs; fold_left apply_edit es (current vs)] ->
  exists vs1 vs2,
    open_with_policy open_table range_tombstones (Some (d_file (disk vs'), d_durable (disk vs'))) kr' suspects highest
      stamp_draw salt_draw' draw' rio' = Ok vs1 /\
    same_view (fold_left apply_edit es (current vs)) (current vs1) /\
    cut_of (disk vs1) (d_file (disk vs)) /\
    open_with_policy open_table range_tombstones (Some (d_file (disk vs), len (d_file (disk vs)))) kr' suspects highest
      stamp_draw salt_draw' draw' rio' = Ok vs2 /\
    same_view (current vs) (current vs2).
Proof.
  intros Hlife Hset [Hao _ _ Hfit _] Happ Hatt Hwhole Hkk Hk Ha Ht. pose proof (life_inv _ _ _ _ Hlife) as I.
  apply inv_settled in I. unfold survivors_rewrite in I. rewrite Hset in I.
  assert (Hw : manifest_writer vs = true) by (unfold settled in Hset; by destruct (manifest_writer vs)).
  destruct (iv_live _ _ I Hw) as (stamp & h1 & h2 & log1 & log2 & L & _ & Hks).
  destruct (settled_one _ _ _ _ _ _ L Hset) as [-> _]. pose proof (vl_log2 _ _ _ _ _ _ L) as Hl2. inversion Hl2; subst log2. clear Hl2.
  unfold apply, attempted in *. rewrite Hw in *. destruct (validate_edits es) as [u| | |]; try done.
  destruct (VersionSetBytes.encode_records _ _ _ _) as [[encoded under]| | |] eqn:He; try done. cbn [negb] in Happ.
  injection Happ as <- <-. cbn [with_writer disk d_file d_durable] in *. destruct (Hwhole _ _ eq_refl) as [Hne Hland].
  specialize (Hfit _ _ eq_refl). rewrite (takez_all landed encoded) in * by done.
  pose proof (vl_disk _ _ _ _ _ _ L) as Hdisk. rewrite app_nil_r in Hdisk. rewrite Hdisk in *. cbn [d_file d_durable d_old] in *.
  rewrite <- !app_assoc in *. pose proof (len_nonneg stamp). pose proof (len_nonneg log1). pose proof (len_nonneg encoded).
  assert (Hrs : edits_records es (unlogged vs) <> []) by (intros E; rewrite E in He; by injection He as <- <-).
  assert (Hle : len encoded <= isize_max) by (rewrite !len_app in Hfit; lia).
  destruct (apply_entry _ _ _ _ _ _ _ _ _ _ L Hao Hrs He Hle) as [Hlog Hra].
  rewrite app_nil_r in Hlog, Hra. change (len (@nil byte)) with 0 in Hlog. rewrite Z.add_0_r in Hlog.
  pose proof (log_of_app _ _ _ _ _ _ _ _ (vl_log1 _ _ _ _ _ _ L) Hlog) as Hl.
  destruct (keeps_keys_kept (vs_salt vs) (keyring vs) kr' Hkk Hks) as [Hs' K].
  destruct (whole_log_opens (keyring vs) kr' (vs_salt vs) stamp _ (log1 ++ encoded) (len stamp + len log1) suspects highest
    stamp_draw salt_draw' draw' rio' (vl_salt _ _ _ _ _ _ L) (vl_stamp _ _ _ _ _ _ L) Hl K Hs' Ha) as (vs1 & Ho1 & Hv1 & Hd1).
  { intros m Hm. apply (Ht (fold_left apply_edit es (current vs)) m); [by right; left|].
    unfold last_version in Hm. rewrite fold_left_app in Hm. by rewrite (sv_metas _ _ (raised_view _ _ Hra)). }
  unfold last_version in Hv1. rewrite fold_left_app in Hv1. cbn in Hv1.
  assert (Ha0 : addressable (stamp ++ log1)) by (apply (addressable_prefix _ encoded); by rewrite <- app_assoc).
  destruct (cut_reopens open_table range_tombstones vs [current vs] kr' (stamp ++ log1) suspects highest stamp_draw salt_draw'
    draw' rio' I) as (vs2 & Ho2 & _ & v & ->%list_elem_of_singleton & Hv2); try done.
  { left. rewrite Hdisk. cbn. rewrite <- len_app. by apply cut_nothing, Ha0. }
  { intros v m ->%list_elem_of_singleton. apply Ht. by left. }
  exists vs1, vs2. split_and!; try done; [by rewrite <- Hv1; symmetry; apply raised_view| ].
  left. rewrite Hd1. cbn [d_file d_durable]. rewrite <- len_app. rewrite app_assoc. apply cut_durable_part, Ha0.
Qed.
End Theorems.

(** ** Samples *)

Definition sample_nonce : bytes := replicate 12 Byte.x00.

Definition sample_open_set (found : option (bytes * Z)) : outcome (VersionSet Z) :=
  open_with_policy (T := target64) (X := toy_xxh3) (A := toy_aead) sample_open (fun _ => []) found None 0 None
    (Ok sample_salt) (Ok sample_salt) (Ok []) Rewritten.
Definition sample_apply (vs : VersionSet Z) (io : append_io) : VersionSet Z * outcome unit :=
  apply (X := toy_xxh3) (A := toy_aead) vs sample_edits (Ok sample_nonce) io (Ok sample_salt) (Ok sample_nonce) Rewritten.

Definition sample_created : VersionSet Z :=
  Eval vm_compute in match sample_open_set None with Ok vs => vs | _ => mkVersionSet version_new 0 false None None None [] None [] false false (mkDisk [] 0 None) end.
Definition sample_applied : VersionSet Z := Eval vm_compute in (sample_apply sample_created Appended).1.

Lemma sample_life : life (T := target64) (X := toy_xxh3) (A := toy_aead) sample_open (fun _ => []) sample_created
  [current sample_created].
Proof.
  eapply life_created with (kr := None) (suspects := 0) (highest := None) (stamp_draw := Ok sample_salt)
    (salt_draw := Ok sample_salt) (draw := Ok []) (rio := Rewritten); [computed|reflexivity|done].
Qed.


Definition sample_encoded : bytes :=
  Eval vm_compute in match VersionSetBytes.encode_records (X := toy_xxh3) (A := toy_aead)
    (edits_records sample_edits (unlogged sample_created)) (manifest_bytes sample_created) None (Ok sample_nonce) with
  | Ok (b, _) => b | _ => [] end.
Definition sample_rewritten : VersionSet Z :=
  Eval vm_compute in (compact_manifest (X := toy_xxh3) (A := toy_aead)
    (appended (A := toy_aead) sample_created sample_edits sample_encoded None) (Ok sample_salt) (Ok sample_nonce) Rewritten).1.

Lemma sample_step : apply_step (T := target64) (X := toy_xxh3) (A := toy_aead) sample_created sample_edits
  (Ok sample_nonce) (Ok sample_salt) (Ok sample_nonce).
Proof.
  assert (He : VersionSetBytes.encode_records (X := toy_xxh3) (A := toy_aead)
    (edits_records sample_edits (unlogged sample_created)) (manifest_bytes sample_created) (sealing sample_created)
    (Ok sample_nonce) = Ok (sample_encoded, None)) by computed.
  split; [split| | | |].
  - exact sample_edits_ok.
  - unfold sample_edits, edits_records. cbn [fold_left to_records app push_table].
    repeat constructor; cbn; unfold level_ok, MAX_LEVELS, is_u64, is_u32, U64_MAX, U32_MAX; try lia; try done.
  - computed.
  - done.
  - reflexivity.
  - done.
  - intros encoded under E. rewrite He in E. injection E as <- <-. apply Z.leb_le. computed.
  - intros encoded under vs2 E Hc. rewrite He in E. injection E as <- <-.
    assert (Hr : compact_manifest (X := toy_xxh3) (A := toy_aead) (appended (A := toy_aead) sample_created sample_edits sample_encoded None)
      (Ok sample_salt) (Ok sample_nonce) Rewritten = (sample_rewritten, Ok ())) by computed.
    rewrite Hr in Hc. injection Hc as <-. apply Z.leb_le. computed.
Qed.

Definition sample_file : bytes := Eval vm_compute in d_file (disk sample_applied).

Lemma sample_fits : addressable (T := target64) (X := toy_xxh3) (A := toy_aead) sample_file.
Proof. apply (@addressable_64 target64 toy_xxh3 toy_xxh3_laws toy_aead toy_aead_laws); [reflexivity|apply Z.leb_le; computed]. Qed.

Lemma sample_cut : power_cut (T := target64) (X := toy_xxh3) sample_file (len sample_file) sample_file.
Proof. exact (@cut_nothing target64 toy_xxh3 toy_xxh3_laws sample_file (proj1 sample_fits)). Qed.

Lemma acknowledged_edits_survive_witness : exists vs,
  open_with_policy (T := target64) (X := toy_xxh3) (A := toy_aead) sample_open (fun _ => [])
    (Some (sample_file, len sample_file)) None 0 None (Ok sample_salt) (Ok sample_salt) (Ok sample_nonce) Rewritten = Ok vs /\
  same_view (fold_left apply_edit sample_edits version_new) (current vs).
Proof.
  apply (@acknowledged_edits_survive target64 toy_xxh3 toy_xxh3_laws toy_aead toy_aead_laws Z sample_open (fun _ => [])
    sample_created [current sample_created] sample_edits (Ok sample_nonce) Appended (Ok sample_salt) (Ok sample_nonce)
    Rewritten sample_applied None sample_file 0 None (Ok sample_salt) (Ok sample_salt) (Ok sample_nonce) Rewritten
    sample_life sample_step); [computed|computed|left|done|done|exact sample_fits|].
  - exact sample_cut.
  - intros v m _ _. by eexists.
Defined.

Lemma manifest_survives_power_cuts_witness : exists vs,
  open_with_policy (T := target64) (X := toy_xxh3) (A := toy_aead) sample_open (fun _ => [])
    (Some (sample_file, len sample_file)) None 0 None (Ok sample_salt) (Ok sample_salt) (Ok sample_nonce) Rewritten = Ok vs /\
  exists v, v ∈ [current sample_applied] /\ same_view v (current vs).
Proof.
  apply (@manifest_survives_power_cuts target64 toy_xxh3 toy_xxh3_laws toy_aead toy_aead_laws Z sample_open (fun _ => [])
    sample_applied [current sample_applied] None sample_file 0 None (Ok sample_salt) (Ok sample_salt) (Ok sample_nonce) Rewritten);
    [|left|done|done|exact sample_fits|].
  - refine (life_applied _ _ sample_created [current sample_created] sample_edits (Ok sample_nonce) Appended (Ok sample_salt)
      (Ok sample_nonce) Rewritten sample_applied (Ok ()) sample_life sample_step _). computed.
  - exact sample_cut.
  - intros v m _ _. by eexists.
Defined.


(** A batch with the host whose sync did not complete. *)
Definition sample_unsynced : VersionSet Z :=
  Eval vm_compute in (sample_apply sample_created (AppendFailed (len sample_encoded))).1.
Definition sample_left : bytes := Eval vm_compute in d_file (disk sample_unsynced).

Lemma reopened_batch_can_vanish_witness : exists vs1 vs2,
  open_with_policy (T := target64) (X := toy_xxh3) (A := toy_aead) sample_open (fun _ => []) (Some (sample_left, 12)) None 0 None
    (Ok sample_salt) (Ok sample_salt) (Ok []) Rewritten = Ok vs1 /\
  same_view (fold_left apply_edit sample_edits (current sample_created)) (current vs1) /\
  cut_of (T := target64) (X := toy_xxh3) (disk vs1) (d_file (disk sample_created)) /\
  open_with_policy (T := target64) (X := toy_xxh3) (A := toy_aead) sample_open (fun _ => [])
    (Some (d_file (disk sample_created), len (d_file (disk sample_created)))) None 0 None
    (Ok sample_salt) (Ok sample_salt) (Ok []) Rewritten = Ok vs2 /\
  same_view (current sample_created) (current vs2).
Proof.
  apply (@reopened_batch_can_vanish target64 toy_xxh3 toy_xxh3_laws toy_aead toy_aead_laws Z sample_open (fun _ => [])
    sample_created [current sample_created] sample_edits (Ok sample_nonce) (len sample_encoded) (Ok sample_salt) (Ok sample_nonce)
    Rewritten sample_unsynced (Err (mkError OtherError "host" [])) None 0 None (Ok sample_salt) (Ok sample_salt) (Ok []) Rewritten
    sample_life); [computed|exact sample_step|computed|computed| |done|done| |].
  - intros encoded under E. assert (He : VersionSetBytes.encode_records (X := toy_xxh3) (A := toy_aead)
      (edits_records sample_edits (unlogged sample_created)) (manifest_bytes sample_created) (sealing sample_created)
      (Ok sample_nonce) = Ok (sample_encoded, None)) by computed.
    rewrite He in E. injection E as <- <-. split; [done|lia].
  - apply (@addressable_64 target64 toy_xxh3 toy_xxh3_laws toy_aead toy_aead_laws); [reflexivity|apply Z.leb_le; computed].
  - intros v m _ _. by eexists.
Defined.
